(* ===== verification/_CoqProject ===== *)
-Q . S2P
Prelude.v
BitUtils.v
Leb128.v
Memory.v
BitMemory.v
BitTable.v
BitVector.v
HashSet.v
Utf.v
Locations.v
ParallelMove.v
ParallelMoveCorrect.v
ParallelMoveNoSwap.v
ParallelMoveScratch.v
SubtypeCheck.v
IndirectReferenceTable.v
SpaceBitmap.v
CardTable.v
LargeObjectSpace.v
LockWord.v
Monitor.v
MonitorQueues.v
MonitorProtocol.v
MonitorProgress.v
BitmapTable.v
StackMap.v
StackMapStream.v
StackMapTables.v
StackMapReader.v
StackMapDelta.v
StackMapInvariant.v
StackMapVerify.v
StackMapCorrect.v
CodeInfoLayout.v
CodeInfoDeduper.v
CodeInfoDeduperSteps.v
CodeInfoDeduperCorrect.v
CodeInfoSharing.v
