(* ===== verification/Prelude.v ===== *)
(** * Verification of parts of the Android Runtime (ART)

    ART runs the managed programs of Android: it loads dex files, verifies, interprets and compiles
    them, and manages their heap.  The repository has libraries shared by all its parts
    (libartbase, libdexfile, libprofile), the optimizing compiler, the runtime with its garbage
    collectors, and the tools around them.  This development models data structures and
    algorithms that the rest relies on, and proves them correct.

    ** Files and sources

    The paths are below src/.

    - Prelude.v: fixed-width integers, bits, lists, tactics and hints; no code of its own.
    - BitUtils.v: libartbase/base/bit_utils.h.
    - Leb128.v: libartbase/base/leb128.h.
    - Memory.v: bytes and words of memory, shared by the files below.
    - BitMemory.v: libartbase/base/bit_memory_region.h, over libartbase/base/memory_region.h.
    - BitTable.v: libartbase/base/bit_table.h, over BitMemory.v.
    - BitmapTable.v: the builder of tables of bitmaps of libartbase/base/bit_table.h, and the checks
      that the builders make of what they wrote.
    - StackMap.v: runtime/stack_map.h and .cc, the tables of a method's stack maps and their
      readers, with runtime/dex_register_location.h and the alignments of
      libartbase/arch/instruction_set.h.
    - StackMapStream.v: compiler/optimizing/stack_map_stream.h and .cc, which builds these tables
      and writes them with BitTable.v and BitmapTable.v.
    - StackMapTables.v (the written tables), StackMapReader.v (reading them back), StackMapDelta.v
      (the dex registers, kept as changes), StackMapInvariant.v (the stream while it is built),
      StackMapVerify.v (its debug checks) and StackMapCorrect.v (the theorems): proofs about the
      two.
    - CodeInfoDeduper.v: dex2oat/linker/code_info_table_deduper.h and .cc, which copies encoded
      stack maps to one output and replaces a table by the distance to an equal one, with the hash
      of bits of libartbase/base/data_hash.h; its set is HashSet.v.
    - CodeInfoLayout.v (where the tables of a code info are), CodeInfoDeduperSteps.v (the loops that
      insert and write tables), CodeInfoDeduperCorrect.v (whole calls) and CodeInfoSharing.v (the
      theorems, also about the way from a stream to the copy): proofs about it.
    - BitVector.v: libartbase/base/bit_vector.h, bit_vector-inl.h, bit_vector.cc.
    - HashSet.v: libartbase/base/hash_set.h, against the class [HashSetTraits] of its parameters.
    - Utf.v: libdexfile/dex/utf.h, utf-inl.h, utf.cc.
    - Locations.v: compiler/optimizing/locations.h, and what the moves use of data_type.h, nodes.h.
    - ParallelMove.v, ParallelMoveNoSwap.v: compiler/optimizing/parallel_move_resolver.h and .cc,
      the two resolvers of the moves of Locations.v, and what the code they emit does.
      ParallelMoveCorrect.v proves the one that uses swaps correct; ParallelMoveScratch.v has the
      scratch locations of compiler/optimizing/code_generator_arm64.cc and parallel_move_test.cc and
      proves the other one correct.
    - SubtypeCheck.v: runtime/subtype_check.h, subtype_check_info.h, subtype_check_bits.h,
      subtype_check_bits_and_status.h, and libartbase/base/bit_string.h.
    - IndirectReferenceTable.v: runtime/indirect_reference_table.h, -inl.h and .cc.
    - SpaceBitmap.v: runtime/gc/accounting/space_bitmap.h, -inl.h and .cc.
    - CardTable.v: runtime/gc/accounting/card_table.h, -inl.h and .cc; its scan visits the objects
      of SpaceBitmap.v.
    - LargeObjectSpace.v: runtime/gc/space/large_object_space.h and .cc; its sweep walks the bitmaps
      of SpaceBitmap.v.
    - LockWord.v: runtime/lock_word.h and -inl.h.
    - Monitor.v: runtime/monitor.h and .cc, and the identity hash codes and collector bits of
      runtime/mirror/object.cc and object-readbarrier-inl.h, over LockWord.v.  The theorems about it
      are in MonitorQueues.v (wait sets), MonitorProtocol.v (all interleavings) and
      MonitorProgress.v.

    Definitions have the names of the functions they translate; a loop of a function is a definition
    of its own, below the name of what it does.  The state of a component is a record with the
    members of the class; an operation takes the state and returns the new one.

    ** Conventions

    A [w]-bit unsigned integer is a number below [2 ^ w], wrap-around is written out with [uN] and
    [sN].  Undefined behaviour, accesses outside of an object, failed CHECKs and LOG(FATAL) are
    [None].  In Monitor.v they are values that say which one it is.  DCHECKs are hypotheses, except
    in BitmapTable.v, StackMap.v, StackMapStream.v and CodeInfoDeduper.v, which model the debug
    build: there a failed DCHECK is [None], and the checks that run after writing are part of the
    code; LargeObjectSpace.v takes the kind of build as a parameter, and the checks of scratch
    locations in ParallelMoveNoSwap.v are [None].  Locks are left out where they make an operation
    atomic; where the code is lock-free (SubtypeCheck.v, SpaceBitmap.v, CardTable.v) an operation
    takes the list of what other threads do between its accesses, and whether a weak
    compare-and-swap fails without a reason.  In Monitor.v a function is a program of atomic
    actions, and the threads that run such programs are a step relation.  Code outside of the
    sources is a parameter with laws: the hash and equality of HashSet.v, the scratch locations of
    ParallelMoveNoSwap.v, the register scope of the assembler in ParallelMoveScratch.v, the
    addresses of new mappings, the dex files and classes that a stack map stream looks up.

    ** What the theorems show

    - Encodings are inverses: LEB128 (all widths, in place, backwards), varints and bit regions at
      any offset, bit tables, modified UTF-8 and UTF-16, packed locations.  Checked readers never
      read past their end.
    - Stack maps: for every sequence of calls that describes a method, the stream passes all its
      debug checks, the written bytes decode to exactly the stack maps, inlined frames, masks and
      dex registers that were described, and the lookups by dex pc and native pc find the right one.
    - Sharing of tables: however many code infos are copied, no debug check fails, every copy
      decodes to its source, the stack maps that streams described are read from the copies, and
      equal tables of at least [kMinDedupSize] bits are stored once.
    - Containers refine sets and maps: BitVector.v and HashSet.v refine sets for every sequence of
      operations, with iteration and resizing, and a bit vector that may not grow fails when it
      would have to; IndirectReferenceTable.v refines a map and detects stale references until the
      serial number wraps; the free list space of LargeObjectSpace.v refines a map from addresses to
      sizes, and fails to allocate only when no place is free.
    - Both resolvers of parallel moves emit sequential code with the effect of the parallel move,
      with termination.  For the one that uses swaps, register pairs and double stack slots are two
      cells, and moves of pairs and of their halves may block each other; the exact conditions are
      [moves_ok]. For the one that uses scratch locations, locations that overlap are equal.
    - The subtype check bits decide subtyping exactly whenever they decide at all, for every order
      of initialisation and assignment; overflow is an answer, not an error.
    - The word-by-word loops over bitmaps and cards visit exactly what the loops over single objects
      visit.  Sweeping frees exactly the dead objects of a space.
    - Lock-free updates lose no update under any interference, and end.
    - Object locks: for any number of threads and any interleaving, no CHECK fails but the one for a
      full recursion count and for a full monitor pool, and these only then, the lock is held by one
      thread with an exact recursion count, calls fail exactly when they should, and hash codes that
      are not zero agree, across inflation, waiting and deflation; a thread that nobody interferes
      with completes its call by its own steps.  The proof is by rely and guarantee: an invariant of
      the memory, what each thread can rely on, and a triple for each function.

    ** Fuel

    Loops that do not follow a structure take fuel, or the number of iterations the code computes.
    Running out of fuel is [None], and the theorems state that the result is [Some]: bits of a word
    for the loops over bits, the size of the storage for loops over words, probes and chunks, the
    numbers of moves pending and left for the resolvers, the number of rows for searches in tables,
    the length of the list of events for loops of compare-and-swap.

    ** Not modelled

    The compiler's graph and its optimisations, the code generators apart from the scratch locations of ARM64, the assemblers, the class
    linker, the interpreter, the verifier, the JIT, the collectors, threads and their mutexes, JNI
    calls, file formats and the tools.  They work on the managed heap, on mutable graphs, on machine
    code, system calls and files; their models would need those first.  Of the modelled files, what
    is left out is output to streams, statistics, names, and overloads that only change types. *)
From stdpp Require Export base tactics option list list_numbers numbers gmap.
From Stdlib Require Export ZArith Lia Bool Btauto.

#[export] Set Default Proof Using "Type".

(** ** Notations *)
Declare Scope art_scope.
Delimit Scope art_scope with art.
Infix ".&" := Z.land (at level 40, left associativity) : art_scope.
Infix ".|" := Z.lor (at level 50, left associativity) : art_scope.
Infix ".^" := Z.lxor (at level 45, left associativity) : art_scope.
Notation ".~ x" := (Z.lnot x) (at level 35, right associativity, format ".~ x") : art_scope.
Global Open Scope Z_scope.
Global Open Scope art_scope.

(** Arithmetic is never unfolded by [simpl]. *)
Global Arguments Z.land : simpl never.
Global Arguments Z.lor : simpl never.
Global Arguments Z.lxor : simpl never.
Global Arguments Z.lnot : simpl never.
Global Arguments Z.ldiff : simpl never.
Global Arguments Z.shiftl : simpl never.
Global Arguments Z.shiftr : simpl never.
Global Arguments Z.testbit : simpl never.
Global Arguments Z.ones : simpl never.
Global Arguments Z.pow : simpl never.
Global Arguments Z.add : simpl never.
Global Arguments Z.sub : simpl never.
Global Arguments Z.mul : simpl never.
Global Arguments Z.opp : simpl never.
Global Arguments Z.div : simpl never.
Global Arguments Z.modulo : simpl never.
Global Arguments Z.ltb : simpl never.
Global Arguments Z.leb : simpl never.
Global Arguments Z.eqb : simpl never.
Global Arguments Z.of_nat : simpl never.
Global Arguments Z.to_nat : simpl never.

(** ** Machine integers

    A [w]-bit unsigned integer is a [Z] in [[0, 2^w)] and a [w]-bit signed integer a [Z] in
    [[-2^(w-1), 2^(w-1))].  [uN w] and [sN w] are the conversions (the wrap-around) of C++. *)
Definition uN (w x : Z) : Z := x mod 2 ^ w.
Definition sN (w x : Z) : Z := (x + 2 ^ (w - 1)) mod 2 ^ w - 2 ^ (w - 1).

Definition is_u (w x : Z) : Prop := 0 <= x < 2 ^ w.
Definition is_s (w x : Z) : Prop := - 2 ^ (w - 1) <= x < 2 ^ (w - 1).

Global Arguments uN : simpl never.
Global Arguments sN : simpl never.

#[export] Instance is_u_dec w x : Decision (is_u w x).
Proof. unfold is_u. apply _. Defined.
#[export] Instance is_s_dec w x : Decision (is_s w x).
Proof. unfold is_s. apply _. Defined.

Abbreviation u8 := (uN 8).
Abbreviation u16 := (uN 16).
Abbreviation u32 := (uN 32).
Abbreviation u64 := (uN 64).
Abbreviation s32 := (sN 32).
Abbreviation s64 := (sN 64).

(** [i]-th element of a C array of integers; a read outside of the array is undefined in C++ and
    gives [0] here, so the theorems about such reads carry the bound as a hypothesis. *)
Definition znth (l : list Z) (i : Z) : Z := nth (Z.to_nat i) l 0.

(** ** Automation *)
Create HintDb art discriminated.
Create Rewrite HintDb art_bits.

#[export] Hint Rewrite Z.land_spec Z.lor_spec Z.lxor_spec Z.ldiff_spec Z.testbit_0_l : art_bits.
Lemma shiftl_testbit a n i : 0 <= n -> Z.testbit (a ≪ n) i = Z.testbit a (i - n).
Proof.
  intros Hn. destruct (decide (0 <= i)); [by apply Z.shiftl_spec|].
  rewrite !Z.testbit_neg_r by lia. done.
Qed.

#[export] Hint Rewrite shiftl_testbit Z.shiftr_spec Z.lnot_spec Z.testbit_mod_pow2 Z.testbit_ones
  Z.pow2_bits_eqb Z.mul_pow2_bits Z.div_pow2_bits Z.bits_m1 using lia : art_bits.

Lemma pow2_pos w : 0 <= w -> 0 < 2 ^ w.
Proof. intros. apply Z.pow_pos_nonneg; lia. Qed.

Lemma pow2_le a b : 0 <= a <= b -> 2 ^ a <= 2 ^ b.
Proof. intros. apply Z.pow_le_mono_r; lia. Qed.

Lemma pow2_lt a b : 0 <= a < b -> 2 ^ a < 2 ^ b.
Proof. intros. apply Z.pow_lt_mono_r; lia. Qed.

Lemma pow2_succ a : 0 < a -> 2 ^ a = 2 * 2 ^ (a - 1).
Proof. intros. rewrite <- Z.pow_succ_r by lia. f_equal. lia. Qed.

#[export] Hint Resolve pow2_pos pow2_le pow2_lt : art.

(** A bounded number has no bits above its width. *)
Lemma testbit_high w x i : is_u w x -> w <= i -> Z.testbit x i = false.
Proof.
  intros Hx Hi. unfold is_u in Hx. destruct (decide (0 <= w)) as [Hw|Hw].
  - rewrite <- (Z.mod_small x (2 ^ w)) by lia. apply Z.mod_pow2_bits_high. lia.
  - rewrite Z.pow_neg_r in Hx by lia. lia.
Qed.

Lemma is_u_bits w x :
  0 <= w -> 0 <= x -> (forall i, w <= i -> Z.testbit x i = false) -> is_u w x.
Proof.
  intros Hw Hx Hbits. split; [done|].
  apply Z.bounded_iff_bits_nonneg; auto.
Qed.

Lemma uN_is_u w x : 0 <= w -> is_u w (uN w x).
Proof. intros. unfold is_u, uN. apply Z.mod_pos_bound; auto with art. Qed.

Lemma uN_small w x : is_u w x -> uN w x = x.
Proof. intros. unfold uN. apply Z.mod_small. done. Qed.

Lemma uN_land w x : 0 <= w -> uN w x = x .& Z.ones w.
Proof. intros. unfold uN. by rewrite Z.land_ones. Qed.

Lemma uN_testbit w x i : 0 <= w -> Z.testbit (uN w x) i = (i <? w) && Z.testbit x i.
Proof. intros. unfold uN. by apply Z.testbit_mod_pow2. Qed.
#[export] Hint Rewrite uN_testbit using lia : art_bits.

Lemma sN_is_s w x : 0 < w -> is_s w (sN w x).
Proof.
  intros. unfold is_s, sN. pose proof (pow2_succ w).
  pose proof (Z.mod_pos_bound (x + 2 ^ (w - 1)) (2 ^ w) ltac:(auto with art zarith)). lia.
Qed.

Lemma sN_small w x : 0 < w -> is_s w x -> sN w x = x.
Proof.
  intros Hw Hx. unfold is_s, sN in *. pose proof (pow2_succ w).
  rewrite Z.mod_small; lia.
Qed.

(** [sN] of an unsigned number is its two's complement reading. *)
Lemma sN_of_u w x :
  0 < w -> is_u w x -> sN w x = if x <? 2 ^ (w - 1) then x else x - 2 ^ w.
Proof.
  intros Hw Hx. unfold is_u, sN in *. pose proof (pow2_succ w).
  destruct (Z.ltb_spec x (2 ^ (w - 1))).
  - rewrite Z.mod_small; lia.
  - rewrite <- (Z_mod_plus_full _ (-1)), Z.mod_small; lia.
Qed.

Lemma uN_sN w x : 0 < w -> uN w (sN w x) = uN w x.
Proof.
  intros Hw. unfold uN, sN. pose proof (pow2_pos w ltac:(lia)).
  rewrite Zminus_mod_idemp_l. f_equal. lia.
Qed.

Lemma sN_uN w x : 0 < w -> sN w (uN w x) = sN w x.
Proof.
  intros Hw. unfold uN, sN. by rewrite Zplus_mod_idemp_l.
Qed.

#[export] Hint Resolve uN_is_u sN_is_s : art.

(** Two's complement: the bits above the width copy the sign bit. *)
Lemma sN_testbit w x i :
  0 < w -> 0 <= i -> Z.testbit (sN w x) i = Z.testbit x (if i <? w then i else w - 1).
Proof.
  intros Hw Hi. rewrite <- sN_uN by done.
  assert (forall j, j < w -> Z.testbit x j = Z.testbit (uN w x) j) as Hlow.
  { intros j Hj. rewrite uN_testbit by lia. destruct (Z.ltb_spec j w); [done|lia]. }
  assert (Z.testbit x (if i <? w then i else w - 1) =
          Z.testbit (uN w x) (if i <? w then i else w - 1)) as ->.
  { apply Hlow. destruct (Z.ltb_spec i w); lia. }
  pose proof (uN_is_u w x ltac:(lia)) as Hu. revert Hu. generalize (uN w x). clear x Hlow.
  intros x Hx. rewrite sN_of_u by done. pose proof (pow2_succ w Hw).
  destruct (Z.ltb_spec x (2 ^ (w - 1))) as [Hx2|Hx2].
  - destruct (Z.ltb_spec i w); [done|].
    rewrite (testbit_high w) by done. symmetry. apply (testbit_high (w - 1)); [|lia].
    unfold is_u in *. lia.
  - destruct (Z.ltb_spec i w); [by apply Z.sub_pow2_spec_low; lia|].
    rewrite Z.sub_pow2_spec_high by (unfold is_u in *; rewrite ?Z.pow_succ_r by lia; lia).
    rewrite (testbit_high w x w) by (done || lia). symmetry.
    replace x with ((x - 2 ^ (w - 1)) + 2 ^ (w - 1)) by lia.
    rewrite Z.add_pow2_spec_top by lia. unfold is_u in *.
    rewrite (testbit_high (w - 1)); [done| |lia]. unfold is_u. lia.
Qed.
#[export] Hint Rewrite sN_testbit using lia : art_bits.

Lemma sN_uN_eq w x y : 0 < w -> uN w x = uN w y -> sN w x = sN w y.
Proof. intros Hw E. by rewrite <- (sN_uN w x), <- (sN_uN w y), E. Qed.

Lemma lor_is_u w a b : 0 <= w -> is_u w a -> is_u w b -> is_u w (a .| b).
Proof.
  intros Hw Ha Hb. apply is_u_bits; [done|apply Z.lor_nonneg; unfold is_u in *; lia|].
  intros i Hi. rewrite Z.lor_spec, (testbit_high w a), (testbit_high w b); done.
Qed.

Lemma land_is_u w a b : 0 <= w -> is_u w a -> is_u w (a .& b).
Proof.
  intros Hw Ha. apply is_u_bits; [done|apply Z.land_nonneg; unfold is_u in *; lia|].
  intros i Hi. rewrite Z.land_spec, (testbit_high w a); done.
Qed.

(** Decide comparisons between integers appearing as booleans in the goal. *)
Ltac case_ltb :=
  match goal with
  | |- context [?a <? ?b] => destruct (Z.ltb_spec a b)
  | |- context [?a <=? ?b] => destruct (Z.leb_spec a b)
  | |- context [?a =? ?b] => destruct (Z.eqb_spec a b)
  end.

(** Discard the bits known to be zero. *)
Ltac kill_bits :=
  repeat match goal with
  | |- context [Z.testbit ?x ?i] =>
      first
        [ rewrite (Z.testbit_neg_r x i) by lia
        | match goal with H : is_u ?w x |- _ => rewrite (testbit_high w x i H) by lia end ]
  end.

Ltac bit_simpl :=
  repeat first [ rewrite andb_false_r | rewrite andb_false_l | rewrite andb_true_r
               | rewrite andb_true_l | rewrite orb_false_r | rewrite orb_false_l
               | rewrite orb_true_r | rewrite orb_true_l | rewrite negb_true_iff
               | rewrite xorb_false_r | rewrite xorb_false_l ]; cbn [negb andb orb xorb].

Ltac bit_finish :=
  first [ done | lia | btauto | (f_equal; (done || lia)) | (f_equal; f_equal; lia)
        | congruence ].

(** Prove an equation of integers bit by bit. *)
Ltac bits_core :=
  autorewrite with art_bits; repeat case_ltb; try lia;
  autorewrite with art_bits; repeat case_ltb; try lia;
  bit_simpl; kill_bits; bit_simpl; try bit_finish.
Ltac bitwise :=
  apply Z.bits_inj'; let i := fresh "i" in let Hi := fresh "Hi" in intros i Hi; bits_core.

Lemma filter_none {A} (P : A -> Prop) `{!forall x, Decision (P x)} (l : list A) :
  (forall x, x ∈ l -> ~ P x) -> filter P l = [].
Proof.
  induction l as [|x l IH]; intros Hn; [done|].
  rewrite filter_cons_False by (apply Hn; by left). apply IH. intros y Hy. apply Hn. by right.
Qed.

Lemma filter_all {A} (P : A -> Prop) `{!forall x, Decision (P x)} (l : list A) : (forall x, x ∈ l -> P x) -> filter P l = l.
Proof.
  induction l as [|x l IH]; intros Hp; [done|]. rewrite filter_cons_True by (apply Hp; by left). f_equal. apply IH. intros y Hy. apply Hp. by right.
Qed.

Lemma filter_ext_in {A} (P Q : A -> Prop) `{!forall x, Decision (P x), !forall x, Decision (Q x)} (l : list A) :
  (forall x, x ∈ l -> P x <-> Q x) -> filter P l = filter Q l.
Proof.
  induction l as [|x l IH]; intros Hx; [done|]. rewrite !filter_cons. rewrite IH by (intros y Hy; apply Hx; by right).
  pose proof (Hx x (list_elem_of_here _ _)) as Hi. destruct (decide (P x)), (decide (Q x)); tauto || done.
Qed.

Lemma filter_map {A B} (f : A -> B) (P : B -> Prop) `{!forall x, Decision (P x)} (l : list A) :
  filter P (map f l) = map f (filter (fun x => P (f x)) l).
Proof.
  induction l as [|x l IH]; [done|]. cbn [map]. rewrite !filter_cons, IH. by destruct (decide (P (f x))).
Qed.

(** ** Counted loops *)

(** [for (i = start; i < start + n; ++i) s = f(i, s)], where an iteration may fail. *)
Fixpoint for_loop {A} (start n : nat) (f : nat -> A -> option A) (s : A) : option A :=
  match n with
  | O => Some s
  | S n => s ← f start s; for_loop (S start) n f s
  end.

Lemma for_loop_rule {A} (P : nat -> A -> Prop) start n f (s : A) :
  P start s ->
  (forall i s, (start <= i < start + n)%nat -> P i s -> exists s', f i s = Some s' /\ P (S i) s') ->
  exists s', for_loop start n f s = Some s' /\ P (start + n)%nat s'.
Proof.
  revert start s. induction n as [|n IH]; intros start s Hs Hf; simpl.
  - exists s. by rewrite Nat.add_0_r.
  - destruct (Hf start s) as (s1 & -> & H1); [lia|done|]. simpl.
    destruct (IH (S start) s1 H1) as (s2 & -> & H2).
    + intros i s' Hi. apply Hf. lia.
    + exists s2. by rewrite Nat.add_succ_r.
Qed.
