(* ===== verification/BitUtils.v ===== *)
(** Bit manipulation helpers: libartbase/base/bit_utils.h.

    The functions are templates over an integral type [T]; the model takes the width [w] of [T]
    as an argument (and whether [T] is signed where the code asks).  Values of an unsigned [T]
    are numbers satisfying [is_u w], values of a signed [T] numbers satisfying [is_s w].
    The debug-only checks of the code (DCHECK) are not part of the definitions: they appear as
    hypotheses of the theorems. *)
From S2P Require Import Prelude.

(** ** Compiler builtins *)

(** __builtin_clz on a [w]-bit register, for a nonzero argument. *)
Definition builtin_clz (w x : Z) : Z := w - 1 - Z.log2 x.

Fixpoint pos_ctz (p : positive) : Z :=
  match p with
  | xO q => Z.succ (pos_ctz q)
  | _ => 0
  end.

(** __builtin_ctz, for a nonzero argument. *)
Definition builtin_ctz (x : Z) : Z :=
  match x with
  | Zpos p | Zneg p => pos_ctz p
  | Z0 => 0
  end.

Fixpoint pos_popcount (p : positive) : Z :=
  match p with
  | xH => 1
  | xO q => pos_popcount q
  | xI q => Z.succ (pos_popcount q)
  end.

Definition builtin_popcount (x : Z) : Z :=
  match x with
  | Zpos p => pos_popcount p
  | _ => 0
  end.

(** ** The functions of bit_utils.h *)

Definition CLZ (w x : Z) : Z :=
  if w =? 64 then builtin_clz 64 x else builtin_clz 32 x - (32 - w).

Definition JAVASTYLE_CLZ (w x : Z) : Z := if x =? 0 then w else CLZ w (uN w x).

Definition CTZ (x : Z) : Z := builtin_ctz x.

Definition JAVASTYLE_CTZ (w x : Z) : Z := if x =? 0 then w else CTZ (uN w x).

Definition POPCOUNT (x : Z) : Z := builtin_popcount x.

Definition MostSignificantBit (w value : Z) : Z :=
  if value =? 0 then -1 else w - 1 - CLZ w value.

Definition LeastSignificantBit (value : Z) : Z := if value =? 0 then -1 else CTZ value.

Definition MinimumBitsToStore (w value : Z) : Z := MostSignificantBit w value + 1.

(** [x - 1u] is computed at the width of [unsigned int] when [T] is narrower. *)
Definition RoundUpToPowerOfTwo (w x : Z) : Z :=
  if x <? 2 then x else uN w (1 ≪ (w - CLZ (Z.max w 32) (x - 1))).

Definition TruncToPowerOfTwo (w val : Z) : Z :=
  if negb (val =? 0) then uN w (1 ≪ (w - CLZ w val - 1)) else 0.

Definition IsPowerOfTwo (x : Z) : bool := x .& (x - 1) =? 0.

Definition WhichPowerOf2 (x : Z) : Z := CTZ x.

Definition RoundDown (w x n : Z) : Z := x .& uN w (- n).

Definition RoundUp (w x n : Z) : Z := RoundDown w (uN w (x + n - 1)) n.

Definition IsAligned (n x : Z) : bool := x .& (n - 1) =? 0.

Definition Low16Bits (value : Z) : Z := uN 16 value.
Definition High16Bits (value : Z) : Z := uN 16 (value ≫ 16).
Definition Low32Bits (value : Z) : Z := uN 32 value.
Definition High32Bits (value : Z) : Z := uN 32 (value ≫ 32).

Definition GetIntLimit (bits : Z) : Z := 1 ≪ (bits - 1).

Definition IsInt (w kBits value : Z) : bool :=
  if kBits =? w then true
  else (- GetIntLimit kBits <=? value) && (value <? GetIntLimit kBits).

(** The overload whose number of bits is a run-time value checks it (CHECK_LT aborts). *)
Definition IsIntN (w N value : Z) : option bool :=
  if N =? w then Some true
  else if (0 <? N) && (N <? w) then
    let limit := 1 ≪ (N - 1) in Some ((- limit <=? value) && (value <? limit))
  else None.

Definition IsUint (w kBits value : Z) : bool :=
  (0 <=? value) && ((kBits =? w) || (uN w value <=? uN w (GetIntLimit kBits * 2 - 1))).

Definition IsAbsoluteUint (w kBits value : Z) : bool :=
  if kBits =? w then true
  else IsUint w kBits (if value <? 0 then uN w (uN w (-1 - value) + 1) else uN w value).

Definition MaxIntUnsigned (w bits : Z) : Z :=
  if bits =? w then 2 ^ w - 1 else uN w (uN w (uN 64 (1 ≪ bits)) - 1).

Definition MaxInt (sgn : bool) (w bits : Z) : Z :=
  if sgn then
    if bits =? w then 2 ^ (w - 1) - 1
    else if bits =? 1 then 0 else sN w (MaxIntUnsigned w (bits - 1))
  else MaxIntUnsigned w bits.

Definition MinInt (sgn : bool) (w bits : Z) : Z :=
  if sgn then
    if bits =? w then - 2 ^ (w - 1)
    else if bits =? 1 then -1 else -1 - MaxInt true w bits
  else 0.

Definition LowestOneBitValue (w opnd : Z) : Z := opnd .& uN w (- opnd).

Definition HighestOneBitValue (w opnd : Z) : Z :=
  if opnd =? 0 then 0 else uN w (uN 64 (1 ≪ (w - (CLZ w (uN w opnd) + 1)))).

Definition Rot (w : Z) (left : bool) (opnd distance : Z) : Z :=
  let mask := w - 1 in
  let unsigned_right_shift := if left then (- distance) .& mask else distance .& mask in
  let signed_left_shift := if left then distance .& mask else (- distance) .& mask in
  uN w ((uN w opnd ≫ unsigned_right_shift) .| (opnd ≪ signed_left_shift)).

Definition ReverseBits32 (opnd : Z) : Z :=
  let opnd := ((opnd ≫ 1) .& 0x55555555) .| uN 32 ((opnd .& 0x55555555) ≪ 1) in
  let opnd := ((opnd ≫ 2) .& 0x33333333) .| uN 32 ((opnd .& 0x33333333) ≪ 2) in
  let opnd := ((opnd ≫ 4) .& 0x0F0F0F0F) .| uN 32 ((opnd .& 0x0F0F0F0F) ≪ 4) in
  let opnd := ((opnd ≫ 8) .& 0x00FF00FF) .| uN 32 ((opnd .& 0x00FF00FF) ≪ 8) in
  (opnd ≫ 16) .| uN 32 (opnd ≪ 16).

Definition ReverseBits64 (opnd : Z) : Z :=
  let opnd := uN 64 ((opnd .& 0x5555555555555555) ≪ 1) .| ((opnd ≫ 1) .& 0x5555555555555555) in
  let opnd := uN 64 ((opnd .& 0x3333333333333333) ≪ 2) .| ((opnd ≫ 2) .& 0x3333333333333333) in
  let opnd := uN 64 ((opnd .& 0x0f0f0f0f0f0f0f0f) ≪ 4) .| ((opnd ≫ 4) .& 0x0f0f0f0f0f0f0f0f) in
  let opnd := uN 64 ((opnd .& 0x00ff00ff00ff00ff) ≪ 8) .| ((opnd ≫ 8) .& 0x00ff00ff00ff00ff) in
  uN 64 (opnd ≪ 48) .| uN 64 ((opnd .& 0xffff0000) ≪ 16) .| ((opnd ≫ 16) .& 0xffff0000)
    .| (opnd ≫ 48).

Definition MaskLeastSignificant (w bits : Z) : Z :=
  if w <=? bits then 2 ^ w - 1 else uN w ((1 ≪ bits) - 1).

Definition BitFieldClear (w value lsb width : Z) : Z :=
  let mask := MaskLeastSignificant w width in
  value .& uN w (.~ uN w (mask ≪ lsb)).

(** [w] is the width of [value], [w2] that of [data]; the shift of [data] is done at the width
    of [data] promoted to at least an [int]. *)
Definition BitFieldInsert (w w2 value data lsb width : Z) : Z :=
  let data_mask := MaskLeastSignificant w2 width in
  let value_cleared := BitFieldClear w value lsb width in
  uN w (value_cleared .| uN (Z.max w2 32) ((data .& data_mask) ≪ lsb)).

(** For a signed [T] the test for the sign bit shifts the [int] literal [1]: the shift is
    undefined in C++ when the distance is not below 32, and the model gives no result there. *)
Definition BitFieldExtractU (w value lsb width : Z) : Z :=
  (value ≫ lsb) .& MaskLeastSignificant w width.

Definition BitFieldExtractS (w value lsb width : Z) : option Z :=
  let val := uN w value in
  let bitfield_unsigned := sN w ((val ≫ lsb) .& MaskLeastSignificant w width) in
  if width =? 0 then Some 0
  else if 32 <=? width - 1 then None
  else if negb (bitfield_unsigned .& sN 32 (1 ≪ (width - 1)) =? 0) then
    let ones_negmask := uN w (.~ MaskLeastSignificant w width) in
    Some (sN w (uN w bitfield_unsigned .| ones_negmask))
  else Some bitfield_unsigned.

Definition kBitsPerByte : Z := 8.

Definition BitsToBytesRoundUp (num_bits : Z) : Z := RoundUp 64 num_bits kBitsPerByte / kBitsPerByte.

(** ** Lemmas shared by the components *)

Definition width_ok (w : Z) : Prop := w = 8 \/ w = 16 \/ w = 32 \/ w = 64.

Lemma CLZ_log2 w x : CLZ w x = w - 1 - Z.log2 x.
Proof. unfold CLZ, builtin_clz. destruct (Z.eqb_spec w 64); lia. Qed.

Lemma MinimumBitsToStore_log2 w x :
  MinimumBitsToStore w x = if x =? 0 then 0 else Z.log2 x + 1.
Proof.
  unfold MinimumBitsToStore, MostSignificantBit. rewrite CLZ_log2. case_ltb; lia.
Qed.

(** [MinimumBitsToStore] is the least width that holds the value. *)
Lemma MinimumBitsToStore_le w k x :
  0 <= k -> 0 <= x -> MinimumBitsToStore w x <= k <-> is_u k x.
Proof.
  intros Hk Hx. rewrite MinimumBitsToStore_log2. unfold is_u.
  destruct (Z.eqb_spec x 0) as [->|Hne].
  - pose proof (pow2_pos k Hk). lia.
  - split; intros H.
    + split; [done|]. apply Z.log2_lt_pow2; lia.
    + apply proj2 in H. apply Z.log2_lt_pow2 in H; lia.
Qed.

Lemma MinimumBitsToStore_nonneg w x : 0 <= MinimumBitsToStore w x.
Proof.
  rewrite MinimumBitsToStore_log2. pose proof (Z.log2_nonneg x). case_ltb; lia.
Qed.

Lemma pos_ctz_nonneg p : 0 <= pos_ctz p.
Proof. induction p; simpl; lia. Qed.

Lemma pos_ctz_testbit p :
  Z.testbit (Zpos p) (pos_ctz p) = true /\
  forall i, 0 <= i < pos_ctz p -> Z.testbit (Zpos p) i = false.
Proof.
  induction p as [p _|p [IH1 IH2]|]; simpl pos_ctz; try (split; [done | intros; lia]).
  pose proof (pos_ctz_nonneg p). split.
  - rewrite Pos2Z.inj_xO, Z.double_bits_succ. done.
  - intros i Hi. rewrite Pos2Z.inj_xO. destruct (decide (i = 0)) as [->|].
    + apply Z.testbit_even_0.
    + replace i with (Z.succ (i - 1)) by lia. rewrite Z.double_bits_succ. apply IH2. lia.
Qed.

(** [CTZ] is the position of the lowest set bit. *)
Lemma CTZ_spec x :
  0 < x -> 0 <= CTZ x /\ Z.testbit x (CTZ x) = true /\
           (forall i, 0 <= i < CTZ x -> Z.testbit x i = false).
Proof.
  destruct x as [|p|p]; intros; try lia. unfold CTZ, builtin_ctz.
  pose proof (pos_ctz_testbit p). pose proof (pos_ctz_nonneg p). tauto.
Qed.

Lemma CTZ_unique x c :
  0 < x -> 0 <= c -> Z.testbit x c = true ->
  (forall i, 0 <= i < c -> Z.testbit x i = false) -> CTZ x = c.
Proof.
  intros Hx Hc Hb Hlow. destruct (CTZ_spec x Hx) as (H0 & H1 & H2).
  destruct (Z.lt_trichotomy (CTZ x) c) as [Hlt|[Heq|Hgt]]; [|done|].
  - rewrite Hlow in H1 by lia. done.
  - rewrite H2 in Hb by lia. done.
Qed.

Lemma CTZ_lt w x : 0 < x -> is_u w x -> CTZ x < w.
Proof.
  intros Hx Hw. destruct (CTZ_spec x Hx) as (H0 & H1 & _).
  destruct (decide (CTZ x < w)) as [|Hn]; [done|].
  rewrite (testbit_high w) in H1 by (done || lia). done.
Qed.

(** The number of [true]s among [f 0], ..., [f (n - 1)]. *)
Fixpoint count_bits (n : nat) (f : Z -> bool) : Z :=
  match n with
  | O => 0
  | S n => Z.b2z (f 0) + count_bits n (fun i => f (i + 1))
  end.

Lemma count_bits_ext n f g :
  (forall i, 0 <= i < Z.of_nat n -> f i = g i) -> count_bits n f = count_bits n g.
Proof.
  revert f g. induction n as [|n IH]; intros f g H; cbn [count_bits]; [done|].
  rewrite (H 0) by lia. f_equal. apply IH. intros i Hi. apply H. lia.
Qed.

Lemma count_bits_bound n f : 0 <= count_bits n f <= Z.of_nat n.
Proof.
  revert f. induction n as [|n IH]; intros f; cbn [count_bits]; [lia|].
  specialize (IH (fun i => f (i + 1))). destruct (f 0); simpl Z.b2z; lia.
Qed.

Lemma count_bits_app n k f :
  count_bits (n + k) f = count_bits n f + count_bits k (fun i => f (Z.of_nat n + i)).
Proof.
  revert f. induction n as [|n IH]; intros f; cbn [count_bits Nat.add].
  - apply count_bits_ext. intros. f_equal.
  - rewrite IH. rewrite <- Z.add_assoc. do 2 f_equal. apply count_bits_ext. intros. f_equal. lia.
Qed.

Lemma POPCOUNT_count n v : is_u (Z.of_nat n) v -> POPCOUNT v = count_bits n (Z.testbit v).
Proof.
  revert v. induction n as [|n IH]; intros v Hv; cbn [count_bits].
  { unfold is_u in Hv. simpl in Hv. by replace v with 0 by lia. }
  assert (POPCOUNT v = Z.b2z (Z.testbit v 0) + POPCOUNT (v / 2)) as ->.
  { destruct v as [|p|p]; [done| |unfold is_u in Hv; lia]. rewrite <- Z.div2_div.
    destruct p; simpl; try done; lia. }
  f_equal. rewrite IH.
  - apply count_bits_ext. intros i Hi. change 2 with (2 ^ 1). rewrite Z.div_pow2_bits by lia. done.
  - unfold is_u in *. rewrite Nat2Z.inj_succ, Z.pow_succ_r in Hv by lia.
    split; [apply Z.div_pos; lia|apply Z.div_lt_upper_bound; lia].
Qed.

Lemma MaskLeastSignificant_ones w bits :
  0 <= bits <= w -> MaskLeastSignificant w bits = Z.ones bits.
Proof.
  intros H. unfold MaskLeastSignificant. rewrite Z.ones_equiv. destruct (Z.leb_spec w bits).
  - replace bits with w by lia. lia.
  - rewrite Z.shiftl_1_l, uN_small; [lia|]. unfold is_u.
    pose proof (pow2_lt bits w). pose proof (pow2_pos bits). lia.
Qed.

Lemma MaxIntUnsigned_val w bits :
  0 <= bits <= w -> w <= 64 -> MaxIntUnsigned w bits = 2 ^ bits - 1.
Proof.
  intros H Hw. unfold MaxIntUnsigned. destruct (Z.eqb_spec bits w) as [->|]; [done|].
  rewrite Z.shiftl_1_l.
  pose proof (pow2_lt bits w ltac:(lia)). pose proof (pow2_pos bits ltac:(lia)).
  assert (2 ^ bits < 2 ^ 64) by (apply pow2_lt; lia).
  rewrite (uN_small 64), !uN_small; unfold is_u; try lia.
  rewrite uN_small; unfold is_u; lia.
Qed.

Lemma IsAligned_mod k x : 0 <= k -> IsAligned (2 ^ k) x = (x mod 2 ^ k =? 0).
Proof.
  intros. unfold IsAligned. rewrite <- Z.land_ones by done. by rewrite Z.ones_equiv.
Qed.

(** Masking with the negation of a power of two clears the low bits. *)
Lemma RoundDown_val w x k :
  0 <= k <= w -> is_u w x -> RoundDown w x (2 ^ k) = x - x mod 2 ^ k.
Proof.
  intros Hk Hx. unfold RoundDown.
  assert (uN w (- 2 ^ k) = Z.ldiff (Z.ones w) (Z.ones k)) as ->.
  { rewrite uN_land by lia. bitwise; rewrite Z.opp_pow2_spec by lia;
      case_bool_decide; simpl; try lia; done. }
  assert (x mod 2 ^ k = x .& Z.ones k) as -> by (by rewrite Z.land_ones by lia).
  rewrite Z.sub_nocarry_ldiff.
  - bitwise.
  - bitwise.
Qed.

Lemma RoundUp_val w x k :
  0 <= k <= w -> 0 <= x -> x + 2 ^ k - 1 < 2 ^ w ->
  RoundUp w x (2 ^ k) = (x + 2 ^ k - 1) / 2 ^ k * 2 ^ k.
Proof.
  intros Hk Hx Hov. pose proof (pow2_pos k ltac:(lia)). unfold RoundUp.
  rewrite uN_small by (unfold is_u; lia).
  rewrite RoundDown_val by (try done; unfold is_u; lia).
  pose proof (Z.div_mod (x + 2 ^ k - 1) (2 ^ k) ltac:(lia)). lia.
Qed.

Lemma BitsToBytesRoundUp_val n :
  0 <= n -> n + 7 < 2 ^ 64 -> BitsToBytesRoundUp n = (n + 7) / 8.
Proof.
  intros Hn Hov. unfold BitsToBytesRoundUp, kBitsPerByte.
  change 8 with (2 ^ 3) at 1. rewrite RoundUp_val by lia.
  change (2 ^ 3) with 8. rewrite Z.div_mul by lia. f_equal. lia.
Qed.

(** ** Reversal of the bits of a word *)

(** One step of the butterfly: exchange the groups of [k] bits selected by the mask [m]. *)
Definition swap_groups (w k m x : Z) : Z := ((x ≫ k) .& m) .| uN w ((x .& m) ≪ k).

(** The mask takes every bit of the word exactly once. *)
Definition mask_ok (w k m : Z) : bool :=
  forallb (fun i => xorb (Z.testbit m i) (Z.testbit m (i - k))) (seqZ 0 w)
  && forallb (fun i => implb (Z.testbit m i) (i + k <? w)) (seqZ 0 w)
  && (m <? 2 ^ w) && (0 <=? m).

Lemma swap_groups_spec w k m x :
  0 < k -> 0 <= w -> mask_ok w k m = true -> is_u w x ->
  is_u w (swap_groups w k m x) /\
  forall i, 0 <= i < w ->
    Z.testbit (swap_groups w k m x) i = Z.testbit x (if Z.testbit m i then i + k else i - k).
Proof.
  intros Hk Hw Hm Hx. unfold mask_ok in Hm.
  apply andb_prop in Hm as [[[H1 H2]%andb_prop H3]%andb_prop H4].
  rewrite forallb_forall in H1, H2. split.
  - apply is_u_bits; [done|apply Z.lor_nonneg; split|].
    + apply Z.land_nonneg. lia.
    + apply uN_is_u. done.
    + intros i Hi. unfold swap_groups. autorewrite with art_bits.
      rewrite (testbit_high w m) by (unfold is_u; lia). case_ltb; [lia|]. btauto.
  - intros i Hi. unfold swap_groups. autorewrite with art_bits. case_ltb; [|lia]. simpl.
    specialize (H1 i ltac:(apply list_elem_of_In, elem_of_seqZ; lia)).
    destruct (Z.testbit m i); simpl in H1.
    + destruct (Z.testbit m (i - k)); [done|]. btauto.
    + rewrite H1. btauto.
Qed.

(** A sequence of steps, the last one first. *)
Definition butterfly (w : Z) (steps : list (Z * Z)) (x : Z) : Z :=
  foldr (fun km y => swap_groups w km.1 km.2 y) x steps.

(** The position a bit of the result comes from. *)
Fixpoint origin (steps : list (Z * Z)) (i : Z) : Z :=
  match steps with
  | [] => i
  | (k, m) :: steps => origin steps (if Z.testbit m i then i + k else i - k)
  end.

Definition steps_ok (w : Z) (steps : list (Z * Z)) : bool :=
  forallb (fun km => (0 <? km.1) && mask_ok w km.1 km.2 &&
    forallb (fun i => let j := if Z.testbit km.2 i then i + km.1 else i - km.1 in
                      (0 <=? j) && (j <? w)) (seqZ 0 w)) steps.

Lemma butterfly_spec w steps x :
  0 <= w -> steps_ok w steps = true -> is_u w x ->
  is_u w (butterfly w steps x) /\
  forall i, 0 <= i < w -> Z.testbit (butterfly w steps x) i = Z.testbit x (origin steps i).
Proof.
  intros Hw Hok Hx. induction steps as [|[k m] steps IH]; [done|].
  simpl in Hok. apply andb_prop in Hok as [[[Hk Hm]%andb_prop Hj]%andb_prop Hok].
  destruct (IH Hok) as [IHu IHb]. simpl.
  destruct (swap_groups_spec w k m (butterfly w steps x)) as [Hu Hb]; try done; [lia|].
  split; [done|]. intros i Hi. change (foldr _ _ _) with (butterfly w steps x).
  rewrite Hb by done. apply IHb. rewrite forallb_forall in Hj.
  specialize (Hj i ltac:(apply list_elem_of_In, elem_of_seqZ; lia)). simpl in Hj. lia.
Qed.

Definition steps32 : list (Z * Z) :=
  [(8, 0x00FF00FF); (4, 0x0F0F0F0F); (2, 0x33333333); (1, 0x55555555)].
Definition steps64 : list (Z * Z) :=
  [(8, 0x00ff00ff00ff00ff); (4, 0x0f0f0f0f0f0f0f0f);
   (2, 0x3333333333333333); (1, 0x5555555555555555)].

(** The last statement of the two functions reverses the halfwords of the word. *)
Definition halfwords32 (x : Z) : Z := (x ≫ 16) .| uN 32 (x ≪ 16).
Definition halfwords64 (x : Z) : Z :=
  uN 64 (x ≪ 48) .| uN 64 ((x .& 0xffff0000) ≪ 16) .| ((x ≫ 16) .& 0xffff0000) .| (x ≫ 48).

Lemma halfwords32_testbit x i :
  is_u 32 x -> 0 <= i < 32 ->
  Z.testbit (halfwords32 x) i = Z.testbit x (if i <? 16 then i + 16 else i - 16).
Proof. intros Hx Hi. unfold halfwords32. bits_core. Qed.

Lemma halfwords64_testbit x i :
  is_u 64 x -> 0 <= i < 64 ->
  Z.testbit (halfwords64 x) i =
  Z.testbit x (if i <? 16 then i + 48 else if i <? 32 then i + 16
               else if i <? 48 then i - 16 else i - 48).
Proof.
  intros Hx Hi. unfold halfwords64. change 0xffff0000 with (Z.ones 16 ≪ 16). bits_core.
Qed.

Lemma ReverseBits32_steps x : ReverseBits32 x = halfwords32 (butterfly 32 steps32 x).
Proof. reflexivity. Qed.

Lemma ReverseBits64_steps x : ReverseBits64 x = halfwords64 (butterfly 64 steps64 x).
Proof.
  unfold ReverseBits64. cbv zeta.
  assert (forall k m y, uN 64 ((y .& m) ≪ k) .| ((y ≫ k) .& m) = swap_groups 64 k m y) as E.
  { intros. apply Z.lor_comm. }
  by rewrite !E.
Qed.

(** Check a statement on the indices of a word by computation. *)
Lemma forall_index (w : Z) (P : Z -> bool) i :
  forallb P (seqZ 0 w) = true -> 0 <= i < w -> P i = true.
Proof.
  intros HP Hi. rewrite forallb_forall in HP. apply HP, list_elem_of_In, elem_of_seqZ. lia.
Qed.

(** [ReverseBits32] and [ReverseBits64] mirror the word: bit [i] of the result is bit
    [w - 1 - i] of the operand.  The shift-and-mask steps lose and duplicate no bit. *)
Theorem ReverseBits_spec (x y : Z) (Hx : is_u 32 x) (Hy : is_u 64 y) :
  (forall i, 0 <= i < 32 -> Z.testbit (ReverseBits32 x) i = Z.testbit x (31 - i)) /\
  (forall i, 0 <= i < 64 -> Z.testbit (ReverseBits64 y) i = Z.testbit y (63 - i)).
Proof.
  split; intros i Hi.
  - destruct (butterfly_spec 32 steps32 x) as [Hu Hb]; [done..|].
    rewrite ReverseBits32_steps, halfwords32_testbit, Hb by (first [done | case_ltb; lia]). f_equal.
    apply Z.eqb_eq.
    apply (forall_index 32 (fun i => origin steps32 (if i <? 16 then i + 16 else i - 16) =? 31 - i));
      [by vm_compute|lia].
  - destruct (butterfly_spec 64 steps64 y) as [Hu Hb]; [done..|].
    rewrite ReverseBits64_steps, halfwords64_testbit, Hb by (first [done | repeat case_ltb; lia]).
    f_equal. apply Z.eqb_eq.
    apply (forall_index 64 (fun i => origin steps64
      (if i <? 16 then i + 48 else if i <? 32 then i + 16
       else if i <? 48 then i - 16 else i - 48) =? 63 - i)); [by vm_compute|lia].
Qed.

(** ** Bit fields *)

Lemma BitFieldClear_testbit w value lsb width i :
  0 <= lsb -> 0 <= width -> lsb + width <= w -> is_u w value -> 0 <= i ->
  Z.testbit (BitFieldClear w value lsb width) i =
  Z.testbit value i && negb ((lsb <=? i) && (i <? lsb + width)).
Proof.
  intros. unfold BitFieldClear. rewrite MaskLeastSignificant_ones by lia. bits_core.
Qed.

Lemma BitFieldInsert_testbit w w2 value data lsb width i :
  0 <= lsb -> 0 <= width <= w2 -> lsb + width <= w -> lsb + width <= Z.max w2 32 ->
  is_u w value -> 0 <= i ->
  Z.testbit (BitFieldInsert w w2 value data lsb width) i =
  if (lsb <=? i) && (i <? lsb + width) then Z.testbit data (i - lsb) else Z.testbit value i.
Proof.
  intros. unfold BitFieldInsert. rewrite MaskLeastSignificant_ones by lia.
  autorewrite with art_bits. rewrite BitFieldClear_testbit by (done || lia). bits_core.
Qed.

Lemma BitFieldExtractU_testbit w value lsb width i :
  0 <= lsb -> 0 <= width <= w -> 0 <= i ->
  Z.testbit (BitFieldExtractU w value lsb width) i = (i <? width) && Z.testbit value (i + lsb).
Proof.
  intros. unfold BitFieldExtractU. rewrite MaskLeastSignificant_ones by lia. bits_core.
Qed.

Lemma BitFieldInsert_is_u w w2 value data lsb width :
  0 <= w -> is_u w (BitFieldInsert w w2 value data lsb width).
Proof. apply uN_is_u. Qed.

(** inserting a bit field and extracting it gives the inserted data, leaves every disjoint
    bit field as it was, and inserting an extracted field back changes nothing. *)
Theorem BitField_insert_extract (w w2 value data lsb width lsb' width' : Z)
    (Hl : 0 <= lsb) (Hw : 0 <= width <= w2) (Hf : lsb + width <= w)
    (Hp : lsb + width <= Z.max w2 32) (Hv : is_u w value) (Hd : is_u width data)
    (Hl' : 0 <= lsb') (Hw' : 0 <= width') (Hf' : lsb' + width' <= w)
    (Hdisj : lsb' + width' <= lsb \/ lsb + width <= lsb') :
  BitFieldExtractU w (BitFieldInsert w w2 value data lsb width) lsb width = data /\
  BitFieldExtractU w (BitFieldInsert w w2 value data lsb width) lsb' width' =
    BitFieldExtractU w value lsb' width' /\
  BitFieldInsert w w2 value (BitFieldExtractU w value lsb width) lsb width = value.
Proof.
  split; [|split]; apply Z.bits_inj'; intros i Hi.
  - rewrite BitFieldExtractU_testbit, BitFieldInsert_testbit by lia || done. bits_core.
  - rewrite !BitFieldExtractU_testbit, BitFieldInsert_testbit by lia || done. bits_core.
  - rewrite BitFieldInsert_testbit by lia || done. case_match; [|done].
    rewrite BitFieldExtractU_testbit by lia. bits_core.
Qed.

(** The test of the sign bit of a bit field, [1 << (width - 1)] being an [int]. *)
Lemma sign_bit_test b k sign :
  0 <= k < 32 ->
  (forall i, k <= i -> Z.testbit b i = Z.testbit b k && Z.testbit b i) ->
  Z.testbit b k = sign ->
  (b .& sN 32 (1 ≪ k) =? 0) = negb sign.
Proof.
  intros Hk Hb <-. assert (Z.testbit (sN 32 (1 ≪ k)) k = true) as Hm.
  { rewrite sN_testbit, Z.shiftl_1_l by lia. case_ltb; [|lia]. apply Z.pow2_bits_true. lia. }
  destruct (Z.eqb_spec (b .& sN 32 (1 ≪ k)) 0) as [E|E].
  - apply (f_equal (fun z => Z.testbit z k)) in E. rewrite Z.land_spec, Hm, Z.testbit_0_l in E.
    rewrite andb_true_r in E. by rewrite E.
  - destruct (Z.testbit b k) eqn:Hbk; [done|]. exfalso. apply E. apply Z.bits_inj'. intros i Hi.
    rewrite Z.land_spec, Z.testbit_0_l. destruct (Z.ltb_spec i k).
    + rewrite sN_testbit, Z.shiftl_1_l by lia. case_ltb; [|lia].
      rewrite Z.pow2_bits_false by lia. apply andb_false_r.
    + by rewrite Hb by lia.
Qed.

(** Extracting a signed bit field of at most 32 bits sign extends it at its own width; for
    a wider field of a 64-bit integer the sign test [1 << (width - 1)] shifts an [int] too far
    and the code has no defined result. *)
Theorem BitFieldExtract_signed (w value lsb width : Z)
    (Hl : 0 <= lsb) (Hw : 0 < width) (Hf : lsb + width <= w) (Hv : is_s w value) :
  BitFieldExtractS w value lsb width =
    if width <=? 32 then Some (sN width (value ≫ lsb)) else None.
Proof.
  unfold BitFieldExtractS. rewrite MaskLeastSignificant_ones by lia.
  destruct (Z.eqb_spec width 0); [lia|].
  destruct (Z.leb_spec 32 (width - 1)); destruct (Z.leb_spec width 32); try lia; [done|].
  set (b := sN w _).
  assert (forall i, 0 <= i -> Z.testbit b i =
    if i <? width then Z.testbit value (i + lsb)
    else (width =? w) && Z.testbit value (width - 1 + lsb)) as Hb.
  { intros i Hi. subst b. bits_core. }
  assert ((b .& sN 32 (1 ≪ (width - 1)) =? 0) = negb (Z.testbit value (width - 1 + lsb))) as ->.
  { apply sign_bit_test; [lia| |by rewrite Hb by lia; case_ltb; [|lia]].
    intros i Hi. rewrite !Hb by lia. bits_core. replace i with (width - 1) by lia. btauto. }
  assert (forall i, 0 <= i -> Z.testbit (sN width (value ≫ lsb)) i =
    if i <? width then Z.testbit value (i + lsb) else Z.testbit value (width - 1 + lsb)) as Hs.
  { intros i Hi. bits_core. }
  rewrite negb_involutive. destruct (Z.testbit value (width - 1 + lsb)) eqn:Hsign; f_equal;
    apply Z.bits_inj'; intros i Hi; rewrite Hs by done.
  - autorewrite with art_bits. rewrite ?Hb by (repeat case_ltb; lia). bits_core.
    replace (w - 1) with (width - 1) by lia. done.
  - rewrite Hb by done. bits_core.
Qed.

(** ** Rounding *)

(** [RoundUp] gives the least aligned number that is not below its argument,
    [RoundUpToPowerOfTwo] the least power of two not below it, and [TruncToPowerOfTwo] the
    greatest power of two not above it. *)
Theorem Rounding_spec (w k x y v : Z)
    (Hk : 0 <= k <= w) (Hx : 0 <= x) (Hov : x + 2 ^ k - 1 < 2 ^ w)
    (Hw : w = 32 \/ w = 64) (Hy : 2 <= y <= 2 ^ (w - 1)) (Hv : 0 < v < 2 ^ w) :
  (IsAligned (2 ^ k) (RoundUp w x (2 ^ k)) = true /\ x <= RoundUp w x (2 ^ k) < x + 2 ^ k) /\
  (exists j, 0 <= j /\ RoundUpToPowerOfTwo w y = 2 ^ j /\ 2 ^ (j - 1) < y <= 2 ^ j) /\
  (exists j, 0 <= j /\ TruncToPowerOfTwo w v = 2 ^ j /\ 2 ^ j <= v < 2 ^ (j + 1)).
Proof.
  split; [|split].
  - rewrite RoundUp_val, IsAligned_mod, Z.mod_mul by (try apply Z.pow_nonzero; lia).
    pose proof (pow2_pos k ltac:(lia)). split; [done|].
    pose proof (Z.div_mod (x + 2 ^ k - 1) (2 ^ k) ltac:(lia)).
    pose proof (Z.mod_pos_bound (x + 2 ^ k - 1) (2 ^ k) ltac:(lia)). lia.
  - exists (Z.log2_up y). unfold RoundUpToPowerOfTwo. rewrite CLZ_log2.
    destruct (Z.ltb_spec y 2); [lia|].
    replace (w - (Z.max w 32 - 1 - Z.log2 (y - 1))) with (Z.log2_up y); cycle 1.
    { rewrite Z.log2_up_eqn by lia. replace (Z.pred y) with (y - 1) by lia. lia. }
    pose proof (Z.log2_up_spec y ltac:(lia)) as [Hlo Hhi].
    pose proof (Z.log2_up_pos y ltac:(lia)).
    split; [lia|]. rewrite Z.shiftl_1_l, uN_small.
    + split; [done|]. by replace (Z.log2_up y - 1) with (Z.pred (Z.log2_up y)) by lia.
    + split; [auto with art zarith|]. apply pow2_lt. split; [lia|].
      assert (Z.pred (Z.log2_up y) < w - 1); [|lia]. apply (Z.pow_lt_mono_r_iff 2); lia.
  - exists (Z.log2 v). unfold TruncToPowerOfTwo. rewrite CLZ_log2.
    destruct (Z.eqb_spec v 0); [lia|]. simpl.
    replace (w - (w - 1 - Z.log2 v) - 1) with (Z.log2 v) by lia.
    pose proof (Z.log2_spec v ltac:(lia)). pose proof (Z.log2_nonneg v).
    split; [done|]. rewrite Z.shiftl_1_l, uN_small.
    + split; [done|]. by rewrite Z.add_1_r.
    + unfold is_u. lia.
Qed.
