(* ===== verification/Leb128.v ===== *)
(** LEB128 variable-length integers: libartbase/base/leb128.h.

    A pointer into memory is a position in the list of bytes [mem]; reading outside of [mem] is
    undefined behaviour and makes the model return [None].  The functions that move a
    [const uint8_t**] cursor return the new position next to the decoded value. *)
From S2P Require Import Prelude BitUtils.

(** ** Memory accesses *)
Definition rd (mem : list Z) (p : Z) : option Z := if 0 <=? p then mem !! Z.to_nat p else None.

Definition is_byte (b : Z) : Prop := is_u 8 b.

(** ** Decoding *)

Definition DecodeUnsignedLeb128 (mem : list Z) (data : Z) : option (Z * Z) :=
  let ptr := data in
  result ← rd mem ptr; let ptr := ptr + 1 in
  '(result, ptr) ←
    if 0x7f <? result then
      cur ← rd mem ptr; let ptr := ptr + 1 in
      let result := (result .& 0x7f) .| ((cur .& 0x7f) ≪ 7) in
      if 0x7f <? cur then
        cur ← rd mem ptr; let ptr := ptr + 1 in
        let result := result .| ((cur .& 0x7f) ≪ 14) in
        if 0x7f <? cur then
          cur ← rd mem ptr; let ptr := ptr + 1 in
          let result := result .| ((cur .& 0x7f) ≪ 21) in
          if 0x7f <? cur then
            cur ← rd mem ptr; let ptr := ptr + 1 in
            let result := result .| s32 (cur ≪ 28) in
            Some (result, ptr)
          else Some (result, ptr)
        else Some (result, ptr)
      else Some (result, ptr)
    else Some (result, ptr);
  Some (u32 result, ptr).

Definition DecodeUnsignedLeb128WithoutMovingCursor (mem : list Z) (data : Z) : option Z :=
  fst <$> DecodeUnsignedLeb128 mem data.

(** The result of a checked decoder: the outer [None] is an invalid read, the inner one the
    return value [false]. *)
Definition DecodeUnsignedLeb128Checked (mem : list Z) (data end_ : Z) : option (option (Z * Z)) :=
  let ptr := data in
  if end_ <=? ptr then Some None else
  result ← rd mem ptr; let ptr := ptr + 1 in
  r ←
    if 0x7f <? result then
      if end_ <=? ptr then Some None else
      cur ← rd mem ptr; let ptr := ptr + 1 in
      let result := (result .& 0x7f) .| ((cur .& 0x7f) ≪ 7) in
      if 0x7f <? cur then
        if end_ <=? ptr then Some None else
        cur ← rd mem ptr; let ptr := ptr + 1 in
        let result := result .| ((cur .& 0x7f) ≪ 14) in
        if 0x7f <? cur then
          if end_ <=? ptr then Some None else
          cur ← rd mem ptr; let ptr := ptr + 1 in
          let result := result .| ((cur .& 0x7f) ≪ 21) in
          if 0x7f <? cur then
            if end_ <=? ptr then Some None else
            cur ← rd mem ptr; let ptr := ptr + 1 in
            let result := result .| s32 (cur ≪ 28) in
            Some (Some (result, ptr))
          else Some (Some (result, ptr))
        else Some (Some (result, ptr))
      else Some (Some (result, ptr))
    else Some (Some (result, ptr));
  Some ('(result, ptr) ← r; Some (u32 result, ptr)).

Definition DecodeUnsignedLeb128P1 (mem : list Z) (data : Z) : option (Z * Z) :=
  '(v, ptr) ← DecodeUnsignedLeb128 mem data; Some (s32 (u32 (v - 1)), ptr).

Definition DecodeSignedLeb128 (mem : list Z) (data : Z) : option (Z * Z) :=
  let ptr := data in
  result ← rd mem ptr; let ptr := ptr + 1 in
  if result <=? 0x7f then Some (s32 (result ≪ 25) ≫ 25, ptr)
  else
    cur ← rd mem ptr; let ptr := ptr + 1 in
    let result := (result .& 0x7f) .| ((cur .& 0x7f) ≪ 7) in
    if cur <=? 0x7f then Some (s32 (result ≪ 18) ≫ 18, ptr)
    else
      cur ← rd mem ptr; let ptr := ptr + 1 in
      let result := result .| ((cur .& 0x7f) ≪ 14) in
      if cur <=? 0x7f then Some (s32 (result ≪ 11) ≫ 11, ptr)
      else
        cur ← rd mem ptr; let ptr := ptr + 1 in
        let result := result .| ((cur .& 0x7f) ≪ 21) in
        if cur <=? 0x7f then Some (s32 (result ≪ 4) ≫ 4, ptr)
        else
          cur ← rd mem ptr; let ptr := ptr + 1 in
          let result := result .| s32 (cur ≪ 28) in
          Some (result, ptr).

Definition DecodeSignedLeb128Checked (mem : list Z) (data end_ : Z) : option (option (Z * Z)) :=
  let ptr := data in
  if end_ <=? ptr then Some None else
  result ← rd mem ptr; let ptr := ptr + 1 in
  if result <=? 0x7f then Some (Some (s32 (result ≪ 25) ≫ 25, ptr))
  else
    if end_ <=? ptr then Some None else
    cur ← rd mem ptr; let ptr := ptr + 1 in
    let result := (result .& 0x7f) .| ((cur .& 0x7f) ≪ 7) in
    if cur <=? 0x7f then Some (Some (s32 (result ≪ 18) ≫ 18, ptr))
    else
      if end_ <=? ptr then Some None else
      cur ← rd mem ptr; let ptr := ptr + 1 in
      let result := result .| ((cur .& 0x7f) ≪ 14) in
      if cur <=? 0x7f then Some (Some (s32 (result ≪ 11) ≫ 11, ptr))
      else
        if end_ <=? ptr then Some None else
        cur ← rd mem ptr; let ptr := ptr + 1 in
        let result := result .| ((cur .& 0x7f) ≪ 21) in
        if cur <=? 0x7f then Some (Some (s32 (result ≪ 4) ≫ 4, ptr))
        else
          if end_ <=? ptr then Some None else
          cur ← rd mem ptr; let ptr := ptr + 1 in
          let result := result .| s32 (cur ≪ 28) in
          Some (Some (result, ptr)).

(** ** Sizes *)

Definition UnsignedLeb128Size (data : Z) : Z :=
  let x := u32 (6 + 32 - CLZ 32 (data .| 1)) in
  u32 (x * 37) ≫ 8.

Definition SignedLeb128Size (data : Z) : Z :=
  let data := data .^ (data ≫ 31) in
  let x := u32 (1 + 6 + 32 - CLZ 32 (u32 (data .| 1))) in
  u32 (x * 37) ≫ 8.

Definition IsLeb128Terminator (byte : Z) : bool := byte <=? 0x7f.

(** The backwards loop reads [ptr[-1]]; the fuel bounds it by the number of bytes before. *)
Fixpoint reverse_search (fuel : nat) (mem : list Z) (ptr : Z) : option Z :=
  b ← rd mem (ptr - 1);
  if IsLeb128Terminator b then Some ptr
  else match fuel with
       | O => None
       | S fuel => reverse_search fuel mem (ptr - 1)
       end.

Definition ReverseSearchUnsignedLeb128 (mem : list Z) (end_ptr : Z) : option Z :=
  reverse_search (length mem) mem (end_ptr - 1).

(** ** Encoding

    The encoders write (or push) a list of bytes.  The loops run at most four times for 32-bit
    values; [None] would mean that the fuel was not enough. *)

Fixpoint encode_unsigned_loop (fuel : nat) (out value : Z) : option (list Z) :=
  if value =? 0 then Some [out]
  else match fuel with
       | O => None
       | S fuel =>
           rest ← encode_unsigned_loop fuel (value .& 0x7f) (value ≫ 7);
           Some ((out .| 0x80) :: rest)
       end.

Definition EncodeUnsignedLeb128 (value : Z) : option (list Z) :=
  encode_unsigned_loop 4 (value .& 0x7f) (value ≫ 7).

Fixpoint encode_signed_loop (fuel : nat) (out value extra_bits : Z) : option (list Z) :=
  if extra_bits =? 0 then Some [out]
  else match fuel with
       | O => None
       | S fuel =>
           rest ← encode_signed_loop fuel ((value ≫ 7) .& 0x7f) (value ≫ 7) (extra_bits ≫ 7);
           Some ((out .| 0x80) :: rest)
       end.

Definition EncodeSignedLeb128 (value : Z) : option (list Z) :=
  let extra_bits := u32 (value .^ (value ≫ 31)) ≫ 6 in
  encode_signed_loop 4 (value .& 0x7f) value extra_bits.

(** Writing bytes to memory. *)
Definition wr (mem : list Z) (p b : Z) : list Z := <[Z.to_nat p := b]> mem.

Fixpoint wr_bytes (mem : list Z) (p : Z) (bs : list Z) : list Z :=
  match bs with
  | [] => mem
  | b :: bs => wr_bytes (wr mem p b) (p + 1) bs
  end.

(** Fill the space up to [old_end] by lengthening the encoding. *)
Fixpoint pad_loop (fuel : nat) (mem : list Z) (end_ old_end : Z) : option (list Z) :=
  if end_ <? old_end then
    match fuel with
    | O => None
    | S fuel =>
        b ← rd mem (end_ - 1);
        let mem := wr mem (end_ - 1) (b .| 0x80) in
        let mem := wr mem end_ 0 in
        pad_loop fuel mem (end_ + 1) old_end
    end
  else Some mem.

Definition UpdateUnsignedLeb128 (mem : list Z) (dest value : Z) : option (list Z) :=
  '(_, old_end) ← DecodeUnsignedLeb128 mem dest;
  bs ← EncodeUnsignedLeb128 value;
  pad_loop 5 (wr_bytes mem dest bs) (dest + Z.of_nat (length bs)) old_end.

(** ** The encoder class: pushes values at the end of a vector. *)

Definition PushBackUnsigned (data : list Z) (value : Z) : option (list Z) :=
  bs ← EncodeUnsignedLeb128 value; Some (data ++ bs).

Definition PushBackSigned (data : list Z) (value : Z) : option (list Z) :=
  bs ← EncodeSignedLeb128 value; Some (data ++ bs).

Fixpoint InsertBackUnsigned (data : list Z) (values : list Z) : option (list Z) :=
  match values with
  | [] => Some data
  | v :: values => data ← PushBackUnsigned data v; InsertBackUnsigned data values
  end.

Fixpoint InsertBackSigned (data : list Z) (values : list Z) : option (list Z) :=
  match values with
  | [] => Some data
  | v :: values => data ← PushBackSigned data v; InsertBackSigned data values
  end.

Example enc_300 : EncodeUnsignedLeb128 300 = Some [0xAC; 0x02]. Proof. reflexivity. Qed.
Example dec_300 : DecodeUnsignedLeb128 [1; 0xAC; 0x02; 7] 1 = Some (300, 3). Proof. reflexivity. Qed.
Example enc_m129 : EncodeSignedLeb128 (-129) = Some [0xFF; 0x7E]. Proof. reflexivity. Qed.
Example dec_m129 : DecodeSignedLeb128 [0xFF; 0x7E] 0 = Some (-129, 2). Proof. reflexivity. Qed.
Example enc_max : option_map length (EncodeUnsignedLeb128 0xFFFFFFFF) = Some 5%nat.
Proof. reflexivity. Qed.
Example size_max : UnsignedLeb128Size 0xFFFFFFFF = 5. Proof. reflexivity. Qed.
Example size_min : SignedLeb128Size (- 2 ^ 31) = 5. Proof. reflexivity. Qed.

(** ** Lemmas *)

(** The bytes [bs] are at position [p] of the memory. *)
Fixpoint reads (mem : list Z) (p : Z) (bs : list Z) : Prop :=
  match bs with
  | [] => True
  | b :: bs => rd mem p = Some b /\ reads mem (p + 1) bs
  end.

Lemma reads_app pre bs post : reads (pre ++ bs ++ post) (Z.of_nat (length pre)) bs.
Proof.
  revert pre. induction bs as [|b bs IH]; intros pre; simpl; [done|]. split.
  - unfold rd. destruct (Z.leb_spec 0 (Z.of_nat (length pre))); [|lia].
    rewrite Nat2Z.id. by rewrite list_lookup_middle.
  - specialize (IH (pre ++ [b])). rewrite <- app_assoc in IH. simpl in IH.
    rewrite length_app in IH. simpl in IH. by replace (Z.of_nat (length pre) + 1) with
      (Z.of_nat (length pre + 1)) by lia.
Qed.

Lemma land_7f x : x .& 0x7f = uN 7 x.
Proof. unfold uN. by rewrite <- Z.land_ones. Qed.

Lemma lor_80 x : is_u 7 x -> x .| 0x80 = x + 0x80.
Proof.
  intros Hx. symmetry. apply Z.add_nocarry_lor. change 0x80 with (2 ^ 7). bitwise.
Qed.

(** The continuation bit is set exactly on the bytes that are not the last one. *)
Lemma more_byte d : is_u 7 d -> (0x7f <? d .| 0x80) = true.
Proof. intros. rewrite lor_80 by done. unfold is_u in *. lia. Qed.
Lemma last_byte d : is_u 7 d -> (0x7f <? d) = false.
Proof. unfold is_u. lia. Qed.
Lemma more_byte' d : is_u 7 d -> (d .| 0x80 <=? 0x7f) = false.
Proof. intros. rewrite Z.leb_antisym. by rewrite more_byte. Qed.
Lemma last_byte' d : is_u 7 d -> (d <=? 0x7f) = true.
Proof. unfold is_u. lia. Qed.
Lemma strip_byte d : is_u 7 d -> (d .| 0x80) .& 0x7f = d.
Proof. intros. rewrite land_7f. change 0x80 with (2 ^ 7). bitwise. Qed.
Lemma keep_byte d : is_u 7 d -> d .& 0x7f = d.
Proof. intros. rewrite land_7f. by apply uN_small. Qed.
Lemma digit_is_u x : is_u 7 (x .& 0x7f).
Proof. rewrite land_7f. apply uN_is_u. lia. Qed.

Create Rewrite HintDb leb.
#[export] Hint Rewrite more_byte last_byte more_byte' last_byte' strip_byte keep_byte
  using assumption : leb.

(** Name the seven-bit groups of the value. *)
Ltac name_digits :=
  repeat match goal with
  | H : rd _ _ = Some ?b |- _ =>
      match b with context [?x .& 0x7f] =>
      let d := fresh "d" in let Hd := fresh "Hd" in let Ed := fresh "Ed" in
      pose proof (digit_is_u x) as Hd; remember (x .& 0x7f) as d eqn:Ed in *
      end
  end.

Lemma shiftr_zero_is_u n x : 0 <= n -> 0 <= x -> x ≫ n = 0 -> is_u n x.
Proof.
  intros Hn Hx E. rewrite Z.shiftr_div_pow2 in E by done. pose proof (pow2_pos n Hn).
  apply Z.div_small_iff in E; [unfold is_u; lia|lia].
Qed.

Lemma some_pair_eq (a a' b b' : Z) : a = a' -> b = b' -> Some (a, b) = Some (a', b').
Proof. by intros -> ->. Qed.

(** Run a decoder on bytes known to be in memory. *)
Ltac run_decoder :=
  repeat (match goal with
          | H : rd ?m ?p = Some _ |- context [rd ?m ?p] => rewrite H; clear H
          end;
          cbn [mbind option_bind fst snd];
          repeat match goal with
          | Hd : is_u 7 ?d |- context [if 0x7f <? ?d .| 0x80 then _ else _] =>
              rewrite (more_byte d Hd)
          | Hd : is_u 7 ?d |- context [if 0x7f <? ?d then _ else _] => rewrite (last_byte d Hd)
          | Hd : is_u 7 ?d |- context [if ?d .| 0x80 <=? 0x7f then _ else _] =>
              rewrite (more_byte' d Hd)
          | Hd : is_u 7 ?d |- context [if ?d <=? 0x7f then _ else _] => rewrite (last_byte' d Hd)
          end).

Ltac split_encoder H :=
  repeat match type of H with
  | context [if ?a =? 0 then _ else _] =>
      let E := fresh "E" in destruct (Z.eqb_spec a 0) as [E|E]
  end; simpl in H; simplify_eq; simpl in *; destruct_and?.

Lemma encode_unsigned_decode mem p v bs :
  is_u 32 v -> EncodeUnsignedLeb128 v = Some bs -> reads mem p bs ->
  DecodeUnsignedLeb128 mem p = Some (v, p + Z.of_nat (length bs)).
Proof.
  intros Hv Henc Hrd. unfold EncodeUnsignedLeb128 in Henc. cbn [encode_unsigned_loop] in Henc.
  rewrite !Z.shiftr_shiftr in Henc by lia. split_encoder Henc.
  all: name_digits; unfold DecodeUnsignedLeb128; run_decoder; cbn; autorewrite with leb; subst.
  all: rewrite !land_7f; apply some_pair_eq; [|lia].
  all: match goal with
       | E : _ ≫ _ = 0 |- _ => apply shiftr_zero_is_u in E; [|lia|unfold is_u in *; lia]
       end; simpl Z.add in *; bitwise.
Qed.

(** The bits above position [n] repeat the sign. *)
Lemma sign_extra_bits n v :
  0 <= n <= 31 -> is_s 32 v -> u32 (v .^ (v ≫ 31)) ≫ n = 0 -> sN (n + 1) v = v.
Proof.
  intros Hn Hv E. apply shiftr_zero_is_u in E; [|lia|apply Z.mod_pos_bound; lia].
  apply sN_small; [lia|]. unfold is_s, is_u, uN in *. replace (n + 1 - 1) with n by lia.
  change (32 - 1) with 31 in *. rewrite Z.shiftr_div_pow2 in E by lia.
  destruct (decide (0 <= v)).
  - rewrite Z.div_small, Z.lxor_0_r, Z.mod_small in E by lia. lia.
  - replace (v / 2 ^ 31) with (-1) in E by (apply (Z.div_unique v _ _ (v + 2 ^ 31)); lia).
    rewrite Z.lxor_m1_r in E.
    unfold Z.lnot in E. rewrite Z.mod_small in E by lia. lia.
Qed.

Lemma encode_signed_decode mem p v bs :
  is_s 32 v -> EncodeSignedLeb128 v = Some bs -> reads mem p bs ->
  DecodeSignedLeb128 mem p = Some (v, p + Z.of_nat (length bs)).
Proof.
  intros Hv Henc Hrd. unfold EncodeSignedLeb128 in Henc. cbn [encode_signed_loop] in Henc.
  rewrite !Z.shiftr_shiftr in Henc by lia. split_encoder Henc.
  all: name_digits; unfold DecodeSignedLeb128; run_decoder; cbn; autorewrite with leb; subst.
  all: rewrite !land_7f; apply some_pair_eq; [|lia].
  5: transitivity (s32 v); [bitwise|apply sN_small; [lia|done]].
  all: match goal with
       | E : u32 _ ≫ _ = 0 |- _ =>
           apply sign_extra_bits in E; [etransitivity; [|exact E]|lia|done]
       end; simpl Z.add; bitwise.
Qed.

(** ** The reference decoder

    The bytes of a value extend to the first one below 0x80, five at most; the value is their
    seven-bit groups, the least significant first. *)

Fixpoint leb_take (k : nat) (mem : list Z) (p : Z) : option (list Z) :=
  match k with
  | O => Some []
  | S k =>
      b ← rd mem p;
      if 0x7f <? b then rest ← leb_take k mem (p + 1); Some (b :: rest) else Some [b]
  end.

Definition leb_value (bs : list Z) : Z := foldr (fun b acc => uN 7 b .| (acc ≪ 7)) 0 bs.

Definition leb_bits (bs : list Z) : Z := Z.min 32 (7 * Z.of_nat (length bs)).

Definition uleb_ref (mem : list Z) (p : Z) : option (Z * Z) :=
  bs ← leb_take 5 mem p; Some (u32 (leb_value bs), p + Z.of_nat (length bs)).

Definition sleb_ref (mem : list Z) (p : Z) : option (Z * Z) :=
  bs ← leb_take 5 mem p; Some (sN (leb_bits bs) (leb_value bs), p + Z.of_nat (length bs)).

Lemma rd_byte mem p b : Forall is_byte mem -> rd mem p = Some b -> is_byte b.
Proof.
  unfold rd. intros Hm H. destruct (0 <=? p); [|done]. by eapply Forall_lookup_1 in Hm.
Qed.

Lemma byte_last b : is_byte b -> (0x7f <? b) = false -> is_u 7 b.
Proof. unfold is_byte, is_u. lia. Qed.

(** Split on the bytes read and on whether each one is the last. *)
Ltac leb_cases Hm :=
  repeat match goal with
  | |- context [if ?b <=? 0x7f then _ else _] => is_var b; rewrite (Z.leb_antisym 0x7f b)
  | |- context [if 0x7f <? ?b then _ else _] =>
      is_var b; let E := fresh "E" in destruct (0x7f <? b) eqn:E; cbn
  | |- context [rd ?m ?q ≫= _] =>
      let E := fresh "E" in let b := fresh "b" in destruct (rd m q) as [b|] eqn:E; cbn; [|done];
      apply (rd_byte _ _ _ Hm) in E
  end.

Ltac last_bytes :=
  repeat match goal with
  | H : is_byte ?b, E : (0x7f <? ?b) = false |- _ => apply (byte_last _ H) in E
  end; unfold is_byte in *.

Lemma decode_unsigned_ref mem p :
  Forall is_byte mem -> DecodeUnsignedLeb128 mem p = uleb_ref mem p.
Proof.
  intros Hm. unfold DecodeUnsignedLeb128, uleb_ref. cbn [leb_take]. leb_cases Hm.
  all: rewrite ?land_7f; apply some_pair_eq; [|lia].
  all: rewrite ?Z.shiftl_0_l, ?Z.lor_0_r, ?Z.shiftl_lor, ?Z.shiftl_shiftl by lia; simpl Z.add.
  all: last_bytes; bitwise.
Qed.

Lemma decode_signed_ref mem p :
  Forall is_byte mem -> DecodeSignedLeb128 mem p = sleb_ref mem p.
Proof.
  intros Hm. unfold DecodeSignedLeb128, sleb_ref. cbn [leb_take].
  leb_cases Hm.
  all: match goal with
       | |- context [leb_bits ?l] =>
           let n := eval vm_compute in (leb_bits l) in change (leb_bits l) with n
       end.
  all: rewrite ?land_7f; apply some_pair_eq; [|lia].
  all: rewrite ?Z.shiftl_0_l, ?Z.lor_0_r, ?Z.shiftl_lor, ?Z.shiftl_shiftl by lia; simpl Z.add.
  all: last_bytes; bitwise.
Qed.

(** ** Round trips and sizes *)

Lemma log2_lor_1 v k : 0 <= v -> 0 < k -> (v ≫ k =? 0) = (Z.log2 (v .| 1) <? k).
Proof.
  intros Hv Hk. rewrite Z.log2_lor by lia. change (Z.log2 1) with 0.
  pose proof (Z.log2_nonneg v). rewrite Z.max_l by done.
  rewrite Z.shiftr_div_pow2 by lia. pose proof (pow2_pos k ltac:(lia)).
  destruct (Z.eqb_spec (v / 2 ^ k) 0) as [E|E]; rewrite Z.div_small_iff in E by lia; symmetry.
  - destruct (decide (v = 0)) as [->|]; [by apply Z.ltb_lt|].
    apply Z.ltb_lt, Z.log2_lt_pow2; lia.
  - apply Z.ltb_ge, Z.log2_le_pow2; lia.
Qed.

Lemma UnsignedLeb128Size_log2 v :
  is_u 32 v -> UnsignedLeb128Size v = (Z.log2 (v .| 1) + 7) / 7 /\ 0 <= Z.log2 (v .| 1) < 32.
Proof.
  intros Hv. unfold UnsignedLeb128Size. rewrite CLZ_log2.
  assert (0 <= Z.log2 (v .| 1) < 32) as Hl.
  { rewrite Z.log2_lor by (unfold is_u in *; lia). pose proof (Z.log2_nonneg v).
    destruct (decide (v = 0)) as [->|]; [by vm_compute|].
    assert (Z.log2 v < 32) by (apply Z.log2_lt_pow2; unfold is_u in *; lia).
    change (Z.log2 1) with 0. lia. }
  split; [|done]. set (n := Z.log2 (v .| 1)) in *.
  replace (6 + 32 - (32 - 1 - n)) with (n + 7) by lia.
  apply Z.eqb_eq. by apply (forall_index 32 (fun n => u32 (u32 (n + 7) * 37) ≫ 8 =? (n + 7) / 7)).
Qed.

Lemma encode_unsigned_total v :
  is_u 32 v ->
  exists bs, EncodeUnsignedLeb128 v = Some bs /\ Z.of_nat (length bs) = UnsignedLeb128Size v.
Proof.
  intros Hv. destruct (UnsignedLeb128Size_log2 v Hv) as [-> Hl].
  unfold EncodeUnsignedLeb128. cbn [encode_unsigned_loop].
  rewrite !Z.shiftr_shiftr by lia. assert (0 <= v) by (unfold is_u in *; lia).
  rewrite !log2_lor_1 by lia.
  repeat case_ltb; simpl in *; try lia; eexists; (split; [done|]); simpl length;
    Z.div_mod_to_equations; lia.
Qed.

(** The value with its sign bit flipped to zero is a 31-bit number. *)
Lemma abs_sign_is_u v : is_s 32 v -> is_u 31 (v .^ (v ≫ 31)).
Proof.
  intros Hv. unfold is_s, is_u in *. change (32 - 1) with 31 in *.
  rewrite Z.shiftr_div_pow2 by lia. destruct (decide (0 <= v)).
  - rewrite Z.div_small, Z.lxor_0_r by lia. lia.
  - replace (v / 2 ^ 31) with (-1) by (apply (Z.div_unique v _ _ (v + 2 ^ 31)); lia).
    rewrite Z.lxor_m1_r. unfold Z.lnot. lia.
Qed.

Lemma encode_signed_total v :
  is_s 32 v ->
  exists bs, EncodeSignedLeb128 v = Some bs /\ Z.of_nat (length bs) = SignedLeb128Size v.
Proof.
  intros Hv. pose proof (abs_sign_is_u v Hv) as Hd.
  unfold EncodeSignedLeb128, SignedLeb128Size. cbn [encode_signed_loop]. cbv zeta.
  set (d := v .^ (v ≫ 31)) in *. assert (is_u 32 d) as Hd' by (unfold is_u in *; lia).
  rewrite (uN_small 32 d) by done.
  assert (is_u 32 (d .| 1)) as H1 by (apply lor_is_u; [lia|done|unfold is_u; lia]).
  rewrite (uN_small 32 (d .| 1)), CLZ_log2 by done.
  assert (0 <= Z.log2 (d .| 1) < 31) as Hl.
  { split; [apply Z.log2_nonneg|]. rewrite <- Z.ltb_lt, <- log2_lor_1 by (unfold is_u in *; lia).
    apply Z.eqb_eq. rewrite Z.shiftr_div_pow2 by lia. by apply Z.div_small. }
  rewrite !Z.shiftr_shiftr by lia. rewrite !log2_lor_1 by (unfold is_u in *; lia).
  set (n := Z.log2 (d .| 1)) in *. replace (1 + 6 + 32 - (32 - 1 - n)) with (n + 8) by lia.
  assert (u32 (u32 (n + 8) * 37) ≫ 8 = (n + 8) / 7) as ->.
  { apply Z.eqb_eq. apply (forall_index 31 (fun n => u32 (u32 (n + 8) * 37) ≫ 8 =? (n + 8) / 7)); [by vm_compute|lia]. }
  repeat case_ltb; simpl in *; try lia; eexists; (split; [done|]); simpl length;
    Z.div_mod_to_equations; lia.
Qed.

(** ** Bounded decoding *)

Lemma rd_take mem e p :
  0 <= e <= Z.of_nat (length mem) -> 0 <= p ->
  rd (take (Z.to_nat e) mem) p = if e <=? p then None else rd mem p.
Proof.
  intros He Hp. unfold rd. destruct (Z.leb_spec 0 p); [|lia].
  case_ltb; [apply lookup_ge_None_2; rewrite length_take; lia|].
  rewrite lookup_take, decide_True by lia. done.
Qed.

Lemma rd_valid mem p : 0 <= p < Z.of_nat (length mem) -> exists b, rd mem p = Some b.
Proof.
  intros Hp. unfold rd. destruct (Z.leb_spec 0 p); [|lia].
  apply lookup_lt_is_Some_2. lia.
Qed.

(** One bounds check and read of a checked decoder against the read of the truncated memory. *)
Ltac checked_step mem e He :=
  match goal with
  | |- context [if e <=? ?q then Some None else _] =>
      let E := fresh "E" in let b := fresh "b" in let Eb := fresh "Eb" in
      destruct (Z.leb_spec e q) as [E|E];
      [|destruct (rd_valid mem q) as [b Eb]; [lia|]; rewrite Eb]; cbn; try done
  end.

Lemma checked_unsigned mem p e :
  0 <= p -> 0 <= e <= Z.of_nat (length mem) ->
  DecodeUnsignedLeb128Checked mem p e = Some (DecodeUnsignedLeb128 (take (Z.to_nat e) mem) p).
Proof.
  intros Hp He. unfold DecodeUnsignedLeb128Checked, DecodeUnsignedLeb128. cbv zeta.
  rewrite !(rd_take mem e) by lia.
  repeat (checked_step mem e He; destruct (0x7f <? _); cbn; try done).
Qed.

Lemma checked_signed mem p e :
  0 <= p -> 0 <= e <= Z.of_nat (length mem) ->
  DecodeSignedLeb128Checked mem p e = Some (DecodeSignedLeb128 (take (Z.to_nat e) mem) p).
Proof.
  intros Hp He. unfold DecodeSignedLeb128Checked, DecodeSignedLeb128. cbv zeta.
  rewrite !(rd_take mem e) by lia.
  repeat (checked_step mem e He; destruct (_ <=? 0x7f); cbn; try done).
Qed.

(** ** In-place update *)

Lemma rd_wr mem p q b :
  0 <= p < Z.of_nat (length mem) -> 0 <= q ->
  rd (wr mem p b) q = if q =? p then Some b else rd mem q.
Proof.
  intros Hp Hq. unfold rd, wr. destruct (Z.leb_spec 0 q); [|lia].
  destruct (Z.eqb_spec q p) as [->|]; [apply list_lookup_insert_eq; lia|].
  apply list_lookup_insert_ne. lia.
Qed.

Lemma length_wr mem p b : length (wr mem p b) = length mem.
Proof. apply length_insert. Qed.

Lemma wr_bytes_frame mem p bs q :
  0 <= p -> p + Z.of_nat (length bs) <= Z.of_nat (length mem) -> 0 <= q ->
  q < p \/ p + Z.of_nat (length bs) <= q ->
  rd (wr_bytes mem p bs) q = rd mem q.
Proof.
  revert mem p. induction bs as [|b bs IH]; intros mem p Hp Hl Hq H; simpl in *; [done|].
  rewrite IH by (rewrite ?length_wr; lia). rewrite rd_wr by lia.
  destruct (Z.eqb_spec q p); [lia|done].
Qed.

Lemma length_wr_bytes mem p bs : length (wr_bytes mem p bs) = length mem.
Proof.
  revert mem p. induction bs; intros; simpl; [done|]. by rewrite IHbs, length_wr.
Qed.

Lemma reads_wr_bytes mem p bs :
  0 <= p -> p + Z.of_nat (length bs) <= Z.of_nat (length mem) ->
  reads (wr_bytes mem p bs) p bs.
Proof.
  revert mem p. induction bs as [|b bs IH]; intros mem p Hp Hl; simpl in *; [done|]. split.
  - rewrite wr_bytes_frame by (rewrite ?length_wr; lia). rewrite rd_wr by lia.
    by rewrite Z.eqb_refl.
  - apply IH; rewrite ?length_wr; lia.
Qed.

Lemma wr_is_byte mem p b : Forall is_byte mem -> is_byte b -> Forall is_byte (wr mem p b).
Proof. intros. by apply Forall_insert. Qed.

Lemma wr_bytes_is_byte mem p bs :
  Forall is_byte mem -> Forall is_byte bs -> Forall is_byte (wr_bytes mem p bs).
Proof.
  revert mem p. induction bs; intros mem p Hm Hbs; simpl; [done|].
  inversion_clear Hbs. apply IHbs; [by apply wr_is_byte|done].
Qed.

Lemma leb_take_rd k mem p bs :
  0 <= p -> leb_take k mem p = Some bs -> p + Z.of_nat (length bs) <= Z.of_nat (length mem) \/ bs = [].
Proof.
  revert p bs. induction k as [|k IH]; intros p bs Hp H; simpl in H; simplify_eq; [by right|].
  left. destruct (rd mem p) as [b|] eqn:E; [|done]. cbn in H.
  assert (p < Z.of_nat (length mem)).
  { unfold rd in E. destruct (0 <=? p); [|done]. apply lookup_lt_Some in E. lia. }
  destruct (0x7f <? b); [|simplify_eq; simpl; lia].
  destruct (leb_take k mem (p + 1)) as [rest|] eqn:E'; [|done]. cbn in H. simplify_eq.
  destruct (IH (p + 1) rest) as [?| -> ]; [lia|done| |]; simpl; lia.
Qed.

(** Lengthening an encoding by one byte. *)
Lemma leb_take_extend k mem p bs :
  0 <= p -> leb_take k mem p = Some bs -> (length bs < k)%nat ->
  Z.of_nat (length bs) + p < Z.of_nat (length mem) -> Forall is_byte mem ->
  exists b init, bs = init ++ [b] /\ is_u 7 b /\
    let e := p + Z.of_nat (length bs) in
    rd mem (e - 1) = Some b /\
    leb_take k (wr (wr mem (e - 1) (b .| 0x80)) e 0) p = Some (init ++ [b .| 0x80; 0]).
Proof.
  revert p bs. induction k as [|k IH]; intros p bs Hp H Hk Hl Hm; simpl in H; simplify_eq; [simpl in *; lia|].
  destruct (rd mem p) as [b|] eqn:E; [|done]. cbn in H.
  destruct (0x7f <? b) eqn:Eb.
  - destruct (leb_take k mem (p + 1)) as [rest|] eqn:E'; [|done]. cbn in H. simplify_eq.
    simpl in *. destruct (IH (p + 1) rest) as (b' & init & -> & Hb' & H1 & H2); [lia|done|lia|lia|done|].
    exists b', (b :: init). simpl. split_and!; [done|done| |].
    + rewrite <- H1. f_equal. lia.
    + rewrite length_app in *. simpl in *. rewrite !rd_wr by (rewrite ?length_wr; lia).
      destruct (Z.eqb_spec p (p + Z.of_nat (S (length init + 1)))); [lia|].
      destruct (Z.eqb_spec p (p + Z.of_nat (S (length init + 1)) - 1)); [lia|].
      rewrite E. cbn. rewrite Eb.
      replace (p + Z.of_nat (S (length init + 1))) with (p + 1 + Z.of_nat (length init + 1)) by lia.
      by rewrite H2.
  - simplify_eq. simpl in *. exists b, []. simpl.
    apply (byte_last b) in Eb; [|by eapply rd_byte].
    change (Z.of_nat 1) with 1 in *. replace (p + 1 - 1) with p by lia.
    split_and!; [done..|]. destruct k; [lia|]. simpl.
    rewrite !rd_wr by (rewrite ?length_wr; lia).
    replace (p =? p + 1) with false by lia. rewrite !Z.eqb_refl. cbn.
    by rewrite more_byte by done.
Qed.

Lemma leb_value_extend init b :
  is_u 7 b -> leb_value (init ++ [b .| 0x80; 0]) = leb_value (init ++ [b]).
Proof.
  intros Hb. unfold leb_value. rewrite !foldr_app. f_equal. simpl.
  rewrite <- !land_7f. rewrite strip_byte, (keep_byte b) by done. reflexivity.
Qed.

Lemma pad_loop_correct fuel mem p bs old_end :
  0 <= p -> Forall is_byte mem -> leb_take 5 mem p = Some bs ->
  old_end <= p + 5 -> old_end <= Z.of_nat (length mem) ->
  p + Z.of_nat (length bs) <= old_end ->
  (Z.to_nat (old_end - p) <= fuel + length bs)%nat ->
  exists mem' bs',
    pad_loop fuel mem (p + Z.of_nat (length bs)) old_end = Some mem' /\
    Forall is_byte mem' /\ length mem' = length mem /\
    leb_take 5 mem' p = Some bs' /\ p + Z.of_nat (length bs') = old_end /\
    leb_value bs' = leb_value bs /\
    (forall q, 0 <= q -> q < p \/ old_end <= q -> rd mem' q = rd mem q).
Proof.
  revert mem bs. induction fuel as [|fuel IH]; intros mem bs Hp Hm Ht H5 Hl Hbs Hf;
    simpl; case_ltb; try lia; try (exists mem, bs; split_and!; (done || lia)).
  destruct (leb_take_extend 5 mem p bs) as (b & init & -> & Hb & H1 & H2); try done; try lia.
  rewrite H1. cbn. rewrite length_app in *. simpl in *.
  set (m := wr _ _ 0) in *.
  destruct (IH m (init ++ [b .| 0x80; 0])) as (mem' & bs' & E1 & E2 & E3 & E4 & E5 & E6 & E7);
    rewrite ?length_app; simpl; try done; try lia.
  { subst m. apply wr_is_byte; [apply wr_is_byte; [done|]|unfold is_byte, is_u; lia].
    rewrite lor_80 by done. unfold is_byte, is_u in *. lia. }
  { subst m. rewrite !length_wr. lia. }
  exists mem', bs'. split_and!; try done.
  - rewrite <- E1. f_equal. rewrite length_app. simpl. lia.
  - rewrite E3. subst m. by rewrite !length_wr.
  - rewrite E6. by apply leb_value_extend.
  - intros q Hq0 Hq. rewrite E7 by done. subst m.
    rewrite !rd_wr by (rewrite ?length_wr; lia).
    destruct (Z.eqb_spec q (p + Z.of_nat (length init + 1))); [lia|].
    destruct (Z.eqb_spec q (p + Z.of_nat (length init + 1) - 1)); [lia|done].
Qed.

Lemma encode_unsigned_bytes v bs :
  EncodeUnsignedLeb128 v = Some bs -> Forall is_byte bs.
Proof.
  unfold EncodeUnsignedLeb128. generalize 4%nat as fuel, (v .& 0x7f) as out, (digit_is_u v), (v ≫ 7).
  intros fuel. revert bs. clear v.
  induction fuel as [|fuel IH]; intros bs out Hout v H; simpl in H; destruct (v =? 0); simplify_eq.
  - repeat constructor; unfold is_u in *; lia.
  - repeat constructor; unfold is_u in *; lia.
  - destruct (encode_unsigned_loop _ _ _) eqn:E; [|done]. cbn in H. simplify_eq.
    constructor; [rewrite lor_80 by done; unfold is_byte, is_u in *; lia|].
    eapply IH; [|done]. apply digit_is_u.
Qed.

Lemma leb_take_length k mem p bs : leb_take k mem p = Some bs -> (length bs <= k)%nat.
Proof.
  revert p bs. induction k as [|k IH]; intros p bs H; simpl in H; simplify_eq; [done|].
  destruct (rd mem p); [|done]. cbn in H. destruct (0x7f <? _); [|simplify_eq; simpl; lia].
  destruct (leb_take k mem (p + 1)) as [rest|] eqn:E; [|done]. cbn in H. simplify_eq.
  apply IH in E. simpl. lia.
Qed.

Lemma leb_value_is_u bs : is_u (7 * Z.of_nat (length bs)) (leb_value bs).
Proof.
  induction bs as [|b bs IH]; [unfold is_u; simpl; lia|]. cbn [length leb_value foldr].
  fold (leb_value bs). pose proof (uN_is_u 7 b ltac:(lia)).
  apply lor_is_u; [lia|unfold is_u in *|].
  - pose proof (pow2_le 7 (7 * Z.of_nat (S (length bs))) ltac:(lia)). lia.
  - unfold is_u in *. rewrite Z.shiftl_mul_pow2 by lia.
    replace (7 * Z.of_nat (S (length bs))) with (7 * Z.of_nat (length bs) + 7) by lia.
    rewrite Z.pow_add_r by lia. nia.
Qed.

Lemma UnsignedLeb128Size_taken mem p bs :
  leb_take 5 mem p = Some bs -> bs <> [] ->
  UnsignedLeb128Size (u32 (leb_value bs)) <= Z.of_nat (length bs).
Proof.
  intros H Hne. pose proof (leb_take_length _ _ _ _ H).
  destruct (UnsignedLeb128Size_log2 (u32 (leb_value bs))) as [-> Hl]; [apply uN_is_u; lia|].
  destruct bs as [|b bs]; [done|]. set (bs' := b :: bs) in *.
  assert (0 < 7 * Z.of_nat (length bs')) by (simpl; lia).
  assert (Z.log2 (u32 (leb_value bs') .| 1) < 7 * Z.of_nat (length bs')).
  { apply Z.ltb_lt. rewrite <- log2_lor_1; [|apply Z.mod_pos_bound; lia|done].
    apply Z.eqb_eq. rewrite Z.shiftr_div_pow2 by lia.
    pose proof (leb_value_is_u bs'). apply Z.div_small. unfold is_u in *.
    split; [apply Z.mod_pos_bound; lia|].
    eapply Z.le_lt_trans; [apply Z.mod_le; lia|lia]. }
  Z.div_mod_to_equations. lia.
Qed.

(** ** Codecs

    What the users of an encoding rely on: every valid value is encoded, and its bytes decode
    to it wherever they are, leaving the cursor behind them. *)
Record ByteCodec := {
  bc_valid : Z -> Prop;
  bc_encode : Z -> option (list Z);
  bc_decode : list Z -> Z -> option (Z * Z);
  bc_total : forall v, bc_valid v -> exists bs, bc_encode v = Some bs;
  bc_law : forall mem p v bs, bc_valid v -> bc_encode v = Some bs -> reads mem p bs ->
    bc_decode mem p = Some (v, p + Z.of_nat (length bs)) }.

Definition UnsignedCodec : ByteCodec := {|
  bc_valid := is_u 32;
  bc_encode := EncodeUnsignedLeb128;
  bc_decode := DecodeUnsignedLeb128;
  bc_total v Hv := let '(ex_intro _ bs (conj H _)) := encode_unsigned_total v Hv in ex_intro _ bs H;
  bc_law := encode_unsigned_decode |}.

Definition SignedCodec : ByteCodec := {|
  bc_valid := is_s 32;
  bc_encode := EncodeSignedLeb128;
  bc_decode := DecodeSignedLeb128;
  bc_total v Hv := let '(ex_intro _ bs (conj H _)) := encode_signed_total v Hv in ex_intro _ bs H;
  bc_law := encode_signed_decode |}.

Section codec.
Context (C : ByteCodec).

(** Push the values one after the other, as [InsertBackUnsigned] and [InsertBackSigned] do. *)
Fixpoint insert_back (data : list Z) (values : list Z) : option (list Z) :=
  match values with
  | [] => Some data
  | v :: values => bs ← bc_encode C v; insert_back (data ++ bs) values
  end.

(** Decode [n] values starting at [p]. *)
Fixpoint decode_n (n : nat) (mem : list Z) (p : Z) : option (list Z * Z) :=
  match n with
  | O => Some ([], p)
  | S n => '(v, p) ← bc_decode C mem p; '(vs, p) ← decode_n n mem p; Some (v :: vs, p)
  end.

Lemma insert_back_decode data values post :
  Forall (bc_valid C) values ->
  exists out, insert_back data values = Some (data ++ out) /\
    decode_n (length values) (data ++ out ++ post) (Z.of_nat (length data)) =
      Some (values, Z.of_nat (length (data ++ out))).
Proof.
  intros HV. revert data. induction HV as [|v values Hv HV IH]; intros data; simpl.
  { exists []. by rewrite app_nil_r. }
  destruct (bc_total C v Hv) as [bs Hbs]. destruct (IH (data ++ bs)) as (out & H1 & H2).
  exists (bs ++ out). rewrite Hbs. cbn. rewrite app_assoc. split; [done|].
  rewrite (bc_law C _ _ v bs Hv Hbs).
  - cbn. rewrite length_app, Nat2Z.inj_add in H2. rewrite <- app_assoc in H2.
    rewrite <- !app_assoc in *. rewrite H2. done.
  - rewrite <- app_assoc. apply reads_app.
Qed.
End codec.

Lemma InsertBackUnsigned_codec data values :
  InsertBackUnsigned data values = insert_back UnsignedCodec data values.
Proof.
  revert data. induction values as [|v values IH]; intros data; simpl; [done|].
  unfold PushBackUnsigned. destruct (EncodeUnsignedLeb128 v); cbn; [apply IH|done].
Qed.

Lemma InsertBackSigned_codec data values :
  InsertBackSigned data values = insert_back SignedCodec data values.
Proof.
  revert data. induction values as [|v values IH]; intros data; simpl; [done|].
  unfold PushBackSigned. destruct (EncodeSignedLeb128 v); cbn; [apply IH|done].
Qed.

(** Every byte of an encoding but the last one has the continuation bit. *)
Lemma encode_unsigned_shape v bs :
  EncodeUnsignedLeb128 v = Some bs ->
  exists init b, bs = init ++ [b] /\ IsLeb128Terminator b = true /\
    Forall (fun c => IsLeb128Terminator c = false) init.
Proof.
  unfold EncodeUnsignedLeb128. generalize 4%nat as fuel, (v .& 0x7f) as out, (digit_is_u v), (v ≫ 7).
  intros fuel. revert bs. clear v.
  induction fuel as [|fuel IH]; intros bs out Hout v H; simpl in H; destruct (v =? 0); simplify_eq.
  - exists [], out. split_and!; [done|by apply last_byte'|constructor].
  - exists [], out. split_and!; [done|by apply last_byte'|constructor].
  - destruct (encode_unsigned_loop _ _ _) as [rest|] eqn:E; [|done]. cbn in H. simplify_eq.
    destruct (IH rest (v .& 0x7f) (digit_is_u v) (v ≫ 7) E) as (init & b & -> & Hb & Hi).
    exists ((out .| 0x80) :: init), b. split_and!; [done|done|].
    constructor; [by apply more_byte'|done].
Qed.

Lemma rd_middle pre b post : rd (pre ++ b :: post) (Z.of_nat (length pre)) = Some b.
Proof.
  unfold rd. destruct (Z.leb_spec 0 (Z.of_nat (length pre))); [|lia].
  rewrite Nat2Z.id. by rewrite list_lookup_middle.
Qed.

Lemma reverse_search_run fuel data t init post :
  IsLeb128Terminator t = true -> Forall (fun c => IsLeb128Terminator c = false) init ->
  (length init <= fuel)%nat ->
  reverse_search fuel (data ++ t :: init ++ post) (Z.of_nat (S (length data + length init))) =
    Some (Z.of_nat (S (length data))).
Proof.
  intros Ht. revert fuel post. induction init as [|c init IH] using rev_ind; intros fuel post Hi Hf.
  - destruct fuel; simpl;
    replace (Z.of_nat (S (length data + 0)) - 1) with (Z.of_nat (length data)) by lia;
    rewrite rd_middle; cbn; rewrite Ht; do 2 f_equal; lia.
  - rewrite length_app in *. simpl in *. apply Forall_app in Hi as [Hi Hc].
    inversion_clear Hc as [|? ? Hc' _].
    assert (rd (data ++ t :: (init ++ [c]) ++ post) (Z.of_nat (S (length data + (length init + 1))) - 1) = Some c) as E.
    { rewrite <- app_assoc. simpl. change (data ++ t :: init ++ c :: post) with (data ++ (t :: init) ++ c :: post).
      rewrite app_assoc. rewrite <- (rd_middle (data ++ t :: init) c post). f_equal.
      rewrite length_app. simpl. lia. }
    destruct fuel as [|fuel]; [lia|]. cbn [reverse_search]. rewrite E. cbn. rewrite Hc'.
    rewrite <- app_assoc. simpl.
    rewrite <- (IH fuel (c :: post)) by (done || lia). f_equal. lia.
Qed.

Lemma leb_take_nonempty k mem p bs : leb_take (S k) mem p = Some bs -> bs <> [].
Proof.
  cbn [leb_take]. destruct (rd mem p) as [b|]; [|done]. cbn [mbind option_bind].
  destruct (0x7f <? b); [|by intros [= <-]].
  destruct (leb_take k mem (p + 1)); [|done]. by intros [= <-].
Qed.

(** ** Properties *)

(** C34: every 32-bit unsigned value has an unsigned LEB128 encoding, of exactly
    [UnsignedLeb128Size] bytes, and decoding those bytes anywhere in memory gives the value back
    and moves the cursor just behind them. *)
Theorem UnsignedLeb128_roundtrip (v : Z) (pre post : list Z) (Hv : is_u 32 v) :
  exists bs,
    EncodeUnsignedLeb128 v = Some bs /\ Z.of_nat (length bs) = UnsignedLeb128Size v /\
    DecodeUnsignedLeb128 (pre ++ bs ++ post) (Z.of_nat (length pre)) =
      Some (v, Z.of_nat (length pre + length bs)).
Proof.
  destruct (encode_unsigned_total v Hv) as (bs & H1 & H2). exists bs. split_and!; [done|done|].
  rewrite Nat2Z.inj_add. eapply encode_unsigned_decode; [done|done|apply reads_app].
Qed.

Lemma UnsignedLeb128_roundtrip_witness :
  exists bs,
    EncodeUnsignedLeb128 300 = Some bs /\ Z.of_nat (length bs) = UnsignedLeb128Size 300 /\
    DecodeUnsignedLeb128 ([7; 8] ++ bs ++ [9]) 2 = Some (300, Z.of_nat (2 + length bs)).
Proof. apply (UnsignedLeb128_roundtrip 300 [7; 8] [9]). unfold is_u. lia. Defined.

(** every 32-bit signed value has a signed LEB128 encoding, of exactly [SignedLeb128Size]
    bytes, and decoding those bytes anywhere in memory gives the value back and moves the cursor
    just behind them. *)
Theorem SignedLeb128_roundtrip (v : Z) (pre post : list Z) (Hv : is_s 32 v) :
  exists bs,
    EncodeSignedLeb128 v = Some bs /\ Z.of_nat (length bs) = SignedLeb128Size v /\
    DecodeSignedLeb128 (pre ++ bs ++ post) (Z.of_nat (length pre)) =
      Some (v, Z.of_nat (length pre + length bs)).
Proof.
  destruct (encode_signed_total v Hv) as (bs & H1 & H2). exists bs. split_and!; [done|done|].
  rewrite Nat2Z.inj_add. eapply encode_signed_decode; [done|done|apply reads_app].
Qed.

(** a sequence of values inserted at the back of a vector by a [Leb128Encoder] leaves the
    data before it alone and is read back, value by value, by as many calls of the decoder. *)
Theorem Leb128Encoder_sequences (data us ss post : list Z)
    (Hu : Forall (is_u 32) us) (Hs : Forall (is_s 32) ss) :
  (exists out, InsertBackUnsigned data us = Some (data ++ out) /\
     decode_n UnsignedCodec (length us) (data ++ out ++ post) (Z.of_nat (length data)) =
       Some (us, Z.of_nat (length (data ++ out)))) /\
  (exists out, InsertBackSigned data ss = Some (data ++ out) /\
     decode_n SignedCodec (length ss) (data ++ out ++ post) (Z.of_nat (length data)) =
       Some (ss, Z.of_nat (length (data ++ out)))).
Proof.
  rewrite InsertBackUnsigned_codec, InsertBackSigned_codec.
  split; [by apply (insert_back_decode UnsignedCodec)|by apply (insert_back_decode SignedCodec)].
Qed.

(** on a memory of bytes the unrolled decoders compute the LEB128 reference: the seven-bit
    groups up to the first byte without a continuation bit, five bytes at most, taken at 32 bits
    (unsigned) or sign extended from the last group (signed); the P1 variant is one less.  They
    read outside of memory exactly when the reference does. *)
Theorem DecodeLeb128_reference (mem : list Z) (p : Z) (Hm : Forall is_byte mem) :
  DecodeUnsignedLeb128 mem p = uleb_ref mem p /\
  DecodeSignedLeb128 mem p = sleb_ref mem p /\
  DecodeUnsignedLeb128P1 mem p = ('(v, e) ← uleb_ref mem p; Some (s32 (v - 1), e)).
Proof.
  rewrite <- decode_unsigned_ref, <- decode_signed_ref by done. split_and!; [done|done|].
  unfold DecodeUnsignedLeb128P1. destruct (DecodeUnsignedLeb128 mem p) as [[v e]|]; [|done].
  cbn. by rewrite sN_uN by lia.
Qed.

(** C35: the checked decoders never read at or behind [end]: they always return, and return what
    the plain decoder computes on the memory truncated at [end], where a read beyond the
    truncation becomes the result [false]. *)
Theorem DecodeLeb128Checked_bounded (mem : list Z) (data end_ : Z)
    (Hd : 0 <= data) (He : 0 <= end_ <= Z.of_nat (length mem)) :
  DecodeUnsignedLeb128Checked mem data end_ =
    Some (DecodeUnsignedLeb128 (take (Z.to_nat end_) mem) data) /\
  DecodeSignedLeb128Checked mem data end_ =
    Some (DecodeSignedLeb128 (take (Z.to_nat end_) mem) data).
Proof. split; [by apply checked_unsigned|by apply checked_signed]. Qed.

Lemma DecodeLeb128Checked_bounded_witness :
  DecodeUnsignedLeb128Checked [0xE5; 0x8E; 0x26] 0 2 =
    Some (DecodeUnsignedLeb128 (take 2 [0xE5; 0x8E; 0x26]) 0) /\
  DecodeSignedLeb128Checked [0xE5; 0x8E; 0x26] 0 2 =
    Some (DecodeSignedLeb128 (take 2 [0xE5; 0x8E; 0x26]) 0).
Proof. apply (DecodeLeb128Checked_bounded [0xE5; 0x8E; 0x26] 0 2); simpl; lia. Defined.

(** [UpdateUnsignedLeb128] overwrites an encoded value in place when the new value needs no
    more bytes than the old one: decoding gives the new value and the old end of the encoding,
    and no other byte of memory changes. *)
Theorem UpdateUnsignedLeb128_correct (mem : list Z) (dest value old_value old_end : Z)
    (Hm : Forall is_byte mem) (Hd : 0 <= dest) (Hv : is_u 32 value)
    (Hold : DecodeUnsignedLeb128 mem dest = Some (old_value, old_end))
    (Hsize : UnsignedLeb128Size value <= UnsignedLeb128Size old_value) :
  exists mem',
    UpdateUnsignedLeb128 mem dest value = Some mem' /\
    length mem' = length mem /\
    DecodeUnsignedLeb128 mem' dest = Some (value, old_end) /\
    (forall q, 0 <= q -> q < dest \/ old_end <= q -> rd mem' q = rd mem q).
Proof.
  unfold UpdateUnsignedLeb128. rewrite Hold. cbn [mbind option_bind].
  rewrite decode_unsigned_ref in Hold by done. unfold uleb_ref in Hold.
  destruct (leb_take 5 mem dest) as [obs|] eqn:Eo; [|done]. cbn in Hold. simplify_eq.
  destruct (encode_unsigned_total value Hv) as (bs & Ebs & Hlen). rewrite Ebs. cbn [mbind option_bind].
  pose proof (leb_take_nonempty _ _ _ _ Eo) as Hne.
  pose proof (UnsignedLeb128Size_taken _ _ _ Eo Hne). pose proof (leb_take_length _ _ _ _ Eo).
  destruct (leb_take_rd _ _ _ _ Hd Eo) as [Hin|]; [|done].
  set (m := wr_bytes mem dest bs).
  assert (Forall is_byte m) as Hm'.
  { apply wr_bytes_is_byte; [done|]. by eapply encode_unsigned_bytes. }
  assert (DecodeUnsignedLeb128 m dest = Some (value, dest + Z.of_nat (length bs))) as Hdec.
  { eapply encode_unsigned_decode; [done|done|]. apply reads_wr_bytes; lia. }
  rewrite decode_unsigned_ref in Hdec by done. unfold uleb_ref in Hdec.
  destruct (leb_take 5 m dest) as [nbs|] eqn:En; [|done]. cbn in Hdec. simplify_eq.
  assert (length nbs = length bs) as Hl by lia.
  destruct (pad_loop_correct 5 m dest nbs (dest + Z.of_nat (length obs)))
    as (mem' & bs' & E1 & E2 & E3 & E4 & E5 & E6 & E7);
    try done; try lia; [subst m; rewrite length_wr_bytes; lia|].
  exists mem'. split_and!.
  - by rewrite <- Hl.
  - rewrite E3. apply length_wr_bytes.
  - rewrite decode_unsigned_ref by done. unfold uleb_ref. rewrite E4. cbn. by rewrite E5, E6.
  - intros q Hq0 Hq. rewrite E7 by done. apply wr_bytes_frame; lia.
Qed.

(** searching backwards from the end of a vector finds the first byte of the value that was
    pushed last, whenever another value's last byte is before it. *)
Theorem ReverseSearchUnsignedLeb128_finds_start (data data' : list Z) (t v : Z)
    (Ht : IsLeb128Terminator t = true)
    (Hp : PushBackUnsigned (data ++ [t]) v = Some data') :
  ReverseSearchUnsignedLeb128 data' (Z.of_nat (length data')) =
    Some (Z.of_nat (length (data ++ [t]))).
Proof.
  unfold PushBackUnsigned in Hp. destruct (EncodeUnsignedLeb128 v) as [bs|] eqn:E; [|done].
  cbn in Hp. simplify_eq. apply encode_unsigned_shape in E as (init & b & -> & Hb & Hi).
  unfold ReverseSearchUnsignedLeb128. rewrite <- app_assoc. simpl.
  etransitivity; [etransitivity;
    [|apply (reverse_search_run (length (data ++ t :: init ++ [b])) data t init [b] Ht Hi)]|].
  - f_equal. rewrite !length_app. simpl. rewrite length_app. simpl. lia.
  - rewrite length_app. simpl. rewrite length_app. lia.
  - do 2 f_equal. rewrite length_app. simpl. lia.
Qed.

