(* ===== verification/Memory.v ===== *)
(** Byte-addressed memory, shared by the components that read and write through pointers.

    A memory gives the byte at every address; the code runs on little-endian machines, so a
    word is assembled from its bytes with the least significant one at the lowest address.  The
    bit view numbers the bits of the whole memory: bit [i] is bit [i mod 8] of byte [i / 8]. *)
From S2P Require Import Prelude.

Definition memory := Z -> Z.

Definition bytes_ok (m : memory) : Prop := forall a, is_u 8 (m a).

Definition set_byte (m : memory) (a b : Z) : memory := fun x => if x =? a then b else m x.

(** The word of [n] bytes at address [a], and its replacement by [v]. *)
Fixpoint load_bytes (n : nat) (m : memory) (a : Z) : Z :=
  match n with
  | O => 0
  | S n => m a .| (load_bytes n m (a + 1) ≪ 8)
  end.

Fixpoint store_bytes (n : nat) (m : memory) (a v : Z) : memory :=
  match n with
  | O => m
  | S n => store_bytes n (set_byte m a (uN 8 v)) (a + 1) (v ≫ 8)
  end.

Definition load (w : Z) (m : memory) (a : Z) : Z := load_bytes (Z.to_nat (w / 8)) m a.
Definition store (w : Z) (m : memory) (a v : Z) : memory := store_bytes (Z.to_nat (w / 8)) m a v.

Definition mbit (m : memory) (i : Z) : bool := Z.testbit (m (i / 8)) (i mod 8).

(** The number whose [n] low bits are [f 0], [f 1], ... *)
Fixpoint of_bits (n : nat) (f : Z -> bool) : Z :=
  match n with
  | O => 0
  | S n => 2 * of_bits n (fun i => f (i + 1)) + Z.b2z (f 0)
  end.

(** ** Lemmas *)

Lemma of_bits_testbit n f i :
  0 <= i -> Z.testbit (of_bits n f) i = (i <? Z.of_nat n) && f i.
Proof.
  revert f i. induction n as [|n IH]; intros f i Hi; cbn [of_bits].
  - rewrite Z.testbit_0_l. destruct (Z.ltb_spec i (Z.of_nat 0)); [lia|done].
  - destruct (decide (i = 0)) as [->|].
    + by rewrite Z.testbit_0_r.
    + replace i with (Z.succ (i - 1)) by lia. rewrite Z.testbit_succ_r, IH by lia.
      replace (i - 1 + 1) with (Z.succ (i - 1)) by lia. repeat case_ltb; (done || lia).
Qed.

Lemma of_bits_is_u n f : is_u (Z.of_nat n) (of_bits n f).
Proof.
  revert f. induction n as [|n IH]; intros f; cbn [of_bits]; [unfold is_u; simpl; lia|].
  specialize (IH (fun i => f (i + 1))). unfold is_u in *.
  rewrite Nat2Z.inj_succ, Z.pow_succ_r by lia. destruct (f 0); simpl Z.b2z; lia.
Qed.

Lemma div_mod_shift a i : 0 <= i < 8 -> (8 * a + i) / 8 = a /\ (8 * a + i) mod 8 = i.
Proof. intros Hi. split; [symmetry; apply (Z.div_unique _ _ _ i)|symmetry; apply (Z.mod_unique _ _ a)]; lia. Qed.

Lemma mbit_byte m a i : 0 <= i < 8 -> mbit m (8 * a + i) = Z.testbit (m a) i.
Proof. intros Hi. unfold mbit. by destruct (div_mod_shift a i Hi) as [-> ->]. Qed.

(** Two memories of bytes with the same bits are the same. *)
Lemma mbit_ext m m' a :
  bytes_ok m -> bytes_ok m' -> (forall i, 8 * a <= i < 8 * a + 8 -> mbit m i = mbit m' i) ->
  m a = m' a.
Proof.
  intros Hm Hm' H. apply Z.bits_inj'. intros i Hi. destruct (decide (i < 8)).
  - rewrite <- !mbit_byte by lia. apply H. lia.
  - by rewrite (testbit_high 8), (testbit_high 8) by (done || lia).
Qed.

Lemma mbit_set_byte m a b i :
  mbit (set_byte m a b) i = if i / 8 =? a then Z.testbit b (i mod 8) else mbit m i.
Proof. unfold mbit, set_byte. by case_ltb. Qed.

Lemma bytes_ok_set_byte m a b : bytes_ok m -> is_u 8 b -> bytes_ok (set_byte m a b).
Proof. intros Hm Hb x. unfold set_byte. by case_ltb. Qed.

Lemma load_bytes_testbit n m a i :
  bytes_ok m -> 0 <= i ->
  Z.testbit (load_bytes n m a) i = (i <? 8 * Z.of_nat n) && mbit m (8 * a + i).
Proof.
  intros Hm. revert a i. induction n as [|n IH]; intros a i Hi; cbn [load_bytes].
  - rewrite Z.testbit_0_l. destruct (Z.ltb_spec i (8 * Z.of_nat 0)); [lia|done].
  - rewrite Z.lor_spec, shiftl_testbit by lia. specialize (Hm a). destruct (Z.ltb_spec i 8).
    + rewrite mbit_byte by lia. rewrite (Z.testbit_neg_r _ (i - 8)), orb_false_r by lia.
      by destruct (Z.ltb_spec i (8 * Z.of_nat (S n))); [|lia].
    + rewrite (testbit_high 8) by (done || lia). rewrite IH by lia. cbn [orb].
      replace (8 * (a + 1) + (i - 8)) with (8 * a + i) by lia. repeat case_ltb; (done || lia).
Qed.

Lemma load_testbit w m a i :
  bytes_ok m -> 0 <= w -> w mod 8 = 0 -> 0 <= i ->
  Z.testbit (load w m a) i = (i <? w) && mbit m (8 * a + i).
Proof.
  intros Hm Hw Hw8 Hi. unfold load. rewrite load_bytes_testbit by done.
  rewrite Z2Nat.id by (apply Z.div_pos; lia).
  replace (8 * (w / 8)) with w by (rewrite (Z.div_mod w 8) at 1; lia). done.
Qed.

Lemma store_bytes_mbit n m a v i :
  mbit (store_bytes n m a v) i =
    if (8 * a <=? i) && (i <? 8 * (a + Z.of_nat n)) then Z.testbit v (i - 8 * a) else mbit m i.
Proof.
  revert m a v. induction n as [|n IH]; intros m a v; cbn [store_bytes].
  - destruct (Z.leb_spec (8 * a) i), (Z.ltb_spec i (8 * (a + Z.of_nat 0))); simpl; (done || lia).
  - rewrite IH, mbit_set_byte. pose proof (Z.div_mod i 8 ltac:(lia)).
    pose proof (Z.mod_pos_bound i 8 ltac:(lia)).
    destruct (Z.eqb_spec (i / 8) a) as [E|E].
    + destruct (Z.leb_spec (8 * (a + 1)) i); [lia|]. cbn [andb].
      destruct (Z.leb_spec (8 * a) i); [|lia].
      destruct (Z.ltb_spec i (8 * (a + Z.of_nat (S n)))); [|lia]. cbn [andb].
      rewrite uN_testbit by lia. destruct (Z.ltb_spec (i mod 8) 8); [|lia].
      cbn [andb]. f_equal. lia.
    + destruct (Z.leb_spec (8 * (a + 1)) i), (Z.leb_spec (8 * a) i);
        repeat case_ltb; cbn [andb]; try (done || lia).
      rewrite Z.shiftr_spec by lia. f_equal. lia.
Qed.

Lemma bytes_ok_store_bytes n m a v : bytes_ok m -> bytes_ok (store_bytes n m a v).
Proof.
  revert m a v. induction n as [|n IH]; intros m a v Hm; cbn [store_bytes]; [done|].
  apply IH, bytes_ok_set_byte; [done|apply uN_is_u; lia].
Qed.

Lemma store_mbit w m a v i :
  0 <= w -> w mod 8 = 0 ->
  mbit (store w m a v) i =
    if (8 * a <=? i) && (i <? 8 * a + w) then Z.testbit v (i - 8 * a) else mbit m i.
Proof.
  intros Hw Hw8. unfold store. rewrite store_bytes_mbit.
  rewrite Z2Nat.id by (apply Z.div_pos; lia).
  replace (8 * (a + w / 8)) with (8 * a + w) by (rewrite (Z.div_mod w 8) at 1; lia). done.
Qed.

Lemma bytes_ok_store w m a v : bytes_ok m -> bytes_ok (store w m a v).
Proof. apply bytes_ok_store_bytes. Qed.

Lemma load_nonneg w m a : bytes_ok m -> 0 <= load w m a.
Proof.
  intros Hm. unfold load. revert a. induction (Z.to_nat (w / 8)) as [|n IH]; intros a; cbn [load_bytes]; [lia|].
  apply Z.lor_nonneg. split; [apply (Hm a)|by apply Z.shiftl_nonneg].
Qed.
