(* ===== verification/BitMemory.v ===== *)
(** Bit-granular views of memory: libartbase/base/bit_memory_region.h.

    A [BitMemoryRegion] names a range of bits of memory; the operations take the memory they
    work on and the ones that write return the new one.  [size_t] has 64 bits.  A vector of
    bytes that a [BitMemoryWriter] appends to is an area of memory with a size: growing it
    makes the new bytes zero. *)
From S2P Require Import Prelude BitUtils Memory.

(** ** BitMemoryRegion *)

Definition kPageSize : Z := 4096.
Definition kBitsPerByteLog2 : Z := 3.

Record BitMemoryRegion := Region { data_ : Z; bit_start_ : Z; bit_size_ : Z }.

Definition MakeRegion (data bit_start bit_size : Z) : BitMemoryRegion :=
  let d := RoundDown 64 (data + (bit_start ≫ kBitsPerByteLog2)) kPageSize in
  Region d (u64 (bit_start + kBitsPerByte * (data - d))) bit_size.

Definition IsValid (r : BitMemoryRegion) : bool := negb (data_ r =? 0).

Definition region_data (r : BitMemoryRegion) : Z := data_ r + bit_start_ r / kBitsPerByte.

Definition size_in_bits (r : BitMemoryRegion) : Z := bit_size_ r.

Definition Resize (r : BitMemoryRegion) (bit_size : Z) : BitMemoryRegion :=
  Region (data_ r) (bit_start_ r) bit_size.

Definition Subregion (r : BitMemoryRegion) (bit_offset bit_length : Z) : BitMemoryRegion :=
  Region (data_ r) (u64 (bit_start_ r + bit_offset)) bit_length.

Definition Subregion1 (r : BitMemoryRegion) (bit_offset : Z) : BitMemoryRegion :=
  Region (data_ r) (u64 (bit_start_ r + bit_offset)) (u64 (bit_size_ r - bit_offset)).

Definition LoadBit (m : memory) (r : BitMemoryRegion) (bit_offset : Z) : bool :=
  let index := u64 (bit_start_ r + bit_offset) / kBitsPerByte in
  let shift := u64 (bit_start_ r + bit_offset) mod kBitsPerByte in
  negb ((m (data_ r + index) ≫ shift) .& 1 =? 0).

Definition StoreBit (m : memory) (r : BitMemoryRegion) (bit_offset : Z) (value : bool) : memory :=
  let index := u64 (bit_start_ r + bit_offset) / kBitsPerByte in
  let shift := u64 (bit_start_ r + bit_offset) mod kBitsPerByte in
  let a := data_ r + index in
  let m := set_byte m a (uN 8 (m a .& .~ (1 ≪ shift))) in
  set_byte m a (uN 8 (m a .| ((if value then 1 else 0) ≪ shift))).

(** [w] is the number of bits of the [Result] type. *)
Definition LoadBits (w : Z) (m : memory) (r : BitMemoryRegion) (bit_offset bit_length : Z) : Z :=
  if bit_length =? 0 then 0
  else
    let index := u64 (bit_start_ r + bit_offset) / w in
    let shift := u64 (bit_start_ r + bit_offset) mod w in
    let data i := load w m (data_ r + i * (w / 8)) in
    let value := data index ≫ shift in
    let extra := data (index + (shift + (bit_length - 1)) / w) in
    let clear := uN w (uN w ((2 ^ w - 1) ≪ 1) ≪ (bit_length - 1)) in
    (value .| uN w (extra ≪ ((w - shift) .& (w - 1)))) .& uN w (.~ clear).

Fixpoint store_loop (fuel : nat) (m : memory) (a value mask i finished_bits bit_length : Z) :
    memory :=
  match fuel with
  | O => m
  | S fuel =>
      if finished_bits <? bit_length then
        let m := set_byte m (a + i) (uN 8 (m (a + i) .& .~ (mask ≫ finished_bits))) in
        let m := set_byte m (a + i) (uN 8 (m (a + i) .| (value ≫ finished_bits))) in
        store_loop fuel m a value mask (i + 1) (finished_bits + kBitsPerByte) bit_length
      else m
  end.

(** At most eight bytes follow the first one. *)
Definition StoreBits (m : memory) (r : BitMemoryRegion) (bit_offset value bit_length : Z) : memory :=
  if bit_length =? 0 then m
  else
    let mask := (2 ^ 64 - 1) ≫ (64 - bit_length) in
    let index := u64 (bit_start_ r + bit_offset) / kBitsPerByte in
    let shift := u64 (bit_start_ r + bit_offset) mod kBitsPerByte in
    let a := data_ r + index in
    let m := set_byte m a (uN 8 (m a .& .~ u64 (mask ≪ shift))) in
    let m := set_byte m a (uN 8 (m a .| u64 (value ≪ shift))) in
    store_loop 8 m a value mask 1 (kBitsPerByte - shift) bit_length.

Definition StoreChunk (m : memory) (r : BitMemoryRegion) (bit_offset value bit_length : Z) : memory :=
  if bit_length =? 64 then
    store 64 m (data_ r + u64 (bit_start_ r + bit_offset) / kBitsPerByte) value
  else StoreBits m r bit_offset value bit_length.

(** A visitor gets the offset, the number of bits and the value of a chunk; it may change the
    memory and a state of its own, and says whether to go on. *)
Definition visitor (A : Type) := Z -> Z -> Z -> memory -> A -> bool * memory * A.

Section visit.
Context {A : Type} (vis : visitor A).

Definition visit_tail (data offset remaining_bits : Z) (m : memory) (s : A) : bool * memory * A :=
  if remaining_bits =? 0 then (true, m, s)
  else
    let value := load 64 m data .& u64 (.~ u64 ((2 ^ 64 - 1) ≪ remaining_bits)) in
    vis offset remaining_bits value m s.

Fixpoint visit_words (fuel : nat) (data offset remaining_bits : Z) (m : memory) (s : A) :
    bool * memory * A :=
  match fuel with
  | S fuel =>
      if 64 <=? remaining_bits then
        let '(ok, m, s) := vis offset 64 (load 64 m data) m s in
        if ok : bool then visit_words fuel (data + 8) (offset + 64) (remaining_bits - 64) m s
        else (false, m, s)
      else visit_tail data offset remaining_bits m s
  | O => visit_tail data offset remaining_bits m s
  end.

Definition VisitChunks (r : BitMemoryRegion) (m : memory) (s : A) : bool * memory * A :=
  let remaining_bits := bit_size_ r in
  if remaining_bits =? 0 then (true, m, s)
  else
    let fuel := Z.to_nat (bit_size_ r / 64) in
    let data := data_ r + 8 * (bit_start_ r / 64) in
    let sh := bit_start_ r mod 64 in
    if negb (sh =? 0) then
      let leading_bits := 64 - sh in
      let value := load 64 m data ≫ sh in
      let '(leading_bits, value) :=
        if remaining_bits <? leading_bits then
          (remaining_bits, value .& u64 (.~ u64 ((2 ^ 64 - 1) ≪ remaining_bits)))
        else (leading_bits, value) in
      let '(ok, m, s) := vis 0 leading_bits value m s in
      if ok : bool then
        visit_words fuel (data + 8) leading_bits (remaining_bits - leading_bits) m s
      else (false, m, s)
    else visit_words fuel data 0 remaining_bits m s.
End visit.

(** The binary operations store a combination of a chunk and of the same bits of [src]. *)
Definition combine_bits (op : Z -> Z -> Z) (m : memory) (r src : BitMemoryRegion) : memory :=
  let '(_, m, _) :=
    VisitChunks (A := unit) (fun offset num_bits value m s =>
      (true, StoreChunk m r offset (op value (LoadBits 64 m src offset num_bits)) num_bits, s))
      r m tt in m.

Definition CopyBits : memory -> BitMemoryRegion -> BitMemoryRegion -> memory :=
  combine_bits (fun _ src => src).
Definition AndBits : memory -> BitMemoryRegion -> BitMemoryRegion -> memory := combine_bits Z.land.
Definition OrBits : memory -> BitMemoryRegion -> BitMemoryRegion -> memory := combine_bits Z.lor.
Definition XorBits : memory -> BitMemoryRegion -> BitMemoryRegion -> memory := combine_bits Z.lxor.

Definition PopCount (m : memory) (r : BitMemoryRegion) : Z :=
  let '(_, _, result) :=
    VisitChunks (fun _ _ value m result => (true, m, u64 (result + POPCOUNT value))) r m 0 in
  result.

Definition PopCountRange (m : memory) (r : BitMemoryRegion) (bit_offset bit_length : Z) : Z :=
  PopCount m (Subregion r bit_offset bit_length).

Definition HasAllBitsClear (m : memory) (r : BitMemoryRegion) : bool :=
  let '(all, _, _) := VisitChunks (fun _ _ value m s => (value =? 0, m, s)) r m tt in all.

Definition HasSomeBitSet (m : memory) (r : BitMemoryRegion) : bool := negb (HasAllBitsClear m r).

Definition HasSomeBitSetRange (m : memory) (r : BitMemoryRegion) (bit_offset bit_length : Z) : bool :=
  HasSomeBitSet m (Subregion r bit_offset bit_length).

Definition Compare (m : memory) (lhs rhs : BitMemoryRegion) : Z :=
  if negb (size_in_bits lhs =? size_in_bits rhs) then
    if size_in_bits lhs <? size_in_bits rhs then -1 else 1
  else
    let '(_, _, result) :=
      VisitChunks (fun offset num_bits lhs_value m result =>
        let rhs_value := LoadBits 64 m rhs offset num_bits in
        if lhs_value =? rhs_value then (true, m, result)
        else
          let bit := CTZ (lhs_value .^ rhs_value) in
          (false, m, if negb ((rhs_value ≫ bit) .& 1 =? 0) then 1 else -1)) lhs m 0 in
    result.

Definition Equals (m : memory) (lhs rhs : BitMemoryRegion) : bool :=
  if negb (size_in_bits lhs =? size_in_bits rhs) then false
  else
    let '(all, _, _) :=
      VisitChunks (fun offset num_bits lhs_value m s =>
        (lhs_value =? LoadBits 64 m rhs offset num_bits, m, s)) lhs m tt in
    all.

(** ** Reading *)

Definition kVarintBits : Z := 4.
Definition kVarintMax : Z := 11.

Record BitMemoryReader := Reader { finished_region_ : BitMemoryRegion }.

Definition MakeReader (data : BitMemoryRegion) : BitMemoryReader := Reader (Subregion data 0 0).

Definition MakeReaderAt (data bit_offset : Z) : BitMemoryReader :=
  Reader (MakeRegion data bit_offset 0).

Definition GetReadRegion (rd : BitMemoryReader) : BitMemoryRegion := finished_region_ rd.

Definition NumberOfReadBits (rd : BitMemoryReader) : Z := size_in_bits (finished_region_ rd).

Definition ReadRegion (rd : BitMemoryReader) (bit_length : Z) : BitMemoryRegion * BitMemoryReader :=
  let bit_offset := size_in_bits (finished_region_ rd) in
  let fr := Resize (finished_region_ rd) (u64 (bit_offset + bit_length)) in
  (Subregion fr bit_offset bit_length, Reader fr).

Definition ReadBits (w : Z) (m : memory) (rd : BitMemoryReader) (bit_length : Z) :
    Z * BitMemoryReader :=
  let '(r, rd) := ReadRegion rd bit_length in (LoadBits w m r 0 bit_length, rd).

Definition ReadBit (m : memory) (rd : BitMemoryReader) : bool * BitMemoryReader :=
  let '(r, rd) := ReadRegion rd 1 in (LoadBit m r 0, rd).

Definition ReadVarint (m : memory) (rd : BitMemoryReader) : Z * BitMemoryReader :=
  let '(x, rd) := ReadBits 64 m rd kVarintBits in
  let x := u32 x in
  if x <=? kVarintMax then (x, rd)
  else
    let '(v, rd) := ReadBits 64 m rd ((x - kVarintMax) * kBitsPerByte) in (u32 v, rd).

(** The second loop replaces the large values by the ones that follow. *)
Fixpoint read_large (m : memory) (rd : BitMemoryReader) (values : list Z) :
    list Z * BitMemoryReader :=
  match values with
  | [] => ([], rd)
  | x :: values =>
      let '(x, rd) :=
        if kVarintMax <? x then
          let '(v, rd) := ReadBits 64 m rd ((x - kVarintMax) * kBitsPerByte) in (u32 v, rd)
        else (x, rd) in
      let '(values, rd) := read_large m rd values in (x :: values, rd)
  end.

Definition ReadInterleavedVarints (N : nat) (m : memory) (rd : BitMemoryReader) :
    list Z * BitMemoryReader :=
  let '(data, rd) := ReadBits 64 m rd (Z.of_nat N * kVarintBits) in
  let values :=
    map (fun i => u32 (BitFieldExtractU 64 data (i * kVarintBits) kVarintBits))
      (seqZ 0 (Z.of_nat N)) in
  read_large m rd values.

(** ** Writing *)

(** The vector [*out_] is the [w_size] bytes of memory at [w_data]. *)
Record BitMemoryWriter := Writer {
  w_mem : memory; w_data : Z; w_size : Z; w_bit_start : Z; w_bit_offset : Z }.

Definition MakeWriter (m : memory) (data size bit_offset : Z) : BitMemoryWriter :=
  Writer m data size bit_offset bit_offset.

(** [std::vector::resize]: the bytes that are added are zero. *)
Definition resize (wr : BitMemoryWriter) (size : Z) : BitMemoryWriter :=
  Writer (fun a => if (w_data wr + w_size wr <=? a) && (a <? w_data wr + size) then 0 else w_mem wr a)
    (w_data wr) size (w_bit_start wr) (w_bit_offset wr).

Definition with_mem (wr : BitMemoryWriter) (m : memory) : BitMemoryWriter :=
  Writer m (w_data wr) (w_size wr) (w_bit_start wr) (w_bit_offset wr).

Definition with_bit_offset (wr : BitMemoryWriter) (bit_offset : Z) : BitMemoryWriter :=
  Writer (w_mem wr) (w_data wr) (w_size wr) (w_bit_start wr) bit_offset.

Definition Truncate (wr : BitMemoryWriter) (bit_offset : Z) : BitMemoryWriter :=
  resize (with_bit_offset wr bit_offset) (BitsToBytesRoundUp bit_offset).

Definition GetWrittenRegion (wr : BitMemoryWriter) : BitMemoryRegion :=
  MakeRegion (w_data wr) (w_bit_start wr) (u64 (w_bit_offset wr - w_bit_start wr)).

Definition NumberOfWrittenBits (wr : BitMemoryWriter) : Z := u64 (w_bit_offset wr - w_bit_start wr).

Definition Allocate (wr : BitMemoryWriter) (bit_length : Z) : BitMemoryRegion * BitMemoryWriter :=
  let wr := resize wr (BitsToBytesRoundUp (u64 (w_bit_offset wr + bit_length))) in
  let region := MakeRegion (w_data wr) (w_bit_offset wr) bit_length in
  (region, with_bit_offset wr (u64 (w_bit_offset wr + bit_length))).

Definition WriteRegion (wr : BitMemoryWriter) (region : BitMemoryRegion) : BitMemoryWriter :=
  let '(r, wr) := Allocate wr (size_in_bits region) in
  with_mem wr (CopyBits (w_mem wr) r region).

Definition WriteBits (wr : BitMemoryWriter) (value bit_length : Z) : BitMemoryWriter :=
  let '(r, wr) := Allocate wr bit_length in
  with_mem wr (StoreBits (w_mem wr) r 0 value bit_length).

Definition WriteBit (wr : BitMemoryWriter) (value : bool) : BitMemoryWriter :=
  let '(r, wr) := Allocate wr 1 in
  with_mem wr (StoreBit (w_mem wr) r 0 value).

Definition write_small (wr : BitMemoryWriter) (value : Z) : BitMemoryWriter :=
  if kVarintMax <? value then
    WriteBits wr (u32 (kVarintMax + BitsToBytesRoundUp (MinimumBitsToStore 32 value))) kVarintBits
  else WriteBits wr value kVarintBits.

Definition write_large (wr : BitMemoryWriter) (value : Z) : BitMemoryWriter :=
  if kVarintMax <? value then
    WriteBits wr value (BitsToBytesRoundUp (MinimumBitsToStore 32 value) * kBitsPerByte)
  else wr.

Definition WriteInterleavedVarints (wr : BitMemoryWriter) (values : list Z) : BitMemoryWriter :=
  let wr := foldl write_small wr values in
  foldl write_large wr values.

Definition WriteVarint (wr : BitMemoryWriter) (value : Z) : BitMemoryWriter :=
  WriteInterleavedVarints wr [value].

(** Appends [length] bytes read from [bytes] at the end of the vector. *)
Definition WriteBytesAligned (wr : BitMemoryWriter) (bytes : Z) (length : Z) : BitMemoryWriter :=
  let dst := w_data wr + w_size wr in
  Writer (fun a => if (dst <=? a) && (a <? dst + length) then w_mem wr (bytes + (a - dst)) else w_mem wr a)
    (w_data wr) (w_size wr + length) (w_bit_start wr)
    (u64 (w_bit_offset wr + length * kBitsPerByte)).

Definition ByteAlign (wr : BitMemoryWriter) : BitMemoryWriter :=
  with_bit_offset wr (RoundUp 64 (w_bit_offset wr) kBitsPerByte).

(** ** Lemmas *)

(** The bits a region names, and the regions whose bit positions do not overflow. *)
Definition abs_start (r : BitMemoryRegion) : Z := 8 * data_ r + bit_start_ r.

Definition rbit (m : memory) (r : BitMemoryRegion) (i : Z) : bool := mbit m (abs_start r + i).

Record wf_region (r : BitMemoryRegion) : Prop := {
  wf_start : 0 <= bit_start_ r;
  wf_size : 0 <= bit_size_ r;
  wf_end : bit_start_ r + bit_size_ r < 2 ^ 64 }.

Lemma land_width w x : width_ok w -> x .& (w - 1) = x mod w.
Proof. intros [->|[->|[->| ->]]];
  [apply (Z.land_ones x 3)|apply (Z.land_ones x 4)|apply (Z.land_ones x 5)|apply (Z.land_ones x 6)];
  lia. Qed.

Lemma width_ok_pos w : width_ok w -> 0 < w /\ w mod 8 = 0 /\ 8 * (w / 8) = w.
Proof. intros [->|[->|[->| ->]]]; by vm_compute. Qed.

Lemma start_small r off :
  wf_region r -> 0 <= off <= bit_size_ r -> u64 (bit_start_ r + off) = bit_start_ r + off.
Proof. intros [] ?. apply uN_small. unfold is_u. lia. Qed.

(** [~clear] keeps the low [len] bits. *)
Lemma clear_mask_testbit w len i :
  0 < len <= w -> 0 <= i ->
  Z.testbit (uN w (.~ uN w (uN w ((2 ^ w - 1) ≪ 1) ≪ (len - 1)))) i = (i <? len).
Proof.
  intros Hl Hi. replace (2 ^ w - 1) with (Z.ones w) by (rewrite Z.ones_equiv; lia).
  autorewrite with art_bits. repeat case_ltb; autorewrite with art_bits; repeat case_ltb; cbn; (done || lia).
Qed.

Lemma low_mask_testbit n i :
  0 <= n <= 64 -> 0 <= i ->
  Z.testbit (u64 (.~ u64 ((2 ^ 64 - 1) ≪ n))) i = (i <? n).
Proof.
  intros Hl Hi. replace (2 ^ 64 - 1) with (Z.ones 64) by (rewrite Z.ones_equiv; lia).
  autorewrite with art_bits. repeat case_ltb; autorewrite with art_bits; repeat case_ltb; cbn; (done || lia).
Qed.

Lemma LoadBits_testbit w m r off len i :
  width_ok w -> bytes_ok m -> wf_region r -> 0 <= off -> 0 <= len <= w ->
  off + len <= bit_size_ r -> 0 <= i ->
  Z.testbit (LoadBits w m r off len) i = (i <? len) && rbit m r (off + i).
Proof.
  intros Hw Hm Hr Hoff Hlen Hsz Hi. destruct (width_ok_pos w Hw) as (Hw0 & Hw8 & Hww).
  unfold LoadBits. destruct (Z.eqb_spec len 0) as [->|Hl].
  { rewrite Z.testbit_0_l. by destruct (Z.ltb_spec i 0); [lia|]. }
  rewrite start_small by (done || lia). set (s := bit_start_ r + off).
  assert (0 <= s) by (destruct Hr; lia).
  pose proof (Z.div_mod s w ltac:(lia)) as Es. pose proof (Z.mod_pos_bound s w Hw0) as Hs.
  set (q := s / w) in *. set (sh := s mod w) in *.
  rewrite Z.land_spec, clear_mask_testbit by lia. rewrite andb_comm.
  destruct (Z.ltb_spec i len); [cbn [andb]|done].
  rewrite Z.lor_spec, Z.shiftr_spec, uN_testbit by lia.
  rewrite land_width by done.
  destruct (Z.ltb_spec i w); [cbn [andb]|lia].
  assert (forall k j, 8 * (data_ r + k * (w / 8)) + j = 8 * data_ r + k * w + j) as Ea by (intros; lia).
  unfold rbit, abs_start.
  rewrite shiftl_testbit by (apply Z.mod_pos_bound; lia).
  rewrite load_testbit by (done || lia). rewrite Ea.
  destruct (decide (sh = 0)) as [E0|E0].
  - rewrite E0 in *. rewrite Z.sub_0_r, Z_mod_same_full, Z.sub_0_r.
    rewrite (Z.div_small (0 + (len - 1)) w), Z.add_0_r by lia.
    rewrite load_testbit, Ea by (done || lia).
    destruct (Z.ltb_spec (i + 0) w); [|lia]. destruct (Z.ltb_spec i w); [|lia]. cbn [andb].
    rewrite <- orb_diag. f_equal; f_equal; lia.
  - rewrite Z.mod_small by lia. destruct (Z.ltb_spec (i + sh) w).
    + rewrite (Z.testbit_neg_r _ (i - (w - sh))), orb_false_r by lia. cbn [andb]. f_equal. lia.
    + cbn [andb orb]. replace ((sh + (len - 1)) / w) with 1
        by (apply (Z.div_unique _ _ _ (sh + len - 1 - w)); lia).
      rewrite load_testbit, Ea by (done || lia).
      destruct (Z.ltb_spec (i - (w - sh)) w); [|lia]. cbn [andb]. f_equal. lia.
Qed.

Lemma LoadBits_is_u w m r off len :
  width_ok w -> bytes_ok m -> wf_region r -> 0 <= off -> 0 <= len <= w ->
  off + len <= bit_size_ r -> is_u len (LoadBits w m r off len).
Proof.
  intros Hw Hm Hr Hoff Hlen Hsz. apply is_u_bits; [lia| |].
  - unfold LoadBits. case_ltb; [lia|]. apply Z.land_nonneg. right. apply Z.mod_pos_bound.
    destruct (width_ok_pos w Hw). apply pow2_pos. lia.
  - intros i Hi. rewrite LoadBits_testbit by (done || lia). by destruct (Z.ltb_spec i len); [lia|].
Qed.

Lemma LoadBit_rbit m r off :
  wf_region r -> 0 <= off < bit_size_ r -> LoadBit m r off = rbit m r off.
Proof.
  intros Hr Hoff. unfold LoadBit, kBitsPerByte. rewrite start_small by (done || lia).
  unfold rbit, abs_start, mbit. set (s := bit_start_ r + off).
  replace (8 * data_ r + bit_start_ r + off) with (s + data_ r * 8) by lia.
  rewrite Z.div_add, Z_mod_plus_full, (Z.add_comm (s / 8)) by lia.
  pose proof (Z.mod_pos_bound s 8 ltac:(lia)).
  set (x := m _). change 1 with (Z.ones 1). rewrite Z.land_ones by lia.
  replace (Z.testbit x (s mod 8)) with (Z.testbit (x ≫ (s mod 8)) 0)
    by (rewrite Z.shiftr_spec by lia; f_equal; lia).
  rewrite Z.bit0_odd. change (2 ^ 1) with 2. rewrite Zmod_odd. by destruct (Z.odd _).
Qed.

(** ** Stores *)

(** One clear-then-set update of a byte. *)
Definition update_byte (m : memory) (a c v : Z) : memory :=
  let m := set_byte m a (uN 8 (m a .& .~ c)) in set_byte m a (uN 8 (m a .| v)).

Lemma update_byte_mbit m a c v j :
  mbit (update_byte m a c v) j =
    if j / 8 =? a then (mbit m j && negb (Z.testbit c (j mod 8))) || Z.testbit v (j mod 8)
    else mbit m j.
Proof.
  unfold update_byte. cbv zeta. rewrite !mbit_set_byte. pose proof (Z.mod_pos_bound j 8 ltac:(lia)).
  destruct (Z.eqb_spec (j / 8) a) as [<-|]; [|done].
  unfold set_byte at 1. rewrite Z.eqb_refl. unfold mbit.
  autorewrite with art_bits. by destruct (Z.ltb_spec (j mod 8) 8); [|lia].
Qed.

Lemma update_byte_ok m a c v : bytes_ok m -> bytes_ok (update_byte m a c v).
Proof.
  intros Hm. unfold update_byte. apply bytes_ok_set_byte; [|apply uN_is_u; lia].
  apply bytes_ok_set_byte; [done|apply uN_is_u; lia].
Qed.

Lemma store_loop_spec fuel m a value mask i f len s :
  (forall j, 0 <= j -> Z.testbit mask j = (j <? len)) -> is_u len value -> 0 <= f ->
  8 * (a + i) = s + f -> len <= f + 8 * Z.of_nat fuel -> bytes_ok m ->
  bytes_ok (store_loop fuel m a value mask i f len) /\
  forall j, mbit (store_loop fuel m a value mask i f len) j =
    if (s + f <=? j) && (j <? s + len) then Z.testbit value (j - s) else mbit m j.
Proof.
  intros Hmask Hv. revert m i f. induction fuel as [|fuel IH]; intros m i f Hf Ha Hl Hm; cbn [store_loop].
  - split; [done|]. intros j. repeat case_ltb; cbn [andb]; (done || lia).
  - destruct (Z.ltb_spec f len) as [Hlt|Hge].
    2:{ split; [done|]. intros j. repeat case_ltb; cbn [andb]; (done || lia). }
    fold (update_byte m (a + i) (mask ≫ f) (value ≫ f)).
    destruct (IH (update_byte m (a + i) (mask ≫ f) (value ≫ f)) (i + 1) (f + kBitsPerByte))
      as [Hok Hbits]; [unfold kBitsPerByte; lia..|by apply update_byte_ok|].
    split; [done|]. intros j. rewrite Hbits, update_byte_mbit. unfold kBitsPerByte.
    pose proof (Z.div_mod j 8 ltac:(lia)). pose proof (Z.mod_pos_bound j 8 ltac:(lia)).
    destruct (Z.eqb_spec (j / 8) (a + i)) as [E|E].
    + assert (j mod 8 = j - s - f) as -> by lia.
      rewrite !Z.shiftr_spec by lia. replace (j - s - f + f) with (j - s) by lia.
      rewrite Hmask by lia.
      destruct (Z.leb_spec (s + (f + 8)) j); [lia|]. destruct (Z.leb_spec (s + f) j); [|lia].
      cbn [andb]. destruct (Z.ltb_spec (j - s) len), (Z.ltb_spec j (s + len)); try lia; cbn [negb].
      * by rewrite andb_false_r.
      * rewrite (testbit_high len value) by (done || lia). by rewrite andb_true_r, orb_false_r.
    + repeat case_ltb; cbn [andb]; (done || lia).
Qed.

Lemma StoreBits_spec m r off value len :
  wf_region r -> bytes_ok m -> 0 <= off -> 0 <= len <= 64 -> off + len <= bit_size_ r ->
  is_u len value ->
  bytes_ok (StoreBits m r off value len) /\
  forall j, mbit (StoreBits m r off value len) j =
    let s := abs_start r + off in
    if (s <=? j) && (j <? s + len) then Z.testbit value (j - s) else mbit m j.
Proof.
  intros Hr Hm Hoff Hlen Hsz Hv. unfold StoreBits. destruct (Z.eqb_spec len 0) as [->|Hne].
  { split; [done|]. intros j. cbv zeta. repeat case_ltb; cbn [andb]; (done || lia). }
  rewrite start_small by (done || lia). unfold kBitsPerByte, abs_start. cbv zeta.
  set (s := bit_start_ r + off). set (sh := s mod 8). set (a := data_ r + s / 8).
  pose proof (Z.div_mod s 8 ltac:(lia)). pose proof (Z.mod_pos_bound s 8 ltac:(lia)).
  set (mask := (2 ^ 64 - 1) ≫ (64 - len)).
  assert (forall j, 0 <= j -> Z.testbit mask j = (j <? len)) as Hmask.
  { intros j Hj. subst mask. replace (2 ^ 64 - 1) with (Z.ones 64) by (rewrite Z.ones_equiv; lia).
    autorewrite with art_bits. repeat case_ltb; cbn; (done || lia). }
  fold (update_byte m a (u64 (mask ≪ sh)) (u64 (value ≪ sh))).
  destruct (store_loop_spec 8 (update_byte m a (u64 (mask ≪ sh)) (u64 (value ≪ sh)))
    a value mask 1 (8 - sh) len (8 * data_ r + s)) as [Hok Hbits]; try done; try lia.
  { by apply update_byte_ok. }
  split; [done|]. intros j. rewrite Hbits, update_byte_mbit.
  pose proof (Z.div_mod j 8 ltac:(lia)). pose proof (Z.mod_pos_bound j 8 ltac:(lia)).
  replace (8 * data_ r + bit_start_ r + off) with (8 * data_ r + s) by lia.
  destruct (Z.eqb_spec (j / 8) a) as [E|E].
  - assert (j mod 8 = j - (8 * data_ r + s) + sh) as -> by lia.
    rewrite !uN_testbit, !shiftl_testbit by lia.
    replace (j - (8 * data_ r + s) + sh - sh) with (j - (8 * data_ r + s)) by lia.
    destruct (Z.leb_spec (8 * data_ r + s + (8 - sh)) j); [lia|].
    destruct (Z.ltb_spec (j - (8 * data_ r + s) + sh) 64); [|lia]. cbn [andb].
    destruct (Z.leb_spec (8 * data_ r + s) j); cbn [andb].
    + rewrite Hmask by lia.
      destruct (Z.ltb_spec (j - (8 * data_ r + s)) len), (Z.ltb_spec j (8 * data_ r + s + len));
        try lia; cbn [negb].
      * by rewrite andb_false_r.
      * rewrite (testbit_high len value) by (done || lia). by rewrite andb_true_r, orb_false_r.
    + rewrite !Z.testbit_neg_r by lia. by rewrite andb_true_r, orb_false_r.
  - repeat case_ltb; cbn [andb]; (done || lia).
Qed.

Lemma StoreBit_spec m r off v :
  wf_region r -> bytes_ok m -> 0 <= off < bit_size_ r ->
  bytes_ok (StoreBit m r off v) /\
  forall j, mbit (StoreBit m r off v) j = if j =? abs_start r + off then v else mbit m j.
Proof.
  intros Hr Hm Hoff. unfold StoreBit. rewrite start_small by (done || lia).
  unfold kBitsPerByte, abs_start. cbv zeta. set (s := bit_start_ r + off).
  set (sh := s mod 8). set (a := data_ r + s / 8).
  pose proof (Z.div_mod s 8 ltac:(lia)). pose proof (Z.mod_pos_bound s 8 ltac:(lia)).
  fold (update_byte m a (1 ≪ sh) ((if v then 1 else 0) ≪ sh)).
  split; [by apply update_byte_ok|]. intros j. rewrite update_byte_mbit.
  pose proof (Z.div_mod j 8 ltac:(lia)). pose proof (Z.mod_pos_bound j 8 ltac:(lia)).
  rewrite !shiftl_testbit by lia. change 1 with (2 ^ 0).
  destruct (Z.eqb_spec (j / 8) a), (Z.eqb_spec j (8 * data_ r + bit_start_ r + off)); try lia.
  - replace (j mod 8 - sh) with 0 by lia. destruct v; simpl; by rewrite andb_false_r.
  - rewrite Z.pow2_bits_false by lia.
    assert (Z.testbit (if v then 2 ^ 0 else 0) (j mod 8 - sh) = false) as ->.
    { destruct v; [apply Z.pow2_bits_false; lia|apply Z.testbit_0_l]. }
    by rewrite andb_true_r, orb_false_r.
  - done.
Qed.

Lemma StoreChunk_spec m r off value len :
  wf_region r -> bytes_ok m -> 0 <= off -> 0 <= len <= 64 -> off + len <= bit_size_ r ->
  is_u len value -> (len = 64 -> (bit_start_ r + off) mod 64 = 0) ->
  bytes_ok (StoreChunk m r off value len) /\
  forall j, mbit (StoreChunk m r off value len) j =
    let s := abs_start r + off in
    if (s <=? j) && (j <? s + len) then Z.testbit value (j - s) else mbit m j.
Proof.
  intros Hr Hm Hoff Hlen Hsz Hv Hal. unfold StoreChunk.
  destruct (Z.eqb_spec len 64) as [->|]; [|by apply StoreBits_spec].
  rewrite start_small by (done || lia). split; [by apply bytes_ok_store|]. intros j.
  rewrite store_mbit by done. unfold kBitsPerByte, abs_start.
  specialize (Hal eq_refl). cbv zeta.
  replace (8 * (data_ r + (bit_start_ r + off) / 8)) with (8 * data_ r + bit_start_ r + off); [done|].
  Z.div_mod_to_equations. lia.
Qed.

(** ** Visiting chunks *)

Definition chunk_value (m : memory) (r : BitMemoryRegion) (off n v : Z) : Prop :=
  forall i, 0 <= i -> Z.testbit v i = (i <? n) && rbit m r (off + i).

Lemma chunk_value_is_u m r off n v : 0 <= n -> 0 <= v -> chunk_value m r off n v -> is_u n v.
Proof.
  intros Hn Hv H. apply is_u_bits; [done|done|]. intros i Hi. rewrite H by lia.
  by destruct (Z.ltb_spec i n); [lia|].
Qed.

Section visit_rule.
Context {A : Type} (vis : visitor A) (r : BitMemoryRegion).
(** [P off] holds when the chunks before [off] are visited; [Q] after the visitor stopped. *)
Context (P : Z -> memory -> A -> Prop) (Q : memory -> A -> Prop).
Hypothesis Hr : wf_region r.
Hypothesis HP : forall off m s, P off m s -> bytes_ok m.
Hypothesis Hstep : forall off n v m s,
  P off m s -> 0 <= off -> 0 < n <= 64 -> off + n <= bit_size_ r ->
  (n = 64 -> (bit_start_ r + off) mod 64 = 0) -> is_u n v -> chunk_value m r off n v ->
  let '(ok, m', s') := vis off n v m s in if ok : bool then P (off + n) m' s' else Q m' s'.

Definition visited (res : bool * memory * A) : Prop :=
  let '(ok, m, s) := res in if ok : bool then P (bit_size_ r) m s else Q m s.

Lemma load_testbit_at m data off i :
  bytes_ok m -> 8 * data = abs_start r + off -> 0 <= i ->
  Z.testbit (load 64 m data) i = (i <? 64) && rbit m r (off + i).
Proof.
  intros Hm E Hi. rewrite load_testbit by done. unfold rbit. do 2 f_equal. lia.
Qed.

Lemma visit_tail_rule data off m s :
  P off m s -> 0 <= off -> 8 * data = abs_start r + off \/ off = bit_size_ r ->
  0 <= bit_size_ r - off < 64 ->
  visited (visit_tail vis data off (bit_size_ r - off) m s).
Proof using Hr HP Hstep.
  intros Hp Hoff E Hrem. unfold visit_tail. destruct (Z.eqb_spec (bit_size_ r - off) 0) as [|Hne].
  { simpl. by replace (bit_size_ r) with off by lia. }
  destruct E as [E|]; [|lia]. set (n := bit_size_ r - off) in *. set (v := _ .& _).
  assert (chunk_value m r off n v) as Hc.
  { intros i Hi. subst v. rewrite Z.land_spec, low_mask_testbit by lia.
    rewrite (load_testbit_at m data off) by (eauto || lia).
    repeat case_ltb; cbn; try lia; by rewrite ?andb_true_r, ?andb_false_r. }
  assert (is_u n v).
  { apply (chunk_value_is_u m r off); [lia| |done]. apply Z.land_nonneg. right.
    apply Z.mod_pos_bound. lia. }
  pose proof (Hstep off n v m s Hp Hoff ltac:(lia) ltac:(lia) ltac:(lia) H Hc) as Hs.
  unfold visited. destruct (vis off n v m s) as [[ok m'] s'].
  by replace (bit_size_ r) with (off + n) by lia.
Qed.

Lemma visit_words_rule fuel data off m s :
  P off m s -> 0 <= off <= bit_size_ r ->
  (8 * data = abs_start r + off /\ (bit_start_ r + off) mod 64 = 0) \/ off = bit_size_ r ->
  bit_size_ r - off < 64 * Z.of_nat (S fuel) ->
  visited (visit_words vis fuel data off (bit_size_ r - off) m s).
Proof using Hr HP Hstep.
  revert data off m s. induction fuel as [|fuel IH]; intros data off m s Hp Hoff Hal Hf;
    cbn [visit_words].
  { apply visit_tail_rule; (done || lia || tauto). }
  destruct (Z.leb_spec 64 (bit_size_ r - off)); [|apply visit_tail_rule; (done || lia || tauto)].
  destruct Hal as [[E Hal]|]; [|lia].
  assert (chunk_value m r off 64 (load 64 m data)) as Hc.
  { intros i Hi. apply load_testbit_at; (eauto || lia). }
  assert (is_u 64 (load 64 m data)) as Hu.
  { apply (chunk_value_is_u m r off); [lia| |done]. apply load_nonneg. eauto. }
  pose proof (Hstep off 64 _ m s Hp ltac:(lia) ltac:(lia) ltac:(lia) ltac:(done) Hu Hc) as Hs.
  destruct (vis off 64 (load 64 m data) m s) as [[[] m'] s']; [|done].
  replace (bit_size_ r - off - 64) with (bit_size_ r - (off + 64)) by lia.
  apply IH; try (done || lia). left. split; [lia|].
  replace (bit_start_ r + (off + 64)) with (bit_start_ r + off + 1 * 64) by lia.
  by rewrite Z_mod_plus_full.
Qed.

Lemma VisitChunks_rule m s : P 0 m s -> visited (VisitChunks vis r m s).
Proof using Hr HP Hstep.
  intros Hp. unfold VisitChunks. pose proof (wf_start r Hr). pose proof (wf_size r Hr).
  destruct (Z.eqb_spec (bit_size_ r) 0) as [E|E]; [simpl; by rewrite E|].
  set (sh := bit_start_ r mod 64). set (data := data_ r + 8 * (bit_start_ r / 64)).
  pose proof (Z.div_mod (bit_start_ r) 64 ltac:(lia)). pose proof (Z.mod_pos_bound (bit_start_ r) 64 ltac:(lia)).
  pose proof (Z.div_mod (bit_size_ r) 64 ltac:(lia)). pose proof (Z.mod_pos_bound (bit_size_ r) 64 ltac:(lia)).
  assert (0 <= bit_size_ r / 64) by (apply Z.div_pos; lia).
  destruct (Z.eqb_spec sh 0) as [E0|E0]; cbn [negb].
  { replace (visit_words vis _ data 0 (bit_size_ r) m s)
      with (visit_words vis (Z.to_nat (bit_size_ r / 64)) data 0 (bit_size_ r - 0) m s) by (f_equal; lia).
    apply visit_words_rule; [done|lia| |lia].
    left. rewrite !Z.add_0_r. split; [unfold abs_start; lia|done]. }
  assert (8 * data + sh = abs_start r) as Ed by (unfold abs_start; lia).
  assert (forall i, 0 <= i -> Z.testbit (load 64 m data ≫ sh) i = (i <? 64 - sh) && rbit m r (0 + i)) as Hld.
  { intros i Hi. rewrite Z.shiftr_spec, load_testbit by (done || eauto || lia). unfold rbit.
    replace (8 * data + (i + sh)) with (abs_start r + (0 + i)) by lia.
    repeat case_ltb; (done || lia). }
  set (n := Z.min (64 - sh) (bit_size_ r)).
  set (v := if bit_size_ r <? 64 - sh then (load 64 m data ≫ sh) .& u64 (.~ u64 ((2 ^ 64 - 1) ≪ bit_size_ r))
            else load 64 m data ≫ sh).
  assert ((if bit_size_ r <? 64 - sh then (bit_size_ r, (load 64 m data ≫ sh) .& u64 (.~ u64 ((2 ^ 64 - 1) ≪ bit_size_ r)))
            else (64 - sh, load 64 m data ≫ sh)) = (n, v)) as ->.
  { subst n v. case_ltb; f_equal; lia. }
  assert (chunk_value m r 0 n v) as Hc.
  { intros i Hi. subst n v. destruct (Z.ltb_spec (bit_size_ r) (64 - sh)).
    - rewrite Z.land_spec, low_mask_testbit, Hld by lia.
      rewrite Z.min_r by lia. repeat case_ltb; cbn; try lia; by rewrite ?andb_true_r, ?andb_false_r.
    - rewrite Hld by lia. by rewrite Z.min_l by lia. }
  assert (0 <= load 64 m data ≫ sh) by (apply Z.shiftr_nonneg, load_nonneg; eauto).
  assert (is_u n v).
  { apply (chunk_value_is_u m r 0); [lia| |done]. subst v. case_ltb; [|done].
    apply Z.land_nonneg. by left. }
  pose proof (Hstep 0 n v m s Hp ltac:(lia) ltac:(lia) ltac:(lia) ltac:(lia) ltac:(done) Hc) as Hs.
  destruct (vis 0 n v m s) as [[[] m'] s']; [|done].
  apply visit_words_rule; [done|lia| |lia].
  destruct (Z.min_spec (64 - sh) (bit_size_ r)) as [[? En]|[? En]]; [left|right; lia].
  fold n in En. rewrite En. split; [lia|]. replace (bit_start_ r + (64 - sh)) with ((bit_start_ r / 64 + 1) * 64) by lia.
  apply Z_mod_mult.
Qed.
End visit_rule.

(** ** Operations on whole regions *)

Definition disjoint (r src : BitMemoryRegion) : Prop :=
  abs_start r + bit_size_ r <= abs_start src \/ abs_start src + bit_size_ src <= abs_start r.

Lemma combine_bits_spec (op : Z -> Z -> Z) (bop : bool -> bool -> bool) m r src :
  (forall a b i, 0 <= i -> Z.testbit (op a b) i = bop (Z.testbit a i) (Z.testbit b i)) ->
  (forall a b, 0 <= a -> 0 <= b -> 0 <= op a b) -> bop false false = false ->
  wf_region r -> wf_region src -> bytes_ok m -> bit_size_ src = bit_size_ r -> disjoint r src ->
  bytes_ok (combine_bits op m r src) /\
  forall j, mbit (combine_bits op m r src) j =
    if (abs_start r <=? j) && (j <? abs_start r + bit_size_ r)
    then bop (mbit m j) (rbit m src (j - abs_start r)) else mbit m j.
Proof.
  intros Hop Hnn Hff Hr Hsrc Hm Hsz Hd. unfold combine_bits.
  set (vis := fun _ _ _ _ _ => _).
  set (P := fun off m' (_ : unit) => bytes_ok m' /\ forall j, mbit m' j =
    if (abs_start r <=? j) && (j <? abs_start r + off)
    then bop (mbit m j) (rbit m src (j - abs_start r)) else mbit m j).
  assert (visited r P (fun _ _ => False) (VisitChunks vis r m tt)) as H.
  2:{ destruct (VisitChunks vis r m tt) as [[[] m'] []]; [|done]. exact H. }
  apply VisitChunks_rule; [done|by intros ? ? ? []| |].
  - intros off n v m' s [Hok Hb] Hoff Hn Hon Hal Hvn Hc. simpl.
    assert (forall i, 0 <= i -> Z.testbit (LoadBits 64 m' src off n) i = (i <? n) && rbit m src (off + i)) as Hl.
    { intros i Hi. rewrite LoadBits_testbit by (done || lia || (unfold width_ok; lia)).
      destruct (Z.ltb_spec i n); [cbn [andb]|done]. unfold rbit. rewrite Hb.
      unfold disjoint in Hd. repeat case_ltb; cbn [andb]; (done || lia). }
    assert (0 <= LoadBits 64 m' src off n).
    { apply (LoadBits_is_u 64); (done || lia || (unfold width_ok; lia)). }
    set (x := op v (LoadBits 64 m' src off n)).
    assert (forall i, 0 <= i -> Z.testbit x i = bop ((i <? n) && rbit m' r (off + i)) ((i <? n) && rbit m src (off + i))) as Hx.
    { intros i Hi. subst x. by rewrite Hop, Hc, Hl by done. }
    assert (is_u n x) as Hux.
    { apply is_u_bits; [lia|apply Hnn; [unfold is_u in *; lia|done]|]. intros i Hi.
      rewrite Hx by lia. by destruct (Z.ltb_spec i n); [lia|]. }
    destruct (StoreChunk_spec m' r off x n) as [Hok' Hb']; try (done || lia).
    split; [done|]. intros j. rewrite Hb'. cbv zeta. rewrite Hb.
    destruct (Z.leb_spec (abs_start r + off) j), (Z.ltb_spec j (abs_start r + off + n)); cbn [andb];
      repeat case_ltb; cbn [andb]; try (done || lia).
    rewrite Hx by lia. destruct (Z.ltb_spec (j - (abs_start r + off)) n); [cbn [andb]|lia].
    unfold rbit. rewrite Hb. replace (abs_start r + (off + (j - (abs_start r + off)))) with j by lia.
    replace (off + (j - (abs_start r + off))) with (j - abs_start r) by lia.
    repeat case_ltb; cbn [andb]; (done || lia).
  - split; [done|]. intros j. repeat case_ltb; cbn [andb]; (done || lia).
Qed.

Lemma PopCount_spec m r :
  wf_region r -> bytes_ok m ->
  PopCount m r = count_bits (Z.to_nat (bit_size_ r)) (rbit m r).
Proof.
  intros Hr Hm. unfold PopCount. set (vis := fun _ _ _ _ _ => _).
  set (P := fun off m' c => m' = m /\ c = count_bits (Z.to_nat off) (rbit m r)).
  assert (visited r P (fun _ _ => False) (VisitChunks vis r m 0)) as H.
  2:{ destruct (VisitChunks vis r m 0) as [[[] m'] c]; [|done]. apply H. }
  apply VisitChunks_rule; [done|by intros ? ? ? [-> _]| |done].
  intros off n v m' s [-> ->] Hoff Hn Hon Hal Hvn Hc. simpl. split; [done|].
  rewrite (POPCOUNT_count (Z.to_nat n)) by (by rewrite Z2Nat.id by lia).
  rewrite Z2Nat.inj_add, count_bits_app, Z2Nat.id by lia.
  replace (count_bits (Z.to_nat n) (Z.testbit v))
    with (count_bits (Z.to_nat n) (fun i => rbit m r (off + i))).
  - apply uN_small. pose proof (count_bits_bound (Z.to_nat off) (rbit m r)).
    pose proof (count_bits_bound (Z.to_nat n) (fun i => rbit m r (off + i))).
    destruct Hr. unfold is_u. lia.
  - apply count_bits_ext. intros i Hi. rewrite Hc by lia. by destruct (Z.ltb_spec i n); [|lia].
Qed.

Lemma HasAllBitsClear_spec m r :
  wf_region r -> bytes_ok m ->
  HasAllBitsClear m r = true <-> forall i, 0 <= i < bit_size_ r -> rbit m r i = false.
Proof.
  intros Hr Hm. unfold HasAllBitsClear. set (vis := fun _ _ _ _ _ => _).
  set (P := fun off m' (_ : unit) => m' = m /\ forall i, 0 <= i < off -> rbit m r i = false).
  set (Q := fun (_ : memory) (_ : unit) => exists i, 0 <= i < bit_size_ r /\ rbit m r i = true).
  assert (visited r P Q (VisitChunks vis r m tt)) as H.
  2:{ destruct (VisitChunks vis r m tt) as [[[] m'] []].
      - split; [intros _; apply H|done].
      - split; [done|]. destruct H as (i & Hi & Hb). intros H'. by rewrite H' in Hb. }
  apply VisitChunks_rule; [done|by intros ? ? ? [-> _]| |].
  - intros off n v m' s [-> Hb] Hoff Hn Hon Hal Hvn Hc. simpl.
    destruct (Z.eqb_spec v 0) as [->|Hv].
    + split; [done|]. intros i Hi. destruct (decide (i < off)); [apply Hb; lia|].
      specialize (Hc (i - off) ltac:(lia)). rewrite Z.testbit_0_l in Hc.
      destruct (Z.ltb_spec (i - off) n); [|lia]. cbn [andb] in Hc.
      by replace (off + (i - off)) with i in Hc by lia.
    + destruct (CTZ_spec v) as (H0 & H1 & _); [unfold is_u in *; lia|].
      rewrite Hc in H1 by done. destruct (Z.ltb_spec (CTZ v) n); [|done].
      exists (off + CTZ v). split; [lia|done].
  - split; [done|]. intros. lia.
Qed.

(** The first position where two regions differ. *)
Definition first_difference (m : memory) (l r : BitMemoryRegion) (k : Z) : Prop :=
  0 <= k < bit_size_ l /\ (forall i, 0 <= i < k -> rbit m l i = rbit m r i) /\
  rbit m l k <> rbit m r k.

Lemma testbit_land1 x c : 0 <= c -> negb ((x ≫ c) .& 1 =? 0) = Z.testbit x c.
Proof.
  intros Hc. change 1 with (Z.ones 1). rewrite Z.land_ones by lia.
  replace (Z.testbit x c) with (Z.testbit (x ≫ c) 0) by (rewrite Z.shiftr_spec by lia; f_equal; lia).
  rewrite Z.bit0_odd. change (2 ^ 1) with 2. rewrite Zmod_odd. by destruct (Z.odd _).
Qed.

(** What one chunk tells about the comparison. *)
Lemma chunk_compare m l r off n v :
  wf_region r -> bytes_ok m -> bit_size_ l = bit_size_ r ->
  (forall i, 0 <= i < off -> rbit m l i = rbit m r i) ->
  0 <= off -> 0 < n <= 64 -> off + n <= bit_size_ l -> is_u n v -> chunk_value m l off n v ->
  let w := LoadBits 64 m r off n in
  if v =? w then forall i, 0 <= i < off + n -> rbit m l i = rbit m r i
  else first_difference m l r (off + CTZ (v .^ w)) /\
       negb ((w ≫ CTZ (v .^ w)) .& 1 =? 0) = rbit m r (off + CTZ (v .^ w)).
Proof.
  intros Hr Hm Hsz Hb Hoff Hn Hon Hvn Hc w.
  assert (forall i, 0 <= i -> Z.testbit w i = (i <? n) && rbit m r (off + i)) as Hw.
  { intros i Hi. subst w. apply LoadBits_testbit; (done || lia || (unfold width_ok; lia)). }
  assert (0 <= w) by (apply (LoadBits_is_u 64 m r off n); (done || lia || (unfold width_ok; lia))).
  assert (forall i, off <= i < off + n -> Z.testbit v (i - off) = rbit m l i /\ Z.testbit w (i - off) = rbit m r i) as Hvw.
  { intros i Hi. rewrite Hc, Hw by lia. destruct (Z.ltb_spec (i - off) n); [|lia].
    cbn [andb]. by replace (off + (i - off)) with i by lia. }
  destruct (Z.eqb_spec v w) as [E|Hne].
  - intros i Hi. destruct (decide (i < off)); [apply Hb; lia|].
    destruct (Hvw i ltac:(lia)) as [<- <-]. by rewrite E.
  - assert (0 < v .^ w) as Hx.
    { assert (0 <= v .^ w) by (apply Z.lxor_nonneg; unfold is_u in *; lia).
      destruct (decide (v .^ w = 0)) as [E|]; [|lia]. by apply Z.lxor_eq in E. }
    destruct (CTZ_spec _ Hx) as (H0 & H1 & H2). set (c := CTZ (v .^ w)) in *.
    assert (c < n) as Hcn.
    { rewrite Z.lxor_spec, Hc, Hw in H1 by done. by destruct (Z.ltb_spec c n). }
    destruct (Hvw (off + c) ltac:(lia)) as [E1 E2]. replace (off + c - off) with c in * by lia.
    rewrite testbit_land1 by done. split; [|done]. unfold first_difference. split; [lia|split].
    + intros i Hi. destruct (decide (i < off)); [apply Hb; lia|].
      destruct (Hvw i ltac:(lia)) as [<- <-]. apply xorb_eq. rewrite <- Z.lxor_spec. apply H2. lia.
    + rewrite <- E1, <- E2. intros E. by rewrite Z.lxor_spec, E, xorb_nilpotent in H1.
Qed.

Lemma Compare_spec m l r :
  wf_region l -> wf_region r -> bytes_ok m -> bit_size_ l = bit_size_ r ->
  (Compare m l r = 0 /\ forall i, 0 <= i < bit_size_ l -> rbit m l i = rbit m r i) \/
  (exists k, first_difference m l r k /\ Compare m l r = if rbit m r k then 1 else -1).
Proof.
  intros Hl Hr Hm Hsz. unfold Compare, size_in_bits.
  rewrite (proj2 (Z.eqb_eq _ _) Hsz). cbn [negb].
  set (vis := fun _ _ _ _ _ => _).
  set (P := fun off m' c => m' = m /\ c = 0 /\ forall i, 0 <= i < off -> rbit m l i = rbit m r i).
  set (Q := fun (_ : memory) c => exists k, first_difference m l r k /\ c = if rbit m r k then 1 else -1).
  assert (visited l P Q (VisitChunks vis l m 0)) as H.
  2:{ destruct (VisitChunks vis l m 0) as [[[] m'] c]; [left|right; done]. by destruct H as (_ & -> & ?). }
  apply VisitChunks_rule; [done|by intros ? ? ? [-> _]| |].
  - intros off n v m' s (-> & -> & Hb) Hoff Hn Hon Hal Hvn Hc. unfold vis. cbv zeta.
    pose proof (chunk_compare m l r off n v Hr Hm Hsz Hb Hoff Hn Hon Hvn Hc) as H. cbv zeta in H.
    destruct (v =? LoadBits 64 m r off n); [done|]. destruct H as [H1 H2].
    exists (off + CTZ (v .^ LoadBits 64 m r off n)). by rewrite <- H2.
  - split_and!; [done|done|]. intros. lia.
Qed.

Lemma Equals_spec m l r :
  wf_region l -> wf_region r -> bytes_ok m ->
  Equals m l r = true <->
    bit_size_ l = bit_size_ r /\ forall i, 0 <= i < bit_size_ l -> rbit m l i = rbit m r i.
Proof.
  intros Hl Hr Hm. unfold Equals, size_in_bits. destruct (Z.eqb_spec (bit_size_ l) (bit_size_ r)) as [Hsz|]; cbn [negb].
  2:{ split; [done|]. by intros []. }
  set (vis := fun _ _ _ _ _ => _).
  set (P := fun off m' (_ : unit) => m' = m /\ forall i, 0 <= i < off -> rbit m l i = rbit m r i).
  set (Q := fun (_ : memory) (_ : unit) => exists k, first_difference m l r k).
  assert (visited l P Q (VisitChunks vis l m tt)) as H.
  2:{ destruct (VisitChunks vis l m tt) as [[[] m'] []].
      - split; [intros _; split; [done|apply H]|done].
      - split; [done|]. destruct H as (k & ? & ? & Hk). intros [_ H']. by destruct (Hk (H' k ltac:(done))). }
  apply VisitChunks_rule; [done|by intros ? ? ? [-> _]| |].
  - intros off n v m' s [-> Hb] Hoff Hn Hon Hal Hvn Hc. unfold vis. cbv zeta.
    pose proof (chunk_compare m l r off n v Hr Hm Hsz Hb Hoff Hn Hon Hvn Hc) as H. cbv zeta in H.
    destruct (v =? LoadBits 64 m r off n); [done|]. destruct H as [H1 H2]. by eexists.
  - split; [done|]. intros. lia.
Qed.

(** ** Writers and readers *)

(** The bits [n] bits from position [a] of memory are those of [v]. *)
Definition bits_match (m : memory) (a n v : Z) : Prop :=
  forall i, 0 <= i < n -> mbit m (a + i) = Z.testbit v i.

Lemma MakeRegion_spec data start size :
  0 <= data -> 0 <= start -> 0 <= size -> 8 * data + start + size < 2 ^ 63 ->
  wf_region (MakeRegion data start size) /\
  abs_start (MakeRegion data start size) = 8 * data + start /\
  bit_size_ (MakeRegion data start size) = size.
Proof.
  intros Hd Hs Hz Hov. unfold MakeRegion, kBitsPerByteLog2, kPageSize, kBitsPerByte.
  rewrite Z.shiftr_div_pow2 by lia. change (2 ^ 3) with 8. change 4096 with (2 ^ 12).
  pose proof (Z.div_mod start 8 ltac:(lia)). pose proof (Z.mod_pos_bound start 8 ltac:(lia)).
  rewrite RoundDown_val by (unfold is_u; lia). set (x := data + start / 8) in *.
  pose proof (Z.mod_pos_bound x (2 ^ 12) ltac:(lia)).
  rewrite uN_small by (unfold is_u; lia). split; [|split; [|done]]; [split|]; unfold abs_start; simpl; lia.
Qed.

Lemma Subregion_spec r off len :
  wf_region r -> 0 <= off -> 0 <= len -> off + len <= bit_size_ r ->
  wf_region (Subregion r off len) /\ abs_start (Subregion r off len) = abs_start r + off.
Proof.
  intros Hr Ho Hl Hsz. unfold Subregion, abs_start. rewrite start_small by (done || lia).
  destruct Hr. split; [split; simpl; lia|simpl; lia].
Qed.

Record wf_writer (wr : BitMemoryWriter) : Prop := {
  ww_ok : bytes_ok (w_mem wr);
  ww_data : 0 <= w_data wr;
  ww_start : 0 <= w_bit_start wr <= w_bit_offset wr;
  ww_size : w_size wr = (w_bit_offset wr + 7) / 8 }.

Definition w_pos (wr : BitMemoryWriter) : Z := 8 * w_data wr + w_bit_offset wr.

(** [wr'] is [wr] after appending [n] bits: nothing changes outside of the vector's new part. *)
Record appended (wr wr' : BitMemoryWriter) (n : Z) : Prop := {
  ap_wf : wf_writer wr';
  ap_data : w_data wr' = w_data wr;
  ap_start : w_bit_start wr' = w_bit_start wr;
  ap_offset : w_bit_offset wr' = w_bit_offset wr + n;
  ap_frame : forall j, j < w_pos wr \/ 8 * (w_data wr' + w_size wr') <= j ->
    mbit (w_mem wr') j = mbit (w_mem wr) j }.

Lemma appended_trans wr1 wr2 wr3 n k :
  0 <= n -> 0 <= k -> appended wr1 wr2 n -> appended wr2 wr3 k -> appended wr1 wr3 (n + k).
Proof.
  intros Hn Hk [W1 D1 S1 O1 F1] [W2 D2 S2 O2 F2]. split; [done|lia|lia|lia|].
  intros j Hj. unfold w_pos in *. destruct W1 as [_ _ _ E1], W2 as [_ _ _ E2].
  assert (w_size wr2 <= w_size wr3) by (rewrite E1, E2; apply Z.div_le_mono; lia).
  rewrite F2, F1; (done || lia).
Qed.

Lemma Allocate_spec wr n r wr' :
  wf_writer wr -> 0 <= n -> w_pos wr + n < 2 ^ 62 -> Allocate wr n = (r, wr') ->
  appended wr wr' n /\ wf_region r /\ abs_start r = w_pos wr /\ bit_size_ r = n /\
  8 * (w_data wr' + w_size wr') >= w_pos wr + n.
Proof.
  intros [Hok Hd Hs Hsz] Hn Hov [= <- <-]. unfold w_pos in *.
  rewrite (uN_small 64) by (unfold is_u; lia). unfold resize, with_bit_offset.
  rewrite BitsToBytesRoundUp_val by lia.
  destruct (MakeRegion_spec (w_data wr) (w_bit_offset wr) n) as (W & A & B); [lia..|].
  pose proof (Z.div_mod (w_bit_offset wr + n + 7) 8 ltac:(lia)).
  pose proof (Z.mod_pos_bound (w_bit_offset wr + n + 7) 8 ltac:(lia)).
  pose proof (Z.div_mod (w_bit_offset wr + 7) 8 ltac:(lia)).
  pose proof (Z.mod_pos_bound (w_bit_offset wr + 7) 8 ltac:(lia)).
  split; [|split_and!; simpl; (done || lia)].
  split; simpl; [split; simpl; (done || lia || idtac)|done|done|done|].
  - intros a. destruct (_ && _); [unfold is_u; lia|apply Hok].
  - intros j Hj. unfold mbit. pose proof (Z.div_mod j 8 ltac:(lia)). pose proof (Z.mod_pos_bound j 8 ltac:(lia)).
    destruct (Z.leb_spec (w_data wr + w_size wr) (j / 8)); cbn [andb]; [|done].
    case_ltb; [|done]. unfold w_pos in Hj. lia.
Qed.

(** Storing through the allocated region. *)
Lemma appended_store wr wr' r n m' v :
  0 <= n -> appended wr wr' n -> abs_start r = w_pos wr ->
  8 * (w_data wr' + w_size wr') >= w_pos wr + n ->
  bytes_ok m' ->
  (forall j, mbit m' j = if (w_pos wr <=? j) && (j <? w_pos wr + n) then v (j - w_pos wr) else mbit (w_mem wr') j) ->
  appended wr (with_mem wr' m') n /\ forall i, 0 <= i < n -> mbit m' (w_pos wr + i) = v i.
Proof.
  intros Hn [[Hok Hd Hs Hsz] D S O F] A Hroom Hok' Hb. split.
  - split; simpl; [by split|done|done|done|]. intros j Hj. rewrite Hb.
    repeat case_ltb; cbn [andb]; try lia; by apply F.
  - intros i Hi. rewrite Hb. replace (w_pos wr + i - w_pos wr) with i by lia.
    repeat case_ltb; cbn [andb]; (done || lia).
Qed.

Lemma WriteBits_spec wr v n :
  wf_writer wr -> 0 <= n <= 64 -> w_pos wr + n < 2 ^ 62 -> is_u n v ->
  appended wr (WriteBits wr v n) n /\ bits_match (w_mem (WriteBits wr v n)) (w_pos wr) n v.
Proof.
  intros Hw Hn Hov Hv. unfold WriteBits. destruct (Allocate wr n) as [r wr'] eqn:E.
  destruct (Allocate_spec wr n r wr' Hw ltac:(lia) Hov E) as (Ha & Hr & A & B & Hroom).
  destruct (StoreBits_spec (w_mem wr') r 0 v n) as [Hok Hb]; [done|apply Ha|lia..|done|].
  rewrite A, Z.add_0_r in Hb. by apply (appended_store wr wr' r n _ (Z.testbit v)); try done; lia.
Qed.

Lemma WriteBit_spec wr v :
  wf_writer wr -> w_pos wr + 1 < 2 ^ 62 ->
  appended wr (WriteBit wr v) 1 /\ mbit (w_mem (WriteBit wr v)) (w_pos wr) = v.
Proof.
  intros Hw Hov. unfold WriteBit. destruct (Allocate wr 1) as [r wr'] eqn:E.
  destruct (Allocate_spec wr 1 r wr' Hw ltac:(lia) Hov E) as (Ha & Hr & A & B & Hroom).
  destruct (StoreBit_spec (w_mem wr') r 0 v) as [Hok Hb]; [done|apply Ha|lia|].
  rewrite A, Z.add_0_r in Hb.
  destruct (appended_store wr wr' r 1 (StoreBit (w_mem wr') r 0 v) (fun _ => v)) as [H1 H2]; try (done || lia).
  - intros j. rewrite Hb. repeat case_ltb; cbn [andb]; (done || lia).
  - split; [done|]. specialize (H2 0 ltac:(lia)). by rewrite Z.add_0_r in H2.
Qed.

(** The copied region must not be in the part of memory the vector grows into. *)
Lemma WriteRegion_spec wr src :
  wf_writer wr -> wf_region src -> w_pos wr + bit_size_ src < 2 ^ 62 ->
  abs_start src + bit_size_ src <= w_pos wr \/ w_pos wr + bit_size_ src + 8 <= abs_start src ->
  appended wr (WriteRegion wr src) (bit_size_ src) /\
  forall i, 0 <= i < bit_size_ src ->
    mbit (w_mem (WriteRegion wr src)) (w_pos wr + i) = rbit (w_mem wr) src i.
Proof.
  intros Hw Hs Hov Hd. unfold WriteRegion, size_in_bits.
  destruct (Allocate wr (bit_size_ src)) as [r wr'] eqn:E. pose proof (wf_size src Hs).
  destruct (Allocate_spec wr (bit_size_ src) r wr' Hw ltac:(lia) Hov E) as (Ha & Hr & A & B & Hroom).
  destruct (combine_bits_spec (fun _ s => s) (fun _ s => s) (w_mem wr') r src) as [Hok Hb];
    try (done || apply Ha || (unfold disjoint; lia)).
  apply (appended_store wr wr' r _ _ (rbit (w_mem wr) src)); try (done || lia).
  intros j. unfold CopyBits. rewrite Hb, A, B.
  destruct (Z.leb_spec (w_pos wr) j), (Z.ltb_spec j (w_pos wr + bit_size_ src)); cbn [andb]; try done.
  unfold rbit. apply Ha. destruct Ha as [[_ _ _ Esz] Da _ Oa _]. rewrite Esz, Oa, Da.
  pose proof (Z.div_mod (w_bit_offset wr + bit_size_ src + 7) 8 ltac:(lia)).
  pose proof (Z.mod_pos_bound (w_bit_offset wr + bit_size_ src + 7) 8 ltac:(lia)).
  unfold w_pos in *. lia.
Qed.

(** The position of a reader, and readers that have room for [n] more bits. *)
Definition r_pos (rd : BitMemoryReader) : Z :=
  abs_start (finished_region_ rd) + bit_size_ (finished_region_ rd).

Record wf_reader (rd : BitMemoryReader) (n : Z) : Prop := {
  wr_start : 0 <= bit_start_ (finished_region_ rd);
  wr_size : 0 <= bit_size_ (finished_region_ rd);
  wr_end : bit_start_ (finished_region_ rd) + bit_size_ (finished_region_ rd) + n < 2 ^ 64 }.

Lemma ReadRegion_spec rd n k :
  wf_reader rd (n + k) -> 0 <= n -> 0 <= k ->
  let '(r, rd') := ReadRegion rd n in
  wf_region r /\ abs_start r = r_pos rd /\ bit_size_ r = n /\
  wf_reader rd' k /\ r_pos rd' = r_pos rd + n.
Proof.
  intros [Hs Hz He] Hn Hk. unfold ReadRegion, r_pos, size_in_bits, Resize, Subregion, abs_start. simpl.
  rewrite !uN_small by (unfold is_u; lia). split_and!; try (split; simpl; lia); lia.
Qed.

Lemma ReadBits_spec w m rd n k v :
  width_ok w -> bytes_ok m -> wf_reader rd (n + k) -> 0 <= n <= w -> 0 <= k ->
  is_u n v -> bits_match m (r_pos rd) n v ->
  exists rd', ReadBits w m rd n = (v, rd') /\ wf_reader rd' k /\ r_pos rd' = r_pos rd + n.
Proof.
  intros Hw Hm Hr Hn Hk Hv Hb. unfold ReadBits.
  pose proof (ReadRegion_spec rd n k Hr ltac:(lia) Hk) as H. destruct (ReadRegion rd n) as [r rd'].
  destruct H as (Hwf & A & B & Hr' & E). exists rd'. split; [|done]. f_equal.
  apply Z.bits_inj'. intros i Hi. rewrite LoadBits_testbit by (done || lia).
  unfold rbit. rewrite A, Z.add_0_l. destruct (Z.ltb_spec i n); cbn [andb].
  - by apply Hb.
  - by rewrite (testbit_high n v) by (done || lia).
Qed.

Lemma ReadBit_spec m rd k :
  wf_reader rd (1 + k) -> 0 <= k ->
  exists rd', ReadBit m rd = (mbit m (r_pos rd), rd') /\ wf_reader rd' k /\ r_pos rd' = r_pos rd + 1.
Proof.
  intros Hr Hk. unfold ReadBit.
  pose proof (ReadRegion_spec rd 1 k Hr ltac:(lia) Hk) as H. destruct (ReadRegion rd 1) as [r rd'].
  destruct H as (Hwf & A & B & Hr' & E). exists rd'. split; [|done]. f_equal.
  rewrite LoadBit_rbit by (done || lia). unfold rbit. by rewrite A, Z.add_0_r.
Qed.

(** Items are values with a number of bits, written one after the other. *)
Definition item_ok (it : Z * Z) : Prop := 0 <= it.2 <= 64 /\ is_u it.2 it.1.
Definition items_bits (items : list (Z * Z)) : Z := foldr (fun it n => it.2 + n) 0 items.
Definition write_items (wr : BitMemoryWriter) (items : list (Z * Z)) : BitMemoryWriter :=
  foldl (fun wr it => WriteBits wr it.1 it.2) wr items.
Fixpoint items_match (m : memory) (a : Z) (items : list (Z * Z)) : Prop :=
  match items with
  | [] => True
  | it :: items => bits_match m a it.2 it.1 /\ items_match m (a + it.2) items
  end.

Lemma items_bits_nonneg items : Forall item_ok items -> 0 <= items_bits items.
Proof. induction 1 as [|it items [? _] _ IH]; simpl; lia. Qed.

Lemma items_bits_app l l' : items_bits (l ++ l') = items_bits l + items_bits l'.
Proof. induction l as [|it l IH]; simpl; [done|]. unfold items_bits in *. simpl. lia. Qed.

Lemma items_match_app m a l l' :
  items_match m a (l ++ l') <-> items_match m a l /\ items_match m (a + items_bits l) l'.
Proof.
  revert a. induction l as [|it l IH]; intros a; simpl.
  - rewrite Z.add_0_r. tauto.
  - rewrite IH. fold (items_bits l).
    replace (a + it.2 + items_bits l) with (a + (it.2 + items_bits l)) by lia. tauto.
Qed.

Lemma items_match_frame m m' a items :
  Forall item_ok items -> (forall j, a <= j < a + items_bits items -> mbit m' j = mbit m j) ->
  items_match m a items -> items_match m' a items.
Proof.
  intros Hok. revert a. induction Hok as [|it items [Hn Hv] Hok IH]; intros a Hf; simpl; [done|].
  pose proof (items_bits_nonneg _ Hok). simpl in Hf. intros [H1 H2]. split.
  - intros i Hi. rewrite Hf by lia. by apply H1.
  - apply IH; [|done]. intros j Hj. apply Hf. lia.
Qed.

Lemma appended_refl wr : wf_writer wr -> appended wr wr 0.
Proof. intros Hw. split; [done|done|done|lia|done]. Qed.

Lemma write_items_spec wr items :
  wf_writer wr -> Forall item_ok items -> w_pos wr + items_bits items < 2 ^ 62 ->
  appended wr (write_items wr items) (items_bits items) /\
  items_match (w_mem (write_items wr items)) (w_pos wr) items.
Proof.
  intros Hw Hok. revert wr Hw. induction Hok as [|it items [Hn Hv] Hok IH]; intros wr Hw Hov; simpl in *.
  { split; [by apply appended_refl|done]. }
  pose proof (items_bits_nonneg _ Hok).
  destruct (WriteBits_spec wr it.1 it.2) as [Ha Hb]; [done|done|unfold items_bits in *; lia|done|].
  set (wr1 := WriteBits wr it.1 it.2) in *.
  assert (w_pos wr1 = w_pos wr + it.2) as E by (unfold w_pos; destruct Ha as [_ -> _ -> _]; lia).
  destruct (IH wr1) as [Ha' Hm']; [apply Ha|unfold items_bits in *; lia|].
  split; [eapply appended_trans; (done || lia)|]. split.
  - intros i Hi. rewrite <- Hb by done. apply Ha'. left. lia.
  - by rewrite <- E.
Qed.

(** ** Variable-length integers *)

Definition varint_bytes (v : Z) : Z := BitsToBytesRoundUp (MinimumBitsToStore 32 v).
Definition small_item (v : Z) : Z * Z :=
  (if kVarintMax <? v then kVarintMax + varint_bytes v else v, kVarintBits).
Definition large_items (v : Z) : list (Z * Z) :=
  if kVarintMax <? v then [(v, 8 * varint_bytes v)] else [].
Definition varint_items (values : list Z) : list (Z * Z) :=
  map small_item values ++ concat (map large_items values).

Lemma varint_bytes_spec v :
  is_u 32 v -> kVarintMax < v -> 1 <= varint_bytes v <= 4 /\ is_u (8 * varint_bytes v) v.
Proof.
  unfold kVarintMax. intros Hv Hl. unfold varint_bytes.
  assert (0 <= MinimumBitsToStore 32 v) by apply MinimumBitsToStore_nonneg.
  assert (MinimumBitsToStore 32 v <= 32) by (apply MinimumBitsToStore_le; (done || lia)).
  assert (1 <= MinimumBitsToStore 32 v).
  { destruct (decide (MinimumBitsToStore 32 v <= 0)) as [Hc|]; [|lia].
    apply MinimumBitsToStore_le in Hc; [|lia..]. unfold is_u in Hc. simpl in Hc. lia. }
  rewrite BitsToBytesRoundUp_val by lia. set (b := MinimumBitsToStore 32 v) in *.
  assert (b <= 8 * ((b + 7) / 8)) by (Z.div_mod_to_equations; lia).
  split; [Z.div_mod_to_equations; lia|].
  apply (MinimumBitsToStore_le 32); [Z.div_mod_to_equations; lia|lia|done].
Qed.

Lemma small_item_ok v : is_u 32 v -> item_ok (small_item v) /\ is_u 4 (small_item v).1.
Proof.
  intros Hv. unfold small_item, item_ok, kVarintBits. simpl.
  destruct (Z.ltb_spec kVarintMax v) as [H|H].
  - destruct (varint_bytes_spec v Hv H). unfold is_u, kVarintMax in *. lia.
  - unfold is_u, kVarintMax in *. lia.
Qed.

Lemma large_items_ok v : is_u 32 v -> Forall item_ok (large_items v).
Proof.
  intros Hv. unfold large_items. destruct (Z.ltb_spec kVarintMax v) as [H|H]; [|done].
  destruct (varint_bytes_spec v Hv H). apply Forall_singleton.
  split; simpl; (done || lia).
Qed.

Lemma varint_items_ok values : Forall (is_u 32) values -> Forall item_ok (varint_items values).
Proof.
  intros Hv. apply Forall_app. split.
  - apply Forall_map. eapply Forall_impl; [done|]. intros v H. by apply small_item_ok.
  - apply Forall_concat, Forall_map. eapply Forall_impl; [done|]. apply large_items_ok.
Qed.

Lemma WriteInterleavedVarints_items wr values :
  Forall (is_u 32) values -> WriteInterleavedVarints wr values = write_items wr (varint_items values).
Proof.
  intros Hv. unfold WriteInterleavedVarints, varint_items, write_items. rewrite foldl_app.
  assert (foldl write_small wr values = foldl (fun wr it => WriteBits wr it.1 it.2) wr (map small_item values)) as ->.
  { revert wr. induction Hv as [|v values Hv' Hv IH]; intros wr; simpl; [done|]. rewrite <- IH. f_equal.
    unfold write_small, small_item. destruct (Z.ltb_spec kVarintMax v) as [H|]; simpl; [|done].
    fold (varint_bytes v). destruct (varint_bytes_spec v Hv' H).
    by rewrite uN_small by (unfold is_u, kVarintMax; lia). }
  generalize (foldl (fun wr it => WriteBits wr it.1 it.2) wr (map small_item values)). clear wr.
  induction Hv as [|v values Hv' Hv IH]; intros wr; simpl; [done|]. rewrite foldl_app, <- IH. f_equal.
  unfold write_large, large_items. case_ltb; simpl; [|done]. fold (varint_bytes v).
  f_equal. unfold kBitsPerByte. lia.
Qed.

(** What a reader finds where the items of [values] are. *)
Lemma read_large_spec m values rd k :
  bytes_ok m -> Forall (is_u 32) values -> 0 <= k ->
  wf_reader rd (items_bits (concat (map large_items values)) + k) ->
  items_match m (r_pos rd) (concat (map large_items values)) ->
  exists rd', read_large m rd (map (fun v => (small_item v).1) values) = (values, rd') /\
    wf_reader rd' k /\ r_pos rd' = r_pos rd + items_bits (concat (map large_items values)).
Proof.
  intros Hm Hv Hk. revert rd. induction Hv as [|v values Hv' Hv IH]; intros rd Hr Hi; cbn [map concat read_large] in *.
  { exists rd. simpl in *. split_and!; [done|done|lia]. }
  assert (0 <= items_bits (concat (map large_items values))).
  { apply items_bits_nonneg, Forall_concat, Forall_map. eapply Forall_impl; [done|]. apply large_items_ok. }
  rewrite items_match_app in Hi. destruct Hi as [Hi1 Hi2]. rewrite items_bits_app in *.
  assert ((small_item v).1 = if kVarintMax <? v then kVarintMax + varint_bytes v else v) as Es by done.
  assert (large_items v = if kVarintMax <? v then [(v, 8 * varint_bytes v)] else []) as El by done.
  rewrite Es. rewrite El in Hi1, Hi2, Hr |- *. clear Es El.
  destruct (Z.ltb_spec kVarintMax v) as [Hlt|Hge].
  - destruct (varint_bytes_spec v Hv' Hlt) as [Hb Hu].
    replace (kVarintMax <? kVarintMax + varint_bytes v) with true by lia.
    destruct Hi1 as [Hi1 _]. cbn [items_bits foldr fst snd app] in *. rewrite Z.add_0_r in *.
    replace ((kVarintMax + varint_bytes v - kVarintMax) * kBitsPerByte) with (8 * varint_bytes v)
      by (unfold kBitsPerByte; lia).
    destruct (ReadBits_spec 64 m rd (8 * varint_bytes v) (items_bits (concat (map large_items values)) + k) v)
      as (rd1 & E1 & H1 & H2); try (done || lia || (unfold width_ok; lia)).
    { by rewrite Z.add_assoc. }
    rewrite E1. destruct (IH rd1) as (rd2 & E2 & H3 & H4); [done|by rewrite H2|].
    rewrite E2. exists rd2. rewrite uN_small by done.
    split_and!; [done|done|lia].
  - replace (kVarintMax <? v) with false by lia. cbn [items_bits foldr fst snd app] in *. rewrite Z.add_0_r in *.
    destruct (IH rd) as (rd2 & E2 & H3 & H4); [done|done|].
    rewrite E2. exists rd2. done.
Qed.

(** The headers are read at once and taken apart. *)
Lemma extract_headers m values a :
  Forall (is_u 32) values -> Z.of_nat (length values) <= 16 ->
  items_match m a (map small_item values) ->
  exists data, is_u (Z.of_nat (length values) * kVarintBits) data /\
    bits_match m a (Z.of_nat (length values) * kVarintBits) data /\
    map (fun i => u32 (BitFieldExtractU 64 data (i * kVarintBits) kVarintBits))
      (seqZ 0 (Z.of_nat (length values))) = map (fun v => (small_item v).1) values.
Proof.
  intros Hv Hn Hi. set (n := Z.of_nat (length values) * kVarintBits). unfold kVarintBits in *.
  set (data := of_bits (Z.to_nat n) (fun i => mbit m (a + i))).
  exists data. split; [|split].
  - pose proof (of_bits_is_u (Z.to_nat n) (fun i => mbit m (a + i))) as H. by rewrite Z2Nat.id in H by lia.
  - intros i Hi'. unfold data. rewrite of_bits_testbit, Z2Nat.id by lia.
    by destruct (Z.ltb_spec i n); [|lia].
  - apply list_eq. intros i. rewrite !list_lookup_fmap.
    destruct (decide (i < length values)%nat) as [Hlt|Hge].
    2:{ rewrite (lookup_ge_None_2 values i) by lia.
        rewrite lookup_seqZ_ge by lia. done. }
    rewrite lookup_seqZ_lt by lia. destruct (lookup_lt_is_Some_2 values i Hlt) as [v E]. rewrite E. simpl.
    rewrite Z.add_0_l. f_equal. assert (is_u 4 (small_item v).1) as Hu.
    { apply small_item_ok. by eapply Forall_lookup_1 in Hv. }
    assert (bits_match m (a + 4 * Z.of_nat i) 4 (small_item v).1) as Hb.
    { clear -Hi E. revert a i Hi E. induction values as [|v' values IH]; intros a i Hi E; [done|].
      destruct Hi as [H1 H2]. destruct i as [|i]; simpl in *.
      - injection E as ->. by rewrite Z.add_0_r.
      - specialize (IH (a + kVarintBits) i H2 E).
        by replace (a + 4 * Z.of_nat (S i)) with (a + kVarintBits + 4 * Z.of_nat i) by (unfold kVarintBits; lia). }
    assert (BitFieldExtractU 64 data (Z.of_nat i * 4) 4 = (small_item v).1) as ->.
    { apply Z.bits_inj'. intros k Hk. rewrite BitFieldExtractU_testbit by lia.
      unfold data. rewrite of_bits_testbit by lia. rewrite Z2Nat.id by lia.
      destruct (Z.ltb_spec k 4); cbn [andb].
      - destruct (Z.ltb_spec (k + Z.of_nat i * 4) n); [|lia]. cbn [andb].
        rewrite <- Hb by lia. f_equal. lia.
      - by rewrite (testbit_high 4) by (done || lia). }
    apply uN_small. change (is_u 32 (small_item v).1). unfold is_u in *. lia.
Qed.

Lemma ReadInterleavedVarints_spec m values rd k :
  bytes_ok m -> Forall (is_u 32) values -> Z.of_nat (length values) <= 16 -> 0 <= k ->
  wf_reader rd (items_bits (varint_items values) + k) ->
  items_match m (r_pos rd) (varint_items values) ->
  exists rd', ReadInterleavedVarints (length values) m rd = (values, rd') /\
    wf_reader rd' k /\ r_pos rd' = r_pos rd + items_bits (varint_items values).
Proof.
  intros Hm Hv Hn Hk Hr Hi. unfold varint_items in *.
  apply items_match_app in Hi as [Hi1 Hi2]. rewrite items_bits_app in *.
  set (L := items_bits (concat (map large_items values))) in *.
  assert (0 <= L).
  { apply items_bits_nonneg, Forall_concat, Forall_map. eapply Forall_impl; [done|]. apply large_items_ok. }
  assert (items_bits (map small_item values) = Z.of_nat (length values) * kVarintBits) as E.
  { clear. induction values as [|v values IH]; [done|]. unfold items_bits in *. cbn [map foldr length].
    rewrite IH. unfold small_item, kVarintBits. simpl. lia. }
  rewrite E in *.
  destruct (extract_headers m values (r_pos rd) Hv Hn Hi1) as (data & Hu & Hb & Hx).
  unfold kVarintBits in *.
  destruct (ReadBits_spec 64 m rd (Z.of_nat (length values) * 4) (L + k) data)
    as (rd1 & E1 & H1 & H2); try (done || lia || (unfold width_ok; lia)).
  { by rewrite Z.add_assoc. }
  unfold ReadInterleavedVarints, kVarintBits. rewrite E1, Hx.
  destruct (read_large_spec m values rd1 k) as (rd2 & E2 & H3 & H4); try done; [by rewrite H2|].
  exists rd2. rewrite E2. split_and!; [done|done|lia].
Qed.

Lemma varint_bytes_or v :
  is_u 32 v ->
  (kVarintMax < v /\ 1 <= varint_bytes v <= 4 /\ is_u (8 * varint_bytes v) v) \/ v <= kVarintMax.
Proof.
  intros Hv. destruct (Z.ltb_spec kVarintMax v) as [H|H]; [left; split; [done|]|by right].
  by apply varint_bytes_spec.
Qed.

(** A varint takes at most 36 bits. *)
Lemma varint_items_bound values :
  Forall (is_u 32) values -> items_bits (varint_items values) <= 36 * Z.of_nat (length values).
Proof.
  intros Hv. unfold varint_items. rewrite items_bits_app.
  induction Hv as [|v values Hv' Hv IH]; [done|]. cbn [map concat]. rewrite items_bits_app.
  assert (items_bits (large_items v) <= 32).
  { unfold large_items. destruct (Z.ltb_spec kVarintMax v) as [H|H]; simpl; [|lia].
    pose proof (varint_bytes_spec v Hv' H). lia. }
  change (items_bits (small_item v :: map small_item values))
    with (4 + items_bits (map small_item values)). simpl length. lia.
Qed.

Lemma ReadVarint_spec m v rd k :
  bytes_ok m -> is_u 32 v -> 0 <= k ->
  wf_reader rd (items_bits (varint_items [v]) + k) ->
  items_match m (r_pos rd) (varint_items [v]) ->
  exists rd', ReadVarint m rd = (v, rd') /\ wf_reader rd' k /\
    r_pos rd' = r_pos rd + items_bits (varint_items [v]).
Proof.
  intros Hm Hv Hk Hr Hi. unfold varint_items in *. cbn [map concat] in *. rewrite app_nil_r in *.
  destruct Hi as [Hi1 Hi2]. destruct (small_item_ok v Hv) as [_ Hs].
  destruct (varint_bytes_or v Hv) as [(Hlt & Hb & Hu)|Hge].
  - assert (small_item v = (kVarintMax + varint_bytes v, 4)) as Es
      by (unfold small_item; by destruct (Z.ltb_spec kVarintMax v); [|lia]).
    assert (large_items v = [(v, 8 * varint_bytes v)]) as El
      by (unfold large_items; by destruct (Z.ltb_spec kVarintMax v); [|lia]).
    rewrite El, Es in *. cbn [items_bits foldr fst snd app] in *. rewrite Z.add_0_r in *.
    unfold ReadVarint, kVarintBits.
    destruct (ReadBits_spec 64 m rd 4 (8 * varint_bytes v + k) (kVarintMax + varint_bytes v))
      as (rd1 & E1 & H1 & H2); try (done || lia || (unfold width_ok; lia)); [by rewrite Z.add_assoc|].
    rewrite E1, uN_small by (unfold is_u, kVarintMax; lia).
    replace (kVarintMax + varint_bytes v <=? kVarintMax) with false by lia.
    replace ((kVarintMax + varint_bytes v - kVarintMax) * kBitsPerByte) with (8 * varint_bytes v)
      by (unfold kBitsPerByte; lia).
    destruct (ReadBits_spec 64 m rd1 (8 * varint_bytes v) k v)
      as (rd2 & E2 & H3 & H4); try (done || lia || (unfold width_ok; lia)); [rewrite H2; apply Hi2|].
    rewrite E2, uN_small by done. exists rd2. split_and!; [done|done|lia].
  - assert (small_item v = (v, 4)) as Es
      by (unfold small_item; by destruct (Z.ltb_spec kVarintMax v); [lia|]).
    assert (large_items v = []) as El
      by (unfold large_items; by destruct (Z.ltb_spec kVarintMax v); [lia|]).
    rewrite El, Es in *. cbn [items_bits foldr fst snd app] in *. rewrite Z.add_0_r in *.
    unfold ReadVarint, kVarintBits.
    destruct (ReadBits_spec 64 m rd 4 k v) as (rd1 & E1 & H1 & H2); try (done || lia || (unfold width_ok; lia)).
    rewrite E1, uN_small by done. replace (v <=? kVarintMax) with true by lia. by exists rd1.
Qed.

(** A reader placed where a writer stood. *)
Lemma MakeReaderAt_spec data off n :
  0 <= data -> 0 <= off -> 0 <= n -> 8 * data + off + n < 2 ^ 62 ->
  wf_reader (MakeReaderAt data off) n /\ r_pos (MakeReaderAt data off) = 8 * data + off /\
  NumberOfReadBits (MakeReaderAt data off) = 0.
Proof.
  intros Hd Ho Hn Hov. destruct (MakeRegion_spec data off n) as ([Hs _ He] & A & _); [lia..|].
  unfold MakeReaderAt, r_pos, NumberOfReadBits, size_in_bits. cbn [finished_region_].
  assert (abs_start (MakeRegion data off 0) = abs_start (MakeRegion data off n)) as -> by done.
  split_and!; [|simpl; lia|done]. split; cbn [finished_region_] in *; simpl in *; lia.
Qed.

(** ** Properties *)

(** C27: a stored value is read back with every result width it fits in, and no bit outside of
    the stored range changes: [StoreBits] is exact although it works on whole bytes and
    [LoadBits] combines two whole words. *)
Theorem StoreBits_LoadBits (w : Z) (m : memory) (r : BitMemoryRegion) (off value len : Z)
    (Hw : width_ok w) (Hr : wf_region r) (Hm : bytes_ok m) (Hoff : 0 <= off)
    (Hlen : 0 <= len <= w) (Hsz : off + len <= bit_size_ r) (Hv : is_u len value) :
  let m' := StoreBits m r off value len in
  bytes_ok m' /\ LoadBits w m' r off len = value /\
  forall j, j < abs_start r + off \/ abs_start r + off + len <= j -> mbit m' j = mbit m j.
Proof.
  assert (w <= 64) by (unfold width_ok in Hw; lia).
  destruct (StoreBits_spec m r off value len) as [Hok Hb]; try (done || lia).
  cbv zeta in *. split; [done|]. split.
  - apply Z.bits_inj'. intros i Hi. rewrite LoadBits_testbit by (done || lia).
    unfold rbit. rewrite Hb. rewrite Z.add_assoc.
    destruct (Z.ltb_spec i len); cbn [andb].
    + repeat case_ltb; cbn [andb]; try lia. f_equal. lia.
    + by rewrite (testbit_high len value) by (done || lia).
  - intros j Hj. rewrite Hb. repeat case_ltb; cbn [andb]; (done || lia).
Qed.

Lemma StoreBits_LoadBits_witness :
  let m' := StoreBits (fun _ => 0xFF) (MakeRegion 5000 3 100) 7 0x1234 13 in
  bytes_ok m' /\ LoadBits 16 m' (MakeRegion 5000 3 100) 7 13 = 0x1234 /\
  forall j, j < 40010 \/ 40023 <= j -> mbit m' j = mbit (fun _ => 0xFF) j.
Proof.
  apply (StoreBits_LoadBits 16 (fun _ => 0xFF) (MakeRegion 5000 3 100) 7 0x1234 13);
    [unfold width_ok; lia|split; vm_compute; congruence|intros ?; unfold is_u; lia|lia|lia
    |vm_compute; congruence|unfold is_u; lia].
Defined.

(** The bits of [r] are combined with those of [src]; all others are unchanged. *)
Definition combined (bop : bool -> bool -> bool) (m : memory) (r src : BitMemoryRegion) (m' : memory) : Prop :=
  bytes_ok m' /\
  forall j, mbit m' j =
    if (abs_start r <=? j) && (j <? abs_start r + bit_size_ r)
    then bop (mbit m j) (rbit m src (j - abs_start r)) else mbit m j.

(** [CopyBits], [AndBits], [OrBits] and [XorBits] between regions at any two bit alignments
    combine them bit by bit and change nothing outside of the destination. *)
Theorem region_operations (m : memory) (r src : BitMemoryRegion)
    (Hr : wf_region r) (Hs : wf_region src) (Hm : bytes_ok m)
    (Hsz : bit_size_ src = bit_size_ r) (Hd : disjoint r src) :
  combined (fun _ s => s) m r src (CopyBits m r src) /\
  combined andb m r src (AndBits m r src) /\
  combined orb m r src (OrBits m r src) /\
  combined xorb m r src (XorBits m r src).
Proof.
  split_and!; [apply (combine_bits_spec (fun _ s => s) (fun _ s => s))|apply (combine_bits_spec Z.land andb)
    |apply (combine_bits_spec Z.lor orb)|apply (combine_bits_spec Z.lxor xorb)]; try done; intros;
    rewrite ?Z.land_spec, ?Z.lor_spec, ?Z.lxor_spec by lia; try done.
  - apply Z.land_nonneg. by left.
  - by apply Z.lor_nonneg.
  - by apply Z.lxor_nonneg.
Qed.

(** the queries that walk a region in aligned words answer for its bits, whatever its
    alignment: [PopCount] counts the set ones, [HasAllBitsClear] and [Equals] decide emptiness
    and equality, and [Compare] orders equal-sized regions by the first bit that differs. *)
Theorem region_queries (m : memory) (l r : BitMemoryRegion)
    (Hl : wf_region l) (Hr : wf_region r) (Hm : bytes_ok m) :
  PopCount m l = count_bits (Z.to_nat (bit_size_ l)) (rbit m l) /\
  (HasAllBitsClear m l = true <-> forall i, 0 <= i < bit_size_ l -> rbit m l i = false) /\
  (Equals m l r = true <->
     bit_size_ l = bit_size_ r /\ forall i, 0 <= i < bit_size_ l -> rbit m l i = rbit m r i) /\
  (bit_size_ l = bit_size_ r ->
     (Compare m l r = 0 /\ forall i, 0 <= i < bit_size_ l -> rbit m l i = rbit m r i) \/
     (exists k, first_difference m l r k /\ Compare m l r = if rbit m r k then 1 else -1)).
Proof.
  split_and!; [by apply PopCount_spec|by apply HasAllBitsClear_spec|by apply Equals_spec|].
  intros. by apply Compare_spec.
Qed.

(** interleaved varints are read back from where they were written: up to sixteen 32-bit
    values, at any bit position; the reader ends where the writer does, earlier bits are
    unchanged, and a single varint is also read back by [ReadVarint]. *)
Theorem Varints_roundtrip (wr : BitMemoryWriter) (values : list Z) (v : Z)
    (Hw : wf_writer wr) (Hv : Forall (is_u 32) values) (Hn : Z.of_nat (length values) <= 16)
    (Hv1 : is_u 32 v) (Hroom : w_pos wr < 2 ^ 61) :
  (let wr' := WriteInterleavedVarints wr values in
   exists rd', ReadInterleavedVarints (length values) (w_mem wr')
                 (MakeReaderAt (w_data wr) (w_bit_offset wr)) = (values, rd') /\
     wf_writer wr' /\ r_pos rd' = w_pos wr' /\
     forall j, j < w_pos wr -> mbit (w_mem wr') j = mbit (w_mem wr) j) /\
  (let wr' := WriteVarint wr v in
   exists rd', ReadVarint (w_mem wr') (MakeReaderAt (w_data wr) (w_bit_offset wr)) = (v, rd') /\
     r_pos rd' = w_pos wr').
Proof.
  assert (forall vs, Forall (is_u 32) vs -> Z.of_nat (length vs) <= 16 ->
    0 <= items_bits (varint_items vs) < 2 ^ 60) as Hbits.
  { intros vs Hvs Hlen. split; [by apply items_bits_nonneg, varint_items_ok|].
    pose proof (varint_items_bound vs Hvs). lia. }
  split; cbv zeta.
  - specialize (Hbits values Hv Hn). rewrite WriteInterleavedVarints_items by done.
    destruct (write_items_spec wr (varint_items values)) as [Ha Hi]; [done|by apply varint_items_ok|lia|].
    pose proof (ww_data _ Hw). pose proof (ww_start _ Hw). unfold w_pos in Hroom.
    destruct (MakeReaderAt_spec (w_data wr) (w_bit_offset wr) (items_bits (varint_items values) + 0)) as (H1 & H2 & _); [lia..|].
    destruct (ReadInterleavedVarints_spec (w_mem (write_items wr (varint_items values))) values _ 0 (ww_ok _ (ap_wf _ _ _ Ha)) Hv Hn ltac:(lia) H1)
      as (rd' & E & _ & Hp); [by rewrite H2|].
    exists rd'. split_and!; [done|apply Ha| |].
    + rewrite Hp, H2. unfold w_pos. destruct Ha as [_ -> _ -> _]. lia.
    + intros j Hj. apply Ha. by left.
  - assert (Forall (is_u 32) [v]) as Hvs by (by apply Forall_singleton).
    specialize (Hbits [v] Hvs ltac:(simpl; lia)).
    unfold WriteVarint. rewrite WriteInterleavedVarints_items by done.
    destruct (write_items_spec wr (varint_items [v])) as [Ha Hi]; [done|by apply varint_items_ok|lia|].
    pose proof (ww_data _ Hw). pose proof (ww_start _ Hw). unfold w_pos in Hroom.
    destruct (MakeReaderAt_spec (w_data wr) (w_bit_offset wr) (items_bits (varint_items [v]) + 0)) as (H1 & H2 & _); [lia..|].
    destruct (ReadVarint_spec (w_mem (write_items wr (varint_items [v]))) v _ 0 (ww_ok _ (ap_wf _ _ _ Ha)) Hv1 ltac:(lia) H1)
      as (rd' & E & _ & Hp); [by rewrite H2|].
    exists rd'. split; [done|]. rewrite Hp, H2. unfold w_pos. destruct Ha as [_ -> _ -> _]. lia.
Qed.

