(* ===== verification/BitTable.v ===== *)
(** Bit-packed tables: libartbase/base/bit_table.h (and FNVHash of libartbase/base/stl_util.h).

    The number of columns, a template argument in the code, is the argument [kNumColumns]; a row
    ([Entry]) is the list of its [kNumColumns] values. *)
From S2P Require Import Prelude BitUtils Memory BitMemory.

Definition kNoValue : Z := 2 ^ 32 - 1.
Definition kValueBias : Z := kNoValue.

(** ** Reading a table *)

Record BitTableBase := Table {
  table_data_ : BitMemoryRegion;
  num_rows_ : Z;
  column_offset_ : list Z }.

(** The offsets of the columns behind the first one: running sums at 16 bits. *)
Fixpoint column_offsets (offset : Z) (widths : list Z) : list Z :=
  match widths with
  | [] => []
  | width :: widths =>
      let column_end := uN 16 (offset + width) in column_end :: column_offsets column_end widths
  end.

Definition NumRows (t : BitTableBase) : Z := num_rows_ t.
Definition NumRowBits (kNumColumns : nat) (t : BitTableBase) : Z :=
  default 0 (column_offset_ t !! kNumColumns).
Definition NumColumnBits (t : BitTableBase) (column : nat) : Z :=
  u32 (default 0 (column_offset_ t !! S column) - default 0 (column_offset_ t !! column)).
Definition DataBitSize (t : BitTableBase) : Z := size_in_bits (table_data_ t).

Definition Decode (kNumColumns : nat) (m : memory) (reader : BitMemoryReader) :
    BitTableBase * BitMemoryReader :=
  let '(header, reader) := ReadInterleavedVarints (1 + kNumColumns) m reader in
  let num_rows := default 0 (header !! 0%nat) in
  let offsets := 0 :: column_offsets 0 (drop 1 header) in
  let num_row_bits := default 0 (offsets !! kNumColumns) in
  let '(data, reader) := ReadRegion reader (u32 (num_rows * num_row_bits)) in
  (Table data num_rows offsets, reader).

Definition Get (kNumColumns : nat) (m : memory) (t : BitTableBase) (row : Z) (column : nat) : Z :=
  let offset :=
    u32 (u32 (row * NumRowBits kNumColumns t) + default 0 (column_offset_ t !! column)) in
  u32 (LoadBits 64 m (table_data_ t) offset (NumColumnBits t column) + kValueBias).

Definition GetBitMemoryRegion (kNumColumns : nat) (t : BitTableBase) (row : Z) (column : nat) :
    BitMemoryRegion :=
  let offset :=
    u32 (u32 (row * NumRowBits kNumColumns t) + default 0 (column_offset_ t !! column)) in
  Subregion (table_data_ t) offset (NumColumnBits t column).

(** The comparison looks at the first [kNumColumns] of the [kNumColumns + 1] offsets. *)
Definition TableEquals (kNumColumns : nat) (m : memory) (t other : BitTableBase) : bool :=
  (num_rows_ t =? num_rows_ other)
  && bool_decide (take kNumColumns (column_offset_ t) = take kNumColumns (column_offset_ other))
  && BitMemory.Equals m (table_data_ t) (table_data_ other).

(** ** Building a table *)

Abbreviation Entry := (list Z).

Definition make_entry (kNumColumns : nat) : Entry := replicate kNumColumns kNoValue.

(** [rows_], and the pairs of the multimap [dedup_] in the order they were added. *)
Record BitTableBuilder := Builder { rows_ : list Entry; dedup_ : list (Z * Z) }.

Definition size (b : BitTableBuilder) : Z := Z.of_nat (length (rows_ b)).

Definition Add (b : BitTableBuilder) (value : Entry) : BitTableBuilder :=
  Builder (rows_ b ++ [value]) (dedup_ b).

(** The hash of the bytes of a region. *)
Definition FNVHash (bytes : list Z) : Z :=
  foldl (fun hash value => u32 ((hash .^ value) * 16777619)) 2166136261 bytes.

(** A [uint32_t] in memory. *)
Definition uint32_bytes (v : Z) : list Z :=
  [uN 8 v; uN 8 (v ≫ 8); uN 8 (v ≫ 16); uN 8 (v ≫ 24)].

Definition hash_entries (values : list Entry) : Z := FNVHash (concat (map uint32_bytes (concat values))).

Section dedup.
(** The order in which a multimap lists the values of a key is up to the standard library. *)
Context (equal_range : list (Z * Z) -> Z -> list Z).

Fixpoint find_equal (rows : list Entry) (values : list Entry) (range : list Z) : option Z :=
  match range with
  | [] => None
  | index :: range =>
      if (Z.of_nat (length values) <=? u64 (Z.of_nat (length rows) - index))
         && bool_decide (take (length values) (drop (Z.to_nat index) rows) = values)
      then Some index else find_equal rows values range
  end.

Definition Dedup (b : BitTableBuilder) (values : list Entry) : Z * BitTableBuilder :=
  let hash := hash_entries values in
  match find_equal (rows_ b) values (equal_range (dedup_ b) hash) with
  | Some index => (index, b)
  | None =>
      let index := u32 (size b) in
      (index, Builder (rows_ b ++ values) (dedup_ b ++ [(hash, index)]))
  end.
End dedup.

Definition max_column_value (rows : list Entry) (c : nat) : Z :=
  foldl (fun acc row => acc .| u32 (default 0 (row !! c) - kValueBias)) 0 rows.

Definition Measure (kNumColumns : nat) (b : BitTableBuilder) : list Z :=
  map (fun c => MinimumBitsToStore 32 (max_column_value (rows_ b) c)) (seq 0 kNumColumns).

(** Write one row: every column with its width. *)
Fixpoint write_row (wr : BitMemoryWriter) (row : Entry) (column_bits : list Z) : BitMemoryWriter :=
  match row, column_bits with
  | v :: row, bits :: column_bits =>
      write_row (WriteBits wr (u32 (v - kValueBias)) bits) row column_bits
  | _, _ => wr
  end.

Definition Encode (kNumColumns : nat) (b : BitTableBuilder) (out : BitMemoryWriter) : BitMemoryWriter :=
  let column_bits := Measure kNumColumns b in
  let out := WriteInterleavedVarints out (u32 (size b) :: column_bits) in
  foldl (fun out row => write_row out row column_bits) out (rows_ b).

(** What a debug build checks when a table is written: it is decoded from the bit at which the
    writer stood before, and every value is read. *)
Definition VerifyEncoded (kNumColumns : nat) (b : BitTableBuilder) (initial_bit_offset : Z)
    (out : BitMemoryWriter) : bool :=
  let column_bits := Measure kNumColumns b in
  let reader := MakeReader (Subregion1 (GetWrittenRegion out) initial_bit_offset) in
  let table := (Decode kNumColumns (w_mem out) reader).1 in
  (size b =? NumRows table) &&
  forallb (fun c => default 0 (column_bits !! c) =? NumColumnBits table c) (seq 0 kNumColumns) &&
  forallb (fun r =>
    forallb (fun c =>
      default kNoValue (default [] (rows_ b !! r) !! c)
        =? Get kNumColumns (w_mem out) table (Z.of_nat r) c)
      (seq 0 kNumColumns))
    (seq 0 (length (rows_ b))).

(** ** Lemmas *)

Lemma LoadBits_match w m r off len v :
  width_ok w -> bytes_ok m -> wf_region r -> 0 <= off -> 0 <= len <= w -> off + len <= bit_size_ r ->
  is_u len v -> bits_match m (abs_start r + off) len v -> LoadBits w m r off len = v.
Proof.
  intros Hw Hm Hr Ho Hl Hsz Hv Hb. apply Z.bits_inj'. intros i Hi.
  rewrite LoadBits_testbit by (done || lia). unfold rbit. destruct (Z.ltb_spec i len); cbn [andb].
  - rewrite Z.add_assoc. by apply Hb.
  - by rewrite (testbit_high len v) by (done || lia).
Qed.

Lemma items_match_lookup m a l c it :
  items_match m a l -> l !! c = Some it -> bits_match m (a + items_bits (take c l)) it.2 it.1.
Proof.
  revert a c. induction l as [|it' l IH]; intros a c Hm Hc; [done|]. destruct Hm as [H1 H2].
  destruct c as [|c]; simpl in *.
  - injection Hc as ->. by rewrite Z.add_0_r.
  - specialize (IH _ _ H2 Hc). by rewrite Z.add_assoc.
Qed.

(** Blocks of the same size follow each other. *)
Lemma items_match_concat m a ls n r l :
  Forall (fun l => items_bits l = n) ls -> items_match m a (concat ls) -> ls !! r = Some l ->
  items_match m (a + Z.of_nat r * n) l.
Proof.
  intros Hn. revert a r. induction Hn as [|l' ls Hl' Hn IH]; intros a r Hm Hr; [done|].
  apply items_match_app in Hm as [H1 H2]. destruct r as [|r]; simpl in *.
  - injection Hr as ->. by rewrite Z.mul_0_l, Z.add_0_r.
  - specialize (IH _ _ H2 Hr). rewrite Hl' in IH.
    by replace (a + Z.of_nat (S r) * n) with (a + n + Z.of_nat r * n) by lia.
Qed.

Definition sum (l : list Z) : Z := foldr Z.add 0 l.

Lemma sum_bound l n : Forall (fun x => 0 <= x <= n) l -> 0 <= sum l <= Z.of_nat (length l) * n.
Proof. induction 1; simpl; [lia|]. unfold sum in *. lia. Qed.

Lemma sum_app l l' : sum (l ++ l') = sum l + sum l'.
Proof. induction l as [|x l IH]; [done|]. unfold sum in *. simpl. lia. Qed.

Lemma sum_take_bound l n c : Forall (fun x => 0 <= x <= n) l -> 0 <= sum (take c l) <= sum l.
Proof.
  intros Hl. rewrite <- (take_drop c l) at 3. rewrite sum_app.
  pose proof (sum_bound _ _ (Forall_take _ c _ Hl)). pose proof (sum_bound _ _ (Forall_drop _ c _ Hl)).
  lia.
Qed.

Lemma sum_take_S l c x : l !! c = Some x -> sum (take (S c) l) = sum (take c l) + x.
Proof. intros H. rewrite (take_S_r _ _ x) by done. rewrite sum_app. unfold sum. simpl. lia. Qed.

Lemma column_offsets_lookup off cb c :
  Forall (fun x => 0 <= x <= 32) cb -> 0 <= off -> off + Z.of_nat (length cb) * 32 < 2 ^ 16 ->
  (c <= length cb)%nat -> (off :: column_offsets off cb) !! c = Some (off + sum (take c cb)).
Proof.
  intros Hcb. revert off c. induction Hcb as [|w cb Hw Hcb IH]; intros off c Hoff Hb Hc; simpl in *.
  - destruct c; [|lia]. simpl. f_equal. lia.
  - destruct c as [|c]; simpl; [f_equal; lia|].
    rewrite uN_small by (unfold is_u; lia). rewrite IH by lia. unfold sum. f_equal. lia.
Qed.

Section table.
Context (kNumColumns : nat) (b : BitTableBuilder).
Hypothesis Hrows : Forall (fun row => length row = kNumColumns /\ Forall (is_u 32) row) (rows_ b).

Definition biased (row : Entry) : list Z := map (fun v => u32 (v - kValueBias)) row.
Definition row_items (cb : list Z) (row : Entry) : list (Z * Z) := zip (biased row) cb.

Lemma max_column_value_spec rows c :
  is_u 32 (max_column_value rows c) /\
  forall row, row ∈ rows -> forall i, 0 <= i ->
    Z.testbit (u32 (default 0 (row !! c) - kValueBias)) i = true ->
    Z.testbit (max_column_value rows c) i = true.
Proof.
  unfold max_column_value.
  assert (forall acc, is_u 32 acc ->
    is_u 32 (foldl (fun acc row => acc .| u32 (default 0 (row !! c) - kValueBias)) acc rows) /\
    forall i, 0 <= i ->
      (Z.testbit acc i = true \/
       exists row, row ∈ rows /\ Z.testbit (u32 (default 0 (row !! c) - kValueBias)) i = true) ->
      Z.testbit (foldl (fun acc row => acc .| u32 (default 0 (row !! c) - kValueBias)) acc rows) i = true) as H.
  { induction rows as [|row rows IH]; intros acc Ha; simpl.
    - split; [done|]. intros i Hi [H|(? & H & _)]; [done|by apply not_elem_of_nil in H].
    - destruct (IH (acc .| u32 (default 0 (row !! c) - kValueBias))) as [H1 H2].
      { apply lor_is_u; [lia|done|apply uN_is_u; lia]. }
      split; [done|]. intros i Hi H. apply H2; [done|]. rewrite Z.lor_spec.
      destruct H as [H|(row' & Hin & H)]; [left; by rewrite H|].
      apply elem_of_cons in Hin as [->|Hin]; [left; by rewrite H, orb_true_r|right; by exists row']. }
  destruct (H 0) as [H1 H2]; [unfold is_u; lia|]. split; [done|].
  intros row Hin i Hi Hb. apply H2; [done|]. right. by exists row.
Qed.

Lemma Measure_bounds : Forall (fun x => 0 <= x <= 32) (Measure kNumColumns b).
Proof.
  apply Forall_map, Forall_forall. intros c _. split; [apply MinimumBitsToStore_nonneg|].
  destruct (max_column_value_spec (rows_ b) c) as [H _].
  apply MinimumBitsToStore_le; [lia|unfold is_u in H; lia|done].
Qed.

Lemma Measure_length : length (Measure kNumColumns b) = kNumColumns.
Proof. unfold Measure. by rewrite length_map, length_seq. Qed.

(** Every biased value fits in its column. *)
Lemma Measure_fits row c v w :
  row ∈ rows_ b -> row !! c = Some v -> Measure kNumColumns b !! c = Some w ->
  is_u w (u32 (v - kValueBias)).
Proof.
  intros Hin Hv Hw. destruct (max_column_value_spec (rows_ b) c) as [Hu Hmax].
  pose proof Measure_bounds as Hb. eapply Forall_lookup_1 in Hb; [|done].
  unfold Measure in Hw. rewrite list_lookup_fmap in Hw.
  destruct (seq 0 kNumColumns !! c) as [c'|] eqn:E; [|done]. simpl in Hw.
  apply lookup_seq in E as [-> _]. simpl in Hw. injection Hw as Hw.
  assert (is_u w (max_column_value (rows_ b) c)) as Hm.
  { apply (MinimumBitsToStore_le 32); [lia|unfold is_u in Hu; lia|lia]. }
  specialize (Hmax row Hin). rewrite Hv in Hmax. simpl in Hmax.
  apply is_u_bits; [lia|apply Z.mod_pos_bound; lia|]. intros i Hi.
  destruct (Z.testbit (u32 (v - kValueBias)) i) eqn:Et; [|done].
  rewrite <- (Hmax i) by (done || lia). by apply (testbit_high w).
Qed.

Lemma row_items_ok row : row ∈ rows_ b -> Forall item_ok (row_items (Measure kNumColumns b) row).
Proof.
  intros Hin. apply Forall_lookup_2. intros c [x w] Hc. unfold row_items in Hc.
  apply lookup_zip_Some in Hc as [H1 H2]. unfold biased in H1. rewrite list_lookup_fmap in H1.
  destruct (row !! c) as [v|] eqn:E; simplify_eq/=.
  pose proof Measure_bounds as Hb. eapply Forall_lookup_1 in Hb; [|done].
  split; simpl; [lia|]. by eapply Measure_fits.
Qed.

Lemma items_bits_zip (xs cb : list Z) : length xs = length cb -> items_bits (zip xs cb) = sum cb.
Proof.
  revert cb. induction xs as [|x xs IH]; intros [|w cb] H; simpl in *; try done.
  unfold items_bits, sum in *. simpl. rewrite IH by lia. done.
Qed.

Lemma row_items_bits row c :
  row ∈ rows_ b ->
  items_bits (take c (row_items (Measure kNumColumns b) row)) = sum (take c (Measure kNumColumns b)).
Proof using Hrows.
  intros Hin. unfold row_items. rewrite zip_with_take. apply items_bits_zip.
  rewrite !length_take, Measure_length. unfold biased. rewrite length_map.
  eapply Forall_forall in Hrows as [-> _]; [done|done].
Qed.

Definition table_items : list (Z * Z) :=
  varint_items (u32 (size b) :: Measure kNumColumns b) ++
  concat (map (row_items (Measure kNumColumns b)) (rows_ b)).

Lemma write_row_items wr row cb : write_row wr row cb = write_items wr (row_items cb row).
Proof.
  revert wr cb. induction row as [|v row IH]; intros wr [|w cb]; simpl; [done..|]. apply IH.
Qed.

Lemma header_ok : Forall (is_u 32) (u32 (size b) :: Measure kNumColumns b).
Proof.
  constructor; [apply uN_is_u; lia|]. eapply Forall_impl; [apply Measure_bounds|].
  intros x Hx. unfold is_u. simpl in Hx. lia.
Qed.

Lemma Encode_items wr : Encode kNumColumns b wr = write_items wr table_items.
Proof.
  unfold Encode, table_items, write_items. rewrite foldl_app.
  rewrite WriteInterleavedVarints_items by apply header_ok.
  unfold write_items. generalize (foldl (fun wr it => WriteBits wr it.1 it.2) wr
    (varint_items (u32 (size b) :: Measure kNumColumns b))).
  generalize (Measure kNumColumns b). intros cb. clear.
  induction (rows_ b) as [|row rows IH]; intros wr; simpl; [done|].
  rewrite foldl_app, IH, write_row_items. done.
Qed.

Lemma table_items_ok : Forall item_ok table_items.
Proof.
  apply Forall_app. split; [apply varint_items_ok, header_ok|].
  apply Forall_concat, Forall_map, Forall_forall. intros row Hin. by apply row_items_ok.
Qed.

Lemma data_items_bits :
  items_bits (concat (map (row_items (Measure kNumColumns b)) (rows_ b))) =
    size b * sum (Measure kNumColumns b).
Proof using Hrows.
  unfold size.
  assert (forall rows, rows ⊆ rows_ b ->
    items_bits (concat (map (row_items (Measure kNumColumns b)) rows)) =
      Z.of_nat (length rows) * sum (Measure kNumColumns b)) as H; [|by apply H].
  intros rows. induction rows as [|row rows IH]; intros Hs; [done|]. cbn [map concat].
  rewrite items_bits_app, IH by set_solver.
  pose proof (row_items_bits row kNumColumns ltac:(set_solver)) as E.
  rewrite !take_ge in E by (rewrite ?Measure_length; try done; unfold row_items;
    rewrite length_zip_with, Measure_length; lia).
  rewrite E. simpl length. lia.
Qed.

(** The columns of a table whose data is in the region. *)
Lemma Get_spec m reg n :
  let cb := Measure kNumColumns b in
  let t := Table reg n (0 :: column_offsets 0 cb) in
  bytes_ok m -> (kNumColumns <= 15)%nat -> size b * sum cb < 2 ^ 32 ->
  wf_region reg -> bit_size_ reg = size b * sum cb ->
  items_match m (abs_start reg) (concat (map (row_items cb) (rows_ b))) ->
  (forall c, (c < kNumColumns)%nat -> cb !! c = Some (NumColumnBits t c)) /\
  forall r row c v, rows_ b !! r = Some row -> row !! c = Some v ->
    Get kNumColumns m t (Z.of_nat r) c = v.
Proof using Hrows.
  intros cb t Hm Hk Hbits Hwf Hz Hi.
  pose proof Measure_bounds as Hb. pose proof Measure_length as Hl. fold cb in Hb, Hl.
  assert (forall c, (c <= kNumColumns)%nat -> default 0 (column_offset_ t !! c) = sum (take c cb)) as Hoff.
  { intros c Hc. unfold t. cbn [column_offset_]. rewrite column_offsets_lookup by (done || lia).
    simpl. lia. }
  pose proof (fun c => sum_take_bound cb 32 c Hb) as Hpre.
  pose proof (sum_bound cb 32 Hb) as Hsum. rewrite Hl in Hsum.
  assert (forall c w, cb !! c = Some w -> NumColumnBits t c = w /\ sum (take c cb) + w <= sum cb) as Hcol.
  { intros c w Hc. pose proof (lookup_lt_Some _ _ _ Hc). pose proof (Forall_lookup_1 _ _ _ _ Hb Hc) as Hw.
    simpl in Hw.    pose proof (Hpre (S c)) as H1. rewrite (sum_take_S _ _ w) in H1 by done.
    split; [|lia]. unfold NumColumnBits. rewrite !Hoff, (sum_take_S _ _ w) by (done || lia).
    rewrite uN_small by (unfold is_u; lia). lia. }
  split.
  - intros c Hc. destruct (lookup_lt_is_Some_2 cb c) as [w Hw]; [lia|].
    by destruct (Hcol c w Hw) as [-> _].
  - intros r row c v Hr Hv.
    assert (row ∈ rows_ b) as Hin by (by eapply list_elem_of_lookup_2).
    assert (length row = kNumColumns /\ Forall (is_u 32) row) as [Hlr Hvr] by (by eapply Forall_forall in Hrows).
    pose proof (lookup_lt_Some _ _ _ Hv). pose proof (lookup_lt_Some _ _ _ Hr).
    destruct (lookup_lt_is_Some_2 cb c) as [w Hw]; [lia|].
    destruct (Hcol c w Hw) as [Hnb Hend]. pose proof (Forall_lookup_1 _ _ _ _ Hb Hw) as Hw32. simpl in Hw32.
    pose proof (Forall_lookup_1 _ _ _ _ Hvr Hv) as Hv32.
    unfold Get. rewrite Hnb, Hoff by lia. unfold NumRowBits. rewrite Hoff by lia.
    rewrite (take_ge cb kNumColumns) by lia.
    assert (Z.of_nat r * sum cb + sum cb <= size b * sum cb) by (unfold size; nia).
    pose proof (Hpre c) as Hp.
    assert (0 <= Z.of_nat r * sum cb) by nia.
    rewrite (uN_small 32 (Z.of_nat r * sum cb)) by (unfold is_u; lia).
    rewrite (uN_small 32 (Z.of_nat r * sum cb + _)) by (unfold is_u; lia).
    rewrite (LoadBits_match 64 m reg _ w (u32 (v - kValueBias)));
      try (done || lia || (unfold width_ok; lia)).
    + unfold uN, kValueBias, kNoValue in *. rewrite Zplus_mod_idemp_l.
      replace (v - (2 ^ 32 - 1) + (2 ^ 32 - 1)) with v by lia. apply Z.mod_small. done.
    + by eapply Measure_fits.
    + eapply items_match_concat in Hi; [|apply Forall_map, Forall_forall; intros row' Hin'|by rewrite list_lookup_fmap, Hr].
      2:{ pose proof (row_items_bits row' kNumColumns Hin') as E.
          rewrite !take_ge in E by (rewrite ?Measure_length; try done; unfold row_items;
            rewrite length_zip_with, Measure_length; lia). exact E. }
      eapply items_match_lookup in Hi; [|by apply lookup_zip_Some; split; [unfold biased; rewrite list_lookup_fmap, Hv|]].
      rewrite row_items_bits in Hi by done. simpl in Hi. by rewrite Z.add_assoc.
Qed.

(** What the reader of a table finds. *)
Lemma Decode_spec m rd k :
  bytes_ok m -> (kNumColumns <= 15)%nat -> size b < 2 ^ 32 ->
  size b * sum (Measure kNumColumns b) < 2 ^ 32 -> 0 <= k ->
  wf_reader rd (items_bits table_items + k) -> items_match m (r_pos rd) table_items ->
  exists t rd', Decode kNumColumns m rd = (t, rd') /\
    num_rows_ t = size b /\ wf_reader rd' k /\ r_pos rd' = r_pos rd + items_bits table_items /\
    (forall c, (c < kNumColumns)%nat -> Measure kNumColumns b !! c = Some (NumColumnBits t c)) /\
    forall r row c v, rows_ b !! r = Some row -> row !! c = Some v ->
      Get kNumColumns m t (Z.of_nat r) c = v.
Proof using Hrows.
  intros Hm Hk Hsz Hbits Hk0 Hrd Hi. pose proof Measure_bounds as Hb. pose proof Measure_length as Hl.
  set (cb := Measure kNumColumns b) in *. set (header := u32 (size b) :: cb).
  unfold table_items in Hi, Hrd |- *. fold cb header in Hi, Hrd |- *.
  set (data := concat (map (row_items cb) (rows_ b))) in *.
  apply items_match_app in Hi as [Hi1 Hi2]. rewrite items_bits_app in *.
  assert (0 <= size b) by (unfold size; lia).
  assert (items_bits data = size b * sum cb) as Ed by apply data_items_bits.
  pose proof (sum_bound cb 32 Hb) as Hsum. rewrite Hl in Hsum.
  destruct (ReadInterleavedVarints_spec m header rd (items_bits data + k)) as (rd1 & E1 & Hrd1 & Hp1);
    try done; [apply header_ok|simpl; lia|nia|by rewrite Z.add_assoc|].
  unfold Decode. replace (1 + kNumColumns)%nat with (length header) by (simpl; lia).
  rewrite E1. change (header !! 0%nat) with (Some (u32 (size b))).
  change (drop 1 header) with cb. cbv beta iota zeta. cbn [default from_option id].
  pose proof (column_offsets_lookup 0 cb kNumColumns Hb ltac:(lia) ltac:(lia) ltac:(lia)) as Eo.
  rewrite take_ge in Eo by lia. rewrite Eo. cbn [default from_option id].
  assert (u32 (size b) = size b) as -> by (apply uN_small; unfold is_u; lia).
  rewrite Z.add_0_l, (uN_small 32) by (unfold is_u; nia).
  pose proof (ReadRegion_spec rd1 (size b * sum cb) k) as Hreg.
  destruct (ReadRegion rd1 (size b * sum cb)) as [reg rd2].
  destruct Hreg as (Hwf & Ha & Hz & Hrd2 & Hp2); [by rewrite <- Ed|nia|lia|].
  eexists _, rd2. split; [done|]. split; [done|]. split; [done|]. split; [lia|].
  apply Get_spec; try done. by rewrite Ha, Hp1.
Qed.
End table.

Section dedup_lemmas.
Context (equal_range : list (Z * Z) -> Z -> list Z).
Hypothesis equal_range_spec : forall d h, equal_range d h ≡ₚ (filter (fun p => p.1 = h) d).*2.

(** The multimap only names rows that exist. *)
Definition dedup_ok (b : BitTableBuilder) : Prop :=
  size b < 2 ^ 32 /\ Forall (fun p => 0 <= p.2 <= size b) (dedup_ b).

Definition found (rows values : list Entry) (index : Z) : Prop :=
  Z.of_nat (length values) <= Z.of_nat (length rows) - index /\
  take (length values) (drop (Z.to_nat index) rows) = values.

Lemma find_equal_sound rows values range index :
  Forall (fun i => 0 <= i <= Z.of_nat (length rows)) range -> Z.of_nat (length rows) < 2 ^ 32 ->
  find_equal rows values range = Some index -> found rows values index /\ index ∈ range.
Proof.
  intros Hr Hl. induction Hr as [|i range Hi Hr IH]; simpl; [done|]. intros H.
  destruct (_ && _) eqn:E.
  - injection H as <-. apply andb_true_iff in E as [E1 E2]. apply bool_decide_eq_true in E2.
    rewrite uN_small in E1 by (unfold is_u; lia). split; [split; [lia|done]|by left].
  - destruct (IH H). split; [done|by right].
Qed.

Lemma find_equal_complete rows values range index :
  index ∈ range -> 0 <= index <= Z.of_nat (length rows) -> Z.of_nat (length rows) < 2 ^ 32 ->
  found rows values index -> is_Some (find_equal rows values range).
Proof.
  intros Hin Hi Hl [H1 H2]. induction range as [|j range IH]; [by apply not_elem_of_nil in Hin|].
  simpl. destruct (_ && _) eqn:E; [by eexists|]. apply elem_of_cons in Hin as [->|Hin]; [|by apply IH].
  rewrite uN_small, (bool_decide_eq_true_2 _ H2), andb_true_r in E by (unfold is_u; lia). lia.
Qed.

Lemma equal_range_bounds b h :
  dedup_ok b -> Forall (fun i => 0 <= i <= Z.of_nat (length (rows_ b))) (equal_range (dedup_ b) h).
Proof using equal_range_spec.
  intros [_ Hd]. rewrite equal_range_spec. apply Forall_fmap.
  apply Forall_forall. intros p Hp. apply list_elem_of_filter in Hp as [_ Hp].
  eapply Forall_forall in Hd; [|done]. done.
Qed.
End dedup_lemmas.

(** ** Properties *)

(** C13: a table that is encoded at any bit position of a vector is decoded with the same number
    of rows, the measured column widths, and every value, [kNoValue] included; the reader ends
    where the writer does and no earlier bit changes.  The product of rows and row bits must fit
    in 32 bits, the width at which the code computes it. *)
Theorem BitTable_roundtrip (kNumColumns : nat) (b : BitTableBuilder) (out : BitMemoryWriter)
    (Hrows : Forall (fun row => length row = kNumColumns /\ Forall (is_u 32) row) (rows_ b))
    (Hk : (kNumColumns <= 15)%nat) (Hsz : size b < 2 ^ 32)
    (Hbits : size b * sum (Measure kNumColumns b) < 2 ^ 32)
    (Hw : wf_writer out) (Hroom : w_pos out < 2 ^ 61) :
  let out' := Encode kNumColumns b out in
  exists t rd',
    Decode kNumColumns (w_mem out') (MakeReaderAt (w_data out) (w_bit_offset out)) = (t, rd') /\
    NumRows t = size b /\
    (forall c, (c < kNumColumns)%nat -> Measure kNumColumns b !! c = Some (NumColumnBits t c)) /\
    (forall r row c v, rows_ b !! r = Some row -> row !! c = Some v ->
       Get kNumColumns (w_mem out') t (Z.of_nat r) c = v) /\
    wf_writer out' /\ r_pos rd' = w_pos out' /\
    forall j, j < w_pos out -> mbit (w_mem out') j = mbit (w_mem out) j.
Proof.
  cbv zeta. rewrite Encode_items. pose proof (table_items_ok kNumColumns b) as Hok.
  assert (0 <= items_bits (table_items kNumColumns b) < 2 ^ 60) as Hib.
  { split; [by apply items_bits_nonneg|]. unfold table_items.
    rewrite items_bits_app, (data_items_bits kNumColumns b Hrows).
    pose proof (varint_items_bound _ (header_ok kNumColumns b)) as H. simpl length in H.
    rewrite Measure_length in H. lia. }
  destruct (write_items_spec out (table_items kNumColumns b) Hw Hok) as [Ha Hi]; [lia|].
  pose proof (ww_data _ Hw). pose proof (ww_start _ Hw). unfold w_pos in Hroom.
  destruct (MakeReaderAt_spec (w_data out) (w_bit_offset out) (items_bits (table_items kNumColumns b)))
    as (Hr & Hp & _); [lia..|].
  destruct (Decode_spec kNumColumns b Hrows (w_mem (write_items out (table_items kNumColumns b)))
    (MakeReaderAt (w_data out) (w_bit_offset out)) 0) as (t & rd' & E & Hn & _ & Hp' & Hc & Hg);
    try done; [apply Ha|by rewrite Z.add_0_r|by rewrite Hp|].
  exists t, rd'. split_and!; try done; [apply Ha| |].
  - rewrite Hp', Hp. unfold w_pos. destruct Ha as [_ -> _ -> _]. lia.
  - intros j Hj. apply Ha. by left.
Qed.

Lemma BitTable_roundtrip_witness :
  let out' := Encode 2 (Builder [[1; kNoValue]; [70000; 5]] []) (MakeWriter (fun _ => 0) 10000 1 3) in
  exists t rd',
    Decode 2 (w_mem out') (MakeReaderAt 10000 3) = (t, rd') /\ NumRows t = 2 /\
    Get 2 (w_mem out') t 0 1 = kNoValue.
Proof.
  destruct (BitTable_roundtrip 2 (Builder [[1; kNoValue]; [70000; 5]] []) (MakeWriter (fun _ => 0) 10000 1 3))
    as (t & rd' & E & Hn & _ & Hg & _).
  - repeat constructor; unfold is_u, kNoValue; lia.
  - lia.
  - vm_compute. done.
  - vm_compute. done.
  - split; simpl; [intros ?; unfold is_u; lia|lia|lia|done].
  - vm_compute. done.
  - exists t, rd'. split_and!; [done|done|]. by apply (Hg 0%nat [1; kNoValue] 1%nat).
Defined.

(** [Dedup] returns the index of a run of rows equal to the given values, only ever appends
    to the rows, and a second call with the same values changes nothing, whatever the order in
    which the multimap lists the rows of a hash. *)
Theorem Dedup_correct (equal_range : list (Z * Z) -> Z -> list Z)
    (equal_range_spec : forall d h, equal_range d h ≡ₚ (filter (fun p => p.1 = h) d).*2)
    (b b' : BitTableBuilder) (values : list Entry) (index : Z)
    (Hok : dedup_ok b) (Hsz : size b + Z.of_nat (length values) < 2 ^ 32)
    (HD : Dedup equal_range b values = (index, b')) :
  0 <= index /\ take (length values) (drop (Z.to_nat index) (rows_ b')) = values /\
  rows_ b `prefix_of` rows_ b' /\ dedup_ok b' /\
  exists index', Dedup equal_range b' values = (index', b').
Proof.
  pose proof (equal_range_bounds equal_range equal_range_spec b (hash_entries values) Hok) as Hr.
  destruct Hok as [Hlt Hd]. unfold Dedup in HD.
  destruct (find_equal _ _ _) as [i|] eqn:E; injection HD as <- <-.
  - destruct (find_equal_sound _ _ _ _ Hr Hlt E) as [[H1 H2] Hin].
    eapply Forall_forall in Hr; [|done]. simpl in Hr.
    split_and!; [lia|done|done|done|]. exists i. unfold Dedup. by rewrite E.
  - assert (u32 (size b) = size b) as Es by (apply uN_small; unfold is_u, size in *; lia). rewrite Es.
    set (b' := Builder (rows_ b ++ values) (dedup_ b ++ [(hash_entries values, size b)])).
    assert (dedup_ok b') as Hok'.
    { split; unfold size in *; simpl; rewrite length_app; [lia|].
      apply Forall_app. split; [|apply Forall_singleton; simpl; lia].
      eapply Forall_impl; [done|]. simpl. lia. }
    assert (found (rows_ b') values (size b)) as Hf.
    { unfold found, size, b'. simpl. rewrite length_app, Nat2Z.id, drop_app_length. split; [lia|].
      by apply take_ge. }
    destruct (find_equal_complete (rows_ b') values (equal_range (dedup_ b') (hash_entries values)) (size b))
      as [i' Ei]; [|unfold size; simpl; rewrite length_app; lia|destruct Hok' as [Hl _]; exact Hl|done|].
    { rewrite equal_range_spec. unfold b'. simpl. rewrite filter_app, fmap_app.
      apply elem_of_app. right. rewrite filter_cons_True by done. by left. }
    split_and!; [unfold size; lia|apply Hf|by eexists|done|].
    exists i'. unfold Dedup. by rewrite Ei.
Qed.

