(* ===== verification/BitVector.v ===== *)
(** Expanding bitmaps: libartbase/base/bit_vector.h, bit_vector-inl.h and bit_vector.cc.

    The storage is the list of its 32-bit words.  An access to a word that does not exist makes
    the operation return [None], and so does the growth of a vector that is not expandable; the theorems show
    that only the latter happens. *)
From S2P Require Import Prelude BitUtils.

Definition kWordBits : Z := 32.

Record BitVector := BV { storage_ : list Z; expandable_ : bool }.

Definition storage_size_ (v : BitVector) : Z := Z.of_nat (length (storage_ v)).

Definition with_storage (v : BitVector) (storage : list Z) : BitVector := BV storage (expandable_ v).

Definition BitsToWords (bits : Z) : Z := RoundUp 32 bits kWordBits / kWordBits.

Definition WordIndex (idx : Z) : Z := idx ≫ 5.
Definition BitMask (idx : Z) : Z := u32 (1 ≪ (idx .& 0x1f)).

(** ** Construction *)

Definition ClearAllBits (v : BitVector) : BitVector :=
  with_storage v (replicate (length (storage_ v)) 0).

Definition MakeBitVector (start_bits : Z) (expandable : bool) : BitVector :=
  ClearAllBits (BV (replicate (Z.to_nat (BitsToWords start_bits)) 0) expandable).

(** The vector must be expandable if it grows. *)
Definition EnsureSize (v : BitVector) (idx : Z) : option BitVector :=
  if u32 (storage_size_ v * kWordBits) <=? idx then
    if negb (expandable_ v) then None
    else
      let new_size := BitsToWords (u32 (idx + 1)) in
      Some (with_storage v (storage_ v ++ replicate (Z.to_nat (new_size - storage_size_ v)) 0))
  else Some v.

(** ** Single bits *)

Definition modify_word (v : BitVector) (i : Z) (f : Z -> Z) : option BitVector :=
  w ← storage_ v !! Z.to_nat i; Some (with_storage v (<[Z.to_nat i := f w]> (storage_ v))).

Definition SetBit (v : BitVector) (idx : Z) : option BitVector :=
  v ← (if u32 (storage_size_ v * kWordBits) <=? idx then EnsureSize v idx else Some v);
  modify_word v (WordIndex idx) (fun w => w .| BitMask idx).

Definition ClearBit (v : BitVector) (idx : Z) : option BitVector :=
  if idx <? u32 (storage_size_ v * kWordBits) then
    modify_word v (WordIndex idx) (fun w => w .& u32 (.~ BitMask idx))
  else Some v.

Definition IsBitSetRaw (storage : list Z) (idx : Z) : option bool :=
  w ← storage !! Z.to_nat (WordIndex idx); Some (negb (w .& BitMask idx =? 0)).

Definition IsBitSet (v : BitVector) (idx : Z) : option bool :=
  if idx <? u32 (storage_size_ v * kWordBits) then IsBitSetRaw (storage_ v) idx else Some false.

(** ** Highest bit, counting *)

Fixpoint highest_from (storage : list Z) (n : nat) : Z :=
  match n with
  | O => -1
  | S idx =>
      let value := default 0 (storage !! idx) in
      if negb (value =? 0) then s32 (u32 (31 - CLZ 32 value + Z.of_nat idx * kWordBits))
      else highest_from storage idx
  end.

Definition GetHighestBitSet (v : BitVector) : Z := highest_from (storage_ v) (length (storage_ v)).

Definition IsAnyBitSet (v : BitVector) : bool := negb (GetHighestBitSet v =? -1).
Definition GetNumberOfBits (v : BitVector) : Z := GetHighestBitSet v + 1.

Definition NumSetBits (v : BitVector) : Z :=
  foldl (fun count w => u32 (count + POPCOUNT w)) 0 (storage_ v).

Definition NumSetBitsRange (storage : list Z) (end_ : Z) : option Z :=
  let word_end := WordIndex end_ in
  let partial_word_bits := end_ .& 0x1f in
  count ← for_loop 0 (Z.to_nat word_end)
            (fun word count => w ← storage !! word; Some (u32 (count + POPCOUNT w))) 0;
  if negb (partial_word_bits =? 0) then
    w ← storage !! Z.to_nat word_end;
    Some (u32 (count + POPCOUNT (w .& u32 (.~ u32 (0xffffffff ≪ partial_word_bits)))))
  else Some count.

(** ** Comparisons *)

Definition words_equal (a b : list Z) (n : nat) : option bool :=
  if (Z.of_nat n <=? Z.of_nat (length a)) && (Z.of_nat n <=? Z.of_nat (length b))
  then Some (bool_decide (take n a = take n b)) else None.

Definition SameBitsSet (v src : BitVector) : option bool :=
  let our_highest := GetHighestBitSet v in
  let src_highest := GetHighestBitSet src in
  if negb (our_highest =? src_highest) then Some false
  else if our_highest <=? 0 then Some true
  else
    let our_highest_index := BitsToWords our_highest in
    words_equal (storage_ v) (storage_ src) (Z.to_nat our_highest_index).

Fixpoint subset_words (a b : list Z) (i n : nat) : option bool :=
  match n with
  | O => Some true
  | S n =>
      this_storage ← a !! i; other_storage ← b !! i;
      if negb ((this_storage .| other_storage) =? other_storage) then Some false
      else subset_words a b (S i) n
  end.

Definition IsSubsetOf (v other : BitVector) : option bool :=
  let this_highest := GetHighestBitSet v in
  let other_highest := GetHighestBitSet other in
  if this_highest <? 0 then Some true
  else if other_highest <? this_highest then Some false
  else subset_words (storage_ v) (storage_ other) 0 (Z.to_nat (BitsToWords (this_highest + 1))).

Definition Equal (v src : BitVector) : option bool :=
  if (storage_size_ v =? storage_size_ src) && eqb (expandable_ v) (expandable_ src)
  then words_equal (storage_ v) (storage_ src) (length (storage_ v)) else Some false.

(** ** Bulk operations *)

Definition SetInitialBits (v : BitVector) (num_bits : Z) : option BitVector :=
  if num_bits =? 0 then Some (ClearAllBits v)
  else
    v ← SetBit v (num_bits - 1);
    let full := Z.to_nat (WordIndex num_bits) in
    st ← for_loop 0 full
           (fun idx st => _ ← st !! idx; Some (<[idx := 2 ^ 32 - 1]> st)) (storage_ v);
    let rem_num_bits := num_bits .& 0x1f in
    '(st, idx) ←
      if negb (rem_num_bits =? 0) then
        _ ← st !! full; Some (<[full := u32 (1 ≪ rem_num_bits) - 1]> st, S full)
      else Some (st, full);
    st ← for_loop idx (length st - idx) (fun idx st => Some (<[idx := 0]> st)) st;
    Some (with_storage v st).

Definition Copy (v src : BitVector) : option BitVector :=
  let highest_bit := GetHighestBitSet src in
  if highest_bit =? -1 then Some (ClearAllBits v)
  else
    v ← SetBit v highest_bit;
    let size := Z.to_nat (1 + highest_bit / kWordBits) in
    if (size <=? length (storage_ v))%nat && (size <=? length (storage_ src))%nat then
      let left := (length (storage_ v) - size)%nat in
      Some (with_storage v (take size (storage_ src) ++ replicate left 0))
    else None.

Definition Intersect (v src : BitVector) : option BitVector :=
  let min_size := Nat.min (length (storage_ v)) (length (storage_ src)) in
  st ← for_loop 0 min_size
         (fun idx st => w ← st !! idx; s ← storage_ src !! idx; Some (<[idx := w .& s]> st))
         (storage_ v);
  st ← for_loop min_size (length st - min_size) (fun idx st => Some (<[idx := 0]> st)) st;
  Some (with_storage v st).

(** One word of a union; [changed] records whether the word is different. *)
Definition update_word (f : Z -> option Z) (idx : nat) (s : list Z * bool) : option (list Z * bool) :=
  let '(st, changed) := s in
  existing ← st !! idx;
  update ← f existing;
  if negb (existing =? update) then Some (<[idx := update]> st, true) else Some (st, changed).

Definition Union (v src : BitVector) : option (bool * BitVector) :=
  let highest_bit := GetHighestBitSet src in
  if highest_bit =? -1 then Some (false, v)
  else
    let src_size := BitsToWords (highest_bit + 1) in
    '(changed, v) ←
      (if storage_size_ v <? src_size then v ← EnsureSize v highest_bit; Some (true, v) else Some (false, v));
    '(st, changed) ←
      for_loop 0 (Z.to_nat src_size)
        (fun idx => update_word (fun existing => s ← storage_ src !! idx; Some (existing .| s)) idx)
        (storage_ v, changed);
    Some (changed, with_storage v st).

Definition UnionIfNotIn (v union_with not_in : BitVector) : option (bool * BitVector) :=
  let highest_bit := GetHighestBitSet union_with in
  if highest_bit =? -1 then Some (false, v)
  else
    let union_with_size := Z.to_nat (BitsToWords (highest_bit + 1)) in
    v ← (if storage_size_ v <? Z.of_nat union_with_size then EnsureSize v highest_bit else Some v);
    let min_size := Nat.min (length (storage_ not_in)) union_with_size in
    s ← for_loop 0 min_size
      (fun idx => update_word (fun existing =>
         u ← storage_ union_with !! idx; n ← storage_ not_in !! idx;
         Some (existing .| (u .& u32 (.~ n)))) idx)
      (storage_ v, false);
    '(st, changed) ← for_loop min_size (union_with_size - min_size)
      (fun idx => update_word (fun existing =>
         u ← storage_ union_with !! idx; Some (existing .| u)) idx) s;
    Some (changed, with_storage v st).

Definition Subtract (v src : BitVector) : option BitVector :=
  let min_size := Nat.min (length (storage_ v)) (length (storage_ src)) in
  st ← for_loop 0 min_size
         (fun idx st => w ← st !! idx; s ← storage_ src !! idx; Some (<[idx := w .& u32 (.~ s)]> st))
         (storage_ v);
  Some (with_storage v st).

(** ** Iteration over the set bits *)

Definition BitSize (storage : list Z) : Z := u32 (Z.of_nat (length storage) * kWordBits).

Fixpoint find_word (storage : list Z) (fuel : nat) (word word_index : Z) : option Z :=
  if word =? 0 then
    let word_index := word_index + 1 in
    if word_index =? Z.of_nat (length storage) then Some (BitSize storage)
    else match fuel with
         | O => None
         | S fuel => word ← storage !! Z.to_nat word_index; find_word storage fuel word word_index
         end
  else Some (u32 (word_index * 32 + CTZ word)).

Definition FindIndex (storage : list Z) (start_index : Z) : option Z :=
  let word_index := start_index / kWordBits in
  if word_index =? Z.of_nat (length storage) then Some start_index
  else
    word ← storage !! Z.to_nat word_index;
    let word := word .& u32 ((2 ^ 32 - 1) ≪ (start_index .& 0x1f)) in
    find_word storage (length storage) word word_index.

(** The loop [for (uint32_t idx : bit_vector.Indexes())]. *)
Fixpoint indexes_from (storage : list Z) (fuel : nat) (bit_index : Z) : option (list Z) :=
  if bit_index =? BitSize storage then Some []
  else match fuel with
       | O => None
       | S fuel =>
           next ← FindIndex storage (u32 (bit_index + 1));
           rest ← indexes_from storage fuel next;
           Some (bit_index :: rest)
       end.

Definition Indexes (v : BitVector) : option (list Z) :=
  first ← FindIndex (storage_ v) 0;
  indexes_from (storage_ v) (length (storage_ v) * 32) first.

(** ** Copying out *)

Definition word_bytes (w : Z) : list Z := [uN 8 w; uN 8 (w ≫ 8); uN 8 (w ≫ 16); uN 8 (w ≫ 24)].

(** The bytes written at [dst]. *)
Definition CopyTo (v : BitVector) (len : nat) : list Z :=
  let bytes := concat (map word_bytes (storage_ v)) in
  let vec_len := (length (storage_ v) * 4)%nat in
  if (vec_len <? len)%nat then bytes ++ replicate (len - vec_len) 0 else take len bytes.

(** ** Arrays of bit vectors packed into one *)

Record BitVectorArray := BVA { num_columns_ : Z; num_rows_ : Z; raw_data : BitVector }.

Definition MakeArray (num_rows num_columns : Z) (bv : BitVector) : BitVectorArray :=
  BVA (RoundUp 64 num_columns kWordBits) num_rows bv.

Definition RequiredBitVectorSize (rows cols : Z) : Z := u64 (rows * RoundUp 64 cols kWordBits).

Definition MaxRowsFor (bv : BitVector) (cols : Z) : Z :=
  if negb (cols =? 0) then u32 (storage_size_ bv * kWordBits) / RoundUp 64 cols kWordBits else 0.

Definition with_raw (a : BitVectorArray) (bv : BitVector) : BitVectorArray :=
  BVA (num_columns_ a) (num_rows_ a) bv.

Definition array_index (a : BitVectorArray) (row col : Z) : Z := u32 (row * num_columns_ a + col).

Definition ArraySetBit (a : BitVectorArray) (row col : Z) : option BitVectorArray :=
  bv ← SetBit (raw_data a) (array_index a row col); Some (with_raw a bv).

Definition ArrayClearBit (a : BitVectorArray) (row col : Z) : option BitVectorArray :=
  bv ← ClearBit (raw_data a) (array_index a row col); Some (with_raw a bv).

Definition ArrayIsBitSet (a : BitVectorArray) (row col : Z) : option bool :=
  IsBitSet (raw_data a) (array_index a row col).

Definition ArrayClear (a : BitVectorArray) : BitVectorArray := with_raw a (ClearAllBits (raw_data a)).

Definition ArrayResize (a : BitVectorArray) (rows cols : Z) (clear : bool) : option BitVectorArray :=
  if negb (expandable_ (raw_data a)) then None
  else
    let a := if clear then ArrayClear a else a in
    let cols := RoundUp 64 cols kWordBits in
    let last := u32 (rows * cols - 1) in
    bv ← SetBit (raw_data a) last;
    bv ← ClearBit bv last;
    Some (BVA cols rows bv).

(** Both rows are in the same storage. *)
Definition UnionRows (a : BitVectorArray) (dest_row other : Z) : option BitVectorArray :=
  let block_words := Z.to_nat (num_columns_ a / kWordBits) in
  let dest := Z.to_nat ((dest_row * num_columns_ a) / kWordBits) in
  let source := Z.to_nat ((other * num_columns_ a) / kWordBits) in
  st ← for_loop 0 block_words
         (fun i st => d ← st !! (dest + i)%nat; s ← st !! (source + i)%nat;
                      Some (<[(dest + i)%nat := d .| s]> st))
         (storage_ (raw_data a));
  Some (with_raw a (with_storage (raw_data a) st)).

(** ** Lemmas *)

(** The set a storage stands for. *)
Definition vbit (st : list Z) (i : Z) : bool :=
  Z.testbit (default 0 (st !! Z.to_nat (i / 32))) (i mod 32).

Definition wf_words (st : list Z) : Prop := Forall (is_u 32) st /\ 32 * Z.of_nat (length st) <= 2 ^ 31.

Definition wf (v : BitVector) : Prop := wf_words (storage_ v).

Lemma word_is_u st j : Forall (is_u 32) st -> is_u 32 (default 0 (st !! j)).
Proof.
  intros H. destruct (st !! j) as [w|] eqn:E; simpl; [by eapply Forall_lookup_1 in H|unfold is_u; lia].
Qed.

Lemma split_index i : 0 <= i -> i = 32 * (i / 32) + i mod 32 /\ 0 <= i mod 32 < 32 /\ 0 <= i / 32.
Proof.
  intros Hi. pose proof (Z.div_mod i 32 ltac:(lia)). pose proof (Z.mod_pos_bound i 32 ltac:(lia)).
  pose proof (Z.div_pos i 32 ltac:(lia) ltac:(lia)). lia.
Qed.

Lemma vbit_word st j k :
  0 <= k < 32 -> vbit st (32 * Z.of_nat j + k) = Z.testbit (default 0 (st !! j)) k.
Proof.
  intros Hk. unfold vbit.
  replace ((32 * Z.of_nat j + k) / 32) with (Z.of_nat j) by (apply (Z.div_unique _ _ _ k); lia).
  replace ((32 * Z.of_nat j + k) mod 32) with k by (apply (Z.mod_unique _ _ (Z.of_nat j)); lia).
  by rewrite Nat2Z.id.
Qed.

Lemma vbit_beyond st i : 32 * Z.of_nat (length st) <= i -> vbit st i = false.
Proof.
  intros Hi. destruct (split_index i) as (E & Hm & Hd); [lia|]. unfold vbit.
  rewrite lookup_ge_None_2 by lia. apply Z.testbit_0_l.
Qed.

(** Storages with the same bits have the same words. *)
Lemma vbit_words_eq st st' j :
  Forall (is_u 32) st -> Forall (is_u 32) st' ->
  (forall k, 0 <= k < 32 -> vbit st (32 * Z.of_nat j + k) = vbit st' (32 * Z.of_nat j + k)) ->
  default 0 (st !! j) = default 0 (st' !! j).
Proof.
  intros H H' E. apply Z.bits_inj'. intros k Hk. destruct (decide (k < 32)).
  - rewrite <- !vbit_word by lia. apply E. lia.
  - by rewrite !(testbit_high 32) by (apply word_is_u || lia; done).
Qed.

Lemma WordIndex_val i : WordIndex i = i / 32.
Proof. unfold WordIndex. by rewrite Z.shiftr_div_pow2. Qed.

Lemma land_1f i : i .& 0x1f = i mod 32.
Proof. change 0x1f with (Z.ones 5). by rewrite Z.land_ones. Qed.

Lemma BitMask_val i : BitMask i = 2 ^ (i mod 32).
Proof.
  unfold BitMask. rewrite land_1f. pose proof (Z.mod_pos_bound i 32 ltac:(lia)).
  rewrite Z.shiftl_1_l. apply uN_small. unfold is_u.
  pose proof (pow2_pos (i mod 32)). pose proof (pow2_lt (i mod 32) 32). lia.
Qed.

Lemma BitsToWords_val n : 0 <= n -> n + 31 < 2 ^ 32 -> BitsToWords n = (n + 31) / 32.
Proof.
  intros Hn Hov. unfold BitsToWords, kWordBits. change (RoundUp 32 n 32) with (RoundUp 32 n (2 ^ 5)).
  rewrite RoundUp_val by lia. change (2 ^ 5) with 32. rewrite Z.div_mul by lia. f_equal. lia.
Qed.

(** A pass over the words [start], ..., [start + n - 1] that replaces each one. *)
Lemma update_loop start n (f : nat -> list Z -> option (list Z)) (g : nat -> Z -> Z) st :
  (start + n <= length st)%nat ->
  (forall i st' w, (start <= i < start + n)%nat -> st' !! i = Some w -> st !! i = Some w ->
     f i st' = Some (<[i := g i w]> st')) ->
  exists st', for_loop start n f st = Some st' /\ length st' = length st /\
    forall j, st' !! j = if decide (start <= j < start + n)%nat then g j <$> st !! j else st !! j.
Proof.
  intros Hl Hf.
  destruct (for_loop_rule (fun i st' => length st' = length st /\
    forall j, st' !! j = if decide (start <= j < i)%nat then g j <$> st !! j else st !! j)
    start n f st) as (st' & E & H); [| |by exists st'].
  - split; [done|]. intros j. by rewrite decide_False by lia.
  - intros i st' Hi [Hlen Hst]. destruct (lookup_lt_is_Some_2 st i) as [w Hw]; [lia|].
    assert (st' !! i = Some w) as Hw' by (rewrite Hst, decide_False by lia; done).
    exists (<[i := g i w]> st'). split; [by apply Hf|]. rewrite length_insert. split; [done|].
    intros j. destruct (decide (j = i)) as [->|Hne].
    + rewrite list_lookup_insert_eq by lia. by rewrite decide_True, Hw by lia.
    + rewrite list_lookup_insert_ne by done. rewrite Hst.
      repeat case_decide; (done || lia).
Qed.

(** The same for the passes that report a change. *)
Lemma update_word_loop start n (h : nat -> Z -> option Z) (g : nat -> Z -> Z) st ch :
  (start + n <= length st)%nat ->
  (forall i w, (start <= i < start + n)%nat -> st !! i = Some w -> h i w = Some (g i w)) ->
  exists st' ch', for_loop start n (fun i => update_word (h i) i) (st, ch) = Some (st', ch') /\
    length st' = length st /\
    (forall j, st' !! j = if decide (start <= j < start + n)%nat then g j <$> st !! j else st !! j) /\
    (ch' = true <-> ch = true \/ exists j w, (start <= j < start + n)%nat /\ st !! j = Some w /\ g j w <> w).
Proof.
  intros Hl Hh.
  destruct (for_loop_rule (fun i s => length s.1 = length st /\
    (forall j, s.1 !! j = if decide (start <= j < i)%nat then g j <$> st !! j else st !! j) /\
    (s.2 = true <-> ch = true \/ exists j w, (start <= j < i)%nat /\ st !! j = Some w /\ g j w <> w))
    start n (fun i => update_word (h i) i) (st, ch)) as ([st' ch'] & E & H); [| |by exists st', ch'].
  - split_and!; [done| |].
    + intros j. by rewrite decide_False by lia.
    + simpl. split; [by left|]. intros [?|(j & w & Hj & _)]; [done|lia].
  - intros i [st' ch'] Hi (Hlen & Hst & Hch). simpl in *.
    destruct (lookup_lt_is_Some_2 st i) as [w Hw]; [lia|].
    assert (st' !! i = Some w) as Hw' by (rewrite Hst, decide_False by lia; done).
    unfold update_word. rewrite Hw'. cbn [mbind option_bind]. rewrite (Hh i w) by done. cbn [mbind option_bind].
    destruct (Z.eqb_spec w (g i w)) as [Eq|Hne]; cbn [negb].
    + exists (st', ch'). split; [done|]. simpl. split_and!; [done| |].
      * intros j. rewrite Hst. destruct (decide (j = i)) as [->|]; repeat case_decide; try (done || lia).
        rewrite Hw. simpl. by rewrite <- Eq.
      * rewrite Hch. split; (intros [?|(j & w' & Hj & Hw1 & Hw2)]; [by left|right; exists j, w'; split; [|done]]).
        -- lia.
        -- destruct (decide (j = i)) as [->|]; [congruence|lia].
    + exists (<[i := g i w]> st', true). split; [done|]. simpl. rewrite length_insert. split_and!; [done| |].
      * intros j. destruct (decide (j = i)) as [->|].
        -- rewrite list_lookup_insert_eq by lia. by rewrite decide_True, Hw by lia.
        -- rewrite list_lookup_insert_ne by done. rewrite Hst. repeat case_decide; (done || lia).
      * split; [intros _|done]. right. exists i, w. split; [lia|]. split; [done|congruence].
Qed.

(** The bits after such a pass. *)
Lemma updated_vbit start n (g : nat -> Z -> Z) st st' i :
  (start + n <= length st)%nat ->
  (forall j, st' !! j = if decide (start <= j < start + n)%nat then g j <$> st !! j else st !! j) ->
  0 <= i ->
  let j := Z.to_nat (i / 32) in
  vbit st' i = if decide (start <= j < start + n)%nat
               then Z.testbit (g j (default 0 (st !! j))) (i mod 32) else vbit st i.
Proof.
  intros Hl H Hi j. unfold vbit. fold j. rewrite H. case_decide; [|done].
  destruct (lookup_lt_is_Some_2 st j) as [w ->]; [lia|]. done.
Qed.

Definition bits (v : BitVector) (i : Z) : bool := vbit (storage_ v) i.

Lemma size_small v : wf v -> u32 (storage_size_ v * kWordBits) = 32 * Z.of_nat (length (storage_ v)).
Proof.
  intros [_ H]. unfold storage_size_, kWordBits. rewrite uN_small by (unfold is_u; lia). lia.
Qed.

Lemma vbit_app_zeros st n i : 0 <= i -> vbit (st ++ replicate n 0) i = vbit st i.
Proof.
  intros Hi. unfold vbit. destruct (split_index i Hi) as (E & Hm & Hd).
  destruct (decide (Z.to_nat (i / 32) < length st)%nat).
  - by rewrite lookup_app_l by lia.
  - rewrite lookup_app_r by lia. rewrite (lookup_ge_None_2 st) by lia.
    destruct (replicate n 0 !! _) eqn:E0; [|done]. apply lookup_replicate in E0 as [-> _]. done.
Qed.

(** A well-formed vector that can grow. *)
Definition growable (v : BitVector) : Prop := wf v /\ expandable_ v = true.

(** The vector has room for the bit [idx], or can grow. *)
Definition can_hold (v : BitVector) (idx : Z) : Prop := expandable_ v = true \/ idx < 32 * Z.of_nat (length (storage_ v)).

#[global] Instance can_hold_dec v idx : Decision (can_hold v idx).
Proof. apply _. Defined.

Lemma EnsureSize_spec v idx :
  wf v -> 0 <= idx < 2 ^ 31 ->
  if decide (can_hold v idx) then
    exists v', EnsureSize v idx = Some v' /\ wf v' /\ (forall i, 0 <= i -> bits v' i = bits v i) /\
      idx < 32 * Z.of_nat (length (storage_ v')) /\ (length (storage_ v) <= length (storage_ v'))%nat /\
      expandable_ v' = expandable_ v
  else EnsureSize v idx = None.
Proof.
  intros Hwf Hidx. unfold EnsureSize. rewrite size_small by done.
  destruct (Z.leb_spec (32 * Z.of_nat (length (storage_ v))) idx) as [Hle|];
    [|rewrite decide_True by (right; lia); exists v; split_and!; (done || lia)].
  case_decide as Hc; [|destruct (expandable_ v) eqn:Hex; [destruct Hc; by left|done]].
  assert (expandable_ v = true) as Hex by (destruct Hc; [done|lia]). rewrite Hex. eexists. split; [done|].
  rewrite (uN_small 32 (idx + 1)), BitsToWords_val by (unfold is_u; lia).
  destruct Hwf as [Hw Hs]. unfold wf, wf_words, bits, storage_size_. simpl.
  rewrite length_app, length_replicate. split_and!; [| | | |lia|by rewrite Hex].
  - apply Forall_app. split; [done|]. apply Forall_replicate. unfold is_u; lia.
  - Z.div_mod_to_equations. lia.
  - intros i Hi. by apply vbit_app_zeros.
  - Z.div_mod_to_equations. lia.
Qed.

Lemma modify_word_spec v i f :
  wf v -> 0 <= i < 32 * Z.of_nat (length (storage_ v)) -> (forall w, is_u 32 w -> is_u 32 (f w)) ->
  exists v', modify_word v (WordIndex i) f = Some v' /\ wf v' /\ expandable_ v' = expandable_ v /\
    length (storage_ v') = length (storage_ v) /\
    forall j, 0 <= j -> bits v' j =
      if j / 32 =? i / 32 then Z.testbit (f (default 0 (storage_ v !! Z.to_nat (i / 32)))) (j mod 32) else bits v j.
Proof.
  intros [Hw Hs] Hi Hf. unfold modify_word. rewrite WordIndex_val.
  destruct (split_index i) as (E & Hm & Hd); [lia|].
  destruct (lookup_lt_is_Some_2 (storage_ v) (Z.to_nat (i / 32))) as [w Ew]; [lia|].
  rewrite Ew. cbn [mbind option_bind]. eexists. split; [done|].
  split_and!; [|done|by simpl; rewrite length_insert|].
  - split; simpl; [|by rewrite length_insert]. apply Forall_insert; [done|].
    apply Hf. by eapply Forall_lookup_1 in Hw.
  - intros j Hj. destruct (split_index j Hj) as (E' & Hm' & Hd').
    unfold bits, vbit. simpl. destruct (Z.eqb_spec (j / 32) (i / 32)) as [->|Hne].
    + by rewrite list_lookup_insert_eq by lia.
    + by rewrite list_lookup_insert_ne by lia.
Qed.

Lemma pow2_testbit_ne a b : 0 <= a -> 0 <= b -> Z.testbit (2 ^ a) b = (a =? b).
Proof. intros. by rewrite Z.pow2_bits_eqb by lia. Qed.

Lemma is_u_BitMask idx : is_u 32 (BitMask idx).
Proof. unfold BitMask. apply uN_is_u. lia. Qed.

Lemma SetBit_grown v idx : SetBit v idx = v ← EnsureSize v idx; modify_word v (WordIndex idx) (fun w => w .| BitMask idx).
Proof. unfold SetBit, EnsureSize. by destruct (_ <=? idx). Qed.

Lemma SetBit_None v idx : wf v -> 0 <= idx < 2 ^ 31 -> ~ can_hold v idx -> SetBit v idx = None.
Proof. intros Hwf Hidx Hn. rewrite SetBit_grown. pose proof (EnsureSize_spec v idx Hwf Hidx) as H. rewrite decide_False in H by done. by rewrite H. Qed.

Lemma SetBit_spec v idx :
  wf v -> 0 <= idx < 2 ^ 31 -> can_hold v idx ->
  exists v', SetBit v idx = Some v' /\ wf v' /\ expandable_ v' = expandable_ v /\
    idx < 32 * Z.of_nat (length (storage_ v')) /\ (length (storage_ v) <= length (storage_ v'))%nat /\
    forall i, 0 <= i -> bits v' i = (i =? idx) || bits v i.
Proof.
  intros Hwf Hidx Hc. rewrite SetBit_grown. pose proof (EnsureSize_spec v idx Hwf Hidx) as H. rewrite decide_True in H by done.
  destruct H as (v1 & -> & H1 & H2 & H3 & H4 & H5). cbn [mbind option_bind].
  destruct (modify_word_spec v1 idx (fun w => w .| BitMask idx)) as (v' & E & Hwf' & He & Hl & Hb); [done|lia| |].
  { intros w Hw. apply lor_is_u; [lia|done|apply is_u_BitMask]. }
  exists v'. split_and!; [done|done|congruence|lia|lia|]. intros i Hi. rewrite Hb, <- H2 by done.
  destruct (split_index i Hi) as (Ei & Hm & _). destruct (split_index idx) as (Ej & Hm' & _); [lia|].
  destruct (Z.eqb_spec (i / 32) (idx / 32)) as [Eq|Hne].
  - rewrite Z.lor_spec, BitMask_val, pow2_testbit_ne, orb_comm by lia. unfold bits, vbit. rewrite Eq.
    f_equal. repeat case_ltb; lia.
  - destruct (Z.eqb_spec i idx); [subst; lia|done].
Qed.

Lemma ClearBit_spec v idx :
  wf v -> 0 <= idx ->
  exists v', ClearBit v idx = Some v' /\ wf v' /\ expandable_ v' = expandable_ v /\
    length (storage_ v') = length (storage_ v) /\
    forall i, 0 <= i -> bits v' i = negb (i =? idx) && bits v i.
Proof.
  intros Hwf Hidx. unfold ClearBit. rewrite size_small by done.
  destruct (Z.ltb_spec idx (32 * Z.of_nat (length (storage_ v)))) as [Hlt|Hge].
  - destruct (modify_word_spec v idx (fun w => w .& u32 (.~ BitMask idx))) as (v' & E & Hwf' & He & Hl & Hb); [done|lia| |].
    { intros w Hw. apply land_is_u; [lia|done]. }
    exists v'. split_and!; [done|done|done|done|]. intros i Hi. rewrite Hb by done.
    destruct (split_index i Hi) as (Ei & Hm & _). destruct (split_index idx) as (Ej & Hm' & _); [lia|].
    destruct (Z.eqb_spec (i / 32) (idx / 32)) as [Eq|Hne].
    + rewrite Z.land_spec, uN_testbit, Z.lnot_spec, BitMask_val, pow2_testbit_ne, andb_comm by lia.
      unfold bits, vbit. rewrite Eq. f_equal. repeat case_ltb; cbn; (done || lia).
    + destruct (Z.eqb_spec i idx); [subst; lia|done].
  - exists v. split_and!; try done. intros i Hi. destruct (Z.eqb_spec i idx) as [->|]; [|done].
    by apply vbit_beyond.
Qed.

Lemma IsBitSet_spec v idx : wf v -> 0 <= idx -> IsBitSet v idx = Some (bits v idx).
Proof.
  intros Hwf Hidx. unfold IsBitSet. rewrite size_small by done. case_ltb.
  - unfold IsBitSetRaw. rewrite WordIndex_val. destruct (split_index idx Hidx) as (E & Hm & Hd).
    destruct (lookup_lt_is_Some_2 (storage_ v) (Z.to_nat (idx / 32))) as [w Ew]; [lia|].
    unfold bits, vbit. rewrite Ew. simpl. f_equal. rewrite BitMask_val.
    destruct (Z.testbit w (idx mod 32)) eqn:Et.
    + apply negb_true_iff, Z.eqb_neq. intros E0.
      assert (Z.testbit (w .& 2 ^ (idx mod 32)) (idx mod 32) = true) as H1
        by (rewrite Z.land_spec, Et, Z.pow2_bits_true by lia; done).
      by rewrite E0, Z.testbit_0_l in H1.
    + apply negb_false_iff, Z.eqb_eq, Z.bits_inj'. intros k Hk.
      rewrite Z.land_spec, pow2_testbit_ne, Z.testbit_0_l by lia.
      destruct (Z.eqb_spec (idx mod 32) k) as [<-|]; [by rewrite Et|by rewrite andb_false_r].
  - f_equal. symmetry. by apply vbit_beyond.
Qed.

(** ** The highest bit *)

Definition is_highest (st : list Z) (h : Z) : Prop :=
  (h = -1 /\ forall i, 0 <= i -> vbit st i = false) \/
  (0 <= h < 32 * Z.of_nat (length st) /\ vbit st h = true /\ forall i, h < i -> vbit st i = false).

Lemma highest_from_spec st n :
  wf_words st -> (n <= length st)%nat ->
  let h := highest_from st n in
  (h = -1 /\ forall i, 0 <= i < 32 * Z.of_nat n -> vbit st i = false) \/
  (0 <= h < 32 * Z.of_nat n /\ vbit st h = true /\ forall i, h < i < 32 * Z.of_nat n -> vbit st i = false).
Proof.
  intros [Hw Hs]. induction n as [|n IH]; intros Hn; cbn [highest_from]; cbv zeta.
  { left. split; [done|]. lia. }
  pose proof (word_is_u st n Hw) as Hu. set (w := default 0 (st !! n)) in *.
  assert (forall i, 32 * Z.of_nat n <= i < 32 * Z.of_nat (S n) -> vbit st i = Z.testbit w (i - 32 * Z.of_nat n)) as Hb.
  { intros i Hi. replace i with (32 * Z.of_nat n + (i - 32 * Z.of_nat n)) at 1 by lia. by rewrite vbit_word by lia. }
  destruct (Z.eqb_spec w 0) as [E0|Hne]; cbn [negb].
  - specialize (IH ltac:(lia)). cbv zeta in IH. destruct IH as [[-> H]|(H1 & H2 & H3)]; [left|right].
    + split; [done|]. intros i Hi. destruct (decide (i < 32 * Z.of_nat n)); [apply H; lia|].
      rewrite Hb, E0 by lia. apply Z.testbit_0_l.
    + split_and!; [lia|lia|done|]. intros i Hi. destruct (decide (i < 32 * Z.of_nat n)); [apply H3; lia|].
      rewrite Hb, E0 by lia. apply Z.testbit_0_l.
  - right. assert (0 < w) by (unfold is_u in *; lia).
    assert (0 <= Z.log2 w < 32) as Hl by (split; [apply Z.log2_nonneg|apply Z.log2_lt_pow2; unfold is_u in *; lia]).
    rewrite CLZ_log2. unfold kWordBits.
    replace (31 - (32 - 1 - Z.log2 w) + Z.of_nat n * 32) with (32 * Z.of_nat n + Z.log2 w) by lia.
    rewrite uN_small, sN_small by (unfold is_u, is_s; lia). split_and!; [lia|lia| |].
    + rewrite vbit_word by lia. by apply Z.bit_log2.
    + intros i Hi. rewrite Hb by lia. apply Z.bits_above_log2; lia.
Qed.

Lemma GetHighestBitSet_spec v : wf v -> is_highest (storage_ v) (GetHighestBitSet v).
Proof.
  intros Hwf. unfold GetHighestBitSet, is_highest.
  destruct (highest_from_spec (storage_ v) (length (storage_ v)) Hwf ltac:(lia)) as [[E H]|(H1 & H2 & H3)].
  - left. split; [done|]. intros i Hi.
    destruct (decide (i < 32 * Z.of_nat (length (storage_ v)))); [apply H; lia|apply vbit_beyond; lia].
  - right. split_and!; [lia|lia|done|]. intros i Hi.
    destruct (decide (i < 32 * Z.of_nat (length (storage_ v)))); [apply H3; lia|apply vbit_beyond; lia].
Qed.

(** ** Bulk operations *)

Lemma updated_wf start n (g : nat -> Z -> Z) st st' :
  wf_words st -> length st' = length st ->
  (forall j, st' !! j = if decide (start <= j < start + n)%nat then g j <$> st !! j else st !! j) ->
  (forall j w, (start <= j < start + n)%nat -> is_u 32 w -> is_u 32 (g j w)) -> wf_words st'.
Proof.
  intros [Hw Hs] Hl H Hg. split; [|by rewrite Hl]. apply Forall_lookup_2. intros j w Hj.
  rewrite H in Hj. case_decide; [|by eapply Forall_lookup_1 in Hw].
  destruct (st !! j) as [w0|] eqn:E; simplify_eq/=. apply Hg; [done|]. by eapply Forall_lookup_1 in Hw.
Qed.

Lemma word_range j len i :
  0 <= i -> j = Z.to_nat (i / 32) -> (j < len)%nat <-> i < 32 * Z.of_nat len.
Proof. intros Hi ->. destruct (split_index i Hi) as (E & Hm & Hd). lia. Qed.

(** Clear the words from [start] on. *)
Lemma clear_tail st start :
  wf_words st -> (start <= length st)%nat ->
  exists st', for_loop start (length st - start) (fun idx st => Some (<[idx := 0]> st)) st = Some st' /\
    wf_words st' /\ length st' = length st /\
    forall i, 0 <= i -> vbit st' i = (i <? 32 * Z.of_nat start) && vbit st i.
Proof.
  intros Hwf Hs. destruct (update_loop start (length st - start) (fun idx st => Some (<[idx := 0]> st)) (fun _ _ => 0) st)
    as (st' & E & Hl & H); [lia|done|]. exists st'. split_and!; [done| |done|].
  - apply (updated_wf start (length st - start) (fun _ _ => 0) st); try done.
  - intros i Hi. rewrite (updated_vbit start (length st - start) (fun _ _ => 0) st st' i ltac:(lia) H Hi).
    destruct (split_index i Hi) as (Ei & Hm & Hd). case_decide as Hc.
    + rewrite Z.testbit_0_l. destruct (Z.ltb_spec i (32 * Z.of_nat start)); [lia|done].
    + destruct (Z.ltb_spec i (32 * Z.of_nat start)); [done|]. simpl. apply vbit_beyond. lia.
Qed.

Lemma ClearAllBits_spec v :
  wf v -> wf (ClearAllBits v) /\ forall i, 0 <= i -> bits (ClearAllBits v) i = false.
Proof.
  intros [Hw Hs]. unfold wf, wf_words, bits, ClearAllBits. simpl. rewrite length_replicate.
  split; [split; [|done]|].
  - apply Forall_replicate. unfold is_u. lia.
  - intros i Hi. etransitivity; [apply (vbit_app_zeros [] _ i Hi)|]. apply vbit_beyond. simpl. lia.
Qed.

Lemma Intersect_spec v src :
  wf v -> wf src ->
  exists v', Intersect v src = Some v' /\ wf v' /\ length (storage_ v') = length (storage_ v) /\
    forall i, 0 <= i -> bits v' i = bits v i && bits src i.
Proof.
  intros Hv Hsrc. unfold Intersect. set (n := Nat.min _ _).
  destruct (update_loop 0 n (fun idx st => w ← st !! idx; s ← storage_ src !! idx; Some (<[idx := w .& s]> st))
    (fun j w => w .& default 0 (storage_ src !! j)) (storage_ v)) as (st & E & Hl & H); [lia| |].
  { intros i st' w Hi Hw _. rewrite Hw. cbn [mbind option_bind].
    destruct (lookup_lt_is_Some_2 (storage_ src) i) as [s ->]; [lia|done]. }
  rewrite E. cbn [mbind option_bind].
  assert (wf_words st) as Hst by
    (apply (updated_wf 0 n (fun j w => w .& default 0 (storage_ src !! j)) (storage_ v)); try done; intros; by apply land_is_u).
  destruct (clear_tail st n Hst) as (st2 & E2 & Hwf2 & Hl2 & Hb2); [lia|]. rewrite E2. cbn [mbind option_bind].
  eexists. split; [done|]. split_and!; [done|simpl; congruence|]. intros i Hi. unfold bits. simpl.
  rewrite Hb2, (updated_vbit 0 n (fun j w => w .& default 0 (storage_ src !! j)) (storage_ v) st i ltac:(lia) H Hi) by done. destruct (split_index i Hi) as (Ei & Hm & Hd).
  case_decide as Hc.
  - rewrite Z.land_spec. destruct (Z.ltb_spec i (32 * Z.of_nat n)); [done|lia].
  - destruct (Z.ltb_spec i (32 * Z.of_nat n)); [lia|]. simpl.
    destruct (decide (i < 32 * Z.of_nat (length (storage_ v)))).
    + by rewrite (vbit_beyond (storage_ src)), andb_false_r by lia.
    + by rewrite (vbit_beyond (storage_ v)) by lia.
Qed.

Lemma Subtract_spec v src :
  wf v -> wf src ->
  exists v', Subtract v src = Some v' /\ wf v' /\ length (storage_ v') = length (storage_ v) /\
    forall i, 0 <= i -> bits v' i = bits v i && negb (bits src i).
Proof.
  intros Hv Hsrc. unfold Subtract. set (n := Nat.min _ _).
  destruct (update_loop 0 n (fun idx st => w ← st !! idx; s ← storage_ src !! idx; Some (<[idx := w .& u32 (.~ s)]> st))
    (fun j w => w .& u32 (.~ default 0 (storage_ src !! j))) (storage_ v)) as (st & E & Hl & H); [lia| |].
  { intros i st' w Hi Hw _. rewrite Hw. cbn [mbind option_bind].
    destruct (lookup_lt_is_Some_2 (storage_ src) i) as [s ->]; [lia|done]. }
  rewrite E. cbn [mbind option_bind]. eexists. split; [done|]. split_and!; [|done|].
  { apply (updated_wf 0 n (fun j w => w .& u32 (.~ default 0 (storage_ src !! j))) (storage_ v)); try done; intros; by apply land_is_u. }
  intros i Hi. unfold bits. simpl. rewrite (updated_vbit 0 n (fun j w => w .& u32 (.~ default 0 (storage_ src !! j))) (storage_ v) st i ltac:(lia) H Hi).
  destruct (split_index i Hi) as (Ei & Hm & Hd). case_decide as Hc.
  - rewrite Z.land_spec, uN_testbit, Z.lnot_spec by lia. destruct (Z.ltb_spec (i mod 32) 32); [done|lia].
  - destruct (decide (i < 32 * Z.of_nat (length (storage_ v)))).
    + by rewrite (vbit_beyond (storage_ src)), andb_true_r by lia.
    + by rewrite (vbit_beyond (storage_ v)) by lia.
Qed.

(** Some word of a union changes exactly when some bit does. *)
Lemma changed_bits st st' n (g : nat -> Z -> Z) :
  Forall (is_u 32) st -> (n <= length st)%nat ->
  (forall j w, (j < n)%nat -> is_u 32 w -> is_u 32 (g j w)) ->
  (forall j, st' !! j = if decide (0 <= j < 0 + n)%nat then g j <$> st !! j else st !! j) ->
  (exists j w, (0 <= j < 0 + n)%nat /\ st !! j = Some w /\ g j w <> w) <->
  exists i, 0 <= i /\ vbit st' i <> vbit st i.
Proof.
  intros Hw Hn Hg H. split.
  - intros (j & w & Hj & Ew & Hne).
    destruct (decide (Forall (fun k => Z.testbit (g j w) k = Z.testbit w k) (seqZ 0 32))) as [Hall|Hex].
    + exfalso. apply Hne. apply Z.bits_inj'. intros k Hk. pose proof (Forall_lookup_1 _ _ _ _ Hw Ew) as Hu.
      destruct (decide (k < 32)).
      * eapply Forall_forall in Hall; [done|]. apply elem_of_seqZ. lia.
      * by rewrite !(testbit_high 32) by (apply Hg || idtac; (done || lia)).
    + apply not_Forall_Exists in Hex; [|apply _]. apply Exists_exists in Hex as (k & Hk & Hd).
      apply elem_of_seqZ in Hk. exists (32 * Z.of_nat j + k). split; [lia|].
      rewrite !vbit_word by lia. rewrite H, decide_True, Ew by lia. simpl. done.
  - intros (i & Hi & Hne). destruct (split_index i Hi) as (Ei & Hm & Hd).
    set (j := Z.to_nat (i / 32)) in *.
    destruct (decide (j < n)%nat) as [Hj|Hj].
    + destruct (lookup_lt_is_Some_2 st j) as [w Ew]; [lia|]. exists j, w. split_and!; [lia|lia|done|].
      intros Eg. apply Hne. unfold vbit. fold j. rewrite H, decide_True, Ew by lia. simpl. by rewrite Eg.
    + exfalso. apply Hne. unfold vbit. fold j. by rewrite H, decide_False by lia.
Qed.

Lemma highest_words st h :
  wf_words st -> is_highest st h -> 0 <= h ->
  BitsToWords (h + 1) = h / 32 + 1 /\ 0 <= h < 2 ^ 31 /\ 0 <= h / 32 < Z.of_nat (length st) /\
  vbit st h = true /\
  forall i, 0 <= i -> 32 * (h / 32 + 1) <= i -> vbit st i = false.
Proof.
  intros [_ Hs] [[-> _]|(Hh & Hv & Hb)] H0; [lia|]. destruct (split_index h H0) as (E & Hm & Hd).
  rewrite BitsToWords_val by lia. split_and!; try (done || lia).
  - Z.div_mod_to_equations. lia.
  - intros i Hi Hge. apply Hb. lia.
Qed.

(** Storage that covers the words of the other vector. *)
Lemma grown_spec v h (b : bool) :
  wf v -> 0 <= h < 2 ^ 31 -> (b = false -> h / 32 < Z.of_nat (length (storage_ v))) -> can_hold v h ->
  exists v1, (if b then EnsureSize v h else Some v) = Some v1 /\
  wf v1 /\ (forall i, 0 <= i -> bits v1 i = bits v i) /\ h / 32 < Z.of_nat (length (storage_ v1)) /\
  expandable_ v1 = expandable_ v.
Proof.
  intros Hwf Hh Hb Hc. destruct b; [|exists v; split_and!; auto].
  pose proof (EnsureSize_spec v h Hwf Hh) as H. rewrite decide_True in H by done. destruct H as (v1 & E & H1 & H2 & H3 & _ & H5). exists v1. split_and!; try done.
  destruct (split_index h) as (Eh & Hm & Hd); lia.
Qed.

(** All bits of [src] have room in [v], or [v] can grow. *)
Definition can_hold_all (v src : BitVector) : Prop := expandable_ v = true \/ forall i, 0 <= i -> bits src i = true -> i < 32 * Z.of_nat (length (storage_ v)).

Lemma can_hold_highest v src : wf src -> 0 <= GetHighestBitSet src -> can_hold_all v src <-> can_hold v (GetHighestBitSet src).
Proof.
  intros Hsrc H0. destruct (GetHighestBitSet_spec src Hsrc) as [[E _]|(Hr & Hb & Habove)]; [lia|]. unfold can_hold_all, can_hold. split; intros [He|H]; try (by left); right.
  - by apply H.
  - intros i Hi Hbi. destruct (decide (GetHighestBitSet src < i)) as [Hlt|]; [|lia]. unfold bits in Hbi. by rewrite (Habove i Hlt) in Hbi.
Qed.

(** A vector that has no room and can not grow. *)
Lemma bits_no_room v src : wf v -> wf src -> ~ can_hold_all v src ->
  let h := GetHighestBitSet src in 0 <= h /\ h < 2 ^ 31 /\ ~ can_hold v h /\ storage_size_ v < h / 32 + 1.
Proof.
  intros Hv Hsrc Hn h. assert (0 <= h) as H0.
  { destruct (GetHighestBitSet_spec src Hsrc) as [[_ H]|(? & _)]; [|unfold h; lia]. destruct Hn. right. intros i Hi Hb. unfold bits in Hb. by rewrite H in Hb. }
  rewrite (can_hold_highest v src Hsrc H0) in Hn. fold h in Hn. destruct (highest_words _ _ Hsrc (GetHighestBitSet_spec src Hsrc) H0) as (_ & Hr & _). split_and!; [done|apply Hr|done|].
  unfold can_hold in Hn. unfold storage_size_. destruct (split_index h H0) as (E & Hm & _). assert (~ h < 32 * Z.of_nat (length (storage_ v))) by tauto. lia.
Qed.

Lemma no_room_None v src not_in : wf v -> wf src -> ~ can_hold_all v src -> Copy v src = None /\ Union v src = None /\ UnionIfNotIn v src not_in = None.
Proof.
  intros Hv Hsrc Hn. destruct (bits_no_room v src Hv Hsrc Hn) as (H0 & Hr & Hc & Hs). unfold Copy, Union, UnionIfNotIn.
  destruct (highest_words _ _ Hsrc (GetHighestBitSet_spec src Hsrc) H0) as (Ew & _). rewrite Ew. set (h := GetHighestBitSet src) in *. rewrite (proj2 (Z.eqb_neq h (-1))) by lia.
  pose proof (EnsureSize_spec v h Hv ltac:(done)) as E. rewrite decide_False in E by done. rewrite SetBit_None by done. pose proof (Z.div_pos h 32 H0 ltac:(lia)). rewrite Z2Nat.id by lia. rewrite (proj2 (Z.ltb_lt _ _)), E by lia. done.
Qed.

Lemma Union_spec v src :
  wf v -> wf src -> can_hold_all v src ->
  exists ch v', Union v src = Some (ch, v') /\ wf v' /\
    (forall i, 0 <= i -> bits v' i = bits v i || bits src i) /\
    (ch = true <-> exists i, 0 <= i /\ bits src i = true /\ bits v i = false).
Proof.
  intros Hv Hsrc Hroom. unfold Union. pose proof (GetHighestBitSet_spec src Hsrc) as Hh.
  set (h := GetHighestBitSet src) in *. destruct (Z.eqb_spec h (-1)) as [E|Hne].
  { exists false, v. destruct Hh as [[_ H]|[? _]]; [|lia]. split_and!; [done|done| |].
    - intros i Hi. unfold bits. by rewrite H, orb_false_r by done.
    - split; [done|]. intros (i & Hi & Hb & _). unfold bits in Hb. by rewrite H in Hb. }
  assert (0 <= h) as H0 by (destruct Hh as [[? _]|[? _]]; lia).
  destruct (highest_words _ _ Hsrc Hh H0) as (-> & Hr & Hd & Hhb & Habove).
  set (n := h / 32 + 1) in *. set (small := storage_size_ v <? n).
  destruct (grown_spec v h small Hv Hr) as (v1 & Eg & H1 & H2 & H3 & H4); [subst small n; unfold storage_size_; lia|by apply can_hold_highest|].
  assert ((if small then v ← EnsureSize v h; Some (true, v) else Some (false, v)) = Some (small, v1)) as -> by (destruct small; [by rewrite Eg|by injection Eg as ->]).
  cbn [mbind option_bind].
  set (g := fun j w => w .| default 0 (storage_ src !! j)).
  destruct (update_word_loop 0 (Z.to_nat n) (fun idx existing => s ← storage_ src !! idx; Some (existing .| s)) g
    (storage_ v1) small) as (st & ch & E & Hl & H & Hch); [lia| |].
  { intros i w Hi _. destruct (lookup_lt_is_Some_2 (storage_ src) i) as [s Es]; [lia|]. unfold g. by rewrite Es. }
  rewrite E. cbn [mbind option_bind]. exists ch, (with_storage v1 st).
  assert (forall j w, (j < Z.to_nat n)%nat -> is_u 32 w -> is_u 32 (g j w)) as Hg.
  { intros j w _ Hw. apply lor_is_u; [lia|done|]. apply word_is_u, Hsrc. }
  assert (forall i, 0 <= i -> vbit st i = bits v i || bits src i) as Hb.
  { intros i Hi. rewrite (updated_vbit 0 (Z.to_nat n) g (storage_ v1) st i ltac:(lia) H Hi).
    destruct (split_index i Hi) as (Ei & Hm & Hdi). rewrite <- H2 by done. case_decide as Hc.
    - unfold g. rewrite Z.lor_spec. done.
    - unfold bits. by rewrite (Habove i), orb_false_r by lia. }
  split_and!; [done| |done|].
  - eapply (updated_wf 0 (Z.to_nat n) g); [exact H1|done|done|]. intros. apply Hg; [lia|done].
  - rewrite Hch, (changed_bits (storage_ v1) st (Z.to_nat n) g); [|apply H1|lia|exact Hg|exact H]. split.
    + intros [Hs|(i & Hi & Hc)].
      * exists h. split_and!; [done|done|]. apply vbit_beyond. subst small. unfold storage_size_ in Hs.
        destruct (split_index h H0). lia.
      * exists i. rewrite Hb in Hc by done. fold (bits v1 i) in Hc. rewrite H2 in Hc by done.
        by destruct (bits v i), (bits src i).
    + intros (i & Hi & Hc1 & Hc2). right. exists i. split; [done|]. rewrite Hb by done.
      fold (bits v1 i). by rewrite H2, Hc1, Hc2 by done.
Qed.

(** Two passes over consecutive words are one pass. *)
Lemma update_word_two_loops k n (h1 h2 : nat -> Z -> option Z) (g : nat -> Z -> Z) st :
  (k <= n <= length st)%nat ->
  (forall i w, (i < k)%nat -> h1 i w = Some (g i w)) ->
  (forall i w, (k <= i < n)%nat -> h2 i w = Some (g i w)) ->
  exists st' ch',
    (s ← for_loop 0 k (fun i => update_word (h1 i) i) (st, false);
     for_loop k (n - k) (fun i => update_word (h2 i) i) s) = Some (st', ch') /\
    length st' = length st /\
    (forall j, st' !! j = if decide (0 <= j < 0 + n)%nat then g j <$> st !! j else st !! j) /\
    (ch' = true <-> exists j w, (0 <= j < 0 + n)%nat /\ st !! j = Some w /\ g j w <> w).
Proof.
  intros Hk H1 H2.
  destruct (update_word_loop 0 k h1 g st false) as (st1 & ch1 & E1 & Hl1 & Hst1 & Hch1);
    [lia|intros; apply H1; lia|].
  destruct (update_word_loop k (n - k) h2 g st1 ch1) as (st2 & ch2 & E2 & Hl2 & Hst2 & Hch2);
    [lia|intros; apply H2; lia|].
  exists st2, ch2. rewrite E1. cbn [mbind option_bind]. split_and!; [done|congruence| |].
  - intros j. rewrite Hst2, Hst1. repeat case_decide; (done || lia).
  - rewrite Hch2, Hch1. split.
    + intros [[?|(j & w & Hj & Hw)]|(j & w & Hj & Hw & Hd)]; [done| |]; exists j, w; (split; [lia|]); [done|].
      by rewrite Hst1, decide_False in Hw by lia.
    + intros (j & w & Hj & Hw & Hd). destruct (decide (j < k)%nat).
      * left. right. exists j, w. split; [lia|done].
      * right. exists j, w. rewrite Hst1, decide_False by lia. split; [lia|done].
Qed.

Lemma UnionIfNotIn_spec v uw ni :
  wf v -> wf uw -> wf ni -> can_hold_all v uw ->
  exists ch v', UnionIfNotIn v uw ni = Some (ch, v') /\ wf v' /\
    (forall i, 0 <= i -> bits v' i = bits v i || (bits uw i && negb (bits ni i))) /\
    (ch = true <-> exists i, 0 <= i /\ bits uw i = true /\ bits ni i = false /\ bits v i = false).
Proof.
  intros Hv Huw Hni Hroom. unfold UnionIfNotIn. pose proof (GetHighestBitSet_spec uw Huw) as Hh.
  set (h := GetHighestBitSet uw) in *. destruct (Z.eqb_spec h (-1)) as [E|Hne].
  { exists false, v. destruct Hh as [[_ H]|[? _]]; [|lia]. split_and!; [done|done| |].
    - intros i Hi. unfold bits at 3. by rewrite H, orb_false_r by done.
    - split; [done|]. intros (i & Hi & Hb & _). unfold bits in Hb. by rewrite H in Hb. }
  assert (0 <= h) as H0 by (destruct Hh as [[? _]|[? _]]; lia).
  destruct (highest_words _ _ Huw Hh H0) as (-> & Hr & Hd & Hhb & Habove).
  set (n := Z.to_nat (h / 32 + 1)) in *. set (small := storage_size_ v <? Z.of_nat n).
  destruct (grown_spec v h small Hv Hr) as (v1 & -> & H1 & H2 & H3 & H4); [|by apply can_hold_highest|cbn [mbind option_bind]].
  { intros Hs. apply Z.ltb_ge in Hs. unfold storage_size_ in Hs. lia. }
  set (k := Nat.min (length (storage_ ni)) n).
  set (g := fun j w => w .| (if decide (j < k)%nat
    then default 0 (storage_ uw !! j) .& u32 (.~ default 0 (storage_ ni !! j))
    else default 0 (storage_ uw !! j))).
  destruct (update_word_two_loops k n
    (fun idx existing => u ← storage_ uw !! idx; n ← storage_ ni !! idx; Some (existing .| (u .& u32 (.~ n))))
    (fun idx existing => u ← storage_ uw !! idx; Some (existing .| u)) g (storage_ v1))
    as (st & ch & E & Hl & Hst & Hch); [lia| | |].
  { intros i w Hi. destruct (lookup_lt_is_Some_2 (storage_ uw) i) as [s Es]; [lia|].
    destruct (lookup_lt_is_Some_2 (storage_ ni) i) as [s' Es']; [lia|]. unfold g.
    by rewrite decide_True, Es, Es' by lia. }
  { intros i w Hi. destruct (lookup_lt_is_Some_2 (storage_ uw) i) as [s Es]; [lia|]. unfold g.
    by rewrite decide_False, Es by lia. }
  assert (forall j w, is_u 32 w -> is_u 32 (g j w)) as Hg.
  { intros j w Hw. apply lor_is_u; [lia|done|]. case_decide; [apply land_is_u; [lia|]|]; apply word_is_u, Huw. }
  assert (forall i, 0 <= i -> vbit st i = bits v i || (bits uw i && negb (bits ni i))) as Hb.
  { intros i Hi. rewrite (updated_vbit 0 n g (storage_ v1) st i ltac:(lia) Hst Hi).
    destruct (split_index i Hi) as (Ei & Hm & Hdi). rewrite <- H2 by done. case_decide as Hc.
    - unfold g. rewrite Z.lor_spec. case_decide.
      + rewrite Z.land_spec, uN_testbit, Z.lnot_spec by lia. by destruct (Z.ltb_spec (i mod 32) 32); [|lia].
      + unfold bits. by rewrite (vbit_beyond (storage_ ni)), andb_true_r by lia.
    - unfold bits. by rewrite (Habove i), orb_false_r by lia. }
  exists ch, (with_storage v1 st). split_and!; [|by eapply (updated_wf 0 n g); [exact H1|..|intros; apply Hg]|done|].
  { destruct (for_loop 0 k _ _) as [s|]; [|done]. cbn [mbind option_bind] in *. by rewrite E. }
  rewrite Hch, (changed_bits (storage_ v1) st n g); [|apply H1|lia|intros; by apply Hg|exact Hst]. split.
  - intros (i & Hi & Hc). exists i. rewrite Hb in Hc by done. fold (bits v1 i) in Hc. rewrite H2 in Hc by done.
    by destruct (bits v i), (bits uw i), (bits ni i).
  - intros (i & Hi & Hc1 & Hc2 & Hc3). exists i. split; [done|]. rewrite Hb by done.
    fold (bits v1 i). by rewrite H2, Hc1, Hc2, Hc3 by done.
Qed.

Lemma vbit_take st n i :
  0 <= i -> vbit (take n st) i = (i <? 32 * Z.of_nat n) && vbit st i.
Proof.
  intros Hi. unfold vbit. destruct (split_index i Hi) as (E & Hm & Hd).
  destruct (Z.ltb_spec i (32 * Z.of_nat n)); simpl.
  - rewrite lookup_take, decide_True by lia. done.
  - rewrite lookup_take, decide_False by lia. apply Z.testbit_0_l.
Qed.

Lemma Copy_spec v src :
  wf v -> wf src -> can_hold_all v src ->
  exists v', Copy v src = Some v' /\ wf v' /\ forall i, 0 <= i -> bits v' i = bits src i.
Proof.
  intros Hv Hsrc Hroom. unfold Copy. pose proof (GetHighestBitSet_spec src Hsrc) as Hh.
  set (h := GetHighestBitSet src) in *. destruct (Z.eqb_spec h (-1)) as [E|Hne].
  { destruct Hh as [[_ H]|[? _]]; [|lia]. destruct (ClearAllBits_spec v Hv) as [H1 H2].
    eexists. split_and!; [done|done|]. intros i Hi. unfold bits at 2. by rewrite H, H2 by done. }
  assert (0 <= h) as H0 by (destruct Hh as [[? _]|[? _]]; lia).
  destruct (highest_words _ _ Hsrc Hh H0) as (_ & Hr & Hd & Hhb & Habove).
  destruct (SetBit_spec v h Hv Hr) as (v1 & -> & Hwf1 & He & Hl1 & _ & _); [by apply can_hold_highest|]. cbn [mbind option_bind].
  unfold kWordBits. destruct (split_index h H0) as (Eh & Hm & _). set (n := Z.to_nat (1 + h / 32)).
  rewrite !(proj2 (Nat.leb_le _ _)) by lia. cbn [andb]. eexists. split; [done|].
  destruct Hwf1 as [Hw1 Hs1], Hsrc as [Hws Hss]. split.
  - split; simpl.
    + apply Forall_app. split; [by apply Forall_take|apply Forall_replicate; unfold is_u; lia].
    + rewrite length_app, length_take, length_replicate. lia.
  - intros i Hi. unfold bits. simpl. rewrite vbit_app_zeros, vbit_take by done.
    destruct (Z.ltb_spec i (32 * Z.of_nat n)); [done|]. rewrite (Habove i); [done|done|lia].
Qed.

(** The word that holds the last few of [n] initial bits. *)
Lemma partial_word st n :
  let full := Z.to_nat (n / 32) in
  wf_words st -> 0 <= n <= 32 * Z.of_nat (length st) ->
  (forall i, 0 <= i -> i < 32 * Z.of_nat full -> vbit st i = true) ->
  exists st2 idx,
    (if negb (n mod 32 =? 0)
     then _ ← st !! full; Some (<[full := u32 (1 ≪ (n mod 32)) - 1]> st, S full)
     else Some (st, full)) = Some (st2, idx) /\
    wf_words st2 /\ length st2 = length st /\ (idx <= length st)%nat /\ n <= 32 * Z.of_nat idx /\
    forall i, 0 <= i < 32 * Z.of_nat idx -> vbit st2 i = (i <? n).
Proof.
  intros full Hst Hn Hfull. destruct (split_index n) as (En & Hm & Hd); [lia|].
  destruct (Z.eqb_spec (n mod 32) 0) as [E0|E0]; cbn [negb].
  - exists st, full. split_and!; try (done || lia). intros i Hi. rewrite Hfull by lia.
    symmetry. apply Z.ltb_lt. lia.
  - destruct (lookup_lt_is_Some_2 st full) as [w ->]; [lia|]. cbn [mbind option_bind].
    eexists _, (S full). rewrite Z.shiftl_1_l.
    assert (0 < 2 ^ (n mod 32) < 2 ^ 32) by (split; [apply pow2_pos; lia|apply pow2_lt; lia]).
    rewrite uN_small by (unfold is_u; lia).
    split_and!; [done| |by rewrite length_insert|lia|lia|].
    + split; [|rewrite length_insert; apply Hst]. apply Forall_insert; [apply Hst|unfold is_u; lia].
    + intros i Hi. destruct (split_index i) as (Ei & Hmi & Hdi); [lia|].
      destruct (decide (i < 32 * Z.of_nat full)).
      * unfold vbit. rewrite list_lookup_insert_ne by lia. fold (vbit st i). rewrite Hfull by lia.
        symmetry. apply Z.ltb_lt. lia.
      * unfold vbit. replace (Z.to_nat (i / 32)) with full by lia. rewrite list_lookup_insert_eq by lia.
        simpl. replace (2 ^ (n mod 32) - 1) with (Z.ones (n mod 32)) by (rewrite Z.ones_equiv; lia).
        rewrite Z.testbit_ones by lia. repeat case_ltb; cbn; (done || lia).
Qed.

Lemma SetInitialBits_spec v n :
  wf v -> 0 <= n <= 2 ^ 31 -> can_hold v (n - 1) ->
  exists v', SetInitialBits v n = Some v' /\ wf v' /\ forall i, 0 <= i -> bits v' i = (i <? n).
Proof.
  intros Hv Hn Hroom. unfold SetInitialBits. destruct (Z.eqb_spec n 0) as [->|Hne].
  { destruct (ClearAllBits_spec v Hv) as [H1 H2]. eexists. split_and!; [done|done|].
    intros i Hi. rewrite H2 by done. destruct (Z.ltb_spec i 0); [lia|done]. }
  destruct (SetBit_spec v (n - 1) Hv) as (v1 & -> & [Hw1 Hs1] & _ & Hl1 & _ & _); [lia|done|]. cbn [mbind option_bind].
  rewrite WordIndex_val, land_1f. destruct (split_index n) as (En & Hm & Hd); [lia|].
  set (full := Z.to_nat (n / 32)).
  destruct (update_loop 0 full (fun idx st => _ ← st !! idx; Some (<[idx := 2 ^ 32 - 1]> st))
    (fun _ _ => 2 ^ 32 - 1) (storage_ v1)) as (st & -> & Hl & H); [lia| |].
  { intros i st' w Hi Hw _. by rewrite Hw. }
  cbn [mbind option_bind].
  assert (wf_words st) as Hst.
  { apply (updated_wf 0 full (fun _ _ => 2 ^ 32 - 1) (storage_ v1)); try done. }
  assert (forall i, 0 <= i -> i < 32 * Z.of_nat full -> vbit st i = true) as Hfull.
  { intros i Hi Hlt. rewrite (updated_vbit 0 full (fun _ _ => 2 ^ 32 - 1) (storage_ v1) st i ltac:(lia) H Hi).
    destruct (split_index i Hi) as (Ei & Hmi & Hdi). rewrite decide_True by lia.
    replace (2 ^ 32 - 1) with (Z.ones 32) by done. rewrite Z.ones_spec_low by lia. done. }
  destruct (partial_word st n) as (st2 & idx & E2 & Hw2 & Hl2 & Hi2 & Hn2 & Hb2); try (done || lia).
  fold full in E2. rewrite E2. clear E2.
  cbn [mbind option_bind]. destruct (clear_tail st2 idx Hw2) as (st3 & -> & Hw3 & Hl3 & Hb3); [lia|].
  cbn [mbind option_bind]. eexists. split_and!; [done|done|]. intros i Hi. unfold bits. simpl.
  rewrite Hb3 by done. destruct (Z.ltb_spec i (32 * Z.of_nat idx)); simpl.
  - apply Hb2. lia.
  - symmetry. apply Z.ltb_ge. lia.
Qed.

(** ** Comparisons *)

Definition same_bits (v src : BitVector) : Prop := forall i, 0 <= i -> bits v i = bits src i.

Lemma is_highest_unique st h st' h' :
  is_highest st h -> is_highest st' h' -> (forall i, 0 <= i -> vbit st i = vbit st' i) -> h = h'.
Proof.
  intros [[-> H]|(H1 & H2 & H3)] [[-> H']|(H1' & H2' & H3')] E; [done| | |].
  - by rewrite <- E, H in H2' by lia.
  - by rewrite E, H' in H2 by lia.
  - destruct (decide (h < h')) as [Hlt|]; [by rewrite <- E, H3 in H2' by lia|].
    destruct (decide (h' < h)) as [Hlt|]; [by rewrite E, H3' in H2 by lia|lia].
Qed.

(** Equal prefixes of words are equal prefixes of bits. *)
Lemma take_eq_bits st st' n :
  Forall (is_u 32) st -> Forall (is_u 32) st' -> (n <= length st)%nat -> (n <= length st')%nat ->
  take n st = take n st' <-> forall i, 0 <= i < 32 * Z.of_nat n -> vbit st i = vbit st' i.
Proof.
  intros Hw Hw' Hl Hl'. split.
  - intros E i Hi. assert (vbit (take n st) i = vbit (take n st') i) as H by (by rewrite E).
    rewrite !vbit_take in H by lia. by destruct (Z.ltb_spec i (32 * Z.of_nat n)); [|lia].
  - intros H. apply list_eq. intros j. rewrite !lookup_take. case_decide; [|done].
    destruct (lookup_lt_is_Some_2 st j) as [w Ew], (lookup_lt_is_Some_2 st' j) as [w' Ew']; [lia..|].
    rewrite Ew, Ew'. f_equal.
    pose proof (vbit_words_eq st st' j Hw Hw') as E. rewrite Ew, Ew' in E. apply E.
    intros k Hk. apply H. lia.
Qed.

Lemma words_equal_spec st st' n :
  Forall (is_u 32) st -> Forall (is_u 32) st' -> (n <= length st)%nat -> (n <= length st')%nat ->
  exists b, words_equal st st' n = Some b /\
    (b = true <-> forall i, 0 <= i < 32 * Z.of_nat n -> vbit st i = vbit st' i).
Proof.
  intros Hw Hw' Hl Hl'. unfold words_equal. rewrite !(proj2 (Z.leb_le _ _)) by lia. cbn [andb].
  eexists. split; [done|]. rewrite bool_decide_eq_true. by apply take_eq_bits.
Qed.

(** Only the words below the highest bit need to be compared: when the highest bit is the first
    one of its word, that word is 1 on both sides. *)
Lemma SameBitsSet_spec v src :
  wf v -> wf src -> exists b, SameBitsSet v src = Some b /\ (b = true <-> same_bits v src).
Proof.
  intros Hv Hs. unfold SameBitsSet, same_bits, bits.
  pose proof (GetHighestBitSet_spec v Hv) as Hh. pose proof (GetHighestBitSet_spec src Hs) as Hh'.
  set (h := GetHighestBitSet v) in *. set (h' := GetHighestBitSet src) in *.
  destruct (Z.eqb_spec h h') as [E|Hne]; cbn [negb].
  2:{ exists false. split; [done|]. split; [done|]. intros H. destruct Hne. by eapply is_highest_unique. }
  rewrite <- E in *. clear E h'. destruct (Z.leb_spec h 0) as [H0|H0].
  { exists true. split; [done|]. split; [intros _|done]. intros i Hi.
    destruct Hh as [[Eh H]|(H1 & H2 & H3)], Hh' as [[Eh' H']|(H1' & H2' & H3')]; try lia.
    - by rewrite H, H' by done.
    - destruct (decide (i = h)) as [->|]; [by rewrite H2, H2'|]. by rewrite H3, H3' by lia. }
  destruct (highest_words _ _ Hv Hh ltac:(lia)) as (_ & Hr & Hd & Hb & _).
  destruct (highest_words _ _ Hs Hh' ltac:(lia)) as (_ & _ & Hd' & Hb' & _).
  rewrite BitsToWords_val by lia. destruct (split_index h) as (Eh & Hm & _); [lia|].
  set (n := Z.to_nat ((h + 31) / 32)).
  assert (32 * Z.of_nat n >= h /\ Z.of_nat n <= h / 32 + 1) as Hn by (subst n; Z.div_mod_to_equations; lia).
  destruct (words_equal_spec (storage_ v) (storage_ src) n) as (b & -> & Hbb); [apply Hv|apply Hs|lia..|].
  exists b. split; [done|]. rewrite Hbb. split; [|intros H i Hi; apply H; lia].
  intros H i Hi. destruct (decide (i < 32 * Z.of_nat n)); [apply H; lia|].
  destruct (decide (i = h)) as [->|]; [by rewrite Hb, Hb'|].
  destruct Hh as [[? _]|(_ & _ & Ha)]; [lia|]. destruct Hh' as [[? _]|(_ & _ & Ha')]; [lia|].
  by rewrite Ha, Ha' by lia.
Qed.

Lemma lor_absorb_bits a b :
  is_u 32 a -> is_u 32 b ->
  (a .| b =? b) = true <-> forall k, 0 <= k < 32 -> Z.testbit a k = true -> Z.testbit b k = true.
Proof.
  intros Ha Hb. rewrite Z.eqb_eq. split.
  - intros E k Hk Hak. by rewrite <- E, Z.lor_spec, Hak.
  - intros H. apply Z.bits_inj'. intros k Hk. rewrite Z.lor_spec. destruct (decide (k < 32)).
    + destruct (Z.testbit a k) eqn:E; [|done]. by rewrite H by (done || lia).
    + by rewrite (testbit_high 32 a), (testbit_high 32 b) by (done || lia).
Qed.

Lemma subset_words_spec a b i n :
  Forall (is_u 32) a -> Forall (is_u 32) b -> (i + n <= length a)%nat -> (i + n <= length b)%nat ->
  exists r, subset_words a b i n = Some r /\
    (r = true <-> forall k, 32 * Z.of_nat i <= k < 32 * Z.of_nat (i + n) -> vbit a k = true -> vbit b k = true).
Proof.
  intros Ha Hb. revert i. induction n as [|n IH]; intros i Hla Hlb; cbn [subset_words].
  { exists true. split; [done|]. split; [|done]. intros _ k Hk. lia. }
  destruct (lookup_lt_is_Some_2 a i) as [x Ex], (lookup_lt_is_Some_2 b i) as [y Ey]; [lia..|].
  rewrite Ex, Ey. cbn [mbind option_bind].
  pose proof (Forall_lookup_1 _ _ _ _ Ha Ex) as Hx. pose proof (Forall_lookup_1 _ _ _ _ Hb Ey) as Hy.
  pose proof (lor_absorb_bits x y Hx Hy) as Hxy.
  assert (forall k, 0 <= k < 32 -> vbit a (32 * Z.of_nat i + k) = Z.testbit x k /\
    vbit b (32 * Z.of_nat i + k) = Z.testbit y k) as Hk by (intros k Hk; rewrite !vbit_word, Ex, Ey by lia; done).
  destruct (x .| y =? y) eqn:E; cbn [negb].
  - destruct (IH (S i)) as (r & -> & Hr); [lia|lia|]. exists r. split; [done|]. rewrite Hr. split.
    + intros H k Hkr Hka. destruct (decide (k < 32 * Z.of_nat (S i))); [|apply H; [lia|done]].
      replace k with (32 * Z.of_nat i + (k - 32 * Z.of_nat i)) in * by lia.
      destruct (Hk (k - 32 * Z.of_nat i) ltac:(lia)) as [H1 H2]. rewrite H2. apply Hxy; [done|lia|]. by rewrite <- H1.
    + intros H k Hkr. apply H. lia.
  - exists false. split; [done|]. split; [done|]. intros H.
    enough (false = true) by done. apply Hxy. intros k Hkr Hka. destruct (Hk k Hkr) as [H1 H2].
    rewrite <- H2. apply H; [lia|]. by rewrite H1.
Qed.

Lemma IsSubsetOf_spec v other :
  wf v -> wf other ->
  exists b, IsSubsetOf v other = Some b /\
    (b = true <-> forall i, 0 <= i -> bits v i = true -> bits other i = true).
Proof.
  intros Hv Hs. unfold IsSubsetOf, bits.
  pose proof (GetHighestBitSet_spec v Hv) as Hh. pose proof (GetHighestBitSet_spec other Hs) as Hh'.
  set (h := GetHighestBitSet v) in *. set (h' := GetHighestBitSet other) in *.
  destruct (Z.ltb_spec h 0) as [H0|H0].
  { exists true. split; [done|]. split; [intros _|done]. intros i Hi. destruct Hh as [[_ H]|[? _]]; [|lia].
    by rewrite H. }
  destruct (highest_words _ _ Hv Hh H0) as (-> & Hr & Hd & Hb & Ha).
  destruct (Z.ltb_spec h' h) as [Hlt|Hge].
  { exists false. split; [done|]. split; [done|]. intros H. specialize (H h H0 Hb).
    destruct Hh' as [[_ H']|(_ & _ & H')]; rewrite H' in H by lia; done. }
  assert (h / 32 < Z.of_nat (length (storage_ other))).
  { destruct Hh' as [[? _]|(? & _)]; [lia|]. apply Z.div_lt_upper_bound; lia. }
  destruct (subset_words_spec (storage_ v) (storage_ other) 0 (Z.to_nat (h / 32 + 1))) as (b & -> & Hbb);
    [apply Hv|apply Hs|lia..|].
  exists b. split; [done|]. rewrite Hbb. split.
  - intros Hsub i Hi Hvi. destruct (decide (i < 32 * (h / 32 + 1))); [apply Hsub; [lia|done]|].
    by rewrite Ha in Hvi by lia.
  - intros Hsub k Hk. apply Hsub. lia.
Qed.

Lemma Equal_spec v src :
  wf v -> wf src ->
  exists b, Equal v src = Some b /\
    (b = true <-> length (storage_ v) = length (storage_ src) /\ expandable_ v = expandable_ src /\ same_bits v src).
Proof.
  intros Hv Hs. unfold Equal, storage_size_.
  destruct (Z.eqb_spec (Z.of_nat (length (storage_ v))) (Z.of_nat (length (storage_ src)))) as [El|Hne]; cbn [andb].
  2:{ exists false. split; [done|]. split; [done|]. intros [? _]. lia. }
  destruct (eqb _ _) eqn:Ee.
  2:{ exists false. split; [done|]. split; [done|]. intros (_ & E & _). by rewrite E, eqb_reflx in Ee. }
  apply eqb_prop in Ee.
  destruct (words_equal_spec (storage_ v) (storage_ src) (length (storage_ v))) as (b & -> & Hb); [apply Hv|apply Hs|lia..|].
  exists b. split; [done|]. rewrite Hb. split.
  - intros H. split_and!; [lia|done|]. intros i Hi. unfold bits.
    destruct (decide (i < 32 * Z.of_nat (length (storage_ v)))); [apply H; lia|]. by rewrite !vbit_beyond by lia.
  - intros (_ & _ & H) i Hi. apply H. lia.
Qed.

(** ** Counting *)

Lemma count_words st f :
  (forall j w k, st !! j = Some w -> 0 <= k < 32 -> f (32 * Z.of_nat j + k) = Z.testbit w k) ->
  Forall (is_u 32) st -> 32 * Z.of_nat (length st) < 2 ^ 32 ->
  forall c, 0 <= c -> c + 32 * Z.of_nat (length st) < 2 ^ 32 ->
  foldl (fun count w => u32 (count + POPCOUNT w)) c st = c + count_bits (32 * length st) f.
Proof.
  intros Hf Hw. revert f Hf. induction Hw as [|w st Hu Hw IH]; intros f Hf Hl c Hc Hcl.
  { rewrite Nat.mul_0_r. simpl. lia. }
  cbn [foldl length] in *. replace (32 * S (length st))%nat with (32 + 32 * length st)%nat by lia.
  rewrite count_bits_app, (POPCOUNT_count 32 w) by done.
  assert (count_bits 32 (Z.testbit w) = count_bits 32 f) as ->.
  { apply count_bits_ext. intros i Hi. rewrite <- (Hf 0%nat w i) by (done || lia). f_equal; lia. }
  pose proof (count_bits_bound 32 f). rewrite uN_small by (unfold is_u; lia).
  rewrite (IH (fun i => f (Z.of_nat 32 + i))) by (lia || (intros j w' k Hj Hk; rewrite <- (Hf (S j) w' k) by done; f_equal; lia)).
  lia.
Qed.

Lemma vbit_lookup st j w k : st !! j = Some w -> 0 <= k < 32 -> vbit st (32 * Z.of_nat j + k) = Z.testbit w k.
Proof. intros Hj Hk. by rewrite vbit_word, Hj by done. Qed.

Lemma NumSetBits_spec v : wf v -> NumSetBits v = count_bits (32 * length (storage_ v)) (bits v).
Proof.
  intros [Hw Hs]. unfold NumSetBits. rewrite (count_words _ (bits v)); [lia| |done|lia|lia|lia].
  intros. by apply vbit_lookup.
Qed.

Lemma NumSetBitsRange_spec v end_ :
  wf v -> 0 <= end_ <= 32 * Z.of_nat (length (storage_ v)) ->
  NumSetBitsRange (storage_ v) end_ = Some (count_bits (Z.to_nat end_) (bits v)).
Proof.
  intros [Hw Hs] He. unfold NumSetBitsRange. rewrite WordIndex_val, land_1f.
  destruct (split_index end_) as (Ee & Hm & Hd); [lia|]. set (n := Z.to_nat (end_ / 32)).
  destruct (for_loop_rule (fun i c => c = count_bits (32 * i) (bits v)) 0 n
    (fun word count => w ← storage_ v !! word; Some (u32 (count + POPCOUNT w))) 0) as (c & -> & Hc); [done| |].
  { intros i c Hi ->. destruct (lookup_lt_is_Some_2 (storage_ v) i) as [w Ew]; [lia|]. rewrite Ew. cbn [mbind option_bind].
    eexists. split; [done|]. pose proof (Forall_lookup_1 _ _ _ _ Hw Ew) as Hu.
    replace (32 * S i)%nat with (32 * i + 32)%nat by lia. rewrite count_bits_app, (POPCOUNT_count 32 w) by done.
    assert (count_bits 32 (Z.testbit w) = count_bits 32 (fun k => bits v (Z.of_nat (32 * i) + k))) as ->.
    { apply count_bits_ext. intros k Hk. rewrite <- (vbit_lookup _ _ _ _ Ew Hk). unfold bits. f_equal; lia. }
    pose proof (count_bits_bound (32 * i) (bits v)).
    pose proof (count_bits_bound 32 (fun k => bits v (Z.of_nat (32 * i) + k))).
    apply uN_small. unfold is_u. lia. }
  cbn [mbind option_bind]. rewrite Nat.add_0_l in Hc.
  destruct (Z.eqb_spec (end_ mod 32) 0) as [E0|E0]; cbn [negb].
  { f_equal. rewrite Hc. f_equal; lia. }
  destruct (lookup_lt_is_Some_2 (storage_ v) n) as [w Ew]; [lia|]. rewrite Ew. cbn [mbind option_bind]. f_equal.
  pose proof (Forall_lookup_1 _ _ _ _ Hw Ew) as Hu. set (x := w .& _).
  assert (forall k, 0 <= k -> Z.testbit x k = (k <? end_ mod 32) && Z.testbit w k) as Hx.
  { intros k Hk. subst x. change 0xffffffff with (Z.ones 32). autorewrite with art_bits.
    repeat case_ltb; cbn; try (done || lia); rewrite ?andb_true_r, ?andb_false_r; done. }
  assert (is_u (Z.of_nat (Z.to_nat (end_ mod 32))) x) as Hxu.
  { rewrite Z2Nat.id by lia. apply is_u_bits; [lia|apply Z.land_nonneg; unfold is_u in Hu; lia|].
    intros k Hk. rewrite Hx by lia. by destruct (Z.ltb_spec k (end_ mod 32)); [lia|]. }
  rewrite (POPCOUNT_count _ _ Hxu), Hc.
  replace (Z.to_nat end_) with (32 * n + Z.to_nat (end_ mod 32))%nat by lia. rewrite count_bits_app.
  assert (count_bits (Z.to_nat (end_ mod 32)) (Z.testbit x) =
    count_bits (Z.to_nat (end_ mod 32)) (fun k => bits v (Z.of_nat (32 * n) + k))) as ->.
  { apply count_bits_ext. intros k Hk. rewrite Hx by lia. destruct (Z.ltb_spec k (end_ mod 32)); [|lia].
    simpl. rewrite <- (vbit_lookup _ _ _ k Ew) by lia. unfold bits. f_equal; lia. }
  pose proof (count_bits_bound (32 * n) (bits v)).
  pose proof (count_bits_bound (Z.to_nat (end_ mod 32)) (fun k => bits v (Z.of_nat (32 * n) + k))).
  apply uN_small. unfold is_u. lia.
Qed.

(** ** Iteration *)

(** The first set bit from [start] on, or the end. *)
Definition is_next (st : list Z) (start i : Z) : Prop :=
  start <= i <= 32 * Z.of_nat (length st) /\
  (i = 32 * Z.of_nat (length st) \/ vbit st i = true) /\
  forall j, start <= j < i -> vbit st j = false.

Lemma BitSize_val st : wf_words st -> BitSize st = 32 * Z.of_nat (length st).
Proof. intros [_ H]. unfold BitSize, kWordBits. rewrite uN_small by (unfold is_u; lia). lia. Qed.

(** A word whose bits are those of the storage from [start] on. *)
Definition masked_word (st : list Z) (start wi word : Z) : Prop :=
  is_u 32 word /\ 0 <= wi < Z.of_nat (length st) /\ 32 * wi <= start < 32 * (wi + 1) /\
  forall k, 0 <= k < 32 -> Z.testbit word k = (start <=? 32 * wi + k) && vbit st (32 * wi + k).

Lemma masked_word_zero st start wi j :
  masked_word st start wi 0 -> start <= j < 32 * (wi + 1) -> vbit st j = false.
Proof.
  intros (_ & _ & Hs & Hb) Hj. specialize (Hb (j - 32 * wi) ltac:(lia)). rewrite Z.testbit_0_l in Hb.
  replace (32 * wi + (j - 32 * wi)) with j in Hb by lia. by rewrite (proj2 (Z.leb_le _ _)) in Hb by lia.
Qed.

Lemma masked_word_next st start wi word :
  wf_words st -> masked_word st start wi word -> word <> 0 ->
  is_next st start (u32 (wi * 32 + CTZ word)).
Proof.
  intros [_ Hs32] (Hu & Hwi & Hs & Hb) Hne.
  destruct (CTZ_spec word) as (H0 & H1 & H2); [unfold is_u in Hu; lia|].
  pose proof (CTZ_lt 32 word ltac:(unfold is_u in Hu; lia) Hu) as Hlt.
  rewrite uN_small by (unfold is_u; lia). rewrite Hb in H1 by lia. apply andb_true_iff in H1 as [H1 H1'].
  apply Z.leb_le in H1. replace (wi * 32 + CTZ word) with (32 * wi + CTZ word) by lia.
  split_and!; [lia|lia|by right|]. intros j Hj. specialize (H2 (j - 32 * wi) ltac:(lia)).
  rewrite Hb in H2 by lia. replace (32 * wi + (j - 32 * wi)) with j in H2 by lia.
  by rewrite (proj2 (Z.leb_le _ _)) in H2 by lia.
Qed.

Lemma find_word_spec st fuel word wi start :
  wf_words st -> Z.of_nat (length st) <= wi + 1 + Z.of_nat fuel -> masked_word st start wi word ->
  exists i, find_word st fuel word wi = Some i /\ is_next st start i.
Proof.
  intros Hwf. revert word wi start. induction fuel as [|fuel IH]; intros word wi start Hf Hm;
    cbn [find_word]; (destruct (Z.eqb_spec word 0) as [->|Hne]; [|eexists; split; [done|by apply masked_word_next]]);
    pose proof (fun j => masked_word_zero _ _ _ j Hm) as Hz; destruct Hm as (_ & Hwi & Hs & _);
    (destruct (Z.eqb_spec (wi + 1) (Z.of_nat (length st))) as [E|Hn];
     [eexists; split; [done|]; rewrite BitSize_val by done; split_and!; [lia|lia|by left|]; intros j Hj; apply Hz; lia|]).
  - lia.
  - destruct (lookup_lt_is_Some_2 st (Z.to_nat (wi + 1))) as [w Ew]; [lia|]. rewrite Ew. cbn [mbind option_bind].
    destruct (IH w (wi + 1) (32 * (wi + 1))) as (i & -> & (H1 & H2 & H3)); [lia| |].
    { split_and!; try lia; [destruct Hwf as [Hw' _]; by eapply Forall_lookup_1 in Hw'|].
      intros k Hk. rewrite (proj2 (Z.leb_le _ _)) by lia. simpl.
      rewrite <- (vbit_lookup st _ w k Ew) by lia. f_equal. lia. }
    exists i. split; [done|]. split_and!; [lia|lia|done|]. intros j Hj.
    destruct (decide (j < 32 * (wi + 1))); [apply Hz; lia|apply H3; lia].
Qed.

Lemma FindIndex_spec st start :
  wf_words st -> 0 <= start <= 32 * Z.of_nat (length st) ->
  exists i, FindIndex st start = Some i /\ is_next st start i.
Proof.
  intros Hwf Hs. unfold FindIndex, kWordBits. destruct (split_index start) as (E & Hm & Hd); [lia|].
  destruct (Z.eqb_spec (start / 32) (Z.of_nat (length st))) as [El|Hl].
  { exists start. split; [done|]. split_and!; [lia|lia|left; lia|]. intros. lia. }
  destruct (lookup_lt_is_Some_2 st (Z.to_nat (start / 32))) as [w Ew]; [lia|]. rewrite Ew. cbn [mbind option_bind].
  rewrite land_1f. apply find_word_spec; [done|lia|].
  assert (is_u 32 w) as Hu by (destruct Hwf as [Hw' _]; by eapply Forall_lookup_1 in Hw').
  split_and!; [by apply land_is_u|lia|lia|lia|lia|]. intros k Hk.
  replace (vbit st (32 * (start / 32) + k)) with (Z.testbit w k)
    by (rewrite <- (vbit_lookup st _ w k Ew) by lia; f_equal; lia).
  replace (2 ^ 32 - 1) with (Z.ones 32) by done. autorewrite with art_bits.
  repeat case_ltb; cbn; rewrite ?andb_true_r, ?andb_false_r; (done || lia).
Qed.

Lemma indexes_from_spec st fuel i :
  wf_words st -> 0 <= i -> is_next st i i -> 32 * Z.of_nat (length st) - i <= Z.of_nat fuel ->
  indexes_from st fuel i =
    Some (filter (fun j => vbit st j = true) (seqZ i (32 * Z.of_nat (length st) - i))).
Proof.
  intros Hwf. pose proof Hwf as [_ Hs]. set (B := 32 * Z.of_nat (length st)) in *.
  revert i. induction fuel as [|fuel IH]; intros i Hi (Hle & Hv & _) Hf; cbn [indexes_from];
    rewrite BitSize_val by done; fold B; destruct (Z.eqb_spec i B) as [->|Hne];
    try (rewrite Z.sub_diag; done); [lia|].
  destruct Hv as [|Hv]; [lia|]. rewrite uN_small by (unfold is_u; lia).
  destruct (FindIndex_spec st (i + 1) Hwf) as (n & -> & (Hn & Hvn & Hz)); [lia|]. cbn [mbind option_bind].
  rewrite IH; [|lia|split; [lia|split; [done|intros; lia]]|lia]. cbn [mbind option_bind]. f_equal.
  rewrite (seqZ_cons i) by lia. rewrite filter_cons_True by done. f_equal.
  replace (Z.pred (B - i)) with ((n - (i + 1)) + (B - n)) by lia.
  rewrite seqZ_app by lia. rewrite filter_app. replace (Z.succ i + (n - (i + 1))) with n by lia.
  assert (filter (fun j => vbit st j = true) (seqZ (Z.succ i) (n - (i + 1))) = []) as ->; [|done].
  apply filter_none. intros j Hj. apply elem_of_seqZ in Hj. rewrite Hz by lia. done.
Qed.

(** ** Rows *)

Record wf_array (a : BitVectorArray) : Prop := {
  wa_data : wf (raw_data a);
  wa_columns : 0 <= num_columns_ a /\ num_columns_ a mod 32 = 0;
  wa_rows : 0 <= num_rows_ a;
  wa_fits : num_rows_ a * num_columns_ a <= 32 * Z.of_nat (length (storage_ (raw_data a))) }.

Definition cell (a : BitVectorArray) (row col : Z) : bool := bits (raw_data a) (row * num_columns_ a + col).

Lemma array_index_val a row col :
  wf_array a -> 0 <= row < num_rows_ a -> 0 <= col < num_columns_ a ->
  array_index a row col = row * num_columns_ a + col /\
  0 <= row * num_columns_ a + col < 32 * Z.of_nat (length (storage_ (raw_data a))).
Proof.
  intros [[_ Hs] _ _ Hf] Hr Hc.
  assert (0 <= row * num_columns_ a + col < num_rows_ a * num_columns_ a) by nia.
  split; [|lia]. apply uN_small. unfold is_u. lia.
Qed.

(** The pass over the words of a row, in the storage it reads from. *)
Lemma union_rows_loop st dest source n :
  (dest + n <= length st)%nat -> (source + n <= length st)%nat ->
  (dest + n <= source \/ source + n <= dest \/ source = dest)%nat ->
  exists st', for_loop 0 n
    (fun i st => d ← st !! (dest + i)%nat; s ← st !! (source + i)%nat; Some (<[(dest + i)%nat := d .| s]> st)) st
      = Some st' /\ length st' = length st /\
    forall j, st' !! j = if decide (dest <= j < dest + n)%nat
      then (fun d => d .| default 0 (st !! (source + (j - dest))%nat)) <$> st !! j else st !! j.
Proof.
  intros Hd Hs Hdis.
  destruct (for_loop_rule (fun i st' => length st' = length st /\
    forall j, st' !! j = if decide (dest <= j < dest + i)%nat
      then (fun d => d .| default 0 (st !! (source + (j - dest))%nat)) <$> st !! j else st !! j) 0 n
    (fun i st => d ← st !! (dest + i)%nat; s ← st !! (source + i)%nat; Some (<[(dest + i)%nat := d .| s]> st)) st)
    as (st' & E & H); [| |by exists st'].
  - split; [done|]. intros j. by rewrite decide_False by lia.
  - intros i st' Hi [Hl Hst].
    destruct (lookup_lt_is_Some_2 st (dest + i)) as [d Ed]; [lia|].
    destruct (lookup_lt_is_Some_2 st (source + i)) as [s Es]; [lia|].
    rewrite (Hst (dest + i)%nat), decide_False, Ed by lia. cbn [mbind option_bind].
    rewrite (Hst (source + i)%nat), decide_False, Es by lia. cbn [mbind option_bind].
    eexists. split; [done|]. rewrite length_insert. split; [done|]. intros j.
    destruct (decide (j = dest + i)%nat) as [->|Hne].
    + rewrite list_lookup_insert_eq by lia. rewrite decide_True, Ed by lia. simpl.
      by replace (source + (dest + i - dest))%nat with (source + i)%nat by lia; rewrite Es.
    + rewrite list_lookup_insert_ne by done. rewrite Hst. repeat case_decide; (done || lia).
Qed.

Lemma UnionRows_spec a dest other :
  wf_array a -> 0 <= dest < num_rows_ a -> 0 <= other < num_rows_ a ->
  exists a', UnionRows a dest other = Some a' /\ wf_array a' /\
    num_columns_ a' = num_columns_ a /\ num_rows_ a' = num_rows_ a /\
    forall row col, 0 <= row < num_rows_ a -> 0 <= col < num_columns_ a ->
      cell a' row col = cell a row col || ((row =? dest) && cell a other col).
Proof.
  intros [[Hw Hs] [Hc Hc32] Hr Hf] Hd Ho. unfold UnionRows, kWordBits.
  set (cols := num_columns_ a) in *. set (st := storage_ (raw_data a)) in *.
  set (n := Z.to_nat (cols / 32)).
  assert (cols = 32 * Z.of_nat n) as Ec by (subst n; Z.div_mod_to_equations; lia).
  assert (forall r, 0 <= r -> Z.to_nat (r * cols / 32) = (Z.to_nat r * n)%nat) as Ei.
  { intros r Hr'. rewrite Ec. replace (r * (32 * Z.of_nat n)) with (r * Z.of_nat n * 32) by lia.
    rewrite Z.div_mul by lia. rewrite Z2Nat.inj_mul, Nat2Z.id by lia. done. }
  rewrite !Ei by lia.
  assert (forall r, 0 <= r < num_rows_ a -> (Z.to_nat r * n + n <= length st)%nat) as Hin by (intros; nia).
  destruct (union_rows_loop st (Z.to_nat dest * n) (Z.to_nat other * n) n) as (st' & -> & Hl & H);
    [apply Hin; lia|apply Hin; lia| |].
  { destruct (decide (dest = other)) as [->|]; [right; by right|].
    destruct (decide (dest < other)); [left|right; left]; nia. }
  cbn [mbind option_bind].
  eexists. split; [done|].
  assert (Forall (is_u 32) st') as Hw'.
  { apply Forall_lookup_2. intros j w Hj. rewrite H in Hj. case_decide; [|by eapply Forall_lookup_1 in Hw].
    destruct (st !! j) as [d|] eqn:E; simplify_eq/=.
    apply lor_is_u; [lia|by eapply Forall_lookup_1 in Hw|by apply word_is_u]. }
  split_and!; [|done|done|].
  { split; simpl; [split; simpl; [done|by rewrite Hl]|done|done|fold st cols; lia]. }
  intros row col Hrow Hcol. unfold cell, bits. simpl. fold st cols.
  assert (forall r, 0 <= r -> r * cols + col = 32 * Z.of_nat (Z.to_nat r * n + Z.to_nat (col / 32)) + col mod 32) as Ex.
  { intros r Hr'. destruct (split_index col) as (E & Hm & Hdv); lia. }
  destruct (split_index col) as (E & Hm & Hdv); [lia|].
  rewrite !Ex by lia. rewrite !vbit_word by lia. set (k := Z.to_nat (col / 32)).
  assert (k < n)%nat by lia. rewrite H.
  destruct (lookup_lt_is_Some_2 st (Z.to_nat row * n + k)) as [w Ew]; [pose proof (Hin row Hrow); lia|].
  destruct (Z.eqb_spec row dest) as [->|Hne].
  - rewrite decide_True, Ew by lia. simpl. rewrite Z.lor_spec.
    by replace (Z.to_nat dest * n + k - Z.to_nat dest * n)%nat with k by lia.
  - rewrite decide_False by nia. by rewrite orb_false_r.
Qed.

(** ** Properties *)

(** single-bit operations and the initialisations act on a bit vector as on a set of
    indexes, growing the storage when an index is beyond it and the vector is expandable, as it must be; no word outside of the storage is
    ever accessed. *)
Theorem BitVector_bits (v : BitVector) (idx num_bits : Z)
    (Hv : wf v) (Hidx : 0 <= idx < 2 ^ 31) (Hn : 0 <= num_bits <= 2 ^ 31) :
  (if decide (can_hold v idx) then exists v', SetBit v idx = Some v' /\ wf v' /\
     forall i, 0 <= i -> IsBitSet v' i = Some ((i =? idx) || bits v i) else SetBit v idx = None) /\
  (exists v', ClearBit v idx = Some v' /\ wf v' /\
     forall i, 0 <= i -> IsBitSet v' i = Some (negb (i =? idx) && bits v i)) /\
  (can_hold v (num_bits - 1) -> exists v', SetInitialBits v num_bits = Some v' /\ wf v' /\
     forall i, 0 <= i -> IsBitSet v' i = Some (i <? num_bits)) /\
  (wf (ClearAllBits v) /\ forall i, 0 <= i -> IsBitSet (ClearAllBits v) i = Some false).
Proof.
  split_and!.
  - case_decide as Hc; [|by apply SetBit_None]. destruct (SetBit_spec v idx Hv Hidx Hc) as (v' & E & Hw & _ & _ & _ & Hb). exists v'. split_and!; [done|done|].
    intros i Hi. by rewrite IsBitSet_spec, Hb by done.
  - destruct (ClearBit_spec v idx Hv) as (v' & E & Hw & _ & _ & Hb); [lia|]. exists v'. split_and!; [done|done|].
    intros i Hi. by rewrite IsBitSet_spec, Hb by done.
  - intros Hc. destruct (SetInitialBits_spec v num_bits Hv Hn Hc) as (v' & E & Hw & Hb). exists v'. split_and!; [done|done|].
    intros i Hi. by rewrite IsBitSet_spec, Hb by done.
  - by apply ClearAllBits_spec.
  - intros i Hi. destruct (ClearAllBits_spec v Hv) as [Hw Hb]. by rewrite IsBitSet_spec, Hb by done.
Qed.

(** C32: the bulk operations are intersection, union, difference and copy of sets whatever the
    sizes of the storages, and the flags returned by [Union] and [UnionIfNotIn] tell exactly
    whether the set has grown.  The operations that can enlarge the storage need a vector that is expandable or
    has room for the bits of the other one, and have no result for all others. *)
Theorem BitVector_set_algebra (v src not_in : BitVector) (Hv : wf v) (Hs : wf src) (Hn : wf not_in) :
  (exists v', Intersect v src = Some v' /\ wf v' /\
     forall i, 0 <= i -> bits v' i = bits v i && bits src i) /\
  (exists v', Subtract v src = Some v' /\ wf v' /\
     forall i, 0 <= i -> bits v' i = bits v i && negb (bits src i)) /\
  (can_hold_all v src -> exists v', Copy v src = Some v' /\ wf v' /\ forall i, 0 <= i -> bits v' i = bits src i) /\
  (can_hold_all v src -> exists changed v', Union v src = Some (changed, v') /\ wf v' /\
     (forall i, 0 <= i -> bits v' i = bits v i || bits src i) /\
     (changed = true <-> ~ same_bits v v')) /\
  (can_hold_all v src -> exists changed v', UnionIfNotIn v src not_in = Some (changed, v') /\ wf v' /\
     (forall i, 0 <= i -> bits v' i = bits v i || (bits src i && negb (bits not_in i))) /\
     (changed = true <-> exists i, 0 <= i /\ bits v i <> bits v' i)) /\
  (~ can_hold_all v src -> Copy v src = None /\ Union v src = None /\ UnionIfNotIn v src not_in = None).
Proof.
  split_and!.
  - destruct (Intersect_spec v src Hv Hs) as (v' & ? & ? & _ & ?). by exists v'.
  - destruct (Subtract_spec v src Hv Hs) as (v' & ? & ? & _ & ?). by exists v'.
  - by apply Copy_spec.
  - intros Hc0. destruct (Union_spec v src Hv Hs Hc0) as (ch & v' & E & Hw & Hb & Hc). exists ch, v'.
    split_and!; [done|done|done|]. rewrite Hc. split.
    + intros (i & Hi & H1 & H2) H. specialize (H i Hi). by rewrite Hb, H1, H2 in H.
    + intros Hne. destruct ch; [by apply Hc|]. destruct Hne. intros i Hi. rewrite Hb by done.
      destruct (bits v i) eqn:E1, (bits src i) eqn:E2; try done.
      enough (false = true) by done. apply Hc. by exists i.
  - intros Hc0. destruct (UnionIfNotIn_spec v src not_in Hv Hs Hn Hc0) as (ch & v' & E & Hw & Hb & Hc). exists ch, v'.
    split_and!; [done|done|done|]. rewrite Hc. split; intros (i & Hi & H); exists i; rewrite Hb in * by done;
      (split; [done|]); revert H; clear; destruct (bits v i), (bits src i), (bits not_in i);
      simpl; intuition congruence.
  - intros Hc0. by apply no_room_None.
Qed.

Lemma BitVector_set_algebra_witness :
  exists changed v', Union (BV [5] true) (BV [0; 6] true) = Some (changed, v') /\ wf v' /\
    (forall i, 0 <= i -> bits v' i = bits (BV [5] true) i || bits (BV [0; 6] true) i) /\
    (changed = true <-> ~ same_bits (BV [5] true) v').
Proof.
  apply (BitVector_set_algebra (BV [5] true) (BV [0; 6] true) (BV [] true)); [..|by left];
    split; simpl; solve [repeat constructor; unfold is_u; lia|lia].
Defined.

(** [SameBitsSet] decides whether two vectors hold the same set although it compares only
    the words below the highest bit, [IsSubsetOf] decides inclusion, and [Equal] the equality of
    set, size and expandability; none reads beyond either storage. *)
Theorem BitVector_comparisons (v src : BitVector) (Hv : wf v) (Hs : wf src) :
  (exists b, SameBitsSet v src = Some b /\ (b = true <-> same_bits v src)) /\
  (exists b, IsSubsetOf v src = Some b /\
     (b = true <-> forall i, 0 <= i -> bits v i = true -> bits src i = true)) /\
  (exists b, Equal v src = Some b /\
     (b = true <-> length (storage_ v) = length (storage_ src) /\ expandable_ v = expandable_ src /\
        same_bits v src)).
Proof. split_and!; [by apply SameBitsSet_spec|by apply IsSubsetOf_spec|by apply Equal_spec]. Qed.

(** C38: iterating over [Indexes] visits exactly the set bits in increasing order and ends,
    [GetHighestBitSet] is the greatest of them or -1, and [NumSetBits] counts them, also below a
    given end. *)
Theorem BitVector_enumeration (v : BitVector) (end_ : Z)
    (Hv : wf v) (He : 0 <= end_ <= 32 * Z.of_nat (length (storage_ v))) :
  Indexes v = Some (filter (fun i => bits v i = true) (seqZ 0 (32 * Z.of_nat (length (storage_ v))))) /\
  is_highest (storage_ v) (GetHighestBitSet v) /\
  NumSetBits v = count_bits (32 * length (storage_ v)) (bits v) /\
  NumSetBitsRange (storage_ v) end_ = Some (count_bits (Z.to_nat end_) (bits v)).
Proof.
  split_and!; [|by apply GetHighestBitSet_spec|by apply NumSetBits_spec|by apply NumSetBitsRange_spec].
  unfold Indexes. destruct (FindIndex_spec (storage_ v) 0 Hv) as (i & -> & (Hi & Hb & Hz)); [lia|].
  cbn [mbind option_bind]. rewrite indexes_from_spec; [|done|lia|split; [lia|split; [done|intros; lia]]|lia].
  f_equal. replace (32 * Z.of_nat (length (storage_ v))) with (i + (32 * Z.of_nat (length (storage_ v)) - i)) at 2 by lia.
  rewrite seqZ_app by lia. rewrite filter_app, (filter_none _ (seqZ 0 i)); [by rewrite Z.add_0_l|].
  intros j Hj. apply elem_of_seqZ in Hj. unfold bits. by rewrite Hz by lia.
Qed.

Lemma BitVector_enumeration_witness :
  Indexes (BV [5; 0; 0x80000000] true) =
    Some (filter (fun i => bits (BV [5; 0; 0x80000000] true) i = true) (seqZ 0 96)).
Proof.
  apply (BitVector_enumeration (BV [5; 0; 0x80000000] true) 40); [|simpl; lia].
  split; simpl; [repeat constructor; unfold is_u; lia|lia].
Defined.

(** [UnionRows] adds the set bits of one row of a bit vector array to another row and
    changes no other row, also when both are the same row. *)
Theorem UnionRows_correct (a : BitVectorArray) (dest other : Z)
    (Ha : wf_array a) (Hd : 0 <= dest < num_rows_ a) (Ho : 0 <= other < num_rows_ a) :
  exists a', UnionRows a dest other = Some a' /\ wf_array a' /\
    forall row col, 0 <= row < num_rows_ a -> 0 <= col < num_columns_ a ->
      ArrayIsBitSet a' row col =
        Some (cell a row col || ((row =? dest) && cell a other col)).
Proof.
  destruct (UnionRows_spec a dest other Ha Hd Ho) as (a' & E & Hw & Ec & Er & H). exists a'.
  split_and!; [done|done|]. intros row col Hrow Hcol. unfold ArrayIsBitSet.
  destruct (array_index_val a' row col Hw) as [-> Hi]; [lia|lia|].
  rewrite IsBitSet_spec by (apply Hw || lia). f_equal. apply H; lia.
Qed.
