(* ===== verification/HashSet.v ===== *)
(** Open-addressing hash sets: libartbase/base/hash_set.h.

    The template parameters are the class [HashSetTraits] and what the set relies on is
    [HashSetLaws].  The bucket array is a list; loops that probe it have the number of buckets as
    fuel and return [None] when it runs out, which stands for a loop that does not end.  The load
    factors are doubles in the code: the two computations made with them are the parameters
    [mul_max_load] and [div_min_load] of the operations that resize. *)
From S2P Require Import Prelude.

Class HashSetTraits (T : Type) := {
  MakeEmpty : T;
  IsEmpty : T -> bool;
  hashfn : T -> Z;
  pred : T -> T -> bool }.

Class HashSetLaws (T : Type) `{HashSetTraits T} := {
  IsEmpty_MakeEmpty : IsEmpty MakeEmpty = true;
  hashfn_nonneg x : 0 <= hashfn x;
  pred_refl x : pred x x = true;
  pred_sym x y : pred x y = true -> pred y x = true;
  pred_trans x y z : pred x y = true -> pred y z = true -> pred x z = true;
  pred_hash x y : pred x y = true -> hashfn x = hashfn y }.

Definition kMinBuckets : Z := 1000.

Section hash_set.
Context {T : Type} `{HashSetTraits T}.

Record HashSet := Hash {
  data_ : list T;
  num_elements_ : Z;
  elements_until_expand_ : Z }.

Definition NumBuckets (d : list T) : Z := Z.of_nat (length d).

Definition size (s : HashSet) : Z := num_elements_ s.
Definition empty (s : HashSet) : bool := size s =? 0.

Definition clear (s : HashSet) : HashSet := Hash [] 0 0.

(** ** Indexes *)

Definition IndexForHash (d : list T) (hash : Z) : Z :=
  if NumBuckets d =? 0 then 0 else hash mod NumBuckets d.

Definition NextIndex (d : list T) (index : Z) : Z :=
  let index := index + 1 in if NumBuckets d <=? index then 0 else index.

Definition ElementForIndex (d : list T) (index : Z) : option T := d !! Z.to_nat index.

Definition IsFreeSlot (d : list T) (index : Z) : option bool :=
  x ← ElementForIndex d index; Some (IsEmpty x).

(** ** Searching *)

(** The slot of an equal element, or the empty slot the search stopped at. *)
Fixpoint find_loop (fuel : nat) (kCanFind : bool) (d : list T) (element : T) (index : Z) :
    option (Z * bool) :=
  slot ← ElementForIndex d index;
  if IsEmpty slot then Some (index, false)
  else if kCanFind && pred slot element then Some (index, true)
  else match fuel with
       | O => None
       | S fuel => find_loop fuel kCanFind d element (NextIndex d index)
       end.

Definition FindIndexImpl (kCanFind : bool) (d : list T) (element : T) (hash : Z) : option (Z * bool) :=
  find_loop (length d) kCanFind d element (IndexForHash d hash).

Definition FindIndex (d : list T) (element : T) (hash : Z) : option Z :=
  if NumBuckets d =? 0 then Some 0
  else
    '(index, found) ← FindIndexImpl true d element hash;
    Some (if found : bool then index else NumBuckets d).

Definition find (s : HashSet) (key : T) : option Z := FindIndex (data_ s) key (hashfn key).

Fixpoint first_available (fuel : nat) (d : list T) (index : Z) : option Z :=
  x ← ElementForIndex d index;
  if negb (IsEmpty x) then
    match fuel with
    | O => None
    | S fuel => first_available fuel d (NextIndex d index)
    end
  else Some index.

Definition FirstAvailableSlot (d : list T) (index : Z) : option Z := first_available (length d) d index.

(** ** Iteration *)

Fixpoint next_non_empty (fuel : nat) (d : list T) (index : Z) : option Z :=
  let index := index + 1 in
  if index <? NumBuckets d then
    free ← IsFreeSlot d index;
    if free : bool then
      match fuel with
      | O => None
      | S fuel => next_non_empty fuel d index
      end
    else Some index
  else Some index.

Definition NextNonEmptySlot (d : list T) (index : Z) : option Z := next_non_empty (length d) d index.

Definition begin (s : HashSet) : option Z :=
  if negb (NumBuckets (data_ s) =? 0) then
    free ← IsFreeSlot (data_ s) 0;
    if free : bool then NextNonEmptySlot (data_ s) 0 else Some 0
  else Some 0.

(** The elements a loop from [begin()] to [end()] visits. *)
Fixpoint iterate (fuel : nat) (d : list T) (index : Z) : option (list T) :=
  if index =? NumBuckets d then Some []
  else match fuel with
       | O => None
       | S fuel =>
           x ← ElementForIndex d index;
           next ← NextNonEmptySlot d index;
           rest ← iterate fuel d next;
           Some (x :: rest)
       end.

(** ** Resizing *)

Section resize.
Context (mul_max_load div_min_load : Z -> Z).

Definition AllocateStorage (num_buckets : Z) : list T := replicate (Z.to_nat num_buckets) MakeEmpty.

Fixpoint reinsert (old : list T) (d : list T) : option (list T) :=
  match old with
  | [] => Some d
  | element :: old =>
      d ← if negb (IsEmpty element) then
            slot ← FirstAvailableSlot d (IndexForHash d (hashfn element));
            Some (<[Z.to_nat slot := element]> d)
          else Some d;
      reinsert old d
  end.

Definition Resize (s : HashSet) (new_size : Z) : option HashSet :=
  let new_size := if new_size <? kMinBuckets then kMinBuckets else new_size in
  d ← reinsert (data_ s) (AllocateStorage new_size);
  Some (Hash d (num_elements_ s) (mul_max_load (NumBuckets d))).

Definition Expand (s : HashSet) : option HashSet := Resize s (div_min_load (size s)).

(** ** Insertion *)

Definition InsertWithHash (s : HashSet) (element : T) (hash : Z) : option (HashSet * Z * bool) :=
  s ← if elements_until_expand_ s <=? num_elements_ s then Expand s else Some s;
  '(index, found) ← FindIndexImpl true (data_ s) element hash;
  if found : bool then Some (s, index, false)
  else Some (Hash (<[Z.to_nat index := element]> (data_ s)) (num_elements_ s + 1)
               (elements_until_expand_ s), index, true).

Definition insert (s : HashSet) (element : T) : option (HashSet * Z * bool) :=
  InsertWithHash s element (hashfn element).

Definition PutWithHash (s : HashSet) (element : T) (hash : Z) : option HashSet :=
  s ← if elements_until_expand_ s <=? num_elements_ s then Expand s else Some s;
  '(index, _) ← FindIndexImpl false (data_ s) element hash;
  Some (Hash (<[Z.to_nat index := element]> (data_ s)) (num_elements_ s + 1)
          (elements_until_expand_ s)).

Definition Put (s : HashSet) (element : T) : option HashSet := PutWithHash s element (hashfn element).

(** ** Reserving

    [div_max_load] is the division by the maximal load factor. *)

Definition ShrinkToMaximumLoad (div_max_load : Z -> Z) (s : HashSet) : option HashSet :=
  Resize s (div_max_load (size s)).

Fixpoint reserve_buckets (fuel : nat) (num_elements num_buckets : Z) : option Z :=
  if mul_max_load num_buckets <=? num_elements + 1 then
    match fuel with
    | O => None
    | S fuel => reserve_buckets fuel num_elements (num_buckets + 1)
    end
  else Some num_buckets.

Definition reserve (div_max_load : Z -> Z) (s : HashSet) (num_elements : Z) : option HashSet :=
  num_buckets ← reserve_buckets (Z.to_nat num_elements + 4) num_elements (div_max_load num_elements);
  if NumBuckets (data_ s) <? num_buckets then Resize s num_buckets else Some s.
End resize.

(** ** Erasure *)

Definition unwrap (d : list T) (empty_index index : Z) : Z :=
  if index <? empty_index then index + NumBuckets d else index.

Fixpoint erase_loop (fuel : nat) (d : list T) (empty_index next_index : Z) (filled : bool) :
    option (list T * bool) :=
  let next_index := NextIndex d next_index in
  next_element ← ElementForIndex d next_index;
  if IsEmpty next_element then Some (<[Z.to_nat empty_index := MakeEmpty]> d, filled)
  else
    match fuel with
    | O => None
    | S fuel =>
        let next_ideal_index := IndexForHash d (hashfn next_element) in
        let unwrapped_next_index := unwrap d empty_index next_index in
        let unwrapped_next_ideal_index := unwrap d empty_index next_ideal_index in
        if (unwrapped_next_ideal_index <=? empty_index)
           || (unwrapped_next_index <? unwrapped_next_ideal_index)
        then erase_loop fuel (<[Z.to_nat empty_index := next_element]> d) next_index next_index true
        else erase_loop fuel d empty_index next_index filled
    end.

(** The new set and the index of the iterator that is returned. *)
Definition erase (s : HashSet) (index : Z) : option (HashSet * Z) :=
  '(d, filled) ← erase_loop (length (data_ s)) (data_ s) index index false;
  index ← if filled : bool then Some index else NextNonEmptySlot d index;
  Some (Hash d (num_elements_ s - 1) (elements_until_expand_ s), index).

(** ** Checking *)

Fixpoint total_probe_distance (d rest : list T) (i : Z) : Z :=
  match rest with
  | [] => 0
  | element :: rest =>
      let here :=
        if negb (IsEmpty element) then
          let ideal_location := IndexForHash d (hashfn element) in
          if i <? ideal_location then i + NumBuckets d - ideal_location else i - ideal_location
        else 0 in
      here + total_probe_distance d rest (i + 1)
  end.

Definition TotalProbeDistance (s : HashSet) : Z := total_probe_distance (data_ s) (data_ s) 0.

(** The number of elements that would not be reinserted where they are. *)
Fixpoint verify_from (d rest : list T) (i : nat) : option Z :=
  match rest with
  | [] => Some 0
  | element :: rest =>
      error ←
        if negb (IsEmpty element) then
          first_slot ← FirstAvailableSlot (<[i := MakeEmpty]> d) (IndexForHash d (hashfn element));
          Some (if negb (Z.of_nat i =? first_slot) then 1 else 0)
        else Some 0;
      errors ← verify_from d rest (S i);
      Some (error + errors)
  end.

Definition Verify (s : HashSet) : option Z := verify_from (data_ s) (data_ s) 0.
End hash_set.

Arguments HashSet : clear implicits.

(** ** Lemmas *)

Definition in_range {T} (d : list T) (p : Z) : Prop := 0 <= p < NumBuckets d.

(** The distance from slot [a] forward to slot [b]. *)
Definition cdist (n a b : Z) : Z := if a <=? b then b - a else b - a + n.

(** Arithmetic on positions round the table. *)
Ltac cyc :=
  unfold in_range, cdist, NextIndex, unwrap in *;
  repeat match goal with
  | H : context [?a <=? ?b] |- _ => destruct (Z.leb_spec a b)
  | H : context [?a <? ?b] |- _ => destruct (Z.ltb_spec a b)
  | |- context [?a <=? ?b] => destruct (Z.leb_spec a b)
  | |- context [?a <? ?b] => destruct (Z.ltb_spec a b)
  end; lia.

Section laws.
Context {T : Type} `{HashSetLaws T}.
#[local] Set Default Proof Using "All".
Implicit Types (d : list T) (x y : T).

(** The slot holds an element. *)
Definition occ (d : list T) (p : Z) : bool :=
  match ElementForIndex d p with Some x => negb (IsEmpty x) | None => false end.

Definition ideal (d : list T) (x : T) : Z := IndexForHash d (hashfn x).

Definition elements (d : list T) : list T := filter (fun x => IsEmpty x = false) d.

(** No free slot lies between the ideal slot of an element and the slot it is in. *)
Definition reachable_at (d : list T) (i : Z) (x : T) : Prop :=
  forall p, in_range d p -> cdist (NumBuckets d) (ideal d x) p < cdist (NumBuckets d) (ideal d x) i ->
  occ d p = true.

Definition reachable (d : list T) : Prop :=
  forall i x, in_range d i -> ElementForIndex d i = Some x -> IsEmpty x = false -> reachable_at d i x.

Lemma slot_lookup d p : in_range d p -> exists x, ElementForIndex d p = Some x.
Proof. unfold in_range, NumBuckets, ElementForIndex. intros Hp. apply lookup_lt_is_Some_2. lia. Qed.

Lemma ideal_range d x : 0 < NumBuckets d -> in_range d (ideal d x).
Proof.
  intros Hn. unfold in_range, ideal, IndexForHash. destruct (Z.eqb_spec (NumBuckets d) 0); [lia|].
  apply Z.mod_pos_bound. lia.
Qed.

Lemma occ_spec d p x : ElementForIndex d p = Some x -> occ d p = negb (IsEmpty x).
Proof. unfold occ. by intros ->. Qed.

Lemma next_range d i : in_range d i -> in_range d (NextIndex d i).
Proof. unfold in_range, NextIndex. intros. case_ltb; lia. Qed.

Lemma next_cdist d a i :
  in_range d a -> in_range d i -> cdist (NumBuckets d) a i + 1 < NumBuckets d ->
  cdist (NumBuckets d) a (NextIndex d i) = cdist (NumBuckets d) a i + 1.
Proof. intros. cyc. Qed.

(** ** Lists of slots *)

Lemma NumBuckets_insert d i x : NumBuckets (<[i := x]> d) = NumBuckets d.
Proof. unfold NumBuckets. by rewrite length_insert. Qed.

Lemma lookup_insert_slot d i p x :
  in_range d i -> in_range d p ->
  ElementForIndex (<[Z.to_nat i := x]> d) p = if p =? i then Some x else ElementForIndex d p.
Proof.
  unfold in_range, NumBuckets, ElementForIndex. intros Hi Hp. case_ltb.
  - subst. apply list_lookup_insert_eq. lia.
  - apply list_lookup_insert_ne. lia.
Qed.

Lemma occ_insert d i p x :
  in_range d i -> in_range d p ->
  occ (<[Z.to_nat i := x]> d) p = if p =? i then negb (IsEmpty x) else occ d p.
Proof. intros Hi Hp. unfold occ. rewrite lookup_insert_slot by done. by case_ltb. Qed.

Lemma ideal_insert d i y x : ideal (<[i := y]> d) x = ideal d x.
Proof. unfold ideal, IndexForHash. by rewrite NumBuckets_insert. Qed.

Lemma elements_insert d i x y :
  ElementForIndex d i = Some y -> IsEmpty y = true -> IsEmpty x = false ->
  elements (<[Z.to_nat i := x]> d) ≡ₚ x :: elements d.
Proof.
  unfold ElementForIndex, elements. intros Hi Hy Hx.
  rewrite <- (take_drop_middle d _ _ Hi) at 2. pose proof (lookup_lt_Some _ _ _ Hi).
  rewrite insert_take_drop by done. rewrite !filter_app, filter_cons_True, filter_cons_False by congruence.
  by rewrite Permutation_middle.
Qed.

Lemma elements_remove d i x :
  ElementForIndex d i = Some x -> IsEmpty x = false ->
  elements d ≡ₚ x :: elements (<[Z.to_nat i := MakeEmpty]> d).
Proof.
  intros Hi Hx. pose proof Hi as Hl. unfold ElementForIndex in Hl. pose proof (lookup_lt_Some _ _ _ Hl).
  rewrite <- (elements_insert (<[Z.to_nat i := MakeEmpty]> d) i x MakeEmpty).
  - rewrite list_insert_insert_eq. by rewrite list_insert_id.
  - unfold ElementForIndex. by rewrite list_lookup_insert_eq.
  - apply IsEmpty_MakeEmpty.
  - done.
Qed.

Lemma elements_empty_length d : (length (elements d) <= length d)%nat.
Proof. apply length_filter. Qed.

Lemma free_slot d :
  (length (elements d) < length d)%nat -> exists z, in_range d z /\ occ d z = false.
Proof.
  intros Hl. enough (exists i x, d !! i = Some x /\ IsEmpty x = true) as (i & x & Hi & Hx).
  { exists (Z.of_nat i). pose proof (lookup_lt_Some _ _ _ Hi).
    unfold in_range, NumBuckets, occ, ElementForIndex. rewrite Nat2Z.id, Hi, Hx. split; [lia|done]. }
  induction d as [|x d IH]; [simpl in Hl; lia|]. destruct (IsEmpty x) eqn:Hx.
  - by exists 0%nat, x.
  - destruct IH as (i & y & ? & ?).
    + unfold elements in Hl. rewrite filter_cons_True in Hl by done. simpl in Hl. unfold elements. lia.
    + by exists (S i), y.
Qed.

(** ** The probe loop *)

(** The state of a probe from [start] that has got to [i]. *)
Definition probed (kCanFind : bool) (d : list T) (element : T) (start i : Z) : Prop :=
  in_range d i /\
  forall p y, in_range d p -> cdist (NumBuckets d) start p < cdist (NumBuckets d) start i ->
  ElementForIndex d p = Some y -> IsEmpty y = false /\ kCanFind && pred y element = false.

Lemma probed_next kCanFind d element start i y z :
  in_range d start -> probed kCanFind d element start i ->
  ElementForIndex d i = Some y -> IsEmpty y = false -> kCanFind && pred y element = false ->
  in_range d z -> occ d z = false ->
  cdist (NumBuckets d) start (NextIndex d i) = cdist (NumBuckets d) start i + 1 /\
  cdist (NumBuckets d) start i < cdist (NumBuckets d) start z /\
  probed kCanFind d element start (NextIndex d i).
Proof.
  intros Hs [Hi Hp] Hy Hye Hyp Hz Hzf.
  assert (cdist (NumBuckets d) start i < cdist (NumBuckets d) start z) as Hlt.
  { destruct (slot_lookup d z Hz) as [yz Hyz]. rewrite (occ_spec _ _ _ Hyz) in Hzf.
    destruct (decide (cdist (NumBuckets d) start z < cdist (NumBuckets d) start i)) as [Hc|Hc].
    - destruct (Hp z yz Hz Hc Hyz) as [He _]. by rewrite He in Hzf.
    - enough (z <> i) by (cyc).
      intros ->. simplify_eq. by rewrite Hye in Hzf. }
  assert (cdist (NumBuckets d) start (NextIndex d i) = cdist (NumBuckets d) start i + 1) as Hn.
  { apply next_cdist; [done..|]. cyc. }
  split_and!; [done..|]. split; [by apply next_range|]. intros p yp Hpr Hlt' Hyp'.
  destruct (decide (p = i)) as [->|Hne]; [by simplify_eq|].
  apply (Hp p yp); [done| |done]. rewrite Hn in Hlt'. cyc.
Qed.

Definition probe_result (kCanFind : bool) (d : list T) (element : T) (start : Z) (r : Z * bool) : Prop :=
  probed kCanFind d element start r.1 /\
  exists y, ElementForIndex d r.1 = Some y /\
    if r.2 then IsEmpty y = false /\ kCanFind = true /\ pred y element = true else IsEmpty y = true.

Lemma find_loop_spec fuel kCanFind d element start i z :
  in_range d start -> probed kCanFind d element start i -> in_range d z -> occ d z = false ->
  cdist (NumBuckets d) start z - cdist (NumBuckets d) start i <= Z.of_nat fuel ->
  exists r, find_loop fuel kCanFind d element i = Some r /\ probe_result kCanFind d element start r.
Proof.
  intros Hs Hp Hz Hzf. revert i Hp. induction fuel as [|fuel IH]; intros i Hp Hf.
  all: destruct (slot_lookup d i (proj1 Hp)) as [y Hy]; cbn [find_loop]; rewrite Hy;
    cbn [mbind option_bind]; destruct (IsEmpty y) eqn:He;
    [by (exists (i, false); split; [done|split; [done|exists y]])|];
    destruct (kCanFind && pred y element) eqn:Hc;
    [apply andb_true_iff in Hc as [-> Hc]; by (exists (i, true); split; [done|split; [done|exists y]])|];
    destruct (probed_next _ _ _ _ _ _ z Hs Hp Hy He Hc Hz Hzf) as (Hn & Hlt & Hp').
  - lia.
  - apply IH; [done|lia].
Qed.

Lemma FindIndexImpl_spec kCanFind d element hash :
  0 <= hash -> (length (elements d) < length d)%nat ->
  exists r, FindIndexImpl kCanFind d element hash = Some r /\
            probe_result kCanFind d element (IndexForHash d hash) r.
Proof.
  intros Hh Hl. destruct (free_slot d Hl) as (z & Hz & Hzf).
  assert (in_range d (IndexForHash d hash)) as Hr.
  { unfold IndexForHash, in_range in *. case_ltb; [lia|]. apply Z.mod_pos_bound. lia. }
  apply (find_loop_spec _ _ _ _ _ _ z); try done.
  - split; [done|]. intros p y Hp Hlt. cyc.
  - unfold in_range, cdist, NumBuckets in *. cyc.
Qed.

Lemma first_available_find_loop fuel d element i :
  first_available fuel d i = fst <$> find_loop fuel false d element i.
Proof.
  revert i. induction fuel as [|fuel IH]; intros i; cbn [first_available find_loop];
    destruct (ElementForIndex d i) as [y|]; try done; cbn [mbind option_bind andb];
    destruct (IsEmpty y); try done. cbn [negb]. apply IH.
Qed.

(** ** Putting an element in the slot a probe found *)

Lemma probed_reachable_at kCanFind d element start i :
  probed kCanFind d element start i ->
  forall p, in_range d p -> cdist (NumBuckets d) start p < cdist (NumBuckets d) start i -> occ d p = true.
Proof.
  intros [_ Hp] p Hr Hlt. destruct (slot_lookup d p Hr) as [y Hy]. rewrite (occ_spec _ _ _ Hy).
  destruct (Hp p y Hr Hlt Hy) as [-> _]. done.
Qed.

Lemma reachable_insert kCanFind d x i :
  reachable d -> IsEmpty x = false -> probe_result kCanFind d x (ideal d x) (i, false) ->
  reachable (<[Z.to_nat i := x]> d) /\ elements (<[Z.to_nat i := x]> d) ≡ₚ x :: elements d.
Proof.
  intros Hr Hx (Hp & y & Hy & He). simpl in *. pose proof (proj1 Hp) as Hi.
  split; [|by eapply elements_insert]. intros j w Hj Hw Hwe p Hpr.
  unfold in_range in Hj, Hpr. rewrite NumBuckets_insert in Hj, Hpr. fold (in_range d j) in Hj. fold (in_range d p) in Hpr.
  rewrite NumBuckets_insert, ideal_insert, occ_insert by done. rewrite lookup_insert_slot in Hw by done.
  intros Hlt. case_ltb; [by rewrite Hx|]. destruct (Z.eqb_spec j i) as [->|].
  - simplify_eq. by eapply probed_reachable_at.
  - by apply (Hr j w).
Qed.

Lemma in_range_length d d' p : length d = length d' -> in_range d p -> in_range d' p.
Proof. unfold in_range, NumBuckets. by intros ->. Qed.

Lemma elements_replicate n : elements (replicate n MakeEmpty) = [].
Proof.
  apply filter_none. intros x Hx. apply elem_of_replicate in Hx as [-> _].
  by rewrite IsEmpty_MakeEmpty.
Qed.

Lemma reachable_no_elements d : elements d = [] -> reachable d.
Proof.
  intros He i x _ Hx Hne. exfalso.
  assert (x ∈ elements d) as Hin.
  { apply list_elem_of_filter. split; [done|]. by eapply list_elem_of_lookup_2. }
  rewrite He in Hin. by apply not_elem_of_nil in Hin.
Qed.

Lemma FirstAvailableSlot_spec d x :
  (length (elements d) < length d)%nat ->
  exists i, FirstAvailableSlot d (ideal d x) = Some i /\ probe_result false d x (ideal d x) (i, false).
Proof.
  intros Hl. destruct (FindIndexImpl_spec false d x (hashfn x) (hashfn_nonneg x) Hl) as ([i b] & Hf & Hr).
  exists i. unfold FirstAvailableSlot, FindIndexImpl in *. rewrite (first_available_find_loop _ _ x).
  unfold ideal. rewrite Hf. split; [done|]. destruct b; [|done]. by destruct Hr as (_ & y & _ & _ & ? & _).
Qed.

(** ** Resizing *)

Lemma reinsert_spec old d :
  reachable d -> (length (elements old) + length (elements d) < length d)%nat ->
  exists d', reinsert old d = Some d' /\ reachable d' /\ length d' = length d /\
             elements d' ≡ₚ elements old ++ elements d.
Proof.
  revert d. induction old as [|x old IH]; intros d Hr Hl; cbn [reinsert].
  - exists d. by split_and!.
  - destruct (IsEmpty x) eqn:Hx; cbn [negb mbind option_bind]; unfold elements in *.
    + rewrite filter_cons_False in * by congruence. by apply IH.
    + rewrite filter_cons_True in * by done. simpl in Hl.
      destruct (FirstAvailableSlot_spec d x) as (i & Hi & Hp); [unfold elements; lia|].
      unfold ideal in Hi. rewrite Hi. cbn [mbind option_bind].
      destruct (reachable_insert _ _ _ _ Hr Hx Hp) as [Hr' Hel]. unfold elements in Hel.
      destruct (IH (<[Z.to_nat i := x]> d)) as (d' & -> & Hr2 & Hl2 & He2); [done| |].
      { rewrite Hel, length_insert. simpl. lia. }
      exists d'. rewrite length_insert in Hl2. split_and!; try done. rewrite He2, Hel. simpl.
      by rewrite Permutation_middle.
Qed.

(** No two elements are equal; the order does not matter. *)
Definition distinct (l : list T) : Prop := forall x y l', l ≡ₚ x :: y :: l' -> pred x y = false.

#[global] Instance distinct_proper : Proper ((≡ₚ) ==> iff) distinct.
Proof. intros l1 l2 Hl. unfold distinct. by setoid_rewrite Hl. Qed.

Lemma distinct_nil : distinct [].
Proof. intros x y l' Hl. by apply Permutation_nil_cons in Hl. Qed.

Lemma pred_false_sym x y : pred x y = false -> pred y x = false.
Proof. intros Hf. destruct (pred y x) eqn:E; [|done]. apply pred_sym in E. congruence. Qed.

Lemma distinct_cons x l :
  distinct (x :: l) <-> distinct l /\ forall y, y ∈ l -> pred y x = false.
Proof.
  split.
  - intros Hd. split.
    + intros a b l' Hl. apply (Hd a b (x :: l')). rewrite Hl. rewrite (Permutation_swap a x), (Permutation_swap b x). done.
    + intros y Hy. apply elem_of_Permutation in Hy as [l' Hl]. apply (Hd y x l').
      rewrite Hl. apply Permutation_swap.
  - intros [Hd Hx] a b l' Hl. assert (x ∈ a :: b :: l') as Hin by (rewrite <- Hl; left).
    apply elem_of_cons in Hin as [->|Hin].
    { apply Permutation_cons_inv in Hl. apply pred_false_sym, Hx. rewrite Hl. left. }
    apply elem_of_cons in Hin as [->|Hin].
    { rewrite (Permutation_swap b a) in Hl. apply Permutation_cons_inv in Hl. apply Hx. rewrite Hl. left. }
    apply elem_of_Permutation in Hin as [l2 Hl2]. apply (Hd a b l2).
    apply (Permutation_cons_inv (a := x)). rewrite Hl, Hl2.
    rewrite (Permutation_swap a x), (Permutation_swap b x). done.
Qed.

(** ** The invariant *)

Record inv (s : HashSet T) : Prop := {
  inv_reachable : reachable (data_ s);
  inv_count : num_elements_ s = Z.of_nat (length (elements (data_ s)));
  inv_distinct : distinct (elements (data_ s));
  inv_load : num_elements_ s <= elements_until_expand_ s;
  inv_room : (data_ s = [] /\ elements_until_expand_ s = 0) \/
             elements_until_expand_ s < NumBuckets (data_ s) }.

Lemma inv_free s : inv s -> data_ s <> [] -> (length (elements (data_ s)) < length (data_ s))%nat.
Proof.
  intros Hi Hne. pose proof (inv_count _ Hi). pose proof (inv_load _ Hi).
  destruct (inv_room _ Hi) as [[? _]|]; [done|]. unfold NumBuckets in *. lia.
Qed.

Lemma inv_clear s : inv (clear s).
Proof.
  constructor; simpl; [by apply reachable_no_elements|done|apply distinct_nil|lia|by left].
Qed.

(** ** Searching *)

Lemma elem_of_elements d y :
  y ∈ elements d <-> IsEmpty y = false /\ exists i, in_range d i /\ ElementForIndex d i = Some y.
Proof.
  unfold elements. rewrite list_elem_of_filter. split; intros [Hy Hin]; (split; [done|]).
  - apply list_elem_of_lookup_1 in Hin as [i Hi]. pose proof (lookup_lt_Some _ _ _ Hi).
    exists (Z.of_nat i). unfold in_range, NumBuckets, ElementForIndex. rewrite Nat2Z.id. split; [lia|done].
  - destruct Hin as (i & _ & Hi). by eapply list_elem_of_lookup_2.
Qed.

(** A probe that ends at a free slot has passed every element that equals the key. *)
Lemma probe_absent d x i y :
  reachable d -> probe_result true d x (ideal d x) (i, false) -> y ∈ elements d -> pred y x = false.
Proof.
  intros Hr ([Hi Hp] & w & Hw & Hwe) (Hy & j & Hj & Hjy)%elem_of_elements. simpl in *.
  destruct (pred y x) eqn:Hyx; [|done]. exfalso.
  assert (ideal d y = ideal d x) as Hid by (unfold ideal; by rewrite (pred_hash _ _ Hyx)).
  pose proof (Hr j y Hj Hjy Hy i Hi) as Hreach. rewrite Hid, (occ_spec _ _ _ Hw), Hwe in Hreach.
  destruct (decide (i = j)) as [->|Hne]; [congruence|].
  assert (in_range d (ideal d x)) as Hix by (apply ideal_range; cyc).
  destruct (decide (cdist (NumBuckets d) (ideal d x) i < cdist (NumBuckets d) (ideal d x) j)) as [Hc|Hc].
  { by specialize (Hreach Hc). }
  destruct (Hp j y Hj) as [_ Hno]; [|done|congruence]. cyc.
Qed.

Lemma find_spec s x :
  inv s -> exists i, find s x = Some i /\
  ((in_range (data_ s) i /\ exists y, ElementForIndex (data_ s) i = Some y /\ IsEmpty y = false /\ pred y x = true) \/
   (i = NumBuckets (data_ s) /\ forall y, y ∈ elements (data_ s) -> pred y x = false)).
Proof.
  intros Hi. unfold find, FindIndex. case_ltb.
  - exists 0. split; [done|]. right. unfold NumBuckets in *. split; [lia|]. intros y Hy.
    destruct (data_ s); [by apply not_elem_of_nil in Hy|]. simpl in *. lia.
  - destruct (FindIndexImpl_spec true (data_ s) x (hashfn x) (hashfn_nonneg x)) as ([i b] & -> & Hp).
    { apply inv_free; [done|]. intros He. by rewrite He in *. }
    cbn [mbind option_bind]. eexists. split; [done|]. destruct b.
    + left. destruct Hp as [[Hr _] (y & ? & ? & ? & ?)]. split; [done|]. by exists y.
    + right. split; [done|]. intros y. eapply probe_absent; [apply Hi|exact Hp].
Qed.
End laws.

(** ** Insertion *)

Section insertion.
Context {T : Type} `{HashSetLaws T} (mul_max_load div_min_load : Z -> Z).
(** What the two computations on doubles give: a table of [n] buckets expands before it is full,
    and the size chosen when expanding leaves room for one more element. *)
Context (mul_lt : forall n, kMinBuckets <= n -> 0 <= mul_max_load n < n).
Context (div_room : forall n, 0 <= n -> n < mul_max_load (Z.max kMinBuckets (div_min_load n))).
#[local] Set Default Proof Using "All".

Lemma Resize_spec s new_size :
  inv s -> num_elements_ s < mul_max_load (Z.max kMinBuckets new_size) ->
  exists s', Resize mul_max_load s new_size = Some s' /\ inv s' /\
    elements (data_ s') ≡ₚ elements (data_ s) /\ NumBuckets (data_ s') = Z.max kMinBuckets new_size /\
    num_elements_ s' < elements_until_expand_ s'.
Proof using H0 mul_lt.
  intros Hi Hroom. unfold Resize.
  replace (if new_size <? kMinBuckets then kMinBuckets else new_size) with (Z.max kMinBuckets new_size)
    by (case_ltb; lia).
  set (n := Z.max kMinBuckets new_size) in *. pose proof (mul_lt n ltac:(lia)) as Hml.
  pose proof (inv_count _ Hi) as Hc.
  destruct (reinsert_spec (data_ s) (AllocateStorage n)) as (d & -> & Hr & Hl & He);
    unfold AllocateStorage in *.
  - apply reachable_no_elements, elements_replicate.
  - rewrite elements_replicate, length_replicate. simpl. lia.
  - rewrite elements_replicate, app_nil_r in He. rewrite length_replicate in Hl.
    assert (NumBuckets d = n) as Hn by (unfold NumBuckets, kMinBuckets in *; lia).
    cbn [mbind option_bind]. eexists. split; [done|]. rewrite Hn.
    split_and!; try done. constructor; cbn [data_ num_elements_ elements_until_expand_]; try done.
    + by rewrite He.
    + rewrite He. apply Hi.
    + lia.
    + right. lia.
Qed.

Lemma Resize_load s new_size s' :
  Resize mul_max_load s new_size = Some s' ->
  elements_until_expand_ s' = mul_max_load (NumBuckets (data_ s')) /\ num_elements_ s' = num_elements_ s.
Proof using Type.
  unfold Resize. destruct (reinsert _ _) as [d|]; cbn [mbind option_bind]; [|done]. by intros [= <-].
Qed.

Lemma reserve_buckets_spec fuel n nb :
  n + 1 < mul_max_load (nb + Z.of_nat fuel) ->
  exists nb', reserve_buckets mul_max_load fuel n nb = Some nb' /\ nb <= nb' <= nb + Z.of_nat fuel /\
    n + 1 < mul_max_load nb'.
Proof using Type.
  revert nb. induction fuel as [|fuel IH]; intros nb Hn; simpl; case_ltb; try (exists nb; split_and!; done || lia).
  - rewrite Z.add_0_r in Hn. lia.
  - destruct (IH (nb + 1)) as (nb' & -> & ? & ?); [by replace (nb + 1 + Z.of_nat fuel) with (nb + Z.of_nat (S fuel)) by lia|].
    exists nb'. split_and!; (done || lia).
Qed.

(** After reserving, the set grows to more than [n] elements before it expands. *)
Lemma reserve_spec (div_max_load : Z -> Z) s n :
  (forall a b, a <= b -> mul_max_load a <= mul_max_load b) ->
  n + 1 < mul_max_load (div_max_load n + Z.of_nat (Z.to_nat n + 4)) ->
  inv s -> elements_until_expand_ s = mul_max_load (NumBuckets (data_ s)) -> num_elements_ s <= n ->
  exists s', reserve mul_max_load div_max_load s n = Some s' /\ inv s' /\
    elements (data_ s') ≡ₚ elements (data_ s) /\ num_elements_ s' = num_elements_ s /\
    elements_until_expand_ s' = mul_max_load (NumBuckets (data_ s')) /\ n + 1 < elements_until_expand_ s' /\
    NumBuckets (data_ s') <= Z.max (NumBuckets (data_ s))
      (Z.max kMinBuckets (div_max_load n + Z.of_nat (Z.to_nat n + 4))).
Proof using H0 mul_lt.
  intros Hmono Hfuel Hi He Hn. unfold reserve.
  destruct (reserve_buckets_spec _ n (div_max_load n) Hfuel) as (nb & -> & Hle & Hnb). cbn [mbind option_bind].
  case_ltb.
  - destruct (Resize_spec s nb) as (s' & Hs & Hi' & Hp & Hb & _); [done| |].
    { specialize (Hmono nb (Z.max kMinBuckets nb)). lia. }
    destruct (Resize_load s nb s' Hs) as [Hu Hc].
    exists s'. split_and!; try done; [|lia]. rewrite Hu, Hb. specialize (Hmono nb (Z.max kMinBuckets nb)). lia.
  - exists s. split_and!; try done; [|lia]. rewrite He. specialize (Hmono nb (NumBuckets (data_ s))). lia.
Qed.

(** The set with room for one more element that an insertion starts from. *)
Lemma make_room s :
  inv s ->
  exists s', (if elements_until_expand_ s <=? num_elements_ s then Expand mul_max_load div_min_load s
              else Some s) = Some s' /\
    inv s' /\ elements (data_ s') ≡ₚ elements (data_ s) /\ num_elements_ s' < elements_until_expand_ s' /\
    (length (elements (data_ s')) < length (data_ s'))%nat.
Proof.
  intros Hi. pose proof (inv_count _ Hi). case_ltb.
  - destruct (Resize_spec s (div_min_load (size s))) as (s' & Hs & Hi' & He & Hn & Hr); [done| |].
    { apply div_room. unfold size. lia. }
    exists s'. split_and!; try done. apply inv_free; [done|]. intros Hd. rewrite Hd in Hn.
    unfold NumBuckets, kMinBuckets in Hn. simpl in Hn. lia.
  - exists s. split_and!; try done. apply inv_free; [done|]. intros Hd.
    destruct (inv_room _ Hi) as [[_ Hx]|Hx]; [lia|]. rewrite Hd in Hx. unfold NumBuckets in Hx. simpl in Hx. lia.
Qed.

Lemma inv_put s x kCanFind i :
  inv s -> IsEmpty x = false -> num_elements_ s < elements_until_expand_ s ->
  (forall y, y ∈ elements (data_ s) -> pred y x = false) ->
  probe_result kCanFind (data_ s) x (ideal (data_ s) x) (i, false) ->
  let s' := Hash (<[Z.to_nat i := x]> (data_ s)) (num_elements_ s + 1) (elements_until_expand_ s) in
  inv s' /\ elements (data_ s') ≡ₚ x :: elements (data_ s).
Proof using H0.
  intros Hi Hx Hlt Habs Hp. destruct (reachable_insert _ _ _ _ (inv_reachable _ Hi) Hx Hp) as [Hr He].
  split; [|done]. constructor; cbn [data_ num_elements_ elements_until_expand_]; try done.
  - rewrite He, (inv_count _ Hi). simpl. lia.
  - rewrite He. apply distinct_cons. split; [apply Hi|done].
  - lia.
  - right. rewrite NumBuckets_insert. pose proof (inv_count _ Hi).
    destruct (inv_room _ Hi) as [[_ ?]|]; lia.
Qed.

Lemma insert_spec s x :
  inv s -> IsEmpty x = false ->
  exists s' i b y, insert mul_max_load div_min_load s x = Some (s', i, b) /\ inv s' /\
    ElementForIndex (data_ s') i = Some y /\ IsEmpty y = false /\ pred y x = true /\
    if b : bool
    then y = x /\ (forall w, w ∈ elements (data_ s) -> pred w x = false) /\
         elements (data_ s') ≡ₚ x :: elements (data_ s)
    else y ∈ elements (data_ s) /\ elements (data_ s') ≡ₚ elements (data_ s).
Proof.
  intros Hi Hx. unfold insert, InsertWithHash.
  destruct (make_room s Hi) as (s1 & -> & Hi1 & He1 & Hlt & Hfree). cbn [mbind option_bind].
  destruct (FindIndexImpl_spec true (data_ s1) x (hashfn x) (hashfn_nonneg x) Hfree) as ([i b] & -> & Hp).
  cbn [mbind option_bind]. destruct b.
  - destruct Hp as [[Hr _] (y & Hy & Hye & _ & Hyx)]. simpl in *.
    exists s1, i, false, y. split_and!; try done. rewrite <- He1. apply elem_of_elements. split; [done|]. by exists i.
  - assert (forall w, w ∈ elements (data_ s1) -> pred w x = false) as Habs.
    { intros w. eapply probe_absent; [apply Hi1|exact Hp]. }
    destruct (inv_put s1 x true i Hi1 Hx Hlt Habs Hp) as [Hi2 He2]. cbn [data_] in He2.
    eexists _, i, true, x. split_and!; try done.
    + pose proof (proj1 (proj1 Hp)). cbn [data_]. rewrite lookup_insert_slot by done. by rewrite Z.eqb_refl.
    + apply pred_refl.
    + intros w Hw. apply Habs. by rewrite He1.
    + cbn [data_]. by rewrite He2, He1.
Qed.

(** Without expansion an insertion only fills a free slot. *)
Lemma insert_slot s x :
  inv s -> IsEmpty x = false -> num_elements_ s < elements_until_expand_ s ->
  exists i b y, insert mul_max_load div_min_load s x =
      Some (if b : bool then Hash (<[Z.to_nat i := x]> (data_ s)) (num_elements_ s + 1) (elements_until_expand_ s)
            else s, i, b) /\
    in_range (data_ s) i /\ ElementForIndex (data_ s) i = Some y /\
    if b then IsEmpty y = true /\
      inv (Hash (<[Z.to_nat i := x]> (data_ s)) (num_elements_ s + 1) (elements_until_expand_ s))
    else IsEmpty y = false /\ pred y x = true.
Proof using H0.
  intros Hi Hx Hlt. unfold insert, InsertWithHash.
  replace (elements_until_expand_ s <=? num_elements_ s) with false by lia. cbn [mbind option_bind].
  assert (length (elements (data_ s)) < length (data_ s))%nat as Hfree.
  { apply inv_free; [done|]. intros Hd. pose proof (inv_count _ Hi).
    destruct (inv_room _ Hi) as [[_ Hr]|Hr]; [lia|]. rewrite Hd in Hr. unfold NumBuckets in Hr. simpl in Hr. lia. }
  destruct (FindIndexImpl_spec true (data_ s) x (hashfn x) (hashfn_nonneg x) Hfree) as ([i b] & -> & Hp).
  cbn [mbind option_bind]. pose proof Hp as [[Hr _] (y & Hy & Hye)]. simpl in *.
  destruct b; [exists i, false, y|exists i, true, y]; split_and!; try done; [apply Hye|by apply Hye|].
  apply (inv_put s x true); try done.
  intros w. eapply probe_absent; [apply Hi|exact Hp].
Qed.

Lemma Put_spec s x :
  inv s -> IsEmpty x = false -> (forall w, w ∈ elements (data_ s) -> pred w x = false) ->
  exists s', Put mul_max_load div_min_load s x = Some s' /\ inv s' /\
             elements (data_ s') ≡ₚ x :: elements (data_ s).
Proof.
  intros Hi Hx Habs. unfold Put, PutWithHash.
  destruct (make_room s Hi) as (s1 & -> & Hi1 & He1 & Hlt & Hfree). cbn [mbind option_bind].
  destruct (FindIndexImpl_spec false (data_ s1) x (hashfn x) (hashfn_nonneg x) Hfree) as ([i b] & -> & Hp).
  cbn [mbind option_bind]. destruct b; [by destruct Hp as (_ & ? & _ & _ & ? & _)|].
  destruct (inv_put s1 x false i Hi1 Hx Hlt) as [Hi2 He2]; [by setoid_rewrite He1|done|].
  eexists. split_and!; try done. rewrite He2. by rewrite He1.
Qed.
End insertion.

(** ** Sets whose hash function and equality change

    The elements may stand for data that moves: a set stays well-formed when every slot keeps its
    hash and the elements stay different. *)

Section relabelling.
Context {T : Type}.

Lemma distinct_slots `{HashSetLaws T} (d : list T) :
  distinct (elements d) <->
  forall i j x y, i <> j -> d !! i = Some x -> d !! j = Some y -> IsEmpty x = false -> IsEmpty y = false ->
  pred x y = false.
Proof using Type.
  assert (forall i x, d !! i = Some x -> IsEmpty x = false ->
    elements d ≡ₚ x :: elements (<[i := MakeEmpty]> d)) as Hrem.
  { intros i x Hi Hx. rewrite <- (Nat2Z.id i). apply elements_remove; [|done].
    unfold ElementForIndex. by rewrite Nat2Z.id. }
  split.
  - intros Hd i j x y Hij Hi Hj Hx Hy. pose proof (Hrem i x Hi Hx) as E.
    rewrite E in Hd. apply distinct_cons in Hd as [_ Hd]. apply pred_false_sym, Hd.
    apply list_elem_of_filter. split; [done|]. apply list_elem_of_lookup. exists j.
    by rewrite list_lookup_insert_ne.
  - intros Hd x y l' Hl. assert (x ∈ elements d) as Hin by (rewrite Hl; left).
    apply list_elem_of_filter in Hin as [Hx [i Hi]%list_elem_of_lookup].
    rewrite (Hrem i x Hi Hx) in Hl. apply Permutation_cons_inv in Hl.
    assert (y ∈ elements (<[i := MakeEmpty]> d)) as Hin by (rewrite Hl; left).
    apply list_elem_of_filter in Hin as [Hy [j Hj]%list_elem_of_lookup].
    destruct (decide (i = j)) as [->|Hij].
    + rewrite list_lookup_insert_eq in Hj by (by eapply lookup_lt_Some). injection Hj as <-.
      by rewrite IsEmpty_MakeEmpty in Hy.
    + rewrite list_lookup_insert_ne in Hj by done. by apply (Hd i j).
Qed.

Context (A B : HashSetTraits T) {LA : @HashSetLaws T A} {LB : @HashSetLaws T B}.

Definition relabels (x x' : T) : Prop :=
  @IsEmpty T B x' = @IsEmpty T A x /\ (@IsEmpty T A x = false -> @hashfn T B x' = @hashfn T A x).

Lemma relabels_occ d d' p : Forall2 relabels d d' -> @occ T B d' p = @occ T A d p.
Proof using Type.
  intros Hf. unfold occ, ElementForIndex.
  destruct (d !! Z.to_nat p) as [x|] eqn:E.
  - destruct (Forall2_lookup_l _ _ _ _ _ Hf E) as (x' & -> & [-> _]). done.
  - apply lookup_ge_None in E. rewrite (Forall2_length _ _ _ Hf) in E. by rewrite (lookup_ge_None_2 d').
Qed.

Lemma relabels_length d d' :
  Forall2 relabels d d' -> length (@elements T B d') = length (@elements T A d).
Proof using Type.
  unfold elements. induction 1 as [|x x' d d' [He _] Hf IH]; [done|]. rewrite !filter_cons, He.
  case_decide; simpl; congruence.
Qed.

Lemma inv_relabel s s' :
  @inv T A s -> Forall2 relabels (data_ s) (data_ s') ->
  (forall i j x y x' y', data_ s !! i = Some x -> data_ s !! j = Some y -> data_ s' !! i = Some x' ->
     data_ s' !! j = Some y' -> @IsEmpty T A x = false -> @IsEmpty T A y = false ->
     @pred T B x' y' = @pred T A x y) ->
  num_elements_ s' = num_elements_ s -> elements_until_expand_ s' = elements_until_expand_ s ->
  @inv T B s'.
Proof using LA LB.
  intros [Hr Hc Hd Hl Hroom] Hf Hp En Eu. pose proof (Forall2_length _ _ _ Hf) as Hlen.
  assert (NumBuckets (data_ s') = NumBuckets (data_ s)) as Eb by (unfold NumBuckets; lia).
  constructor.
  - intros i x' Hi Hx' He' p Hp'. unfold in_range, ideal, IndexForHash, ElementForIndex in *. rewrite Eb in *.
    destruct (Forall2_lookup_r _ _ _ _ _ Hf Hx') as (x & Hx & [E1 E2]). rewrite E1 in He'. rewrite (E2 He').
    intros Hc'. rewrite (relabels_occ _ _ _ Hf). by apply (Hr i x Hi Hx He' p Hp').
  - by rewrite En, Hc, (relabels_length _ _ Hf).
  - apply distinct_slots. intros i j x' y' Hij Hx' Hy' He1 He2.
    destruct (Forall2_lookup_r _ _ _ _ _ Hf Hx') as (x & Hx & [E1 _]).
    destruct (Forall2_lookup_r _ _ _ _ _ Hf Hy') as (y & Hy & [E2 _]).
    rewrite E1 in He1. rewrite E2 in He2. rewrite (Hp i j x y x' y') by done.
    by apply (proj1 (distinct_slots (data_ s)) Hd i j).
  - lia.
  - rewrite Eu, Eb. destruct Hroom as [[Hn ?]|?]; [left|right; done]. split; [|done].
    rewrite Hn in Hlen. by destruct (data_ s').
Qed.
End relabelling.

(** ** Erasure *)

Section erasure.
Context {T : Type} `{HashSetLaws T}.
Implicit Types (d : list T).
#[local] Set Default Proof Using "All".

(** The state of the loop: [e] is the hole, [j] the last slot that was looked at.  The hole still
    holds a stale element.  Elements other than the one in the hole are reachable, those already
    looked at also without passing the hole. *)
Record erasing (d : list T) (e j : Z) : Prop := {
  er_hole : in_range d e;
  er_last : in_range d j;
  er_stale : occ d e = true;
  er_filled : forall p, in_range d p -> cdist (NumBuckets d) e p <= cdist (NumBuckets d) e j -> occ d p = true;
  er_reach : forall i x, in_range d i -> i <> e -> ElementForIndex d i = Some x -> IsEmpty x = false ->
             reachable_at d i x;
  er_past : forall i x, in_range d i -> i <> e -> cdist (NumBuckets d) e i <= cdist (NumBuckets d) e j ->
            ElementForIndex d i = Some x ->
            cdist (NumBuckets d) (ideal d x) i <= cdist (NumBuckets d) (ideal d x) e }.

Lemma erasing_end d e j y :
  erasing d e j -> ElementForIndex d (NextIndex d j) = Some y -> IsEmpty y = true ->
  reachable (<[Z.to_nat e := MakeEmpty]> d).
Proof.
  intros [He Hj Hst Hfi Hre Hpa] Hy Hye. pose proof (next_range _ _ Hj) as Hn.
  intros i x Hi Hx Hne p Hp. unfold in_range in Hi, Hp. rewrite NumBuckets_insert in Hi, Hp.
  fold (in_range d i) in Hi. fold (in_range d p) in Hp.
  rewrite NumBuckets_insert, ideal_insert, occ_insert by done. rewrite lookup_insert_slot in Hx by done.
  destruct (Z.eqb_spec i e) as [->|Hie].
  { simplify_eq. by rewrite IsEmpty_MakeEmpty in Hne. }
  assert (in_range d (ideal d x)) as Hid by (apply ideal_range; cyc).
  intros Hlt. destruct (Z.eqb_spec p e) as [->|Hpe]; [|by apply (Hre i x Hi Hie Hx Hne)].
  exfalso. assert (occ d (NextIndex d j) = false) as Hfree by (rewrite (occ_spec _ _ _ Hy), Hye; done).
  assert (~ cdist (NumBuckets d) (ideal d x) (NextIndex d j) < cdist (NumBuckets d) (ideal d x) i) as Hno.
  { intros Hc. pose proof (Hre i x Hi Hie Hx Hne _ Hn Hc). congruence. }
  assert (NextIndex d j <> i) as Hnei.
  { intros <-. simplify_eq. congruence. }
  assert (~ cdist (NumBuckets d) e (NextIndex d j) <= cdist (NumBuckets d) e j) as Hnf.
  { intros Hc. pose proof (Hfi _ Hn Hc). congruence. }
  assert (~ cdist (NumBuckets d) e i <= cdist (NumBuckets d) e j) as Hni.
  { intros Hc. pose proof (Hpa i x Hi Hie Hc Hx). lia. }
  clear Hfi Hre Hpa Hst. cyc.
Qed.

Lemma erasing_next d e j z :
  erasing d e j -> in_range d z -> occ d z = false ->
  cdist (NumBuckets d) e (NextIndex d j) = cdist (NumBuckets d) e j + 1 /\
  cdist (NumBuckets d) j z = cdist (NumBuckets d) (NextIndex d j) z + 1 /\ NextIndex d j <> e.
Proof.
  intros [He Hj _ Hfi _ _] Hz Hzf.
  assert (~ cdist (NumBuckets d) e z <= cdist (NumBuckets d) e j) as Hlt.
  { intros Hc. pose proof (Hfi z Hz Hc). congruence. }
  clear Hfi. split_and!; cyc.
Qed.

(** The test on the unwrapped indexes says that the ideal slot is not between the hole and the
    element. *)
Lemma erase_test d e j q :
  in_range d e -> in_range d j -> in_range d q -> j <> e ->
  (unwrap d e q <=? e) || (unwrap d e j <? unwrap d e q) =
  (cdist (NumBuckets d) q e <? cdist (NumBuckets d) q j).
Proof. intros. unfold orb. cyc. Qed.

Lemma erasing_keep d e j y z :
  erasing d e j -> in_range d z -> occ d z = false ->
  ElementForIndex d (NextIndex d j) = Some y -> IsEmpty y = false ->
  cdist (NumBuckets d) (ideal d y) (NextIndex d j) <= cdist (NumBuckets d) (ideal d y) e ->
  erasing d e (NextIndex d j).
Proof.
  intros Her Hz Hzf Hy Hye Hid. destruct (erasing_next _ _ _ _ Her Hz Hzf) as (Hn & _ & _).
  destruct Her as [He Hj Hst Hfi Hre Hpa]. pose proof (next_range _ _ Hj) as Hnr.
  assert (forall p, in_range d p -> p <> NextIndex d j ->
          cdist (NumBuckets d) e p <= cdist (NumBuckets d) e (NextIndex d j) ->
          cdist (NumBuckets d) e p <= cdist (NumBuckets d) e j) as Hold.
  { intros p Hp Hne Hle. clear Hst Hfi Hre Hpa Hid Hy Hye Hz Hzf. cyc. }
  constructor; try done.
  - intros p Hp Hle. destruct (decide (p = NextIndex d j)) as [->|Hne].
    + by rewrite (occ_spec _ _ _ Hy), Hye.
    + apply Hfi; [done|]. by apply Hold.
  - intros i x Hi Hie Hle Hx. destruct (decide (i = NextIndex d j)) as [->|Hne].
    + by simplify_eq.
    + apply (Hpa i x); try done. by apply Hold.
Qed.

Lemma erasing_move d e j y z :
  erasing d e j -> in_range d z -> occ d z = false ->
  ElementForIndex d (NextIndex d j) = Some y -> IsEmpty y = false ->
  cdist (NumBuckets d) (ideal d y) e < cdist (NumBuckets d) (ideal d y) (NextIndex d j) ->
  erasing (<[Z.to_nat e := y]> d) (NextIndex d j) (NextIndex d j).
Proof.
  intros Her Hz Hzf Hy Hye Hid. destruct (erasing_next _ _ _ _ Her Hz Hzf) as (Hn & _ & Hne).
  destruct Her as [He Hj Hst Hfi Hre Hpa]. pose proof (next_range _ _ Hj) as Hnr.
  assert (forall p, in_range (<[Z.to_nat e := y]> d) p -> in_range d p) as Hin.
  { intros p. apply in_range_length. apply length_insert. }
  assert (in_range (<[Z.to_nat e := y]> d) (NextIndex d j)) as Hnr'.
  { eapply in_range_length; [|done]. by rewrite length_insert. }
  assert (forall p, in_range d p -> occ (<[Z.to_nat e := y]> d) p = occ d p) as Hocc.
  { intros p Hp. rewrite occ_insert by done. case_ltb; [|done]. subst. by rewrite Hst, Hye. }
  constructor; try done.
  - rewrite Hocc by done. by rewrite (occ_spec _ _ _ Hy), Hye.
  - intros p Hp%Hin Hle. rewrite NumBuckets_insert in Hle. replace p with (NextIndex d j).
    + rewrite Hocc by done. by rewrite (occ_spec _ _ _ Hy), Hye.
    + clear - Hle Hp Hnr. cyc.
  - intros i x Hi%Hin Hie Hx Hxe p Hp%Hin. rewrite NumBuckets_insert, ideal_insert, Hocc by done.
    rewrite lookup_insert_slot in Hx by done. destruct (Z.eqb_spec i e) as [->|].
    + injection Hx as <-. intros Hlt. apply (Hre (NextIndex d j) y); try done. lia.
    + by apply (Hre i x).
  - intros i x Hi%Hin Hie Hle. exfalso. rewrite NumBuckets_insert in Hle. clear - Hle Hi Hie Hnr. cyc.
Qed.

Lemma elements_move d e j y :
  in_range d e -> in_range d j -> j <> e -> ElementForIndex d j = Some y -> IsEmpty y = false ->
  elements (<[Z.to_nat j := MakeEmpty]> (<[Z.to_nat e := y]> d)) ≡ₚ
  elements (<[Z.to_nat e := MakeEmpty]> d).
Proof.
  intros He Hj Hne Hy Hye. unfold in_range in *.
  rewrite (elements_remove (<[Z.to_nat e := MakeEmpty]> d) j y); [|by rewrite lookup_insert_slot; [case_ltb|..]|done].
  rewrite !(list_insert_insert_ne d (Z.to_nat j)) by lia.
  rewrite <- (list_insert_insert_eq (<[Z.to_nat j := MakeEmpty]> d) (Z.to_nat e) y MakeEmpty).
  apply (elements_insert _ e y MakeEmpty); [..|done].
  - rewrite lookup_insert_slot; [by rewrite Z.eqb_refl|..]; by unfold in_range; rewrite ?NumBuckets_insert.
  - apply IsEmpty_MakeEmpty.
Qed.

(** The slot [p0] the erasure started from: it is the hole, or it has been refilled. *)
Definition start_slot (d : list T) (p0 e z : Z) (filled : bool) : Prop :=
  if filled then occ d p0 = true /\ cdist (NumBuckets d) e z < cdist (NumBuckets d) p0 z else e = p0.

Lemma start_slot_move d p0 e j z y filled :
  erasing d e j -> in_range d p0 -> in_range d z -> occ d z = false -> IsEmpty y = false ->
  start_slot d p0 e z filled -> start_slot (<[Z.to_nat e := y]> d) p0 (NextIndex d j) z true.
Proof.
  intros Her Hp0 Hz Hzf Hye Hs. destruct (erasing_next _ _ _ _ Her Hz Hzf) as (Hn1 & Hn2 & Hn3).
  pose proof (next_range _ _ (er_last _ _ _ Her)) as Hnr. pose proof (er_hole _ _ _ Her) as He.
  unfold start_slot. rewrite NumBuckets_insert, occ_insert by done. rewrite Hye. split.
  - destruct filled; simpl in Hs; [destruct Hs as [-> _]; by case_ltb|]. subst. by rewrite Z.eqb_refl.
  - assert (cdist (NumBuckets d) e z <= cdist (NumBuckets d) p0 z) as Hle
      by (destruct filled; simpl in Hs; [lia|by subst]).
    assert (~ cdist (NumBuckets d) e z <= cdist (NumBuckets d) e j) as Hlt.
    { intros Hc. pose proof (er_filled _ _ _ Her z Hz Hc). congruence. }
    pose proof (er_last _ _ _ Her). clear - Hle Hlt Hn1 Hn2 He Hz Hnr Hp0. cyc.
Qed.

Lemma erase_loop_spec fuel d p0 e j z filled :
  erasing d e j -> in_range d p0 -> in_range d z -> occ d z = false -> start_slot d p0 e z filled ->
  cdist (NumBuckets d) j z <= Z.of_nat fuel + 1 ->
  exists d' filled', erase_loop fuel d e j filled = Some (d', filled') /\ reachable d' /\
    length d' = length d /\ elements d' ≡ₚ elements (<[Z.to_nat e := MakeEmpty]> d) /\
    occ d' p0 = filled'.
Proof.
  revert d e j filled. induction fuel as [|fuel IH]; intros d e j filled Her Hp0 Hz Hzf Hs Hf.
  all: destruct (erasing_next _ _ _ _ Her Hz Hzf) as (Hn1 & Hn2 & Hn3);
    pose proof (next_range _ _ (er_last _ _ _ Her)) as Hnr; pose proof (er_hole _ _ _ Her) as He;
    destruct (slot_lookup d _ Hnr) as [y Hy]; cbn [erase_loop]; rewrite Hy; cbn [mbind option_bind];
    destruct (IsEmpty y) eqn:Hye.
  1, 3: eexists _, filled; split; [done|]; split_and!;
    [by eapply erasing_end|by rewrite length_insert|done|]; rewrite occ_insert by done;
    destruct filled; simpl in Hs;
    [destruct Hs as [Hs1 Hs2]; rewrite Hs1; case_ltb; [|done]; subst; lia|
     subst; rewrite Z.eqb_refl, IsEmpty_MakeEmpty; done].
  - exfalso. assert (NextIndex d j = z) as Heq by cyc. rewrite <- Heq in Hzf.
    rewrite (occ_spec _ _ _ Hy), Hye in Hzf. done.
  - fold (ideal d y). assert (in_range d (ideal d y)) as Hid by (apply ideal_range; cyc).
    rewrite erase_test by done. case_ltb.
    + destruct (IH (<[Z.to_nat e := y]> d) (NextIndex d j) (NextIndex d j) true)
        as (d' & f' & -> & Hr & Hl & Hel & Ho).
      * by apply (erasing_move d e j y z).
      * unfold in_range in *. by rewrite NumBuckets_insert.
      * unfold in_range in *. by rewrite NumBuckets_insert.
      * rewrite occ_insert by done. case_ltb; [|done]. subst z. rewrite (er_stale _ _ _ Her) in Hzf. done.
      * by apply (start_slot_move d p0 e j z y filled).
      * rewrite NumBuckets_insert. lia.
      * rewrite length_insert in Hl. exists d', f'. split_and!; try done. by rewrite Hel, elements_move.
    + apply IH; try done; [by apply (erasing_keep d e j y z)|lia].
Qed.

(** ** Iteration *)

Lemma next_non_empty_spec fuel d i :
  -1 <= i < NumBuckets d -> NumBuckets d - i <= Z.of_nat fuel + 1 ->
  exists k, next_non_empty fuel d i = Some k /\ i < k <= NumBuckets d /\
            (k = NumBuckets d \/ occ d k = true) /\ forall p, i < p < k -> occ d p = false.
Proof.
  revert i. induction fuel as [|fuel IH]; intros i Hi Hf; cbn [next_non_empty]; case_ltb.
  - lia.
  - exists (i + 1). split_and!; [done|lia|lia|left; lia|intros; lia].
  - destruct (slot_lookup d (i + 1)) as [y Hy]; [unfold in_range; lia|].
    unfold IsFreeSlot. rewrite Hy. cbn [mbind option_bind]. pose proof (occ_spec _ _ _ Hy) as Ho.
    destruct (IsEmpty y).
    + destruct (IH (i + 1)) as (k & -> & Hk & Hke & Hkp); [lia..|]. exists k. split_and!; [done|lia|lia|done|].
      intros p Hp. destruct (decide (p = i + 1)) as [->|]; [done|]. apply Hkp. lia.
    + exists (i + 1). split_and!; [done|lia|lia|by right|intros; lia].
  - exists (i + 1). split_and!; [done|lia|lia|left; lia|intros; lia].
Qed.

Lemma drop_slot d i x :
  0 <= i -> ElementForIndex d i = Some x -> drop (Z.to_nat i) d = x :: drop (Z.to_nat (i + 1)) d.
Proof.
  intros Hi Hx. rewrite (drop_S _ _ _ Hx). f_equal. f_equal. lia.
Qed.

Lemma elements_skip d i k :
  0 <= i <= k -> k <= NumBuckets d -> (forall p, i <= p < k -> occ d p = false) ->
  elements (drop (Z.to_nat i) d) = elements (drop (Z.to_nat k) d).
Proof.
  intros Hi Hk Hp. remember (Z.to_nat (k - i)) as n eqn:Hn. revert i Hi Hp Hn.
  induction n as [|n IH]; intros i Hi Hp Hn.
  - by replace k with i by lia.
  - destruct (slot_lookup d i) as [x Hx]; [unfold in_range; lia|]. rewrite (drop_slot d i x) by (done || lia).
    unfold elements. rewrite filter_cons_False.
    + apply IH; [lia| |lia]. intros p Hpr. apply Hp. lia.
    + pose proof (Hp i ltac:(lia)) as Ho. rewrite (occ_spec _ _ _ Hx) in Ho. by destruct (IsEmpty x).
Qed.

Lemma iterate_from fuel d i :
  0 <= i <= NumBuckets d -> i = NumBuckets d \/ occ d i = true -> NumBuckets d - i <= Z.of_nat fuel ->
  iterate fuel d i = Some (elements (drop (Z.to_nat i) d)).
Proof.
  assert (elements (drop (Z.to_nat (NumBuckets d)) d) = []) as Hend.
  { unfold NumBuckets. rewrite Nat2Z.id, drop_all. done. }
  revert i. induction fuel as [|fuel IH]; intros i Hi Ho Hf; cbn [iterate]; destruct (Z.eqb_spec i (NumBuckets d)) as [->|Hne].
  1, 3: by rewrite Hend.
  - lia.
  - destruct Ho as [|Ho]; [done|]. destruct (slot_lookup d i) as [x Hx]; [unfold in_range; lia|].
    rewrite Hx. cbn [mbind option_bind].
    destruct (next_non_empty_spec (length d) d i) as (k & Hk & Hkr & Hke & Hkp); [lia|unfold NumBuckets in *; lia|].
    unfold NextNonEmptySlot. rewrite Hk. cbn [mbind option_bind]. rewrite IH by (done || lia).
    cbn [mbind option_bind]. rewrite (drop_slot d i x) by (done || lia). unfold elements at 2.
    rewrite filter_cons_True by (rewrite (occ_spec _ _ _ Hx) in Ho; by destruct (IsEmpty x)).
    fold (elements (drop (Z.to_nat (i + 1)) d)). rewrite (elements_skip d (i + 1) k); [done|lia..|].
    intros p Hp. apply Hkp. lia.
Qed.

Lemma begin_spec s :
  exists i, begin s = Some i /\ 0 <= i <= NumBuckets (data_ s) /\
    (i = NumBuckets (data_ s) \/ occ (data_ s) i = true) /\ forall p, 0 <= p < i -> occ (data_ s) p = false.
Proof.
  unfold begin. set (d := data_ s). destruct (Z.eqb_spec (NumBuckets d) 0) as [Hz|Hz]; cbn [negb].
  - exists 0. split_and!; [done|lia|lia|by left|intros; lia].
  - assert (0 < NumBuckets d) by (unfold NumBuckets in *; lia).
    destruct (slot_lookup d 0) as [x Hx]; [unfold in_range; lia|]. unfold IsFreeSlot. rewrite Hx.
    cbn [mbind option_bind]. pose proof (occ_spec _ _ _ Hx) as Ho. destruct (IsEmpty x).
    + unfold NextNonEmptySlot. destruct (next_non_empty_spec (length d) d 0) as (k & -> & Hk & Hke & Hkp); [lia|unfold NumBuckets in *; lia|].
      exists k. split_and!; [done|lia|lia|done|]. intros p Hp. destruct (decide (p = 0)) as [->|]; [done|].
      apply Hkp. lia.
    + exists 0. split_and!; [done|lia|lia|by right|intros; lia].
Qed.

(** ** The self-check *)

Lemma first_slot_self d i x :
  reachable d -> in_range d i -> ElementForIndex d i = Some x -> IsEmpty x = false ->
  FirstAvailableSlot (<[Z.to_nat i := MakeEmpty]> d) (ideal d x) = Some i.
Proof.
  intros Hr Hi Hx Hxe. set (d' := <[Z.to_nat i := MakeEmpty]> d).
  assert (length (elements d') < length d')%nat as Hfree.
  { pose proof (elements_remove d i x Hx Hxe) as Hel. apply Permutation_length in Hel. simpl in Hel.
    pose proof (elements_empty_length d). unfold d'. rewrite length_insert. lia. }
  destruct (FirstAvailableSlot_spec d' x Hfree) as (k & Hk & Hp).
  replace (ideal d' x) with (ideal d x) in * by (symmetry; apply ideal_insert). rewrite Hk. f_equal.
  assert (forall p, in_range d p -> occ d' p = if p =? i then false else occ d p) as Hocc.
  { intros p Hpr. unfold d'. rewrite occ_insert by done. by rewrite IsEmpty_MakeEmpty. }
  pose proof (probed_reachable_at _ _ _ _ _ (proj1 Hp)) as Hpath. destruct Hp as [[Hkr _] (y & Hy & Hye)].
  simpl in *. unfold d' in Hpath, Hkr. rewrite NumBuckets_insert in Hpath.
  assert (in_range d k) as Hkr' by (unfold in_range in *; by rewrite NumBuckets_insert in Hkr).
  assert (occ d' k = false) as Hko by (rewrite (occ_spec _ _ _ Hy), Hye; done).
  destruct (decide (k = i)) as [|Hki]; [done|]. exfalso. rewrite Hocc in Hko by done. 
  assert (in_range d (ideal d x)) as Hid by (apply ideal_range; cyc).
  destruct (decide (cdist (NumBuckets d) (ideal d x) k < cdist (NumBuckets d) (ideal d x) i)) as [Hc|Hc].
  - pose proof (Hr i x Hi Hx Hxe k Hkr' Hc). rewrite (proj2 (Z.eqb_neq k i) Hki) in Hko. congruence.
  - assert (cdist (NumBuckets d) (ideal d x) i < cdist (NumBuckets d) (ideal d x) k) as Hc2 by cyc.
    apply Hpath in Hc2; [|unfold in_range in *; by rewrite NumBuckets_insert].
    fold d' in Hc2. rewrite Hocc, Z.eqb_refl in Hc2 by done. done.
Qed.

Lemma verify_from_spec d rest i :
  reachable d -> drop i d = rest -> verify_from d rest i = Some 0.
Proof.
  intros Hr. revert i. induction rest as [|x rest IH]; intros i Hd; cbn [verify_from]; [done|].
  assert (d !! i = Some x) as Hx by (apply (f_equal (.!! 0%nat)) in Hd; rewrite lookup_drop in Hd; by rewrite Nat.add_0_r in Hd).
  rewrite (IH (S i)) by (rewrite (drop_S _ _ _ Hx) in Hd; by injection Hd).
  destruct (IsEmpty x) eqn:Hxe; cbn [negb mbind option_bind]; [done|].
  pose proof (lookup_lt_Some _ _ _ Hx). pose proof (first_slot_self d (Z.of_nat i) x Hr) as Hf.
  unfold ElementForIndex, in_range, NumBuckets in Hf. rewrite Nat2Z.id in Hf. fold (ideal d x).
  rewrite Hf by (done || lia). cbn [mbind option_bind]. by rewrite Z.eqb_refl.
Qed.

Lemma erase_spec s i x :
  inv s -> in_range (data_ s) i -> ElementForIndex (data_ s) i = Some x -> IsEmpty x = false ->
  exists s' k, erase s i = Some (s', k) /\ inv s' /\ elements (data_ s) ≡ₚ x :: elements (data_ s') /\
    i <= k <= NumBuckets (data_ s') /\ (k = NumBuckets (data_ s') \/ occ (data_ s') k = true) /\
    forall p, i <= p < k -> occ (data_ s') p = false.
Proof.
  intros Hi Hr Hx Hxe. unfold erase. set (d := data_ s) in *.
  assert (length (elements d) < length d)%nat as Hl.
  { apply inv_free; [done|]. intros Hd. fold d in Hd. rewrite Hd in Hr. unfold in_range, NumBuckets in Hr. simpl in Hr. lia. }
  destruct (free_slot d Hl) as (z & Hz & Hzf).
  destruct (erase_loop_spec (length d) d i i i z false) as (d' & f & -> & Hr' & Hl' & Hel & Ho); try done.
  { constructor; try done.
    - by rewrite (occ_spec _ _ _ Hx), Hxe.
    - intros p Hp Hle. replace p with i by cyc. by rewrite (occ_spec _ _ _ Hx), Hxe.
    - intros j y Hj _ Hy Hye. by apply (inv_reachable _ Hi).
    - intros j y Hj Hne Hle. exfalso. cyc. }
  { unfold in_range, cdist, NumBuckets in *. cyc. }
  assert (NumBuckets d' = NumBuckets d) as Hn by (unfold NumBuckets; by rewrite Hl').
  assert (elements d ≡ₚ x :: elements d') as Hed by (rewrite Hel; by apply elements_remove).
  assert (inv (Hash d' (num_elements_ s - 1) (elements_until_expand_ s))) as Hinv.
  { pose proof (inv_distinct _ Hi) as Hdis. fold d in Hdis. rewrite Hed in Hdis. apply distinct_cons in Hdis as [Hdis _].
    pose proof (inv_load _ Hi). pose proof (inv_count _ Hi) as Hc. fold d in Hc. rewrite Hed in Hc. simpl in Hc.
    constructor; cbn [data_ num_elements_ elements_until_expand_]; try done; [lia..|].
    rewrite Hn. destruct (inv_room _ Hi) as [[Hd _]|]; [|by right]. fold d in Hd. rewrite Hd in Hl. simpl in Hl. lia. }
  cbn [mbind option_bind]. destruct f; cbn [mbind option_bind].
  - eexists _, i. split; [done|]. cbn [data_]. rewrite Hn. unfold in_range in Hr.
    split_and!; [done..|lia|lia|by right|intros; lia].
  - unfold NextNonEmptySlot. destruct (next_non_empty_spec (length d') d' i) as (k & -> & Hk & Hke & Hkp).
    { unfold in_range in Hr. lia. } { unfold in_range, NumBuckets in *. lia. }
    cbn [mbind option_bind]. eexists _, k. split; [done|]. cbn [data_].
    split_and!; [done..|lia|lia|done|]. intros p Hp. destruct (decide (p = i)) as [->|]; [done|]. apply Hkp. lia.
Qed.
End erasure.

(** ** Refinement of sets *)

Inductive set_op (T : Type) :=
  | OpInsert (x : T) | OpErase (x : T) | OpFind (x : T) | OpClear.
Inductive set_result (T : Type) :=
  | RInserted (b : bool) | RErased (b : bool) | RFound (y : option T) | RCleared.
#[global] Arguments OpInsert {T}.
#[global] Arguments OpErase {T}.
#[global] Arguments OpFind {T}.
#[global] Arguments OpClear {T}.
#[global] Arguments RInserted {T}.
#[global] Arguments RErased {T}.
#[global] Arguments RFound {T}.
#[global] Arguments RCleared {T}.

Section refinement.
Context {T : Type} `{HashSetLaws T} (mul_max_load div_min_load : Z -> Z).
Context (mul_lt : forall n, kMinBuckets <= n -> 0 <= mul_max_load n < n).
Context (div_room : forall n, 0 <= n -> n < mul_max_load (Z.max kMinBuckets (div_min_load n))).
#[local] Set Default Proof Using "All".

(** An operation of a client: looking up what [find] returned, erasing it when it is not the end. *)
Definition run_op (s : HashSet T) (op : set_op T) : option (HashSet T * set_result T) :=
  match op with
  | OpInsert x => '(s, _, b) ← insert mul_max_load div_min_load s x; Some (s, RInserted b)
  | OpErase x =>
      i ← find s x;
      if i =? NumBuckets (data_ s) then Some (s, RErased false)
      else '(s, _) ← erase s i; Some (s, RErased true)
  | OpFind x =>
      i ← find s x;
      if i =? NumBuckets (data_ s) then Some (s, RFound None)
      else y ← ElementForIndex (data_ s) i; Some (s, RFound (Some y))
  | OpClear => Some (clear s, RCleared)
  end.

Fixpoint run_ops (s : HashSet T) (ops : list (set_op T)) : option (HashSet T * list (set_result T)) :=
  match ops with
  | [] => Some (s, [])
  | op :: ops => '(s, r) ← run_op s op; '(s, rs) ← run_ops s ops; Some (s, r :: rs)
  end.

(** The same operation on a set without hashing, a list of elements. *)
Definition spec_op (l : list T) (op : set_op T) : list T * set_result T :=
  let has x := existsb (fun y => pred y x) l in
  match op with
  | OpInsert x => if has x then (l, RInserted false) else (x :: l, RInserted true)
  | OpErase x => (filter (fun y => pred y x = false) l, RErased (has x))
  | OpFind x => (l, RFound (List.find (fun y => pred y x) l))
  | OpClear => ([], RCleared)
  end.

Fixpoint spec_ops (l : list T) (ops : list (set_op T)) : list T * list (set_result T) :=
  match ops with
  | [] => (l, [])
  | op :: ops =>
      let '(l, r) := spec_op l op in let '(l, rs) := spec_ops l ops in (l, r :: rs)
  end.

Definition op_ok (op : set_op T) : Prop := match op with OpInsert x => IsEmpty x = false | _ => True end.

Definition refines (s : HashSet T) (l : list T) : Prop := inv s /\ elements (data_ s) ≡ₚ l.

Lemma existsb_absent (l : list T) x :
  (forall y, y ∈ l -> pred y x = false) -> existsb (fun y => pred y x) l = false.
Proof.
  intros Ha. apply not_true_iff_false. intros (y & Hy & Hp)%existsb_exists.
  apply list_elem_of_In in Hy. rewrite (Ha y Hy) in Hp. done.
Qed.

Lemma existsb_present (l : list T) x y :
  y ∈ l -> pred y x = true -> existsb (fun y => pred y x) l = true.
Proof. intros Hy Hp. apply existsb_exists. exists y. split; [by apply list_elem_of_In|done]. Qed.

Lemma find_absent (l : list T) x :
  (forall y, y ∈ l -> pred y x = false) -> List.find (fun y => pred y x) l = None.
Proof.
  intros Ha. destruct (List.find _ l) as [y|] eqn:Hf; [|done].
  apply find_some in Hf as [Hy Hp]. apply list_elem_of_In in Hy. rewrite (Ha y Hy) in Hp. done.
Qed.

(** Of the elements of a set only one equals the key. *)
Lemma distinct_others (l l' : list T) x y w :
  distinct l -> l ≡ₚ y :: l' -> pred y x = true -> w ∈ l' -> pred w x = false.
Proof.
  intros Hd Hl Hp Hw. rewrite Hl in Hd. apply distinct_cons in Hd as [_ Hd].
  destruct (pred w x) eqn:Hwx; [|done]. rewrite <- (Hd w Hw). symmetry.
  eapply pred_trans; [done|by apply pred_sym].
Qed.

Lemma find_present (l : list T) x y :
  distinct l -> y ∈ l -> pred y x = true -> List.find (fun y => pred y x) l = Some y.
Proof.
  intros Hd Hy Hp. destruct (List.find _ l) as [w|] eqn:Hf.
  - apply find_some in Hf as [Hw Hwp]. apply list_elem_of_In in Hw.
    apply elem_of_Permutation in Hy as [l' Hl]. rewrite Hl in Hw. apply elem_of_cons in Hw as [->|Hw]; [done|].
    pose proof (distinct_others _ _ _ _ _ Hd Hl Hp Hw). congruence.
  - apply list_elem_of_In in Hy. pose proof (find_none _ _ Hf _ Hy). simpl in *. congruence.
Qed.

Lemma filter_others (l l' : list T) x y :
  distinct l -> l ≡ₚ y :: l' -> pred y x = true -> filter (fun y => pred y x = false) l ≡ₚ l'.
Proof.
  intros Hd Hl Hp. rewrite Hl, filter_cons_False by congruence.
  assert (forall w, w ∈ l' -> pred w x = false) as Ha by (intros w; by eapply distinct_others).
  clear Hl. induction l' as [|w l' IH]; [done|]. rewrite filter_cons_True by (apply Ha; left).
  rewrite IH; [done|]. intros v Hv. apply Ha. by right.
Qed.

Lemma filter_absent (l : list T) x :
  (forall y, y ∈ l -> pred y x = false) -> filter (fun y => pred y x = false) l = l.
Proof.
  induction l as [|w l IH]; intros Ha; [done|]. rewrite filter_cons_True by (apply Ha; left).
  f_equal. apply IH. intros v Hv. apply Ha. by right.
Qed.

Lemma run_op_refines s l op :
  refines s l -> op_ok op ->
  exists s', run_op s op = Some (s', (spec_op l op).2) /\ refines s' (spec_op l op).1.
Proof.
  intros [Hi Hl] Hop. pose proof (inv_distinct _ Hi) as Hd. rewrite Hl in Hd. destruct op as [x|x|x|]; cbn [run_op spec_op].
  - destruct (insert_spec _ _ mul_lt div_room s x Hi Hop) as (s' & i & b & y & -> & Hi' & _ & _ & Hp & Hb).
    cbn [mbind option_bind]. exists s'. destruct b.
    + destruct Hb as (-> & Ha & He). rewrite existsb_absent by (by setoid_rewrite <- Hl).
      split; [done|]. split; [done|]. simpl. by rewrite He, Hl.
    + destruct Hb as (Hy & He). rewrite Hl in Hy. rewrite (existsb_present _ _ y) by done.
      split; [done|]. split; [done|]. simpl. by rewrite He, Hl.
  - destruct (find_spec s x Hi) as (i & -> & [(Hr & y & Hy & Hye & Hp)|(-> & Ha)]); cbn [mbind option_bind].
    + destruct (Z.eqb_spec i (NumBuckets (data_ s))); [unfold in_range in Hr; lia|].
      destruct (erase_spec s i y Hi Hr Hy Hye) as (s' & k & -> & Hi' & He & _). cbn [mbind option_bind].
      rewrite Hl in He. exists s'. cbn [fst snd]. rewrite (existsb_present _ _ y); [|by rewrite He; left|done].
      split; [done|]. split; [done|]. by rewrite filter_others.
    + rewrite Z.eqb_refl. exists s. cbn [fst snd]. setoid_rewrite Hl in Ha.
      rewrite existsb_absent, filter_absent by done. done.
  - exists s. destruct (find_spec s x Hi) as (i & -> & [(Hr & y & Hy & Hye & Hp)|(-> & Ha)]); cbn [mbind option_bind fst snd].
    + destruct (Z.eqb_spec i (NumBuckets (data_ s))); [unfold in_range in Hr; lia|]. rewrite Hy.
      cbn [mbind option_bind]. rewrite (find_present _ _ y); [done..| |done]. rewrite <- Hl.
      apply elem_of_elements. split; [done|]. by exists i.
    + rewrite Z.eqb_refl, find_absent by (by setoid_rewrite <- Hl). done.
  - exists (clear s). split; [done|]. split; [apply inv_clear|done].
Qed.

Lemma run_ops_refines ops s l :
  refines s l -> Forall op_ok ops ->
  exists s', run_ops s ops = Some (s', (spec_ops l ops).2) /\ refines s' (spec_ops l ops).1.
Proof.
  revert s l. induction ops as [|op ops IH]; intros s l Hr Hops; cbn [run_ops spec_ops].
  - by exists s.
  - apply Forall_cons in Hops as [Hop Hops]. destruct (run_op_refines s l op Hr Hop) as (s1 & -> & Hr1).
    cbn [mbind option_bind]. destruct (spec_op l op) as [l1 r]. simpl in *.
    destruct (IH s1 l1 Hr1 Hops) as (s2 & -> & Hr2). cbn [mbind option_bind].
    destruct (spec_ops l1 ops) as [l2 rs]. by exists s2.
Qed.
End refinement.

(** ** Sets of integers, as an instance *)

Definition z_traits : HashSetTraits Z :=
  {| MakeEmpty := 0; IsEmpty := fun x => x =? 0; hashfn := fun x => Z.abs x; pred := Z.eqb |}.

Lemma z_laws : @HashSetLaws Z z_traits.
Proof.
  constructor; simpl; try done; intros *; rewrite ?Z.eqb_eq; try lia; by intros ->.
Qed.

(** Load factors 0.4 and 0.7. *)
Definition mul_7_10 (n : Z) : Z := n * 7 / 10.
Definition div_4_10 (n : Z) : Z := n * 10 / 4.

Lemma mul_7_10_lt n : kMinBuckets <= n -> 0 <= mul_7_10 n < n.
Proof. unfold kMinBuckets, mul_7_10. intros. split; [apply Z.div_pos; lia|apply Z.div_lt_upper_bound; lia]. Qed.

Lemma div_4_10_room n : 0 <= n -> n < mul_7_10 (Z.max kMinBuckets (div_4_10 n)).
Proof. unfold kMinBuckets, mul_7_10, div_4_10. intros. Z.div_mod_to_equations. lia. Qed.

(** ** Properties *)

(** C28: Starting from an empty set, any sequence of insertions, searches, erasures and clears ends,
    returns at each step what the same sequence returns on a plain list of distinct elements, and
    leaves the same elements; [size()] counts them and the table keeps its invariant.  This covers
    the probing, the resizing and the back-shifting erasure. *)
Theorem HashSet_refines {T : Type} `{HashSetTraits T} (mul_max_load div_min_load : Z -> Z)
    (ops : list (set_op T)) (s0 : HashSet T) :
  HashSetLaws T ->
  (forall n, kMinBuckets <= n -> 0 <= mul_max_load n < n) ->
  (forall n, 0 <= n -> n < mul_max_load (Z.max kMinBuckets (div_min_load n))) ->
  Forall op_ok ops ->
  exists s, run_ops mul_max_load div_min_load (clear s0) ops = Some (s, (spec_ops [] ops).2) /\
    elements (data_ s) ≡ₚ (spec_ops [] ops).1 /\
    size s = Z.of_nat (length (spec_ops [] ops).1) /\ inv s.
Proof.
  intros HL Hmul Hdiv Hops. destruct (run_ops_refines _ _ Hmul Hdiv ops (clear s0) []) as (s & Hs & Hi & He).
  - split; [apply inv_clear|done].
  - done.
  - exists s. split_and!; try done. unfold size. by rewrite (inv_count _ Hi), He.
Qed.

Lemma HashSet_refines_witness :
  exists s, @run_ops Z z_traits mul_7_10 div_4_10 (Hash [] 0 0)
    [OpInsert 5; OpInsert 1005; OpInsert 5; OpErase 5; OpFind 1005; OpErase 7] =
    Some (s, [RInserted true; RInserted true; RInserted false; RErased true; RFound (Some 1005); RErased false]).
Proof.
  destruct (@HashSet_refines Z z_traits mul_7_10 div_4_10
    [OpInsert 5; OpInsert 1005; OpInsert 5; OpErase 5; OpFind 1005; OpErase 7] (Hash [] 0 0)
    z_laws mul_7_10_lt div_4_10_room) as (s & Hs & _).
  - repeat constructor.
  - exists s. exact Hs.
Defined.

(** Erasing through an iterator removes exactly the element it points to and keeps the
    invariant; the iterator that is returned points to the first element stored at or after the
    erased slot, or to the end, so a loop that goes on from it visits what that part of the table
    holds. *)
Theorem HashSet_erase {T : Type} `{HashSetTraits T} (s : HashSet T) (i : Z) (x : T) :
  HashSetLaws T -> inv s -> 0 <= i < NumBuckets (data_ s) ->
  ElementForIndex (data_ s) i = Some x -> IsEmpty x = false ->
  exists s' k, erase s i = Some (s', k) /\ inv s' /\ elements (data_ s) ≡ₚ x :: elements (data_ s') /\
    iterate (length (data_ s')) (data_ s') k = Some (elements (drop (Z.to_nat i) (data_ s'))).
Proof.
  intros HL Hi Hr Hx Hxe. destruct (erase_spec s i x Hi Hr Hx Hxe) as (s' & k & He & Hi' & Hel & Hk & Hko & Hkp).
  exists s', k. split_and!; try done. rewrite iterate_from; [|lia|done|unfold NumBuckets; lia].
  f_equal. symmetry. apply elements_skip; [lia..|done].
Qed.

(** In a set that satisfies the invariant a loop from [begin()] to [end()] visits every element
    once, in the order of the buckets, as many as [size()] says; [Verify()] reports no error; and
    [Resize] to any number of buckets with room keeps the elements. *)
Theorem HashSet_traversal {T : Type} `{HashSetTraits T} (s : HashSet T) (mul_max_load : Z -> Z) (n : Z) :
  HashSetLaws T -> inv s ->
  (forall n, kMinBuckets <= n -> 0 <= mul_max_load n < n) ->
  size s < mul_max_load (Z.max kMinBuckets n) ->
  (exists i l, begin s = Some i /\ iterate (length (data_ s)) (data_ s) i = Some l /\
     l = filter (fun x => IsEmpty x = false) (data_ s) /\ size s = Z.of_nat (length l) /\ distinct l) /\
  Verify s = Some 0 /\
  exists s', Resize mul_max_load s n = Some s' /\ inv s' /\ elements (data_ s') ≡ₚ elements (data_ s).
Proof.
  intros HL Hi Hmul Hn. split_and!.
  - destruct (begin_spec s) as (i & Hb & Hr & Ho & Hp). exists i, (elements (data_ s)). split; [done|].
    rewrite iterate_from; [|lia|done|unfold NumBuckets; lia]. split_and!; [|done|apply Hi|apply Hi].
    f_equal. rewrite <- (elements_skip (data_ s) 0 i); [done|lia..|done].
  - by apply verify_from_spec; [apply Hi|].
  - destruct (Resize_spec mul_max_load Hmul s n Hi Hn) as (s' & ? & ? & ? & _). by exists s'.
Qed.

