(* ===== verification/Utf.v ===== *)
(** Modified UTF-8 and UTF-16: libdexfile/dex/utf.h, utf-inl.h and utf.cc.

    A pointer into a string is the list of the bytes from there to the end of the memory that can be
    read; a NUL-terminated string has its NUL in the list.  A read past the end is [None].  UTF-16
    code units are 16-bit integers, bytes are unsigned and a [char] is signed. *)
From S2P Require Import Prelude.

(** The byte a pointer points to, and the pointer to the next one. *)
Definition next_byte (p : list Z) : option (Z * list Z) :=
  match p with [] => None | b :: p => Some (b, p) end.

(** ** Decoding *)

Definition GetTrailingUtf16Char (maybe_pair : Z) : Z := u16 (maybe_pair ≫ 16).
Definition GetLeadingUtf16Char (maybe_pair : Z) : Z := u16 (Z.land maybe_pair 0x0000FFFF).

(** The character or surrogate pair at the start of the string, and what follows it. *)
Definition GetUtf16FromUtf8 (utf8_data_in : list Z) : option (Z * list Z) :=
  '(one, p) ← next_byte utf8_data_in;
  if Z.land one 0x80 =? 0 then Some (one, p)
  else
  '(two, p) ← next_byte p;
  if Z.land one 0x20 =? 0 then Some (Z.lor (Z.land one 0x1f ≪ 6) (Z.land two 0x3f), p)
  else
  '(three, p) ← next_byte p;
  if Z.land one 0x10 =? 0 then
    Some (Z.lor (Z.lor (Z.land one 0x0f ≪ 12) (Z.land two 0x3f ≪ 6)) (Z.land three 0x3f), p)
  else
  '(four, p) ← next_byte p;
  let code_point :=
    Z.lor (Z.lor (Z.lor (Z.land one 0x0f ≪ 18) (Z.land two 0x3f ≪ 12)) (Z.land three 0x3f ≪ 6))
      (Z.land four 0x3f) in
  let surrogate_pair := 0 in
  let surrogate_pair := Z.lor surrogate_pair (Z.land ((code_point ≫ 10) + 0xd7c0) 0xffff) in
  let surrogate_pair := Z.lor surrogate_pair (u32 ((Z.land code_point 0x03ff + 0xdc00) ≪ 16)) in
  Some (surrogate_pair, p).

(** The loop of [CountModifiedUtf8Chars]; [skip] bytes have still to be stepped over. *)
Fixpoint count_chars (utf8 : list Z) (skip : nat) : Z :=
  match utf8, skip with
  | [], _ => 0
  | _ :: utf8, S skip => count_chars utf8 skip
  | ic :: utf8, O =>
      if Z.land ic 0x80 =? 0 then 1 + count_chars utf8 0
      else if Z.land ic 0x20 =? 0 then 1 + count_chars utf8 1
      else if Z.land ic 0x10 =? 0 then 1 + count_chars utf8 2
      else 2 + count_chars utf8 3
  end.

Definition CountModifiedUtf8Chars (utf8 : list Z) (byte_count : nat) : Z :=
  count_chars (take byte_count utf8) 0.

(** The code units a decoded value stands for. *)
Definition append_utf16 (ch : Z) (out : list Z) : list Z :=
  let leading := GetLeadingUtf16Char ch in
  let trailing := GetTrailingUtf16Char ch in
  leading :: (if negb (trailing =? 0) then trailing :: out else out).

(** The NUL-terminated version. *)
Fixpoint convert_nul (fuel : nat) (utf8_data_in : list Z) : option (list Z) :=
  '(c, _) ← next_byte utf8_data_in;
  if negb (c =? 0) then
    match fuel with
    | O => None
    | S fuel =>
        '(ch, p) ← GetUtf16FromUtf8 utf8_data_in;
        out ← convert_nul fuel p;
        Some (append_utf16 ch out)
    end
  else Some [].

Definition ConvertModifiedUtf8ToUtf16_nul (utf8_data_in : list Z) : option (list Z) :=
  convert_nul (length utf8_data_in) utf8_data_in.

(** The loop up to [in_end], the point where [after] bytes of memory are left. *)
Fixpoint convert_until (fuel : nat) (p : list Z) (after : nat) : option (list Z) :=
  if (after <? length p)%nat then
    match fuel with
    | O => None
    | S fuel =>
        '(ch, p) ← GetUtf16FromUtf8 p;
        out ← convert_until fuel p after;
        Some (append_utf16 ch out)
    end
  else Some [].

Definition ConvertModifiedUtf8ToUtf16 (out_chars : Z) (utf8_data_in : list Z) (in_bytes : nat) :
    option (list Z) :=
  if out_chars =? Z.of_nat in_bytes then
    if (length utf8_data_in <? in_bytes)%nat then None
    else Some (map (fun c => u16 (sN 8 c)) (take in_bytes utf8_data_in))
  else convert_until (length utf8_data_in) utf8_data_in (length utf8_data_in - in_bytes).

(** ** Encoding *)

Definition is_lead (ch : Z) : bool := Z.land ch 0xfc00 =? 0xd800.
Definition is_trail (ch : Z) : bool := Z.land ch 0xfc00 =? 0xdc00.
Definition is_surrogate (ch : Z) : bool := Z.land ch 0xf800 =? 0xd800.
Definition is_surrogate_lead (ch : Z) : bool := Z.land ch 0x0400 =? 0.
Definition get_supplementary (lead trail : Z) : Z :=
  let offset := u32 (u32 (u32 (0xd800 ≪ 10) + 0xdc00) - 0x10000) in
  u32 (u32 (u32 (lead ≪ 10) + trail) - offset).

Definition has_trail (rest : list Z) : bool :=
  match rest with trail :: _ => is_trail trail | [] => false end.

(** The bytes given to [append], in order. *)
Fixpoint ConvertUtf16ToUtf8 (kUseShortZero kUse4ByteSequence kReplaceBadSurrogates : bool)
    (utf16 : list Z) : list Z :=
  let convert := ConvertUtf16ToUtf8 kUseShortZero kUse4ByteSequence kReplaceBadSurrogates in
  match utf16 with
  | [] => []
  | ch :: rest =>
      if (ch <? 0x80) && (kUseShortZero || negb (ch =? 0)) then u8 ch :: convert rest
      else if ch <? 0x800 then
        u8 (Z.lor (ch ≫ 6) 0xc0) :: u8 (Z.lor (Z.land ch 0x3f) 0x80) :: convert rest
      else if (if kReplaceBadSurrogates then is_surrogate ch
               else kUse4ByteSequence && is_lead ch && has_trail rest) then
        if kReplaceBadSurrogates && (negb (is_surrogate_lead ch) || negb (has_trail rest))
        then 63 :: convert rest
        else
          match rest with
          | trail :: rest =>
              let code_point := get_supplementary ch trail in
              u8 (Z.lor (code_point ≫ 18) 0xf0)
              :: u8 (Z.lor (Z.land (code_point ≫ 12) 0x3f) 0x80)
              :: u8 (Z.lor (Z.land (code_point ≫ 6) 0x3f) 0x80)
              :: u8 (Z.lor (Z.land code_point 0x3f) 0x80) :: convert rest
          | [] => []
          end
      else
        u8 (Z.lor (ch ≫ 12) 0xe0) :: u8 (Z.lor (Z.land (ch ≫ 6) 0x3f) 0x80)
        :: u8 (Z.lor (Z.land ch 0x3f) 0x80) :: convert rest
  end.

Definition CountModifiedUtf8BytesInUtf16 (chars : list Z) : Z :=
  Z.of_nat (length (ConvertUtf16ToUtf8 false true false chars)).

Definition ConvertUtf16ToModifiedUtf8 (byte_count : Z) (utf16_in : list Z) : list Z :=
  if byte_count =? Z.of_nat (length utf16_in) then map u8 utf16_in
  else ConvertUtf16ToUtf8 false true false utf16_in.

(** ** Hashes *)

Definition ComputeUtf16Hash (chars : list Z) : Z :=
  s32 (fold_left (fun hash c => u32 (hash * 31 + c)) chars 0).

Fixpoint hash_from_utf8 (fuel : nat) (utf8 : list Z) (utf16_length : Z) (hash : Z) : option Z :=
  if negb (utf16_length =? 0) then
    match fuel with
    | O => None
    | S fuel =>
        '(maybe_pair, utf8) ← GetUtf16FromUtf8 utf8;
        let first := GetLeadingUtf16Char maybe_pair in
        let hash := u32 (hash * 31 + first) in
        let utf16_length := utf16_length - 1 in
        let second := GetTrailingUtf16Char maybe_pair in
        if negb (second =? 0) then
          hash_from_utf8 fuel utf8 (utf16_length - 1) (u32 (hash * 31 + second))
        else hash_from_utf8 fuel utf8 utf16_length hash
    end
  else Some hash.

Definition ComputeUtf16HashFromModifiedUtf8 (utf8 : list Z) (utf16_length : Z) : option Z :=
  hash ← hash_from_utf8 (Z.to_nat utf16_length) utf8 utf16_length 0; Some (s32 hash).

Definition StartModifiedUtf8Hash : Z := 0.
Definition UpdateModifiedUtf8Hash (hash c : Z) : Z := u32 (hash * 31 + u8 c).
Definition UpdateModifiedUtf8Hash_view (hash : Z) (chars : list Z) : Z :=
  fold_left UpdateModifiedUtf8Hash chars hash.

Fixpoint hash_nul (chars : list Z) (hash : Z) : option Z :=
  match chars with
  | [] => None
  | c :: chars => if negb (c =? 0) then hash_nul chars (UpdateModifiedUtf8Hash hash c) else Some hash
  end.

Definition ComputeModifiedUtf8Hash_nul (chars : list Z) : option Z := hash_nul chars StartModifiedUtf8Hash.
Definition ComputeModifiedUtf8Hash (chars : list Z) : Z :=
  UpdateModifiedUtf8Hash_view StartModifiedUtf8Hash chars.

(** ** Comparison *)

Fixpoint compare_utf16 (fuel : nat) (utf8 utf16 : list Z) : option Z :=
  '(c, _) ← next_byte utf8;
  if c =? 0 then Some (if (length utf16 =? 0)%nat then 0 else -1)
  else
    match utf16, fuel with
    | [], _ => Some 1
    | _, O => None
    | rhs :: utf16, S fuel =>
        '(maybe_pair, utf8) ← GetUtf16FromUtf8 utf8;
        let lhs := GetLeadingUtf16Char maybe_pair in
        if negb (lhs =? rhs) then Some (if rhs <? lhs then 1 else -1)
        else
          let lhs2 := GetTrailingUtf16Char maybe_pair in
          if negb (lhs2 =? 0) then
            match utf16 with
            | [] => Some 1
            | rhs2 :: utf16 =>
                if negb (lhs2 =? rhs2) then Some (if rhs2 <? lhs2 then 1 else -1)
                else compare_utf16 fuel utf8 utf16
            end
          else compare_utf16 fuel utf8 utf16
    end.

Definition CompareModifiedUtf8ToUtf16AsCodePointValues (utf8 utf16 : list Z) : option Z :=
  compare_utf16 (length utf16) utf8 utf16.

Fixpoint compare_utf8 (fuel : nat) (utf8_1 utf8_2 : list Z) : option Z :=
  '(c1, _) ← next_byte utf8_1;
  '(c2, _) ← next_byte utf8_2;
  if c1 =? 0 then Some (if c2 =? 0 then 0 else -1)
  else if c2 =? 0 then Some 1
  else
    '(c1, utf8_1) ← GetUtf16FromUtf8 utf8_1;
    '(c2, utf8_2) ← GetUtf16FromUtf8 utf8_2;
    if c1 =? c2 then
      match fuel with O => None | S fuel => compare_utf8 fuel utf8_1 utf8_2 end
    else
      let leading_surrogate_diff := u32 (GetLeadingUtf16Char c1 - GetLeadingUtf16Char c2) in
      if negb (leading_surrogate_diff =? 0) then Some (s32 leading_surrogate_diff)
      else Some (GetTrailingUtf16Char c1 - GetTrailingUtf16Char c2).

Definition CompareModifiedUtf8ToModifiedUtf8AsUtf16CodePointValues (utf8_1 utf8_2 : list Z) : option Z :=
  compare_utf8 (length utf8_1) utf8_1 utf8_2.

(** ** Printing *)

Definition NeedsEscaping (ch : Z) : bool := (ch <? 32) || (126 <? ch).

Definition hex_digit (d : Z) : Z := if d <? 10 then 48 + d else 87 + d.

(** What the format "\u%04x" gives for a 16-bit value. *)
Definition format_u (ch : Z) : list Z :=
  [92; 117; hex_digit (Z.land (ch ≫ 12) 15); hex_digit (Z.land (ch ≫ 8) 15);
   hex_digit (Z.land (ch ≫ 4) 15); hex_digit (Z.land ch 15)].

Definition PrintableChar (ch : Z) : list Z :=
  [39] ++ (if NeedsEscaping ch then format_u ch else [u8 ch]) ++ [39].

Fixpoint print_chars (fuel : nat) (p : list Z) (i char_count : Z) : option (list Z) :=
  if i <? char_count then
    match fuel with
    | O => None
    | S fuel =>
        '(ch, p) ← GetUtf16FromUtf8 p;
        if ch =? 92 then out ← print_chars fuel p (i + 1) char_count; Some ([92; 92] ++ out)
        else if ch =? 10 then out ← print_chars fuel p (i + 1) char_count; Some ([92; 110] ++ out)
        else if ch =? 13 then out ← print_chars fuel p (i + 1) char_count; Some ([92; 114] ++ out)
        else if ch =? 9 then out ← print_chars fuel p (i + 1) char_count; Some ([92; 116] ++ out)
        else
          let leading := GetLeadingUtf16Char ch in
          let here := if NeedsEscaping leading then format_u leading else [u8 leading] in
          let trailing := GetTrailingUtf16Char ch in
          if negb (trailing =? 0) then
            out ← print_chars fuel p (i + 1 + 1) char_count; Some (here ++ format_u trailing ++ out)
          else out ← print_chars fuel p (i + 1) char_count; Some (here ++ out)
    end
  else Some [].

(** [strlen] is the number of bytes before the first NUL. *)
Fixpoint strlen (utf8 : list Z) : option nat :=
  match utf8 with
  | [] => None
  | c :: utf8 => if c =? 0 then Some 0%nat else n ← strlen utf8; Some (S n)
  end.

Definition PrintableString (utf8 : list Z) : option (list Z) :=
  n ← strlen utf8;
  let char_count := CountModifiedUtf8Chars utf8 n in
  out ← print_chars (length utf8) utf8 0 char_count;
  Some ([34] ++ out ++ [34]).

(** ** Checking a predicate on a range of integers by evaluation *)

Fixpoint check_from (n : nat) (i : Z) (P : Z -> bool) : bool :=
  match n with O => true | S n => P i && check_from n (i + 1) P end.

Lemma check_from_spec n i P :
  check_from n i P = true -> forall x, i <= x < i + Z.of_nat n -> P x = true.
Proof.
  revert i. induction n as [|n IH]; intros i Hc x Hx; [lia|]. cbn [check_from] in Hc.
  apply andb_true_iff in Hc as [H0 Hc]. destruct (decide (x = i)) as [->|]; [done|].
  apply (IH (i + 1)); [done|lia].
Qed.

(** ** One unit: a character or a surrogate pair *)

(** The value [GetUtf16FromUtf8] gives for the unit. *)
Definition pack (unit : list Z) : Z :=
  match unit with
  | [c] => c
  | [lead; trail] => lead + trail * 2 ^ 16
  | _ => 0
  end.

Record unit_ok (unit bytes : list Z) : Prop := {
  unit_bytes : Forall (fun b => 0 < b < 256) bytes;
  unit_decode : forall r, GetUtf16FromUtf8 (bytes ++ r) = Some (pack unit, r);
  unit_count : forall r, count_chars (bytes ++ r) 0 = Z.of_nat (length unit) + count_chars r 0;
  unit_append : forall out, append_utf16 (pack unit) out = unit ++ out;
  unit_length : (1 <= length unit <= length bytes)%nat;
  unit_ascii : length unit = length bytes -> bytes = unit /\ Forall (fun c => 0 <= c < 128) unit }.

Lemma leading_of c t : is_u 16 c -> is_u 16 t -> GetLeadingUtf16Char (c + t * 2 ^ 16) = c.
Proof.
  intros Hc Ht. unfold GetLeadingUtf16Char. change 0x0000FFFF with (Z.ones 16).
  rewrite Z.land_ones by lia. unfold uN. rewrite Z.mod_mod by lia. rewrite Z.mod_add by lia. apply Z.mod_small. apply Hc.
Qed.

Lemma trailing_of c t : is_u 16 c -> is_u 16 t -> GetTrailingUtf16Char (c + t * 2 ^ 16) = t.
Proof.
  intros Hc Ht. unfold GetTrailingUtf16Char. rewrite Z.shiftr_div_pow2, Z.div_add by lia.
  rewrite (Z.div_small c) by apply Hc. by apply uN_small.
Qed.

Lemma append_single c out : is_u 16 c -> append_utf16 c out = c :: out.
Proof.
  intros Hc. pose proof (leading_of c 0 Hc ltac:(done)) as Hl. pose proof (trailing_of c 0 Hc ltac:(done)) as Ht.
  rewrite Z.mul_0_l, Z.add_0_r in Hl, Ht. unfold append_utf16. by rewrite Hl, Ht.
Qed.

Lemma append_pair c t out : is_u 16 c -> is_u 16 t -> t <> 0 -> append_utf16 (c + t * 2 ^ 16) out = c :: t :: out.
Proof.
  intros Hc Ht Hn. unfold append_utf16. rewrite leading_of, trailing_of by done.
  by rewrite (proj2 (Z.eqb_neq t 0)).
Qed.

Ltac unit_bounds := repeat (apply Forall_cons_2; [cbv beta; lia|]); apply Forall_nil_2.
Ltac unit_eval := simpl app; unfold GetUtf16FromUtf8; cbn [count_chars next_byte mbind option_bind].

Lemma unit_one c : 0 < c < 0x80 -> unit_ok [c] [u8 c].
Proof.
  intros Hc. assert ((Z.land c 0x80 =? 0) = true) as H1.
  { exact (check_from_spec 128 0 (fun c => Z.land c 0x80 =? 0) eq_refl c ltac:(lia)). }
  rewrite uN_small by (unfold is_u; lia). constructor.
  - unit_bounds.
  - intros r. unit_eval. by rewrite H1.
  - intros r. unit_eval. by rewrite H1.
  - intros out. apply (append_single c). unfold is_u. lia.
  - simpl. lia.
  - intros _. split; [done|unit_bounds].
Qed.

Definition check_two (c : Z) : bool :=
  let one := u8 (Z.lor (c ≫ 6) 0xc0) in
  let two := u8 (Z.lor (Z.land c 0x3f) 0x80) in
  (0 <? one) && (0 <? two) && negb (Z.land one 0x80 =? 0) && (Z.land one 0x20 =? 0) &&
  (Z.lor (Z.land one 0x1f ≪ 6) (Z.land two 0x3f) =? c).

Lemma unit_two c :
  0 <= c < 0x800 -> unit_ok [c] [u8 (Z.lor (c ≫ 6) 0xc0); u8 (Z.lor (Z.land c 0x3f) 0x80)].
Proof.
  intros Hc. assert (check_two c = true) as Hk.
  { apply (check_from_spec (Z.to_nat 0x800) 0); [vm_compute; reflexivity|lia]. }
  unfold check_two in Hk. pose proof (uN_is_u 8 (Z.lor (c ≫ 6) 0xc0) ltac:(lia)) as U1.
  pose proof (uN_is_u 8 (Z.lor (Z.land c 0x3f) 0x80) ltac:(lia)) as U2. unfold is_u in U1, U2.
  set (one := u8 (Z.lor (c ≫ 6) 0xc0)) in *. set (two := u8 (Z.lor (Z.land c 0x3f) 0x80)) in *.
  apply andb_true_iff in Hk as [[[[H1 H2]%andb_true_iff H3%negb_true_iff]%andb_true_iff H4]%andb_true_iff H5].
  constructor.
  - unit_bounds.
  - intros r. unit_eval. rewrite H3, H4. apply Z.eqb_eq in H5. by rewrite H5.
  - intros r. unit_eval. by rewrite H3, H4.
  - intros out. apply (append_single c). unfold is_u. lia.
  - simpl. lia.
  - simpl. lia.
Qed.

Definition check_three (c : Z) : bool :=
  let one := u8 (Z.lor (c ≫ 12) 0xe0) in
  let two := u8 (Z.lor (Z.land (c ≫ 6) 0x3f) 0x80) in
  let three := u8 (Z.lor (Z.land c 0x3f) 0x80) in
  (0 <? one) && (0 <? two) && (0 <? three) && negb (Z.land one 0x80 =? 0) && negb (Z.land one 0x20 =? 0) &&
  (Z.land one 0x10 =? 0) &&
  (Z.lor (Z.lor (Z.land one 0x0f ≪ 12) (Z.land two 0x3f ≪ 6)) (Z.land three 0x3f) =? c).

Lemma unit_three c :
  is_u 16 c ->
  unit_ok [c] [u8 (Z.lor (c ≫ 12) 0xe0); u8 (Z.lor (Z.land (c ≫ 6) 0x3f) 0x80);
               u8 (Z.lor (Z.land c 0x3f) 0x80)].
Proof.
  intros Hc. assert (check_three c = true) as Hk.
  { apply (check_from_spec (Z.to_nat 0x10000) 0); [vm_compute; reflexivity|unfold is_u in Hc; lia]. }
  unfold check_three in Hk. pose proof (uN_is_u 8 (Z.lor (c ≫ 12) 0xe0) ltac:(lia)) as U1.
  pose proof (uN_is_u 8 (Z.lor (Z.land (c ≫ 6) 0x3f) 0x80) ltac:(lia)) as U2.
  pose proof (uN_is_u 8 (Z.lor (Z.land c 0x3f) 0x80) ltac:(lia)) as U3. unfold is_u in U1, U2, U3.
  set (one := u8 (Z.lor (c ≫ 12) 0xe0)) in *. set (two := u8 (Z.lor (Z.land (c ≫ 6) 0x3f) 0x80)) in *.
  set (three := u8 (Z.lor (Z.land c 0x3f) 0x80)) in *.
  apply andb_true_iff in Hk
    as [[[[[[H1 H2]%andb_true_iff H3]%andb_true_iff H4%negb_true_iff]%andb_true_iff H5%negb_true_iff]%andb_true_iff
         H6]%andb_true_iff H7].
  constructor.
  - unit_bounds.
  - intros r. unit_eval. rewrite H4, H5, H6. apply Z.eqb_eq in H7. by rewrite H7.
  - intros r. unit_eval. by rewrite H4, H5, H6.
  - intros out. by apply (append_single c).
  - simpl. lia.
  - simpl. lia.
Qed.

(** *** Surrogate pairs *)

Lemma lead_range c : is_u 16 c -> is_lead c = true -> exists a, c = 0xd800 + a /\ 0 <= a < 0x400.
Proof.
  intros Hc Hl. exists (c - 0xd800). split; [lia|].
  pose proof (check_from_spec (Z.to_nat 0x10000) 0
    (fun c => negb (is_lead c) || ((0 <=? c - 0xd800) && (c - 0xd800 <? 0x400))) ltac:(vm_compute; reflexivity) c) as H.
  unfold is_u in Hc. specialize (H ltac:(lia)). cbv beta in H. rewrite Hl in H. simpl in H.
  apply andb_true_iff in H as [?%Z.leb_le ?%Z.ltb_lt]. lia.
Qed.

Lemma trail_range c : is_u 16 c -> is_trail c = true -> exists b, c = 0xdc00 + b /\ 0 <= b < 0x400.
Proof.
  intros Hc Hl. exists (c - 0xdc00). split; [lia|].
  pose proof (check_from_spec (Z.to_nat 0x10000) 0
    (fun c => negb (is_trail c) || ((0 <=? c - 0xdc00) && (c - 0xdc00 <? 0x400))) ltac:(vm_compute; reflexivity) c) as H.
  unfold is_u in Hc. specialize (H ltac:(lia)). cbv beta in H. rewrite Hl in H. simpl in H.
  apply andb_true_iff in H as [?%Z.leb_le ?%Z.ltb_lt]. lia.
Qed.

Lemma supplementary_value a b :
  0 <= a < 0x400 -> 0 <= b < 0x400 ->
  get_supplementary (0xd800 + a) (0xdc00 + b) = 0x10000 + a * 0x400 + b.
Proof.
  intros Ha Hb. unfold get_supplementary. rewrite Z.shiftl_mul_pow2 by lia. change (2 ^ 10) with 0x400.
  rewrite (uN_small 32 ((0xd800 + a) * 0x400)) by (unfold is_u; lia).
  rewrite (uN_small 32 (_ + _)) by (unfold is_u; lia).
  change (u32 (u32 (u32 (0xd800 ≪ 10) + 0xdc00) - 0x10000)) with 0x35fdc00.
  rewrite uN_small by (unfold is_u; lia). lia.
Qed.

Lemma low_six m : 0 <= m < 64 -> Z.land (u8 (Z.lor m 0x80)) 0x3f = m /\ 0 < u8 (Z.lor m 0x80).
Proof.
  intros Hm.
  pose proof (check_from_spec 64 0
    (fun m => (Z.land (u8 (Z.lor m 0x80)) 0x3f =? m) && (0 <? u8 (Z.lor m 0x80))) eq_refl m ltac:(lia)) as H.
  apply andb_true_iff in H as [?%Z.eqb_eq ?%Z.ltb_lt]. done.
Qed.

Lemma top_bits m :
  0 <= m < 8 ->
  let one := u8 (Z.lor m 0xf0) in
  Z.land one 0x0f = m /\ 0 < one /\ (Z.land one 0x80 =? 0) = false /\ (Z.land one 0x20 =? 0) = false /\
  (Z.land one 0x10 =? 0) = false.
Proof.
  intros Hm. assert (m = 0 \/ m = 1 \/ m = 2 \/ m = 3 \/ m = 4 \/ m = 5 \/ m = 6 \/ m = 7) as H by lia.
  destruct_or! H; subst m; done.
Qed.

Lemma land_ones_6 x : 0 <= Z.land x 0x3f < 64.
Proof. change 0x3f with (Z.ones 6). rewrite Z.land_ones by lia. apply Z.mod_pos_bound. lia. Qed.

Lemma code_point_split cp :
  is_u 21 cp ->
  Z.lor (Z.lor (Z.lor ((cp ≫ 18) ≪ 18) (Z.land (cp ≫ 12) 0x3f ≪ 12)) (Z.land (cp ≫ 6) 0x3f ≪ 6))
    (Z.land cp 0x3f) = cp.
Proof.
  intros Hc. change 0x3f with (Z.ones 6).
  bitwise; rewrite Z.shiftr_spec by lia; f_equal; lia.
Qed.

Lemma surrogates_of a b :
  0 <= a < 0x400 -> 0 <= b < 0x400 ->
  let code_point := 0x10000 + a * 0x400 + b in
  Z.lor (Z.lor 0 (Z.land ((code_point ≫ 10) + 0xd7c0) 0xffff)) (u32 ((Z.land code_point 0x03ff + 0xdc00) ≪ 16)) =
  (0xd800 + a) + (0xdc00 + b) * 2 ^ 16.
Proof.
  intros Ha Hb. cbv zeta. rewrite Z.shiftr_div_pow2, Z.shiftl_mul_pow2 by lia.
  change 0x03ff with (Z.ones 10). change 0xffff with (Z.ones 16). rewrite !Z.land_ones by lia.
  replace ((0x10000 + a * 0x400 + b) / 2 ^ 10) with (64 + a).
  2:{ apply (Z.div_unique _ _ _ b); lia. }
  replace ((0x10000 + a * 0x400 + b) mod 2 ^ 10) with b.
  2:{ apply (Z.mod_unique _ _ (64 + a)); lia. }
  rewrite (Z.mod_small (_ + _)), uN_small by (unfold is_u; lia). rewrite Z.lor_0_l.
  replace (64 + a + 0xd7c0) with (0xd800 + a) by lia. rewrite (Z.add_comm b).
  symmetry. apply Z.add_nocarry_lor. set (x := 0xd800 + a). set (y := 0xdc00 + b).
  assert (is_u 16 x) by (unfold is_u; lia). rewrite <- Z.shiftl_mul_pow2 by lia. bitwise.
  destruct (decide (i < 16)); [rewrite (Z.testbit_neg_r y) by lia; apply andb_false_r|].
  by rewrite (testbit_high 16 x) by (done || lia).
Qed.

Lemma unit_pair c t :
  is_u 16 c -> is_u 16 t -> is_lead c = true -> is_trail t = true ->
  let code_point := get_supplementary c t in
  unit_ok [c; t] [u8 (Z.lor (code_point ≫ 18) 0xf0); u8 (Z.lor (Z.land (code_point ≫ 12) 0x3f) 0x80);
                  u8 (Z.lor (Z.land (code_point ≫ 6) 0x3f) 0x80); u8 (Z.lor (Z.land code_point 0x3f) 0x80)].
Proof.
  intros Hc Ht Hl Htr. destruct (lead_range c Hc Hl) as (a & -> & Ha). destruct (trail_range t Ht Htr) as (b & -> & Hb).
  rewrite supplementary_value by done. cbv zeta. set (cp := 0x10000 + a * 0x400 + b).
  assert (is_u 21 cp) as Hcp by (unfold is_u; lia).
  assert (0 <= cp ≫ 18 < 8) as Htop.
  { rewrite Z.shiftr_div_pow2 by lia. split; [apply Z.div_pos; lia|apply Z.div_lt_upper_bound; lia]. }
  destruct (top_bits _ Htop) as (T1 & T2 & T3 & T4 & T5).
  destruct (low_six _ (land_ones_6 (cp ≫ 12))) as [L1 P1]. destruct (low_six _ (land_ones_6 (cp ≫ 6))) as [L2 P2].
  destruct (low_six _ (land_ones_6 cp)) as [L3 P3].
  pose proof (fun x => uN_is_u 8 x ltac:(lia)) as U. unfold is_u in U. constructor.
  - repeat (apply Forall_cons_2; [split; [done|apply U]|]). apply Forall_nil_2.
  - intros r. unit_eval. rewrite T3, T4, T5, T1, L1, L2, L3, code_point_split by done. f_equal. f_equal.
    by apply surrogates_of.
  - intros r. unit_eval. by rewrite T3, T4, T5.
  - intros out. apply append_pair; [done..|]. unfold is_u in *. lia.
  - simpl. lia.
  - simpl. lia.
Qed.

(** ** Encoding unit by unit *)

Lemma encode_step u4 c s :
  Forall (is_u 16) (c :: s) ->
  exists unit s' bytes, c :: s = unit ++ s' /\ unit_ok unit bytes /\
    ConvertUtf16ToUtf8 false u4 false (c :: s) = bytes ++ ConvertUtf16ToUtf8 false u4 false s' /\
    (unit = [c] \/ exists t, unit = [c; t] /\ u4 = true /\ is_lead c = true /\ is_trail t = true) /\
    (unit = [c] -> u4 = true -> is_lead c = true -> has_trail s = false).
Proof.
  intros [Hc Hs]%Forall_cons. cbn [ConvertUtf16ToUtf8]. unfold is_u in Hc.
  destruct ((c <? 0x80) && (false || negb (c =? 0))) eqn:E1.
  { apply andb_true_iff in E1 as [E1%Z.ltb_lt E2]. simpl in E2. apply negb_true_iff, Z.eqb_neq in E2.
    exists [c], s, [u8 c]. split_and!; [done|apply unit_one; lia|done|by left|].
    intros _ _ Hl. destruct (lead_range c Hc Hl) as (a & -> & Ha). lia. }
  destruct (Z.ltb_spec c 0x800).
  { eexists [c], s, [_; _]. split_and!; [done|apply unit_two; lia|done|by left|].
    intros _ _ Hl. destruct (lead_range c Hc Hl) as (a & -> & Ha). lia. }
  destruct (u4 && is_lead c && has_trail s) eqn:E3.
  - apply andb_true_iff in E3 as [[-> Hl]%andb_true_iff Ht]. destruct s as [|t s]; [done|]. simpl in Ht.
    apply Forall_cons in Hs as [Htu Hs]. eexists [c; t], s, [_; _; _; _].
    split_and!; [done|by apply unit_pair|done|right; by exists t|done].
  - eexists [c], s, [_; _; _]. split_and!; [done|by apply unit_three|done|by left|].
    intros _ -> Hl. rewrite Hl in E3. done.
Qed.

Lemma encode_ind u4 (P : list Z -> list Z -> Prop) :
  P [] [] ->
  (forall unit bytes s e, unit_ok unit bytes -> P s e -> P (unit ++ s) (bytes ++ e)) ->
  forall s, Forall (is_u 16) s -> P s (ConvertUtf16ToUtf8 false u4 false s).
Proof.
  intros H0 HS s. induction s as [s IH] using (induction_ltof1 _ length). intros Hs.
  destruct s as [|c s]; [done|]. destruct (encode_step u4 c s Hs) as (unit & s' & bytes & Heq & Hu & He & _).
  rewrite He, Heq. apply HS; [done|]. pose proof (unit_length _ _ Hu). rewrite Heq in Hs.
  apply Forall_app in Hs as [_ Hs]. apply IH; [|done]. unfold ltof. rewrite Heq, length_app. lia.
Qed.

Section encoded.
Context (u4 : bool) (s tail : list Z) (Hs : Forall (is_u 16) s).
#[local] Abbreviation e := (ConvertUtf16ToUtf8 false u4 false s).

Lemma encode_bytes : Forall (fun b => 0 < b < 256) e.
Proof using Hs.
  apply (encode_ind u4 (fun _ e => Forall (fun b => 0 < b < 256) e)); [done| |done].
  intros unit bytes s' e' Hu IH. apply Forall_app. split; [apply Hu|done].
Qed.

Lemma encode_count : count_chars e 0 = Z.of_nat (length s).
Proof using Hs.
  apply (encode_ind u4 (fun s e => count_chars e 0 = Z.of_nat (length s))); [done| |done].
  intros unit bytes s' e' Hu IH. rewrite (unit_count _ _ Hu), IH, length_app. lia.
Qed.

Lemma encode_length : (length s <= length e)%nat.
Proof using Hs.
  apply (encode_ind u4 (fun s e => length s <= length e)%nat); [done| |done].
  intros unit bytes s' e' Hu IH. pose proof (unit_length _ _ Hu). rewrite !length_app. lia.
Qed.

(** As many bytes as characters means that all are ASCII. *)
Lemma encode_ascii : length s = length e -> e = s /\ Forall (fun c => 0 <= c < 128) s.
Proof using Hs.
  apply (encode_ind u4 (fun s e => (length s <= length e)%nat /\
    (length s = length e -> e = s /\ Forall (fun c => 0 <= c < 128) s))); [done| |done].
  intros unit bytes s' e' Hu [IHl IH]. pose proof (unit_length _ _ Hu). rewrite !length_app. split; [lia|].
  intros Hl. destruct (unit_ascii _ _ Hu) as [-> Hf]; [lia|]. destruct IH as [-> Hf']; [lia|].
  split; [done|]. by apply Forall_app.
Qed.

Lemma encode_convert_until fuel :
  (length s <= fuel)%nat -> convert_until fuel (e ++ tail) (length tail) = Some s.
Proof using Hs.
  revert fuel. apply (encode_ind u4 (fun s e => forall fuel, (length s <= fuel)%nat ->
    convert_until fuel (e ++ tail) (length tail) = Some s)); [| |done].
  - intros fuel _. destruct fuel; simpl; by rewrite Nat.ltb_irrefl.
  - intros unit bytes s' e' Hu IH fuel Hf. pose proof (unit_length _ _ Hu). rewrite length_app in Hf.
    destruct fuel as [|fuel]; [lia|]. cbn [convert_until]. rewrite <- app_assoc, (unit_decode _ _ Hu).
    rewrite !length_app. destruct (Nat.ltb_spec (length tail) (length bytes + (length e' + length tail))); [|lia].
    cbn [mbind option_bind]. rewrite IH by lia. cbn [mbind option_bind]. by rewrite (unit_append _ _ Hu).
Qed.

Lemma encode_convert_nul fuel :
  (length s <= fuel)%nat -> convert_nul fuel (e ++ 0 :: tail) = Some s.
Proof using Hs.
  revert fuel. apply (encode_ind u4 (fun s e => forall fuel, (length s <= fuel)%nat ->
    convert_nul fuel (e ++ 0 :: tail) = Some s)); [| |done].
  - intros fuel _. by destruct fuel.
  - intros unit bytes s' e' Hu IH fuel Hf. pose proof (unit_length _ _ Hu). rewrite length_app in Hf.
    destruct fuel as [|fuel]; [lia|]. cbn [convert_nul]. rewrite <- app_assoc, (unit_decode _ _ Hu).
    pose proof (unit_bytes _ _ Hu) as Hb. destruct bytes as [|b bytes]; [simpl in *; lia|].
    apply Forall_cons in Hb as [Hb _]. cbn [app next_byte mbind option_bind].
    destruct (Z.eqb_spec b 0); [lia|]. cbn [negb]. rewrite IH by lia. cbn [mbind option_bind].
    by rewrite (unit_append _ _ Hu).
Qed.

Lemma encode_hash fuel hash :
  (length s <= fuel)%nat ->
  hash_from_utf8 fuel (e ++ tail) (Z.of_nat (length s)) hash =
  Some (fold_left (fun hash c => u32 (hash * 31 + c)) s hash).
Proof using Hs.
  revert fuel hash. apply (encode_ind u4 (fun s e => forall fuel hash, (length s <= fuel)%nat ->
    hash_from_utf8 fuel (e ++ tail) (Z.of_nat (length s)) hash =
    Some (fold_left (fun hash c => u32 (hash * 31 + c)) s hash))); [| |done].
  - intros fuel hash _. by destruct fuel.
  - intros unit bytes s' e' Hu IH fuel hash Hf. pose proof (unit_length _ _ Hu) as Hl.
    pose proof (unit_append _ _ Hu []) as Ha. unfold append_utf16 in Ha. rewrite app_nil_r in Ha.
    rewrite length_app in Hf |- *. destruct fuel as [|fuel]; [lia|]. cbn [hash_from_utf8].
    destruct (Z.eqb_spec (Z.of_nat (length unit + length s')) 0); [lia|]. cbn [negb].
    rewrite <- app_assoc, (unit_decode _ _ Hu), fold_left_app. cbn [mbind option_bind].
    clear Hu. set (first := GetLeadingUtf16Char _) in *. set (second := GetTrailingUtf16Char _) in *.
    clearbody first second. destruct (negb (second =? 0)); subst unit; cbn [length fold_left] in *.
    + replace (Z.of_nat (2 + length s') - 1 - 1) with (Z.of_nat (length s')) by lia. apply IH. lia.
    + replace (Z.of_nat (1 + length s') - 1) with (Z.of_nat (length s')) by lia. apply IH. lia.
Qed.

Lemma encode_nul_hash hash :
  hash_nul (e ++ 0 :: tail) hash = Some (fold_left UpdateModifiedUtf8Hash e hash).
Proof using Hs.
  pose proof encode_bytes as Hb. revert hash. induction e as [|b bs IH]; intros hash; [done|].
  apply Forall_cons in Hb as [Hb Hbs]. cbn [app hash_nul fold_left].
  destruct (Z.eqb_spec b 0); [lia|]. by apply IH.
Qed.
End encoded.

(** ** Comparison *)

(** The order of strings of 16-bit code units, as -1, 0 or 1. *)
Fixpoint lex_compare (s t : list Z) : Z :=
  match s, t with
  | [], [] => 0
  | [], _ => -1
  | _, [] => 1
  | a :: s, b :: t => if a =? b then lex_compare s t else if b <? a then 1 else -1
  end.

Lemma lex_compare_eq s t : lex_compare s t = 0 <-> s = t.
Proof.
  revert t. induction s as [|a s IH]; intros [|b t]; simpl; try done.
  destruct (Z.eqb_spec a b) as [->|Hne].
  - rewrite IH. split; [by intros ->|by injection 1].
  - split; [case_ltb; lia|]. injection 1. congruence.
Qed.

Lemma unit_cases unit bytes :
  unit_ok unit bytes ->
  (exists c, unit = [c] /\ GetLeadingUtf16Char (pack unit) = c /\ GetTrailingUtf16Char (pack unit) = 0) \/
  (exists c t, unit = [c; t] /\ GetLeadingUtf16Char (pack unit) = c /\
               GetTrailingUtf16Char (pack unit) = t /\ t <> 0).
Proof.
  intros Hu. pose proof (unit_append _ _ Hu []) as Ha. unfold append_utf16 in Ha. rewrite app_nil_r in Ha.
  clear Hu. set (first := GetLeadingUtf16Char _) in *. set (second := GetTrailingUtf16Char _) in *.
  clearbody first second. destruct (Z.eqb_spec second 0) as [Hz|Hz]; simpl in Ha; subst.
  - left. by exists first.
  - right. by exists first, second.
Qed.

Lemma unit_first_byte unit bytes r :
  unit_ok unit bytes -> exists b, b <> 0 /\ next_byte (bytes ++ r) = Some (b, tl bytes ++ r).
Proof.
  intros Hu. pose proof (unit_bytes _ _ Hu) as Hb. pose proof (unit_length _ _ Hu).
  destruct bytes as [|b bytes]; [simpl in *; lia|]. apply Forall_cons in Hb as [Hb _]. exists b. split; [lia|done].
Qed.

Lemma encode_compare_utf16 u4 s t tail fuel :
  Forall (is_u 16) s -> (length t <= fuel)%nat ->
  compare_utf16 fuel (ConvertUtf16ToUtf8 false u4 false s ++ 0 :: tail) t = Some (lex_compare s t).
Proof.
  intros Hs. revert t fuel. apply (encode_ind u4 (fun s e => forall t fuel, (length t <= fuel)%nat ->
    compare_utf16 fuel (e ++ 0 :: tail) t = Some (lex_compare s t))); [| |done].
  - intros t fuel _. destruct fuel, t; done.
  - intros unit bytes s' e' Hu IH t fuel Hf. rewrite <- app_assoc.
    destruct (unit_first_byte _ _ (e' ++ 0 :: tail) Hu) as (b & Hb & Hnb).
    pose proof (unit_length _ _ Hu) as Hl. destruct unit as [|c unit]; [simpl in Hl; lia|].
    destruct t as [|d t]; [|destruct fuel as [|fuel]; [simpl in Hf; lia|]].
    { destruct fuel; cbn [compare_utf16]; rewrite Hnb; cbn [mbind option_bind]; by rewrite (proj2 (Z.eqb_neq b 0)). }
    cbn [compare_utf16]. rewrite Hnb. cbn [mbind option_bind]. rewrite (proj2 (Z.eqb_neq b 0)) by done.
    rewrite (unit_decode _ _ Hu). cbn [mbind option_bind]. simpl in Hf.
    destruct (unit_cases _ _ Hu) as [(c0 & [= <- ->] & -> & ->)|(c0 & t2 & [= <- ->] & -> & -> & Hne)];
      cbn [app lex_compare]; destruct (Z.eqb_spec c d); try done; cbn [negb].
    + rewrite Z.eqb_refl. apply IH. lia.
    + rewrite (proj2 (Z.eqb_neq t2 0)) by done. cbn [negb]. destruct t as [|d2 t]; [done|].
      destruct (Z.eqb_spec t2 d2); [|done]. apply IH. simpl in Hf. lia.
Qed.

(** Every leading surrogate is followed by a trailing one. *)
Fixpoint no_lone_lead (s : list Z) : bool :=
  match s with
  | [] => true
  | c :: s => (if is_lead c then has_trail s else true) && no_lone_lead s
  end.

Lemma no_lone_lead_app a b : no_lone_lead (a ++ b) = true -> no_lone_lead b = true.
Proof. induction a as [|c a IH]; [done|]. simpl. intros [_ H]%andb_true_iff. auto. Qed.

Definition compare_result (s t : list Z) (r : Z) : Prop :=
  (r = 0 <-> s = t) /\ (no_lone_lead s = true -> no_lone_lead t = true -> Z.sgn r = lex_compare s t).

(** [c] is a leading surrogate that [s] does not complete, but [t] would. *)
Definition lone (c t : Z) (s : list Z) : Prop := is_lead c = true /\ is_trail t = true /\ has_trail s = false.

Lemma lone_ne c t s s' : lone c t s -> c :: s <> c :: t :: s'.
Proof. intros (_ & Ht & Hs). injection 1 as ->. simpl in Hs. congruence. Qed.

Lemma lone_lead c t s : lone c t s -> no_lone_lead (c :: s) = false.
Proof. intros (Hl & _ & Hs). simpl. by rewrite Hl, Hs. Qed.

(** The result when the first units differ. *)
Lemma compare_units u1 b1 s1 u2 b2 s2 :
  unit_ok u1 b1 -> unit_ok u2 b2 -> pack u1 <> pack u2 ->
  (forall c t, u1 = [c] -> u2 = [c; t] -> lone c t s1) -> (forall c t, u2 = [c] -> u1 = [c; t] -> lone c t s2) ->
  let leading_surrogate_diff := u32 (GetLeadingUtf16Char (pack u1) - GetLeadingUtf16Char (pack u2)) in
  let r := if negb (leading_surrogate_diff =? 0) then s32 leading_surrogate_diff
           else GetTrailingUtf16Char (pack u1) - GetTrailingUtf16Char (pack u2) in
  compare_result (u1 ++ s1) (u2 ++ s2) r.
Proof.
  intros H1 H2 Hne Hl1 Hl2. pose proof (uN_is_u 16 (pack u1 ≫ 16) ltac:(lia)) as T1.
  pose proof (uN_is_u 16 (pack u2 ≫ 16) ltac:(lia)) as T2.
  pose proof (uN_is_u 16 (Z.land (pack u1) 0xffff) ltac:(lia)) as L1.
  pose proof (uN_is_u 16 (Z.land (pack u2) 0xffff) ltac:(lia)) as L2.
  fold (GetTrailingUtf16Char (pack u1)) in T1. fold (GetTrailingUtf16Char (pack u2)) in T2.
  fold (GetLeadingUtf16Char (pack u1)) in L1. fold (GetLeadingUtf16Char (pack u2)) in L2. unfold is_u in *.
  assert (forall x y, 0 <= x < 2 ^ 16 -> 0 <= y < 2 ^ 16 ->
    (u32 (x - y) =? 0) = (x =? y) /\ s32 (u32 (x - y)) = x - y) as Hdiff.
  { intros x y Hx Hy. split; [|rewrite sN_uN by lia; apply sN_small; [lia|unfold is_s; lia]].
    unfold uN. destruct (Z.eqb_spec x y) as [->|Hxy]; [by rewrite Z.sub_diag|].
    apply Z.eqb_neq. intros Hm. apply Z.mod_divide in Hm as [k Hk]; [|lia]. lia. }
  destruct (Hdiff _ _ L1 L2) as [Hz Hv]. cbv zeta. rewrite Hz, Hv. clear Hz Hv Hdiff.
  destruct (unit_cases _ _ H1) as [(c & -> & E1 & E2)|(c & t & -> & E1 & E2 & Ht)];
    destruct (unit_cases _ _ H2) as [(c' & -> & E3 & E4)|(c' & t' & -> & E3 & E4 & Ht')];
    rewrite E1, E2, E3, E4 in *; unfold compare_result; cbn [app lex_compare];
    destruct (Z.eqb_spec c c') as [<-|Hcc]; cbn [negb].
  all: try (split; [split; [lia|injection 1; congruence]|intros _ _; case_ltb; lia]).
  - by contradict Hne.
  - specialize (Hl1 c t' eq_refl eq_refl). split; [split; [lia|intros Heq; by apply lone_ne in Heq]|].
    rewrite (lone_lead _ _ _ Hl1). done.
  - specialize (Hl2 c t eq_refl eq_refl). split; [split; [lia|intros Heq; symmetry in Heq; by apply lone_ne in Heq]|].
    rewrite (lone_lead _ _ _ Hl2). done.
  - assert (t <> t') by (intros ->; by apply Hne). rewrite (proj2 (Z.eqb_neq t t')) by done.
    split; [split; [lia|injection 1; congruence]|]. intros _ _. case_ltb; lia.
Qed.

Lemma if_some {A} (b : bool) (x y : A) : (if b then Some x else Some y) = Some (if b then x else y).
Proof. by destruct b. Qed.

(** When one string has the lone unit [c0] where the other has a pair, the encoder saw a lone surrogate. *)
Lemma lone_unit (u4 : bool) c s s' d u2 c0 t0 (t t' : list Z) :
  c :: s = [c0] ++ s' -> d :: t = u2 ++ t' -> u2 = [c0; t0] ->
  (u2 = [d] \/ exists t, u2 = [d; t] /\ u4 = true /\ is_lead d = true /\ is_trail t = true) ->
  ([c0] = [c] -> u4 = true -> is_lead c = true -> has_trail s = false) ->
  lone c0 t0 s'.
Proof.
  intros [= -> ->] _ -> [|(? & [= <- <-] & ? & ? & ?)] HN; [done|]. split_and!; [done..|]. by apply HN.
Qed.

Lemma lex_compare_prefix u s t : lex_compare (u ++ s) (u ++ t) = lex_compare s t.
Proof. induction u as [|c u IH]; [done|]. simpl. by rewrite Z.eqb_refl. Qed.

Lemma encode_compare_utf8 u4 s t tail1 tail2 fuel :
  Forall (is_u 16) s -> Forall (is_u 16) t -> (length s <= fuel)%nat ->
  exists r, compare_utf8 fuel (ConvertUtf16ToUtf8 false u4 false s ++ 0 :: tail1)
                              (ConvertUtf16ToUtf8 false u4 false t ++ 0 :: tail2) = Some r /\
            compare_result s t r.
Proof.
  revert t fuel. induction s as [s IH] using (induction_ltof1 _ length). intros t fuel Hs Ht Hf.
  destruct s as [|c s]; [destruct t as [|d t]|destruct t as [|d t]].
  - exists 0. by destruct fuel.
  - destruct (encode_step u4 d t Ht) as (u2 & t' & b2 & Eq2 & U2 & E2 & _).
    destruct (unit_first_byte _ _ (ConvertUtf16ToUtf8 false u4 false t' ++ 0 :: tail2) U2) as (y & Hy & Hny).
    exists (-1). rewrite E2, <- app_assoc. destruct fuel; cbn [compare_utf8 app next_byte mbind option_bind ConvertUtf16ToUtf8];
      rewrite Hny; cbn [mbind option_bind]; rewrite Z.eqb_refl, (proj2 (Z.eqb_neq y 0)) by done; done.
  - destruct (encode_step u4 c s Hs) as (u1 & s' & b1 & Eq1 & U1 & E1 & _).
    destruct (unit_first_byte _ _ (ConvertUtf16ToUtf8 false u4 false s' ++ 0 :: tail1) U1) as (x & Hx & Hnx).
    exists 1. rewrite E1, <- app_assoc. destruct fuel; cbn [compare_utf8]; rewrite Hnx;
      cbn [app next_byte mbind option_bind ConvertUtf16ToUtf8]; rewrite (proj2 (Z.eqb_neq x 0)) by done; done.
  - destruct (encode_step u4 c s Hs) as (u1 & s' & b1 & Eq1 & U1 & E1 & C1 & N1).
    destruct (encode_step u4 d t Ht) as (u2 & t' & b2 & Eq2 & U2 & E2 & C2 & N2).
    destruct (unit_first_byte _ _ (ConvertUtf16ToUtf8 false u4 false s' ++ 0 :: tail1) U1) as (x & Hx & Hnx).
    destruct (unit_first_byte _ _ (ConvertUtf16ToUtf8 false u4 false t' ++ 0 :: tail2) U2) as (y & Hy & Hny).
    destruct fuel as [|fuel]; [simpl in Hf; lia|]. cbn [compare_utf8].
    rewrite E1, E2, <- !app_assoc, Hnx, Hny. cbn [mbind option_bind].
    rewrite (proj2 (Z.eqb_neq x 0)), (proj2 (Z.eqb_neq y 0)), (unit_decode _ _ U1), (unit_decode _ _ U2) by done.
    cbn [mbind option_bind]. rewrite Eq1, Eq2 in *. destruct (Z.eqb_spec (pack u1) (pack u2)) as [Hp|Hp].
    + assert (u1 = u2) as <-.
      { pose proof (unit_append _ _ U1 []) as A1. pose proof (unit_append _ _ U2 []) as A2.
        rewrite app_nil_r in A1, A2. congruence. }
      pose proof (unit_length _ _ U1). rewrite length_app in Hf. apply Forall_app in Hs as [_ Hs], Ht as [_ Ht].
      destruct (IH s') with (t := t') (fuel := fuel) as (r & Hr & Hr1 & Hr2); [unfold ltof; rewrite length_app; lia|done..|lia|].
      exists r. split; [done|]. split; [rewrite Hr1; split; [by intros ->|apply app_inv_head]|].
      intros W1%no_lone_lead_app W2%no_lone_lead_app. rewrite Hr2 by done. symmetry. apply lex_compare_prefix.
    + eexists. split; [apply if_some|]. apply (compare_units u1 b1 s' u2 b2 t' U1 U2 Hp).
      * intros c0 t0 -> H2. by eapply (lone_unit u4 c s s' d u2 c0 t0).
      * intros c0 t0 -> H1. by eapply (lone_unit u4 d t t' c u1 c0 t0).
Qed.

(** ** Properties *)

(** C24: Encoding any UTF-16 string as modified UTF-8 (with or without 4-byte sequences) and decoding
    it gives the string back, both for a NUL-terminated string and for a given number of bytes, and
    also when the lengths select the ASCII fast path.  The encoding has no zero byte, the counting
    functions give the exact sizes, and the fast path of the encoder agrees with the general one;
    unpaired surrogates are kept. *)
Theorem Utf_roundtrip (u4 : bool) (s tail : list Z) :
  Forall (is_u 16) s ->
  let e := ConvertUtf16ToUtf8 false u4 false s in
  Forall (fun b => 0 < b < 256) e /\
  CountModifiedUtf8Chars (e ++ tail) (length e) = Z.of_nat (length s) /\
  ConvertModifiedUtf8ToUtf16 (Z.of_nat (length s)) (e ++ tail) (length e) = Some s /\
  ConvertModifiedUtf8ToUtf16_nul (e ++ 0 :: tail) = Some s /\
  ConvertUtf16ToModifiedUtf8 (CountModifiedUtf8BytesInUtf16 s) s = ConvertUtf16ToUtf8 false true false s /\
  CountModifiedUtf8BytesInUtf16 s = Z.of_nat (length (ConvertUtf16ToModifiedUtf8 (CountModifiedUtf8BytesInUtf16 s) s)).
Proof.
  intros Hs e. assert (ConvertUtf16ToModifiedUtf8 (CountModifiedUtf8BytesInUtf16 s) s =
                       ConvertUtf16ToUtf8 false true false s) as Hfast.
  { unfold ConvertUtf16ToModifiedUtf8, CountModifiedUtf8BytesInUtf16. case_ltb; [|done].
    destruct (encode_ascii true s Hs ltac:(lia)) as [-> Hf]. rewrite <- (map_id s) at 2. apply map_ext_in.
    intros c Hc. apply list_elem_of_In in Hc. rewrite Forall_forall in Hf. apply Hf in Hc.
    apply uN_small. unfold is_u. lia. }
  split_and!; try done.
  - by apply encode_bytes.
  - unfold CountModifiedUtf8Chars. rewrite take_app_length. by apply encode_count.
  - unfold ConvertModifiedUtf8ToUtf16. rewrite length_app, take_app_length. case_ltb.
    + destruct (encode_ascii u4 s Hs ltac:(fold e; lia)) as [He Hf]. fold e in He.
      destruct (Nat.ltb_spec (length e + length tail) (length e)); [lia|]. f_equal. rewrite He.
      rewrite <- (map_id s) at 2. apply map_ext_in. intros c Hc. apply list_elem_of_In in Hc.
      rewrite Forall_forall in Hf. apply Hf in Hc. rewrite sN_small by (unfold is_s; lia).
      apply uN_small. unfold is_u. lia.
    + replace (length e + length tail - length e)%nat with (length tail) by lia.
      apply encode_convert_until; [done|]. pose proof (encode_length u4 s Hs). unfold e. lia.
  - unfold ConvertModifiedUtf8ToUtf16_nul. apply encode_convert_nul; [done|].
    pose proof (encode_length u4 s Hs). rewrite length_app. unfold e. lia.
  - by rewrite Hfast.
Qed.

Lemma Utf_roundtrip_witness :
  ConvertModifiedUtf8ToUtf16_nul (ConvertUtf16ToUtf8 false true false [0x41; 0; 0xd83d; 0xde00; 0xd800] ++ [0]) =
  Some [0x41; 0; 0xd83d; 0xde00; 0xd800].
Proof.
  destruct (Utf_roundtrip true [0x41; 0; 0xd83d; 0xde00; 0xd800] []) as (_ & _ & _ & H & _).
  - repeat (apply Forall_cons_2; [done|]). apply Forall_nil_2.
  - exact H.
Defined.

(** The hash computed from the modified UTF-8 form of a string is the hash of its UTF-16 form,
    without reading past the encoding, and the two ways of hashing the bytes agree. *)
Theorem Utf_hash (u4 : bool) (s tail : list Z) :
  Forall (is_u 16) s ->
  let e := ConvertUtf16ToUtf8 false u4 false s in
  ComputeUtf16HashFromModifiedUtf8 (e ++ tail) (Z.of_nat (length s)) = Some (ComputeUtf16Hash s) /\
  ComputeModifiedUtf8Hash_nul (e ++ 0 :: tail) = Some (ComputeModifiedUtf8Hash e).
Proof.
  intros Hs e. split.
  - unfold ComputeUtf16HashFromModifiedUtf8. rewrite Nat2Z.id. unfold e. by rewrite encode_hash.
  - unfold ComputeModifiedUtf8Hash_nul. unfold e. by rewrite encode_nul_hash.
Qed.

(** C40: Comparing a modified UTF-8 string with a UTF-16 string gives the order of the code units.
    Comparing two modified UTF-8 strings ends, gives zero exactly for equal strings, and has the
    sign of the order of the code units when no leading surrogate is unpaired; with an unpaired one
    the sign can be the opposite. *)
Theorem Utf_compare (u4 : bool) (s t tail1 tail2 : list Z) :
  Forall (is_u 16) s -> Forall (is_u 16) t ->
  let encode := ConvertUtf16ToUtf8 false u4 false in
  CompareModifiedUtf8ToUtf16AsCodePointValues (encode s ++ 0 :: tail1) t = Some (lex_compare s t) /\
  (exists r, CompareModifiedUtf8ToModifiedUtf8AsUtf16CodePointValues (encode s ++ 0 :: tail1) (encode t ++ 0 :: tail2) = Some r /\
     (r = 0 <-> s = t) /\
     (no_lone_lead s = true -> no_lone_lead t = true -> Z.sgn r = lex_compare s t)) /\
  (CompareModifiedUtf8ToModifiedUtf8AsUtf16CodePointValues
     (ConvertUtf16ToUtf8 false true false [0xd800; 0xdc00] ++ [0])
     (ConvertUtf16ToUtf8 false true false [0xd800; 0xffff] ++ [0]) = Some 0xdc00 /\
   lex_compare [0xd800; 0xdc00] [0xd800; 0xffff] = -1).
Proof.
  intros Hs Ht encode. split_and!; [| |done..].
  - by apply encode_compare_utf16.
  - apply encode_compare_utf8; [done..|]. pose proof (encode_length u4 s Hs). rewrite length_app. unfold encode. lia.
Qed.

Lemma Utf_compare_witness :
  exists r, CompareModifiedUtf8ToModifiedUtf8AsUtf16CodePointValues
    (ConvertUtf16ToUtf8 false true false [0x41; 0xffff] ++ [0])
    (ConvertUtf16ToUtf8 false true false [0x41; 0xd83d; 0xde00] ++ [0]) = Some r /\ Z.sgn r = 1.
Proof.
  destruct (Utf_compare true [0x41; 0xffff] [0x41; 0xd83d; 0xde00] [] []) as (_ & (r & Hr & _ & Hs) & _).
  - repeat (apply Forall_cons_2; [done|]). apply Forall_nil_2.
  - repeat (apply Forall_cons_2; [done|]). apply Forall_nil_2.
  - exists r. split; [exact Hr|]. exact (Hs eq_refl eq_refl).
Defined.
