(* ===== verification/Locations.v ===== *)
(** Locations of values and move operands: compiler/optimizing/locations.h, data_type.h and the
    classes [MoveOperands] and [HParallelMove] of nodes.h.

    [Location] is the tagged union; [value_] and the functions of module [Word] are its
    representation in one machine word, and the property at the end relates the two. *)
From S2P Require Import Prelude.

(** ** Kinds *)

Inductive Kind :=
  | kInvalid | kConstant | kStackSlot | kDoubleStackSlot | kRegister | kDoNotUse5 | kFpuRegister
  | kRegisterPair | kFpuRegisterPair | kDoNotUse9 | kSIMDStackSlot | kUnallocated.

#[global] Instance Kind_eq_dec : EqDecision Kind.
Proof. solve_decision. Defined.

Inductive Policy := kAny | kRequiresRegister | kRequiresFpuRegister | kSameAsFirstInput.

#[global] Instance Policy_eq_dec : EqDecision Policy.
Proof. solve_decision. Defined.

(** ** Locations *)

Inductive Location :=
  | NoLocation
  | ConstantLocation (constant : Z)
  | StackSlot (stack_index : Z)
  | DoubleStackSlot (stack_index : Z)
  | RegisterLocation (reg : Z)
  | FpuRegisterLocation (reg : Z)
  | RegisterPairLocation (low high : Z)
  | FpuRegisterPairLocation (low high : Z)
  | SIMDStackSlot (stack_index : Z)
  | UnallocatedLocation (policy : Policy).

#[global] Instance Location_eq_dec : EqDecision Location.
Proof. solve_decision. Defined.

Definition GetKind (l : Location) : Kind :=
  match l with
  | NoLocation => kInvalid
  | ConstantLocation _ => kConstant
  | StackSlot _ => kStackSlot
  | DoubleStackSlot _ => kDoubleStackSlot
  | RegisterLocation _ => kRegister
  | FpuRegisterLocation _ => kFpuRegister
  | RegisterPairLocation _ _ => kRegisterPair
  | FpuRegisterPairLocation _ _ => kFpuRegisterPair
  | SIMDStackSlot _ => kSIMDStackSlot
  | UnallocatedLocation _ => kUnallocated
  end.

Definition is_kind (l : Location) (k : Kind) : bool := bool_decide (GetKind l = k).

Definition IsValid (l : Location) : bool := negb (is_kind l kInvalid).
Definition IsInvalid (l : Location) : bool := negb (IsValid l).
Definition IsConstant (l : Location) : bool := is_kind l kConstant.
Definition IsRegister (l : Location) : bool := is_kind l kRegister.
Definition IsFpuRegister (l : Location) : bool := is_kind l kFpuRegister.
Definition IsRegisterPair (l : Location) : bool := is_kind l kRegisterPair.
Definition IsFpuRegisterPair (l : Location) : bool := is_kind l kFpuRegisterPair.
Definition IsRegisterKind (l : Location) : bool :=
  IsRegister l || IsFpuRegister l || IsRegisterPair l || IsFpuRegisterPair l.
Definition IsPair (l : Location) : bool := IsRegisterPair l || IsFpuRegisterPair l.
Definition IsStackSlot (l : Location) : bool := is_kind l kStackSlot.
Definition IsDoubleStackSlot (l : Location) : bool := is_kind l kDoubleStackSlot.
Definition IsSIMDStackSlot (l : Location) : bool := is_kind l kSIMDStackSlot.
Definition IsUnallocated (l : Location) : bool := is_kind l kUnallocated.

Definition StackSlotByNumOfSlots (num_of_slots spill_slot : Z) : Location :=
  if num_of_slots =? 1 then StackSlot spill_slot
  else if num_of_slots =? 2 then DoubleStackSlot spill_slot
  else SIMDStackSlot spill_slot.

(** The second 32-bit word of a double stack slot. *)
Definition GetHighStackIndex (stack_index word_size : Z) : Z := stack_index + word_size.

Definition ToLow (l : Location) : Location :=
  match l with
  | RegisterPairLocation low _ => RegisterLocation low
  | FpuRegisterPairLocation low _ => FpuRegisterLocation low
  | DoubleStackSlot i => StackSlot i
  | _ => NoLocation
  end.

Definition ToHigh (l : Location) : Location :=
  match l with
  | RegisterPairLocation _ high => RegisterLocation high
  | FpuRegisterPairLocation _ high => FpuRegisterLocation high
  | DoubleStackSlot i => StackSlot (GetHighStackIndex i 4)
  | _ => NoLocation
  end.

Definition Equals (l other : Location) : bool := bool_decide (l = other).

Definition Contains (l other : Location) : bool :=
  if Equals l other then true
  else if IsPair l || IsDoubleStackSlot l then Equals (ToLow l) other || Equals (ToHigh l) other
  else false.

Definition OverlapsWith (l other : Location) : bool := Contains l other || Contains other l.

(** ** Data types *)

Inductive DataType :=
  | kReference | kBool | kUint8 | kInt8 | kUint16 | kInt16 | kUint32 | kInt32 | kUint64 | kInt64
  | kFloat32 | kFloat64 | kVoid.

#[global] Instance DataType_eq_dec : EqDecision DataType.
Proof. solve_decision. Defined.

Definition Is64BitType (type : DataType) : bool :=
  bool_decide (type = kUint64) || bool_decide (type = kInt64) || bool_decide (type = kFloat64).

(** ** Move operands *)

Record MoveOperands := Move {
  source_ : Location;
  destination_ : Location;
  type_ : DataType }.

Definition SetSource (m : MoveOperands) (value : Location) : MoveOperands :=
  Move value (destination_ m) (type_ m).
Definition SetDestination (m : MoveOperands) (value : Location) : MoveOperands :=
  Move (source_ m) value (type_ m).

(** The move and the destination that was cleared. *)
Definition MarkPending (m : MoveOperands) : MoveOperands * Location :=
  (SetDestination m NoLocation, destination_ m).
Definition ClearPending (m : MoveOperands) (dest : Location) : MoveOperands := SetDestination m dest.
Definition IsPending (m : MoveOperands) : bool := IsInvalid (destination_ m) && IsValid (source_ m).
Definition IsEliminated (m : MoveOperands) : bool := IsInvalid (source_ m).
Definition Blocks (m : MoveOperands) (loc : Location) : bool :=
  negb (IsEliminated m) && OverlapsWith (source_ m) loc.
Definition IsRedundant (m : MoveOperands) : bool :=
  IsEliminated m || IsInvalid (destination_ m) || Equals (source_ m) (destination_ m).
Definition Eliminate (m : MoveOperands) : MoveOperands := Move NoLocation NoLocation (type_ m).
Definition Is64BitMove (m : MoveOperands) : bool := Is64BitType (type_ m).

(** ** Parallel moves *)

(** The checks of [AddMove]: valid operands and no overlapping destinations. *)
Definition AddMove (moves : list MoveOperands) (source destination : Location) (type : DataType) :
    option (list MoveOperands) :=
  if negb (IsValid source) || negb (IsValid destination) then None
  else if existsb (fun move => OverlapsWith destination (destination_ move)) moves then None
  else Some (moves ++ [Move source destination type]).

(** ** The representation in a word of [w] bits *)

Module Word.

Definition kBitsForKind : Z := 4.
Definition kBitsForPayload (w : Z) : Z := w - kBitsForKind.
Definition kLocationConstantMask : Z := 0x3.
Definition kStackIndexBias (w : Z) : Z := 1 ≪ (kBitsForPayload w - 1).

Definition kind_value (k : Kind) : Z :=
  match k with
  | kInvalid => 0 | kConstant => 1 | kStackSlot => 2 | kDoubleStackSlot => 3 | kRegister => 4
  | kDoNotUse5 => 5 | kFpuRegister => 6 | kRegisterPair => 7 | kFpuRegisterPair => 8
  | kDoNotUse9 => 9 | kSIMDStackSlot => 10 | kUnallocated => 11
  end.

Definition policy_value (p : Policy) : Z :=
  match p with kAny => 0 | kRequiresRegister => 1 | kRequiresFpuRegister => 2 | kSameAsFirstInput => 3 end.

(** [Location(kind, payload)]; the payload is a uintptr_t. *)
Definition make (w : Z) (k : Kind) (payload : Z) : Z := Z.lor (kind_value k) (uN w (payload ≪ kBitsForKind)).

Definition EncodeStackIndex (w stack_index : Z) : Z := uN w (sN w (kStackIndexBias w + stack_index)).

(** [low << 16 | high], an int. *)
Definition pair_payload (low high : Z) : Z := Z.lor (s32 (low ≪ 16)) high.

Definition value_ (w : Z) (l : Location) : Z :=
  match l with
  | NoLocation => kind_value kInvalid
  | ConstantLocation c => Z.lor (kind_value kConstant) c
  | StackSlot i => make w kStackSlot (EncodeStackIndex w i)
  | DoubleStackSlot i => make w kDoubleStackSlot (EncodeStackIndex w i)
  | RegisterLocation r => make w kRegister (uN w r)
  | FpuRegisterLocation r => make w kFpuRegister (uN w r)
  | RegisterPairLocation low high => make w kRegisterPair (uN w (pair_payload low high))
  | FpuRegisterPairLocation low high => make w kFpuRegisterPair (uN w (pair_payload low high))
  | SIMDStackSlot i => make w kSIMDStackSlot (EncodeStackIndex w i)
  | UnallocatedLocation p => make w kUnallocated (policy_value p)
  end.

Definition IsConstant (v : Z) : bool := Z.land v kLocationConstantMask =? 1.
Definition GetConstant (v : Z) : Z := Z.land v (Z.lnot kLocationConstantMask).
Definition GetPayload (w v : Z) : Z := Z.land (v ≫ kBitsForKind) (Z.ones (kBitsForPayload w)).
Definition GetKind (v : Z) : Z := if IsConstant v then 1 else Z.land v (Z.ones kBitsForKind).
Definition reg (w v : Z) : Z := s32 (GetPayload w v).
Definition low (w v : Z) : Z := s32 (GetPayload w v ≫ 16).
Definition high (w v : Z) : Z := s32 (Z.land (GetPayload w v) 0xFFFF).
Definition GetStackIndex (w v : Z) : Z := sN w (uN w (GetPayload w v - kStackIndexBias w)).
Definition GetPolicy (w v : Z) : Z := Z.land (GetPayload w v) (Z.ones 3).

(** The ranges a location of the compiler keeps to: the numbers fit the payload, registers are ints that are not negative, and [low << 16] does not
    reach the sign of an int. *)
Definition wf (w : Z) (l : Location) : Prop :=
  match l with
  | NoLocation | UnallocatedLocation _ => True
  | ConstantLocation c => is_u w c /\ c mod 4 = 0
  | StackSlot i | DoubleStackSlot i | SIMDStackSlot i => is_s (kBitsForPayload w) i
  | RegisterLocation r | FpuRegisterLocation r => is_u (Z.min 31 (kBitsForPayload w)) r
  | RegisterPairLocation low high | FpuRegisterPairLocation low high =>
      is_u (Z.min 15 (kBitsForPayload w - 16)) low /\ is_u 16 high
  end.

(** What the accessors of the word give back. *)
Definition accessors_agree (w : Z) (l : Location) (v : Z) : Prop :=
  match l with
  | NoLocation => True
  | ConstantLocation c => GetConstant v = c
  | StackSlot i | DoubleStackSlot i | SIMDStackSlot i => GetStackIndex w v = i
  | RegisterLocation r | FpuRegisterLocation r => reg w v = r
  | RegisterPairLocation lo hi | FpuRegisterPairLocation lo hi => low w v = lo /\ high w v = hi
  | UnallocatedLocation p => GetPolicy w v = policy_value p
  end.

Lemma make_add w k p : 4 <= w -> is_u (kBitsForPayload w) p -> make w k p = kind_value k + p * 16.
Proof.
  intros Hw Hp. unfold is_u, kBitsForPayload, make, kBitsForKind in *. assert (uN w (p ≪ 4) = p ≪ 4) as ->.
  { unfold uN. apply Z.mod_small. rewrite Z.shiftl_mul_pow2 by lia. replace w with (w - 4 + 4) by lia. rewrite Z.pow_add_r by lia. change (2 ^ 4) with 16. lia. }
  rewrite <- Z.shiftl_mul_pow2 with (n := 4) by lia.
  symmetry. apply Z.add_nocarry_lor. assert (is_u 4 (kind_value k)) by (by destruct k). bitwise.
  destruct (decide (i < 4)); [rewrite (Z.testbit_neg_r p) by lia; apply andb_false_r|].
  by rewrite (testbit_high 4 (kind_value k)) by (done || lia).
Qed.

Lemma make_payload w k p : 4 <= w -> is_u (kBitsForPayload w) p -> GetPayload w (make w k p) = p.
Proof.
  intros Hw Hp. rewrite make_add by done. unfold is_u, GetPayload, kBitsForPayload, kBitsForKind in *.
  rewrite Z.shiftr_div_pow2, Z.land_ones by lia. change (2 ^ 4) with 16. rewrite Z.div_add by lia.
  rewrite (Z.div_small (kind_value k)) by (by destruct k). rewrite Z.add_0_l. by apply Z.mod_small.
Qed.

Lemma make_kind w k p :
  4 <= w -> is_u (kBitsForPayload w) p -> k <> kConstant -> k <> kDoNotUse5 -> k <> kDoNotUse9 ->
  IsConstant (make w k p) = false /\ GetKind (make w k p) = kind_value k.
Proof.
  intros Hw Hp H1 H5 H9. rewrite make_add by done. unfold GetKind, IsConstant, kLocationConstantMask, kBitsForKind.
  change 3 with (Z.ones 2). rewrite !Z.land_ones by lia. change (2 ^ 2) with 4. change (2 ^ 4) with 16.
  replace (kind_value k + p * 16) with (kind_value k + (p * 4) * 4) at 1 by lia.
  replace ((kind_value k + p * 16) mod 4) with (kind_value k mod 4).
  2:{ replace (kind_value k + p * 16) with (kind_value k + (p * 4) * 4) by lia. by rewrite Z.mod_add by lia. }
  rewrite !Z.mod_add by lia. by destruct k.
Qed.

(** A pair packed into an int and taken apart again. *)
Lemma pair_fields lo hi n : is_u n lo -> is_u 16 hi -> 0 <= n <= 15 ->
  let p := pair_payload lo hi in is_u (n + 16) p /\ s32 (p ≫ 16) = lo /\ s32 (Z.land p 0xFFFF) = hi.
Proof.
  intros Hlo Hhi Hn p. pose proof (pow2_le n 15 ltac:(lia)) as Hle. unfold is_u in *. change (2 ^ 15) with 32768 in *. change (2 ^ 16) with 65536 in *.
  assert (p = lo * 2 ^ 16 + hi) as ->.
  { unfold p, pair_payload. rewrite sN_small by (unfold is_s; rewrite ?Z.shiftl_mul_pow2; lia). rewrite <- Z.shiftl_mul_pow2 by lia. symmetry. apply Z.add_nocarry_lor. assert (is_u 16 hi) by done. bitwise.
    destruct (decide (i < 16)); [rewrite (Z.testbit_neg_r lo) by lia; done|].
    rewrite (testbit_high 16 hi) by (done || lia). apply andb_false_r. }
  change 0xFFFF with (Z.ones 16).
  rewrite Z.shiftr_div_pow2, Z.land_ones by lia. rewrite Z.div_add_l, Z.div_small, Z.add_0_r by lia.
  rewrite Z.add_comm, Z.mod_add, Z.mod_small by lia. rewrite !sN_small by (unfold is_s; lia).
  rewrite Z.pow_add_r by lia. change (2 ^ 16) with 65536. split_and!; nia.
Qed.

Lemma stack_payload w i : 5 <= w -> is_s (kBitsForPayload w) i ->
  is_u (kBitsForPayload w) (EncodeStackIndex w i) /\ sN w (uN w (EncodeStackIndex w i - kStackIndexBias w)) = i.
Proof.
  intros Hw Hi. unfold EncodeStackIndex. rewrite uN_sN, sN_uN by lia. unfold is_s, is_u, kStackIndexBias, kBitsForPayload, kBitsForKind in *. rewrite Z.shiftl_1_l.
  assert (2 ^ (w - 4) = 2 * 2 ^ (w - 4 - 1)) by (apply pow2_succ; lia). assert (2 ^ (w - 1) = 16 * 2 ^ (w - 4 - 1)) by (replace (w - 1) with (4 + (w - 4 - 1)) by lia; by rewrite Z.pow_add_r by lia).
  assert (2 ^ w = 2 * 2 ^ (w - 1)) by (apply pow2_succ; lia).
  unfold uN. rewrite Z.mod_small by lia. split; [lia|]. rewrite sN_small by (unfold is_s; lia). lia.
Qed.

Lemma constant_word c :
  0 <= c -> c mod 4 = 0 -> Z.land (Z.lor 1 c) 3 = 1 /\ Z.land (Z.lor 1 c) (Z.lnot 3) = c.
Proof.
  intros Hc Hm. assert (c = (c / 4) ≪ 2) as E.
  { rewrite Z.shiftl_mul_pow2 by lia. change (2 ^ 2) with 4. Z.div_mod_to_equations. lia. }
  assert (Z.lor 1 c = 1 + c / 4 * 4) as ->.
  { rewrite E at 1. replace (c / 4 * 4) with ((c / 4) ≪ 2) by (by rewrite Z.shiftl_mul_pow2 by lia). symmetry.
    apply Z.add_nocarry_lor. assert (is_u 2 1) by done. bitwise.
    destruct (decide (i < 2)); [rewrite (Z.testbit_neg_r (c / 4)) by lia; apply andb_false_r|].
    by rewrite (testbit_high 2 1) by (done || lia). }
  split.
  - change 3 with (Z.ones 2). rewrite Z.land_ones by lia. change (2 ^ 2) with 4. by rewrite Z.mod_add by lia.
  - rewrite <- Z.ldiff_land. change 3 with (Z.ones 2). rewrite Z.ldiff_ones_r by lia.
    rewrite Z.shiftr_div_pow2 by lia. change (2 ^ 2) with 4. rewrite Z.div_add by lia.
    change (1 / 4) with 0. by rewrite Z.add_0_l, <- E.
Qed.

Ltac made Hp w :=
  match type of Hp with is_u _ ?q =>
    match goal with |- context [make w ?k q] =>
      destruct (make_kind w k q) as [-> ->]; [lia|exact Hp|done..|]; split; [done|split; [done|]];
      unfold GetStackIndex, reg, low, high, GetPolicy; rewrite (make_payload w k q) by (done || lia)
    end end.

Lemma Location_fields w l :
  w = 32 \/ w = 64 -> wf w l ->
  GetKind (value_ w l) = kind_value (Locations.GetKind l) /\
  IsConstant (value_ w l) = Locations.IsConstant l /\ accessors_agree w l (value_ w l).
Proof.
  intros Hw Hl. assert (32 <= w) as Hw5 by lia. pose proof (stack_payload w) as Hst.
  assert (forall r, is_u (Z.min 31 (kBitsForPayload w)) r -> is_u (kBitsForPayload w) (uN w r) /\ s32 (uN w r) = r) as Hreg.
  { intros r Hr. assert (0 <= r < 2 ^ 31 /\ (w = 32 -> r < 2 ^ 28)) as Hr'.
    { unfold is_u, kBitsForPayload, kBitsForKind in Hr. destruct Hw as [-> | ->]; [change (Z.min 31 (32 - 4)) with 28 in Hr|change (Z.min 31 (64 - 4)) with 31 in Hr]; lia. }
    assert (uN w r = r) as -> by (unfold uN; apply Z.mod_small; destruct Hw as [-> | ->]; lia). rewrite sN_small by (unfold is_s; lia). split; [|done].
    unfold is_u, kBitsForPayload, kBitsForKind. destruct Hw as [-> | ->]; [change (32 - 4) with 28|change (64 - 4) with 60]; lia. }
  assert (forall lo hi, is_u (Z.min 15 (kBitsForPayload w - 16)) lo /\ is_u 16 hi ->
    let p := uN w (pair_payload lo hi) in is_u (kBitsForPayload w) p /\ s32 (p ≫ 16) = lo /\ s32 (Z.land p 0xFFFF) = hi) as Hpair.
  { intros lo hi [Hlo Hhi]. destruct (pair_fields lo hi _ Hlo Hhi) as (Hp & E); [unfold kBitsForPayload, kBitsForKind; lia|]. cbn zeta.
    assert (is_u (kBitsForPayload w) (pair_payload lo hi) /\ uN w (pair_payload lo hi) = pair_payload lo hi) as [Hq ->]; [|done].
    unfold is_u, uN, kBitsForPayload, kBitsForKind in *. destruct Hw as [-> | ->]; [change (Z.min 15 (32 - 4 - 16) + 16) with 28 in Hp|change (Z.min 15 (64 - 4 - 16) + 16) with 31 in Hp];
    (split; [|apply Z.mod_small]); [change (32 - 4) with 28| |change (64 - 4) with 60|]; lia. }
  destruct l as [|c|i|i|r|r|lo hi|lo hi|i|p]; cbn [value_ accessors_agree wf] in *.
  - done.
  - destruct Hl as [[Hu _] Hm]. destruct (constant_word c Hu Hm) as [E1 E2].
    unfold GetKind, IsConstant, GetConstant, kLocationConstantMask. simpl kind_value. by rewrite E1, E2.
  - destruct (Hst i ltac:(lia) Hl) as [Hp E]. by made Hp w.
  - destruct (Hst i ltac:(lia) Hl) as [Hp E]. by made Hp w.
  - destruct (Hreg r Hl) as [Hp E]. by made Hp w.
  - destruct (Hreg r Hl) as [Hp E]. by made Hp w.
  - destruct (Hpair lo hi Hl) as (Hp & E1 & E2). by made Hp w.
  - destruct (Hpair lo hi Hl) as (Hp & E1 & E2). by made Hp w.
  - destruct (Hst i ltac:(lia) Hl) as [Hp E]. by made Hp w.
  - assert (is_u (kBitsForPayload w) (policy_value p)) as Hp.
    { pose proof (pow2_le 2 (kBitsForPayload w)) as H2. unfold is_u, kBitsForPayload, kBitsForKind in *.
      specialize (H2 ltac:(lia)). destruct p; simpl; lia. }
    made Hp w. by destruct p.
Qed.

(** C39: A location packed into one word of 32 or 64 bits is recovered by the accessors, with all shifts and conversions at the widths of their C++ types (registers
    and the two registers of a pair are ints, the payload is a uintptr_t, a stack index is an intptr_t): the kind,
    the constant pointer, the register, the register pair and the signed stack index; constants are
    told from every other kind by their two low bits.  So comparing words compares locations. *)
Theorem Location_encoding (w : Z) (l l' : Location) :
  w = 32 \/ w = 64 -> wf w l -> wf w l' ->
  (GetKind (value_ w l) = kind_value (Locations.GetKind l) /\
   IsConstant (value_ w l) = Locations.IsConstant l /\ accessors_agree w l (value_ w l)) /\
  (value_ w l = value_ w l' <-> l = l').
Proof.
  intros Hw Hl Hl'. split; [by apply Location_fields|]. split; [|by intros ->]. intros Heq.
  destruct (Location_fields w l Hw Hl) as (K1 & _ & A1). destruct (Location_fields w l' Hw Hl') as (K2 & _ & A2). rewrite Heq in K1, A1.
  rewrite K1 in K2. clear Hw. destruct l, l'; cbn [accessors_agree Locations.GetKind kind_value] in K1, K2, A1, A2 |- *; try discriminate K2; intuition (try congruence).
  rewrite A1 in A2. by destruct policy, policy0.
Qed.

Lemma Location_encoding_witness :
  GetStackIndex 32 (value_ 32 (StackSlot (-8))) = -8 /\ value_ 32 (RegisterPairLocation 2 3) = 0x200037 /\
  (value_ 32 (StackSlot (-8)) = value_ 32 (RegisterPairLocation 2 3) <-> StackSlot (-8) = RegisterPairLocation 2 3).
Proof.
  destruct (Location_encoding 32 (StackSlot (-8)) (RegisterPairLocation 2 3)) as [(_ & _ & H1) H2].
  - by left.
  - done.
  - done.
  - split; [exact H1|split; [done|exact H2]].
Defined.
End Word.
