(* ===== verification/ParallelMove.v ===== *)
(** Resolving parallel moves with swaps: compiler/optimizing/parallel_move_resolver.cc,
    [ParallelMoveResolver] and [ParallelMoveResolverWithSwap].

    The resolver is a state: the list [moves_] and the instructions emitted so far.  A pointer to a
    [MoveOperands] is its index.  [PerformMove] and its loop are mutually recursive with fuel, and
    ParallelMoveCorrect.v shows that the fuel of [EmitNativeCode] is enough.

    What an emitted instruction does is [exec].  A machine where a register pair or a double stack
    slot is two words is described by [wide]: a wide location has no value of its own, it is the two
    locations [LowOf] and [HighOf], and a move or a swap of it moves or swaps both.  With no wide
    location every location is a cell. *)
From S2P Require Import Prelude Locations.

(** ** Halves of a location *)

Definition LowOf (location : Location) : Location :=
  match location with
  | RegisterPairLocation low _ => RegisterLocation low
  | FpuRegisterPairLocation low _ => FpuRegisterLocation low
  | DoubleStackSlot i => StackSlot i
  | _ => NoLocation
  end.

Definition HighOf (location : Location) : Location :=
  match location with
  | RegisterPairLocation _ high => RegisterLocation high
  | FpuRegisterPairLocation _ high => FpuRegisterLocation high
  | DoubleStackSlot i => StackSlot (GetHighStackIndex i 4)
  | _ => NoLocation
  end.

(** ** Emitted code *)

Inductive instr :=
  | EmittedMove (source destination : Location)
  | EmittedSwap (source destination : Location).

Section cells.
Context (wide : Location -> bool).

Definition cells (l : Location) : list Location := if wide l then [LowOf l; HighOf l] else [l].

(** Locations that share a cell. *)
Definition meet (a b : Location) : Prop := Exists (fun c => c ∈ cells b) (cells a).

#[global] Instance meet_dec a b : Decision (meet a b).
Proof. unfold meet. apply _. Defined.

Lemma meet_spec a b : meet a b <-> exists c, c ∈ cells a /\ c ∈ cells b.
Proof. unfold meet. by rewrite Exists_exists. Qed.

Lemma meet_sym a b : meet a b -> meet b a.
Proof. rewrite !meet_spec. intros (c & ? & ?). by exists c. Qed.

Lemma cells_wide l c : wide l = true -> c ∈ cells l <-> c = LowOf l \/ c = HighOf l.
Proof. intros Hw. unfold cells. rewrite Hw, !elem_of_cons, elem_of_nil. tauto. Qed.

Lemma cells_narrow l c : wide l = false -> c ∈ cells l <-> c = l.
Proof. intros Hw. unfold cells. rewrite Hw, elem_of_cons, elem_of_nil. tauto. Qed.

Lemma meet_refl l : meet l l.
Proof.
  apply meet_spec. destruct (wide l) eqn:Hw; [exists (LowOf l); rewrite cells_wide; auto|exists l; rewrite cells_narrow; auto].
Qed.

Lemma meet_narrow a b : wide a = false -> meet a b <-> a ∈ cells b.
Proof.
  intros Hw. rewrite meet_spec. split.
  - by intros (c & ->%cells_narrow & ?).
  - intros ?. exists a. by rewrite cells_narrow.
Qed.
End cells.

Section semantics.
Context (wide : Location -> bool) {V : Type} (lo hi : V -> V).
Abbreviation env := (Location -> V).

(** The low or the high word of what a location holds. *)
Definition part (s : env) (high : bool) (l : Location) : V :=
  if wide l then s (if high then HighOf l else LowOf l) else (if high then hi else lo) (s l).

(** What cell [c] of [dst] holds after a move from [src]. *)
Definition value (s : env) (dst src c : Location) : V :=
  if wide dst then part s (negb (bool_decide (c = LowOf dst))) src else s src.

Definition exec (s : env) (i : instr) : env := fun l =>
  match i with
  | EmittedMove src dst => if decide (l ∈ cells wide dst) then value s dst src l else s l
  | EmittedSwap src dst =>
      if decide (l ∈ cells wide dst) then value s dst src l
      else if decide (l ∈ cells wide src) then value s src dst l
      else s l
  end.

Definition exec_all (s : env) (code : list instr) : env := fold_left exec code s.

(** All moves at once: every destination gets the value its source has at the start. *)
Definition parallel (moves : list MoveOperands) (s : env) : env := fun l =>
  match List.find (fun m => bool_decide (l ∈ cells wide (destination_ m))) moves with
  | Some m => value s (destination_ m) (source_ m) l
  | None => s l
  end.

Lemma value_self s l c : c ∈ cells wide l -> value s l l c = s c.
Proof.
  unfold value, part. destruct (wide l) eqn:Hw.
  - intros [->| ->]%cells_wide; [| |done]; case_bool_decide as E; simpl; congruence.
  - by intros ->%cells_narrow.
Qed.

(** The value depends only on what the source holds. *)
Lemma value_same s s' d a a' c :
  wide a' = wide a -> (wide a = true -> wide d = true) ->
  (wide a = true -> s' (LowOf a') = s (LowOf a) /\ s' (HighOf a') = s (HighOf a)) ->
  (wide a = false -> s' a' = s a) ->
  value s' d a' c = value s d a c.
Proof.
  intros Hw Hd H1 H2. unfold value, part. rewrite Hw. destruct (wide a).
  - rewrite Hd by done. destruct H1 as [E1 E2]; [done|]. by destruct (negb _).
  - by rewrite H2.
Qed.

Lemma exec_all_app s code i : exec_all s (code ++ [i]) = exec (exec_all s code) i.
Proof. unfold exec_all. by rewrite fold_left_app. Qed.
End semantics.

(** ** The resolver *)

Record resolver := Resolver {
  moves_ : list MoveOperands;
  emitted_ : list instr }.

Definition update_move (r : resolver) (index : nat) (f : MoveOperands -> MoveOperands) : resolver :=
  Resolver (alter f index (moves_ r)) (emitted_ r).

Definition BuildInitialMoveList (parallel_move : list MoveOperands) : list MoveOperands :=
  filter (fun move => IsRedundant move = false) parallel_move.

(** The virtual functions that emit code. *)
Definition EmitMove (r : resolver) (index : nat) : option resolver :=
  move ← moves_ r !! index;
  Some (Resolver (moves_ r) (emitted_ r ++ [EmittedMove (source_ move) (destination_ move)])).
Definition EmitSwap (r : resolver) (index : nat) : option resolver :=
  move ← moves_ r !! index;
  Some (Resolver (moves_ r) (emitted_ r ++ [EmittedSwap (source_ move) (destination_ move)])).

Definition UpdateSourceOf (move : MoveOperands) (updated_location new_source : Location) : MoveOperands :=
  let source := source_ move in
  if Equals (LowOf updated_location) source then SetSource move (LowOf new_source)
  else if Equals (HighOf updated_location) source then SetSource move (HighOf new_source)
  else SetSource move new_source.

(** What a swap does to the sources of the other moves. *)
Definition swap_sources (source swap_destination : Location) (other_move : MoveOperands) : MoveOperands :=
  if Blocks other_move source then UpdateSourceOf other_move source swap_destination
  else if Blocks other_move swap_destination then UpdateSourceOf other_move swap_destination source
  else other_move.

(** How the loop of [PerformMove] over the blocking moves ends. *)
Inductive loop_exit :=
  | LoopDone (required_swap : option nat)
  | LoopReturn (required_swap : option nat).

(** The part of [PerformMove] after the loop. *)
Definition finish_move (r : resolver) (index : nat) (destination : Location) (required_swap : option nat) :
    option (resolver * option nat) :=
  let r := update_move r index (fun m => ClearPending m destination) in
  move ← moves_ r !! index;
  if Equals (source_ move) destination then Some (update_move r index Eliminate, None)
  else
    let swap :=
      EmitSwap r index ≫= fun r =>
      let r := update_move r index Eliminate in
      Some (Resolver (map (swap_sources (source_ move) (destination_ move)) (moves_ r)) (emitted_ r),
            required_swap) in
    match required_swap with
    | Some _ => swap
    | None =>
        match list_find (fun other_move => Blocks other_move destination = true) (moves_ r) with
        | Some (other, other_move) =>
            if negb (Is64BitMove move) && Is64BitMove other_move then Some (r, Some other) else swap
        | None =>
            r ← EmitMove r index;
            Some (update_move r index Eliminate, None)
        end
    end.

Fixpoint PerformMove (fuel : nat) (r : resolver) (index : nat) : option (resolver * option nat) :=
  match fuel with
  | O => None
  | S fuel =>
      move ← moves_ r !! index;
      if IsRedundant move then Some (update_move r index Eliminate, None)
      else
        let destination := destination_ move in
        let r := update_move r index (fun m => (MarkPending m).1) in
        '(r, e) ← blocking_loop fuel r index destination 0;
        match e with
        | LoopReturn required_swap =>
            Some (update_move r index (fun m => ClearPending m destination), required_swap)
        | LoopDone required_swap => finish_move r index destination required_swap
        end
  end
with blocking_loop (fuel : nat) (r : resolver) (index : nat) (destination : Location) (i : nat) :
    option (resolver * loop_exit) :=
  match fuel with
  | O => None
  | S fuel =>
      if (i <? length (moves_ r))%nat then
        other_move ← moves_ r !! i;
        if Blocks other_move destination && negb (IsPending other_move) then
          '(r, required_swap) ← PerformMove fuel r i;
          if decide (required_swap = Some index) then Some (r, LoopDone required_swap)
          else if decide (required_swap = Some i) then blocking_loop fuel r index destination 0
          else if decide (required_swap = None) then blocking_loop fuel r index destination (S i)
          else Some (r, LoopReturn required_swap)
        else blocking_loop fuel r index destination (S i)
      else Some (r, LoopDone None)
  end.

(** The fuel of a call: at every depth of the recursion a loop over all moves, which starts again
    at most once for every move. *)
Definition perform_fuel (moves : list MoveOperands) : nat :=
  (length moves + 2) * (length moves + 2) * (length moves + 1).

(** The loops of [EmitNativeCode]: [select] chooses the moves to perform. *)
Fixpoint perform_selected (select : MoveOperands -> bool) (r : resolver) (indexes : list nat) : option resolver :=
  match indexes with
  | [] => Some r
  | i :: indexes =>
      move ← moves_ r !! i;
      r ← if select move then fst <$> PerformMove (perform_fuel (moves_ r)) r i else Some r;
      perform_selected select r indexes
  end.

Fixpoint perform_constants (r : resolver) (indexes : list nat) : option resolver :=
  match indexes with
  | [] => Some r
  | i :: indexes =>
      move ← moves_ r !! i;
      r ← if negb (IsEliminated move) then
            r ← EmitMove r i; Some (update_move r i Eliminate)
          else Some r;
      perform_constants r indexes
  end.

Definition stack_to_stack (move : MoveOperands) : bool :=
  negb (IsEliminated move || IsConstant (source_ move)) &&
  ((IsStackSlot (source_ move) || IsDoubleStackSlot (source_ move)) &&
   (IsStackSlot (destination_ move) || IsDoubleStackSlot (destination_ move))).

Definition not_constant (move : MoveOperands) : bool :=
  negb (IsEliminated move) && negb (IsConstant (source_ move)).

(** The instructions emitted for a parallel move. *)
Definition EmitNativeCode (parallel_move : list MoveOperands) : option (list instr) :=
  let r := Resolver (BuildInitialMoveList parallel_move) [] in
  let indexes := seq 0 (length (moves_ r)) in
  r ← perform_selected stack_to_stack r indexes;
  r ← perform_selected not_constant r indexes;
  r ← perform_constants r indexes;
  Some (emitted_ r).

(** ** Scratch registers *)

Definition IsScratchLocation (moves : list MoveOperands) (loc : Location) : bool :=
  if existsb (fun move => Blocks move loc) moves then false
  else existsb (fun move => Equals (destination_ move) loc) moves.

(** The register and whether it has to be spilled. *)
Definition AllocateScratchRegister (moves : list MoveOperands) (blocked register_count if_scratch : Z) : Z * bool :=
  match List.find (fun reg => negb (blocked =? reg) && IsScratchLocation moves (RegisterLocation reg))
          (map Z.of_nat (seq 0 (Z.to_nat register_count))) with
  | Some reg => (reg, false)
  | None => (if_scratch, true)
  end.

(** ** Moves by index *)

Definition dead : MoveOperands := Move NoLocation NoLocation kVoid.
Definition mv (r : resolver) (x : nat) : MoveOperands := default dead (moves_ r !! x).
Definition src (r : resolver) (x : nat) : Location := source_ (mv r x).
Definition dst (r : resolver) (x : nat) : Location := destination_ (mv r x).
(** Not eliminated. *)
Definition live (r : resolver) (x : nat) : Prop := src r x <> NoLocation.
Definition pend (r : resolver) (x : nat) : Prop := live r x /\ dst r x = NoLocation.

Lemma IsValid_spec l : IsValid l = true <-> l <> NoLocation.
Proof. by destruct l. Qed.

Lemma IsEliminated_spec r x : IsEliminated (mv r x) = false <-> live r x.
Proof. unfold IsEliminated, IsInvalid, live, src. rewrite negb_false_iff. apply IsValid_spec. Qed.

Lemma live_lookup r x : live r x -> moves_ r !! x = Some (mv r x).
Proof. unfold live, src, mv. by destruct (moves_ r !! x). Qed.

Lemma mv_update r i f x :
  (i < length (moves_ r))%nat -> mv (update_move r i f) x = if decide (x = i) then f (mv r i) else mv r x.
Proof.
  intros Hi. unfold mv, update_move. cbn [moves_]. destruct (decide (x = i)) as [->|Hne].
  - rewrite list_lookup_alter_eq. apply lookup_lt_is_Some_2 in Hi as [m ->]. done.
  - by rewrite list_lookup_alter_ne.
Qed.

Lemma Location_Equals_spec a b : Equals a b = true <-> a = b.
Proof. apply bool_decide_eq_true. Qed.

Lemma OverlapsWith_refl l : OverlapsWith l l = true.
Proof. unfold OverlapsWith, Contains. by rewrite (proj2 (Location_Equals_spec l l) eq_refl). Qed.

Lemma live_in r x : live r x -> (x < length (moves_ r))%nat.
Proof. intros Hl%live_lookup. by eapply lookup_lt_Some. Qed.

Lemma src_set_dst r i l x : (i < length (moves_ r))%nat -> src (update_move r i (fun m => SetDestination m l)) x = src r x.
Proof. intros Hi. unfold src. rewrite mv_update by done. destruct (decide (x = i)) as [->|]; done. Qed.

Lemma dst_set_dst r i l x :
  (i < length (moves_ r))%nat ->
  dst (update_move r i (fun m => SetDestination m l)) x = if decide (x = i) then l else dst r x.
Proof. intros Hi. unfold dst. rewrite mv_update by done. destruct (decide (x = i)) as [->|]; done. Qed.

Lemma live_drop r i code x :
  live r i -> live (update_move (Resolver (moves_ r) code) i Eliminate) x <-> live r x /\ x <> i.
Proof.
  intros Hl. pose proof (live_in _ _ Hl) as Hlt.
  unfold live at 1, src. rewrite mv_update by done. destruct (decide (x = i)); simpl; [tauto|]. unfold live, src, mv. simpl. tauto.
Qed.

Lemma src_drop r i code x :
  live r i -> x <> i -> src (update_move (Resolver (moves_ r) code) i Eliminate) x = src r x.
Proof.
  intros Hl Hne. pose proof (live_in _ _ Hl) as Hlt.
  unfold src. rewrite mv_update by done. by rewrite decide_False.
Qed.

Lemma resolver_eta r : Resolver (moves_ r) (emitted_ r) = r.
Proof. by destruct r. Qed.

Definition below (r r' : resolver) : Prop := forall x, live r' x -> live r x.

Lemma below_trans r1 r2 r3 : below r1 r2 -> below r2 r3 -> below r1 r3.
Proof. unfold below. auto. Qed.

Lemma tail_elem {A} (x : A) (l : list A) : x ∈ tail l -> x ∈ l.
Proof. destruct l; [done|]. by right. Qed.

Section stack.
(** [D x] is the destination of move [x], which is cleared while the move is pending; [link] tells
    that a source blocks a destination. *)
Context (link : Location -> Location -> Prop) (D : nat -> Location).

(** ** The pending moves *)

(** The source of each pending move blocks the destination of the one below it. *)
Fixpoint chain (r : resolver) (stk : list nat) : Prop :=
  match stk with
  | [] => True
  | i :: tl => match tl with [] => True | j :: _ => link (src r i) (D j) end /\ chain r tl
  end.

Record stack_ok (r : resolver) (stk : list nat) : Prop := {
  stack_pend : forall x, pend r x <-> x ∈ stk;
  stack_nodup : NoDup stk;
  stack_chain : chain r stk }.

Lemma chain_mono r r' stk :
  chain r stk -> (forall i j, i ∈ stk -> j ∈ tail stk -> link (src r i) (D j) -> link (src r' i) (D j)) -> chain r' stk.
Proof.
  induction stk as [|i tl IH]; [done|]. intros [Hi Ht] Hm. split.
  - destruct tl as [|j tl]; [done|]. apply Hm; [left|left|done].
  - apply IH; [done|]. intros a b Ha Hb. apply Hm; [by right|]. simpl. destruct tl; [done|]. by right.
Qed.

Lemma chain_source r stk i :
  chain r stk -> i ∈ stk -> last stk = Some i \/ exists j, j ∈ tail stk /\ link (src r i) (D j).
Proof.
  induction stk as [|k tl IH]; intros Hc Hin; [by apply not_elem_of_nil in Hin|]. destruct Hc as [Hk Ht].
  apply elem_of_cons in Hin as [->|Hin].
  - destruct tl as [|j tl]; [by left|]. right. exists j. split; [left|done].
  - destruct (IH Ht Hin) as [Hl|(j & Hj & Hs)].
    + left. destruct tl; [by apply not_elem_of_nil in Hin|done].
    + right. exists j. split; [|done]. destruct tl; [done|by right].
Qed.

(** Marking a move pending pushes it. *)
Lemma stack_push r stk i :
  stack_ok r stk -> live r i -> i ∉ stk ->
  match stk with [] => True | h :: _ => link (src r i) (D h) end ->
  stack_ok (update_move r i (fun m => SetDestination m NoLocation)) (i :: stk).
Proof.
  intros [Hp Hn Hc] Hl Hni Hh. pose proof (live_in _ _ Hl) as Hlt.
  constructor.
  - intros x. unfold pend, live. rewrite src_set_dst, dst_set_dst by done. rewrite elem_of_cons, <- Hp.
    unfold pend, live in *. destruct (decide (x = i)) as [->|]; intuition congruence.
  - by apply NoDup_cons_2.
  - cbn [chain]. rewrite !src_set_dst by done. split; [by destruct stk|].
    eapply chain_mono; [done|]. intros a b _ _. by rewrite src_set_dst.
Qed.

(** Clearing the mark pops it. *)
Lemma stack_pop r stk i :
  D i <> NoLocation -> stack_ok r (i :: stk) -> stack_ok (update_move r i (fun m => SetDestination m (D i))) stk.
Proof.
  intros HD [Hp Hn Hc]. assert (pend r i) as [Hl _] by (apply Hp; left).
  pose proof (live_in _ _ Hl) as Hlt. apply NoDup_cons in Hn as [Hni Hn]. constructor.
  - intros x. unfold pend, live. rewrite src_set_dst, dst_set_dst by done.
    specialize (Hp x). rewrite elem_of_cons in Hp. unfold pend, live in Hp.
    destruct (decide (x = i)) as [->|]; [split; [tauto|done]|]. intuition congruence.
  - done.
  - eapply chain_mono; [apply Hc|]. intros a b _ _. by rewrite src_set_dst.
Qed.

Lemma stack_live r stk i : stack_ok r stk -> i ∈ stk -> live r i.
Proof. intros Hs Hi. by apply (stack_pend _ _ Hs) in Hi as [? _]. Qed.

(** Eliminating a move that is not pending leaves the stack alone. *)
Lemma stack_drop r stk i code :
  stack_ok r stk -> live r i -> i ∉ stk ->
  stack_ok (update_move (Resolver (moves_ r) code) i Eliminate) stk.
Proof.
  intros [Hp Hn Hc] Hl Hni. pose proof (live_in _ _ Hl) as Hlt.
  constructor; [|done|].
  - intros x. specialize (Hp x). unfold pend, live, src, dst in *. rewrite mv_update by done.
    destruct (decide (x = i)) as [->|]; [|done]. simpl. split; [tauto|done].
  - eapply chain_mono; [done|]. intros a b Ha _. unfold src. rewrite mv_update by done.
    rewrite decide_False; [done|]. by intros ->.
Qed.

Lemma stack_length n r stk : length (moves_ r) = n -> stack_ok r stk -> (length stk <= n)%nat.
Proof.
  intros Hi Hs. rewrite <- (length_seq n 0). apply submseteq_length, NoDup_submseteq; [apply Hs|].
  intros x Hx. apply elem_of_seq. pose proof (live_in _ _ (stack_live _ _ _ Hs Hx)). lia.
Qed.

Lemma not_pending r stk x : stack_ok r stk -> live r x -> IsPending (mv r x) = false -> x ∉ stk.
Proof.
  intros Hs Hl Hp Hx. apply (stack_pend _ _ Hs) in Hx as [_ Hx]. unfold IsPending, IsInvalid in Hp.
  unfold dst in Hx. rewrite Hx in Hp. unfold live, src in Hl. apply IsValid_spec in Hl. rewrite Hl in Hp. done.
Qed.

Lemma is_pending r stk x : stack_ok r stk -> live r x -> IsPending (mv r x) = true -> x ∈ stk.
Proof.
  intros Hs Hl Hp. apply (stack_pend _ _ Hs). split; [done|]. unfold IsPending in Hp.
  apply andb_true_iff in Hp as [Hp _]. unfold IsInvalid in Hp. apply negb_true_iff in Hp.
  unfold dst. by destruct (destination_ (mv r x)).
Qed.
End stack.

#[global] Arguments stack_pend {link D}.
#[global] Arguments stack_nodup {link D}.
#[global] Arguments stack_chain {link D}.
#[global] Arguments chain_mono {link D}.
#[global] Arguments chain_source {link D}.
#[global] Arguments stack_push {link D}.
#[global] Arguments stack_pop {link D}.
#[global] Arguments stack_live {link D}.
#[global] Arguments stack_drop {link D}.
#[global] Arguments stack_length {link D}.
#[global] Arguments not_pending {link D}.
#[global] Arguments is_pending {link D}.

(** ** Sets of moves *)

(** What [AddMove] checks, and that destinations are not constants. *)
Definition valid_moves (pm : list MoveOperands) : Prop :=
  Forall (fun m => IsValid (source_ m) = true /\ IsValid (destination_ m) = true /\
                   IsConstant (destination_ m) = false) pm /\
  NoDup (map destination_ pm).

#[global] Instance MoveOperands_eq_dec : EqDecision MoveOperands.
Proof. solve_decision. Defined.

#[global] Instance valid_moves_dec pm : Decision (valid_moves pm).
Proof. unfold valid_moves. apply _. Defined.

Definition locations (pm : list MoveOperands) : list Location := map source_ pm ++ map destination_ pm.

(** Locations that overlap are equal: no register pair next to one of its registers. *)
Definition no_partial_overlap (pm : list MoveOperands) : Prop :=
  forall a b, a ∈ locations pm -> b ∈ locations pm -> OverlapsWith a b = true -> a = b.

Lemma NoDup_map_filter {A B} (f : A -> B) (P : A -> Prop) `{!forall x, Decision (P x)} (l : list A) :
  NoDup (map f l) -> NoDup (map f (filter P l)).
Proof.
  induction l as [|a l IH]; [done|]. simpl. intros [Hn Hl]%NoDup_cons. rewrite filter_cons.
  destruct (decide (P a)); [|by apply IH]. simpl. apply NoDup_cons. split; [|by apply IH].
  intros Hin. apply Hn. apply (list_elem_of_fmap_1 f) in Hin as (b & -> & Hb).
  apply list_elem_of_filter in Hb as [_ Hb]. by apply (list_elem_of_fmap_2 f).
Qed.

(** ** The initial list *)

Section initial.
Context (wide : Location -> bool) {V : Type} (lo hi : V -> V) (s0 : Location -> V) (pm : list MoveOperands).
Context (Hvalid : valid_moves pm).
Context (Hapart : forall m m', m ∈ pm -> m' ∈ pm -> meet wide (destination_ m) (destination_ m') -> m = m').
#[local] Set Default Proof Using "Hvalid".
Abbreviation ms := (BuildInitialMoveList pm).
Abbreviation r0 := (Resolver ms []).

Lemma initial_valid m :
  m ∈ pm -> source_ m <> NoLocation /\ destination_ m <> NoLocation /\ IsConstant (destination_ m) = false.
Proof.
  intros Hm. destruct Hvalid as [Hv _]. rewrite Forall_forall in Hv.
  destruct (Hv m Hm) as (?%IsValid_spec & ?%IsValid_spec & ?). done.
Qed.

Lemma initial_elem x : live r0 x -> mv r0 x ∈ pm /\ mv r0 x ∈ ms.
Proof.
  intros Hl%live_lookup. cbn [moves_] in Hl. apply list_elem_of_lookup_2 in Hl. split; [|done].
  by apply list_elem_of_filter in Hl as [_ ?].
Qed.

Lemma initial_live x : (x < length ms)%nat -> live r0 x.
Proof.
  intros Hx. destruct (lookup_lt_is_Some_2 _ _ Hx) as [m Hm]. unfold live, src, mv. cbn [moves_]. rewrite Hm. simpl.
  apply list_elem_of_lookup_2, list_elem_of_filter in Hm as [_ Hm]. by apply initial_valid.
Qed.

Lemma initial_dead x : ~ live r0 x -> dst r0 x = NoLocation.
Proof.
  intros Hx. destruct (decide (x < length ms)%nat) as [Hlt|Hge]; [by apply initial_live in Hlt|].
  unfold dst, mv. cbn [moves_]. rewrite lookup_ge_None_2 by lia. done.
Qed.

Lemma initial_stack link : stack_ok link (dst r0) r0 [].
Proof.
  constructor; [|apply NoDup_nil_2|done]. intros x. split; [|intros Hx; by apply not_elem_of_nil in Hx].
  intros [Hx Hd]. exfalso. apply initial_elem in Hx as [Hx _]. by apply initial_valid in Hx as (_ & ? & _).
Qed.

Lemma initial_destinations x y :
  (x < length ms)%nat -> (y < length ms)%nat -> dst r0 x = dst r0 y -> x = y.
Proof.
  intros Hx Hy He. destruct (lookup_lt_is_Some_2 _ _ Hx) as [mx Hmx]. destruct (lookup_lt_is_Some_2 _ _ Hy) as [my Hmy].
  unfold dst, mv in He. cbn [moves_] in He. rewrite Hmx, Hmy in He. simpl in He.
  assert (NoDup (map destination_ ms)) as Hn.
  { apply NoDup_map_filter. apply Hvalid. }
  eapply NoDup_lookup; [exact Hn| |].
  - change (map destination_ ms) with (destination_ <$> ms). rewrite list_lookup_fmap, Hmx. done.
  - change (map destination_ ms) with (destination_ <$> ms). rewrite list_lookup_fmap, Hmy. simpl. by rewrite He.
Qed.

(** The parallel assignment gives a destination the value of its move. *)
Lemma initial_sem x c :
  live r0 x -> c ∈ cells wide (dst r0 x) ->
  value wide lo hi s0 (dst r0 x) (src r0 x) c = parallel wide lo hi pm s0 c.
Proof using All.
  intros [Hx _]%initial_elem Hc. unfold parallel. destruct (List.find _ pm) as [m|] eqn:Ef.
  - apply find_some in Ef as [Hm He%bool_decide_eq_true]. apply list_elem_of_In in Hm.
    rewrite (Hapart m (mv r0 x)); [done..|]. apply meet_spec. by exists c.
  - apply find_none with (x := mv r0 x) in Ef; [|by apply list_elem_of_In]. by apply bool_decide_eq_false in Ef.
Qed.

(** It leaves the others alone: a redundant move has no effect. *)
Lemma initial_done l :
  (forall x, live r0 x -> l ∉ cells wide (dst r0 x)) -> s0 l = parallel wide lo hi pm s0 l.
Proof using Hvalid.
  intros Hl. unfold parallel. destruct (List.find _ pm) as [m|] eqn:Ef; [|done].
  apply find_some in Ef as [Hm He%bool_decide_eq_true]. apply list_elem_of_In in Hm. destruct (IsRedundant m) eqn:Er.
  - destruct (initial_valid m Hm) as (Vs%IsValid_spec & Vd%IsValid_spec & _).
    unfold IsRedundant, IsEliminated, IsInvalid in Er. rewrite Vs, Vd in Er.
    simpl in Er. apply Location_Equals_spec in Er as ->. by rewrite value_self.
  - exfalso. assert (m ∈ ms) as Hin by (by apply list_elem_of_filter).
    apply list_elem_of_lookup_1 in Hin as [x Hx]. assert (dst r0 x = destination_ m) as Hd by (unfold dst, mv; cbn [moves_]; by rewrite Hx).
    apply (Hl x); [|by rewrite Hd]. apply initial_live. by eapply lookup_lt_Some.
Qed.
End initial.
