(* ===== verification/ParallelMoveCorrect.v ===== *)
(** Correctness of the resolver that uses swaps: compiler/optimizing/parallel_move_resolver.cc,
    [ParallelMoveResolverWithSwap], with register pairs and double stack slots.

    The emitted code is run on cells (see ParallelMove.v), so a move of a single register can block
    a move of the pair it belongs to and the other way round.  The invariant of the resolver says
    that performing any move that is left would give its destination the final value; a swap is a
    permutation of the cells, under which the sources are renamed.  A pending move is linked to the
    one below it by a source that meets a destination, and a 64-bit move that has to be swapped
    first is reached by walking back that chain. *)
From S2P Require Import Prelude Locations ParallelMove.

(** ** Locations and their halves *)

(** Locations that [LowOf] and [HighOf] split. *)
Definition has_halves (l : Location) : bool := IsPair l || IsDoubleStackSlot l.

Lemma has_halves_parts l :
  has_halves l = true ->
  (LowOf l <> NoLocation /\ IsConstant (LowOf l) = false /\ has_halves (LowOf l) = false) /\
  (HighOf l <> NoLocation /\ IsConstant (HighOf l) = false /\ has_halves (HighOf l) = false) /\
  IsConstant l = false.
Proof. by destruct l. Qed.

Lemma LowOf_ToLow l : has_halves l = true -> LowOf l = ToLow l /\ HighOf l = ToHigh l.
Proof. by destruct l. Qed.

Lemma overlaps_half l c : has_halves l = true -> c = LowOf l \/ c = HighOf l -> OverlapsWith c l = true.
Proof.
  intros Hh Hc. unfold OverlapsWith. apply orb_true_iff. right. unfold Contains. destruct (Equals l c); [done|].
  change (IsPair l || IsDoubleStackSlot l) with (has_halves l). rewrite Hh.
  destruct (LowOf_ToLow l Hh) as [<- <-]. apply orb_true_iff. by destruct Hc as [->| ->]; [left|right]; apply bool_decide_eq_true.
Qed.

Lemma OverlapsWith_sym a b : OverlapsWith a b = OverlapsWith b a.
Proof. apply orb_comm. Qed.

Section pairs.
Context (wide : Location -> bool) {V : Type} (lo hi : V -> V) (s0 final : Location -> V).
Abbreviation cells := (cells wide).
Abbreviation meet := (meet wide).
Abbreviation value := (value wide lo hi).

(** The [n] moves of the initial list: [D x] is the destination of move [x], [T x] tells whether it
    is a 64-bit move and [C x] whether its source is a constant.  [Locs] holds of the locations that
    occur, [Src] of the sources at the start, and nothing is said about the cells [spare]. *)
Context (n : nat) (D : nat -> Location) (T C : nat -> bool) (Locs Src spare : Location -> Prop).
Context (D_loc : forall x, (x < n)%nat -> Locs (D x)).
Context (D_var : forall x, (x < n)%nat -> IsConstant (D x) = false).
Context (D_apart : forall x y, (x < n)%nat -> (y < n)%nat -> meet (D x) (D y) -> x = y).
Context (D_type : forall x, (x < n)%nat -> wide (D x) = true -> T x = true).
Context (D_narrow : forall x l, (x < n)%nat -> T x = true -> wide (D x) = false -> Src l -> wide l = true -> ~ meet (D x) l).
Context (Locs_valid : forall l, Locs l -> l <> NoLocation).
Context (Locs_wide : forall l, Locs l -> wide l = true -> has_halves l = true /\ LowOf l <> HighOf l).
Context (Locs_half : forall l, Locs l -> wide l = true -> Locs (LowOf l) /\ Locs (HighOf l)).
Context (Locs_meet : forall a b, Locs a -> Locs b -> OverlapsWith a b = true -> meet a b).
Context (Locs_apart : forall a b, Locs a -> Locs b -> wide a = true -> wide b = true -> meet a b -> a = b).
Context (spare_intro : forall A l y,
  Src A -> wide A = true -> l ∈ cells A -> (y < n)%nat -> meet A (D y) -> (forall x, (x < n)%nat -> l ∉ cells (D x)) -> spare l).
#[local] Set Default Proof Using "All".

(** *** Cells *)

Lemma half_narrow l : Locs l -> wide l = true -> wide (LowOf l) = false /\ wide (HighOf l) = false.
Proof.
  intros Hl Hw. destruct (Locs_wide l Hl Hw) as [Hh _]. destruct (Locs_half l Hl Hw) as [L1 L2].
  destruct (has_halves_parts l Hh) as ((_ & _ & H1) & (_ & _ & H2) & _).
  split; apply not_true_iff_false; intros E; [apply (Locs_wide _ L1) in E|apply (Locs_wide _ L2) in E]; destruct E; congruence.
Qed.

Lemma cell_narrow l c : Locs l -> c ∈ cells l -> wide c = false /\ Locs c.
Proof.
  intros Hl Hc. destruct (wide l) eqn:Hw.
  - destruct (half_narrow l Hl Hw), (Locs_half l Hl Hw). apply cells_wide in Hc as [->| ->]; done.
  - by apply cells_narrow in Hc as ->.
Qed.

Lemma cell_variable l c : Locs l -> IsConstant l = false -> c ∈ cells l -> IsConstant c = false.
Proof.
  intros Hl Hv Hc. destruct (wide l) eqn:Hw; [|by apply cells_narrow in Hc as ->].
  destruct (Locs_wide l Hl Hw) as [Hh _]. destruct (has_halves_parts l Hh) as ((_ & H1 & _) & (_ & H2 & _) & _).
  apply cells_wide in Hc as [->| ->]; done.
Qed.

Lemma wide_variable l : Locs l -> wide l = true -> IsConstant l = false.
Proof. intros Hl [Hh _]%Locs_wide; [|done]. by destruct (has_halves_parts l Hh) as (_ & _ & ?). Qed.

(** Locations of the same size are equal or apart. *)
Lemma same_size a b : Locs a -> Locs b -> wide a = wide b -> meet a b -> a = b.
Proof.
  intros La Lb Hw Hm. destruct (wide b) eqn:Hb; [by apply Locs_apart|].
  apply (meet_narrow wide a b Hw) in Hm. by apply cells_narrow in Hm.
Qed.

Lemma overlap_spec a b : Locs a -> Locs b -> OverlapsWith a b = true <-> meet a b.
Proof.
  intros La Lb. split; [by apply Locs_meet|]. intros Hm.
  destruct (wide a) eqn:Ha, (wide b) eqn:Hb.
  - rewrite (Locs_apart a b) by done. apply OverlapsWith_refl.
  - apply meet_sym, meet_narrow, cells_wide in Hm; [|done..]. rewrite OverlapsWith_sym. apply overlaps_half; [by apply Locs_wide|done].
  - apply meet_narrow, cells_wide in Hm; [|done..]. apply overlaps_half; [by apply Locs_wide|done].
  - apply meet_narrow, cells_narrow in Hm as ->; [|done..]. apply OverlapsWith_refl.
Qed.

(** A location has at most two cells, so it meets at most two destinations. *)
Lemma at_most_two A i j k :
  (i < n)%nat -> (j < n)%nat -> (k < n)%nat -> i <> j -> i <> k -> j <> k ->
  meet A (D i) -> meet A (D j) -> meet A (D k) -> False.
Proof.
  intros Hi Hj Hk Nij Nik Njk (a & Ha & Hai)%meet_spec (b & Hb & Hbj)%meet_spec (c & Hc & Hck)%meet_spec.
  assert (forall x y e, (x < n)%nat -> (y < n)%nat -> x <> y -> e ∈ cells (D x) -> e ∈ cells (D y) -> False) as Hap.
  { intros x y e Hx Hy Hne H1 H2. apply Hne, D_apart; [done..|]. apply meet_spec. by exists e. }
  assert (a <> b) by (intros <-; eauto). assert (a <> c) by (intros <-; eauto). assert (b <> c) by (intros <-; eauto).
  destruct (wide A) eqn:Hw.
  - apply cells_wide in Ha, Hb, Hc; [|done..]. intuition congruence.
  - apply cells_narrow in Ha, Hb, Hc; [|done..]. congruence.
Qed.

Lemma narrow_one A i j :
  (i < n)%nat -> (j < n)%nat -> wide A = false -> meet A (D i) -> meet A (D j) -> i = j.
Proof.
  intros Hi Hj Hw H1%meet_narrow H2%meet_narrow; [|done..]. apply D_apart; [done..|]. apply meet_spec. by exists A.
Qed.

(** *** Swaps as permutations of the cells *)

Definition swapped (A B c : Location) : Location :=
  if wide A then
    if decide (c = LowOf A) then LowOf B else if decide (c = HighOf A) then HighOf B
    else if decide (c = LowOf B) then LowOf A else if decide (c = HighOf B) then HighOf A else c
  else if decide (c = A) then B else if decide (c = B) then A else c.

(** Two locations that a swap exchanges. *)
Record exchange (A B : Location) : Prop := {
  ex_A : Locs A;
  ex_B : Locs B;
  ex_size : wide A = wide B;
  ex_apart : ~ meet A B }.

Lemma exchange_cells A B c : exchange A B -> c ∈ cells A -> c ∈ cells B -> False.
Proof. intros He H1 H2. apply (ex_apart A B He), meet_spec. by exists c. Qed.

Lemma exchange_halves A B :
  exchange A B -> wide A = true ->
  LowOf A <> HighOf A /\ LowOf B <> HighOf B /\ LowOf A <> LowOf B /\ LowOf A <> HighOf B /\
  HighOf A <> LowOf B /\ HighOf A <> HighOf B.
Proof.
  intros He Hw. pose proof (ex_size A B He) as Hs. rewrite Hw in Hs.
  destruct (Locs_wide A) as [_ H1]; [apply He|done|]. destruct (Locs_wide B) as [_ H2]; [apply He|done|].
  assert (forall c, c = LowOf A \/ c = HighOf A -> c = LowOf B \/ c = HighOf B -> False) as Hx.
  { intros c. rewrite <- !cells_wide by done. by apply exchange_cells. }
  split_and!; [done|done|intros E; apply (Hx (LowOf A)); auto..|intros E; apply (Hx (HighOf A)); auto|intros E; apply (Hx (HighOf A)); auto].
Qed.

Lemma exchange_narrow A B : exchange A B -> wide A = false -> A <> B.
Proof. intros He Hw E. apply (ex_apart A B He). rewrite E. apply meet_refl. Qed.

Lemma swapped_cases A B c :
  exchange A B ->
  (c ∈ cells A /\ swapped A B c ∈ cells B) \/ (c ∈ cells B /\ swapped A B c ∈ cells A) \/
  ((c ∉ cells A) /\ (c ∉ cells B) /\ swapped A B c = c).
Proof.
  intros He. pose proof (ex_size A B He) as Hs. unfold swapped. destruct (wide A) eqn:Hw.
  - rewrite !cells_wide by done. pose proof (exchange_halves A B He Hw). repeat case_decide; intuition congruence.
  - rewrite !cells_narrow by done. pose proof (exchange_narrow A B He Hw). repeat case_decide; intuition congruence.
Qed.

Lemma swapped_involutive A B c : exchange A B -> swapped A B (swapped A B c) = c.
Proof.
  intros He. unfold swapped. destruct (wide A) eqn:Hw.
  - pose proof (exchange_halves A B He Hw). repeat case_decide; intuition congruence.
  - pose proof (exchange_narrow A B He Hw). repeat case_decide; intuition congruence.
Qed.

Lemma swapped_inj A B c c' : exchange A B -> swapped A B c = swapped A B c' -> c = c'.
Proof. intros He E. rewrite <- (swapped_involutive A B c), E by done. by apply swapped_involutive. Qed.

Lemma value_swapped s A B c : exchange A B -> c ∈ cells B -> value s B A c = s (swapped A B c).
Proof.
  intros He Hc. pose proof (ex_size A B He) as Hs. unfold ParallelMove.value, part, swapped. rewrite <- Hs.
  destruct (wide A) eqn:Hw.
  - pose proof (exchange_halves A B He Hw). apply cells_wide in Hc as [->| ->]; [| |done];
      case_bool_decide; repeat case_decide; simpl; intuition congruence.
  - apply cells_narrow in Hc as ->; [|done]. pose proof (exchange_narrow A B He Hw). repeat case_decide; congruence.
Qed.

Lemma exchange_sym A B : exchange A B -> exchange B A.
Proof. intros [? ? ? Hm]. constructor; [done..|]. intros ?. by apply Hm, meet_sym. Qed.

Lemma swapped_sym A B c : exchange A B -> swapped A B c = swapped B A c.
Proof.
  intros He. unfold swapped. rewrite <- (ex_size A B He). destruct (wide A) eqn:Hw.
  - pose proof (exchange_halves A B He Hw). repeat case_decide; intuition congruence.
  - pose proof (exchange_narrow A B He Hw). repeat case_decide; intuition congruence.
Qed.

(** A swap instruction exchanges the cells. *)
Lemma exec_swap s A B c : exchange A B -> exec wide lo hi s (EmittedSwap A B) c = s (swapped A B c).
Proof.
  intros He. cbn [exec]. destruct (swapped_cases A B c He) as [[HA HB]|[[HB HA]|(HA & HB & ->)]].
  - rewrite decide_False by (intros ?; by eapply exchange_cells). rewrite decide_True by done.
    rewrite swapped_sym by done. by apply value_swapped; [apply exchange_sym|].
  - rewrite decide_True by done. by apply value_swapped.
  - by rewrite !decide_False.
Qed.

(** *** The invariant *)

(** The values after the code emitted so far. *)
Abbreviation now r := (exec_all wide lo hi s0 (emitted_ r)).

Record Inv (r : resolver) : Prop := {
  inv_length : length (moves_ r) = n;
  inv_dead : forall x, ~ live r x -> dst r x = NoLocation;
  inv_dst : forall x, live r x -> dst r x = D x \/ dst r x = NoLocation;
  inv_type : forall x, live r x -> Is64BitMove (mv r x) = T x;
  inv_src : forall x, live r x -> Locs (src r x);
  inv_const : forall x, live r x -> IsConstant (src r x) = C x;
  inv_size : forall x, live r x -> C x = false -> wide (src r x) = wide (D x);
  inv_pending : forall x, pend r x -> C x = false;
  inv_sem : forall x c, live r x -> c ∈ cells (D x) -> value (now r) (D x) (src r x) c = final c;
  inv_apart : forall x y, live r x -> live r y -> x <> y -> meet (src r x) (src r y) ->
              src r x = src r y /\ wide (src r x) = false;
  inv_wide : forall x, live r x -> wide (src r x) = true -> Src (src r x);
  inv_parts : forall e x, (e < n)%nat -> ~ live r e -> live r x -> wide (src r x) = true -> wide (D e) = false ->
              ~ meet (D e) (src r x);
  inv_done : forall l, wide l = false -> ~ spare l -> (forall x, live r x -> l ∉ cells (D x)) -> now r l = final l }.

Lemma live_lt r x : Inv r -> live r x -> (x < n)%nat.
Proof.
  intros Hi Hl. rewrite <- (inv_length _ Hi). apply live_lookup in Hl. by eapply lookup_lt_Some.
Qed.

Lemma Blocks_spec r x l : Inv r -> Locs l -> Blocks (mv r x) l = true <-> live r x /\ meet (src r x) l.
Proof.
  intros Hi Hl. unfold Blocks. rewrite andb_true_iff, negb_true_iff, IsEliminated_spec. split.
  - intros [Hx Ho]. split; [done|]. apply overlap_spec; [by apply inv_src|done..].
  - intros [Hx Hm]. split; [done|]. apply (overlap_spec (src r x)); [by apply inv_src|done..].
Qed.

(** Only a wide destination takes a wide source. *)
Lemma wide_source r x : Inv r -> live r x -> wide (src r x) = true -> wide (D x) = true.
Proof.
  intros Hi Hl Hw. rewrite <- (inv_size _ Hi x Hl); [done|]. rewrite <- (inv_const _ Hi x Hl). apply wide_variable; [by apply inv_src|done].
Qed.

(** A constant blocks nothing. *)
Lemma blocker_variable r x i :
  Inv r -> live r x -> (i < n)%nat -> meet (src r x) (D i) -> C x = false.
Proof.
  intros Hi Hl Hlt Hm. rewrite <- (inv_const _ Hi x Hl). destruct (wide (src r x)) eqn:Hw.
  - apply wide_variable; [by apply inv_src|done].
  - apply meet_narrow in Hm; [|done]. apply (cell_variable (D i)); [by apply D_loc|by apply D_var|done].
Qed.

Lemma Inv_set_dst r i l :
  Inv r -> live r i -> l = D i \/ l = NoLocation -> C i = false -> Inv (update_move r i (fun m => SetDestination m l)).
Proof.
  intros Hi Hl Hd HC. pose proof (live_in _ _ Hl) as Hlt.
  assert (forall x, src (update_move r i (fun m => SetDestination m l)) x = src r x) as Hs by (intros x; by apply src_set_dst).
  constructor; unfold pend, live; intros *; rewrite ?Hs, ?dst_set_dst by done.
  - unfold update_move. cbn [moves_]. rewrite length_alter. apply Hi.
  - intros Hx. destruct (decide (x = i)) as [->|]; [done|]. by apply inv_dead.
  - intros Hx. destruct (decide (x = i)) as [->|]; [done|]. by apply inv_dst.
  - intros Hx. rewrite <- (inv_type _ Hi x Hx), mv_update by done. by destruct (decide (x = i)) as [->|].
  - apply (inv_src _ Hi).
  - apply (inv_const _ Hi).
  - apply (inv_size _ Hi).
  - intros Hx. destruct (decide (x = i)) as [->|]; [done|]. by apply (inv_pending _ Hi).
  - apply (inv_sem _ Hi).
  - apply (inv_apart _ Hi).
  - apply (inv_wide _ Hi).
  - apply (inv_parts _ Hi).
  - setoid_rewrite Hs. apply (inv_done _ Hi).
Qed.

(** Eliminating move [i] after code that leaves the right values. *)
Lemma Inv_drop r i code :
  Inv r -> live r i ->
  (forall x, live r x -> x <> i -> wide (src r x) = true -> wide (D i) = false -> ~ meet (D i) (src r x)) ->
  (forall x c, live r x -> x <> i -> c ∈ cells (D x) -> value (exec_all wide lo hi s0 code) (D x) (src r x) c = final c) ->
  (forall l, wide l = false -> ~ spare l -> (forall x, live r x -> x <> i -> l ∉ cells (D x)) ->
     exec_all wide lo hi s0 code l = final l) ->
  Inv (update_move (Resolver (moves_ r) code) i Eliminate).
Proof.
  intros Hi Hl Hparts Hsem Hdone. pose proof (live_in _ _ Hl) as Hlt. set (r' := update_move _ _ _).
  pose proof (fun x => live_drop r i code x Hl) as Hlv. fold r' in Hlv.
  assert (forall x, live r' x -> src r' x = src r x) as Hs by (intros x [_ Hx]%Hlv; by apply src_drop).
  assert (forall x, dst r' x = if decide (x = i) then NoLocation else dst r x) as Hds.
  { intros x. unfold dst, r'. rewrite mv_update by done. by destruct (decide (x = i)). }
  constructor; intros *.
  - unfold r', update_move. cbn [moves_]. rewrite length_alter. apply Hi.
  - rewrite Hlv, Hds. intros Hx. destruct (decide (x = i)); [done|]. apply (inv_dead _ Hi). tauto.
  - intros [Hx Hne]%Hlv. rewrite Hds, decide_False by done. by apply (inv_dst _ Hi).
  - intros [Hx Hne]%Hlv. unfold r'. rewrite mv_update, decide_False by done. by apply (inv_type _ Hi).
  - intros Hx. rewrite Hs by done. apply Hlv in Hx as [? _]. by apply (inv_src _ Hi).
  - intros Hx. rewrite Hs by done. apply Hlv in Hx as [? _]. by apply (inv_const _ Hi).
  - intros Hx. rewrite Hs by done. apply Hlv in Hx as [? _]. by apply (inv_size _ Hi).
  - intros [[Hx Hne]%Hlv Hd]. rewrite Hds, decide_False in Hd by done. by apply (inv_pending _ Hi).
  - intros Hx. rewrite Hs by done. apply Hlv in Hx as [? ?]. by apply Hsem.
  - intros Hx Hy. rewrite !Hs by done. apply Hlv in Hx as [? _], Hy as [? _]. by apply (inv_apart _ Hi).
  - intros Hx. rewrite Hs by done. apply Hlv in Hx as [? _]. by apply (inv_wide _ Hi).
  - intros Hlte He Hx. rewrite Hs by done. apply Hlv in Hx as [? ?]. rewrite Hlv in He.
    destruct (decide (e = i)) as [->|]; [by apply Hparts|]. apply (inv_parts _ Hi); [done| |done]. tauto.
  - intros Hw Hsp Hx. apply Hdone; [done..|]. intros x Hlx Hxi. apply Hx. by apply Hlv.
Qed.

Lemma Inv_eliminate r i : Inv r -> live r i -> src r i = D i -> Inv (update_move r i Eliminate).
Proof.
  intros Hi Hl Hd. destruct r as [ms code]. apply (Inv_drop (Resolver ms code)); [done..| | |].
  - intros x Hx Hne Hw Hn Hm. rewrite <- Hd in Hm. apply (inv_apart _ Hi) in Hm as [Heq Hw']; [|done..].
    rewrite Heq in Hw'. congruence.
  - intros x c Hx _. by apply (inv_sem _ Hi).
  - intros l Hw Hsp Hx. destruct (decide (l ∈ cells (D i))) as [Hin|Hni].
    + rewrite <- (inv_sem _ Hi i l Hl Hin), Hd. by rewrite value_self.
    + apply (inv_done _ Hi); [done..|]. intros x Hlx. destruct (decide (x = i)) as [->|Hxi]; [done|]. by apply Hx.
Qed.

(** A move leaves what does not meet its destination alone. *)
Lemma value_frame s A B d a c :
  (wide a = true -> wide d = true) -> ~ meet a B ->
  value (exec wide lo hi s (EmittedMove A B)) d a c = value s d a c.
Proof.
  intros Hw Hm. apply value_same; [done..| |].
  - intros Ha. cbn [exec]. rewrite !decide_False; [done|..]; intros Hc; apply Hm, meet_spec;
      eexists; (split; [|exact Hc]); apply cells_wide; auto.
  - intros Ha. cbn [exec]. rewrite decide_False; [done|]. intros Hc. by apply Hm, meet_narrow.
Qed.

(** A move that nothing blocks. *)
Lemma Inv_move r i :
  Inv r -> live r i -> (forall x, live r x -> ~ meet (src r x) (D i)) ->
  Inv (update_move (Resolver (moves_ r) (emitted_ r ++ [EmittedMove (src r i) (D i)])) i Eliminate).
Proof.
  intros Hi Hl Hb. apply Inv_drop; [done..| | |].
  - intros x Hx _ _ _ Hm%meet_sym. by apply (Hb x).
  - intros x c Hx Hne Hc. rewrite exec_all_app, value_frame; [by apply (inv_sem _ Hi)| |by apply Hb]. by apply wide_source.
  - intros l Hw Hsp Hx. rewrite exec_all_app. cbn [exec]. case_decide as Hin; [by apply (inv_sem _ Hi)|].
    apply (inv_done _ Hi); [done..|]. intros x Hlx. destruct (decide (x = i)) as [->|Hxi]; [done|]. by apply Hx.
Qed.

(** *** A swap *)

Definition swap_state (r : resolver) (i : nat) : resolver :=
  Resolver (map (swap_sources (src r i) (D i)) (alter Eliminate i (moves_ r)))
    (emitted_ r ++ [EmittedSwap (src r i) (D i)]).

(** No source is a pair of which the destination is only one half. *)
Definition no_half (r : resolver) (i : nat) : Prop :=
  forall x, live r x -> wide (src r x) = true -> wide (D i) = false -> ~ meet (D i) (src r x).

Record swappable (r : resolver) (i : nat) : Prop := {
  sw_inv : Inv r;
  sw_live : live r i;
  sw_var : C i = false;
  sw_ne : src r i <> D i;
  sw_half : no_half r i }.

Lemma sw_exchange r i : swappable r i -> exchange (src r i) (D i).
Proof.
  intros [Hi Hl HC Hne _]. pose proof (live_lt _ _ Hi Hl). constructor; [by apply inv_src|by apply D_loc|by apply inv_size|].
  intros Hm. apply Hne, same_size; [by apply inv_src|by apply D_loc|by apply inv_size|done].
Qed.

(** How a swap of [A] and [B] renames a source. *)
Inductive swap_to (A B : Location) : Location -> Location -> Prop :=
  | to_B : wide A = false -> swap_to A B A B
  | to_A : swap_to A B B A
  | to_low : wide B = true -> swap_to A B (LowOf B) (LowOf A)
  | to_high : wide B = true -> swap_to A B (HighOf B) (HighOf A)
  | to_same a : ~ meet a A -> ~ meet a B -> swap_to A B a a.

Lemma UpdateSourceOf_whole m l : source_ m <> NoLocation -> UpdateSourceOf m (source_ m) l = SetSource m l.
Proof.
  intros Hv. unfold UpdateSourceOf.
  destruct (Equals (LowOf _) _) eqn:E1; [apply Location_Equals_spec in E1; by destruct (source_ m)|].
  destruct (Equals (HighOf _) _) eqn:E2; [apply Location_Equals_spec in E2; by destruct (source_ m)|]. done.
Qed.

Lemma swap_sources_spec r i x :
  swappable r i -> live r x -> x <> i ->
  exists a, swap_sources (src r i) (D i) (mv r x) = SetSource (mv r x) a /\ swap_to (src r i) (D i) (src r x) a.
Proof.
  intros Hw Hx Hne. pose proof (sw_exchange r i Hw) as He. destruct Hw as [Hi Hl HC Hsd Hh].
  pose proof (ex_A _ _ He) as LA. pose proof (ex_B _ _ He) as LB. pose proof (ex_size _ _ He) as Hs.
  unfold swap_sources. destruct (Blocks (mv r x) (src r i)) eqn:EA.
  { apply Blocks_spec in EA as [_ Hm]; [|done..]. apply (inv_apart _ Hi) in Hm as [E Hn]; [|done..].
    exists (D i). rewrite <- E. split; [by apply UpdateSourceOf_whole|by apply to_B]. }
  assert (~ meet (src r x) (src r i)) as HA by (intros Hm; by rewrite (proj2 (Blocks_spec r x (src r i) Hi LA)) in EA).
  destruct (Blocks (mv r x) (D i)) eqn:EB.
  2:{ exists (src r x). split; [unfold src; by destruct (mv r x)|]. apply to_same; [done|].
      intros Hm. by rewrite (proj2 (Blocks_spec r x (D i) Hi LB)) in EB. }
  apply Blocks_spec in EB as [_ Hm]; [|done..]. pose proof (inv_src _ Hi x Hx) as Lx.
  destruct (bool_decide (wide (src r x) = wide (D i))) eqn:Ew; [apply bool_decide_eq_true in Ew|apply bool_decide_eq_false in Ew].
  { exists (src r i). pose proof (same_size _ _ Lx LB Ew Hm) as E. rewrite <- E. split; [by apply UpdateSourceOf_whole|constructor]. }
  destruct (wide (src r x)) eqn:Wx, (wide (D i)) eqn:Wi; try done.
  { exfalso. apply (Hh x); [done..|]. by apply meet_sym. }
  destruct (Locs_wide _ LB Wi) as [_ Hlh]. apply meet_narrow, cells_wide in Hm as [E|E]; [| |done..]; rewrite E.
  - exists (LowOf (src r i)). split; [|by constructor]. unfold UpdateSourceOf. change (source_ (mv r x)) with (src r x). rewrite E.
    by rewrite (proj2 (Location_Equals_spec _ _) eq_refl).
  - exists (HighOf (src r i)). split; [|by constructor]. unfold UpdateSourceOf. change (source_ (mv r x)) with (src r x). rewrite E.
    rewrite (proj2 (Location_Equals_spec (HighOf _) _) eq_refl).
    destruct (Equals (LowOf _) _) eqn:E'; [by apply Location_Equals_spec in E'|done].
Qed.

(** What the renaming preserves. *)
Record renames (A B a a' : Location) : Prop := {
  ren_loc : Locs a';
  ren_const : IsConstant a' = IsConstant a;
  ren_size : wide a' = wide a;
  ren_halves : wide a = true -> LowOf a' = swapped A B (LowOf a) /\ HighOf a' = swapped A B (HighOf a);
  ren_cell : wide a = false -> a' = swapped A B a;
  ren_wide : wide a = true -> a' = a \/ a' = A }.

Lemma swapped_other A B a c : exchange A B -> ~ meet a A -> ~ meet a B -> c ∈ cells a -> swapped A B c = c.
Proof.
  intros He HA HB Hc. destruct (swapped_cases A B c He) as [[H _]|[[H _]|(_ & _ & ?)]]; [..|done]; exfalso;
    [apply HA|apply HB]; apply meet_spec; by exists c.
Qed.

Lemma swap_to_renames A B a a' :
  exchange A B -> IsConstant A = false -> IsConstant B = false -> Locs a -> swap_to A B a a' -> renames A B a a'.
Proof.
  intros He CA CB La Hsw. pose proof (ex_A _ _ He) as LA. pose proof (ex_B _ _ He) as LB. pose proof (ex_size _ _ He) as Hs.
  destruct Hsw as [Hn| |Hw|Hw|a H1 H2].
  - pose proof (exchange_narrow A B He Hn). constructor; try done; try congruence. intros _. unfold swapped. rewrite Hn. by rewrite decide_True.
  - constructor; try done; try congruence; [| |by right].
    + intros Hw. unfold swapped. rewrite Hs, Hw. rewrite <- Hs in Hw. pose proof (exchange_halves A B He Hw).
      split; repeat case_decide; intuition congruence.
    + intros Hw. unfold swapped. rewrite Hs, Hw. rewrite <- Hs in Hw. pose proof (exchange_narrow A B He Hw). repeat case_decide; congruence.
  - assert (wide A = true) as HwA by congruence. pose proof (exchange_halves A B He HwA) as Hx.
    destruct (half_narrow A LA HwA), (half_narrow B LB Hw), (Locs_half A LA HwA).
    constructor; try done; try congruence.
    + rewrite (cell_variable A), (cell_variable B); try done; apply cells_wide; auto.
    + intros _. unfold swapped. rewrite HwA. repeat case_decide; intuition congruence.
  - assert (wide A = true) as HwA by congruence. pose proof (exchange_halves A B He HwA) as Hx.
    destruct (half_narrow A LA HwA), (half_narrow B LB Hw), (Locs_half A LA HwA).
    constructor; try done; try congruence.
    + rewrite (cell_variable A), (cell_variable B); try done; apply cells_wide; auto.
    + intros _. unfold swapped. rewrite HwA. repeat case_decide; intuition congruence.
  - constructor; try done; [| |by left]; intros Hw.
    + rewrite !(swapped_other A B a); try done; apply cells_wide; auto.
    + rewrite (swapped_other A B a); try done. by apply cells_narrow.
Qed.

Lemma renames_cells A B a a' c' :
  renames A B a a' -> c' ∈ cells a' -> exists c, c ∈ cells a /\ c' = swapped A B c.
Proof.
  intros Hr. pose proof (ren_size _ _ _ _ Hr) as Hs. destruct (wide a) eqn:Hw.
  - destruct (ren_halves _ _ _ _ Hr) as [E1 E2]; [done|]. intros [->| ->]%cells_wide; [| |done].
    + exists (LowOf a). split; [apply cells_wide; auto|done].
    + exists (HighOf a). split; [apply cells_wide; auto|done].
  - intros ->%cells_narrow; [|done]. exists a. split; [by apply cells_narrow|]. by apply Hr.
Qed.

Lemma renames_value s A B d a a' c :
  exchange A B -> renames A B a a' -> (wide a = true -> wide d = true) ->
  value (exec wide lo hi s (EmittedSwap A B)) d a' c = value s d a c.
Proof.
  intros He Hr Hd. apply value_same; [by apply Hr|done|..].
  - intros Hw. destruct (ren_halves _ _ _ _ Hr Hw) as [-> ->]. rewrite !exec_swap, !swapped_involutive by done. done.
  - intros Hw. rewrite (ren_cell _ _ _ _ Hr Hw), exec_swap, swapped_involutive by done. done.
Qed.

Lemma renames_meet A B a a' b b' :
  exchange A B -> renames A B a a' -> renames A B b b' -> meet a' b' -> meet a b.
Proof.
  intros He Ha Hb (c' & Hca & Hcb)%meet_spec. apply meet_spec.
  destruct (renames_cells _ _ _ _ _ Ha Hca) as (c1 & Hc1 & E1). destruct (renames_cells _ _ _ _ _ Hb Hcb) as (c2 & Hc2 & E2).
  exists c1. split; [done|]. rewrite (swapped_inj A B c1 c2); [done|done|congruence].
Qed.

Lemma renames_eq A B a a' b b' : renames A B a a' -> renames A B b b' -> wide a = false -> a = b -> a' = b'.
Proof. intros Ha Hb Hw <-. by rewrite (ren_cell _ _ _ _ Ha Hw), (ren_cell _ _ _ _ Hb Hw). Qed.

Lemma mv_swap_state r i x :
  live r i -> mv (swap_state r i) x = if decide (x = i) then Eliminate (mv r i) else swap_sources (src r i) (D i) (mv r x).
Proof.
  intros Hl. transitivity (swap_sources (src r i) (D i) (mv (update_move r i Eliminate) x)).
  - unfold mv, swap_state, update_move. cbn [moves_]. change (map ?f) with (fmap (M := list) f).
    rewrite list_lookup_fmap. by destruct (alter Eliminate i (moves_ r) !! x) as [m|].
  - rewrite mv_update by (by apply live_in). by destruct (decide (x = i)).
Qed.

Lemma live_swap_state r i x : swappable r i -> live (swap_state r i) x <-> live r x /\ x <> i.
Proof.
  intros Hw. pose proof (sw_exchange _ _ Hw) as He. pose proof (sw_inv _ _ Hw) as Hi. pose proof (sw_live _ _ Hw) as Hl.
  unfold live at 1, src at 1. rewrite mv_swap_state by done. destruct (decide (x = i)) as [->|Hne]; [tauto|].
  destruct (decide (src r x = NoLocation)) as [E|Hx].
  - unfold live. rewrite E. split; [|tauto]. unfold swap_sources, Blocks, IsEliminated.
    change (source_ (mv r x)) with (src r x). rewrite E. simpl. change (source_ (mv r x)) with (src r x). tauto.
  - split; [done|]. intros _. destruct (swap_sources_spec r i x Hw Hx Hne) as (a & -> & Hto). simpl.
    eapply Locs_valid, ren_loc, (swap_to_renames (src r i) (D i) (src r x)); try done; [|by apply D_var, (live_lt r)|by apply inv_src].
    rewrite (inv_const _ Hi) by done. apply (sw_var _ _ Hw).
Qed.

Lemma swap_state_spec r i x :
  swappable r i -> live r x -> x <> i ->
  swap_to (src r i) (D i) (src r x) (src (swap_state r i) x) /\
  renames (src r i) (D i) (src r x) (src (swap_state r i) x) /\
  dst (swap_state r i) x = dst r x /\ Is64BitMove (mv (swap_state r i) x) = Is64BitMove (mv r x).
Proof.
  intros Hw Hx Hne. pose proof (sw_exchange _ _ Hw) as He. pose proof (sw_inv _ _ Hw) as Hi. pose proof (sw_live _ _ Hw) as Hl.
  unfold dst, src at 3 6. rewrite mv_swap_state, decide_False by done.
  destruct (swap_sources_spec r i x Hw Hx Hne) as (a & -> & Hto). cbn [SetSource source_ destination_]. split_and!; try done.
  apply swap_to_renames; try done; [|by apply D_var, (live_lt r)|by apply inv_src].
  rewrite (inv_const _ Hi) by done. apply (sw_var _ _ Hw).
Qed.

Lemma dst_swap_state r i x :
  swappable r i -> dst (swap_state r i) x = if decide (x = i) then NoLocation else dst r x.
Proof.
  intros Hw. unfold dst. rewrite mv_swap_state by apply Hw. destruct (decide (x = i)); [done|].
  unfold swap_sources, UpdateSourceOf. by repeat destruct (Blocks _ _) || destruct (Equals _ _).
Qed.

(** A destination that meets a renamed source. *)
Lemma swap_meets r i x j :
  swappable r i -> live r x -> x <> i -> (j < n)%nat -> j <> i -> meet (src (swap_state r i) x) (D j) ->
  meet (src r x) (D j) \/ (meet (src r x) (D i) /\ meet (src r i) (D j)).
Proof.
  intros Hw Hx Hne Hj Hji (c' & Hc' & HcD)%meet_spec. pose proof (sw_exchange _ _ Hw) as He.
  destruct (swap_state_spec r i x Hw Hx Hne) as (_ & Hr & _). destruct (renames_cells _ _ _ _ _ Hr Hc') as (c & Hc & ->).
  destruct (swapped_cases _ _ c He) as [[_ HB]|[[HB HA]|(_ & _ & E)]].
  - exfalso. apply Hji, D_apart; [done|by apply (live_lt r); apply Hw|]. apply meet_spec. by exists (swapped (src r i) (D i) c).
  - right. split; apply meet_spec; eauto.
  - left. apply meet_spec. exists c. by rewrite E in HcD.
Qed.

(** A half of a pair that is left over: the other half is the destination of a move. *)
Lemma swap_left_over r i y l :
  swappable r i -> live r y -> y <> i -> meet (src r i) (D y) -> l ∈ cells (src r i) ->
  (forall x, live r x -> x <> i -> l ∉ cells (D x)) -> spare l.
Proof.
  intros Hw Hy Hyi Hm Hl Hx. pose proof (sw_exchange _ _ Hw) as He. pose proof (sw_inv _ _ Hw) as Hi. pose proof (sw_live _ _ Hw) as Hli.
  destruct (wide (src r i)) eqn:Hwi.
  2:{ exfalso. apply meet_narrow in Hm; [|done]. apply cells_narrow in Hl as ->; [|done]. by apply (Hx y). }
  apply (spare_intro (src r i) l y); [by apply (inv_wide _ Hi)|done|done|by apply (live_lt r)|done|].
  intros x Hlt Hlx. destruct (decide (live r x)) as [Hlive|Hdead].
  - destruct (decide (x = i)) as [->|Hne]; [by eapply exchange_cells|by apply (Hx x)].
  - assert (meet (D x) (src r i)) as Hmx by (apply meet_spec; by exists l). destruct (wide (D x)) eqn:Hwx.
    + apply Locs_apart in Hmx; [|by apply D_loc|by apply inv_src|done..]. rewrite <- Hmx in Hm.
      apply D_apart in Hm as <-; [done|done|by apply (live_lt r)].
    + by apply (inv_parts _ Hi x i).
Qed.

Lemma swap_parts r i e x :
  swappable r i -> (e < n)%nat -> ~ (live r e /\ e <> i) -> live r x -> x <> i -> wide (src (swap_state r i) x) = true ->
  wide (D e) = false -> ~ meet (D e) (src (swap_state r i) x).
Proof.
  intros Hw Hlt He Hx Hne Hwx Hn Hm%meet_narrow; [|done]. pose proof (sw_exchange _ _ Hw) as Hex. pose proof (sw_inv _ _ Hw) as Hi.
  pose proof (sw_live _ _ Hw) as Hli. destruct (swap_state_spec r i x Hw Hx Hne) as (_ & Hr & _).
  rewrite (ren_size _ _ _ _ Hr) in Hwx. destruct (renames_cells _ _ _ _ _ Hr Hm) as (c & Hc & E).
  destruct (swapped_cases _ _ c Hex) as [[HA _]|[[HB HA]|(_ & HB & E')]].
  - assert (meet (src r x) (src r i)) as Hxi by (apply meet_spec; by exists c).
    apply (inv_apart _ Hi) in Hxi as [_ ?]; [congruence|done..].
  - rewrite <- E in HA. assert (meet (D i) (src r x)) as Hix by (apply meet_spec; by exists c).
    assert (wide (D i) = true) as Hwi by (apply not_false_iff_true; intros Hf; by apply (sw_half _ _ Hw x)).
    assert (e <> i) as Hei by (intros ->; congruence).
    apply (inv_parts _ Hi e i); try done; [tauto| |by apply meet_narrow]. by rewrite (ex_size _ _ Hex).
  - rewrite E' in E. subst c. destruct (decide (e = i)) as [->|Hei]; [by apply HB, cells_narrow|].
    apply (inv_parts _ Hi e x); try done; [tauto|by apply meet_narrow].
Qed.

Lemma swap_done r i y l :
  swappable r i -> live r y -> y <> i -> meet (src r i) (D y) -> wide l = false -> ~ spare l ->
  (forall x, live r x -> x <> i -> l ∉ cells (D x)) -> now r (swapped (src r i) (D i) l) = final l.
Proof.
  intros Hw Hy Hyi Hm Hn Hsp Hx. pose proof (sw_exchange _ _ Hw) as He. pose proof (sw_inv _ _ Hw) as Hi.
  destruct (swapped_cases _ _ l He) as [[HA _]|[[HB _]|(_ & HB & ->)]].
  - exfalso. by apply Hsp, (swap_left_over r i y).
  - rewrite <- value_swapped by done. apply (inv_sem _ Hi); [apply Hw|done].
  - apply (inv_done _ Hi); [done..|]. intros x Hlx. destruct (decide (x = i)) as [->|Hne]; [done|by apply Hx].
Qed.

(** A swap is right when the source meets the destination of another move. *)
Lemma Inv_swap r i y :
  swappable r i -> live r y -> y <> i -> meet (src r i) (D y) -> Inv (swap_state r i).
Proof.
  intros Hw Hy Hyi Hm. pose proof (sw_exchange _ _ Hw) as He. pose proof (sw_inv _ _ Hw) as Hi. pose proof (sw_live _ _ Hw) as Hl.
  pose proof (fun x => live_swap_state r i x Hw) as Hlv. pose proof (fun x => dst_swap_state r i x Hw) as Hds.
  assert (forall x, live (swap_state r i) x -> renames (src r i) (D i) (src r x) (src (swap_state r i) x)) as Hren.
  { intros x [Hx Hne]%Hlv. by apply swap_state_spec. }
  assert (forall c, now (swap_state r i) c = now r (swapped (src r i) (D i) c)) as Hnow.
  { intros c. unfold swap_state. cbn [emitted_]. by rewrite exec_all_app, exec_swap. }
  constructor; intros *.
  - unfold swap_state. cbn [moves_]. rewrite length_map, length_alter. apply Hi.
  - intros Hx. rewrite Hds. destruct (decide (x = i)); [done|]. apply (inv_dead _ Hi). intros Hlx. apply Hx. by apply Hlv.
  - intros [Hx Hne]%Hlv. rewrite Hds, decide_False by done. by apply (inv_dst _ Hi).
  - intros [Hx Hne]%Hlv. destruct (swap_state_spec r i x Hw Hx Hne) as (_ & _ & _ & ->). by apply (inv_type _ Hi).
  - intros Hx. by apply (ren_loc _ _ _ _ (Hren x Hx)).
  - intros Hx. rewrite (ren_const _ _ _ _ (Hren x Hx)). apply Hlv in Hx as [Hx _]. by apply (inv_const _ Hi).
  - intros Hx. rewrite (ren_size _ _ _ _ (Hren x Hx)). apply Hlv in Hx as [Hx _]. by apply (inv_size _ Hi).
  - intros [[Hx Hne]%Hlv Hd]. rewrite Hds, decide_False in Hd by done. by apply (inv_pending _ Hi).
  - intros Hx Hc. unfold swap_state at 1. cbn [emitted_]. rewrite exec_all_app, (renames_value _ _ _ _ _ _ _ He (Hren x Hx)).
    + apply Hlv in Hx as [Hx _]. by apply (inv_sem _ Hi).
    + apply Hlv in Hx as [Hx _]. by apply wide_source.
  - intros Hx Hy' Hne Hmeet. pose proof (Hren x Hx) as Rx. pose proof (Hren y0 Hy') as Ry. apply Hlv in Hx as [Hx _], Hy' as [Hy' _].
    pose proof (renames_meet _ _ _ _ _ _ He Rx Ry Hmeet) as Hold. apply (inv_apart _ Hi) in Hold as [Heq Hn]; [|done..].
    split; [by apply (renames_eq _ _ _ _ _ _ Rx Ry)|]. by rewrite (ren_size _ _ _ _ Rx).
  - intros Hx Hwx. pose proof (Hren x Hx) as Rx. apply Hlv in Hx as [Hx _]. rewrite (ren_size _ _ _ _ Rx) in Hwx.
    destruct (ren_wide _ _ _ _ Rx Hwx) as [E|E]; rewrite E; apply (inv_wide _ Hi); try done.
    by rewrite <- E, (ren_size _ _ _ _ Rx).
  - rewrite !Hlv. intros Hlt He' [Hx Hne]. by apply (swap_parts r i e x).
  - intros Hn Hsp Hx. rewrite Hnow. apply (swap_done r i y); try done. intros x Hlx Hne. apply Hx. by apply Hlv.
Qed.

(** ** The recursion *)

Abbreviation stack_ok := (ParallelMove.stack_ok meet D).

(** No move that is not pending gets to block the destination of a pending one. *)
Definition quiet (r r' : resolver) (stk : list nat) : Prop :=
  forall x j, live r' x -> x ∉ stk -> j ∈ stk -> meet (src r' x) (D j) -> meet (src r x) (D j).

(** The sources of the pending moves, apart from the outermost one, stay. *)
Definition keeps (r r' : resolver) (stk : list nat) : Prop :=
  forall a, a ∈ stk -> last stk <> Some a -> src r' a = src r a.

(** The 64-bit move [b] has to be swapped first: it blocks a move that is not pending any more. *)
Definition wants_swap (r : resolver) (stk : list nat) (b : nat) : Prop :=
  T b = true /\ exists t, live r t /\ (t ∉ stk) /\ meet (src r b) (D t).

Record perform_post (r r' : resolver) (idx : nat) (stk : list nat) (res : option nat) : Prop := {
  post_inv : Inv r';
  post_stack : stack_ok r' stk;
  post_below : below r r';
  post_keeps : keeps r r' stk;
  post_result :
    (res = None /\ ~ live r' idx /\ quiet r r' stk) \/
    (res = Some idx /\ ~ live r' idx /\ quiet r r' (tail stk)) \/
    (exists b, res = Some b /\ b ∈ stk /\ wants_swap r' stk b /\ quiet r r' stk) }.

Record loop_post (r r' : resolver) (idx : nat) (stk : list nat) (e : loop_exit) : Prop := {
  lpost_inv : Inv r';
  lpost_stack : stack_ok r' (idx :: stk);
  lpost_below : below r r';
  lpost_keeps : keeps r r' (idx :: stk);
  lpost_quiet : quiet r r' stk;
  lpost_result :
    (e = LoopDone None /\ forall x, live r' x -> x ∉ idx :: stk -> ~ meet (src r' x) (D idx)) \/
    (exists b, b ∈ idx :: stk /\ wants_swap r' (idx :: stk) b /\
               e = if decide (b = idx) then LoopDone (Some idx) else LoopReturn (Some b)) }.

Lemma quiet_trans r1 r2 r3 stk : below r2 r3 -> quiet r1 r2 stk -> quiet r2 r3 stk -> quiet r1 r3 stk.
Proof. intros Hb H1 H2 x j Hx Hn Hj Hm. apply H1; [by apply Hb|done..|]. by apply H2. Qed.

Lemma keeps_trans r1 r2 r3 stk : keeps r1 r2 stk -> keeps r2 r3 stk -> keeps r1 r3 stk.
Proof. intros H1 H2 a Ha Hl. rewrite (H2 a), (H1 a) by done. done. Qed.

Lemma last_tail (i a : nat) stk : NoDup (i :: stk) -> a ∈ stk -> last (i :: stk) = last stk /\ last (i :: stk) <> Some i.
Proof.
  intros [Hn _]%NoDup_cons Ha. destruct stk as [|j stk]; [by apply not_elem_of_nil in Ha|]. split; [done|].
  intros Hl. apply Hn. by apply last_Some_elem_of.
Qed.

Lemma keeps_tail r r' i stk : NoDup (i :: stk) -> keeps r r' (i :: stk) -> keeps r r' stk.
Proof. intros Hn Hk a Ha Hl. destruct (last_tail i a stk Hn Ha) as [E _]. apply Hk; [by right|by rewrite E]. Qed.

Lemma quiet_tail r r' stk : NoDup stk -> keeps r r' stk -> quiet r r' stk -> quiet r r' (tail stk).
Proof.
  intros Hn Hk Hq x j Hx Hni Hj Hm. destruct stk as [|i stk]; [by apply not_elem_of_nil in Hj|]. cbn [tail] in *.
  destruct (decide (x = i)) as [->|Hne].
  - destruct (last_tail i j stk Hn Hj) as [_ Hl]. rewrite <- (Hk i); [done|left|done].
  - apply Hq; [done| |by right|done]. rewrite elem_of_cons. tauto.
Qed.

Lemma chain_keeps r r' stk : NoDup stk -> chain meet D r stk -> keeps r r' stk -> chain meet D r' stk.
Proof.
  induction stk as [|i tl IH]; [done|]. intros Hn [Hi Ht] Hk. split.
  - destruct tl as [|j tl]; [done|]. destruct (last_tail i j (j :: tl) Hn) as [_ Hl]; [left|]. rewrite Hk; [done|left|done].
  - apply IH; [by apply NoDup_cons in Hn as [_ ?]|done|by eapply keeps_tail].
Qed.

Lemma stack_keeps r r' stk :
  stack_ok r stk -> (forall x, pend r' x <-> pend r x) -> keeps r r' stk -> stack_ok r' stk.
Proof.
  intros [Hp Hn Hc] Hpend Hk. constructor; [|done|by eapply chain_keeps]. intros x. by rewrite Hpend.
Qed.

(** *** After the loop *)

(** Move [idx] is about to be resolved: it is not pending any more. *)
Record ready (r : resolver) (idx : nat) (stk : list nat) : Prop := {
  ready_inv : Inv r;
  ready_stack : stack_ok r stk;
  ready_live : live r idx;
  ready_var : C idx = false;
  ready_notin : idx ∉ stk;
  ready_dst : dst r idx = D idx;
  ready_head : match stk with [] => True | h :: _ => meet (src r idx) (D h) end }.

Lemma ready_pop r idx stk :
  Inv r -> stack_ok r (idx :: stk) -> ready (update_move r idx (fun m => SetDestination m (D idx))) idx stk.
Proof.
  intros Hi Hs. pose proof (stack_live _ _ idx Hs ltac:(left)) as Hl. pose proof (live_lt _ _ Hi Hl) as Hlt.
  assert (C idx = false) as HC by (apply (inv_pending _ Hi), (stack_pend _ _ Hs); left).
  rewrite <- (inv_length _ Hi) in Hlt. pose proof (stack_nodup _ _ Hs) as [Hn _]%NoDup_cons.
  constructor.
  - apply Inv_set_dst; [done..|by left|done].
  - by apply stack_pop; [apply Locs_valid, D_loc; by apply (live_lt r)|].
  - unfold live. by rewrite src_set_dst.
  - done.
  - done.
  - rewrite dst_set_dst by done. by rewrite decide_True.
  - rewrite src_set_dst by done. pose proof (stack_chain _ _ Hs) as [Hc _]. done.
Qed.

Lemma ready_start r idx stk :
  Inv r -> stack_ok r stk -> live r idx -> C idx = false -> idx ∉ stk ->
  match stk with [] => True | h :: _ => meet (src r idx) (D h) end -> ready r idx stk.
Proof.
  intros Hi Hs Hl HC Hn Hh. constructor; try done. destruct (inv_dst _ Hi idx Hl) as [|Hd]; [done|].
  exfalso. apply Hn, (stack_pend _ _ Hs). by split.
Qed.

Lemma mv_ready r idx stk : ready r idx stk -> moves_ r !! idx = Some (Move (src r idx) (D idx) (type_ (mv r idx))).
Proof.
  intros Hr. rewrite (live_lookup _ _ (ready_live _ _ _ Hr)). rewrite <- (ready_dst _ _ _ Hr). unfold src, dst. by destruct (mv r idx).
Qed.

Lemma post_drop r idx stk code :
  ready r idx stk -> Inv (update_move (Resolver (moves_ r) code) idx Eliminate) ->
  perform_post r (update_move (Resolver (moves_ r) code) idx Eliminate) idx stk None.
Proof.
  intros [Hi Hs Hl _ Hn _ _] Hi'. constructor; [done|by apply stack_drop|by intros x [? _]%live_drop| |].
  - intros a Ha _. apply src_drop; [done|]. by intros ->.
  - left. split_and!; [done|rewrite live_drop by done; tauto|].
    intros x j [Hx Hxi]%live_drop; [|done..]. by rewrite src_drop.
Qed.

(** The moves that block the destination are pending. *)
Definition only_pending (r : resolver) (idx : nat) (stk : list nat) : Prop :=
  forall x, live r x -> x ∉ stk -> x <> idx -> ~ meet (src r x) (D idx).

Lemma swap_to_same A B a a' : Locs B -> swap_to A B a a' -> ~ meet a A -> ~ meet a B -> a' = a.
Proof.
  intros LB [Hn| |Hw|Hw|a0 _ _] HA HB; [by destruct HA; apply meet_refl|by destruct HB; apply meet_refl|..|done];
    destruct HB; (apply meet_narrow; [by apply half_narrow|]); apply cells_wide; auto.
Qed.

(** A swap leaves the sources of the pending moves alone. *)
Lemma swap_keeps r idx stk : ready r idx stk -> swappable r idx -> keeps r (swap_state r idx) stk.
Proof.
  intros [Hi Hs Hl HC Hn Hd Hh] Hw a Ha Hla. pose proof (stack_live _ _ a Hs Ha) as Hlive. pose proof (live_lt _ _ Hi Hl) as Hlt.
  assert (a <> idx) as Hne by (by intros ->).
  destruct (chain_source _ _ _ (stack_chain _ _ Hs) Ha) as [?|(j & Hj & Hm)]; [done|].
  destruct stk as [|h tl]; [by apply not_elem_of_nil in Ha|]. cbn [tail] in Hj. pose proof (stack_nodup _ _ Hs) as [Hnh _]%NoDup_cons.
  assert (live r j) as Hlj by (eapply stack_live; [done|by right]). pose proof (live_lt _ _ Hi Hlj) as Hltj.
  pose proof (live_lt _ _ Hi (stack_live _ _ h Hs ltac:(left))) as Hlth.
  assert (j <> idx) as Hji by (intros ->; apply Hn; by right).
  destruct (swap_state_spec r idx a Hw Hlive Hne) as (Hto & _). apply (swap_to_same _ _ _ _ (D_loc _ Hlt) Hto).
  - intros HmA. apply (inv_apart _ Hi) in HmA as [E Hna]; [|done..]. rewrite E in Hm, Hna.
    rewrite (narrow_one (src r idx) h j) in Hnh; done.
  - intros HmB. destruct (wide (src r a)) eqn:Hwa.
    + assert (wide (D idx) = true) as Hwi.
      { apply not_false_iff_true. intros Hf. by apply (sw_half _ _ Hw a); [..|apply meet_sym]. }
      apply Locs_apart in HmB; [|by apply inv_src|by apply D_loc|done..]. rewrite HmB in Hm. apply Hji. symmetry. by apply D_apart.
    + apply Hji. by apply (narrow_one (src r a)).
Qed.

Lemma swap_stack r idx stk : ready r idx stk -> swappable r idx -> stack_ok (swap_state r idx) stk.
Proof.
  intros Hr Hw. apply (stack_keeps r); [apply Hr| |by apply swap_keeps]. intros x. unfold pend.
  rewrite live_swap_state, dst_swap_state by done. destruct (decide (x = idx)) as [->|]; [|tauto]. split; [tauto|].
  intros [_ E]. exfalso. rewrite (ready_dst _ _ _ Hr) in E. pose proof (ready_live _ _ _ Hr).
  apply (Locs_valid (D idx)); [|done]. apply D_loc. by apply (live_lt r); [apply Hr|].
Qed.

(** A swap that closes a cycle. *)
Lemma post_swap r idx h tl :
  ready r idx (h :: tl) -> only_pending r idx (h :: tl) -> swappable r idx ->
  perform_post r (swap_state r idx) idx (h :: tl) None.
Proof.
  intros Hr Ho Hw. pose proof (fun x => live_swap_state r idx x Hw) as Hlv. pose proof (ready_stack _ _ _ Hr) as Hs.
  constructor; [|by apply swap_stack|by intros x [? _]%Hlv|by apply swap_keeps|].
  - apply (Inv_swap r idx h); [done|eapply stack_live; [done|left]| |apply Hr].
    intros ->. apply (ready_notin _ _ _ Hr). left.
  - left. split_and!; [done|rewrite Hlv; tauto|]. intros x j [Hx Hne]%Hlv Hxs Hj Hm.
    destruct (swap_meets r idx x j Hw Hx Hne) as [|[? _]]; try done.
    + apply (live_lt r); [apply Hr|by eapply stack_live].
    + intros ->. by apply (ready_notin _ _ _ Hr).
    + by destruct (Ho x).
Qed.

(** A swap that a move further up the chain asked for. *)
Lemma post_required r idx stk t :
  ready r idx stk -> swappable r idx -> live r t -> t <> idx -> t ∉ stk -> meet (src r idx) (D t) ->
  perform_post r (swap_state r idx) idx stk (Some idx).
Proof.
  intros Hr Hw Ht Hti Hts Hm. pose proof (fun x => live_swap_state r idx x Hw) as Hlv. pose proof (ready_stack _ _ _ Hr) as Hs.
  pose proof (ready_inv _ _ _ Hr) as Hi. pose proof (swap_keeps r idx stk Hr Hw) as Hk. pose proof (stack_nodup _ _ Hs) as Hn.
  constructor; [|by apply swap_stack|by intros x [? _]%Hlv|done|].
  - by apply (Inv_swap r idx t).
  - right. left. split_and!; [done|rewrite Hlv; tauto|]. intros x j [Hx Hne]%Hlv Hxs Hj Hmx.
    destruct stk as [|h tl]; [by apply not_elem_of_nil in Hj|]. cbn [tail] in *.
    destruct (decide (x = h)) as [->|Hxh].
    { destruct (last_tail h j tl Hn Hj) as [_ Hl]. rewrite <- (Hk h); [done|left|done]. }
    assert (j ∈ h :: tl) as Hj' by (by right). assert (live r h) as Hlh by (eapply stack_live; [done|left]).
    assert (live r j) as Hlj by (by eapply stack_live). apply NoDup_cons in Hn as [Hnh _].
    assert (j <> idx) by (intros ->; by apply (ready_notin _ _ _ Hr)).
    destruct (swap_meets r idx x j Hw Hx Hne) as [|[_ Hmj]]; try done; [by apply (live_lt r)|]. exfalso.
    apply (at_most_two (src r idx) t h j); try (by apply (live_lt r)); try done; [| |by intros ->|apply (ready_head _ _ _ Hr)].
    + intros ->. apply Hts. left.
    + by intros ->.
Qed.

Lemma ready_apart r idx stk : ready r idx stk -> src r idx <> D idx -> ~ meet (src r idx) (D idx).
Proof.
  intros [Hi _ Hl HC _ _ _] Hne Hm. pose proof (live_lt _ _ Hi Hl).
  apply Hne, same_size; [by apply inv_src|by apply D_loc|by apply inv_size|done].
Qed.

(** A pair that blocks one of its halves is the only move that does. *)
Lemma no_half_other r idx other :
  Inv r -> live r idx -> live r other -> meet (src r other) (D idx) -> (T other = true -> T idx = true) -> no_half r idx.
Proof.
  intros Hi Hl Ho Hm HT x Hx Hw Hn Hmx. pose proof (live_lt _ _ Hi Hl) as Hlt.
  assert (x = other) as ->.
  { destruct (decide (x = other)) as [|Hne]; [done|]. exfalso. apply meet_narrow in Hmx; [|done].
    apply meet_sym, meet_narrow in Hm; [|done].
    assert (meet (src r x) (src r other)) as Hxo by (apply meet_spec; by exists (D idx)).
    apply (inv_apart _ Hi) in Hxo as [_ ?]; [congruence|done..]. }
  pose proof (live_lt _ _ Hi Ho) as Hlto.
  apply (D_narrow idx (src r other)); try done; [|by apply (inv_wide _ Hi)]. apply HT, D_type; [done|]. by apply (wide_source r).
Qed.

Lemma finish_none r idx stk :
  Inv r -> stack_ok r (idx :: stk) -> (forall x, live r x -> x ∉ idx :: stk -> ~ meet (src r x) (D idx)) ->
  let r2 := update_move r idx (fun m => SetDestination m (D idx)) in
  exists r' res, finish_move r idx (D idx) None = Some (r', res) /\ perform_post r2 r' idx stk res.
Proof.
  intros Hi Hs Ho r2. pose proof (ready_pop r idx stk Hi Hs) as Hr. fold r2 in Hr.
  pose proof (ready_inv _ _ _ Hr) as Hi2. pose proof (ready_live _ _ _ Hr) as Hl2. pose proof (live_lt _ _ Hi2 Hl2) as Hlt.
  assert (forall x, src r2 x = src r x) as Hsrc by (intros x; apply src_set_dst; by rewrite (inv_length _ Hi)).
  assert (only_pending r2 idx stk) as Hop.
  { intros x Hx Hxs Hxi. rewrite Hsrc. apply Ho; [unfold live in *; by rewrite <- Hsrc|]. rewrite elem_of_cons. tauto. }
  unfold finish_move. change (update_move r idx (fun m => ClearPending m (D idx))) with r2. cbv zeta.
  rewrite (mv_ready _ _ _ Hr). cbn [mbind option_bind source_ destination_].
  destruct (Equals (src r2 idx) (D idx)) eqn:Eq.
  { apply Location_Equals_spec in Eq. eexists _, None. split; [done|]. rewrite <- (resolver_eta r2) at 2.
    apply post_drop; [done|]. rewrite resolver_eta. by apply Inv_eliminate. }
  assert (src r2 idx <> D idx) as Hne by (intros E; by apply Location_Equals_spec in E; congruence).
  destruct (list_find _ (moves_ r2)) as [[other om]|] eqn:Ef.
  - apply list_find_Some in Ef as (Hot & Hbl & _). assert (om = mv r2 other) as -> by (unfold mv; by rewrite Hot).
    apply Blocks_spec in Hbl as [Hol Hos]; [|done|by apply D_loc].
    assert (other <> idx) as Hoi by (intros ->; by apply (ready_apart _ _ _ Hr Hne)).
    assert (other ∈ stk) as Hin by (destruct (decide (other ∈ stk)); [done|by destruct (Hop other)]).
    change (Is64BitMove (Move (src r2 idx) (D idx) (type_ (mv r2 idx)))) with (Is64BitMove (mv r2 idx)).
    rewrite !(inv_type _ Hi2) by done. destruct (negb (T idx) && T other) eqn:ET.
    + apply andb_true_iff in ET as [_ ET]. eexists _, _. split; [done|]. constructor; [done|apply Hr|by intros x|by intros a|].
      right. right. exists other. split_and!; [done..| |by intros x j]. split; [done|]. exists idx. split_and!; [done|apply Hr|done].
    + destruct stk as [|h tl]; [by apply not_elem_of_nil in Hin|].
      eexists _, None. split; [unfold EmitSwap; rewrite (mv_ready _ _ _ Hr); done|]. cbn [source_ destination_].
      apply (post_swap r2); [done..|]. constructor; [done..|apply (ready_var _ _ _ Hr)|done|]. apply (no_half_other r2 idx other); [done..|].
      intros E. rewrite E in ET. destruct (T idx); done.
  - eexists _, None. split; [unfold EmitMove; rewrite (mv_ready _ _ _ Hr); done|]. cbn [source_ destination_].
    apply post_drop; [done|]. apply Inv_move; [done..|]. intros x Hx Hsx.
    apply list_find_None in Ef. rewrite Forall_lookup in Ef. apply (Ef x (mv r2 x)); [by apply live_lookup|].
    by apply Blocks_spec; [|apply D_loc|].
Qed.

Lemma finish_required r idx stk :
  Inv r -> stack_ok r (idx :: stk) -> wants_swap r (idx :: stk) idx ->
  let r2 := update_move r idx (fun m => SetDestination m (D idx)) in
  exists r', finish_move r idx (D idx) (Some idx) = Some (r', Some idx) /\ perform_post r2 r' idx stk (Some idx).
Proof.
  intros Hi Hs (HT & t & Ht & Hts & Hm) r2. pose proof (ready_pop r idx stk Hi Hs) as Hr. fold r2 in Hr.
  pose proof (ready_inv _ _ _ Hr) as Hi2. pose proof (ready_live _ _ _ Hr) as Hl2. pose proof (live_lt _ _ Hi2 Hl2) as Hlt.
  assert (forall x, src r2 x = src r x) as Hsrc by (intros x; apply src_set_dst; by rewrite (inv_length _ Hi)).
  rewrite elem_of_cons in Hts. assert (live r2 t) as Ht2 by (unfold live; by rewrite Hsrc). rewrite <- Hsrc in Hm.
  assert (src r2 idx <> D idx) as Hne.
  { intros E. rewrite E in Hm. apply Hts. left. symmetry. apply D_apart; [done|by apply (live_lt r2)|done]. }
  unfold finish_move. change (update_move r idx (fun m => ClearPending m (D idx))) with r2. cbv zeta.
  rewrite (mv_ready _ _ _ Hr). cbn [mbind option_bind source_ destination_].
  destruct (Equals (src r2 idx) (D idx)) eqn:Eq; [by apply Location_Equals_spec in Eq|].
  unfold EmitSwap. rewrite (mv_ready _ _ _ Hr). cbn [mbind option_bind source_ destination_].
  exists (swap_state r2 idx). split; [done|]. apply (post_required r2 idx stk t); try done; try tauto.
  constructor; [done..|apply (ready_var _ _ _ Hr)|done|]. intros x Hx Hw Hn. apply D_narrow; [done..|by apply (inv_wide _ Hi2)|done].
Qed.

(** *** Fuel *)

(** The moves that are left. *)
Definition nlive (r : resolver) : nat := length (filter (fun x => src r x <> NoLocation) (seq 0 n)).

Lemma nlive_le r r' : below r r' -> (nlive r' <= nlive r)%nat.
Proof.
  intros Hb. apply submseteq_length, NoDup_submseteq; [apply NoDup_filter, NoDup_seq|].
  intros x [Hx Hin]%list_elem_of_filter. apply list_elem_of_filter. split; [by apply Hb|done].
Qed.

Lemma nlive_lt r r' i : below r r' -> (i < n)%nat -> live r i -> ~ live r' i -> (nlive r' < nlive r)%nat.
Proof.
  intros Hb Hlt Hl Hd. change (length (i :: filter (fun x => src r' x <> NoLocation) (seq 0 n)) <= nlive r)%nat.
  apply submseteq_length, NoDup_submseteq.
  - apply NoDup_cons. split; [by intros [? _]%list_elem_of_filter|apply NoDup_filter, NoDup_seq].
  - intros x [->|[Hx Hin]%list_elem_of_filter]%elem_of_cons; apply list_elem_of_filter.
    + split; [done|]. apply elem_of_seq. lia.
    + split; [by apply Hb|done].
Qed.

Lemma nlive_n r : (nlive r <= n)%nat.
Proof. unfold nlive. rewrite <- (length_seq n 0) at 2. apply submseteq_length, sublist_submseteq, sublist_filter. Qed.

(** Fuel for a call with the moves of the stack pending. *)
Definition enough (stk : list nat) : nat := (n + 2) * (n + 2) * (n - length stk).

Definition perform_spec (fuel : nat) : Prop := forall r idx stk,
  Inv r -> stack_ok r stk -> live r idx -> C idx = false -> idx ∉ stk ->
  match stk with [] => True | h :: _ => meet (src r idx) (D h) end -> (enough stk <= fuel)%nat ->
  exists r' res, PerformMove fuel r idx = Some (r', res) /\ perform_post r r' idx stk res.

Definition loop_spec (fuel : nat) : Prop := forall r idx stk i,
  Inv r -> stack_ok r (idx :: stk) -> (i <= n)%nat ->
  (forall x, (x < i)%nat -> live r x -> x ∉ idx :: stk -> ~ meet (src r x) (D idx)) ->
  (n - i + 1 + (n + 2) * nlive r + enough (idx :: stk) <= fuel)%nat ->
  exists r' e, blocking_loop fuel r idx (D idx) i = Some (r', e) /\ loop_post r r' idx stk e.

(** *** The loop *)

Lemma loop_trans r r1 r2 idx stk e :
  below r r1 -> keeps r r1 (idx :: stk) -> quiet r r1 stk -> loop_post r1 r2 idx stk e -> loop_post r r2 idx stk e.
Proof.
  intros Hb Hk Hq [Hi2 Hs2 Hb2 Hk2 Hq2 Hres2].
  constructor; [done..|by eapply below_trans|by eapply keeps_trans|by eapply quiet_trans|done].
Qed.

(** Move [i] does not block, or it is pending. *)
Lemma loop_skip r idx stk i :
  Inv r -> stack_ok r (idx :: stk) -> (idx < n)%nat ->
  Blocks (mv r i) (D idx) && negb (IsPending (mv r i)) = false ->
  live r i -> i ∉ idx :: stk -> ~ meet (src r i) (D idx).
Proof.
  intros Hi Hs Hlt Eb Hl Hni Hm. rewrite (proj2 (Blocks_spec r i (D idx) Hi (D_loc _ Hlt))) in Eb by done. simpl in Eb.
  apply negb_false_iff in Eb. by apply Hni, (is_pending _ _ _ Hs Hl).
Qed.

(** The loop after the call for move [i]. *)
Lemma loop_after fuel r r1 idx stk i res :
  loop_spec fuel -> (i < n)%nat -> live r i -> i ∉ idx :: stk ->
  (forall x, (x < i)%nat -> live r x -> x ∉ idx :: stk -> ~ meet (src r x) (D idx)) ->
  (n - i + (n + 2) * nlive r + enough (idx :: stk) <= fuel)%nat ->
  perform_post r r1 i (idx :: stk) res ->
  exists r' e,
    (if decide (res = Some idx) then Some (r1, LoopDone res)
     else if decide (res = Some i) then blocking_loop fuel r1 idx (D idx) 0
     else if decide (res = None) then blocking_loop fuel r1 idx (D idx) (S i)
     else Some (r1, LoopReturn res)) = Some (r', e) /\ loop_post r r' idx stk e.
Proof.
  intros HL Hlt Hli Hni Hpast Hf [Hi1 Hs1 Hb1 Hk1 Hres]. pose proof (stack_nodup _ _ Hs1) as Hn.
  assert (i <> idx) as Hii by (intros ->; apply Hni; left).
  destruct Hres as [(-> & Hd & Hq)|[(-> & Hd & Hq)|(b & -> & Hb & Hw & Hq)]].
  - rewrite !decide_False by done. rewrite decide_True by done. pose proof (nlive_le _ _ Hb1).
    destruct (HL r1 idx stk (S i)) as (r2 & e & -> & Hpost); [done|done|lia| |nia|].
    + intros x Hxi Hx Hxs Hsx. destruct (decide (x = i)) as [->|]; [done|].
      apply (Hpast x); [lia|by apply Hb1|done|]. apply (Hq x idx); [done..|left|done].
    + exists r2, e. split; [done|]. eapply loop_trans; [done..| |done]. by apply (quiet_tail _ _ (idx :: stk)).
  - rewrite decide_False by congruence. rewrite decide_True by done. pose proof (nlive_lt _ _ i Hb1 Hlt Hli Hd).
    destruct (HL r1 idx stk 0%nat) as (r2 & e & -> & Hpost); [done|done|lia|intros; lia|nia|].
    exists r2, e. split; [done|]. by eapply loop_trans.
  - pose proof (quiet_tail _ _ _ Hn Hk1 Hq) as Hq'. cbn [tail] in Hq'.
    assert (Some b <> Some i) as Hbi by (intros [= ->]; done).
    destruct (decide (Some b = Some idx)) as [[= ->]|Hbx].
    + eexists _, _. split; [done|]. constructor; [done..|]. right. exists idx. rewrite decide_True by done. done.
    + rewrite !decide_False by done. eexists _, _. split; [done|]. constructor; [done..|]. right. exists b.
      rewrite decide_False by congruence. done.
Qed.

Lemma loop_step fuel : perform_spec fuel -> loop_spec fuel -> loop_spec (S fuel).
Proof.
  intros HP HL r idx stk i Hi Hs Hin Hpast Hf. cbn [blocking_loop]. rewrite (inv_length _ Hi).
  pose proof (stack_live _ _ idx Hs ltac:(left)) as Hlidx. pose proof (live_lt _ _ Hi Hlidx) as Hltidx.
  destruct (Nat.ltb_spec i n) as [Hlt|Hge].
  2:{ eexists _, _. split; [done|]. constructor; [done|done|by intros x|by intros a|by intros x j|]. left. split; [done|].
      intros x Hx. apply Hpast; [|done]. pose proof (live_lt _ _ Hi Hx). lia. }
  assert (moves_ r !! i = Some (mv r i)) as Hlk.
  { unfold mv. destruct (lookup_lt_is_Some_2 (moves_ r) i) as [m ->]; [by rewrite (inv_length _ Hi)|done]. }
  rewrite Hlk. cbn [mbind option_bind].
  destruct (Blocks (mv r i) (D idx) && negb (IsPending (mv r i))) eqn:Eb.
  2:{ apply HL; [done|done|lia| |lia]. intros x Hxi Hx Hxs. destruct (decide (x = i)) as [->|]; [|apply Hpast; [lia|done..]].
      by apply (loop_skip r idx stk i). }
  apply andb_true_iff in Eb as [Hb Hnp%negb_true_iff].
  apply Blocks_spec in Hb as [Hli Hsi]; [|done|by apply D_loc].
  pose proof (not_pending _ _ _ Hs Hli Hnp) as Hnin.
  destruct (HP r i (idx :: stk)) as (r1 & res & -> & Hpost); [done..|by apply (blocker_variable r i idx)|done|done|lia|].
  cbn [mbind option_bind]. apply (loop_after fuel r r1 idx stk i res); [done..|lia|done].
Qed.

(** *** The call *)

Lemma post_trans r r' r'' idx stk res :
  below r r' -> keeps r r' stk -> quiet r r' stk -> perform_post r' r'' idx stk res -> perform_post r r'' idx stk res.
Proof.
  intros Hb Hk Hq [Hi'' Hs'' Hb'' Hk'' Hres]. pose proof (stack_nodup _ _ Hs'') as Hn.
  constructor; [done..|by eapply below_trans|by eapply keeps_trans|].
  destruct Hres as [(-> & Hd & Hq'')|[(-> & Hd & Hq'')|(b & -> & Hb2 & Hw & Hq'')]].
  - left. split_and!; [done..|by eapply quiet_trans].
  - right. left. split_and!; [done..|]. eapply quiet_trans; [done| |done]. by apply quiet_tail.
  - right. right. exists b. split_and!; [done..|by eapply quiet_trans].
Qed.

Lemma set_dst_post r i l stk :
  live r i -> let r' := update_move r i (fun m => SetDestination m l) in
  (below r r' /\ keeps r r' stk /\ quiet r r' stk) /\ (below r' r /\ keeps r' r stk /\ quiet r' r stk).
Proof.
  intros Hl r'. pose proof (fun x => src_set_dst r i l x (live_in _ _ Hl)) as Hs. fold r' in Hs.
  unfold below, keeps, quiet, live. setoid_rewrite Hs. split; split_and!; intros; auto.
Qed.

(** From the state before the call to the one after the loop, with the mark cleared. *)
Lemma loop_back r r' idx stk e :
  live r idx -> idx ∉ stk ->
  loop_post (update_move r idx (fun m => SetDestination m NoLocation)) r' idx stk e ->
  let r2 := update_move r' idx (fun m => SetDestination m (D idx)) in
  below r r2 /\ keeps r r2 stk /\ quiet r r2 stk.
Proof.
  intros Hl Hn [Hi' Hs' Hb' Hk' Hq' _] r2. pose proof (stack_live _ _ idx Hs' ltac:(left)) as Hl'.
  destruct (set_dst_post r idx NoLocation stk Hl) as [(B1 & K1 & Q1) _].
  destruct (set_dst_post r' idx (D idx) stk Hl') as [(B2 & K2 & Q2) _]. fold r2 in B2, K2, Q2.
  pose proof (keeps_tail _ _ _ _ (stack_nodup _ _ Hs') Hk') as Hk.
  split_and!; [do 2 (eapply below_trans; [|done]); done|do 2 (eapply keeps_trans; [|done]); done|].
  do 2 (eapply quiet_trans; [done| |done]). done.
Qed.

Lemma perform_step fuel : loop_spec fuel -> perform_spec (S fuel).
Proof.
  intros HL r idx stk Hi Hs Hl HC Hn Hh Hf. pose proof (ready_start r idx stk Hi Hs Hl HC Hn Hh) as Hr.
  pose proof (live_lt _ _ Hi Hl) as Hlt. cbn [PerformMove]. rewrite (mv_ready _ _ _ Hr). cbn [mbind option_bind destination_].
  destruct (IsRedundant _) eqn:Er.
  { eexists _, None. split; [done|]. rewrite <- (resolver_eta r) at 2. apply post_drop; [done|]. rewrite resolver_eta.
    apply Inv_eliminate; [done..|]. unfold IsRedundant, IsEliminated in Er. cbn [source_ destination_] in Er.
    unfold IsInvalid in Er. rewrite (proj2 (IsValid_spec _) Hl) in Er.
    rewrite (proj2 (IsValid_spec (D idx))) in Er by (by apply Locs_valid, D_loc). by apply Location_Equals_spec. }
  change (update_move r idx (fun m => (MarkPending m).1)) with (update_move r idx (fun m => SetDestination m NoLocation)).
  set (r1 := update_move r idx _). assert (Inv r1) as Hi1 by (apply Inv_set_dst; [done..|by right|done]).
  assert (stack_ok r1 (idx :: stk)) as Hs1 by (by apply stack_push). pose proof (stack_length n _ _ (inv_length _ Hi1) Hs1) as Hsl.
  destruct (HL r1 idx stk 0%nat) as (r' & e & -> & Hpost); [done|done|lia|intros; lia| |].
  { unfold enough in *. cbn [length] in *. replace (n - length stk)%nat with (S (n - S (length stk))) in Hf by lia.
    pose proof (nlive_n r1). nia. }
  cbn [mbind option_bind]. destruct (loop_back _ _ _ _ _ Hl Hn Hpost) as (Hb & Hk & Hq). destruct Hpost as [Hi' Hs' _ _ _ Hres].
  destruct Hres as [(-> & Hno)|(b & Hbin & Hw & ->)].
  - destruct (finish_none r' idx stk Hi' Hs' Hno) as (r'' & res & -> & Hpp). exists r'', res. split; [done|].
    by eapply post_trans.
  - destruct (decide (b = idx)) as [->|Hbi].
    + destruct (finish_required r' idx stk Hi' Hs' Hw) as (r'' & -> & Hpp). exists r'', (Some idx). split; [done|].
      by eapply post_trans.
    + eexists _, (Some b). split; [done|]. pose proof (ready_pop r' idx stk Hi' Hs') as Hr2.
      assert (forall x, src (update_move r' idx (fun m => SetDestination m (D idx))) x = src r' x) as Hsrc.
      { intros x. apply src_set_dst. by rewrite (inv_length _ Hi'). }
      constructor; [apply Hr2|apply Hr2|done|done|]. right. right. exists b. destruct Hw as (HT & t & Ht & Hts & Hm).
      rewrite elem_of_cons in Hbin, Hts. split_and!; [done|tauto| |done]. split; [done|]. exists t. unfold live. rewrite !Hsrc.
      split_and!; [done|tauto|done].
Qed.

Lemma perform_correct fuel : perform_spec fuel /\ loop_spec fuel.
Proof.
  induction fuel as [|fuel [IHp IHl]].
  - split.
    + intros r idx stk Hi Hs Hl HC Hn Hh Hf. exfalso. unfold enough in Hf.
      pose proof (stack_length n _ _ (inv_length _ (Inv_set_dst r idx NoLocation Hi Hl ltac:(by right) HC))
        (stack_push r stk idx Hs Hl Hn Hh)) as Hsl. cbn [length] in Hsl. nia.
    + intros r idx stk i Hi Hs Hin Hp Hf. lia.
  - split; [by apply perform_step|by apply loop_step].
Qed.

(** ** The passes over the moves *)

Lemma mv_lookup r i : Inv r -> (i < n)%nat -> moves_ r !! i = Some (mv r i).
Proof.
  intros Hi Hlt. unfold mv. rewrite <- (inv_length _ Hi) in Hlt. by apply lookup_lt_is_Some_2 in Hlt as [m ->].
Qed.

Lemma perform_selected_spec select r indexes :
  (forall m, select m = true -> IsEliminated m = false /\ IsConstant (source_ m) = false) ->
  Forall (fun i => i < n)%nat indexes -> Inv r -> stack_ok r [] ->
  exists r', perform_selected select r indexes = Some r' /\ Inv r' /\ stack_ok r' [] /\ below r r' /\
    forall i, i ∈ indexes -> live r' i -> exists r1, Inv r1 /\ live r1 i /\ select (mv r1 i) = false.
Proof.
  intros Hsel Hix. revert r. induction Hix as [|i indexes Hlt Hix IH]; intros r Hi Hs; cbn [perform_selected].
  - exists r. split_and!; [done..|by intros x|]. intros i Hin. by apply not_elem_of_nil in Hin.
  - rewrite (mv_lookup _ _ Hi Hlt). cbn [mbind option_bind].
    assert (exists r1, (if select (mv r i) then fst <$> PerformMove (perform_fuel (moves_ r)) r i else Some r) = Some r1 /\
      Inv r1 /\ stack_ok r1 [] /\ below r r1 /\ (live r1 i -> exists r2, Inv r2 /\ live r2 i /\ select (mv r2 i) = false))
      as (r1 & -> & Hi1 & Hs1 & Hb1 & Hl1).
    { destruct (select (mv r i)) eqn:Es; [|exists r; split_and!; [done..|by intros x|by exists r]].
      destruct (Hsel _ Es) as [Hl%IsEliminated_spec Hv]. change (source_ (mv r i)) with (src r i) in Hv.
      rewrite (inv_const _ Hi i Hl) in Hv.
      destruct (proj1 (perform_correct (perform_fuel (moves_ r))) r i []) as (r1 & res & -> & [Hi1 Hs1 Hb1 _ Hres]); try done.
      - apply not_elem_of_nil.
      - unfold enough, perform_fuel. rewrite (inv_length _ Hi). cbn [length]. nia.
      - exists r1. split_and!; try done. intros Hl1. exfalso.
        destruct Hres as [(_ & ? & _)|[(_ & ? & _)|(b & _ & Hin & _)]]; [done..|by apply not_elem_of_nil in Hin]. }
    cbn [mbind option_bind]. destruct (IH r1 Hi1 Hs1) as (r' & -> & Hi' & Hs' & Hb' & Hl').
    exists r'. split_and!; try done; [by eapply below_trans|].
    intros j Hj Hlj. apply elem_of_cons in Hj as [->|Hj]; [|by apply Hl']. apply Hl1, Hb', Hlj.
Qed.

(** With only constant sources left nothing blocks a move. *)
Lemma perform_constants_spec r indexes :
  Forall (fun i => i < n)%nat indexes -> Inv r -> stack_ok r [] -> (forall x, live r x -> C x = true) ->
  exists r', perform_constants r indexes = Some r' /\ Inv r' /\ below r r' /\ forall i, i ∈ indexes -> ~ live r' i.
Proof.
  intros Hix. revert r. induction Hix as [|i indexes Hlt Hix IH]; intros r Hi Hs HC; cbn [perform_constants].
  - exists r. split_and!; [done..|by intros x|]. intros i Hin. by apply not_elem_of_nil in Hin.
  - rewrite (mv_lookup _ _ Hi Hlt). cbn [mbind option_bind]. destruct (IsEliminated (mv r i)) eqn:Ee; cbn [negb].
    + cbn [mbind option_bind]. destruct (IH r Hi Hs HC) as (r' & -> & Hi' & Hb' & Hd'). exists r'. split_and!; try done.
      intros j Hj. apply elem_of_cons in Hj as [->|Hj]; [|by apply Hd']. intros Hl%Hb'%IsEliminated_spec. congruence.
    + apply IsEliminated_spec in Ee as Hl.
      assert (dst r i = D i) as Hd.
      { destruct (inv_dst _ Hi i Hl) as [|Hd]; [done|]. exfalso. pose proof (HC i Hl).
        pose proof (inv_pending _ Hi i (conj Hl Hd)). congruence. }
      unfold EmitMove. rewrite (mv_lookup _ _ Hi Hlt). cbn [mbind option_bind].
      change (destination_ (mv r i)) with (dst r i). change (source_ (mv r i)) with (src r i). rewrite Hd.
      set (r1 := update_move _ i Eliminate).
      assert (Inv r1) as Hi1.
      { apply Inv_move; [done..|]. intros x Hx Hsx. pose proof (HC x Hx) as Hc.
        by rewrite (blocker_variable r x i) in Hc. }
      destruct (IH r1) as (r' & -> & Hi' & Hb' & Hd'); [done| | |].
      * apply stack_drop; [done..|apply not_elem_of_nil].
      * intros x [Hx _]%live_drop; [|done..]. by apply HC.
      * exists r'. split_and!; try done; [intros x [? _]%Hb'%live_drop; done|].
        intros j Hj. apply elem_of_cons in Hj as [->|Hj]; [|by apply Hd']. intros [_ ?]%Hb'%live_drop; done.
Qed.

Lemma passes_correct r :
  Inv r -> stack_ok r [] ->
  exists r', (r ← perform_selected stack_to_stack r (seq 0 (length (moves_ r)));
              r ← perform_selected not_constant r (seq 0 n);
              perform_constants r (seq 0 n)) = Some r' /\
    forall l, wide l = false -> ~ spare l -> now r' l = final l.
Proof.
  intros Hi Hs. rewrite (inv_length _ Hi).
  assert (Forall (fun i => i < n)%nat (seq 0 n)) as Hix by (apply Forall_seq; lia).
  destruct (perform_selected_spec stack_to_stack r (seq 0 n)) as (r1 & -> & Hi1 & Hs1 & Hb1 & _); [|done..|].
  { intros m. unfold stack_to_stack. by destruct (IsEliminated m), (IsConstant (source_ m)). }
  cbn [mbind option_bind].
  destruct (perform_selected_spec not_constant r1 (seq 0 n)) as (r2 & -> & Hi2 & Hs2 & Hb2 & Hl2); [|done..|].
  { intros m. unfold not_constant. by destruct (IsEliminated m), (IsConstant (source_ m)). }
  cbn [mbind option_bind].
  destruct (perform_constants_spec r2 (seq 0 n)) as (r3 & -> & Hi3 & Hb3 & Hd3); [done..| |].
  { intros x Hx. destruct (Hl2 x) as (rr & Hir & Hlr & Hsel); [apply elem_of_seq; pose proof (live_lt _ _ Hi2 Hx); lia|done|].
    rewrite <- (inv_const _ Hir x Hlr). unfold not_constant in Hsel. apply IsEliminated_spec in Hlr. rewrite Hlr in Hsel.
    simpl in Hsel. by apply negb_false_iff. }
  exists r3. split; [done|]. intros l Hw Hsp. apply (inv_done _ Hi3); [done..|]. intros x Hx. exfalso. apply (Hd3 x); [|done].
  apply elem_of_seq. pose proof (live_lt _ _ Hi3 Hx). lia.
Qed.
End pairs.

(** ** Sets of moves *)

(** [P] holds of every two moves. *)
Definition each_two (pm : list MoveOperands) (P : MoveOperands -> MoveOperands -> Prop) : Prop :=
  Forall (fun m => Forall (P m) pm) pm.

(** The operands and their halves. *)
Definition places (wide : Location -> bool) (pm : list MoveOperands) : list Location :=
  locations pm ++ (locations pm ≫= cells wide).

(** Two places [a] and [b] overlap only if they share a cell, and two pairs that do are the same:
    what [OverlapsWith] checks in debug builds. *)
Definition places_ok (wide : Location -> bool) (a b : Location) : Prop :=
  (OverlapsWith a b = true -> meet wide a b) /\
  (wide a = true -> wide b = true -> meet wide a b -> a = b).

(** The moves of a machine on which the locations [wide] are pairs of words. *)
Record moves_ok (wide : Location -> bool) (pm : list MoveOperands) : Prop := {
  (** What [AddMove] checks. *)
  ok_valid : valid_moves pm;
  ok_destinations : each_two pm (fun m m' => meet wide (destination_ m) (destination_ m') -> m = m');
  (** Only pairs and double stack slots have halves, and they are different. *)
  ok_halves : Forall (fun l => wide l = true -> has_halves l = true /\ LowOf l <> HighOf l) (places wide pm);
  ok_places : Forall (fun a => Forall (places_ok wide a) (places wide pm)) (places wide pm);
  (** Source and destination have the same size, apart from constants, and a pair holds 64 bits. *)
  ok_sizes : Forall (fun m => IsConstant (source_ m) = true \/ wide (source_ m) = wide (destination_ m)) pm;
  ok_types : Forall (fun m => wide (destination_ m) = true -> Is64BitMove m = true) pm;
  (** A register that takes 64 bits is not half of a pair. *)
  ok_registers : each_two pm (fun m m' => Is64BitMove m = true -> wide (destination_ m) = false ->
                   wide (source_ m') = true -> ~ meet wide (destination_ m) (source_ m'));
  (** No two moves read the same pair, or a pair and one of its halves. *)
  ok_sources : each_two pm (fun m m' => m <> m' -> meet wide (source_ m) (source_ m') ->
                 source_ m = source_ m' /\ wide (source_ m) = false) }.

(** A half of a pair that is read, when the other half is overwritten and it is not: the pair is
    dead after the moves, and a swap of it leaves something else here. *)
Definition spare (wide : Location -> bool) (pm : list MoveOperands) (l : Location) : Prop :=
  exists m m', m ∈ pm /\ m' ∈ pm /\ wide (source_ m) = true /\ l ∈ cells wide (source_ m) /\
    meet wide (source_ m) (destination_ m') /\ forall m2, m2 ∈ pm -> l ∉ cells wide (destination_ m2).

#[global] Instance each_two_dec pm P `{!forall m m', Decision (P m m')} : Decision (each_two pm P).
Proof. unfold each_two. apply _. Defined.

#[global] Instance places_ok_dec wide a b : Decision (places_ok wide a b).
Proof. unfold places_ok. apply _. Defined.

Lemma each_two_spec pm P m m' : each_two pm P -> m ∈ pm -> m' ∈ pm -> P m m'.
Proof. unfold each_two. rewrite Forall_forall. intros H Hm Hm'. specialize (H m Hm). rewrite Forall_forall in H. by apply H. Qed.

Section initial_pairs.
Context (wide : Location -> bool) (pm : list MoveOperands) (Hok : moves_ok wide pm).
#[local] Set Default Proof Using "Hok".
Abbreviation ms := (BuildInitialMoveList pm).
Abbreviation r0 := (Resolver ms []).
Abbreviation Locs := (fun l => l ∈ places wide pm).
Abbreviation Src := (fun l => exists x, live r0 x /\ src r0 x = l).

Lemma initial_in x : (x < length ms)%nat -> mv r0 x ∈ pm /\ live r0 x.
Proof.
  intros Hx%(initial_live pm (ok_valid _ _ Hok)). split; [|done]. by apply (initial_elem pm (ok_valid _ _ Hok)).
Qed.

Lemma initial_lt x : live r0 x -> (x < length ms)%nat.
Proof. apply (live_in r0). Qed.

Lemma operand_place l : l ∈ locations pm -> Locs l.
Proof. intros Hl. apply elem_of_app. by left. Qed.

Lemma source_place m : m ∈ pm -> Locs (source_ m).
Proof. intros Hm. apply operand_place, elem_of_app. left. by apply (list_elem_of_fmap_2 source_). Qed.

Lemma destination_place m : m ∈ pm -> Locs (destination_ m).
Proof. intros Hm. apply operand_place, elem_of_app. right. by apply (list_elem_of_fmap_2 destination_). Qed.

Lemma place_halves l : Locs l -> wide l = true -> has_halves l = true /\ LowOf l <> HighOf l.
Proof. pose proof (ok_halves _ _ Hok) as H. rewrite Forall_forall in H. apply H. Qed.

Lemma places_spec a b : Locs a -> Locs b -> places_ok wide a b.
Proof.
  intros Ha Hb. pose proof (ok_places _ _ Hok) as H. rewrite Forall_forall in H. specialize (H a Ha).
  rewrite Forall_forall in H. by apply H.
Qed.

Lemma operand_cell l c : l ∈ locations pm -> c ∈ cells wide l -> Locs c.
Proof. intros Hl Hc. apply elem_of_app. right. apply list_elem_of_bind. by exists l. Qed.

(** A place is an operand or half of one. *)
Lemma place_cases l :
  Locs l -> l ∈ locations pm \/ exists p, p ∈ locations pm /\ wide p = true /\ (l = LowOf p \/ l = HighOf p).
Proof.
  intros [?|(p & Hc & Hp)%list_elem_of_bind]%elem_of_app; [by left|]. destruct (wide p) eqn:Hw.
  - right. exists p. by apply cells_wide in Hc.
  - left. by apply cells_narrow in Hc as ->.
Qed.

Lemma place_valid l : Locs l -> l <> NoLocation.
Proof.
  intros [Hl|(p & Hp & Hw & E)]%place_cases.
  - apply elem_of_app in Hl as [(m & -> & Hm)%(list_elem_of_fmap_1 _)|(m & -> & Hm)%(list_elem_of_fmap_1 _)];
      by apply (initial_valid pm (ok_valid _ _ Hok)) in Hm as (? & ? & _).
  - destruct (place_halves p) as [Hh _]; [by apply operand_place|done|].
    destruct (has_halves_parts p Hh) as ((? & _) & (? & _) & _). by destruct E as [->| ->].
Qed.

Lemma place_half l : Locs l -> wide l = true -> Locs (LowOf l) /\ Locs (HighOf l).
Proof.
  intros Hl Hw. pose proof (place_halves l Hl Hw) as [Hh _]. destruct (place_cases l Hl) as [Ho|(p & Hp & Hwp & E)].
  - split; apply (operand_cell l); try done; apply cells_wide; auto.
  - exfalso. destruct (place_halves p) as [Hp' _]; [by apply operand_place|done|].
    destruct (has_halves_parts p Hp') as ((_ & _ & H1) & (_ & _ & H2) & _). destruct E as [->| ->]; congruence.
Qed.

Lemma initial_apart x y : (x < length ms)%nat -> (y < length ms)%nat -> meet wide (dst r0 x) (dst r0 y) -> x = y.
Proof.
  intros Hx Hy Hm. apply (initial_destinations pm (ok_valid _ _ Hok)); [done..|].
  unfold dst. apply (f_equal destination_), (each_two_spec _ _ _ _ (ok_destinations _ _ Hok)); [by apply initial_in..|done].
Qed.

Lemma initial_sources x y :
  live r0 x -> live r0 y -> x <> y -> meet wide (src r0 x) (src r0 y) -> src r0 x = src r0 y /\ wide (src r0 x) = false.
Proof.
  intros Hx%initial_lt Hy%initial_lt Hne Hm. apply (each_two_spec _ _ _ _ (ok_sources _ _ Hok)); [by apply initial_in..| |done].
  intros E. apply Hne, (initial_destinations pm (ok_valid _ _ Hok)); [done..|]. unfold dst. by rewrite E.
Qed.

Lemma initial_spare A l y :
  Src A -> wide A = true -> l ∈ cells wide A -> (y < length ms)%nat -> meet wide A (dst r0 y) ->
  (forall x, (x < length ms)%nat -> l ∉ cells wide (dst r0 x)) -> spare wide pm l.
Proof.
  intros (x & Hx & <-) Hw Hl Hy Hm Hno. apply initial_lt in Hx. destruct (initial_in x Hx) as [Hin Hlive].
  exists (mv r0 x), (mv r0 y). split_and!; try done; [by apply initial_in|]. intros m2 Hm2 Hc.
  destruct (IsRedundant m2) eqn:Er.
  - destruct (initial_valid pm (ok_valid _ _ Hok) m2 Hm2) as (Vs%IsValid_spec & Vd%IsValid_spec & _).
    unfold IsRedundant, IsEliminated, IsInvalid in Er. rewrite Vs, Vd in Er. simpl in Er. apply Location_Equals_spec in Er.
    assert (meet wide (src r0 x) (source_ m2)) as Hme by (apply meet_spec; exists l; by rewrite Er).
    apply (each_two_spec _ _ _ _ (ok_sources _ _ Hok) Hin Hm2) in Hme as [_ ?]; [unfold src in *; congruence|].
    intros E. apply (initial_elem pm (ok_valid _ _ Hok)) in Hlive as [_ Hms]. apply list_elem_of_filter in Hms as [Hr _]. rewrite E in Hr.
    unfold IsRedundant, IsEliminated, IsInvalid in Hr. rewrite Vs, Vd in Hr. simpl in Hr. by apply bool_decide_eq_false in Hr.
  - assert (m2 ∈ ms) as Hms by (by apply list_elem_of_filter). apply list_elem_of_lookup_1 in Hms as [z Hz].
    apply (Hno z); [by eapply lookup_lt_Some|]. unfold dst, mv. cbn [moves_]. by rewrite Hz.
Qed.

Lemma initial_Inv {V : Type} (lo hi : V -> V) (s0 : Location -> V) :
  Inv wide lo hi s0 (parallel wide lo hi pm s0) (length ms) (dst r0) (fun x => Is64BitMove (mv r0 x))
    (fun x => IsConstant (src r0 x)) Locs Src (spare wide pm) r0.
Proof.
  pose proof (ok_valid _ _ Hok) as Hv. constructor.
  - done.
  - apply (initial_dead pm Hv).
  - by left.
  - done.
  - intros x [Hx _]%initial_lt%initial_in. by apply source_place.
  - done.
  - intros x [Hx _]%initial_lt%initial_in HC. pose proof (ok_sizes _ _ Hok) as Hs. rewrite Forall_forall in Hs.
    destruct (Hs _ Hx) as [E|E]; [unfold src in HC; congruence|done].
  - intros x [Hx Hd]. exfalso. apply initial_lt, initial_in in Hx as [Hx _]. by apply (initial_valid pm Hv) in Hx as (_ & ? & _).
  - intros x c Hx Hc. apply (initial_sem wide lo hi s0 pm Hv); try done. intros m m' Hm Hm'.
    by apply (each_two_spec _ _ _ _ (ok_destinations _ _ Hok)).
  - apply initial_sources.
  - intros x Hx _. by exists x.
  - intros e x He Hd. by destruct Hd; apply initial_in.
  - intros l _ _ Hl. by apply (initial_done wide lo hi s0 pm Hv).
Qed.

Lemma EmitNativeCode_correct {V : Type} (lo hi : V -> V) (s0 : Location -> V) :
  exists code, EmitNativeCode pm = Some code /\
    forall l, wide l = false -> ~ spare wide pm l -> exec_all wide lo hi s0 code l = parallel wide lo hi pm s0 l.
Proof.
  pose proof (ok_valid _ _ Hok) as Hv.
  assert (forall x, (x < length ms)%nat -> mv r0 x ∈ pm) as Hin by (intros x Hx; by apply initial_in).
  destruct (passes_correct wide lo hi s0 (parallel wide lo hi pm s0) (length ms) (dst r0) (fun x => Is64BitMove (mv r0 x))
    (fun x => IsConstant (src r0 x)) Locs Src (spare wide pm)) with (r := r0) as (r' & Hr & Hl).
  - intros x Hx%Hin. by apply destination_place.
  - intros x Hx%Hin. by apply (initial_valid pm Hv).
  - apply initial_apart.
  - intros x Hx%Hin. pose proof (ok_types _ _ Hok) as Ht. rewrite Forall_forall in Ht. by apply Ht.
  - intros x l Hx HT Hw (y & Hy & <-). apply initial_lt in Hy. intros Hwl. by apply (each_two_spec _ _ _ _ (ok_registers _ _ Hok)); [apply Hin|apply Hin|..].
  - apply place_valid.
  - apply place_halves.
  - apply place_half.
  - intros a b Ha Hb. by apply places_spec.
  - intros a b Ha Hb. by apply places_spec.
  - apply initial_spare.
  - apply initial_Inv.
  - apply (initial_stack pm Hv).
  - exists (emitted_ r'). split; [|exact Hl]. unfold EmitNativeCode. cbv zeta.
    cbn [moves_] in Hr |- *. destruct (perform_selected _ r0 _) as [r1|]; [|done]. cbn [mbind option_bind] in *.
    destruct (perform_selected _ r1 _) as [r2|]; [|done]. cbn [mbind option_bind] in *. by rewrite Hr.
Qed.
End initial_pairs.

(** Without wide locations the moves only have to be such that locations that overlap are equal, and
    every location gets its value. *)
Lemma flat_moves_ok pm :
  valid_moves pm -> no_partial_overlap pm ->
  moves_ok (fun _ => false) pm /\ forall l, ~ spare (fun _ => false) pm l.
Proof.
  intros Hv Hf. split; [|by intros l (m & m' & _ & _ & ? & _)].
  assert (forall l, l ∈ places (fun _ => false) pm -> l ∈ locations pm) as Hpl.
  { intros l [?|(p & Hc & Hp)%list_elem_of_bind]%elem_of_app; [done|]. by apply cells_narrow in Hc as ->. }
  constructor; unfold each_two; try apply Forall_forall; try done; try (intros m Hm; apply Forall_forall; intros m' Hm'; try done).
  - rewrite meet_narrow, cells_narrow by done. intros E. destruct Hv as [_ Hn].
    apply list_elem_of_lookup_1 in Hm as [i Hi], Hm' as [j Hj].
    assert (i = j) as <-; [|congruence]. eapply NoDup_lookup; [exact Hn| |].
    + change (map destination_ pm) with (destination_ <$> pm). rewrite list_lookup_fmap, Hi. done.
    + change (map destination_ pm) with (destination_ <$> pm). rewrite list_lookup_fmap, Hj. simpl. by rewrite E.
  - split; [|done]. intros Ho. rewrite meet_narrow, cells_narrow by done. apply Hf; [by apply Hpl..|done].
  - intros m Hm. by right.
  - intros _ E. split; [|done]. by apply meet_narrow, cells_narrow in E.
Qed.

(** ** The code for some moves *)

#[local] Abbreviation R := RegisterLocation.
#[local] Abbreviation P := RegisterPairLocation.

(** A pair and one of its halves: the pair is swapped first. *)
Example pair_then_half :
  EmitNativeCode [Move (P 0 1) (P 2 3) kInt64; Move (R 2) (R 0) kInt32] = Some [EmittedSwap (P 0 1) (P 2 3)].
Proof. vm_compute. reflexivity. Qed.

Example halves_then_pair :
  EmitNativeCode [Move (R 2) (R 0) kInt32; Move (R 3) (R 1) kInt32; Move (P 0 1) (P 2 3) kInt64] =
  Some [EmittedSwap (P 0 1) (P 2 3)].
Proof. vm_compute. reflexivity. Qed.

Example pairs_and_stack :
  EmitNativeCode [Move (R 10) (R 5) kInt32; Move (P 4 5) (DoubleStackSlot 32) kInt64; Move (DoubleStackSlot 32) (P 10 11) kInt64] =
  Some [EmittedSwap (DoubleStackSlot 32) (P 10 11); EmittedSwap (P 4 5) (DoubleStackSlot 32); EmittedMove (R 4) (R 5)].
Proof. vm_compute. reflexivity. Qed.

Example swap_64_bits_first :
  EmitNativeCode [Move (R 0) (R 1) kInt64; Move (R 1) (StackSlot 48) kInt32; Move (StackSlot 48) (R 0) kInt32] =
  Some [EmittedSwap (R 0) (R 1); EmittedSwap (StackSlot 48) (R 0)].
Proof. vm_compute. reflexivity. Qed.

(** Two moves that read the same pair, of which both halves are overwritten: [AddMove] accepts them,
    and the second one reads the low half after it was overwritten. *)
Definition shared_pair : list MoveOperands :=
  [Move (R 5) (R 0) kInt32; Move (P 0 1) (P 2 3) kInt64; Move (P 0 1) (P 4 5) kInt64; Move (R 3) (R 1) kInt32].

Lemma shared_pair_wrong :
  foldl (fun ms m => ms ≫= fun ms => AddMove ms (source_ m) (destination_ m) (type_ m)) (Some []) shared_pair = Some shared_pair /\
  exists code, EmitNativeCode shared_pair = Some code /\
    Exists (fun l => exec_all has_halves id id id code l <> parallel has_halves id id shared_pair id l) (map R [0; 1; 2; 3; 4; 5]).
Proof.
  split; [vm_compute; reflexivity|]. eexists. split; [vm_compute; reflexivity|].
  apply (bool_decide_unpack _). vm_compute. exact I.
Qed.

(** ** Properties *)

(** C1: Whenever [moves_ok] holds of the moves, on a machine whose pairs of words are the locations
    [wide], the resolver that uses swaps terminates, and running the moves and swaps it emits gives
    every register and stack slot the value the parallel assignment gives it, also those that are
    only sources; the only ones nothing is said about are the halves, not themselves destinations,
    of a pair that is read and whose other half is overwritten.  Moves of a pair and of its halves
    may block each other; chains, cycles, fan-out, constants and mixed 32- and 64-bit moves are
    covered.  Excluded are two moves that read the same pair, or a pair and one of its halves. *)
Theorem ParallelMove_with_swap (wide : Location -> bool) (pm : list MoveOperands) :
  moves_ok wide pm ->
  exists code, EmitNativeCode pm = Some code /\
    forall (V : Type) (lo hi : V -> V) (s0 : Location -> V) (l : Location),
      wide l = false -> ~ spare wide pm l -> exec_all wide lo hi s0 code l = parallel wide lo hi pm s0 l.
Proof.
  intros Hok. destruct (EmitNativeCode_correct wide pm Hok id id (fun _ => tt)) as (code & Hc & _). exists code. split; [done|].
  intros V lo hi s0. destruct (EmitNativeCode_correct wide pm Hok lo hi s0) as (code' & Hc' & Hl). rewrite Hc in Hc'.
  by injection Hc' as <-.
Qed.

Lemma ParallelMove_with_swap_witness :
  let pm := [Move (R 10) (R 5) kInt32; Move (P 4 5) (DoubleStackSlot 32) kInt64; Move (DoubleStackSlot 32) (P 10 11) kInt64;
             Move (P 0 1) (P 2 3) kInt64; Move (R 2) (R 0) kInt32; Move (R 2) (R 7) kInt32;
             Move (ConstantLocation 4) (P 8 9) kInt64] in
  exists code, EmitNativeCode pm = Some code /\
    forall (V : Type) (lo hi : V -> V) (s0 : Location -> V) (l : Location),
      has_halves l = false -> ~ spare has_halves pm l ->
      exec_all has_halves lo hi s0 code l = parallel has_halves lo hi pm s0 l.
Proof.
  intros pm. apply (ParallelMove_with_swap has_halves pm).
  constructor; apply (bool_decide_unpack _); vm_compute; exact I.
Defined.
