(* ===== verification/ParallelMoveNoSwap.v ===== *)
(** Resolving parallel moves with scratch locations: compiler/optimizing/parallel_move_resolver.cc,
    [ParallelMoveResolverNoSwap].

    The state has the members of the base class, the scratch list, the pending moves and a state of
    the code generator.  The virtual functions that manage scratch locations are the fields of
    [ScratchOps], and what the resolver relies on is [ScratchLaws]; ParallelMoveScratch.v has the
    resolvers of the repository.  A check that fails is [None].  [PerformMove] has the depth of its
    recursion as fuel. *)
From S2P Require Import Prelude Locations ParallelMove.

Record no_swap (B : Type) := NoSwap {
  base_ : resolver;
  scratches_ : list Location;
  pending_moves_ : list MoveOperands;
  backend_ : B }.
#[global] Arguments NoSwap {B}.
#[global] Arguments base_ {B}.
#[global] Arguments scratches_ {B}.
#[global] Arguments pending_moves_ {B}.
#[global] Arguments backend_ {B}.

Section no_swap.
Context {B : Type}.
Implicit Types (r : no_swap B).

Definition with_base (r : no_swap B) (b : resolver) : no_swap B :=
  NoSwap b (scratches_ r) (pending_moves_ r) (backend_ r).
Definition with_pending (r : no_swap B) (l : list MoveOperands) : no_swap B :=
  NoSwap (base_ r) (scratches_ r) l (backend_ r).
Definition with_scratches (r : no_swap B) (l : list Location) : no_swap B :=
  NoSwap (base_ r) l (pending_moves_ r) (backend_ r).

Definition IsBlockedByMoves (r : no_swap B) (loc : Location) : bool :=
  existsb (fun move => Blocks move loc) (pending_moves_ r) || existsb (fun move => Blocks move loc) (moves_ (base_ r)).

(** ** Helpers for the code generators *)

Definition GetScratchLocation (r : no_swap B) (kind : Kind) : Location :=
  match List.find (fun loc => is_kind loc kind && negb (IsBlockedByMoves r loc)) (scratches_ r) with
  | Some loc => loc
  | None =>
      match List.find (fun move => is_kind (destination_ move) kind && negb (IsBlockedByMoves r (destination_ move)))
              (moves_ (base_ r)) with
      | Some move => destination_ move
      | None => NoLocation
      end
  end.

Definition AddScratchLocation (r : no_swap B) (loc : Location) : option (no_swap B) :=
  if existsb (Equals loc) (scratches_ r) then None
  else Some (with_scratches r (scratches_ r ++ [loc])).

Fixpoint remove_first (loc : Location) (l : list Location) : list Location :=
  match l with
  | [] => []
  | x :: l => if Equals loc x then l else x :: remove_first loc l
  end.

Definition RemoveScratchLocation (r : no_swap B) (loc : Location) : option (no_swap B) :=
  if IsBlockedByMoves r loc then None
  else Some (with_scratches r (remove_first loc (scratches_ r))).

(** ** The resolver *)

Class ScratchOps := {
  PrepareForEmitNativeCode : no_swap B -> no_swap B;
  FinishEmitNativeCode : no_swap B -> no_swap B;
  AllocateScratchLocationFor : no_swap B -> Kind -> option (Location * no_swap B);
  FreeScratchLocation : no_swap B -> Location -> option (no_swap B) }.

Definition UpdateMoveSource (r : no_swap B) (from to : Location) : no_swap B :=
  with_base r (Resolver (map (fun move => if Equals (source_ move) from then SetSource move to else move) (moves_ (base_ r)))
    (emitted_ (base_ r))).

Definition AddPendingMove (r : no_swap B) (source destination : Location) (type : DataType) : no_swap B :=
  with_pending r (pending_moves_ r ++ [Move source destination type]).

Definition DeletePendingMove (r : no_swap B) (i : nat) : no_swap B :=
  with_pending r (take i (pending_moves_ r) ++ drop (S i) (pending_moves_ r)).

(** The index of the pending move. *)
Definition GetUnblockedPendingMove (r : no_swap B) (loc : Location) : option (nat * MoveOperands) :=
  list_find (fun move => OverlapsWith (destination_ move) loc && negb (IsBlockedByMoves r (destination_ move)) = true)
    (pending_moves_ r).

Definition emit_and_eliminate (r : no_swap B) (index : nat) : option (no_swap B) :=
  b ← EmitMove (base_ r) index;
  Some (with_base r (update_move b index Eliminate)).

Context `{ScratchOps}.

(** The loop over the scratch list; its end is evaluated in each iteration. *)
Fixpoint free_scratches (fuel : nat) (r : no_swap B) (pending_source : Location) (i : nat) : option (no_swap B) :=
  if (i <? length (scratches_ r))%nat then
    match fuel with
    | O => None
    | S fuel =>
        scratch ← scratches_ r !! i;
        r ← if OverlapsWith scratch pending_source && negb (IsBlockedByMoves r scratch)
            then FreeScratchLocation r pending_source else Some r;
        free_scratches fuel r pending_source (S i)
    end
  else Some r.

Fixpoint perform_pending (fuel : nat) (r : no_swap B) (index : nat) (source : Location) : option (no_swap B) :=
  match GetUnblockedPendingMove r source with
  | None => Some r
  | Some (i, pending_move) =>
      match fuel with
      | O => None
      | S fuel =>
          let pending_source := source_ pending_move in
          let pending_destination := destination_ pending_move in
          let r := DeletePendingMove r i in
          let r := with_base r (update_move (base_ r) index
                     (fun m => SetDestination (SetSource m pending_source) pending_destination)) in
          r ← emit_and_eliminate r index;
          let r := UpdateMoveSource r pending_source pending_destination in
          r ← free_scratches (length (scratches_ r)) r pending_source 0;
          perform_pending fuel r index source
      end
  end.

(** The part of [PerformMove] after its loop. *)
Definition finish (r : no_swap B) (index : nat) (destination : Location) : option (no_swap B) :=
  let r := with_base r (update_move (base_ r) index (fun m => ClearPending m destination)) in
  move ← moves_ (base_ r) !! index;
  let source := source_ move in
  r ← if IsBlockedByMoves r destination then
        let kind := GetKind source in
        '(scratch, r) ← AllocateScratchLocationFor r kind;
        let type := if Is64BitMove move then kInt64 else kInt32 in
        let r := with_base r (update_move (base_ r) index (fun m => SetDestination m scratch)) in
        r ← emit_and_eliminate r index;
        let r := UpdateMoveSource r source scratch in
        Some (AddPendingMove r scratch destination type)
      else
        r ← emit_and_eliminate r index;
        Some (UpdateMoveSource r source destination);
  perform_pending (length (pending_moves_ r)) r index source.

(** The loop over the moves that block the destination; [perform] is the recursive call. *)
Fixpoint perform_blocking (perform : no_swap B -> nat -> option (no_swap B)) (destination : Location)
    (indexes : list nat) (r : no_swap B) : option (no_swap B) :=
  match indexes with
  | [] => Some r
  | i :: indexes =>
      other_move ← moves_ (base_ r) !! i;
      r ← if Blocks other_move destination && negb (IsPending other_move) then perform r i else Some r;
      perform_blocking perform destination indexes r
  end.

Fixpoint PerformMove (fuel : nat) (r : no_swap B) (index : nat) : option (no_swap B) :=
  match fuel with
  | O => None
  | S fuel =>
      move ← moves_ (base_ r) !! index;
      if IsRedundant move then Some (with_base r (update_move (base_ r) index Eliminate))
      else
        let destination := destination_ move in
        let r := with_base r (update_move (base_ r) index (fun m => (MarkPending m).1)) in
        r ← perform_blocking (PerformMove fuel) destination (seq 0 (length (moves_ (base_ r)))) r;
        finish r index destination
  end.

Fixpoint perform_all (r : no_swap B) (indexes : list nat) : option (no_swap B) :=
  match indexes with
  | [] => Some r
  | i :: indexes =>
      move ← moves_ (base_ r) !! i;
      r ← if negb (IsEliminated move) && negb (IsConstant (source_ move))
          then PerformMove (length (moves_ (base_ r))) r i else Some r;
      perform_all r indexes
  end.

(** The moves that are left, those with a register as destination first. *)
Fixpoint perform_register_constants (r : no_swap B) (indexes : list nat) : option (no_swap B) :=
  match indexes with
  | [] => Some r
  | i :: indexes =>
      move ← moves_ (base_ r) !! i;
      let destination := destination_ move in
      r ← if negb (IsEliminated move) && negb (IsStackSlot destination) && negb (IsDoubleStackSlot destination) then
            let source := source_ move in
            r ← emit_and_eliminate r i;
            Some (UpdateMoveSource r source destination)
          else Some r;
      perform_register_constants r indexes
  end.

Fixpoint perform_rest (r : no_swap B) (indexes : list nat) : option (no_swap B) :=
  match indexes with
  | [] => Some r
  | i :: indexes =>
      move ← moves_ (base_ r) !! i;
      r ← if negb (IsEliminated move) then emit_and_eliminate r i else Some r;
      perform_rest r indexes
  end.

(** The state at the end: the instructions emitted, and the pending moves, which have to be none. *)
Definition EmitNativeCode (b : B) (parallel_move : list MoveOperands) : option (list instr * list MoveOperands) :=
  let r := PrepareForEmitNativeCode (NoSwap (Resolver [] []) [] [] b) in
  let r := with_base r (Resolver (BuildInitialMoveList parallel_move) (emitted_ (base_ r))) in
  let indexes := seq 0 (length (moves_ (base_ r))) in
  r ← perform_all r indexes;
  r ← perform_register_constants r indexes;
  r ← perform_rest r indexes;
  let pending := pending_moves_ r in
  let r := FinishEmitNativeCode r in
  Some (emitted_ (base_ r), pending).
End no_swap.

#[global] Arguments ScratchOps : clear implicits.

(** ** What the resolver relies on *)

(** [Scr] are the scratch locations of the code generator and [Kinds] the kinds of locations it can
    save.  It keeps [scratch_ok] of the scratch list and of its own state.  With no pending move and no
    scratch location in use one of them, or the destination of a move that has not been performed, can
    be allocated; a location is freed that overlaps one of the list that is not in use; and the
    functions leave the moves and the emitted code alone. *)
Class ScratchLaws {B : Type} (ops : ScratchOps B) (Scr : Location -> Prop) (Kinds : Kind -> Prop) := {
  scratch_ok : list Location -> B -> Prop;
  prepare_state b :
    let r := PrepareForEmitNativeCode (NoSwap (Resolver [] []) [] [] b) in
    base_ r = Resolver [] [] /\ pending_moves_ r = [] /\ scratch_ok (scratches_ r) (backend_ r);
  finish_state r : base_ (FinishEmitNativeCode r) = base_ r;
  allocate_free r kind :
    scratch_ok (scratches_ r) (backend_ r) -> Kinds kind -> pending_moves_ r = [] ->
    (forall m l, m ∈ moves_ (base_ r) -> Scr l -> Blocks m l = false) ->
    exists l r', AllocateScratchLocationFor r kind = Some (l, r') /\
      base_ r' = base_ r /\ pending_moves_ r' = pending_moves_ r /\ scratch_ok (scratches_ r') (backend_ r') /\
      IsBlockedByMoves r l = false /\
      (Scr l \/ (l <> NoLocation /\ exists m, m ∈ moves_ (base_ r) /\ destination_ m = l));
  free_state r l scratch :
    scratch_ok (scratches_ r) (backend_ r) -> Kinds (GetKind l) ->
    scratch ∈ scratches_ r -> OverlapsWith scratch l = true -> IsBlockedByMoves r scratch = false ->
    exists r', FreeScratchLocation r l = Some r' /\
      base_ r' = base_ r /\ pending_moves_ r' = pending_moves_ r /\ scratch_ok (scratches_ r') (backend_ r') /\
      (length (scratches_ r') <= length (scratches_ r))%nat }.

(** On the code generators that use this resolver no location is a pair of words. *)
Definition flat : Location -> bool := fun _ => false.

Lemma flat_move {V : Type} (s : Location -> V) a b l :
  exec flat id id s (EmittedMove a b) l = if decide (l = b) then s a else s l.
Proof.
  cbn [exec]. pose proof (cells_narrow flat b l eq_refl) as Hc. destruct (decide (l = b)); [rewrite decide_True|rewrite decide_False]; tauto.
Qed.

Section flat.
Context {V : Type} (s0 final : Location -> V).
Abbreviation now b := (exec_all flat id id s0 (emitted_ b)).
Context (n : nat) (D : nat -> Location) (Locs Scr : Location -> Prop) (Kinds : Kind -> Prop) (C : nat -> bool).
Abbreviation stack_ok := (ParallelMove.stack_ok eq D).
Context (D_loc : forall x, (x < n)%nat -> Locs (D x)).
Context (D_inj : forall x y, (x < n)%nat -> (y < n)%nat -> D x = D y -> x = y).
Context (D_var : forall x, (x < n)%nat -> IsConstant (D x) = false).
Context (D_scr : forall x, (x < n)%nat -> ~ Scr (D x)).
Context (Locs_valid : forall l, Locs l -> l <> NoLocation).
Context (Locs_flat : forall a b, Locs a -> Locs b -> OverlapsWith a b = true -> a = b).
Context (Scr_loc : forall l, Scr l -> Locs l /\ IsConstant l = false).
Context (Locs_kind : forall l, Locs l -> IsConstant l = false -> Kinds (GetKind l)).
#[local] Set Default Proof Using "All".

(** The state: moves not performed and the pending move, if there is one, that copies a scratch
    location to the destination it was moved away from. *)
Record NInv (b : resolver) (pend : list (Location * Location)) : Prop := {
  ninv_length : length (moves_ b) = n;
  ninv_dead : forall x, ~ live b x -> dst b x = NoLocation;
  ninv_dst : forall x, live b x -> dst b x = D x \/ dst b x = NoLocation;
  ninv_src : forall x, live b x -> Locs (src b x);
  ninv_sem : forall x, live b x -> now b (src b x) = final (D x);
  ninv_pend : forall s d, (s, d) ∈ pend -> Locs s /\ now b s = final d /\
              exists y, (y < n)%nat /\ ~ live b y /\ d = D y;
  ninv_done : forall l, ~ Scr l -> (forall x, live b x -> D x <> l) -> (forall s d, (s, d) ∈ pend -> d <> l) ->
              now b l = final l }.

Definition const_ok (b : resolver) : Prop := forall x, live b x -> IsConstant (src b x) = C x.

(** Changing the sources that equal [from]. *)
Definition retarget (b : resolver) (from to : Location) : resolver :=
  Resolver (map (fun move => if Equals (source_ move) from then SetSource move to else move) (moves_ b)) (emitted_ b).

Lemma mv_retarget b from to x :
  from <> NoLocation ->
  src (retarget b from to) x = (if decide (src b x = from) then to else src b x) /\ dst (retarget b from to) x = dst b x.
Proof.
  intros Hf. unfold src, dst, mv, retarget. cbn [moves_]. change (map ?f) with (fmap (M := list) f).
  rewrite list_lookup_fmap. destruct (moves_ b !! x) as [m|]; simpl.
  - unfold Equals. case_bool_decide as E; [rewrite decide_True|rewrite decide_False]; done.
  - by rewrite decide_False.
Qed.

Lemma live_retarget b from to x : from <> NoLocation -> to <> NoLocation -> live (retarget b from to) x <-> live b x.
Proof.
  intros Hf Ht. unfold live. rewrite (proj1 (mv_retarget b from to x Hf)). destruct (decide (src b x = from)) as [->|]; done.
Qed.

(** Move [idx] has been emitted towards [l], eliminated, and the sources updated. *)
Definition performed (b : resolver) (idx : nat) (l : Location) : resolver :=
  retarget (update_move (Resolver (moves_ b) (emitted_ b ++ [EmittedMove (src b idx) l])) idx Eliminate) (src b idx) l.

Lemma performed_spec b idx l :
  live b idx -> l <> NoLocation ->
  (forall x, live (performed b idx l) x <-> live b x /\ x <> idx) /\
  (forall x, x <> idx -> src (performed b idx l) x = if decide (src b x = src b idx) then l else src b x) /\
  (forall x, dst (performed b idx l) x = if decide (x = idx) then NoLocation else dst b x) /\
  (forall a, now (performed b idx l) a = if decide (a = l) then now b (src b idx) else now b a).
Proof.
  intros Hl Hn. unfold performed. pose proof (live_in _ _ Hl) as Hlt. split_and!.
  - intros x. rewrite live_retarget by done. by apply live_drop.
  - intros x Hx. rewrite (proj1 (mv_retarget _ _ _ x Hl)). by rewrite src_drop.
  - intros x. rewrite (proj2 (mv_retarget _ _ _ x Hl)). unfold dst. rewrite mv_update by done.
    by destruct (decide (x = idx)).
  - intros a. unfold retarget, update_move. cbn [emitted_]. by rewrite exec_all_app, flat_move.
Qed.

Lemma NInv_lt b p x : NInv b p -> live b x -> (x < n)%nat.
Proof. intros Hi Hl. rewrite <- (ninv_length _ _ Hi). by apply live_in. Qed.

Lemma length_performed b idx l : length (moves_ (performed b idx l)) = length (moves_ b).
Proof. unfold performed, retarget, update_move. cbn [moves_]. by rewrite length_map, length_alter. Qed.

(** A move that nothing blocks. *)
Lemma NInv_direct b p idx :
  NInv b p -> live b idx -> (forall x, live b x -> src b x <> D idx) -> (forall s d, (s, d) ∈ p -> s <> D idx) ->
  NInv (performed b idx (D idx)) p.
Proof.
  intros Hi Hl Hb Hp. pose proof (NInv_lt _ _ _ Hi Hl) as Hlt. pose proof (D_loc _ Hlt) as HD.
  destruct (performed_spec b idx (D idx) Hl (Locs_valid _ HD)) as (Plv & Psrc & Pdst & Pnow). constructor.
  - rewrite length_performed. apply Hi.
  - intros x Hx. rewrite Pdst. destruct (decide (x = idx)); [done|]. apply (ninv_dead _ _ Hi). intros Hlx. by apply Hx, Plv.
  - intros x [Hx Hxi]%Plv. rewrite Pdst, decide_False by done. by apply (ninv_dst _ _ Hi).
  - intros x [Hx Hxi]%Plv. rewrite Psrc by done. destruct (decide _); [done|]. by apply (ninv_src _ _ Hi).
  - intros x [Hx Hxi]%Plv. rewrite Psrc, Pnow by done. rewrite <- (ninv_sem _ _ Hi x Hx).
    destruct (decide (src b x = src b idx)) as [->|]; [by rewrite decide_True|]. by rewrite decide_False by (by apply Hb).
  - intros s d Hsd. destruct (ninv_pend _ _ Hi s d Hsd) as (L & E & y & Hy & Hd & ->). split_and!; [done| |].
    + rewrite Pnow, decide_False by (by eapply Hp). done.
    + exists y. rewrite Plv. split_and!; [done|tauto|done].
  - intros l Hs Hx Hpd. rewrite Pnow. destruct (decide (l = D idx)) as [->|]; [by apply (ninv_sem _ _ Hi)|].
    apply (ninv_done _ _ Hi); [done| |done]. intros x Hlx. destruct (decide (x = idx)) as [->|]; [congruence|].
    apply Hx. by apply Plv.
Qed.

(** A move in a cycle goes to a scratch location. *)
Lemma NInv_scratch b idx t :
  NInv b [] -> live b idx -> Locs t -> (forall x, live b x -> src b x <> t) ->
  Scr t \/ (exists y, live b y /\ y <> idx /\ D y = t) ->
  NInv (performed b idx t) [(t, D idx)].
Proof.
  intros Hi Hl Ht Hb Hs. pose proof (NInv_lt _ _ _ Hi Hl) as Hlt.
  destruct (performed_spec b idx t Hl (Locs_valid _ Ht)) as (Plv & Psrc & Pdst & Pnow). constructor.
  - rewrite length_performed. apply Hi.
  - intros x Hx. rewrite Pdst. destruct (decide (x = idx)); [done|]. apply (ninv_dead _ _ Hi). intros Hlx. by apply Hx, Plv.
  - intros x [Hx Hxi]%Plv. rewrite Pdst, decide_False by done. by apply (ninv_dst _ _ Hi).
  - intros x [Hx Hxi]%Plv. rewrite Psrc by done. destruct (decide _); [done|]. by apply (ninv_src _ _ Hi).
  - intros x [Hx Hxi]%Plv. rewrite Psrc, Pnow by done. rewrite <- (ninv_sem _ _ Hi x Hx).
    destruct (decide (src b x = src b idx)) as [->|]; [by rewrite decide_True|]. by rewrite decide_False by (by apply Hb).
  - intros s d [= -> ->]%list_elem_of_singleton. rewrite Pnow, decide_True by done. split_and!; [done|by apply (ninv_sem _ _ Hi)|].
    exists idx. rewrite Plv. split_and!; [done|tauto|done].
  - intros l Hsl Hx Hpd. rewrite Pnow. destruct (decide (l = t)) as [->|].
    + destruct Hs as [|(y & Hy & Hyi & HD)]; [done|]. exfalso. by apply (Hx y); [apply Plv|].
    + apply (ninv_done _ _ Hi); [done| |intros ? ? ?%elem_of_nil; done]. intros x Hlx.
      destruct (decide (x = idx)) as [->|]; [|apply Hx; by apply Plv]. apply (Hpd t). by apply list_elem_of_singleton.
Qed.

(** The pending move is performed. *)
Lemma NInv_pending b t A :
  NInv b [(t, A)] -> (forall x, live b x -> src b x <> A) -> t <> NoLocation -> Locs A ->
  let b' := retarget (Resolver (moves_ b) (emitted_ b ++ [EmittedMove t A])) t A in
  NInv b' [] /\ (forall x, live b' x <-> live b x) /\ (forall x, src b' x = if decide (src b x = t) then A else src b x) /\
  (forall x, dst b' x = dst b x).
Proof.
  intros Hi Hb Ht HA b'. destruct (ninv_pend _ _ Hi t A) as (Lt & Et & y & Hy & Hdy & EA); [by apply list_elem_of_singleton|].
  assert (forall x, live b' x <-> live b x) as Plv by (intros x; exact (live_retarget (Resolver (moves_ b) (emitted_ b ++ [EmittedMove t A])) t A x Ht (Locs_valid _ HA))).
  assert (forall x, src b' x = if decide (src b x = t) then A else src b x) as Psrc
    by (intros x; exact (proj1 (mv_retarget (Resolver (moves_ b) (emitted_ b ++ [EmittedMove t A])) t A x Ht))).
  assert (forall x, dst b' x = dst b x) as Pdst
    by (intros x; exact (proj2 (mv_retarget (Resolver (moves_ b) (emitted_ b ++ [EmittedMove t A])) t A x Ht))).
  assert (forall a, now b' a = if decide (a = A) then now b t else now b a) as Pnow.
  { intros a. unfold b', retarget. cbn [emitted_]. by rewrite exec_all_app, flat_move. }
  split_and!; try done. constructor.
  - unfold b', retarget. cbn [moves_]. rewrite length_map. apply Hi.
  - intros x Hx. rewrite Pdst. apply (ninv_dead _ _ Hi). by rewrite <- Plv.
  - intros x Hx%Plv. rewrite Pdst. by apply (ninv_dst _ _ Hi).
  - intros x Hx%Plv. rewrite Psrc. destruct (decide _); [done|]. by apply (ninv_src _ _ Hi).
  - intros x Hx%Plv. rewrite Psrc, Pnow, <- (ninv_sem _ _ Hi x Hx).
    destruct (decide (src b x = t)) as [->|]; [by rewrite decide_True|]. by rewrite decide_False by (by apply Hb).
  - intros s d Hsd. by apply not_elem_of_nil in Hsd.
  - intros l Hs Hx _. rewrite Pnow. destruct (decide (l = A)) as [->|]; [done|]. apply (ninv_done _ _ Hi); [done| |].
    + intros x Hlx. apply Hx. by apply Plv.
    + intros s d [= -> ->]%list_elem_of_singleton. done.
Qed.

(** ** States of the resolver *)

Context {B : Type} {ops : ScratchOps B} {laws : ScratchLaws ops Scr Kinds}.
Implicit Types (r : no_swap B).

Definition pairs (r : no_swap B) : list (Location * Location) :=
  map (fun m => (source_ m, destination_ m)) (pending_moves_ r).

(** Either nothing is pending and no scratch location is in use, or one pending move waits for the
    outermost move in progress, which has its destination as source. *)
Definition pend_ok (r : no_swap B) (stk : list nat) : Prop :=
  (pending_moves_ r = [] /\ forall x, live (base_ r) x -> ~ Scr (src (base_ r) x)) \/
  (exists t A ty b, pending_moves_ r = [Move t A ty] /\ last stk = Some b /\ src (base_ r) b = A /\
     (forall j, j ∈ stk -> t <> D j) /\ t <> A /\ IsConstant t = false /\
     forall x, live (base_ r) x -> Scr (src (base_ r) x) -> src (base_ r) x = t).

Record nstate (r : no_swap B) (stk : list nat) : Prop := {
  ns_inv : NInv (base_ r) (pairs r);
  ns_const : const_ok (base_ r);
  ns_stack : stack_ok (base_ r) stk;
  ns_scratch : scratch_ok (scratches_ r) (backend_ r);
  ns_pend : pend_ok r stk }.

Lemma NBlocks_spec b p x l : NInv b p -> Locs l -> Blocks (mv b x) l = true <-> live b x /\ src b x = l.
Proof.
  intros Hi Hl. unfold Blocks. rewrite andb_true_iff, negb_true_iff, IsEliminated_spec. split.
  - intros [Hx Ho]. split; [done|]. apply Locs_flat; [by apply (ninv_src _ _ Hi)|done|done].
  - intros [Hx <-]. split; [done|]. apply OverlapsWith_refl.
Qed.

Lemma elem_mv b p m : NInv b p -> m ∈ moves_ b -> exists x, (x < n)%nat /\ m = mv b x.
Proof.
  intros Hi [x Hx]%list_elem_of_lookup_1. exists x. rewrite <- (ninv_length _ _ Hi). split; [by eapply lookup_lt_Some|].
  unfold mv. by rewrite Hx.
Qed.

Lemma mv_elem b p x : NInv b p -> (x < n)%nat -> moves_ b !! x = Some (mv b x).
Proof.
  intros Hi Hx. rewrite <- (ninv_length _ _ Hi) in Hx. apply lookup_lt_is_Some_2 in Hx as [m Hm]. unfold mv. by rewrite Hm.
Qed.

Lemma blocked_spec r l :
  NInv (base_ r) (pairs r) -> Locs l ->
  IsBlockedByMoves r l = true <->
  (exists m, m ∈ pending_moves_ r /\ source_ m = l) \/ (exists x, live (base_ r) x /\ src (base_ r) x = l).
Proof.
  intros Hi Hl. unfold IsBlockedByMoves. rewrite orb_true_iff, !existsb_exists.
  assert (forall m, m ∈ pending_moves_ r -> Locs (source_ m)) as Hp.
  { intros m Hm. eapply (ninv_pend _ _ Hi (source_ m) (destination_ m)). unfold pairs.
    by apply (list_elem_of_fmap_2 (fun m => (source_ m, destination_ m))). }
  split.
  - intros [(m & Hm & Hb)|(m & Hm & Hb)]; apply list_elem_of_In in Hm.
    + left. exists m. split; [done|]. unfold Blocks in Hb. apply andb_true_iff in Hb as [_ Hb]. apply Locs_flat; auto.
    + right. destruct (elem_mv _ _ _ Hi Hm) as (x & _ & ->). exists x. by apply (NBlocks_spec _ _ _ _ Hi Hl).
  - intros [(m & Hm & <-)|(x & Hx & Hs)]; [left|right].
    + exists m. split; [by apply list_elem_of_In|]. unfold Blocks. rewrite OverlapsWith_refl, andb_true_r.
      apply negb_true_iff. unfold IsEliminated, IsInvalid. apply negb_false_iff. by apply IsValid_spec, Locs_valid, Hp.
    + exists (mv (base_ r) x). split; [|by apply (NBlocks_spec _ _ _ _ Hi Hl)]. apply list_elem_of_In.
      eapply list_elem_of_lookup_2. by apply live_lookup.
Qed.

Lemma NInv_set_dst b p i l :
  NInv b p -> live b i -> l = D i \/ l = NoLocation -> NInv (update_move b i (fun m => SetDestination m l)) p.
Proof.
  intros Hi Hl Hd. pose proof (live_in _ _ Hl) as Hlt.
  assert (forall x, src (update_move b i (fun m => SetDestination m l)) x = src b x) as Hs by (intros x; by apply src_set_dst).
  constructor; unfold live; intros *; rewrite ?Hs.
  - unfold update_move. cbn [moves_]. rewrite length_alter. apply Hi.
  - intros Hx. rewrite dst_set_dst by done. destruct (decide (x = i)) as [->|]; [done|]. by apply (ninv_dead _ _ Hi).
  - intros Hx. rewrite dst_set_dst by done. destruct (decide (x = i)) as [->|]; [done|]. by apply (ninv_dst _ _ Hi).
  - apply (ninv_src _ _ Hi).
  - apply (ninv_sem _ _ Hi).
  - setoid_rewrite Hs. apply (ninv_pend _ _ Hi).
  - setoid_rewrite Hs. apply (ninv_done _ _ Hi).
Qed.

(** ** Emitting *)

Lemma alter_eliminate_set (ms : list MoveOperands) i f :
  (forall m, Eliminate (f m) = Eliminate m) -> alter Eliminate i (alter f i ms) = alter Eliminate i ms.
Proof.
  intros Hf. apply list_eq. intros j. destruct (decide (j = i)) as [->|Hne].
  - rewrite !list_lookup_alter_eq. destruct (ms !! i) as [m|]; [|done]. simpl. by rewrite Hf.
  - by rewrite !list_lookup_alter_ne.
Qed.

(** Emitting move [idx] towards [l] and updating the sources, as the code does it. *)
Lemma emit_performed r idx l m :
  moves_ (base_ r) !! idx = Some m -> destination_ m = l ->
  (r ← emit_and_eliminate r idx; Some (UpdateMoveSource r (source_ m) l)) =
  Some (with_base r (performed (base_ r) idx l)).
Proof.
  intros Hm <-. unfold emit_and_eliminate, EmitMove. rewrite Hm. cbn [mbind option_bind].
  assert (source_ m = src (base_ r) idx) as -> by (unfold src, mv; by rewrite Hm). done.
Qed.

Lemma free_scratches_spec fuel r l i :
  scratch_ok (scratches_ r) (backend_ r) -> Kinds (GetKind l) -> (length (scratches_ r) <= i + fuel)%nat ->
  exists r', free_scratches fuel r l i = Some r' /\ base_ r' = base_ r /\ pending_moves_ r' = pending_moves_ r /\
    scratch_ok (scratches_ r') (backend_ r').
Proof.
  intros Hok HK. revert r i Hok. induction fuel as [|fuel IH]; intros r i Hok Hf; cbn [free_scratches];
    destruct (Nat.ltb_spec i (length (scratches_ r))) as [Hlt|Hge]; [lia|by exists r| |by exists r].
  destruct (lookup_lt_is_Some_2 _ _ Hlt) as [s Hs]. rewrite Hs. cbn [mbind option_bind].
  destruct (OverlapsWith s l && negb (IsBlockedByMoves r s)) eqn:E.
  - apply andb_true_iff in E as [Ho Hb%negb_true_iff].
    destruct (free_state r l s Hok HK (list_elem_of_lookup_2 _ _ _ Hs) Ho Hb) as (r1 & -> & E1 & E2 & E3 & E4).
    cbn [mbind option_bind]. destruct (IH r1 (S i) E3) as (r' & -> & E5 & E6 & E7); [lia|].
    exists r'. by rewrite E5, E6.
  - cbn [mbind option_bind]. apply IH; [done|lia].
Qed.

Lemma unblocked_none r l :
  (forall m, m ∈ pending_moves_ r -> OverlapsWith (destination_ m) l = false) -> GetUnblockedPendingMove r l = None.
Proof.
  intros Hn. apply list_find_None. apply Forall_forall. intros m Hm. by rewrite (Hn m Hm).
Qed.

Lemma perform_pending_none fuel r idx l :
  (forall m, m ∈ pending_moves_ r -> OverlapsWith (destination_ m) l = false) -> perform_pending fuel r idx l = Some r.
Proof. intros Hn. destruct fuel; cbn [perform_pending]; by rewrite unblocked_none. Qed.

(** ** After the loop *)

(** Move [idx] is about to be performed. *)
Record nready (r : no_swap B) (idx : nat) (stk : list nat) : Prop := {
  nr_inv : NInv (base_ r) (pairs r);
  nr_const : const_ok (base_ r);
  nr_stack : stack_ok (base_ r) stk;
  nr_scratch : scratch_ok (scratches_ r) (backend_ r);
  nr_pend : pend_ok r (idx :: stk);
  nr_live : live (base_ r) idx;
  nr_notin : idx ∉ stk;
  nr_dst : dst (base_ r) idx = D idx;
  nr_var : C idx = false;
  nr_head : match stk with [] => True | h :: _ => src (base_ r) idx = D h end }.

Lemma nready_lookup r idx stk :
  nready r idx stk ->
  moves_ (base_ r) !! idx = Some (Move (src (base_ r) idx) (D idx) (type_ (mv (base_ r) idx))).
Proof.
  intros Hr. rewrite (live_lookup _ _ (nr_live _ _ _ Hr)). rewrite <- (nr_dst _ _ _ Hr). unfold src, dst.
  by destruct (mv (base_ r) idx).
Qed.

Record nperform_post (r r' : no_swap B) (idx : nat) (stk : list nat) (source : Location) : Prop := {
  np_state : nstate r' stk;
  np_dead : ~ live (base_ r') idx;
  np_below : below (base_ r) (base_ r');
  np_source : stk <> [] -> forall x, live (base_ r') x -> src (base_ r') x <> source }.

Lemma const_performed b p idx l :
  NInv b p -> const_ok b -> live b idx -> C idx = false -> IsConstant l = false -> l <> NoLocation ->
  const_ok (performed b idx l).
Proof.
  intros Hi Hc Hl HC Hv Hn x Hx. destruct (performed_spec b idx l Hl Hn) as (Plv & Psrc & _).
  apply Plv in Hx as [Hx Hxi]. rewrite Psrc by done. destruct (decide (src b x = src b idx)) as [E|]; [|by apply Hc].
  rewrite Hv, <- (Hc x Hx), E. by rewrite (Hc idx Hl), HC.
Qed.

Lemma stack_performed b idx stk l :
  stack_ok b stk -> live b idx -> idx ∉ stk -> l <> NoLocation ->
  match stk with [] => True | h :: _ => src b idx = D h end ->
  (forall i j, i ∈ stk -> j ∈ stk -> D i = D j -> i = j) ->
  stack_ok (performed b idx l) stk.
Proof.
  intros Hs Hl Hn Hv Hh Hinj. destruct (performed_spec b idx l Hl Hv) as (Plv & Psrc & Pdst & _). constructor.
  - intros x. rewrite <- (stack_pend _ _ Hs x). unfold pend. rewrite Plv, Pdst.
    destruct (decide (x = idx)) as [->|]; [|tauto]. split; [tauto|]. intros Hp. exfalso. by apply Hn, (stack_pend _ _ Hs).
  - apply Hs.
  - eapply chain_mono; [apply Hs|]. intros i j Hi Hj E. rewrite Psrc by (by intros ->). rewrite decide_False; [done|].
    destruct stk as [|h tl]; [by apply not_elem_of_nil in Hi|]. rewrite E, Hh. intros HD. simpl in Hj.
    pose proof (stack_nodup _ _ Hs) as [Hnh _]%NoDup_cons. apply Hnh.
    assert (j = h) as -> by (apply Hinj; [by right|left|done]). done.
Qed.

Lemma stack_inj r stk i j : NInv (base_ r) (pairs r) -> stack_ok (base_ r) stk -> i ∈ stk -> j ∈ stk -> D i = D j -> i = j.
Proof.
  intros Hi Hs Hin Hjn. apply D_inj; eapply NInv_lt; eauto using stack_live.
Qed.

(** The move was not blocked: the case without a pending move. *)
Lemma direct_none r idx stk :
  nready r idx stk -> pending_moves_ r = [] -> (forall x, live (base_ r) x -> src (base_ r) x <> D idx) ->
  nperform_post r (with_base r (performed (base_ r) idx (D idx))) idx stk (src (base_ r) idx).
Proof.
  intros Hr Hp Hb. pose proof (nr_inv _ _ _ Hr) as Hi. pose proof (nr_live _ _ _ Hr) as Hl.
  pose proof (NInv_lt _ _ _ Hi Hl) as Hlt. pose proof (Locs_valid _ (D_loc _ Hlt)) as Hv.
  destruct (performed_spec (base_ r) idx (D idx) Hl Hv) as (Plv & Psrc & _ & _). constructor.
  - constructor; cbn [base_ with_base].
    + apply NInv_direct; [done..|]. unfold pairs. cbn [pending_moves_ with_base]. rewrite Hp. intros s d Hsd. by apply not_elem_of_nil in Hsd.
    + eapply const_performed; eauto; [apply Hr|apply Hr].
    + apply stack_performed; [apply Hr|done|apply Hr|done|apply Hr|]. intros i j. apply (stack_inj r); [done|apply Hr].
    + apply (nr_scratch _ _ _ Hr).
    + left. split; [done|]. intros x [Hx Hxi]%Plv. cbn [base_]. rewrite Psrc by done.
      destruct (decide _); [by apply D_scr|]. destruct (nr_pend _ _ _ Hr) as [[_ Hn]|(t & A & ty & b & E & _)]; [by apply Hn|congruence].
  - cbn [base_ with_base]. rewrite Plv. tauto.
  - by intros x [? _]%Plv.
  - intros Hne x [Hx Hxi]%Plv. cbn [base_ with_base]. rewrite Psrc by done. destruct (decide _); [|done].
    intros E. by apply (Hb idx Hl).
Qed.

(** With a pending move, and the move in progress is not the outermost one. *)
Lemma direct_waiting r idx h tl :
  nready r idx (h :: tl) -> pending_moves_ r <> [] -> (forall x, live (base_ r) x -> src (base_ r) x <> D idx) ->
  let r' := with_base r (performed (base_ r) idx (D idx)) in
  (forall m, m ∈ pending_moves_ r' -> OverlapsWith (destination_ m) (src (base_ r) idx) = false) /\
  nperform_post r r' idx (h :: tl) (src (base_ r) idx).
Proof.
  intros Hr Hp Hb r'. pose proof (nr_inv _ _ _ Hr) as Hi. pose proof (nr_live _ _ _ Hr) as Hl.
  pose proof (NInv_lt _ _ _ Hi Hl) as Hlt. pose proof (Locs_valid _ (D_loc _ Hlt)) as Hv.
  destruct (performed_spec (base_ r) idx (D idx) Hl Hv) as (Plv & Psrc & _ & _).
  destruct (nr_pend _ _ _ Hr) as [[E _]|(t & A & ty & b & E & Hla & HA & Ht & HtA & Htc & Hscr)]; [done|].
  assert (last (h :: tl) = Some b) as Hla' by done. assert (b ∈ h :: tl) as Hbs by (by apply last_Some_elem_of).
  pose proof (stack_live _ _ _ (nr_stack _ _ _ Hr) Hbs) as Hlb. pose proof (nr_head _ _ _ Hr) as Hh. simpl in Hh.
  destruct (ninv_pend _ _ Hi t A) as (Lt & _ & y & Hy & Hdy & EA); [unfold pairs; rewrite E; by apply list_elem_of_singleton|].
  assert (live (base_ r) h) as Hlh by (eapply stack_live; [apply Hr|left]). pose proof (NInv_lt _ _ _ Hi Hlh) as Hlth.
  assert (A <> D h) as HAh. { rewrite EA. intros HD. apply D_inj in HD; [by subst|done..]. }
  split.
  - intros m. cbn [pending_moves_ with_base]. unfold r'. cbn [pending_moves_ with_base]. rewrite E. intros ->%list_elem_of_singleton. cbn [destination_].
    rewrite Hh. apply not_true_iff_false. intros Ho. apply Locs_flat in Ho; [done| |by apply D_loc].
    rewrite EA. by apply D_loc.
  - constructor.
    + constructor; cbn [base_ with_base r'].
      * apply NInv_direct; [done..|]. unfold pairs, r'. cbn [pending_moves_ with_base]. rewrite E. intros s d [= -> ->]%list_elem_of_singleton. apply Ht. left.
      * eapply const_performed; eauto; [apply Hr|apply Hr].
      * apply stack_performed; [apply Hr|done|apply Hr|done|apply Hr|]. intros i j. apply (stack_inj r); [done|apply Hr].
      * apply (nr_scratch _ _ _ Hr).
      * right. exists t, A, ty, b. cbn [base_ with_base r' pending_moves_]. split_and!; try done.
        -- rewrite Psrc by (intros ->; by apply (nr_notin _ _ _ Hr)). rewrite decide_False; [done|]. by rewrite HA, Hh.
        -- intros j Hj. apply Ht. by right.
        -- intros x [Hx Hxi]%Plv. rewrite Psrc by done. destruct (decide _); [|by apply Hscr]. intros HS. by apply D_scr in HS.
    + cbn [base_ with_base r']. rewrite Plv. tauto.
    + by intros x [? _]%Plv.
    + intros _ x [Hx Hxi]%Plv. cbn [base_ with_base r']. rewrite Psrc by done. destruct (decide _); [|done].
      intros EE. by apply (Hb idx Hl).
Qed.

Lemma alter_dead b p idx f :
  NInv b p -> ~ live b idx -> (forall m, Eliminate (f m) = Eliminate m) ->
  alter Eliminate idx (alter f idx (moves_ b)) = moves_ b.
Proof.
  intros Hi Hd Hf. rewrite alter_eliminate_set by done. apply list_eq. intros j. destruct (decide (j = idx)) as [->|Hne].
  - rewrite list_lookup_alter_eq. pose proof (ninv_dead _ _ Hi idx Hd) as Hdst. unfold live, src, dst, mv in *.
    destruct (moves_ b !! idx) as [[ms md mt]|]; [|done]. simpl in *. apply dec_stable in Hd. subst. done.
  - by rewrite list_lookup_alter_ne.
Qed.

(** The pending move is performed when its destination is not blocked any more. *)
Lemma pending_step r idx t A ty :
  NInv (base_ r) (pairs r) -> pending_moves_ r = [Move t A ty] -> (idx < n)%nat -> ~ live (base_ r) idx ->
  (forall x, live (base_ r) x -> src (base_ r) x <> A) -> t <> A -> Locs A -> Locs t ->
  IsConstant t = false -> scratch_ok (scratches_ r) (backend_ r) ->
  exists r', perform_pending 1 r idx A = Some r' /\ pending_moves_ r' = [] /\ NInv (base_ r') [] /\
    scratch_ok (scratches_ r') (backend_ r') /\
    (forall x, live (base_ r') x <-> live (base_ r) x) /\
    (forall x, src (base_ r') x = if decide (src (base_ r) x = t) then A else src (base_ r) x) /\
    (forall x, dst (base_ r') x = dst (base_ r) x).
Proof.
  intros Hi1 Hp Hlt Hdead Hno HtA LA Lt Htc Hok.
  assert (IsBlockedByMoves r A = false) as Hunb.
  { apply not_true_iff_false. rewrite blocked_spec by done. intros [(m & Hm & Hs)|(x & Hx & Hs)]; [|by apply (Hno x)].
    rewrite Hp in Hm. apply list_elem_of_singleton in Hm as ->. done. }
  assert (GetUnblockedPendingMove r A = Some (0%nat, Move t A ty)) as Hget.
  { unfold GetUnblockedPendingMove. rewrite Hp. cbn [list_find].
    rewrite decide_True; [done|]. cbn [destination_]. by rewrite OverlapsWith_refl, Hunb. }
  cbn [perform_pending]. rewrite Hget. cbn [source_ destination_].
  set (r2 := with_base (DeletePendingMove r 0) _).
  assert (moves_ (base_ r2) !! idx = Some (Move t A (type_ (mv (base_ r) idx)))) as Hm2.
  { unfold r2, with_base, DeletePendingMove, with_pending, update_move. cbn [base_ moves_].
    rewrite list_lookup_alter_eq, (mv_elem _ _ idx Hi1) by done. done. }
  pose proof (emit_performed r2 idx A _ Hm2 eq_refl) as Hem. cbn [source_] in Hem.
  destruct (emit_and_eliminate r2 idx) as [r3|]; [|done]. cbn [mbind option_bind] in Hem |- *.
  assert (UpdateMoveSource r3 t A = with_base r2 (performed (base_ r2) idx A)) as -> by congruence. clear Hem.
  set (r4 := with_base r2 _). destruct (free_scratches_spec (length (scratches_ r4)) r4 t 0 Hok (Locs_kind t Lt Htc)) as (r5 & -> & B5 & P5 & S5); [lia|].
  cbn [mbind option_bind].
  assert (base_ r4 = retarget (Resolver (moves_ (base_ r)) (emitted_ (base_ r) ++ [EmittedMove t A])) t A) as B4.
  { unfold r4, performed. cbn [base_ with_base]. assert (src (base_ r2) idx = t) as -> by (unfold src, mv; by rewrite Hm2).
    unfold r2, with_base, DeletePendingMove, with_pending, update_move. cbn [base_ moves_ emitted_].
    by rewrite (alter_dead _ _ _ _ Hi1 Hdead). }
  assert (pending_moves_ r5 = []) as P5'.
  { rewrite P5. unfold r4, r2, with_base, DeletePendingMove, with_pending. cbn [pending_moves_]. by rewrite Hp. }
  unfold pairs in Hi1. rewrite Hp in Hi1.
  destruct (NInv_pending (base_ r) t A Hi1 Hno (Locs_valid _ Lt) LA) as (Hi4 & Plv4 & Psrc4 & Pdst4).
  rewrite <- B4, <- B5 in Hi4, Plv4, Psrc4, Pdst4. destruct (GetUnblockedPendingMove r5 A) eqn:E.
  { rewrite unblocked_none in E; [done|]. rewrite P5'. intros m Hm. by apply not_elem_of_nil in Hm. }
  exists r5. by split_and!.
Qed.

(** The outermost move frees the destination of the pending move, which is performed. *)
Lemma direct_last r idx t A ty :
  nready r idx [] -> pending_moves_ r = [Move t A ty] ->
  (forall x, live (base_ r) x -> src (base_ r) x <> D idx) ->
  exists r', perform_pending 1 (with_base r (performed (base_ r) idx (D idx))) idx (src (base_ r) idx) = Some r' /\
             nperform_post r r' idx [] (src (base_ r) idx).
Proof.
  intros Hr Hp Hb. pose proof (nr_inv _ _ _ Hr) as Hi. pose proof (nr_live _ _ _ Hr) as Hl.
  pose proof (NInv_lt _ _ _ Hi Hl) as Hlt. pose proof (Locs_valid _ (D_loc _ Hlt)) as Hv.
  destruct (performed_spec (base_ r) idx (D idx) Hl Hv) as (Plv & Psrc & Pdst & _).
  destruct (nr_pend _ _ _ Hr) as [[E _]|(t' & A' & ty' & b & E & Hla & HA & Ht & HtA & Htc & Hscr)]; [congruence|].
  rewrite Hp in E. injection E as <- <- <-. simpl in Hla. injection Hla as <-.
  destruct (ninv_pend _ _ Hi t A) as (Lt & _ & y & Hy & Hdy & EA); [unfold pairs; rewrite Hp; by apply list_elem_of_singleton|].
  assert (A <> D idx) as HAi. { rewrite EA. intros HD. apply D_inj in HD; [by subst|done..]. }
  set (r1 := with_base r (performed (base_ r) idx (D idx))).
  assert (NInv (base_ r1) (pairs r1)) as Hi1.
  { apply NInv_direct; [done..|]. unfold pairs, r1. cbn [pending_moves_ with_base]. rewrite Hp.
    intros s d [= -> ->]%list_elem_of_singleton. apply Ht. left. }
  assert (const_ok (base_ r1)) as Hc1 by (eapply const_performed; eauto; [apply Hr|apply Hr]).
  destruct (pending_step r1 idx t A ty) as (r5 & Hr5 & P5 & Hi5 & S5 & Plv5 & Psrc5 & Pdst5); try done.
  { intros [_ ?]%Plv. done. }
  { intros x [Hx Hxi]%Plv. unfold r1. cbn [base_ with_base]. rewrite Psrc by done. destruct (decide _); [done|]. congruence. }
  { rewrite EA. by apply D_loc. }
  { apply (nr_scratch _ _ _ Hr). }
  exists r5. rewrite HA. split; [done|]. constructor; [| | |done].
  - constructor.
    + unfold pairs. by rewrite P5.
    + intros x Hx%Plv5. rewrite Psrc5. destruct (decide (src (base_ r1) x = t)) as [E|]; [|by apply Hc1].
      rewrite EA, D_var by done. by rewrite <- (Hc1 x Hx), E.
    + constructor; [|apply NoDup_nil_2|done]. intros x. rewrite <- (stack_pend _ _ (nr_stack _ _ _ Hr) x).
      unfold pend. rewrite Plv5, Pdst5. unfold r1. cbn [base_ with_base]. rewrite Plv, Pdst.
      destruct (decide (x = idx)) as [->|]; [|tauto]. split; [tauto|]. intros [_ Ed]. rewrite (nr_dst _ _ _ Hr) in Ed. done.
    + done.
    + left. split; [done|]. intros x Hx%Plv5. rewrite Psrc5. destruct (decide _) as [|Hnt]; [rewrite EA; by apply D_scr|].
      intros HS. apply Hnt. apply Plv in Hx as [Hx Hxi]. unfold r1 in *. cbn [base_ with_base] in *. rewrite Psrc in * by done.
      destruct (decide _); [by apply D_scr in HS|]. by apply Hscr.
  - intros [_ ?]%Plv5%Plv. done.
  - by intros x [? _]%Plv5%Plv.
Qed.

(** [finish] restores the destination first. *)
Lemma finish_ready r idx stk :
  nstate r (idx :: stk) -> C idx = false ->
  nready (with_base r (update_move (base_ r) idx (fun m => ClearPending m (D idx)))) idx stk.
Proof.
  intros [Hi Hc Hs Hsc Hp] HC. pose proof (stack_live _ _ idx Hs ltac:(left)) as Hl. pose proof (live_in _ _ Hl) as Hlt.
  pose proof (NInv_lt _ _ _ Hi Hl) as Hltn.
  pose proof (stack_nodup _ _ Hs) as [Hn _]%NoDup_cons. pose proof (stack_chain _ _ Hs) as [Hh _].
  set (b := update_move _ _ _). assert (forall x, src b x = src (base_ r) x) as Hsrc by (intros x; by apply src_set_dst).
  constructor; cbn [base_ with_base]; fold b.
  - apply (NInv_set_dst _ _ idx (D idx)); [done..|by left].
  - intros x Hx. unfold live in Hx. rewrite Hsrc in Hx |- *. by apply Hc.
  - apply stack_pop; [by apply Locs_valid, D_loc|done].
  - done.
  - unfold pend_ok in *. cbn [base_ with_base pending_moves_]. unfold live. setoid_rewrite Hsrc. done.
  - unfold live. by rewrite Hsrc.
  - done.
  - unfold b. change (fun m => ClearPending m (D idx)) with (fun m => SetDestination m (D idx)).
    rewrite dst_set_dst by done. by rewrite decide_True.
  - done.
  - rewrite Hsrc. done.
Qed.

(** The part after the destination was restored. *)
Definition resolve (r : no_swap B) (idx : nat) : option (no_swap B) :=
  let move := Move (src (base_ r) idx) (D idx) (type_ (mv (base_ r) idx)) in
  r ← if IsBlockedByMoves r (D idx) then
        '(scratch, r) ← AllocateScratchLocationFor r (GetKind (source_ move));
        let r := with_base r (update_move (base_ r) idx (fun m => SetDestination m scratch)) in
        r ← emit_and_eliminate r idx;
        let r := UpdateMoveSource r (source_ move) scratch in
        Some (AddPendingMove r scratch (D idx) (if Is64BitMove move then kInt64 else kInt32))
      else
        r ← emit_and_eliminate r idx;
        Some (UpdateMoveSource r (source_ move) (D idx));
  perform_pending (length (pending_moves_ r)) r idx (source_ move).

Lemma finish_resolve r idx stk :
  nstate r (idx :: stk) -> C idx = false ->
  finish r idx (D idx) = resolve (with_base r (update_move (base_ r) idx (fun m => ClearPending m (D idx)))) idx.
Proof.
  intros Hs HC. pose proof (finish_ready r idx stk Hs HC) as Hr. unfold finish. rewrite (nready_lookup _ _ _ Hr). done.
Qed.

Lemma resolve_direct r idx stk :
  nready r idx stk -> (forall x, live (base_ r) x -> src (base_ r) x <> D idx) ->
  exists r', resolve r idx = Some r' /\ nperform_post r r' idx stk (src (base_ r) idx).
Proof.
  intros Hr Hb. pose proof (nr_inv _ _ _ Hr) as Hi. pose proof (NInv_lt _ _ _ Hi (nr_live _ _ _ Hr)) as Hlt.
  assert (IsBlockedByMoves r (D idx) = false) as Hunb.
  { apply not_true_iff_false. rewrite blocked_spec; [|done|by apply D_loc]. intros [(m & Hm & Hs)|(x & Hx & Hs)]; [|by apply (Hb x)].
    destruct (nr_pend _ _ _ Hr) as [[E _]|(t & A & ty & b & E & _ & _ & Ht & _)]; rewrite E in Hm; [by apply not_elem_of_nil in Hm|].
    apply list_elem_of_singleton in Hm as ->. apply (Ht idx); [left|done]. }
  unfold resolve. rewrite Hunb. pose proof (emit_performed r idx (D idx) _ (nready_lookup _ _ _ Hr) eq_refl) as Hem.
  cbn [source_] in *. rewrite Hem. cbn [mbind option_bind pending_moves_ with_base].
  destruct (pending_moves_ r) as [|m ms] eqn:Hp.
  - eexists. split; [|by apply direct_none]. apply perform_pending_none. cbn [pending_moves_ with_base]. rewrite Hp.
    intros m Hm. by apply not_elem_of_nil in Hm.
  - destruct stk as [|h tl].
    + destruct (nr_pend _ _ _ Hr) as [[E _]|(t & A & ty & b & E & _)]; [congruence|]. rewrite Hp in E. injection E as -> ->.
      by apply (direct_last r idx t A ty).
    + destruct (direct_waiting r idx h tl Hr) as [Hno Hpost]; [congruence|done|]. eexists. split; [|exact Hpost].
      by apply perform_pending_none.
Qed.

(** The scratch location the code generator gives. *)
Lemma allocate_spec r idx stk k :
  nready r idx stk -> pending_moves_ r = [] -> IsBlockedByMoves r (D idx) = true -> Kinds k ->
  exists t r', AllocateScratchLocationFor r k = Some (t, r') /\
    base_ r' = base_ r /\ pending_moves_ r' = [] /\ scratch_ok (scratches_ r') (backend_ r') /\
    Locs t /\ IsConstant t = false /\ (forall x, live (base_ r) x -> src (base_ r) x <> t) /\ t <> D idx /\
    (Scr t \/ exists y, live (base_ r) y /\ y <> idx /\ D y = t) /\ forall j, j ∈ stk -> t <> D j.
Proof.
  intros Hr Hp Hbl HK. pose proof (nr_inv _ _ _ Hr) as Hi. pose proof (NInv_lt _ _ _ Hi (nr_live _ _ _ Hr)) as Hlt.
  destruct (allocate_free r k (nr_scratch _ _ _ Hr) HK Hp) as (t & r' & Ha & Hb & Hpa & Hok & Hunb & Ht).
  { intros m l Hm Hl. destruct (elem_mv _ _ _ Hi Hm) as (x & _ & ->). apply not_true_iff_false.
    rewrite (NBlocks_spec _ _ x l Hi (proj1 (Scr_loc l Hl))). intros [Hx Hs].
    destruct (nr_pend _ _ _ Hr) as [[_ Hn]|(t' & A & ty & b & E & _)]; [|congruence]. apply (Hn x Hx). by rewrite Hs. }
  rewrite Hp in Hpa.
  assert (t <> D idx) as HtD by congruence.
  assert (Scr t \/ exists y, live (base_ r) y /\ y <> idx /\ D y = t /\ y ∉ stk) as Hty.
  { destruct Ht as [|(Hv & m & Hm & Hd)]; [by left|]. right. destruct (elem_mv _ _ _ Hi Hm) as (y & Hy & ->).
    exists y. change (destination_ (mv (base_ r) y)) with (dst (base_ r) y) in Hd.
    assert (live (base_ r) y) as Hly. { intros Hn. rewrite (ninv_dead _ _ Hi y) in Hd by (intros Hl; by apply Hl). congruence. }
    destruct (ninv_dst _ _ Hi y Hly) as [E|E]; [|congruence]. rewrite E in Hd. split_and!; [done| |done|].
    - intros ->. congruence.
    - intros Hin. apply (stack_pend _ _ (nr_stack _ _ _ Hr)) in Hin as [_ Hin].
      rewrite E in Hin. by apply (Locs_valid _ (D_loc _ Hy)). }
  assert (Locs t /\ IsConstant t = false) as [Lt Ct].
  { destruct Hty as [Hs|(y & Hy & _ & <- & _)]; [by apply Scr_loc|]. pose proof (NInv_lt _ _ _ Hi Hy). auto. }
  exists t, r'. split_and!; try done.
  - intros x Hx E. apply not_true_iff_false in Hunb. apply Hunb, blocked_spec; [done..|]. right. by exists x.
  - destruct Hty as [|(y & ? & ? & ? & _)]; [by left|right]. by exists y.
  - intros j Hj E. assert (live (base_ r) j) as Hlj by (eapply stack_live; [apply Hr|done]). pose proof (NInv_lt _ _ _ Hi Hlj) as Hltj.
    destruct Hty as [Hs|(y & Hy & _ & HD & Hyn)]; [rewrite E in Hs; by apply D_scr in Hs|].
    assert (y = j) as ->; [|done]. apply D_inj; [by eapply NInv_lt|done|congruence].
Qed.

(** The move closes a cycle and goes to a scratch location. *)
Lemma resolve_cycle r idx h tl b :
  nready r idx (h :: tl) -> pending_moves_ r = [] -> last (h :: tl) = Some b -> src (base_ r) b = D idx ->
  exists r', resolve r idx = Some r' /\ nperform_post r r' idx (h :: tl) (src (base_ r) idx).
Proof.
  intros Hr Hp Hla Hsb. pose proof (nr_inv _ _ _ Hr) as Hi. pose proof (nr_live _ _ _ Hr) as Hl.
  pose proof (NInv_lt _ _ _ Hi Hl) as Hlt. assert (b ∈ h :: tl) as Hbs by (by apply last_Some_elem_of).
  pose proof (stack_live _ _ _ (nr_stack _ _ _ Hr) Hbs) as Hlb. pose proof (nr_head _ _ _ Hr) as Hh. simpl in Hh.
  assert (live (base_ r) h) as Hlh by (eapply stack_live; [apply Hr|left]). pose proof (NInv_lt _ _ _ Hi Hlh) as Hlth.
  assert (idx <> h) as Hih by (intros ->; apply (nr_notin _ _ _ Hr); left).
  assert (D idx <> D h) as HDh by (intros HD; by apply Hih, D_inj).
  assert (IsBlockedByMoves r (D idx) = true) as Hbl by (apply blocked_spec; [done|by apply D_loc|]; right; by exists b).
  unfold resolve. rewrite Hbl. cbn [source_]. set (k := GetKind (src (base_ r) idx)).
  assert (Kinds k) as HK.
  { apply Locs_kind; [by apply (ninv_src _ _ Hi)|]. rewrite (nr_const _ _ _ Hr idx Hl). apply Hr. }
  destruct (allocate_spec r idx _ k Hr Hp Hbl HK) as (t & ra & -> & Ba & Pa & Sa & Lt & Ct & Hno & HtD & Hty & Hts).
  cbn [mbind option_bind].
  set (r2 := with_base ra _).
  assert (moves_ (base_ r2) !! idx = Some (Move (src (base_ r) idx) t (type_ (mv (base_ r) idx)))) as Hm2.
  { unfold r2, update_move. cbn [base_ with_base moves_]. rewrite Ba, list_lookup_alter_eq, (nready_lookup _ _ _ Hr). done. }
  pose proof (emit_performed r2 idx t _ Hm2 eq_refl) as Hem. cbn [source_] in Hem.
  destruct (emit_and_eliminate r2 idx) as [r3|]; [|done]. cbn [mbind option_bind] in Hem |- *.
  assert (UpdateMoveSource r3 (src (base_ r) idx) t = with_base r2 (performed (base_ r2) idx t)) as -> by congruence. clear Hem.
  assert (performed (base_ r2) idx t = performed (base_ r) idx t) as Eb.
  { unfold performed. assert (src (base_ r2) idx = src (base_ r) idx) as -> by (unfold src at 1, mv; by rewrite Hm2).
    unfold r2, update_move. cbn [base_ with_base moves_ emitted_]. rewrite Ba. by rewrite alter_eliminate_set. }
  rewrite Eb. set (ty := if _ : bool then _ else _). set (r4 := AddPendingMove _ t (D idx) ty).
  assert (base_ r4 = performed (base_ r) idx t) as B4 by done.
  assert (pending_moves_ r4 = [Move t (D idx) ty]) as P4.
  { unfold r4, AddPendingMove, r2. cbn [pending_moves_ with_base with_pending]. by rewrite Pa. }
  exists r4. split.
  { rewrite P4. apply perform_pending_none. rewrite P4. intros m ->%list_elem_of_singleton. cbn [destination_]. rewrite Hh.
    apply not_true_iff_false. intros Ho. by apply Locs_flat in Ho; [|apply D_loc..]. }
  destruct (performed_spec (base_ r) idx t Hl (Locs_valid _ Lt)) as (Plv & Psrc & _ & _).
  constructor; rewrite ?B4.
  - constructor; rewrite ?B4.
    + unfold pairs. rewrite P4. apply NInv_scratch; try done. unfold pairs in Hi. by rewrite Hp in Hi.
    + eapply const_performed; eauto; [apply Hr|apply Hr].
    + apply stack_performed; [apply Hr|done|apply Hr|by apply Locs_valid|done|]. intros i j. apply (stack_inj r); [done|apply Hr].
    + exact Sa.
    + right. exists t, (D idx), ty, b. rewrite B4. split_and!; try done.
      * rewrite Psrc by (intros ->; by apply (nr_notin _ _ _ Hr)). rewrite decide_False; [done|]. by rewrite Hsb, Hh.
      * intros x [Hx Hxi]%Plv. rewrite Psrc by done. destruct (decide _); [done|]. intros HS. exfalso.
        destruct (nr_pend _ _ _ Hr) as [[_ Hn]|(t' & A & ty' & b' & E & _)]; [by apply (Hn x)|congruence].
  - rewrite Plv. tauto.
  - by intros x [? _]%Plv.
  - intros _ x [Hx Hxi]%Plv. rewrite Psrc by done. rewrite Hh. destruct (decide _); [|congruence]. apply Hts. left.
Qed.

Lemma finish_spec r idx stk :
  nstate r (idx :: stk) -> C idx = false ->
  (pending_moves_ r = [] /\ src (base_ r) idx <> D idx /\
   forall x, live (base_ r) x -> x ∉ idx :: stk -> src (base_ r) x <> D idx) \/
  (forall x, live (base_ r) x -> src (base_ r) x <> D idx) ->
  exists r', finish r idx (D idx) = Some r' /\ nperform_post r r' idx stk (src (base_ r) idx).
Proof.
  intros Hs HC Hcase. rewrite (finish_resolve r idx stk Hs HC). pose proof (finish_ready r idx stk Hs HC) as Hr.
  set (r2 := with_base r _) in *. pose proof (nr_inv _ _ _ Hr) as Hi2.
  pose proof (stack_live _ _ idx (ns_stack _ _ Hs) ltac:(left)) as Hl. pose proof (live_in _ _ Hl) as Hlt.
  pose proof (NInv_lt _ _ _ (ns_inv _ _ Hs) Hl) as Hltn.
  assert (forall x, src (base_ r2) x = src (base_ r) x) as Hsrc by (intros x; by apply src_set_dst).
  assert (forall x, live (base_ r2) x <-> live (base_ r) x) as Hlv by (intros x; unfold live; by rewrite Hsrc).
  assert (forall r', nperform_post r2 r' idx stk (src (base_ r2) idx) -> nperform_post r r' idx stk (src (base_ r) idx)) as Hback.
  { intros r' [H1 H2 H3 H4]. rewrite Hsrc in H4. constructor; [done..| |done]. intros x Hx%H3. by apply Hlv. }
  destruct (IsBlockedByMoves r2 (D idx)) eqn:Hbl.
  - destruct Hcase as [(Hp & Hne & Ho)|Ho].
    + apply blocked_spec in Hbl as [(m & Hm & _)|(x & Hx & Hsx)]; [|..|done|by apply D_loc].
      { change (pending_moves_ r2) with (pending_moves_ r) in Hm. rewrite Hp in Hm. by apply not_elem_of_nil in Hm. }
      apply Hlv in Hx. rewrite Hsrc in Hsx. assert (x <> idx) as Hxi by congruence.
      destruct (decide (x ∈ stk)) as [Hin|Hin].
      2:{ exfalso. apply (Ho x Hx); [|done]. rewrite elem_of_cons. tauto. }
      destruct (chain_source (base_ r2) stk x (stack_chain _ _ (nr_stack _ _ _ Hr)) Hin) as [Hla|(j & Hj & Hsj)].
      * destruct stk as [|h tl]; [done|]. destruct (resolve_cycle r2 idx h tl x Hr Hp Hla) as (r' & Hr' & Hpost); [by rewrite Hsrc|].
        exists r'. split; [done|]. by apply Hback.
      * exfalso. apply tail_elem in Hj. rewrite Hsrc, Hsx in Hsj. apply (nr_notin _ _ _ Hr). assert (idx = j) as ->; [|done].
        apply D_inj; [done| |done]. eapply NInv_lt; [exact Hi2|]. eapply stack_live; [apply Hr|done].
    + destruct (resolve_direct r2 idx stk Hr) as (r' & Hr' & Hpost).
      { intros x Hx%Hlv. rewrite Hsrc. by apply Ho. }
      exists r'. split; [done|]. by apply Hback.
  - destruct (resolve_direct r2 idx stk Hr) as (r' & Hr' & Hpost).
    { intros x Hx E. apply not_true_iff_false in Hbl. apply Hbl, blocked_spec; [done|by apply D_loc|]. right. by exists x. }
    exists r'. split; [done|]. by apply Hback.
Qed.

(** ** The recursion *)

Lemma NInv_redundant b idx :
  NInv b [] -> live b idx -> src b idx = D idx -> NInv (update_move b idx Eliminate) [].
Proof.
  intros Hi Hl Hd. pose proof (live_in _ _ Hl) as Hlt. destruct b as [ms code]. set (b := Resolver ms code) in *.
  pose proof (fun x => live_drop b idx code x Hl) as Plv. pose proof (fun x => src_drop b idx code x Hl) as Psrc.
  cbn [moves_ b] in Plv, Psrc. fold b in Plv, Psrc.
  assert (forall x, dst (update_move b idx Eliminate) x = if decide (x = idx) then NoLocation else dst b x) as Pdst.
  { intros x. unfold dst. rewrite mv_update by done. by destruct (decide (x = idx)). }
  constructor.
  - unfold update_move. cbn [moves_]. rewrite length_alter. apply Hi.
  - intros x Hx. rewrite Pdst. destruct (decide (x = idx)); [done|]. apply (ninv_dead _ _ Hi). intros Hlx. by apply Hx, Plv.
  - intros x [Hx Hxi]%Plv. rewrite Pdst, decide_False by done. by apply (ninv_dst _ _ Hi).
  - intros x [Hx Hxi]%Plv. rewrite Psrc by done. by apply (ninv_src _ _ Hi).
  - intros x [Hx Hxi]%Plv. rewrite Psrc by done. by apply (ninv_sem _ _ Hi).
  - intros s d Hsd. by apply not_elem_of_nil in Hsd.
  - intros l Hs Hx _. destruct (decide (l = D idx)) as [->|].
    + rewrite <- (ninv_sem _ _ Hi idx Hl), Hd. done.
    + apply (ninv_done _ _ Hi); [done| |intros s d Hsd; by apply not_elem_of_nil in Hsd].
      intros x Hlx. destruct (decide (x = idx)) as [->|]; [congruence|]. apply Hx. by apply Plv.
Qed.

Definition nperform_spec (fuel : nat) : Prop := forall r idx stk,
  nstate r stk -> pending_moves_ r = [] -> live (base_ r) idx -> idx ∉ stk -> C idx = false ->
  match stk with [] => True | h :: _ => src (base_ r) idx = D h end -> (n - length stk <= fuel)%nat ->
  exists r', PerformMove fuel r idx = Some r' /\ nperform_post r r' idx stk (src (base_ r) idx).

(** Nothing blocks the destination: the loop does nothing. *)
Lemma loop_idle perform r idx indexes :
  NInv (base_ r) (pairs r) -> (idx < n)%nat -> Forall (fun i => i < n)%nat indexes ->
  (forall x, live (base_ r) x -> src (base_ r) x <> D idx) ->
  perform_blocking perform (D idx) indexes r = Some r.
Proof.
  intros Hi Hlt Hix Hno. induction Hix as [|i indexes Hlti Hix IH]; [done|]. cbn [perform_blocking].
  rewrite (mv_elem _ _ i Hi Hlti). cbn [mbind option_bind]. destruct (Blocks (mv (base_ r) i) (D idx)) eqn:E.
  - apply (NBlocks_spec _ _ i _ Hi (D_loc _ Hlt)) in E as [Hl Hs]. by apply Hno in Hs.
  - done.
Qed.

Lemma loop_spec fuel r idx stk indexes :
  nperform_spec fuel -> nstate r (idx :: stk) -> pending_moves_ r = [] -> Forall (fun i => i < n)%nat indexes ->
  (n - length (idx :: stk) <= fuel)%nat ->
  exists r', perform_blocking (PerformMove fuel) (D idx) indexes r = Some r' /\
    ((r' = r /\ forall i, i ∈ indexes -> live (base_ r) i -> i ∉ idx :: stk -> src (base_ r) i <> D idx) \/
     (exists i, nperform_post r r' i (idx :: stk) (D idx))).
Proof.
  intros HP Hs Hp Hix Hf. pose proof (ns_inv _ _ Hs) as Hi.
  pose proof (NInv_lt _ _ _ Hi (stack_live _ _ idx (ns_stack _ _ Hs) ltac:(left))) as Hlt.
  induction Hix as [|i indexes Hlti Hix IH]; cbn [perform_blocking].
  { exists r. split; [done|]. left. split; [done|]. intros i Hin. by apply not_elem_of_nil in Hin. }
  rewrite (mv_elem _ _ i Hi Hlti). cbn [mbind option_bind].
  destruct (Blocks (mv (base_ r) i) (D idx) && negb (IsPending (mv (base_ r) i))) eqn:E.
  - apply andb_true_iff in E as [Hb Hnp%negb_true_iff]. apply (NBlocks_spec _ _ i _ Hi (D_loc _ Hlt)) in Hb as [Hl Hsrc].
    pose proof (not_pending _ _ _ (ns_stack _ _ Hs) Hl Hnp) as Hnin.
    assert (C i = false) as HC by (rewrite <- (ns_const _ _ Hs i Hl), Hsrc; by apply D_var).
    destruct (HP r i (idx :: stk)) as (r' & -> & Hpost); [done..|]. cbn [mbind option_bind]. rewrite Hsrc in Hpost.
    exists r'. split; [|right; by exists i]. apply loop_idle; [apply Hpost|done|done|]. by apply (np_source _ _ _ _ _ Hpost).
  - cbn [mbind option_bind]. destruct IH as (r' & Hr' & [[-> Hno]|Hpost]).
    + exists r. split; [done|]. left. split; [done|]. intros j Hj Hlj Hjs. apply elem_of_cons in Hj as [->|Hj]; [|by apply Hno].
      intros Hsrc. rewrite (proj2 (NBlocks_spec _ _ i (D idx) Hi (D_loc _ Hlt))) in E by done. simpl in E.
      apply negb_false_iff in E. by apply Hjs, (is_pending _ _ _ (ns_stack _ _ Hs)).
    + exists r'. split; [done|]. by right.
Qed.

Lemma nstate_push r idx stk :
  nstate r stk -> pending_moves_ r = [] -> live (base_ r) idx -> idx ∉ stk ->
  match stk with [] => True | h :: _ => src (base_ r) idx = D h end ->
  nstate (with_base r (update_move (base_ r) idx (fun m => SetDestination m NoLocation))) (idx :: stk).
Proof.
  intros [Hi Hc Hs Hsc Hp] Hpe Hl Hn Hh. pose proof (live_in _ _ Hl) as Hlt.
  set (b := update_move _ _ _). assert (forall x, src b x = src (base_ r) x) as Hsrc by (intros x; by apply src_set_dst).
  constructor; cbn [base_ with_base].
  - apply NInv_set_dst; [done..|by right].
  - intros x Hx. unfold live in Hx. rewrite Hsrc in Hx |- *. by apply Hc.
  - by apply stack_push.
  - done.
  - left. split; [done|]. cbn [base_ with_base]. intros x Hx. unfold live in Hx. rewrite Hsrc in Hx |- *.
    destruct Hp as [[_ Hp]|(t & A & ty & b' & E & _)]; [by apply Hp|congruence].
Qed.

Lemma redundant_post r idx stk :
  nstate r stk -> pending_moves_ r = [] -> live (base_ r) idx -> idx ∉ stk -> src (base_ r) idx = D idx ->
  match stk with [] => True | h :: _ => src (base_ r) idx = D h end ->
  nperform_post r (with_base r (update_move (base_ r) idx Eliminate)) idx stk (src (base_ r) idx).
Proof.
  intros [Hi Hc Hs Hsc Hp] Hpe Hl Hn Hd Hh. pose proof (NInv_lt _ _ _ Hi Hl) as Hlt. destruct stk as [|h tl].
  2:{ exfalso. apply Hn. assert (idx = h) as ->; [|left]. apply D_inj; [done| |congruence].
      eapply NInv_lt; [done|]. eapply stack_live; [done|left]. }
  pose proof (fun x => live_drop (base_ r) idx (emitted_ (base_ r)) x Hl) as Plv.
  pose proof (fun x => src_drop (base_ r) idx (emitted_ (base_ r)) x Hl) as Psrc. rewrite resolver_eta in Plv, Psrc.
  constructor; [constructor| | |done]; cbn [base_ with_base].
  - unfold pairs in *. cbn [pending_moves_ with_base]. rewrite Hpe in Hi |- *. by apply NInv_redundant.
  - intros x [Hx Hxi]%Plv. rewrite Psrc by done. by apply Hc.
  - rewrite <- (resolver_eta (base_ r)). apply stack_drop; done.
  - done.
  - left. split; [done|]. cbn [base_ with_base]. intros x [Hx Hxi]%Plv. rewrite Psrc by done.
    destruct Hp as [[_ Hp]|(t & A & ty & b' & E & _)]; [by apply Hp|congruence].
  - rewrite Plv. tauto.
  - by intros x [? _]%Plv.
Qed.

Lemma nperform_correct fuel : nperform_spec fuel.
Proof.
  induction fuel as [|fuel IH]; intros r idx stk Hs Hp Hl Hn HC Hh Hf;
    pose proof (nstate_push r idx stk Hs Hp Hl Hn Hh) as Hs1;
    pose proof (stack_length n _ _ (ninv_length _ _ (ns_inv _ _ Hs1)) (ns_stack _ _ Hs1)) as Hsl; cbn [length] in Hsl; [lia|].
  pose proof (ns_inv _ _ Hs) as Hi. pose proof (NInv_lt _ _ _ Hi Hl) as Hlt. cbn [PerformMove].
  assert (dst (base_ r) idx = D idx) as Hd.
  { destruct (ninv_dst _ _ Hi idx Hl) as [|E]; [done|]. exfalso. apply Hn, (stack_pend _ _ (ns_stack _ _ Hs)). by split. }
  rewrite (live_lookup _ _ Hl). cbn [mbind option_bind].
  change (destination_ (mv (base_ r) idx)) with (dst (base_ r) idx). rewrite Hd.
  assert (IsRedundant (mv (base_ r) idx) = Equals (src (base_ r) idx) (D idx)) as ->.
  { unfold IsRedundant. rewrite (proj2 (IsEliminated_spec _ _) Hl). unfold dst in Hd. rewrite Hd. unfold IsInvalid.
    rewrite (proj2 (IsValid_spec (D idx)) (Locs_valid _ (D_loc _ Hlt))). done. }
  destruct (Equals (src (base_ r) idx) (D idx)) eqn:Eq.
  - eexists. split; [done|]. apply redundant_post; [done..|by apply Location_Equals_spec|done].
  - assert (src (base_ r) idx <> D idx) as Hne by (intros E; apply Location_Equals_spec in E; congruence).
    change (update_move (base_ r) idx (fun m => (MarkPending m).1)) with (update_move (base_ r) idx (fun m => SetDestination m NoLocation)).
    set (r1 := with_base r _) in *.
    assert (forall x, src (base_ r1) x = src (base_ r) x) as Hsrc by (intros x; apply src_set_dst; by apply live_in).
    destruct (loop_spec fuel r1 idx stk (seq 0 (length (moves_ (base_ r1)))) IH Hs1 Hp) as (r2 & -> & Hcase).
    { rewrite (ninv_length _ _ (ns_inv _ _ Hs1)). apply Forall_seq. lia. }
    { cbn [length]. lia. }
    cbn [mbind option_bind].
    assert (nstate r2 (idx :: stk) /\ below (base_ r) (base_ r2) /\ (stk <> [] -> src (base_ r2) idx = src (base_ r) idx) /\
      ((pending_moves_ r2 = [] /\ src (base_ r2) idx <> D idx /\
        forall x, live (base_ r2) x -> x ∉ idx :: stk -> src (base_ r2) x <> D idx) \/
       (forall x, live (base_ r2) x -> src (base_ r2) x <> D idx))) as (Hs2 & Hb2 & He2 & Hcase2).
    { destruct Hcase as [[-> Hno]|(i & Hpost)].
      - split_and!; [done|by intros x; unfold live; rewrite Hsrc|by rewrite Hsrc|]. left. rewrite Hsrc. split_and!; [done..|].
        intros x Hx Hxs. apply Hno; [|done..]. apply elem_of_seq. pose proof (live_in _ _ Hx). lia.
      - split_and!; [apply Hpost| | |right; by apply (np_source _ _ _ _ _ Hpost)].
        + intros x Hx%(np_below _ _ _ _ _ Hpost). unfold live in *. by rewrite <- Hsrc.
        + intros Hne'. destruct stk as [|h tl]; [done|]. rewrite Hh. apply (stack_chain _ _ (ns_stack _ _ (np_state _ _ _ _ _ Hpost))). }
    destruct (finish_spec r2 idx stk Hs2 HC Hcase2) as (r' & -> & [H1 H2 H3 H4]). exists r'. split; [done|].
    constructor; [done..|by eapply below_trans|]. intros Hne'. rewrite <- He2 by done. by apply H4.
Qed.

(** ** The passes over the moves *)

Lemma perform_all_spec r indexes :
  Forall (fun i => i < n)%nat indexes -> nstate r [] ->
  exists r', perform_all r indexes = Some r' /\ nstate r' [] /\ below (base_ r) (base_ r') /\
    forall i, i ∈ indexes -> live (base_ r') i -> C i = true.
Proof.
  intros Hix. revert r. induction Hix as [|i indexes Hlt Hix IH]; intros r Hs; cbn [perform_all].
  { exists r. split_and!; [done..|by intros x|]. intros i Hin. by apply not_elem_of_nil in Hin. }
  pose proof (ns_inv _ _ Hs) as Hi. rewrite (mv_elem _ _ i Hi Hlt). cbn [mbind option_bind].
  assert (exists r1, (if negb (IsEliminated (mv (base_ r) i)) && negb (IsConstant (source_ (mv (base_ r) i)))
      then PerformMove (length (moves_ (base_ r))) r i else Some r) = Some r1 /\ nstate r1 [] /\
      below (base_ r) (base_ r1) /\ (live (base_ r1) i -> C i = true)) as (r1 & -> & Hs1 & Hb1 & Hl1).
  { destruct (IsEliminated (mv (base_ r) i)) eqn:Ee; cbn [negb andb].
    { exists r. split_and!; [done..|by intros x|]. intros Hl%IsEliminated_spec. congruence. }
    apply IsEliminated_spec in Ee. pose proof (ns_const _ _ Hs i Ee) as HC. unfold src in HC. rewrite HC.
    destruct (C i) eqn:EC; cbn [negb]; [by exists r; split_and!; [done..|by intros x|]|].
    destruct (nperform_correct (length (moves_ (base_ r))) r i []) as (r1 & -> & [H1 H2 H3 _]); try done.
    - destruct (ns_pend _ _ Hs) as [[? _]|(t & A & ty & b & _ & Hla & _)]; done.
    - apply not_elem_of_nil.
    - rewrite (ninv_length _ _ Hi). cbn [length]. lia.
    - by exists r1. }
  cbn [mbind option_bind]. destruct (IH r1 Hs1) as (r' & -> & Hs' & Hb' & Hl'). exists r'.
  split_and!; [done..|by eapply below_trans|]. intros j Hj Hlj. apply elem_of_cons in Hj as [->|Hj]; [|by apply Hl'].
  by apply Hl1, Hb'.
Qed.

(** No move that is left blocks another one. *)
Record unblocked (b : resolver) : Prop := {
  un_inv : NInv b [];
  un_stack : stack_ok b [];
  un_src : forall x y, live b x -> live b y -> src b x <> D y }.

Lemma unblocked_lookup b i : unblocked b -> live b i -> moves_ b !! i = Some (Move (src b i) (D i) (type_ (mv b i))).
Proof.
  intros [Hi Hs _] Hl. rewrite (live_lookup _ _ Hl). destruct (ninv_dst _ _ Hi i Hl) as [<-|E].
  - unfold src, dst. by destruct (mv b i).
  - exfalso. apply (not_elem_of_nil i). by apply (stack_pend _ _ Hs).
Qed.

Lemma unblocked_performed b i : unblocked b -> live b i -> unblocked (performed b i (D i)).
Proof.
  intros [Hi Hs Hb] Hl. pose proof (NInv_lt _ _ _ Hi Hl) as Hlt. pose proof (Locs_valid _ (D_loc _ Hlt)) as Hv.
  destruct (performed_spec b i (D i) Hl Hv) as (Plv & Psrc & _ & _). constructor.
  - apply NInv_direct; [done..|by intros x Hx; apply Hb|intros s d Hsd; by apply not_elem_of_nil in Hsd].
  - apply stack_performed; try done; [apply not_elem_of_nil|]. intros x y Hx. by apply not_elem_of_nil in Hx.
  - intros x y [Hx Hxi]%Plv [Hy Hyi]%Plv. rewrite Psrc by done. destruct (decide _); [|by apply Hb].
    intros HD. apply Hyi. symmetry. apply D_inj; [done|by eapply NInv_lt|done].
Qed.

Lemma unblocked_emitted b i :
  unblocked b -> live b i ->
  unblocked (update_move (Resolver (moves_ b) (emitted_ b ++ [EmittedMove (src b i) (D i)])) i Eliminate).
Proof.
  intros Hu Hl. pose proof Hu as [Hi Hs Hb]. pose proof (live_in _ _ Hl) as Hltm.
  pose proof (unblocked_performed b i Hu Hl) as [Hi' _ _].
  set (b' := update_move _ _ _). pose proof (fun x => live_drop b i (emitted_ b ++ [EmittedMove (src b i) (D i)]) x Hl) as Plv.
  pose proof (fun x => src_drop b i (emitted_ b ++ [EmittedMove (src b i) (D i)]) x Hl) as Psrc. fold b' in Plv, Psrc.
  destruct (performed_spec b i (D i) Hl (Locs_valid _ (D_loc _ (NInv_lt _ _ _ Hi Hl)))) as (Plv' & _ & Pdst' & Pnow').
  assert (forall x, dst b' x = dst (performed b i (D i)) x) as Pdst.
  { intros x. unfold performed. rewrite (proj2 (mv_retarget _ _ _ x Hl)). done. }
  assert (forall x, live b' x <-> live (performed b i (D i)) x) as Elv by (intros x; by rewrite Plv, Plv').
  constructor; [constructor| |].
  - unfold b', update_move. cbn [moves_]. rewrite length_alter. apply Hi.
  - intros x. rewrite Pdst, Elv. apply Hi'.
  - intros x. rewrite Pdst, Elv. apply Hi'.
  - intros x [Hx Hxi]%Plv. rewrite Psrc by done. by apply (ninv_src _ _ Hi).
  - intros x [Hx Hxi]%Plv. rewrite Psrc by done. change (now b') with (now (performed b i (D i))).
    rewrite Pnow', decide_False by (by apply Hb). by apply (ninv_sem _ _ Hi).
  - intros s d Hsd. by apply not_elem_of_nil in Hsd.
  - intros l H1 H2 H3. apply (ninv_done _ _ Hi'); [done| |done]. intros x Hx%Elv. by apply H2.
  - by apply stack_drop; [..|apply not_elem_of_nil].
  - intros x y [Hx Hxi]%Plv [Hy Hyi]%Plv. rewrite Psrc by done. by apply Hb.
Qed.

Lemma perform_register_constants_spec r indexes :
  Forall (fun i => i < n)%nat indexes -> unblocked (base_ r) ->
  exists r', perform_register_constants r indexes = Some r' /\ unblocked (base_ r') /\ pending_moves_ r' = pending_moves_ r.
Proof.
  intros Hix. revert r. induction Hix as [|i indexes Hlt Hix IH]; intros r Hu; cbn [perform_register_constants]; [by exists r|].
  rewrite (mv_elem _ _ i (un_inv _ Hu) Hlt). cbn [mbind option_bind].
  destruct (negb (IsEliminated (mv (base_ r) i)) && _ && _) eqn:E; [|cbn [mbind option_bind]; by apply IH].
  apply andb_true_iff in E as [[Hl%negb_true_iff%IsEliminated_spec _]%andb_true_iff _].
  pose proof (unblocked_lookup _ _ Hu Hl) as Hlk. rewrite (live_lookup _ _ Hl) in Hlk. injection Hlk as Hlk.
  assert (destination_ (mv (base_ r) i) = D i) as Hd by (by rewrite Hlk). rewrite Hd.
  rewrite (emit_performed r i (D i) (mv (base_ r) i)); [|by apply live_lookup|done]. cbn [mbind option_bind].
  destruct (IH (with_base r (performed (base_ r) i (D i)))) as (r' & -> & Hu' & Hp'); [by apply unblocked_performed|].
  by exists r'.
Qed.

Lemma perform_rest_spec r indexes :
  Forall (fun i => i < n)%nat indexes -> unblocked (base_ r) ->
  exists r', perform_rest r indexes = Some r' /\ unblocked (base_ r') /\ pending_moves_ r' = pending_moves_ r /\
    below (base_ r) (base_ r') /\ forall i, i ∈ indexes -> ~ live (base_ r') i.
Proof.
  intros Hix. revert r. induction Hix as [|i indexes Hlt Hix IH]; intros r Hu; cbn [perform_rest].
  { exists r. split_and!; [done..|by intros x|]. intros i Hin. by apply not_elem_of_nil in Hin. }
  rewrite (mv_elem _ _ i (un_inv _ Hu) Hlt). cbn [mbind option_bind].
  destruct (IsEliminated (mv (base_ r) i)) eqn:E; cbn [negb mbind option_bind].
  - destruct (IH r Hu) as (r' & -> & Hu' & Hp' & Hb' & Hd'). exists r'. split_and!; try done.
    intros j Hj. apply elem_of_cons in Hj as [->|Hj]; [|by apply Hd']. intros Hl%Hb'%IsEliminated_spec. congruence.
  - apply IsEliminated_spec in E as Hl. unfold emit_and_eliminate, EmitMove. rewrite (unblocked_lookup _ _ Hu Hl).
    cbn [mbind option_bind source_ destination_].
    destruct (IH (with_base r (update_move (Resolver (moves_ (base_ r)) (emitted_ (base_ r) ++ [EmittedMove (src (base_ r) i) (D i)]))
      i Eliminate))) as (r' & -> & Hu' & Hp' & Hb' & Hd'); [by apply unblocked_emitted|].
    exists r'. split_and!; try done.
    + intros x Hx%Hb'. cbn [base_ with_base] in Hx. by apply live_drop in Hx as [? _].
    + intros j Hj. apply elem_of_cons in Hj as [->|Hj]; [|by apply Hd']. intros Hx%Hb'. cbn [base_ with_base] in Hx.
      by apply live_drop in Hx as [_ ?].
Qed.

Lemma no_swap_flat r :
  nstate r [] -> pending_moves_ r = [] ->
  exists r', (r ← perform_all r (seq 0 n); r ← perform_register_constants r (seq 0 n); perform_rest r (seq 0 n)) = Some r' /\
    pending_moves_ r' = [] /\ forall l, ~ Scr l -> now (base_ r') l = final l.
Proof.
  intros Hs Hp. assert (Forall (fun i => i < n)%nat (seq 0 n)) as Hix by (apply Forall_seq; lia).
  destruct (perform_all_spec r _ Hix Hs) as (r1 & -> & Hs1 & _ & HC). cbn [mbind option_bind].
  assert (pending_moves_ r1 = []) as Hp1.
  { destruct (ns_pend _ _ Hs1) as [[? _]|(t & A & ty & b & _ & Hla & _)]; done. }
  destruct (perform_register_constants_spec r1 _ Hix) as (r2 & -> & Hu2 & Hp2).
  { constructor; [|apply Hs1|].
    - pose proof (ns_inv _ _ Hs1) as Hi1. unfold pairs in Hi1. by rewrite Hp1 in Hi1.
    - intros x y Hx Hy E. pose proof (NInv_lt _ _ _ (ns_inv _ _ Hs1) Hx). pose proof (NInv_lt _ _ _ (ns_inv _ _ Hs1) Hy).
      assert (C x = true) as HCx by (apply HC; [apply elem_of_seq; lia|done]).
      rewrite <- (ns_const _ _ Hs1 x Hx), E, D_var in HCx by done. done. }
  cbn [mbind option_bind]. destruct (perform_rest_spec r2 _ Hix Hu2) as (r3 & -> & Hu3 & Hp3 & _ & Hd3).
  exists r3. split_and!; [done|congruence|]. intros l Hl. apply (ninv_done _ _ (un_inv _ Hu3)); [done| |].
  - intros x Hx. exfalso. apply (Hd3 x); [|done]. apply elem_of_seq. pose proof (NInv_lt _ _ _ (un_inv _ Hu3) Hx). lia.
  - intros s d Hsd. by apply not_elem_of_nil in Hsd.
Qed.
End flat.

(** The initial state. *)
Lemma flat_apart pm m m' :
  valid_moves pm -> m ∈ pm -> m' ∈ pm -> meet flat (destination_ m) (destination_ m') -> m = m'.
Proof.
  intros [_ Hn] Hm Hm' E%meet_narrow%cells_narrow; [|done..].
  apply list_elem_of_lookup_1 in Hm as [i Hi], Hm' as [j Hj]. assert (i = j) as <-; [|congruence].
  eapply NoDup_lookup; [exact Hn| |]; change (map destination_ pm) with (destination_ <$> pm); rewrite list_lookup_fmap.
  - by rewrite Hi.
  - rewrite Hj. simpl. by rewrite E.
Qed.

Section initial_flat.
Context {V B : Type} (s0 : Location -> V) (pm : list MoveOperands) (Scr : Location -> Prop) (Kinds : Kind -> Prop).
Context {ops : ScratchOps B} {laws : ScratchLaws ops Scr Kinds}.
Context (Hv : valid_moves pm).
Context (HS : forall l, Scr l -> ~ l ∈ locations pm /\ l <> NoLocation /\ IsConstant l = false).
Context (Hf : forall x y, (x ∈ locations pm) \/ Scr x -> (y ∈ locations pm) \/ Scr y -> OverlapsWith x y = true -> x = y).
Context (HK : forall l, (l ∈ locations pm) \/ Scr l -> IsConstant l = false -> Kinds (GetKind l)).
#[local] Set Default Proof Using "All".
Abbreviation ms := (BuildInitialMoveList pm).
Abbreviation r0 := (Resolver ms []).

Lemma initial_source x : live r0 x -> src r0 x ∈ locations pm.
Proof. intros [Hx _]%(initial_elem pm Hv). apply elem_of_app. left. by apply (list_elem_of_fmap_2 source_). Qed.

Lemma initial_nstate (r : no_swap B) :
  base_ r = r0 -> pending_moves_ r = [] -> scratch_ok (scratches_ r) (backend_ r) ->
  nstate s0 (parallel flat id id pm s0) (length ms) (dst r0) (fun l => (l ∈ locations pm) \/ Scr l) Scr Kinds
    (fun x => IsConstant (src r0 x)) r [].
Proof.
  intros Hb Hp Hok. constructor; rewrite ?Hb; [|done|apply (initial_stack pm Hv)|done|].
  - unfold pairs. rewrite Hp. constructor.
    + done.
    + apply (initial_dead pm Hv).
    + by left.
    + intros x Hx. left. by apply initial_source.
    + intros x Hx. rewrite <- (initial_sem flat id id s0 pm Hv (fun m m' => flat_apart pm m m' Hv) x (dst r0 x)); [done|done|].
      by apply cells_narrow.
    + intros s d Hsd. by apply not_elem_of_nil in Hsd.
    + intros l _ Hx _. apply (initial_done flat id id s0 pm Hv). intros x Hlx Hc. by apply (Hx x); [|apply cells_narrow in Hc].
  - left. split; [done|]. rewrite Hb. intros x Hx%initial_source Hs. by apply HS in Hs as [? _].
Qed.

Lemma no_swap_run (b : B) :
  exists code, EmitNativeCode b pm = Some (code, []) /\
    forall l, ~ Scr l -> exec_all flat id id s0 code l = parallel flat id id pm s0 l.
Proof.
  assert (forall x, (x < length ms)%nat -> mv r0 x ∈ pm) as Hel
    by (intros x Hx%(initial_live pm Hv); by apply (initial_elem pm)).
  assert (forall x, (x < length ms)%nat -> dst r0 x ∈ locations pm) as HD.
  { intros x Hx%Hel. apply elem_of_app. right. by apply (list_elem_of_fmap_2 destination_). }
  destruct (prepare_state b) as (Hb1 & Hp1 & Hs1).
  set (r1 := with_base (PrepareForEmitNativeCode (NoSwap (Resolver [] []) [] [] b)) r0).
  edestruct (no_swap_flat s0 (parallel flat id id pm s0) (length ms) (dst r0)
    (fun l => (l ∈ locations pm) \/ Scr l) Scr Kinds (fun x => IsConstant (src r0 x))) with (r := r1) as (r' & Hr & Hp & Hl).
  - intros x Hx. left. by apply HD.
  - by apply (initial_destinations pm Hv).
  - intros x Hx%Hel. by apply (initial_valid pm Hv).
  - intros x Hx%HD Hs. by apply HS in Hs as [? _].
  - intros l [Hl|Hl]; [|by apply HS in Hl as (_ & ? & _)].
    apply elem_of_app in Hl as [(m & -> & Hm)%(list_elem_of_fmap_1 _)|(m & -> & Hm)%(list_elem_of_fmap_1 _)];
      by apply (initial_valid pm Hv) in Hm as (? & ? & _).
  - done.
  - intros l Hl. split; [by right|]. by apply HS in Hl as (_ & _ & ?).
  - done.
  - by apply initial_nstate.
  - done.
  - exists (emitted_ (base_ r')). split; [|exact Hl]. unfold EmitNativeCode. rewrite Hb1. cbn [emitted_]. fold r1. cbv zeta.
    cbn [moves_ base_ with_base r1] in Hr |- *. fold r1 in Hr |- *.
    destruct (perform_all r1 _) as [r2|]; [|done]. cbn [mbind option_bind] in *.
    destruct (perform_register_constants r2 _) as [r3|]; [|done]. cbn [mbind option_bind] in *. rewrite Hr. cbn [mbind option_bind].
    by rewrite finish_state, Hp.
Qed.
End initial_flat.
