(* ===== verification/ParallelMoveScratch.v ===== *)
(** The scratch locations of the code generators, and the correctness of the resolver that uses them.

    [ParallelMoveResolverARM64] of compiler/optimizing/code_generator_arm64.cc takes temporaries from
    VIXL, whose scope of scratch registers is the parameter [vixl_temps] with the laws [vixl_laws];
    [TestParallelMoveResolverNoSwap] of compiler/optimizing/parallel_move_test.cc makes up registers.
    Both are shown to be what [ParallelMoveResolverNoSwap] relies on. *)
From S2P Require Import Prelude Locations ParallelMove ParallelMoveNoSwap.

(** ** Searching a scratch location *)

Section search.
Context {B : Type}.
Implicit Types (r : no_swap B).

Definition with_backend (r : no_swap B) (b : B) : no_swap B :=
  NoSwap (base_ r) (scratches_ r) (pending_moves_ r) b.

Lemma GetScratchLocation_found r k :
  GetScratchLocation r k <> NoLocation ->
  GetKind (GetScratchLocation r k) = k /\ IsBlockedByMoves r (GetScratchLocation r k) = false /\
  (GetScratchLocation r k ∈ scratches_ r \/ exists m, m ∈ moves_ (base_ r) /\ destination_ m = GetScratchLocation r k).
Proof.
  unfold GetScratchLocation. destruct (List.find _ (scratches_ r)) as [l|] eqn:E1.
  - intros _. apply find_some in E1 as [Hl [Hk%bool_decide_eq_true Hb%negb_true_iff]%andb_true_iff].
    apply list_elem_of_In in Hl. split_and!; [done..|by left].
  - destruct (List.find _ (moves_ (base_ r))) as [m|] eqn:E2; [|done]. intros _.
    apply find_some in E2 as [Hm [Hk%bool_decide_eq_true Hb%negb_true_iff]%andb_true_iff]. apply list_elem_of_In in Hm.
    split_and!; [done..|right; by exists m].
Qed.

Lemma GetScratchLocation_none r k l :
  k <> kInvalid -> GetScratchLocation r k = NoLocation -> l ∈ scratches_ r -> GetKind l = k -> IsBlockedByMoves r l = true.
Proof.
  unfold GetScratchLocation. intros Hk E Hl Hkl. destruct (List.find _ (scratches_ r)) as [l'|] eqn:E1.
  - apply find_some in E1 as [_ [Hk'%bool_decide_eq_true _]%andb_true_iff]. subst l'. by destruct Hk.
  - apply find_none with (x := l) in E1; [|by apply list_elem_of_In]. apply andb_false_iff in E1 as [E1|E1].
    + by apply bool_decide_eq_false in E1.
    + by apply negb_false_iff in E1.
Qed.

Lemma unused_unblocked r l :
  pending_moves_ r = [] -> (forall m, m ∈ moves_ (base_ r) -> Blocks m l = false) -> IsBlockedByMoves r l = false.
Proof.
  intros Hp Hm. unfold IsBlockedByMoves. rewrite Hp. simpl. apply not_true_iff_false. rewrite existsb_exists.
  intros (m & Hin%list_elem_of_In & Hb). by rewrite Hm in Hb.
Qed.

Lemma AddScratchLocation_new r l :
  l ∉ scratches_ r -> AddScratchLocation r l = Some (with_scratches r (scratches_ r ++ [l])).
Proof.
  intros Hn. unfold AddScratchLocation. destruct (existsb _ _) eqn:E; [|done].
  apply existsb_exists in E as (x & Hx%list_elem_of_In & ->%Location_Equals_spec). done.
Qed.
End search.

Lemma remove_first_spec l s : NoDup s -> NoDup (remove_first l s) /\ forall l', l' ∈ remove_first l s <-> l' ∈ s /\ l' <> l.
Proof.
  induction s as [|x s IH]; cbn [remove_first]; intros Hn; [split; [done|intros l'; rewrite elem_of_nil; tauto]|]. apply NoDup_cons in Hn as [Hx Hn].
  destruct (Equals l x) eqn:E.
  - apply Location_Equals_spec in E as <-. split; [done|]. intros l'. rewrite elem_of_cons. split; [|tauto].
    intros Hl. split; [by right|]. by intros ->.
  - apply bool_decide_eq_false in E. destruct (IH Hn) as [H1 H2]. split.
    + apply NoDup_cons. split; [|done]. rewrite H2. tauto.
    + intros l'. rewrite !elem_of_cons, H2. split; [|tauto]. intros [->|[? ?]]; [|tauto]. split; [by left|done].
Qed.

Lemma remove_first_length l s : (length (remove_first l s) <= length s)%nat.
Proof. induction s as [|x s IH]; cbn [remove_first]; [done|]. destruct (Equals l x); simpl; lia. Qed.

(** ** ARM64 *)

(** The sizes of a vector register: D, Q and Z. *)
Inductive vector_size := DReg | QReg | ZReg.

(** VIXL's [UseScratchRegisterScope]; registers are their codes, and acquiring one when none is left
    is an error. *)
Class vixl_temps (P : Type) := {
  Open : P -> P;
  Close : P -> P;
  AcquireX : P -> option (Z * P);
  AcquireV : P -> vector_size -> option (Z * P);
  ReleaseX : P -> Z -> P;
  ReleaseV : P -> vector_size -> Z -> P;
  kSPRegInternalCode : Z;
  kZeroRegCode : Z }.

Section arm64.
Context {P : Type} `{vixl_temps P}.
(** The graph has SIMD instructions, and the size of the registers they use: Q for NEON, Z for SVE. *)
Context (HasSIMD : bool) (simd : vector_size).

Definition VIXLRegCodeFromART (code : Z) : Z :=
  if code =? 31 then kSPRegInternalCode else if code =? 32 then kZeroRegCode else code.
Definition ARTRegCodeFromVIXL (code : Z) : Z :=
  if code =? kSPRegInternalCode then 31 else if code =? kZeroRegCode then 32 else code.

Definition AllocateSIMDScratchLocation (scope : P) : option (Location * P) :=
  '(c, scope) ← AcquireV scope simd;
  Some (FpuRegisterLocation c, scope).
Definition FreeSIMDScratchLocation (reg : Z) (scope : P) : P := ReleaseV scope simd reg.

Definition ARM64_AllocateScratchLocationFor (r : no_swap P) (kind : Kind) : option (Location * no_swap P) :=
  if decide (kind ∈ [kRegister; kFpuRegister; kStackSlot; kDoubleStackSlot; kSIMDStackSlot]) then
    let kind := if decide (kind = kFpuRegister \/ kind = kSIMDStackSlot) then kFpuRegister else kRegister in
    let scratch := GetScratchLocation r kind in
    if negb (Equals scratch NoLocation) then Some (scratch, r)
    else
      '(scratch, temps) ←
        if decide (kind = kRegister) then
          '(c, temps) ← AcquireX (backend_ r);
          Some (RegisterLocation (ARTRegCodeFromVIXL c), temps)
        else if HasSIMD then AllocateSIMDScratchLocation (backend_ r)
        else
          '(c, temps) ← AcquireV (backend_ r) DReg;
          Some (FpuRegisterLocation c, temps);
      r ← AddScratchLocation (with_backend r temps) scratch;
      Some (scratch, r)
  else None.

Definition ARM64_FreeScratchLocation (r : no_swap P) (loc : Location) : option (no_swap P) :=
  temps ←
    match loc with
    | RegisterLocation reg => Some (ReleaseX (backend_ r) (VIXLRegCodeFromART reg))
    | FpuRegisterLocation reg =>
        Some (if HasSIMD then FreeSIMDScratchLocation reg (backend_ r) else ReleaseV (backend_ r) DReg reg)
    | _ => None
    end;
  RemoveScratchLocation (with_backend r temps) loc.

Definition ParallelMoveResolverARM64 : ScratchOps P :=
  {| PrepareForEmitNativeCode := fun r => with_backend r (Open (backend_ r));
     FinishEmitNativeCode := fun r => with_backend r (Close (backend_ r));
     AllocateScratchLocationFor := ARM64_AllocateScratchLocationFor;
     FreeScratchLocation := ARM64_FreeScratchLocation |}.
End arm64.

(** [x_temps] and [v_temps] are the scratch registers of the assembler. *)
Class vixl_laws {P : Type} (temps : vixl_temps P) (x_temps v_temps : gset Z) := {
  x_available : P -> gset Z;
  v_available : P -> gset Z;
  open_available p : x_available (Open p) = x_temps /\ v_available (Open p) = v_temps;
  acquire_x p :
    x_available p <> ∅ ->
    exists c p', AcquireX p = Some (c, p') /\ c ∈ x_available p /\
      x_available p' = x_available p ∖ {[c]} /\ v_available p' = v_available p;
  acquire_v p size :
    v_available p <> ∅ ->
    exists c p', AcquireV p size = Some (c, p') /\ c ∈ v_available p /\
      v_available p' = v_available p ∖ {[c]} /\ x_available p' = x_available p;
  release_x p c : x_available (ReleaseX p c) = {[c]} ∪ x_available p /\ v_available (ReleaseX p c) = v_available p;
  release_v p size c : v_available (ReleaseV p size c) = {[c]} ∪ v_available p /\ x_available (ReleaseV p size c) = x_available p;
  internal_codes : 31 <= kSPRegInternalCode /\ 31 <= kZeroRegCode;
  x_codes c : c ∈ x_temps -> c < 31;
  temps_exist : x_temps <> ∅ /\ v_temps <> ∅ }.

Section arm64_laws.
Context {P : Type} (temps : vixl_temps P) (x_temps v_temps : gset Z) {laws : vixl_laws temps x_temps v_temps}.
Context (HasSIMD : bool) (simd : vector_size).
#[local] Set Default Proof Using "All".

Definition arm64_scratch (l : Location) : Prop :=
  match l with
  | RegisterLocation c => c ∈ x_temps
  | FpuRegisterLocation c => c ∈ v_temps
  | _ => False
  end.

Definition arm64_kind (k : Kind) : Prop := k ∈ [kRegister; kFpuRegister; kStackSlot; kDoubleStackSlot; kSIMDStackSlot].

(** A temporary that has been acquired. *)
Definition taken (p : P) (l : Location) : Prop :=
  match l with
  | RegisterLocation c => c ∈ x_temps /\ c ∉ x_available p
  | FpuRegisterLocation c => c ∈ v_temps /\ c ∉ v_available p
  | _ => False
  end.

(** The scratch list holds the temporaries that have been acquired. *)
Record arm64_ok (s : list Location) (p : P) : Prop := {
  ok_nodup : NoDup s;
  ok_x : x_available p ⊆ x_temps;
  ok_v : v_available p ⊆ v_temps;
  ok_taken : forall l, l ∈ s <-> taken p l }.

Lemma x_code c : c ∈ x_temps -> ARTRegCodeFromVIXL c = c.
Proof.
  intros Hc%x_codes. destruct internal_codes. unfold ARTRegCodeFromVIXL.
  destruct (Z.eqb_spec c kSPRegInternalCode); [lia|]. destruct (Z.eqb_spec c kZeroRegCode); [lia|done].
Qed.

Lemma art_code c : c ∈ x_temps -> VIXLRegCodeFromART c = c.
Proof.
  intros Hc%x_codes. unfold VIXLRegCodeFromART. destruct (Z.eqb_spec c 31); [lia|]. destruct (Z.eqb_spec c 32); [lia|done].
Qed.

(** A location that becomes taken is added to the list. *)
Lemma arm64_ok_add s p p' l :
  arm64_ok s p -> x_available p' ⊆ x_temps -> v_available p' ⊆ v_temps -> ~ taken p l ->
  (forall l', taken p' l' <-> taken p l' \/ l' = l) -> (l ∉ s) /\ arm64_ok (s ++ [l]) p'.
Proof.
  intros [Hn _ _ Ht] Hx Hv Hl Ht'. assert (l ∉ s) as Hni by (by rewrite Ht). split; [done|]. constructor; [|done..|].
  - apply NoDup_app. split_and!; [done| |apply NoDup_singleton]. intros y Hy ->%list_elem_of_singleton. done.
  - intros l'. rewrite elem_of_app, list_elem_of_singleton, Ht, Ht'. done.
Qed.


(** With no temporary of a kind in use, one can be acquired. *)
Lemma acquire_register s p :
  arm64_ok s p -> (forall l, l ∈ s -> GetKind l <> kRegister) ->
  exists c p', AcquireX p = Some (c, p') /\ arm64_scratch (RegisterLocation c) /\ ARTRegCodeFromVIXL c = c /\
    (RegisterLocation c ∉ s) /\ arm64_ok (s ++ [RegisterLocation c]) p'.
Proof.
  intros Hok Hs. pose proof Hok as [_ Hx Hv Ht].
  assert (x_available p = x_temps) as Hall.
  { apply set_eq. intros c. split; [apply Hx|]. intros Hc. destruct (decide (c ∈ x_available p)) as [|Hn]; [done|].
    destruct (Hs (RegisterLocation c)); [by apply Ht|done]. }
  destruct (acquire_x p) as (c & p' & Ha & Hc & Ex & Ev); [rewrite Hall; apply temps_exist|].
  destruct (arm64_ok_add s p p' (RegisterLocation c) Hok) as [Hn Hok'].
  - rewrite Ex. set_solver.
  - rewrite Ev. set_solver.
  - by intros [_ ?].
  - intros [| | | |c'|c'| | | |]; cbn [taken]; rewrite ?Ex, ?Ev; try (split; [by left|by intros [?|?]]).
    split; [|intros [?|[= ->]]; set_solver]. intros [? ?]. destruct (decide (c' = c)) as [->|]; [by right|left; set_solver].
  - exists c, p'. split_and!; try done; [by apply Hx|by apply x_code, Hx].
Qed.

Lemma acquire_vector s p size :
  arm64_ok s p -> (forall l, l ∈ s -> GetKind l <> kFpuRegister) ->
  exists c p', AcquireV p size = Some (c, p') /\ arm64_scratch (FpuRegisterLocation c) /\
    (FpuRegisterLocation c ∉ s) /\ arm64_ok (s ++ [FpuRegisterLocation c]) p'.
Proof.
  intros Hok Hs. pose proof Hok as [_ Hx Hv Ht].
  assert (v_available p = v_temps) as Hall.
  { apply set_eq. intros c. split; [apply Hv|]. intros Hc. destruct (decide (c ∈ v_available p)) as [|Hn]; [done|].
    destruct (Hs (FpuRegisterLocation c)); [by apply Ht|done]. }
  destruct (acquire_v p size) as (c & p' & Ha & Hc & Ev & Ex); [rewrite Hall; apply temps_exist|].
  destruct (arm64_ok_add s p p' (FpuRegisterLocation c) Hok) as [Hn Hok'].
  - rewrite Ex. set_solver.
  - rewrite Ev. set_solver.
  - by intros [_ ?].
  - intros [| | | |c'|c'| | | |]; cbn [taken]; rewrite ?Ex, ?Ev; try (split; [by left|by intros [?|?]]).
    split; [|intros [?|[= ->]]; set_solver]. intros [? ?]. destruct (decide (c' = c)) as [->|]; [by right|left; set_solver].
  - exists c, p'. split_and!; try done; by apply Hv.
Qed.

Lemma taken_scratch p l : taken p l -> arm64_scratch l.
Proof. destruct l; cbn [taken arm64_scratch]; tauto. Qed.

(** What an allocation of a kind of register gives. *)
Lemma ARM64_acquire s p kind :
  kind = kRegister \/ kind = kFpuRegister -> arm64_ok s p -> (forall l, l ∈ s -> GetKind l <> kind) ->
  exists l p',
    (if decide (kind = kRegister) then
       '(c, temps) ← AcquireX p; Some (RegisterLocation (ARTRegCodeFromVIXL c), temps)
     else if HasSIMD then AllocateSIMDScratchLocation simd p
     else '(c, temps) ← AcquireV p DReg; Some (FpuRegisterLocation c, temps)) = Some (l, p') /\
    arm64_scratch l /\ (l ∉ s) /\ arm64_ok (s ++ [l]) p'.
Proof.
  intros [->| ->] Hok Hs.
  - rewrite decide_True by done. destruct (acquire_register s p Hok Hs) as (c & p' & -> & Hc & E & Hn & Hok').
    cbn [mbind option_bind]. rewrite E. by exists (RegisterLocation c), p'.
  - rewrite decide_False by done. destruct HasSIMD; unfold AllocateSIMDScratchLocation.
    + destruct (acquire_vector s p simd Hok Hs) as (c & p' & -> & Hc & Hn & Hok'). by exists (FpuRegisterLocation c), p'.
    + destruct (acquire_vector s p DReg Hok Hs) as (c & p' & -> & Hc & Hn & Hok'). by exists (FpuRegisterLocation c), p'.
Qed.

Lemma ARM64_allocate r kind :
  arm64_ok (scratches_ r) (backend_ r) -> arm64_kind kind -> pending_moves_ r = [] ->
  (forall m l, m ∈ moves_ (base_ r) -> arm64_scratch l -> Blocks m l = false) ->
  exists l r', ARM64_AllocateScratchLocationFor HasSIMD simd r kind = Some (l, r') /\
    base_ r' = base_ r /\ pending_moves_ r' = pending_moves_ r /\ arm64_ok (scratches_ r') (backend_ r') /\
    IsBlockedByMoves r l = false /\
    (arm64_scratch l \/ (l <> NoLocation /\ exists m, m ∈ moves_ (base_ r) /\ destination_ m = l)).
Proof.
  intros Hok Hk Hp Hm. unfold ARM64_AllocateScratchLocationFor. rewrite decide_True by done. cbv zeta.
  set (k := if decide _ then kFpuRegister else kRegister).
  assert (k = kRegister \/ k = kFpuRegister) as Hkk by (unfold k; case_decide; auto).
  assert (forall l, arm64_scratch l -> IsBlockedByMoves r l = false) as Hunb
    by (intros l Hl; apply unused_unblocked; [done|]; intros m Hin; by apply Hm).
  destruct (Equals (GetScratchLocation r k) NoLocation) eqn:E; cbn [negb].
  - apply Location_Equals_spec in E.
    destruct (ARM64_acquire (scratches_ r) (backend_ r) k Hkk Hok) as (l & p' & -> & Hl & Hn & Hok').
    { intros l Hl Hkl. assert (arm64_scratch l) as Hs by (by apply (taken_scratch (backend_ r)), (ok_taken _ _ Hok)).
      specialize (Hunb l Hs). rewrite (GetScratchLocation_none r k l) in Hunb; [done| |done..]. by destruct Hkk as [->| ->]. }
    cbn [mbind option_bind]. rewrite AddScratchLocation_new by done. cbn [mbind option_bind].
    eexists _, _. split; [done|]. split_and!; try done; [by apply Hunb|by left].
  - apply bool_decide_eq_false in E. destruct (GetScratchLocation_found r k E) as (Hkf & Hb & Hin).
    eexists _, _. split; [done|]. split_and!; try done. destruct Hin as [Hin|Hin]; [left|by right].
    by apply (taken_scratch (backend_ r)), (ok_taken _ _ Hok).
Qed.

(** Registers that are not pairs overlap only if they are equal. *)
Lemma taken_overlap p scratch l : taken p scratch -> arm64_kind (GetKind l) -> OverlapsWith scratch l = true -> scratch = l.
Proof.
  intros Ht Hk Ho. assert (IsPair l = false) as Hl.
  { unfold arm64_kind in Hk. destruct l; try done; by apply (bool_decide_pack _) in Hk. }
  destruct (decide (scratch = l)) as [|Hne]; [done|]. exfalso. unfold OverlapsWith, Contains, Equals in Ho.
  rewrite (bool_decide_eq_false_2 (scratch = l)), (bool_decide_eq_false_2 (l = scratch)), Hl in Ho by congruence.
  destruct scratch, l; done.
Qed.

Lemma ARM64_free r l scratch :
  arm64_ok (scratches_ r) (backend_ r) -> arm64_kind (GetKind l) ->
  scratch ∈ scratches_ r -> OverlapsWith scratch l = true -> IsBlockedByMoves r scratch = false ->
  exists r', ARM64_FreeScratchLocation HasSIMD simd r l = Some r' /\
    base_ r' = base_ r /\ pending_moves_ r' = pending_moves_ r /\ arm64_ok (scratches_ r') (backend_ r') /\
    (length (scratches_ r') <= length (scratches_ r))%nat.
Proof.
  intros Hok Hk Hs Ho Hb. pose proof Hok as [Hn Hx Hv Ht]. apply Ht in Hs.
  pose proof (taken_overlap _ _ _ Hs Hk Ho) as ->. destruct (remove_first_spec l (scratches_ r) Hn) as [Hn' Hr].
  assert (forall p', (forall l', taken p' l' <-> taken (backend_ r) l' /\ l' <> l) -> x_available p' ⊆ x_temps -> v_available p' ⊆ v_temps ->
    exists r', RemoveScratchLocation (with_backend r p') l = Some r' /\
      base_ r' = base_ r /\ pending_moves_ r' = pending_moves_ r /\ arm64_ok (scratches_ r') (backend_ r') /\
      (length (scratches_ r') <= length (scratches_ r))%nat) as Hrem.
  { intros p' Ht' Hx' Hv'. unfold RemoveScratchLocation. change (IsBlockedByMoves (with_backend r p') l) with (IsBlockedByMoves r l).
    rewrite Hb. eexists. split; [done|]. split_and!; try done; [|apply remove_first_length].
    constructor; [done..|]. intros l'. by rewrite Hr, Ht, Ht'. }
  unfold ARM64_FreeScratchLocation. destruct l as [| | | |c|c| | | |]; try done; cbn [taken] in Hs; cbn [mbind option_bind].
  - rewrite art_code by tauto. destruct (release_x (backend_ r) c) as [Ex Ev]. apply Hrem; [|rewrite Ex; set_solver|by rewrite Ev].
    intros [| | | |c'|c'| | | |]; cbn [taken]; rewrite ?Ex, ?Ev; try (split; [done|by intros [? _]]).
    split; [|set_solver]. intros [? Hc']. split; [set_solver|]. intros [= ->]. set_solver.
  - assert (exists size, (if HasSIMD then FreeSIMDScratchLocation simd c (backend_ r) else ReleaseV (backend_ r) DReg c) =
      ReleaseV (backend_ r) size c) as [size ->] by (destruct HasSIMD; eexists; done).
    destruct (release_v (backend_ r) size c) as [Ev Ex]. apply Hrem; [|by rewrite Ex|rewrite Ev; set_solver].
    intros [| | | |c'|c'| | | |]; cbn [taken]; rewrite ?Ex, ?Ev; try (split; [done|by intros [? _]]).
    split; [|set_solver]. intros [? Hc']. split; [set_solver|]. intros [= ->]. set_solver.
Qed.

Lemma ARM64_prepare (p : P) :
  let r := with_backend (NoSwap (Resolver [] []) [] [] p) (Open p) in
  base_ r = Resolver [] [] /\ pending_moves_ r = [] /\ arm64_ok (scratches_ r) (backend_ r).
Proof.
  cbn. split_and!; [done..|]. destruct (open_available p) as [Ex Ev]. constructor; rewrite ?Ex, ?Ev; try done; [apply NoDup_nil_2|].
  intros l. rewrite elem_of_nil. destruct l; cbn [taken]; rewrite ?Ex, ?Ev; tauto.
Qed.

#[global] Instance ARM64_laws : ScratchLaws (ParallelMoveResolverARM64 HasSIMD simd) arm64_scratch arm64_kind.
Proof.
  exact (Build_ScratchLaws P (ParallelMoveResolverARM64 HasSIMD simd) arm64_scratch arm64_kind arm64_ok ARM64_prepare (fun r => eq_refl)
    ARM64_allocate ARM64_free).
Defined.
End arm64_laws.

(** ** The resolver of the tests *)

Definition kScratchRegisterStartIndexForTest : Z := 100.

Definition Test_AllocateScratchLocationFor (r : no_swap Z) (kind : Kind) : option (Location * no_swap Z) :=
  let kind := if decide (kind ∈ [kStackSlot; kFpuRegister; kRegister]) then kRegister else kRegisterPair in
  let scratch := GetScratchLocation r kind in
  if Equals scratch NoLocation then
    let scratch_index := backend_ r in
    r ← AddScratchLocation r (RegisterLocation scratch_index);
    r ← AddScratchLocation r (RegisterLocation (scratch_index + 1));
    r ← AddScratchLocation r (RegisterPairLocation scratch_index (scratch_index + 1));
    Some (if decide (kind = kRegister) then RegisterLocation scratch_index
          else RegisterPairLocation scratch_index (scratch_index + 1),
          with_backend r (scratch_index + 2))
  else Some (scratch, r).

Definition TestParallelMoveResolverNoSwap : ScratchOps Z :=
  {| PrepareForEmitNativeCode := fun r => with_backend r kScratchRegisterStartIndexForTest;
     FinishEmitNativeCode := fun r => r;
     AllocateScratchLocationFor := Test_AllocateScratchLocationFor;
     FreeScratchLocation := fun r _ => Some r |}.

Section test_laws.

Definition test_scratch (l : Location) : Prop :=
  match l with RegisterLocation c => kScratchRegisterStartIndexForTest <= c | _ => False end.

(** The kinds for which the resolver gives a register; for the others it gives a pair. *)
Definition test_kind (k : Kind) : Prop := k ∈ [kStackSlot; kFpuRegister; kRegister].

Definition test_ok (s : list Location) (index : Z) : Prop :=
  kScratchRegisterStartIndexForTest <= index /\
  forall l, l ∈ s ->
    match l with
    | RegisterLocation c => kScratchRegisterStartIndexForTest <= c < index
    | RegisterPairLocation low _ => low < index
    | _ => False
    end.

Lemma test_ok_add s index :
  test_ok s index ->
  (RegisterLocation index ∉ s) /\ (RegisterLocation (index + 1) ∉ s ++ [RegisterLocation index]) /\
  (RegisterPairLocation index (index + 1) ∉ (s ++ [RegisterLocation index]) ++ [RegisterLocation (index + 1)]) /\
  test_ok (((s ++ [RegisterLocation index]) ++ [RegisterLocation (index + 1)]) ++ [RegisterPairLocation index (index + 1)]) (index + 2).
Proof.
  intros [Hi Hs]. split_and!.
  - intros Hl%Hs. lia.
  - intros [Hl%Hs|[= ?]%list_elem_of_singleton]%elem_of_app; lia.
  - intros [[Hl%Hs|?%list_elem_of_singleton]%elem_of_app|?%list_elem_of_singleton]%elem_of_app; [lia|done..].
  - split; [lia|]. intros l [[[Hl| ->%list_elem_of_singleton]%elem_of_app| ->%list_elem_of_singleton]%elem_of_app
      | ->%list_elem_of_singleton]%elem_of_app; try lia. specialize (Hs l Hl). destruct l; try done; lia.
Qed.

Lemma Test_allocate r kind :
  test_ok (scratches_ r) (backend_ r) -> test_kind kind -> pending_moves_ r = [] ->
  (forall m l, m ∈ moves_ (base_ r) -> test_scratch l -> Blocks m l = false) ->
  exists l r', Test_AllocateScratchLocationFor r kind = Some (l, r') /\
    base_ r' = base_ r /\ pending_moves_ r' = pending_moves_ r /\ test_ok (scratches_ r') (backend_ r') /\
    IsBlockedByMoves r l = false /\
    (test_scratch l \/ (l <> NoLocation /\ exists m, m ∈ moves_ (base_ r) /\ destination_ m = l)).
Proof.
  intros Hok Hk Hp Hm. unfold Test_AllocateScratchLocationFor. rewrite decide_True by done. cbv zeta. pose proof Hok as [Hi Hs].
  destruct (Equals (GetScratchLocation r kRegister) NoLocation) eqn:E.
  - destruct (test_ok_add _ _ Hok) as (H1 & H2 & H3 & Hok').
    rewrite AddScratchLocation_new by done. cbn [mbind option_bind].
    rewrite AddScratchLocation_new by done. cbn [mbind option_bind].
    rewrite AddScratchLocation_new by done. cbn [mbind option_bind]. rewrite decide_True by done.
    eexists _, _. split; [done|]. split_and!; try done; [|by left].
    apply unused_unblocked; [done|]. intros m Hin. by apply Hm.
  - apply bool_decide_eq_false in E. destruct (GetScratchLocation_found r kRegister E) as (Hkf & Hb & Hin).
    eexists _, _. split; [done|]. split_and!; try done. destruct Hin as [Hin|Hin]; [left|by right].
    specialize (Hs _ Hin). destruct (GetScratchLocation r kRegister); try done. cbn [test_scratch]. lia.
Qed.

Lemma Test_free r (l scratch : Location) :
  test_ok (scratches_ r) (backend_ r) -> test_kind (GetKind l) ->
  scratch ∈ scratches_ r -> OverlapsWith scratch l = true -> IsBlockedByMoves r scratch = false ->
  exists r', Some r = Some r' /\
    base_ r' = base_ r /\ pending_moves_ r' = pending_moves_ r /\ test_ok (scratches_ r') (backend_ r') /\
    (length (scratches_ r') <= length (scratches_ r))%nat.
Proof. intros Hok _ _ _ _. by exists r. Qed.

Lemma Test_prepare (i : Z) :
  let r := with_backend (NoSwap (Resolver [] []) [] [] i) kScratchRegisterStartIndexForTest in
  base_ r = Resolver [] [] /\ pending_moves_ r = [] /\ test_ok (scratches_ r) (backend_ r).
Proof. cbn. split_and!; [done..|]. split; [done|]. intros l Hl. by apply not_elem_of_nil in Hl. Qed.

#[global] Instance Test_laws : ScratchLaws TestParallelMoveResolverNoSwap test_scratch test_kind.
Proof.
  exact (Build_ScratchLaws Z TestParallelMoveResolverNoSwap test_scratch test_kind test_ok Test_prepare (fun r => eq_refl)
    Test_allocate Test_free).
Defined.
End test_laws.

(** ** The code for some moves *)

#[local] Abbreviation R := RegisterLocation.
#[local] Abbreviation RP := RegisterPairLocation.

Example two_cycles :
  @EmitNativeCode Z TestParallelMoveResolverNoSwap 0
    [Move (R 0) (R 1) kInt32; Move (R 1) (R 0) kInt32; Move (R 2) (R 3) kInt32; Move (R 3) (R 2) kInt32] =
  Some ([EmittedMove (R 1) (R 100); EmittedMove (R 0) (R 1); EmittedMove (R 100) (R 0);
         EmittedMove (R 3) (R 100); EmittedMove (R 2) (R 3); EmittedMove (R 100) (R 2)], []).
Proof. vm_compute. reflexivity. Qed.

Example halves_and_pair :
  @EmitNativeCode Z TestParallelMoveResolverNoSwap 0
    [Move (RP 0 1) (RP 2 3) kInt64; Move (R 2) (R 0) kInt32; Move (R 3) (R 1) kInt32] =
  Some ([EmittedMove (R 2) (R 100); EmittedMove (R 3) (R 101); EmittedMove (RP 0 1) (RP 2 3);
         EmittedMove (R 100) (R 0); EmittedMove (R 101) (R 1)], []).
Proof. vm_compute. reflexivity. Qed.

(** With pairs a pending move can be left over: 2 is the scratch location of the move from 4, so the
    move from 5 to 2 becomes a pending move; performing the pending move from 2 to 1 unblocks it, but
    the loop only looks for pending moves to a location that overlaps the pair 0, 1. *)
Example pending_move_lost :
  @EmitNativeCode Z TestParallelMoveResolverNoSwap 0
    [Move (RP 0 1) (RP 4 5) kInt64; Move (R 4) (R 1) kInt32; Move (R 5) (R 2) kInt32] =
  Some ([EmittedMove (R 4) (R 2); EmittedMove (R 5) (R 100); EmittedMove (RP 0 1) (RP 4 5); EmittedMove (R 2) (R 1)],
        [Move (R 100) (R 2) kInt32]).
Proof. vm_compute. reflexivity. Qed.

(** ** Properties *)

(** C4: For every set of moves with distinct destinations in which locations that overlap, scratch
    locations included, are equal (so that no register pair occurs next to one of its registers), and
    whose locations are of the kinds that the code generator can save, the resolver that uses scratch
    locations terminates with no pending move left, no check of it or of the code generator fails,
    and the moves it emits give every location that is not a scratch location the value the parallel
    assignment gives it.  This holds for every code generator that satisfies [ScratchLaws]: the one
    for ARM64 does on top of the register scope of VIXL, and the resolver of the tests does. *)
Theorem ParallelMove_no_swap {B : Type} (ops : ScratchOps B) (Scr : Location -> Prop) (Kinds : Kind -> Prop) (b : B)
    (pm : list MoveOperands) :
  ScratchLaws ops Scr Kinds -> valid_moves pm ->
  (forall l, Scr l -> ~ l ∈ locations pm /\ l <> NoLocation /\ IsConstant l = false) ->
  (forall x y, (x ∈ locations pm) \/ Scr x -> (y ∈ locations pm) \/ Scr y -> OverlapsWith x y = true -> x = y) ->
  (forall l, (l ∈ locations pm) \/ Scr l -> IsConstant l = false -> Kinds (GetKind l)) ->
  exists code, EmitNativeCode b pm = Some (code, []) /\
    forall (V : Type) (s0 : Location -> V) (l : Location), ~ Scr l -> exec_all flat id id s0 code l = parallel flat id id pm s0 l.
Proof.
  intros laws Hv HS Hf HK. destruct (no_swap_run (fun _ => tt) pm Scr Kinds Hv HS Hf HK b) as (code & Hc & _).
  exists code. split; [done|]. intros V s0. destruct (no_swap_run s0 pm Scr Kinds Hv HS Hf HK b) as (code' & Hc' & Hl).
  rewrite Hc in Hc'. by injection Hc' as <-.
Qed.

(** A register scope: the sets of X and V registers that are left, at first X16, X17 and V31. *)
Definition take_one (s : gset Z) : option (Z * gset Z) :=
  match elements s with [] => None | c :: _ => Some (c, s ∖ {[c]}) end.

#[global] Instance register_sets : vixl_temps (gset Z * gset Z) :=
  {| Open := fun _ => ({[16; 17]}, {[31]});
     Close := fun p => p;
     AcquireX := fun p => '(c, s) ← take_one p.1; Some (c, (s, p.2));
     AcquireV := fun p _ => '(c, s) ← take_one p.2; Some (c, (p.1, s));
     ReleaseX := fun p c => ({[c]} ∪ p.1, p.2);
     ReleaseV := fun p _ c => (p.1, {[c]} ∪ p.2);
     kSPRegInternalCode := 63;
     kZeroRegCode := 31 |}.

Lemma take_one_spec s : s <> ∅ -> exists c, take_one s = Some (c, s ∖ {[c]}) /\ c ∈ s.
Proof.
  intros Hs. unfold take_one. destruct (elements s) as [|c l] eqn:E.
  - destruct Hs. apply leibniz_equiv, elements_empty_inv, E.
  - exists c. split; [done|]. apply elem_of_elements. rewrite E. left.
Qed.

#[global] Instance register_sets_laws : vixl_laws register_sets {[16; 17]} {[31]}.
Proof.
  refine {| x_available := fst; v_available := snd |}; try done.
  - intros [x v] (c & Ht & Hc)%take_one_spec. exists c, (x ∖ {[c]}, v). cbn in *. by rewrite Ht.
  - intros [x v] size (c & Ht & Hc)%take_one_spec. exists c, (x, v ∖ {[c]}). cbn in *. by rewrite Ht.
  - intros c [->%elem_of_singleton| ->%elem_of_singleton]%elem_of_union; lia.
Defined.

(** Cycles of core and of vector registers, a stack slot and a constant on ARM64. *)
Definition arm64_moves : list MoveOperands :=
  [Move (R 0) (R 1) kInt64; Move (R 1) (R 2) kInt32; Move (R 2) (R 0) kInt32; Move (R 2) (StackSlot 8) kInt32;
   Move (FpuRegisterLocation 0) (FpuRegisterLocation 1) kFloat64; Move (FpuRegisterLocation 1) (FpuRegisterLocation 0) kFloat64;
   Move (ConstantLocation 4) (DoubleStackSlot 16) kInt64].

Definition arm64_temps : list Location := [R 16; R 17; FpuRegisterLocation 31].

Lemma arm64_temps_spec l : arm64_scratch {[16; 17]} {[31]} l -> l ∈ arm64_temps.
Proof.
  destruct l; try done; cbn [arm64_scratch]; unfold arm64_temps; rewrite ?elem_of_union, !elem_of_singleton, !elem_of_cons.
  - intros [->| ->]; auto.
  - intros ->. auto.
Qed.

Lemma ParallelMove_no_swap_witness :
  exists code, @EmitNativeCode _ (ParallelMoveResolverARM64 false QReg) (∅, ∅) arm64_moves = Some (code, []) /\
    forall (V : Type) (s0 : Location -> V) (l : Location),
      ~ arm64_scratch {[16; 17]} {[31]} l -> exec_all flat id id s0 code l = parallel flat id id arm64_moves s0 l.
Proof.
  assert (forall l, (l ∈ locations arm64_moves) \/ arm64_scratch {[16; 17]} {[31]} l -> l ∈ arm64_temps ++ locations arm64_moves) as Hin.
  { intros l [Hl|Hl%arm64_temps_spec]; apply elem_of_app; auto. }
  apply (ParallelMove_no_swap (ParallelMoveResolverARM64 false QReg) (arm64_scratch {[16; 17]} {[31]}) arm64_kind (∅, ∅) arm64_moves).
  - apply _.
  - apply (bool_decide_unpack _). vm_compute. exact I.
  - assert (Forall (fun l => ~ l ∈ locations arm64_moves /\ l <> NoLocation /\ IsConstant l = false) arm64_temps) as Hall
      by (apply (bool_decide_unpack _); vm_compute; exact I).
    rewrite Forall_forall in Hall. intros l Hl%arm64_temps_spec. by apply Hall.
  - assert (Forall (fun x => Forall (fun y => OverlapsWith x y = true -> x = y) (arm64_temps ++ locations arm64_moves))
      (arm64_temps ++ locations arm64_moves)) as Hall by (apply (bool_decide_unpack _); vm_compute; exact I).
    intros x y Hx%Hin Hy%Hin. rewrite Forall_forall in Hall. specialize (Hall x Hx). rewrite Forall_forall in Hall. by apply Hall.
  - assert (Forall (fun l => IsConstant l = false -> GetKind l ∈ [kRegister; kFpuRegister; kStackSlot; kDoubleStackSlot; kSIMDStackSlot])
      (arm64_temps ++ locations arm64_moves)) as Hall by (apply (bool_decide_unpack _); vm_compute; exact I).
    rewrite Forall_forall in Hall. intros l Hl%Hin. by apply Hall.
Defined.
