(* ===== verification/SubtypeCheck.v ===== *)
(** Constant-time subtype checks: libartbase/base/bit_string.h, libartbase/base/bit_struct.h (the
    fields used here), runtime/subtype_check_bits.h, runtime/subtype_check_bits_and_status.h,
    runtime/subtype_check_info.h and runtime/subtype_check.h.

    Every class has one 32-bit word that holds its status (4 bits) and a label: a string of at most
    three characters that encodes the path from the root of the class hierarchy, the next label to
    give to a child, and an overflow bit.  The class hierarchy is the inductive type [Klass]; the
    words of all classes are a function from classes to 32-bit patterns.  The compare-and-swap
    loops take a schedule that says, for every attempt, what other threads write in between and
    whether the weak compare-and-swap fails for no reason. *)
From S2P Require Import Prelude BitUtils.

(** ** bit_string.h *)

Record BitStringChar := BSChar { data_ : Z; bitlength_ : Z }.

Definition GetBitLength (c : BitStringChar) : Z := bitlength_ c.
Definition MaximumValue (c : BitStringChar) : BitStringChar :=
  BSChar (MaxInt false 32 (bitlength_ c)) (bitlength_ c).
Definition char_add (c : BitStringChar) (storage : Z) : BitStringChar :=
  BSChar (u32 (data_ c + storage)) (bitlength_ c).
Definition char_eqb (c other : BitStringChar) : bool := data_ c =? data_ other.

Definition kBitSizeAtPosition : list Z := [12; 4; 11].
Definition kCapacity : nat := length kBitSizeAtPosition.

Definition GetBitLengthTotalAtPosition (position : nat) : Z :=
  foldl Z.add 0 (take position kBitSizeAtPosition).
Definition GetLsbForPosition (position : nat) : Z := GetBitLengthTotalAtPosition position.
Definition MaybeGetBitLengthAtPosition (position : nat) : Z :=
  default 0 (kBitSizeAtPosition !! position).

(** A BitString is its [storage_]. *)
Definition char_at (storage_ : Z) (idx : nat) : BitStringChar :=
  let size := MaybeGetBitLengthAtPosition idx in
  BSChar (BitFieldExtractU 32 storage_ (GetLsbForPosition idx) size) size.

Definition SetAt (storage_ : Z) (idx : nat) (bitchar : BitStringChar) : Z :=
  BitFieldInsert 32 32 storage_ (data_ bitchar) (GetLsbForPosition idx) (MaybeGetBitLengthAtPosition idx).

Fixpoint count_trailing_zeros (storage_ : Z) (i num_trailing_zeros : nat) : nat :=
  if negb (data_ (char_at storage_ i) =? 0) then num_trailing_zeros
  else match i with
       | O => S num_trailing_zeros
       | S i => count_trailing_zeros storage_ i (S num_trailing_zeros)
       end.

Definition Length (storage_ : Z) : nat := (kCapacity - count_trailing_zeros storage_ (kCapacity - 1) 0)%nat.

Definition BitString_BitStructSizeOf : Z := GetBitLengthTotalAtPosition kCapacity.

Definition IsEmpty (storage_ : Z) : bool := storage_ =? 0.

Definition Truncate (storage_ : Z) (end_ : nat) : Z :=
  if (end_ <? kCapacity)%nat then
    let lsb := GetLsbForPosition end_ in
    let bit_size := GetLsbForPosition kCapacity - lsb in
    BitFieldClear 32 storage_ lsb bit_size
  else storage_.

(** ** bit_struct.h: a field of a bit struct whose storage and value are 32-bit words *)

Definition field_Get (storage_ kBitOffset kBitWidth : Z) : Z := BitFieldExtractU 32 storage_ kBitOffset kBitWidth.
Definition field_Set (storage_ kBitOffset kBitWidth value : Z) : Z :=
  BitFieldInsert 32 32 storage_ value kBitOffset kBitWidth.

(** ** subtype_check_bits.h: the bit string and the overflow bit *)

Definition SubtypeCheckBits_BitStructSizeOf : Z := BitString_BitStructSizeOf + 1.

Definition get_bitstring_ (bits : Z) : Z := field_Get bits 0 BitString_BitStructSizeOf.
Definition set_bitstring_ (bits v : Z) : Z := field_Set bits 0 BitString_BitStructSizeOf v.
Definition get_overflow_ (bits : Z) : bool := negb (field_Get bits BitString_BitStructSizeOf 1 =? 0).
Definition set_overflow_ (bits : Z) (v : bool) : Z := field_Set bits BitString_BitStructSizeOf 1 (if v then 1 else 0).

(** ** subtype_check_bits_and_status.h: the word of a class *)

Definition kClassStatusBitSize : Z := 4.

Definition get_subtype_check_info_ (word : Z) : Z := field_Get word 0 SubtypeCheckBits_BitStructSizeOf.
Definition set_subtype_check_info_ (word v : Z) : Z := field_Set word 0 SubtypeCheckBits_BitStructSizeOf v.
Definition get_status_ (word : Z) : Z := field_Get word SubtypeCheckBits_BitStructSizeOf kClassStatusBitSize.
Definition set_status_ (word v : Z) : Z := field_Set word SubtypeCheckBits_BitStructSizeOf kClassStatusBitSize v.

(** ** subtype_check_info.h *)

Inductive State := kUninitialized | kInitialized | kAssigned | kOverflowed.
Inductive Result := kUnknownSubtypeOf | kNotSubtypeOf | kSubtypeOf.

#[export] Instance State_dec : EqDecision State.
Proof. solve_decision. Defined.

Record SubtypeCheckInfo := Info { depth_ : nat; bitstring_and_of_ : Z }.

Definition GetBitString (io : SubtypeCheckInfo) : Z := get_bitstring_ (bitstring_and_of_ io).
Definition SetBitString (io : SubtypeCheckInfo) (val : Z) : SubtypeCheckInfo :=
  Info (depth_ io) (set_bitstring_ (bitstring_and_of_ io) val).
Definition overflow (io : SubtypeCheckInfo) : bool := get_overflow_ (bitstring_and_of_ io).
Definition MarkOverflowed (io : SubtypeCheckInfo) : SubtypeCheckInfo :=
  Info (depth_ io) (set_overflow_ (bitstring_and_of_ io) true).

Definition HasNext (io : SubtypeCheckInfo) : bool := (depth_ io <? kCapacity)%nat.
Definition GetSafeDepth (io : SubtypeCheckInfo) : nat := Nat.min (depth_ io) kCapacity.
Definition GetNext (io : SubtypeCheckInfo) : BitStringChar := char_at (GetBitString io) (depth_ io).
Definition MaybeGetNext (io : SubtypeCheckInfo) : option BitStringChar :=
  if HasNext io then Some (char_at (GetBitString io) (depth_ io)) else None.
Definition SetNext (io : SubtypeCheckInfo) (next : BitStringChar) : SubtypeCheckInfo :=
  SetBitString io (SetAt (GetBitString io) (depth_ io) next).

(** If there is a next field, set it to 1. *)
Definition MaybeInitNext (io : SubtypeCheckInfo) : SubtypeCheckInfo :=
  if HasNext io then
    let io := SetNext io (BSChar 0 0) in
    SetNext io (char_add (GetNext io) 1)
  else io.

Definition GetPathToRoot (io : SubtypeCheckInfo) : Z := Truncate (GetBitString io) (GetSafeDepth io).

Definition OverwriteNextValueFromParent (parent child : SubtypeCheckInfo) (value : BitStringChar) : SubtypeCheckInfo :=
  if HasNext parent then SetBitString child (SetAt (GetBitString child) (depth_ parent) value) else child.

Definition GetState (io : SubtypeCheckInfo) : State :=
  if overflow io then kOverflowed
  else if IsEmpty (GetBitString io) then kUninitialized
  else if (Length (GetPathToRoot io) =? depth_ io)%nat then kAssigned
  else kInitialized.

Definition GetEncodedPathToRoot (io : SubtypeCheckInfo) : Z := GetPathToRoot io.
Definition GetEncodedPathToRootMask (io : SubtypeCheckInfo) : Z :=
  MaskLeastSignificant 32 (GetBitLengthTotalAtPosition (GetSafeDepth io)).

Definition info_IsSubtypeOf (io target : SubtypeCheckInfo) : Result :=
  if negb (bool_decide (GetState target = kAssigned)) || bool_decide (GetState io = kUninitialized) then
    kUnknownSubtypeOf
  else
    let source_value := GetEncodedPathToRoot io in
    let target_value := GetEncodedPathToRoot target in
    let target_mask := GetEncodedPathToRootMask target in
    if source_value .& target_mask =? target_value then kSubtypeOf else kNotSubtypeOf.

Definition CreateRoot : SubtypeCheckInfo :=
  let io := Info 0 0 in
  SetNext io (char_add (GetNext io) 1).

(** The new child, and the parent with its Next value updated. *)
Definition CreateChild (io : SubtypeCheckInfo) (assign_next : bool) : SubtypeCheckInfo * SubtypeCheckInfo :=
  let child := Info (depth_ io + 1) (bitstring_and_of_ io) in
  let child := MaybeInitNext child in
  let child := OverwriteNextValueFromParent io child (BSChar 0 0) in
  if negb assign_next then (child, io)
  else if HasNext io && negb (overflow io) then
    let next := GetNext io in
    if negb (char_eqb next (MaximumValue next)) then
      (OverwriteNextValueFromParent io child next, SetNext io (char_add next 1))
    else (MarkOverflowed child, io)
  else (MarkOverflowed child, io).

(** ** subtype_check.h *)

(** A class other than java.lang.Object is a class object with its superclass. *)
Inductive Klass := Object | Subclass (id : nat) (super : Klass).

#[export] Instance Klass_dec : EqDecision Klass.
Proof. solve_decision. Defined.

Fixpoint Depth (klass : Klass) : nat :=
  match klass with
  | Object => 0
  | Subclass _ super => S (Depth super)
  end.

(** What happens between a read of a word and the compare-and-swap that follows it: the statuses
    other threads write, and whether the weak compare-and-swap fails although the word is as
    expected. *)
Record event := Event { others : list (Klass * Z); spurious : bool }.

Record heap := Heap { words : Klass -> Z; schedule : list event }.

Definition store_word (f : Klass -> Z) (klass : Klass) (word : Z) : Klass -> Z :=
  fun k => if decide (k = klass) then word else f k.

Definition interfere (f : Klass -> Z) (e : event) : Klass -> Z :=
  fold_left (fun f w => store_word f w.1 (set_status_ (f w.1) w.2)) (others e) f.

Definition ReadField (h : heap) (klass : Klass) : Z := words h klass.

Definition CasField32 (h : heap) (klass : Klass) (old_value new_value : Z) : bool * heap :=
  match schedule h with
  | [] =>
      if words h klass =? old_value then (true, Heap (store_word (words h) klass new_value) [])
      else (false, h)
  | e :: rest =>
      let f := interfere (words h) e in
      if negb (spurious e) && (f klass =? old_value) then (true, Heap (store_word f klass new_value) rest)
      else (false, Heap f rest)
  end.

(** The loop [while (true)] of the writers; [fuel] bounds the number of attempts. *)
Fixpoint WriteSubtypeCheckBits_loop (fuel : nat) (h : heap) (klass : Klass) (new_bits : Z) : option heap :=
  match fuel with
  | O => None
  | S fuel =>
      let old_value := ReadField h klass in
      let old_bits := get_subtype_check_info_ old_value in
      if old_bits =? new_bits then Some h
      else
        let new_value := set_subtype_check_info_ old_value new_bits in
        let '(done_, h) := CasField32 h klass old_value new_value in
        if done_ then Some h else WriteSubtypeCheckBits_loop fuel h klass new_bits
  end.

Fixpoint WriteStatusImpl_loop (fuel : nat) (h : heap) (klass : Klass) (status : Z) : option heap :=
  match fuel with
  | O => None
  | S fuel =>
      let old_value := ReadField h klass in
      let old_status := get_status_ old_value in
      if old_status =? status then Some h
      else
        let new_value := set_status_ old_value status in
        let '(done_, h) := CasField32 h klass old_value new_value in
        if done_ then Some h else WriteStatusImpl_loop fuel h klass status
  end.

(** One attempt per event of the schedule, and one more that nothing disturbs. *)
Definition attempts (h : heap) : nat := S (length (schedule h)).

Definition WriteSubtypeCheckBits (h : heap) (klass : Klass) (new_bits : Z) : option heap :=
  WriteSubtypeCheckBits_loop (attempts h) h klass new_bits.
Definition WriteStatus (h : heap) (klass : Klass) (status : Z) : option heap :=
  WriteStatusImpl_loop (attempts h) h klass status.

Definition GetSubtypeCheckInfo_at (h : heap) (klass : Klass) (depth : nat) : SubtypeCheckInfo :=
  Info depth (get_subtype_check_info_ (ReadField h klass)).
Definition GetSubtypeCheckInfo (h : heap) (klass : Klass) : SubtypeCheckInfo :=
  GetSubtypeCheckInfo_at h klass (Depth klass).
Definition SetSubtypeCheckInfo (h : heap) (klass : Klass) (new_sci : SubtypeCheckInfo) : option heap :=
  WriteSubtypeCheckBits h klass (bitstring_and_of_ new_sci).

Fixpoint InitializeOrAssign (h : heap) (klass : Klass) (assign : bool) : option (SubtypeCheckInfo * heap) :=
  match klass with
  | Object =>
      let root_sci := GetSubtypeCheckInfo h klass in
      if negb (bool_decide (GetState root_sci = kUninitialized)) then Some (root_sci, h)
      else
        let new_root_sci := CreateRoot in
        h ← SetSubtypeCheckInfo h klass new_root_sci;
        Some (new_root_sci, h)
  | Subclass _ parent_klass =>
      '(parent_info, h) ← InitializeOrAssign h parent_klass true;
      let parent_depth := depth_ parent_info in
      let sci := GetSubtypeCheckInfo_at h klass (parent_depth + 1) in
      let parent_sci := GetSubtypeCheckInfo_at h parent_klass parent_depth in
      let sci_state := GetState sci in
      if bool_decide (sci_state = kUninitialized) || (bool_decide (sci_state = kInitialized) && assign) then
        let '(sci, parent_sci) := CreateChild parent_sci assign in
        h ← SetSubtypeCheckInfo h klass sci;
        h ← SetSubtypeCheckInfo h parent_klass parent_sci;
        Some (sci, h)
      else Some (sci, h)
  end.

Definition EnsureInitialized (h : heap) (klass : Klass) : option (State * heap) :=
  '(sci, h) ← InitializeOrAssign h klass false; Some (GetState sci, h).
Definition EnsureAssigned (h : heap) (klass : Klass) : option (State * heap) :=
  '(sci, h) ← InitializeOrAssign h klass true; Some (GetState sci, h).
Definition ForceUninitialize (h : heap) (klass : Klass) : option (State * heap) :=
  h ← WriteSubtypeCheckBits h klass 0; Some (kUninitialized, h).

Definition class_state (h : heap) (klass : Klass) : State := GetState (GetSubtypeCheckInfo h klass).
Definition GetEncodedPathToRootForSource (h : heap) (klass : Klass) : Z :=
  GetEncodedPathToRoot (GetSubtypeCheckInfo h klass).
Definition GetEncodedPathToRootForTarget (h : heap) (klass : Klass) : Z :=
  GetEncodedPathToRoot (GetSubtypeCheckInfo h klass).
Definition class_GetEncodedPathToRootMask (h : heap) (klass : Klass) : Z :=
  GetEncodedPathToRootMask (GetSubtypeCheckInfo h klass).
Definition IsSubtypeOf (h : heap) (source target : Klass) : Result :=
  info_IsSubtypeOf (GetSubtypeCheckInfo h source) (GetSubtypeCheckInfo h target).

(** ** Specification *)

(** [target] is [source] or one of its superclasses. *)
Fixpoint subclass_of (source target : Klass) : bool :=
  bool_decide (source = target) ||
  match source with
  | Object => false
  | Subclass _ super => subclass_of super target
  end.

Inductive op :=
  | DoEnsureInitialized (klass : Klass)
  | DoEnsureAssigned (klass : Klass)
  | DoWriteStatus (klass : Klass) (status : Z).

Definition run_op (h : heap) (o : op) : option heap :=
  match o with
  | DoEnsureInitialized klass => '(_, h) ← EnsureInitialized h klass; Some h
  | DoEnsureAssigned klass => '(_, h) ← EnsureAssigned h klass; Some h
  | DoWriteStatus klass status => WriteStatus h klass status
  end.

Fixpoint run_ops (h : heap) (ops : list op) : option heap :=
  match ops with
  | [] => Some h
  | o :: ops => h ← run_op h o; run_ops h ops
  end.

(** ** Bit fields and characters *)

(** The character at a position as a number. *)
Definition char (storage : Z) (i : nat) : Z := data_ (char_at storage i).

Lemma field_Get_Set s o n v : is_u 32 s -> 0 <= o -> 0 <= n -> o + n <= 32 -> is_u n v -> field_Get (field_Set s o n v) o n = v.
Proof.
  intros Hs Ho Hn Hon Hv. apply Z.bits_inj'. intros i Hi. unfold field_Get, field_Set.
  rewrite BitFieldExtractU_testbit, BitFieldInsert_testbit by (done || lia). bits_core.
Qed.

Lemma field_Get_Set_ne s o n v o' n' :
  is_u 32 s -> 0 <= o -> 0 <= n -> o + n <= 32 -> 0 <= o' -> 0 <= n' -> o' + n' <= 32 -> o + n <= o' \/ o' + n' <= o ->
  field_Get (field_Set s o n v) o' n' = field_Get s o' n'.
Proof.
  intros Hs Ho Hn Hon Ho' Hn' Hon' Hd. apply Z.bits_inj'. intros i Hi. unfold field_Get, field_Set.
  rewrite !BitFieldExtractU_testbit, BitFieldInsert_testbit by (done || lia). bits_core.
Qed.

Lemma field_Set_is_u m s o n v : 0 <= o -> 0 <= n -> o + n <= m <= 32 -> is_u m s -> is_u m (field_Set s o n v).
Proof.
  intros Ho Hn Hon Hs. assert (is_u 32 s) as Hs32 by (unfold is_u in *; pose proof (pow2_le m 32); lia).
  apply is_u_bits; [lia|apply (BitFieldInsert_is_u 32); lia|]. intros i Hi. unfold field_Set.
  rewrite BitFieldInsert_testbit by (done || lia). rewrite (testbit_high m s) by done. bits_core.
Qed.

Lemma field_Get_is_u s o n : 0 <= s -> 0 <= o -> 0 <= n <= 32 -> is_u n (field_Get s o n).
Proof.
  intros Hs Ho Hn. unfold field_Get, BitFieldExtractU. rewrite MaskLeastSignificant_ones by lia.
  rewrite Z.land_ones by lia. apply (uN_is_u n). lia.
Qed.

#[local] Abbreviation bits_ok b := (is_u 28 b).

Lemma is_u_weaken m n x : 0 <= m <= n -> is_u m x -> is_u n x.
Proof. intros Hm Hx. unfold is_u in *. pose proof (pow2_le m n). lia. Qed.

Ltac weaken := solve [eassumption | eapply is_u_weaken; [|eassumption]; lia].

Lemma bitstring_ok b : bits_ok b -> is_u 27 (get_bitstring_ b).
Proof. intros Hb. apply (field_Get_is_u b 0 27); unfold is_u in *; lia. Qed.

Lemma set_bitstring_get b v : bits_ok b -> is_u 27 v ->
  get_bitstring_ (set_bitstring_ b v) = v /\ get_overflow_ (set_bitstring_ b v) = get_overflow_ b /\ bits_ok (set_bitstring_ b v).
Proof.
  intros Hb Hv. unfold get_bitstring_, set_bitstring_, get_overflow_. change BitString_BitStructSizeOf with 27.
  rewrite field_Get_Set, field_Get_Set_ne by (weaken || lia). split_and!; [done..|]. by apply field_Set_is_u; try lia.
Qed.

Lemma set_overflow_get b v : bits_ok b ->
  get_bitstring_ (set_overflow_ b v) = get_bitstring_ b /\ get_overflow_ (set_overflow_ b v) = v /\ bits_ok (set_overflow_ b v).
Proof.
  intros Hb. unfold get_bitstring_, set_overflow_, get_overflow_. change BitString_BitStructSizeOf with 27.
  rewrite field_Get_Set_ne, field_Get_Set by (weaken || lia || by destruct v). split_and!; [done|by destruct v|].
  by apply field_Set_is_u; try lia.
Qed.

Lemma word_fields w v : is_u 32 w ->
  get_subtype_check_info_ (set_status_ w v) = get_subtype_check_info_ w /\
  get_status_ (set_subtype_check_info_ w v) = get_status_ w /\
  (bits_ok v -> get_subtype_check_info_ (set_subtype_check_info_ w v) = v) /\
  (is_u 4 v -> get_status_ (set_status_ w v) = v) /\
  is_u 32 (set_status_ w v) /\ is_u 32 (set_subtype_check_info_ w v).
Proof.
  intros Hw. unfold get_subtype_check_info_, set_subtype_check_info_, get_status_, set_status_.
  change SubtypeCheckBits_BitStructSizeOf with 28. change kClassStatusBitSize with 4.
  rewrite !field_Get_Set_ne by (weaken || lia).
  split_and!; try done; try (intros; apply field_Get_Set; weaken || lia); apply field_Set_is_u; weaken || lia.
Qed.

Lemma info_ok w : is_u 32 w -> bits_ok (get_subtype_check_info_ w).
Proof. intros Hw. apply (field_Get_is_u w 0 28); unfold is_u in *; lia. Qed.

(** Characters of a bit string. *)
Ltac positions :=
  repeat match goal with
  | H : (?i < 3)%nat |- _ => is_var i; destruct i as [|[|[|i]]]; [| | |exfalso; lia]; clear H
  end.

Definition char_width (i : nat) : Z := MaybeGetBitLengthAtPosition i.

Lemma char_field v i : char v i = field_Get v (GetLsbForPosition i) (char_width i).
Proof. done. Qed.

Lemma position_bounds i : (i < 3)%nat ->
  0 <= GetLsbForPosition i /\ 0 <= char_width i /\ GetLsbForPosition i + char_width i <= 27.
Proof. intros Hi. positions; vm_compute; intuition congruence. Qed.

Lemma position_order i j : (i < j < 3)%nat -> GetLsbForPosition i + char_width i <= GetLsbForPosition j.
Proof. intros [Hi Hj]. assert (i < 3)%nat as Hi' by lia. positions; try lia; vm_compute; intuition congruence. Qed.

Lemma char_is_u v i : 0 <= v -> (i < 3)%nat -> is_u (char_width i) (char v i).
Proof. intros Hv Hi. pose proof (position_bounds i Hi). rewrite char_field. apply field_Get_is_u; lia. Qed.

Lemma SetAt_field v i c : SetAt v i c = field_Set v (GetLsbForPosition i) (char_width i) (data_ c).
Proof. done. Qed.

Lemma char_SetAt v i c j : is_u 27 v -> (i < 3)%nat -> (j < 3)%nat -> is_u (char_width i) (data_ c) ->
  char (SetAt v i c) j = if decide (i = j) then data_ c else char v j.
Proof.
  intros Hv Hi Hj Hc. assert (is_u 32 v) by weaken. pose proof (position_bounds i Hi). pose proof (position_bounds j Hj).
  rewrite !char_field, SetAt_field. case_decide as Hij; [subst j; apply field_Get_Set; (done || lia)|].
  apply field_Get_Set_ne; try (done || lia). destruct (decide (i < j)%nat).
  - left. apply position_order. lia.
  - right. apply position_order. lia.
Qed.

Lemma SetAt_is_u v i c : is_u 27 v -> (i < 3)%nat -> is_u 27 (SetAt v i c).
Proof. intros Hv Hi. pose proof (position_bounds i Hi). rewrite SetAt_field. apply field_Set_is_u; (done || lia). Qed.

Lemma char_testbit v i k : (i < 3)%nat -> 0 <= k ->
  Z.testbit (char v i) k = (k <? char_width i) && Z.testbit v (k + GetLsbForPosition i).
Proof. intros Hi Hk. pose proof (position_bounds i Hi). apply BitFieldExtractU_testbit; unfold char_width in *; lia. Qed.

Lemma total_S i : (i < 3)%nat -> GetBitLengthTotalAtPosition (S i) = GetLsbForPosition i + char_width i.
Proof. intros Hi. by positions. Qed.

Lemma total_mono e i : (e <= i < 3)%nat -> GetBitLengthTotalAtPosition e <= GetLsbForPosition i.
Proof.
  intros Hi. destruct (decide (e = i)) as [->|]; [done|]. destruct e as [|e]; [by apply position_bounds; lia|].
  rewrite total_S by lia. apply position_order. lia.
Qed.

Lemma char_ext v v' : is_u 27 v -> is_u 27 v' -> (forall i, (i < 3)%nat -> char v i = char v' i) -> v = v'.
Proof.
  intros Hv Hv' He. apply Z.bits_inj'. intros k Hk.
  assert (forall i, (i < 3)%nat -> GetLsbForPosition i <= k < GetLsbForPosition i + char_width i -> Z.testbit v k = Z.testbit v' k) as Hi.
  { intros i Hi Hr. specialize (He i Hi). apply (f_equal (fun c => Z.testbit c (k - GetLsbForPosition i))) in He.
    rewrite !char_testbit in He by (done || lia). rewrite (proj2 (Z.ltb_lt _ _)) in He by lia. cbn [andb] in He.
    by replace (k - GetLsbForPosition i + GetLsbForPosition i) with k in He by lia. }
  destruct (decide (k < 12)); [apply (Hi 0%nat); [lia|]; change (0 <= k < 0 + 12); lia|].
  destruct (decide (k < 16)); [apply (Hi 1%nat); [lia|]; change (12 <= k < 12 + 4); lia|].
  destruct (decide (k < 27)); [apply (Hi 2%nat); [lia|]; change (16 <= k < 16 + 11); lia|].
  rewrite !(testbit_high 27) by (done || lia). done.
Qed.

Lemma Truncate_testbit v e k : is_u 27 v -> (e <= 3)%nat -> 0 <= k ->
  Z.testbit (Truncate v e) k = Z.testbit v k && (k <? GetBitLengthTotalAtPosition e).
Proof.
  intros Hv He Hk. assert (is_u 32 v) by weaken.
  destruct (decide (e = 3%nat)) as [->|Hne].
  - change (Truncate v 3) with v. change (GetBitLengthTotalAtPosition 3) with 27. bits_core.
  - assert (e < 3)%nat as Hlt by lia. clear He Hne.
    positions; [change (Truncate v 0) with (BitFieldClear 32 v 0 27); change (GetBitLengthTotalAtPosition 0) with 0
      |change (Truncate v 1) with (BitFieldClear 32 v 12 15); change (GetBitLengthTotalAtPosition 1) with 12
      |change (Truncate v 2) with (BitFieldClear 32 v 16 11); change (GetBitLengthTotalAtPosition 2) with 16];
      rewrite BitFieldClear_testbit by (done || lia); bits_core.
Qed.

Lemma Truncate_is_u v e : is_u 27 v -> (e <= 3)%nat -> is_u 27 (Truncate v e).
Proof.
  intros Hv He. assert (is_u 32 v) as [Hv0 _] by weaken. apply is_u_bits; [lia| |].
  - unfold Truncate. case_match; [|done]. by apply Z.land_nonneg; left.
  - intros k Hk. rewrite Truncate_testbit by (done || lia). by rewrite (testbit_high 27).
Qed.

Lemma char_Truncate v e i : is_u 27 v -> (e <= 3)%nat -> (i < 3)%nat ->
  char (Truncate v e) i = if (i <? e)%nat then char v i else 0.
Proof.
  intros Hv He Hi. apply Z.bits_inj'. intros k Hk. pose proof (position_bounds i Hi).
  rewrite char_testbit, Truncate_testbit by (done || lia).
  destruct (Nat.ltb_spec i e) as [Hie|Hie].
  - rewrite char_testbit by done. destruct (Z.ltb_spec k (char_width i)) as [Hlt|]; [|done]. cbn [andb].
    rewrite (proj2 (Z.ltb_lt _ _)); [by rewrite andb_true_r|].
    destruct e as [|e]; [lia|]. rewrite total_S by lia. destruct (decide (i = e)) as [->|]; [lia|].
    pose proof (position_order i e). pose proof (position_bounds e). lia.
  - rewrite Z.testbit_0_l. rewrite (proj2 (Z.ltb_ge (k + _) _)); [by rewrite !andb_false_r|].
    pose proof (total_mono e i). lia.
Qed.

Lemma mask_Truncate v e : is_u 27 v -> (e <= 3)%nat ->
  v .& MaskLeastSignificant 32 (GetBitLengthTotalAtPosition e) = Truncate v e.
Proof.
  intros Hv He. assert (0 <= GetBitLengthTotalAtPosition e <= 27) as Hl
    by (assert (e = 0 \/ e = 1 \/ e = 2 \/ e = 3)%nat as [->|[->|[->| ->]]] by lia; vm_compute; intuition congruence).
  apply Z.bits_inj'. intros k Hk. rewrite Truncate_testbit by done. rewrite MaskLeastSignificant_ones by lia. bits_core.
Qed.

Lemma bitstring_zero v : is_u 27 v -> v = 0 <-> forall i, (i < 3)%nat -> char v i = 0.
Proof.
  intros Hv. split; [by intros -> i Hi; positions|]. intros Hc. apply char_ext; [done|done|].
  intros i Hi. rewrite Hc by done. by positions.
Qed.

(** The length of a path that is cut at the depth. *)
Lemma Length_path v d : is_u 27 v ->
  Length (Truncate v (Nat.min d 3)) = d <-> d = 0%nat \/ (d <= 3)%nat /\ char v (d - 1) <> 0.
Proof.
  intros Hv. pose proof (fun i => char_Truncate v (Nat.min d 3) i Hv ltac:(lia)) as Hc. revert Hc.
  generalize (Truncate v (Nat.min d 3)) as t. intros t Hc.
  assert (Length t = if char t 2 =? 0 then if char t 1 =? 0 then if char t 0 =? 0 then 0%nat else 1%nat else 2%nat else 3%nat) as ->.
  { change (Length t) with (3 - count_trailing_zeros t 2 0)%nat. cbn [count_trailing_zeros].
    fold (char t 2) (char t 1) (char t 0). by destruct (char t 2 =? 0), (char t 1 =? 0), (char t 0 =? 0). }
  rewrite !Hc by lia. destruct d as [|[|[|[|d]]]]; cbn [Nat.min Nat.ltb Nat.leb Nat.sub]; repeat case_ltb; try lia; intuition lia.
Qed.

(** ** Labels as strings of characters *)

Definition ichar (io : SubtypeCheckInfo) (i : nat) : Z := char (GetBitString io) i.
Definition info_good (io : SubtypeCheckInfo) : Prop := bits_ok (bitstring_and_of_ io).

(** [io'] is [io] at depth [d], with the overflow bit [o] and the characters [f]. *)
Record described (io : SubtypeCheckInfo) (d : nat) (o : bool) (f : nat -> Z) : Prop := {
  described_good : info_good io;
  described_depth : depth_ io = d;
  described_overflow : overflow io = o;
  described_char : forall i, (i < 3)%nat -> ichar io i = f i }.

Lemma described_refl io : info_good io -> described io (depth_ io) (overflow io) (ichar io).
Proof. by constructor. Qed.

Lemma described_ext io d o f g : described io d o f -> (forall i, (i < 3)%nat -> f i = g i) -> described io d o g.
Proof. intros [] E. constructor; [done..|]. intros i Hi. rewrite <- E by done. auto. Qed.

Lemma set_char_described io d o f i c :
  described io d o f -> (i < 3)%nat -> is_u (char_width i) (data_ c) ->
  described (SetBitString io (SetAt (GetBitString io) i c)) d o (fun j => if decide (i = j) then data_ c else f j).
Proof.
  intros [Hg Hd Ho Hf] Hi Hc. pose proof (bitstring_ok _ Hg) as Hb. pose proof (SetAt_is_u _ i c Hb Hi) as Hs.
  destruct (set_bitstring_get _ _ Hg Hs) as (E1 & E2 & E3). constructor; [done..|by rewrite <- Ho|].
  intros j Hj. unfold ichar, GetBitString. cbn [SetBitString bitstring_and_of_]. rewrite E1, char_SetAt by done.
  case_decide; [done|]. by apply Hf.
Qed.

Lemma char_width_pos i : (i < 3)%nat -> is_u (char_width i) 0 /\ is_u (char_width i) 1.
Proof. intros Hi. by positions. Qed.

Lemma SetNext_described io d o f c :
  described io d o f -> (d < 3)%nat -> is_u (char_width d) (data_ c) ->
  described (SetNext io c) d o (fun j => if decide (d = j) then data_ c else f j).
Proof.
  intros H Hd Hc. unfold SetNext. rewrite (described_depth _ _ _ _ H). by apply set_char_described.
Qed.

Lemma HasNext_described io d o f : described io d o f -> HasNext io = (d <? 3)%nat.
Proof. intros H. unfold HasNext. by rewrite (described_depth _ _ _ _ H). Qed.

Lemma GetNext_described io d o f : described io d o f -> (d < 3)%nat -> GetNext io = BSChar (f d) (char_width d).
Proof.
  intros H Hd. unfold GetNext. rewrite (described_depth _ _ _ _ H). rewrite <- (described_char _ _ _ _ H) by done. done.
Qed.

Lemma MaybeInitNext_described io d o f :
  described io d o f -> described (MaybeInitNext io) d o (fun j => if decide (d = j) then 1 else f j).
Proof.
  intros H. unfold MaybeInitNext. rewrite (HasNext_described _ _ _ _ H). destruct (Nat.ltb_spec d 3) as [Hd|Hd].
  - destruct (char_width_pos d Hd) as [H0 H1]. cbv zeta. pose proof (SetNext_described _ _ _ _ (BSChar 0 0) H Hd H0) as Hs.
    rewrite (GetNext_described _ _ _ _ Hs Hd), decide_True by done.
    eapply described_ext; [by apply SetNext_described|]. intros i Hi. cbn [data_]. by repeat case_decide.
  - eapply described_ext; [done|]. intros i Hi. case_decide; [lia|done].
Qed.

Lemma Overwrite_described parent dp op fp io d o f c :
  described parent dp op fp -> described io d o f -> ((dp < 3)%nat -> is_u (char_width dp) (data_ c)) ->
  described (OverwriteNextValueFromParent parent io c) d o (fun j => if decide (dp = j) then data_ c else f j).
Proof.
  intros Hp H Hc. unfold OverwriteNextValueFromParent. rewrite (HasNext_described _ _ _ _ Hp). rewrite (described_depth _ _ _ _ Hp).
  destruct (Nat.ltb_spec dp 3).
  - apply set_char_described; auto.
  - eapply described_ext; [done|]. intros i Hi. case_decide; [lia|done].
Qed.

Lemma MarkOverflowed_described io d o f : described io d o f -> described (MarkOverflowed io) d true f.
Proof.
  intros [Hg Hd Ho Hf]. destruct (set_overflow_get _ true Hg) as (E1 & E2 & E3). constructor; [done..|].
  intros j Hj. rewrite <- Hf by done. unfold ichar, GetBitString. cbn [MarkOverflowed bitstring_and_of_]. by rewrite E1.
Qed.

(** The characters of a child that has no label of its own yet. *)
Definition child_chars (d : nat) (f : nat -> Z) (label : Z) (j : nat) : Z :=
  if decide (d = j) then label else if decide ((d + 1)%nat = j) then 1 else f j.

Lemma CreateRoot_described : described CreateRoot 0 false (fun j => if decide (j = 0%nat) then 1 else 0).
Proof. constructor; [done..|]. intros i Hi. by positions. Qed.

Lemma fresh_child_described io d o f :
  described io d o f ->
  described (OverwriteNextValueFromParent io (MaybeInitNext (Info (depth_ io + 1) (bitstring_and_of_ io))) (BSChar 0 0))
    (d + 1) o (child_chars d f 0).
Proof.
  intros H. assert (described (Info (depth_ io + 1) (bitstring_and_of_ io)) (d + 1) o f) as Hc.
  { destruct H as [Hg <- Ho Hf]. by constructor. }
  eapply described_ext.
  - eapply Overwrite_described; [exact H|by apply MaybeInitNext_described|]. intros Hd. by apply char_width_pos.
  - done.
Qed.

(** The highest value of a character. *)
Definition max_char (d : nat) : Z := 2 ^ char_width d - 1.

Lemma MaximumValue_char d x : (d < 3)%nat -> data_ (MaximumValue (BSChar x (char_width d))) = max_char d.
Proof. intros Hd. by positions. Qed.

Lemma CreateChild_described io d o f assign child parent :
  described io d o f -> CreateChild io assign = (child, parent) ->
  if assign && (d <? 3)%nat && negb o && negb (f d =? max_char d)
  then described child (d + 1) o (child_chars d f (f d)) /\
       described parent d o (fun j => if decide (d = j) then f d + 1 else f j)
  else described child (d + 1) (o || assign) (child_chars d f 0) /\ parent = io.
Proof.
  intros H E. pose proof (fresh_child_described _ _ _ _ H) as Hc. unfold CreateChild in E. revert E Hc.
  generalize (OverwriteNextValueFromParent io (MaybeInitNext (Info (depth_ io + 1) (bitstring_and_of_ io))) (BSChar 0 0)).
  intros c E Hc. destruct assign; cbn [negb andb] in *; [|injection E as <- <-; by rewrite orb_false_r].
  rewrite (HasNext_described _ _ _ _ H), (described_overflow _ _ _ _ H) in E. rewrite orb_true_r.
  destruct (Nat.ltb_spec d 3) as [Hd|Hd]; cbn [andb] in *;
    [|injection E as <- <-; split; [by eapply MarkOverflowed_described|done]].
  destruct o; cbn [negb andb] in *; [injection E as <- <-; split; [by eapply MarkOverflowed_described|done]|].
  rewrite (GetNext_described _ _ _ _ H Hd) in E. unfold char_eqb in E. rewrite MaximumValue_char in E by done. cbn [data_] in E.
  destruct (Z.eqb_spec (f d) (max_char d)) as [|Hm]; cbn [negb] in *;
    injection E as <- <-; [split; [by eapply MarkOverflowed_described|done]|].
  assert (is_u (char_width d) (f d)) as Hu.
  { rewrite <- (described_char _ _ _ _ H) by done. apply char_is_u; [|done]. apply bitstring_ok, H. }
  assert (is_u (char_width d) (f d + 1)) as Hu1 by (unfold is_u, max_char in *; lia).
  split.
  - eapply described_ext; [eapply Overwrite_described; [exact H|exact Hc|done]|].
    intros i Hi. unfold child_chars. cbn [data_]. by repeat case_decide.
  - unfold char_add. cbn [data_ bitlength_]. rewrite uN_small by (eapply is_u_weaken; [|done]; by positions).
    by apply (SetNext_described _ _ _ _ (BSChar (f d + 1) (char_width d))).
Qed.

Definition state_of (d : nat) (o : bool) (f : nat -> Z) : State :=
  if o then kOverflowed
  else if (f 0%nat =? 0) && (f 1%nat =? 0) && (f 2%nat =? 0) then kUninitialized
  else if (d =? 0)%nat || ((d <=? 3)%nat && negb (f (d - 1)%nat =? 0)) then kAssigned
  else kInitialized.

Lemma GetState_described io d o f : described io d o f -> GetState io = state_of d o f.
Proof.
  intros H. pose proof (described_char _ _ _ _ H) as Hf. pose proof (bitstring_ok _ (described_good _ _ _ _ H)) as Hb.
  unfold GetState, state_of. rewrite (described_overflow _ _ _ _ H). destruct o; [done|].
  assert (IsEmpty (GetBitString io) = (f 0%nat =? 0) && (f 1%nat =? 0) && (f 2%nat =? 0)) as ->.
  { apply eq_true_iff_eq. unfold IsEmpty. rewrite Z.eqb_eq, (bitstring_zero _ Hb), !andb_true_iff, !Z.eqb_eq.
    split; [intros Hz; rewrite <- !Hf by lia; unfold ichar; auto with lia|].
    intros [[H0 H1] H2] i Hi. change (ichar io i = 0). rewrite Hf by done. by positions. }
  destruct (_ && _ && _); [done|]. unfold GetPathToRoot, GetSafeDepth. rewrite (described_depth _ _ _ _ H).
  change kCapacity with 3%nat. pose proof (Length_path (GetBitString io) d Hb) as HL.
  assert ((Length (Truncate (GetBitString io) (Nat.min d 3)) =? d)%nat = (d =? 0)%nat || ((d <=? 3)%nat && negb (f (d - 1)%nat =? 0))) as ->; [|done].
  apply eq_true_iff_eq. rewrite Nat.eqb_eq, HL, orb_true_iff, Nat.eqb_eq, andb_true_iff, Nat.leb_le, negb_true_iff, Z.eqb_neq.
  split; (intros [->|[Hd Hne]]; [by left|]); destruct (decide (d = 0%nat)) as [->|]; [by left| |by left|];
    (right; split; [done|]); revert Hne; change (char (GetBitString io) (d - 1)) with (ichar io (d - 1)); rewrite Hf by lia; done.
Qed.

(** The path of a class: its characters below its depth. *)
Definition path_char (d : nat) (f : nat -> Z) (i : nat) : Z := if (i <? d)%nat then f i else 0.

Lemma path_described io d o f i : described io d o f -> (i < 3)%nat ->
  is_u 27 (GetPathToRoot io) /\ char (GetPathToRoot io) i = path_char d f i.
Proof.
  intros H Hi. pose proof (bitstring_ok _ (described_good _ _ _ _ H)) as Hb. unfold GetPathToRoot, GetSafeDepth.
  rewrite (described_depth _ _ _ _ H). change kCapacity with 3%nat. split; [apply Truncate_is_u; [done|lia]|].
  rewrite char_Truncate by (done || lia). unfold path_char. rewrite <- (described_char _ _ _ _ H) by done.
  destruct (Nat.ltb_spec i d), (Nat.ltb_spec i (Nat.min d 3)); done || lia.
Qed.

Lemma IsSubtypeOf_described s ds os fs t dt ot ft :
  described s ds os fs -> described t dt ot ft ->
  (info_IsSubtypeOf s t = kUnknownSubtypeOf <-> state_of dt ot ft <> kAssigned \/ state_of ds os fs = kUninitialized) /\
  (info_IsSubtypeOf s t = kSubtypeOf <-> state_of dt ot ft = kAssigned /\ state_of ds os fs <> kUninitialized /\
    forall i, (i < 3)%nat -> (i < dt)%nat -> path_char ds fs i = ft i).
Proof.
  intros Hs Ht. unfold info_IsSubtypeOf. rewrite (GetState_described _ _ _ _ Hs), (GetState_described _ _ _ _ Ht).
  case_bool_decide as Ha; [|split; [|split]; [naive_solver|naive_solver|intros (? & _ & _); done]]. cbn [negb orb].
  case_bool_decide as Hu; [split; [|split]; [naive_solver|done|intros (_ & ? & _); done]|].
  assert ((GetEncodedPathToRoot s .& GetEncodedPathToRootMask t = GetEncodedPathToRoot t) <->
    forall i, (i < 3)%nat -> (i < dt)%nat -> path_char ds fs i = ft i) as E.
  { unfold GetEncodedPathToRoot, GetEncodedPathToRootMask, GetSafeDepth. rewrite (described_depth _ _ _ _ Ht). change kCapacity with 3%nat.
    pose proof (proj1 (path_described _ _ _ _ 0 Hs ltac:(lia))) as Us. pose proof (proj1 (path_described _ _ _ _ 0 Ht ltac:(lia))) as Ut.
    rewrite mask_Truncate by (done || lia).
    assert (forall i, (i < 3)%nat -> char (Truncate (GetPathToRoot s) (Nat.min dt 3)) i = path_char dt (path_char ds fs) i) as Hc.
    { intros i Hi. rewrite char_Truncate, (proj2 (path_described _ _ _ _ i Hs Hi)) by (done || lia). unfold path_char.
      destruct (Nat.ltb_spec i dt), (Nat.ltb_spec i (Nat.min dt 3)); done || lia. }
    split.
    - intros E i Hi Hd. apply (f_equal (fun v => char v i)) in E. rewrite Hc, (proj2 (path_described _ _ _ _ i Ht Hi)) in E by done.
      unfold path_char in E |- *. by rewrite (proj2 (Nat.ltb_lt i dt) Hd) in E.
    - intros E. apply char_ext; [apply Truncate_is_u; [done|lia]|done|]. intros i Hi.
      rewrite Hc, (proj2 (path_described _ _ _ _ i Ht Hi)) by done. unfold path_char at 1 3.
      destruct (Nat.ltb_spec i dt); auto. }
  cbv zeta. destruct (Z.eqb_spec (GetEncodedPathToRoot s .& GetEncodedPathToRootMask t) (GetEncodedPathToRoot t)); intuition congruence.
Qed.

(** ** The words of the classes *)

Definition heap_ok (h : heap) : Prop := forall k, is_u 32 (words h k).
Definition bits_of (h : heap) (k : Klass) : Z := get_subtype_check_info_ (words h k).

(** [h'] has the labels of [h]. *)
Definition same_bits (h h' : heap) : Prop := heap_ok h' /\ forall k, bits_of h' k = bits_of h k.

Lemma interfere_bits ws sched e sched' : heap_ok (Heap ws sched) -> same_bits (Heap ws sched) (Heap (interfere ws e) sched').
Proof.
  unfold interfere. revert ws. induction (others e) as [|[k v] l IH]; intros ws Hw; [by split|]. cbn [fold_left fst snd].
  destruct (word_fields (ws k) v (Hw k)) as (E1 & _ & _ & _ & E2 & _).
  destruct (IH (store_word ws k (set_status_ (ws k) v))) as [H1 H2].
  - intros k'. cbn [words]. unfold store_word. case_decide; [done|apply Hw].
  - split; [done|]. intros k'. rewrite H2. unfold bits_of. cbn [words]. unfold store_word. case_decide; [by subst k'|done].
Qed.

(** One attempt: either it stores the new word, whose label is [nb], or it changes no label. *)
Lemma Cas_bits h k nw ok h' :
  heap_ok h -> is_u 32 nw -> CasField32 h k (words h k) nw = (ok, h') ->
  heap_ok h' /\ (forall k', bits_of h' k' = if ok then if decide (k' = k) then get_subtype_check_info_ nw else bits_of h k' else bits_of h k') /\
  (ok = false -> (length (schedule h') < length (schedule h))%nat).
Proof.
  intros Hh Hn E. unfold CasField32 in E. destruct h as [ws sched]. cbn [schedule words] in *. destruct sched as [|e rest].
  - rewrite Z.eqb_refl in E. injection E as <- <-. split_and!; [| |done].
    + intros k'. cbn [words]. unfold store_word. case_decide; [done|apply Hh].
    + intros k'. unfold bits_of. cbn [words]. unfold store_word. by case_decide.
  - destruct (interfere_bits ws (e :: rest) e rest Hh) as [I1 I2].
    destruct (negb (spurious e) && _) in E; injection E as <- <-.
    + split_and!; [| |done].
      * intros k'. cbn [words]. unfold store_word. case_decide; [done|apply I1].
      * intros k'. rewrite <- I2. unfold bits_of. cbn [words]. unfold store_word. by case_decide.
    + split_and!; [done|done|]. intros _. cbn [schedule]. simpl. lia.
Qed.

Lemma write_bits_loop_spec fuel h k nb :
  heap_ok h -> bits_ok nb -> (length (schedule h) < fuel)%nat ->
  exists h', WriteSubtypeCheckBits_loop fuel h k nb = Some h' /\ heap_ok h' /\
    forall k', bits_of h' k' = if decide (k' = k) then nb else bits_of h k'.
Proof.
  revert h. induction fuel as [|fuel IH]; intros h Hh Hn Hf; [lia|]. cbn [WriteSubtypeCheckBits_loop]. cbv zeta.
  destruct (Z.eqb_spec (get_subtype_check_info_ (ReadField h k)) nb) as [E|E].
  { exists h. split_and!; [done..|]. intros k'. case_decide; [by subst k'|done]. }
  destruct (word_fields (words h k) nb (Hh k)) as (_ & _ & E1 & _ & _ & E2). specialize (E1 Hn).
  destruct (CasField32 _ _ _ _) as [ok h1] eqn:EC. destruct (Cas_bits _ _ _ _ _ Hh E2 EC) as (O1 & B1 & L1).
  destruct ok.
  - exists h1. split_and!; [done..|]. intros k'. rewrite B1. by rewrite E1.
  - destruct (IH h1 O1 Hn ltac:(specialize (L1 eq_refl); lia)) as (h2 & E3 & O2 & B2). exists h2. split_and!; [done..|].
    intros k'. rewrite B2, B1. done.
Qed.

Lemma write_status_loop_spec fuel h k st :
  heap_ok h -> (length (schedule h) < fuel)%nat ->
  exists h', WriteStatusImpl_loop fuel h k st = Some h' /\ same_bits h h'.
Proof.
  revert h. induction fuel as [|fuel IH]; intros h Hh Hf; [lia|]. cbn [WriteStatusImpl_loop]. cbv zeta.
  case_ltb; [by exists h|]. destruct (word_fields (words h k) st (Hh k)) as (E1 & _ & _ & _ & E2 & _).
  destruct (CasField32 _ _ _ _) as [ok h1] eqn:EC. destruct (Cas_bits _ _ _ _ _ Hh E2 EC) as (O1 & B1 & L1).
  destruct ok.
  - exists h1. split; [done|]. split; [done|]. intros k'. rewrite B1. case_decide; [subst k'; by rewrite E1|done].
  - destruct (IH h1 O1 ltac:(specialize (L1 eq_refl); lia)) as (h2 & E3 & O2 & B2). exists h2. split; [done|]. split; [done|].
    intros k'. by rewrite B2, B1.
Qed.

(** ** The invariant of the labels

    [O] and [C] give the overflow bit and the characters of every class. *)

Lemma state_Uninitialized d o f : state_of d o f = kUninitialized <-> o = false /\ forall i, (i < 3)%nat -> f i = 0.
Proof.
  unfold state_of. destruct o; [split; [done|by intros [? _]]|].
  destruct ((f 0%nat =? 0) && (f 1%nat =? 0) && (f 2%nat =? 0)) eqn:E.
  - rewrite !andb_true_iff, !Z.eqb_eq in E. destruct E as [[E0 E1] E2]. split; [|done]. intros _. split; [done|]. intros i Hi. by positions.
  - split; [by destruct (_ || _)|]. intros [_ Hz]. by rewrite !Hz in E by lia.
Qed.

Lemma state_Overflowed d o f : state_of d o f = kOverflowed <-> o = true.
Proof. unfold state_of. destruct o; [done|]. destruct (_ && _ && _); [done|]. by destruct (_ || _). Qed.

Lemma state_Assigned d o f : state_of d o f = kAssigned <->
  state_of d o f <> kUninitialized /\ o = false /\ (d = 0%nat \/ (d <= 3)%nat /\ f (d - 1)%nat <> 0).
Proof.
  unfold state_of. destruct o; [split; [done|by intros (_ & ? & _)]|]. destruct (_ && _ && _); [split; [done|by intros [? _]]|].
  destruct ((d =? 0)%nat || _) eqn:E;
    rewrite ?orb_true_iff, ?orb_false_iff, ?andb_true_iff, ?andb_false_iff, ?Nat.leb_le, ?Nat.leb_gt, ?Nat.eqb_eq, ?Nat.eqb_neq,
      ?negb_true_iff, ?negb_false_iff, ?Z.eqb_eq, ?Z.eqb_neq in E; split; (done || intros (_ & _ & ?) || intros _); intuition (done || lia).
Qed.

#[local] Abbreviation st O C k := (state_of (Depth k) (O k) (C k)).

Definition ready (O : Klass -> bool) (C : Klass -> nat -> Z) (k : Klass) : Prop := st O C k = kAssigned \/ st O C k = kOverflowed.

(** What holds of a class below [p] once it has a label. *)
Record born (O : Klass -> bool) (C : Klass -> nat -> Z) (id : nat) (p : Klass) : Prop := {
  born_ready : ready O C p;
  born_overflow : O p = true -> O (Subclass id p) = true;
  born_path : forall i, (i < 3)%nat -> (i < Depth p)%nat -> C (Subclass id p) i = C p i;
  born_next : (S (Depth p) < 3)%nat -> 1 <= C (Subclass id p) (S (Depth p));
  born_rest : forall i, (i < 3)%nat -> (S (Depth p) < i)%nat -> C (Subclass id p) i = 0;
  born_label : (Depth p < 3)%nat -> C (Subclass id p) (Depth p) <> 0 ->
    O (Subclass id p) = false /\ C (Subclass id p) (Depth p) < C p (Depth p) }.

Record LInv (O : Klass -> bool) (C : Klass -> nat -> Z) : Prop := {
  linv_root : O Object = false /\ 0 <= C Object 0%nat /\ C Object 1%nat = 0 /\ C Object 2%nat = 0;
  linv_range : forall k i, (i < 3)%nat -> is_u (char_width i) (C k i);
  linv_sub : forall id p, st O C (Subclass id p) = kUninitialized \/ born O C id p;
  linv_distinct : forall id id' p, (Depth p < 3)%nat -> C (Subclass id p) (Depth p) <> 0 ->
    C (Subclass id p) (Depth p) = C (Subclass id' p) (Depth p) -> id = id' }.

Lemma ready_born O C k : ready O C k -> st O C k <> kUninitialized.
Proof. intros [E|E]; by rewrite E. Qed.

(** A class that has a label is not uninitialized. *)
Lemma born_state O C id p : born O C id p -> st O C (Subclass id p) <> kUninitialized.
Proof.
  intros [Hr Ho Hp Hn _ _]. rewrite state_Uninitialized. intros [Hf Hz]. cbn [Depth] in *.
  destruct (decide (S (Depth p) < 3)%nat) as [Hd|Hd]; [specialize (Hn Hd); rewrite Hz in Hn by done; lia|].
  destruct Hr as [Hr|Hr]; [|apply state_Overflowed, Ho in Hr; congruence].
  apply state_Assigned in Hr as (_ & _ & [Hr|[Hle Hr]]); [lia|]. apply Hr. rewrite <- Hp, Hz by lia. done.
Qed.

(** A class that is neither assigned nor overflowed has no child with a label. *)
Lemma unready_children O C id k : LInv O C -> ~ ready O C k -> st O C (Subclass id k) = kUninitialized.
Proof. intros [_ _ Hs _] Hk. destruct (Hs id k) as [|[? _ _ _ _ _]]; done. Qed.

(** An assigned class has a label of its own and an assigned superclass. *)
Lemma assigned_label O C id p : LInv O C -> st O C (Subclass id p) = kAssigned ->
  (Depth p < 3)%nat /\ C (Subclass id p) (Depth p) <> 0 /\ st O C p = kAssigned.
Proof.
  intros [_ _ Hs _] Ha. pose proof Ha as (Hu & Ho & Hl)%state_Assigned. destruct (Hs id p) as [|Hb]; [done|]. cbn [Depth] in Hl.
  destruct Hl as [|[Hd Hl]]; [done|]. rewrite Nat.sub_succ, Nat.sub_0_r in Hl. split_and!; [lia|done|].
  destruct (born_ready _ _ _ _ Hb) as [|Hp]; [done|]. apply state_Overflowed, (born_overflow _ _ _ _ Hb) in Hp. congruence.
Qed.

(** *** Soundness of the comparison of paths *)

Definition matches (C : Klass -> nat -> Z) (s t : Klass) : Prop :=
  forall i, (i < 3)%nat -> (i < Depth t)%nat -> path_char (Depth s) (C s) i = C t i.

(** The superclasses of a class with a label have labels that begin its own. *)
Lemma matches_super O C s t : LInv O C -> st O C s <> kUninitialized -> subclass_of s t = true ->
  st O C t <> kUninitialized /\ matches C s t /\ (Depth t <= Depth s)%nat.
Proof.
  intros HI. induction s as [|id p IH]; cbn [subclass_of]; intros Hs Ht.
  - rewrite orb_false_r in Ht. apply bool_decide_eq_true in Ht as <-. split_and!; [done| |done]. intros i _ Hi. cbn [Depth] in Hi. lia.
  - apply orb_true_iff in Ht as [Ht|Ht].
    + apply bool_decide_eq_true in Ht as <-. split_and!; [done| |done]. intros i _ Hi. unfold path_char. by rewrite (proj2 (Nat.ltb_lt _ _) Hi).
    + destruct (linv_sub _ _ HI id p) as [|Hb]; [done|].
      destruct (IH (ready_born _ _ _ (born_ready _ _ _ _ Hb)) Ht) as (Hu & Hm & Hd). cbn [Depth]. split_and!; [done| |lia].
      intros i Hi Hit. rewrite <- Hm by done. unfold path_char. cbn [Depth].
      rewrite !(proj2 (Nat.ltb_lt _ _)) by lia. apply (born_path _ _ _ _ Hb); lia.
Qed.

(** The superclass of [s] at a given depth. *)
Lemma super_at s d : (d <= Depth s)%nat -> exists a, subclass_of s a = true /\ Depth a = d.
Proof.
  induction s as [|id p IH]; cbn [Depth]; intros Hd.
  - exists Object. split; [done|]. cbn [Depth]. lia.
  - destruct (decide (d = S (Depth p))) as [->|].
    + exists (Subclass id p). split; [|done]. cbn [subclass_of]. by rewrite bool_decide_true.
    + destruct IH as (a & Ha & <-); [lia|]. exists a. split; [|done]. cbn [subclass_of]. rewrite Ha. apply orb_true_r.
Qed.

Lemma subclass_trans s a t : subclass_of s a = true -> subclass_of a t = true -> subclass_of s t = true.
Proof.
  intros Hs Ha. induction s as [|id p IH]; cbn [subclass_of] in Hs |- *; apply orb_true_iff in Hs as [Hs|Hs].
  - apply bool_decide_eq_true in Hs as <-. exact Ha.
  - done.
  - apply bool_decide_eq_true in Hs as <-. exact Ha.
  - rewrite IH by done. apply orb_true_r.
Qed.

Lemma subclass_depth s a : subclass_of s a = true -> (Depth a <= Depth s)%nat.
Proof.
  induction s as [|id p IH]; cbn [subclass_of]; intros [E|E]%orb_true_iff; try done;
    try (apply bool_decide_eq_true in E as <-; done). cbn [Depth]. specialize (IH E). lia.
Qed.

Lemma subclass_same_depth s a b : subclass_of s a = true -> subclass_of s b = true -> Depth a = Depth b -> a = b.
Proof.
  induction s as [|id p IH]; cbn [subclass_of]; intros Ha Hb Hd; apply orb_true_iff in Ha as [Ha|Ha]; apply orb_true_iff in Hb as [Hb|Hb];
    try done; try (apply bool_decide_eq_true in Ha); try (apply bool_decide_eq_true in Hb); subst; try done; auto.
  - apply subclass_depth in Hb. cbn [Depth] in Hd. lia.
  - apply subclass_depth in Ha. cbn [Depth] in Hd. lia.
Qed.

Lemma subclass_refl k : subclass_of k k = true.
Proof. destruct k; cbn [subclass_of]; by rewrite bool_decide_true. Qed.

Lemma subclass_super id p s : subclass_of s (Subclass id p) = true -> subclass_of s p = true.
Proof. intros H. apply (subclass_trans _ _ _ H). cbn [subclass_of]. rewrite subclass_refl. apply orb_true_r. Qed.

(** When the path of [s] begins with the path of an assigned class, it is a superclass of [s]. *)
Lemma matches_sound O C s t : LInv O C -> st O C s <> kUninitialized -> st O C t = kAssigned -> matches C s t -> subclass_of s t = true.
Proof.
  intros HI Hs. induction t as [|id p IH]; intros Ht Hm.
  - destruct (super_at s 0) as (a & Ha & Hd); [lia|]. by destruct a.
  - destruct (assigned_label _ _ _ _ HI Ht) as (Hd & Hl & Hp). cbn [Depth] in Hm.
    assert (subclass_of s p = true) as Hsp by (apply IH; [done|]; intros i Hi Hip; rewrite Hm by (cbn [Depth]; lia);
      destruct (linv_sub _ _ HI id p) as [Hu|Hb]; [by rewrite Hu in Ht|by apply Hb]).
    assert (path_char (Depth s) (C s) (Depth p) = C (Subclass id p) (Depth p)) as Hc by (apply Hm; cbn [Depth]; lia).
    unfold path_char in Hc. destruct (Nat.ltb_spec (Depth p) (Depth s)) as [Hps|]; [|congruence].
    destruct (super_at s (S (Depth p))) as (a & Hsa & Hda); [lia|]. destruct a as [|id' p']; [done|]. cbn [Depth] in Hda. injection Hda as Hda.
    assert (p' = p) as -> by (apply (subclass_same_depth s); [by eapply subclass_super|done..]).
    destruct (matches_super _ _ _ _ HI Hs Hsa) as (_ & Hma & _). specialize (Hma (Depth p) Hd). cbn [Depth] in Hma.
    specialize (Hma ltac:(lia)). unfold path_char in Hma. rewrite (proj2 (Nat.ltb_lt _ _) Hps) in Hma.
    assert (id = id') as ->; [|done]. apply (linv_distinct _ _ HI id id' p); [done..|]. congruence.
Qed.

(** *** A class gets a label from its superclass *)

Lemma state_ext d o f g : (forall i, (i < 3)%nat -> f i = g i) -> state_of d o f = state_of d o g.
Proof.
  intros E. unfold state_of. rewrite !E by lia. destruct o; [done|]. destruct (_ && _ && _); [done|].
  destruct (Nat.eqb_spec d 0); [done|]. destruct (Nat.leb_spec d 3); [|done]. by rewrite E by lia.
Qed.

(** Above the uninitialized state only the overflow bit and the own label count. *)
Lemma state_label d o f g : state_of d o f <> kUninitialized -> state_of d o g <> kUninitialized ->
  ((0 < d <= 3)%nat -> f (d - 1)%nat = g (d - 1)%nat) -> state_of d o f = state_of d o g.
Proof.
  unfold state_of. destruct o; [done|]. destruct (_ && _ && _); [done|]. destruct (_ && _ && _); [done|]. intros _ _ E.
  destruct (Nat.eqb_spec d 0); [done|]. destruct (Nat.leb_spec d 3); [|done]. by rewrite E by lia.
Qed.

Lemma ready_next O C p : LInv O C -> ready O C p ->
  ((Depth p < 3)%nat -> 1 <= C p (Depth p)) /\ forall i, (i < 3)%nat -> (Depth p < i)%nat -> C p i = 0.
Proof.
  intros HI Hr%ready_born. destruct p as [|id p].
  - destruct (linv_root _ _ HI) as (Ho & H0 & H1 & H2). cbn [Depth] in *. split.
    + intros _. destruct (decide (C Object 0%nat = 0)) as [E|]; [|lia]. exfalso. apply Hr, state_Uninitialized. split; [done|].
      intros i Hi. by positions.
    + intros i Hi Hlt. positions; done || lia.
  - destruct (linv_sub _ _ HI id p) as [|Hb]; [done|]. split; [apply Hb|apply Hb].
Qed.

Lemma super_ne id p : p <> Subclass id p.
Proof. intros E. apply (f_equal Depth) in E. cbn [Depth] in E. lia. Qed.

Section label.
Context (O O' : Klass -> bool) (C C' : Klass -> nat -> Z) (id : nat) (p : Klass) (label next : Z).
#[local] Abbreviation k := (Subclass id p).
Context (HI : LInv O C) (Hp : ready O C p) (Hk : ~ ready O C k).
Context (HO : forall j, j <> k -> O' j = O j).
Context (HC : forall j i, (i < 3)%nat -> j <> k -> j <> p \/ i <> Depth p -> C' j i = C j i).
Context (HCp : (Depth p < 3)%nat -> C' p (Depth p) = next).
Context (HCk : forall i, (i < 3)%nat -> C' k i = child_chars (Depth p) (C p) label i).
Context (Hov : O p = true -> O' k = true).
Context (Hlabel : (label = 0 /\ next = C p (Depth p)) \/
  ((Depth p < 3)%nat /\ O' k = false /\ label = C p (Depth p) /\ next = label + 1 /\ is_u (char_width (Depth p)) next)).

#[local] Set Default Proof Using "All".

Lemma label_next : (Depth p < 3)%nat -> 1 <= next /\ C p (Depth p) <= next /\ (label <> 0 -> label < next).
Proof. intros Hd. pose proof (proj1 (ready_next _ _ _ HI Hp) Hd). destruct Hlabel as [[-> ->]|(_ & _ & -> & -> & _)]; lia. Qed.

Lemma label_state_other j : j <> k -> st O' C' j = st O C j.
Proof.
  intros Hj. rewrite (HO j Hj). destruct (decide (j = p)) as [->|Hjp]; [|apply state_ext; intros i Hi; apply HC; auto].
  destruct (decide (Depth p < 3)%nat) as [Hd|Hd]; [|apply state_ext; intros i Hi; apply HC; auto; right; lia].
  apply state_label; [|by apply ready_born|].
  - rewrite state_Uninitialized. intros [_ Hz]. specialize (Hz (Depth p) Hd). rewrite HCp in Hz by done. pose proof (label_next Hd). lia.
  - intros Hd'. apply HC; auto; [lia|]. right. lia.
Qed.

Lemma label_born : born O' C' id p.
Proof.
  pose proof (super_ne id p) as Hne. constructor.
  - unfold ready. by rewrite label_state_other.
  - by rewrite HO.
  - intros i Hi Hd. rewrite HCk, HC by (done || right; lia). unfold child_chars. repeat case_decide; done || lia.
  - intros Hd. rewrite HCk by lia. unfold child_chars. repeat case_decide; lia.
  - intros i Hi Hd. rewrite HCk by lia. unfold child_chars. repeat case_decide; try lia. apply (ready_next _ _ _ HI Hp); lia.
  - intros Hd. rewrite HCk, HCp by done. unfold child_chars. rewrite decide_True by done. intros Hl.
    split; [|by apply label_next]. destruct Hlabel as [[? _]|(_ & ? & _)]; done.
Qed.

(** The classes other than [k] keep what holds of them. *)
Lemma label_born_other id2 p2 : Subclass id2 p2 <> k -> p2 <> k -> born O C id2 p2 -> born O' C' id2 p2.
Proof.
  intros Hj Hp2 Hb. set (j := Subclass id2 p2) in *. assert (j = p -> (Depth p2 < Depth p)%nat) as Hdj
    by (intros E; apply (f_equal Depth) in E; cbn [j Depth] in E; lia).
  constructor.
  - unfold ready. rewrite label_state_other by done. apply Hb.
  - rewrite !HO by done. apply Hb.
  - intros i Hi Hd. fold j. rewrite (HC j), (HC p2) by (done || (destruct (decide (j = p)); [right; specialize (Hdj ltac:(done)); lia|by left]) ||
      (destruct (decide (p2 = p)) as [->|]; [right; lia|by left])). by apply Hb.
  - intros Hd. fold j. destruct (decide (j = p)) as [E|E].
    + assert (S (Depth p2) = Depth p) as Ed by (by rewrite <- E). rewrite E, Ed, HCp by lia. apply label_next. lia.
    + rewrite HC by auto. by apply Hb.
  - intros i Hi Hd. fold j. rewrite HC; [by apply Hb|done..|]. destruct (decide (j = p)) as [E|]; [|by left]. right.
    assert (S (Depth p2) = Depth p) by (by rewrite <- E). lia.
  - intros Hd Hl. fold j in Hl |- *. assert (j <> p \/ Depth p2 <> Depth p) as Hjp
      by (destruct (decide (j = p)) as [E|]; [right; specialize (Hdj E); lia|by left]).
    rewrite HC in Hl |- * by done. rewrite HO by done. destruct (born_label _ _ _ _ Hb Hd Hl) as [H1 H2]. split; [done|].
    destruct (decide (p2 = p)) as [->|]; [|by rewrite HC by auto]. rewrite HCp by done. destruct (label_next Hd) as (_ & ? & _). fold j in H2. lia.
Qed.

Lemma label_distinct id1 id2 p2 : (Depth p2 < 3)%nat -> C' (Subclass id1 p2) (Depth p2) <> 0 ->
  C' (Subclass id1 p2) (Depth p2) = C' (Subclass id2 p2) (Depth p2) -> id1 = id2.
Proof.
  intros Hd Hn He.
  assert (forall i2, Subclass i2 p2 <> k -> C' (Subclass i2 p2) (Depth p2) = C (Subclass i2 p2) (Depth p2)) as Hsame.
  { intros i2 Hi2. apply HC; [done..|]. destruct (decide (Subclass i2 p2 = p)) as [<-|]; [right; cbn [Depth]; lia|by left]. }
  assert (forall i2, p2 = p -> Subclass i2 p2 <> k -> C' (Subclass i2 p2) (Depth p2) <> 0 -> C' (Subclass i2 p2) (Depth p2) <> label) as Hfresh.
  { intros i2 -> Hi2 Hn2 E. rewrite Hsame in Hn2, E by done.
    destruct Hlabel as [[? _]|(_ & _ & El & _)]; [congruence|]. destruct (linv_sub _ _ HI i2 p) as [Hu|Hb].
    - apply state_Uninitialized in Hu as [_ Hu]. by rewrite Hu in Hn2.
    - apply (born_label _ _ _ _ Hb Hd) in Hn2 as [_ ?]. lia. }
  assert (C' k (Depth p) = label \/ ~ (Depth p < 3)%nat) as Hown.
  { destruct (decide (Depth p < 3)%nat); [left|by right]. rewrite HCk by done. unfold child_chars. by rewrite decide_True. }
  destruct (decide (Subclass id1 p2 = k)) as [E1|E1], (decide (Subclass id2 p2 = k)) as [E2|E2].
  - congruence.
  - injection E1 as -> ->. exfalso. destruct Hown as [Hown|]; [|done]. apply (Hfresh id2); congruence.
  - injection E2 as -> ->. exfalso. destruct Hown as [Hown|]; [|done]. apply (Hfresh id1); congruence.
  - rewrite !Hsame in He by done. rewrite Hsame in Hn by done. by apply (linv_distinct _ _ HI id1 id2 p2).
Qed.

Lemma label_inv : LInv O' C'.
Proof.
  pose proof (super_ne id p) as Hne. constructor.
  - destruct (linv_root _ _ HI) as (H0 & H1 & H2 & H3). rewrite HO by done. destruct (decide (p = Object)) as [E|E].
    + rewrite !(HC Object) with (i := 1%nat), !(HC Object) with (i := 2%nat) by (done || lia || (right; by rewrite E)). split_and!; try done.
      pose proof label_next as Hl. rewrite E in HCp, Hl. cbn [Depth] in HCp, Hl. rewrite HCp by lia. lia.
    + rewrite !HC by (done || lia || by left). done.
  - intros j i Hi. pose proof (linv_range _ _ HI) as Hr. destruct (decide (j = k)) as [->|Hj].
    + rewrite HCk by done. unfold child_chars. repeat case_decide; [|by apply char_width_pos|by apply Hr].
      subst i. destruct Hlabel as [[-> _]|(_ & _ & -> & _)]; [by apply char_width_pos|by apply Hr].
    + destruct (decide (j = p /\ i = Depth p)) as [[-> ->]|Hn].
      * rewrite HCp by done. destruct Hlabel as [[_ ->]|(_ & _ & _ & _ & ?)]; [by apply Hr|done].
      * rewrite HC; [by apply Hr|done..|]. destruct (decide (j = p)); [right; intros ->; by apply Hn|by left].
  - intros id2 p2. destruct (decide (Subclass id2 p2 = k)) as [E|E]; [injection E as -> ->; right; apply label_born|].
    rewrite label_state_other by done. destruct (decide (p2 = k)) as [->|Hp2]; [left; by apply unready_children|].
    destruct (linv_sub _ _ HI id2 p2) as [|Hb]; [by left|right; by apply label_born_other].
  - apply label_distinct.
Qed.
End label.

(** ** The operations *)

Definition Ov (h : heap) (k : Klass) : bool := get_overflow_ (bits_of h k).
Definition Ch (h : heap) (k : Klass) (i : nat) : Z := char (get_bitstring_ (bits_of h k)) i.
Definition hinv (h : heap) : Prop := heap_ok h /\ LInv (Ov h) (Ch h).

Lemma info_described h k : heap_ok h -> described (GetSubtypeCheckInfo h k) (Depth k) (Ov h k) (Ch h k).
Proof. intros Hh. constructor; [|done..]. by apply info_ok. Qed.

Lemma class_state_st h k : heap_ok h -> class_state h k = st (Ov h) (Ch h) k.
Proof. intros Hh. by apply GetState_described, info_described. Qed.

(** What never changes again: the state and the path of an assigned or overflowed class. *)
Definition stable (h h' : heap) : Prop := forall j,
  (ready (Ov h) (Ch h) j -> st (Ov h') (Ch h') j = st (Ov h) (Ch h) j /\
     forall i, (i < 3)%nat -> (i < Depth j)%nat -> Ch h' j i = Ch h j i) /\
  (st (Ov h) (Ch h) j <> kUninitialized -> st (Ov h') (Ch h') j <> kUninitialized).

Lemma stable_refl h : stable h h.
Proof. by intros j. Qed.

Lemma stable_trans h1 h2 h3 : stable h1 h2 -> stable h2 h3 -> stable h1 h3.
Proof.
  intros H1 H2 j. destruct (H1 j) as [R1 U1], (H2 j) as [R2 U2]. split; [|auto]. intros Hr. destruct (R1 Hr) as [E1 P1].
  destruct R2 as [E2 P2]; [unfold ready; by rewrite E1|]. split; [congruence|]. intros i Hi Hd. rewrite P2, P1; done.
Qed.

Lemma same_bits_hinv h h' : hinv h -> same_bits h h' -> hinv h' /\ stable h h'.
Proof.
  intros [Hh HI] [Hh' Hb]. assert (forall k, Ov h' k = Ov h k) as EO by (intros k; unfold Ov; by rewrite Hb).
  assert (forall k i, Ch h' k i = Ch h k i) as EC by (intros k i; unfold Ch; by rewrite Hb).
  assert (forall k, st (Ov h') (Ch h') k = st (Ov h) (Ch h) k) as ES by (intros k; rewrite EO; by apply state_ext).
  split; [|intros j; by rewrite ES]. split; [done|]. destruct HI as [I1 I2 I3 I4]. constructor.
  - by rewrite EO, !EC.
  - intros k i. rewrite EC. apply I2.
  - intros id p. rewrite ES. destruct (I3 id p) as [|[B1 B2 B3 B4 B5 B6]]; [by left|right].
    constructor; [unfold ready; by rewrite ES|rewrite !EO; done| | | |rewrite !EO, !EC; done];
      [intros i Hi Hd; rewrite !EC; auto|rewrite EC; done|intros i Hi Hd; rewrite EC; auto].
  - intros id id' p. rewrite !EC. apply I4.
Qed.

(** Why a class is overflowed although its label was asked for. *)
Definition overflow_reason (h : heap) (k : Klass) : Prop :=
  match k with
  | Object => False
  | Subclass _ p => (3 <= Depth p)%nat \/ st (Ov h) (Ch h) p = kOverflowed \/ Ch h p (Depth p) = max_char (Depth p)
  end.

Record ensured (h h' : heap) (k : Klass) (assign : bool) (sci : SubtypeCheckInfo) : Prop := {
  ensured_inv : hinv h';
  ensured_stable : stable h h';
  ensured_sci : described sci (Depth k) (Ov h' k) (Ch h' k);
  ensured_frame : forall j, subclass_of k j = false -> bits_of h' j = bits_of h j;
  ensured_state : st (Ov h') (Ch h') k <> kUninitialized;
  ensured_assigned : assign = true -> ready (Ov h') (Ch h') k;
  ensured_reason : st (Ov h') (Ch h') k = kOverflowed -> st (Ov h) (Ch h) k = kOverflowed \/ overflow_reason h' k }.

Lemma set_info h k sci d o f : heap_ok h -> described sci d o f ->
  exists h', SetSubtypeCheckInfo h k sci = Some h' /\ heap_ok h' /\
    forall k', bits_of h' k' = if decide (k' = k) then bitstring_and_of_ sci else bits_of h k'.
Proof. intros Hh Hs. apply write_bits_loop_spec; [done|apply Hs|unfold attempts; lia]. Qed.

Lemma all_uninitialized O C : LInv O C -> st O C Object = kUninitialized -> forall j, st O C j = kUninitialized.
Proof.
  intros HI Hu j. induction j as [|id p IH]; [done|]. apply unready_children; [done|]. intros Hr%ready_born. done.
Qed.

Lemma ensure_root h assign : hinv h -> exists sci h', InitializeOrAssign h Object assign = Some (sci, h') /\ ensured h h' Object assign sci.
Proof.
  intros [Hh HI]. cbn [InitializeOrAssign]. change (GetState (GetSubtypeCheckInfo h Object)) with (class_state h Object).
  rewrite class_state_st by done.
  assert (forall h1, LInv (Ov h1) (Ch h1) -> st (Ov h1) (Ch h1) Object <> kUninitialized -> ready (Ov h1) (Ch h1) Object) as Hready.
  { intros h1 HI1 Hu. left. apply state_Assigned. split_and!; [done|by apply HI1|by left]. }
  case_bool_decide as Hu; cbn [negb].
  - destruct (set_info h Object CreateRoot _ _ _ Hh CreateRoot_described) as (h1 & E & Hh1 & Hb). rewrite E. cbn [mbind option_bind].
    exists CreateRoot, h1. split; [done|]. pose proof (all_uninitialized _ _ HI Hu) as Hall.
    assert (bits_of h1 Object = bitstring_and_of_ CreateRoot) as Hr by (rewrite Hb; by rewrite decide_True).
    assert (forall j, j <> Object -> Ov h1 j = Ov h j /\ forall i, Ch h1 j i = Ch h j i) as Hsame
      by (intros j Hne; unfold Ov, Ch; by rewrite Hb, decide_False).
    assert (st (Ov h1) (Ch h1) Object = kAssigned) as Hs1 by (cbn [Depth]; unfold Ov, state_of, Ch; rewrite Hr; by vm_compute).
    assert (LInv (Ov h1) (Ch h1)) as HI1.
    { constructor.
      - unfold Ov, Ch. rewrite Hr. vm_compute. intuition congruence.
      - intros k i Hi. apply char_is_u; [|done]. apply bitstring_ok, info_ok, Hh1.
      - intros id p. left. rewrite <- (Hall (Subclass id p)). destruct (Hsame (Subclass id p)) as [-> HC]; [done|]. by apply state_ext.
      - intros id id' p. destruct (Hsame (Subclass id p)) as [_ ->]; [done|]. destruct (Hsame (Subclass id' p)) as [_ ->]; [done|].
        apply HI. }
    constructor; [done| | | |by rewrite Hs1|intros _; by left|by rewrite Hs1].
    + intros j. split; [intros Hj%ready_born|intros Hj]; by rewrite Hall in Hj.
    + destruct CreateRoot_described as [G1 G2 G3 G4]. constructor; [done..|unfold Ov; by rewrite Hr|]. intros i Hi. unfold Ch. by rewrite Hr.
    + intros j Hj. rewrite Hb, decide_False; [done|]. by intros ->.
  - exists (GetSubtypeCheckInfo h Object), h. split; [done|]. constructor; [done|apply stable_refl|by apply info_described|done|done|auto|].
    intros E. by left.
Qed.

(** The writes of a new label. *)
Lemma write_label h id p sci parent oo label next :
  let k := Subclass id p in
  hinv h -> ready (Ov h) (Ch h) p -> ~ ready (Ov h) (Ch h) k ->
  described sci (Depth p + 1) oo (child_chars (Depth p) (Ch h p) label) ->
  described parent (Depth p) (Ov h p) (fun j => if decide (Depth p = j) then next else Ch h p j) ->
  (Ov h p = true -> oo = true) ->
  (label = 0 /\ next = Ch h p (Depth p)) \/
    ((Depth p < 3)%nat /\ oo = false /\ label = Ch h p (Depth p) /\ next = label + 1 /\ is_u (char_width (Depth p)) next) ->
  exists h', (h ← SetSubtypeCheckInfo h k sci; h ← SetSubtypeCheckInfo h p parent; Some (sci, h)) = Some (sci, h') /\
    hinv h' /\ stable h h' /\ described sci (Depth k) (Ov h' k) (Ch h' k) /\ st (Ov h') (Ch h') k <> kUninitialized /\
    Ov h' k = oo /\ ((Depth p < 3)%nat -> Ch h' k (Depth p) = label /\ Ch h' p (Depth p) = next) /\ st (Ov h') (Ch h') p = st (Ov h) (Ch h) p /\
    forall j, subclass_of k j = false -> bits_of h' j = bits_of h j.
Proof.
  intros k [Hh HI] Hp Hk Hsci Hpar Hov Hlabel.
  destruct (set_info h k sci _ _ _ Hh Hsci) as (h1 & -> & Hh1 & Hb1). cbn [mbind option_bind].
  destruct (set_info h1 p parent _ _ _ Hh1 Hpar) as (h2 & -> & Hh2 & Hb2). cbn [mbind option_bind].
  exists h2. split; [done|]. pose proof (super_ne id p) as Hne. fold k in Hne.
  assert (bits_of h2 k = bitstring_and_of_ sci) as Bk by (rewrite Hb2, decide_False, Hb1, decide_True; congruence).
  assert (bits_of h2 p = bitstring_and_of_ parent) as Bp by (rewrite Hb2, decide_True; congruence).
  assert (forall j, j <> k -> j <> p -> bits_of h2 j = bits_of h j) as Bj by (intros j ? ?; by rewrite Hb2, decide_False, Hb1, decide_False).
  assert (Ov h2 k = oo) as HOk by (unfold Ov; rewrite Bk; apply Hsci).
  assert (forall i, (i < 3)%nat -> Ch h2 k i = child_chars (Depth p) (Ch h p) label i) as HCk by (intros i Hi; unfold Ch; rewrite Bk; by apply Hsci).
  assert (forall i, (i < 3)%nat -> Ch h2 p i = if decide (Depth p = i) then next else Ch h p i) as HCp by (intros i Hi; unfold Ch at 1; rewrite Bp; by apply Hpar).
  assert (forall j, j <> k -> Ov h2 j = Ov h j) as HO.
  { intros j Hj. destruct (decide (j = p)) as [->|]; [unfold Ov at 1; rewrite Bp; apply Hpar|unfold Ov; by rewrite Bj]. }
  assert (forall j i, (i < 3)%nat -> j <> k -> j <> p \/ i <> Depth p -> Ch h2 j i = Ch h j i) as HC.
  { intros j i Hi Hj Hd. destruct (decide (j = p)) as [->|]; [destruct Hd as [|Hd]; [done|]; by rewrite HCp, decide_False by auto|unfold Ch; by rewrite Bj]. }
  assert ((Depth p < 3)%nat -> Ch h2 p (Depth p) = next) as HCn by (intros Hd; by rewrite HCp, decide_True).
  assert (Ov h p = true -> Ov h2 k = true) as Hov' by (rewrite HOk; done). rewrite <- HOk in Hlabel.
  pose proof (label_inv _ _ _ _ id p label next HI Hp Hk HO HC HCn HCk Hov' Hlabel) as HI2.
  pose proof (label_state_other _ _ _ _ id p label next HI Hp Hk HO HC HCn HCk Hov' Hlabel) as Hst.
  pose proof (born_state _ _ _ _ (label_born _ _ _ _ id p label next HI Hp Hk HO HC HCn HCk Hov' Hlabel)) as Hborn.
  split_and!; [by split| | |done|done| |by apply Hst|].
  - intros j. destruct (decide (j = k)) as [->|Hj]; [by split|]. rewrite Hst by done. split; [|done]. intros _. split; [done|].
    intros i Hi Hd. apply HC; [done..|]. destruct (decide (j = p)) as [->|]; [right; lia|by left].
  - rewrite HOk. replace (Depth k) with (Depth p + 1)%nat by (cbn [k Depth]; lia). eapply described_ext; [done|]. intros i Hi. by rewrite HCk.
  - intros Hd. split; [|by apply HCn]. rewrite HCk by done. unfold child_chars. by rewrite decide_True.
  - intros j Hj. apply Bj; intros ->; [by rewrite subclass_refl in Hj|]. revert Hj. unfold k. cbn [subclass_of]. by rewrite subclass_refl, orb_true_r.
Qed.

Lemma ensure_sub h id p assign :
  hinv h -> ready (Ov h) (Ch h) p ->
  let k := Subclass id p in
  exists sci h',
    (let sci := GetSubtypeCheckInfo_at h k (Depth p + 1) in
     let parent_sci := GetSubtypeCheckInfo_at h p (Depth p) in
     let sci_state := GetState sci in
     if bool_decide (sci_state = kUninitialized) || (bool_decide (sci_state = kInitialized) && assign) then
       let '(sci, parent_sci) := CreateChild parent_sci assign in
       h ← SetSubtypeCheckInfo h k sci;
       h ← SetSubtypeCheckInfo h p parent_sci;
       Some (sci, h)
     else Some (sci, h)) = Some (sci, h') /\ ensured h h' k assign sci.
Proof.
  intros [Hh HI] Hp k. replace (Depth p + 1)%nat with (Depth k) by (cbn [k Depth]; lia). cbv zeta.
  change (GetSubtypeCheckInfo_at h k (Depth k)) with (GetSubtypeCheckInfo h k).
  change (GetSubtypeCheckInfo_at h p (Depth p)) with (GetSubtypeCheckInfo h p).
  change (GetState (GetSubtypeCheckInfo h k)) with (class_state h k). rewrite class_state_st by done.
  destruct (bool_decide _ || _) eqn:Hwork.
  - assert (~ ready (Ov h) (Ch h) k) as Hk.
    { apply orb_true_iff in Hwork. rewrite andb_true_iff, !bool_decide_eq_true in Hwork. unfold ready. intuition congruence. }
    destruct (CreateChild _ assign) as [sci parent] eqn:EC.
    pose proof (CreateChild_described _ _ _ _ _ _ _ (info_described h p Hh) EC) as HCD.
    destruct (assign && _ && _ && _) eqn:Hcase; destruct HCD as [Hsci Hpar].
    + rewrite !andb_true_iff, Nat.ltb_lt, !negb_true_iff, Z.eqb_neq in Hcase. destruct Hcase as [[[-> Hd] Ho] Hm].
      destruct (write_label h id p sci parent _ _ _ (conj Hh HI) Hp Hk Hsci Hpar) as (h' & E & Hi & Hs & Hdesc & Hu & HO & Hl & Hps & Hfr).
      { congruence. }
      { right. split_and!; try done. pose proof (linv_range _ _ HI p _ Hd). unfold is_u, max_char in *. lia. }
      exists sci, h'. split; [exact E|]. fold k in HO, Hl, Hdesc, Hu. destruct (Hl Hd) as [Hlab _].
      assert (st (Ov h') (Ch h') k = kAssigned) as Hst.
      { apply state_Assigned. split_and!; [done|by rewrite HO|right]. cbn [k Depth]. split; [lia|]. rewrite Nat.sub_succ, Nat.sub_0_r.
        fold k. rewrite Hlab. pose proof (proj1 (ready_next _ _ _ HI Hp) Hd). lia. }
      constructor; try done; [intros _; by left|by rewrite Hst].
    + subst parent.
      assert (described (GetSubtypeCheckInfo h p) (Depth p) (Ov h p) (fun j => if decide (Depth p = j) then Ch h p (Depth p) else Ch h p j)) as Hpar.
      { eapply described_ext; [by apply info_described|]. intros i Hi. destruct (decide (Depth p = i)) as [<-|]; done. }
      destruct (write_label h id p sci _ _ _ _ (conj Hh HI) Hp Hk Hsci Hpar) as (h' & E & Hi & Hs & Hdesc & Hu & HO & Hl & Hps & Hfr).
      { by intros ->. }
      { by left. }
      exists sci, h'. split; [exact E|]. fold k in HO, Hl, Hdesc, Hu. constructor; try done.
      * intros ->. right. apply state_Overflowed. by rewrite HO, orb_true_r.
      * intros Hof%state_Overflowed. right. cbn [k overflow_reason]. rewrite Hps, state_Overflowed. rewrite HO in Hof.
        destruct (Ov h p) eqn:Hop; [by right; left|]. cbn [orb] in Hof. subst assign. cbn [andb negb] in Hcase.
        destruct (Nat.ltb_spec (Depth p) 3) as [Hd|]; [|by left]. right. right. destruct (Hl Hd) as [_ ->].
        cbn [andb] in Hcase. by apply negb_false_iff, Z.eqb_eq in Hcase.
  - exists (GetSubtypeCheckInfo h k), h. split; [done|]. apply orb_false_iff in Hwork as [Hu Hi]. apply bool_decide_eq_false in Hu.
    constructor; [done|apply stable_refl|by apply info_described|done|done| |by left]. intros ->. rewrite andb_true_r in Hi.
    apply bool_decide_eq_false in Hi. unfold ready. destruct (st (Ov h) (Ch h) k); auto; done.
Qed.

Lemma InitializeOrAssign_spec h k assign : hinv h ->
  exists sci h', InitializeOrAssign h k assign = Some (sci, h') /\ ensured h h' k assign sci.
Proof.
  revert h assign. induction k as [|id p IH]; intros h assign Hh; [by apply ensure_root|]. cbn [InitializeOrAssign].
  destruct (IH h true Hh) as (psci & h1 & -> & E1). cbn [mbind option_bind]. cbv zeta.
  rewrite (described_depth _ _ _ _ (ensured_sci _ _ _ _ _ E1)).
  destruct (ensure_sub h1 id p assign (ensured_inv _ _ _ _ _ E1) (ensured_assigned _ _ _ _ _ E1 eq_refl)) as (sci & h2 & E & E2).
  exists sci, h2. split; [exact E|]. destruct E2 as [I2 S2 D2 F2 U2 A2 R2]. constructor; try done.
  - eapply stable_trans; [by eapply ensured_stable|done].
  - intros j Hj. rewrite F2 by done. apply (ensured_frame _ _ _ _ _ E1). cbn [subclass_of] in Hj. by apply orb_false_iff in Hj as [_ ?].
  - intros Hof. destruct (R2 Hof) as [Ho|]; [|by right]. left. apply state_Overflowed. apply state_Overflowed in Ho. rewrite <- Ho. unfold Ov.
    symmetry. f_equal. apply (ensured_frame _ _ _ _ _ E1). apply not_true_iff_false. intros Hs. pose proof (subclass_depth _ _ Hs) as Hd. cbn [Depth] in Hd. lia.
Qed.

(** *** Sequences of operations *)

(** No class has a label yet; the statuses are arbitrary. *)
Definition unlabelled (h : heap) : Prop := heap_ok h /\ forall k, bits_of h k = 0.

Lemma unlabelled_hinv h : unlabelled h -> hinv h.
Proof.
  intros [Hh Hz]. split; [done|]. assert (forall k i, (i < 3)%nat -> Ch h k i = 0) as HC by (intros k i Hi; unfold Ch; rewrite Hz; by positions).
  assert (forall k, Ov h k = false) as HO by (intros k; unfold Ov; by rewrite Hz). constructor.
  - rewrite HO, !HC by lia. done.
  - intros k i Hi. rewrite HC by done. by apply char_width_pos.
  - intros id p. left. apply state_Uninitialized. auto.
  - intros id id' p Hd Hn. by rewrite HC in Hn.
Qed.

Lemma run_op_spec h o : hinv h -> exists h', run_op h o = Some h' /\ hinv h' /\ stable h h'.
Proof.
  intros Hh. destruct o as [k|k|k status]; cbn [run_op].
  - destruct (InitializeOrAssign_spec h k false Hh) as (sci & h' & E & []). exists h'. unfold EnsureInitialized. by rewrite E.
  - destruct (InitializeOrAssign_spec h k true Hh) as (sci & h' & E & []). exists h'. unfold EnsureAssigned. by rewrite E.
  - destruct (write_status_loop_spec (attempts h) h k status) as (h' & E & Hs); [apply Hh|unfold attempts; lia|].
    exists h'. split; [done|]. by apply same_bits_hinv.
Qed.

Lemma run_ops_spec ops h : hinv h -> exists h', run_ops h ops = Some h' /\ hinv h' /\ stable h h'.
Proof.
  revert h. induction ops as [|o ops IH]; intros h Hh; [exists h; split_and!; [done..|apply stable_refl]|]. cbn [run_ops].
  destruct (run_op_spec h o Hh) as (h1 & -> & H1 & S1). cbn [mbind option_bind]. destruct (IH h1 H1) as (h2 & -> & H2 & S2).
  exists h2. split_and!; [done..|]. by eapply stable_trans.
Qed.

Lemma IsSubtypeOf_hinv h s t : hinv h ->
  IsSubtypeOf h s t =
    if negb (bool_decide (class_state h t = kAssigned)) || bool_decide (class_state h s = kUninitialized) then kUnknownSubtypeOf
    else if subclass_of s t then kSubtypeOf else kNotSubtypeOf.
Proof.
  intros [Hh HI]. rewrite !class_state_st by done.
  destruct (IsSubtypeOf_described _ _ _ _ _ _ _ _ (info_described h s Hh) (info_described h t Hh)) as [HU HS].
  unfold IsSubtypeOf. revert HU HS. generalize (info_IsSubtypeOf (GetSubtypeCheckInfo h s) (GetSubtypeCheckInfo h t)). intros r HU HS.
  case_bool_decide as Ht; cbn [negb orb]; [|apply HU; by left]. case_bool_decide as Hs; [apply HU; by right|].
  destruct (subclass_of s t) eqn:E.
  - apply HS. split_and!; [done..|]. by apply (matches_super _ _ _ _ HI Hs E).
  - destruct r; [exfalso; destruct (proj1 HU eq_refl); done|done|]. exfalso. destruct (proj1 HS eq_refl) as (_ & _ & Hm).
    by rewrite (matches_sound _ _ _ _ HI Hs Ht Hm) in E.
Qed.

(** The superclasses of a class with a label are assigned or overflowed. *)
Lemma supers_ready O C k a : LInv O C -> st O C k <> kUninitialized -> subclass_of k a = true -> a <> k -> ready O C a.
Proof.
  intros HI. induction k as [|id p IH]; cbn [subclass_of]; intros Hk Ha Hne; apply orb_true_iff in Ha as [Ha|Ha];
    try (by apply bool_decide_eq_true in Ha); [done|]. destruct (linv_sub _ _ HI id p) as [|Hb]; [done|].
  destruct (decide (a = p)) as [->|]; [apply Hb|]. apply IH; [by apply ready_born, Hb|done..].
Qed.

Lemma stable_path h h' k : heap_ok h -> heap_ok h' -> stable h h' ->
  class_state h k = kAssigned \/ class_state h k = kOverflowed ->
  class_state h' k = class_state h k /\ GetEncodedPathToRootForTarget h' k = GetEncodedPathToRootForTarget h k.
Proof.
  intros Hh Hh' Hs. rewrite !class_state_st by done. intros Hr. destruct (Hs k) as [Hk _]. destruct (Hk Hr) as [E HP]. split; [done|].
  pose proof (path_described _ _ _ _ 0 (info_described h k Hh) ltac:(lia)) as [U _].
  pose proof (path_described _ _ _ _ 0 (info_described h' k Hh') ltac:(lia)) as [U' _].
  unfold GetEncodedPathToRootForTarget, GetEncodedPathToRoot. apply char_ext; [done..|]. intros i Hi. rewrite (proj2 (path_described _ _ _ _ i (info_described h k Hh) Hi)).
  rewrite (proj2 (path_described _ _ _ _ i (info_described h' k Hh') Hi)). unfold path_char.
  destruct (Nat.ltb_spec i (Depth k)); [by apply HP|done].
Qed.

(** ** Concurrent writers

    The thread that holds subtype_check_lock_ writes the label of a class while another thread
    writes its status.  Both run a compare-and-swap loop on the same word: a thread that has read
    the word is [Loaded] with what it read. *)

Inductive pc := Start | Loaded (old_value : Z) | Finished.

Record config := Config { word : Z; bits_writer : pc; status_writer : pc }.

(** One step of WriteSubtypeCheckBits or of WriteStatusImpl; a weak compare-and-swap may always fail. *)
Inductive step (new_bits status : Z) : config -> config -> Prop :=
  | bits_read w s :
      step new_bits status (Config w Start s)
        (Config w (if get_subtype_check_info_ w =? new_bits then Finished else Loaded w) s)
  | bits_cas w s : step new_bits status (Config w (Loaded w) s) (Config (set_subtype_check_info_ w new_bits) Finished s)
  | bits_fail w old s : step new_bits status (Config w (Loaded old) s) (Config w Start s)
  | status_read w b :
      step new_bits status (Config w b Start)
        (Config w b (if get_status_ w =? status then Finished else Loaded w))
  | status_cas w b : step new_bits status (Config w b (Loaded w)) (Config (set_status_ w status) b Finished)
  | status_fail w b old : step new_bits status (Config w b (Loaded old)) (Config w b Start).

(** What every reachable configuration satisfies, [w0] being the word at the start. *)
Record writers_ok (w0 new_bits status : Z) (c : config) : Prop := {
  ok_word : is_u 32 (word c);
  ok_bits : get_subtype_check_info_ (word c) = get_subtype_check_info_ w0 \/ get_subtype_check_info_ (word c) = new_bits;
  ok_status : get_status_ (word c) = get_status_ w0 \/ get_status_ (word c) = status;
  ok_bits_done : bits_writer c = Finished -> get_subtype_check_info_ (word c) = new_bits;
  ok_status_done : status_writer c = Finished -> get_status_ (word c) = status }.

Lemma step_writers_ok w0 new_bits status c c' :
  bits_ok new_bits -> is_u 4 status -> step new_bits status c c' -> writers_ok w0 new_bits status c -> writers_ok w0 new_bits status c'.
Proof.
  intros Hb Hs Hst [H1 H2 H3 H4 H5].
  destruct Hst as [w s|w s|w old s|w b|w b|w b old]; cbn [word bits_writer status_writer] in *;
    try (destruct (word_fields w new_bits H1) as (_ & E1 & E2 & _ & _ & E3); specialize (E2 Hb));
    try (destruct (word_fields w status H1) as (E4 & _ & _ & E5 & E6 & _); specialize (E5 Hs)).
  - constructor; cbn [word bits_writer status_writer]; try done. by case_ltb.
  - constructor; cbn [word bits_writer status_writer]; rewrite ?E1, ?E2; auto.
  - by constructor.
  - constructor; cbn [word bits_writer status_writer]; try done. by case_ltb.
  - constructor; cbn [word bits_writer status_writer]; rewrite ?E4, ?E5; auto.
  - by constructor.
Qed.

Lemma reachable_writers_ok w0 new_bits status c :
  is_u 32 w0 -> bits_ok new_bits -> is_u 4 status -> rtc (step new_bits status) (Config w0 Start Start) c -> writers_ok w0 new_bits status c.
Proof.
  intros Hw Hb Hs. revert c. apply rtc_ind_r; [constructor; cbn [word bits_writer status_writer]; auto; done|].
  intros c c' _ Hst Hok. by eapply step_writers_ok.
Qed.

(** A writer can always finish from where it is without the other one moving. *)
Lemma bits_writer_finishes new_bits status w b s : exists w', rtc (step new_bits status) (Config w b s) (Config w' Finished s).
Proof.
  assert (exists w', rtc (step new_bits status) (Config w Start s) (Config w' Finished s)) as [w' Hw'].
  { pose proof (bits_read new_bits status w s) as H. destruct (get_subtype_check_info_ w =? new_bits); eexists.
    - by apply rtc_once.
    - eapply rtc_l; [exact H|]. apply rtc_once, bits_cas. }
  destruct b as [|old|]; [by exists w'| |by exists w]. exists w'. eapply rtc_l; [apply bits_fail|done].
Qed.

Lemma status_writer_finishes new_bits status w b s : exists w', rtc (step new_bits status) (Config w b s) (Config w' b Finished).
Proof.
  assert (exists w', rtc (step new_bits status) (Config w b Start) (Config w' b Finished)) as [w' Hw'].
  { pose proof (status_read new_bits status w b) as H. destruct (get_status_ w =? status); eexists.
    - by apply rtc_once.
    - eapply rtc_l; [exact H|]. apply rtc_once, status_cas. }
  destruct s as [|old|]; [by exists w'| |by exists w]. exists w'. eapply rtc_l; [apply status_fail|done].
Qed.

(** ** Properties *)

(** C8: After any sequence of EnsureInitialized, EnsureAssigned and WriteStatus on any class
    hierarchy, whatever other threads write to the statuses and however often the weak
    compare-and-swap fails, the constant-time check is exact: it gives no answer precisely when the
    target is not assigned or the source has no label, and otherwise it says whether the target is
    the source or one of its superclasses. *)
Theorem SubtypeCheck_exact (h : heap) (ops : list op) :
  unlabelled h ->
  exists h', run_ops h ops = Some h' /\ forall source target,
    IsSubtypeOf h' source target =
      if negb (bool_decide (class_state h' target = kAssigned)) || bool_decide (class_state h' source = kUninitialized)
      then kUnknownSubtypeOf
      else if subclass_of source target then kSubtypeOf else kNotSubtypeOf.
Proof.
  intros Hu%unlabelled_hinv. destruct (run_ops_spec ops h Hu) as (h' & E & Hh' & _). exists h'. split; [done|].
  intros s t. by apply IsSubtypeOf_hinv.
Qed.

Lemma SubtypeCheck_exact_witness :
  let A := Subclass 1 Object in let B := Subclass 2 A in let D := Subclass 3 Object in
  let h := Heap (fun _ => 0x70000000) [Event [(A, 11)] false; Event [] true] in
  exists h', run_ops h [DoEnsureAssigned A; DoWriteStatus B 14; DoEnsureInitialized B; DoEnsureAssigned D] = Some h' /\
  forall source target,
    IsSubtypeOf h' source target =
      if negb (bool_decide (class_state h' target = kAssigned)) || bool_decide (class_state h' source = kUninitialized)
      then kUnknownSubtypeOf
      else if subclass_of source target then kSubtypeOf else kNotSubtypeOf.
Proof. intros A B D h. apply (SubtypeCheck_exact h). split; [by intros k|by intros k]. Defined.

(** C23: Asking for the label of a class ends in the assigned or the overflowed state, with every
    superclass in one of these states.  A class only becomes overflowed when it is deeper than the
    bit string has characters, below an overflowed class, or when its superclass has handed out all
    its values.  The state and the encoded path of assigned and overflowed classes never change
    again, so that the constants compiled into code stay valid, and no other class than the class
    and its superclasses is touched. *)
Theorem SubtypeCheck_assign (h0 h : heap) (ops : list op) (klass : Klass) :
  unlabelled h0 -> run_ops h0 ops = Some h ->
  exists state h', EnsureAssigned h klass = Some (state, h') /\
    state = class_state h' klass /\ (state = kAssigned \/ state = kOverflowed) /\
    (forall k, subclass_of klass k = true -> class_state h' k = kAssigned \/ class_state h' k = kOverflowed) /\
    (state = kOverflowed -> class_state h klass <> kOverflowed ->
       exists id super, klass = Subclass id super /\
         ((kCapacity <= Depth super)%nat \/ class_state h' super = kOverflowed \/
          data_ (GetNext (GetSubtypeCheckInfo h' super)) = max_char (Depth super))) /\
    (forall k, class_state h k = kAssigned \/ class_state h k = kOverflowed ->
       class_state h' k = class_state h k /\ GetEncodedPathToRootForTarget h' k = GetEncodedPathToRootForTarget h k) /\
    (forall k, subclass_of klass k = false -> get_subtype_check_info_ (words h' k) = get_subtype_check_info_ (words h k)).
Proof.
  intros Hu Hrun. destruct (run_ops_spec ops h0 (unlabelled_hinv _ Hu)) as (h1 & E1 & Hh & _). rewrite Hrun in E1. injection E1 as <-.
  destruct (InitializeOrAssign_spec h klass true Hh) as (sci & h' & E & [[Hh' HI'] Hst Hd Hfr Hne Has Hre]).
  exists (GetState sci), h'. unfold EnsureAssigned. rewrite E. cbn [mbind option_bind]. specialize (Has eq_refl).
  rewrite (GetState_described _ _ _ _ Hd). destruct Hh as [Hh HI].
  split_and!; [done|by rewrite class_state_st|exact Has| | | |exact Hfr].
  - intros k Hk. rewrite class_state_st by done. destruct (decide (k = klass)) as [->|]; [done|]. by apply (supers_ready _ _ klass).
  - intros Ho Hno. rewrite class_state_st in Hno by done. destruct (Hre Ho) as [|Hr]; [done|]. destruct klass as [|id super]; [done|].
    exists id, super. split; [done|]. rewrite class_state_st by done. exact Hr.
  - intros k. by apply stable_path.
Qed.

Lemma SubtypeCheck_assign_witness :
  let K := fix K n := match n with O => Object | S n => Subclass n (K n) end in
  let h0 := Heap (fun _ => 0) [] in
  exists h, run_ops h0 [DoEnsureAssigned (K 2%nat)] = Some h /\
  exists state h', EnsureAssigned h (K 5%nat) = Some (state, h') /\
    state = class_state h' (K 5%nat) /\ (state = kAssigned \/ state = kOverflowed) /\
    (forall k, subclass_of (K 5%nat) k = true -> class_state h' k = kAssigned \/ class_state h' k = kOverflowed) /\
    (state = kOverflowed -> class_state h (K 5%nat) <> kOverflowed ->
       exists id super, K 5%nat = Subclass id super /\
         ((kCapacity <= Depth super)%nat \/ class_state h' super = kOverflowed \/
          data_ (GetNext (GetSubtypeCheckInfo h' super)) = max_char (Depth super))) /\
    (forall k, class_state h k = kAssigned \/ class_state h k = kOverflowed ->
       class_state h' k = class_state h k /\ GetEncodedPathToRootForTarget h' k = GetEncodedPathToRootForTarget h k) /\
    (forall k, subclass_of (K 5%nat) k = false -> get_subtype_check_info_ (words h' k) = get_subtype_check_info_ (words h k)).
Proof.
  intros K h0. destruct (run_ops h0 [DoEnsureAssigned (K 2%nat)]) as [h|] eqn:E; [|vm_compute in E; discriminate].
  exists h. split; [reflexivity|]. refine (SubtypeCheck_assign h0 h [DoEnsureAssigned (K 2%nat)] (K 5%nat) _ E). split; intros k; vm_compute; intuition congruence.
Defined.

(** C29: In every interleaving of the thread that writes the label of a class with the thread that
    writes its status in the same word, neither write is lost and no other value ever appears, and
    from every configuration that can be reached both writers can finish. *)
Theorem SubtypeCheck_writers (w0 new_bits status : Z) (c : config) :
  is_u 32 w0 -> is_u SubtypeCheckBits_BitStructSizeOf new_bits -> is_u kClassStatusBitSize status ->
  rtc (step new_bits status) (Config w0 Start Start) c ->
  (get_subtype_check_info_ (word c) = get_subtype_check_info_ w0 \/ get_subtype_check_info_ (word c) = new_bits) /\
  (get_status_ (word c) = get_status_ w0 \/ get_status_ (word c) = status) /\
  (bits_writer c = Finished -> get_subtype_check_info_ (word c) = new_bits) /\
  (status_writer c = Finished -> get_status_ (word c) = status) /\
  exists w, rtc (step new_bits status) c (Config w Finished Finished) /\
    get_subtype_check_info_ w = new_bits /\ get_status_ w = status.
Proof.
  intros Hw Hb Hs Hr. destruct (reachable_writers_ok _ _ _ _ Hw Hb Hs Hr) as [H1 H2 H3 H4 H5]. split_and!; try done.
  destruct c as [w b s]. destruct (bits_writer_finishes new_bits status w b s) as [w1 R1].
  destruct (status_writer_finishes new_bits status w1 Finished s) as [w2 R2]. exists w2.
  assert (rtc (step new_bits status) (Config w b s) (Config w2 Finished Finished)) as R by (by etrans).
  destruct (reachable_writers_ok _ _ _ (Config w2 Finished Finished) Hw Hb Hs) as [_ _ _ H6 H7]; [by etrans|]. split_and!; auto.
Qed.

Lemma SubtypeCheck_writers_witness :
  let c := Config (set_status_ 0x70000000 14) (Loaded 0x70000000) Finished in
  rtc (step 0x1001 14) (Config 0x70000000 Start Start) c /\
  exists w, rtc (step 0x1001 14) c (Config w Finished Finished) /\ get_subtype_check_info_ w = 0x1001 /\ get_status_ w = 14.
Proof.
  intros c. assert (rtc (step 0x1001 14) (Config 0x70000000 Start Start) c) as R.
  { eapply rtc_l; [apply bits_read|]. eapply rtc_l; [apply status_read|]. apply rtc_once. apply (status_cas 0x1001 14 0x70000000). }
  split; [exact R|]. apply (SubtypeCheck_writers 0x70000000 0x1001 14 c); [vm_compute; intuition congruence..|exact R].
Defined.
