(* ===== verification/IndirectReferenceTable.v ===== *)
(** Tables of global and weak global JNI references: runtime/indirect_reference_table.h,
    runtime/indirect_reference_table-inl.h and runtime/indirect_reference_table.cc.

    The table is an array of entries, each a serial number and a reference that is null in a hole.
    An indirect reference packs the index of an entry, the serial number of the entry and the kind
    of the table in a word of [w] bits.  Object references are values of an arbitrary type; null is
    [None].  A failed CHECK and LOG(FATAL) give no result.  The hole counts that debug builds
    re-count are part of the model: [debug] says whether the build is a debug build, and the
    theorems hold for both. *)
From S2P Require Import Prelude BitUtils.

(** ** Indirect references *)

Inductive IndirectRefKind := kJniTransition | kLocal | kGlobal | kWeakGlobal.

#[export] Instance IndirectRefKind_dec : EqDecision IndirectRefKind.
Proof. solve_decision. Defined.

Definition kind_value (kind : IndirectRefKind) : Z :=
  match kind with kJniTransition => 0 | kLocal => 1 | kGlobal => 2 | kWeakGlobal => 3 end.
Definition kLastKind : IndirectRefKind := kWeakGlobal.

Definition kIRTSerialBits : Z := 3.
Definition kIRTMaxSerial : Z := (1 ≪ kIRTSerialBits) - 1.
Definition kShiftedSerialMask : Z := (1 ≪ kIRTSerialBits) - 1.
Definition kKindBits : Z := MinimumBitsToStore 32 (kind_value kLastKind).
Definition kKindMask : Z := (1 ≪ kKindBits) - 1.

Definition EncodeIndex (w table_index : Z) : Z := uN w (uN w (table_index ≪ kKindBits) ≪ kIRTSerialBits).
Definition DecodeIndex (uref : Z) : Z := u32 ((uref ≫ kKindBits) ≫ kIRTSerialBits).
Definition EncodeIndirectRefKind (kind : IndirectRefKind) : Z := kind_value kind.
Definition DecodeIndirectRefKind (uref : Z) : Z := uref .& kKindMask.
Definition EncodeSerial (serial : Z) : Z := u32 (serial ≪ kKindBits).
Definition DecodeSerial (uref : Z) : Z := u32 (uref ≫ kKindBits) .& kShiftedSerialMask.
Definition EncodeIndirectRef (w : Z) (kind : IndirectRefKind) (table_index serial : Z) : Z :=
  EncodeIndex w table_index .| EncodeSerial serial .| EncodeIndirectRefKind kind.

Definition GetIndirectRefKind (iref : Z) : Z := DecodeIndirectRefKind iref.
Definition GetGlobalOrWeakGlobalMask : Z := kind_value kGlobal.
Definition IsGlobalOrWeakGlobalReference (iref : Z) : bool := negb (iref .& GetGlobalOrWeakGlobalMask =? 0).
Definition IsJniTransitionOrLocalReference (iref : Z) : bool := negb (IsGlobalOrWeakGlobalReference iref).
Definition ClearIndirectRefKind (w iref : Z) : Z := iref .& uN w (.~ kKindMask).
Definition ExtractIndex (iref : Z) : nat := Z.to_nat (DecodeIndex iref).

(** ** The table *)

Section table.
Context {A : Type} (w : Z) (check_jni debug : bool).

Record IrtEntry := Entry { serial_ : Z; reference_ : option A }.

Definition IsNull (e : IrtEntry) : bool := bool_decide (reference_ e = None).

Definition entry_Add (e : IrtEntry) (obj : A) : IrtEntry :=
  let serial := u32 (serial_ e + 1) in
  let serial := if serial =? kIRTMaxSerial then 0 else serial in
  Entry serial (Some obj).
Definition SetReference (e : IrtEntry) (obj : option A) : IrtEntry := Entry (serial_ e) obj.

Record IndirectReferenceTable := Irt {
  table_ : list IrtEntry;
  kind_ : IndirectRefKind;
  top_index_ : nat;
  max_entries_ : nat;
  current_num_holes_ : nat }.

(** An entry of freshly mapped memory is all zero. *)
Definition zero_entry : IrtEntry := Entry 0 None.

Definition kPageSize : Z := 4096.
Definition sizeof_IrtEntry : Z := 8.
Definition kMaxTableSizeInBytes : Z := 128 * 1024 * 1024.

(** The constructor and Initialize; [mapped] says whether the memory could be mapped. *)
Definition Construct (kind : IndirectRefKind) : option IndirectReferenceTable :=
  if bool_decide (kind = kJniTransition) || bool_decide (kind = kLocal) then None
  else Some (Irt [] kind 0 0 0).
Definition Initialize (t : IndirectReferenceTable) (max_count : Z) (mapped : bool) : option (bool * IndirectReferenceTable) :=
  if max_count <=? kMaxTableSizeInBytes / sizeof_IrtEntry then
    let table_bytes := RoundUp 64 (max_count * sizeof_IrtEntry) kPageSize in
    if mapped then
      let max_entries := Z.to_nat (table_bytes / sizeof_IrtEntry) in
      Some (true, Irt (replicate max_entries zero_entry) (kind_ t) (top_index_ t) max_entries (current_num_holes_ t))
    else Some (false, t)
  else None.

Definition entry (t : IndirectReferenceTable) (index : nat) : IrtEntry := default zero_entry (table_ t !! index).
Definition set_entry (t : IndirectReferenceTable) (index : nat) (e : IrtEntry) : IndirectReferenceTable :=
  Irt (<[index := e]> (table_ t)) (kind_ t) (top_index_ t) (max_entries_ t) (current_num_holes_ t).
Definition set_counts (t : IndirectReferenceTable) (top holes : nat) : IndirectReferenceTable :=
  Irt (table_ t) (kind_ t) top (max_entries_ t) holes.

Definition Capacity (t : IndirectReferenceTable) : nat := top_index_ t.
Definition NEntriesForGlobal (t : IndirectReferenceTable) : Z := s32 (Z.of_nat (top_index_ t) - Z.of_nat (current_num_holes_ t)).
Definition FreeCapacity (t : IndirectReferenceTable) : nat := (max_entries_ t - top_index_ t)%nat.

Definition ToIndirectRef (t : IndirectReferenceTable) (table_index : nat) : Z :=
  EncodeIndirectRef w (kind_ t) (Z.of_nat table_index) (serial_ (entry t table_index)).

Definition CountNullEntries (table : list IrtEntry) (to_ : nat) : nat := length (filter (fun e => IsNull e = true) (take to_ table)).

(** A debug build aborts when the number of holes is not as expected. *)
Definition CheckHoleCount (t : IndirectReferenceTable) : option unit :=
  if debug && negb (current_num_holes_ t =? CountNullEntries (table_ t) (top_index_ t))%nat then None else Some tt.

(** The scan for a hole below the top entry; leaving the table gives no result. *)
Fixpoint scan_hole (t : IndirectReferenceTable) (p_scan : nat) : option nat :=
  if IsNull (entry t p_scan) then Some p_scan
  else match p_scan with
       | O => None
       | S p_scan => scan_hole t p_scan
       end.

(** The new indirect reference, null when the table is full. *)
Definition Add (t : IndirectReferenceTable) (obj : option A) : option (option Z * IndirectReferenceTable) :=
  obj ← obj;
  if (top_index_ t =? max_entries_ t)%nat then Some (None, t)
  else
    _ ← CheckHoleCount t;
    '(index, t) ←
      (if (0 <? current_num_holes_ t)%nat then
         index ← scan_hole t (top_index_ t - 2);
         Some (index, set_counts t (top_index_ t) (current_num_holes_ t - 1))
       else Some (top_index_ t, set_counts t (S (top_index_ t)) (current_num_holes_ t)));
    let t := set_entry t index (entry_Add (entry t index) obj) in
    Some (Some (ToIndirectRef t index), t).

(** LOG(FATAL) when CheckJNI is off. *)
Definition AbortIfNoCheckJNI : option unit := if check_jni then Some tt else None.

Definition CheckEntry (t : IndirectReferenceTable) (iref : Z) (idx : nat) : option bool :=
  let checkRef := ToIndirectRef t idx in
  if negb (checkRef =? iref) then _ ← AbortIfNoCheckJNI; Some false else Some true.

(** The loop that consumes the holes below the removed top entry. *)
Fixpoint collapse (t : IndirectReferenceTable) (collapse_top_index holes : nat) : nat * nat :=
  match collapse_top_index with
  | O => (O, holes)
  | S below =>
      if (below =? 0)%nat || (holes =? 0)%nat then (below, holes)
      else if negb (IsNull (entry t (below - 1))) then (below, holes)
      else collapse t below (holes - 1)
  end.

Definition Remove (t : IndirectReferenceTable) (iref : Z) : option (bool * IndirectReferenceTable) :=
  let top_index := top_index_ t in
  let idx := ExtractIndex iref in
  if (top_index <=? idx)%nat then Some (false, t)
  else
    _ ← CheckHoleCount t;
    if (idx =? top_index - 1)%nat then
      ok ← CheckEntry t iref idx;
      if negb ok then Some (false, t)
      else
        let t := set_entry t idx (SetReference (entry t idx) None) in
        if negb (current_num_holes_ t =? 0)%nat then
          let '(collapse_top_index, holes) := collapse t top_index (current_num_holes_ t) in
          let t := set_counts t collapse_top_index holes in
          _ ← CheckHoleCount t;
          Some (true, t)
        else Some (true, set_counts t (top_index - 1) (current_num_holes_ t))
    else if IsNull (entry t idx) then Some (false, t)
    else
      ok ← CheckEntry t iref idx;
      if negb ok then Some (false, t)
      else
        let t := set_entry t idx (SetReference (entry t idx) None) in
        let t := set_counts t (top_index_ t) (S (current_num_holes_ t)) in
        _ ← CheckHoleCount t;
        Some (true, t).

Definition Get (t : IndirectReferenceTable) (iref : Z) : option A := reference_ (entry t (ExtractIndex iref)).
Definition Update (t : IndirectReferenceTable) (iref : Z) (obj : A) : IndirectReferenceTable :=
  let idx := ExtractIndex iref in set_entry t idx (SetReference (entry t idx) (Some obj)).

Inductive validity := Valid | DeletedBeyond | Deleted | Stale (iref_serial entry_serial : Z).

Definition IsValidReference (t : IndirectReferenceTable) (iref : Z) : validity :=
  let idx := ExtractIndex iref in
  if (top_index_ t <=? idx)%nat then DeletedBeyond
  else if IsNull (entry t idx) then Deleted
  else
    let iref_serial := DecodeSerial iref in
    let entry_serial := serial_ (entry t idx) in
    if negb (iref_serial =? entry_serial) then Stale iref_serial entry_serial else Valid.

(** madvise(MADV_DONTNEED) gives back the whole pages above the top index: they read as zero. *)
Definition Trim (t : IndirectReferenceTable) : IndirectReferenceTable :=
  let release_start := RoundUp 64 (Z.of_nat (Capacity t) * sizeof_IrtEntry) kPageSize in
  let first := Z.to_nat (release_start / sizeof_IrtEntry) in
  Irt (take first (table_ t) ++ replicate (length (table_ t) - first) zero_entry) (kind_ t) (top_index_ t) (max_entries_ t)
    (current_num_holes_ t).

(** Apply [f] to the references below the top index that are not null. *)
Definition update_roots (f : A -> A) (t : IndirectReferenceTable) : IndirectReferenceTable :=
  Irt (imap (fun i e => if (i <? Capacity t)%nat then SetReference e (f <$> reference_ e) else e) (table_ t))
    (kind_ t) (top_index_ t) (max_entries_ t) (current_num_holes_ t).

(** The visitor may move the objects it visits. *)
Definition VisitRoots (t : IndirectReferenceTable) (visitor : A -> A) : list A * IndirectReferenceTable :=
  (omap reference_ (take (Capacity t) (table_ t)), update_roots visitor t).

Definition SweepJniWeakGlobals (t : IndirectReferenceTable) (IsMarked : A -> option A) (cleared : A) : option IndirectReferenceTable :=
  if bool_decide (kind_ t = kWeakGlobal) then Some (update_roots (fun obj => default cleared (IsMarked obj)) t) else None.

Definition Dump (t : IndirectReferenceTable) : list A := omap reference_ (take (Capacity t) (table_ t)).

(** ** Specification *)

(** The object an indirect reference stands for: the abstract contents of the table. *)
Definition lookup_ref (t : IndirectReferenceTable) (iref : Z) : option A :=
  let idx := ExtractIndex iref in
  if (idx <? top_index_ t)%nat && (ToIndirectRef t idx =? iref) then reference_ (entry t idx) else None.

Inductive op :=
  | DoAdd (obj : A)
  | DoRemove (iref : Z)
  | DoUpdate (iref : Z) (obj : A)
  | DoVisitRoots (visitor : A -> A)
  | DoTrim.

(** An update of a reference that is not in the table is a programming error (DCHECK). *)
Definition run_op (t : IndirectReferenceTable) (o : op) : option IndirectReferenceTable :=
  match o with
  | DoAdd obj => '(_, t) ← Add t (Some obj); Some t
  | DoRemove iref => '(_, t) ← Remove t iref; Some t
  | DoUpdate iref obj => if bool_decide (lookup_ref t iref = None) then None else Some (Update t iref obj)
  | DoVisitRoots visitor => Some (VisitRoots t visitor).2
  | DoTrim => Some (Trim t)
  end.

Fixpoint run_ops (t : IndirectReferenceTable) (ops : list op) : option IndirectReferenceTable :=
  match ops with
  | [] => Some t
  | o :: ops => t ← run_op t o; run_ops t ops
  end.

(** How often an operation, and a sequence of operations, fills the entry [idx]. *)
Definition fills_op (idx : nat) (t : IndirectReferenceTable) (o : op) : nat :=
  match o with
  | DoAdd obj =>
      match Add t (Some obj) with
      | Some (Some iref, _) => if (ExtractIndex iref =? idx)%nat then 1 else 0
      | _ => 0
      end
  | _ => 0
  end.

Fixpoint fills (idx : nat) (t : IndirectReferenceTable) (ops : list op) : nat :=
  match ops with
  | [] => O
  | o :: ops => match run_op t o with
                | Some t' => (fills_op idx t o + fills idx t' ops)%nat
                | None => O
                end
  end.

Definition is_trim (o : op) : bool := match o with DoTrim => true | _ => false end.
End table.

Arguments IrtEntry : clear implicits.
Arguments IndirectReferenceTable : clear implicits.
Arguments op : clear implicits.

(** ** The encoding of indirect references *)

Definition pointer_width (w : Z) : Prop := w = 32 \/ w = 64.

Lemma kind_range kind : 0 <= kind_value kind < 4.
Proof. by destruct kind. Qed.

Lemma lor_disjoint a b n : 0 <= n -> 0 <= b < 2 ^ n -> (a * 2 ^ n) .| b = a * 2 ^ n + b.
Proof.
  intros Hn Hb. rewrite <- Z.lxor_lor, <- Z.add_nocarry_lxor; [done| |].
  all: apply Z.bits_inj'; intros i Hi; rewrite Z.land_spec, Z.testbit_0_l; rewrite Z.mul_pow2_bits by lia.
  all: destruct (Z.ltb_spec i n); [rewrite (Z.testbit_neg_r a) by lia; done|]; by rewrite (testbit_high n b), andb_false_r.
Qed.

Lemma EncodeIndirectRef_val w kind i s :
  pointer_width w -> 0 <= i < 2 ^ 24 -> 0 <= s < 8 -> EncodeIndirectRef w kind i s = i * 32 + s * 4 + kind_value kind.
Proof.
  intros Hw Hi Hs. pose proof (kind_range kind). pose proof (pow2_le 32 w ltac:(unfold pointer_width in Hw; lia)).
  change (2 ^ 24) with 16777216 in *. change (2 ^ 32) with 4294967296 in *.
  unfold EncodeIndirectRef, EncodeIndex, EncodeSerial, EncodeIndirectRefKind. change kKindBits with 2. change kIRTSerialBits with 3.
  rewrite !Z.shiftl_mul_pow2 by lia. change (2 ^ 2) with 4. change (2 ^ 3) with 8.
  rewrite !(uN_small w), uN_small by (unfold is_u; rewrite ?uN_small by (unfold is_u; lia); change (2 ^ 32) with 4294967296; lia).
  replace (i * 4 * 8) with (i * 2 ^ 5) by (change (2 ^ 5) with 32; lia). rewrite (lor_disjoint i (s * 4) 5) by (change (2 ^ 5) with 32; lia).
  replace (i * 2 ^ 5 + s * 4) with ((i * 8 + s) * 2 ^ 2) by (change (2 ^ 5) with 32; change (2 ^ 2) with 4; lia).
  rewrite lor_disjoint by (change (2 ^ 2) with 4; lia). change (2 ^ 2) with 4. lia.
Qed.

Lemma decode_fields i s k : 0 <= i < 2 ^ 24 -> 0 <= s < 8 -> 0 <= k < 4 ->
  let r := i * 32 + s * 4 + k in DecodeIndex r = i /\ DecodeSerial r = s /\ DecodeIndirectRefKind r = k.
Proof.
  intros Hi Hs Hk r. change (2 ^ 24) with 16777216 in *. unfold DecodeIndex, DecodeSerial, DecodeIndirectRefKind.
  change kKindBits with 2. change kIRTSerialBits with 3. change kShiftedSerialMask with (Z.ones 3). change kKindMask with (Z.ones 2).
  rewrite !Z.land_ones, !Z.shiftr_div_pow2 by lia. change (2 ^ 2) with 4. change (2 ^ 3) with 8.
  assert (r / 4 = i * 8 + s) as -> by (unfold r; symmetry; apply (Z.div_unique _ 4 _ k); lia).
  assert ((i * 8 + s) / 8 = i) as -> by (symmetry; apply (Z.div_unique _ 8 _ s); lia).
  assert (is_u 32 i /\ is_u 32 (i * 8 + s)) as [H1 H2] by (unfold is_u; change (2 ^ 32) with 4294967296; lia).
  rewrite !uN_small by done. split_and!; [done| |].
  - rewrite Z.add_comm, Z.mod_add, Z.mod_small by lia. done.
  - unfold r. replace (i * 32 + s * 4 + k) with (k + (i * 8 + s) * 4) by lia. rewrite Z.mod_add, Z.mod_small by lia. done.
Qed.

Lemma ExtractIndex_Encode w kind i s :
  pointer_width w -> Z.of_nat i < 2 ^ 24 -> 0 <= s < 8 -> ExtractIndex (EncodeIndirectRef w kind (Z.of_nat i) s) = i.
Proof.
  intros Hw Hi Hs. unfold ExtractIndex. rewrite EncodeIndirectRef_val by (done || lia).
  destruct (decode_fields (Z.of_nat i) s (kind_value kind)) as [-> _]; [lia|lia|apply kind_range|lia].
Qed.

(** ** Counting holes *)
Section counting.
Context {A : Type}.
Implicit Types (e : IrtEntry A) (l : list (IrtEntry A)).

Definition null_bit e : nat := if IsNull e then 1%nat else 0%nat.

Lemma count_S l n e : l !! n = Some e -> CountNullEntries l (S n) = (CountNullEntries l n + null_bit e)%nat.
Proof.
  intros He. unfold CountNullEntries. rewrite (take_S_r _ _ e He), filter_app, length_app. f_equal.
  unfold null_bit. rewrite filter_cons, filter_nil. destruct (IsNull e); [by rewrite decide_True|by rewrite decide_False].
Qed.

Lemma count_insert l n i e e' : (i < n)%nat -> l !! i = Some e' ->
  (CountNullEntries (<[i := e]> l) n + null_bit e' = CountNullEntries l n + null_bit e)%nat.
Proof.
  intros Hi He. induction n as [|n IH]; [lia|]. destruct (l !! n) as [x|] eqn:En.
  - rewrite (count_S l n x En). destruct (decide (i = n)) as [->|Hne].
    + rewrite (count_S _ n e) by (apply list_lookup_insert_eq; by eapply lookup_lt_Some). rewrite He in En. injection En as <-.
      assert (CountNullEntries (<[n:=e]> l) n = CountNullEntries l n) as ->; [|lia]. unfold CountNullEntries. by rewrite take_insert_ge.
    + rewrite (count_S _ n x) by (by rewrite list_lookup_insert_ne). specialize (IH ltac:(lia)). lia.
  - apply lookup_ge_None in En. pose proof (lookup_lt_Some _ _ _ He).
    assert (forall l', length l' = length l -> CountNullEntries l' (S n) = CountNullEntries l' n) as Hs.
    { intros l' Hl. unfold CountNullEntries. rewrite !take_ge by lia. done. }
    rewrite !Hs by (rewrite ?length_insert; done). apply IH. lia.
Qed.

Lemma count_insert_ge l n i e : (n <= i)%nat -> CountNullEntries (<[i := e]> l) n = CountNullEntries l n.
Proof. intros Hi. unfold CountNullEntries. by rewrite take_insert_ge. Qed.

Lemma count_positive l n : (0 < CountNullEntries l n)%nat -> exists i e, (i < n)%nat /\ l !! i = Some e /\ IsNull e = true.
Proof.
  unfold CountNullEntries. intros Hc. destruct (filter _ (take n l)) as [|e f] eqn:E; [simpl in Hc; lia|].
  assert (e ∈ filter (fun e => IsNull e = true) (take n l)) as He by (rewrite E; left).
  apply list_elem_of_filter in He as [Hn He]. apply list_elem_of_lookup_1 in He as [i Hi]. apply lookup_take_Some in Hi as [Hi Hlt].
  by exists i, e.
Qed.

Lemma count_zero l n i e : CountNullEntries l n = 0%nat -> (i < n)%nat -> l !! i = Some e -> IsNull e = false.
Proof.
  intros Hc Hi He. destruct (IsNull e) eqn:En; [|done]. exfalso. unfold CountNullEntries in Hc.
  apply nil_length_inv in Hc. assert (e ∈ filter (fun e => IsNull e = true) (take n l)) as Hin.
  { apply list_elem_of_filter. split; [done|]. apply (list_elem_of_lookup_2 _ i). by apply lookup_take_Some. }
  rewrite Hc in Hin. by apply not_elem_of_nil in Hin.
Qed.
End counting.

(** ** The invariant *)
Section invariant.
Context {A : Type} (w : Z) (check_jni debug : bool).
Context (Hw : pointer_width w).
Implicit Types (e : IrtEntry A) (l : list (IrtEntry A)) (t : IndirectReferenceTable A).

#[local] Set Default Proof Using "Hw".

(** The hole count is exact and the entry below the top index is not a hole. *)
Record irt_ok t : Prop := {
  irt_length : length (table_ t) = max_entries_ t;
  irt_max : Z.of_nat (max_entries_ t) <= 2 ^ 24;
  irt_top : (top_index_ t <= max_entries_ t)%nat;
  irt_holes : current_num_holes_ t = CountNullEntries (table_ t) (top_index_ t);
  irt_last : (0 < top_index_ t)%nat -> IsNull (entry t (top_index_ t - 1)) = false;
  irt_serial : forall i, 0 <= serial_ (entry t i) < kIRTMaxSerial;
  irt_kind : kind_ t = kGlobal \/ kind_ t = kWeakGlobal }.

Lemma entry_lookup t i : (i < length (table_ t))%nat -> table_ t !! i = Some (entry t i).
Proof using Type. intros Hi. unfold entry. destruct (lookup_lt_is_Some_2 _ _ Hi) as [e ->]. done. Qed.

Lemma entry_set t i e j : (i < length (table_ t))%nat -> entry (set_entry t i e) j = if decide (i = j) then e else entry t j.
Proof using Type.
  intros Hi. unfold entry. cbn [set_entry table_]. case_decide as Hij; [subst j; by rewrite list_lookup_insert_eq|by rewrite list_lookup_insert_ne].
Qed.

Lemma IsNull_None e : IsNull e = true <-> reference_ e = None.
Proof using Type. unfold IsNull. apply bool_decide_eq_true. Qed.

Lemma CheckHoleCount_ok t : current_num_holes_ t = CountNullEntries (table_ t) (top_index_ t) -> CheckHoleCount debug t = Some tt.
Proof using Type. intros E. unfold CheckHoleCount. rewrite E, Nat.eqb_refl. by destruct debug. Qed.

Lemma ExtractIndex_ToIndirectRef t i : irt_ok t -> (i < max_entries_ t)%nat -> ExtractIndex (ToIndirectRef w t i) = i.
Proof.
  intros Ht Hi. apply ExtractIndex_Encode; [done|pose proof (irt_max t Ht); lia|].
  pose proof (irt_serial t Ht i). change kIRTMaxSerial with 7 in *. lia.
Qed.

Lemma scan_hole_spec t p i : (i <= p)%nat -> IsNull (entry t i) = true ->
  exists j, scan_hole t p = Some j /\ (j <= p)%nat /\ IsNull (entry t j) = true.
Proof using Type.
  induction p as [|p IH]; intros Hi Hn; cbn [scan_hole].
  - assert (i = 0%nat) as -> by lia. rewrite Hn. by exists 0%nat.
  - destruct (IsNull (entry t (S p))) eqn:E; [by exists (S p)|]. destruct (decide (i = S p)) as [->|]; [congruence|].
    destruct IH as (j & Hj & Hle & Hnj); [lia|done|]. exists j. split_and!; [done|lia|done].
Qed.

Lemma lookup_same t t' r :
  let j := ExtractIndex r in
  kind_ t' = kind_ t -> entry t' j = entry t j ->
  ((j < top_index_ t')%nat <-> (j < top_index_ t)%nat) \/ reference_ (entry t j) = None -> lookup_ref w t' r = lookup_ref w t r.
Proof using Type.
  intros j Hk He Ht. unfold lookup_ref. fold j. unfold ToIndirectRef. rewrite Hk, He.
  destruct Ht as [Ht|Hn]; [|rewrite Hn; by destruct (_ && _), (_ && _)].
  assert ((j <? top_index_ t')%nat = (j <? top_index_ t)%nat) as ->; [|done]. apply eq_true_iff_eq. by rewrite !Nat.ltb_lt.
Qed.

Lemma lookup_Some t r o : irt_ok t -> lookup_ref w t r = Some o <->
  exists i, (i < top_index_ t)%nat /\ r = ToIndirectRef w t i /\ reference_ (entry t i) = Some o.
Proof.
  intros Ht. unfold lookup_ref. split.
  - destruct (Nat.ltb_spec (ExtractIndex r) (top_index_ t)); [|done]. destruct (Z.eqb_spec (ToIndirectRef w t (ExtractIndex r)) r); [|done].
    intros Ho. by exists (ExtractIndex r).
  - intros (i & Hi & -> & Ho). pose proof (irt_top t Ht). rewrite ExtractIndex_ToIndirectRef by (done || lia).
    rewrite (proj2 (Nat.ltb_lt _ _) Hi), Z.eqb_refl. done.
Qed.

(** One entry has been filled. *)
Record filled t t' (idx : nat) (obj : A) : Prop := {
  filled_ok : irt_ok t';
  filled_kind : kind_ t' = kind_ t;
  filled_free : (top_index_ t <= idx)%nat \/ reference_ (entry t idx) = None;
  filled_top : (idx < top_index_ t')%nat;
  filled_entry : entry t' idx = entry_Add (entry t idx) obj;
  filled_others : forall j, j <> idx -> entry t' j = entry t j /\ ((j < top_index_ t')%nat <-> (j < top_index_ t)%nat) }.

Lemma entry_Add_serial e obj : 0 <= serial_ e < kIRTMaxSerial ->
  0 <= serial_ (entry_Add e obj) < kIRTMaxSerial /\ serial_ (entry_Add e obj) = (serial_ e + 1) mod kIRTMaxSerial.
Proof using Type.
  intros Hs. unfold entry_Add. cbn [serial_]. change kIRTMaxSerial with 7 in *. rewrite uN_small by (unfold is_u; change (2 ^ 32) with 4294967296; lia).
  destruct (Z.eqb_spec (serial_ e + 1) 7) as [H7|H7]; split; try lia; [replace (serial_ e + 1) with 7 by lia; done|by rewrite Z.mod_small by lia].
Qed.

Lemma entry_Add_null e obj : IsNull (entry_Add e obj) = false.
Proof using Type. done. Qed.

Lemma fill_entry t top holes j obj :
  irt_ok t -> (top_index_ t <= j)%nat \/ reference_ (entry t j) = None -> (j < top <= max_entries_ t)%nat ->
  (forall k, k <> j -> (k < top)%nat <-> (k < top_index_ t)%nat) ->
  holes = CountNullEntries (<[j := entry_Add (entry t j) obj]> (table_ t)) top ->
  filled t (set_entry (set_counts t top holes) j (entry_Add (entry t j) obj)) j obj.
Proof using Type.
  intros Ht Hf Hj Hk Hh. set (e' := entry_Add (entry t j) obj) in *. set (t' := set_entry _ j e').
  assert (forall k, entry t' k = if decide (j = k) then e' else entry t k) as Hent
    by (intros k; unfold t'; rewrite entry_set by (cbn [set_counts table_]; rewrite (irt_length t Ht); lia); done).
  constructor; [|done|done|cbn [t' set_entry set_counts top_index_]; lia|by rewrite Hent, decide_True|].
  - constructor; cbn [t' set_entry set_counts top_index_ kind_ table_ max_entries_ current_num_holes_]; try apply Ht; [|lia|done| |].
    + rewrite length_insert. apply Ht.
    + intros Ht0. rewrite Hent. case_decide as Hjk; [done|]. pose proof (Hk (top - 1)%nat ltac:(lia)). pose proof (Hk top ltac:(lia)).
      replace top with (top_index_ t) by lia. apply Ht. lia.
    + intros k. rewrite Hent. case_decide; [|apply Ht]. apply entry_Add_serial, Ht.
  - intros k Hkj. rewrite Hent, decide_False by done. split; [done|]. by apply Hk.
Qed.

Lemma Add_spec t obj : irt_ok t -> (top_index_ t < max_entries_ t)%nat ->
  exists idx t', Add w debug t (Some obj) = Some (Some (ToIndirectRef w t' idx), t') /\ filled t t' idx obj.
Proof using Type.
  intros Ht Hm. pose proof (irt_length t Ht) as HL. pose proof (irt_holes t Ht) as HH. unfold Add. cbn [mbind option_bind].
  rewrite (proj2 (Nat.eqb_neq _ _)) by lia. rewrite CheckHoleCount_ok by done. cbn [mbind option_bind].
  destruct (Nat.ltb_spec 0 (current_num_holes_ t)) as [Hh|Hh].
  - rewrite HH in Hh. destruct (count_positive _ _ Hh) as (i & e & Hi & He & Hn).
    assert (entry t i = e) as Ei by (unfold entry; by rewrite He). pose proof (irt_last t Ht ltac:(lia)) as Hlast.
    assert (i <> top_index_ t - 1)%nat as Hne by (intros ->; congruence).
    destruct (scan_hole_spec t (top_index_ t - 2) i) as (j & -> & Hj & Hnj); [lia|congruence|]. cbn [mbind option_bind].
    eexists j, _. split; [done|]. pose proof (irt_top t Ht). apply (fill_entry t _ _ j obj); [done|right; by apply IsNull_None|lia|done|].
    pose proof (count_insert (table_ t) (top_index_ t) j (entry_Add (entry t j) obj) (entry t j) ltac:(lia) (entry_lookup t j ltac:(lia))) as Hc.
    unfold null_bit in Hc. rewrite Hnj, entry_Add_null in Hc. lia.
  - eexists (top_index_ t), _. split; [done|]. apply (fill_entry t _ _ _ obj); [done|by left|lia|lia|].
    rewrite (count_S _ _ (entry_Add (entry t (top_index_ t)) obj)) by (apply list_lookup_insert_eq; lia).
    rewrite count_insert_ge by done. unfold null_bit. rewrite entry_Add_null. lia.
Qed.

Lemma filled_lookup t t' idx obj r : irt_ok t -> filled t t' idx obj ->
  lookup_ref w t (ToIndirectRef w t' idx) = None /\
  lookup_ref w t' r = if decide (r = ToIndirectRef w t' idx) then Some obj else lookup_ref w t r.
Proof.
  intros Ht [Ht' Hk Hfree Htop He Ho]. pose proof (irt_top t' Ht') as Hm.
  assert (forall r, ExtractIndex r = idx -> lookup_ref w t r = None) as Hnone.
  { intros r' Hr. unfold lookup_ref. rewrite Hr. destruct Hfree as [Hf|Hf]; [by rewrite (proj2 (Nat.ltb_ge _ _) Hf)|].
    rewrite Hf. by destruct (_ && _). }
  split; [apply Hnone, ExtractIndex_ToIndirectRef; [done|lia]|]. case_decide as Hr.
  - subst r. apply lookup_Some; [done|]. exists idx. by rewrite He.
  - destruct (decide (ExtractIndex r = idx)) as [Hi|Hi].
    + rewrite (Hnone r Hi). unfold lookup_ref. rewrite Hi. destruct (Z.eqb_spec (ToIndirectRef w t' idx) r); [congruence|]. by rewrite andb_false_r.
    + destruct (Ho _ Hi) as [E1 E2]. apply lookup_same; [done..|]. by left.
Qed.

Lemma collapse_spec t n holes :
  (0 < n <= length (table_ t))%nat -> holes = CountNullEntries (table_ t) (n - 1) ->
  let '(n', holes') := collapse t n holes in
  (n' < n)%nat /\ holes' = CountNullEntries (table_ t) n' /\ ((0 < n')%nat -> IsNull (entry t (n' - 1)) = false) /\
  forall j, (n' <= j < n - 1)%nat -> reference_ (entry t j) = None.
Proof using Type.
  revert holes. induction n as [|below IH]; intros holes Hn Hh; [lia|]. cbn [collapse]. rewrite Nat.sub_succ, Nat.sub_0_r in Hh.
  destruct (Nat.eqb_spec below 0) as [->|Hb]; cbn [orb]; [split_and!; [lia|done|lia|lia]|].
  destruct (Nat.eqb_spec holes 0) as [Hz|Hz]; cbn [orb].
  { split_and!; [lia|done| |lia]. intros _. apply (count_zero (table_ t) below (below - 1)); [congruence|lia|]. apply entry_lookup. lia. }
  destruct (IsNull (entry t (below - 1))) eqn:E; cbn [negb]; [|split_and!; [lia|done|done|lia]].
  destruct below as [|b]; [done|]. rewrite Nat.sub_succ, Nat.sub_0_r in E.
  rewrite (count_S _ _ _ (entry_lookup t b ltac:(lia))) in Hh. unfold null_bit in Hh. rewrite E in Hh.
  specialize (IH (holes - 1)%nat ltac:(lia) ltac:(rewrite Nat.sub_succ, Nat.sub_0_r; lia)).
  destruct (collapse t (S b) (holes - 1)) as [n' holes']. destruct IH as (H1 & H2 & H3 & H4). split_and!; [lia|done|done|].
  intros j Hj. destruct (decide (j = b)) as [->|]; [by apply IsNull_None|apply H4; lia].
Qed.

(** One entry has been cleared; holes at the top may be gone. *)
Record cleared t t' (idx : nat) : Prop := {
  cleared_ok : irt_ok t';
  cleared_kind : kind_ t' = kind_ t;
  cleared_max : max_entries_ t' = max_entries_ t;
  cleared_entry : entry t' idx = SetReference (entry t idx) None;
  cleared_top : (top_index_ t' <= top_index_ t)%nat;
  cleared_others : forall j, j <> idx -> entry t' j = entry t j /\
    (((j < top_index_ t')%nat <-> (j < top_index_ t)%nat) \/ reference_ (entry t j) = None) }.

Lemma clear_entry t idx top holes :
  irt_ok t -> (idx < top_index_ t)%nat -> (top <= top_index_ t)%nat ->
  let t' := set_counts (set_entry t idx (SetReference (entry t idx) None)) top holes in
  holes = CountNullEntries (table_ t') top -> ((0 < top)%nat -> IsNull (entry t' (top - 1)) = false) ->
  (forall j, j <> idx -> (top <= j < top_index_ t)%nat -> reference_ (entry t j) = None) ->
  cleared t t' idx.
Proof using Type.
  intros Ht Hi Htop t' Hh Hl Hj. pose proof (irt_length t Ht) as HL. pose proof (irt_top t Ht) as HT.
  assert (forall k, entry t' k = if decide (idx = k) then SetReference (entry t idx) None else entry t k) as Hent.
  { intros k. change (entry t' k) with (entry (set_entry t idx (SetReference (entry t idx) None)) k). apply entry_set. lia. }
  constructor; [|done|done|by rewrite Hent, decide_True|done|].
  - constructor; cbn [t' set_counts set_entry table_ max_entries_ top_index_ current_num_holes_ kind_]; try apply Ht; [|lia|done|done|].
    + by rewrite length_insert.
    + intros k. rewrite Hent. case_decide; [|apply Ht]. apply (irt_serial t Ht idx).
  - intros j Hne. rewrite Hent, decide_False by done. split; [done|]. cbn [t' set_counts top_index_].
    destruct (decide (j < top_index_ t)%nat); [|left; lia]. destruct (decide (j < top)%nat); [left; lia|]. right. apply Hj; [done|lia].
Qed.

Lemma cleared_lookup t t' idx r : irt_ok t -> cleared t t' idx -> (idx < top_index_ t)%nat ->
  lookup_ref w t' r = if decide (r = ToIndirectRef w t idx) then None else lookup_ref w t r.
Proof.
  intros Ht [Ht' Hk _ He Htop Ho] Hi. pose proof (irt_top t Ht). destruct (decide (ExtractIndex r = idx)) as [Hr|Hr].
  - assert (lookup_ref w t' r = None) as ->.
    { unfold lookup_ref. rewrite Hr, He. by destruct (_ && _). }
    case_decide; [done|]. unfold lookup_ref. rewrite Hr. destruct (Z.eqb_spec (ToIndirectRef w t idx) r); [congruence|]. by rewrite andb_false_r.
  - rewrite decide_False. { destruct (Ho _ Hr). by apply lookup_same. }
    intros ->. apply Hr. apply ExtractIndex_ToIndirectRef; [done|lia].
Qed.

Lemma CheckEntry_spec t r i : CheckEntry w check_jni t r i =
  if ToIndirectRef w t i =? r then Some true else if check_jni then Some false else None.
Proof using Type. unfold CheckEntry, AbortIfNoCheckJNI. destruct (_ =? _); [done|]. by destruct check_jni. Qed.

(** What Remove does with a reference that is not in the table. *)
Definition rejected t : option (bool * IndirectReferenceTable A) -> Prop := fun res =>
  res = Some (false, t) \/ (check_jni = false /\ res = None).

Lemma Remove_absent t r : irt_ok t -> lookup_ref w t r = None -> rejected t (Remove w check_jni debug t r).
Proof using Type.
  intros Ht Hn. unfold Remove. destruct (Nat.leb_spec (top_index_ t) (ExtractIndex r)) as [|Hi]; [by left|].
  rewrite (CheckHoleCount_ok t) by apply Ht. cbn [mbind option_bind]. unfold lookup_ref in Hn. rewrite (proj2 (Nat.ltb_lt _ _) Hi) in Hn. cbn [andb] in Hn.
  rewrite CheckEntry_spec. destruct (Nat.eqb_spec (ExtractIndex r) (top_index_ t - 1)) as [E|E].
  - destruct (Z.eqb_spec (ToIndirectRef w t (ExtractIndex r)) r); [|unfold rejected; destruct check_jni; [by left|by right]].
    exfalso. pose proof (irt_last t Ht ltac:(lia)) as Hl. rewrite <- E in Hl. apply IsNull_None in Hn. congruence.
  - destruct (IsNull (entry t (ExtractIndex r))) eqn:En; [by left|].
    destruct (Z.eqb_spec (ToIndirectRef w t (ExtractIndex r)) r); [|unfold rejected; destruct check_jni; [by left|by right]].
    apply IsNull_None in Hn. congruence.
Qed.

Lemma Remove_present t idx o : irt_ok t -> (idx < top_index_ t)%nat -> reference_ (entry t idx) = Some o ->
  exists t', Remove w check_jni debug t (ToIndirectRef w t idx) = Some (true, t') /\ cleared t t' idx.
Proof.
  intros Ht Hi Ho. pose proof (irt_top t Ht) as HT. pose proof (irt_length t Ht) as HL. unfold Remove.
  rewrite ExtractIndex_ToIndirectRef by (done || lia). rewrite (proj2 (Nat.leb_gt _ _)) by lia.
  rewrite (CheckHoleCount_ok t) by apply Ht. cbn [mbind option_bind]. rewrite CheckEntry_spec, Z.eqb_refl. cbn [mbind option_bind negb].
  pose proof (irt_holes t Ht) as HH. assert (IsNull (entry t idx) = false) as Hnn by (unfold IsNull; by rewrite Ho).
  set (e' := SetReference (entry t idx) None). destruct (Nat.eqb_spec idx (top_index_ t - 1)) as [E|E].
  - assert (current_num_holes_ t = CountNullEntries (<[idx := e']> (table_ t)) idx) as HH'.
    { rewrite count_insert_ge by done. rewrite HH. replace (top_index_ t) with (S idx) by lia.
      rewrite (count_S _ _ _ (entry_lookup t idx ltac:(lia))). unfold null_bit. rewrite Hnn. lia. }
    destruct (Nat.eqb_spec (current_num_holes_ (set_entry t idx e')) 0) as [Hz|Hz]; cbn [negb].
    + eexists. split; [done|]. cbn [set_entry current_num_holes_] in Hz |- *. rewrite Hz. apply clear_entry; [done|lia|lia| | |lia].
      * rewrite <- E. cbn [set_counts set_entry table_]. fold e'. congruence.
      * intros H0. rewrite <- E. apply (count_zero (<[idx := e']> (table_ t)) idx (idx - 1)); [congruence|lia|].
        apply (entry_lookup (set_entry t idx e')). cbn [set_entry table_]. rewrite length_insert. lia.
    + pose proof (collapse_spec (set_entry t idx e') (top_index_ t) (current_num_holes_ t)) as Hc.
      change (current_num_holes_ (set_entry t idx e')) with (current_num_holes_ t).
      change (table_ (set_entry t idx e')) with (<[idx := e']> (table_ t)) in Hc. rewrite length_insert in Hc.
      destruct (collapse (set_entry t idx e') (top_index_ t) (current_num_holes_ t)) as [n' h'].
      destruct Hc as (H1 & H2 & H3 & H4); [lia|by rewrite <- E|]. rewrite CheckHoleCount_ok by done. cbn [mbind option_bind].
      eexists. split; [done|]. apply clear_entry; [done|lia|lia|done|done|].
      intros j Hne Hj. specialize (H4 j ltac:(lia)). rewrite entry_set, decide_False in H4 by (congruence || lia). done.
  - rewrite Hnn. pose proof (count_insert (table_ t) (top_index_ t) idx e' _ Hi (entry_lookup t idx ltac:(lia))) as Hc.
    unfold null_bit in Hc. rewrite Hnn in Hc. change (IsNull e') with true in Hc. cbn iota in Hc.
    assert (S (current_num_holes_ t) = CountNullEntries (<[idx := e']> (table_ t)) (top_index_ t)) as Hs by lia.
    rewrite CheckHoleCount_ok by exact Hs. cbn [mbind option_bind].
    eexists. split; [done|]. apply clear_entry; [done|lia|done| | |intros j _ Hj; cbn [set_entry top_index_] in Hj; lia].
    + exact Hs.
    + intros H0. change (IsNull (entry (set_entry t idx e') (top_index_ t - 1)) = false). rewrite entry_set, decide_False by lia. by apply Ht.
Qed.

Lemma Update_spec t idx o o' : irt_ok t -> (idx < top_index_ t)%nat -> reference_ (entry t idx) = Some o ->
  let t' := Update t (ToIndirectRef w t idx) o' in
  irt_ok t' /\ kind_ t' = kind_ t /\ top_index_ t' = top_index_ t /\
  forall j, entry t' j = if decide (idx = j) then Entry (serial_ (entry t idx)) (Some o') else entry t j.
Proof.
  intros Ht Hi Ho t'. pose proof (irt_top t Ht) as HT. pose proof (irt_length t Ht) as HL.
  assert (t' = set_entry t idx (Entry (serial_ (entry t idx)) (Some o'))) as ->
    by (unfold t', Update; by rewrite ExtractIndex_ToIndirectRef by (done || lia)).
  assert (forall j, entry (set_entry t idx (Entry (serial_ (entry t idx)) (Some o'))) j =
    if decide (idx = j) then Entry (serial_ (entry t idx)) (Some o') else entry t j) as Hent by (intros j; apply entry_set; lia).
  split_and!; [|done..]. constructor; cbn [set_entry top_index_ kind_ table_ max_entries_ current_num_holes_]; try apply Ht.
  - rewrite length_insert. apply Ht.
  - rewrite (irt_holes t Ht).
    pose proof (count_insert (table_ t) (top_index_ t) idx (Entry (serial_ (entry t idx)) (Some o')) _ Hi (entry_lookup t idx ltac:(lia))) as Hc.
    unfold null_bit, IsNull at 1 in Hc. rewrite Ho in Hc. rewrite bool_decide_false in Hc by done.
    change (IsNull (Entry (serial_ (entry t idx)) (Some o'))) with false in Hc. cbn iota in Hc. lia.
  - intros H0. rewrite Hent. case_decide; [done|]. by apply Ht.
  - intros j. rewrite Hent. case_decide; [|apply Ht]. apply (irt_serial t Ht idx).
Qed.

Lemma count_ext l l' n : length l = length l' ->
  (forall i e e', l !! i = Some e -> l' !! i = Some e' -> IsNull e = IsNull e') -> CountNullEntries l n = CountNullEntries l' n.
Proof using Type.
  intros HL He. induction n as [|n IH]; [done|]. destruct (l !! n) as [e|] eqn:E.
  - destruct (lookup_lt_is_Some_2 l' n) as [e' E']; [rewrite <- HL; by eapply lookup_lt_Some|].
    rewrite (count_S _ _ _ E), (count_S _ _ _ E'), IH. unfold null_bit. by rewrite (He _ _ _ E E').
  - apply lookup_ge_None in E. unfold CountNullEntries in *. rewrite !take_ge in * by lia. done.
Qed.

Lemma update_roots_spec t f : irt_ok t ->
  let t' := update_roots f t in
  irt_ok t' /\ kind_ t' = kind_ t /\ top_index_ t' = top_index_ t /\
  (forall j, (j < top_index_ t)%nat -> entry t' j = SetReference (entry t j) (f <$> reference_ (entry t j))) /\
  forall j, (top_index_ t <= j)%nat -> entry t' j = entry t j.
Proof using Type.
  intros Ht t'. pose proof (irt_top t Ht) as HT. pose proof (irt_length t Ht) as HL.
  assert (forall j, entry t' j = if (j <? top_index_ t)%nat then SetReference (entry t j) (f <$> reference_ (entry t j)) else entry t j) as Hent.
  { intros j. unfold entry. cbn [t' update_roots table_ Capacity]. rewrite list_lookup_imap. destruct (table_ t !! j) as [e|] eqn:E; cbn [fmap option_fmap option_map default]; [done|].
    by destruct (_ <? _)%nat. }
  assert (forall j, IsNull (entry t' j) = IsNull (entry t j)) as Hnull.
  { intros j. rewrite Hent. destruct (_ <? _)%nat; [|done]. unfold IsNull. cbn [SetReference reference_]. by destruct (reference_ (entry t j)). }
  split_and!; [|done..| |].
  - constructor; try apply Ht.
    + cbn [t' update_roots table_]. rewrite length_imap. apply Ht.
    + cbn [t' update_roots current_num_holes_ top_index_]. rewrite (irt_holes t Ht). apply count_ext; [cbn [t' update_roots table_]; by rewrite length_imap|].
      intros i e e' E E'. specialize (Hnull i). unfold entry in Hnull. rewrite E in Hnull. change (table_ t' !! i = Some e') in E'. rewrite E' in Hnull. done.
    + intros H0. rewrite Hnull. by apply Ht.
    + intros j. rewrite Hent. destruct (_ <? _)%nat; [|apply Ht]. apply (irt_serial t Ht j).
  - intros j Hj. by rewrite Hent, (proj2 (Nat.ltb_lt _ _) Hj).
  - intros j Hj. by rewrite Hent, (proj2 (Nat.ltb_ge _ _) Hj).
Qed.

Lemma update_roots_lookup t f r : irt_ok t -> lookup_ref w (update_roots f t) r = f <$> lookup_ref w t r.
Proof using Type.
  intros Ht. destruct (update_roots_spec t f Ht) as (_ & Hk & Htop & H1 & H2). unfold lookup_ref. rewrite Htop.
  destruct (Nat.ltb_spec (ExtractIndex r) (top_index_ t)) as [Hi|]; [|done]. unfold ToIndirectRef. rewrite Hk, H1 by done. cbn [SetReference serial_ reference_].
  by destruct (_ =? _).
Qed.

(** The number of entries of the pages that hold [n] entries. *)
Lemma page_entries n : 0 <= n <= 2 ^ 24 ->
  exists pages, RoundUp 64 (n * sizeof_IrtEntry) kPageSize / sizeof_IrtEntry = pages * 512 /\ n <= pages * 512 < n + 512.
Proof using Type.
  intros Hn. change (2 ^ 24) with 16777216 in *. unfold sizeof_IrtEntry. change kPageSize with (2 ^ 12).
  rewrite RoundUp_val by (change (2 ^ 12) with 4096; change (2 ^ 64) with 18446744073709551616; lia). change (2 ^ 12) with 4096.
  exists ((n * 8 + 4096 - 1) / 4096). pose proof (Z.div_mod (n * 8 + 4096 - 1) 4096 ltac:(lia)) as Hd.
  pose proof (Z.mod_pos_bound (n * 8 + 4096 - 1) 4096 ltac:(lia)). set (q := (n * 8 + 4096 - 1) / 4096) in *. split; [|lia].
  replace (q * 4096) with (q * 512 * 8) by lia. by rewrite Z.div_mul.
Qed.

Lemma Trim_spec t : irt_ok t ->
  let t' := Trim t in
  irt_ok t' /\ kind_ t' = kind_ t /\ top_index_ t' = top_index_ t /\ forall j, (j < top_index_ t)%nat -> entry t' j = entry t j.
Proof using Type.
  intros Ht t'. pose proof (irt_top t Ht) as HT. pose proof (irt_length t Ht) as HL. pose proof (irt_max t Ht) as HM.
  destruct (page_entries (Z.of_nat (top_index_ t))) as (pages & Ep & Hp); [lia|].
  set (first := Z.to_nat (pages * 512)). assert (top_index_ t <= first)%nat as Hf by lia.
  assert (table_ t' = take first (table_ t) ++ replicate (length (table_ t) - first) zero_entry) as Etab.
  { unfold t', Trim. cbn [table_]. unfold Capacity. rewrite Ep. done. }
  assert (forall j, entry t' j = if (j <? first)%nat then entry t j else zero_entry) as Hent.
  { intros j. unfold entry. rewrite Etab. destruct (Nat.ltb_spec j first) as [Hj|Hj].
    - destruct (decide (j < length (table_ t))%nat).
      + rewrite lookup_app_l by (rewrite length_take; lia). by rewrite lookup_take_lt.
      + rewrite (lookup_ge_None_2 (table_ t)) by lia. rewrite lookup_ge_None_2; [done|]. rewrite length_app, length_take, length_replicate. lia.
    - destruct (decide (j < length (table_ t))%nat) as [Hl|Hl].
      + rewrite lookup_app_r by (rewrite length_take; lia). rewrite lookup_replicate_2; [done|]. rewrite length_take. lia.
      + rewrite lookup_ge_None_2; [done|]. rewrite length_app, length_take, length_replicate. lia. }
  split_and!; [|done..|intros j Hj; rewrite Hent, (proj2 (Nat.ltb_lt _ _)) by lia; done].
  constructor; try apply Ht.
  - rewrite Etab, length_app, length_take, length_replicate. cbn [t' Trim max_entries_]. lia.
  - cbn [t' Trim current_num_holes_ top_index_]. rewrite (irt_holes t Ht). change (table_ (Trim t)) with (table_ t'). rewrite Etab.
    unfold CountNullEntries. rewrite take_app_le by (rewrite length_take; lia). by rewrite take_take, Nat.min_l.
  - intros H0. cbn [t' Trim top_index_]. rewrite Hent, (proj2 (Nat.ltb_lt _ _)); [by apply Ht|]. change (top_index_ t') with (top_index_ t) in H0. lia.
  - intros j. rewrite Hent. destruct (_ <? _)%nat; [apply Ht|done].
Qed.

Lemma Initialize_ok kind max_count t0 t :
  0 <= max_count -> Construct kind = Some t0 -> Initialize t0 max_count true = Some (true, t) ->
  irt_ok t /\ (forall r, lookup_ref w t r = None) /\ max_count <= Z.of_nat (max_entries_ t).
Proof using Type.
  unfold Construct, Initialize. intros Hm Ec Ei. destruct (bool_decide (kind = kJniTransition)) eqn:E1; [done|]. destruct (bool_decide (kind = kLocal)) eqn:E2; [done|].
  cbn [orb] in Ec. injection Ec as <-. destruct (Z.leb_spec max_count (kMaxTableSizeInBytes / sizeof_IrtEntry)) as [Hle|]; [|done].
  change (kMaxTableSizeInBytes / sizeof_IrtEntry) with (2 ^ 24) in Hle. destruct (page_entries max_count ltac:(lia)) as (pages & Ep & Hp).
  rewrite Ep in Ei. injection Ei as <-. change (2 ^ 24) with 16777216 in *.
  assert (forall j, entry (Irt (replicate (Z.to_nat (pages * 512)) zero_entry) kind 0 (Z.to_nat (pages * 512)) 0) j = (zero_entry : IrtEntry A)) as Hent.
  { intros j. unfold entry. cbn [table_]. destruct (replicate _ _ !! j) as [e|] eqn:E; [|done]. by apply lookup_replicate in E as [-> _]. }
  split_and!.
  - constructor; cbn [table_ max_entries_ top_index_ current_num_holes_ kind_]; [apply length_replicate| |lia|done|lia|intros i; rewrite Hent; done|].
    + change (2 ^ 24) with 16777216. lia.
    + apply bool_decide_eq_false in E1, E2. destruct kind; auto; done.
  - done.
  - cbn [max_entries_]. lia.
Qed.

(** ** Sequences of operations *)

#[local] Abbreviation run1 := (run_op w check_jni debug).
#[local] Abbreviation runs := (run_ops w check_jni debug).
#[local] Abbreviation fill1 := (fills_op w debug).
#[local] Abbreviation fillsn := (fills w check_jni debug).

(** The entry holds no reference of the table. *)
Definition free t (idx : nat) : Prop := (idx < top_index_ t)%nat -> reference_ (entry t idx) = None.

Lemma mod_serial s : 0 <= s < kIRTMaxSerial -> s = (s + Z.of_nat 0) mod kIRTMaxSerial.
Proof using Type. intros Hs. by rewrite Z.add_0_r, Z.mod_small. Qed.

Lemma lookup_index t r o : irt_ok t -> lookup_ref w t r = Some o ->
  r = ToIndirectRef w t (ExtractIndex r) /\ (ExtractIndex r < top_index_ t)%nat /\ reference_ (entry t (ExtractIndex r)) = Some o.
Proof.
  intros Ht. pose proof (irt_top t Ht). intros (i & Hi & -> & Ho)%lookup_Some; [|done]. by rewrite ExtractIndex_ToIndirectRef by (done || lia).
Qed.

(** An operation keeps the invariant, counts the serial number of an entry when it fills it, and
    leaves a free entry free otherwise. *)
Lemma irt_run_op_spec t o t' idx : irt_ok t -> run1 t o = Some t' ->
  irt_ok t' /\ kind_ t' = kind_ t /\
  (is_trim o = false -> serial_ (entry t' idx) = (serial_ (entry t idx) + Z.of_nat (fill1 idx t o)) mod kIRTMaxSerial) /\
  (fill1 idx t o = 0%nat -> free t idx -> free t' idx).
Proof.
  intros Ht E. pose proof (irt_serial t Ht idx) as Hs. destruct o as [obj|r|r obj|f|]; cbn [run_op fills_op is_trim] in *.
  - destruct (decide (top_index_ t = max_entries_ t)) as [Hm|Hm].
    + unfold Add in *. cbn [mbind option_bind] in *. rewrite Hm, Nat.eqb_refl in E |- *. cbn [mbind option_bind] in E. injection E as <-.
      split_and!; [done|done|intros _; by apply mod_serial|done].
    + destruct (Add_spec t obj Ht) as (j & t1 & EA & HF); [pose proof (irt_top t Ht); lia|]. rewrite EA in E |- *. cbn [mbind option_bind] in E. injection E as <-.
      destruct HF as [Ht' Hk Hfree Htop He Ho]. pose proof (irt_top t1 Ht'). rewrite ExtractIndex_ToIndirectRef by (done || lia).
      split_and!; [done|done|..]; destruct (Nat.eqb_spec j idx) as [->|Hj]; try done.
      * intros _. rewrite He. by apply entry_Add_serial.
      * intros _. destruct (Ho idx) as [-> _]; [done|]. by apply mod_serial.
      * intros _ Hf. destruct (Ho idx) as [E1 E2]; [done|]. intros Hi. rewrite E1. apply Hf. by apply E2.
  - destruct (lookup_ref w t r) as [o|] eqn:El.
    + destruct (lookup_index t r o Ht El) as (Hr & Hi & Ho). rewrite Hr in E.
      destruct (Remove_present t _ o Ht Hi Ho) as (t1 & E1 & [Ht' Hk _ He Htop Hoth]). rewrite E1 in E. cbn [mbind option_bind] in E. injection E as <-.
      split_and!; [done|done|..].
      * intros _. destruct (decide (idx = ExtractIndex r)) as [->|Hne]; [rewrite He|destruct (Hoth idx Hne) as [-> _]]; by apply mod_serial.
      * intros _ Hf Hlt. destruct (decide (idx = ExtractIndex r)) as [->|Hne]; [by rewrite He|]. destruct (Hoth idx Hne) as [E2 _]. rewrite E2. apply Hf. lia.
    + destruct (Remove_absent t r Ht El) as [E1|[_ E1]]; rewrite E1 in E; [|done]. cbn [mbind option_bind] in E. injection E as <-.
      split_and!; [done|done|intros _; by apply mod_serial|done].
  - case_bool_decide as Hd; [done|]. destruct (lookup_ref w t r) as [o|] eqn:El; [|done].
    destruct (lookup_index t r o Ht El) as (Hr & Hi & Ho). injection E as <-. rewrite Hr. set (j := ExtractIndex r) in *.
    destruct (Update_spec t j o obj Ht Hi Ho) as (Ht' & Hk & Htop & Hent). split_and!; [done|done|..].
    + intros _. rewrite Hent. case_decide as Hj; [subst idx|]; by apply mod_serial.
    + intros _ Hf Hlt. rewrite Htop in Hlt. rewrite Hent. case_decide as Hj; [|by apply Hf]. rewrite <- Hj in Hlt, Hf. specialize (Hf Hlt). congruence.
  - injection E as <-. destruct (update_roots_spec t f Ht) as (Ht' & Hk & Htop & H1 & H2). cbn [VisitRoots snd]. split_and!; [done|done|..].
    + intros _. destruct (decide (idx < top_index_ t)%nat); [rewrite H1 by done|rewrite H2 by lia]; by apply mod_serial.
    + intros _ Hf Hlt. rewrite Htop in Hlt. rewrite H1 by done. cbn [SetReference reference_]. by rewrite Hf.
  - injection E as <-. destruct (Trim_spec t Ht) as (Ht' & Hk & Htop & H1). split_and!; [done|done|done|].
    intros _ Hf Hlt. rewrite Htop in Hlt. rewrite H1 by done. by apply Hf.
Qed.

Lemma run_ops_ok ops t t' : irt_ok t -> runs t ops = Some t' -> irt_ok t' /\ kind_ t' = kind_ t.
Proof.
  revert t. induction ops as [|o ops IH]; intros t Ht E; cbn [run_ops] in E; [by injection E as <-|].
  destruct (run1 t o) as [t1|] eqn:E1; [|done]. cbn [mbind option_bind] in E.
  destruct (irt_run_op_spec t o t1 0 Ht E1) as (H1 & K1 & _). destruct (IH t1 H1 E) as [H2 K2]. split; [done|congruence].
Qed.

Lemma run_ops_serial ops t t' idx : irt_ok t -> runs t ops = Some t' -> Forall (fun o => is_trim o = false) ops ->
  serial_ (entry t' idx) = (serial_ (entry t idx) + Z.of_nat (fillsn idx t ops)) mod kIRTMaxSerial /\
  (fillsn idx t ops = 0%nat -> free t idx -> free t' idx).
Proof.
  revert t. induction ops as [|o ops IH]; intros t Ht E Hn; cbn [run_ops fills] in *.
  - injection E as <-. split; [apply mod_serial, Ht|done].
  - apply Forall_cons in Hn as [Ho Hn]. destruct (run1 t o) as [t1|] eqn:E1; [|done]. cbn [mbind option_bind] in E.
    destruct (irt_run_op_spec t o t1 idx Ht E1) as (H1 & _ & S1 & F1). destruct (IH t1 H1 E Hn) as [S2 F2]. split.
    + rewrite S2, S1 by done. change kIRTMaxSerial with 7. rewrite Zplus_mod_idemp_l. f_equal. lia.
    + intros Hz. rewrite Nat.eq_add_0 in Hz. destruct Hz. auto.
Qed.

(** A reference whose entry has been filled anew less than seven times is not in the table. *)
Lemma stale_reference t t' ops r : irt_ok t -> runs t ops = Some t' -> Forall (fun o => is_trim o = false) ops ->
  free t (ExtractIndex r) -> (ExtractIndex r < max_entries_ t)%nat -> r = ToIndirectRef w t (ExtractIndex r) ->
  Z.of_nat (fillsn (ExtractIndex r) t ops) < kIRTMaxSerial -> lookup_ref w t' r = None.
Proof.
  intros Ht E Hn Hf Hm Hr Hlt. destruct (run_ops_ok ops t t' Ht E) as [Ht' Hk].
  destruct (run_ops_serial ops t t' (ExtractIndex r) Ht E Hn) as [Hs Hf']. set (i := ExtractIndex r) in *.
  unfold lookup_ref. fold i. destruct (Nat.ltb_spec i (top_index_ t')) as [Hi|]; [|done]. cbn [andb].
  destruct (Z.eqb_spec (ToIndirectRef w t' i) r) as [He|]; [|done].
  destruct (decide (fillsn i t ops = 0%nat)) as [Hz|Hz]; [by apply (Hf' Hz Hf)|]. exfalso.
  pose proof (irt_serial t Ht i) as S1. pose proof (irt_serial t' Ht' i) as S2. pose proof (irt_max t Ht).
  rewrite Hr in He. unfold ToIndirectRef in He. rewrite !EncodeIndirectRef_val in He by (done || change kIRTMaxSerial with 7 in *; lia).
  rewrite Hk in He. assert (serial_ (entry t' i) = serial_ (entry t i)) as Es by lia.
  rewrite Hs in Es. change kIRTMaxSerial with 7 in *.
  pose proof (Z.div_mod (serial_ (entry t i) + Z.of_nat (fillsn i t ops)) 7 ltac:(lia)). lia.
Qed.

(** The debugging check agrees with the contents on references of the table's kind. *)
Lemma IsValidReference_spec t r : irt_ok t -> is_u 37 r -> GetIndirectRefKind r = kind_value (kind_ t) ->
  IsValidReference t r = Valid <-> lookup_ref w t r <> None.
Proof.
  intros Ht Hr Hk. unfold IsValidReference, lookup_ref. set (i := ExtractIndex r).
  destruct (Nat.leb_spec (top_index_ t) i) as [Hi|Hi]; [rewrite (proj2 (Nat.ltb_ge _ _) Hi); naive_solver|].
  rewrite (proj2 (Nat.ltb_lt _ _) Hi). cbn [andb]. pose proof (irt_top t Ht). pose proof (irt_max t Ht). pose proof (irt_serial t Ht i) as Hs.
  assert (r = Z.of_nat i * 32 + DecodeSerial r * 4 + kind_value (kind_ t) /\ 0 <= DecodeSerial r < 8) as [Er Hds].
  { rewrite <- Hk. unfold i, ExtractIndex, GetIndirectRefKind. unfold is_u in Hr. change (2 ^ 37) with 137438953472 in Hr.
    assert (0 <= r / 32 < 4294967296) as Hq by (split; [apply Z.div_pos; lia|apply Z.div_lt_upper_bound; lia]).
    assert (DecodeIndex r = r / 32) as ->.
    { unfold DecodeIndex. change kKindBits with 2. change kIRTSerialBits with 3. rewrite Z.shiftr_shiftr, Z.shiftr_div_pow2 by lia.
      change (2 ^ (2 + 3)) with 32. apply uN_small. done. }
    assert (DecodeSerial r = (r / 4) mod 8) as ->.
    { unfold DecodeSerial. change kKindBits with 2. change kShiftedSerialMask with (Z.ones 3). rewrite Z.shiftr_div_pow2, Z.land_ones by lia.
      change (2 ^ 2) with 4. change (2 ^ 3) with 8. unfold uN. apply Z.mod_mod_divide. by exists 536870912. }
    unfold DecodeIndirectRefKind. change kKindMask with (Z.ones 2). rewrite Z.land_ones by lia. change (2 ^ 2) with 4.
    split; [|apply Z.mod_pos_bound; lia]. rewrite Z2Nat.id by lia. replace (r / 32) with (r / 4 / 8) by (rewrite Z.div_div by lia; done).
    pose proof (Z.div_mod r 4 ltac:(lia)). pose proof (Z.div_mod (r / 4) 8 ltac:(lia)). lia. }
  assert ((ToIndirectRef w t i =? r) = (DecodeSerial r =? serial_ (entry t i))) as ->.
  { unfold ToIndirectRef. change kIRTMaxSerial with 7 in *. rewrite EncodeIndirectRef_val by (done || lia). apply eq_true_iff_eq. rewrite !Z.eqb_eq. lia. }
  unfold IsNull. case_bool_decide as Hn; [rewrite Hn; by destruct (_ =? _)|]. by destruct (_ =? _).
Qed.

Lemma ToIndirectRef_fields t i : irt_ok t -> (i < max_entries_ t)%nat ->
  is_u 37 (ToIndirectRef w t i) /\ GetIndirectRefKind (ToIndirectRef w t i) = kind_value (kind_ t).
Proof.
  intros Ht Hi. pose proof (irt_max t Ht). pose proof (irt_serial t Ht i) as Hs. change kIRTMaxSerial with 7 in Hs. pose proof (kind_range (kind_ t)).
  unfold ToIndirectRef. rewrite EncodeIndirectRef_val by (done || lia). change (2 ^ 24) with 16777216 in *.
  split; [unfold is_u; change (2 ^ 37) with 137438953472; lia|]. apply decode_fields; change (2 ^ 24) with 16777216; lia.
Qed.

Lemma length_Dump t : irt_ok t -> NEntriesForGlobal t = Z.of_nat (length (Dump t)).
Proof using Type.
  intros Ht. unfold NEntriesForGlobal, Dump, Capacity. rewrite (irt_holes t Ht). unfold CountNullEntries.
  pose proof (irt_top t Ht) as HT. pose proof (irt_max t Ht) as HM. pose proof (irt_length t Ht) as HL.
  assert (forall l : list (IrtEntry A), (length (filter (fun e => IsNull e = true) l) + length (omap reference_ l) = length l)%nat) as Hl.
  { induction l as [|e l IH]; [done|]. cbn [omap list_omap]. rewrite filter_cons. destruct (IsNull e) eqn:E.
    - rewrite decide_True by done. apply IsNull_None in E. rewrite E. cbn [length]. lia.
    - rewrite decide_False by done. destruct (reference_ e) eqn:Er; [cbn [length]; lia|]. apply IsNull_None in Er. congruence. }
  pose proof (Hl (take (top_index_ t) (table_ t))) as E. rewrite length_take in E. change (2 ^ 24) with 16777216 in HM.
  rewrite sN_small; [lia|lia|]. unfold is_s. change (2 ^ (32 - 1)) with 2147483648. lia.
Qed.

Lemma elem_of_Dump t o : irt_ok t -> o ∈ Dump t <-> exists r, lookup_ref w t r = Some o.
Proof.
  intros Ht. unfold Dump, Capacity. rewrite list_elem_of_omap. split.
  - intros (e & He & Ho). apply list_elem_of_lookup_1 in He as [i Hi]. apply lookup_take_Some in Hi as [Hi Hlt].
    exists (ToIndirectRef w t i). apply lookup_Some; [done|]. exists i. unfold entry. rewrite Hi. done.
  - intros [r (i & Hi & _ & Ho)%lookup_Some]; [|done]. exists (entry t i). split; [|done]. pose proof (irt_top t Ht). pose proof (irt_length t Ht).
    apply (list_elem_of_lookup_2 _ i). apply lookup_take_Some. split; [apply entry_lookup; lia|done].
Qed.

Lemma Update_lookup t r o o' r' : irt_ok t -> lookup_ref w t r = Some o ->
  lookup_ref w (Update t r o') r' = if decide (r' = r) then Some o' else lookup_ref w t r'.
Proof.
  intros Ht El. destruct (lookup_index t r o Ht El) as (Hr & Hi & Ho). set (i := ExtractIndex r) in *. rewrite Hr.
  destruct (Update_spec t i o o' Ht Hi Ho) as (Ht' & Hk & Htop & Hent). rewrite <- Hr. rewrite <- Hr in Ht', Hk, Htop, Hent.
  destruct (decide (ExtractIndex r' = i)) as [E|E].
  - unfold lookup_ref. rewrite E, Htop, (proj2 (Nat.ltb_lt _ _) Hi). cbn [andb]. unfold ToIndirectRef. rewrite Hk, Hent, decide_True by done. cbn [serial_ reference_].
    fold (ToIndirectRef w t i). rewrite <- Hr. destruct (Z.eqb_spec r r') as [<-|]; [by rewrite decide_True|by rewrite decide_False].
  - rewrite decide_False by (intros ->; done). apply lookup_same; [done|by rewrite Hent, decide_False|by left; rewrite Htop].
Qed.
End invariant.

(** ** Properties *)

(** C22: Whatever operations have run on an initialized table, it is a map from indirect references
    to objects.  Add binds a reference that was not bound, or reports an error and changes nothing
    when the table is full.  Get, Update and Remove find exactly the bound references, a reference
    that is not bound is rejected without any change (or aborts the program when CheckJNI is off),
    and the check of references agrees.  Visiting the roots reaches every object of the map, once
    for each reference, sweeping replaces the objects that are not marked, and trimming loses
    nothing.  The recounts of debug builds never fail. *)
Theorem IRT_contents {A : Type} (w : Z) (check_jni debug : bool) (kind : IndirectRefKind) (max_count : Z)
    (t0 t1 t : IndirectReferenceTable A) (ops : list (op A)) :
  pointer_width w -> 0 <= max_count -> Construct kind = Some t0 -> Initialize t0 max_count true = Some (true, t1) ->
  run_ops w check_jni debug t1 ops = Some t ->
  (forall obj,
     if (top_index_ t =? max_entries_ t)%nat then Add w debug t (Some obj) = Some (None, t)
     else exists r t', Add w debug t (Some obj) = Some (Some r, t') /\ lookup_ref w t r = None /\
       forall r', lookup_ref w t' r' = if decide (r' = r) then Some obj else lookup_ref w t r') /\
  (forall r,
     match lookup_ref w t r with
     | Some obj =>
         Get t r = Some obj /\
         (exists t', Remove w check_jni debug t r = Some (true, t') /\
            forall r', lookup_ref w t' r' = if decide (r' = r) then None else lookup_ref w t r') /\
         (forall obj' r', lookup_ref w (Update t r obj') r' = if decide (r' = r) then Some obj' else lookup_ref w t r')
     | None => Remove w check_jni debug t r = Some (false, t) \/ check_jni = false /\ Remove w check_jni debug t r = None
     end /\
     (is_u 37 r -> GetIndirectRefKind r = kind_value (kind_ t) -> IsValidReference t r = Valid <-> lookup_ref w t r <> None)) /\
  (forall f obj, obj ∈ (VisitRoots t f).1 <-> exists r, lookup_ref w t r = Some obj) /\
  (forall f, Z.of_nat (length (VisitRoots t f).1) = NEntriesForGlobal t) /\
  (forall f r, lookup_ref w (VisitRoots t f).2 r = f <$> lookup_ref w t r) /\
  (forall r, lookup_ref w (Trim t) r = lookup_ref w t r) /\
  (kind_ t = kWeakGlobal -> forall IsMarked cleared, exists t', SweepJniWeakGlobals t IsMarked cleared = Some t' /\
     forall r, lookup_ref w t' r = (fun obj => default cleared (IsMarked obj)) <$> lookup_ref w t r).
Proof.
  intros Hw Hm Ec Ei Er. destruct (Initialize_ok w kind max_count t0 t1 Hm Ec Ei) as (Ht1 & _ & _).
  destruct (run_ops_ok w check_jni debug Hw ops t1 t Ht1 Er) as [Ht _]. split_and!.
  - intros obj. destruct (Nat.eqb_spec (top_index_ t) (max_entries_ t)) as [E|E]; [unfold Add; cbn [mbind option_bind]; by rewrite E, Nat.eqb_refl|].
    destruct (Add_spec w debug t obj Ht) as (i & t' & EA & HF); [pose proof (irt_top t Ht); lia|].
    exists (ToIndirectRef w t' i), t'. split_and!; [done|by apply (filled_lookup w Hw t t' i obj 0)|].
    intros r'. by apply (filled_lookup w Hw t t' i obj).
  - intros r. split; [|by apply IsValidReference_spec]. destruct (lookup_ref w t r) as [obj|] eqn:El; [|by apply Remove_absent].
    destruct (lookup_index w Hw t r obj Ht El) as (Hr & Hi & Ho). split_and!; [done| |intros obj' r'; by eapply Update_lookup].
    destruct (Remove_present w check_jni debug Hw t _ obj Ht Hi Ho) as (t' & E & HC). rewrite <- Hr in E. exists t'. split; [done|].
    intros r'. rewrite (cleared_lookup w Hw t t' _ r' Ht HC Hi). by rewrite <- Hr.
  - intros f obj. by apply elem_of_Dump.
  - intros f. symmetry. by apply length_Dump.
  - intros f r. by apply update_roots_lookup.
  - intros r. destruct (Trim_spec t Ht) as (_ & Hk & Htop & He).
    destruct (decide (ExtractIndex r < top_index_ t)%nat) as [Hi|Hi].
    + apply lookup_same; [done|by apply He|left; by rewrite Htop].
    + unfold lookup_ref. by rewrite Htop, (proj2 (Nat.ltb_ge _ _)) by lia.
  - intros Hk m c. unfold SweepJniWeakGlobals. rewrite bool_decide_true by done. eexists. split; [done|]. intros r. by apply update_roots_lookup.
Qed.

Lemma IRT_contents_witness :
  exists t0 t1 t : IndirectReferenceTable nat, Construct kGlobal = Some t0 /\ Initialize t0 1 true = Some (true, t1) /\
  run_ops 64 true true t1 [DoAdd 7%nat; DoAdd 8%nat; DoAdd 9%nat; DoRemove 38; DoRemove 70; DoAdd 5%nat] = Some t /\
  lookup_ref 64 t 6 = Some 7%nat /\ lookup_ref 64 t 42 = Some 5%nat /\ lookup_ref 64 t 38 = None /\
  (forall f obj, obj ∈ (VisitRoots t f).1 <-> exists r, lookup_ref 64 t r = Some obj).
Proof.
  destruct (@Construct nat kGlobal) as [t0|] eqn:E0; [|discriminate].
  destruct (Initialize t0 1 true) as [[[] t1]|] eqn:E1; [|exfalso; revert E1; injection E0 as <-; vm_compute; discriminate..].
  destruct (run_ops 64 true true t1 [DoAdd 7%nat; DoAdd 8%nat; DoAdd 9%nat; DoRemove 38; DoRemove 70; DoAdd 5%nat]) as [t|] eqn:E2;
    [|exfalso; revert E2; injection E0 as <-; injection E1 as <-; vm_compute; discriminate].
  exists t0, t1, t. split; [reflexivity|]. split; [exact E1|]. split; [exact E2|].
  pose proof (IRT_contents 64 true true kGlobal 1 t0 t1 t _ (or_intror eq_refl) ltac:(lia) E0 E1 E2) as (_ & _ & Hv & _).
  split; [|split; [|split; [|exact Hv]]];
    revert E2; injection E0 as <-; injection E1 as <-; intros E2; vm_compute in E2; injection E2 as <-; reflexivity.
Defined.

(** C33: A reference that has been removed is not accepted again, whatever operations other than
    trimming follow, as long as its entry has been filled anew at most six times: it is not in the
    table, the check of references rejects it and removing it again changes nothing. *)
Theorem IRT_stale {A : Type} (w : Z) (check_jni debug : bool) (kind : IndirectRefKind) (max_count : Z)
    (t0 t1 t t' t'' : IndirectReferenceTable A) (ops ops' : list (op A)) (r : Z) :
  pointer_width w -> 0 <= max_count -> Construct kind = Some t0 -> Initialize t0 max_count true = Some (true, t1) ->
  run_ops w check_jni debug t1 ops = Some t -> Remove w check_jni debug t r = Some (true, t') ->
  run_ops w check_jni debug t' ops' = Some t'' -> Forall (fun o => is_trim o = false) ops' ->
  (fills w check_jni debug (ExtractIndex r) t' ops' <= 6)%nat ->
  lookup_ref w t'' r = None /\ IsValidReference t'' r <> Valid /\
  (Remove w check_jni debug t'' r = Some (false, t'') \/ check_jni = false /\ Remove w check_jni debug t'' r = None).
Proof.
  intros Hw Hm Ec Ei Er Ed Er' Hn Hf. destruct (Initialize_ok w kind max_count t0 t1 Hm Ec Ei) as (Ht1 & _ & _).
  destruct (run_ops_ok w check_jni debug Hw ops t1 t Ht1 Er) as [Ht _].
  destruct (lookup_ref w t r) as [obj|] eqn:El; [|destruct (Remove_absent w check_jni debug t r Ht El) as [E|[_ E]]; rewrite E in Ed; done].
  destruct (lookup_index w Hw t r obj Ht El) as (Hr & Hi & Ho).
  destruct (Remove_present w check_jni debug Hw t _ obj Ht Hi Ho) as (t2 & E2 & [Ht' Hk Hmx He Htop Hoth]). rewrite <- Hr, Ed in E2. injection E2 as <-.
  set (i := ExtractIndex r) in *. destruct (run_ops_ok w check_jni debug Hw ops' t' t'' Ht' Er') as [Ht'' Hk''].
  assert (r = ToIndirectRef w t' i) as Hr' by (rewrite Hr at 1; unfold ToIndirectRef; by rewrite Hk, He).
  assert (i < max_entries_ t')%nat as Hmax by (pose proof (irt_top t Ht); lia).
  assert (lookup_ref w t'' r = None) as Hl.
  { apply (stale_reference w check_jni debug Hw t' t'' ops' r); try done; [|fold i; change kIRTMaxSerial with 7; lia]. intros _. fold i. by rewrite He. }
  destruct (ToIndirectRef_fields w Hw t' i Ht' Hmax) as [Hu Hkd]. rewrite <- Hr' in Hu, Hkd. rewrite <- Hk'' in Hkd.
  split_and!; [done| |by apply Remove_absent]. intros Hv. by apply (IsValidReference_spec w Hw t'' r Ht'' Hu Hkd) in Hv.
Qed.

Lemma IRT_stale_witness :
  exists t t' t'' : IndirectReferenceTable nat,
    Remove 64 false false t 38 = Some (true, t') /\ lookup_ref 64 t 38 = Some 8%nat /\
    run_ops 64 false false t' [DoAdd 5%nat; DoRemove 42; DoAdd 6%nat] = Some t'' /\
    lookup_ref 64 t'' 38 = None /\ IsValidReference t'' 38 <> Valid.
Proof.
  destruct (@Construct nat kGlobal) as [t0|] eqn:E0; [|discriminate].
  destruct (Initialize t0 1 true) as [[[] t1]|] eqn:E1; [|exfalso; revert E1; injection E0 as <-; vm_compute; discriminate..].
  destruct (run_ops 64 false false t1 [DoAdd 7%nat; DoAdd 8%nat; DoAdd 9%nat]) as [t|] eqn:E2;
    [|exfalso; revert E2; injection E0 as <-; injection E1 as <-; vm_compute; discriminate].
  destruct (Remove 64 false false t 38) as [[[] t']|] eqn:E3;
    [|exfalso; revert E3; injection E0 as <-; injection E1 as <-; vm_compute in E2; injection E2 as <-; vm_compute; discriminate..].
  destruct (run_ops 64 false false t' [DoAdd 5%nat; DoRemove 42; DoAdd 6%nat]) as [t''|] eqn:E4;
    [|exfalso; revert E4; injection E0 as <-; injection E1 as <-; vm_compute in E2; injection E2 as <-; vm_compute in E3; injection E3 as <-; vm_compute; discriminate].
  exists t, t', t''. split; [exact E3|].
  assert (fills 64 false false (ExtractIndex 38) t' [DoAdd 5%nat; DoRemove 42; DoAdd 6%nat] <= 6)%nat as Hf.
  { injection E0 as <-; injection E1 as <-; vm_compute in E2; injection E2 as <-; vm_compute in E3; injection E3 as <-. apply Nat.leb_le. vm_compute. reflexivity. }
  split; [injection E0 as <-; injection E1 as <-; vm_compute in E2; injection E2 as <-; reflexivity|]. split; [exact E4|].
  destruct (IRT_stale 64 false false kGlobal 1 t0 t1 t t' t'' _ _ 38 (or_intror eq_refl) ltac:(lia) E0 E1 E2 E3 E4) as (H1 & H2 & _);
    [repeat constructor|exact Hf|]. split; assumption.
Defined.
