(* ===== verification/SpaceBitmap.v ===== *)
(** Bitmaps of the objects of a space: runtime/gc/accounting/space_bitmap.h,
    runtime/gc/accounting/space_bitmap-inl.h and runtime/gc/accounting/space_bitmap.cc.

    One bit stands for [kAlignment] bytes of the heap.  Addresses are numbers; [W] is the number of
    bits of a pointer (and of a word of the bitmap).  The storage of the bitmap is the list of its
    words: a read or a write outside of it gives no result.  A visitor is modelled by the list of
    the objects it is called with: it does not change the bitmap it visits. *)
From S2P Require Import Prelude BitUtils.

Record SpaceBitmap := Bitmap {
  bitmap_begin_ : list Z;
  bitmap_size_ : Z;
  heap_begin_ : Z;
  heap_limit_ : Z }.

Section bitmap.
Context (W kAlignment : Z).

Definition sizeof_intptr : Z := W / kBitsPerByte.

Definition OffsetToIndex (offset : Z) : Z := offset / kAlignment / W.
Definition IndexToOffset (index : Z) : Z := uN W (index * kAlignment * W).
Definition OffsetBitIndex (offset : Z) : Z := (offset / kAlignment) mod W.
Definition OffsetToMask (offset : Z) : Z := uN W (1 ≪ OffsetBitIndex offset).

Definition offset_of (bm : SpaceBitmap) (addr : Z) : Z := uN W (addr - heap_begin_ bm).

Definition HasAddress (bm : SpaceBitmap) (obj : Z) : bool :=
  OffsetToIndex (offset_of bm obj) <? bitmap_size_ bm / sizeof_intptr.

Definition load (bm : SpaceBitmap) (index : Z) : option Z := bitmap_begin_ bm !! Z.to_nat index.
Definition store (bm : SpaceBitmap) (index value : Z) : option SpaceBitmap :=
  _ ← load bm index;
  Some (Bitmap (<[Z.to_nat index := value]> (bitmap_begin_ bm)) (bitmap_size_ bm) (heap_begin_ bm) (heap_limit_ bm)).

Definition Test (bm : SpaceBitmap) (obj : Z) : option bool :=
  let offset := offset_of bm obj in
  word ← load bm (OffsetToIndex offset);
  Some (negb (word .& OffsetToMask offset =? 0)).

(** The previous value of the bit. *)
Definition Modify (kSetBit : bool) (bm : SpaceBitmap) (obj : Z) : option (bool * SpaceBitmap) :=
  let offset := offset_of bm obj in
  let index := OffsetToIndex offset in
  let mask := OffsetToMask offset in
  old_word ← load bm index;
  bm ← (if kSetBit then
          if old_word .& mask =? 0 then store bm index (old_word .| mask) else Some bm
        else store bm index (old_word .& uN W (.~ mask)));
  Some (negb (old_word .& mask =? 0), bm).

Definition Set_ := Modify true.
Definition Clear := Modify false.

(** What happens between the load of a word and the compare-and-swap: the bits other threads set
    in it, and whether the weak compare-and-swap fails for no reason. *)
Record marking := Marking { set_by_others : Z; spurious : bool }.

Fixpoint test_and_set (events : list marking) (word mask : Z) : bool * Z :=
  if negb (word .& mask =? 0) then (true, word)
  else match events with
       | [] => (false, word .| mask)
       | e :: events =>
           let now := word .| set_by_others e in
           if negb (spurious e) && (now =? word) then (false, word .| mask) else test_and_set events now mask
       end.

Definition AtomicTestAndSet (events : list marking) (bm : SpaceBitmap) (obj : Z) : option (bool * SpaceBitmap) :=
  let offset := offset_of bm obj in
  let index := OffsetToIndex offset in
  old_word ← load bm index;
  let '(was_set, word) := test_and_set events old_word (OffsetToMask offset) in
  bm ← store bm index word;
  Some (was_set, bm).

(** The objects [visit_begin], [visit_begin + kAlignment], ... below [visit_end], which is more than
    [kAlignment] bytes below the end of the address space. *)
Fixpoint visit_range (fuel : nat) (visit_begin visit_end : Z) : list Z :=
  match fuel with
  | O => []
  | S fuel => if visit_begin <? visit_end then visit_begin :: visit_range fuel (visit_begin + kAlignment) visit_end else []
  end.
Definition VisitRange (visit_begin visit_end : Z) : list Z :=
  visit_range (Z.to_nat ((visit_end - visit_begin) / kAlignment + 1)) visit_begin visit_end.

(** *** Finding objects *)

Definition object_at (bm : SpaceBitmap) (index position : Z) : Z :=
  uN W (uN W (IndexToOffset index + heap_begin_ bm) + position * kAlignment).

Fixpoint find_preceding (fuel : nat) (bm : SpaceBitmap) (word index_start index_end : Z) : option (Z + Z) :=
  match fuel with
  | O => None
  | S fuel =>
      if index_end <? index_start then
        if negb (word =? 0) then Some (inl (object_at bm index_start (W - CLZ W word - 1)))
        else
          word ← load bm (index_start - 1);
          find_preceding fuel bm word (index_start - 1) index_end
      else Some (inr word)
  end.

(** The object found, or [None] for null. *)
Definition FindPrecedingObject (bm : SpaceBitmap) (visit_begin visit_end : Z) : option (option Z) :=
  let visit_end := Z.max (heap_begin_ bm) visit_end in
  let offset_start := offset_of bm visit_begin in
  let offset_end := offset_of bm visit_end in
  let index_start := OffsetToIndex offset_start in
  let index_end := OffsetToIndex offset_end in
  word ← load bm index_start;
  let right_edge_mask := OffsetToMask offset_start in
  let word := word .& (right_edge_mask .| (right_edge_mask - 1)) in
  found ← find_preceding (Z.to_nat (index_start - index_end + 1)) bm word index_start index_end;
  match found with
  | inl obj => Some (Some obj)
  | inr word =>
      let word := word .& uN W (.~ (OffsetToMask offset_end - 1)) in
      if negb (word =? 0) then Some (Some (object_at bm index_end (W - CLZ W word - 1))) else Some None
  end.

(** *** Visiting the marked objects *)

(** The loop over the set bits of a word; the flag says that the function returns. *)
Fixpoint visit_word (fuel : nat) (kVisitOnce : bool) (bm : SpaceBitmap) (index w : Z) : list Z * bool :=
  match fuel with
  | O => ([], false)
  | S fuel =>
      if w =? 0 then ([], false)
      else
        let shift := CTZ w in
        let obj := object_at bm index shift in
        if kVisitOnce then ([obj], true)
        else let '(objs, returned) := visit_word fuel kVisitOnce bm index (w .^ uN W (1 ≪ shift)) in (obj :: objs, returned)
  end.

(** The words [i], [i + 1], ..., [n] of them. *)
Fixpoint visit_words (n : nat) (kVisitOnce : bool) (bm : SpaceBitmap) (i : Z) : option (list Z * bool) :=
  match n with
  | O => Some ([], false)
  | S n =>
      w ← load bm i;
      let '(objs, returned) := visit_word (Z.to_nat W) kVisitOnce bm i w in
      if returned then Some (objs, true)
      else '(rest, returned) ← visit_words n kVisitOnce bm (i + 1); Some (objs ++ rest, returned)
  end.

Definition VisitMarkedRange (kVisitOnce : bool) (bm : SpaceBitmap) (visit_begin visit_end : Z) : option (list Z) :=
  let offset_start := offset_of bm visit_begin in
  let offset_end := offset_of bm visit_end in
  let index_start := OffsetToIndex offset_start in
  let index_end := OffsetToIndex offset_end in
  let bit_start := (offset_start / kAlignment) mod W in
  let bit_end := (offset_end / kAlignment) mod W in
  left_edge ← load bm index_start;
  let left_edge := left_edge .& uN W (.~ (uN W (1 ≪ bit_start) - 1)) in
  '(objs, returned, right_edge) ←
    (if index_start <? index_end then
       let '(objs, returned) := visit_word (Z.to_nat W) kVisitOnce bm index_start left_edge in
       if returned then Some (objs, true, 0)
       else
         '(middle, returned) ← visit_words (Z.to_nat (index_end - (index_start + 1))) kVisitOnce bm (index_start + 1);
         if (returned : bool) then Some (objs ++ middle, true, 0)
         else
           right_edge ← (if bit_end =? 0 then Some 0 else load bm index_end);
           Some (objs ++ middle, false, right_edge)
     else Some ([], false, left_edge));
  if (returned : bool) then Some objs
  else
    let right_edge := right_edge .& (uN W (1 ≪ bit_end) - 1) in
    Some (objs ++ (visit_word (Z.to_nat W) kVisitOnce bm index_end right_edge).1).

Definition VisitAllMarked (bm : SpaceBitmap) : option (list Z) := VisitMarkedRange false bm (heap_begin_ bm) (heap_limit_ bm).

Definition Walk (bm : SpaceBitmap) : option (list Z) :=
  let end_ := OffsetToIndex (uN W (heap_limit_ bm - heap_begin_ bm - 1)) in
  '(objs, _) ← visit_words (Z.to_nat (end_ + 1)) false bm 0; Some objs.

(** *** Sweeping *)

(** Write the objects of a word of garbage to the buffer; a write past its end gives no result. *)
Fixpoint sweep_word (fuel : nat) (bm : SpaceBitmap) (buffer_size index garbage : Z) (pointer_buf : list Z) : option (list Z) :=
  match fuel with
  | O => Some pointer_buf
  | S fuel =>
      if garbage =? 0 then Some pointer_buf
      else
        let shift := CTZ garbage in
        if Z.of_nat (length pointer_buf) <? buffer_size then
          sweep_word fuel bm buffer_size index (garbage .^ uN W (1 ≪ shift)) (pointer_buf ++ [object_at bm index shift])
        else None
  end.

Definition garbage_word (live_bitmap mark_bitmap : SpaceBitmap) (i : Z) : option Z :=
  live ← load live_bitmap i;
  mark ← load mark_bitmap i;
  Some (live .& uN W (.~ mark)).

(** The words from [i] on; the result is the unflushed buffer and the calls of the callback. *)
Fixpoint sweep_words (n : nat) (live_bitmap mark_bitmap : SpaceBitmap) (buffer_size i : Z) (pointer_buf : list Z) :
    option (list Z * list (list Z)) :=
  match n with
  | O => Some (pointer_buf, [])
  | S n =>
      garbage ← garbage_word live_bitmap mark_bitmap i;
      if negb (garbage =? 0) then
        pointer_buf ← sweep_word (Z.to_nat W) live_bitmap buffer_size i garbage pointer_buf;
        if buffer_size - W <=? Z.of_nat (length pointer_buf) then
          '(rest, calls) ← sweep_words n live_bitmap mark_bitmap buffer_size (i + 1) [];
          Some (rest, pointer_buf :: calls)
        else sweep_words n live_bitmap mark_bitmap buffer_size (i + 1) pointer_buf
      else sweep_words n live_bitmap mark_bitmap buffer_size (i + 1) pointer_buf
  end.

Fixpoint count_garbage (n : nat) (live_bitmap mark_bitmap : SpaceBitmap) (i : Z) : option Z :=
  match n with
  | O => Some 0
  | S n =>
      garbage ← garbage_word live_bitmap mark_bitmap i;
      rest ← count_garbage n live_bitmap mark_bitmap (i + 1);
      Some (POPCOUNT garbage + rest)
  end.

(** The batches of garbage the callback is called with. *)
Definition SweepWalk (memory_tool : bool) (live_bitmap mark_bitmap : SpaceBitmap) (sweep_begin sweep_end : Z) : option (list (list Z)) :=
  if negb ((heap_begin_ live_bitmap =? heap_begin_ mark_bitmap) && (bitmap_size_ live_bitmap =? bitmap_size_ mark_bitmap) &&
           (sweep_begin <=? sweep_end) && (heap_begin_ live_bitmap <=? sweep_begin)) then None
  else if sweep_end <=? sweep_begin then Some []
  else
    let start := OffsetToIndex (offset_of live_bitmap sweep_begin) in
    let end_ := OffsetToIndex (uN W (sweep_end - heap_begin_ live_bitmap - 1)) in
    if negb (end_ <? bitmap_size_ live_bitmap / sizeof_intptr) then None
    else
      let n := Z.to_nat (end_ - start + 1) in
      extra ← (if memory_tool then count_garbage n live_bitmap mark_bitmap start else Some 0);
      let buffer_size := sizeof_intptr * W + extra in
      '(rest, calls) ← sweep_words n live_bitmap mark_bitmap buffer_size start [];
      Some (if (0 <? length rest)%nat then calls ++ [rest] else calls).

(** *** Whole bitmaps *)

Definition ComputeBitmapSize (capacity : Z) : Z :=
  let kBytesCoveredPerWord := kAlignment * W in
  uN W (RoundUp 64 capacity kBytesCoveredPerWord / kBytesCoveredPerWord * sizeof_intptr).
Definition ComputeHeapSize (bitmap_bytes : Z) : Z := uN W (bitmap_bytes * kBitsPerByte * kAlignment).

(** A bitmap on mapped memory [words]; CHECK_NE(bitmap_size, 0). *)
Definition CreateFromMemMap (words : list Z) (heap_begin heap_capacity : Z) : option SpaceBitmap :=
  let bitmap_size := ComputeBitmapSize heap_capacity in
  if bitmap_size =? 0 then None else Some (Bitmap words bitmap_size heap_begin (uN W (heap_begin + heap_capacity))).

(** Mapping the memory gives zeros or fails; then the bitmap is the default one, that is not valid. *)
Definition Create (mapped : bool) (heap_begin heap_capacity : Z) : option SpaceBitmap :=
  if negb mapped then Some (Bitmap [] 0 0 0)
  else CreateFromMemMap (replicate (Z.to_nat (ComputeBitmapSize heap_capacity / sizeof_intptr)) 0) heap_begin heap_capacity.

Definition HeapSize (bm : SpaceBitmap) : Z := uN 64 (bitmap_size_ bm / sizeof_intptr * kAlignment * W).

Definition SetHeapSize (bm : SpaceBitmap) (bytes : Z) : option SpaceBitmap :=
  let bm := Bitmap (bitmap_begin_ bm) (OffsetToIndex bytes * sizeof_intptr) (heap_begin_ bm) (uN W (heap_begin_ bm + bytes)) in
  if HeapSize bm =? bytes then Some bm else None.

Definition SetHeapLimit (bm : SpaceBitmap) (new_end : Z) : SpaceBitmap :=
  let new_size := OffsetToIndex (offset_of bm new_end) * sizeof_intptr in
  Bitmap (bitmap_begin_ bm) (if new_size <? bitmap_size_ bm then new_size else bitmap_size_ bm) (heap_begin_ bm) new_end.

Definition ClearAll (bm : SpaceBitmap) : SpaceBitmap :=
  Bitmap (replicate (length (bitmap_begin_ bm)) 0) (bitmap_size_ bm) (heap_begin_ bm) (heap_limit_ bm).

(** ZeroAndReleasePages on the words from [start_index] to [end_index]. *)
Definition zero_words (bm : SpaceBitmap) (start_index end_index : Z) : SpaceBitmap :=
  Bitmap (imap (fun i w => if (start_index <=? Z.of_nat i) && (Z.of_nat i <? end_index) then 0 else w) (bitmap_begin_ bm))
    (bitmap_size_ bm) (heap_begin_ bm) (heap_limit_ bm).

Fixpoint clear_begin (fuel : nat) (bm : SpaceBitmap) (begin_offset end_offset : Z) : option (SpaceBitmap * Z) :=
  match fuel with
  | O => None
  | S fuel =>
      if (begin_offset <? end_offset) && negb (OffsetBitIndex begin_offset =? 0) then
        '(_, bm) ← Clear bm (uN W (heap_begin_ bm + begin_offset));
        clear_begin fuel bm (begin_offset + kAlignment) end_offset
      else Some (bm, begin_offset)
  end.

Fixpoint clear_end (fuel : nat) (bm : SpaceBitmap) (begin_offset end_offset : Z) : option (SpaceBitmap * Z) :=
  match fuel with
  | O => None
  | S fuel =>
      if (begin_offset <? end_offset) && negb (OffsetBitIndex end_offset =? 0) then
        let end_offset := end_offset - kAlignment in
        '(_, bm) ← Clear bm (uN W (heap_begin_ bm + end_offset));
        clear_end fuel bm begin_offset end_offset
      else Some (bm, end_offset)
  end.

(** The loops run at most [W] times: [W + 1] iterations are enough. *)
Definition ClearRange (bm : SpaceBitmap) (begin end_ : Z) : option SpaceBitmap :=
  let begin_offset := offset_of bm begin in
  let end_offset := offset_of bm end_ in
  '(bm, begin_offset) ← clear_begin (Z.to_nat (W + 1)) bm begin_offset end_offset;
  '(bm, end_offset) ← clear_end (Z.to_nat (W + 1)) bm begin_offset end_offset;
  Some (zero_words bm (OffsetToIndex begin_offset) (OffsetToIndex end_offset)).

Definition CopyFrom (bm source_bitmap : SpaceBitmap) : SpaceBitmap :=
  let count := Z.to_nat (bitmap_size_ source_bitmap / sizeof_intptr) in
  Bitmap (take count (bitmap_begin_ source_bitmap) ++ drop count (bitmap_begin_ bm)) (bitmap_size_ bm) (heap_begin_ bm) (heap_limit_ bm).
End bitmap.

(** ** The bits of a bitmap *)

Section bits.
Context (W kAlignment : Z).
Context (HW : W = 32 \/ W = 64) (HA : 0 < kAlignment).

#[local] Set Default Proof Using "HW HA".

(** Bit [k] of the bitmap stands for the object at [heap_begin_ + k * kAlignment]. *)
Definition mbit (bm : SpaceBitmap) (k : Z) : bool :=
  match bitmap_begin_ bm !! Z.to_nat (k / W) with
  | Some w => Z.testbit w (k mod W)
  | None => false
  end.

Definition object (bm : SpaceBitmap) (k : Z) : Z := heap_begin_ bm + k * kAlignment.

(** The number of bits of the storage. *)
Definition bits (bm : SpaceBitmap) : Z := W * Z.of_nat (length (bitmap_begin_ bm)).

Record bitmap_ok (bm : SpaceBitmap) : Prop := {
  ok_words : Forall (is_u W) (bitmap_begin_ bm);
  ok_begin : 0 <= heap_begin_ bm;
  ok_addresses : heap_begin_ bm + bits bm * kAlignment < 2 ^ W }.

Lemma load_word bm i : 0 <= i < Z.of_nat (length (bitmap_begin_ bm)) -> bitmap_ok bm ->
  exists w, load bm i = Some w /\ is_u W w /\ forall j, 0 <= j < W -> Z.testbit w j = mbit bm (i * W + j).
Proof.
  intros Hi Hb. destruct (lookup_lt_is_Some_2 (bitmap_begin_ bm) (Z.to_nat i)) as [w Ew]; [lia|]. exists w. split_and!; [done| |].
  - pose proof (ok_words bm Hb) as Hw. rewrite Forall_lookup in Hw. by eapply Hw.
  - intros j Hj. unfold mbit. rewrite Z.div_add_l, Z.div_small, Z.add_0_r, Ew by lia.
    rewrite Z.add_comm, Z.mod_add, Z.mod_small by lia. done.
Qed.

Lemma bit_position k bm : 0 <= k < bits bm -> 0 <= k / W < Z.of_nat (length (bitmap_begin_ bm)) /\ 0 <= k mod W < W /\ k = k / W * W + k mod W.
Proof.
  intros Hk. unfold bits in Hk. pose proof (Z.mod_pos_bound k W ltac:(lia)). pose proof (Z.div_mod k W ltac:(lia)).
  split_and!; lia.
Qed.

Lemma offset_of_object bm addr : bitmap_ok bm -> 0 <= addr - heap_begin_ bm < bits bm * kAlignment -> offset_of W bm addr = addr - heap_begin_ bm.
Proof. intros Hb Ha. unfold offset_of. apply uN_small. pose proof (ok_addresses bm Hb). pose proof (ok_begin bm Hb). unfold is_u. lia. Qed.

(** The bit that stands for an address. *)
Definition position (bm : SpaceBitmap) (addr : Z) : Z := (addr - heap_begin_ bm) / kAlignment.

Lemma position_range bm addr : 0 <= addr - heap_begin_ bm < bits bm * kAlignment -> 0 <= position bm addr < bits bm.
Proof.
  intros Ha. unfold position. split; [apply Z.div_pos; lia|]. apply Z.div_lt_upper_bound; lia.
Qed.

Lemma position_object bm k : position bm (object bm k) = k.
Proof. unfold position, object. replace (heap_begin_ bm + k * kAlignment - heap_begin_ bm) with (k * kAlignment) by lia. apply Z.div_mul. lia. Qed.

Lemma object_at_val bm index j : bitmap_ok bm -> 0 <= index < Z.of_nat (length (bitmap_begin_ bm)) -> 0 <= j < W ->
  object_at W kAlignment bm index j = object bm (index * W + j).
Proof.
  intros Hb Hi Hj. unfold object_at, object, IndexToOffset. pose proof (ok_addresses bm Hb) as Ha. pose proof (ok_begin bm Hb). unfold bits in Ha.
  assert (index * W + j + 1 <= W * Z.of_nat (length (bitmap_begin_ bm))) as Hle by (destruct HW as [->| ->]; lia).
  apply (Z.mul_le_mono_nonneg_r _ _ kAlignment) in Hle; [|lia].
  assert (0 <= index * kAlignment * W) by (apply Z.mul_nonneg_nonneg; [apply Z.mul_nonneg_nonneg|]; lia).
  assert (0 <= j * kAlignment) by (apply Z.mul_nonneg_nonneg; lia).
  assert (index * W * kAlignment = index * kAlignment * W) as E by lia.
  rewrite (uN_small W (index * kAlignment * W)) by (unfold is_u; lia). rewrite (uN_small W (index * kAlignment * W + _)) by (unfold is_u; lia).
  rewrite uN_small by (unfold is_u; lia). lia.
Qed.

Lemma mask_bit v k : 0 <= k -> negb (v .& (1 ≪ k) =? 0) = Z.testbit v k.
Proof using Type.
  intros Hk. destruct (Z.testbit v k) eqn:E; destruct (Z.eqb_spec (v .& (1 ≪ k)) 0) as [E'|E']; try done; exfalso.
  - apply (f_equal (fun z => Z.testbit z k)) in E'. rewrite Z.land_spec, E, Z.testbit_0_l, Z.shiftl_spec, Z.sub_diag in E' by lia. done.
  - apply E'. apply Z.bits_inj'. intros i Hi. rewrite Z.land_spec, Z.testbit_0_l, Z.shiftl_1_l. destruct (decide (i = k)) as [->|Hne]; [by rewrite E|].
    rewrite Z.pow2_bits_false by done. apply andb_false_r.
Qed.

Lemma mask_val k : 0 <= k < W -> uN W (1 ≪ k) = 1 ≪ k.
Proof. intros Hk. apply uN_small. rewrite Z.shiftl_1_l. split; [apply Z.pow_nonneg; lia|apply pow2_lt; lia]. Qed.

Lemma Test_spec bm addr : bitmap_ok bm -> 0 <= addr - heap_begin_ bm < bits bm * kAlignment ->
  Test W kAlignment bm addr = Some (mbit bm (position bm addr)).
Proof.
  intros Hb Ha. unfold Test. rewrite offset_of_object by done. unfold OffsetToIndex, OffsetToMask, OffsetBitIndex. fold (position bm addr).
  destruct (bit_position (position bm addr) bm) as (H1 & H2 & H3); [by apply position_range|].
  destruct (load_word bm (position bm addr / W)) as (w & -> & Hw & Hbit); [done|done|]. cbn [mbind option_bind].
  rewrite mask_val, mask_bit, Hbit by lia. by rewrite <- H3.
Qed.

(** ** The loops over the set bits of a word *)

Definition set_bits (w lo n : Z) : list Z := filter (fun i => Z.testbit w i = true) (seqZ lo n).

Lemma set_bits_nil w lo n : 0 <= lo -> (forall i, lo <= i < lo + n -> Z.testbit w i = false) -> set_bits w lo n = [].
Proof using Type. intros Hlo Hz. apply filter_none. intros i Hi. apply elem_of_seqZ in Hi. rewrite Hz by lia. done. Qed.

Lemma set_bits_cons w lo n : 0 < n -> set_bits w lo n = if Z.testbit w lo then lo :: set_bits w (lo + 1) (n - 1) else set_bits w (lo + 1) (n - 1).
Proof using Type.
  intros Hn. unfold set_bits. rewrite seqZ_cons by done. rewrite filter_cons. unfold Z.succ, Z.pred.
  destruct (Z.testbit w lo); [by rewrite decide_True|by rewrite decide_False].
Qed.

Lemma set_bits_ext w w' lo n : (forall i, lo <= i < lo + n -> Z.testbit w i = Z.testbit w' i) -> set_bits w lo n = set_bits w' lo n.
Proof using Type. intros He. apply filter_ext_in. intros i Hi. apply elem_of_seqZ in Hi. by rewrite He by lia. Qed.

Lemma clear_lowest w lo : is_u W w -> 0 <= lo < W -> is_u W (w .^ uN W (1 ≪ lo)) /\
  forall i, 0 <= i -> Z.testbit (w .^ uN W (1 ≪ lo)) i = xorb (Z.testbit w i) (i =? lo).
Proof.
  intros Hw Hlo. rewrite mask_val by done.
  assert (forall i, 0 <= i -> Z.testbit (w .^ (1 ≪ lo)) i = xorb (Z.testbit w i) (i =? lo)) as Hb.
  { intros i Hi. rewrite Z.lxor_spec, Z.shiftl_1_l, Z.pow2_bits_eqb by lia. f_equal. by rewrite Z.eqb_sym. }
  split; [|done]. apply is_u_bits; [lia| |].
  - apply Z.lxor_nonneg. rewrite Z.shiftl_1_l. pose proof (pow2_pos lo). unfold is_u in Hw. lia.
  - intros i Hi. rewrite Hb, (testbit_high W) by (done || lia). case_ltb; [lia|done].
Qed.

(** Removing the lowest set bit again and again enumerates the set bits. *)
Lemma enumerate_step w lo : is_u W w -> 0 <= lo < W -> (forall i, 0 <= i < lo -> Z.testbit w i = false) ->
  (Z.testbit w lo = true -> w <> 0 /\ CTZ w = lo /\ is_u W (w .^ uN W (1 ≪ lo)) /\
     (forall i, 0 <= i < lo + 1 -> Z.testbit (w .^ uN W (1 ≪ lo)) i = false) /\
     set_bits (w .^ uN W (1 ≪ lo)) (lo + 1) (W - (lo + 1)) = set_bits w (lo + 1) (W - (lo + 1))) /\
  (Z.testbit w lo = false -> forall i, 0 <= i < lo + 1 -> Z.testbit w i = false).
Proof.
  intros Hw Hlo Hz. split.
  - intros Hb. assert (w <> 0) as Hne by (intros ->; by rewrite Z.testbit_0_l in Hb). destruct (clear_lowest w lo Hw Hlo) as [Hu Hx].
    split_and!; [done|apply CTZ_unique; [unfold is_u in Hw; lia|lia|done|done]|done| |].
    + intros i Hi. rewrite Hx by lia. destruct (Z.eqb_spec i lo) as [->|]; [by rewrite Hb|]. rewrite Hz by lia. done.
    + apply set_bits_ext. intros i Hi. rewrite Hx by lia. case_ltb; [lia|]. apply xorb_false_r.
  - intros Hb i Hi. destruct (decide (i = lo)) as [->|]; [done|]. apply Hz. lia.
Qed.

Lemma visit_word_bits n fuel bm index w :
  is_u W w -> Z.of_nat n <= W -> (forall i, 0 <= i < W - Z.of_nat n -> Z.testbit w i = false) -> (n <= fuel)%nat ->
  visit_word W kAlignment fuel false bm index w = (map (object_at W kAlignment bm index) (set_bits w (W - Z.of_nat n) (Z.of_nat n)), false).
Proof.
  revert fuel w. induction n as [|n IH]; intros fuel w Hw Hn Hz Hf.
  - assert (w = 0) as -> by (apply Z.bits_inj'; intros i Hi; rewrite Z.testbit_0_l; destruct (decide (i < W)); [apply Hz; lia|apply (testbit_high W); [done|lia]]).
    by destruct fuel.
  - destruct (enumerate_step w (W - Z.of_nat (S n)) Hw ltac:(lia) Hz) as [H1 H2]. rewrite set_bits_cons by lia.
    replace (W - Z.of_nat (S n) + 1) with (W - Z.of_nat n) in * by lia. replace (Z.of_nat (S n) - 1) with (Z.of_nat n) by lia.
    destruct (Z.testbit w (W - Z.of_nat (S n))) eqn:Eb.
    + destruct (H1 eq_refl) as (Hne & Hc & Hu & Hz' & Hs). destruct fuel as [|fuel]; [lia|]. cbn [visit_word].
      rewrite (proj2 (Z.eqb_neq _ _) Hne), Hc, (IH fuel) by (done || lia). replace (W - (W - Z.of_nat n)) with (Z.of_nat n) in Hs by lia.
      by rewrite Hs.
    + rewrite <- (IH fuel w); auto with lia.
Qed.

(** ** Visiting *)

(** The marked objects among the bits [k], ..., [k + n - 1]. *)
Definition marked (bm : SpaceBitmap) (k n : Z) : list Z := map (object bm) (filter (fun i => mbit bm i = true) (seqZ k n)).

Lemma marked_app bm k n m : 0 <= n -> 0 <= m -> marked bm k (n + m) = marked bm k n ++ marked bm (k + n) m.
Proof using Type. intros Hn Hm. unfold marked. by rewrite seqZ_app, filter_app, map_app by done. Qed.

(** The bits [lo], ..., [hi - 1] of a word. *)
Lemma word_segment bm i v lo hi :
  bitmap_ok bm -> 0 <= i < Z.of_nat (length (bitmap_begin_ bm)) -> 0 <= lo <= hi -> hi <= W -> is_u W v ->
  (forall j, 0 <= j < W -> Z.testbit v j = mbit bm (i * W + j) && ((lo <=? j) && (j <? hi))) ->
  visit_word W kAlignment (Z.to_nat W) false bm i v = (marked bm (i * W + lo) (hi - lo), false).
Proof.
  intros Hb Hi Hlo Hhi Hu Hv. rewrite (visit_word_bits (Z.to_nat W)) by (done || lia).
  f_equal. rewrite Z2Nat.id, Z.sub_diag by lia. unfold marked, set_bits.
  replace W with (lo + ((hi - lo) + (W - hi))) at 2 by lia. rewrite seqZ_app, (seqZ_app _ (hi - lo)), !filter_app by lia.
  rewrite (filter_none _ (seqZ 0 lo)), (filter_none _ (seqZ (0 + lo + (hi - lo)) _)).
  2, 3: intros j Hj; apply elem_of_seqZ in Hj; rewrite Hv by lia; rewrite andb_true_iff; intros [_ Hr]; repeat case_ltb; lia || done.
  cbn [app]. rewrite app_nil_r, Z.add_0_l.
  rewrite (filter_ext_in _ (fun j => mbit bm (i * W + j) = true)).
  2: { intros j Hj. apply elem_of_seqZ in Hj. rewrite Hv by lia. repeat case_ltb; try lia. by rewrite !andb_true_r. }
  rewrite <- (fmap_add_seqZ (i * W) lo (hi - lo)), filter_map, map_map.
  apply map_ext_in. intros j Hj. apply list_elem_of_In, list_elem_of_filter in Hj as [_ Hj]. apply elem_of_seqZ in Hj.
  by apply object_at_val; try lia.
Qed.

Lemma visit_words_marked n bm i : bitmap_ok bm -> 0 <= i -> i + Z.of_nat n <= Z.of_nat (length (bitmap_begin_ bm)) ->
  visit_words W kAlignment n false bm i = Some (marked bm (i * W) (Z.of_nat n * W), false).
Proof.
  intros Hb. revert i. induction n as [|n IH]; intros i Hi Hn; [done|]. cbn [visit_words].
  destruct (load_word bm i) as (w & -> & Hw & Hbit); [lia|done|]. cbn [mbind option_bind].
  rewrite (word_segment bm i w 0 W) by (try done; try lia; intros j Hj; rewrite Hbit by done; repeat case_ltb; try lia; by rewrite andb_true_r).
  rewrite IH by lia. cbn [mbind option_bind]. rewrite Z.add_0_r, Z.sub_0_r.
  replace (Z.of_nat (S n) * W) with (W + Z.of_nat n * W) by lia. rewrite (marked_app bm) by lia. do 3 f_equal. f_equal. lia.
Qed.

Lemma edge_masks v k j : is_u W v -> 0 <= k < W -> 0 <= j < W ->
  Z.testbit (v .& uN W (.~ (uN W (1 ≪ k) - 1))) j = Z.testbit v j && (k <=? j) /\
  Z.testbit (v .& (uN W (1 ≪ k) - 1)) j = Z.testbit v j && (j <? k).
Proof.
  intros Hv Hk Hj. rewrite mask_val, Z.shiftl_1_l by done. replace (2 ^ k - 1) with (Z.ones k) by (rewrite Z.ones_equiv; lia).
  split; bits_core.
Qed.

Lemma offset_of_bit bm k : bitmap_ok bm -> 0 <= k <= bits bm ->
  offset_of W bm (object bm k) / kAlignment = k /\ offset_of W bm (object bm k) = k * kAlignment.
Proof.
  intros Hb Hk. unfold offset_of, object. replace (heap_begin_ bm + k * kAlignment - heap_begin_ bm) with (k * kAlignment) by lia.
  pose proof (ok_addresses bm Hb). pose proof (ok_begin bm Hb).
  assert (k * kAlignment <= bits bm * kAlignment) by (apply Z.mul_le_mono_nonneg_r; lia).
  rewrite uN_small by (unfold is_u; split; [apply Z.mul_nonneg_nonneg|]; lia). split; [|done]. apply Z.div_mul. lia.
Qed.

Lemma VisitMarkedRange_marked bm kb ke :
  bitmap_ok bm -> 0 <= kb < bits bm -> kb <= ke <= bits bm ->
  VisitMarkedRange W kAlignment false bm (object bm kb) (object bm ke) = Some (marked bm kb (ke - kb)).
Proof.
  intros Hb Hkb Hke. unfold VisitMarkedRange, OffsetToIndex.
  destruct (offset_of_bit bm kb Hb ltac:(lia)) as [-> _]. destruct (offset_of_bit bm ke Hb ltac:(lia)) as [-> _].
  destruct (bit_position kb bm Hkb) as (Hi & Hj & Ekb). set (i := kb / W) in *. set (j := kb mod W) in *.
  pose proof (Z.mod_pos_bound ke W ltac:(lia)) as Hj'. pose proof (Z.div_mod ke W ltac:(lia)) as Eke.
  set (i' := ke / W) in *. set (j' := ke mod W) in *. unfold bits in *.
  assert (i' <= Z.of_nat (length (bitmap_begin_ bm))) as Hi' by (destruct HW as [-> | ->]; lia).
  destruct (load_word bm i) as (w & -> & Hw & Hbit); [lia|done|]. cbn [mbind option_bind].
  assert (is_u W (w .& uN W (.~ (uN W (1 ≪ j) - 1)))) as Hul by (apply land_is_u; [lia|done]).
  destruct (Z.ltb_spec i i') as [Hlt|Hge].
  - rewrite (word_segment bm i _ j W) by (try done; try lia; intros k Hk; rewrite (proj1 (edge_masks w j k Hw Hj Hk)), Hbit by done; repeat case_ltb; try lia; bit_simpl; done).
    rewrite visit_words_marked by (done || lia). cbn [mbind option_bind].
    assert (exists r, (if j' =? 0 then Some 0 else load bm i') = Some r /\ is_u W r /\
      visit_word W kAlignment (Z.to_nat W) false bm i' (r .& (uN W (1 ≪ j') - 1)) = (marked bm (i' * W) j', false)) as (r & -> & _ & Hr).
    { destruct (Z.eqb_spec j' 0) as [->|Hne].
      - exists 0. split_and!; [done|split; [done|apply pow2_pos; lia]|]. rewrite Z.land_0_l. unfold marked. rewrite seqZ_nil by lia.
        by destruct (Z.to_nat W).
      - assert (i' < Z.of_nat (length (bitmap_begin_ bm))) by (destruct HW as [-> | ->]; lia).
        destruct (load_word bm i') as (w' & -> & Hw' & Hbit'); [lia|done|]. exists w'. split_and!; [done..|].
        rewrite (word_segment bm i' _ 0 j'); [by rewrite Z.add_0_r, Z.sub_0_r|done|lia|lia|lia|by apply land_is_u; [lia|]|].
        intros k Hk. rewrite (proj2 (edge_masks w' j' k Hw' Hj' Hk)), Hbit' by done. repeat case_ltb; try lia; bit_simpl; done. }
    cbn [mbind option_bind]. rewrite Hr. cbn [fst]. f_equal.
    replace (ke - kb) with ((W - j) + ((i' - (i + 1)) * W + j')) by lia.
    rewrite !marked_app by lia. rewrite <- app_assoc, <- Ekb, Z2Nat.id by lia.
    replace (kb + (W - j)) with ((i + 1) * W) by lia. by replace ((i + 1) * W + (i' - (i + 1)) * W) with (i' * W) by lia.
  - cbn [mbind option_bind app]. assert (i = i') as <- by (destruct HW as [-> | ->]; lia). f_equal.
    rewrite (word_segment bm i _ j j'); [cbn [fst]; f_equal; lia|done|lia|lia|lia|by apply land_is_u; [lia|]|].
    intros k Hk. rewrite (proj2 (edge_masks _ j' k Hul Hj' Hk)), (proj1 (edge_masks w j k Hw Hj Hk)), Hbit by done.
    by rewrite andb_assoc.
Qed.

(** Visiting once gives the first object that visiting all gives. *)
Lemma visit_word_once fuel bm i w :
  visit_word W kAlignment fuel true bm i w =
  let l := (visit_word W kAlignment fuel false bm i w).1 in (take 1 l, negb (length l =? 0)%nat).
Proof using Type.
  destruct fuel as [|fuel]; [done|]. cbn [visit_word]. destruct (w =? 0); [done|].
  destruct (visit_word W kAlignment fuel false bm i _) as [objs returned]. done.
Qed.

Lemma visit_word_all fuel bm i w : (visit_word W kAlignment fuel false bm i w).2 = false.
Proof using Type.
  revert w. induction fuel as [|fuel IH]; intros w; [done|]. cbn [visit_word]. destruct (w =? 0); [done|].
  specialize (IH (w .^ uN W (1 ≪ CTZ w))). by destruct (visit_word W kAlignment fuel false bm i _).
Qed.

Lemma take_1_app (l l' : list Z) : take 1 (l ++ l') = if (length l =? 0)%nat then take 1 l' else take 1 l.
Proof using Type. by destruct l. Qed.

Lemma length_zero_app (l l' : list Z) : (length (l ++ l') =? 0)%nat = (length l =? 0)%nat && (length l' =? 0)%nat.
Proof using Type. by destruct l. Qed.

Lemma visit_words_once n bm i l r : visit_words W kAlignment n false bm i = Some (l, r) ->
  r = false /\ visit_words W kAlignment n true bm i = Some (take 1 l, negb (length l =? 0)%nat).
Proof using Type.
  revert i l r. induction n as [|n IH]; intros i l r E; cbn [visit_words] in *; [by injection E as <- <-|].
  destruct (load bm i) as [w|]; [|done]. cbn [mbind option_bind] in *. rewrite visit_word_once.
  pose proof (visit_word_all (Z.to_nat W) bm i w) as Ha. destruct (visit_word W kAlignment (Z.to_nat W) false bm i w) as [objs b]. cbn [fst snd] in *. subst b.
  destruct (visit_words W kAlignment n false bm (i + 1)) as [[rest b]|] eqn:En; [|done]. cbn [mbind option_bind] in E. injection E as <- <-.
  destruct (IH _ _ _ En) as [-> ->]. split; [done|]. cbv zeta. rewrite take_1_app, length_zero_app.
  destruct objs as [|o objs]; [|done]. cbn. by destruct rest.
Qed.

Lemma VisitMarkedRange_once bm vb ve l :
  VisitMarkedRange W kAlignment false bm vb ve = Some l -> VisitMarkedRange W kAlignment true bm vb ve = Some (take 1 l).
Proof using Type.
  unfold VisitMarkedRange. cbv zeta. destruct (load bm (OffsetToIndex W kAlignment (offset_of W bm vb))) as [left|]; [|done]. cbn [mbind option_bind].
  set (le := left .& _). rewrite !visit_word_once. cbv zeta.
  destruct (_ <? _).
  - pose proof (visit_word_all (Z.to_nat W) bm (OffsetToIndex W kAlignment (offset_of W bm vb)) le) as Ha.
    destruct (visit_word W kAlignment (Z.to_nat W) false bm (OffsetToIndex W kAlignment (offset_of W bm vb)) le) as [objs b]. cbn [fst snd] in *. subst b.
    destruct (visit_words W kAlignment _ false bm _) as [[mid b]|] eqn:Em; [|done]. cbn [mbind option_bind].
    destruct (visit_words_once _ _ _ _ _ Em) as [-> ->].
    destruct (if _ =? 0 then Some 0 else load bm _) as [re|]; [|done]. cbn [mbind option_bind]. intros E. injection E as <-.
    rewrite !take_1_app, length_zero_app. destruct objs as [|o objs]; [|done]. cbn [length Nat.eqb negb andb app mbind option_bind].
    destruct mid as [|m mid]; [|done]. cbn [length Nat.eqb negb app mbind option_bind take].
    rewrite visit_word_once. done.
  - cbn [mbind option_bind app]. intros E. injection E as <-. rewrite visit_word_once. done.
Qed.

(** The loop that the code keeps as the specification of VisitMarkedRange. *)
Lemma VisitRange_objects bm kb n : 0 <= n -> VisitRange kAlignment (object bm kb) (object bm (kb + n)) = map (object bm) (seqZ kb n).
Proof.
  intros Hn. unfold VisitRange, object.
  assert (forall fuel k, 0 <= k -> k < Z.of_nat fuel -> forall b, visit_range kAlignment fuel b (b + k * kAlignment) = map (fun j => b + j * kAlignment) (seqZ 0 k)) as H.
  { induction fuel as [|fuel IH]; intros k Hk Hf b; [lia|]. cbn [visit_range]. destruct (decide (k = 0)) as [->|Hne].
    - rewrite Z.mul_0_l, Z.add_0_r, Z.ltb_irrefl. done.
    - rewrite (proj2 (Z.ltb_lt _ _)) by (assert (0 < k * kAlignment) by (apply Z.mul_pos_pos; lia); lia). rewrite seqZ_cons by lia. cbn [map].
      replace (b + k * kAlignment) with (b + kAlignment + (k - 1) * kAlignment) by lia. rewrite IH by lia.
      f_equal; [lia|]. change (Z.succ 0) with (1 + 0). unfold Z.pred. replace (k + -1) with (k - 1) by lia.
      rewrite <- (fmap_add_seqZ 1 0 (k - 1)), map_map. apply map_ext. intros j. lia. }
  replace (heap_begin_ bm + (kb + n) * kAlignment) with (heap_begin_ bm + kb * kAlignment + n * kAlignment) by lia. rewrite H.
  - assert (seqZ kb n = map (Z.add kb) (seqZ 0 n)) as -> by (pose proof (fmap_add_seqZ kb 0 n) as E; by rewrite Z.add_0_r in E).
    rewrite map_map. apply map_ext. intros j. lia.
  - done.
  - replace (heap_begin_ bm + kb * kAlignment + n * kAlignment - (heap_begin_ bm + kb * kAlignment)) with (n * kAlignment) by lia.
    rewrite Z.div_mul by lia. lia.
Qed.

Lemma reference_marked bm kb n : bitmap_ok bm -> 0 <= kb -> 0 <= n -> kb + n <= bits bm ->
  filter (fun obj => Test W kAlignment bm obj = Some true) (VisitRange kAlignment (object bm kb) (object bm (kb + n))) = marked bm kb n.
Proof.
  intros Hb Hk Hn Hle. rewrite VisitRange_objects, filter_map by done. unfold marked. f_equal. apply filter_ext_in.
  intros j Hj. apply elem_of_seqZ in Hj. rewrite Test_spec, position_object; [split; congruence|done|].
  unfold object. replace (heap_begin_ bm + j * kAlignment - heap_begin_ bm) with (j * kAlignment) by lia.
  split; [apply Z.mul_nonneg_nonneg; lia|apply Z.mul_lt_mono_pos_r; lia].
Qed.

Lemma Walk_marked bm : bitmap_ok bm -> heap_begin_ bm < heap_limit_ bm <= heap_begin_ bm + bits bm * kAlignment ->
  exists n, Walk W kAlignment bm = Some (marked bm 0 (n * W)) /\ 0 <= n /\ (n - 1) * W * kAlignment < heap_limit_ bm - heap_begin_ bm <= n * W * kAlignment.
Proof.
  intros Hb Hl. unfold Walk, OffsetToIndex. pose proof (ok_addresses bm Hb). pose proof (ok_begin bm Hb).
  set (o := heap_limit_ bm - heap_begin_ bm - 1). assert (0 <= o < bits bm * kAlignment) as Ho by lia.
  rewrite uN_small by (unfold is_u; lia). rewrite Z.div_div by lia. set (e := o / (kAlignment * W)).
  assert (0 < kAlignment * W) as Hp by (apply Z.mul_pos_pos; lia).
  pose proof (Z.div_mod o (kAlignment * W) ltac:(lia)) as Hd. pose proof (Z.mod_pos_bound o (kAlignment * W) Hp). fold e in Hd.
  assert (0 <= e) by (apply Z.div_pos; lia).
  assert (e < Z.of_nat (length (bitmap_begin_ bm))).
  { apply Z.div_lt_upper_bound; [done|]. unfold bits in Ho. lia. }
  exists (e + 1). rewrite visit_words_marked by (done || lia). cbn [mbind option_bind]. rewrite Z2Nat.id, Z.mul_0_l by lia. split_and!; [done|lia..].
Qed.

(** ** Sweeping *)

Definition garbage (live mark : SpaceBitmap) (k n : Z) : list Z :=
  map (object live) (filter (fun i => mbit live i && negb (mbit mark i) = true) (seqZ k n)).

Lemma garbage_app live mark k n m : 0 <= n -> 0 <= m -> garbage live mark k (n + m) = garbage live mark k n ++ garbage live mark (k + n) m.
Proof using Type. intros Hn Hm. unfold garbage. by rewrite seqZ_app, filter_app, map_app by done. Qed.

Lemma sweep_word_visit fuel bm size i g buf :
  let l := (visit_word W kAlignment fuel false bm i g).1 in
  Z.of_nat (length buf) + Z.of_nat (length l) <= size -> sweep_word W kAlignment fuel bm size i g buf = Some (buf ++ l).
Proof using Type.
  revert g buf. induction fuel as [|fuel IH]; intros g buf; cbn [visit_word sweep_word]; [intros _; by rewrite app_nil_r|].
  destruct (g =? 0); [intros _; by rewrite app_nil_r|]. specialize (IH (g .^ uN W (1 ≪ CTZ g)) (buf ++ [object_at W kAlignment bm i (CTZ g)])).
  destruct (visit_word W kAlignment fuel false bm i _) as [l b]. cbn [fst length] in *. intros Hl.
  rewrite (proj2 (Z.ltb_lt _ _)) by lia. rewrite IH by (rewrite length_app; cbn [length]; lia). by rewrite <- app_assoc.
Qed.

Lemma count_bits_filter f n : count_bits n f = Z.of_nat (length (filter (fun j => f j = true) (seqZ 0 (Z.of_nat n)))).
Proof using Type.
  induction n as [|n IH]; [done|]. replace (S n) with (n + 1)%nat by lia. rewrite count_bits_app, Nat2Z.inj_add, seqZ_app by lia.
  rewrite filter_app, length_app, Nat2Z.inj_add, <- IH. f_equal. cbn [count_bits]. rewrite !Z.add_0_r, Z.add_0_l.
  rewrite seqZ_cons, seqZ_nil by lia. rewrite filter_cons, filter_nil. destruct (f (Z.of_nat n)); [by rewrite decide_True|by rewrite decide_False].
Qed.

Lemma garbage_word_spec live mark i :
  bitmap_ok live -> bitmap_ok mark -> length (bitmap_begin_ mark) = length (bitmap_begin_ live) -> 0 <= i < Z.of_nat (length (bitmap_begin_ live)) ->
  exists g, garbage_word W live mark i = Some g /\ is_u W g /\ (visit_word W kAlignment (Z.to_nat W) false live i g).1 = garbage live mark (i * W) W /\
    POPCOUNT g = Z.of_nat (length (garbage live mark (i * W) W)).
Proof.
  intros Hl Hm HL Hi. unfold garbage_word. destruct (load_word live i) as (wl & -> & Hwl & Hbl); [lia|done|].
  destruct (load_word mark i) as (wm & -> & Hwm & Hbm); [lia|done|]. cbn [mbind option_bind]. set (g := wl .& uN W (.~ wm)).
  assert (is_u W g) as Hg by (apply land_is_u; [lia|done]).
  assert (forall j, 0 <= j < W -> Z.testbit g j = mbit live (i * W + j) && negb (mbit mark (i * W + j))) as Hbit.
  { intros j Hj. unfold g. rewrite Z.land_spec, uN_testbit, Z.lnot_spec, Hbl, Hbm by lia. case_ltb; [done|lia]. }
  assert (map (object_at W kAlignment live i) (set_bits g 0 W) = garbage live mark (i * W) W) as Eg.
  { unfold garbage, set_bits. replace (i * W) with (i * W + 0) by lia. rewrite <- (fmap_add_seqZ (i * W) 0 W), filter_map, map_map.
    rewrite (filter_ext_in (fun j => Z.testbit g j = true) (fun j => mbit live (i * W + j) && negb (mbit mark (i * W + j)) = true)).
    2: { intros j Hj. apply elem_of_seqZ in Hj. by rewrite Hbit by lia. }
    apply map_ext_in. intros j Hj. apply list_elem_of_In, list_elem_of_filter in Hj as [_ Hj]. apply elem_of_seqZ in Hj. apply object_at_val; [done|lia..]. }
  exists g. split_and!; [done|done| |].
  - rewrite (visit_word_bits (Z.to_nat W)) by (done || lia). cbn [fst]. by rewrite Z2Nat.id, Z.sub_diag by lia.
  - rewrite <- Eg, length_map. rewrite (POPCOUNT_count (Z.to_nat W)) by (by rewrite Z2Nat.id by lia).
    rewrite count_bits_filter, Z2Nat.id by lia. done.
Qed.

Lemma sweep_words_spec live mark size n i buf :
  bitmap_ok live -> bitmap_ok mark -> length (bitmap_begin_ mark) = length (bitmap_begin_ live) ->
  0 <= i -> i + Z.of_nat n <= Z.of_nat (length (bitmap_begin_ live)) -> Z.of_nat (length buf) < size - W ->
  exists rest calls, sweep_words W kAlignment n live mark size i buf = Some (rest, calls) /\
    concat calls ++ rest = buf ++ garbage live mark (i * W) (Z.of_nat n * W) /\
    Forall (fun b => b <> [] /\ Z.of_nat (length b) <= size) calls /\ Z.of_nat (length rest) < size - W /\
    (Z.of_nat (length buf) + Z.of_nat (length (garbage live mark (i * W) (Z.of_nat n * W))) < size - W -> calls = []).
Proof.
  intros Hl Hm HL. revert i buf. induction n as [|n IH]; intros i buf Hi Hn Hs; cbn [sweep_words].
  { exists buf, []. split_and!; [done| |constructor|done|done]. unfold garbage. by rewrite seqZ_nil, app_nil_r by lia. }
  destruct (garbage_word_spec live mark i Hl Hm HL ltac:(lia)) as (g & -> & Hg & Hv & _). cbn [mbind option_bind].
  replace (Z.of_nat (S n) * W) with (W + Z.of_nat n * W) by lia. rewrite garbage_app by lia.
  replace (i * W + W) with ((i + 1) * W) by lia.
  assert (Z.of_nat (length (garbage live mark (i * W) W)) <= W) as Hlen.
  { unfold garbage. rewrite length_map. pose proof (length_filter (fun i => mbit live i && negb (mbit mark i) = true) (seqZ (i * W) W)) as Hle.
    rewrite length_seqZ in Hle. lia. }
  destruct (Z.eqb_spec g 0) as [->|Hne]; cbn [negb].
  - assert (garbage live mark (i * W) W = []) as -> by (rewrite <- Hv; by destruct (Z.to_nat W)). cbn [app]. apply IH; lia.
  - rewrite sweep_word_visit by (rewrite Hv; lia). rewrite Hv. cbn [mbind option_bind]. rewrite length_app.
    set (gs := garbage live mark (i * W) W) in *. destruct (Z.leb_spec (size - W) (Z.of_nat (length buf + length gs))) as [Hfull|Hroom].
    + destruct (IH (i + 1) []) as (rest & calls & -> & E & Hf & Hr & _); [lia|lia|cbn [length]; lia|]. cbn [mbind option_bind].
      exists rest, ((buf ++ gs) :: calls). split_and!; [done| | |done|].
      * cbn [concat]. rewrite <- !app_assoc. by rewrite E.
      * constructor; [|done]. split; [|rewrite length_app; lia]. intros E0. apply app_eq_nil in E0 as [-> E0]. rewrite E0 in Hfull. cbn [length] in *. lia.
      * rewrite length_app. lia.
    + destruct (IH (i + 1) (buf ++ gs)) as (rest & calls & -> & E & Hf & Hr & Hc); [lia|lia|rewrite length_app; lia|].
      exists rest, calls. split_and!; [done|by rewrite E, <- app_assoc|done|done|]. rewrite !length_app in *. intros Ht. apply Hc. lia.
Qed.

Lemma count_garbage_spec live mark n i :
  bitmap_ok live -> bitmap_ok mark -> length (bitmap_begin_ mark) = length (bitmap_begin_ live) ->
  0 <= i -> i + Z.of_nat n <= Z.of_nat (length (bitmap_begin_ live)) ->
  count_garbage W n live mark i = Some (Z.of_nat (length (garbage live mark (i * W) (Z.of_nat n * W)))).
Proof.
  intros Hl Hm HL. revert i. induction n as [|n IH]; intros i Hi Hn; cbn [count_garbage].
  { unfold garbage. by rewrite seqZ_nil by lia. }
  destruct (garbage_word_spec live mark i Hl Hm HL ltac:(lia)) as (g & -> & _ & _ & Hp). cbn [mbind option_bind]. rewrite IH by lia. cbn [mbind option_bind].
  replace (Z.of_nat (S n) * W) with (W + Z.of_nat n * W) by lia. rewrite garbage_app by lia. rewrite Hp, length_app.
  replace (i * W + W) with ((i + 1) * W) by lia. f_equal. lia.
Qed.

(** The words that hold the bits of the addresses from [b] to [e]. *)
Lemma sweep_index bm b e : bitmap_ok bm -> heap_begin_ bm <= b < e -> e <= heap_begin_ bm + bits bm * kAlignment ->
  let start := OffsetToIndex W kAlignment (offset_of W bm b) in
  let end_ := OffsetToIndex W kAlignment (uN W (e - heap_begin_ bm - 1)) in
  0 <= start <= end_ /\ end_ < Z.of_nat (length (bitmap_begin_ bm)).
Proof.
  intros Hb Hr He. pose proof (ok_addresses bm Hb). pose proof (ok_begin bm Hb). cbv zeta. unfold OffsetToIndex.
  rewrite offset_of_object by (done || lia). rewrite uN_small by (unfold is_u; lia). rewrite !Z.div_div by lia.
  assert (0 < kAlignment * W) by (apply Z.mul_pos_pos; lia). unfold bits in He.
  split_and!; [apply Z.div_pos; lia|apply Z.div_le_mono; lia|apply Z.div_lt_upper_bound; lia].
Qed.

(** ** Searching backwards *)

(** [r] is the last marked bit from [lo] to [hi], if there is one. *)
Definition last_marked (bm : SpaceBitmap) (lo hi : Z) (r : option Z) : Prop :=
  match r with
  | Some k => lo <= k <= hi /\ mbit bm k = true /\ forall j, k < j <= hi -> mbit bm j = false
  | None => forall j, lo <= j <= hi -> mbit bm j = false
  end.

(** The leading bit of a word whose bits are the bits of the bitmap from [lo] to [hi]. *)
Lemma leading_bit bm i v lo hi :
  bitmap_ok bm -> 0 <= i < Z.of_nat (length (bitmap_begin_ bm)) -> is_u W v -> 0 <= lo -> hi < W ->
  (forall j, 0 <= j < W -> Z.testbit v j = mbit bm (i * W + j) && ((lo <=? j) && (j <=? hi))) ->
  if v =? 0 then forall j, lo <= j <= hi -> mbit bm (i * W + j) = false
  else exists j, object_at W kAlignment bm i (W - CLZ W v - 1) = object bm (i * W + j) /\ last_marked bm (i * W + lo) (i * W + hi) (Some (i * W + j)).
Proof.
  intros Hb Hi Hv Hlo Hhi Hbit. destruct (Z.eqb_spec v 0) as [->|Hne].
  - intros j Hj. specialize (Hbit j ltac:(lia)). rewrite Z.testbit_0_l in Hbit. symmetry in Hbit. apply andb_false_iff in Hbit as [|Hr]; [done|].
    revert Hr. repeat case_ltb; done || lia.
  - assert (0 < v) as Hpos by (unfold is_u in Hv; lia). rewrite CLZ_log2. replace (W - (W - 1 - Z.log2 v) - 1) with (Z.log2 v) by lia.
    assert (0 <= Z.log2 v < W) as Hlog by (split; [apply Z.log2_nonneg|apply Z.log2_lt_pow2; [done|apply Hv]]).
    exists (Z.log2 v). split; [by apply object_at_val|]. pose proof (Z.bit_log2 v Hpos) as Hl. rewrite Hbit in Hl by done.
    apply andb_true_iff in Hl as [Hm Hr]. assert (lo <= Z.log2 v <= hi) as Hrange by (revert Hr; repeat case_ltb; done || lia).
    cbn [last_marked]. split_and!; [lia|lia|done|]. intros k Hk. replace k with (i * W + (k - i * W)) by lia.
    assert (Z.testbit v (k - i * W) = false) as Hz by (apply Z.bits_above_log2; lia). rewrite Hbit in Hz by lia.
    apply andb_false_iff in Hz as [|Hz]; [done|]. revert Hz. repeat case_ltb; done || lia.
Qed.

Lemma find_preceding_spec n bm v i ie hi :
  bitmap_ok bm -> 0 <= ie <= i -> i < Z.of_nat (length (bitmap_begin_ bm)) -> i - ie < Z.of_nat n -> is_u W v -> 0 <= hi < W ->
  (forall j, 0 <= j < W -> Z.testbit v j = mbit bm (i * W + j) && ((0 <=? j) && (j <=? hi))) ->
  exists res, find_preceding W kAlignment n bm v i ie = Some res /\
    match res with
    | inl obj => exists k, obj = object bm k /\ last_marked bm ((ie + 1) * W) (i * W + hi) (Some k)
    | inr v' => exists hi', 0 <= hi' < W /\ is_u W v' /\ (forall j, ie * W + hi' < j <= i * W + hi -> mbit bm j = false) /\
        ie * W + hi' <= i * W + hi /\
        forall j, 0 <= j < W -> Z.testbit v' j = mbit bm (ie * W + j) && ((0 <=? j) && (j <=? hi'))
    end.
Proof.
  intros Hb. revert v i hi. induction n as [|n IH]; intros v i hi Hi Hlen Hn Hv Hhi Hbit; [lia|]. cbn [find_preceding].
  destruct (Z.ltb_spec ie i) as [Hlt|Hge].
  - pose proof (leading_bit bm i v 0 hi Hb ltac:(lia) Hv ltac:(lia) ltac:(lia) Hbit) as Hlead. destruct (Z.eqb_spec v 0) as [->|Hne]; cbn [negb].
    + destruct (load_word bm (i - 1)) as (w & -> & Hw & Hwb); [lia|done|]. cbn [mbind option_bind].
      destruct (IH w (i - 1) (W - 1)) as (res & -> & Hres); [lia|lia|lia|done|lia| |].
      { intros j Hj. rewrite Hwb by done. repeat case_ltb; try lia. by rewrite andb_true_r. }
      assert (forall j, (i - 1) * W + (W - 1) < j <= i * W + hi -> mbit bm j = false) as Hz.
      { intros j Hj. replace j with (i * W + (j - i * W)) by lia. apply Hlead. lia. }
      exists res. split; [done|]. destruct res as [obj|v'].
      * destruct Hres as (k & -> & Hk & Hm & Hnone). exists k. split; [done|]. cbn [last_marked]. split_and!; [lia|lia|done|].
        intros j Hj. destruct (decide (j <= (i - 1) * W + (W - 1))); [apply Hnone; lia|apply Hz; lia].
      * destruct Hres as (hi' & Hh & Hu & Hnone & Hle & Hb'). exists hi'. split_and!; [lia|lia|done| |lia|done].
        intros j Hj. destruct (decide (j <= (i - 1) * W + (W - 1))); [apply Hnone; lia|apply Hz; lia].
    + destruct Hlead as (j & Eo & Hj & Hm & Hnone). eexists. split; [done|]. cbv beta iota. exists (i * W + j). split; [done|].
      cbn [last_marked]. split_and!; [|lia|done|done]. assert ((ie + 1) * W <= i * W) by (apply Z.mul_le_mono_nonneg_r; lia). lia.
  - assert (i = ie) as -> by lia. eexists. split; [done|]. exists hi. split_and!; [lia|lia|done|lia|lia|done].
Qed.

Lemma FindPrecedingObject_spec bm vb ve :
  bitmap_ok bm -> Z.max (heap_begin_ bm) ve <= vb -> vb < heap_begin_ bm + bits bm * kAlignment ->
  exists r, FindPrecedingObject W kAlignment bm vb ve = Some (object bm <$> r) /\
    last_marked bm (position bm (Z.max (heap_begin_ bm) ve)) (position bm vb) r.
Proof.
  intros Hb Hve Hvb. unfold FindPrecedingObject. set (ve' := Z.max (heap_begin_ bm) ve) in *. assert (heap_begin_ bm <= ve') as Hve' by lia.
  rewrite !offset_of_object by (done || lia). unfold OffsetToIndex, OffsetToMask, OffsetBitIndex.
  fold (position bm vb) (position bm ve').
  destruct (bit_position (position bm vb) bm) as (Hi & Hj & Eb); [apply position_range; lia|].
  destruct (bit_position (position bm ve') bm) as (Hi' & Hj' & Ee); [apply position_range; lia|].
  assert (position bm ve' <= position bm vb) as Hle by (apply Z.div_le_mono; lia).
  revert Hi Hj Eb Hi' Hj' Ee Hle. generalize (position bm vb) as kb. generalize (position bm ve') as ke. intros ke kb.
  set (i := kb / W). set (j := kb mod W). set (i' := ke / W). set (j' := ke mod W). intros Hi Hj Eb Hi' Hj' Ee Hle.
  assert (i' <= i) as Hii by (destruct HW as [-> | ->]; lia).
  destruct (load_word bm i) as (w & -> & Hw & Hwb); [lia|done|]. cbn [mbind option_bind]. rewrite !mask_val by lia.
  set (v := w .& _). assert (is_u W v) as Hv by (apply land_is_u; [lia|done]).
  assert (forall k, 0 <= k < W -> Z.testbit v k = mbit bm (i * W + k) && ((0 <=? k) && (k <=? j))) as Hvb'.
  { intros k Hk. unfold v. rewrite Z.shiftl_1_l. replace (2 ^ j - 1) with (Z.ones j) by (rewrite Z.ones_equiv; lia).
    rewrite <- Hwb by done. bits_core. }
  destruct (find_preceding_spec (Z.to_nat (i - i' + 1)) bm v i i' j) as (res & -> & Hres); [done|lia|lia|lia|done|lia|done|].
  cbn [mbind option_bind]. rewrite <- Eb in Hres. destruct res as [obj|v'].
  - destruct Hres as (k & -> & Hk & Hm & Hn). exists (Some k). split; [done|]. cbn [last_marked]. split_and!; [|lia|done|done].
    rewrite Ee. lia.
  - destruct Hres as (hi' & Hh & Hu & Hn & Hle' & Hb'). set (v2 := v' .& _).
    assert (is_u W v2) as Hu2 by (apply land_is_u; [lia|done]).
    assert (forall k, 0 <= k < W -> Z.testbit v2 k = mbit bm (i' * W + k) && ((j' <=? k) && (k <=? hi'))) as Hb2.
    { intros k Hk. unfold v2. pose proof (proj1 (edge_masks v' j' k Hu Hj' Hk)) as Em. rewrite mask_val in Em by lia. rewrite Em, Hb' by done.
      repeat case_ltb; try lia; bit_simpl; done. }
    pose proof (leading_bit bm i' v2 j' hi' Hb ltac:(lia) Hu2 ltac:(lia) ltac:(lia) Hb2) as Hlead. destruct (Z.eqb_spec v2 0) as [Hz|Hz]; cbn [negb].
    + exists None. split; [done|]. cbn [last_marked]. intros k Hk. destruct (decide (k <= i' * W + hi')); [|apply Hn; lia].
      replace k with (i' * W + (k - i' * W)) by lia. apply Hlead. lia.
    + destruct Hlead as (k & -> & Hk & Hm & Hnone). exists (Some (i' * W + k)). split; [done|]. cbn [last_marked]. split_and!; [lia|lia|done|].
      intros l Hl. destruct (decide (l <= i' * W + hi')); [apply Hnone; lia|apply Hn; lia].
Qed.

(** ** Changing bits *)

(** [bm'] is [bm] with the bits given by [f]. *)
Record changed (bm bm' : SpaceBitmap) (f : Z -> bool) : Prop := {
  changed_ok : bitmap_ok bm';
  changed_shape : length (bitmap_begin_ bm') = length (bitmap_begin_ bm) /\ bitmap_size_ bm' = bitmap_size_ bm /\
    heap_begin_ bm' = heap_begin_ bm /\ heap_limit_ bm' = heap_limit_ bm;
  changed_bits : forall k, 0 <= k < bits bm -> mbit bm' k = f k }.

Lemma store_changed bm i v : bitmap_ok bm -> 0 <= i < Z.of_nat (length (bitmap_begin_ bm)) -> is_u W v ->
  exists bm', store bm i v = Some bm' /\ changed bm bm' (fun k => if k / W =? i then Z.testbit v (k mod W) else mbit bm k).
Proof.
  intros Hb Hi Hv. unfold store. destruct (load_word bm i) as (w & -> & _ & _); [done|done|]. cbn [mbind option_bind]. eexists. split; [done|].
  constructor; cbn [bitmap_begin_ bitmap_size_ heap_begin_ heap_limit_].
  - constructor; cbn [bitmap_begin_ heap_begin_]; [apply Forall_insert; [apply Hb|done]|apply Hb|].
    unfold bits. cbn [bitmap_begin_]. rewrite length_insert. apply Hb.
  - by rewrite length_insert.
  - intros k Hk. unfold mbit. cbn [bitmap_begin_]. destruct (bit_position k bm Hk) as (Hk1 & _). destruct (Z.eqb_spec (k / W) i) as [<-|Hne].
    + rewrite list_lookup_insert_eq by lia. done.
    + rewrite list_lookup_insert_ne by lia. done.
Qed.

Lemma Modify_spec b bm addr : bitmap_ok bm -> 0 <= addr - heap_begin_ bm < bits bm * kAlignment ->
  exists bm', Modify W kAlignment b bm addr = Some (mbit bm (position bm addr), bm') /\
    changed bm bm' (fun k => if k =? position bm addr then b else mbit bm k).
Proof.
  intros Hb Ha. unfold Modify. rewrite offset_of_object by done. unfold OffsetToIndex, OffsetToMask, OffsetBitIndex. fold (position bm addr).
  pose proof (position_range bm addr Ha) as Hp. destruct (bit_position (position bm addr) bm Hp) as (Hi & Hj & Ek).
  revert Hi Hj Ek Hp. generalize (position bm addr) as p. intros p. set (i := p / W). set (j := p mod W). intros Hi Hj Ek Hp.
  destruct (load_word bm i) as (w & El & Hw & Hwb); [lia|done|]. rewrite El. cbn [mbind option_bind]. rewrite mask_val, mask_bit by lia.
  rewrite Hwb by lia. rewrite <- Ek.
  assert (forall k, 0 <= k < bits bm -> mbit bm k = if k / W =? i then Z.testbit w (k mod W) else mbit bm k) as Hsame.
  { intros k Hk. destruct (bit_position k bm Hk) as (_ & Hk2 & Hk3). destruct (Z.eqb_spec (k / W) i) as [E|]; [|done]. rewrite Hwb by done. by rewrite <- E, <- Hk3. }
  assert (forall k, (k =? p) = (k / W =? i) && (k mod W =? j)) as Heq.
  { intros k. apply eq_true_iff_eq. rewrite andb_true_iff, !Z.eqb_eq. split; [by intros ->|]. intros [E1 E2]. rewrite (Z.div_mod k W), E1, E2 by lia. lia. }
  assert (forall v, is_u W v -> (forall q, 0 <= q < W -> Z.testbit v q = if q =? j then b else Z.testbit w q) ->
    exists bm', store bm i v = Some bm' /\ changed bm bm' (fun k => if k =? p then b else mbit bm k)) as Hstore.
  { intros v Hv Hvb. destruct (store_changed bm i v Hb Hi Hv) as (bm' & E & [C1 C2 C3]). exists bm'. split; [done|]. constructor; [done..|].
    intros k Hk. rewrite C3, Heq, (Hsame k) by done. destruct (k / W =? i); [|done]. cbn [andb]. rewrite Hvb by (apply Z.mod_pos_bound; lia). done. }
  destruct b.
  - destruct (Z.eqb_spec (w .& (1 ≪ j)) 0) as [Hz|Hz].
    + destruct (Hstore (w .| (1 ≪ j))) as (bm' & -> & Hc); [|intros q Hq; rewrite Z.lor_spec, Z.shiftl_1_l, Z.pow2_bits_eqb, (Z.eqb_sym j) by lia;
        destruct (q =? j); [apply orb_true_r|apply orb_false_r]|by exists bm'].
      apply lor_is_u; [lia|done|]. rewrite Z.shiftl_1_l. split; [apply Z.pow_nonneg; lia|apply pow2_lt; lia].
    + exists bm. split; [done|]. constructor; [done..|]. intros k Hk. destruct (Z.eqb_spec k p) as [->|]; [|done].
      pose proof (mask_bit w j ltac:(lia)) as Hm. rewrite (proj2 (Z.eqb_neq _ _) Hz), Hwb, <- Ek in Hm by lia. done.
  - destruct (Hstore (w .& uN W (.~ (1 ≪ j)))) as (bm' & -> & Hc); [apply land_is_u; [lia|done]| |by exists bm'].
    intros q Hq. rewrite Z.land_spec, uN_testbit, Z.lnot_spec, Z.shiftl_1_l, Z.pow2_bits_eqb, (Z.eqb_sym j) by lia.
    case_ltb; [|lia]. destruct (q =? j); [apply andb_false_r|apply andb_true_r].
Qed.

Lemma changed_trans bm bm1 bm2 f g h :
  changed bm bm1 f -> changed bm1 bm2 g -> (forall k, 0 <= k < bits bm -> mbit bm1 k = f k -> g k = h k) -> changed bm bm2 h.
Proof using Type.
  intros [C1 (S1 & S2 & S3 & S4) B1] [C2 (T1 & T2 & T3 & T4) B2] Hh. assert (bits bm1 = bits bm) as Eb by (unfold bits; by rewrite S1).
  constructor; [done|split_and!; congruence|]. intros k Hk. rewrite B2 by (by rewrite Eb). apply Hh; [done|]. by apply B1.
Qed.

Lemma object_uN bm k : bitmap_ok bm -> 0 <= k < bits bm -> uN W (heap_begin_ bm + k * kAlignment) = object bm k /\
  0 <= object bm k - heap_begin_ bm < bits bm * kAlignment.
Proof.
  intros Hb Hk. pose proof (ok_addresses bm Hb). pose proof (ok_begin bm Hb). unfold object.
  assert (k * kAlignment < bits bm * kAlignment) by (apply Z.mul_lt_mono_pos_r; lia). assert (0 <= k * kAlignment) by (apply Z.mul_nonneg_nonneg; lia).
  split; [apply uN_small; unfold is_u; lia|lia].
Qed.

Definition cleared_bits (bm : SpaceBitmap) (lo hi : Z) (k : Z) : bool := mbit bm k && negb ((lo <=? k) && (k <? hi)).

Lemma clear_one bm k : bitmap_ok bm -> 0 <= k < bits bm ->
  exists b bm', Clear W kAlignment bm (uN W (heap_begin_ bm + k * kAlignment)) = Some (b, bm') /\ changed bm bm' (cleared_bits bm k (k + 1)).
Proof.
  intros Hb Hk. destruct (object_uN bm k Hb Hk) as [-> Hr]. destruct (Modify_spec false bm (object bm k) Hb Hr) as (bm' & E & C).
  rewrite position_object in *. eexists _, bm'. split; [exact E|]. destruct C as [C1 C2 C3]. constructor; [done..|]. intros j Hj. rewrite C3 by done.
  unfold cleared_bits. repeat case_ltb; try lia; bit_simpl; done.
Qed.

Lemma bit_index k : (k * kAlignment / kAlignment) mod W = k mod W.
Proof. by rewrite Z.div_mul by lia. Qed.

Lemma clear_begin_spec fuel bm kb ke :
  bitmap_ok bm -> 0 <= kb <= ke -> ke <= bits bm -> (- kb) mod W < Z.of_nat fuel ->
  exists bm' kb', clear_begin W kAlignment fuel bm (kb * kAlignment) (ke * kAlignment) = Some (bm', kb' * kAlignment) /\
    kb <= kb' <= ke /\ (kb' = ke \/ kb' mod W = 0) /\ changed bm bm' (cleared_bits bm kb kb').
Proof.
  revert bm kb. induction fuel as [|fuel IH]; intros bm kb Hb Hk Hke Hf; [pose proof (Z.mod_pos_bound (- kb) W ltac:(lia)); lia|].
  cbn [clear_begin]. unfold OffsetBitIndex. rewrite bit_index.
  assert ((kb * kAlignment <? ke * kAlignment) = (kb <? ke)) as ->.
  { apply eq_true_iff_eq. rewrite !Z.ltb_lt. symmetry. by apply Z.mul_lt_mono_pos_r. }
  destruct (Z.ltb_spec kb ke) as [Hlt|Hge]; cbn [andb].
  - destruct (Z.eqb_spec (kb mod W) 0) as [Hz|Hz]; cbn [negb].
    + exists bm, kb. split_and!; [done|lia|lia|by right|]. constructor; [done..|]. intros j Hj. unfold cleared_bits. repeat case_ltb; try lia; bit_simpl; done.
    + destruct (clear_one bm kb Hb ltac:(lia)) as (b & bm1 & -> & C1). cbn [mbind option_bind]. replace (kb * kAlignment + kAlignment) with ((kb + 1) * kAlignment) by lia.
      pose proof (changed_shape _ _ _ C1) as (S1 & _). assert (bits bm1 = bits bm) as Eb by (unfold bits; by rewrite S1).
      destruct (IH bm1 (kb + 1)) as (bm' & kb' & -> & Hk' & Hend & C2); [by apply C1|lia|lia|destruct HW as [-> | ->]; Z.div_mod_to_equations; lia|].
      exists bm', kb'. split_and!; [done|lia|lia|done|]. eapply changed_trans; [exact C1|exact C2|]. intros j Hj Hm. unfold cleared_bits in *.
      rewrite Hm. repeat case_ltb; try lia; bit_simpl; done.
  - assert (kb = ke) as -> by lia. exists bm, ke. split_and!; [done|lia|lia|by left|]. constructor; [done..|]. intros j Hj. unfold cleared_bits.
    repeat case_ltb; try lia; bit_simpl; done.
Qed.

Lemma clear_end_spec fuel bm kb ke :
  bitmap_ok bm -> 0 <= kb <= ke -> ke <= bits bm -> ke mod W < Z.of_nat fuel ->
  exists bm' ke', clear_end W kAlignment fuel bm (kb * kAlignment) (ke * kAlignment) = Some (bm', ke' * kAlignment) /\
    kb <= ke' <= ke /\ (ke' = kb \/ ke' mod W = 0) /\ changed bm bm' (cleared_bits bm ke' ke).
Proof.
  revert bm ke. induction fuel as [|fuel IH]; intros bm ke Hb Hk Hke Hf; [pose proof (Z.mod_pos_bound ke W ltac:(lia)); lia|].
  cbn [clear_end]. unfold OffsetBitIndex. rewrite bit_index.
  assert ((kb * kAlignment <? ke * kAlignment) = (kb <? ke)) as ->.
  { apply eq_true_iff_eq. rewrite !Z.ltb_lt. symmetry. by apply Z.mul_lt_mono_pos_r. }
  destruct (Z.ltb_spec kb ke) as [Hlt|Hge]; cbn [andb].
  - destruct (Z.eqb_spec (ke mod W) 0) as [Hz|Hz]; cbn [negb].
    + exists bm, ke. split_and!; [done|lia|lia|by right|]. constructor; [done..|]. intros j Hj. unfold cleared_bits. repeat case_ltb; try lia; bit_simpl; done.
    + replace (ke * kAlignment - kAlignment) with ((ke - 1) * kAlignment) by lia.
      destruct (clear_one bm (ke - 1) Hb ltac:(lia)) as (b & bm1 & -> & C1). cbn [mbind option_bind].
      pose proof (changed_shape _ _ _ C1) as (S1 & _). assert (bits bm1 = bits bm) as Eb by (unfold bits; by rewrite S1).
      destruct (IH bm1 (ke - 1)) as (bm' & ke' & -> & Hk' & Hend & C2); [by apply C1|lia|lia|destruct HW as [-> | ->]; Z.div_mod_to_equations; lia|].
      exists bm', ke'. split_and!; [done|lia|lia|done|]. eapply changed_trans; [exact C1|exact C2|]. intros j Hj Hm. unfold cleared_bits in *.
      rewrite Hm. repeat case_ltb; try lia; bit_simpl; done.
  - assert (ke = kb) as -> by lia. exists bm, kb. split_and!; [done|lia|lia|by left|]. constructor; [done..|]. intros j Hj. unfold cleared_bits.
    repeat case_ltb; try lia; bit_simpl; done.
Qed.

Lemma zero_words_spec bm s e : bitmap_ok bm ->
  changed bm (zero_words bm s e) (fun k => mbit bm k && negb ((s <=? k / W) && (k / W <? e))).
Proof.
  intros Hb. constructor; cbn [zero_words bitmap_begin_ bitmap_size_ heap_begin_ heap_limit_].
  - constructor; cbn [zero_words bitmap_begin_ heap_begin_]; [|apply Hb|unfold bits; cbn [bitmap_begin_ zero_words]; rewrite length_imap; apply Hb].
    apply Forall_lookup. intros i v. rewrite list_lookup_imap. destruct (bitmap_begin_ bm !! i) as [w|] eqn:E; [|done]. cbn. intros [= <-].
    pose proof (ok_words bm Hb) as Hw. rewrite Forall_lookup in Hw. destruct (_ && _); [|by eapply Hw]. split; [done|apply pow2_pos; lia].
  - by rewrite length_imap.
  - intros k Hk. unfold mbit. cbn [zero_words bitmap_begin_]. rewrite list_lookup_imap. destruct (bit_position k bm Hk) as (Hi & _).
    destruct (bitmap_begin_ bm !! Z.to_nat (k / W)) as [w|] eqn:E; [|done]. cbn. rewrite Z2Nat.id by lia.
    destruct (_ && _); [by rewrite Z.testbit_0_l, andb_false_r|by rewrite andb_true_r].
Qed.

Lemma ClearRange_spec bm kb ke : bitmap_ok bm -> 0 <= kb <= ke -> ke <= bits bm ->
  exists bm', ClearRange W kAlignment bm (object bm kb) (object bm ke) = Some bm' /\ changed bm bm' (cleared_bits bm kb ke).
Proof.
  intros Hb Hk Hke. unfold ClearRange. destruct (offset_of_bit bm kb Hb ltac:(lia)) as [_ ->]. destruct (offset_of_bit bm ke Hb ltac:(lia)) as [_ ->].
  destruct (clear_begin_spec (Z.to_nat (W + 1)) bm kb ke Hb Hk Hke) as (bm1 & kb' & -> & Hk1 & He1 & C1); [pose proof (Z.mod_pos_bound (- kb) W); lia|].
  cbn [mbind option_bind]. pose proof (changed_shape _ _ _ C1) as (S1 & _). assert (bits bm1 = bits bm) as Eb by (unfold bits; by rewrite S1).
  destruct (clear_end_spec (Z.to_nat (W + 1)) bm1 kb' ke) as (bm2 & ke' & -> & Hk2 & He2 & C2); [apply C1|lia|lia|pose proof (Z.mod_pos_bound ke W); lia|].
  cbn [mbind option_bind]. pose proof (changed_shape _ _ _ C2) as (S2 & _). assert (bits bm2 = bits bm) as Eb2 by (rewrite <- Eb; unfold bits; by rewrite S2).
  eexists. split; [done|]. unfold OffsetToIndex. rewrite !Z.div_mul by lia.
  eapply changed_trans; [eapply changed_trans; [exact C1|exact C2|]|apply zero_words_spec, C2|].
  - intros k Hkk Hm. exact (eq_refl (cleared_bits bm1 ke' ke k)).
  - intros k Hkk Hm. cbv beta. rewrite Hm. unfold cleared_bits. rewrite (changed_bits _ _ _ C1) by done. unfold cleared_bits.
    assert ((kb' / W <=? k / W) && (k / W <? ke' / W) = (kb' <=? k) && (k <? ke')) as ->.
    { destruct (decide (kb' = ke')) as [->|]; [repeat case_ltb; lia|]. assert (kb' mod W = 0) by lia. assert (ke' mod W = 0) by lia.
      apply eq_true_iff_eq. rewrite !andb_true_iff, !Z.leb_le, !Z.ltb_lt. destruct HW as [-> | ->]; Z.div_mod_to_equations; lia. }
    repeat case_ltb; try lia; bit_simpl; done.
Qed.

(** ** Marking by several threads *)

Lemma test_and_set_spec events w j was w' :
  is_u W w -> 0 <= j < W -> Forall (fun e => is_u W (set_by_others e)) events -> test_and_set events w (uN W (1 ≪ j)) = (was, w') ->
  is_u W w' /\ Z.testbit w' j = true /\ (forall i, Z.testbit w i = true -> Z.testbit w' i = true) /\
  (Z.testbit w j = true -> was = true) /\
  ((forall e, e ∈ events -> Z.testbit (set_by_others e) j = false) -> was = Z.testbit w j) /\
  (forall i, i <> j -> 0 <= i -> Z.testbit w' i = true -> Z.testbit w i = true \/ exists e, e ∈ events /\ Z.testbit (set_by_others e) i = true).
Proof.
  intros Hw Hj He E. rewrite mask_val in E by done. revert w Hw E. induction events as [|e events IH]; intros w Hw E; cbn [test_and_set] in E; rewrite mask_bit in E by lia.
  - destruct (Z.testbit w j) eqn:Eb; injection E as <- <-; [split_and!; auto|].
    split_and!; try done; [apply lor_is_u; [lia|done|]; rewrite Z.shiftl_1_l; split; [apply Z.pow_nonneg; lia|apply pow2_lt; lia]|..].
    + rewrite Z.lor_spec, Z.shiftl_1_l, Z.pow2_bits_true by lia. apply orb_true_r.
    + intros i Hi. by rewrite Z.lor_spec, Hi.
    + intros i Hi Hi0. rewrite Z.lor_spec, Z.shiftl_1_l, Z.pow2_bits_false by lia. rewrite orb_false_r. by left.
  - destruct (Z.testbit w j) eqn:Eb; [injection E as <- <-; split_and!; auto|]. apply Forall_cons in He as [He1 He2].
    destruct (negb (spurious e) && _) eqn:Ec.
    + injection E as <- <-. split_and!; try done; [apply lor_is_u; [lia|done|]; rewrite Z.shiftl_1_l; split; [apply Z.pow_nonneg; lia|apply pow2_lt; lia]|..].
      * rewrite Z.lor_spec, Z.shiftl_1_l, Z.pow2_bits_true by lia. apply orb_true_r.
      * intros i Hi. by rewrite Z.lor_spec, Hi.
      * intros i Hi Hi0. rewrite Z.lor_spec, Z.shiftl_1_l, Z.pow2_bits_false by lia. rewrite orb_false_r. by left.
    + destruct (IH He2 (w .| set_by_others e)) as (H1 & H2 & H3 & H4 & H5 & H6); [by apply lor_is_u; [lia|..]|done|].
      split_and!; [done|done|intros i Hi; apply H3; by rewrite Z.lor_spec, Hi|done| |].
      * intros Hn. rewrite H5 by (intros e' He'; apply Hn; by right). rewrite Z.lor_spec, Eb. apply Hn. by left.
      * intros i Hi Hi0 Hb. destruct (H6 i Hi Hi0 Hb) as [Hl|(e' & He' & Hb')]; [|right; exists e'; split; [by right|done]].
        rewrite Z.lor_spec in Hl. apply orb_true_iff in Hl as [Hl|Hl]; [by left|right; exists e; split; [by left|done]].
Qed.

(** An address with a bit, and the address of an object. *)
Definition covered (bm : SpaceBitmap) (addr : Z) : Prop := 0 <= addr - heap_begin_ bm < bits bm * kAlignment.
Definition aligned (bm : SpaceBitmap) (addr : Z) : Prop := (addr - heap_begin_ bm) mod kAlignment = 0.

Lemma aligned_object bm addr : aligned bm addr -> object bm (position bm addr) = addr.
Proof. intros Ha. unfold aligned, object, position in *. pose proof (Z.div_mod (addr - heap_begin_ bm) kAlignment ltac:(lia)). lia. Qed.

Lemma object_aligned bm k : aligned bm (object bm k).
Proof. unfold aligned, object. rewrite Z.add_simpl_l. apply Z.mod_mul. lia. Qed.

Lemma position_le bm a b : a <= b -> position bm a <= position bm b.
Proof. intros Hab. apply Z.div_le_mono; lia. Qed.

Lemma position_upper bm addr : heap_begin_ bm <= addr <= heap_begin_ bm + bits bm * kAlignment -> 0 <= position bm addr <= bits bm.
Proof.
  intros Ha. unfold position. split; [apply Z.div_pos; lia|].
  apply Z.le_trans with (bits bm * kAlignment / kAlignment); [apply Z.div_le_mono; lia|]. by rewrite Z.div_mul by lia.
Qed.

(** The objects the loop over single objects finds. *)
Definition reference_visit (bm : SpaceBitmap) (visit_begin visit_end : Z) : list Z :=
  filter (fun obj => Test W kAlignment bm obj = Some true) (VisitRange kAlignment visit_begin visit_end).

Definition reference_garbage (live mark : SpaceBitmap) (visit_begin visit_end : Z) : list Z :=
  filter (fun obj => Test W kAlignment live obj = Some true /\ Test W kAlignment mark obj = Some false) (VisitRange kAlignment visit_begin visit_end).

Lemma VisitMarkedRange_reference bm visit_begin visit_end :
  bitmap_ok bm -> covered bm visit_begin -> visit_begin <= visit_end <= heap_begin_ bm + bits bm * kAlignment ->
  aligned bm visit_begin -> aligned bm visit_end ->
  VisitMarkedRange W kAlignment false bm visit_begin visit_end = Some (reference_visit bm visit_begin visit_end).
Proof.
  intros Hb Hc Hr Ab Ae. rewrite <- (aligned_object bm visit_begin Ab), <- (aligned_object bm visit_end Ae).
  pose proof (position_range bm visit_begin Hc) as Hp. pose proof (position_le bm visit_begin visit_end ltac:(lia)).
  pose proof (position_upper bm visit_end ltac:(unfold covered in Hc; lia)).
  rewrite VisitMarkedRange_marked by (done || lia). f_equal. unfold reference_visit.
  replace (position bm visit_end) with (position bm visit_begin + (position bm visit_end - position bm visit_begin)) at 2 by lia.
  symmetry. apply reference_marked; done || lia.
Qed.

Lemma object_covered bm k : 0 <= k < bits bm -> covered bm (object bm k).
Proof.
  intros Hk. unfold covered, object. replace (heap_begin_ bm + k * kAlignment - heap_begin_ bm) with (k * kAlignment) by lia.
  split; [apply Z.mul_nonneg_nonneg; lia|apply Z.mul_lt_mono_pos_r; lia].
Qed.

Lemma Test_object bm k : bitmap_ok bm -> 0 <= k < bits bm -> Test W kAlignment bm (object bm k) = Some (mbit bm k).
Proof. intros Hb Hk. rewrite Test_spec by (done || by apply object_covered). by rewrite position_object. Qed.

Lemma reference_garbage_spec live mark k n :
  bitmap_ok live -> bitmap_ok mark -> length (bitmap_begin_ mark) = length (bitmap_begin_ live) -> heap_begin_ mark = heap_begin_ live ->
  0 <= k -> 0 <= n -> k + n <= bits live -> reference_garbage live mark (object live k) (object live (k + n)) = garbage live mark k n.
Proof.
  intros Hl Hm HL HB Hk Hn Hle. unfold reference_garbage. rewrite VisitRange_objects, filter_map by done. unfold garbage. f_equal. apply filter_ext_in.
  intros j Hj. apply elem_of_seqZ in Hj. rewrite (Test_object live) by (done || lia).
  replace (object live j) with (object mark j) by (unfold object; congruence).
  rewrite (Test_object mark) by (done || unfold bits in *; rewrite ?HL; lia). destruct (mbit live j), (mbit mark j); cbn; split; intuition congruence.
Qed.
Lemma Test_covered bm addr : bitmap_ok bm -> covered bm addr -> Test W kAlignment bm addr = Some (mbit bm (position bm addr)).
Proof. intros Hb Hc. by apply Test_spec. Qed.

Lemma changed_Test bm bm' f addr : changed bm bm' f -> covered bm addr -> Test W kAlignment bm' addr = Some (f (position bm addr)).
Proof.
  intros C Hc. destruct (changed_shape _ _ _ C) as (S1 & _ & S2 & _). rewrite Test_spec by (apply C || unfold bits in *; rewrite S1, S2; apply Hc).
  rewrite <- (changed_bits _ _ _ C) by (by apply position_range). unfold position. by rewrite S2.
Qed.

(** The word at [k / W] after the other threads' marks: what one call of AtomicTestAndSet does. *)
Lemma AtomicTestAndSet_spec events bm addr :
  bitmap_ok bm -> covered bm addr -> Forall (fun e => is_u W (set_by_others e)) events ->
  exists was w w' bm', load bm (position bm addr / W) = Some w /\ AtomicTestAndSet W kAlignment events bm addr = Some (was, bm') /\
    test_and_set events w (uN W (1 ≪ (position bm addr mod W))) = (was, w') /\ is_u W w /\
    (forall j, 0 <= j < W -> Z.testbit w j = mbit bm (position bm addr / W * W + j)) /\
    changed bm bm' (fun k => if k / W =? position bm addr / W then Z.testbit w' (k mod W) else mbit bm k).
Proof.
  intros Hb Hc He. pose proof (position_range bm addr Hc) as Hp. destruct (bit_position _ bm Hp) as (Hi & Hj & _).
  destruct (load_word bm (position bm addr / W) Hi Hb) as (w & E & Hw & Hwj). unfold AtomicTestAndSet.
  destruct (test_and_set events w (uN W (1 ≪ (position bm addr mod W)))) as [was w'] eqn:Ets.
  destruct (test_and_set_spec _ _ _ _ _ Hw Hj He Ets) as (Hw' & _). destruct (store_changed bm _ w' Hb Hi Hw') as (bm' & Es & C).
  exists was, w, w', bm'. rewrite (offset_of_object bm addr Hb Hc).
  assert (OffsetToIndex W kAlignment (addr - heap_begin_ bm) = position bm addr / W) as -> by (unfold OffsetToIndex, position; done).
  rewrite E. cbn [mbind option_bind]. unfold OffsetToMask, OffsetBitIndex. fold (position bm addr). rewrite Ets, Es. done.
Qed.

Lemma object_interval bm kb ke a :
  (kb <=? position bm a) && (position bm a <? ke) = (object bm kb <=? a) && (a <? object bm ke).
Proof.
  unfold position, object. pose proof (Z.div_mod (a - heap_begin_ bm) kAlignment ltac:(lia)) as E.
  pose proof (Z.mod_pos_bound (a - heap_begin_ bm) kAlignment HA). set (q := (a - heap_begin_ bm) / kAlignment) in *.
  apply eq_true_iff_eq. rewrite !andb_true_iff, !Z.leb_le, !Z.ltb_lt. split; intros [H1 H2].
  - apply (Z.mul_le_mono_pos_r _ _ kAlignment) in H1; [|done]. assert (q + 1 <= ke) as H3 by lia.
    apply (Z.mul_le_mono_pos_r _ _ kAlignment) in H3; [|done]. lia.
  - split; [apply Z.lt_succ_r|]; apply (Z.mul_lt_mono_pos_r kAlignment); lia.
Qed.

(** The number of words that cover [capacity] bytes. *)
Lemma ComputeBitmapSize_val k capacity :
  kAlignment = 2 ^ k -> 0 <= k -> 0 < capacity -> capacity + kAlignment * W < 2 ^ W ->
  exists n, ComputeBitmapSize W kAlignment capacity = n * sizeof_intptr W /\ 0 < n /\ capacity <= n * (kAlignment * W) < capacity + kAlignment * W.
Proof.
  intros Ek Hk Hc Hov. unfold ComputeBitmapSize. set (c := kAlignment * W) in *.
  assert (exists l, 0 <= l <= 64 /\ c = 2 ^ l) as (l & Hl & El).
  { exists (k + Z.log2 W). unfold c in *. rewrite Z.pow_add_r, <- Ek by (lia || apply Z.log2_nonneg).
    assert (2 ^ Z.log2 W = W) as -> by (by destruct HW as [-> | ->]). split; [|done].
    assert (k < W) by (apply (Z.pow_lt_mono_r_iff 2); [lia|lia|]; rewrite <- Ek; destruct HW as [-> | ->]; lia).
    assert (2 ^ (k + Z.log2 W) < 2 ^ W) as Hlt by (rewrite Z.pow_add_r, <- Ek by (lia || apply Z.log2_nonneg); destruct HW as [-> | ->]; cbn in *; lia).
    apply Z.pow_lt_mono_r_iff in Hlt; [|lia|lia]. pose proof (Z.log2_nonneg W). lia. }
  assert (0 < c) by (apply Z.mul_pos_pos; lia). assert (2 ^ W <= 2 ^ 64) by (apply Z.pow_le_mono_r; lia).
  exists ((capacity + c - 1) / c). set (n := (capacity + c - 1) / c).
  assert (capacity <= n * c < capacity + c) as Hn.
  { unfold n. pose proof (Z.div_mod (capacity + c - 1) c ltac:(lia)). pose proof (Z.mod_pos_bound (capacity + c - 1) c ltac:(lia)). lia. }
  assert (0 < n) by (apply (Z.mul_lt_mono_pos_r c); lia).
  rewrite El, RoundUp_val by (rewrite <- ?El; lia). rewrite <- El. fold n. rewrite Z.div_mul by lia. split_and!; try lia.
  apply uN_small. assert (0 < sizeof_intptr W <= c) as Hs.
  { unfold c, sizeof_intptr, kBitsPerByte. destruct HW as [-> | ->]; [change (32 / 8) with 4|change (64 / 8) with 8]; lia. }
  split; [apply Z.mul_nonneg_nonneg; lia|]. apply Z.le_lt_trans with (n * c); [apply Z.mul_le_mono_nonneg_l; lia|lia].
Qed.

(** A new bitmap covers the heap, is well formed and has no object marked. *)
Lemma Create_ok k heap_begin heap_capacity :
  kAlignment = 2 ^ k -> 0 <= k -> 0 <= heap_begin -> 0 < heap_capacity -> heap_begin + heap_capacity + kAlignment * W < 2 ^ W ->
  exists bm, Create W kAlignment true heap_begin heap_capacity = Some bm /\ bitmap_ok bm /\ heap_begin_ bm = heap_begin /\
    heap_limit_ bm = heap_begin + heap_capacity /\ heap_limit_ bm <= heap_begin + bits bm * kAlignment < heap_limit_ bm + kAlignment * W /\
    bitmap_size_ bm = Z.of_nat (length (bitmap_begin_ bm)) * sizeof_intptr W /\
    forall addr, covered bm addr -> Test W kAlignment bm addr = Some false.
Proof.
  intros Ek Hk Hb Hc Hov. destruct (ComputeBitmapSize_val k heap_capacity Ek Hk Hc ltac:(lia)) as (n & En & Hn & Hcov).
  unfold Create, CreateFromMemMap. cbn [negb]. rewrite En. assert (0 < sizeof_intptr W) as Hs by (by destruct HW as [-> | ->]).
  assert (0 < n * sizeof_intptr W) by (apply Z.mul_pos_pos; lia). rewrite (proj2 (Z.eqb_neq _ _)), Z.div_mul by lia.
  rewrite uN_small by (unfold is_u; assert (0 < kAlignment * W) by (apply Z.mul_pos_pos; lia); lia).
  eexists. split; [done|]. unfold bits. cbn [bitmap_begin_ bitmap_size_ heap_begin_ heap_limit_]. rewrite length_replicate, Z2Nat.id by lia.
  assert (bitmap_ok (Bitmap (replicate (Z.to_nat n) 0) (n * sizeof_intptr W) heap_begin (heap_begin + heap_capacity))) as Hok.
  { constructor; cbn [bitmap_begin_ heap_begin_]; [|done|unfold bits; cbn [bitmap_begin_]; rewrite length_replicate, Z2Nat.id by lia; lia].
    apply Forall_replicate. split; [done|apply pow2_pos; lia]. }
  split_and!; try done; try lia. intros addr Ha. rewrite Test_covered by done. f_equal. unfold mbit. cbn [bitmap_begin_].
  destruct (replicate _ _ !! _) as [w|] eqn:E; [|done]. apply lookup_replicate in E as [-> _]. apply Z.testbit_0_l.
Qed.

(** An empty range at the end of the bitmap still reads the word behind it, for its left edge. *)
Lemma VisitMarkedRange_at_end kVisitOnce bm :
  bitmap_ok bm -> let limit := heap_begin_ bm + bits bm * kAlignment in VisitMarkedRange W kAlignment kVisitOnce bm limit limit = None.
Proof.
  intros Hb limit. pose proof (ok_addresses bm Hb). pose proof (ok_begin bm Hb). unfold VisitMarkedRange.
  assert (offset_of W bm limit = bits bm * kAlignment) as ->.
  { unfold offset_of. replace (limit - heap_begin_ bm) with (bits bm * kAlignment) by (unfold limit; lia). apply uN_small. unfold is_u.
    assert (0 <= bits bm * kAlignment) by (apply Z.mul_nonneg_nonneg; unfold bits; lia). lia. }
  unfold OffsetToIndex. rewrite Z.div_mul by lia. assert (bits bm / W = Z.of_nat (length (bitmap_begin_ bm))) as -> by (unfold bits; rewrite Z.mul_comm; apply Z.div_mul; lia).
  unfold load. rewrite Nat2Z.id, lookup_ge_None_2 by lia. done.
Qed.
End bits.

(** The batches of SweepWalk. *)
Lemma SweepWalk_spec (W kAlignment : Z) (memory_tool : bool) (live mark : SpaceBitmap) (sweep_begin sweep_end : Z) :
  W = 32 \/ W = 64 -> 0 < kAlignment -> bitmap_ok W kAlignment live -> bitmap_ok W kAlignment mark ->
  length (bitmap_begin_ mark) = length (bitmap_begin_ live) -> heap_begin_ mark = heap_begin_ live ->
  bitmap_size_ live = Z.of_nat (length (bitmap_begin_ live)) * sizeof_intptr W -> bitmap_size_ mark = bitmap_size_ live ->
  heap_begin_ live <= sweep_begin < sweep_end -> sweep_end <= heap_begin_ live + bits W live * kAlignment ->
  exists calls k n, SweepWalk W kAlignment memory_tool live mark sweep_begin sweep_end = Some calls /\ 0 <= k /\ 0 <= n /\ k + n <= bits W live /\
    (let first := object kAlignment live k in first <= sweep_begin < first + W * kAlignment) /\
    (let last := object kAlignment live (k + n) in sweep_end <= last < sweep_end + W * kAlignment) /\
    concat calls = garbage W kAlignment live mark k n /\
    Forall (fun batch => batch <> []) calls /\ (memory_tool = true -> (length calls <= 1)%nat).
Proof.
  intros HW HA Hl Hm HL HB HS HS' Hr He. pose proof (sweep_index W kAlignment HW HA live sweep_begin sweep_end Hl Hr He) as Hi. cbv zeta in Hi.
  unfold SweepWalk. rewrite HB, HS', !Z.eqb_refl. rewrite !(proj2 (Z.leb_le _ _)) by lia. cbn [andb negb]. rewrite (proj2 (Z.leb_gt _ _)) by lia.
  set (start := OffsetToIndex W kAlignment (offset_of W live sweep_begin)) in *.
  set (end_ := OffsetToIndex W kAlignment (uN W (sweep_end - heap_begin_ live - 1))) in *.
  rewrite HS, Z.div_mul by (unfold sizeof_intptr, kBitsPerByte; destruct HW as [-> | ->]; done). rewrite (proj2 (Z.ltb_lt _ _)) by lia. cbn [negb].
  set (n := Z.to_nat (end_ - start + 1)). assert (start + Z.of_nat n <= Z.of_nat (length (bitmap_begin_ live))) as Hn by lia.
  set (gs := garbage W kAlignment live mark (start * W) (Z.of_nat n * W)).
  assert (exists extra, (if memory_tool then count_garbage W n live mark start else Some 0) = Some extra /\ 0 <= extra /\
    (memory_tool = true -> extra = Z.of_nat (length gs))) as (extra & -> & Hex & Hmt).
  { destruct memory_tool; [|by exists 0]. rewrite (count_garbage_spec W kAlignment HW HA) by (done || lia). eexists. split_and!; [done|lia|done]. }
  cbn [mbind option_bind]. set (size := sizeof_intptr W * W + extra).
  assert (extra < size - W) as Hsize by (unfold size; destruct HW as [-> | ->]; [change (sizeof_intptr 32) with 4|change (sizeof_intptr 64) with 8]; lia).
  destruct (sweep_words_spec W kAlignment HW HA live mark size n start [] Hl Hm HL) as (rest & calls & -> & E & Hf & Hrest & Hone);
    [lia|lia|cbn [length]; lia|]. cbn [mbind option_bind app] in *. fold gs in E, Hone.
  eexists _, (start * W), (Z.of_nat n * W). split; [done|].
  assert (0 < kAlignment * W) as HAW by (apply Z.mul_pos_pos; lia).
  assert (offset_of W live sweep_begin = sweep_begin - heap_begin_ live) as Eo by (apply (offset_of_object W kAlignment HW HA); [done|lia]).
  pose proof (ok_addresses _ _ _ Hl). pose proof (ok_begin _ _ _ Hl).
  assert (start * (kAlignment * W) <= sweep_begin - heap_begin_ live < start * (kAlignment * W) + kAlignment * W) as Hs1.
  { unfold start, OffsetToIndex. rewrite Eo, Z.div_div by lia. pose proof (Z.div_mod (sweep_begin - heap_begin_ live) (kAlignment * W) ltac:(lia)).
    pose proof (Z.mod_pos_bound (sweep_begin - heap_begin_ live) (kAlignment * W) HAW). lia. }
  assert (end_ * (kAlignment * W) <= sweep_end - heap_begin_ live - 1 < end_ * (kAlignment * W) + kAlignment * W) as Hs2.
  { unfold end_, OffsetToIndex. rewrite uN_small, Z.div_div by (unfold is_u; lia). pose proof (Z.div_mod (sweep_end - heap_begin_ live - 1) (kAlignment * W) ltac:(lia)).
    pose proof (Z.mod_pos_bound (sweep_end - heap_begin_ live - 1) (kAlignment * W) HAW). lia. }
  cbv zeta. split_and!.
  1, 2, 3: unfold bits; destruct HW as [-> | ->]; lia.
  1, 2, 3, 4: unfold object; replace (Z.of_nat n) with (end_ - start + 1) by lia; lia.
  - fold gs. rewrite <- E.
    destruct rest as [|x rest]; cbn [length Nat.ltb Nat.leb]; [by rewrite app_nil_r|]. rewrite concat_app. cbn [concat]. by rewrite app_nil_r.
  - assert (Forall (fun batch => batch <> []) calls) as Hf' by (eapply Forall_impl; [exact Hf|]; by intros b [? _]).
    destruct rest as [|x rest]; cbn [length Nat.ltb Nat.leb]; [done|]. apply Forall_app. split; [done|]. by repeat constructor.
  - intros ->. rewrite Hone by (cbn [length]; rewrite <- Hmt by done; lia). destruct rest; cbn; lia.
Qed.

(** ** Properties *)

(** C16: On objects of the heap that the bitmap covers, visiting the marked objects of a range word by
    word calls the visitor with exactly the objects, in the same order, that the simple loop over
    all objects of the range finds (the loop the code keeps under #if 0), and never reads outside
    the bitmap.  With kVisitOnce only the first of them is visited; Walk visits the marked objects of
    all words up to the heap limit. *)
Theorem SpaceBitmap_visit (W kAlignment : Z) (bm : SpaceBitmap) (visit_begin visit_end : Z) :
  W = 32 \/ W = 64 -> 0 < kAlignment -> bitmap_ok W kAlignment bm -> covered W kAlignment bm visit_begin ->
  visit_begin <= visit_end <= heap_begin_ bm + bits W bm * kAlignment ->
  aligned kAlignment bm visit_begin -> aligned kAlignment bm visit_end ->
  heap_begin_ bm < heap_limit_ bm <= heap_begin_ bm + bits W bm * kAlignment ->
  VisitMarkedRange W kAlignment false bm visit_begin visit_end = Some (reference_visit W kAlignment bm visit_begin visit_end) /\
  VisitMarkedRange W kAlignment true bm visit_begin visit_end = Some (take 1 (reference_visit W kAlignment bm visit_begin visit_end)) /\
  exists end_, Walk W kAlignment bm = Some (reference_visit W kAlignment bm (heap_begin_ bm) end_) /\
    heap_limit_ bm <= end_ < heap_limit_ bm + W * kAlignment.
Proof.
  intros HW HA Hb Hc Hr Ab Ae Hl.
  pose proof (VisitMarkedRange_reference W kAlignment HW HA bm visit_begin visit_end Hb Hc Hr Ab Ae) as Hall.
  split_and!; [done|by apply VisitMarkedRange_once|]. destruct (Walk_marked W kAlignment HW HA bm Hb Hl) as (n & E & Hn & H1 & H2).
  assert (n * W <= bits W bm) as Hle.
  { assert ((n - 1) * W < bits W bm) as Hlt by (apply (Z.mul_lt_mono_pos_r kAlignment); lia). unfold bits in *. destruct HW as [-> | ->]; lia. }
  exists (object kAlignment bm (0 + n * W)). rewrite E. split; [|unfold object; lia]. f_equal. unfold reference_visit.
  replace (heap_begin_ bm) with (object kAlignment bm 0) by (unfold object; lia). symmetry. apply reference_marked; try done; destruct HW as [-> | ->]; lia.
Qed.

Lemma SpaceBitmap_visit_witness :
  let bm := Bitmap [5; 0x8000000000000001; 2] 24 0x10000 (0x10000 + 3 * 64 * 8) in
  VisitMarkedRange 64 8 false bm 0x10010 0x10408 = Some (reference_visit 64 8 bm 0x10010 0x10408) /\
  VisitMarkedRange 64 8 true bm 0x10010 0x10408 = Some (take 1 (reference_visit 64 8 bm 0x10010 0x10408)) /\
  exists end_, Walk 64 8 bm = Some (reference_visit 64 8 bm 0x10000 end_) /\ heap_limit_ bm <= end_ < heap_limit_ bm + 64 * 8.
Proof.
  intros bm. apply (SpaceBitmap_visit 64 8 bm 0x10010 0x10408);
    try (by right); try done; try (unfold covered, aligned, bits; cbn; lia).
  constructor; [|done|done]. repeat constructor; done.
Defined.

(** C18: Sweeping a range finds exactly the objects that are live and not marked in the words of the
    range, in address order, split in non-empty batches: the batches together are the list the loop
    over single objects gives.  The buffer of object pointers never overflows, and under a memory
    tool there is at most one batch. *)
Theorem SpaceBitmap_sweep (W kAlignment : Z) (memory_tool : bool) (live mark : SpaceBitmap) (sweep_begin sweep_end : Z) :
  W = 32 \/ W = 64 -> 0 < kAlignment -> bitmap_ok W kAlignment live -> bitmap_ok W kAlignment mark ->
  length (bitmap_begin_ mark) = length (bitmap_begin_ live) -> heap_begin_ mark = heap_begin_ live ->
  bitmap_size_ live = Z.of_nat (length (bitmap_begin_ live)) * sizeof_intptr W -> bitmap_size_ mark = bitmap_size_ live ->
  heap_begin_ live <= sweep_begin < sweep_end -> sweep_end <= heap_begin_ live + bits W live * kAlignment ->
  exists calls first last, SweepWalk W kAlignment memory_tool live mark sweep_begin sweep_end = Some calls /\
    first <= sweep_begin < first + W * kAlignment /\ sweep_end <= last < sweep_end + W * kAlignment /\
    aligned kAlignment live first /\ aligned kAlignment live last /\ concat calls = reference_garbage W kAlignment live mark first last /\
    Forall (fun batch => batch <> []) calls /\ (memory_tool = true -> (length calls <= 1)%nat).
Proof.
  intros HW HA Hl Hm HL HB HS HS' Hr He.
  destruct (SweepWalk_spec W kAlignment memory_tool live mark sweep_begin sweep_end HW HA Hl Hm HL HB HS HS' Hr He) as (calls & k & n & E & Hk & Hn & Hkn & H1 & H2 & Hc & Hf & Ht).
  exists calls, (object kAlignment live k), (object kAlignment live (k + n)). rewrite (reference_garbage_spec W kAlignment HW HA) by done.
  split_and!; try done; try apply H1; try apply H2; by apply (object_aligned W kAlignment HW HA).
Qed.

Lemma SpaceBitmap_sweep_witness :
  let live := Bitmap [0xF; 0x30] 8 0x4000 0x4200 in let mark := Bitmap [0x5; 0x10] 8 0x4000 0x4200 in
  exists calls first last, SweepWalk 32 8 true live mark 0x4000 0x4200 = Some calls /\
    first <= 0x4000 < first + 32 * 8 /\ 0x4200 <= last < 0x4200 + 32 * 8 /\
    aligned 8 live first /\ aligned 8 live last /\ concat calls = reference_garbage 32 8 live mark first last /\
    Forall (fun batch => batch <> []) calls /\ (true = true -> (length calls <= 1)%nat).
Proof.
  intros live mark. apply (SpaceBitmap_sweep 32 8 true live mark 0x4000 0x4200); try (by left); try done;
    try (unfold bits; cbn; lia); constructor; try done; repeat constructor; done.
Defined.

(** Marking and clearing act on the bit of one object: Set and Clear return the old bit and change
    no other; ClearRange clears the bits of the objects of the range and no other; and
    FindPrecedingObject returns the last marked object at or before [visit_begin] and not before
    [visit_end], or null when there is none. *)
Theorem SpaceBitmap_update (W kAlignment : Z) (b : bool) (bm : SpaceBitmap) (addr begin end_ lower : Z) :
  W = 32 \/ W = 64 -> 0 < kAlignment -> bitmap_ok W kAlignment bm -> covered W kAlignment bm addr ->
  heap_begin_ bm <= begin <= end_ -> end_ <= heap_begin_ bm + bits W bm * kAlignment ->
  aligned kAlignment bm begin -> aligned kAlignment bm end_ -> lower <= addr ->
  (exists bm' old, Modify W kAlignment b bm addr = Some (old, bm') /\ bitmap_ok W kAlignment bm' /\ Test W kAlignment bm addr = Some old /\
     forall a, covered W kAlignment bm a ->
       Test W kAlignment bm' a = if position kAlignment bm a =? position kAlignment bm addr then Some b else Test W kAlignment bm a) /\
  (exists bm', ClearRange W kAlignment bm begin end_ = Some bm' /\ bitmap_ok W kAlignment bm' /\
     forall a, covered W kAlignment bm a ->
       Test W kAlignment bm' a = if (begin <=? a) && (a <? end_) then Some false else Test W kAlignment bm a) /\
  (exists r, FindPrecedingObject W kAlignment bm addr lower = Some (object kAlignment bm <$> r) /\
     last_marked W bm (position kAlignment bm (Z.max (heap_begin_ bm) lower)) (position kAlignment bm addr) r).
Proof.
  intros HW HA Hb Hc Hbe Hen Ab Ae Hlo. pose proof Hc as Hc'. unfold covered in Hc'. split_and!.
  - destruct (Modify_spec W kAlignment HW HA b bm addr Hb Hc) as (bm' & E & C). exists bm', (mbit W bm (position kAlignment bm addr)).
    split_and!; [done|apply C|by apply Test_covered|]. intros a Ha. rewrite (changed_Test W kAlignment HW HA _ _ _ a C Ha), (Test_covered W kAlignment) by done.
    by destruct (_ =? _).
  - assert (0 <= position kAlignment bm begin) by (apply Z.div_pos; lia).
    pose proof (position_le W kAlignment HW HA bm begin end_ ltac:(lia)). pose proof (position_upper W kAlignment HW HA bm end_ ltac:(lia)).
    destruct (ClearRange_spec W kAlignment HW HA bm (position kAlignment bm begin) (position kAlignment bm end_) Hb ltac:(lia) ltac:(lia)) as (bm' & E & C).
    rewrite !(aligned_object W kAlignment HW HA) in E by done. exists bm'. split_and!; [done|apply C|].
    intros a Ha. rewrite (changed_Test W kAlignment HW HA _ _ _ a C Ha), (Test_covered W kAlignment) by done. unfold cleared_bits.
    assert ((position kAlignment bm begin <=? position kAlignment bm a) && (position kAlignment bm a <? position kAlignment bm end_) = (begin <=? a) && (a <? end_)) as ->.
    { by rewrite (object_interval W kAlignment HW HA), !(aligned_object W kAlignment HW HA). }
    destruct ((begin <=? a) && (a <? end_)); cbn [negb]; by rewrite ?andb_false_r, ?andb_true_r.
  - apply FindPrecedingObject_spec; try done; lia.
Qed.

(** C25: AtomicTestAndSet under any interference: whatever marks other threads set between its load
    and its compare-and-swap, and however often the swap fails spuriously, it returns with the
    object marked, loses no mark, adds only its own and theirs, reports an object that was marked
    already as such, and returns false only to a thread that marked the object itself: if no other
    thread marks the object, the answer is the old bit. *)
Theorem SpaceBitmap_mark (W kAlignment : Z) (events : list marking) (bm : SpaceBitmap) (addr : Z) :
  W = 32 \/ W = 64 -> 0 < kAlignment -> bitmap_ok W kAlignment bm -> covered W kAlignment bm addr ->
  Forall (fun e => is_u W (set_by_others e)) events ->
  exists was bm', AtomicTestAndSet W kAlignment events bm addr = Some (was, bm') /\ bitmap_ok W kAlignment bm' /\
    Test W kAlignment bm' addr = Some true /\ (Test W kAlignment bm addr = Some true -> was = true) /\
    ((forall e, e ∈ events -> Z.testbit (set_by_others e) (position kAlignment bm addr mod W) = false) -> Test W kAlignment bm addr = Some was) /\
    (forall a, covered W kAlignment bm a -> Test W kAlignment bm a = Some true -> Test W kAlignment bm' a = Some true) /\
    (forall a, covered W kAlignment bm a -> Test W kAlignment bm' a = Some true ->
       Test W kAlignment bm a = Some true \/ position kAlignment bm a = position kAlignment bm addr \/
       exists e, e ∈ events /\ position kAlignment bm a / W = position kAlignment bm addr / W /\ Z.testbit (set_by_others e) (position kAlignment bm a mod W) = true).
Proof.
  intros HW HA Hb Hc He. destruct (AtomicTestAndSet_spec W kAlignment HW HA events bm addr Hb Hc He) as (was & w & w' & bm' & El & E & Ets & Hw & Hwj & C).
  set (p := position kAlignment bm addr) in *. pose proof (position_range W kAlignment HW HA bm addr Hc : 0 <= p < _) as Hp.
  destruct (bit_position W kAlignment HW HA p bm Hp) as (_ & Hj & Ep).
  destruct (test_and_set_spec W kAlignment HW HA _ _ _ _ _ Hw Hj He Ets) as (Hw' & T1 & T2 & T3 & T4 & T5).
  assert (forall a, covered W kAlignment bm a -> 0 <= position kAlignment bm a mod W < W) as Hm by (intros; apply Z.mod_pos_bound; lia).
  assert (forall a, position kAlignment bm a / W = p / W -> Z.testbit w (position kAlignment bm a mod W) = mbit W bm (position kAlignment bm a)) as Hwa.
  { intros a Ea. rewrite Hwj by (apply Z.mod_pos_bound; lia). f_equal. rewrite <- Ea. symmetry. rewrite Z.mul_comm. apply Z.div_mod. lia. }
  exists was, bm'. rewrite (Test_covered W kAlignment HW HA bm addr Hb Hc), (changed_Test W kAlignment HW HA _ _ _ addr C Hc). fold p. rewrite Z.eqb_refl, T1.
  rewrite <- (Hwa addr eq_refl : _ = mbit W bm p). fold p. split_and!; [done|apply C|done| | | |].
  - intros [= Ht]. auto.
  - intros Hn. f_equal. symmetry. by apply T4.
  - intros a Ha. rewrite (Test_covered W kAlignment HW HA bm a Hb Ha), (changed_Test W kAlignment HW HA _ _ _ a C Ha). case_ltb; [|done].
    rewrite <- Hwa by done. intros [= Ht]. f_equal. auto.
  - intros a Ha. rewrite (Test_covered W kAlignment HW HA bm a Hb Ha), (changed_Test W kAlignment HW HA _ _ _ a C Ha). case_ltb; [|by left].
    intros [= Ht]. rewrite <- Hwa by done. destruct (decide (position kAlignment bm a mod W = p mod W)) as [Eq|Nq].
    { right; left. rewrite (Z.div_mod (position kAlignment bm a) W), (Z.div_mod p W) by lia. congruence. }
    destruct (T5 _ Nq ltac:(apply Hm; done) Ht) as [H|(ev & Hin & H)]; [left; by f_equal|right; right; by exists ev].
Qed.

Lemma SpaceBitmap_mark_witness :
  let bm := Bitmap [5; 2] 16 0x10000 0x10400 in let events := [Marking 8 false; Marking 0 true] in
  exists was bm', AtomicTestAndSet 64 8 events bm 0x10008 = Some (was, bm') /\ bitmap_ok 64 8 bm' /\
    Test 64 8 bm' 0x10008 = Some true /\ (Test 64 8 bm 0x10008 = Some true -> was = true) /\
    ((forall e, e ∈ events -> Z.testbit (set_by_others e) (position 8 bm 0x10008 mod 64) = false) -> Test 64 8 bm 0x10008 = Some was) /\
    (forall a, covered 64 8 bm a -> Test 64 8 bm a = Some true -> Test 64 8 bm' a = Some true) /\
    (forall a, covered 64 8 bm a -> Test 64 8 bm' a = Some true ->
       Test 64 8 bm a = Some true \/ position 8 bm a = position 8 bm 0x10008 \/
       exists e, e ∈ events /\ position 8 bm a / 64 = position 8 bm 0x10008 / 64 /\ Z.testbit (set_by_others e) (position 8 bm a mod 64) = true).
Proof.
  intros bm events. apply (SpaceBitmap_mark 64 8 events bm 0x10008); try (by right); try done; try (unfold covered, bits; cbn; lia);
    repeat constructor; done.
Defined.
