(* ===== verification/CardTable.v ===== *)
(** The card table of the write barrier: runtime/gc/accounting/card_table.h,
    runtime/gc/accounting/card_table-inl.h, runtime/gc/accounting/card_table.cc, and
    ZeroAndReleasePages of libartbase/base/mem_map.cc.

    A card table has one byte per [kCardSize] bytes of the heap.  Its bytes are the memory of
    Memory.v, and an access outside of its mapping gives no result.  Addresses are [W]-bit
    numbers.  Scanning visits the objects of SpaceBitmap.v.  ModifyCardsAtomic runs against other
    threads that mark cards: every access to a card is preceded by an interference, which marks any
    cards and lets a weak compare-and-swap fail. *)
From S2P Require Import Prelude BitUtils Memory BitMemory SpaceBitmap.

Definition kCardShift : Z := 10.
Definition kCardSize : Z := 1 ≪ kCardShift.
Definition kCardClean : Z := 0x0.
Definition kCardDirty : Z := 0x70.
Definition kCardAged : Z := kCardDirty - 1.
Definition kObjectAlignment : Z := 1 ≪ 3.

Definition AgeCardVisitor (card : Z) : Z := if card =? kCardDirty then card - 1 else 0.

(** The mapping has [mem_size] bytes from [mem_begin], and whole pages of memory below it. *)
Record CardTable := Table {
  cards : memory;
  mem_begin : Z;
  mem_size : Z;
  base_size : Z;
  biased_begin_ : Z;
  offset_ : Z }.

Definition with_cards (ct : CardTable) (m : memory) : CardTable :=
  Table m (mem_begin ct) (mem_size ct) (base_size ct) (biased_begin_ ct) (offset_ ct).

Definition fill (m : memory) (begin end_ value : Z) : memory := fun a => if (begin <=? a) && (a <? end_) then value else m a.

(** Pages given back with MADV_DONTNEED read as zeros. *)
Definition ZeroAndReleasePages (W : Z) (kMadviseZeroes : bool) (m : memory) (address length : Z) : memory :=
  if length =? 0 then m
  else
    let mem_begin := address in
    let mem_end := mem_begin + length in
    let page_begin := RoundUp W mem_begin kPageSize in
    let page_end := RoundDown W mem_end kPageSize in
    if negb kMadviseZeroes || (page_end <=? page_begin) then fill m mem_begin mem_end 0
    else fill (fill (fill m mem_begin page_begin 0) page_begin page_end 0) page_end mem_end 0.

Section card_table.
Context (W : Z).

Abbreviation sizeof_uintptr := (sizeof_intptr W).

(** *** Creating a table *)

(** [mapped] is the address MapAnonymous gives, if it succeeds; the new pages are zero. *)
Definition Create (mapped : option Z) (heap_begin heap_capacity : Z) : option CardTable :=
  let capacity := heap_capacity / kCardSize in
  cardtable_begin ← mapped;
  if cardtable_begin =? 0 then None
  else
    let biased_begin := uN W (cardtable_begin - (heap_begin ≫ kCardShift)) in
    let biased_byte := biased_begin .& 0xff in
    let '(offset, biased_begin) :=
      if negb (biased_byte =? kCardDirty) then
        let delta := s32 (uN W (kCardDirty - biased_byte)) in
        let offset := uN W (delta + (if delta <? 0 then 0x100 else 0)) in
        (offset, uN W (biased_begin + offset))
      else (0, biased_begin) in
    if biased_begin .& 0xff =? kCardDirty then
      Some (Table (fun _ => 0) cardtable_begin (capacity + 256) (RoundUp W (capacity + 256) kPageSize) biased_begin offset)
    else None.

(** *** Cards and addresses *)

Definition IsValidCard (ct : CardTable) (card_addr : Z) : bool :=
  (mem_begin ct + offset_ ct <=? card_addr) && (card_addr <? mem_begin ct + mem_size ct).

Definition CardFromAddr (ct : CardTable) (addr : Z) : Z := uN W (biased_begin_ ct + (addr ≫ kCardShift)).
Definition AddrFromCard (ct : CardTable) (card_addr : Z) : Z := uN W (uN W (card_addr - biased_begin_ ct) ≪ kCardShift).
Definition AddrIsInCardTable (ct : CardTable) (addr : Z) : bool := IsValidCard ct (uN W (biased_begin_ ct + (addr ≫ kCardShift))).

(** The [n] bytes from [a] are mapped. *)
Definition in_mapping (ct : CardTable) (a n : Z) : bool := (mem_begin ct <=? a) && (a + n <=? mem_begin ct + base_size ct).

Definition card_at (ct : CardTable) (a : Z) : option Z := if in_mapping ct a 1 then Some (cards ct a) else None.
Definition set_card (ct : CardTable) (a v : Z) : option CardTable :=
  if in_mapping ct a 1 then Some (with_cards ct (set_byte (cards ct) a v)) else None.
Definition word_at (ct : CardTable) (a : Z) : option Z :=
  if in_mapping ct a sizeof_uintptr then Some (Memory.load W (cards ct) a) else None.
Definition set_word (ct : CardTable) (a v : Z) : option CardTable :=
  if in_mapping ct a sizeof_uintptr then Some (with_cards ct (Memory.store W (cards ct) a v)) else None.

Definition MarkCard (ct : CardTable) (addr : Z) : option CardTable := set_card ct (CardFromAddr ct addr) kCardDirty.
Definition GetCard (ct : CardTable) (obj : Z) : option Z := card_at ct (CardFromAddr ct obj).
Definition IsDirty (ct : CardTable) (obj : Z) : option bool := card ← GetCard ct obj; Some (card =? kCardDirty).
Definition IsClean (ct : CardTable) (obj : Z) : option bool := card ← GetCard ct obj; Some (card =? kCardClean).

(** *** Clearing cards *)

(** The cards the visitor is called with.  The loop ends at [card_end] or leaves the mapping. *)
Fixpoint visit_clear (fuel : nat) (ct : CardTable) (it card_end : Z) : option (CardTable * list Z) :=
  match fuel with
  | O => None
  | S fuel =>
      if negb (it =? card_end) then
        card ← card_at ct it;
        if card =? kCardDirty then
          ct ← set_card ct it kCardClean;
          '(ct, visited) ← visit_clear fuel ct (it + 1) card_end;
          Some (ct, it :: visited)
        else visit_clear fuel ct (it + 1) card_end
      else Some (ct, [])
  end.
Definition VisitClear (ct : CardTable) (start end_ : Z) : option (CardTable * list Z) :=
  let card_start := CardFromAddr ct start in
  let card_end := CardFromAddr ct end_ in
  visit_clear (Z.to_nat (base_size ct + 1)) ct card_start card_end.

Definition ClearCardTable (ct : CardTable) : CardTable := with_cards ct (fill (cards ct) (mem_begin ct) (mem_begin ct + base_size ct) 0).

Definition ClearCardRange (kMadviseZeroes : bool) (ct : CardTable) (start end_ : Z) : option CardTable :=
  if negb (IsAligned kCardSize start && IsAligned kCardSize end_) then None
  else
    let start_card := CardFromAddr ct start in
    let end_card := CardFromAddr ct end_ in
    if in_mapping ct start_card (end_card - start_card) then
      Some (with_cards ct (ZeroAndReleasePages W kMadviseZeroes (cards ct) start_card (end_card - start_card)))
    else None.

(** *** Scanning *)

(** The objects visited and the number of cards scanned so far. *)
Definition scanned : Type := list Z * Z.

Definition scan_card (bitmap : SpaceBitmap) (minimum_age card start : Z) (acc : scanned) : option scanned :=
  if minimum_age <=? card then
    objs ← VisitMarkedRange W kObjectAlignment false bitmap start (uN W (start + kCardSize));
    Some (acc.1 ++ objs, acc.2 + 1)
  else Some acc.

Fixpoint scan_head (fuel : nat) (ct : CardTable) (bitmap : SpaceBitmap) (minimum_age card_cur card_end : Z) (acc : scanned) :
    option (Z * scanned) :=
  match fuel with
  | O => None
  | S fuel =>
      if negb (IsAligned sizeof_uintptr card_cur) && (card_cur <? card_end) then
        card ← card_at ct card_cur;
        acc ← scan_card bitmap minimum_age card (AddrFromCard ct card_cur) acc;
        scan_head fuel ct bitmap minimum_age (card_cur + 1) card_end acc
      else Some (card_cur, acc)
  end.

(** The first word that is not zero, or [None] when there is none. *)
Fixpoint skip_clean (fuel : nat) (ct : CardTable) (word_cur word_end : Z) : option (option Z) :=
  match fuel with
  | O => None
  | S fuel =>
      word ← word_at ct word_cur;
      if word =? 0 then
        let word_cur := word_cur + sizeof_uintptr in
        if word_end <=? word_cur then Some None else skip_clean fuel ct word_cur word_end
      else Some (Some word_cur)
  end.

Fixpoint scan_word (n : nat) (bitmap : SpaceBitmap) (minimum_age start_word start : Z) (acc : scanned) : option scanned :=
  match n with
  | O => Some acc
  | S n =>
      acc ← scan_card bitmap minimum_age (u8 start_word) start acc;
      scan_word n bitmap minimum_age (start_word ≫ 8) (uN W (start + kCardSize)) acc
  end.

Fixpoint scan_words (fuel : nat) (ct : CardTable) (bitmap : SpaceBitmap) (minimum_age word_cur word_end : Z) (acc : scanned) : option scanned :=
  match fuel with
  | O => None
  | S fuel =>
      if word_cur <? word_end then
        dirty ← skip_clean (S fuel) ct word_cur word_end;
        match dirty with
        | None => Some acc
        | Some word_cur =>
            start_word ← word_at ct word_cur;
            acc ← scan_word (Z.to_nat sizeof_uintptr) bitmap minimum_age start_word (AddrFromCard ct word_cur) acc;
            scan_words fuel ct bitmap minimum_age (word_cur + sizeof_uintptr) word_end acc
        end
      else Some acc
  end.

Fixpoint scan_tail (fuel : nat) (ct : CardTable) (bitmap : SpaceBitmap) (minimum_age card_cur card_end : Z) (acc : scanned) : option scanned :=
  match fuel with
  | O => None
  | S fuel =>
      if card_cur <? card_end then
        card ← card_at ct card_cur;
        acc ← scan_card bitmap minimum_age card (AddrFromCard ct card_cur) acc;
        scan_tail fuel ct bitmap minimum_age (card_cur + 1) card_end acc
      else Some acc
  end.

(** The objects visited, the number of cards scanned, and the table after clearing.  The loops run at
    most once per card. *)
Definition Scan (kMadviseZeroes kClearCard : bool) (ct : CardTable) (bitmap : SpaceBitmap) (scan_begin scan_end minimum_age : Z) :
    option (scanned * CardTable) :=
  let card_begin := CardFromAddr ct scan_begin in
  let card_end := CardFromAddr ct (RoundUp W scan_end kCardSize) in
  let fuel := Z.to_nat (card_end - card_begin + 1) in
  '(card_cur, acc) ← scan_head fuel ct bitmap minimum_age card_begin card_end ([], 0);
  acc ← (if card_cur <? card_end then
           let aligned_end := card_end - (card_end .& (sizeof_uintptr - 1)) in
           acc ← scan_words fuel ct bitmap minimum_age card_cur aligned_end acc;
           scan_tail fuel ct bitmap minimum_age aligned_end card_end acc
         else Some acc);
  ct ← (if kClearCard then ClearCardRange kMadviseZeroes ct scan_begin scan_end else Some ct);
  Some (acc, ct).

(** *** Modifying cards against other threads *)

(** What other threads do before an access: the cards they mark, and whether a weak
    compare-and-swap fails for no reason. *)
Record interference := Interference { dirtied : list Z; spurious_failure : bool }.

(** The interference to come, and the table. *)
Definition world : Type := list interference * CardTable.

Definition mark_by_others (e : interference) (ct : CardTable) : CardTable :=
  with_cards ct (fun a => if bool_decide (a ∈ dirtied e) then kCardDirty else cards ct a).

Definition disturb (w : world) : bool * world :=
  match w.1 with
  | [] => (false, w)
  | e :: events => (spurious_failure e, (events, mark_by_others e w.2))
  end.

Definition load_card (a : Z) (w : world) : option (Z * world) :=
  let w := (disturb w).2 in
  v ← card_at w.2 a; Some (v, w).
Definition load_word (a : Z) (w : world) : option (Z * world) :=
  let w := (disturb w).2 in
  v ← word_at w.2 a; Some (v, w).
Definition cas_card (a old_value new_value : Z) (w : world) : option (bool * world) :=
  let '(failure, w) := disturb w in
  v ← card_at w.2 a;
  if negb failure && (v =? old_value) then ct ← set_card w.2 a new_value; Some (true, (w.1, ct)) else Some (false, w).
Definition cas_word (a old_value new_value : Z) (w : world) : option (bool * world) :=
  let '(failure, w) := disturb w in
  v ← word_at w.2 a;
  if negb failure && (v =? old_value) then ct ← set_word w.2 a new_value; Some (true, (w.1, ct)) else Some (false, w).

(** [x86]: the processor has a compare-and-swap of bytes. *)
Definition byte_cas (x86 : bool) (old_value new_value address : Z) (w : world) : option (bool * world) :=
  if x86 then cas_card address old_value new_value w
  else
    let shift_in_bytes := address mod sizeof_uintptr in
    let address := address - shift_in_bytes in
    let shift_in_bits := shift_in_bytes * kBitsPerByte in
    '(word, w) ← load_word address w;
    let cur_word := word .& uN W (.~ (uN W (0xFF ≪ shift_in_bits))) in
    let old_word := cur_word .| uN W (old_value ≪ shift_in_bits) in
    let new_word := cur_word .| uN W (new_value ≪ shift_in_bits) in
    cas_word address old_word new_word w.

(** The calls of [modified]: a card, its old value and its new value. *)
Definition modifications : Type := list (Z * Z * Z).

Definition modified (card expected new_value : Z) : modifications :=
  if negb (expected =? new_value) then [(card, expected, new_value)] else [].

(** A failing attempt consumes at least one interference, so that one attempt more than the
    interference to come is enough. *)
Fixpoint modify_card (fuel : nat) (x86 : bool) (visitor : Z -> Z) (card : Z) (w : world) : option (modifications * world) :=
  match fuel with
  | O => None
  | S fuel =>
      '(expected, w) ← load_card card w;
      let new_value := visitor expected in
      if negb (expected =? new_value) then
        '(success, w) ← byte_cas x86 expected new_value card w;
        if (success : bool) then Some (modified card expected new_value, w) else modify_card fuel x86 visitor card w
      else Some (modified card expected new_value, w)
  end.

Fixpoint modify_head (fuel : nat) (x86 : bool) (visitor : Z -> Z) (card_cur card_end : Z) (log : modifications) (w : world) :
    option (Z * modifications * world) :=
  match fuel with
  | O => None
  | S fuel =>
      if negb (IsAligned sizeof_uintptr card_cur) && (card_cur <? card_end) then
        '(calls, w) ← modify_card (S (length w.1)) x86 visitor card_cur w;
        modify_head fuel x86 visitor (card_cur + 1) card_end (log ++ calls) w
      else Some (card_cur, log, w)
  end.

Fixpoint modify_end (fuel : nat) (x86 : bool) (visitor : Z -> Z) (card_cur card_end : Z) (log : modifications) (w : world) :
    option (Z * modifications * world) :=
  match fuel with
  | O => None
  | S fuel =>
      if negb (IsAligned sizeof_uintptr card_end) && (card_cur <? card_end) then
        let card_end := card_end - 1 in
        '(calls, w) ← modify_card (S (length w.1)) x86 visitor card_end w;
        modify_end fuel x86 visitor card_cur card_end (log ++ calls) w
      else Some (card_end, log, w)
  end.

(** The bytes of the union of a word and its bytes. *)
Definition word_byte (word i : Z) : Z := u8 (word ≫ (8 * i)).
Definition word_of_bytes (bytes : Z -> Z) : Z := load_bytes (Z.to_nat sizeof_uintptr) bytes 0.

Fixpoint modify_word (fuel : nat) (visitor : Z -> Z) (word_cur : Z) (w : world) : option (modifications * world) :=
  match fuel with
  | O => None
  | S fuel =>
      '(expected_word, w) ← load_word word_cur w;
      if expected_word =? 0 then Some ([], w)
      else
        let new_word := word_of_bytes (fun i => visitor (word_byte expected_word i)) in
        '(success, w) ← cas_word word_cur expected_word new_word w;
        if (success : bool) then
          Some (concat (map (fun i => modified (word_cur + i) (word_byte expected_word i) (word_byte new_word i)) (seqZ 0 sizeof_uintptr)), w)
        else modify_word fuel visitor word_cur w
  end.

Fixpoint modify_words (fuel : nat) (visitor : Z -> Z) (word_cur word_end : Z) (log : modifications) (w : world) :
    option (modifications * world) :=
  match fuel with
  | O => None
  | S fuel =>
      if word_cur <? word_end then
        '(calls, w) ← modify_word (S (length w.1)) visitor word_cur w;
        modify_words fuel visitor (word_cur + sizeof_uintptr) word_end (log ++ calls) w
      else Some (log, w)
  end.

Definition ModifyCardsAtomic (x86 : bool) (visitor : Z -> Z) (scan_begin scan_end : Z) (w : world) : option (modifications * world) :=
  let ct := w.2 in
  let card_cur := CardFromAddr ct scan_begin in
  let card_end := CardFromAddr ct (RoundUp W scan_end kCardSize) in
  let fuel := Z.to_nat (card_end - card_cur + 1) in
  '(card_cur, log, w) ← modify_head fuel x86 visitor card_cur card_end [] w;
  '(card_end, log, w) ← modify_end fuel x86 visitor card_cur card_end log w;
  modify_words fuel visitor card_cur card_end log w.
End card_table.

(** ** Well-formed tables *)

Section table.
Context (W : Z) (HW : W = 32 \/ W = 64).
#[local] Set Default Proof Using "HW".

(** A table for the [n] cards of a heap that begins at [heap_begin]: its bytes, its mapping and its
    bias. *)
Record table_ok (ct : CardTable) (heap_begin n : Z) : Prop := {
  ok_cards : bytes_ok (cards ct);
  ok_heap : 0 <= heap_begin /\ heap_begin mod kCardSize = 0 /\ heap_begin + n * kCardSize + kCardSize <= 2 ^ W;
  ok_mapping : 0 <= mem_begin ct /\ mem_begin ct mod 8 = 0 /\ base_size ct mod 8 = 0 /\ mem_size ct <= base_size ct /\
    mem_begin ct + base_size ct + kPageSize <= 2 ^ W;
  ok_offset : 0 <= n /\ 0 <= offset_ ct /\ offset_ ct + n < mem_size ct;
  ok_biased : biased_begin_ ct = uN W (mem_begin ct + offset_ ct - heap_begin / kCardSize) }.

(** The card of index [i]. *)
Definition card (ct : CardTable) (i : Z) : Z := mem_begin ct + offset_ ct + i.

Lemma kCardSize_val : kCardSize = 1024.
Proof using. done. Qed.

Lemma shiftr_card addr : addr ≫ kCardShift = addr / kCardSize.
Proof using. unfold kCardShift. by rewrite Z.shiftr_div_pow2. Qed.

Lemma CardFromAddr_spec ct hb n addr : table_ok ct hb n -> 0 <= addr - hb < n * kCardSize + kCardSize ->
  CardFromAddr W ct addr = card ct ((addr - hb) / kCardSize) /\ 0 <= (addr - hb) / kCardSize <= n.
Proof.
  intros [_ (Hh & Ha & _) Hm Ho Hb] Hr. unfold CardFromAddr, card. rewrite shiftr_card, Hb. rewrite kCardSize_val in *.
  assert (0 <= (addr - hb) / 1024 <= n) as Hi by (Z.div_mod_to_equations; lia). split; [|done].
  unfold kPageSize in *. unfold uN. rewrite Zplus_mod_idemp_l. rewrite Z.mod_small; [Z.div_mod_to_equations; lia|].
  replace (addr / 1024) with (hb / 1024 + (addr - hb) / 1024) by (Z.div_mod_to_equations; lia). lia.
Qed.

Lemma AddrFromCard_spec ct hb n i : table_ok ct hb n -> 0 <= i <= n -> AddrFromCard W ct (card ct i) = hb + i * kCardSize.
Proof.
  intros [_ (Hh & Ha & Ht) Hm Ho Hb] Hi. unfold AddrFromCard, card. rewrite Hb. rewrite kCardSize_val in *.
  assert (uN W (mem_begin ct + offset_ ct + i - uN W (mem_begin ct + offset_ ct - hb / 1024)) = hb / 1024 + i) as ->.
  { unfold uN. rewrite Zminus_mod_idemp_r. replace (mem_begin ct + offset_ ct + i - (mem_begin ct + offset_ ct - hb / 1024)) with (hb / 1024 + i) by lia.
    apply Z.mod_small. Z.div_mod_to_equations; lia. }
  rewrite Z.shiftl_mul_pow2 by done. change (2 ^ kCardShift) with 1024. rewrite uN_small by (unfold is_u; Z.div_mod_to_equations; lia).
  Z.div_mod_to_equations; lia.
Qed.

Lemma card_valid ct hb n i : table_ok ct hb n -> 0 <= i <= n -> IsValidCard ct (card ct i) = true /\ in_mapping ct (card ct i) 1 = true.
Proof. intros [_ _ Hm Ho _] Hi. unfold IsValidCard, in_mapping, card. rewrite !andb_true_iff, !Z.leb_le, Z.ltb_lt. lia. Qed.

(** The offset moves the bias to a multiple of 256 plus the value of a dirty card. *)
Lemma bias_offset b : 0 <= b < 256 ->
  let delta := s32 (uN W (kCardDirty - b)) in
  uN W (delta + (if delta <? 0 then 0x100 else 0)) = (kCardDirty - b) mod 256.
Proof.
  intros Hb. change kCardDirty with 112. cbv zeta. assert (s32 (uN W (112 - b)) = 112 - b) as ->.
  { assert (is_s 32 (112 - b)) as Hs by (split; [change (- 2 ^ (32 - 1)) with (- 2147483648)|change (2 ^ (32 - 1)) with 2147483648]; lia).
    destruct HW as [-> | ->]; [by rewrite sN_uN, sN_small|]. rewrite <- sN_small with (w := 32) (x := 112 - b) by done. apply sN_uN_eq; [done|].
    unfold uN. rewrite sN_small by done. apply Z.mod_mod_divide. by exists (2 ^ 32). }
  rewrite uN_small.
  - case_ltb; Z.div_mod_to_equations; lia.
  - split; [case_ltb; lia|]. apply Z.lt_le_trans with (2 ^ 32); [case_ltb; lia|apply Z.pow_le_mono_r; lia].
Qed.

Lemma low_byte x : x .& 0xff = x mod 256.
Proof using. change 0xff with (Z.ones 8). by rewrite Z.land_ones. Qed.

Lemma uN_mod_256 x : uN W x mod 256 = x mod 256.
Proof. unfold uN. apply Z.mod_mod_divide. destruct HW as [-> | ->]; [by exists (2 ^ 24)|by exists (2 ^ 56)]. Qed.

Lemma Create_table b hb capacity :
  0 < b -> b mod kPageSize = 0 -> 0 <= capacity -> b + capacity / kCardSize + 256 + 2 * kPageSize <= 2 ^ W ->
  0 <= hb -> hb mod kCardSize = 0 -> hb + capacity + kCardSize <= 2 ^ W ->
  exists ct, Create W (Some b) hb capacity = Some ct /\ table_ok ct hb (capacity / kCardSize) /\
    biased_begin_ ct mod 256 = kCardDirty /\ (forall a, cards ct a = kCardClean) /\ mem_begin ct = b.
Proof.
  intros Hb Hpage Hc Hov Hhb Ha Ht. unfold Create. cbn [mbind option_bind]. rewrite (proj2 (Z.eqb_neq _ _)) by lia. cbv zeta. rewrite !low_byte.
  set (n := capacity / kCardSize) in *. set (bias := uN W (b - (hb ≫ kCardShift))).
  assert (exists offset, (if negb (bias mod 256 =? kCardDirty) then
      let delta := s32 (uN W (kCardDirty - bias mod 256)) in let offset := uN W (delta + (if delta <? 0 then 0x100 else 0)) in (offset, uN W (bias + offset))
    else (0, bias)) = (offset, uN W (bias + offset)) /\ 0 <= offset < 256 /\ uN W (bias + offset) mod 256 = kCardDirty) as (offset & E1 & Ho & E).
  { assert (uN W bias = bias) as Eu by (unfold bias, uN; apply Zmod_mod). case_ltb; cbn [negb].
    - exists 0. rewrite Z.add_0_r, Eu. by split_and!.
    - rewrite (bias_offset (bias mod 256)) by (apply Z.mod_pos_bound; lia). eexists. split; [done|]. split; [apply Z.mod_pos_bound; lia|].
      rewrite uN_mod_256. change kCardDirty with 112. Z.div_mod_to_equations; lia. }
  cbv zeta in E1. rewrite E1, low_byte, E, Z.eqb_refl. eexists. split; [done|]. split_and!; [|done|done|done].
  assert (0 <= n) by (apply Z.div_pos; [done|rewrite kCardSize_val; lia]). unfold kPageSize in *.
  assert (2 ^ 12 <= 2 ^ W) by (apply Z.pow_le_mono_r; lia).
  assert (RoundUp W (n + 256) 4096 = (n + 256 + 4096 - 1) / 4096 * 4096) as ER by (apply (RoundUp_val W (n + 256) 12); change (2 ^ 12) with 4096 in *; lia).
  constructor; cbn [cards mem_begin mem_size base_size biased_begin_ offset_].
  - intros a. done.
  - split_and!; try done. unfold n. rewrite kCardSize_val in *. Z.div_mod_to_equations; lia.
  - unfold kPageSize. rewrite ER. split_and!; Z.div_mod_to_equations; lia.
  - lia.
  - unfold bias. rewrite shiftr_card. unfold uN. rewrite Zplus_mod_idemp_l. f_equal. lia.
Qed.

(** ** Bytes and words *)

Lemma word_byte_is_u v i : is_u 8 (word_byte v i).
Proof using. by apply uN_is_u. Qed.

Lemma load_bytes_byte n m a i : bytes_ok m -> 0 <= i < Z.of_nat n -> word_byte (load_bytes n m a) i = m (a + i).
Proof using.
  intros Hm Hi. apply Z.bits_inj'. intros j Hj. unfold word_byte. rewrite uN_testbit, Z.shiftr_spec, load_bytes_testbit by (done || lia).
  destruct (Z.ltb_spec j 8).
  - rewrite (proj2 (Z.ltb_lt _ _)) by lia. cbn [andb]. replace (8 * a + (j + 8 * i)) with (8 * (a + i) + j) by lia. by apply mbit_byte.
  - by rewrite (testbit_high 8 (m (a + i))) by (done || apply Hm).
Qed.

Lemma store_bytes_byte n m a v x :
  store_bytes n m a v x = if (a <=? x) && (x <? a + Z.of_nat n) then word_byte v (x - a) else m x.
Proof using.
  revert m a v. induction n as [|n IH]; intros m a v; cbn [store_bytes]; [repeat case_ltb; done || lia|].
  rewrite IH. unfold set_byte, word_byte. repeat case_ltb; try done; try lia.
  - rewrite Z.shiftr_shiftr by lia. do 2 f_equal. lia.
  - subst. by rewrite Z.sub_diag, Z.mul_0_r, Z.shiftr_0_r.
Qed.

Lemma sizeof_pos : sizeof_intptr W = 4 \/ sizeof_intptr W = 8.
Proof. destruct HW as [-> | ->]; [by left|by right]. Qed.

Lemma sizeof_bytes : Z.of_nat (Z.to_nat (W / 8)) = sizeof_intptr W.
Proof. by destruct HW as [-> | ->]. Qed.

Lemma load_byte m a i : bytes_ok m -> 0 <= i < sizeof_intptr W -> word_byte (Memory.load W m a) i = m (a + i).
Proof. intros Hm Hi. apply load_bytes_byte; [done|]. by rewrite sizeof_bytes. Qed.

Lemma store_byte m a v x :
  Memory.store W m a v x = if (a <=? x) && (x <? a + sizeof_intptr W) then word_byte v (x - a) else m x.
Proof. unfold Memory.store. by rewrite store_bytes_byte, sizeof_bytes. Qed.

Lemma load_zero m a i : bytes_ok m -> Memory.load W m a = 0 -> 0 <= i < sizeof_intptr W -> m (a + i) = 0.
Proof. intros Hm E Hi. rewrite <- load_byte, E by done. unfold word_byte. by rewrite Z.shiftr_0_l. Qed.

Lemma word_of_bytes_byte f i : (forall i, is_u 8 (f i)) -> 0 <= i < sizeof_intptr W -> word_byte (word_of_bytes W f) i = f i.
Proof. intros Hf Hi. unfold word_of_bytes. rewrite load_bytes_byte; [done|done|destruct sizeof_pos; lia]. Qed.

Lemma IsAligned_word a : IsAligned (sizeof_intptr W) a = (a mod sizeof_intptr W =? 0).
Proof. destruct sizeof_pos as [-> | ->]; [apply (IsAligned_mod 2)|apply (IsAligned_mod 3)]; done. Qed.

Lemma align_down_word a : a - (a .& (sizeof_intptr W - 1)) = a - a mod sizeof_intptr W.
Proof. destruct sizeof_pos as [-> | ->]; [change (4 - 1) with (Z.ones 2)|change (8 - 1) with (Z.ones 3)]; by rewrite Z.land_ones. Qed.

(** ** Scanning *)

Section scan.
Context (ct : CardTable) (hb n : Z) (Hct : table_ok ct hb n).
Context (bm : SpaceBitmap) (minimum_age : Z) (Hbm : bitmap_ok W kObjectAlignment bm) (Hage : 0 < minimum_age).
Context (Hal : aligned kObjectAlignment bm hb).
#[local] Set Default Proof Using "HW Hct Hbm Hage Hal".

(** The bitmap covers the card of index [i]. *)
Definition card_covered (i : Z) : Prop :=
  0 <= i <= n /\ heap_begin_ bm <= hb + i * kCardSize /\ hb + i * kCardSize + kCardSize <= heap_begin_ bm + bits W bm * kObjectAlignment.

Definition old_enough (i : Z) : bool := minimum_age <=? cards ct (card ct i).

Definition visit_card (i : Z) : list Z :=
  if old_enough i then reference_visit W kObjectAlignment bm (hb + i * kCardSize) (hb + i * kCardSize + kCardSize) else [].

(** What scanning [k] cards from index [i] on adds. *)
Definition scan_range (i k : Z) (acc : scanned) : scanned :=
  (acc.1 ++ concat (map visit_card (seqZ i k)), acc.2 + Z.of_nat (length (filter (fun j => old_enough j = true) (seqZ i k)))).

Lemma scan_range_0 i acc : scan_range i 0 acc = acc.
Proof. unfold scan_range. rewrite seqZ_nil by lia. cbn [map concat filter list_filter length]. rewrite app_nil_r, Z.add_0_r. by destruct acc. Qed.

Lemma scan_range_app i k l acc : 0 <= k -> 0 <= l -> scan_range (i + k) l (scan_range i k acc) = scan_range i (k + l) acc.
Proof.
  intros Hk Hl. unfold scan_range. cbn [fst snd]. rewrite seqZ_app by done. rewrite map_app, concat_app, filter_app, length_app, <- app_assoc. f_equal. lia.
Qed.

Lemma scan_range_clean i k acc : (forall j, i <= j < i + k -> cards ct (card ct j) = 0) -> scan_range i k acc = acc.
Proof.
  intros Hc. assert (forall j, j ∈ seqZ i k -> old_enough j = false) as Ho.
  { intros j Hj. apply elem_of_seqZ in Hj. unfold old_enough. rewrite Hc by lia. apply Z.leb_gt. lia. }
  unfold scan_range. rewrite filter_none by (intros j Hj; rewrite Ho by done; done).
  assert (concat (map visit_card (seqZ i k)) = []) as ->.
  { revert Ho. generalize (seqZ i k). intros l. induction l as [|x l IH]; intros Ho; cbn [map concat]; [done|]. unfold visit_card at 1.
    rewrite Ho by left. rewrite IH; [done|]. intros j Hj. apply Ho. by right. }
  rewrite app_nil_r, Z.add_0_r. by destruct acc.
Qed.

Lemma scan_card_spec i acc : card_covered i ->
  scan_card W bm minimum_age (cards ct (card ct i)) (hb + i * kCardSize) acc = Some (scan_range i 1 acc).
Proof.
  intros (Hi & Hlo & Hhi). unfold scan_card, scan_range. rewrite seqZ_cons, seqZ_nil by lia. cbn [map concat]. unfold visit_card, old_enough.
  rewrite filter_cons, filter_nil. destruct (Z.leb_spec minimum_age (cards ct (card ct i))); [|rewrite decide_False by done; cbn; rewrite app_nil_r, Z.add_0_r; by destruct acc].
  rewrite decide_True by done. destruct Hct as [_ (Hh & Ha & Ht) _ _ _]. rewrite kCardSize_val in *. unfold aligned in Hal. change kObjectAlignment with 8 in *.
  pose proof (ok_addresses _ _ _ Hbm). pose proof (ok_begin _ _ _ Hbm). rewrite uN_small by (unfold is_u; lia).
  rewrite (VisitMarkedRange_reference W 8); [|done|done|done|unfold covered; lia|lia|unfold aligned; Z.div_mod_to_equations; lia|unfold aligned; Z.div_mod_to_equations; lia].
  cbn. by rewrite app_nil_r.
Qed.

Lemma card_at_spec i : 0 <= i <= n -> card_at ct (card ct i) = Some (cards ct (card ct i)).
Proof. intros Hi. unfold card_at. by destruct (card_valid ct hb n i Hct Hi) as [_ ->]. Qed.

Lemma scan_step i acc : card_covered i ->
  scan_card W bm minimum_age (cards ct (card ct i)) (AddrFromCard W ct (card ct i)) acc = Some (scan_range i 1 acc).
Proof. intros Hi. rewrite (AddrFromCard_spec ct hb n) by (done || apply Hi). by apply scan_card_spec. Qed.

Lemma card_succ i : card ct i + 1 = card ct (i + 1).
Proof. unfold card. lia. Qed.

Lemma scan_head_spec fuel i e acc :
  0 <= i <= e -> e <= n -> e - i < Z.of_nat fuel -> (forall j, i <= j < e -> card_covered j) ->
  exists k, scan_head W fuel ct bm minimum_age (card ct i) (card ct e) acc = Some (card ct (i + k), scan_range i k acc) /\
    0 <= k <= e - i /\ (i + k < e -> card ct (i + k) mod sizeof_intptr W = 0).
Proof.
  revert i acc. induction fuel as [|fuel IH]; intros i acc Hi He Hf Hc; [lia|]. cbn [scan_head]. rewrite IsAligned_word.
  destruct (Z.eqb_spec (card ct i mod sizeof_intptr W) 0) as [E|E]; cbn [negb andb].
  { exists 0. rewrite Z.add_0_r, scan_range_0. split_and!; done || lia. }
  destruct (Z.ltb_spec (card ct i) (card ct e)) as [L|L]; unfold card in L.
  - rewrite card_at_spec by lia. cbn [mbind option_bind]. rewrite scan_step by (apply Hc; lia). cbn [mbind option_bind]. rewrite card_succ.
    destruct (IH (i + 1) (scan_range i 1 acc)) as (k & -> & Hk & Hm); [lia|lia|lia|intros; apply Hc; lia|].
    exists (1 + k). rewrite scan_range_app by lia. replace (i + (1 + k)) with (i + 1 + k) by lia. split_and!; done || lia.
  - exists 0. rewrite Z.add_0_r, scan_range_0. split_and!; done || lia.
Qed.

Lemma scan_tail_spec fuel i e acc :
  0 <= i <= e -> e <= n -> e - i < Z.of_nat fuel -> (forall j, i <= j < e -> card_covered j) ->
  scan_tail W fuel ct bm minimum_age (card ct i) (card ct e) acc = Some (scan_range i (e - i) acc).
Proof.
  revert i acc. induction fuel as [|fuel IH]; intros i acc Hi He Hf Hc; [lia|]. cbn [scan_tail].
  destruct (Z.ltb_spec (card ct i) (card ct e)) as [L|L]; unfold card in L.
  - rewrite card_at_spec by lia. cbn [mbind option_bind]. rewrite scan_step by (apply Hc; lia). cbn [mbind option_bind].
    rewrite card_succ, IH by (intros; (apply Hc; lia) || lia). rewrite scan_range_app by lia. do 2 f_equal. lia.
  - replace (e - i) with 0 by lia. by rewrite scan_range_0.
Qed.

Lemma word_at_spec i : 0 <= i -> i + sizeof_intptr W <= n -> word_at W ct (card ct i) = Some (Memory.load W (cards ct) (card ct i)).
Proof.
  intros H0 Hi. unfold word_at, in_mapping. destruct Hct as [_ _ Hm Ho _]. rewrite (proj2 (andb_true_iff _ _)); [done|]. rewrite !Z.leb_le. unfold card. lia.
Qed.

Lemma card_add i j : card ct i + j = card ct (i + j).
Proof. unfold card. lia. Qed.

Lemma scan_word_spec k i word acc :
  0 <= i -> i + Z.of_nat k <= n -> (forall j, i <= j < i + Z.of_nat k -> card_covered j) ->
  (forall j, 0 <= j < Z.of_nat k -> word_byte word j = cards ct (card ct (i + j))) ->
  scan_word W k bm minimum_age word (hb + i * kCardSize) acc = Some (scan_range i (Z.of_nat k) acc).
Proof.
  revert i word acc. induction k as [|k IH]; intros i word acc H0 Hi Hc Hw; cbn [scan_word]; [by rewrite scan_range_0|].
  assert (u8 word = cards ct (card ct i)) as -> by (rewrite <- (Z.add_0_r i) at 1; rewrite <- Hw by lia; unfold word_byte; by rewrite Z.mul_0_r, Z.shiftr_0_r).
  rewrite scan_card_spec by (apply Hc; lia). cbn [mbind option_bind].
  assert (uN W (hb + i * kCardSize + kCardSize) = hb + (i + 1) * kCardSize) as ->.
  { destruct Hct as [_ (Hh & Ha & Ht) _ _ _]. rewrite kCardSize_val in *. rewrite uN_small by (unfold is_u; lia). lia. }
  rewrite IH.
  - rewrite scan_range_app by lia. do 2 f_equal. lia.
  - lia.
  - lia.
  - intros j Hj. apply Hc. lia.
  - intros j Hj. replace (i + 1 + j) with (i + (j + 1)) by lia. rewrite <- Hw by lia. unfold word_byte. rewrite Z.shiftr_shiftr by lia. do 2 f_equal. lia.
Qed.

Lemma skip_clean_spec fuel i e :
  0 <= i < e -> e <= n -> (e - i) mod sizeof_intptr W = 0 -> e - i < Z.of_nat fuel ->
  exists r k, skip_clean W fuel ct (card ct i) (card ct e) = Some r /\ 0 <= k /\ (forall j, i <= j < i + k -> cards ct (card ct j) = 0) /\
    match r with
    | Some c => c = card ct (i + k) /\ k mod sizeof_intptr W = 0 /\ i + k < e
    | None => i + k = e
    end.
Proof.
  intros Hi He Hmod Hf. revert i Hi Hmod Hf. induction fuel as [|fuel IH]; intros i Hi Hmod Hf; [lia|]. cbn [skip_clean].
  assert (i + sizeof_intptr W <= e) as Hle by (destruct sizeof_pos as [E|E]; rewrite E in *; Z.div_mod_to_equations; lia).
  rewrite word_at_spec by lia. cbn [mbind option_bind]. destruct (Z.eqb_spec (Memory.load W (cards ct) (card ct i)) 0) as [E|E].
  2:{ exists (Some (card ct i)), 0. rewrite Z.add_0_r. split_and!; try done; lia. }
  assert (forall j, i <= j < i + sizeof_intptr W -> cards ct (card ct j) = 0) as Hz.
  { intros j Hj. replace j with (i + (j - i)) by lia. rewrite <- card_add. apply load_zero; [apply Hct|done|lia]. }
  rewrite card_add. assert (0 < sizeof_intptr W) by (destruct sizeof_pos; lia).
  destruct (Z.leb_spec (card ct e) (card ct (i + sizeof_intptr W))) as [L|L]; unfold card in L.
  - exists None, (sizeof_intptr W). split_and!; try done; lia.
  - destruct (IH (i + sizeof_intptr W)) as (r & k & -> & Hk & Hzk & Hr); [lia| |lia|].
    { replace (e - (i + sizeof_intptr W)) with (e - i - 1 * sizeof_intptr W) by lia. by rewrite Zminus_mod, Hmod, Z.mod_mul by lia. }
    exists r, (sizeof_intptr W + k). split_and!; [done|lia| |].
    + intros j Hj. destruct (decide (j < i + sizeof_intptr W)); [apply Hz; lia|apply Hzk; lia].
    + destruct r as [c|]; [|lia]. destruct Hr as (-> & Hm & Hlt). split_and!; [f_equal; lia| |lia].
      replace (sizeof_intptr W + k) with (k + 1 * sizeof_intptr W) by lia. rewrite Z.mod_add by lia. done.
Qed.

Lemma scan_words_spec fuel i e acc :
  0 <= i <= e -> e <= n -> (e - i) mod sizeof_intptr W = 0 -> e - i < Z.of_nat fuel -> (forall j, i <= j < e -> card_covered j) ->
  scan_words W fuel ct bm minimum_age (card ct i) (card ct e) acc = Some (scan_range i (e - i) acc).
Proof.
  intros Hi He Hmod Hf Hc. revert i acc Hi Hmod Hf Hc. induction fuel as [|fuel IH]; intros i acc Hi Hmod Hf Hc; [lia|]. cbn [scan_words].
  destruct (Z.ltb_spec (card ct i) (card ct e)) as [L|L]; unfold card in L.
  2:{ replace (e - i) with 0 by lia. by rewrite scan_range_0. }
  destruct (skip_clean_spec (S fuel) i e ltac:(lia) He Hmod Hf) as (r & k & -> & Hk & Hz & Hr). cbn [mbind option_bind].
  destruct r as [c|]; [|by rewrite scan_range_clean by (intros; apply Hz; lia)]. destruct Hr as (-> & Hm & Hlt).
  assert (0 < sizeof_intptr W) by (destruct sizeof_pos; lia).
  assert ((e - (i + k)) mod sizeof_intptr W = 0) as Hm'.
  { replace (e - (i + k)) with (e - i - k) by lia. by rewrite Zminus_mod, Hmod, Hm. }
  assert (i + k + sizeof_intptr W <= e) as Hle by (destruct sizeof_pos as [E|E]; rewrite E in *; Z.div_mod_to_equations; lia).
  rewrite word_at_spec by lia. cbn [mbind option_bind]. rewrite (AddrFromCard_spec ct hb n) by (done || lia).
  rewrite scan_word_spec; rewrite ?Z2Nat.id by lia; [|lia|lia|intros; apply Hc; lia|intros j Hj; rewrite <- (card_add (i + k) j); apply load_byte; [apply Hct|done]].
  cbn [mbind option_bind]. rewrite card_add, IH; [|lia| |lia|intros; apply Hc; lia].
  - rewrite scan_range_app by lia. rewrite <- (scan_range_clean i k acc Hz) at 1. rewrite scan_range_app by lia. do 2 f_equal. lia.
  - replace (e - (i + k + sizeof_intptr W)) with (e - (i + k) - 1 * sizeof_intptr W) by lia. by rewrite Zminus_mod, Hm', Z.mod_mul by lia.
Qed.

(** The objects whose card is old enough, among the marked ones: the loop over single objects. *)
Definition on_old_card (obj : Z) : bool := from_option (Z.leb minimum_age) false (GetCard W ct obj).
Definition reference_scan (begin end_ : Z) : list Z :=
  filter (fun obj => Test W kObjectAlignment bm obj = Some true /\ on_old_card obj = true) (VisitRange kObjectAlignment begin end_).

(** A card holds [per_card] objects. *)
Definition per_card : Z := kCardSize / kObjectAlignment.

Lemma card_objects i : hb + i * kCardSize = object kObjectAlignment bm (position kObjectAlignment bm hb + i * per_card).
Proof.
  pose proof Hal as Ha. unfold aligned, object, position, per_card in *. rewrite kCardSize_val. change kObjectAlignment with 8 in *. change (1024 / 8) with 128.
  Z.div_mod_to_equations; lia.
Qed.

Lemma GetCard_spec i obj : 0 <= i <= n -> hb + i * kCardSize <= obj < hb + i * kCardSize + kCardSize -> GetCard W ct obj = Some (cards ct (card ct i)).
Proof.
  intros Hi Ho. unfold GetCard. rewrite kCardSize_val in *. destruct (CardFromAddr_spec ct hb n obj Hct) as [-> _]; [rewrite kCardSize_val; lia|].
  rewrite kCardSize_val. replace ((obj - hb) / 1024) with i by (Z.div_mod_to_equations; lia). by apply card_at_spec.
Qed.

Lemma visit_card_reference i : card_covered i ->
  visit_card i = reference_scan (hb + i * kCardSize) (hb + (i + 1) * kCardSize).
Proof.
  intros (Hi & _). unfold visit_card, reference_scan, reference_visit. replace (hb + i * kCardSize + kCardSize) with (hb + (i + 1) * kCardSize) by lia.
  assert (forall obj, obj ∈ VisitRange kObjectAlignment (hb + i * kCardSize) (hb + (i + 1) * kCardSize) -> on_old_card obj = old_enough i) as Ho.
  { intros obj. rewrite !card_objects. replace ((i + 1) * per_card) with (i * per_card + per_card) by lia. rewrite Z.add_assoc.
    rewrite (VisitRange_objects W kObjectAlignment HW) by done. rewrite list_elem_of_In, in_map_iff. intros (k & <- & Hk).
    apply list_elem_of_In, elem_of_seqZ in Hk. unfold on_old_card. rewrite (GetCard_spec i); [done|done|]. rewrite card_objects. unfold object.
    unfold per_card in *. rewrite kCardSize_val in *. change kObjectAlignment with 8 in *. change (1024 / 8) with 128 in *. lia. }
  destruct (old_enough i).
  - apply filter_ext_in. intros obj Hin. rewrite Ho by done. intuition congruence.
  - symmetry. apply filter_none. intros obj Hin. rewrite Ho by done. intros [_ ?]. done.
Qed.

Lemma reference_scan_app i k l : 0 <= k -> 0 <= l ->
  reference_scan (hb + i * kCardSize) (hb + (i + (k + l)) * kCardSize) =
  reference_scan (hb + i * kCardSize) (hb + (i + k) * kCardSize) ++ reference_scan (hb + (i + k) * kCardSize) (hb + (i + k + l) * kCardSize).
Proof.
  intros Hk Hl. unfold reference_scan. rewrite <- filter_app. f_equal. rewrite !card_objects. set (p := position kObjectAlignment bm hb).
  replace (p + (i + (k + l)) * per_card) with (p + i * per_card + (k * per_card + l * per_card)) by lia.
  replace (p + (i + k + l) * per_card) with (p + i * per_card + k * per_card + l * per_card) by lia.
  replace (p + (i + k) * per_card) with (p + i * per_card + k * per_card) by lia.
  rewrite !(VisitRange_objects W kObjectAlignment HW) by (done || unfold per_card; rewrite kCardSize_val; change (1024 / kObjectAlignment) with 128; lia).
  rewrite seqZ_app by (unfold per_card; rewrite kCardSize_val; change (1024 / kObjectAlignment) with 128; lia). by rewrite map_app.
Qed.

Lemma visit_cards_reference k i : (forall j, i <= j < i + Z.of_nat k -> card_covered j) ->
  concat (map visit_card (seqZ i (Z.of_nat k))) = reference_scan (hb + i * kCardSize) (hb + (i + Z.of_nat k) * kCardSize).
Proof.
  revert i. induction k as [|k IH]; intros i Hc.
  - rewrite seqZ_nil by lia. unfold reference_scan. rewrite card_objects, !card_objects. replace ((i + Z.of_nat 0) * per_card) with (i * per_card) by lia.
    set (p := _ + _). replace (object kObjectAlignment bm p) with (object kObjectAlignment bm (p + 0)) at 2 by (f_equal; lia).
    by rewrite (VisitRange_objects W kObjectAlignment HW), seqZ_nil by done.
  - rewrite seqZ_cons by lia. cbn [map concat]. replace (Z.pred (Z.of_nat (S k))) with (Z.of_nat k) by lia.
    change (Z.succ i) with (i + 1). rewrite IH by (intros; apply Hc; lia). rewrite visit_card_reference by (apply Hc; lia).
    replace (Z.of_nat (S k)) with (1 + Z.of_nat k) by lia. by rewrite reference_scan_app by lia.
Qed.

(** The three loops of Scan. *)
Lemma scan_loops fuel i e :
  0 <= i <= e -> e <= n -> e - i < Z.of_nat fuel -> (forall j, i <= j < e -> card_covered j) ->
  ('(card_cur, acc) ← scan_head W fuel ct bm minimum_age (card ct i) (card ct e) ([], 0);
   if card_cur <? card ct e then
     acc ← scan_words W fuel ct bm minimum_age card_cur (card ct e - (card ct e .& (sizeof_intptr W - 1))) acc;
     scan_tail W fuel ct bm minimum_age (card ct e - (card ct e .& (sizeof_intptr W - 1))) (card ct e) acc
   else Some acc) =
  Some (reference_scan (hb + i * kCardSize) (hb + e * kCardSize), Z.of_nat (length (filter (fun j => old_enough j = true) (seqZ i (e - i))))).
Proof.
  intros Hi He Hf Hc. destruct (scan_head_spec fuel i e ([], 0) Hi He Hf Hc) as (k & -> & Hk & Hal'). cbn [mbind option_bind].
  assert (scan_range i (e - i) ([], 0) = (reference_scan (hb + i * kCardSize) (hb + e * kCardSize), Z.of_nat (length (filter (fun j => old_enough j = true) (seqZ i (e - i)))))) as E.
  { unfold scan_range. cbn [fst snd app]. f_equal. rewrite <- (Z2Nat.id (e - i)) by lia.
    rewrite visit_cards_reference by (intros; apply Hc; lia). do 3 f_equal. lia. }
  rewrite <- E. destruct (Z.ltb_spec (card ct (i + k)) (card ct e)) as [L|L]; unfold card in L.
  2:{ do 2 f_equal. lia. }
  rewrite align_down_word. specialize (Hal' ltac:(lia)).
  set (d := card ct e mod sizeof_intptr W). assert (0 <= d < sizeof_intptr W) as Hd by (apply Z.mod_pos_bound; destruct sizeof_pos; lia).
  replace (card ct e - d) with (card ct (e - d)) by (unfold card; lia).
  assert ((e - d - (i + k)) mod sizeof_intptr W = 0 /\ i + k <= e - d) as [Hm Hle].
  { unfold d, card in *. destruct sizeof_pos as [E4|E4]; rewrite E4 in *; Z.div_mod_to_equations; lia. }
  rewrite scan_words_spec by (intros; (apply Hc; lia) || lia). cbn [mbind option_bind].
  rewrite scan_range_app by lia. rewrite scan_tail_spec by (intros; (apply Hc; lia) || lia).
  replace (k + (e - d - (i + k))) with (e - d - i) by lia. pose proof (scan_range_app i (e - d - i) (e - (e - d)) ([], 0) ltac:(lia) ltac:(lia)) as Ea.
  replace (i + (e - d - i)) with (e - d) in Ea by lia. rewrite Ea. do 2 f_equal. lia.
Qed.
End scan.

(** ** Marking and clearing *)

Lemma table_ok_with ct m hb n : bytes_ok m -> table_ok ct hb n -> table_ok (with_cards ct m) hb n.
Proof. intros Hm []. by constructor. Qed.

Lemma ZeroAndReleasePages_fill kz m address length a :
  0 <= address -> 0 <= length -> address + length + kPageSize <= 2 ^ W ->
  ZeroAndReleasePages W kz m address length a = fill m address (address + length) 0 a.
Proof.
  intros Ha Hl Ht. unfold ZeroAndReleasePages. unfold kPageSize in *.
  pose proof (RoundUp_val W address 12 ltac:(lia) Ha ltac:(change (2 ^ 12) with 4096; lia)) as E1.
  pose proof (RoundDown_val W (address + length) 12 ltac:(lia) ltac:(unfold is_u; lia)) as E2. change (2 ^ 12) with 4096 in *. rewrite E1, E2.
  unfold fill. destruct (Z.eqb_spec length 0); [repeat case_ltb; cbn [andb]; done || lia|]. destruct kz; cbn [negb orb]; [|done].
  set (pb := (address + 4096 - 1) / 4096 * 4096) in *. set (pe := address + length - (address + length) mod 4096) in *.
  assert (address <= pb) by (unfold pb; Z.div_mod_to_equations; lia). assert (pe <= address + length) by (unfold pe; Z.div_mod_to_equations; lia).
  destruct (Z.leb_spec pe pb); [done|]. repeat case_ltb; cbn [andb]; done || lia.
Qed.

Lemma GetCard_index ct hb n addr : table_ok ct hb n -> 0 <= addr - hb < n * kCardSize + kCardSize ->
  GetCard W ct addr = Some (cards ct (card ct ((addr - hb) / kCardSize))).
Proof.
  intros Hct Ha. unfold GetCard. destruct (CardFromAddr_spec ct hb n addr Hct Ha) as [-> Hi]. unfold card_at.
  by destruct (card_valid ct hb n _ Hct Hi) as [_ ->].
Qed.

Lemma ClearCardRange_spec kz ct hb n i e :
  table_ok ct hb n -> 0 <= i <= e -> e <= n ->
  exists ct', ClearCardRange W kz ct (hb + i * kCardSize) (hb + e * kCardSize) = Some ct' /\ table_ok ct' hb n /\
    forall addr, 0 <= addr - hb < n * kCardSize + kCardSize ->
      GetCard W ct' addr = if (hb + i * kCardSize <=? addr) && (addr <? hb + e * kCardSize) then Some kCardClean else GetCard W ct addr.
Proof.
  intros Hct Hi He. pose proof Hct as [Hc (Hh & Ha & Ht) Hm Ho Hb]. unfold ClearCardRange.
  assert (forall k, IsAligned kCardSize (hb + k * kCardSize) = true) as Hal.
  { intros k. change kCardSize with (2 ^ 10) in *. rewrite IsAligned_mod by done. apply Z.eqb_eq. by rewrite Z.mod_add. }
  rewrite !Hal. cbn [andb negb].
  assert (forall k, 0 <= k <= n -> CardFromAddr W ct (hb + k * kCardSize) = card ct k) as Hcard.
  { intros k Hk. destruct (CardFromAddr_spec ct hb n (hb + k * kCardSize) Hct) as [-> _]; [rewrite kCardSize_val; lia|]. f_equal. rewrite kCardSize_val. Z.div_mod_to_equations; lia. }
  rewrite !Hcard by lia. unfold in_mapping. rewrite (proj2 (andb_true_iff _ _)) by (rewrite !Z.leb_le; unfold card; lia).
  eexists. split; [done|]. set (m := ZeroAndReleasePages _ _ _ _ _).
  assert (forall a, m a = fill (cards ct) (card ct i) (card ct e) 0 a) as Em.
  { intros a. unfold m. rewrite ZeroAndReleasePages_fill by (unfold card; lia). f_equal. lia. }
  assert (table_ok (with_cards ct m) hb n) as Hok.
  { apply table_ok_with; [|done]. intros a. rewrite Em. unfold fill. destruct (_ && _); [done|apply Hc]. }
  split; [done|]. intros addr Hr. rewrite !(GetCard_index _ hb n) by done. cbn [cards with_cards]. rewrite Em. unfold fill.
  change (card (with_cards ct m)) with (card ct). unfold card. rewrite kCardSize_val in *.
  assert (((mem_begin ct + offset_ ct + i <=? mem_begin ct + offset_ ct + (addr - hb) / 1024) && (mem_begin ct + offset_ ct + (addr - hb) / 1024 <? mem_begin ct + offset_ ct + e)) =
    (hb + i * 1024 <=? addr) && (addr <? hb + e * 1024)) as ->.
  { apply eq_true_iff_eq. rewrite !andb_true_iff, !Z.leb_le, !Z.ltb_lt. Z.div_mod_to_equations; lia. }
  by destruct (_ && _).
Qed.

Lemma MarkCard_spec ct hb n addr : table_ok ct hb n -> 0 <= addr - hb < n * kCardSize + kCardSize ->
  exists ct', MarkCard W ct addr = Some ct' /\ table_ok ct' hb n /\
    forall a, 0 <= a - hb < n * kCardSize + kCardSize ->
      GetCard W ct' a = if a / kCardSize =? addr / kCardSize then Some kCardDirty else GetCard W ct a.
Proof.
  intros Hct Ha. unfold MarkCard, set_card. destruct (CardFromAddr_spec ct hb n addr Hct Ha) as [-> Hi].
  destruct (card_valid ct hb n _ Hct Hi) as [_ ->]. eexists. split; [done|].
  assert (table_ok (with_cards ct (set_byte (cards ct) (card ct ((addr - hb) / kCardSize)) kCardDirty)) hb n) as Hok.
  { apply table_ok_with; [|done]. by apply bytes_ok_set_byte; [apply Hct|]. }
  split; [done|]. intros a Hr. rewrite !(GetCard_index _ hb n) by done. cbn [cards with_cards]. unfold set_byte.
  change (card (with_cards ct _)) with (card ct). unfold card. destruct Hct as [_ (Hh & Hm & _) _ _ _]. rewrite kCardSize_val in *.
  assert ((a / 1024 =? addr / 1024) = ((a - hb) / 1024 =? (addr - hb) / 1024)) as ->.
  { apply eq_true_iff_eq. rewrite !Z.eqb_eq. Z.div_mod_to_equations; lia. }
  repeat case_ltb; done || lia.
Qed.

Lemma visit_clear_spec fuel ct hb n i e :
  table_ok ct hb n -> 0 <= i <= e -> e <= n -> e - i < Z.of_nat fuel ->
  exists m, visit_clear fuel ct (card ct i) (card ct e) =
      Some (with_cards ct m, map (card ct) (filter (fun j => cards ct (card ct j) = kCardDirty) (seqZ i (e - i)))) /\
    forall a, m a = if (card ct i <=? a) && (a <? card ct e) && (cards ct a =? kCardDirty) then kCardClean else cards ct a.
Proof.
  revert ct i. induction fuel as [|fuel IH]; intros ct i Hct Hi He Hf; [lia|]. cbn [visit_clear].
  destruct (Z.eqb_spec (card ct i) (card ct e)) as [E|E]; unfold card in E; cbn [negb].
  { exists (cards ct). rewrite seqZ_nil by lia. split; [by destruct ct|]. intros a. unfold card. repeat case_ltb; cbn [andb]; done || lia. }
  unfold card_at. destruct (card_valid ct hb n i Hct ltac:(lia)) as [_ Em]. rewrite Em. cbn [mbind option_bind].
  rewrite seqZ_cons, filter_cons by lia. replace (card ct i + 1) with (card ct (i + 1)) by (unfold card; lia).
  replace (Z.pred (e - i)) with (e - (i + 1)) by lia. change (Z.succ i) with (i + 1).
  destruct (Z.eqb_spec (cards ct (card ct i)) kCardDirty) as [D|D].
  - rewrite decide_True by done. unfold set_card. rewrite Em. cbn [mbind option_bind]. set (ct1 := with_cards ct _).
    assert (table_ok ct1 hb n) as Hok1 by (apply table_ok_with; [by apply bytes_ok_set_byte; [apply Hct|]|done]).
    destruct (IH ct1 (i + 1) Hok1) as (m & E1 & Hm); [lia|lia|lia|]. change (card ct1) with (card ct) in *. rewrite E1. cbn [mbind option_bind].
    exists m. split.
    + cbn [map]. change (with_cards ct1 m) with (with_cards ct m). do 4 f_equal. apply filter_ext_in. intros j Hj. apply elem_of_seqZ in Hj.
      unfold ct1. cbn [cards with_cards]. unfold set_byte. rewrite (proj2 (Z.eqb_neq _ _)) by (unfold card; lia). done.
    + intros a. rewrite Hm. unfold ct1. cbn [cards with_cards]. unfold set_byte, card in *. repeat case_ltb; cbn [andb]; subst; done || lia || congruence.
  - rewrite decide_False by done. destruct (IH ct (i + 1) Hct) as (m & E1 & Hm); [lia|lia|lia|]. rewrite E1. exists m. split; [done|].
    intros a. rewrite Hm. unfold card in *. repeat case_ltb; cbn [andb]; subst; try (done || lia). exfalso. apply D. rewrite <- e0. f_equal. lia.
Qed.

(** The cards of a range of addresses. *)
Lemma card_bounds ct hb n b e : table_ok ct hb n -> hb <= b <= e -> e <= hb + n * kCardSize ->
  exists i k, RoundDown W b kCardSize = hb + i * kCardSize /\ RoundUp W e kCardSize = hb + k * kCardSize /\
    (b - hb) / kCardSize = i /\ CardFromAddr W ct b = card ct i /\ CardFromAddr W ct (RoundUp W e kCardSize) = card ct k /\
    0 <= i <= k /\ k <= n.
Proof.
  intros Hct Hb He. pose proof Hct as [_ (Hh & Ha & Ht) _ _ _]. exists ((b - hb) / kCardSize), ((e - hb + kCardSize - 1) / kCardSize).
  rewrite kCardSize_val in *. pose proof (RoundDown_val W b 10 ltac:(lia) ltac:(unfold is_u; lia)) as E1.
  pose proof (RoundUp_val W e 10 ltac:(lia) ltac:(lia) ltac:(change (2 ^ 10) with 1024; lia)) as E2. change (2 ^ 10) with 1024 in *.
  assert (RoundUp W e 1024 = hb + (e - hb + 1024 - 1) / 1024 * 1024) as E3 by (rewrite E2; Z.div_mod_to_equations; lia).
  assert (0 <= (b - hb) / 1024 <= (e - hb + 1024 - 1) / 1024 /\ (e - hb + 1024 - 1) / 1024 <= n) as Hik by (Z.div_mod_to_equations; lia).
  pose proof (CardFromAddr_spec ct hb n b Hct) as C1. pose proof (CardFromAddr_spec ct hb n (RoundUp W e 1024) Hct) as C2. rewrite kCardSize_val in *.
  split_and!; try lia; [rewrite E1; Z.div_mod_to_equations; lia|].
  destruct C2 as [-> _]; [lia|]. f_equal. rewrite E3. Z.div_mod_to_equations; lia.
Qed.

(** ** Modifying cards under interference *)

Section modify.
Context (ct0 : CardTable) (hb n : Z) (Hct : table_ok ct0 hb n).
Context (x86 : bool) (visitor : Z -> Z) (Hvis : forall v, is_u 8 v -> is_u 8 (visitor v)) (Hclean : visitor kCardClean = kCardClean).
Context (events0 : list interference).
#[local] Set Default Proof Using "HW Hct Hvis Hclean".

(** The card was marked by one of the interferences [used]. *)
Definition dirtied_by (used : list interference) (c : Z) : bool := existsb (fun e => bool_decide (c ∈ dirtied e)) used.

Definition calls_of (c : Z) (log : modifications) : modifications := filter (fun call => call.1.1 = c) log.

(** The state of a card.  Before its turn it has its first value, unless others marked it.  At its turn
    it had a value [v] and got [visitor v], which is reported; marks by others after that stay. *)
Definition card_state (used : list interference) (log : modifications) (m : memory) (done : bool) (c : Z) : Prop :=
  if done then
    exists v, calls_of c log = modified c v (visitor v) /\
      (if dirtied_by used c then m c = kCardDirty \/ (v = kCardDirty /\ m c = visitor v) else v = cards ct0 c /\ m c = visitor v)
  else calls_of c log = [] /\ m c = if dirtied_by used c then kCardDirty else cards ct0 c.

Record running (done : Z -> bool) (log : modifications) (w : world) (used : list interference) : Prop := {
  run_events : events0 = used ++ w.1;
  run_table : w.2 = with_cards ct0 (cards w.2) /\ bytes_ok (cards w.2);
  run_cards : forall c, card_state used log (cards w.2) (done c) c }.

Lemma calls_of_app c l1 l2 : calls_of c (l1 ++ l2) = calls_of c l1 ++ calls_of c l2.
Proof using. apply filter_app. Qed.

Lemma dirtied_by_app used e c : dirtied_by (used ++ [e]) c = dirtied_by used c || bool_decide (c ∈ dirtied e).
Proof using. unfold dirtied_by. rewrite existsb_app. cbn [existsb]. by rewrite orb_false_r. Qed.

Lemma disturb_running done log w used : running done log w used ->
  exists used', running done log (disturb w).2 used' /\ (length (disturb w).2.1 <= length w.1)%nat /\
    ((length (disturb w).2.1 < length w.1)%nat \/ disturb w = (false, w)).
Proof.
  intros [He [Ht Hb] Hc]. destruct w as [[|e events] ct]; unfold disturb; cbn [fst snd] in *.
  - exists used. split_and!; [by constructor|lia|by right].
  - exists (used ++ [e]). split_and!; cbn [length]; [|lia|left; lia]. constructor; cbn [fst snd cards mark_by_others with_cards].
    + by rewrite <- app_assoc.
    + rewrite Ht. split; [done|]. intros a. cbn. destruct (bool_decide _); [done|apply Hb].
    + intros c. specialize (Hc c). unfold card_state in *. rewrite dirtied_by_app. destruct (done c).
      * destruct Hc as (v & El & Hv). exists v. split; [done|].
        destruct (dirtied_by used c), (bool_decide (c ∈ dirtied e)); cbn [orb]; auto.
      * destruct Hc as [El Hv]. split; [done|]. destruct (dirtied_by used c), (bool_decide (c ∈ dirtied e)); cbn [orb]; done.
Qed.

(** The cards of an interval take their turn at once. *)
Lemma finish_running done log w used m calls lo len :
  running done log w used -> (forall c, lo <= c < lo + len -> done c = false) -> bytes_ok m ->
  (forall c, m c = if (lo <=? c) && (c <? lo + len) then visitor (cards w.2 c) else cards w.2 c) ->
  (forall c, calls_of c calls = if (lo <=? c) && (c <? lo + len) then modified c (cards w.2 c) (visitor (cards w.2 c)) else []) ->
  running (fun c => done c || ((lo <=? c) && (c <? lo + len))) (log ++ calls) (w.1, with_cards w.2 m) used.
Proof.
  intros [He [Ht Hb] Hc] Hd Hm Em Ec. constructor; cbn [fst snd cards with_cards]; [done|by rewrite Ht|].
  intros c. specialize (Hc c). specialize (Em c). specialize (Ec c). specialize (Hd c). unfold card_state in *. rewrite calls_of_app, Ec, Em.
  destruct ((lo <=? c) && (c <? lo + len)) eqn:E.
  - rewrite Hd, orb_true_r in * by (apply andb_true_iff in E; rewrite Z.leb_le, Z.ltb_lt in E; done). destruct Hc as [-> Hv].
    exists (cards w.2 c). split; [done|]. destruct (dirtied_by used c); auto.
  - by rewrite orb_false_r, app_nil_r.
Qed.

Lemma running_ext done done' log w used : (forall c, done c = done' c) -> running done log w used -> running done' log w used.
Proof. intros E [He Ht Hc]. constructor; [done|done|]. intros c. rewrite <- E. apply Hc. Qed.

Lemma running_valid done log w used i : running done log w used -> 0 <= i <= n -> in_mapping w.2 (card ct0 i) 1 = true.
Proof. intros [_ [-> _] _] Hi. by destruct (card_valid ct0 hb n i Hct Hi). Qed.

(** The card [c] alone: the new table of a successful compare-and-swap. *)
Lemma calls_of_modified c c' v : calls_of c (modified c' v (visitor v)) = if c =? c' then modified c' v (visitor v) else [].
Proof.
  unfold modified. destruct (v =? visitor v); cbn [negb]; [by destruct (_ =? _)|]. unfold calls_of. cbn.
  destruct (Z.eqb_spec c c') as [->|Hne]; [by rewrite decide_True|by rewrite decide_False by congruence].
Qed.

Lemma finish_card done log w used m c0 :
  running done log w used -> done c0 = false -> bytes_ok m ->
  (forall c, m c = if c =? c0 then visitor (cards w.2 c0) else cards w.2 c) ->
  running (fun c => done c || (c =? c0)) (log ++ modified c0 (cards w.2 c0) (visitor (cards w.2 c0))) (w.1, with_cards w.2 m) used.
Proof.
  intros Hr Hd Hm Em. eapply running_ext; [|eapply (finish_running done log w used m _ c0 1 Hr)]; try done.
  - intros c. cbv beta. f_equal. repeat case_ltb; cbn [andb]; done || lia.
  - intros c Hc. by replace c with c0 by lia.
  - intros c. rewrite Em. repeat case_ltb; cbn [andb]; subst; done || lia.
  - intros c. rewrite calls_of_modified. repeat case_ltb; cbn [andb]; subst; done || lia.
Qed.

Lemma word_bits : 8 * sizeof_intptr W = W.
Proof using HW. clear -HW. by destruct HW as [-> | ->]. Qed.

(** The word of [byte_cas]: one byte replaced. *)
Lemma replace_byte word s v j :
  0 <= s < sizeof_intptr W -> 0 <= j < sizeof_intptr W -> is_u 8 v ->
  word_byte ((word .& uN W (.~ (uN W (0xFF ≪ (s * kBitsPerByte))))) .| uN W (v ≪ (s * kBitsPerByte))) j = if j =? s then v else word_byte word j.
Proof.
  intros Hs Hj Hv. unfold kBitsPerByte. pose proof word_bits as HS. assert (0 <= W) by lia.
  change 0xFF with (Z.ones 8). apply Z.bits_inj'. intros b Hb. unfold word_byte.
  destruct (Z.ltb_spec b 8).
  2:{ rewrite uN_testbit by lia. rewrite (proj2 (Z.ltb_ge _ _)) by lia. cbn [andb]. case_ltb; [by rewrite (testbit_high 8 v) by (done || lia)|].
      rewrite uN_testbit by lia. by rewrite (proj2 (Z.ltb_ge _ _)) by lia. }
  rewrite uN_testbit, (proj2 (Z.ltb_lt b 8)), Z.shiftr_spec, Z.lor_spec, Z.land_spec, !uN_testbit, (proj2 (Z.ltb_lt (b + 8 * j) W)) by lia.
  cbn [andb]. rewrite Z.lnot_spec, uN_testbit, !shiftl_testbit, Z.testbit_ones, (proj2 (Z.ltb_lt (b + 8 * j) W)) by lia. cbn [andb].
  destruct (Z.eqb_spec j s) as [->|Hne].
  - replace (b + 8 * s - s * 8) with b by lia. rewrite (proj2 (Z.leb_le 0 b)), (proj2 (Z.ltb_lt b 8)) by lia. cbn [andb negb]. by rewrite andb_false_r.
  - rewrite uN_testbit, Z.shiftr_spec, (proj2 (Z.ltb_lt b 8)) by lia. cbn [andb].
    assert (Z.testbit v (b + 8 * j - s * 8) = false) as ->.
    { destruct (decide (b + 8 * j - s * 8 < 0)); [by apply Z.testbit_neg_r|]. apply (testbit_high 8); [done|lia]. }
    assert ((0 <=? b + 8 * j - s * 8) && (b + 8 * j - s * 8 <? 8) = false) as -> by (repeat case_ltb; cbn [andb]; done || lia).
    cbn [negb]. by rewrite andb_true_r, orb_false_r.
Qed.

(** A word is its bytes. *)
Lemma word_ext x y : is_u W x -> is_u W y -> (forall j, 0 <= j < sizeof_intptr W -> word_byte x j = word_byte y j) -> x = y.
Proof.
  intros Hx Hy Hb. pose proof word_bits as HS. apply Z.bits_inj'. intros i Hi.
  destruct (decide (i < W)); [|by rewrite !(testbit_high W) by (done || lia)].
  pose proof (Z.div_mod i 8 ltac:(lia)). pose proof (Z.mod_pos_bound i 8 ltac:(lia)).
  assert (Z.testbit (word_byte x (i / 8)) (i mod 8) = Z.testbit (word_byte y (i / 8)) (i mod 8)) as E by (rewrite Hb; [done|Z.div_mod_to_equations; lia]).
  unfold word_byte in E. rewrite !uN_testbit, !Z.shiftr_spec, (proj2 (Z.ltb_lt (i mod 8) 8)) in E by lia. cbn [andb] in E.
  by replace (i mod 8 + 8 * (i / 8)) with i in E by lia.
Qed.

Lemma load_is_u m a : bytes_ok m -> is_u W (Memory.load W m a).
Proof.
  intros Hm. apply is_u_bits; [lia|by apply load_nonneg|]. intros i Hi. assert (W mod 8 = 0) by (clear -HW; by destruct HW as [-> | ->]). rewrite load_testbit by (done || lia).
  by rewrite (proj2 (Z.ltb_ge _ _)) by lia.
Qed.

Lemma running_word done log w used c : running done log w used ->
  mem_begin ct0 <= c < mem_begin ct0 + base_size ct0 -> in_mapping w.2 (c - c mod sizeof_intptr W) (sizeof_intptr W) = true.
Proof.
  intros [_ [-> _] _] Hc. destruct Hct as [_ _ (H0 & H1 & H2 & _) _ _]. unfold in_mapping. cbn [mem_begin base_size with_cards].
  rewrite andb_true_iff, !Z.leb_le. destruct sizeof_pos as [E|E]; rewrite E; Z.div_mod_to_equations; lia.
Qed.

(** Outcome of a compare-and-swap on a card that has value [expected] when it was read. *)
Definition cas_outcome (done : Z -> bool) (log : modifications) (w : world) (c expected : Z) (r : option (bool * world)) : Prop :=
  exists ok w' used', r = Some (ok, w') /\
    if ok then running (fun c' => done c' || (c' =? c)) (log ++ modified c expected (visitor expected)) w' used'
    else running done log w' used' /\ (length w'.1 < length w.1)%nat.

Lemma cas_card_outcome done log w used c expected :
  running done log w used -> in_mapping ct0 c 1 = true -> done c = false -> expected = cards w.2 c ->
  cas_outcome done log w c expected (cas_card c expected (visitor expected) w).
Proof.
  intros Hr Hm Hd He. destruct (disturb_running _ _ _ _ Hr) as (used' & Hr' & Hlen & Hdec). unfold cas_card, cas_outcome.
  destruct (disturb w) as [failure w1] eqn:Ed. cbn [snd] in *. pose proof (run_table _ _ _ _ Hr') as [Ht Hb].
  assert (in_mapping w1.2 c 1 = true) as Hm1 by (by rewrite Ht). unfold card_at. rewrite Hm1. cbn [mbind option_bind].
  destruct (negb failure && (cards w1.2 c =? expected)) eqn:E.
  - apply andb_true_iff in E as [_ E%Z.eqb_eq]. unfold set_card. rewrite Hm1. cbn [mbind option_bind]. eexists true, _, used'. split; [done|].
    rewrite <- E. apply finish_card; [done|done| |].
    + apply bytes_ok_set_byte; [done|]. apply Hvis, Hb.
    + intros c'. unfold set_byte. by case_ltb.
  - exists false, w1, used'. split; [done|]. split; [done|]. destruct Hdec as [?|Hd']; [done|]. simplify_eq. by rewrite Z.eqb_refl in E.
Qed.

Lemma cas_byte_outcome done log w used c expected :
  running done log w used -> mem_begin ct0 <= c < mem_begin ct0 + base_size ct0 -> done c = false -> expected = cards w.2 c ->
  cas_outcome done log w c expected (byte_cas W false expected (visitor expected) c w).
Proof.
  intros Hr Hm Hd He. unfold byte_cas, load_word, cas_word, cas_outcome. set (s := c mod sizeof_intptr W). set (a := c - s).
  assert (0 <= s < sizeof_intptr W) as Hs by (apply Z.mod_pos_bound; destruct sizeof_pos; lia).
  assert (is_u 8 expected) as Hu by (subst; apply (run_table _ _ _ _ Hr)).
  destruct (disturb_running _ _ _ _ Hr) as (used1 & Hr1 & Hlen1 & Hdec1). destruct (disturb w) as [failure1 w1] eqn:Ed1. cbn [snd] in *.
  pose proof (run_table _ _ _ _ Hr1) as [_ Hb1]. unfold word_at. rewrite (running_word _ _ _ _ c Hr1 Hm : in_mapping w1.2 a _ = true).
  cbn [mbind option_bind]. set (word := Memory.load W (cards w1.2) a).
  destruct (disturb_running _ _ _ _ Hr1) as (used2 & Hr2 & Hlen2 & Hdec2). destruct (disturb w1) as [failure2 w2] eqn:Ed2. cbn [snd] in *.
  pose proof (run_table _ _ _ _ Hr2) as [_ Hb2]. rewrite (running_word _ _ _ _ c Hr2 Hm : in_mapping w2.2 a _ = true). cbn [mbind option_bind].
  set (old_word := _ .| uN W (expected ≪ _)). set (new_word := _ .| _).
  destruct (negb failure2 && (Memory.load W (cards w2.2) a =? old_word)) eqn:E.
  - apply andb_true_iff in E as [_ E%Z.eqb_eq]. unfold set_word. rewrite (running_word _ _ _ _ c Hr2 Hm : in_mapping w2.2 a _ = true).
    cbn [mbind option_bind]. eexists true, _, used2. split; [done|].
    assert (forall j, 0 <= j < sizeof_intptr W -> cards w2.2 (a + j) = if j =? s then expected else word_byte word j) as Hold.
    { intros j Hj. rewrite <- load_byte, E by done. by apply replace_byte. }
    assert (cards w2.2 c = expected) as Ec by (replace c with (a + s) by (unfold a; lia); rewrite Hold, Z.eqb_refl by done; done).
    rewrite <- Ec at 1 2. apply finish_card; [done|done|by apply bytes_ok_store|].
    intros c'. rewrite store_byte. destruct ((a <=? c') && (c' <? a + sizeof_intptr W)) eqn:Ein.
    2:{ destruct (Z.eqb_spec c' c) as [->|]; [|done]. unfold a in Ein. apply andb_false_iff in Ein. rewrite Z.leb_gt, Z.ltb_ge in Ein. lia. }
    apply andb_true_iff in Ein. rewrite Z.leb_le, Z.ltb_lt in Ein. unfold new_word. rewrite replace_byte by (lia || by apply Hvis).
    rewrite Ec. replace (cards w2.2 c') with (cards w2.2 (a + (c' - a))) by (f_equal; lia). rewrite Hold by lia. unfold a. repeat case_ltb; done || lia.
  - exists false, w2, used2. split; [done|]. split; [done|]. destruct Hdec1 as [?|[= E1 E2]]; [lia|].
    destruct Hdec2 as [?|[= E3 E4]]; [rewrite E2 in *; lia|]. subst failure2 w2. cbn [negb andb] in E. apply Z.eqb_neq in E. exfalso. apply E.
    apply word_ext; [by apply load_is_u| |].
    + apply lor_is_u; [lia| |apply uN_is_u; lia]. apply land_is_u; [lia|by apply load_is_u].
    + intros j Hj. unfold old_word. rewrite replace_byte by done. case_ltb; [|done]. subst j. unfold word. rewrite load_byte, He, E2 by done. f_equal. unfold a. lia.
Qed.

Lemma modify_card_spec fuel done log w used i :
  running done log w used -> 0 <= i <= n -> done (card ct0 i) = false -> (length w.1 < fuel)%nat ->
  exists calls w' used', modify_card W fuel x86 visitor (card ct0 i) w = Some (calls, w') /\
    running (fun c => done c || (c =? card ct0 i)) (log ++ calls) w' used'.
Proof.
  revert w used. induction fuel as [|fuel IH]; intros w used Hr Hi Hd Hf; [lia|]. cbn [modify_card]. unfold load_card.
  destruct (disturb_running _ _ _ _ Hr) as (used1 & Hr1 & Hlen1 & _). set (w1 := (disturb w).2) in *. unfold card_at. rewrite (running_valid _ _ _ _ i Hr1 Hi).
  cbn [mbind option_bind]. set (v := cards w1.2 (card ct0 i)). destruct (Z.eqb_spec v (visitor v)) as [E|E]; cbn [negb].
  - eexists _, w1, used1. split; [done|]. replace w1 with (w1.1, with_cards w1.2 (cards w1.2)) at 1 by (destruct w1 as [? []]; done).
    pose proof (run_table _ _ _ _ Hr1) as [_ Hb1]. apply finish_card; [done|done|done|]. intros c. case_ltb; [|done]. subst. unfold v in E. congruence.
  - assert (cas_outcome done log w1 (card ct0 i) v (byte_cas W x86 v (visitor v) (card ct0 i) w1)) as (ok & w2 & used2 & -> & Ho).
    { destruct (card_valid ct0 hb n i Hct Hi) as [_ Hm]. destruct x86; [by apply (cas_card_outcome _ _ _ used1)|].
      apply (cas_byte_outcome _ _ _ used1); [done| |done|done]. unfold in_mapping in Hm. rewrite andb_true_iff, !Z.leb_le in Hm. lia. }
    cbn [mbind option_bind]. destruct ok; [by eexists _, w2, used2|]. destruct Ho as [Hr2 Hlt]. apply (IH w2 used2); [done|done|done|lia].
Qed.

Lemma calls_of_word c a f lo k :
  calls_of c (concat (map (fun j => modified (a + j) (f j) (visitor (f j))) (seqZ lo (Z.of_nat k)))) =
  if (a + lo <=? c) && (c <? a + lo + Z.of_nat k) then modified c (f (c - a)) (visitor (f (c - a))) else [].
Proof.
  revert lo. induction k as [|k IH]; intros lo.
  - rewrite seqZ_nil by lia. repeat case_ltb; cbn [andb]; done || lia.
  - rewrite seqZ_cons by lia. cbn [map concat]. rewrite calls_of_app, calls_of_modified. replace (Z.pred (Z.of_nat (S k))) with (Z.of_nat k) by lia.
    change (Z.succ lo) with (lo + 1). rewrite IH. destruct (Z.eqb_spec c (a + lo)) as [->|Hne].
    + replace (a + lo - a) with lo by lia. repeat case_ltb; cbn [andb]; rewrite ?app_nil_r; done || lia.
    + repeat case_ltb; cbn [andb]; done || lia.
Qed.

Definition interval (lo hi c : Z) : bool := (card ct0 lo <=? c) && (c <? card ct0 hi).

Lemma modify_card_word_spec fuel done log w used i :
  running done log w used -> 0 <= i -> i + sizeof_intptr W <= n -> (forall c, interval i (i + sizeof_intptr W) c = true -> done c = false) ->
  (length w.1 < fuel)%nat ->
  exists calls w' used', modify_word W fuel visitor (card ct0 i) w = Some (calls, w') /\
    running (fun c => done c || interval i (i + sizeof_intptr W) c) (log ++ calls) w' used'.
Proof.
  intros Hr H0 Hi Hd Hf. revert w used Hr Hf. induction fuel as [|fuel IH]; intros w used Hr Hf; [lia|]. cbn [modify_word]. unfold load_word.
  assert (forall w used, running done log w used -> in_mapping w.2 (card ct0 i) (sizeof_intptr W) = true) as Hmap.
  { intros w0 u0 [_ [-> _] _]. destruct Hct as [_ _ Hm Ho _]. unfold in_mapping, card. cbn [mem_begin base_size with_cards]. rewrite andb_true_iff, !Z.leb_le. lia. }
  assert (forall c, interval i (i + sizeof_intptr W) c = (card ct0 i <=? c) && (c <? card ct0 i + sizeof_intptr W)) as Hint.
  { intros c. unfold interval. f_equal. f_equal. unfold card. lia. }
  assert (forall c, card ct0 i <= c < card ct0 i + sizeof_intptr W -> done c = false) as Hd'.
  { intros c Hc. apply Hd. rewrite Hint, andb_true_iff, Z.leb_le, Z.ltb_lt. lia. }
  destruct (disturb_running _ _ _ _ Hr) as (used1 & Hr1 & Hlen1 & _). set (w1 := (disturb w).2) in *. pose proof (run_table _ _ _ _ Hr1) as [_ Hb1].
  unfold word_at. rewrite (Hmap _ _ Hr1). cbn [mbind option_bind]. set (ew := Memory.load W (cards w1.2) (card ct0 i)).
  destruct (Z.eqb_spec ew 0) as [E|E].
  - eexists [], w1, used1. split; [done|]. replace w1 with (w1.1, with_cards w1.2 (cards w1.2)) at 1 by (destruct w1 as [? []]; done).
    assert (forall c, (card ct0 i <=? c) && (c <? card ct0 i + sizeof_intptr W) = true -> cards w1.2 c = 0) as Hz.
    { intros c. rewrite andb_true_iff, Z.leb_le, Z.ltb_lt. intros Hc. replace c with (card ct0 i + (c - card ct0 i)) by lia. apply load_zero; [done|done|lia]. }
    change 0 with kCardClean in Hz.
    apply (running_ext (fun c => done c || ((card ct0 i <=? c) && (c <? card ct0 i + sizeof_intptr W)))); [intros c; by rewrite Hint|]. apply finish_running; [done|done|done| |]; intros c; specialize (Hz c); destruct (_ && _); try done; rewrite Hz by done.
    + by rewrite Hclean.
    + unfold modified. by rewrite Hclean, Z.eqb_refl.
  - unfold cas_word. set (nw := word_of_bytes W _). destruct (disturb_running _ _ _ _ Hr1) as (used2 & Hr2 & Hlen2 & Hdec2).
    destruct (disturb w1) as [failure w2] eqn:Ed2. cbn [snd] in *. pose proof (run_table _ _ _ _ Hr2) as [_ Hb2]. unfold word_at. rewrite (Hmap _ _ Hr2). cbn [mbind option_bind].
    destruct (negb failure && (Memory.load W (cards w2.2) (card ct0 i) =? ew)) eqn:Eok.
    2:{ cbn [mbind option_bind]. apply (IH w2 used2 Hr2). destruct Hdec2 as [?|[= -> ->]]; [lia|]. by rewrite Z.eqb_refl in Eok. }
    apply andb_true_iff in Eok as [_ Eok%Z.eqb_eq]. unfold set_word. rewrite (Hmap _ _ Hr2). cbn [mbind option_bind]. eexists _, _, used2. split; [done|].
    assert (forall j, 0 <= j < sizeof_intptr W -> word_byte ew j = cards w2.2 (card ct0 i + j)) as He by (intros j Hj; rewrite <- Eok; by apply load_byte).
    assert (forall j, 0 <= j < sizeof_intptr W -> word_byte nw j = visitor (word_byte ew j)) as Hn.
    { intros j Hj. unfold nw. rewrite word_of_bytes_byte; [done| |done]. intros k. apply Hvis, word_byte_is_u. }
    apply (running_ext (fun c => done c || ((card ct0 i <=? c) && (c <? card ct0 i + sizeof_intptr W)))); [intros c; by rewrite Hint|]. apply finish_running; [done|done|by apply bytes_ok_store| |].
    + intros c. rewrite store_byte. destruct (_ && _) eqn:Ein; [|done]. rewrite andb_true_iff, Z.leb_le, Z.ltb_lt in Ein. rewrite Hn, He by lia. do 2 f_equal. lia.
    + intros c. erewrite map_ext_in; [|intros j Hj%list_elem_of_In; apply elem_of_seqZ in Hj; rewrite Hn by lia; reflexivity].
      assert (0 < sizeof_intptr W) by (destruct sizeof_pos; lia). rewrite <- (Z2Nat.id (sizeof_intptr W)) by lia.
      rewrite calls_of_word, Z.add_0_r, Z2Nat.id by lia. destruct (_ && _) eqn:Ein; [|done]. rewrite andb_true_iff, Z.leb_le, Z.ltb_lt in Ein.
      rewrite He by lia. by replace (card ct0 i + (c - card ct0 i)) with c by lia.
Qed.

Lemma interval_split done lo mid hi : lo <= mid <= hi -> forall c,
  done c || interval lo mid c || interval mid hi c = done c || interval lo hi c.
Proof using. intros H c. rewrite <- orb_assoc. f_equal. unfold interval, card. repeat case_ltb; cbn [andb orb]; done || lia. Qed.

Lemma interval_one i c : interval i (i + 1) c = (c =? card ct0 i).
Proof using. unfold interval, card. repeat case_ltb; cbn [andb]; done || lia. Qed.

Lemma interval_true lo hi c : interval lo hi c = true <-> card ct0 lo <= c < card ct0 hi.
Proof using. unfold interval. by rewrite andb_true_iff, Z.leb_le, Z.ltb_lt. Qed.

Lemma modify_head_spec fuel done log w used i e :
  running done log w used -> 0 <= i <= e -> e <= n -> e - i < Z.of_nat fuel -> (forall c, interval i e c = true -> done c = false) ->
  exists k log' w' used', modify_head W fuel x86 visitor (card ct0 i) (card ct0 e) log w = Some (card ct0 (i + k), log', w') /\
    0 <= k <= e - i /\ (i + k < e -> card ct0 (i + k) mod sizeof_intptr W = 0) /\ running (fun c => done c || interval i (i + k) c) log' w' used'.
Proof.
  revert done log w used i. induction fuel as [|fuel IH]; intros done log w used i Hr Hi He Hf Hd; [lia|]. cbn [modify_head]. rewrite IsAligned_word.
  assert (running (fun c => done c || interval i (i + 0) c) log w used) as Hr0.
  { eapply running_ext; [|exact Hr]. intros c. unfold interval, card. symmetry. repeat case_ltb; cbn [andb]; rewrite ?orb_false_r; done || lia. }
  destruct (Z.eqb_spec (card ct0 i mod sizeof_intptr W) 0) as [E|E]; cbn [negb andb].
  { exists 0, log, w, used. rewrite Z.add_0_r in *. split_and!; done || lia. }
  destruct (Z.ltb_spec (card ct0 i) (card ct0 e)) as [L|L]; unfold card in L.
  2:{ exists 0, log, w, used. rewrite Z.add_0_r in *. split_and!; done || lia. }
  destruct (modify_card_spec (S (length w.1)) done log w used i Hr) as (calls & w1 & used1 & -> & Hr1);
    [lia|apply Hd, interval_true; unfold card; lia|lia|].
  cbn [mbind option_bind]. replace (card ct0 i + 1) with (card ct0 (i + 1)) by (unfold card; lia).
  destruct (IH _ _ w1 used1 (i + 1) Hr1) as (k & log' & w' & used' & -> & Hk & Hm & Hr'); [lia|lia|lia| |].
  { intros c Hc%interval_true. rewrite Hd by (apply interval_true; unfold card in *; lia). cbn [orb]. apply Z.eqb_neq. unfold card in *. lia. }
  exists (1 + k), log', w', used'. replace (i + (1 + k)) with (i + 1 + k) by lia. split_and!; [done|lia|lia|done|].
  eapply running_ext; [|exact Hr']. intros c. cbv beta. rewrite <- interval_one. apply (interval_split done i (i + 1) (i + 1 + k)). lia.
Qed.

Lemma modify_end_spec fuel done log w used i e :
  running done log w used -> 0 <= i <= e -> e <= n -> e - i < Z.of_nat fuel -> (forall c, interval i e c = true -> done c = false) ->
  exists k log' w' used', modify_end W fuel x86 visitor (card ct0 i) (card ct0 e) log w = Some (card ct0 (e - k), log', w') /\
    0 <= k <= e - i /\ (i < e - k -> card ct0 (e - k) mod sizeof_intptr W = 0) /\ running (fun c => done c || interval (e - k) e c) log' w' used'.
Proof.
  revert done log w used e. induction fuel as [|fuel IH]; intros done log w used e Hr Hi He Hf Hd; [lia|]. cbn [modify_end]. rewrite IsAligned_word.
  assert (running (fun c => done c || interval (e - 0) e c) log w used) as Hr0.
  { eapply running_ext; [|exact Hr]. intros c. unfold interval, card. symmetry. repeat case_ltb; cbn [andb]; rewrite ?orb_false_r; done || lia. }
  destruct (Z.eqb_spec (card ct0 e mod sizeof_intptr W) 0) as [E|E]; cbn [negb andb].
  { exists 0, log, w, used. rewrite Z.sub_0_r in *. split_and!; done || lia. }
  destruct (Z.ltb_spec (card ct0 i) (card ct0 e)) as [L|L]; unfold card in L.
  2:{ exists 0, log, w, used. rewrite Z.sub_0_r in *. split_and!; done || lia. }
  replace (card ct0 e - 1) with (card ct0 (e - 1)) by (unfold card; lia).
  destruct (modify_card_spec (S (length w.1)) done log w used (e - 1) Hr) as (calls & w1 & used1 & -> & Hr1);
    [lia|apply Hd, interval_true; unfold card; lia|lia|].
  cbn [mbind option_bind]. destruct (IH _ _ w1 used1 (e - 1) Hr1) as (k & log' & w' & used' & -> & Hk & Hm & Hr'); [lia|lia|lia| |].
  { intros c Hc%interval_true. rewrite Hd by (apply interval_true; unfold card in *; lia). cbn [orb]. apply Z.eqb_neq. unfold card in *. lia. }
  exists (1 + k), log', w', used'. replace (e - (1 + k)) with (e - 1 - k) by lia. split_and!; [done|lia|lia|done|].
  eapply running_ext; [|exact Hr']. intros c. cbv beta. rewrite <- interval_one, <- orb_assoc, (orb_comm (interval (e - 1) _ c)), orb_assoc.
  replace (e - 1 + 1) with e by lia. apply (interval_split done (e - 1 - k) (e - 1) e). lia.
Qed.

Lemma modify_words_spec fuel done log w used i e :
  running done log w used -> 0 <= i <= e -> e <= n -> (e - i) mod sizeof_intptr W = 0 -> e - i < Z.of_nat fuel -> (forall c, interval i e c = true -> done c = false) ->
  exists log' w' used', modify_words W fuel visitor (card ct0 i) (card ct0 e) log w = Some (log', w') /\
    running (fun c => done c || interval i e c) log' w' used'.
Proof.
  intros Hr Hi He. revert done log w used i Hr Hi. induction fuel as [|fuel IH]; intros done log w used i Hr Hi Hmod Hf Hd; [lia|]. cbn [modify_words].
  destruct (Z.ltb_spec (card ct0 i) (card ct0 e)) as [L|L]; unfold card in L.
  2:{ exists log, w, used. split; [done|]. eapply running_ext; [|exact Hr]. intros c. unfold interval, card. symmetry. repeat case_ltb; cbn [andb]; rewrite ?orb_false_r; done || lia. }
  assert (0 < sizeof_intptr W) by (destruct sizeof_pos; lia).
  assert (i + sizeof_intptr W <= e) as Hle by (destruct sizeof_pos as [E|E]; rewrite E in *; Z.div_mod_to_equations; lia).
  destruct (modify_card_word_spec (S (length w.1)) done log w used i Hr) as (calls & w1 & used1 & -> & Hr1);
    [lia|lia|intros c Hc%interval_true; apply Hd, interval_true; unfold card in *; lia|lia|].
  cbn [mbind option_bind]. replace (card ct0 i + sizeof_intptr W) with (card ct0 (i + sizeof_intptr W)) by (unfold card; lia).
  destruct (IH _ _ w1 used1 (i + sizeof_intptr W) Hr1) as (log' & w' & used' & -> & Hr'); [lia| |lia| |].
  - replace (e - (i + sizeof_intptr W)) with (e - i - 1 * sizeof_intptr W) by lia. by rewrite Zminus_mod, Hmod, Z.mod_mul by lia.
  - intros c Hc%interval_true. rewrite Hd by (apply interval_true; unfold card in *; lia). cbn [orb]. apply andb_false_iff. rewrite Z.ltb_ge. right. lia.
  - exists log', w', used'. split; [done|]. eapply running_ext; [|exact Hr']. intros c. cbv beta. apply (interval_split done). lia.
Qed.
End modify.

Lemma VisitClear_spec ct hb n start end_ :
  table_ok ct hb n -> hb <= start <= end_ -> end_ < hb + n * kCardSize + kCardSize ->
  exists ct2 visited, VisitClear W ct start end_ = Some (ct2, visited) /\ table_ok ct2 hb n /\
     map (AddrFromCard W ct) visited =
       filter (fun a => IsDirty W ct a = Some true) (map (fun i => hb + i * kCardSize) (seqZ ((start - hb) / kCardSize) (end_ / kCardSize - start / kCardSize))) /\
     forall a, 0 <= a - hb < n * kCardSize + kCardSize ->
       GetCard W ct2 a = if (start / kCardSize <=? a / kCardSize) && (a / kCardSize <? end_ / kCardSize) && bool_decide (IsDirty W ct a = Some true)
                         then Some kCardClean else GetCard W ct a.
Proof.
  intros Hct Hs He. pose proof Hct as [Hc (Hh & Hal & _) Hm Ho _]. unfold VisitClear.
  destruct (CardFromAddr_spec ct hb n start Hct) as [-> Hi]; [lia|]. destruct (CardFromAddr_spec ct hb n end_ Hct) as [-> Hk]; [lia|].
  set (i := (start - hb) / kCardSize) in *. set (k := (end_ - hb) / kCardSize) in *.
  assert (i <= k) by (apply Z.div_le_mono; [done|lia]).
  assert (forall j, hb / kCardSize + (j - hb) / kCardSize = j / kCardSize) as Hdiv by (intros j; rewrite kCardSize_val in *; Z.div_mod_to_equations; lia).
  assert (forall a, 0 <= a - hb < n * kCardSize + kCardSize -> IsDirty W ct a = Some (cards ct (card ct ((a - hb) / kCardSize)) =? kCardDirty)) as Hdirty.
  { intros a Ha. unfold IsDirty. by rewrite (GetCard_index ct hb n). }
  destruct (visit_clear_spec (Z.to_nat (base_size ct + 1)) ct hb n i k Hct) as (m & -> & Em); [lia|lia|lia|].
  assert (table_ok (with_cards ct m) hb n) as Hok.
  { apply table_ok_with; [|done]. intros a. rewrite Em. destruct (_ && _); [done|apply Hc]. }
  eexists _, _. split_and!; [done|done| |].
  - rewrite <- (Hdiv end_), <- (Hdiv start). fold i k. replace (hb / kCardSize + k - (hb / kCardSize + i)) with (k - i) by lia.
    rewrite filter_map, map_map. erewrite map_ext_in; [f_equal|].
    + apply filter_ext_in. intros j Hj. apply elem_of_seqZ in Hj. rewrite Hdirty by (rewrite kCardSize_val in *; lia).
      replace ((hb + j * kCardSize - hb) / kCardSize) with j by (rewrite kCardSize_val; Z.div_mod_to_equations; lia).
      destruct (Z.eqb_spec (cards ct (card ct j)) kCardDirty); split; congruence.
    + intros j Hj%list_elem_of_In. apply list_elem_of_filter in Hj as [_ Hj]. apply elem_of_seqZ in Hj. cbv beta. apply (AddrFromCard_spec ct hb n); [done|lia].
  - intros a Ha. rewrite !(GetCard_index _ hb n) by done. rewrite Hdirty by done. cbn [cards with_cards]. change (card (with_cards ct m)) with (card ct).
    rewrite Em, <- (Hdiv start), <- (Hdiv a), <- (Hdiv end_). fold i k. set (j := (a - hb) / kCardSize).
    assert ((card ct i <=? card ct j) && (card ct j <? card ct k) = (hb / kCardSize + i <=? hb / kCardSize + j) && (hb / kCardSize + j <? hb / kCardSize + k)) as ->
      by (unfold card; repeat case_ltb; cbn [andb]; done || lia).
    replace (bool_decide (Some (cards ct (card ct j) =? kCardDirty) = Some true)) with (cards ct (card ct j) =? kCardDirty); [by destruct (_ && _)|].
    by destruct (cards ct (card ct j) =? kCardDirty).
Qed.
End table.

(** ** Properties *)

(** C20: Scanning a range of the heap visits, card by card and word by word, exactly the marked objects
    that lie on a card of at least the minimum age, in address order: what a loop over all objects of
    the cards of the range finds.  It counts those cards, reads only the table and the bitmap, and with
    kClearCard leaves the cards of the range clean and the others as they were; clearing aborts when
    the range does not begin and end at a card. *)
Theorem CardTable_scan (W : Z) (kMadviseZeroes kClearCard : bool) (ct : CardTable) (hb n : Z) (bm : SpaceBitmap)
    (scan_begin scan_end minimum_age : Z) :
  W = 32 \/ W = 64 -> table_ok W ct hb n -> bitmap_ok W kObjectAlignment bm -> aligned kObjectAlignment bm hb -> 0 < minimum_age ->
  hb <= scan_begin <= scan_end -> scan_end <= hb + n * kCardSize ->
  heap_begin_ bm <= RoundDown W scan_begin kCardSize -> RoundUp W scan_end kCardSize <= heap_begin_ bm + bits W bm * kObjectAlignment ->
  let r := Scan W kMadviseZeroes kClearCard ct bm scan_begin scan_end minimum_age in
  if kClearCard && negb (IsAligned kCardSize scan_begin && IsAligned kCardSize scan_end) then r = None
  else exists count ct',
    r = Some (reference_scan W ct bm minimum_age (RoundDown W scan_begin kCardSize) (RoundUp W scan_end kCardSize), count, ct') /\
    count = Z.of_nat (length (filter (fun i => old_enough ct minimum_age i = true)
      (seqZ ((scan_begin - hb) / kCardSize) ((RoundUp W scan_end kCardSize - RoundDown W scan_begin kCardSize) / kCardSize)))) /\
    table_ok W ct' hb n /\
    forall addr, 0 <= addr - hb < n * kCardSize + kCardSize ->
      GetCard W ct' addr = if kClearCard && (scan_begin <=? addr) && (addr <? scan_end) then Some kCardClean else GetCard W ct addr.
Proof.
  intros HW Hct Hbm Hal Hage Hb He Hlo Hhi r. destruct (card_bounds W HW ct hb n scan_begin scan_end Hct Hb He) as (i & e & Ei & Ee & Ed & Ci & Ce & Hie & Hen).
  rewrite Ee in Ce, Hhi. rewrite Ei in Hlo. rewrite Ei, Ee. assert (forall j, i <= j < e -> card_covered W hb n bm j) as Hc.
  { intros j Hj. unfold card_covered. rewrite kCardSize_val in *. lia. }
  pose proof (scan_loops W HW ct hb n Hct bm minimum_age Hbm Hage Hal (Z.to_nat (card ct e - card ct i + 1)) i e Hie Hen ltac:(unfold card; lia) Hc) as HS.
  assert (r = ct' ← (if kClearCard then ClearCardRange W kMadviseZeroes ct scan_begin scan_end else Some ct);
    Some (reference_scan W ct bm minimum_age (hb + i * kCardSize) (hb + e * kCardSize), Z.of_nat (length (filter (fun j => old_enough ct minimum_age j = true) (seqZ i (e - i)))), ct')) as Er.
  { unfold r, Scan. rewrite Ci, Ee, Ce. destruct (scan_head W _ _ _ _ _ _ _) as [[cur acc]|]; cbn [mbind option_bind] in *; [|done]. by rewrite HS. }
  clearbody r. subst r. rewrite Ed. replace ((hb + e * kCardSize - (hb + i * kCardSize)) / kCardSize) with (e - i) by (rewrite kCardSize_val; Z.div_mod_to_equations; lia).
  destruct kClearCard; cbn [andb].
  2:{ cbn [mbind option_bind]. by eexists _, _. }
  destruct (IsAligned kCardSize scan_begin && IsAligned kCardSize scan_end) eqn:Ea; cbn [negb]; [|unfold ClearCardRange; by rewrite Ea].
  assert (scan_begin = hb + i * kCardSize /\ scan_end = hb + e * kCardSize) as [-> ->].
  { apply andb_true_iff in Ea as [A1 A2]. destruct Hct as [_ (Hh & Ha & Ht) _ _ _]. change kCardSize with (2 ^ 10) in *.
    rewrite IsAligned_mod, Z.eqb_eq in A1, A2 by done. rewrite RoundDown_val in Ei by (unfold is_u; lia). rewrite RoundUp_val in Ee by lia.
    change (2 ^ 10) with 1024 in *. Z.div_mod_to_equations; lia. }
  destruct (ClearCardRange_spec W HW kMadviseZeroes ct hb n i e Hct Hie Hen) as (ct' & -> & Hok & Hg). cbn [mbind option_bind].
  eexists _, ct'. split; [done|]. split; [done|]. split; [done|]. intros addr Ha. by rewrite Hg.
Qed.

Lemma CardTable_scan_witness :
  let ct := Table (fun a => if a =? 0x5003 then kCardDirty else 0) 0x5000 0x120 0x1000 (0x5000 - 0x40) 0 in
  let bm := Bitmap (replicate 64 5) 256 0x10000 0x14000 in
  let r := Scan 32 true true ct bm 0x10400 0x12000 kCardDirty in
  exists count ct', r = Some (reference_scan 32 ct bm kCardDirty (RoundDown 32 0x10400 kCardSize) (RoundUp 32 0x12000 kCardSize), count, ct') /\
    count = Z.of_nat (length (filter (fun i => old_enough ct kCardDirty i = true)
      (seqZ ((0x10400 - 0x10000) / kCardSize) ((RoundUp 32 0x12000 kCardSize - RoundDown 32 0x10400 kCardSize) / kCardSize)))) /\
    table_ok 32 ct' 0x10000 16 /\
    forall addr, 0 <= addr - 0x10000 < 16 * kCardSize + kCardSize ->
      GetCard 32 ct' addr = if true && (0x10400 <=? addr) && (addr <? 0x12000) then Some kCardClean else GetCard 32 ct addr.
Proof.
  intros ct bm. apply (CardTable_scan 32 true true ct 0x10000 16 bm 0x10400 0x12000 kCardDirty); try (by left); try done.
  - constructor; try done. intros a. cbn. by destruct (a =? _).
  - constructor; [|done|done]. apply Forall_replicate. done.
Defined.

(** C11: ModifyCardsAtomic under any interference: whatever cards other threads mark between its
    accesses, and however often a compare-and-swap fails, on processors with and without a
    compare-and-swap of bytes, it terminates inside the table.  Every card of the range takes one
    turn, in which its value [v] at that time becomes [visitor v], reported when that is a change; no
    other card changes; and no mark is lost: a card that others mark is dirty at the end, or it was
    dirty at its turn. *)
Theorem CardTable_modify (W : Z) (x86 : bool) (visitor : Z -> Z) (events : list interference) (ct : CardTable) (hb n scan_begin scan_end : Z) :
  W = 32 \/ W = 64 -> table_ok W ct hb n -> (forall v, is_u 8 v -> is_u 8 (visitor v)) -> visitor kCardClean = kCardClean ->
  hb <= scan_begin <= scan_end -> scan_end <= hb + n * kCardSize ->
  exists log w used, ModifyCardsAtomic W x86 visitor scan_begin scan_end (events, ct) = Some (log, w) /\ events = used ++ w.1 /\
    w.2 = with_cards ct (cards w.2) /\
    forall c, card_state ct visitor used log (cards w.2)
      ((CardFromAddr W ct scan_begin <=? c) && (c <? CardFromAddr W ct (RoundUp W scan_end kCardSize))) c.
Proof.
  intros HW Hct Hvis Hclean Hb He. destruct (card_bounds W HW ct hb n scan_begin scan_end Hct Hb He) as (i & e & _ & _ & _ & Ci & Ce & Hie & Hen).
  unfold ModifyCardsAtomic. cbn [snd]. rewrite Ci, Ce. set (fuel := Z.to_nat _). assert (e - i < Z.of_nat fuel) as Hf by (unfold fuel, card; lia).
  assert (running ct visitor events (fun _ => false) [] (events, ct) []) as Hr0.
  { constructor; cbn [fst snd]; [done|split; [by destruct ct|apply Hct]|]. intros c. done. }
  destruct (modify_head_spec W HW ct hb n Hct x86 visitor Hvis Hclean events fuel _ _ _ _ i e Hr0 Hie Hen Hf) as (k & log1 & w1 & used1 & -> & Hk & Hm1 & Hr1); [done|].
  cbn [mbind option_bind].
  destruct (modify_end_spec W HW ct hb n Hct x86 visitor Hvis Hclean events fuel _ _ _ _ (i + k) e Hr1) as (l & log2 & w2 & used2 & -> & Hl & Hm2 & Hr2); [lia|lia|lia| |].
  { intros c Hc%interval_true. cbn [orb]. apply andb_false_iff. rewrite Z.ltb_ge. lia. }
  cbn [mbind option_bind].
  destruct (modify_words_spec W HW ct hb n Hct visitor Hvis Hclean events fuel _ _ _ _ (i + k) (e - l) Hr2) as (log & w & used & -> & Hr); [lia|lia| |lia| |].
  { destruct (decide (i + k = e - l)) as [->|]; [by rewrite Z.sub_diag|]. specialize (Hm1 ltac:(lia)). specialize (Hm2 ltac:(lia)).
    replace (e - l - (i + k)) with (card ct (e - l) - card ct (i + k)) by (unfold card; lia). by rewrite Zminus_mod, Hm1, Hm2. }
  { intros c Hc%interval_true. cbn [orb]. apply orb_false_iff. unfold interval. split; apply andb_false_iff; rewrite Z.ltb_ge, Z.leb_gt; lia. }
  exists log, w, used. pose proof Hr as [H1 [H2 _] H3]. split_and!; [done|done|done|]. intros c. specialize (H3 c). cbv beta in H3.
  replace ((card ct i <=? c) && (c <? card ct e)) with (false || interval ct i (i + k) c || interval ct (e - l) e c || interval ct (i + k) (e - l) c); [done|].
  unfold interval, card. repeat case_ltb; cbn [andb orb]; done || lia.
Qed.

Lemma CardTable_modify_witness :
  let ct := Table (fun a => if a =? 0x5003 then kCardDirty else 0) 0x5000 0x120 0x1000 (0x5000 - 0x40) 0 in
  let events := [Interference [0x5003; 0x5004] true; Interference [] true; Interference [0x5002] false] in
  exists log w used, ModifyCardsAtomic 32 false AgeCardVisitor 0x10400 0x12000 (events, ct) = Some (log, w) /\ events = used ++ w.1 /\
    w.2 = with_cards ct (cards w.2) /\
    forall c, card_state ct AgeCardVisitor used log (cards w.2)
      ((CardFromAddr 32 ct 0x10400 <=? c) && (c <? CardFromAddr 32 ct (RoundUp 32 0x12000 kCardSize))) c.
Proof.
  intros ct events. apply (CardTable_modify 32 false AgeCardVisitor events ct 0x10000 16 0x10400 0x12000); try (by left); try done.
  - constructor; try done. intros a. cbn. by destruct (a =? _).
  - intros v Hv. unfold AgeCardVisitor. destruct (Z.eqb_spec v kCardDirty) as [->|]; done.
Defined.

(** C26: The write barrier's table.  A new table has a clean card for every address of the heap, and its
    bias ends in the byte of a dirty card.  The card of an address leads back to the first address of
    its card.  Marking dirties exactly the card of the address; VisitClear visits exactly the dirty
    cards of its range, in order, and makes exactly those clean. *)
Theorem CardTable_barrier (W b hb capacity : Z) (ct : CardTable) (n addr start end_ : Z) :
  W = 32 \/ W = 64 ->
  0 < b -> b mod kPageSize = 0 -> 0 <= capacity -> b + capacity / kCardSize + 256 + 2 * kPageSize <= 2 ^ W ->
  0 <= hb -> hb mod kCardSize = 0 -> hb + capacity + kCardSize <= 2 ^ W ->
  table_ok W ct hb n -> 0 <= addr - hb < n * kCardSize + kCardSize -> hb <= start <= end_ -> end_ < hb + n * kCardSize + kCardSize ->
  (exists ct0, Create W (Some b) hb capacity = Some ct0 /\ table_ok W ct0 hb (capacity / kCardSize) /\ biased_begin_ ct0 mod 256 = kCardDirty /\
     forall a, 0 <= a - hb < capacity -> AddrIsInCardTable W ct0 a = true /\ IsClean W ct0 a = Some true) /\
  AddrFromCard W ct (CardFromAddr W ct addr) = addr - addr mod kCardSize /\
  (exists ct1, MarkCard W ct addr = Some ct1 /\ table_ok W ct1 hb n /\
     forall a, 0 <= a - hb < n * kCardSize + kCardSize ->
       GetCard W ct1 a = if a / kCardSize =? addr / kCardSize then Some kCardDirty else GetCard W ct a) /\
  (exists ct2 visited, VisitClear W ct start end_ = Some (ct2, visited) /\ table_ok W ct2 hb n /\
     map (AddrFromCard W ct) visited =
       filter (fun a => IsDirty W ct a = Some true) (map (fun i => hb + i * kCardSize) (seqZ ((start - hb) / kCardSize) (end_ / kCardSize - start / kCardSize))) /\
     forall a, 0 <= a - hb < n * kCardSize + kCardSize ->
       GetCard W ct2 a = if (start / kCardSize <=? a / kCardSize) && (a / kCardSize <? end_ / kCardSize) && bool_decide (IsDirty W ct a = Some true)
                         then Some kCardClean else GetCard W ct a).
Proof.
  intros HW Hb Hpage Hc Hov Hhb Ha Ht Hct Haddr Hs He. split_and!.
  - destruct (Create_table W HW b hb capacity Hb Hpage Hc Hov Hhb Ha Ht) as (ct0 & E & Hok & Hbias & Hz & _). exists ct0. split_and!; try done.
    intros a Hr. assert (0 <= a - hb < capacity / kCardSize * kCardSize + kCardSize) as Hr' by (rewrite kCardSize_val; Z.div_mod_to_equations; lia).
    destruct (CardFromAddr_spec W HW ct0 hb _ a Hok Hr') as [Ec Hi]. split.
    + unfold AddrIsInCardTable. fold (CardFromAddr W ct0 a). rewrite Ec. by apply (card_valid W HW ct0 hb (capacity / kCardSize)).
    + unfold IsClean. rewrite (GetCard_index W HW ct0 hb _ a Hok Hr'). cbn. by rewrite Hz.
  - destruct (CardFromAddr_spec W HW ct hb n addr Hct Haddr) as [-> Hi]. rewrite (AddrFromCard_spec W HW ct hb n) by done.
    rewrite kCardSize_val in *. Z.div_mod_to_equations; lia.
  - by apply (MarkCard_spec W HW ct hb n).
  - by apply (VisitClear_spec W HW).
Qed.

Lemma CardTable_barrier_witness :
  let ct := Table (fun a => if a =? 0x5003 then kCardDirty else 0) 0x5000 0x120 0x1000 (0x5000 - 0x40) 0 in
  (exists ct0, Create 32 (Some 0x8000) 0x10000 0x5000 = Some ct0 /\ table_ok 32 ct0 0x10000 (0x5000 / kCardSize) /\ biased_begin_ ct0 mod 256 = kCardDirty /\
     forall a, 0 <= a - 0x10000 < 0x5000 -> AddrIsInCardTable 32 ct0 a = true /\ IsClean 32 ct0 a = Some true) /\
  AddrFromCard 32 ct (CardFromAddr 32 ct 0x10c10) = 0x10c10 - 0x10c10 mod kCardSize /\
  (exists ct1, MarkCard 32 ct 0x10c10 = Some ct1 /\ table_ok 32 ct1 0x10000 16 /\
     forall a, 0 <= a - 0x10000 < 16 * kCardSize + kCardSize ->
       GetCard 32 ct1 a = if a / kCardSize =? 0x10c10 / kCardSize then Some kCardDirty else GetCard 32 ct a) /\
  (exists ct2 visited, VisitClear 32 ct 0x10000 0x12000 = Some (ct2, visited) /\ table_ok 32 ct2 0x10000 16 /\
     map (AddrFromCard 32 ct) visited =
       filter (fun a => IsDirty 32 ct a = Some true) (map (fun i => 0x10000 + i * kCardSize) (seqZ ((0x10000 - 0x10000) / kCardSize) (0x12000 / kCardSize - 0x10000 / kCardSize))) /\
     forall a, 0 <= a - 0x10000 < 16 * kCardSize + kCardSize ->
       GetCard 32 ct2 a = if (0x10000 / kCardSize <=? a / kCardSize) && (a / kCardSize <? 0x12000 / kCardSize) && bool_decide (IsDirty 32 ct a = Some true)
                         then Some kCardClean else GetCard 32 ct a).
Proof.
  intros ct. apply (CardTable_barrier 32 0x8000 0x10000 0x5000 ct 16 0x10c10 0x10000 0x12000); try (by left); try done.
  constructor; try done. intros a. cbn. by destruct (a =? _).
Defined.
