(* ===== verification/LargeObjectSpace.v ===== *)
(** The large object spaces: runtime/gc/space/large_object_space.h and
    runtime/gc/space/large_object_space.cc.

    FreeListSpace keeps one AllocationInfo per page in a side table; a pointer to an AllocationInfo
    is its index (slot) there, and an access outside of the table gives no result.  The set of free
    blocks is the list of its elements in the order of the comparator, which reads the side table.
    Failing CHECKs give no result, and so does the DCHECK of GetSlotIndexForAddress in debug builds, [kIsDebugBuild];
    the other DCHECKs, locks and page protection are left out. *)
From stdpp Require Import sorting.
From S2P Require Import Prelude BitUtils BitMemory SpaceBitmap.
From Stdlib Require Import Sorted.

Definition kFlagFree : Z := 0x80000000.
Definition kFlagZygote : Z := 0x40000000.
Definition kFlagsMask : Z := u32 (.~ (kFlagFree .| kFlagZygote)).
Definition kAlignment : Z := kPageSize.

(** *** AllocationInfo *)

Record AllocationInfo := Info { prev_free_ : Z; alloc_size_ : Z }.

Definition AlignSize (info : AllocationInfo) : Z := alloc_size_ info .& kFlagsMask.
Definition ByteSize (info : AllocationInfo) : Z := AlignSize info * kAlignment.
Definition SetByteSize (size : Z) (free : bool) (info : AllocationInfo) : AllocationInfo :=
  Info (prev_free_ info) (u32 (size / kAlignment .| (if free then kFlagFree else 0))).
Definition IsFree (info : AllocationInfo) : bool := negb (alloc_size_ info .& kFlagFree =? 0).
Definition IsZygoteObject (info : AllocationInfo) : bool := negb (alloc_size_ info .& kFlagZygote =? 0).
Definition SetZygoteObject (info : AllocationInfo) : AllocationInfo := Info (prev_free_ info) (alloc_size_ info .| kFlagZygote).
Definition GetPrevFree (info : AllocationInfo) : Z := prev_free_ info.
Definition GetPrevFreeBytes (info : AllocationInfo) : Z := GetPrevFree info * kAlignment.
Definition SetPrevFreeBytes (bytes : Z) (info : AllocationInfo) : AllocationInfo := Info (u32 (bytes / kAlignment)) (alloc_size_ info).

(** GetNextInfo and GetPrevFreeInfo of the info at [slot]. *)
Definition GetNextInfo (slot : Z) (info : AllocationInfo) : Z := slot + AlignSize info.
Definition GetPrevFreeInfo (slot : Z) (info : AllocationInfo) : Z := slot - prev_free_ info.

(** The order of the free blocks, on infos with their addresses. *)
Definition SortByPrevFree (a b : AllocationInfo * Z) : bool :=
  if GetPrevFree a.1 <? GetPrevFree b.1 then true
  else if GetPrevFree b.1 <? GetPrevFree a.1 then false
  else if AlignSize a.1 <? AlignSize b.1 then true
  else if AlignSize b.1 <? AlignSize a.1 then false
  else a.2 <? b.2.

(** *** FreeListSpace *)

Record FreeListSpace := Space {
  begin_ : Z;
  end_ : Z;
  allocation_info_ : list AllocationInfo;
  free_end_ : Z;
  free_blocks_ : list Z;
  num_bytes_allocated_ : Z;
  num_objects_allocated_ : Z;
  total_bytes_allocated_ : Z;
  total_objects_allocated_ : Z }.

Definition with_info (s : FreeListSpace) (infos : list AllocationInfo) : FreeListSpace :=
  Space (begin_ s) (end_ s) infos (free_end_ s) (free_blocks_ s) (num_bytes_allocated_ s) (num_objects_allocated_ s) (total_bytes_allocated_ s) (total_objects_allocated_ s).
Definition with_free_end (s : FreeListSpace) (free_end : Z) : FreeListSpace :=
  Space (begin_ s) (end_ s) (allocation_info_ s) free_end (free_blocks_ s) (num_bytes_allocated_ s) (num_objects_allocated_ s) (total_bytes_allocated_ s) (total_objects_allocated_ s).
Definition with_free_blocks (s : FreeListSpace) (free_blocks : list Z) : FreeListSpace :=
  Space (begin_ s) (end_ s) (allocation_info_ s) (free_end_ s) free_blocks (num_bytes_allocated_ s) (num_objects_allocated_ s) (total_bytes_allocated_ s) (total_objects_allocated_ s).
Definition with_counters (s : FreeListSpace) (num_bytes num_objects total_bytes total_objects : Z) : FreeListSpace :=
  Space (begin_ s) (end_ s) (allocation_info_ s) (free_end_ s) (free_blocks_ s) num_bytes num_objects total_bytes total_objects.

Definition info_at (s : FreeListSpace) (slot : Z) : option AllocationInfo :=
  if slot <? 0 then None else allocation_info_ s !! Z.to_nat slot.
Definition update (s : FreeListSpace) (slot : Z) (f : AllocationInfo -> AllocationInfo) : option FreeListSpace :=
  info ← info_at s slot; Some (with_info s (<[Z.to_nat slot := f info]> (allocation_info_ s))).

Definition Contains (s : FreeListSpace) (obj : Z) : bool := (begin_ s <=? obj) && (obj <? end_ s).

Definition GetSlotIndexForAddress (kIsDebugBuild : bool) (s : FreeListSpace) (address : Z) : option Z :=
  if kIsDebugBuild && negb (Contains s address) then None else Some ((address - begin_ s) / kAlignment).
Definition GetAllocationAddressForSlot (s : FreeListSpace) (slot : Z) : Z := begin_ s + slot * kAlignment.

(** [mapped] is the address of the mapping of the space; new pages are zero.  An empty mapping is not valid. *)
Definition Create (mapped : Z) (size : Z) : option FreeListSpace :=
  if negb (size mod kAlignment =? 0) then None
  else if size =? 0 then None
  else Some (Space mapped (mapped + size) (replicate (Z.to_nat (size / kAlignment)) (Info 0 0)) size [] 0 0 0 0).

(** lower_bound: the elements below [key], and the others. *)
Fixpoint lower_bound (s : FreeListSpace) (key : AllocationInfo * Z) (l : list Z) : option (list Z * list Z) :=
  match l with
  | [] => Some ([], [])
  | x :: l =>
      info ← info_at s x;
      if SortByPrevFree (info, x) key then '(l1, l2) ← lower_bound s key l; Some (x :: l1, l2) else Some ([], x :: l)
  end.

(** Insertion in the set, unless it has an equivalent element. *)
Definition insert_free_block (s : FreeListSpace) (slot : Z) : option FreeListSpace :=
  info ← info_at s slot;
  '(l1, l2) ← lower_bound s (info, slot) (free_blocks_ s);
  match l2 with
  | [] => Some (with_free_blocks s (l1 ++ [slot]))
  | x :: _ =>
      info' ← info_at s x;
      if SortByPrevFree (info, slot) (info', x) then Some (with_free_blocks s (l1 ++ slot :: l2)) else Some s
  end.

Definition RemoveFreePrev (s : FreeListSpace) (slot : Z) : option FreeListSpace :=
  info ← info_at s slot;
  if negb (0 <? GetPrevFree info) then None
  else
    '(l1, l2) ← lower_bound s (info, slot) (free_blocks_ s);
    match l2 with
    | [] => None
    | x :: l2 => if x =? slot then Some (with_free_blocks s (l1 ++ l2)) else None
    end.

Definition Free (kIsDebugBuild : bool) (s : FreeListSpace) (obj : Z) : option (Z * FreeListSpace) :=
  info ← GetSlotIndexForAddress kIsDebugBuild s obj;
  i ← info_at s info;
  let allocation_size := ByteSize i in
  s ← update s info (SetByteSize allocation_size true);
  i ← info_at s info;
  let next_info := GetNextInfo info i in
  let free_end_start := end_ s - free_end_ s in
  let prev_free_bytes := GetPrevFreeBytes i in
  '(s, info, new_free_size) ←
    (if negb (prev_free_bytes =? 0) then
       s ← RemoveFreePrev s info;
       Some (s, GetPrevFreeInfo info i, allocation_size + prev_free_bytes)
     else Some (s, info, allocation_size));
  let next_addr := GetAllocationAddressForSlot s next_info in
  s ← (if free_end_start <=? next_addr then
         if next_addr =? free_end_start then Some (with_free_end s (free_end_ s + new_free_size)) else None
       else
         next ← info_at s next_info;
         '(s, new_free_info, new_free_size) ←
           (if IsFree next then
              let next_next_info := GetNextInfo next_info next in
              next_next ← info_at s next_next_info;
              s ← RemoveFreePrev s next_next_info;
              Some (s, next_next_info, new_free_size + GetPrevFreeBytes next_next)
            else Some (s, next_info, new_free_size));
         s ← update s new_free_info (SetPrevFreeBytes new_free_size);
         s ← insert_free_block s new_free_info;
         update s info (SetByteSize new_free_size true));
  Some (allocation_size,
    with_counters s (num_bytes_allocated_ s - allocation_size) (num_objects_allocated_ s - 1) (total_bytes_allocated_ s) (total_objects_allocated_ s)).

Definition AllocationSize (kIsDebugBuild : bool) (s : FreeListSpace) (obj : Z) : option Z :=
  slot ← GetSlotIndexForAddress kIsDebugBuild s obj; info ← info_at s slot; Some (ByteSize info).

(** The new object, unless it is null, and the bytes allocated.  [temp_address] is the address of the
    local info the search uses. *)
Definition Alloc (kIsDebugBuild : bool) (W temp_address : Z) (s : FreeListSpace) (num_bytes : Z) : option (option (Z * Z) * FreeListSpace) :=
  let allocation_size := RoundUp W num_bytes kAlignment in
  let temp_info := SetByteSize 0 false (SetPrevFreeBytes allocation_size (Info 0 0)) in
  '(l1, l2) ← lower_bound s (temp_info, temp_address) (free_blocks_ s);
  r ← match l2 with
      | info :: l2 =>
          let s := with_free_blocks s (l1 ++ l2) in
          i ← info_at s info;
          let new_info := GetPrevFreeInfo info i in
          s ← update s info (SetPrevFreeBytes (GetPrevFreeBytes i - allocation_size));
          i ← info_at s info;
          s ← (if 0 <? GetPrevFreeBytes i then
                 let new_free := info - GetPrevFree i in
                 s ← update s new_free (SetPrevFreeBytes 0);
                 s ← update s new_free (SetByteSize (GetPrevFreeBytes i) true);
                 insert_free_block s info
               else Some s);
          Some (Some (s, new_info))
      | [] =>
          if allocation_size <=? free_end_ s then
            new_info ← GetSlotIndexForAddress kIsDebugBuild s (end_ s - free_end_ s);
            Some (Some (with_free_end s (free_end_ s - allocation_size), new_info))
          else Some None
      end;
  match r with
  | None => Some (None, s)
  | Some (s, new_info) =>
      let s := with_counters s (num_bytes_allocated_ s + allocation_size) (num_objects_allocated_ s + 1)
                 (u64 (total_bytes_allocated_ s + allocation_size)) (u64 (total_objects_allocated_ s + 1)) in
      let obj := GetAllocationAddressForSlot s new_info in
      s ← update s new_info (SetPrevFreeBytes 0);
      s ← update s new_info (SetByteSize allocation_size false);
      Some (Some (obj, allocation_size), s)
  end.

(** The chunks from [cur_info] on, free or not, up to [end_info]. *)
Fixpoint chunks (fuel : nat) (s : FreeListSpace) (cur_info end_info : Z) : option (list (Z * AllocationInfo) * Z) :=
  match fuel with
  | O => None
  | S fuel =>
      if cur_info <? end_info then
        info ← info_at s cur_info;
        '(rest, last) ← chunks fuel s (GetNextInfo cur_info info) end_info;
        Some ((cur_info, info) :: rest, last)
      else Some ([], cur_info)
  end.

(** The call of the callback for a chunk that is not free: begin, end and size. *)
Definition object_call (s : FreeListSpace) (chunk : Z * AllocationInfo) : option (Z * Z * Z) :=
  let '(slot, info) := chunk in
  if negb (IsFree info) then
    let byte_start := GetAllocationAddressForSlot s slot in
    Some (byte_start, byte_start + ByteSize info, ByteSize info)
  else None.

Definition Walk (kIsDebugBuild : bool) (s : FreeListSpace) : option (list (Z * Z * Z)) :=
  let free_end_start := end_ s - free_end_ s in
  end_info ← GetSlotIndexForAddress kIsDebugBuild s free_end_start;
  '(infos, cur_info) ← chunks (S (length (allocation_info_ s))) s 0 end_info;
  if cur_info =? end_info then
    Some (omap (M := list) (object_call s) infos)
  else None.

(** The lines of Dump: whether a block is free, its address and its size. *)
Definition Dump (kIsDebugBuild : bool) (s : FreeListSpace) : option (list (bool * Z * Z)) :=
  let free_end_start := end_ s - free_end_ s in
  cur_info ← GetSlotIndexForAddress kIsDebugBuild s (begin_ s);
  end_info ← GetSlotIndexForAddress kIsDebugBuild s free_end_start;
  '(infos, _) ← chunks (S (length (allocation_info_ s))) s cur_info end_info;
  Some (map (fun '(slot, info) => (IsFree info, GetAllocationAddressForSlot s slot, ByteSize info)) infos ++
        (if negb (free_end_ s =? 0) then [(true, free_end_start, free_end_ s)] else [])).

Definition IsZygoteLargeObject (kIsDebugBuild : bool) (s : FreeListSpace) (obj : Z) : option bool :=
  slot ← GetSlotIndexForAddress kIsDebugBuild s obj; info ← info_at s slot; Some (IsZygoteObject info).

(** [mark_bit] is the mark bit of the objects: AtomicSetMarkBit(0, 1) succeeds when it is not set. *)
Fixpoint set_zygote (fuel : nat) (set_mark_bit : bool) (s : FreeListSpace) (mark_bit : Z -> bool) (cur_info end_info : Z) :
    option (FreeListSpace * (Z -> bool)) :=
  match fuel with
  | O => None
  | S fuel =>
      if cur_info <? end_info then
        info ← info_at s cur_info;
        if negb (IsFree info) then
          s ← update s cur_info SetZygoteObject;
          let obj := GetAllocationAddressForSlot s cur_info in
          if set_mark_bit && mark_bit obj then None
          else set_zygote fuel set_mark_bit s (if set_mark_bit then (fun a => (a =? obj) || mark_bit a) else mark_bit)
                 (GetNextInfo cur_info (SetZygoteObject info)) end_info
        else set_zygote fuel set_mark_bit s mark_bit (GetNextInfo cur_info info) end_info
      else Some (s, mark_bit)
  end.
Definition SetAllLargeObjectsAsZygoteObjects (kIsDebugBuild set_mark_bit : bool) (s : FreeListSpace) (mark_bit : Z -> bool) : option (FreeListSpace * (Z -> bool)) :=
  let free_end_start := end_ s - free_end_ s in
  cur_info ← GetSlotIndexForAddress kIsDebugBuild s (begin_ s);
  end_info ← GetSlotIndexForAddress kIsDebugBuild s free_end_start;
  set_zygote (S (length (allocation_info_ s))) set_mark_bit s mark_bit cur_info end_info.

(** *** LargeObjectMapSpace

    Every object has a mapping of its own, of whole pages: the bytes asked for, and with the rest of
    the last page. *)
Record LargeObject := Object { map_size : Z; map_base_size : Z; is_zygote : bool }.

Record LargeObjectMapSpace := MapSpace {
  map_begin_ : option Z;
  map_end_ : Z;
  large_objects_ : gmap Z LargeObject;
  map_num_bytes_allocated_ : Z;
  map_num_objects_allocated_ : Z;
  map_total_bytes_allocated_ : Z;
  map_total_objects_allocated_ : Z }.

Definition MapCreate : LargeObjectMapSpace := MapSpace None 0 ∅ 0 0 0 0.

(** [mapped] is the address of the new mapping, if there is room for one; an empty mapping is not
    valid. *)
Definition MapAlloc (W : Z) (mapped : option Z) (s : LargeObjectMapSpace) (num_bytes : Z) : option (Z * Z) * LargeObjectMapSpace :=
  match (if num_bytes =? 0 then None else mapped) with
  | None => (None, s)
  | Some obj =>
      let allocation_size := RoundUp W num_bytes kPageSize in
      (Some (obj, allocation_size),
       MapSpace
         (Some (match map_begin_ s with None => obj | Some begin => if obj <? begin then obj else begin end))
         (Z.max (map_end_ s) (obj + allocation_size))
         (<[obj := Object num_bytes allocation_size false]> (large_objects_ s))
         (map_num_bytes_allocated_ s + allocation_size) (map_num_objects_allocated_ s + 1)
         (u64 (map_total_bytes_allocated_ s + allocation_size)) (u64 (map_total_objects_allocated_ s + 1)))
  end.

Definition MapFree (s : LargeObjectMapSpace) (ptr : Z) : option (Z * LargeObjectMapSpace) :=
  it ← large_objects_ s !! ptr;
  let allocation_size := map_base_size it in
  Some (allocation_size,
    MapSpace (map_begin_ s) (map_end_ s) (delete ptr (large_objects_ s)) (map_num_bytes_allocated_ s - allocation_size) (map_num_objects_allocated_ s - 1)
      (map_total_bytes_allocated_ s) (map_total_objects_allocated_ s)).

Definition MapAllocationSize (s : LargeObjectMapSpace) (obj : Z) : option Z := map_base_size <$> large_objects_ s !! obj.
Definition MapIsZygoteLargeObject (s : LargeObjectMapSpace) (obj : Z) : option bool := is_zygote <$> large_objects_ s !! obj.
Definition MapContains (s : LargeObjectMapSpace) (obj : Z) : bool := bool_decide (is_Some (large_objects_ s !! obj)).

Definition by_address (a b : Z * LargeObject) : Prop := a.1 <= b.1.
Instance by_address_dec a b : Decision (by_address a b) := Z.le_dec a.1 b.1.

(** The calls of the callback, in the order of the addresses; each is followed by a call with null. *)
Definition MapWalk (s : LargeObjectMapSpace) : list (Z * Z * Z) :=
  map (fun o => (o.1, o.1 + map_size o.2, map_size o.2)) (merge_sort by_address (map_to_list (large_objects_ s))).

(** CHECK(success): no object has its mark bit set. *)
Definition MapSetAllLargeObjectsAsZygoteObjects (set_mark_bit : bool) (s : LargeObjectMapSpace) (mark_bit : Z -> bool) :
    option (LargeObjectMapSpace * (Z -> bool)) :=
  let contains a := bool_decide (is_Some (large_objects_ s !! a)) in
  if set_mark_bit && existsb (fun o => mark_bit o.1) (map_to_list (large_objects_ s)) then None
  else
    Some (MapSpace (map_begin_ s) (map_end_ s) ((fun o => Object (map_size o) (map_base_size o) true) <$> large_objects_ s) (map_num_bytes_allocated_ s)
            (map_num_objects_allocated_ s) (map_total_bytes_allocated_ s) (map_total_objects_allocated_ s),
          if set_mark_bit then (fun a => contains a || mark_bit a) else mark_bit).

(** *** MemoryToolLargeObjectMapSpace

    A page before and after every object is not accessible. *)
Definition kMemoryToolRedZoneBytes : Z := kPageSize.
Definition ObjectWithRedzone (W obj : Z) : Z := uN W (obj - kMemoryToolRedZoneBytes).

(** The address returned, null is 0, and the bytes allocated and usable, unless they are not set. *)
Definition MemoryToolAlloc (W : Z) (mapped : option Z) (s : LargeObjectMapSpace) (num_bytes : Z) : Z * option Z * Z * LargeObjectMapSpace :=
  let '(r, s) := MapAlloc W mapped s (uN W (num_bytes + kMemoryToolRedZoneBytes * 2)) in
  let obj := match r with Some (obj, _) => obj | None => 0 end in
  let object_without_rdz := uN W (obj + kMemoryToolRedZoneBytes) in
  (object_without_rdz, snd <$> r, num_bytes, s).

Definition MemoryToolAllocationSize (W : Z) (s : LargeObjectMapSpace) (obj : Z) : option Z := MapAllocationSize s (ObjectWithRedzone W obj).
Definition MemoryToolIsZygoteLargeObject (W : Z) (s : LargeObjectMapSpace) (obj : Z) : option bool := MapIsZygoteLargeObject s (ObjectWithRedzone W obj).
Definition MemoryToolContains (W : Z) (s : LargeObjectMapSpace) (obj : Z) : bool := MapContains s (ObjectWithRedzone W obj).

Definition MemoryToolFree (W : Z) (s : LargeObjectMapSpace) (obj : Z) : option (Z * LargeObjectMapSpace) :=
  let object_with_rdz := ObjectWithRedzone W obj in
  _ ← MemoryToolAllocationSize W s obj;
  MapFree s object_with_rdz.

(** *** LargeObjectSpace

    The virtual functions that sweeping calls, and what it relies on: [contents s live] says that
    the space [s] holds the objects [live], given by their addresses and sizes. *)
Class LargeObjectSpace (S : Type) := {
  Begin : S -> Z;
  End_ : S -> Z;
  FreeObject : S -> Z -> option (Z * S);
  contents : S -> gmap Z Z -> Prop;
  contents_range s live obj size : contents s live -> live !! obj = Some size -> Begin s <= obj < End_ s;
  FreeObject_contents s live obj size :
    contents s live -> live !! obj = Some size ->
    exists s', FreeObject s obj = Some (size, s') /\ contents s' (delete obj live) /\ Begin s' = Begin s /\ End_ s' = End_ s }.

Section large_object_space.
Context {S : Type} `{!LargeObjectSpace S} (W : Z).

Fixpoint FreeList (s : S) (ptrs : list Z) : option (Z * S) :=
  match ptrs with
  | [] => Some (0, s)
  | ptr :: ptrs =>
      '(size, s) ← FreeObject s ptr;
      '(total, s) ← FreeList s ptrs;
      Some (size + total, s)
  end.

Fixpoint clear_bits (bitmap : SpaceBitmap) (ptrs : list Z) : option SpaceBitmap :=
  match ptrs with
  | [] => Some bitmap
  | ptr :: ptrs => '(_, bitmap) ← SpaceBitmap.Clear W kAlignment bitmap ptr; clear_bits bitmap ptrs
  end.

(** The space, its live bitmap, and the objects and bytes freed so far. *)
Definition SweepCallback (swap_bitmaps : bool) (context : S * SpaceBitmap * Z * Z) (ptrs : list Z) : option (S * SpaceBitmap * Z * Z) :=
  let '(space, live_bitmap, freed_objects, freed_bytes) := context in
  live_bitmap ← (if negb swap_bitmaps then clear_bits live_bitmap ptrs else Some live_bitmap);
  '(bytes, space) ← FreeList space ptrs;
  Some (space, live_bitmap, freed_objects + Z.of_nat (length ptrs), freed_bytes + bytes).

Fixpoint sweep_batches (swap_bitmaps : bool) (context : S * SpaceBitmap * Z * Z) (batches : list (list Z)) : option (S * SpaceBitmap * Z * Z) :=
  match batches with
  | [] => Some context
  | ptrs :: batches => context ← SweepCallback swap_bitmaps context ptrs; sweep_batches swap_bitmaps context batches
  end.

(** The callback only clears bits of words that SweepWalk has read already, so its batches are those
    of the bitmaps before the sweep. *)
Definition Sweep (memory_tool swap_bitmaps : bool) (space : S) (live_bitmap_ mark_bitmap_ : SpaceBitmap) : option (S * SpaceBitmap * Z * Z) :=
  if End_ space <=? Begin space then Some (space, live_bitmap_, 0, 0)
  else
    let '(live_bitmap, mark_bitmap) := if swap_bitmaps then (mark_bitmap_, live_bitmap_) else (live_bitmap_, mark_bitmap_) in
    batches ← SweepWalk W kAlignment memory_tool live_bitmap mark_bitmap (Begin space) (End_ space);
    sweep_batches swap_bitmaps (space, live_bitmap_, 0, 0) batches.
End large_object_space.

(** The live and the mark bitmap. *)
Definition SwapBitmaps (bitmaps : SpaceBitmap * SpaceBitmap) : SpaceBitmap * SpaceBitmap := (bitmaps.2, bitmaps.1).
Definition CopyLiveToMarked (W : Z) (bitmaps : SpaceBitmap * SpaceBitmap) : SpaceBitmap * SpaceBitmap := (bitmaps.1, CopyFrom W bitmaps.2 bitmaps.1).

(** ** Blocks

    The pages of the space before the free end are a list of blocks: free ones and objects. *)
Record block := Block { free : bool; zygote : bool; pages : Z }.

Definition encode (b : block) : Z := pages b .| (if free b then kFlagFree else 0) .| (if zygote b then kFlagZygote else 0).

Section encode.
Context (b : block) (Hb : 0 <= pages b < 2 ^ 30).
#[local] Set Default Proof Using "Hb".

Lemma flag_bits i : Z.testbit kFlagFree i = (i =? 31) /\ Z.testbit kFlagZygote i = (i =? 30) /\ Z.testbit kFlagsMask i = (0 <=? i) && (i <? 30).
Proof using.
  change kFlagFree with (2 ^ 31). change kFlagZygote with (2 ^ 30). change kFlagsMask with (Z.ones 30).
  destruct (decide (0 <= i)); [|rewrite !Z.testbit_neg_r by lia; repeat case_ltb; cbn [andb]; done || lia].
  rewrite !Z.pow2_bits_eqb, Z.testbit_ones by lia. repeat case_ltb; cbn [andb]; done || lia.
Qed.

Lemma encode_testbit i : 0 <= i ->
  Z.testbit (encode b) i = if i <? 30 then Z.testbit (pages b) i else if i =? 31 then free b else if i =? 30 then zygote b else false.
Proof.
  intros Hi. unfold encode. rewrite !Z.lor_spec. destruct (flag_bits i) as (Ef & Ez & _).
  assert (Z.testbit (if free b then kFlagFree else 0) i = free b && (i =? 31)) as -> by (destruct (free b); [done|apply Z.testbit_0_l]).
  assert (Z.testbit (if zygote b then kFlagZygote else 0) i = zygote b && (i =? 30)) as -> by (destruct (zygote b); [done|apply Z.testbit_0_l]).
  repeat case_ltb; rewrite ?andb_false_r, ?andb_true_r, ?orb_false_r; try lia; rewrite ?(testbit_high 30 (pages b)) by (done || lia); try done.
Qed.

Lemma AlignSize_encode p : AlignSize (Info p (encode b)) = pages b.
Proof.
  unfold AlignSize. cbn [alloc_size_]. apply Z.bits_inj'. intros i Hi. rewrite Z.land_spec, encode_testbit by done.
  destruct (flag_bits i) as (_ & _ & ->). destruct (Z.ltb_spec i 30); [rewrite (proj2 (Z.leb_le 0 i)) by lia; apply andb_true_r|].
  rewrite andb_false_r, andb_false_r. symmetry. by apply (testbit_high 30).
Qed.

Lemma flag_test k x : 0 <= k -> negb (x .& 2 ^ k =? 0) = Z.testbit x k.
Proof using.
  intros Hk. destruct (Z.testbit x k) eqn:E.
  - apply negb_true_iff, Z.eqb_neq. intros H0. assert (Z.testbit (x .& 2 ^ k) k = true) as H by (by rewrite Z.land_spec, E, Z.pow2_bits_true).
    by rewrite H0, Z.testbit_0_l in H.
  - apply negb_false_iff, Z.eqb_eq, Z.bits_inj'. intros i Hi. rewrite Z.land_spec, Z.testbit_0_l, Z.pow2_bits_eqb by done.
    destruct (Z.eqb_spec k i) as [->|]; [by rewrite E|apply andb_false_r].
Qed.

Lemma IsFree_encode p : IsFree (Info p (encode b)) = free b.
Proof. unfold IsFree. cbn [alloc_size_]. change kFlagFree with (2 ^ 31). by rewrite flag_test, encode_testbit. Qed.

Lemma IsZygote_encode p : IsZygoteObject (Info p (encode b)) = zygote b.
Proof. unfold IsZygoteObject. cbn [alloc_size_]. change kFlagZygote with (2 ^ 30). by rewrite flag_test, encode_testbit. Qed.

Lemma SetZygote_encode p : SetZygoteObject (Info p (encode b)) = Info p (encode (Block (free b) true (pages b))).
Proof.
  unfold SetZygoteObject. cbn [prev_free_ alloc_size_]. f_equal. unfold encode. cbn [free zygote pages]. destruct (zygote b); [|by rewrite Z.lor_0_r].
  by rewrite <- Z.lor_assoc, Z.lor_diag.
Qed.

Lemma ByteSize_encode p : ByteSize (Info p (encode b)) = pages b * kAlignment.
Proof. unfold ByteSize. by rewrite AlignSize_encode. Qed.
End encode.

Lemma SetByteSize_encode n f p x : 0 <= n < 2 ^ 30 -> SetByteSize (n * kAlignment) f (Info p x) = Info p (encode (Block f false n)).
Proof.
  intros Hn. unfold SetByteSize, encode. cbn [prev_free_ free zygote pages]. rewrite Z.div_mul, Z.lor_0_r by done. f_equal. apply uN_small.
  apply lor_is_u; [done|split; [lia|apply Z.lt_trans with (2 ^ 30); [lia|done]]|by destruct f].
Qed.

Lemma SetPrevFree_val n i : 0 <= n < 2 ^ 30 -> SetPrevFreeBytes (n * kAlignment) i = Info n (alloc_size_ i).
Proof. intros Hn. unfold SetPrevFreeBytes. rewrite Z.div_mul by done. rewrite uN_small; [done|]. split; [lia|apply Z.lt_trans with (2 ^ 30); [lia|done]]. Qed.

(** ** The set of free blocks *)

Definition order (a b : Z * Z * Z) : bool :=
  let '(p1, n1, x1) := a in let '(p2, n2, x2) := b in
  (p1 <? p2) || ((p1 =? p2) && ((n1 <? n2) || ((n1 =? n2) && (x1 <? x2)))).

Definition key_of (a : AllocationInfo * Z) : Z * Z * Z := (GetPrevFree a.1, AlignSize a.1, a.2).

Lemma SortByPrevFree_order a b : SortByPrevFree a b = order (key_of a) (key_of b).
Proof. unfold SortByPrevFree, order, key_of. repeat case_ltb; cbn [andb orb]; done || lia. Qed.

Lemma order_trans a b c : order a b = true -> order b c = true -> order a c = true.
Proof. destruct a as [[p1 n1] x1], b as [[p2 n2] x2], c as [[p3 n3] x3]. unfold order. rewrite !orb_true_iff, !andb_true_iff, !orb_true_iff, !andb_true_iff, !Z.ltb_lt, !Z.eqb_eq. lia. Qed.

Lemma order_irrefl a : order a a = false.
Proof. destruct a as [[p n] x]. unfold order. by rewrite !Z.ltb_irrefl, !Z.eqb_refl. Qed.

Lemma order_total a b : order a b = false -> order b a = false -> a = b.
Proof.
  destruct a as [[p1 n1] x1], b as [[p2 n2] x2]. unfold order. rewrite !orb_false_iff, !andb_false_iff, !orb_false_iff, !andb_false_iff, !Z.ltb_ge, !Z.eqb_neq.
  intros H1 H2. f_equal; [f_equal|]; lia.
Qed.

(** The key of an element; [None] for slots outside of the table. *)
Definition key (s : FreeListSpace) (x : Z) : Z * Z * Z := match info_at s x with Some i => key_of (i, x) | None => (0, 0, x) end.
Definition before (s : FreeListSpace) (x y : Z) : Prop := order (key s x) (key s y) = true.

Definition valid_slots (s : FreeListSpace) (l : list Z) : Prop := Forall (fun x => is_Some (info_at s x)) l.

Lemma lower_bound_spec s k l :
  valid_slots s l -> StronglySorted (before s) l ->
  exists l1 l2, lower_bound s k l = Some (l1, l2) /\ l = l1 ++ l2 /\ Forall (fun x => order (key s x) (key_of k) = true) l1 /\
    Forall (fun x => order (key s x) (key_of k) = false) l2.
Proof.
  intros Hv Hs. induction Hs as [|x l Hs IH Hx]; cbn [lower_bound]; [by exists [], []|]. inversion Hv as [|? ? [i Ei] Hv']; subst.
  rewrite Ei. cbn [mbind option_bind]. rewrite SortByPrevFree_order. assert (key s x = key_of (i, x)) as Ek by (unfold key; by rewrite Ei). rewrite <- Ek.
  destruct (order (key s x) (key_of k)) eqn:E.
  - destruct (IH Hv') as (l1 & l2 & -> & -> & H1 & H2). exists (x :: l1), l2. split_and!; [done|done|by constructor|done].
  - exists [], (x :: l). split_and!; [done|done|constructor|]. constructor; [done|]. eapply Forall_impl; [exact Hx|]. intros y Hy. cbv beta in *.
    destruct (order (key s y) (key_of k)) eqn:E'; [|done]. unfold before in Hy. rewrite (order_trans _ _ _ Hy E') in E. done.
Qed.

Lemma StronglySorted_app_inv {A} (R : A -> A -> Prop) l1 l2 : StronglySorted R (l1 ++ l2) ->
  StronglySorted R l1 /\ StronglySorted R l2 /\ Forall (fun x => Forall (R x) l2) l1.
Proof.
  induction l1 as [|x l1 IH]; cbn [app]; intros H; [split_and!; [constructor|done|constructor]|]. inversion H as [|? ? Hs Hx]; subst.
  destruct (IH Hs) as (H1 & H2 & H3). apply Forall_app in Hx as [Hx1 Hx2]. split_and!; [by constructor|done|by constructor].
Qed.

Lemma StronglySorted_app {A} (R : A -> A -> Prop) l1 l2 : StronglySorted R l1 -> StronglySorted R l2 -> Forall (fun x => Forall (R x) l2) l1 ->
  StronglySorted R (l1 ++ l2).
Proof.
  intros H1 H2 H. induction H1 as [|x l1 Hs IH Hx]; cbn [app]; [done|]. inversion H; subst. constructor; [by apply IH|]. by apply Forall_app.
Qed.

Lemma insert_free_block_spec s x i :
  valid_slots s (free_blocks_ s) -> StronglySorted (before s) (free_blocks_ s) -> info_at s x = Some i -> x ∉ free_blocks_ s ->
  exists l, insert_free_block s x = Some (with_free_blocks s l) /\ StronglySorted (before s) l /\ l ≡ₚ x :: free_blocks_ s.
Proof.
  intros Hv Hs Ei Hx. unfold insert_free_block. rewrite Ei. cbn [mbind option_bind]. assert (key_of (i, x) = key s x) as Ek by (unfold key; by rewrite Ei).
  destruct (lower_bound_spec s (i, x) _ Hv Hs) as (l1 & l2 & -> & E & H1 & H2). cbn [mbind option_bind]. rewrite Ek in *. rewrite E in Hs, Hv, Hx. rewrite E.
  apply StronglySorted_app_inv in Hs as (Hs1 & Hs2 & H12). unfold valid_slots in Hv. exists (l1 ++ x :: l2).
  assert (Forall (before s x) l2) as Hx2.
  { rewrite Forall_forall in *. intros y Hy. unfold before. destruct (order (key s x) (key s y)) eqn:E'; [done|]. pose proof (order_total _ _ (H2 y Hy) E') as Eq.
    destruct (Hv y ltac:(apply elem_of_app; by right)) as [j Ej]. unfold key in Eq. rewrite Ei, Ej in Eq. unfold key_of in Eq. cbn in Eq. simplify_eq.
    exfalso. apply Hx, elem_of_app. by right. }
  split_and!.
  - destruct l2 as [|y l2]; [done|]. rewrite Forall_forall in Hv. destruct (Hv y ltac:(apply elem_of_app; right; left)) as [j Ej]. rewrite Ej. cbn [mbind option_bind].
    rewrite SortByPrevFree_order, Ek. assert (key_of (j, y) = key s y) as -> by (unfold key; by rewrite Ej). inversion Hx2 as [|? ? H]; subst. unfold before in H. by rewrite H.
  - apply StronglySorted_app; [done|by constructor|]. rewrite Forall_forall in *. intros y Hy. constructor; [by apply H1|]. by apply H12.
  - by rewrite <- Permutation_middle.
Qed.

Lemma RemoveFreePrev_spec s x i :
  valid_slots s (free_blocks_ s) -> StronglySorted (before s) (free_blocks_ s) -> info_at s x = Some i -> 0 < prev_free_ i -> x ∈ free_blocks_ s ->
  exists l, RemoveFreePrev s x = Some (with_free_blocks s l) /\ StronglySorted (before s) l /\ free_blocks_ s ≡ₚ x :: l.
Proof.
  intros Hv Hs Ei Hp Hx. unfold RemoveFreePrev. rewrite Ei. cbn [mbind option_bind]. unfold GetPrevFree. rewrite (proj2 (Z.ltb_lt _ _)) by done. cbn [negb].
  assert (key_of (i, x) = key s x) as Ek by (unfold key; by rewrite Ei).
  destruct (lower_bound_spec s (i, x) _ Hv Hs) as (l1 & l2 & -> & E & H1 & H2). cbn [mbind option_bind]. rewrite Ek in *. rewrite E in Hs, Hv, Hx. rewrite E.
  apply StronglySorted_app_inv in Hs as (Hs1 & Hs2 & H12).
  apply elem_of_app in Hx as [Hx|Hx]; [rewrite Forall_forall in H1; specialize (H1 x Hx); by rewrite order_irrefl in H1|].
  destruct l2 as [|y l2]; [by apply elem_of_nil in Hx|]. inversion Hs2 as [|? ? Hs2' Hy]; subst. inversion H2 as [|? ? Hyx _]; subst.
  assert (y = x) as ->.
  { apply elem_of_cons in Hx as [->|Hx]; [done|]. rewrite Forall_forall in Hy. specialize (Hy x Hx). unfold before in Hy. congruence. }
  rewrite Z.eqb_refl. exists (l1 ++ l2). split_and!; [done| |by rewrite Permutation_middle].
  apply StronglySorted_app; [done|done|]. rewrite Forall_forall in *. intros z Hz. specialize (H12 z Hz). by inversion H12.
Qed.

(** The order only depends on the keys of the elements. *)
Lemma sorted_ext s s' l : (forall x, x ∈ l -> key s' x = key s x) -> StronglySorted (before s) l -> StronglySorted (before s') l.
Proof.
  intros Hk Hs. induction Hs as [|x l Hs IH Hx]; [constructor|]. constructor; [apply IH; intros; apply Hk; by right|].
  rewrite Forall_forall in *. intros y Hy. unfold before. rewrite !Hk by (left || by right). by apply Hx.
Qed.

(** ** Layout *)

Definition put (s : FreeListSpace) (slot : Z) (info : AllocationInfo) : FreeListSpace :=
  with_info s (<[Z.to_nat slot := info]> (allocation_info_ s)).

Lemma update_put s slot f i : info_at s slot = Some i -> update s slot f = Some (put s slot (f i)).
Proof. intros E. unfold update. by rewrite E. Qed.

Lemma info_at_range s slot : is_Some (info_at s slot) <-> 0 <= slot < Z.of_nat (length (allocation_info_ s)).
Proof. unfold info_at. case_ltb; [split; [intros [? ?]; done|lia]|]. rewrite lookup_lt_is_Some. lia. Qed.

Lemma info_at_put s slot v x : is_Some (info_at s slot) -> info_at (put s slot v) x = if x =? slot then Some v else info_at s x.
Proof.
  rewrite info_at_range. intros Hs. unfold info_at, put. cbn [allocation_info_ with_info]. case_ltb; [case_ltb; [lia|done]|].
  case_ltb; [subst; apply list_lookup_insert_eq; lia|]. apply list_lookup_insert_ne. lia.
Qed.

Lemma key_put s slot v x : is_Some (info_at s slot) -> x <> slot -> key (put s slot v) x = key s x.
Proof. intros Hs Hx. unfold key. rewrite info_at_put by done. by rewrite (proj2 (Z.eqb_neq _ _)). Qed.

Lemma length_put s slot v : length (allocation_info_ (put s slot v)) = length (allocation_info_ s).
Proof. apply length_insert. Qed.

(** What the info of the next block says of this one. *)
Definition after (b : block) : Z := if free b then pages b else 0.

Fixpoint total (bs : list block) : Z := match bs with [] => 0 | b :: bs => pages b + total bs end.

Fixpoint tail_prev (prev : Z) (bs : list block) : Z := match bs with [] => prev | b :: bs => tail_prev (after b) bs end.

(** The infos at the starts of the blocks from [slot] on; [prev] pages before them are free. *)
Fixpoint described (s : FreeListSpace) (slot prev : Z) (bs : list block) : Prop :=
  match bs with
  | [] => True
  | b :: bs => info_at s slot = Some (Info prev (encode b)) /\ described s (slot + pages b) (after b) bs
  end.

(** No free block is next to another one or to the free end. *)
Fixpoint coalesced (prev : Z) (bs : list block) : Prop :=
  match bs with
  | [] => prev = 0
  | b :: bs => (free b = true -> prev = 0) /\ coalesced (after b) bs
  end.

(** The slots of the blocks that follow a free one. *)
Fixpoint gaps (slot prev : Z) (bs : list block) : list Z :=
  match bs with
  | [] => []
  | b :: bs => (if 0 <? prev then [slot] else []) ++ gaps (slot + pages b) (after b) bs
  end.

Abbreviation sized := (Forall (fun b : block => 0 < pages b)).

Lemma total_app bs1 bs2 : total (bs1 ++ bs2) = total bs1 + total bs2.
Proof. induction bs1 as [|b bs1 IH]; cbn [app total]; lia. Qed.

Lemma total_nonneg bs : sized bs -> 0 <= total bs.
Proof. induction 1; cbn [total]; lia. Qed.

Lemma tail_prev_app p bs1 bs2 : tail_prev p (bs1 ++ bs2) = tail_prev (tail_prev p bs1) bs2.
Proof. revert p. induction bs1 as [|b bs1 IH]; intros p; cbn [app tail_prev]; [done|apply IH]. Qed.

Lemma described_app s slot prev bs1 bs2 :
  described s slot prev (bs1 ++ bs2) <-> described s slot prev bs1 /\ described s (slot + total bs1) (tail_prev prev bs1) bs2.
Proof.
  revert slot prev. induction bs1 as [|b bs1 IH]; intros slot prev; cbn [app described total tail_prev]; [rewrite Z.add_0_r; tauto|].
  rewrite IH, Z.add_assoc. tauto.
Qed.

Lemma coalesced_app prev bs1 bs2 :
  coalesced prev (bs1 ++ bs2) <-> coalesced prev (bs1 ++ [Block false false 1]) /\ coalesced (tail_prev prev bs1) bs2.
Proof. revert prev. induction bs1 as [|b bs1 IH]; intros prev; cbn [app coalesced tail_prev]; [|rewrite IH; tauto]. split; [intros H; split; [by split|done]|by intros [_ H]]. Qed.

Lemma gaps_app slot prev bs1 bs2 :
  gaps slot prev (bs1 ++ bs2) = gaps slot prev bs1 ++ gaps (slot + total bs1) (tail_prev prev bs1) bs2.
Proof.
  revert slot prev. induction bs1 as [|b bs1 IH]; intros slot prev; cbn [app gaps total tail_prev]; [by rewrite Z.add_0_r|].
  by rewrite IH, Z.add_assoc, app_assoc.
Qed.

Lemma gaps_range slot prev bs x : sized bs -> x ∈ gaps slot prev bs -> slot <= x < slot + total bs.
Proof.
  intros Hs. revert slot prev. induction Hs as [|b bs Hb Hs IH]; intros slot prev; cbn [gaps total]; [by intros ?%elem_of_nil|].
  pose proof (total_nonneg bs Hs). rewrite elem_of_app. intros [Hx|Hx].
  - destruct (0 <? prev); [apply list_elem_of_singleton in Hx; lia|by apply elem_of_nil in Hx].
  - apply IH in Hx. lia.
Qed.

(** A table with the same infos in the range of the blocks describes them too. *)
Lemma described_frame s s' slot prev bs :
  sized bs -> (forall x, slot <= x < slot + total bs -> info_at s' x = info_at s x) -> described s slot prev bs -> described s' slot prev bs.
Proof.
  intros Hs. revert slot prev. induction Hs as [|b bs Hb Hs IH]; intros slot prev He Hd; [done|]. destruct Hd as [H1 H2]. cbn [total] in He.
  pose proof (total_nonneg bs Hs). split; [rewrite He by lia; done|]. apply IH; [|done]. intros x Hx. apply He. lia.
Qed.

Lemma described_put s slot prev bs k v :
  sized bs -> is_Some (info_at s k) -> k < slot \/ slot + total bs <= k -> described s slot prev bs -> described (put s k v) slot prev bs.
Proof. intros Hs Hk Hr. apply described_frame; [done|]. intros x Hx. rewrite info_at_put by done. case_ltb; [lia|done]. Qed.

(** The block before a gap is free. *)
Lemma gaps_inv slot prev bs x : x ∈ gaps slot prev bs ->
  (0 < prev /\ x = slot /\ bs <> []) \/ exists bs1 f u bs2, bs = bs1 ++ f :: u :: bs2 /\ free f = true /\ x = slot + total bs1 + pages f.
Proof.
  revert slot prev. induction bs as [|b bs IH]; intros slot prev; cbn [gaps]; [by intros ?%elem_of_nil|]. rewrite elem_of_app. intros [Hx|Hx].
  - destruct (Z.ltb_spec 0 prev); [apply list_elem_of_singleton in Hx; by left|by apply elem_of_nil in Hx].
  - right. destruct (IH _ _ Hx) as [(H & -> & Hne)|(bs1 & f & u & bs2 & -> & Hf & ->)].
    + destruct bs as [|u bs]; [done|]. exists [], b, u, bs. unfold after in H. destruct (free b) eqn:E; [|lia]. split_and!; [done|done|cbn [total]; lia].
    + exists (b :: bs1), f, u, bs2. split_and!; [done|done|cbn [total]; lia].
Qed.

Definition info_count (s : FreeListSpace) : Z := Z.of_nat (length (allocation_info_ s)).

(** The objects: their first pages and their sizes. *)
Fixpoint objects (slot : Z) (bs : list block) : list (Z * Z) :=
  match bs with
  | [] => []
  | b :: bs => (if free b then [] else [(slot, pages b)]) ++ objects (slot + pages b) bs
  end.

Definition used_pages (bs : list block) : Z := total (filter (fun b => free b = false) bs).

(** ** Well-formed spaces *)
Record space_ok (s : FreeListSpace) (bs : list block) : Prop := {
  ok_described : described s 0 0 bs;
  ok_sized : sized bs;
  ok_coalesced : coalesced 0 bs;
  ok_range : end_ s = begin_ s + info_count s * kAlignment /\ info_count s < 2 ^ 30 /\ total bs <= info_count s;
  ok_free_end : free_end_ s = (info_count s - total bs) * kAlignment;
  ok_sorted : StronglySorted (before s) (free_blocks_ s);
  ok_gaps : free_blocks_ s ≡ₚ gaps 0 0 bs;
  ok_counters : num_objects_allocated_ s = Z.of_nat (length (objects 0 bs)) /\ num_bytes_allocated_ s = used_pages bs * kAlignment }.

Lemma ok_valid s bs : space_ok s bs -> valid_slots s (free_blocks_ s).
Proof.
  intros H. apply Forall_forall. intros x Hx. rewrite (ok_gaps _ _ H) in Hx. apply (gaps_range _ _ _ _ (ok_sized _ _ H)) in Hx.
  apply info_at_range. destruct (ok_range _ _ H) as (_ & _ & ?). unfold info_count in *. lia.
Qed.

Lemma sized_bound s bs b : space_ok s bs -> b ∈ bs -> 0 < pages b < 2 ^ 30.
Proof.
  intros H Hb. pose proof (ok_sized _ _ H) as Hs. destruct (ok_range _ _ H) as (_ & ? & ?).
  apply list_elem_of_split in Hb as (l1 & l2 & ->). rewrite total_app in *. cbn [total] in *. apply Forall_app in Hs as [Hl1 Hl2]. inversion Hl2 as [|? ? Hb Hl2']; subst.
  pose proof (total_nonneg l1 Hl1). pose proof (total_nonneg l2 Hl2'). lia.
Qed.

Lemma objects_app slot bs1 bs2 : objects slot (bs1 ++ bs2) = objects slot bs1 ++ objects (slot + total bs1) bs2.
Proof. revert slot. induction bs1 as [|b bs1 IH]; intros slot; cbn [app objects total]; [by rewrite Z.add_0_r|]. by rewrite IH, Z.add_assoc, app_assoc. Qed.

Lemma used_pages_app bs1 bs2 : used_pages (bs1 ++ bs2) = used_pages bs1 + used_pages bs2.
Proof. unfold used_pages. by rewrite filter_app, total_app. Qed.

Lemma used_pages_cons b bs : used_pages (b :: bs) = (if free b then 0 else pages b) + used_pages bs.
Proof. unfold used_pages. rewrite filter_cons. destruct (free b) eqn:E; [by rewrite decide_False|by rewrite decide_True]. Qed.

Lemma objects_inv slot bs o n : (o, n) ∈ objects slot bs -> exists bs1 b bs2, bs = bs1 ++ b :: bs2 /\ free b = false /\ pages b = n /\ o = slot + total bs1.
Proof.
  revert slot. induction bs as [|b bs IH]; intros slot; cbn [objects]; [by intros ?%elem_of_nil|]. rewrite elem_of_app. intros [H|H].
  - destruct (free b) eqn:E; [by apply elem_of_nil in H|]. apply list_elem_of_singleton in H. simplify_eq. exists [], b, bs. split_and!; [done|done|done|cbn [total]; lia].
  - destruct (IH _ H) as (bs1 & b' & bs2 & -> & Hf & Hp & ->). exists (b :: bs1), b', bs2. split_and!; [done|done|done|cbn [total]; lia].
Qed.

(** ** Freeing *)

Lemma tail_prev_nonneg p bs : 0 <= p -> sized bs -> 0 <= tail_prev p bs.
Proof. intros Hp Hs. revert p Hp. induction Hs as [|b bs Hb Hs IH]; intros p Hp; cbn [tail_prev]; [done|]. apply IH. unfold after. destruct (free b); lia. Qed.

(** The blocks before an object without the free block in front of it. *)
Record left_part (s : FreeListSpace) (bs1 : list block) (b : block) (bs0 : list block) (p : Z) : Prop := {
  left_size : 0 <= p /\ total bs1 = total bs0 + p /\ tail_prev 0 bs1 = p /\ tail_prev 0 bs0 = 0;
  left_blocks : sized bs0 /\ coalesced 0 (bs0 ++ [Block false false 1]) /\ described s 0 0 bs0;
  left_same : gaps 0 0 bs1 = gaps 0 0 bs0 /\ objects 0 bs1 = objects 0 bs0 /\ used_pages bs1 = used_pages bs0;
  left_info : exists x, info_at s (total bs0) = Some (Info 0 x) }.

Lemma left_part_spec s bs1 b bs2 : space_ok s (bs1 ++ b :: bs2) -> exists bs0 p, left_part s bs1 b bs0 p.
Proof.
  intros H. pose proof (ok_sized _ _ H) as Hs. pose proof (ok_described _ _ H) as Hd. pose proof (ok_coalesced _ _ H) as Hc.
  apply Forall_app in Hs as [Hs1 Hs2]. apply described_app in Hd as [Hd1 Hd2]. apply coalesced_app in Hc as [Hc1 Hc2]. rewrite Z.add_0_l in Hd2.
  destruct bs1 as [|f bs0 _] using rev_ind.
  { exists [], 0. constructor; cbn [total tail_prev]; [lia|done|done|]. destruct Hd2 as [Hd2 _]. cbn [total tail_prev] in Hd2. by eexists. }
  apply Forall_app in Hs1 as [Hs0 Hf]. inversion Hf as [|? ? Hf' _]; subst. apply described_app in Hd1 as [Hd0 [Hdf _]]. rewrite Z.add_0_l in Hdf.
  rewrite <- app_assoc in Hc1. apply coalesced_app in Hc1 as [Hc0 [Hcf _]]. rewrite total_app, tail_prev_app in Hd2. cbn [total tail_prev] in Hd2.
  destruct (free f) eqn:Ef.
  - exists bs0, (pages f). assert (after f = pages f) as Ea by (unfold after; by rewrite Ef). specialize (Hcf eq_refl). rewrite Hcf in Hdf.
    constructor; [rewrite total_app, tail_prev_app; cbn [total tail_prev]; lia|done| |by eexists].
    rewrite gaps_app, objects_app, used_pages_app. cbn [gaps objects]. rewrite Hcf, Ef, used_pages_cons, Ef. split_and!; [by rewrite app_nil_r|by rewrite app_nil_r|cbn; lia].
  - exists (bs0 ++ [f]), 0. assert (after f = 0) as Ea by (unfold after; by rewrite Ef). rewrite Ea in Hd2. destruct Hd2 as [Hd2 _].
    constructor; [rewrite tail_prev_app; cbn [tail_prev]; lia| |done|exists (encode b); rewrite <- Hd2; f_equal; rewrite total_app; cbn [total]; lia].
    split_and!; [by apply Forall_app| |apply described_app; split; [done|split; [by rewrite Z.add_0_l|done]]].
    rewrite <- app_assoc. apply coalesced_app. split; [done|]. split; [congruence|]. rewrite Ea. by split.
Qed.

(** The blocks behind an object: a free block of [q] pages, if [q] is not zero, and an object. *)
Record right_part (s : FreeListSpace) (slot : Z) (bs2 : list block) (q : Z) (u : block) (bs3 : list block) : Prop := {
  right_blocks : bs2 = if 0 <? q then Block true (zygote (hd u bs2)) q :: u :: bs3 else u :: bs3;
  right_object : 0 <= q /\ free u = false /\ sized (u :: bs3) /\ coalesced 0 bs3 }.

Lemma right_part_spec s slot bs2 : sized bs2 -> coalesced 0 bs2 -> bs2 <> [] -> exists q u bs3, right_part s slot bs2 q u bs3.
Proof.
  intros Hs Hc Hne. destruct bs2 as [|f bs2]; [done|]. destruct Hc as [Hf Hc]. inversion Hs as [|? ? Hf' Hs']; subst.
  destruct (free f) eqn:Ef.
  - assert (after f = pages f) as Ea by (unfold after; by rewrite Ef). rewrite Ea in Hc. destruct bs2 as [|u bs3]; [cbn in Hc; lia|]. destruct Hc as [Hu Hc].
    exists (pages f), u, bs3. constructor.
    + rewrite (proj2 (Z.ltb_lt _ _)) by done. cbn [hd]. destruct f; cbn in *. by subst.
    + destruct (free u) eqn:Eu; [specialize (Hu eq_refl); lia|]. unfold after in Hc. rewrite Eu in Hc. split_and!; [lia|done|done|done].
  - exists 0, f, bs2. unfold after in Hc. rewrite Ef in Hc. constructor; [done|]. split_and!; done.
Qed.

Lemma slot_of_address debug s bs slot : space_ok s bs -> 0 <= slot -> slot < info_count s \/ debug = false ->
  GetSlotIndexForAddress debug s (begin_ s + slot * kAlignment) = Some slot.
Proof.
  intros H H0 Hr. unfold GetSlotIndexForAddress, Contains. destruct (ok_range _ _ H) as (-> & _).
  replace (begin_ s + slot * kAlignment - begin_ s) with (slot * kAlignment) by lia. rewrite Z.div_mul by done.
  destruct Hr as [Hr| ->]; [|done]. change kAlignment with 4096. by rewrite (proj2 (Z.leb_le _ _)), (proj2 (Z.ltb_lt _ _)), andb_false_r by lia.
Qed.

Lemma object_slot s bs1 b bs2 : space_ok s (bs1 ++ b :: bs2) -> 0 <= total bs1 < info_count s.
Proof.
  intros H. destruct (ok_range _ _ H) as (_ & _ & Ht). pose proof (ok_sized _ _ H) as Hs. rewrite total_app in Ht. cbn [total] in Ht. apply Forall_app in Hs as [Hs1 Hs2].
  inversion Hs2 as [|? ? Hb Hs3]; subst. pose proof (total_nonneg _ Hs1). pose proof (total_nonneg _ Hs3). lia.
Qed.

Section free_object.
Context (s : FreeListSpace) (bs1 : list block) (b : block) (bs2 : list block).
Context (H : space_ok s (bs1 ++ b :: bs2)) (Hb : free b = false).
Context (bs0 : list block) (p : Z) (L : left_part s bs1 b bs0 p).
#[local] Set Default Proof Using "H Hb L".

Let slot := total bs1.
Let n := pages b.
Let s1 := put s slot (Info p (encode (Block true false n))).

Lemma free_facts :
  info_at s slot = Some (Info p (encode b)) /\ described s (slot + n) 0 bs2 /\ sized bs2 /\ coalesced 0 bs2 /\ 0 < n /\ 0 <= total bs0 /\ 0 <= total bs2 /\
  slot + n + total bs2 <= info_count s /\ p < 2 ^ 30 /\ free_blocks_ s ≡ₚ gaps 0 0 bs0 ++ (if 0 <? p then [slot] else []) ++ gaps (slot + n) 0 bs2.
Proof.
  pose proof (ok_sized _ _ H) as Hs. pose proof (ok_described _ _ H) as Hd. pose proof (ok_coalesced _ _ H) as Hc.
  destruct (ok_range _ _ H) as (_ & Hn & Ht). pose proof (ok_gaps _ _ H) as Hg. rewrite gaps_app in Hg. cbn [gaps] in Hg. rewrite Z.add_0_l in Hg.
  rewrite total_app in Ht. cbn [total] in Ht. destruct (left_same _ _ _ _ _ L) as (Eg & _). destruct (left_size _ _ _ _ _ L) as (Hp & Et & Ep & _).
  destruct (left_blocks _ _ _ _ _ L) as (Hs0 & _). rewrite Eg, Ep in Hg.
  apply Forall_app in Hs as [Hs1 Hs2]. inversion Hs2 as [|? ? Hbp Hs2']; subst. apply described_app in Hd as [Hd1 [Hd2 Hd3]].
  apply coalesced_app in Hc as [_ [_ Hc2]]. assert (after b = 0) as Ea by (unfold after; by rewrite Hb). rewrite Ea in *.
  rewrite Z.add_0_l in *. pose proof (total_nonneg _ Hs0). pose proof (total_nonneg _ Hs2').
  unfold slot, n. split_and!; try done; try lia.
Qed.

Lemma free_info_range x : 0 <= x < info_count s -> is_Some (info_at s x).
Proof. intros Hx. apply info_at_range. done. Qed.

Lemma free_slot_range : 0 <= slot < info_count s.
Proof. destruct free_facts as (_ & _ & _ & _ & Hn & H0 & H2 & Ht & _). destruct (left_size _ _ _ _ _ L) as (Hp & Et & _). unfold slot in *. lia. Qed.

Lemma info_s1 x : info_at s1 x = if x =? slot then Some (Info p (encode (Block true false n))) else info_at s x.
Proof. apply info_at_put, free_info_range, free_slot_range. Qed.

Lemma n_bound : 0 < n < 2 ^ 30.
Proof. apply (sized_bound s (bs1 ++ b :: bs2)); [done|]. apply elem_of_app. right. left. Qed.

Lemma key_s1 x : key s1 x = key s x.
Proof.
  unfold key. rewrite info_s1. destruct (Z.eqb_spec x slot) as [->|]; [|done]. destruct free_facts as (-> & _). unfold key_of. cbn [fst snd GetPrevFree prev_free_].
  pose proof n_bound. rewrite !AlignSize_encode by (cbn [pages]; unfold n in *; lia). done.
Qed.

Lemma sorted_s1 l : StronglySorted (before s) l -> StronglySorted (before s1) l.
Proof. apply sorted_ext. intros x _. apply key_s1. Qed.

Lemma valid_s1 l : valid_slots s l -> valid_slots s1 l.
Proof. intros Hl. eapply Forall_impl; [exact Hl|]. intros x Hx. rewrite info_s1. by case_ltb. Qed.

(** Coalescing with the previous block. *)
Lemma free_left :
  exists l, (if negb (GetPrevFreeBytes (Info p (encode (Block true false n))) =? 0) then
       s' ← RemoveFreePrev s1 slot;
       Some (s', GetPrevFreeInfo slot (Info p (encode (Block true false n))), n * kAlignment + GetPrevFreeBytes (Info p (encode (Block true false n))))
     else Some (s1, slot, n * kAlignment)) = Some (with_free_blocks s1 l, total bs0, (p + n) * kAlignment) /\
    StronglySorted (before s1) l /\ valid_slots s1 l /\ l ≡ₚ gaps 0 0 bs0 ++ gaps (slot + n) 0 bs2.
Proof.
  destruct free_facts as (_ & _ & _ & _ & _ & _ & _ & _ & _ & Hg). destruct (left_size _ _ _ _ _ L) as (Hp & Et & _). fold slot in Et.
  pose proof (ok_valid _ _ H) as Hv. pose proof (ok_sorted _ _ H) as Hsort.
  unfold GetPrevFreeBytes, GetPrevFree, GetPrevFreeInfo. cbn [prev_free_]. destruct (Z.ltb_spec 0 p) as [Hp0|Hp0].
  - rewrite (proj2 (Z.eqb_neq (p * kAlignment) 0)) by (change kAlignment with 4096; lia). cbn [negb].
    destruct (RemoveFreePrev_spec s1 slot (Info p (encode (Block true false n)))) as (l & -> & Hl & Hperm); [by apply valid_s1|by apply sorted_s1| |done| |].
    { rewrite info_s1. by rewrite Z.eqb_refl. }
    { change (free_blocks_ s1) with (free_blocks_ s). rewrite Hg, !elem_of_app. right. left. by apply list_elem_of_singleton. }
    change (free_blocks_ s1) with (free_blocks_ s) in Hperm. exists l. cbn [mbind option_bind]. replace (slot - p) with (total bs0) by lia.
    replace (n * kAlignment + p * kAlignment) with ((p + n) * kAlignment) by lia. split_and!; [done|done| |].
    + apply valid_s1 in Hv. unfold valid_slots in *. rewrite Hperm in Hv. by inversion Hv.
    + apply (Permutation_cons_inv (a := slot)). rewrite <- Hperm, Hg. cbn [app]. by rewrite Permutation_middle.
  - assert (p = 0) as Ep by lia. rewrite Ep. cbn [Z.eqb negb]. exists (free_blocks_ s).
    split_and!; [|by apply sorted_s1|by apply valid_s1|done].
    rewrite Z.mul_0_l, Z.add_0_l. cbn [negb Z.eqb]. replace slot with (total bs0) by lia. done.
Qed.

Section free_right.
Context (q : Z) (u : block) (bs3 : list block) (R : right_part s (slot + n) bs2 q u bs3).
#[local] Set Default Proof Using "H Hb L R".

Let uslot := slot + n + q.

Lemma right_facts :
  info_at s uslot = Some (Info q (encode u)) /\ described s (uslot + pages u) (after u) bs3 /\ sized bs3 /\ 0 < pages u /\ 0 <= q /\
  uslot + pages u + total bs3 <= info_count s /\ total bs2 = q + pages u + total bs3 /\ 0 <= total bs3 /\
  gaps (slot + n) 0 bs2 = (if 0 <? q then [uslot] else []) ++ gaps (uslot + pages u) (after u) bs3 /\
  (0 < q -> exists z, info_at s (slot + n) = Some (Info 0 (encode (Block true z q)))).
Proof.
  destruct free_facts as (_ & Hd & Hs2 & _ & _ & _ & _ & Ht & _). destruct (right_object _ _ _ _ _ _ R) as (Hq & Hu & Hsu & Hc). inversion Hsu as [|? ? Hpu Hs3]; subst.
  pose proof (right_blocks _ _ _ _ _ _ R) as E. pose proof (total_nonneg _ Hs3). destruct (Z.ltb_spec 0 q) as [Hq0|Hq0].
  - rewrite E in Hd, Ht. cbn [described total gaps pages] in *. destruct Hd as (Hd1 & Hd2 & Hd3). unfold after in Hd2 at 1. cbn [free pages] in Hd2. fold uslot in Hd2, Hd3.
    rewrite E. cbn [total gaps pages]. unfold after at 1. cbn [free pages]. fold uslot. unfold uslot.
    split_and!; try done; try lia; [|intros _; by eexists]. change (after (Block true (zygote (hd u bs2)) q)) with q. by rewrite (proj2 (Z.ltb_lt 0 q) Hq0).
  - assert (q = 0) as Eq by lia. rewrite E in Hd, Ht. cbn [described total] in *. destruct Hd as (Hd1 & Hd2). rewrite E. cbn [total gaps].
    unfold uslot. rewrite Eq, Z.add_0_r. split_and!; try done; lia.
Qed.

(** Coalescing with the next block. *)
Lemma free_right_spec l :
  StronglySorted (before s1) l -> valid_slots s1 l -> l ≡ₚ gaps 0 0 bs0 ++ gaps (slot + n) 0 bs2 ->
  exists l2, (next ← info_at (with_free_blocks s1 l) (slot + n);
     if IsFree next then
       next_next ← info_at (with_free_blocks s1 l) (GetNextInfo (slot + n) next);
       s' ← RemoveFreePrev (with_free_blocks s1 l) (GetNextInfo (slot + n) next);
       Some (s', GetNextInfo (slot + n) next, (p + n) * kAlignment + GetPrevFreeBytes next_next)
     else Some (with_free_blocks s1 l, slot + n, (p + n) * kAlignment)) =
    Some (with_free_blocks s1 l2, uslot, (p + n + q) * kAlignment) /\
    StronglySorted (before s1) l2 /\ valid_slots s1 l2 /\ l2 ≡ₚ gaps 0 0 bs0 ++ gaps (uslot + pages u) (after u) bs3.
Proof.
  intros Hsort Hv Hl. destruct right_facts as (Hi & _ & _ & Hpu & Hq & Ht & _ & Ht3 & Hg & Hf). rewrite Hg in Hl. pose proof n_bound as Hn. pose proof free_slot_range as Hr.
  destruct (ok_range _ _ H) as (_ & Hcount & _). destruct (right_object _ _ _ _ _ _ R) as (_ & Hu & _).
  change (info_at (with_free_blocks s1 l)) with (info_at s1). destruct (Z.ltb_spec 0 q) as [Hq0|Hq0].
  - destruct (Hf Hq0) as (z & Ef). rewrite info_s1, (proj2 (Z.eqb_neq _ _)), Ef by lia. cbn [mbind option_bind].
    assert (0 <= pages (Block true z q) < 2 ^ 30) as Hbq by (cbn [pages]; unfold uslot in *; lia).
    rewrite IsFree_encode by done. cbn [free]. unfold GetNextInfo. rewrite AlignSize_encode by done. cbn [pages]. fold uslot.
    rewrite info_s1, (proj2 (Z.eqb_neq _ _)), Hi by (unfold uslot; lia). cbn [mbind option_bind].
    destruct (RemoveFreePrev_spec (with_free_blocks s1 l) uslot (Info q (encode u))) as (l2 & -> & Hs2 & Hp2); [done|done| |done| |].
    { change (info_at (with_free_blocks s1 l)) with (info_at s1). rewrite info_s1, (proj2 (Z.eqb_neq _ _)) by (unfold uslot; lia). done. }
    { cbn [free_blocks_ with_free_blocks]. rewrite Hl, !elem_of_app. right. left. by apply list_elem_of_singleton. }
    cbn [mbind option_bind]. unfold GetPrevFreeBytes, GetPrevFree. cbn [prev_free_]. replace ((p + n) * kAlignment + q * kAlignment) with ((p + n + q) * kAlignment) by lia.
    cbn [free_blocks_ with_free_blocks] in Hp2. exists l2. split_and!; [done|done| |].
    + unfold valid_slots in *. rewrite Hp2 in Hv. by inversion Hv.
    + apply (Permutation_cons_inv (a := uslot)). rewrite <- Hp2, Hl. cbn [app]. by rewrite Permutation_middle.
  - assert (q = 0) as Eq by lia. unfold uslot in *. rewrite Eq, !Z.add_0_r in *. rewrite info_s1, (proj2 (Z.eqb_neq _ _)), Hi by lia. cbn [mbind option_bind].
    rewrite IsFree_encode by lia. rewrite Hu. by exists l.
Qed.

(** Linking the new free block. *)
Lemma free_link l2 :
  StronglySorted (before s1) l2 -> valid_slots s1 l2 -> l2 ≡ₚ gaps 0 0 bs0 ++ gaps (uslot + pages u) (after u) bs3 ->
  exists s', (s' ← update (with_free_blocks s1 l2) uslot (SetPrevFreeBytes ((p + n + q) * kAlignment));
     s' ← insert_free_block s' uslot;
     update s' (total bs0) (SetByteSize ((p + n + q) * kAlignment) true)) = Some s' /\
    described s' 0 0 (bs0 ++ Block true false (p + n + q) :: u :: bs3) /\ StronglySorted (before s') (free_blocks_ s') /\
    free_blocks_ s' ≡ₚ gaps 0 0 (bs0 ++ Block true false (p + n + q) :: u :: bs3) /\
    begin_ s' = begin_ s /\ end_ s' = end_ s /\ info_count s' = info_count s /\ free_end_ s' = free_end_ s /\
    num_objects_allocated_ s' = num_objects_allocated_ s /\ num_bytes_allocated_ s' = num_bytes_allocated_ s.
Proof.
  intros Hsort Hv Hl. destruct right_facts as (Hi & Hd3 & Hs3 & Hpu & Hq & Ht & _ & Ht3 & Hg & _). pose proof n_bound as Hn. pose proof free_slot_range as Hr.
  destruct (ok_range _ _ H) as (_ & Hcount & _). destruct (left_size _ _ _ _ _ L) as (Hp & Et & _ & E0). destruct (left_blocks _ _ _ _ _ L) as (Hs0 & _ & Hd0).
  destruct (left_info _ _ _ _ _ L) as (x & Hx). fold slot in Et. pose proof (total_nonneg _ Hs0).
  set (new := p + n + q). assert (0 <= new < 2 ^ 30) as Hnew by (unfold new, uslot in *; lia).
  assert (info_at s1 uslot = Some (Info q (encode u))) as Hi1 by (rewrite info_s1, (proj2 (Z.eqb_neq _ _)) by (unfold uslot; lia); done).
  rewrite (update_put _ _ _ (Info q (encode u))) by done. rewrite SetPrevFree_val by done. cbn [mbind option_bind alloc_size_]. set (s2 := put _ uslot _).
  assert (forall y, info_at s2 y = if y =? uslot then Some (Info new (encode u)) else info_at s1 y) as Hi2 by (intros y; apply (info_at_put (with_free_blocks s1 l2)); by eexists).
  assert (uslot ∉ l2) as Hnot.
  { rewrite Hl. intros [Hin|Hin]%elem_of_app; apply gaps_range in Hin; [unfold uslot in *; lia|done|unfold uslot in *; lia|done]. }
  assert (forall y, y <> uslot -> key s2 y = key s1 y) as Hk2 by (intros y Hy; apply (key_put (with_free_blocks s1 l2)); [by eexists|done]).
  destruct (insert_free_block_spec s2 uslot (Info new (encode u))) as (l3 & -> & Hs3' & Hp3).
  { eapply Forall_impl; [exact Hv|]. intros y Hy. rewrite Hi2. by case_ltb. }
  { eapply sorted_ext; [|exact Hsort]. intros y Hy. apply Hk2. intros ->. done. }
  { by rewrite Hi2, Z.eqb_refl. }
  { done. }
  change (free_blocks_ s2) with l2 in Hp3. cbn [mbind option_bind].
  assert (exists x', info_at (with_free_blocks s2 l3) (total bs0) = Some (Info 0 x')) as (x' & Hx').
  { change (info_at (with_free_blocks s2 l3)) with (info_at s2). rewrite Hi2, (proj2 (Z.eqb_neq _ _)), info_s1 by (unfold uslot; lia).
    case_ltb; [replace p with 0 by lia; by eexists|by eexists]. }
  rewrite (update_put _ _ _ _ Hx'), SetByteSize_encode by done. set (s3 := put _ (total bs0) _). exists s3.
  assert (forall y, info_at s3 y = if y =? total bs0 then Some (Info 0 (encode (Block true false new))) else info_at s2 y) as Hi3.
  { intros y. unfold s3. rewrite info_at_put by (by eexists). done. }
  assert (uslot <> total bs0 /\ slot + n <= uslot) as [Hne Hle] by (unfold uslot; lia).
  split_and!; [done| | | | | |unfold info_count, s3, s2, s1, put; cbn [allocation_info_ with_info with_free_blocks]; by rewrite !length_insert|done|done|done]; [| | |done|done].
  - apply described_app. split; [|split; [|split]].
    + eapply described_frame; [done| |exact Hd0]. intros y Hy. rewrite Hi3, Hi2, info_s1. repeat case_ltb; done || lia.
    + rewrite Z.add_0_l, E0, Hi3, Z.eqb_refl. done.
    + unfold after. cbn [free pages]. replace (0 + total bs0 + new) with uslot by (unfold new, uslot; lia).
      rewrite Hi3, (proj2 (Z.eqb_neq _ _)), Hi2, Z.eqb_refl by lia. done.
    + cbn [pages]. replace (0 + total bs0 + new + pages u) with (uslot + pages u) by (unfold new, uslot; lia).
      eapply described_frame; [done| |exact Hd3]. intros y Hy. rewrite Hi3, Hi2, info_s1. unfold uslot in *. repeat case_ltb; done || lia.
  - change (free_blocks_ s3) with l3. eapply sorted_ext; [|exact Hs3']. intros y Hy. apply (key_put (with_free_blocks s2 l3)); [by eexists|].
    intros ->. rewrite Hp3, Hl in Hy. apply elem_of_cons in Hy as [Hy|[Hy|Hy]%elem_of_app]; [congruence| |]; apply gaps_range in Hy; unfold uslot in *; done || lia.
  - change (free_blocks_ s3) with l3. rewrite Hp3, Hl, gaps_app. cbn [gaps]. rewrite Z.add_0_l, E0. cbn [pages]. change (after (Block true false new)) with new.
    replace (total bs0 + new) with uslot by (unfold new, uslot; lia). rewrite (proj2 (Z.ltb_lt 0 new)) by (unfold new; lia). cbn [app]. by rewrite Permutation_middle.
Qed.
(** The space after coalescing. *)
Lemma free_middle_ok s' :
  described s' 0 0 (bs0 ++ Block true false (p + n + q) :: u :: bs3) -> StronglySorted (before s') (free_blocks_ s') ->
  free_blocks_ s' ≡ₚ gaps 0 0 (bs0 ++ Block true false (p + n + q) :: u :: bs3) ->
  begin_ s' = begin_ s -> end_ s' = end_ s -> info_count s' = info_count s -> free_end_ s' = free_end_ s ->
  num_objects_allocated_ s' = num_objects_allocated_ s -> num_bytes_allocated_ s' = num_bytes_allocated_ s ->
  space_ok (with_counters s' (num_bytes_allocated_ s' - n * kAlignment) (num_objects_allocated_ s' - 1) (total_bytes_allocated_ s') (total_objects_allocated_ s'))
    (bs0 ++ Block true false (p + n + q) :: u :: bs3) /\
  objects 0 (bs1 ++ b :: bs2) ≡ₚ (slot, n) :: objects 0 (bs0 ++ Block true false (p + n + q) :: u :: bs3).
Proof.
  intros Hd' Hsort' Hg' Eb Ee Ec Ef Eno Enb. destruct right_facts as (_ & _ & Hs3 & Hpu & Hq & Ht' & Etot & Ht3 & _ & _). pose proof n_bound as Hnb.
  destruct (right_object _ _ _ _ _ _ R) as (_ & Hu & _ & Hc3). destruct (left_same _ _ _ _ _ L) as (_ & Eo & Eu).
  destruct (left_size _ _ _ _ _ L) as (Hp0 & Et & _ & E0). destruct (left_blocks _ _ _ _ _ L) as (Hs0 & Hc0 & _). fold slot in Et.
  destruct (ok_range _ _ H) as (Hr & Hcount & _). pose proof (ok_free_end _ _ H) as Hfe. rewrite total_app in Hfe. cbn [total] in Hfe. fold slot n in Hfe.
  destruct (ok_counters _ _ H) as [Hco Hcb].
  assert (objects (slot + n) bs2 = objects (slot + n + q) (u :: bs3) /\ used_pages bs2 = used_pages (u :: bs3)) as [Eo2 Eu2].
  { rewrite (right_blocks _ _ _ _ _ _ R). destruct (Z.ltb_spec 0 q); [|replace q with 0 by lia; by rewrite Z.add_0_r]. split; [done|]. by rewrite used_pages_cons. }
  assert (objects 0 (bs1 ++ b :: bs2) = objects 0 bs0 ++ (slot, n) :: objects (slot + n) bs2) as Eob.
  { rewrite objects_app, Eo. cbn [objects]. by rewrite Hb, Z.add_0_l. }
  assert (objects 0 (bs0 ++ Block true false (p + n + q) :: u :: bs3) = objects 0 bs0 ++ objects (slot + n) bs2) as Eo'.
  { rewrite objects_app, Eo2. change (objects (0 + total bs0) (Block true false (p + n + q) :: u :: bs3)) with (objects (0 + total bs0 + (p + n + q)) (u :: bs3)).
    do 2 f_equal. lia. }
  assert (sized (bs0 ++ Block true false (p + n + q) :: u :: bs3)) as Hsz.
  { apply Forall_app. split; [done|]. constructor; [cbn [pages]; lia|by constructor]. }
  split; [|rewrite Eob, Eo'; by rewrite Permutation_middle].
  constructor; cbn [begin_ end_ free_end_ free_blocks_ num_objects_allocated_ num_bytes_allocated_ with_counters]; try done.
  - eapply described_frame; [exact Hsz| |exact Hd']. by intros.
  - apply coalesced_app. split; [done|]. split; [done|]. cbn [coalesced]. split; [congruence|]. unfold after. by rewrite Hu.
  - change (info_count _) with (info_count s') at 1 2 3. rewrite Ec, Eb, Ee. split_and!; [done|done|]. rewrite total_app. cbn [total pages]. lia.
  - change (info_count _) with (info_count s'). rewrite Ec, Ef, Hfe, Etot, total_app. cbn [total pages]. lia.
  - rewrite Eno, Enb, Hco, Hcb, Eob, Eo', !length_app, !used_pages_app, !used_pages_cons, Hb, Eu, Eu2, used_pages_cons. cbn [length free pages]. fold n. split; lia.
Qed.
End free_right.

(** The space after freeing its last object. *)
Lemma free_last_ok l : bs2 = [] -> StronglySorted (before s1) l -> l ≡ₚ gaps 0 0 bs0 ++ gaps (slot + n) 0 bs2 ->
  space_ok (with_counters (with_free_end (with_free_blocks s1 l) (free_end_ s + (p + n) * kAlignment))
    (num_bytes_allocated_ s - n * kAlignment) (num_objects_allocated_ s - 1) (total_bytes_allocated_ s) (total_objects_allocated_ s)) bs0 /\
  objects 0 (bs1 ++ b :: bs2) ≡ₚ (slot, n) :: objects 0 bs0.
Proof.
  intros Ebs2 Hsort Hl. destruct free_facts as (Hi & _ & Hs2 & Hc2 & Hn & H0 & H2 & Ht & Hp & _).
  destruct (left_same _ _ _ _ _ L) as (_ & Eo & Eu). destruct (left_size _ _ _ _ _ L) as (Hp0 & Et & _ & E0). destruct (left_blocks _ _ _ _ _ L) as (Hs0 & Hc0 & Hd0). fold slot in Et.
  destruct (ok_range _ _ H) as (Hr & Hcount & _). pose proof (ok_free_end _ _ H) as Hfe. rewrite total_app in Hfe. cbn [total] in Hfe. fold slot n in Hfe.
  destruct (ok_counters _ _ H) as [Hco Hcb]. assert (info_count s1 = info_count s) as Ec by (unfold info_count, s1; by rewrite length_put).
  assert (objects 0 (bs1 ++ b :: bs2) = objects 0 bs0 ++ [(slot, n)]) as Eob.
  { rewrite objects_app, Eo, Ebs2. cbn [objects]. by rewrite Hb, Z.add_0_l. }
  split; [|rewrite Eob; by rewrite Permutation_app_comm].
  constructor; cbn [begin_ end_ free_end_ free_blocks_ num_objects_allocated_ num_bytes_allocated_ with_counters with_free_end with_free_blocks]; try done.
  - eapply described_frame; [done| |exact Hd0]. intros y Hy. change (info_at s1 y = info_at s y). rewrite info_s1. case_ltb; [lia|done].
  - rewrite <- (app_nil_r bs0). apply coalesced_app. split; [done|]. by rewrite E0.
  - change (info_count _) with (info_count s1) at 1 2 3. rewrite Ec. split_and!; [done|done|lia].
  - change (info_count _) with (info_count s1). rewrite Ec, Hfe, Ebs2. cbn [total]. lia.
  - rewrite Ebs2 in Hl. cbn [gaps] in Hl. by rewrite app_nil_r in Hl.
  - rewrite Hco, Hcb, Eob, used_pages_app, used_pages_cons, Hb, Eu, length_app, Ebs2. cbn [length]. change (used_pages []) with 0. fold n. split; lia.
Qed.
End free_object.

Lemma used_pages_objects slot bs : used_pages bs = foldr (fun o t => o.2 + t) 0 (objects slot bs).
Proof.
  revert slot. induction bs as [|b bs IH]; intros slot; [done|]. rewrite used_pages_cons. cbn [objects]. destruct (free b); cbn [app foldr snd]; rewrite <- IH; lia.
Qed.

Lemma foldr_sum_perm (l l' : list (Z * Z)) : l ≡ₚ l' -> foldr (fun o t => o.2 + t) 0 l = foldr (fun o t => o.2 + t) 0 l'.
Proof. induction 1; cbn [foldr]; lia. Qed.

Lemma Free_spec debug s bs slot n :
  space_ok s bs -> (slot, n) ∈ objects 0 bs ->
  exists s' bs', Free debug s (begin_ s + slot * kAlignment) = Some (n * kAlignment, s') /\ space_ok s' bs' /\ objects 0 bs ≡ₚ (slot, n) :: objects 0 bs' /\
    begin_ s' = begin_ s /\ info_count s' = info_count s.
Proof.
  intros H Hin. apply objects_inv in Hin as (bs1 & b & bs2 & -> & Hb & <- & ->). rewrite Z.add_0_l. destruct (left_part_spec _ _ _ _ H) as (bs0 & p & L).
  destruct (free_facts _ _ _ _ H Hb _ _ L) as (Hi & _ & Hs2 & Hc2 & _ & _ & _ & _ & _ & _). pose proof (n_bound _ _ _ _ H Hb _ _ L) as Hnb.
  destruct (ok_range _ _ H) as (Hr & _ & _). pose proof (ok_free_end _ _ H) as Hfe. rewrite total_app in Hfe. cbn [total] in Hfe.
  unfold Free. pose proof (object_slot _ _ _ _ H) as Hslot. rewrite (slot_of_address debug _ _ _ H (proj1 Hslot) (or_introl (proj2 Hslot))). cbn [mbind option_bind]. rewrite Hi. cbn [mbind option_bind]. rewrite ByteSize_encode by lia.
  rewrite (update_put _ _ _ _ Hi), SetByteSize_encode by lia. cbn [mbind option_bind]. set (s1 := put _ _ _).
  assert (info_at s1 (total bs1) = Some (Info p (encode (Block true false (pages b))))) as Hi1 by (unfold s1; rewrite info_at_put by (by eexists); by rewrite Z.eqb_refl).
  rewrite Hi1. cbn [mbind option_bind]. destruct (free_left _ _ _ _ H Hb _ _ L) as (l & E1 & Hsort & Hv & Hl). fold s1 in E1.
  cbv zeta. rewrite E1. cbn [mbind option_bind].
  assert (GetNextInfo (total bs1) (Info p (encode (Block true false (pages b)))) = total bs1 + pages b) as EN
    by (unfold GetNextInfo; by rewrite AlignSize_encode by (cbn [pages]; lia)). rewrite !EN.
  unfold GetAllocationAddressForSlot. cbn [begin_ with_free_blocks]. change (begin_ s1) with (begin_ s). change (end_ s1) with (end_ s). change (free_end_ s1) with (free_end_ s).
  replace (end_ s - free_end_ s) with (begin_ s + (total bs1 + pages b + total bs2) * kAlignment) by lia.
  assert (info_count s1 = info_count s) as Ec1 by (unfold info_count, s1; by rewrite length_put).
  destruct bs2 as [|b2 bs2'] eqn:Ebs2.
  - cbn [total]. rewrite Z.add_0_r, Z.leb_refl, Z.eqb_refl. cbn [mbind option_bind].
    destruct (free_last_ok _ _ _ _ H Hb _ _ L l eq_refl Hsort Hl) as [Hok Ho]. eexists _, bs0. split; [done|]. split; [exact Hok|]. split; [done|]. by split.
  - rewrite <- Ebs2 in *. destruct (right_part_spec s (total bs1 + pages b) bs2 Hs2 Hc2 ltac:(by rewrite Ebs2)) as (q & u & bs3 & R).
    destruct (right_facts _ _ _ _ H Hb _ _ L _ _ _ R) as (_ & _ & _ & Hpu & Hq & _ & Etot & Ht3 & _ & _).
    rewrite (proj2 (Z.leb_gt _ _)) by (change kAlignment with 4096; lia).
    destruct (free_right_spec _ _ _ _ H Hb _ _ L _ _ _ R l Hsort Hv Hl) as (l2 & E2 & Hsort2 & Hv2 & Hl2).
    destruct (free_link _ _ _ _ H Hb _ _ L _ _ _ R l2 Hsort2 Hv2 Hl2) as (s' & E3 & Hd' & Hsort' & Hg' & Eb & Ee & Ec & Ef & Eno & Enb). fold s1 in E2, E3.
    destruct (info_at (with_free_blocks s1 l) (total bs1 + pages b)) as [next|]; [|done]. cbn [mbind option_bind] in *. rewrite E2. cbn [mbind option_bind]. rewrite E3. cbn [mbind option_bind].
    destruct (free_middle_ok _ _ _ _ H Hb _ _ L _ _ _ R s' Hd' Hsort' Hg' Eb Ee Ec Ef Eno Enb) as [Hok Ho].
    eexists _, _. split; [done|]. split; [exact Hok|]. split; [exact Ho|]. by split.
Qed.

(** ** Allocating *)

Lemma coalesced_tail p bs : coalesced p bs -> tail_prev p bs = 0.
Proof. revert p. induction bs as [|b bs IH]; intros p; cbn [coalesced tail_prev]; [done|]. intros [_ Hc]. by apply IH. Qed.

Lemma gap_info_at s bs1 f u bs2 : space_ok s (bs1 ++ f :: u :: bs2) -> free f = true ->
  let x := total bs1 + pages f in info_at s x = Some (Info (pages f) (encode u)) /\ key s x = (pages f, pages u, x) /\ 0 < pages u.
Proof.
  intros H Hf x. pose proof (ok_described _ _ H) as Hd. apply described_app in Hd as [_ (_ & Hd & _)]. rewrite Z.add_0_l in Hd. unfold after in Hd. rewrite Hf in Hd. fold x in Hd.
  assert (0 < pages u < 2 ^ 30) by (apply (sized_bound s _ _ H), elem_of_app; right; right; left). split_and!; [done| |lia].
  unfold key. rewrite Hd. unfold key_of. cbn [fst snd GetPrevFree prev_free_]. rewrite AlignSize_encode by lia. done.
Qed.

Lemma gap_info s bs x : space_ok s bs -> x ∈ free_blocks_ s ->
  exists bs1 f u bs2, bs = bs1 ++ f :: u :: bs2 /\ free f = true /\ x = total bs1 + pages f /\ info_at s x = Some (Info (pages f) (encode u)) /\
    key s x = (pages f, pages u, x).
Proof.
  intros H Hx. rewrite (ok_gaps _ _ H) in Hx. apply gaps_inv in Hx as [(? & _)|(bs1 & f & u & bs2 & -> & Hf & ->)]; [lia|].
  exists bs1, f, u, bs2. rewrite Z.add_0_l. destruct (gap_info_at s bs1 f u bs2 H Hf) as (? & ? & _). by split_and!.
Qed.

(** The state after an allocation, before its counters and its info are set. *)
Record placed (s : FreeListSpace) (bs : list block) (m : Z) (s' : FreeListSpace) (slot : Z) (bs' : list block) : Prop := {
  placed_info : is_Some (info_at s' slot);
  placed_described : described (put s' slot (Info 0 (encode (Block false false m)))) 0 0 bs';
  placed_blocks : sized bs' /\ coalesced 0 bs' /\ total bs' <= info_count s' /\ free_end_ s' = (info_count s' - total bs') * kAlignment;
  placed_sorted : StronglySorted (before s') (free_blocks_ s') /\ (slot ∉ free_blocks_ s') /\ free_blocks_ s' ≡ₚ gaps 0 0 bs';
  placed_objects : objects 0 bs' ≡ₚ (slot, m) :: objects 0 bs /\ used_pages bs' = used_pages bs + m;
  placed_same : begin_ s' = begin_ s /\ end_ s' = end_ s /\ info_count s' = info_count s /\ num_objects_allocated_ s' = num_objects_allocated_ s /\
    num_bytes_allocated_ s' = num_bytes_allocated_ s }.

(** The end of [Alloc] makes a well-formed space of it. *)
Lemma alloc_finish s bs m s' slot bs' a b : space_ok s bs -> placed s bs m s' slot bs' -> 0 < m < 2 ^ 30 ->
  exists s'', (s'' ← update (with_counters s' (num_bytes_allocated_ s' + m * kAlignment) (num_objects_allocated_ s' + 1) a b) slot (SetPrevFreeBytes 0);
     update s'' slot (SetByteSize (m * kAlignment) false)) = Some s'' /\ space_ok s'' bs' /\ begin_ s'' = begin_ s /\ info_count s'' = info_count s.
Proof.
  intros H [[i Hi] Hd (Hs & Hc & Ht & Hfe) (Hsort & Hnot & Hg) [Ho Hu] (Eb & Ee & Ec & Eno & Enb)] Hm. set (sc := with_counters _ _ _ _ _).
  assert (info_at sc slot = Some i) as Hic by done. rewrite (update_put _ _ _ _ Hic). cbn [mbind option_bind]. replace 0 with (0 * kAlignment) by done. rewrite SetPrevFree_val by done.
  set (s2 := put _ _ _). assert (info_at s2 slot = Some (Info 0 (alloc_size_ i))) as Hi2 by (unfold s2; rewrite info_at_put by (by eexists); by rewrite Z.eqb_refl).
  rewrite (update_put _ _ _ _ Hi2), SetByteSize_encode by lia. set (s3 := put s2 _ _). exists s3. split; [done|].
  assert (forall y, info_at s3 y = info_at (put s' slot (Info 0 (encode (Block false false m)))) y) as Hi3.
  { intros y. unfold s3. rewrite !info_at_put by (by eexists). case_ltb; [done|]. unfold s2. rewrite info_at_put by (by eexists). by rewrite (proj2 (Z.eqb_neq _ _)). }
  assert (info_count s3 = info_count s') as Ec3 by (unfold info_count, s3, s2; by rewrite !length_put).
  destruct (ok_range _ _ H) as (Hr & Hcount & _). destruct (ok_counters _ _ H) as [Hco Hcb].
  split; [|split_and!; [done|by rewrite Ec3]]. constructor.
  - eapply described_frame; [done| |exact Hd]. intros y _. apply Hi3.
  - done.
  - done.
  - rewrite Ec3. change (end_ s3) with (end_ s'). change (begin_ s3) with (begin_ s'). rewrite Eb, Ee, Ec. rewrite Ec in Ht. done.
  - rewrite Ec3. exact Hfe.
  - change (free_blocks_ s3) with (free_blocks_ s'). eapply sorted_ext; [|exact Hsort]. intros x Hx. unfold key. rewrite Hi3, info_at_put by (by eexists).
    rewrite (proj2 (Z.eqb_neq _ _)); [done|]. intros ->. done.
  - exact Hg.
  - change (num_objects_allocated_ s3) with (num_objects_allocated_ s' + 1). change (num_bytes_allocated_ s3) with (num_bytes_allocated_ s' + m * kAlignment).
    rewrite Eno, Enb, Hco, Hcb, Ho, Hu. cbn [length]. split; lia.
Qed.

Lemma alloc_end s bs m : space_ok s bs -> 0 < m -> m * kAlignment <= free_end_ s ->
  placed s bs m (with_free_end s (free_end_ s - m * kAlignment)) (total bs) (bs ++ [Block false false m]).
Proof.
  intros H Hm Hfe. pose proof (ok_free_end _ _ H) as Ef. rewrite Ef in Hfe. assert (m <= info_count s - total bs) as Hle by (change kAlignment with 4096 in *; lia).
  pose proof (total_nonneg _ (ok_sized _ _ H)). pose proof (coalesced_tail _ _ (ok_coalesced _ _ H)) as E0.
  assert (is_Some (info_at s (total bs))) as Hi by (apply info_at_range; unfold info_count in *; lia).
  constructor.
  - exact Hi.
  - apply described_app. split.
    + eapply described_put; [apply H|done|lia|]. eapply described_frame; [apply H| |apply H]. by intros.
    + cbn [described]. rewrite Z.add_0_l, E0, info_at_put by done. by rewrite Z.eqb_refl.
  - change (info_count (with_free_end s _)) with (info_count s). rewrite total_app. cbn [total pages free_end_ with_free_end]. split_and!; [|  |lia|rewrite Ef; lia].
    + apply Forall_app. split; [apply H|by constructor].
    + apply coalesced_app. rewrite E0. split; [|done]. pose proof (ok_coalesced _ _ H) as Hc. rewrite <- (app_nil_r bs) in Hc. by apply coalesced_app in Hc as [Hc _].
  - cbn [free_blocks_ with_free_end]. split_and!; [|intros Hx; rewrite (ok_gaps _ _ H) in Hx; apply gaps_range in Hx; [lia|apply H]|].
    + eapply sorted_ext; [|apply H]. by intros.
    + rewrite gaps_app. cbn [gaps]. rewrite E0. rewrite app_nil_r. apply H.
  - rewrite objects_app, used_pages_app. cbn [objects]. rewrite Z.add_0_l. split; [by rewrite Permutation_app_comm|]. rewrite used_pages_cons. change (used_pages []) with 0. cbn [free pages]. lia.
  - done.
Qed.

(** ** Placing an object in a gap *)

Section alloc_gap.
Context (s : FreeListSpace) (bs1 : list block) (f u : block) (bs2 : list block) (m : Z) (l : list Z).
Let x := total bs1 + pages f.
Let r := pages f - m.
Context (H : space_ok s (bs1 ++ f :: u :: bs2)) (Hf : free f = true) (Hm : 0 < m <= pages f).
Context (Hsort : StronglySorted (before s) l) (Hl : free_blocks_ s ≡ₚ x :: l).
#[local] Set Default Proof Using "H Hf Hm Hsort Hl".

(** The gap is the free block [f] before [u]: its blocks, its infos and the other gaps. *)
Record gap_facts : Prop := {
  gap_sizes : 0 < pages f /\ 0 < pages u /\ 0 <= r < 2 ^ 30 /\ 0 <= total bs1 /\ 0 <= total bs2 /\ x + pages u + total bs2 <= info_count s;
  gap_sized : sized bs1 /\ sized bs2 /\ sized (u :: bs2);
  gap_described : described s 0 0 bs1 /\ info_at s (total bs1) = Some (Info 0 (encode f)) /\ info_at s x = Some (Info (pages f) (encode u)) /\
    described s (x + pages u) (after u) bs2;
  gap_coalesced : coalesced 0 (bs1 ++ [Block false false 1]) /\ tail_prev 0 bs1 = 0 /\ free u = false /\ coalesced (after u) bs2;
  gap_others : l ≡ₚ gaps 0 0 bs1 ++ gaps (x + pages u) (after u) bs2;
  gap_free_end : free_end_ s = (info_count s - (total bs1 + (pages f + (pages u + total bs2)))) * kAlignment }.

Lemma gap_facts_hold : gap_facts.
Proof.
  pose proof (ok_sized _ _ H) as Hs. pose proof (ok_described _ _ H) as Hd. pose proof (ok_coalesced _ _ H) as Hc. pose proof (ok_gaps _ _ H) as Hg.
  destruct (ok_range _ _ H) as (_ & Hcount & Ht). pose proof (ok_free_end _ _ H) as Hfe. rewrite total_app in Ht, Hfe. cbn [total] in Ht, Hfe.
  apply Forall_app in Hs as [Hs1 Hs2]. inversion Hs2 as [|? ? Hfp Hs2']; subst. inversion Hs2' as [|? ? Hup Hs3]; subst.
  apply described_app in Hd as (Hd1 & Hdf & Hdu & Hd2). rewrite Z.add_0_l in *. assert (after f = pages f) as Ea by (unfold after; by rewrite Hf). rewrite Ea in Hdu. fold x in Hdu, Hd2.
  apply coalesced_app in Hc as [Hc1 (Hcf & Hcu & Hc2)]. specialize (Hcf Hf). rewrite Ea in Hcu. rewrite Hcf in Hdf.
  rewrite gaps_app in Hg. cbn [gaps] in Hg. rewrite Z.add_0_l, Hcf, Ea in Hg. fold x in Hg.
  rewrite (proj2 (Z.ltb_lt 0 (pages f))) in Hg by lia. cbn [Z.ltb app] in Hg. pose proof (total_nonneg _ Hs1). pose proof (total_nonneg _ Hs3).
  assert (free u = false) as Hu by (destruct (free u); [specialize (Hcu eq_refl); lia|done]).
  constructor; [unfold x, r; lia|done|done|done| |done].
  apply (Permutation_cons_inv (a := x)). rewrite <- Hl, Hg. cbn [app]. by rewrite Permutation_middle.
Qed.

Lemma gap_other_slots y : y ∈ l -> y < total bs1 \/ x + pages u <= y.
Proof.
  destruct gap_facts_hold as [_ (Hs1 & Hs2 & _) _ _ Hl' _]. intros Hy. rewrite Hl' in Hy. apply elem_of_app in Hy as [Hy|Hy]; apply gaps_range in Hy; (done || lia).
Qed.

Lemma gap_valid : Forall (fun y => is_Some (info_at s y)) l.
Proof. pose proof (ok_valid _ _ H) as Hv. unfold valid_slots in Hv. rewrite Hl in Hv. by inversion Hv. Qed.

(** The info of [u] after the first step: [r] free pages before it. *)
Let s0 := put (with_free_blocks s l) x (Info r (encode u)).

Lemma gap_info_s0 y : info_at s0 y = if y =? x then Some (Info r (encode u)) else info_at s y.
Proof. destruct gap_facts_hold as [_ _ (_ & _ & Hdu & _) _ _ _]. apply (info_at_put (with_free_blocks s l)). by eexists. Qed.

Lemma gap_key_s0 y : y ∈ l -> key s0 y = key s y.
Proof.
  destruct gap_facts_hold as [Hz _ (_ & _ & Hdu & _) _ _ _]. intros Hy. apply (key_put (with_free_blocks s l)); [by eexists|].
  pose proof (gap_other_slots y Hy). unfold x in *. lia.
Qed.

Lemma gap_count : info_count s0 = info_count s.
Proof. unfold info_count, s0. by rewrite length_put. Qed.

Lemma alloc_rest : 0 < r ->
  exists s', (s1 ← update s0 (x - r) (SetPrevFreeBytes 0);
      s2 ← update s1 (x - r) (SetByteSize (r * kAlignment) true);
      insert_free_block s2 x) = Some s' /\
    placed s (bs1 ++ f :: u :: bs2) m s' (total bs1) (bs1 ++ Block false false m :: Block true false r :: u :: bs2).
Proof.
  intros Hr0. destruct gap_facts_hold as [(Hfp & Hup & Hr & Ht1 & Ht2 & Ht) (Hs1 & Hs3 & Hs2') (Hd1 & Hdf & Hdu & Hd2) (Hc1 & Hcf & Hcu & Hc2) Hl' Hfe].
  pose proof gap_info_s0 as Hi0. pose proof gap_key_s0 as Hk0. pose proof gap_other_slots as Hly. pose proof gap_valid as Hv. pose proof gap_count as Ec0.
  assert (x <> total bs1) as Hne by (unfold x; lia).
  set (nf := x - r). assert (total bs1 < nf < x) as Hnf by (unfold nf, x, r; lia).
  assert (is_Some (info_at s nf)) as [i Hi] by (apply info_at_range; unfold info_count, x in *; lia).
  assert (info_at s0 nf = Some i) as Hinf by (by rewrite Hi0, (proj2 (Z.eqb_neq _ _)) by lia).
  rewrite (update_put _ _ _ _ Hinf). change 0 with (0 * kAlignment) at 1. rewrite SetPrevFree_val by done. cbn [mbind option_bind]. set (s1 := put s0 _ _).
  assert (info_at s1 nf = Some (Info 0 (alloc_size_ i))) as Hi1 by (unfold s1; rewrite info_at_put by (by eexists); by rewrite Z.eqb_refl).
  rewrite (update_put _ _ _ _ Hi1), SetByteSize_encode by done. cbn [mbind option_bind]. set (s2 := put s1 _ _).
  assert (forall y, info_at s2 y = if y =? nf then Some (Info 0 (encode (Block true false r))) else info_at s0 y) as Hi2.
  { intros y. unfold s2. rewrite info_at_put by (by eexists). case_ltb; [done|]. unfold s1. rewrite info_at_put by (by eexists). by rewrite (proj2 (Z.eqb_neq _ _)). }
  assert (forall y, y ∈ l -> key s2 y = key s y) as Hk2.
  { intros y Hy. rewrite <- Hk0 by done. unfold key. rewrite Hi2, (proj2 (Z.eqb_neq _ _)); [done|]. specialize (Hly y Hy). lia. }
  destruct (insert_free_block_spec s2 x (Info r (encode u))) as (l3 & -> & Hs3' & Hp3).
  { eapply Forall_impl; [exact Hv|]. intros y Hy. rewrite Hi2, Hi0. by repeat case_ltb. }
  { eapply sorted_ext; [|exact Hsort]. exact Hk2. }
  { by rewrite Hi2, (proj2 (Z.eqb_neq _ _)), Hi0, Z.eqb_refl by lia. }
  { change (free_blocks_ s2) with l. intros Hx. specialize (Hly x Hx). lia. }
  change (free_blocks_ s2) with l in Hp3. eexists. split; [done|]. assert (info_count s2 = info_count s) as Ec2 by (unfold info_count, s2, s1; by rewrite !length_put).
  assert (is_Some (info_at s2 (total bs1))) as His by (rewrite Hi2, Hi0; repeat case_ltb; (done || by eexists)).
  constructor.
  + exact His.
  + cbn [app]. apply described_app. split; [|split; [|split; [|split]]].
    * eapply described_frame; [done| |exact Hd1]. intros y Hy. rewrite (info_at_put (with_free_blocks s2 l3)) by exact His. change (info_at (with_free_blocks s2 l3)) with (info_at s2).
      rewrite Hi2, Hi0. unfold x in *. repeat case_ltb; done || lia.
    * rewrite Z.add_0_l, (info_at_put (with_free_blocks s2 l3)) by exact His. by rewrite Z.eqb_refl, Hcf.
    * rewrite Z.add_0_l, (info_at_put (with_free_blocks s2 l3)) by exact His. cbn [pages]. change (info_at (with_free_blocks s2 l3)) with (info_at s2).
      replace (total bs1 + m) with nf by (unfold nf, x, r; lia). rewrite (proj2 (Z.eqb_neq _ _)), Hi2, Z.eqb_refl by lia. done.
    * rewrite Z.add_0_l, (info_at_put (with_free_blocks s2 l3)) by exact His. cbn [pages]. change (info_at (with_free_blocks s2 l3)) with (info_at s2).
      change (after (Block true false r)) with r. replace (total bs1 + m + r) with x by (unfold x, r; lia). by rewrite !(proj2 (Z.eqb_neq _ _)), Hi2, (proj2 (Z.eqb_neq _ _)), Hi0, Z.eqb_refl by lia.
    * cbn [pages]. replace (0 + total bs1 + m + r + pages u) with (x + pages u) by (unfold x, r; lia). eapply described_frame; [done| |exact Hd2].
      intros y Hy. rewrite (info_at_put (with_free_blocks s2 l3)) by exact His. change (info_at (with_free_blocks s2 l3)) with (info_at s2). rewrite Hi2, Hi0. unfold x in *. repeat case_ltb; done || lia.
  + change (info_count (with_free_blocks s2 l3)) with (info_count s2). rewrite Ec2, total_app. cbn [app total pages]. split_and!; [| |unfold r; lia|].
    * apply Forall_app. split; [done|]. constructor; [cbn; lia|]. constructor; [cbn [pages]; lia|by constructor].
    * apply coalesced_app. split; [done|]. split; [done|]. split; [done|]. split; [congruence|done].
    * change (free_end_ (with_free_blocks s2 l3)) with (free_end_ s). rewrite Hfe. unfold r. lia.
  + change (free_blocks_ (with_free_blocks s2 l3)) with l3. split_and!; [exact Hs3'| |].
    * rewrite Hp3. intros [Hy|Hy]%elem_of_cons; [congruence|]. specialize (Hly _ Hy). unfold x in *. lia.
    * rewrite Hp3, Hl', gaps_app. cbn [app gaps pages]. rewrite Z.add_0_l, Hcf. change (after (Block true false r)) with r. change (after (Block false false m)) with 0.
      cbn [Z.ltb app]. rewrite (proj2 (Z.ltb_lt 0 r)) by lia. replace (total bs1 + m + r) with x by (unfold x, r; lia). cbn [app]. by rewrite Permutation_middle.
  + rewrite !objects_app, !used_pages_app. cbn [app objects free pages]. rewrite Hf, !used_pages_cons, Hf. cbn [app free pages]. rewrite Z.add_0_l.
    replace (total bs1 + m + r) with (total bs1 + pages f) by (unfold r; lia). split; [symmetry; apply Permutation_middle|lia].
  + split_and!; [done|done|exact Ec2|done|done].
Qed.

Lemma alloc_exact : r = 0 -> placed s (bs1 ++ f :: u :: bs2) m s0 (total bs1) (bs1 ++ Block false false m :: u :: bs2).
Proof.
  intros Er. destruct gap_facts_hold as [(Hfp & Hup & Hr & Ht1 & Ht2 & Ht) (Hs1 & Hs3 & Hs2') (Hd1 & Hdf & Hdu & Hd2) (Hc1 & Hcf & Hcu & Hc2) Hl' Hfe].
  pose proof gap_info_s0 as Hi0. pose proof gap_key_s0 as Hk0. pose proof gap_other_slots as Hly. pose proof gap_count as Ec0.
  assert (x <> total bs1) as Hne by (unfold x; lia).
  assert (m = pages f) as Em by (unfold r in Er; lia).
  assert (is_Some (info_at s0 (total bs1))) as His by (rewrite Hi0, (proj2 (Z.eqb_neq (total bs1) x)) by lia; by eexists). cbn [app].
  constructor.
  + exact His.
  + apply described_app. split; [|split; [|split]].
    * eapply described_frame; [done| |exact Hd1]. intros y Hy. rewrite info_at_put by done. rewrite Hi0. unfold x in *. repeat case_ltb; done || lia.
    * rewrite Z.add_0_l, info_at_put, Z.eqb_refl, Hcf by done. done.
    * rewrite Z.add_0_l, info_at_put by done. cbn [pages]. rewrite Em. fold x. rewrite (proj2 (Z.eqb_neq _ _)), Hi0, Z.eqb_refl, Er by lia. done.
    * cbn [pages]. rewrite Z.add_0_l, Em. fold x. eapply described_frame; [done| |exact Hd2]. intros y Hy. rewrite info_at_put by done. rewrite Hi0. unfold x in *. repeat case_ltb; done || lia.
  + rewrite Ec0, total_app. cbn [total pages]. split_and!; [| |lia|change (free_end_ s0) with (free_end_ s); rewrite Hfe, Em; done].
    * apply Forall_app. split; [done|]. constructor; [cbn; lia|by constructor].
    * apply coalesced_app. split; [done|]. split; [done|]. split; [done|done].
  + change (free_blocks_ s0) with l. split_and!; [eapply sorted_ext; [|exact Hsort]; exact Hk0| |].
    * intros Hy. specialize (Hly _ Hy). unfold x in *. lia.
    * rewrite Hl', gaps_app. cbn [gaps pages]. rewrite Z.add_0_l, Hcf. change (after (Block false false m)) with 0. cbn [Z.ltb app]. by rewrite Em.
  + rewrite !objects_app, !used_pages_app. cbn [objects free pages]. rewrite Hf, !used_pages_cons, Hf. cbn [app free pages]. rewrite Z.add_0_l, Em. split; [symmetry; apply Permutation_middle|lia].
  + done.
Qed.

Lemma alloc_gap :
  exists s', (s0 ← update (with_free_blocks s l) x (SetPrevFreeBytes (pages f * kAlignment - m * kAlignment));
      i ← info_at s0 x;
      if 0 <? GetPrevFreeBytes i then
        s1 ← update s0 (x - GetPrevFree i) (SetPrevFreeBytes 0);
        s2 ← update s1 (x - GetPrevFree i) (SetByteSize (GetPrevFreeBytes i) true);
        insert_free_block s2 x
      else Some s0) = Some s' /\
    placed s (bs1 ++ f :: u :: bs2) m s' (total bs1) (bs1 ++ Block false false m :: (if 0 <? r then [Block true false r] else []) ++ u :: bs2).
Proof.
  destruct gap_facts_hold as [(_ & _ & Hr & _) _ (_ & _ & Hdu & _) _ _ _].
  rewrite (update_put (with_free_blocks s l) _ _ _ Hdu). replace (pages f * kAlignment - m * kAlignment) with (r * kAlignment) by (unfold r; lia).
  rewrite SetPrevFree_val by done. cbn [mbind option_bind alloc_size_]. fold s0.
  rewrite gap_info_s0, Z.eqb_refl. cbn [mbind option_bind]. unfold GetPrevFreeBytes, GetPrevFree. cbn [prev_free_].
  destruct (Z.ltb_spec 0 (r * kAlignment)) as [Hr0|Hr0]; change kAlignment with 4096 in Hr0.
  - rewrite (proj2 (Z.ltb_lt 0 r)) by lia. apply alloc_rest. lia.
  - rewrite (proj2 (Z.ltb_ge 0 r)) by lia. exists s0. split; [done|]. apply alloc_exact. lia.
Qed.
End alloc_gap.

Lemma RoundUp_pages W num : W = 32 \/ W = 64 -> 0 < num -> num + kAlignment <= 2 ^ W ->
  exists m, RoundUp W num kAlignment = m * kAlignment /\ 0 < m /\ num <= m * kAlignment < num + kAlignment.
Proof.
  intros HW Hn Ho. change kAlignment with (2 ^ 12) in *. exists ((num + 2 ^ 12 - 1) / 2 ^ 12). rewrite RoundUp_val by lia. split; [done|].
  change (2 ^ 12) with 4096. Z.div_mod_to_equations; lia.
Qed.

(** The slot of the free end, which a debug build does not compute in a full space. *)
Definition full (s : FreeListSpace) : bool := free_end_ s =? 0.

Lemma end_slot debug s bs : space_ok s bs -> GetSlotIndexForAddress debug s (end_ s - free_end_ s) = if debug && full s then None else Some (total bs).
Proof.
  intros H. destruct (ok_range _ _ H) as (Hr & _ & Ht). pose proof (ok_free_end _ _ H) as Ef. pose proof (total_nonneg _ (ok_sized _ _ H)). unfold full. rewrite Ef.
  replace (end_ s - _) with (begin_ s + total bs * kAlignment) by lia. change kAlignment with 4096 in *. destruct (Z.eqb_spec ((info_count s - total bs) * 4096) 0) as [E|E].
  - rewrite andb_true_r. destruct debug; [|by apply (slot_of_address false s bs); auto]. unfold GetSlotIndexForAddress, Contains. rewrite Hr. change kAlignment with 4096.
    by rewrite (proj2 (Z.ltb_ge _ _)), andb_false_r by lia.
  - rewrite andb_false_r. apply (slot_of_address debug s bs); [done|done|]. left. lia.
Qed.

Lemma begin_slot debug s bs : space_ok s bs -> debug && full s = false -> GetSlotIndexForAddress debug s (begin_ s) = Some 0.
Proof.
  intros H Hd. destruct (ok_range _ _ H) as (_ & _ & Ht). pose proof (total_nonneg _ (ok_sized _ _ H)). pose proof (ok_free_end _ _ H) as Ef.
  replace (begin_ s) with (begin_ s + 0 * kAlignment) at 1 by lia. apply (slot_of_address debug s bs); [done|done|]. destruct debug; [left|by right].
  cbn [andb] in Hd. apply Z.eqb_neq in Hd. change kAlignment with 4096 in *. lia.
Qed.

(** No free block is large enough when all elements of the set are below the key. *)
Lemma no_gap s bs m temp : space_ok s bs -> Forall (fun x => order (key s x) (m, 0, temp) = true) (free_blocks_ s) ->
  forall b, b ∈ bs -> free b = true -> pages b < m.
Proof.
  intros H H1 b Hb Hf. pose proof (sized_bound s _ _ H Hb) as Hpb. apply list_elem_of_split in Hb as (bs1 & bs2 & ->). destruct bs2 as [|u bs2].
  { pose proof (coalesced_tail _ _ (ok_coalesced _ _ H)) as E0. rewrite tail_prev_app in E0. cbn [tail_prev] in E0. unfold after in E0. rewrite Hf in E0. lia. }
  assert (total bs1 + pages b ∈ free_blocks_ s) as Hx.
  { rewrite (ok_gaps _ _ H), gaps_app. cbn [gaps]. rewrite Z.add_0_l. unfold after at 1. rewrite Hf. rewrite (proj2 (Z.ltb_lt 0 (pages b))) by lia.
    apply elem_of_app. right. apply elem_of_app. right. left. }
  rewrite Forall_forall in H1. specialize (H1 _ Hx). destruct (gap_info_at s bs1 b u bs2 H Hf) as (_ & Hk & Hu). rewrite Hk in H1. unfold order in H1.
  rewrite !orb_true_iff, !andb_true_iff, !orb_true_iff, !andb_true_iff, !Z.ltb_lt, !Z.eqb_eq in H1. lia.
Qed.

Lemma Alloc_spec debug W temp s bs num m :
  space_ok s bs -> RoundUp W num kAlignment = m * kAlignment -> 0 < m < 2 ^ 30 ->
  exists r s', Alloc debug W temp s num = Some (r, s') /\
    match r with
    | Some (obj, size) => size = m * kAlignment /\ exists slot bs', obj = begin_ s + slot * kAlignment /\ space_ok s' bs' /\
        objects 0 bs' ≡ₚ (slot, m) :: objects 0 bs /\ begin_ s' = begin_ s /\ info_count s' = info_count s
    | None => s' = s /\ (forall b, b ∈ bs -> free b = true -> pages b < m) /\ info_count s - total bs < m
    end.
Proof.
  intros H Em Hm. unfold Alloc. rewrite Em. set (temp_info := SetByteSize _ _ _).
  assert (key_of (temp_info, temp) = (m, 0, temp)) as Ek.
  { unfold temp_info. rewrite SetPrevFree_val by lia. change 0 with (0 * kAlignment) at 1. rewrite SetByteSize_encode by done.
    unfold key_of. cbn [fst snd GetPrevFree prev_free_]. by rewrite AlignSize_encode. }
  destruct (lower_bound_spec s (temp_info, temp) _ (ok_valid _ _ H) (ok_sorted _ _ H)) as (l1 & l2 & -> & El & H1 & H2). rewrite Ek in *. cbn [mbind option_bind].
  destruct l2 as [|x l2].
  - rewrite app_nil_r in El. destruct (Z.leb_spec (m * kAlignment) (free_end_ s)) as [Hle|Hlt].
    + rewrite (end_slot debug s bs H). unfold full. rewrite (proj2 (Z.eqb_neq (free_end_ s) 0)), andb_false_r by (change kAlignment with 4096 in *; lia).
      cbn [mbind option_bind]. pose proof (alloc_end s bs m H ltac:(lia) Hle) as P.
      destruct (alloc_finish _ _ _ _ _ _ (u64 (total_bytes_allocated_ s + m * kAlignment)) (u64 (total_objects_allocated_ s + 1)) H P Hm) as (s'' & E & Hok & Eb & Ec).
      change (num_bytes_allocated_ (with_free_end s _)) with (num_bytes_allocated_ s) in *. change (num_objects_allocated_ (with_free_end s _)) with (num_objects_allocated_ s) in *.
      destruct (update _ (total bs) (SetPrevFreeBytes 0)) as [s1|]; [|done]. cbn [mbind option_bind] in *. rewrite E. cbn [mbind option_bind].
      eexists (Some _), s''. split; [done|]. split; [done|]. eexists (total bs), _. split; [done|]. split; [exact Hok|]. split; [apply P|done].
    + cbn [mbind option_bind]. exists None, s. split; [done|]. split; [done|]. split.
      * rewrite <- El in H1. by apply (no_gap s bs m temp).
      * rewrite (ok_free_end _ _ H) in Hlt. change kAlignment with 4096 in Hlt. lia.
  - destruct (gap_info s bs x H) as (bs1 & f & u & bs2 & -> & Hf & -> & Hi & Hk); [rewrite El; apply elem_of_app; right; left|].
    change (info_at (with_free_blocks s (l1 ++ l2))) with (info_at s). rewrite Hi. cbn [mbind option_bind]. unfold GetPrevFreeInfo. cbn [prev_free_]. cbv zeta.
    change (GetPrevFreeBytes (Info (pages f) (encode u))) with (pages f * kAlignment). replace (total bs1 + pages f - pages f) with (total bs1) by lia.
    assert (0 < m <= pages f) as Hmf.
    { inversion H2 as [|? ? Ho _]; subst. rewrite Hk in Ho. unfold order in Ho. rewrite !orb_false_iff, !andb_false_iff, !orb_false_iff, !andb_false_iff, !Z.ltb_ge, !Z.eqb_neq in Ho. lia. }
    pose proof (ok_sorted _ _ H) as Hsort. rewrite El in Hsort. apply StronglySorted_app_inv in Hsort as (S1 & S2 & S12). inversion S2 as [|? ? S2' _]; subst.
    assert (StronglySorted (before s) (l1 ++ l2)) as Hsort.
    { apply StronglySorted_app; [done|done|]. rewrite Forall_forall in *. intros y Hy. specialize (S12 y Hy). by inversion S12. }
    destruct (alloc_gap s bs1 f u bs2 m (l1 ++ l2) H Hf Hmf Hsort) as (s' & E & P); [rewrite El; by rewrite Permutation_middle|].
    destruct (update _ (total bs1 + pages f) _) as [s0|]; [|done]. cbn [mbind option_bind] in *. destruct (info_at s0 (total bs1 + pages f)) as [i|]; [|done]. cbn [mbind option_bind] in *.
    cbv zeta in *. rewrite E. cbn [mbind option_bind].
    destruct (alloc_finish _ _ _ _ _ _ (u64 (total_bytes_allocated_ s' + m * kAlignment)) (u64 (total_objects_allocated_ s' + 1)) H P Hm) as (s'' & E' & Hok & Eb & Ec).
    destruct (update _ (total bs1) (SetPrevFreeBytes 0)) as [s1|]; [|done]. cbn [mbind option_bind] in *. rewrite E'. cbn [mbind option_bind].
    eexists (Some _), s''. split; [done|]. split; [done|]. eexists (total bs1), _. split; [|split; [exact Hok|split; [apply P|done]]].
    unfold GetAllocationAddressForSlot. cbn [begin_ with_counters]. by destruct (placed_same _ _ _ _ _ _ P) as (-> & _).
Qed.

(** ** Walking *)

Fixpoint block_infos (slot prev : Z) (bs : list block) : list (Z * AllocationInfo) :=
  match bs with
  | [] => []
  | b :: bs => (slot, Info prev (encode b)) :: block_infos (slot + pages b) (after b) bs
  end.

Lemma chunks_spec fuel s slot prev bs :
  described s slot prev bs -> Forall (fun b => 0 < pages b < 2 ^ 30) bs -> (length bs < fuel)%nat ->
  chunks fuel s slot (slot + total bs) = Some (block_infos slot prev bs, slot + total bs).
Proof.
  revert slot prev bs. induction fuel as [|fuel IH]; intros slot prev bs Hd Hs Hf; [lia|]. cbn [chunks]. destruct bs as [|b bs]; cbn [total block_infos].
  - rewrite Z.add_0_r, Z.ltb_irrefl. done.
  - inversion Hs as [|? ? Hb Hs']; subst. destruct Hd as [Hi Hd]. assert (0 <= total bs) by (apply total_nonneg; eapply Forall_impl; [exact Hs'|]; cbn; lia).
    rewrite (proj2 (Z.ltb_lt _ _)) by lia. rewrite Hi. cbn [mbind option_bind]. unfold GetNextInfo. rewrite AlignSize_encode by lia.
    replace (slot + (pages b + total bs)) with (slot + pages b + total bs) by lia. cbn [length] in Hf. rewrite (IH _ (after b)) by (done || lia). done.
Qed.

Lemma bounded_blocks s bs : space_ok s bs -> Forall (fun b => 0 < pages b < 2 ^ 30) bs.
Proof. intros H. apply Forall_forall. intros b Hb. by apply (sized_bound s bs). Qed.

Lemma block_count bs : sized bs -> Z.of_nat (length bs) <= total bs.
Proof. induction 1; cbn [length total]; lia. Qed.

Lemma chunks_all s bs : space_ok s bs -> chunks (S (length (allocation_info_ s))) s 0 (total bs) = Some (block_infos 0 0 bs, total bs).
Proof.
  intros H. destruct (ok_range _ _ H) as (_ & _ & Ht). pose proof (block_count _ (ok_sized _ _ H)). unfold info_count in Ht.
  pose proof (chunks_spec (S (length (allocation_info_ s))) s 0 0 bs) as E. rewrite Z.add_0_l in E. apply E; [apply H|by apply (bounded_blocks s)|lia].
Qed.

(** The object that begins at page [o]. *)
Definition address (s : FreeListSpace) (o : Z) : Z := begin_ s + o * kAlignment.

Lemma Walk_spec debug s bs : space_ok s bs -> debug && full s = false ->
  Walk debug s = Some (map (fun o => (address s o.1, address s o.1 + o.2 * kAlignment, o.2 * kAlignment)) (objects 0 bs)).
Proof.
  intros H Hd. unfold Walk. rewrite (end_slot debug s bs H), Hd. cbn [mbind option_bind]. rewrite (chunks_all s bs H). cbn [mbind option_bind]. rewrite Z.eqb_refl. f_equal.
  pose proof (bounded_blocks s bs H) as Hb. clear H. generalize 0 at 2. generalize 0. revert Hb. induction 1 as [|b bs Hb Hs IH]; intros slot prev; [done|].
  cbn [block_infos objects omap list_omap object_call]. rewrite IsFree_encode, ByteSize_encode by lia.
  destruct (free b); cbn [negb app map]; [apply IH|]. f_equal. apply IH.
Qed.

Lemma Dump_spec debug s bs : space_ok s bs -> debug && full s = false ->
  Dump debug s = Some (map (fun '(slot, info) => (IsFree info, address s slot, ByteSize info)) (block_infos 0 0 bs) ++
    (if negb (free_end_ s =? 0) then [(true, end_ s - free_end_ s, free_end_ s)] else [])).
Proof.
  intros H Hd. unfold Dump. rewrite (begin_slot debug s bs H Hd), (end_slot debug s bs H), Hd. cbn [mbind option_bind]. by rewrite (chunks_all s bs H).
Qed.

Lemma AllocationSize_spec debug s bs o n : space_ok s bs -> (o, n) ∈ objects 0 bs -> AllocationSize debug s (address s o) = Some (n * kAlignment).
Proof.
  intros H Hin. apply objects_inv in Hin as (bs1 & b & bs2 & -> & Hb & <- & ->). rewrite Z.add_0_l. unfold AllocationSize, address. pose proof (object_slot _ _ _ _ H) as Hslot.
  rewrite (slot_of_address debug _ _ _ H (proj1 Hslot) (or_introl (proj2 Hslot))). cbn [mbind option_bind].
  pose proof (ok_described _ _ H) as Hd. apply described_app in Hd as [_ [Hd _]]. rewrite Z.add_0_l in Hd. rewrite Hd. cbn [mbind option_bind].
  rewrite ByteSize_encode; [done|]. assert (0 < pages b < 2 ^ 30); [|lia]. apply (sized_bound s _ _ H), elem_of_app. right. left.
Qed.

(** ** Zygote objects *)

Definition zygoted (b : block) : block := if free b then b else Block false true (pages b).

Lemma zygoted_same b : free (zygoted b) = free b /\ pages (zygoted b) = pages b /\ after (zygoted b) = after b.
Proof. unfold zygoted, after. destruct (free b) eqn:E; rewrite ?E; done. Qed.

(** Blocks of the same sizes and kinds have the same layout. *)
Lemma zygoted_layout bs slot prev :
  total (map zygoted bs) = total bs /\ gaps slot prev (map zygoted bs) = gaps slot prev bs /\ objects slot (map zygoted bs) = objects slot bs /\
  used_pages (map zygoted bs) = used_pages bs /\ (coalesced prev (map zygoted bs) <-> coalesced prev bs) /\ (sized (map zygoted bs) <-> sized bs).
Proof.
  revert slot prev. induction bs as [|b bs IH]; intros slot prev; [done|]. cbn [map total gaps objects coalesced]. rewrite !used_pages_cons.
  destruct (zygoted_same b) as (-> & -> & ->). destruct (IH (slot + pages b) (after b)) as (-> & -> & -> & -> & IHc & IHs). rewrite !Forall_cons, IHc, IHs.
  destruct (zygoted_same b) as (_ & -> & _). done.
Qed.

(** The loop over the blocks [bs] from [slot] on. *)
Lemma set_zygote_spec fuel set_mark_bit s slot prev bs mark :
  described s slot prev bs -> Forall (fun b => 0 < pages b < 2 ^ 30) bs -> (length bs < fuel)%nat ->
  (forall o n, (o, n) ∈ objects slot bs -> set_mark_bit && mark (address s o) = false) ->
  exists infos mark', set_zygote fuel set_mark_bit s mark slot (slot + total bs) = Some (with_info s infos, mark') /\
    length infos = length (allocation_info_ s) /\ described (with_info s infos) slot prev (map zygoted bs) /\
    (forall x, x < slot \/ slot + total bs <= x -> info_at (with_info s infos) x = info_at s x) /\
    (forall x, key (with_info s infos) x = key s x) /\
    (forall a, mark' a = mark a || (set_mark_bit && bool_decide (a ∈ map (address s) (map fst (objects slot bs))))).
Proof.
  revert s slot prev bs mark. induction fuel as [|fuel IH]; intros s slot prev bs mark Hd Hs Hf Hm; [lia|]. cbn [set_zygote]. destruct bs as [|b bs]; cbn [total].
  { rewrite Z.add_0_r, Z.ltb_irrefl. exists (allocation_info_ s), mark. split_and!; try done; [by destruct s|]. intros a. cbn [objects map]. by rewrite andb_false_r, orb_false_r. }
  inversion Hs as [|? ? Hb Hs']; subst. destruct Hd as [Hi Hd]. cbn [length] in Hf. assert (sized bs) as Hsz by (eapply Forall_impl; [exact Hs'|]; cbn; lia). pose proof (total_nonneg bs Hsz).
  rewrite (proj2 (Z.ltb_lt _ _)) by lia. rewrite Hi. cbn [mbind option_bind]. rewrite IsFree_encode by lia.
  replace (slot + (pages b + total bs)) with (slot + pages b + total bs) by lia. cbn [objects map described] in *.
  destruct (zygoted_same b) as (_ & Ep & Ea). unfold zygoted at 1. destruct (free b) eqn:Ef; cbn [negb app] in *.
  - unfold GetNextInfo. rewrite AlignSize_encode by lia. destruct (IH s (slot + pages b) (after b) bs mark Hd Hs' ltac:(lia) Hm) as (infos & mark' & -> & Hlen & Hd' & Hout & Hkey & Hmark).
    exists infos, mark'. rewrite Ep, Ea. split_and!; try done; [rewrite Hout by lia; done|]. intros x Hx. apply Hout. lia.
  - rewrite (update_put _ _ _ _ Hi). cbn [mbind option_bind]. rewrite SetZygote_encode by lia. rewrite Ef. set (s1 := put s slot _).
    change (GetAllocationAddressForSlot s1 slot) with (address s slot). rewrite (Hm slot (pages b)) by left.
    unfold GetNextInfo. rewrite AlignSize_encode by (cbn [pages]; lia). cbn [pages]. set (mark1 := if set_mark_bit then _ else mark).
    assert (forall x, info_at s1 x = if x =? slot then Some (Info prev (encode (Block false true (pages b)))) else info_at s x) as Hi1 by (intros x; apply info_at_put; by eexists).
    destruct (IH s1 (slot + pages b) (after b) bs mark1) as (infos & mark' & -> & Hlen & Hd' & Hout & Hkey & Hmark); [|done|lia| |].
    { eapply described_put; [done|by eexists|lia|done]. }
    { intros o n Hin. change (address s1 o) with (address s o). specialize (Hm o n ltac:(by right)). unfold mark1. destruct set_mark_bit; [|done]. cbn [andb] in *.
      rewrite Hm, orb_false_r. apply Z.eqb_neq. pose proof (objects_inv _ _ _ _ Hin) as (l1 & b' & l2 & -> & _ & _ & ->). apply Forall_app in Hsz as [Hl1 _].
      pose proof (total_nonneg l1 Hl1). unfold address. change kAlignment with 4096. lia. }
    change (with_info s1 infos) with (with_info s infos) in *. exists infos, mark'. split_and!.
    + done.
    + by rewrite Hlen; unfold s1; rewrite length_put.
    + rewrite Hout, Hi1, Z.eqb_refl by lia. done.
    + by rewrite Ep, Ea.
    + intros x Hx. rewrite Hout by lia. rewrite Hi1. case_ltb; [lia|done].
    + intros x. rewrite Hkey. unfold key. rewrite Hi1. destruct (Z.eqb_spec x slot) as [->|]; [|done]. rewrite Hi. unfold key_of. cbn [fst snd GetPrevFree prev_free_].
      by rewrite !AlignSize_encode by (cbn [pages]; lia).
    + intros a. rewrite Hmark. change (address s1) with (address s). unfold mark1. cbn [map fst]. destruct set_mark_bit; cbn [andb]; [|by rewrite !orb_false_r].
      rewrite (orb_comm (_ =? _)), <- orb_assoc. f_equal. destruct (Z.eqb_spec a (address s slot)) as [->|Hne]; cbn [orb].
      * symmetry. apply bool_decide_eq_true. left.
      * apply bool_decide_ext. rewrite elem_of_cons. tauto.
Qed.

Lemma SetZygote_spec debug set_mark_bit s bs mark :
  space_ok s bs -> debug && full s = false -> (forall o n, (o, n) ∈ objects 0 bs -> set_mark_bit && mark (address s o) = false) ->
  exists s' mark', SetAllLargeObjectsAsZygoteObjects debug set_mark_bit s mark = Some (s', mark') /\ space_ok s' (map zygoted bs) /\ begin_ s' = begin_ s /\
    info_count s' = info_count s /\ forall a, mark' a = mark a || (set_mark_bit && bool_decide (a ∈ map (address s) (map fst (objects 0 bs)))).
Proof.
  intros H Hfull Hm. unfold SetAllLargeObjectsAsZygoteObjects. rewrite (begin_slot debug s bs H Hfull), (end_slot debug s bs H), Hfull. cbn [mbind option_bind].
  destruct (ok_range _ _ H) as (Hr & Hc & Ht). pose proof (block_count _ (ok_sized _ _ H)). unfold info_count in Ht.
  pose proof (set_zygote_spec (S (length (allocation_info_ s))) set_mark_bit s 0 0 bs mark (ok_described _ _ H) (bounded_blocks s bs H) ltac:(lia) Hm) as Hz.
  rewrite Z.add_0_l in Hz. destruct Hz as (infos & mark' & -> & Hlen & Hd & _ & Hkey & Hmark). assert (info_count (with_info s infos) = info_count s) as Ec by (unfold info_count; cbn; by rewrite Hlen).
  exists (with_info s infos), mark'. split; [done|]. split; [|split_and!; [done|done|exact Hmark]].
  destruct (zygoted_layout bs 0 0) as (Et & Eg & Eo & Eu & Eco & Es). constructor; rewrite ?Ec, ?Et, ?Eg, ?Eo, ?Eu, ?Eco, ?Es; try apply H; [done|].
  eapply sorted_ext; [|apply H]. intros x _. apply Hkey.
Qed.

Lemma IsZygote_spec debug s bs o n : space_ok s (map zygoted bs) -> (o, n) ∈ objects 0 (map zygoted bs) -> IsZygoteLargeObject debug s (address s o) = Some true.
Proof.
  intros H Hin. apply objects_inv in Hin as (bs1 & b & bs2 & E & Hb & <- & ->). rewrite E in H. rewrite Z.add_0_l. unfold IsZygoteLargeObject, address. pose proof (object_slot _ _ _ _ H) as Hslot.
  rewrite (slot_of_address debug _ _ _ H (proj1 Hslot) (or_introl (proj2 Hslot))). cbn [mbind option_bind].
  pose proof (ok_described _ _ H) as Hd. apply described_app in Hd as [_ [Hd _]]. rewrite Z.add_0_l in Hd. rewrite Hd. cbn [mbind option_bind].
  rewrite IsZygote_encode; [|assert (0 < pages b < 2 ^ 30); [|lia]; apply (sized_bound s _ _ H), elem_of_app; right; left]. f_equal.
  assert (b ∈ map zygoted bs) as Hin by (rewrite E; apply elem_of_app; right; left). apply list_elem_of_In, in_map_iff in Hin as (b' & <- & _).
  unfold zygoted in *. destruct (free b') eqn:Ef; [congruence|done].
Qed.

(** ** The contract of the space

    A client sees a map from the addresses of the live objects to their sizes. *)

(** The map of the objects at the pages of [l] from the address [b]. *)
Definition to_address (b : Z) (o : Z * Z) : Z * Z := (b + o.1 * kAlignment, o.2 * kAlignment).
Definition live_map (b : Z) (l : list (Z * Z)) : gmap Z Z := list_to_map (map (to_address b) l).

Inductive reachable (debug : bool) (W : Z) : FreeListSpace -> gmap Z Z -> Prop :=
  | reach_create mapped size s : 0 <= size < 2 ^ 42 -> Create mapped size = Some s -> reachable debug W s ∅
  | reach_alloc s live temp num obj size s' :
      reachable debug W s live -> 0 < num <= 2 ^ 41 -> num + kAlignment <= 2 ^ W -> Alloc debug W temp s num = Some (Some (obj, size), s') -> reachable debug W s' (<[obj := size]> live)
  | reach_null s live temp num s' :
      reachable debug W s live -> 0 < num <= 2 ^ 41 -> num + kAlignment <= 2 ^ W -> Alloc debug W temp s num = Some (None, s') -> reachable debug W s' live
  | reach_free s live obj size freed s' : reachable debug W s live -> live !! obj = Some size -> Free debug s obj = Some (freed, s') -> reachable debug W s' (delete obj live)
  | reach_zygote s live set_mark_bit mark s' mark' :
      reachable debug W s live -> (forall obj size, live !! obj = Some size -> set_mark_bit && mark obj = false) ->
      SetAllLargeObjectsAsZygoteObjects debug set_mark_bit s mark = Some (s', mark') -> reachable debug W s' live.

Lemma objects_range slot bs o n : sized bs -> (o, n) ∈ objects slot bs -> slot <= o /\ 0 < n /\ o + n <= slot + total bs.
Proof.
  intros Hs Hin. apply objects_inv in Hin as (bs1 & b & bs2 & -> & _ & <- & ->). rewrite total_app. cbn [total].
  apply Forall_app in Hs as [Hs1 Hs2]. inversion Hs2 as [|? ? Hb Hs3]; subst. pose proof (total_nonneg _ Hs1). pose proof (total_nonneg _ Hs3). lia.
Qed.

(** The objects are in the order of their addresses and do not overlap. *)
Lemma objects_sorted slot bs : sized bs -> StronglySorted (fun a b => a.1 + a.2 <= b.1) (objects slot bs).
Proof.
  intros Hs. revert slot. induction Hs as [|b bs Hb Hs IH]; intros slot; cbn [objects]; [constructor|]. destruct (free b); cbn [app]; [apply IH|].
  constructor; [apply IH|]. apply Forall_forall. intros [o n] Hin. apply objects_range in Hin; [|done]. cbn [fst snd]. lia.
Qed.

Lemma objects_NoDup b bs : sized bs -> NoDup (map fst (map (to_address b) (objects 0 bs))).
Proof.
  intros Hs. pose proof (objects_sorted 0 bs Hs) as Hso. assert (Forall (fun o => 0 < o.2) (objects 0 bs)) as Hp.
  { apply Forall_forall. intros [o n] Hin. apply objects_range in Hin; [cbn; lia|done]. }
  rewrite map_map. induction Hso as [|x l Hso IH Hx]; cbn [map fst to_address]; [constructor|]. inversion Hp as [|? ? Hpx Hpl]; subst. constructor; [|by apply IH].
  rewrite list_elem_of_In, in_map_iff. intros (y & E & Hy). apply list_elem_of_In in Hy. rewrite Forall_forall in Hx. specialize (Hx y Hy).
  change kAlignment with 4096 in E. lia.
Qed.

Lemma live_map_lookup b bs a n : sized bs -> live_map b (objects 0 bs) !! a = Some n <-> exists o m, (o, m) ∈ objects 0 bs /\ a = b + o * kAlignment /\ n = m * kAlignment.
Proof.
  intros Hs. unfold live_map. rewrite <- elem_of_list_to_map by (by apply objects_NoDup). rewrite list_elem_of_In, in_map_iff. split.
  - intros ([o m] & [= <- <-] & Hin). exists o, m. rewrite list_elem_of_In. done.
  - intros (o & m & Hin & -> & ->). exists (o, m). rewrite <- list_elem_of_In. done.
Qed.

Lemma live_insert b bs bs' o n : sized bs' -> objects 0 bs' ≡ₚ (o, n) :: objects 0 bs ->
  live_map b (objects 0 bs') = <[b + o * kAlignment := n * kAlignment]> (live_map b (objects 0 bs)) /\ live_map b (objects 0 bs) !! (b + o * kAlignment) = None.
Proof.
  intros Hs Hp. assert (map (to_address b) (objects 0 bs') ≡ₚ map (to_address b) ((o, n) :: objects 0 bs)) as Hp' by (by apply Permutation_map).
  pose proof (objects_NoDup b bs' Hs) as Hnd. split.
  - unfold live_map. rewrite (list_to_map_proper _ _ Hnd Hp'). done.
  - rewrite Hp' in Hnd. cbn [map] in Hnd. inversion Hnd as [|? ? Hnot _]; subst. by apply not_elem_of_list_to_map_1.
Qed.

Lemma FreeListSpace_Create_ok mapped size s : 0 <= size < 2 ^ 42 -> Create mapped size = Some s -> space_ok s [].
Proof.
  intros Hsz E. unfold Create in E. destruct (Z.eqb_spec (size mod kAlignment) 0) as [Em|]; [|done]. cbn [negb] in E. destruct (size =? 0); [done|]. simplify_eq.
  assert (0 <= size / kAlignment < 2 ^ 30 /\ size / kAlignment * kAlignment = size) as [Hq Hk] by (change kAlignment with 4096 in *; Z.div_mod_to_equations; lia).
  constructor; unfold info_count; cbn [begin_ end_ free_end_ allocation_info_ free_blocks_ total]; rewrite ?length_replicate, ?Z2Nat.id by lia; try done; try constructor; lia.
Qed.

(** The invariant: the client's map is the map of the objects of the blocks. *)
Lemma reachable_ok debug W s live : W = 32 \/ W = 64 -> reachable debug W s live -> exists bs, space_ok s bs /\ live = live_map (begin_ s) (objects 0 bs).
Proof.
  intros HW. induction 1 as [mapped size s Hsz E|s live temp num obj size s' _ (bs & H & ->) Hn Ho E|s live temp num s' _ (bs & H & ->) Hn Ho E|
    s live obj size freed s' _ (bs & H & ->) Hl E|s live smb mark s' mark' _ (bs & H & ->) Hm E].
  - exists []. split; [|done]. by eapply FreeListSpace_Create_ok.
  - destruct (RoundUp_pages W num HW ltac:(lia) Ho) as (m & Em & Hm & Hb). assert (m < 2 ^ 30) by (change kAlignment with 4096 in *; lia).
    destruct (Alloc_spec debug W temp s bs num m H Em ltac:(lia)) as (r & s1 & E1 & Hr). rewrite E in E1. simplify_eq.
    destruct Hr as (-> & slot & bs' & -> & H' & Hp & Eb & _). exists bs'. split; [done|]. rewrite Eb.
    by destruct (live_insert (begin_ s) bs bs' slot m (ok_sized _ _ H') Hp) as [-> _].
  - destruct (RoundUp_pages W num HW ltac:(lia) Ho) as (m & Em & Hm & Hb). assert (m < 2 ^ 30) by (change kAlignment with 4096 in *; lia).
    destruct (Alloc_spec debug W temp s bs num m H Em ltac:(lia)) as (r & s1 & E1 & Hr). rewrite E in E1. simplify_eq. destruct Hr as (-> & _). by exists bs.
  - apply live_map_lookup in Hl as (o & m & Hin & -> & ->); [|apply H]. destruct (Free_spec debug s bs o m H Hin) as (s1 & bs' & E1 & H' & Hp & Eb & _).
    rewrite E in E1. simplify_eq. exists bs'. split; [done|]. rewrite Eb.
    destruct (live_insert (begin_ s) bs' bs o m (ok_sized _ _ H) Hp) as [-> Hnone]. by apply delete_insert_id.
  - destruct (debug && full s) eqn:Hfull.
    { apply andb_true_iff in Hfull as [-> Hfull]. unfold SetAllLargeObjectsAsZygoteObjects in E. rewrite (end_slot true s bs H), Hfull in E. by destruct (GetSlotIndexForAddress true s (begin_ s)). }
    destruct (SetZygote_spec debug smb s bs mark H Hfull) as (s1 & mark1 & E1 & H' & Eb & _).
    { intros o n Hin. apply (Hm _ (n * kAlignment)). apply live_map_lookup; [apply H|]. by exists o, n. }
    rewrite E in E1. simplify_eq. exists (map zygoted bs). split; [done|]. rewrite Eb.
    by destruct (zygoted_layout bs 0 0) as (_ & _ & -> & _).
Qed.

(** A range of [m] pages meets an object when no free block and no free end has [m] pages. *)
Lemma no_room slot prev bs count m x :
  sized bs -> coalesced prev bs -> (forall b, b ∈ bs -> free b = true -> pages b < m) -> count - (slot + total bs) < m -> 0 < m ->
  slot <= x -> x + m <= count -> exists o n, (o, n) ∈ objects slot bs /\ o < x + m /\ x < o + n.
Proof.
  intros Hs. revert slot prev. induction Hs as [|b bs Hb Hs IH]; intros slot prev Hc Hf He Hm Hx Hxm; cbn [total coalesced objects] in *; [lia|].
  destruct (Z.le_gt_cases (slot + pages b) x) as [Hle|Hgt].
  { destruct (IH (slot + pages b) (after b)) as (o & n & Hin & Ho); [apply Hc|intros u Hu; apply Hf; by right|lia..|].
    exists o, n. split; [|done]. apply elem_of_app. by right. }
  destruct (free b) eqn:Eb; [|exists slot, (pages b); split; [left|lia]]. pose proof (Hf b ltac:(left) Eb) as Hbm. cbn [app].
  destruct Hc as [_ Hc]. unfold after in Hc. rewrite Eb in Hc. destruct bs as [|u bs]; cbn [coalesced objects] in *; [lia|].
  destruct (free u) eqn:Eu; [destruct Hc as [Hc _]; specialize (Hc eq_refl); lia|].
  inversion Hs; subst. exists (slot + pages b), (pages u). split; [left|lia].
Qed.

Definition sum_sizes : gmap Z Z -> Z := map_fold (fun _ n t => n + t) 0.

Lemma sum_list_to_map (l : list (Z * Z)) : NoDup (map fst l) ->
  Z.of_nat (size (list_to_map l : gmap Z Z)) = Z.of_nat (length l) /\ sum_sizes (list_to_map l) = foldr (fun o t => o.2 + t) 0 l.
Proof.
  intros Hnd. pose proof (map_to_list_to_map (M := gmap Z) l Hnd) as Hp. split.
  - by rewrite <- length_map_to_list, Hp.
  - unfold sum_sizes. rewrite map_fold_foldr. rewrite (foldr_sum_perm _ _ (Permutation_sym Hp)). clear.
    generalize (map_to_list (list_to_map l : gmap Z Z)). intros k. induction k as [|[a n] k IH]; [done|]. cbn [foldr snd uncurry]. by rewrite IH.
Qed.

Lemma counters_live s bs : space_ok s bs ->
  num_objects_allocated_ s = Z.of_nat (size (live_map (begin_ s) (objects 0 bs))) /\ num_bytes_allocated_ s = sum_sizes (live_map (begin_ s) (objects 0 bs)).
Proof.
  intros H. unfold live_map. destruct (sum_list_to_map _ (objects_NoDup (begin_ s) bs (ok_sized _ _ H))) as [-> ->]. rewrite length_map.
  destruct (ok_counters _ _ H) as [-> ->]. split; [done|]. rewrite (used_pages_objects 0). clear. induction (objects 0 bs) as [|o l IH]; cbn [map foldr to_address snd]; lia.
Qed.

(** An object of a well-formed space does not meet the others. *)
Lemma objects_disjoint bs x l : sized bs -> objects 0 bs ≡ₚ x :: l -> Forall (fun y => x.1 + x.2 <= y.1 \/ y.1 + y.2 <= x.1) l.
Proof.
  intros Hs Hp. pose proof (objects_sorted 0 bs Hs) as Hso. revert Hp. generalize (objects 0 bs) Hso. clear. intros k Hk. revert l.
  induction Hk as [|y k Hk IH Hy]; intros l Hp; [by apply Permutation_nil_cons in Hp|].
  destruct (decide (y = x)) as [->|Hne].
  - apply Permutation_cons_inv in Hp. rewrite <- Hp. eapply Forall_impl; [exact Hy|]. cbn. lia.
  - assert (y ∈ l) as Hyl. { assert (y ∈ x :: l) as Hin by (rewrite <- Hp; left). apply elem_of_cons in Hin as [|]; [congruence|done]. }
    apply list_elem_of_split in Hyl as (l1 & l2 & ->). rewrite app_comm_cons, <- Permutation_middle in Hp. apply Permutation_cons_inv in Hp.
    rewrite <- Permutation_middle. constructor; [|by apply IH]. rewrite Forall_forall in Hy. right. apply Hy. rewrite Hp. left.
Qed.

(** Two ranges of bytes. *)
Definition overlap (a n b m : Z) : Prop := a < b + m /\ b < a + n.

(** What the client is told of an allocation. *)
Definition alloc_result (s : FreeListSpace) (live : gmap Z Z) (num : Z) (r : option (Z * Z)) (s' : FreeListSpace) : Prop :=
  let bytes := (num + kPageSize - 1) / kPageSize * kPageSize in
  let inside obj := begin_ s <= obj /\ obj + bytes <= end_ s /\ (obj - begin_ s) mod kPageSize = 0 in
  match r with
  | Some (obj, n) => n = bytes /\ inside obj /\ forall o k, live !! o = Some k -> ~ overlap obj n o k
  | None => s' = s /\ forall obj, inside obj -> exists o k, live !! o = Some k /\ overlap obj bytes o k
  end.

Lemma Alloc_contract debug W temp s bs num : W = 32 \/ W = 64 -> space_ok s bs -> 0 < num <= 2 ^ 41 -> num + kAlignment <= 2 ^ W ->
  exists r s', Alloc debug W temp s num = Some (r, s') /\ alloc_result s (live_map (begin_ s) (objects 0 bs)) num r s'.
Proof.
  intros HW H Hn Ho. destruct (RoundUp_pages W num HW ltac:(lia) Ho) as (m & Em & Hm & Hb).
  assert (m < 2 ^ 30 /\ (num + kPageSize - 1) / kPageSize = m) as [Hm2 Eq].
  { change kAlignment with 4096 in *. change kPageSize with 4096. Z.div_mod_to_equations; lia. }
  destruct (Alloc_spec debug W temp s bs num m H Em ltac:(lia)) as (r & s' & E & Hr). exists r, s'. split; [done|]. unfold alloc_result. rewrite Eq. cbv zeta.
  change kPageSize with kAlignment. destruct (ok_range _ _ H) as (Er & _ & Ht). destruct r as [[obj n]|].
  - destruct Hr as (-> & slot & bs' & -> & H' & Hp & _ & Ec). split; [done|].
    assert ((slot, m) ∈ objects 0 bs') as Hin by (rewrite Hp; left). pose proof (objects_range _ _ _ _ (ok_sized _ _ H') Hin).
    destruct (ok_range _ _ H') as (_ & _ & Ht'). rewrite Ec in Ht'. split.
    { split_and!; [change kAlignment with 4096; lia|rewrite Er; change kAlignment with 4096; lia|]. rewrite Z.add_simpl_l. apply Z.mod_mul. done. }
    intros o k Hk. apply live_map_lookup in Hk as (o' & m' & Hin' & -> & ->); [|apply H].
    pose proof (objects_disjoint bs' (slot, m) (objects 0 bs) (ok_sized _ _ H') Hp) as Hd. rewrite Forall_forall in Hd. specialize (Hd _ Hin'). cbn [fst snd] in Hd.
    unfold overlap. change kAlignment with 4096. lia.
  - destruct Hr as (-> & Hf & He). split; [done|]. intros obj (H1 & H2 & H3).
    assert (obj = begin_ s + (obj - begin_ s) / kAlignment * kAlignment) as Eo by (change kAlignment with 4096 in *; Z.div_mod_to_equations; lia).
    revert Eo. generalize ((obj - begin_ s) / kAlignment). intros x Eo.
    destruct (no_room 0 0 bs (info_count s) m x (ok_sized _ _ H) (ok_coalesced _ _ H) Hf) as (o & n & Hin & Hov);
      [lia|lia|change kAlignment with 4096 in *; lia|change kAlignment with 4096 in *; lia|].
    exists (begin_ s + o * kAlignment), (n * kAlignment). split; [apply live_map_lookup; [apply H|by exists o, n]|].
    unfold overlap. change kAlignment with 4096 in *. lia.
Qed.

(** ** The interface of sweeping *)

#[export] Program Instance FreeListSpace_LargeObjectSpace (debug : bool) : LargeObjectSpace FreeListSpace := {|
  Begin := begin_;
  End_ := end_;
  FreeObject := Free debug;
  contents s live := exists bs, space_ok s bs /\ live = live_map (begin_ s) (objects 0 bs) |}.
Next Obligation.
  intros debug s live obj n (bs & H & ->) Hl. apply live_map_lookup in Hl as (o & m & Hin & -> & ->); [|apply H].
  apply objects_range in Hin; [|apply H]. destruct (ok_range _ _ H) as (-> & _ & Ht). change kAlignment with 4096. lia.
Qed.
Next Obligation.
  intros debug s live obj n (bs & H & ->) Hl. apply live_map_lookup in Hl as (o & m & Hin & -> & ->); [|apply H].
  destruct (Free_spec debug s bs o m H Hin) as (s' & bs' & E & H' & Hp & Eb & Ec). exists s'. split; [done|].
  destruct (ok_range _ _ H) as (Er & _ & _). destruct (ok_range _ _ H') as (Er' & _ & _). split; [|split; [done|rewrite Er, Er', Ec, Eb; done]].
  exists bs'. split; [done|]. rewrite Eb. destruct (live_insert (begin_ s) bs' bs o m (ok_sized _ _ H) Hp) as [-> Hnone]. by apply delete_insert_id.
Qed.

Lemma sum_insert m i x : m !! i = None -> sum_sizes (<[i := x]> m) = x + sum_sizes m.
Proof. intros Hm. unfold sum_sizes. rewrite map_fold_insert_L; [done|intros; lia|done]. Qed.

Lemma sum_delete m i x : m !! i = Some x -> sum_sizes m = x + sum_sizes (delete i m).
Proof. intros Hm. rewrite <- (sum_insert (delete i m) i x) by apply lookup_delete_eq. by rewrite insert_delete_id. Qed.

Record map_space_ok (s : LargeObjectMapSpace) (live : gmap Z Z) : Prop := {
  map_live : live = map_base_size <$> large_objects_ s;
  map_range : forall obj o, large_objects_ s !! obj = Some o -> exists begin, map_begin_ s = Some begin /\ begin <= obj < map_end_ s;
  map_counters : map_num_objects_allocated_ s = Z.of_nat (size live) /\ map_num_bytes_allocated_ s = sum_sizes live }.

#[export] Program Instance LargeObjectMapSpace_LargeObjectSpace : LargeObjectSpace LargeObjectMapSpace := {|
  Begin s := default 0 (map_begin_ s);
  End_ := map_end_;
  FreeObject := MapFree;
  contents := map_space_ok |}.
Next Obligation.
  intros s live obj n H Hl. rewrite (map_live _ _ H), lookup_fmap in Hl. destruct (large_objects_ s !! obj) as [o|] eqn:Eo; [|done].
  by destruct (map_range _ _ H _ _ Eo) as (begin & -> & ?).
Qed.
Next Obligation.
  intros s live obj n H Hl. pose proof Hl as Hl'. rewrite (map_live _ _ H), lookup_fmap in Hl. unfold MapFree. destruct (large_objects_ s !! obj) as [o|] eqn:Eo; [|done].
  cbn in Hl. simplify_eq. cbn [mbind option_bind]. eexists. split; [done|]. split; [|done]. destruct (map_counters _ _ H) as [E1 E2]. constructor; cbn.
  - by rewrite fmap_delete, (map_live _ _ H).
  - intros a b Hab. apply lookup_delete_Some in Hab as [_ Hab]. by apply (map_range _ _ H a b).
  - rewrite E1, E2, (sum_delete _ _ _ Hl'). split; [|lia]. rewrite map_size_delete_Some by done. assert (size live <> 0)%nat; [|lia]. by apply (map_size_ne_0_lookup_2 _ obj).
Qed.

Section sweep.
Context {S : Type} `{!LargeObjectSpace S}.

Definition with_size (live : gmap Z Z) (p : Z) : Z * Z := (p, default 0 (live !! p)).

Definition without (ptrs : list Z) (live : gmap Z Z) : gmap Z Z := filter (fun o => o.1 ∉ ptrs) live.

Lemma without_app l1 l2 live : without (l1 ++ l2) live = without l2 (without l1 live).
Proof. unfold without. rewrite map_filter_filter. apply map_filter_ext. intros i x _. cbn. rewrite not_elem_of_app. tauto. Qed.

Lemma without_one p live : without [p] live = delete p live.
Proof.
  apply map_eq. intros i. unfold without. destruct (decide (i = p)) as [->|Hne].
  - rewrite lookup_delete_eq. apply map_lookup_filter_None. right. intros x _ Hn. apply Hn. left.
  - rewrite lookup_delete_ne by done. destruct (live !! i) as [x|] eqn:E; [|apply map_lookup_filter_None; by left].
    apply map_lookup_filter_Some. split; [done|]. cbn. by rewrite list_elem_of_singleton.
Qed.

Lemma without_lookup l live p : p ∉ l -> without l live !! p = live !! p.
Proof.
  intros Hp. unfold without. destruct (live !! p) as [x|] eqn:E; [by apply map_lookup_filter_Some|]. apply map_lookup_filter_None. by left.
Qed.

Lemma FreeList_spec s live ptrs : contents s live -> NoDup ptrs -> (forall p, p ∈ ptrs -> is_Some (live !! p)) ->
  exists s', FreeList s ptrs = Some (foldr (fun o t => o.2 + t) 0 (map (with_size live) ptrs), s') /\ contents s' (without ptrs live) /\
    Begin s' = Begin s /\ End_ s' = End_ s.
Proof.
  intros Hc Hnd. revert s live Hc. induction Hnd as [|p ptrs Hp Hnd IH]; intros s live Hc Hin; cbn [FreeList].
  { exists s. split; [done|]. split; [|done]. unfold without. rewrite map_filter_id; [done|]. intros i x _. cbn. apply not_elem_of_nil. }
  destruct (Hin p ltac:(left)) as [n Hn]. destruct (FreeObject_contents s live p n Hc Hn) as (s1 & -> & Hc1 & Eb & Ee). cbn [mbind option_bind].
  assert (forall q, q ∈ ptrs -> delete p live !! q = live !! q) as Hq by (intros q Hq; apply lookup_delete_ne; congruence).
  destruct (IH s1 (delete p live) Hc1) as (s2 & -> & Hc2 & Eb2 & Ee2). { intros q Hq'. rewrite Hq by done. apply Hin. by right. }
  cbn [mbind option_bind]. exists s2. split; [|split; [|split; congruence]].
  - f_equal. f_equal. cbn [map foldr]. unfold with_size at 2. rewrite Hn. cbn [default snd from_option]. f_equal. f_equal.
    apply map_ext_in. intros q Hq'. unfold with_size. rewrite Hq; [done|]. by apply list_elem_of_In.
  - change (p :: ptrs) with ([p] ++ ptrs). by rewrite without_app, without_one.
Qed.

Context (W : Z) (HW : W = 32 \/ W = 64).
#[local] Set Default Proof Using "HW".

Abbreviation covered := (covered W kAlignment).
Abbreviation aligned := (aligned kAlignment).
Abbreviation Test := (SpaceBitmap.Test W kAlignment).
Abbreviation object := (object kAlignment).
Abbreviation bitmap_ok := (bitmap_ok W kAlignment).
Abbreviation changed := (changed W kAlignment).

Lemma clear_bits_spec bm ptrs : bitmap_ok bm -> (forall p, p ∈ ptrs -> covered bm p /\ aligned bm p) ->
  exists bm', clear_bits W bm ptrs = Some bm' /\ changed bm bm' (fun k => mbit W bm k && negb (bool_decide (object bm k ∈ ptrs))).
Proof.
  assert (0 < kAlignment) as HA by done. revert bm. induction ptrs as [|p ptrs IH]; intros bm Hb Hp; cbn [clear_bits].
  { exists bm. split; [done|]. constructor; [done|done|]. intros k _. rewrite bool_decide_eq_false_2 by apply not_elem_of_nil. by rewrite andb_true_r. }
  destruct (Hp p ltac:(left)) as [Hc Ha]. destruct (Modify_spec W kAlignment HW HA false bm p Hb Hc) as (bm1 & E & C1). unfold SpaceBitmap.Clear. rewrite E. cbn [mbind option_bind].
  destruct (changed_shape _ _ _ _ _ C1) as (S1 & S2 & S3 & S4). destruct (IH bm1 (changed_ok _ _ _ _ _ C1)) as (bm2 & -> & C2).
  { intros q Hq. unfold SpaceBitmap.covered, SpaceBitmap.aligned, bits. rewrite S1, S3. apply Hp. by right. }
  exists bm2. split; [done|]. destruct (changed_shape _ _ _ _ _ C2) as (T1 & T2 & T3 & T4). constructor; [apply C2|split_and!; congruence|].
  intros k Hk. rewrite (changed_bits _ _ _ _ _ C2) by (unfold bits; rewrite S1; apply Hk). rewrite (changed_bits _ _ _ _ _ C1) by done.
  replace (object bm1 k) with (object bm k) by (unfold SpaceBitmap.object; by rewrite S3).
  destruct (Z.eqb_spec k (position kAlignment bm p)) as [->|Hne].
  - rewrite (aligned_object W kAlignment HW HA bm p Ha), (bool_decide_eq_true_2 (p ∈ p :: ptrs)) by left. by rewrite andb_false_r.
  - f_equal. f_equal. apply bool_decide_ext. rewrite elem_of_cons. split; [by right|]. intros [E'|]; [|done].
    rewrite <- E', (position_object W kAlignment HW HA) in Hne. done.
Qed.

Lemma sweep_batches_spec swap s bm live fo fb batches :
  contents s live -> bitmap_ok bm -> NoDup (concat batches) ->
  (forall p, p ∈ concat batches -> is_Some (live !! p) /\ covered bm p /\ aligned bm p) ->
  exists s' bm', sweep_batches W swap (s, bm, fo, fb) batches =
      Some (s', bm', fo + Z.of_nat (length (concat batches)), fb + foldr (fun o t => o.2 + t) 0 (map (with_size live) (concat batches))) /\
    contents s' (without (concat batches) live) /\
    changed bm bm' (fun k => mbit W bm k && (swap || negb (bool_decide (object bm k ∈ concat batches)))).
Proof.
  assert (0 < kAlignment) as HA by done. revert s bm live fo fb. induction batches as [|ptrs batches IH]; intros s bm live fo fb Hc Hb Hnd Hp; cbn [sweep_batches concat].
  { exists s, bm. split; [cbn [length map foldr]; by rewrite !Z.add_0_r|]. split.
    - unfold without. rewrite map_filter_id; [done|]. intros i x _. cbn. apply not_elem_of_nil.
    - constructor; [done|done|]. intros k _. rewrite bool_decide_eq_false_2 by apply not_elem_of_nil. by rewrite orb_true_r, andb_true_r. }
  cbn [concat] in Hnd, Hp. apply NoDup_app in Hnd as (Hnd1 & Hdis & Hnd2).
  assert (exists bm1, (if negb swap then clear_bits W bm ptrs else Some bm) = Some bm1 /\
    changed bm bm1 (fun k => mbit W bm k && (swap || negb (bool_decide (object bm k ∈ ptrs))))) as (bm1 & E1 & C1).
  { destruct swap; cbn [negb orb].
    - exists bm. split; [done|]. constructor; [done|done|]. intros k _. by rewrite andb_true_r.
    - apply clear_bits_spec; [done|]. intros p Hin. apply Hp, elem_of_app. by left. }
  unfold SweepCallback. rewrite E1. cbn [mbind option_bind].
  destruct (FreeList_spec s live ptrs Hc Hnd1) as (s1 & -> & Hc1 & _). { intros p Hin. apply Hp, elem_of_app. by left. }
  cbn [mbind option_bind]. destruct (changed_shape _ _ _ _ _ C1) as (S1 & S2 & S3 & S4).
  assert (forall q, q ∈ concat batches -> without ptrs live !! q = live !! q) as Hq by (intros q Hq; apply without_lookup; intros ?; by apply (Hdis q)).
  destruct (IH s1 bm1 (without ptrs live) (fo + Z.of_nat (length ptrs)) (fb + foldr (fun o t => o.2 + t) 0 (map (with_size live) ptrs)) Hc1 (changed_ok _ _ _ _ _ C1) Hnd2) as (s2 & bm2 & E2 & Hc2 & C2).
  { intros q Hin. rewrite Hq by done. unfold SpaceBitmap.covered, SpaceBitmap.aligned, bits. rewrite S1, S3. apply Hp, elem_of_app. by right. }
  exists s2, bm2. rewrite without_app. split; [|split; [done|]].
  - rewrite E2. rewrite length_app, map_app, foldr_app. f_equal. f_equal; [f_equal; lia|]. rewrite <- Z.add_assoc. f_equal.
    rewrite (map_ext_in (with_size (without ptrs live)) (with_size live)).
    + generalize (foldr (fun o t => o.2 + t) 0 (map (with_size live) (concat batches))). intros z. clear. induction ptrs as [|p l IH]; cbn [map foldr]; lia.
    + intros q Hin. unfold with_size. by rewrite Hq by (by apply list_elem_of_In).
  - destruct (changed_shape _ _ _ _ _ C2) as (T1 & T2 & T3 & T4). constructor; [apply C2|split_and!; congruence|].
    intros k Hk. rewrite (changed_bits _ _ _ _ _ C2) by (unfold bits; rewrite S1; apply Hk). rewrite (changed_bits _ _ _ _ _ C1) by done.
    replace (object bm1 k) with (object bm k) by (unfold SpaceBitmap.object; by rewrite S3). rewrite (bool_decide_ext (object bm k ∈ ptrs ++ concat batches) _ (elem_of_app _ _ _)).
    rewrite bool_decide_or. destruct (mbit W bm k), swap, (bool_decide (object bm k ∈ ptrs)), (bool_decide (object bm k ∈ concat batches)); done.
Qed.

(** The space and the bitmaps Sweep reads: every live bit is the one of an object of the space. *)
Record swept (space : S) (live : gmap Z Z) (L M : SpaceBitmap) : Prop := {
  swept_live : bitmap_ok L;
  swept_mark : bitmap_ok M;
  swept_shape : length (bitmap_begin_ M) = length (bitmap_begin_ L) /\ heap_begin_ M = heap_begin_ L /\ bitmap_size_ M = bitmap_size_ L /\
    bitmap_size_ L = Z.of_nat (length (bitmap_begin_ L)) * sizeof_intptr W;
  swept_range : heap_begin_ L <= Begin space /\ End_ space <= heap_begin_ L + bits W L * kAlignment;
  swept_aligned : forall a, is_Some (live !! a) -> aligned L a;
  swept_recorded : forall a, covered L a -> aligned L a -> Test L a = Some true -> is_Some (live !! a) }.

Definition dead (L M : SpaceBitmap) (a : Z) : Prop := Test L a = Some true /\ Test M a = Some false.
#[export] Instance dead_dec L M a : Decision (dead L M a).
Proof using Type. unfold dead. apply _. Defined.

Lemma elem_of_garbage L M k n a : bitmap_ok L -> bitmap_ok M -> length (bitmap_begin_ M) = length (bitmap_begin_ L) -> heap_begin_ M = heap_begin_ L ->
  0 <= k -> k + n <= bits W L ->
  (a ∈ garbage W kAlignment L M k n) <-> aligned L a /\ object L k <= a < object L (k + n) /\ dead L M a.
Proof.
  assert (0 < kAlignment) as HA by done. intros Hl Hm HL HB Hk Hle. unfold garbage. rewrite list_elem_of_In, in_map_iff.
  assert (forall j, k <= j < k + n -> dead L M (object L j) <-> mbit W L j && negb (mbit W M j) = true) as Hd.
  { intros j Hj. unfold dead. rewrite (Test_object W kAlignment HW HA L) by (done || lia). replace (object L j) with (object M j) by (unfold SpaceBitmap.object; congruence).
    rewrite (Test_object W kAlignment HW HA M) by (done || unfold bits in *; rewrite ?HL; lia). destruct (mbit W L j), (mbit W M j); cbn; intuition congruence. }
  split.
  - intros (j & <- & Hin). apply list_elem_of_In, list_elem_of_filter in Hin as [Hb Hin]. apply elem_of_seqZ in Hin. rewrite Hd by lia.
    split; [apply (object_aligned W kAlignment HW HA)|]. split; [|done]. unfold SpaceBitmap.object. change kAlignment with 4096. lia.
  - intros (Ha & Hr & Hdead). pose proof (aligned_object W kAlignment HW HA L a Ha) as Eo. exists (position kAlignment L a). split; [done|].
    rewrite <- Eo in Hr, Hdead. assert (k <= position kAlignment L a < k + n) as Hp by (unfold SpaceBitmap.object in Hr; change kAlignment with 4096 in *; lia).
    apply list_elem_of_In, list_elem_of_filter. split; [by apply Hd|]. apply elem_of_seqZ. lia.
Qed.

Lemma garbage_NoDup L M k n : NoDup (garbage W kAlignment L M k n).
Proof using Type.
  unfold garbage. apply NoDup_fmap_2; [|apply NoDup_filter, NoDup_seqZ]. intros i j E. unfold SpaceBitmap.object in E. change kAlignment with 4096 in E. lia.
Qed.

(** The batches are the dead objects of the space. *)
Lemma sweep_garbage memory_tool space live L M : contents space live -> swept space live L M -> Begin space < End_ space ->
  exists batches, SweepWalk W kAlignment memory_tool L M (Begin space) (End_ space) = Some batches /\ NoDup (concat batches) /\
    forall a, (a ∈ concat batches) <-> is_Some (live !! a) /\ dead L M a.
Proof.
  assert (0 < kAlignment) as HA by done. intros Hc Hs Hbe. destruct (swept_shape _ _ _ _ Hs) as (HL & HB & HS & HS'). destruct (swept_range _ _ _ _ Hs) as [H1 H2].
  destruct (SweepWalk_spec W kAlignment memory_tool L M (Begin space) (End_ space) HW HA (swept_live _ _ _ _ Hs) (swept_mark _ _ _ _ Hs) HL HB HS' HS)
    as (calls & k & n & E & Hk & Hn & Hkn & Hf & Hla & Hcc & _); [lia|done|]. cbv zeta in Hf, Hla.
  exists calls. split; [done|]. rewrite Hcc. split; [apply garbage_NoDup|]. intros a.
  rewrite elem_of_garbage by (apply Hs || done). split.
  - intros (Ha & Hr & Hd). split; [|done]. apply (swept_recorded _ _ _ _ Hs); [|done|apply Hd]. unfold SpaceBitmap.covered, SpaceBitmap.object in *. change kAlignment with 4096 in *. lia.
  - intros [[x Hx] Hd]. split; [apply Hs; eauto|]. split; [|done]. pose proof (contents_range _ _ _ _ Hc Hx). lia.
Qed.

(** Freed and kept objects. *)
Lemma freed_live (P : Z -> Prop) `{!forall a, Decision (P a)} (live : gmap Z Z) (g : list Z) :
  NoDup g -> (forall a, (a ∈ g) <-> is_Some (live !! a) /\ P a) ->
  without g live = filter (fun o => ~ P o.1) live /\ Z.of_nat (length g) = Z.of_nat (size (filter (fun o => P o.1) live)) /\
  foldr (fun o t => o.2 + t) 0 (map (with_size live) g) = sum_sizes (filter (fun o => P o.1) live).
Proof using Type.
  clear HW. intros Hnd Hg. assert (filter (fun o => P o.1) live = list_to_map (map (with_size live) g)) as ->.
  { assert (NoDup (map fst (map (with_size live) g))) as Hnd' by (rewrite map_map, map_id; done).
    apply map_eq. intros a. apply option_eq. intros x. rewrite map_lookup_filter_Some, <- elem_of_list_to_map by done. rewrite list_elem_of_In, in_map_iff. cbn. split.
    - intros [Hx Hp]. exists a. unfold with_size. rewrite Hx. split; [done|]. apply list_elem_of_In, Hg. eauto.
    - intros (b & [= -> <-] & Hin). apply list_elem_of_In, Hg in Hin as [[y Hy] Hp]. by rewrite Hy. }
  split_and!.
  - unfold without. apply map_filter_ext. intros a x Hx. cbn. rewrite Hg. split; [intros Hn Hp; apply Hn; eauto|tauto].
  - destruct (sum_list_to_map (map (with_size live) g)) as [-> _]; [by rewrite map_map, map_id|]. by rewrite length_map.
  - destruct (sum_list_to_map (map (with_size live) g)) as [_ ->]; [by rewrite map_map, map_id|]. done.
Qed.

(** The bits of the dead objects, also seen from the middle of a page. *)
Lemma dead_object (live : gmap Z Z) L M a : heap_begin_ M = heap_begin_ L -> (forall p, covered L p -> aligned L p -> Test L p = Some true -> is_Some (live !! p)) ->
  bitmap_ok L -> bitmap_ok M -> length (bitmap_begin_ M) = length (bitmap_begin_ L) -> covered L a ->
  dead L M a <-> is_Some (live !! object L (position kAlignment L a)) /\ dead L M (object L (position kAlignment L a)).
Proof.
  assert (0 < kAlignment) as HA by done. intros HB Hrec Hl Hm HL Hc. pose proof (position_range W kAlignment HW HA L a Hc) as Hp.
  assert (covered M a) as HcM by (unfold SpaceBitmap.covered, bits in *; rewrite HL, HB; done).
  assert (dead L M a <-> dead L M (object L (position kAlignment L a))) as Hd.
  { unfold dead. rewrite (Test_covered W kAlignment HW HA L a), (Test_covered W kAlignment HW HA M a), (Test_object W kAlignment HW HA L) by done.
    replace (object L (position kAlignment L a)) with (object M (position kAlignment L a)) by (unfold SpaceBitmap.object; congruence).
    rewrite (Test_object W kAlignment HW HA M) by (done || unfold bits in *; rewrite HL; done). unfold position. rewrite HB. done. }
  rewrite Hd. split; [|tauto]. intros Hdead. split; [|done]. apply Hrec; [by apply (object_covered W kAlignment HW HA)|by apply (object_aligned W kAlignment HW HA)|apply Hdead].
Qed.

Lemma Sweep_spec (memory_tool swap : bool) (space : S) (live : gmap Z Z) (bm mark : SpaceBitmap) :
  contents space live -> swept space live (if swap then mark else bm) (if swap then bm else mark) ->
  exists g space' bm', Sweep W memory_tool swap space bm mark =
      Some (space', bm', Z.of_nat (length g), foldr (fun o t => o.2 + t) 0 (map (with_size live) g)) /\
    contents space' (without g live) /\ NoDup g /\
    (forall a, (a ∈ g) <-> is_Some (live !! a) /\ dead (if swap then mark else bm) (if swap then bm else mark) a) /\
    changed bm bm' (fun k => mbit W bm k && (swap || negb (bool_decide (object bm k ∈ g)))).
Proof.
  intros Hc Hs. assert (bitmap_ok bm) as Hbm by (destruct swap; apply Hs). unfold Sweep. destruct (Z.leb_spec (End_ space) (Begin space)) as [Hle|Hlt].
  - exists [], space, bm. split; [done|]. assert (forall a, live !! a = None) as Hno.
    { intros a. destruct (live !! a) as [x|] eqn:E; [|done]. pose proof (contents_range _ _ _ _ Hc E). lia. }
    split_and!; [by apply map_empty in Hno as ->|constructor| |].
    + intros a. rewrite Hno, elem_of_nil. split; [done|]. by intros [[? ?] _].
    + constructor; [done|done|]. intros k _. rewrite bool_decide_eq_false_2 by apply not_elem_of_nil. by rewrite orb_true_r, andb_true_r.
  - destruct (sweep_garbage memory_tool space live _ _ Hc Hs Hlt) as (batches & E & Hnd & Hg).
    replace (if swap then (mark, bm) else (bm, mark)) with (if swap then mark else bm, if swap then bm else mark) by (by destruct swap). rewrite E. cbn [mbind option_bind].
    destruct (sweep_batches_spec swap space bm live 0 0 batches Hc Hbm Hnd) as (s' & bm' & E' & Hc' & C); [|by exists (concat batches), s', bm'].
    intros p Hp. apply Hg in Hp as [Hp Hd]. split; [done|]. pose proof (swept_aligned _ _ _ _ Hs p Hp) as Ha. destruct Hp as [x Hx].
    pose proof (contents_range _ _ _ _ Hc Hx). destruct (swept_range _ _ _ _ Hs) as [H1 H2]. destruct (swept_shape _ _ _ _ Hs) as (HL & HB & _).
    destruct swap; unfold SpaceBitmap.covered, SpaceBitmap.aligned, bits in *; rewrite ?HL, ?HB; split; (done || lia).
Qed.
End sweep.

(** Chunks (free or not, address, bytes) that follow each other from [a] to [e], never two free ones
    in a row. *)
Fixpoint tiling (after_free : bool) (a e : Z) (chunks : list (bool * Z * Z)) : Prop :=
  match chunks with
  | [] => a = e
  | (is_free, begin, bytes) :: chunks => begin = a /\ 0 < bytes /\ is_free && after_free = false /\ tiling is_free (a + bytes) e chunks
  end.

Lemma block_tiling s slot prev bs e rest : sized bs -> Forall (fun b => 0 < pages b < 2 ^ 30) bs -> coalesced prev bs -> 0 <= prev ->
  tiling false (address s (slot + total bs)) e rest ->
  tiling (0 <? prev) (address s slot) e (map (fun '(slot, info) => (IsFree info, address s slot, ByteSize info)) (block_infos slot prev bs) ++ rest).
Proof.
  intros Hs Hb. revert slot prev. induction bs as [|b bs IH]; intros slot prev Hc Hp Hr; cbn [block_infos map app tiling total coalesced] in *.
  { subst prev. by rewrite Z.add_0_r in Hr. }
  inversion Hs; inversion Hb; subst. rewrite IsFree_encode, ByteSize_encode by lia. destruct Hc as [Hf Hc]. split_and!; [done|change kAlignment with 4096; lia| |].
  - destruct (free b); [|done]. cbn [andb]. apply Z.ltb_ge. rewrite Hf by done. done.
  - replace (address s slot + pages b * kAlignment) with (address s (slot + pages b)) by (unfold address; lia).
    assert (0 <= after b) as Ha by (unfold after; destruct (free b); lia). specialize (IH ltac:(done) ltac:(done) (slot + pages b) (after b) Hc Ha).
    replace (slot + pages b + total bs) with (slot + (pages b + total bs)) in IH by lia. specialize (IH Hr).
    assert ((0 <? after b) = free b) as Eb by (unfold after; destruct (free b); [apply Z.ltb_lt; lia|done]). by rewrite <- Eb at 1.
Qed.

Lemma block_objects s slot prev bs obj n : Forall (fun b => 0 < pages b < 2 ^ 30) bs ->
  (false, obj, n) ∈ map (fun '(slot, info) => (IsFree info, address s slot, ByteSize info)) (block_infos slot prev bs) <->
  exists o m, (o, m) ∈ objects slot bs /\ obj = begin_ s + o * kAlignment /\ n = m * kAlignment.
Proof.
  intros Hb. revert slot prev. induction Hb as [|b bs Hb Hs IH]; intros slot prev; cbn [block_infos map objects].
  { rewrite elem_of_nil. split; [done|]. intros (o & m & Hin & _). by apply elem_of_nil in Hin. }
  rewrite elem_of_cons, IH, IsFree_encode, ByteSize_encode by lia. destruct (free b); cbn [app].
  - split; [by intros [|]|by right].
  - split.
    + intros [[= -> ->]|(o & m & Hin & E)]; [exists slot, (pages b); split; [left|done]|]. exists o, m. split; [by right|done].
    + intros (o & m & Hin & -> & ->). apply elem_of_cons in Hin as [[= -> ->]|Hin]; [by left|]. right. by exists o, m.
Qed.

Lemma Dump_tiling debug s bs : space_ok s bs -> debug && full s = false -> exists chunks, Dump debug s = Some chunks /\ tiling false (begin_ s) (end_ s) chunks /\
  (forall obj n, (false, obj, n) ∈ chunks <-> live_map (begin_ s) (objects 0 bs) !! obj = Some n).
Proof.
  intros H Hd. rewrite (Dump_spec debug s bs H Hd). eexists. split; [done|]. destruct (ok_range _ _ H) as (Er & _ & Ht). pose proof (ok_free_end _ _ H) as Ef. split.
  - replace (begin_ s) with (address s 0) by (unfold address; lia).
    apply (block_tiling s 0 0 bs); [apply H|by apply (bounded_blocks s)|apply H|done|]. rewrite Z.add_0_l.
    destruct (Z.eqb_spec (free_end_ s) 0) as [E0|Hne]; cbn [negb tiling]; unfold address; change kAlignment with 4096 in *; [lia|]. split_and!; done || lia.
  - intros obj n. rewrite live_map_lookup by apply H. rewrite elem_of_app. split.
    + intros [Hin|Hin]; [|destruct (negb _); [|by apply elem_of_nil in Hin]; apply list_elem_of_singleton in Hin; congruence].
      apply block_objects in Hin; [|by apply (bounded_blocks s)]. destruct Hin as (o & m & Hin & -> & ->). by exists o, m.
    + intros (o & m & Hin & -> & ->). left. apply block_objects; [by apply (bounded_blocks s)|]. by exists o, m.
Qed.

Lemma MapAlloc_spec W s live obj num :
  W = 32 \/ W = 64 -> map_space_ok s live -> live !! obj = None -> 0 < num -> num + kPageSize <= 2 ^ W ->
  exists n s', MapAlloc W (Some obj) s num = (Some (obj, n), s') /\ num <= n < num + kPageSize /\ n mod kPageSize = 0 /\ map_space_ok s' (<[obj := n]> live) /\
    large_objects_ s' = <[obj := Object num n false]> (large_objects_ s).
Proof.
  intros HW H Hno Hn Ho. destruct (RoundUp_pages W num HW Hn Ho) as (m & Em & Hm & Hb). change kPageSize with kAlignment in *.
  unfold MapAlloc. rewrite (proj2 (Z.eqb_neq num 0)) by lia. change kPageSize with kAlignment. rewrite Em. cbv zeta. eexists _, _. split; [done|].
  assert (large_objects_ s !! obj = None) as Hno'.
  { rewrite (map_live _ _ H), lookup_fmap in Hno. by destruct (large_objects_ s !! obj). }
  split_and!; [lia|lia|by apply Z.mod_mul| |done]. destruct (map_counters _ _ H) as [E1 E2]. constructor; cbn.
  - by rewrite fmap_insert, (map_live _ _ H).
  - intros a o Ha. apply lookup_insert_Some in Ha as [[<- <-]|[Hne Ha]].
    + eexists. split; [done|]. change kAlignment with 4096 in *. destruct (map_begin_ s) as [b|]; [|lia]. case_ltb; lia.
    + destruct (map_range _ _ H _ _ Ha) as (b & -> & Hab). eexists. split; [done|]. case_ltb; lia.
  - rewrite map_size_insert_None, sum_insert, E1, E2 by done. lia.
Qed.

Lemma MapAlloc_round W s live obj num :
  W = 32 \/ W = 64 -> map_space_ok s live -> live !! obj = None -> 0 < num -> num + kPageSize <= 2 ^ W ->
  exists n s' s'', MapAlloc W (Some obj) s num = (Some (obj, n), s') /\ num <= n < num + kPageSize /\ n mod kPageSize = 0 /\ map_space_ok s' (<[obj := n]> live) /\
    large_objects_ s' !! obj = Some (Object num n false) /\ MapFree s' obj = Some (n, s'') /\ map_space_ok s'' live /\
    s'' = MapSpace (map_begin_ s') (map_end_ s') (large_objects_ s) (map_num_bytes_allocated_ s) (map_num_objects_allocated_ s) (map_total_bytes_allocated_ s') (map_total_objects_allocated_ s').
Proof.
  intros HW H Hno Hn Ho. destruct (MapAlloc_spec W s live obj num HW H Hno Hn Ho) as (n & s' & E & Hb & Hm & H' & El).
  destruct (@FreeObject_contents _ LargeObjectMapSpace_LargeObjectSpace s' (<[obj := n]> live) obj n H' (lookup_insert_eq _ _ _)) as (s'' & Ef & H'' & _). cbn in Ef, H''. rewrite delete_insert_id in H'' by done.
  exists n, s', s''. split_and!; try done; try apply Hb; [by rewrite El, lookup_insert_eq|]. destruct (map_counters _ _ H) as [C1 C2], (map_counters _ _ H'') as [C1' C2'].
  unfold MapFree in Ef. rewrite El, lookup_insert_eq in Ef. cbn in Ef. simplify_eq. cbn in C1', C2'. rewrite C1', C2', C1, C2. f_equal.
  apply delete_insert_id. rewrite (map_live _ _ H), lookup_fmap in Hno. by destruct (large_objects_ s !! obj).
Qed.

Lemma MapWalk_elem s obj o : large_objects_ s !! obj = Some o -> (obj, obj + map_size o, map_size o) ∈ MapWalk s.
Proof.
  intros Ho. unfold MapWalk. apply list_elem_of_In, in_map_iff. exists (obj, o). split; [done|]. apply list_elem_of_In.
  rewrite merge_sort_Permutation. by apply elem_of_map_to_list.
Qed.

Lemma MapSetZygote_spec set_mark_bit s mark : (forall obj, is_Some (large_objects_ s !! obj) -> set_mark_bit && mark obj = false) ->
  exists s' mark', MapSetAllLargeObjectsAsZygoteObjects set_mark_bit s mark = Some (s', mark') /\
    (forall obj, is_Some (large_objects_ s !! obj) -> MapIsZygoteLargeObject s' obj = Some true) /\
    forall a, mark' a = mark a || (set_mark_bit && bool_decide (is_Some (large_objects_ s !! a))).
Proof.
  intros Hm. unfold MapSetAllLargeObjectsAsZygoteObjects.
  assert (set_mark_bit && existsb (fun o => mark o.1) (map_to_list (large_objects_ s)) = false) as ->.
  { destruct set_mark_bit; [|done]. cbn [andb] in *. apply not_true_is_false. rewrite existsb_exists. intros ([a o] & Hin & Ha). apply list_elem_of_In, elem_of_map_to_list in Hin.
    rewrite Hm in Ha; [done|]. eauto. }
  eexists _, _. split; [done|]. split.
  - intros obj [o Ho]. unfold MapIsZygoteLargeObject. cbn. by rewrite lookup_fmap, Ho.
  - intros a. destruct set_mark_bit; cbn; [apply orb_comm|]. by rewrite orb_false_r.
Qed.

(** ** Properties *)



Lemma full_None s bs : space_ok s bs -> full s = true ->
  Walk true s = None /\ Dump true s = None /\ forall set_mark_bit mark, SetAllLargeObjectsAsZygoteObjects true set_mark_bit s mark = None.
Proof.
  intros H Hf. unfold Walk, Dump, SetAllLargeObjectsAsZygoteObjects. rewrite (end_slot true s bs H), Hf. by destruct (GetSlotIndexForAddress true s (begin_ s)).
Qed.

(** C21: Walking a reachable space calls the callback for exactly the live objects, in the order of
    their addresses; Dump lists chunks that fill the space from its begin to its end without two
    free chunks in a row, and the live objects are its chunks in use.  SetAllLargeObjectsAsZygoteObjects makes every
    live object a zygote object and sets its mark bit when asked to, and no other mark bit.  In a debug build this holds only
    as long as the space is not full: all three ask for the slot of the address behind the last object, and when there is no free end
    that is the end of the space, for which the DCHECK of GetSlotIndexForAddress fails. *)
Theorem FreeListSpace_walk (kIsDebugBuild : bool) (W : Z) (s : FreeListSpace) (live : gmap Z Z) :
  W = 32 \/ W = 64 -> reachable kIsDebugBuild W s live ->
  if kIsDebugBuild && (free_end_ s =? 0) then
    Walk kIsDebugBuild s = None /\ Dump kIsDebugBuild s = None /\ forall set_mark_bit mark, SetAllLargeObjectsAsZygoteObjects kIsDebugBuild set_mark_bit s mark = None
  else
    (exists l, Walk kIsDebugBuild s = Some (map (fun o => (o.1, o.1 + o.2, o.2)) l) /\ live = list_to_map l /\ StronglySorted (fun a b => a.1 + a.2 <= b.1) l) /\
    (exists chunks, Dump kIsDebugBuild s = Some chunks /\ tiling false (begin_ s) (end_ s) chunks /\ forall obj n, (false, obj, n) ∈ chunks <-> live !! obj = Some n) /\
    (forall set_mark_bit mark, (forall obj, is_Some (live !! obj) -> set_mark_bit && mark obj = false) ->
       exists s' mark', SetAllLargeObjectsAsZygoteObjects kIsDebugBuild set_mark_bit s mark = Some (s', mark') /\
         (forall obj, is_Some (live !! obj) -> IsZygoteLargeObject kIsDebugBuild s' obj = Some true) /\
         forall a, mark' a = mark a || (set_mark_bit && bool_decide (is_Some (live !! a)))).
Proof.
  intros HW Hr. destruct (reachable_ok kIsDebugBuild W s live HW Hr) as (bs & H & ->). clear Hr. destruct (kIsDebugBuild && (free_end_ s =? 0)) eqn:Hd.
  { apply andb_true_iff in Hd as [-> Hf]. by apply (full_None s bs). }
  split_and!.
  - exists (map (to_address (begin_ s)) (objects 0 bs)). rewrite (Walk_spec kIsDebugBuild s bs H Hd), map_map. split_and!; [done|done|].
    induction (objects_sorted 0 bs (ok_sized _ _ H)) as [|x l Hs IH Hx]; cbn [map]; [constructor|]. constructor; [done|].
    apply Forall_map. eapply Forall_impl; [exact Hx|]. intros y Hy. cbn [compose to_address fst snd] in *. change kAlignment with 4096. lia.
  - by apply Dump_tiling.
  - intros smb mark Hm. destruct (SetZygote_spec kIsDebugBuild smb s bs mark H Hd) as (s' & mark' & E & H' & Eb & _ & Hmark).
    { intros o n Hin. apply Hm. exists (n * kAlignment). apply live_map_lookup; [apply H|]. by exists o, n. }
    exists s', mark'. split; [done|]. destruct (zygoted_layout bs 0 0) as (_ & _ & Eo & _). split.
    + intros obj [n Hl]. apply live_map_lookup in Hl as (o & m & Hin & -> & ->); [|apply H]. rewrite <- Eb. apply (IsZygote_spec kIsDebugBuild s' bs o m H'). by rewrite Eo.
    + intros a. rewrite Hmark. f_equal. f_equal. apply bool_decide_ext. rewrite list_elem_of_In, in_map_iff. split.
      * intros (o & <- & Hin). apply in_map_iff in Hin as ([o' n] & <- & Hin). exists (n * kAlignment). apply live_map_lookup; [apply H|]. exists o', n. by rewrite list_elem_of_In.
      * intros [n Hl]. apply live_map_lookup in Hl as (o & m & Hin & -> & ->); [|apply H]. exists o. split; [done|]. apply in_map_iff. exists (o, m). by rewrite <- list_elem_of_In.
Qed.

(** A space with a free end, and a full one in a debug build. *)
Lemma FreeListSpace_walk_witness :
  (exists s, reachable true 64 s {[ 0x10000 := 0x2000 ]} /\
    (exists l, Walk true s = Some (map (fun o => (o.1, o.1 + o.2, o.2)) l) /\ {[ 0x10000 := 0x2000 ]} = (list_to_map l : gmap Z Z) /\ StronglySorted (fun a b => a.1 + a.2 <= b.1) l) /\
    exists s' mark', SetAllLargeObjectsAsZygoteObjects true true s (fun _ => false) = Some (s', mark') /\ mark' 0x10000 = true) /\
  exists s, reachable true 64 s {[ 0x10000 := 0x2000 ]} /\ Walk true s = None.
Proof.
  assert (forall n s0 s, Create 0x10000 n = Some s0 -> 0 <= n < 2 ^ 42 -> Alloc true 64 0 s0 0x1001 = Some (Some (0x10000, 0x2000), s) -> reachable true 64 s {[ 0x10000 := 0x2000 ]}) as Hs.
  { intros n s0 s E0 Hn E. apply (reach_alloc true 64 s0 ∅ 0 0x1001 0x10000 0x2000 s); [by apply (reach_create true 64 0x10000 n)|done|done|done]. }
  split.
  - destruct (Create 0x10000 0x4000) as [s0|] eqn:E0; [|done]. destruct (Alloc true 64 0 s0 0x1001) as [[[[obj n]|] s]|] eqn:E; [|by vm_compute in E0; simplify_eq; vm_compute in E..].
    assert (obj = 0x10000 /\ n = 0x2000 /\ (free_end_ s =? 0) = false) as (-> & -> & Ef) by (vm_compute in E0; simplify_eq; vm_compute in E; by simplify_eq).
    pose proof (Hs _ _ _ E0 ltac:(done) E) as Hr. pose proof (FreeListSpace_walk true 64 s _ ltac:(by right) Hr) as H. rewrite Ef in H. destruct H as (Hw & _ & Hz).
    exists s. split; [done|]. split; [done|]. destruct (Hz true (fun _ => false)) as (s' & mark' & E' & _ & Hm); [done|]. exists s', mark'. split; [done|]. by rewrite Hm.
  - destruct (Create 0x10000 0x2000) as [s0|] eqn:E0; [|done]. destruct (Alloc true 64 0 s0 0x1001) as [[[[obj n]|] s]|] eqn:E; [|by vm_compute in E0; simplify_eq; vm_compute in E..].
    assert (obj = 0x10000 /\ n = 0x2000 /\ (free_end_ s =? 0) = true) as (-> & -> & Ef) by (vm_compute in E0; simplify_eq; vm_compute in E; by simplify_eq).
    pose proof (Hs _ _ _ E0 ltac:(done) E) as Hr. pose proof (FreeListSpace_walk true 64 s _ ltac:(by right) Hr) as H. rewrite Ef in H. destruct H as [Hw _]. by exists s.
Defined.

(** C36: An object of a mapping of its own: an allocation at a fresh address has the size rounded up to
    whole pages, is contained in the space with that size and walked over with the size asked for, and freeing it gives back that size, the
    objects and the numbers of objects and bytes of before, while begin_, end_ and the totals stay as the allocation left them.  With redzones the object starts a page after its
    mapping, and Contains, AllocationSize, IsZygoteLargeObject and Free find it again; Walk, which is not overridden, still reports the whole mapping with its redzones, at an address that the
    space does not contain.  When the mapping fails, the space does not change, and
    the caller of the space with redzones gets the address of the second page, not null. *)
Theorem LargeObjectMapSpace_alloc (W : Z) (s : LargeObjectMapSpace) (live : gmap Z Z) (obj num : Z) :
  W = 32 \/ W = 64 -> contents s live -> live !! obj = None -> 0 < num -> num + 3 * kPageSize <= 2 ^ W -> 0 < obj -> obj + kPageSize < 2 ^ W ->
  (exists n s' s'', MapAlloc W (Some obj) s num = (Some (obj, n), s') /\ num <= n < num + kPageSize /\ n mod kPageSize = 0 /\ contents s' (<[obj := n]> live) /\
     MapContains s' obj = true /\ MapAllocationSize s' obj = Some n /\ MapIsZygoteLargeObject s' obj = Some false /\
     (obj, obj + num, num) ∈ MapWalk s' /\ MapFree s' obj = Some (n, s'') /\ contents s'' live /\
     s'' = MapSpace (map_begin_ s') (map_end_ s') (large_objects_ s) (map_num_bytes_allocated_ s) (map_num_objects_allocated_ s) (map_total_bytes_allocated_ s') (map_total_objects_allocated_ s')) /\
  (exists n s' s'', MemoryToolAlloc W (Some obj) s num = (obj + kPageSize, Some n, num, s') /\ num + 2 * kPageSize <= n /\
     MemoryToolContains W s' (obj + kPageSize) = true /\ MemoryToolAllocationSize W s' (obj + kPageSize) = Some n /\
     MemoryToolIsZygoteLargeObject W s' (obj + kPageSize) = Some false /\
     MemoryToolFree W s' (obj + kPageSize) = Some (n, s'') /\ contents s'' live /\
     (obj, obj + (num + 2 * kPageSize), num + 2 * kPageSize) ∈ MapWalk s' /\ (live !! uN W (obj - kPageSize) = None -> MemoryToolContains W s' obj = false)) /\
  MapAlloc W None s num = (None, s) /\ MemoryToolAlloc W None s num = (kPageSize, None, num, s) /\
  (forall set_mark_bit mark, (forall a, is_Some (live !! a) -> set_mark_bit && mark a = false) ->
     exists s' mark', MapSetAllLargeObjectsAsZygoteObjects set_mark_bit s mark = Some (s', mark') /\
       (forall a, is_Some (live !! a) -> MapIsZygoteLargeObject s' a = Some true) /\
       forall a, mark' a = mark a || (set_mark_bit && bool_decide (is_Some (live !! a)))).
Proof.
  intros HW H Hno Hn Ho Hp Hw. change kPageSize with 4096 in Ho, Hw. cbn [contents LargeObjectMapSpace_LargeObjectSpace] in *.
  destruct (MapAlloc_round W s live obj num HW H Hno Hn ltac:(change kPageSize with 4096; lia)) as (n & s' & s'' & E & Hb & Hm & H' & Ec & Ef & H'' & El).
  destruct (MapAlloc_round W s live obj (num + 2 * kPageSize) HW H Hno ltac:(change kPageSize with 4096; lia) ltac:(change kPageSize with 4096; lia)) as (k & t' & t'' & F & Gb & _ & Ft & Fc & Ff & G'' & _).
  assert (uN W (num + kMemoryToolRedZoneBytes * 2) = num + 2 * kPageSize) as Eu by (change kMemoryToolRedZoneBytes with 4096; change kPageSize with 4096; apply uN_small; unfold is_u; lia).
  assert (ObjectWithRedzone W (obj + kPageSize) = obj) as Er.
  { unfold ObjectWithRedzone. change kMemoryToolRedZoneBytes with 4096. change kPageSize with 4096. rewrite uN_small; [lia|]. unfold is_u. lia. }
  split_and!.
  - exists n, s', s''. unfold MapContains, MapAllocationSize, MapIsZygoteLargeObject. rewrite Ec. split_and!; try done; try apply Hb. by apply (MapWalk_elem s' obj _ Ec).
  - assert (live !! uN W (obj - kPageSize) = None -> MemoryToolContains W t' obj = false) as Hmc.
    { intros Hl. unfold MemoryToolContains, MapContains. change (ObjectWithRedzone W obj) with (uN W (obj - kPageSize)). apply bool_decide_eq_false_2. rewrite <- (fmap_is_Some map_base_size), <- lookup_fmap, <- (map_live _ _ Ft).
      rewrite lookup_insert_ne, Hl; [by intros []|]. intros E'. unfold uN in E'. change kPageSize with 4096 in E'. destruct HW as [-> | ->]; Z.div_mod_to_equations; lia. }
    pose proof (MapWalk_elem t' obj _ Fc) as Hwalk. exists k, t', t''. unfold MemoryToolFree, MemoryToolContains, MemoryToolAllocationSize, MemoryToolIsZygoteLargeObject, MemoryToolAlloc. rewrite Eu, F, Er.
    unfold MapContains, MapAllocationSize, MapIsZygoteLargeObject. rewrite Fc. cbn [fmap option_fmap option_map mbind option_bind].
    split_and!; try done; [|lia]. change kMemoryToolRedZoneBytes with kPageSize. rewrite uN_small; [done|]. unfold is_u. change kPageSize with 4096. lia.
  - unfold MapAlloc. by destruct (num =? 0).
  - unfold MemoryToolAlloc. rewrite Eu. unfold MapAlloc. rewrite (proj2 (Z.eqb_neq _ 0)) by (change kPageSize with 4096; lia). cbn [fmap option_fmap option_map].
    change kMemoryToolRedZoneBytes with kPageSize. by rewrite Z.add_0_l, uN_small by (unfold is_u; change kPageSize with 4096; lia).
  - intros smb mark Hmark. assert (forall a, is_Some (live !! a) <-> is_Some (large_objects_ s !! a)) as Hl.
    { intros a. rewrite (map_live _ _ H), lookup_fmap. apply fmap_is_Some. }
    destruct (MapSetZygote_spec smb s mark) as (z & mark' & E' & Hz & Hmk); [intros a Ha; by apply Hmark, Hl|].
    exists z, mark'. split; [done|]. split; [intros a Ha; by apply Hz, Hl|]. intros a. rewrite Hmk. f_equal. f_equal. apply bool_decide_ext. by rewrite Hl.
Qed.

Lemma LargeObjectMapSpace_alloc_witness :
  contents MapCreate ∅ /\ exists n s' s'', MapAlloc 64 (Some 0x70000000) MapCreate 5000 = (Some (0x70000000, n), s') /\ MapFree s' 0x70000000 = Some (n, s'') /\
    contents s'' ∅ /\ MemoryToolAlloc 64 None MapCreate 5000 = (4096, None, 5000, MapCreate).
Proof.
  assert (contents MapCreate ∅) as Hc by (constructor; done). split; [done|].
  destruct (LargeObjectMapSpace_alloc 64 MapCreate ∅ 0x70000000 5000 ltac:(by right) Hc eq_refl) as ((n & s' & s'' & H) & _ & _ & Hnull & _); [done..|].
  exists n, s', s''. split; [apply H|]. split_and!; [apply H..|exact Hnull].
Defined.

(** C15: Sweeping a large object space frees exactly its objects that are live and not marked in the
    bitmaps, and returns their number and their bytes; the space then contains the others.  Without
    swapped bitmaps the live bits of the freed objects are cleared and no other; with
    swapped bitmaps the live bitmap does not change.  This holds of every space that frees a
    live object as the interface says, so of FreeListSpace and of LargeObjectMapSpace. *)
Theorem LargeObjectSpace_sweep {S : Type} `{!LargeObjectSpace S} (W : Z) (memory_tool swap_bitmaps : bool) (space : S) (live : gmap Z Z) (live_bitmap mark_bitmap : SpaceBitmap) :
  W = 32 \/ W = 64 -> contents space live ->
  let L := if swap_bitmaps then mark_bitmap else live_bitmap in
  let M := if swap_bitmaps then live_bitmap else mark_bitmap in
  swept W space live L M ->
  let freed := filter (fun o => dead W L M o.1) live in
  exists space' live_bitmap', Sweep W memory_tool swap_bitmaps space live_bitmap mark_bitmap =
      Some (space', live_bitmap', Z.of_nat (size freed), sum_sizes freed) /\
    contents space' (filter (fun o => ~ dead W L M o.1) live) /\
    forall a, covered W kAlignment live_bitmap a -> SpaceBitmap.Test W kAlignment live_bitmap' a =
      if swap_bitmaps then SpaceBitmap.Test W kAlignment live_bitmap a
      else if decide (dead W L M a) then Some false else SpaceBitmap.Test W kAlignment live_bitmap a.
Proof.
  intros HW Hc L M Hs freed. assert (0 < kAlignment) as HA by done.
  destruct (Sweep_spec W HW memory_tool swap_bitmaps space live live_bitmap mark_bitmap Hc Hs) as (g & space' & bm' & E & Hc' & Hnd & Hg & C). fold L M in Hg.
  destruct (freed_live (dead W L M) live g Hnd Hg) as (E1 & E2 & E3). exists space', bm'. rewrite E, E2, E3. rewrite E1 in Hc'. split_and!; [done|done|].
  intros a Ha. rewrite (changed_Test W kAlignment HW HA _ _ _ a C Ha), (Test_covered W kAlignment HW HA live_bitmap a) by (done || destruct swap_bitmaps; apply Hs).
  destruct swap_bitmaps; cbn [orb]; [by rewrite andb_true_r|]. destruct (swept_shape _ _ _ _ _ Hs) as (HL & HB & _).
  pose proof (dead_object W HW live L M a HB (swept_recorded _ _ _ _ _ Hs) (swept_live _ _ _ _ _ Hs) (swept_mark _ _ _ _ _ Hs) HL Ha) as Hd.
  rewrite <- Hg in Hd. destruct (decide (dead W L M a)) as [Hy|Hn]; [rewrite bool_decide_eq_true_2 by tauto|rewrite bool_decide_eq_false_2 by tauto].
  - by rewrite andb_false_r.
  - by rewrite andb_true_r.
Qed.

#[local] Instance FreeListSpace_debug : LargeObjectSpace FreeListSpace := FreeListSpace_LargeObjectSpace true.

Lemma LargeObjectSpace_sweep_witness :
  let live := {[ 0x10000 := 0x2000; 0x12000 := 0x1000 ]} : gmap Z Z in
  let L := Bitmap [5] 8 0x10000 0x18000 in let M := Bitmap [1] 8 0x10000 0x18000 in
  exists space : FreeListSpace, contents space live /\ swept 64 space live L M /\
    exists space' live_bitmap', Sweep 64 false false space L M = Some (space', live_bitmap', 1, 0x1000) /\
      contents space' {[ 0x10000 := 0x2000 ]} /\ SpaceBitmap.Test 64 kAlignment live_bitmap' 0x12000 = Some false.
Proof.
  intros live L M. assert (exists space, contents space live /\ begin_ space = 0x10000 /\ end_ space = 0x18000) as (space & Hc & Eb & Ee).
  { eexists. split; [apply (reachable_ok true 64); [by right|]|].
    - change live with (<[0x10000 := 0x2000]> (<[0x12000 := 0x1000]> (∅ : gmap Z Z))). rewrite insert_insert_ne by done.
      eapply (reach_alloc true 64 _ _ 0 0x1000); [|done|done|].
      + eapply (reach_alloc true 64 _ ∅ 0 0x1001); [apply (reach_create true 64 0x10000 0x8000); done|done|done|vm_compute; reflexivity].
      + vm_compute; reflexivity.
    - by vm_compute. }
  assert (swept 64 space live L M) as Hs.
  { constructor; [constructor; [repeat constructor; done|done|done]..|done| | |].
    - cbn [Begin End_ FreeListSpace_debug FreeListSpace_LargeObjectSpace]. rewrite Eb, Ee. by vm_compute.
    - intros a [x Hx]. apply lookup_insert_Some in Hx as [[<- _]|[_ Hx]]; [done|]. by apply lookup_singleton_Some in Hx as [<- _].
    - intros a Hcov Ha Ht. assert (exists k, 0 <= k < 64 /\ a = 0x10000 + k * 4096) as (k & Hk & ->).
      { exists ((a - 0x10000) / 4096). unfold covered, aligned in *. change (heap_begin_ L) with 0x10000 in *. change (bits 64 L) with 64 in *. change kAlignment with 4096 in *. Z.div_mod_to_equations; lia. }
      assert (forallb (fun k => negb (bool_decide (SpaceBitmap.Test 64 kAlignment L (0x10000 + k * 4096) = Some true)) ||
        bool_decide (is_Some (live !! (0x10000 + k * 4096)))) (seqZ 0 64) = true) as Hall by (vm_compute; reflexivity).
      rewrite forallb_forall in Hall. specialize (Hall k). rewrite <- list_elem_of_In, elem_of_seqZ in Hall. specialize (Hall ltac:(lia)).
      rewrite bool_decide_eq_true_2 in Hall by done. by apply bool_decide_eq_true in Hall. }
  destruct (LargeObjectSpace_sweep 64 false false space live L M ltac:(by right) Hc Hs) as (space' & bm' & E & Hc' & Ht).
  exists space. split; [done|]. split; [done|]. exists space', bm'. split; [|split].
  - rewrite E. by vm_compute.
  - by replace {[ 0x10000 := 0x2000 ]} with (filter (fun o => ~ dead 64 L M o.1) live) by (by vm_compute).
  - rewrite Ht; [by vm_compute|by vm_compute].
Defined.
