(* ===== verification/LockWord.v ===== *)
(** Lock words: runtime/lock_word.h and runtime/lock_word-inl.h.

    A lock word is a 32-bit number.  Whether the collector keeps state in the words of objects
    (gUseReadBarrier || gUseUserfaultfd) is the argument [gc_state_used].  A monitor is its id. *)
From S2P Require Import Prelude BitUtils.

Definition kStateSize : Z := 2.
Definition kReadBarrierStateSize : Z := 1.
Definition kMarkBitStateSize : Z := 1.
Definition kThinLockOwnerSize : Z := 16.
Definition kThinLockCountSize : Z := 32 - kThinLockOwnerSize - kStateSize - kReadBarrierStateSize - kMarkBitStateSize.
Definition kThinLockOwnerShift : Z := 0.
Definition kThinLockOwnerMask : Z := (1 ≪ kThinLockOwnerSize) - 1.
Definition kThinLockMaxOwner : Z := kThinLockOwnerMask.
Definition kThinLockCountShift : Z := kThinLockOwnerSize + kThinLockOwnerShift.
Definition kThinLockCountMask : Z := (1 ≪ kThinLockCountSize) - 1.
Definition kThinLockMaxCount : Z := kThinLockCountMask.
Definition kStateShift : Z := kReadBarrierStateSize + kThinLockCountSize + kThinLockCountShift + kMarkBitStateSize.
Definition kStateMask : Z := (1 ≪ kStateSize) - 1.
Definition kStateThinOrUnlocked : Z := 0.
Definition kStateFat : Z := 1.
Definition kStateHash : Z := 2.
Definition kStateForwardingAddress : Z := 3.
Definition kStateForwardingAddressShifted : Z := u32 (kStateForwardingAddress ≪ kStateShift).
Definition kReadBarrierStateShift : Z := kThinLockCountSize + kThinLockCountShift.
Definition kReadBarrierStateMask : Z := (1 ≪ kReadBarrierStateSize) - 1.
Definition kReadBarrierStateMaskShifted : Z := kReadBarrierStateMask ≪ kReadBarrierStateShift.
Definition kMarkBitStateShift : Z := kReadBarrierStateSize + kReadBarrierStateShift.
Definition kMarkBitStateMask : Z := (1 ≪ kMarkBitStateSize) - 1.
Definition kMarkBitStateMaskShifted : Z := kMarkBitStateMask ≪ kMarkBitStateShift.
Definition kMarkBitStateMaskShiftedToggled : Z := u32 (.~ kMarkBitStateMaskShifted).
Definition kGCStateShift : Z := kReadBarrierStateShift.
Definition kGCStateMaskShifted : Z := kReadBarrierStateMaskShifted .| kMarkBitStateMaskShifted.
Definition kGCStateMaskShiftedToggled : Z := u32 (.~ kGCStateMaskShifted).
Definition kHashShift : Z := 0.
Definition kHashSize : Z := 32 - kStateSize - kReadBarrierStateSize - kMarkBitStateSize.
Definition kHashMask : Z := (1 ≪ kHashSize) - 1.
Definition kMaxHash : Z := kHashMask.
Definition kForwardingAddressShift : Z := 3.
Definition kMonitorIdShift : Z := kHashShift.
Definition kMonitorIdMask : Z := kHashMask.
Definition kMaxMonitorId : Z := kMaxHash.

(** A failed CHECK gives no result. *)
Definition FromThinLockId (thread_id count gc_state : Z) : option Z :=
  if negb (thread_id <=? kThinLockMaxOwner) then None
  else if negb (count <=? kThinLockMaxCount) then None
  else Some (u32 (thread_id ≪ kThinLockOwnerShift) .| u32 (count ≪ kThinLockCountShift) .| u32 (gc_state ≪ kGCStateShift) .|
             u32 (kStateThinOrUnlocked ≪ kStateShift)).

Definition FromForwardingAddress (target : Z) : Z := u32 ((target ≫ kForwardingAddressShift) .| kStateForwardingAddressShifted).

Definition FromHashCode (hash_code gc_state : Z) : option Z :=
  if negb (hash_code <=? kMaxHash) then None
  else Some (u32 (hash_code ≪ kHashShift) .| u32 (gc_state ≪ kGCStateShift) .| u32 (kStateHash ≪ kStateShift)).

Definition FromDefault (gc_state : Z) : Z := u32 (gc_state ≪ kGCStateShift).
Definition Default : Z := 0.
Definition IsDefault (lw : Z) : bool := Default =? lw.

(** The constructor LockWord(Monitor*, gc_state). *)
Definition FromMonitor (monitor_id gc_state : Z) : Z :=
  monitor_id .| u32 (gc_state ≪ kGCStateShift) .| u32 (kStateFat ≪ kStateShift).

Inductive LockState := kUnlocked | kThinLocked | kFatLocked | kHashCode | kForwardingAddress.

#[export] Instance LockState_dec : EqDecision LockState.
Proof. solve_decision. Defined.

Definition GetState (gc_state_used : bool) (value_ : Z) : LockState :=
  if (if gc_state_used then value_ .& kGCStateMaskShiftedToggled =? 0 else value_ =? 0) then kUnlocked
  else
    let internal_state := (value_ ≫ kStateShift) .& kStateMask in
    if internal_state =? kStateThinOrUnlocked then kThinLocked
    else if internal_state =? kStateHash then kHashCode
    else if internal_state =? kStateForwardingAddress then kForwardingAddress
    else kFatLocked.

Definition ReadBarrierState (value_ : Z) : Z := (value_ ≫ kReadBarrierStateShift) .& kReadBarrierStateMask.
Definition GCState (value_ : Z) : Z := (value_ .& kGCStateMaskShifted) ≫ kGCStateShift.

Definition SetReadBarrierState (rb_state value_ : Z) : Z :=
  let value_ := value_ .& u32 (.~ (kReadBarrierStateMask ≪ kReadBarrierStateShift)) in
  value_ .| ((rb_state .& kReadBarrierStateMask) ≪ kReadBarrierStateShift).

Definition MarkBitState (value_ : Z) : Z := (value_ ≫ kMarkBitStateShift) .& kMarkBitStateMask.

Definition SetMarkBitState (mark_bit value_ : Z) : Z :=
  let value_ := value_ .& kMarkBitStateMaskShiftedToggled in
  value_ .| u32 (mark_bit ≪ kMarkBitStateShift).

Definition ThinLockOwner (value_ : Z) : Z := (value_ ≫ kThinLockOwnerShift) .& kThinLockOwnerMask.
Definition ThinLockCount (value_ : Z) : Z := (value_ ≫ kThinLockCountShift) .& kThinLockCountMask.
Definition FatLockMonitor (value_ : Z) : Z := (value_ ≫ kMonitorIdShift) .& kMonitorIdMask.
Definition ForwardingAddress (value_ : Z) : Z := u32 (value_ ≪ kForwardingAddressShift).
Definition GetHashCode (value_ : Z) : Z := (value_ ≫ kHashShift) .& kHashMask.
Definition GetValueWithoutGCState (value_ : Z) : Z := value_ .& kGCStateMaskShiftedToggled.

Definition Equal (kIncludeReadBarrierState : bool) (lw1 lw2 : Z) : bool :=
  if kIncludeReadBarrierState then lw1 =? lw2 else GetValueWithoutGCState lw1 =? GetValueWithoutGCState lw2.

(** ** What a lock word says *)

Inductive contents := Unlocked | Thin (owner count : Z) | Fat (monitor_id : Z) | Hash (hash_code : Z).

Definition valid_contents (c : contents) : Prop :=
  match c with
  | Unlocked => True
  | Thin owner count => 0 < owner <= kThinLockMaxOwner /\ 0 <= count <= kThinLockMaxCount
  | Fat id => 0 <= id <= kMaxMonitorId
  | Hash h => 0 <= h <= kMaxHash
  end.

Definition encode (c : contents) (gc_state : Z) : Z :=
  match c with
  | Unlocked => gc_state * 2 ^ 28
  | Thin owner count => owner + count * 2 ^ 16 + gc_state * 2 ^ 28
  | Fat id => id + gc_state * 2 ^ 28 + 2 ^ 30
  | Hash h => h + gc_state * 2 ^ 28 + 2 ^ 31
  end.

Definition state_of (c : contents) : LockState :=
  match c with Unlocked => kUnlocked | Thin _ _ => kThinLocked | Fat _ => kFatLocked | Hash _ => kHashCode end.

(** Fields below each other: [a] has [n] bits. *)
Lemma fields_land a b n m : 0 <= n -> 0 <= m -> 0 <= a < 2 ^ n -> 0 <= b -> ((a + b * 2 ^ n) ≫ n) .& (2 ^ m - 1) = b mod 2 ^ m.
Proof.
  intros Hn Hm Ha Hb. replace (2 ^ m - 1) with (Z.ones m) by (rewrite Z.ones_equiv; lia). rewrite Z.land_ones, Z.shiftr_div_pow2 by lia.
  rewrite Z.div_add by (pose proof (pow2_pos n Hn); lia). by rewrite Z.div_small.
Qed.

Lemma lor_fields a b n : 0 <= n -> 0 <= a < 2 ^ n -> 0 <= b -> a .| (b ≪ n) = a + b * 2 ^ n.
Proof.
  intros Hn Ha Hb. rewrite <- Z.shiftl_mul_pow2 by done. symmetry. apply Z.add_nocarry_lor.
  apply Z.bits_inj'. intros i Hi. rewrite Z.land_spec, Z.bits_0, shiftl_testbit by done. destruct (Z.lt_ge_cases i n).
  - by rewrite (Z.testbit_neg_r b) by lia; rewrite andb_false_r.
  - by rewrite (testbit_high n a) by done.
Qed.

Lemma make_words c g : valid_contents c -> 0 <= g < 4 ->
  match c with
  | Unlocked => FromDefault g = encode c g
  | Thin owner count => FromThinLockId owner count g = Some (encode c g)
  | Fat id => FromMonitor id g = encode c g
  | Hash h => FromHashCode h g = Some (encode c g)
  end.
Proof.
  intros Hc Hg. assert (u32 (g ≪ 28) = g ≪ 28) as Eg by (rewrite Z.shiftl_mul_pow2 by lia; apply uN_small; unfold is_u; lia).
  destruct c as [|o n|id|h]; cbn [valid_contents encode] in *.
  - unfold FromDefault. change kGCStateShift with 28. by rewrite Eg, Z.shiftl_mul_pow2 by lia.
  - change kThinLockMaxOwner with 65535 in Hc. change kThinLockMaxCount with 4095 in Hc. unfold FromThinLockId. change kThinLockMaxOwner with 65535. change kThinLockMaxCount with 4095.
    rewrite (proj2 (Z.leb_le _ _)), (proj2 (Z.leb_le _ _)) by lia. cbn [negb]. f_equal.
    change kGCStateShift with 28. change kThinLockOwnerShift with 0. change kThinLockCountShift with 16. change (u32 (kStateThinOrUnlocked ≪ kStateShift)) with 0.
    rewrite Z.lor_0_r, Eg, Z.shiftl_0_r, (uN_small 32 o) by (unfold is_u; lia).
    rewrite (uN_small 32 (n ≪ 16)) by (rewrite Z.shiftl_mul_pow2 by lia; unfold is_u; lia). rewrite (lor_fields o n 16), lor_fields by lia. lia.
  - change kMaxMonitorId with (2 ^ 28 - 1) in Hc. unfold FromMonitor. change kGCStateShift with 28. rewrite Eg. change (u32 (kStateFat ≪ kStateShift)) with (1 ≪ 30).
    rewrite (lor_fields id g 28), lor_fields by lia. lia.
  - change kMaxHash with (2 ^ 28 - 1) in Hc. unfold FromHashCode. change kMaxHash with (2 ^ 28 - 1). rewrite (proj2 (Z.leb_le _ _)) by lia. cbn [negb]. f_equal.
    change kGCStateShift with 28. change kHashShift with 0. rewrite Eg, Z.shiftl_0_r, (uN_small 32 h) by (unfold is_u; lia). change (u32 (kStateHash ≪ kStateShift)) with (2 ≪ 30).
    rewrite (lor_fields h g 28), lor_fields by lia. lia.
Qed.

Lemma gc_mask_land a b c : 0 <= a < 2 ^ 28 -> 0 <= b < 4 -> 0 <= c < 4 ->
  (a + b * 2 ^ 28 + c * 2 ^ 30) .& kGCStateMaskShiftedToggled = a + c * 2 ^ 30 /\ (a + b * 2 ^ 28 + c * 2 ^ 30) .& kGCStateMaskShifted = b * 2 ^ 28.
Proof.
  intros Ha Hb Hc. assert (a + b * 2 ^ 28 + c * 2 ^ 30 = a .| (b ≪ 28) .| (c ≪ 30)) as -> by (rewrite (lor_fields a b 28), lor_fields by lia; lia).
  assert (is_u 28 a /\ is_u 2 b /\ is_u 2 c) as (Ua & Ub & Uc) by (unfold is_u; lia).
  change kGCStateMaskShiftedToggled with (Z.ones 28 .| (3 ≪ 30)). change kGCStateMaskShifted with (3 ≪ 28). rewrite <- lor_fields, <- Z.shiftl_mul_pow2 by lia.
  assert (forall i, Z.testbit 3 i = (0 <=? i) && (i <? 2)) as H3 by (intros i; change 3 with (Z.ones 2); rewrite Z.testbit_ones by lia; done).
  split; apply Z.bits_inj'; intros i Hi; autorewrite with art_bits; rewrite ?H3; repeat case_ltb; try lia; bit_simpl; kill_bits; bit_simpl; try bit_finish.
Qed.

(** The three parts of a word: the low bits, the state of the collector, the state of the lock. *)
Definition low_bits (c : contents) : Z :=
  match c with Unlocked => 0 | Thin owner count => owner + count * 2 ^ 16 | Fat id => id | Hash h => h end.
Definition state_bits (c : contents) : Z := match c with Unlocked | Thin _ _ => 0 | Fat _ => 1 | Hash _ => 2 end.

Lemma encode_parts c g : valid_contents c -> encode c g = low_bits c + g * 2 ^ 28 + state_bits c * 2 ^ 30 /\ 0 <= low_bits c < 2 ^ 28 /\ 0 <= state_bits c < 4.
Proof.
  destruct c as [|o n|id|h]; cbn [encode low_bits state_bits valid_contents];
    change kThinLockMaxOwner with 65535; change kThinLockMaxCount with 4095; change kMaxMonitorId with (2 ^ 28 - 1); change kMaxHash with (2 ^ 28 - 1); lia.
Qed.

Lemma encode_is_u c g : valid_contents c -> 0 <= g < 4 -> is_u 32 (encode c g).
Proof. intros Hc Hg. destruct (encode_parts c g Hc) as (-> & Hl & Hs). unfold is_u. lia. Qed.

Lemma GCState_encode c g : valid_contents c -> 0 <= g < 4 -> GCState (encode c g) = g.
Proof.
  intros Hc Hg. destruct (encode_parts c g Hc) as (-> & Hl & Hs). unfold GCState. destruct (gc_mask_land _ _ _ Hl Hg Hs) as [_ ->].
  change kGCStateShift with 28. rewrite Z.shiftr_div_pow2, Z.div_mul by lia. done.
Qed.

Lemma GetState_encode used c g : valid_contents c -> 0 <= g < 4 -> (used = false -> g = 0) -> GetState used (encode c g) = state_of c.
Proof.
  intros Hc Hg Hu. unfold GetState. destruct (encode_parts c g Hc) as (-> & Hl & Hs). destruct (gc_mask_land _ _ _ Hl Hg Hs) as [-> _].
  assert ((if used then low_bits c + state_bits c * 2 ^ 30 =? 0 else low_bits c + g * 2 ^ 28 + state_bits c * 2 ^ 30 =? 0) = (low_bits c + state_bits c * 2 ^ 30 =? 0)) as ->.
  { destruct used; [done|]. rewrite Hu by done. f_equal; lia. }
  change kStateShift with 30. change kStateMask with (2 ^ 2 - 1).
  replace (low_bits c + g * 2 ^ 28 + state_bits c * 2 ^ 30) with ((low_bits c + g * 2 ^ 28) + state_bits c * 2 ^ 30) by lia. rewrite fields_land by lia.
  rewrite (Z.mod_small (state_bits c)) by lia. destruct c as [|o n|id|h]; cbn [low_bits state_bits state_of valid_contents] in *; [done|..];
    rewrite (proj2 (Z.eqb_neq _ 0)) by lia; done.
Qed.

Lemma fields_low a b n : 0 <= n -> 0 <= a < 2 ^ n -> 0 <= b -> (a + b * 2 ^ n) .& (2 ^ n - 1) = a.
Proof.
  intros Hn Ha Hb. replace (2 ^ n - 1) with (Z.ones n) by (rewrite Z.ones_equiv; lia). rewrite Z.land_ones by done.
  rewrite Z_mod_plus_full. by apply Z.mod_small.
Qed.

Lemma read_encode c g : valid_contents c -> 0 <= g < 4 ->
  match c with
  | Unlocked => True
  | Thin owner count => ThinLockOwner (encode c g) = owner /\ ThinLockCount (encode c g) = count
  | Fat id => FatLockMonitor (encode c g) = id
  | Hash h => GetHashCode (encode c g) = h
  end.
Proof.
  intros Hc Hg. unfold ThinLockOwner, ThinLockCount, FatLockMonitor, GetHashCode. change kThinLockOwnerShift with 0. change kMonitorIdShift with 0. change kHashShift with 0.
  rewrite Z.shiftr_0_r. change kThinLockOwnerMask with (2 ^ 16 - 1). change kThinLockCountShift with 16. change kThinLockCountMask with (2 ^ 12 - 1).
  change kMonitorIdMask with (2 ^ 28 - 1). change kHashMask with (2 ^ 28 - 1). destruct c as [|o n|id|h]; cbn [encode valid_contents] in *; [done|..].
  - change kThinLockMaxOwner with 65535 in Hc. change kThinLockMaxCount with 4095 in Hc.
    replace (o + n * 2 ^ 16 + g * 2 ^ 28) with (o + (n + g * 2 ^ 12) * 2 ^ 16) by lia. rewrite fields_low, fields_land by lia. split; [done|].
    rewrite Z_mod_plus_full. apply Z.mod_small. lia.
  - change kMaxMonitorId with (2 ^ 28 - 1) in Hc. replace (id + g * 2 ^ 28 + 2 ^ 30) with (id + (g + 4) * 2 ^ 28) by lia. apply fields_low; lia.
  - change kMaxHash with (2 ^ 28 - 1) in Hc. replace (h + g * 2 ^ 28 + 2 ^ 31) with (h + (g + 8) * 2 ^ 28) by lia. apply fields_low; lia.
Qed.

Lemma gc_bits_encode c g : valid_contents c -> 0 <= g < 4 -> ReadBarrierState (encode c g) = g mod 2 /\ MarkBitState (encode c g) = g / 2.
Proof.
  intros Hc Hg. destruct (encode_parts c g Hc) as (-> & Hl & Hs). unfold ReadBarrierState, MarkBitState. change kReadBarrierStateShift with 28. change kMarkBitStateShift with 29.
  change kReadBarrierStateMask with (2 ^ 1 - 1). change kMarkBitStateMask with (2 ^ 1 - 1). split.
  - replace (low_bits c + g * 2 ^ 28 + state_bits c * 2 ^ 30) with (low_bits c + (g + state_bits c * 2 ^ 2) * 2 ^ 28) by lia. rewrite fields_land by lia.
    change (2 ^ 1) with 2. Z.div_mod_to_equations; lia.
  - replace (low_bits c + g * 2 ^ 28 + state_bits c * 2 ^ 30) with ((low_bits c + (g mod 2) * 2 ^ 28) + (g / 2 + state_bits c * 2) * 2 ^ 29) by (Z.div_mod_to_equations; lia).
    rewrite fields_land by (Z.div_mod_to_equations; lia). change (2 ^ 1) with 2. Z.div_mod_to_equations; lia.
Qed.

Lemma set_gc_encode c g b : valid_contents c -> 0 <= g < 4 -> 0 <= b < 2 ->
  SetReadBarrierState b (encode c g) = encode c (g / 2 * 2 + b) /\ SetMarkBitState b (encode c g) = encode c (g mod 2 + b * 2).
Proof.
  intros Hc Hg Hb. destruct (encode_parts c g Hc) as (-> & Hl & Hs). assert (0 <= g / 2 < 2 /\ 0 <= g mod 2 < 2) as [Hd Hm] by (Z.div_mod_to_equations; lia).
  destruct (encode_parts c (g / 2 * 2 + b) Hc) as (-> & _). destruct (encode_parts c (g mod 2 + b * 2) Hc) as (-> & _).
  assert (forall x y, 0 <= x < 2 -> 0 <= y < 2 -> low_bits c + (x + y * 2) * 2 ^ 28 + state_bits c * 2 ^ 30 = low_bits c .| (x ≪ 28) .| (y ≪ 29) .| (state_bits c ≪ 30)) as E.
  { intros x y Hx Hy. rewrite (lor_fields (low_bits c) x 28), (lor_fields _ y 29), lor_fields by lia. lia. }
  replace (g / 2 * 2 + b) with (b + g / 2 * 2) by lia. replace g with (g mod 2 + g / 2 * 2) at 1 3 by (Z.div_mod_to_equations; lia). rewrite !E by lia.
  revert Hl Hs Hd Hm. generalize (low_bits c) (state_bits c) (g / 2) (g mod 2). intros l s d m Hl Hs Hd Hm.
  assert (is_u 28 l /\ is_u 2 s /\ is_u 1 d /\ is_u 1 m /\ is_u 1 b) as (Ul & Us & Ud & Um & Ub) by (unfold is_u; lia).
  unfold SetReadBarrierState, SetMarkBitState. change kReadBarrierStateShift with 28. change kMarkBitStateShift with 29. change (kReadBarrierStateMask ≪ 28) with (2 ^ 28).
  change kReadBarrierStateMask with (Z.ones 1). change kMarkBitStateMaskShiftedToggled with (u32 (.~ (2 ^ 29))). rewrite Z.land_ones, (Z.mod_small b) by lia.
  rewrite (uN_small 32 (b ≪ 29)) by (rewrite Z.shiftl_mul_pow2 by lia; unfold is_u; lia).
  split; apply Z.bits_inj'; intros i Hi; autorewrite with art_bits; repeat case_ltb; try lia; bit_simpl; kill_bits; bit_simpl; try bit_finish.
  all: destruct (Z.lt_trichotomy i 28) as [?|[?|?]], (Z.lt_trichotomy i 29) as [?|[?|?]]; try lia; kill_bits; bit_simpl; try bit_finish.
Qed.

Lemma encode_inj c g c' g' : valid_contents c -> valid_contents c' -> 0 <= g < 4 -> 0 <= g' < 4 -> encode c g = encode c' g' -> c = c' /\ g = g'.
Proof.
  intros Hc Hc' Hg Hg' E. assert (g = g') as <- by (rewrite <- (GCState_encode c g), <- (GCState_encode c' g') by done; by rewrite E). split; [|done].
  pose proof (GetState_encode true c g Hc Hg ltac:(done)) as S1. pose proof (GetState_encode true c' g Hc' Hg ltac:(done)) as S2. rewrite E, S2 in S1.
  pose proof (read_encode c g Hc Hg) as R1. pose proof (read_encode c' g Hc' Hg) as R2. rewrite E in R1.
  destruct c, c'; try done; cbn [valid_contents] in *; intuition congruence.
Qed.

Lemma Equal_encode c g c' g' : valid_contents c -> valid_contents c' -> 0 <= g < 4 -> 0 <= g' < 4 ->
  Equal false (encode c g) (encode c' g') = true <-> c = c'.
Proof.
  intros Hc Hc' Hg Hg'. cbn [Equal]. unfold GetValueWithoutGCState. rewrite Z.eqb_eq.
  destruct (encode_parts c g Hc) as (-> & Hl & Hs). destruct (encode_parts c' g' Hc') as (-> & Hl' & Hs').
  destruct (gc_mask_land _ _ _ Hl Hg Hs) as [-> _]. destruct (gc_mask_land _ _ _ Hl' Hg' Hs') as [-> _]. split; [|by intros <-].
  intros E. apply (encode_inj c 0 c' 0); try done. destruct (encode_parts c 0 Hc) as (-> & _). destruct (encode_parts c' 0 Hc') as (-> & _). lia.
Qed.

Lemma forwarding_roundtrip used target : 0 <= target < 2 ^ 32 -> target mod 8 = 0 ->
  GetState used (FromForwardingAddress target) = kForwardingAddress /\ ForwardingAddress (FromForwardingAddress target) = target.
Proof.
  intros Ht Ha. assert (FromForwardingAddress target = target / 8 + 3 * 2 ^ 30) as ->.
  { unfold FromForwardingAddress. change kForwardingAddressShift with 3. change kStateForwardingAddressShifted with (3 ≪ 30). rewrite Z.shiftr_div_pow2 by lia. change (2 ^ 3) with 8.
    rewrite lor_fields by (Z.div_mod_to_equations; lia). apply uN_small. unfold is_u. Z.div_mod_to_equations; lia. }
  assert (0 <= target / 8 < 2 ^ 28 * 2) as Hq by (Z.div_mod_to_equations; lia). split.
  - unfold GetState. change kStateShift with 30. change kStateMask with (2 ^ 2 - 1). rewrite fields_land by lia. change (3 mod 2 ^ 2) with 3. cbn [Z.eqb].
    assert ((if used then (target / 8 + 3 * 2 ^ 30) .& kGCStateMaskShiftedToggled =? 0 else target / 8 + 3 * 2 ^ 30 =? 0) = false) as ->; [|done].
    destruct used; apply Z.eqb_neq; [|lia].
    replace (target / 8 + 3 * 2 ^ 30) with ((target / 8) mod 2 ^ 28 + (target / 8 / 2 ^ 28) * 2 ^ 28 + 3 * 2 ^ 30) by (Z.div_mod_to_equations; lia).
    destruct (gc_mask_land ((target / 8) mod 2 ^ 28) (target / 8 / 2 ^ 28) 3) as [-> _]; Z.div_mod_to_equations; lia.
  - unfold ForwardingAddress. change kForwardingAddressShift with 3. rewrite Z.shiftl_mul_pow2 by lia. unfold uN. change (2 ^ 3) with 8. Z.div_mod_to_equations; lia.
Qed.

(** ** Property *)

(** Lock words and their contents.  For every state a lock word can have (unlocked, thin with its
    owner and count, fat with its monitor, hash) and every state of the collector, the word made
    from the contents fits in 32 bits and is read back as the same state and contents; the state of the
    collector can be read and set without a change of the contents, and comparing words without it
    compares the contents.  An aligned forwarding address is read back as such. *)
Theorem LockWord_roundtrip (used : bool) (c c' : contents) (g g' b target : Z) :
  valid_contents c -> valid_contents c' -> 0 <= g < 4 -> 0 <= g' < 4 -> (used = false -> g = 0) -> 0 <= b < 2 -> 0 <= target < 2 ^ 32 -> target mod 8 = 0 ->
  (exists lw, is_u 32 lw /\ GetState used lw = state_of c /\ GCState lw = g /\ ReadBarrierState lw = g mod 2 /\ MarkBitState lw = g / 2 /\
     (match c with
      | Unlocked => FromDefault g = lw
      | Thin owner count => FromThinLockId owner count g = Some lw /\ ThinLockOwner lw = owner /\ ThinLockCount lw = count
      | Fat id => FromMonitor id g = lw /\ FatLockMonitor lw = id
      | Hash h => FromHashCode h g = Some lw /\ GetHashCode lw = h
      end) /\
     (forall lw', lw' = SetReadBarrierState b lw -> Equal false lw lw' = true /\ ReadBarrierState lw' = b /\ MarkBitState lw' = MarkBitState lw) /\
     (forall lw', lw' = SetMarkBitState b lw -> Equal false lw lw' = true /\ MarkBitState lw' = b /\ ReadBarrierState lw' = ReadBarrierState lw) /\
     (Equal false lw (encode c' g') = true <-> c = c')) /\
  (GetState used (FromForwardingAddress target) = kForwardingAddress /\ ForwardingAddress (FromForwardingAddress target) = target).
Proof.
  intros Hc Hc' Hg Hg' Hu Hb Ht Ha. split; [|by apply forwarding_roundtrip]. exists (encode c g). pose proof (gc_bits_encode c g Hc Hg) as [E1 E2].
  pose proof (make_words c g Hc Hg) as Hmake. pose proof (read_encode c g Hc Hg) as Hread. destruct (set_gc_encode c g b Hc Hg Hb) as [S1 S2].
  assert (0 <= g / 2 * 2 + b < 4 /\ 0 <= g mod 2 + b * 2 < 4) as [G1 G2] by (Z.div_mod_to_equations; lia).
  split_and!; [by apply encode_is_u|by apply GetState_encode|by apply GCState_encode|done|done|by destruct c| | |by apply Equal_encode].
  - intros ? ->. rewrite S1, Equal_encode by done. destruct (gc_bits_encode c _ Hc G1) as [-> ->]. rewrite E2. split_and!; [done|Z.div_mod_to_equations; lia..].
  - intros ? ->. rewrite S2, Equal_encode by done. destruct (gc_bits_encode c _ Hc G2) as [-> ->]. rewrite E1. split_and!; [done|Z.div_mod_to_equations; lia..].
Qed.

