(* ===== verification/Monitor.v ===== *)
(** Object locks: runtime/monitor.h, runtime/monitor.cc, and IdentityHashCode, AtomicSetReadBarrierState
    and AtomicSetMarkBit of runtime/mirror/object.cc and object-readbarrier-inl.h.

    The model is the lock of one object, used by any number of threads.  The memory they share is a
    [world]; a function is a program [prog] of actions, each of which is one access to that memory,
    so that the threads interleave between any two of them.  The body of a loop returns [Again] to
    go on with the loop and [Return] to leave the function.  An action has an argument that stands
    for what the code does not determine: it is not zero when a weak compare-and-swap fails for no
    reason, a wait ends without a signal, or a thread can not be suspended, and it is the id of a
    new monitor.

    A thread is its thread id.  A thread is [runnable] from the start of a call to its end, except
    inside of ScopedThreadSuspension; a thread can be suspended when it is not runnable, and then does
    not become runnable until it is resumed.  The mutexes monitor_lock_ are their owners.  What is
    guarded by monitor_lock_ is read and written in one action where only its owner can see it.
    The loop of GenerateIdentityHashCode is one action. SuspendThreadByThreadId and Resume of ThreadList are given by their effect.
    Tracing, contention logs, callbacks and pending exceptions are left out, and memory is sequentially consistent.  A failed CHECK, LOG(FATAL) and an access to a monitor that
    does not exist are [Fatal], with the reason: the two CHECKs on resources that can run out, lock_count_ in TryLock and the chunks of MonitorPool in AllocateChunk,
    have reasons of their own.  Whether the pool has run out of monitors depends on all objects of the runtime: when it has, the id of a new monitor is none of 0 .. kMaxMonitorId. *)
From S2P Require Import Prelude BitUtils LockWord.

(** ** Memory *)

Record Monitor : Set := Mon {
  monitor_lock_ : option Z;
  owner_ : option Z;
  lock_count_ : Z;
  num_waiters_ : Z;
  hash_code_ : Z;
  wait_set_ : option Z;
  wake_set_ : option Z }.

(** [suspended_by] maps a thread to the thread it keeps suspended.  [waiting] is auxiliary: it has one
    element for every unit of num_waiters_, with the thread that added it and the monitor. *)
Record world := World {
  lock_word : Z;
  monitors : gmap Z Monitor;
  pool : gset Z;
  list_ : list Z;
  hash_code_seed : Z;
  runnable : gset Z;
  suspended_by : gmap Z Z;
  wait_next : gmap Z Z;
  wait_monitor : gmap Z Z;
  signalled : gset Z;
  interrupted : gset Z;
  waiting : list (Z * Z) }.

Definition with_lock_word v w :=
  World v (monitors w) (pool w) (list_ w) (hash_code_seed w) (runnable w) (suspended_by w) (wait_next w) (wait_monitor w) (signalled w) (interrupted w) (waiting w).
Definition with_monitors v w :=
  World (lock_word w) v (pool w) (list_ w) (hash_code_seed w) (runnable w) (suspended_by w) (wait_next w) (wait_monitor w) (signalled w) (interrupted w) (waiting w).
Definition with_pool v w :=
  World (lock_word w) (monitors w) v (list_ w) (hash_code_seed w) (runnable w) (suspended_by w) (wait_next w) (wait_monitor w) (signalled w) (interrupted w) (waiting w).
Definition with_list v w :=
  World (lock_word w) (monitors w) (pool w) v (hash_code_seed w) (runnable w) (suspended_by w) (wait_next w) (wait_monitor w) (signalled w) (interrupted w) (waiting w).
Definition with_seed v w :=
  World (lock_word w) (monitors w) (pool w) (list_ w) v (runnable w) (suspended_by w) (wait_next w) (wait_monitor w) (signalled w) (interrupted w) (waiting w).
Definition with_runnable v w :=
  World (lock_word w) (monitors w) (pool w) (list_ w) (hash_code_seed w) v (suspended_by w) (wait_next w) (wait_monitor w) (signalled w) (interrupted w) (waiting w).
Definition with_suspended v w :=
  World (lock_word w) (monitors w) (pool w) (list_ w) (hash_code_seed w) (runnable w) v (wait_next w) (wait_monitor w) (signalled w) (interrupted w) (waiting w).
Definition with_next v w :=
  World (lock_word w) (monitors w) (pool w) (list_ w) (hash_code_seed w) (runnable w) (suspended_by w) v (wait_monitor w) (signalled w) (interrupted w) (waiting w).
Definition with_wait_monitor v w :=
  World (lock_word w) (monitors w) (pool w) (list_ w) (hash_code_seed w) (runnable w) (suspended_by w) (wait_next w) v (signalled w) (interrupted w) (waiting w).
Definition with_signalled v w :=
  World (lock_word w) (monitors w) (pool w) (list_ w) (hash_code_seed w) (runnable w) (suspended_by w) (wait_next w) (wait_monitor w) v (interrupted w) (waiting w).
Definition with_interrupted v w :=
  World (lock_word w) (monitors w) (pool w) (list_ w) (hash_code_seed w) (runnable w) (suspended_by w) (wait_next w) (wait_monitor w) (signalled w) v (waiting w).
Definition with_waiting v w :=
  World (lock_word w) (monitors w) (pool w) (list_ w) (hash_code_seed w) (runnable w) (suspended_by w) (wait_next w) (wait_monitor w) (signalled w) (interrupted w) v.

Definition with_monitor_lock v m := Mon v (owner_ m) (lock_count_ m) (num_waiters_ m) (hash_code_ m) (wait_set_ m) (wake_set_ m).
Definition with_owner v m := Mon (monitor_lock_ m) v (lock_count_ m) (num_waiters_ m) (hash_code_ m) (wait_set_ m) (wake_set_ m).
Definition with_count v m := Mon (monitor_lock_ m) (owner_ m) v (num_waiters_ m) (hash_code_ m) (wait_set_ m) (wake_set_ m).
Definition with_num_waiters v m := Mon (monitor_lock_ m) (owner_ m) (lock_count_ m) v (hash_code_ m) (wait_set_ m) (wake_set_ m).
Definition with_hash v m := Mon (monitor_lock_ m) (owner_ m) (lock_count_ m) (num_waiters_ m) v (wait_set_ m) (wake_set_ m).
Definition with_sets v k m := Mon (monitor_lock_ m) (owner_ m) (lock_count_ m) (num_waiters_ m) (hash_code_ m) v k.

(** ** Programs *)

(** CHECK_NE(lock_count_, 0u) of TryLock, CHECK_LT(current_chunk_list_index_, kMaxChunkLists) of AllocateChunk, and all others. *)
Inductive failure := LockCountOverflow | OutOfMonitors | CheckFailed.

Inductive outcome (X : Set) :=
  | Done (x : X) (w : world)
  | Blocked
  | Fatal (why : failure).
Arguments Done {X} _ _.
Arguments Blocked {X}.
Arguments Fatal {X} _.

Inductive prog (R : Type) : Type :=
  | Ret (r : R)
  | Act (X : Set) (a : world -> Z -> outcome X) (k : X -> prog R).
Arguments Ret {R} _.
Arguments Act {R X} _ _.

Fixpoint prog_bind {A B} (p : prog A) (f : A -> prog B) : prog B :=
  match p with
  | Ret r => f r
  | Act a k => Act a (fun x => prog_bind (k x) f)
  end.

#[export] Instance prog_mbind : MBind prog := fun A B f p => prog_bind p f.
#[export] Instance prog_mret : MRet prog := fun A r => Ret r.

Definition act {X : Set} (a : world -> Z -> outcome X) : prog X := Act a Ret.
Definition fatal {R} : prog R := Act (X := unit) (fun _ _ => Fatal CheckFailed) (fun _ => Act (X := Empty_set) (fun _ _ => Fatal CheckFailed) (fun e => match e with end)).
Definition check {R} (x : option R) : prog R := match x with Some x => Ret x | None => fatal end.

(** An action on the monitor [id]. *)
Definition on_monitor {X : Set} (id : Z) (f : Monitor -> X * Monitor) : prog X :=
  act (fun w _ =>
    match monitors w !! id with
    | None => Fatal CheckFailed
    | Some m => let '(x, m) := f m in Done x (with_monitors (<[id := m]> (monitors w)) w)
    end).

Definition load_monitor {X : Set} (id : Z) (f : Monitor -> X) : prog X :=
  act (fun w _ => match monitors w !! id with None => Fatal CheckFailed | Some m => Done (f m) w end).

Inductive result := RTrue | RFalse | RHash (hash_code : Z) | RVoid | RThreadId (thread_id : Z) | RIllegalMonitorState | RIllegalArgument | RInterrupted.
Inductive control := Again (contention_count : Z) | Return (r : result).

Section monitor.
Context (gUseReadBarrier gUseUserfaultfd : bool) (max_spins : Z).

Abbreviation gc_state_used := (gUseReadBarrier || gUseUserfaultfd).

(** *** The lock word of the object *)

Definition GetLockWord : prog Z := act (fun w _ => Done (lock_word w) w).
Definition SetLockWord (new_val : Z) : prog unit := act (fun w _ => Done tt (with_lock_word new_val w)).

Definition CasLockWord (weak : bool) (old_val new_val : Z) : prog bool :=
  act (fun w choice =>
    if (lock_word w =? old_val) && negb (weak && negb (choice =? 0)) then Done true (with_lock_word new_val w) else Done false w).

(** The hash code for a seed and the next seed; a hash code is not zero. *)
Definition next_seed (expected_value : Z) : Z := u32 (expected_value * 1103515245 + 12345).
Definition generate (seed : Z) : Z * Z :=
  if seed .& kHashMask =? 0 then (next_seed seed .& kHashMask, next_seed (next_seed seed)) else (seed .& kHashMask, next_seed seed).

Definition GenerateIdentityHashCode : prog Z :=
  act (fun w _ => let '(hash, seed) := generate (hash_code_seed w) in Done hash (with_seed seed w)).

(** *** Suspension of threads *)

Definition is_suspended (w : world) (t : Z) : bool := existsb (fun p => p.2 =? t) (map_to_list (suspended_by w)).

(** The constructor and the destructor of ScopedThreadSuspension. *)
Definition BeginSuspension (self : Z) : prog unit := act (fun w _ => Done tt (with_runnable (runnable w ∖ {[self]}) w)).
Definition EndSuspension (self : Z) : prog unit :=
  act (fun w _ => if is_suspended w self then Blocked else Done tt (with_runnable ({[self]} ∪ runnable w) w)).

Definition SuspendThreadByThreadId (self thread_id : Z) : prog (option Z) :=
  act (fun w choice =>
    if negb (choice =? 0) then Done None w
    else if bool_decide (thread_id ∈ runnable w) then Blocked
    else Done (Some thread_id) (with_suspended (<[self := thread_id]> (suspended_by w)) w)).
Definition Resume (self : Z) : prog unit := act (fun w _ => Done tt (with_suspended (delete self (suspended_by w)) w)).

(** *** Inflation *)

(** CHECK(owner == nullptr || owner == self || owner->IsSuspended()). *)
Definition owner_ok (w : world) (self : Z) (owner : option Z) : bool :=
  match owner with None => true | Some o => (o =? self) || is_suspended w o end.

(** MonitorPool::CreateMonitor; the id is one that is not in use. *)
Definition CreateMonitor (self : Z) (owner : option Z) (hash_code : Z) : prog (Z * Monitor) :=
  act (fun w id =>
    if negb ((0 <=? id) && (id <=? kMaxMonitorId)) then Fatal OutOfMonitors
    else if bool_decide (id ∈ pool w) then Blocked
    else if negb (owner_ok w self owner) then Fatal CheckFailed
    else Done (id, Mon None owner 0 0 hash_code None None) (with_pool ({[id]} ∪ pool w) w)).

Definition ReleaseMonitor (id : Z) : prog unit := act (fun w _ => Done tt (with_pool (pool w ∖ {[id]}) w)).

(** The compare-and-swap that makes a new monitor visible to the other threads. *)
Definition Publish (old_val new_val id : Z) (m : Monitor) : prog bool :=
  act (fun w choice =>
    if (lock_word w =? old_val) && (choice =? 0) then Done true (with_monitors (<[id := m]> (monitors w)) (with_lock_word new_val w)) else Done false w).

Definition Install (self id : Z) (m : Monitor) : prog bool :=
  _ ← act (fun w _ => if owner_ok w self (owner_ m) then Done tt w else Fatal CheckFailed);
  lw ← GetLockWord;
  match GetState gc_state_used lw with
  | kThinLocked =>
      owner ← check (owner_ m);
      if negb (owner =? ThinLockOwner lw) then fatal
      else
        let m := with_monitor_lock (Some owner) (with_count (ThinLockCount lw) m) in
        let fat := FromMonitor id (GCState lw) in
        Publish lw fat id m
  | kHashCode =>
      if negb (hash_code_ m =? LockWord.GetHashCode lw) then fatal
      else
        let fat := FromMonitor id (GCState lw) in
        Publish lw fat id m
  | kFatLocked => Ret false
  | kUnlocked | kForwardingAddress => fatal
  end.

(** MonitorList::Add. *)
Definition AddToMonitorList (id : Z) : prog unit := act (fun w _ => Done tt (with_list (id :: list_ w) w)).

Definition Inflate (self : Z) (owner : option Z) (hash_code : Z) : prog unit :=
  '(id, m) ← CreateMonitor self owner hash_code;
  installed ← Install self id m;
  if (installed : bool) then
    _ ← AddToMonitorList id;
    lw ← GetLockWord;
    if negb (bool_decide (GetState gc_state_used lw = kFatLocked)) then fatal else Ret tt
  else ReleaseMonitor id.

Definition InflateThinLocked (self lock_word hash_code : Z) : prog unit :=
  let owner_thread_id := ThinLockOwner lock_word in
  if owner_thread_id =? self then Inflate self (Some self) hash_code
  else
    _ ← BeginSuspension self;
    owner ← SuspendThreadByThreadId self owner_thread_id;
    _ ← EndSuspension self;
    match owner with
    | None => Ret tt
    | Some owner =>
        lock_word ← GetLockWord;
        _ ← (if bool_decide (GetState gc_state_used lock_word = kThinLocked) && (ThinLockOwner lock_word =? owner_thread_id)
             then Inflate self (Some owner) hash_code else Ret tt);
        Resume self
    end.

(** *** Locking and unlocking a monitor *)

Definition TryLock (self id : Z) : prog bool :=
  owner ← load_monitor id owner_;
  if bool_decide (owner = Some self) then
    act (fun w _ =>
      match monitors w !! id with
      | None => Fatal CheckFailed
      | Some m =>
          let lock_count := u32 (lock_count_ m + 1) in
          if lock_count =? 0 then Fatal LockCountOverflow else Done true (with_monitors (<[id := with_count lock_count m]> (monitors w)) w)
      end)
  else
    success ← on_monitor id (fun m => match monitor_lock_ m with None => (true, with_monitor_lock (Some self) m) | Some _ => (false, m) end);
    if negb success then Ret false
    else
      _ ← on_monitor id (fun m => (tt, with_owner (Some self) m));
      lock_count ← load_monitor id lock_count_;
      if negb (lock_count =? 0) then fatal else Ret true.

(** num_waiters_.fetch_add(1) and num_waiters_.fetch_sub(1) by [self]. *)
Definition AddWaiter (self id : Z) : prog unit :=
  act (fun w _ =>
    match monitors w !! id with
    | None => Fatal CheckFailed
    | Some m => Done tt (with_waiting ((self, id) :: waiting w) (with_monitors (<[id := with_num_waiters (num_waiters_ m + 1) m]> (monitors w)) w))
    end).

Fixpoint remove_one (x : Z * Z) (l : list (Z * Z)) : list (Z * Z) :=
  match l with [] => [] | y :: l => if decide (y = x) then l else y :: remove_one x l end.

Definition RemoveWaiter (self id : Z) : prog unit :=
  act (fun w _ =>
    match monitors w !! id with
    | None => Fatal CheckFailed
    | Some m => Done tt (with_waiting (remove_one (self, id) (waiting w)) (with_monitors (<[id := with_num_waiters (num_waiters_ m - 1) m]> (monitors w)) w))
    end).

Definition Lock (self id : Z) : prog unit :=
  locked ← TryLock self id;
  if (locked : bool) then Ret tt
  else
    _ ← AddWaiter self id;
    _ ← BeginSuspension self;
    _ ← act (fun w _ =>
          match monitors w !! id with
          | None => Fatal CheckFailed
          | Some m =>
              match monitor_lock_ m with
              | Some _ => Blocked
              | None => Done tt (with_monitors (<[id := with_monitor_lock (Some self) m]> (monitors w)) w)
              end
          end);
    _ ← EndSuspension self;
    _ ← on_monitor id (fun m => (tt, with_owner (Some self) m));
    RemoveWaiter self id.

(** *** Wait sets

    A wait set is a list of threads, linked by wait_next. *)

Definition set_next (t : Z) (v : option Z) (next : gmap Z Z) : gmap Z Z := partial_alter (fun _ => v) t next.

Fixpoint last_waiter (fuel : nat) (next : gmap Z Z) (t : Z) : option Z :=
  match next !! t with
  | None => Some t
  | Some t => match fuel with O => None | S fuel => last_waiter fuel next t end
  end.

Definition AppendToWaitSet (thread : Z) (next : gmap Z Z) (wait_set : option Z) : option (gmap Z Z * option Z) :=
  match wait_set with
  | None => Some (next, Some thread)
  | Some t => t ← last_waiter (size next) next t; Some (set_next t (Some thread) next, wait_set)
  end.

Fixpoint remove_after (fuel : nat) (thread : Z) (next : gmap Z Z) (t : Z) : option (bool * gmap Z Z) :=
  match next !! t with
  | None => Some (false, next)
  | Some n =>
      if n =? thread then Some (true, set_next thread None (set_next t (next !! thread) next))
      else match fuel with O => None | S fuel => remove_after fuel thread next n end
  end.

(** The lambda [remove]. *)
Definition remove_from (thread : Z) (next : gmap Z Z) (set : option Z) : option (bool * gmap Z Z * option Z) :=
  match set with
  | None => Some (false, next, set)
  | Some t =>
      if t =? thread then Some (true, set_next thread None next, next !! thread)
      else '(removed, next) ← remove_after (size next) thread next t; Some (removed, next, set)
  end.

Definition RemoveFromWaitSet (thread : Z) (next : gmap Z Z) (wait_set wake_set : option Z) : option (gmap Z Z * option Z * option Z) :=
  '(removed, next, wait_set) ← remove_from thread next wait_set;
  if (removed : bool) then Some (next, wait_set, wake_set)
  else '(_, next, wake_set) ← remove_from thread next wake_set; Some (next, wait_set, wake_set).

(** The threads that are still waiting have a wait monitor; the result has the thread to signal. *)
Fixpoint signal_waiter (fuel : nat) (still_waiting : gmap Z Z) (next : gmap Z Z) (wake_set : option Z) : option (gmap Z Z * option Z * option Z) :=
  match wake_set with
  | None => Some (next, None, None)
  | Some thread =>
      let wake_set := next !! thread in
      let next := set_next thread None next in
      if bool_decide (is_Some (still_waiting !! thread)) then Some (next, wake_set, Some thread)
      else match fuel with O => None | S fuel => signal_waiter fuel still_waiting next wake_set end
  end.

Definition notify_one (next : gmap Z Z) (wait_set wake_set : option Z) : gmap Z Z * option Z * option Z :=
  match wait_set with
  | None => (next, wait_set, wake_set)
  | Some to_move => (set_next to_move wake_set next, next !! to_move, Some to_move)
  end.

Definition notify_all (next : gmap Z Z) (wait_set wake_set : option Z) : option (gmap Z Z * option Z * option Z) :=
  match wait_set with
  | None => Some (next, wait_set, wake_set)
  | Some to_move =>
      match wake_set with
      | None => Some (next, None, Some to_move)
      | Some t => t ← last_waiter (size next) next t; Some (set_next t (Some to_move) next, None, wake_set)
      end
  end.

(** An action on the wait sets of the monitor [id]. *)
Definition on_wait_sets (id : Z) (f : gmap Z Z -> option Z -> option Z -> option (gmap Z Z * option Z * option Z)) : prog unit :=
  act (fun w _ =>
    match monitors w !! id with
    | None => Fatal CheckFailed
    | Some m =>
        match f (wait_next w) (wait_set_ m) (wake_set_ m) with
        | None => Fatal CheckFailed
        | Some (next, wait_set, wake_set) => Done tt (with_next next (with_monitors (<[id := with_sets wait_set wake_set m]> (monitors w)) w))
        end
    end).

Definition SignalWaiterAndReleaseMonitorLock (self id : Z) : prog unit :=
  act (fun w _ =>
    match monitors w !! id with
    | None => Fatal CheckFailed
    | Some m =>
        match signal_waiter (S (size (wait_next w))) (wait_monitor w) (wait_next w) (wake_set_ m) with
        | None => Fatal CheckFailed
        | Some (next, wake_set, thread) =>
            let m := with_monitor_lock None (with_sets (wait_set_ m) wake_set m) in
            let signals := match thread with Some t => {[t]} ∪ signalled w | None => signalled w end in
            Done tt (with_signalled signals (with_next next (with_monitors (<[id := m]> (monitors w)) w)))
        end
    end).

Definition Unlock (self id : Z) : prog bool :=
  owner ← load_monitor id owner_;
  if bool_decide (owner = Some self) then
    lock_count ← load_monitor id lock_count_;
    if lock_count =? 0 then
      _ ← on_monitor id (fun m => (tt, with_owner None m));
      _ ← SignalWaiterAndReleaseMonitorLock self id;
      Ret true
    else
      _ ← on_monitor id (fun m => (tt, with_count (u32 (lock_count_ m - 1)) m));
      Ret true
  else Ret false.

(** *** Waiting and notification *)

Inductive ThreadState := kWaiting | kTimedWaiting | kSleeping.

Definition MonitorWait (self id ms ns : Z) (interruptShouldThrow : bool) (why : ThreadState) : prog result :=
  owner ← load_monitor id owner_;
  if negb (bool_decide (owner = Some self)) then Ret RIllegalMonitorState
  else
    let why := match why with kTimedWaiting => if (ms =? 0) && (ns =? 0) then kWaiting else why | _ => why end in
    if (ms <? 0) || (ns <? 0) || (999999 <? ns) then Ret RIllegalArgument
    else
      prev_lock_count ← on_monitor id (fun m => (lock_count_ m, with_count 0 m));
      _ ← on_monitor id (fun m => (tt, with_owner None m));
      _ ← AddWaiter self id;
      _ ← BeginSuspension self;
      _ ← on_wait_sets id (fun next wait_set wake_set => '(next, wait_set) ← AppendToWaitSet self next wait_set; Some (next, wait_set, wake_set));
      _ ← act (fun w _ => Done tt (with_wait_monitor (<[self := id]> (wait_monitor w)) w));
      _ ← SignalWaiterAndReleaseMonitorLock self id;
      was_interrupted ← act (fun w _ => Done (bool_decide (self ∈ interrupted w)) w);
      was_interrupted ←
        (if (was_interrupted : bool) then Ret true
         else
           _ ← act (fun w choice =>
                 if bool_decide (self ∈ signalled w) || negb (choice =? 0) then Done tt (with_signalled (signalled w ∖ {[self]}) w) else Blocked);
           act (fun w _ => Done (bool_decide (self ∈ interrupted w)) w));
      _ ← EndSuspension self;
      _ ← act (fun w _ => Done tt (with_wait_monitor (delete self (wait_monitor w)) w));
      let throw := was_interrupted && interruptShouldThrow in
      _ ← (if throw then act (fun w _ => Done tt (with_interrupted (interrupted w ∖ {[self]}) w)) else Ret tt);
      _ ← Lock self id;
      _ ← on_monitor id (fun m => (tt, with_count prev_lock_count m));
      _ ← RemoveWaiter self id;
      _ ← on_wait_sets id (RemoveFromWaitSet self);
      Ret (if throw then RInterrupted else RVoid).

Definition Notify (self id : Z) : prog result :=
  owner ← load_monitor id owner_;
  if negb (bool_decide (owner = Some self)) then Ret RIllegalMonitorState
  else _ ← on_wait_sets id (fun next wait_set wake_set => Some (notify_one next wait_set wake_set)); Ret RVoid.

Definition NotifyAll (self id : Z) : prog result :=
  owner ← load_monitor id owner_;
  if negb (bool_decide (owner = Some self)) then Ret RIllegalMonitorState
  else _ ← on_wait_sets id notify_all; Ret RVoid.

(** Monitor::GetHashCode; HasHashCode reads hash_code_ again. *)
Definition HasHashCode (id : Z) : prog bool := load_monitor id (fun m => negb (hash_code_ m =? 0)).

Definition MonitorGetHashCode (id : Z) : prog Z :=
  hc ← load_monitor id hash_code_;
  has_hash_code ← HasHashCode id;
  if (has_hash_code : bool) then Ret hc
  else
    hash ← GenerateIdentityHashCode;
    _ ← on_monitor id (fun m => (tt, if hash_code_ m =? 0 then with_hash hash m else m));
    load_monitor id hash_code_.

(** *** The functions on the object *)

Definition kExtraSpinIters : Z := 100.

Definition MonitorEnter (self : Z) (trylock : bool) (contention_count : Z) : prog control :=
  lock_word ← GetLockWord;
  match GetState gc_state_used lock_word with
  | kUnlocked =>
      thin_locked ← check (FromThinLockId self 0 (GCState lock_word));
      success ← CasLockWord true lock_word thin_locked;
      Ret (if (success : bool) then Return RTrue else Again contention_count)
  | kThinLocked =>
      if ThinLockOwner lock_word =? self then
        let new_count := ThinLockCount lock_word + 1 in
        if new_count <=? kThinLockMaxCount then
          thin_locked ← check (FromThinLockId self new_count (GCState lock_word));
          if negb gUseReadBarrier then
            _ ← SetLockWord thin_locked;
            Ret (Return RTrue)
          else
            success ← CasLockWord true lock_word thin_locked;
            Ret (if (success : bool) then Return RTrue else Again contention_count)
        else
          _ ← InflateThinLocked self lock_word 0;
          Ret (Again contention_count)
      else if trylock then Ret (Return RFalse)
      else
        let contention_count := contention_count + 1 in
        if contention_count <=? kExtraSpinIters + max_spins then Ret (Again contention_count)
        else
          _ ← InflateThinLocked self lock_word 0;
          Ret (Again 0)
  | kFatLocked =>
      let mon := FatLockMonitor lock_word in
      if trylock then
        locked ← TryLock self mon;
        Ret (Return (if (locked : bool) then RTrue else RFalse))
      else
        _ ← Lock self mon;
        Ret (Return RTrue)
  | kHashCode =>
      _ ← Inflate self None (LockWord.GetHashCode lock_word);
      Ret (Again contention_count)
  | kForwardingAddress => fatal
  end.

Definition MonitorExit (self : Z) : prog control :=
  lock_word ← GetLockWord;
  match GetState gc_state_used lock_word with
  | kHashCode | kUnlocked => Ret (Return RFalse)
  | kThinLocked =>
      if negb (ThinLockOwner lock_word =? self) then Ret (Return RFalse)
      else
        new_lw ← (if negb (ThinLockCount lock_word =? 0) then check (FromThinLockId self (ThinLockCount lock_word - 1) (GCState lock_word))
                  else Ret (FromDefault (GCState lock_word)));
        if negb gUseReadBarrier then
          _ ← SetLockWord new_lw;
          Ret (Return RTrue)
        else
          success ← CasLockWord true lock_word new_lw;
          Ret (if (success : bool) then Return RTrue else Again 0)
  | kFatLocked =>
      unlocked ← Unlock self (FatLockMonitor lock_word);
      Ret (Return (if (unlocked : bool) then RTrue else RFalse))
  | kForwardingAddress => fatal
  end.

Definition Wait (self ms ns : Z) (interruptShouldThrow : bool) (why : ThreadState) : prog control :=
  lock_word ← GetLockWord;
  match GetState gc_state_used lock_word with
  | kHashCode | kUnlocked => Ret (Return RIllegalMonitorState)
  | kThinLocked =>
      if negb (ThinLockOwner lock_word =? self) then Ret (Return RIllegalMonitorState)
      else
        _ ← Inflate self (Some self) 0;
        Ret (Again 0)
  | kFatLocked =>
      r ← MonitorWait self (FatLockMonitor lock_word) ms ns interruptShouldThrow why;
      Ret (Return r)
  | kForwardingAddress => fatal
  end.

Definition DoNotify (self : Z) (all : bool) : prog control :=
  lock_word ← GetLockWord;
  match GetState gc_state_used lock_word with
  | kHashCode | kUnlocked => Ret (Return RIllegalMonitorState)
  | kThinLocked => Ret (Return (if negb (ThinLockOwner lock_word =? self) then RIllegalMonitorState else RVoid))
  | kFatLocked =>
      r ← (if all then NotifyAll self (FatLockMonitor lock_word) else Notify self (FatLockMonitor lock_word));
      Ret (Return r)
  | kForwardingAddress => fatal
  end.

Definition GetLockOwnerThreadId : prog control :=
  lock_word ← GetLockWord;
  match GetState gc_state_used lock_word with
  | kHashCode | kUnlocked => Ret (Return (RThreadId 0))
  | kThinLocked => Ret (Return (RThreadId (ThinLockOwner lock_word)))
  | kFatLocked =>
      owner ← load_monitor (FatLockMonitor lock_word) owner_;
      Ret (Return (RThreadId (default 0 owner)))
  | kForwardingAddress => fatal
  end.

Definition IdentityHashCode (self : Z) : prog control :=
  lw ← GetLockWord;
  match GetState gc_state_used lw with
  | kUnlocked =>
      hash ← GenerateIdentityHashCode;
      hash_word ← check (FromHashCode hash (GCState lw));
      success ← CasLockWord false lw hash_word;
      Ret (if (success : bool) then Return (RHash (LockWord.GetHashCode hash_word)) else Again 0)
  | kThinLocked =>
      hash ← GenerateIdentityHashCode;
      _ ← InflateThinLocked self lw hash;
      Ret (Again 0)
  | kFatLocked =>
      hash ← MonitorGetHashCode (FatLockMonitor lw);
      Ret (Return (RHash hash))
  | kHashCode => Ret (Return (RHash (LockWord.GetHashCode lw)))
  | kForwardingAddress => fatal
  end.

Definition AtomicSetReadBarrierState (expected_rb_state rb_state : Z) : prog control :=
  lw ← GetLockWord;
  if negb (ReadBarrierState lw =? expected_rb_state) then Ret (Return RFalse)
  else
    let expected_lw := SetReadBarrierState expected_rb_state lw in
    let new_lw := SetReadBarrierState rb_state lw in
    success ← CasLockWord true expected_lw new_lw;
    Ret (if (success : bool) then Return RTrue else Again 0).

Definition AtomicSetMarkBit (expected_mark_bit mark_bit : Z) : prog control :=
  lw ← GetLockWord;
  if negb (MarkBitState lw =? expected_mark_bit) then Ret (Return RFalse)
  else
    let new_lw := SetMarkBitState mark_bit lw in
    success ← CasLockWord true lw new_lw;
    Ret (if (success : bool) then Return RTrue else Again 0).

(** *** Deflation, with all threads suspended *)

(** Whether the object is deflated; a failed CHECK gives no result. *)
Definition Deflate (w : world) : option (bool * world) :=
  let lw := lock_word w in
  if bool_decide (GetState gc_state_used lw = kFatLocked) then
    monitor ← monitors w !! FatLockMonitor lw;
    if 0 <? num_waiters_ monitor then Some (false, w)
    else
      match monitor_lock_ monitor with
      | Some _ => Some (false, w)
      | None =>
          new_lw ← (if negb (hash_code_ monitor =? 0) then FromHashCode (hash_code_ monitor) (GCState lw) else Some (FromDefault (GCState lw)));
          Some (true, with_lock_word new_lw w)
      end
  else Some (true, w).

(** SweepMonitorList with the visitor that deflates. *)
Fixpoint sweep_monitors (ms : list Z) (w : world) : option (list Z * world) :=
  match ms with
  | [] => Some ([], w)
  | m :: ms =>
      '(deflated, w) ← Deflate w;
      let w := if (deflated : bool) then with_monitors (delete m (monitors w)) (with_pool (pool w ∖ {[m]}) w) else w in
      '(ms, w) ← sweep_monitors ms w;
      Some (if deflated then ms else m :: ms, w)
  end.

Definition DeflateMonitors (w : world) : option world :=
  '(ms, w) ← sweep_monitors (list_ w) w; Some (with_list ms w).

(** The owner, the entry count and the waiters; an object without an owner has the entry count zero. *)
Fixpoint waiters_from (fuel : nat) (next : gmap Z Z) (waiter : option Z) : option (list Z) :=
  match waiter with
  | None => Some []
  | Some t => match fuel with O => None | S fuel => rest ← waiters_from fuel next (next !! t); Some (t :: rest) end
  end.

Definition MonitorInfo (w : world) : option (option Z * Z * list Z) :=
  let lock_word := lock_word w in
  match GetState gc_state_used lock_word with
  | kUnlocked | kForwardingAddress | kHashCode => Some (None, 0, [])
  | kThinLocked => Some (Some (ThinLockOwner lock_word), 1 + ThinLockCount lock_word, [])
  | kFatLocked =>
      mon ← monitors w !! FatLockMonitor lock_word;
      waiters ← waiters_from (S (size (wait_next w))) (wait_next w) (wait_set_ mon);
      Some (owner_ mon, match owner_ mon with Some _ => 1 + lock_count_ mon | None => 0 end, waiters)
  end.

(** ** Threads *)

Inductive request :=
  | EnterRequest (trylock : bool)
  | ExitRequest
  | WaitRequest (ms ns : Z) (interruptShouldThrow : bool) (why : ThreadState)
  | NotifyRequest (all : bool)
  | HashRequest
  | OwnerRequest
  | ReadBarrierRequest (expected_rb_state rb_state : Z)
  | MarkBitRequest (expected_mark_bit mark_bit : Z).

Definition body (r : request) (self contention_count : Z) : prog control :=
  match r with
  | EnterRequest trylock => MonitorEnter self trylock contention_count
  | ExitRequest => MonitorExit self
  | WaitRequest ms ns should_throw why => Wait self ms ns should_throw why
  | NotifyRequest all => DoNotify self all
  | HashRequest => IdentityHashCode self
  | OwnerRequest => GetLockOwnerThreadId
  | ReadBarrierRequest expected rb_state => AtomicSetReadBarrierState expected rb_state
  | MarkBitRequest expected mark_bit => AtomicSetMarkBit expected mark_bit
  end.

(** The state of the collector changes in the words of objects only with read barriers. *)
Definition valid_request (r : request) : Prop :=
  match r with
  | ReadBarrierRequest expected b | MarkBitRequest expected b => gUseReadBarrier = true /\ 0 <= expected < 2 /\ 0 <= b < 2
  | _ => True
  end.

(** [held] counts the MonitorEnter calls of a thread that returned the object, less its MonitorExit
    calls that returned true; [hashes] has the hash codes that were returned. *)
Record config := Config {
  memory : world;
  calls : gmap Z (request * prog control);
  held : gmap Z Z;
  hashes : list Z }.

Definition held_by (c : config) (t : Z) : Z := default 0 (held c !! t).

Definition held_after (r : request) (v : result) (n : Z) : Z :=
  match r, v with
  | EnterRequest _, RTrue => n + 1
  | ExitRequest, RTrue => n - 1
  | _, _ => n
  end.

Definition log_hash (v : result) (l : list Z) : list Z := match v with RHash h => h :: l | _ => l end.

Inductive step : config -> config -> Prop :=
  | step_call w calls held hashes t r :
      0 < t <= kThinLockMaxOwner -> valid_request r -> calls !! t = None -> is_suspended w t = false ->
      step (Config w calls held hashes) (Config (with_runnable ({[t]} ∪ runnable w) w) (<[t := (r, body r t 0)]> calls) held hashes)
  | step_act w calls held hashes t r (X : Set) (a : world -> Z -> outcome X) k choice x w' :
      calls !! t = Some (r, Act a k) -> a w choice = Done x w' ->
      step (Config w calls held hashes) (Config w' (<[t := (r, k x)]> calls) held hashes)
  | step_again w calls held hashes t r contention_count :
      calls !! t = Some (r, Ret (Again contention_count)) ->
      step (Config w calls held hashes) (Config w (<[t := (r, body r t contention_count)]> calls) held hashes)
  | step_return w calls held hashes t r v :
      calls !! t = Some (r, Ret (Return v)) ->
      step (Config w calls held hashes)
        (Config (with_runnable (runnable w ∖ {[t]}) w) (delete t calls) (<[t := held_after r v (default 0 (held !! t))]> held) (log_hash v hashes))
  | step_deflate w calls held hashes w' :
      runnable w = ∅ -> DeflateMonitors w = Some w' -> step (Config w calls held hashes) (Config w' calls held hashes)
  | step_interrupt w calls held hashes t :
      step (Config w calls held hashes) (Config (with_interrupted ({[t]} ∪ interrupted w) w) calls held hashes).

(** An object that is not locked; the state of the collector is [gc_state]. *)
Definition initial (gc_state seed : Z) : config :=
  Config (World (gc_state * 2 ^ 28) ∅ ∅ [] seed ∅ ∅ ∅ ∅ ∅ ∅ []) ∅ ∅ [].

Inductive reachable (gc_state seed : Z) : config -> Prop :=
  | reach_initial : reachable gc_state seed (initial gc_state seed)
  | reach_step c c' : reachable gc_state seed c -> step c c' -> reachable gc_state seed c'.

(** The steps as a function of the events that choose them. *)
Inductive event :=
  | Call (t : Z) (r : request)
  | Step (t choice : Z)
  | DeflateAll
  | Interrupt (t : Z).

Definition valid_requestb (r : request) : bool :=
  match r with
  | ReadBarrierRequest expected b | MarkBitRequest expected b => gUseReadBarrier && (0 <=? expected) && (expected <? 2) && (0 <=? b) && (b <? 2)
  | _ => true
  end.

Definition exec (c : config) (e : event) : option config :=
  let '(Config w calls held hashes) := c in
  match e with
  | Call t r =>
      match calls !! t with
      | Some _ => None
      | None =>
          if (0 <? t) && (t <=? kThinLockMaxOwner) && valid_requestb r && negb (is_suspended w t)
          then Some (Config (with_runnable ({[t]} ∪ runnable w) w) (<[t := (r, body r t 0)]> calls) held hashes) else None
      end
  | Step t choice =>
      match calls !! t with
      | None => None
      | Some (r, Act a k) => match a w choice with Done x w => Some (Config w (<[t := (r, k x)]> calls) held hashes) | _ => None end
      | Some (r, Ret (Again contention_count)) => Some (Config w (<[t := (r, body r t contention_count)]> calls) held hashes)
      | Some (r, Ret (Return v)) =>
          Some (Config (with_runnable (runnable w ∖ {[t]}) w) (delete t calls) (<[t := held_after r v (default 0 (held !! t))]> held) (log_hash v hashes))
      end
  | DeflateAll => if bool_decide (runnable w = ∅) then w ← DeflateMonitors w; Some (Config w calls held hashes) else None
  | Interrupt t => Some (Config (with_interrupted ({[t]} ∪ interrupted w) w) calls held hashes)
  end.

Fixpoint exec_all (es : list event) (c : config) : option config :=
  match es with [] => Some c | e :: es => c ← exec c e; exec_all es c end.

Lemma exec_step c e c' : exec c e = Some c' -> step c c'.
Proof.
  destruct c as [w calls held hashes]. cbn [exec]. destruct e as [t r|t choice| |t].
  - destruct (calls !! t) eqn:Ec; [done|]. destruct ((0 <? t) && (t <=? kThinLockMaxOwner) && valid_requestb r && negb (is_suspended w t)) eqn:E; [|done]. intros [= <-].
    rewrite !andb_true_iff, Z.ltb_lt, Z.leb_le, negb_true_iff in E. destruct E as [[[H1 H2] H3] H4]. constructor; try done. destruct r; cbn in *; try done;
    rewrite !andb_true_iff, !Z.leb_le, !Z.ltb_lt in H3; destruct gUseReadBarrier; split_and!; lia || tauto.
  - destruct (calls !! t) as [[r [[n|v]|X a k]]|] eqn:Ec; [| | |done].
    + intros [= <-]. by apply step_again.
    + intros [= <-]. by apply step_return.
    + destruct (a w choice) as [x w'| |] eqn:Ea; try done. intros [= <-]. by apply (step_act w calls held hashes t r X a k choice).
  - destruct (bool_decide_reflect (runnable w = ∅)) as [Hr|]; [|done]. destruct (DeflateMonitors w) as [w'|] eqn:Ed; [|done]. cbn. intros [= <-]. by apply step_deflate.
  - intros [= <-]. apply step_interrupt.
Qed.

Lemma exec_all_reachable gc_state seed es c c' : reachable gc_state seed c -> exec_all es c = Some c' -> reachable gc_state seed c'.
Proof.
  revert c. induction es as [|e es IH]; intros c Hc; cbn [exec_all]; [by intros [= <-]|]. destruct (exec c e) as [c1|] eqn:E; [|done]. cbn. apply IH.
  econstructor; [done|]. by eapply exec_step.
Qed.
End monitor.
