(* ===== verification/MonitorQueues.v ===== *)
(** The wait set and the wake set of a monitor: lists of threads that are linked by wait_next, as the functions of
    Monitor.v on them see them, and what these functions do to the lists. *)
From S2P Require Import Prelude Monitor.

(** ** Linked lists of threads *)

Fixpoint chain (next : gmap Z Z) (head : option Z) (l : list Z) : Prop :=
  match l with
  | [] => head = None
  | x :: l => head = Some x /\ chain next (next !! x) l
  end.

Lemma chain_unique next head l l' : chain next head l -> chain next head l' -> l = l'.
Proof.
  revert head l'. induction l as [|x l IH]; intros head [|y l']; cbn [chain]; [done|intros -> [? _]; done|intros [-> _] ?; done|].
  intros [-> H] [[= <-] H']. f_equal. by eapply IH.
Qed.

Lemma chain_ext next next' head l : (forall x, x ∈ l -> next' !! x = next !! x) -> chain next head l -> chain next' head l.
Proof.
  revert head. induction l as [|x l IH]; intros head He; cbn [chain]; [done|]. intros [-> H]. split; [done|].
  rewrite He by left. apply IH; [|done]. intros y Hy. apply He. by right.
Qed.

(** All threads of a list but the last one have a next thread. *)
Lemma chain_length next head l : chain next head l -> NoDup l -> (length l <= S (size next))%nat.
Proof.
  intros H Hn. destruct l as [|x l]; [cbn; lia|].
  assert (forall h k, chain next h k -> NoDup k -> (length (List.removelast k) <= size next)%nat) as Hr.
  { clear. intros h k H Hn. rewrite <- (size_dom (D := gset Z)). transitivity (size (list_to_set (List.removelast k) : gset Z)).
    - rewrite size_list_to_set; [done|]. revert Hn. clear. induction k as [|a k IH]; [done|]. intros Hn. inversion Hn; subst. destruct k as [|b k]; [constructor|].
      change (List.removelast (a :: b :: k)) with (a :: List.removelast (b :: k)). constructor; [|by apply IH].
      intros Hin. apply list_elem_of_In in Hin. match goal with H : a ∉ b :: k |- _ => apply H end. apply list_elem_of_In.
      rewrite (List.app_removelast_last 0 (l := b :: k)) by done. apply in_or_app. by left.
    - apply subseteq_size. intros y. rewrite elem_of_list_to_set, elem_of_dom. revert h H. clear. induction k as [|a k IH]; intros h H Hin; [by apply elem_of_nil in Hin|].
      destruct k as [|b k]; [by apply elem_of_nil in Hin|]. change (List.removelast (a :: b :: k)) with (a :: List.removelast (b :: k)) in Hin. destruct H as [-> H].
      apply elem_of_cons in Hin as [->|Hin]; [destruct H as [-> _]; eauto|by eapply IH]. }
  specialize (Hr head (x :: l) H Hn). rewrite (List.app_removelast_last 0 (l := x :: l)) by done. rewrite length_app. cbn [length]. lia.
Qed.

Lemma last_waiter_spec fuel next x l : chain next (Some x) l -> (length l <= S fuel)%nat -> exists k y, l = k ++ [y] /\ last_waiter fuel next x = Some y.
Proof.
  revert x l. induction fuel as [|fuel IH]; intros x l H Hl; (destruct l as [|x' l]; [done|]); destruct H as [[= <-] H]; cbn [length] in Hl.
  - destruct l; [|cbn in Hl; lia]. cbn [chain] in H. exists [], x. cbn [last_waiter]. by rewrite H.
  - cbn [last_waiter]. destruct l as [|z l]; cbn [chain] in H; [rewrite H; by exists [], x|]. destruct H as [E H]. rewrite E.
    destruct (IH z (z :: l)) as (k & y & -> & Ey); [by split|cbn in *; lia|]. by exists (x :: k), y.
Qed.

Lemma chain_app next head l x : chain next head (l ++ [x]) -> next !! x = None.
Proof. revert head. induction l as [|y l IH]; intros head; cbn [app chain]; [by intros [_ ?]|]. intros [_ H]. by eapply IH. Qed.

Lemma set_next_lookup t v next x : set_next t v next !! x = if decide (x = t) then v else next !! x.
Proof. unfold set_next. destruct (decide (x = t)) as [->|Hne]; [apply lookup_partial_alter_eq|by apply lookup_partial_alter_ne]. Qed.

(** Joining a list to another one. *)
Lemma chain_join next head k y h l : chain next head (k ++ [y]) -> NoDup ((k ++ [y]) ++ l) -> chain next h l -> chain (set_next y h next) head ((k ++ [y]) ++ l).
Proof.
  revert head. induction k as [|x k IH]; intros head; cbn [app chain].
  - intros [-> _] Hn H. split; [done|]. rewrite set_next_lookup, decide_True by done. inversion Hn; subst. eapply chain_ext; [|exact H].
    intros z Hz. rewrite set_next_lookup, decide_False; [done|]. congruence.
  - intros [-> H1] Hn H. inversion Hn as [|? ? Hx Hn']; subst. split; [done|]. rewrite set_next_lookup, decide_False; [by apply IH|].
    intros ->. apply Hx. apply elem_of_app. left. apply elem_of_app. right. left.
Qed.

Lemma Append_spec next head l t : chain next head l -> NoDup (l ++ [t]) -> next !! t = None ->
  exists next' head', AppendToWaitSet t next head = Some (next', head') /\ chain next' head' (l ++ [t]) /\ forall y, y ∉ l -> next' !! y = next !! y.
Proof.
  intros H Hn Ht. unfold AppendToWaitSet. pose proof Hn as Hn'. apply NoDup_app in Hn' as (Hl & _ & _). destruct l as [|x l].
  - cbn [chain] in H. subst head. exists next, (Some t). by split_and!.
  - destruct H as [-> H]. pose proof (chain_length next (Some x) (x :: l) ltac:(by split) Hl) as Hlen.
    destruct (last_waiter_spec (size next) next x (x :: l) ltac:(by split) Hlen) as (k & y & E & ->). cbn [mbind option_bind]. eexists _, _. split; [done|].
    rewrite E in *. split.
    + apply chain_join; [by rewrite <- E|done|]. by split.
    + intros z Hz. rewrite set_next_lookup, decide_False; [done|]. intros ->. apply Hz, elem_of_app. right. left.
Qed.

Lemma remove_after_spec fuel thread next t l : chain next (Some t) (t :: l) -> NoDup (t :: l) -> t <> thread -> (length (t :: l) <= S fuel)%nat ->
  exists next', remove_after fuel thread next t = Some (bool_decide (thread ∈ l), next') /\
    chain next' (Some t) (filter (fun x => x <> thread) (t :: l)) /\ (forall y, y ∉ t :: l -> next' !! y = next !! y) /\ (thread ∈ l -> next' !! thread = None) /\
    (thread ∉ l -> next' = next).
Proof.
  revert t l. induction fuel as [|fuel IH]; intros t l [_ H] Hn Ht Hl; (destruct l as [|n l]; [|cbn [length] in Hl]; cbn [chain] in H).
  1, 3: exists next; cbn [remove_after]; rewrite H, bool_decide_eq_false_2 by apply not_elem_of_nil; split; [done|]; rewrite filter_cons_True by done; split_and!; [by split|done|intros Hx; by apply elem_of_nil in Hx|done].
  { lia. }
  destruct H as [E H]. cbn [remove_after]. rewrite E. inversion Hn as [|? ? Hx Hn']; subst. destruct (Z.eqb_spec n thread) as [->|Hne].
  - rewrite bool_decide_eq_true_2 by left. inversion Hn' as [|? ? Hx' Hn'']; subst. eexists. split; [done|].
    assert (filter (fun x => x <> thread) (t :: thread :: l) = t :: l) as ->.
    { rewrite filter_cons_True, filter_cons_False by (done || by intros []). f_equal. apply filter_all. intros y Hy ->. done. }
    split_and!.
    + split; [done|]. rewrite !set_next_lookup, decide_False, decide_True by done. eapply chain_ext; [|exact H].
      intros y Hy. rewrite !set_next_lookup, !decide_False; [done|intros ->; apply Hx; by right|congruence].
    + intros y Hy. rewrite !set_next_lookup, !decide_False; [done|intros ->; apply Hy; left|intros ->; apply Hy; right; left].
    + intros _. by rewrite set_next_lookup, decide_True.
    + intros Hnot. exfalso. apply Hnot. left.
  - destruct (IH n l) as (next' & -> & C & Ho & Hr & Hs); [by split|done|done|cbn [length]; lia|]. exists next'.
    assert (bool_decide (thread ∈ n :: l) = bool_decide (thread ∈ l)) as -> by (apply bool_decide_ext; rewrite elem_of_cons; intuition congruence).
    split; [done|]. split_and!.
    + rewrite filter_cons_True by done. split; [done|]. rewrite Ho, E by done. done.
    + intros y Hy. apply Ho. intros Hin. apply Hy. by right.
    + intros Hin. apply Hr. apply elem_of_cons in Hin as [|]; [congruence|done].
    + intros Hin. apply Hs. intros ?. apply Hin. by right.
Qed.

Lemma remove_from_spec thread next head l : chain next head l -> NoDup l ->
  exists next' head', remove_from thread next head = Some (bool_decide (thread ∈ l), next', head') /\ chain next' head' (filter (fun x => x <> thread) l) /\
    (forall y, y ∉ l -> next' !! y = next !! y) /\ (thread ∈ l -> next' !! thread = None) /\ (thread ∉ l -> next' = next).
Proof.
  intros H Hn. unfold remove_from. destruct l as [|t l]; cbn [chain] in H.
  { subst head. exists next, None. rewrite bool_decide_eq_false_2 by apply not_elem_of_nil. split_and!; try done. intros Hx. by apply elem_of_nil in Hx. }
  destruct H as [-> H]. inversion Hn as [|? ? Hx Hn']; subst. destruct (Z.eqb_spec t thread) as [->|Hne].
  - rewrite bool_decide_eq_true_2 by left. eexists _, _. split; [done|]. rewrite filter_cons_False by (by intros []).
    rewrite (filter_all _ l) by (intros y Hy ->; done). split_and!.
    + eapply chain_ext; [|exact H]. intros y Hy. rewrite set_next_lookup, decide_False; [done|]. congruence.
    + intros y Hy. rewrite set_next_lookup, decide_False; [done|]. intros ->. apply Hy. left.
    + intros _. by rewrite set_next_lookup, decide_True.
    + intros Hnot. exfalso. apply Hnot. left.
  - pose proof (chain_length next (Some t) (t :: l) ltac:(by split) Hn) as Hlen.
    destruct (remove_after_spec (size next) thread next t l ltac:(by split) Hn Hne Hlen) as (next' & -> & C & Ho & Hr & Hs). cbn [mbind option_bind].
    eexists _, _. split; [|split; [exact C|split_and!; [done|..]]].
    + do 3 f_equal. apply bool_decide_ext. rewrite elem_of_cons. intuition congruence.
    + intros Hin. apply Hr. apply elem_of_cons in Hin as [|]; [congruence|done].
    + intros Hin. apply Hs. intros ?. apply Hin. by right.
Qed.

(** The threads at the front of the wake set that stopped waiting are removed, and the first one that waits is signalled. *)
Lemma signal_waiter_spec fuel still next head l : chain next head l -> NoDup l -> (length l <= fuel)%nat ->
  exists next' head' thread gone l', signal_waiter fuel still next head = Some (next', head', thread) /\
    l = gone ++ l' /\ chain next' head' l' /\ (forall y, next' !! y = if decide (y ∈ gone) then None else next !! y) /\
    match thread with
    | Some t => exists quit, gone = quit ++ [t] /\ is_Some (still !! t) /\ Forall (fun t => still !! t = None) quit
    | None => l' = [] /\ Forall (fun t => still !! t = None) gone
    end.
Proof.
  revert next head l. induction fuel as [|fuel IH]; intros next head l H Hn Hl; (destruct l as [|t l]; cbn [chain] in H;
    [subst head; exists next, None, None, [], []; split_and!; try done; intros y; rewrite decide_False by apply not_elem_of_nil; done|]); cbn [length] in Hl; [lia|].
  destruct H as [-> H]; inversion Hn as [|? ? Hx Hn']; subst; cbn [signal_waiter].
  assert (forall y, set_next t None next !! y = (if decide (y ∈ [t]) then None else next !! y)) as Hset.
  { intros y; rewrite set_next_lookup; destruct (decide (y = t)) as [->|]; [by rewrite decide_True by left|rewrite decide_False; [done|by rewrite list_elem_of_singleton]]. }
  assert (chain (set_next t None next) (next !! t) l) as H'.
  { eapply chain_ext; [|exact H]. intros y Hy. rewrite set_next_lookup, decide_False; [done|congruence]. }
  destruct (bool_decide_reflect (is_Some (still !! t))) as [Hv|Hv].
  - exists (set_next t None next), (next !! t), (Some t), [t], l. split_and!; try done. by exists [].
  - rewrite <- eq_None_not_Some in Hv. destruct (IH _ _ l H' Hn' ltac:(lia)) as (next' & head' & thread & gone & l' & -> & -> & C & He & Ht).
    exists next', head', thread, (t :: gone), l'. split_and!; try done.
    + intros y. rewrite He, set_next_lookup. destruct (decide (y ∈ gone)); [by rewrite decide_True by (by right)|].
      destruct (decide (y = t)) as [->|]; [by rewrite decide_True by left|]. rewrite decide_False; [done|]. by rewrite elem_of_cons; intros [|].
    + destruct thread as [t'|]; [destruct Ht as (quit & -> & Hs & Hq); exists (t :: quit); split_and!; try done; by constructor|].
      destruct Ht as [-> Hq]. split; [done|]. by constructor.
Qed.

Lemma waiters_from_spec fuel next head l : chain next head l -> (length l <= fuel)%nat -> waiters_from fuel next head = Some l.
Proof.
  revert head l. induction fuel as [|fuel IH]; intros head [|t l] H Hl; cbn [chain length waiters_from] in *; [by subst|lia|by subst|].
  destruct H as [-> H]. by rewrite (IH _ l) by (done || lia).
Qed.

(** The two lists of a monitor; only their threads have a next thread. *)
Record queues (next : gmap Z Z) (wait wake : option Z) (ws ks : list Z) : Prop := {
  queue_wait : chain next wait ws;
  queue_wake : chain next wake ks;
  queue_NoDup : NoDup (ws ++ ks);
  queue_next : forall t, is_Some (next !! t) -> t ∈ ws ++ ks }.

Lemma queues_none next wait wake ws ks t : queues next wait wake ws ks -> t ∉ ws ++ ks -> next !! t = None.
Proof. intros Q Ht. destruct (next !! t) eqn:E; [|done]. exfalso. apply Ht, (queue_next _ _ _ _ _ Q). eauto. Qed.

Lemma queues_append next wait wake ws ks t : queues next wait wake ws ks -> t ∉ ws ++ ks ->
  exists next' wait', AppendToWaitSet t next wait = Some (next', wait') /\ queues next' wait' wake (ws ++ [t]) ks.
Proof.
  intros Q Ht. pose proof (queue_NoDup _ _ _ _ _ Q) as Hn. apply NoDup_app in Hn as (Hw & Hd & Hk). rewrite not_elem_of_app in Ht. destruct Ht as [Htw Htk].
  assert (NoDup (ws ++ [t])) as Hn' by (apply NoDup_app; split_and!; [done|intros x Hx; rewrite list_elem_of_singleton; congruence|apply NoDup_singleton]).
  destruct (Append_spec next wait ws t (queue_wait _ _ _ _ _ Q) Hn') as (next' & wait' & E & C & Ho).
  { eapply queues_none; [done|]. rewrite not_elem_of_app. done. }
  exists next', wait'. split; [done|]. constructor; [done| | |].
  - eapply chain_ext; [|apply Q]. intros y Hy. apply Ho. intros ?. by apply (Hd y).
  - apply NoDup_app. split_and!; [done| |done]. intros x Hx. apply elem_of_app in Hx as [Hx|Hx]; [by apply Hd|]. apply list_elem_of_singleton in Hx as ->. done.
  - intros y Hy. destruct (decide (y ∈ ws)) as [Hin|Hnot]; [apply elem_of_app; left; apply elem_of_app; by left|]. rewrite Ho in Hy by done.
    apply (queue_next _ _ _ _ _ Q) in Hy. apply elem_of_app in Hy as [|]; [done|]. apply elem_of_app. by right.
Qed.

Lemma queues_remove next wait wake ws ks t : queues next wait wake ws ks ->
  exists next' wait' wake', RemoveFromWaitSet t next wait wake = Some (next', wait', wake') /\
    queues next' wait' wake' (filter (fun x => x <> t) ws) (filter (fun x => x <> t) ks).
Proof.
  intros Q. pose proof (queue_NoDup _ _ _ _ _ Q) as Hn. pose proof Hn as Hn0. apply NoDup_app in Hn as (Hw & Hd & Hk). unfold RemoveFromWaitSet.
  assert (NoDup (filter (fun x => x <> t) ws ++ filter (fun x => x <> t) ks)) as HN by (rewrite <- filter_app; by apply NoDup_filter).
  destruct (remove_from_spec t next wait ws (queue_wait _ _ _ _ _ Q) Hw) as (next1 & wait1 & -> & C1 & O1 & R1 & S1). cbn [mbind option_bind].
  destruct (bool_decide_reflect (t ∈ ws)) as [Hin|Hout].
  - exists next1, wait1, wake. split; [done|]. assert (t ∉ ks) as Htk by (by apply Hd). rewrite (filter_all _ ks) in HN |- * by (intros x Hx ->; done).
    constructor; [done| |done|].
    + eapply chain_ext; [|apply Q]. intros y Hy. apply O1. intros ?. by apply (Hd y).
    + intros y Hy. destruct (decide (y = t)) as [->|Hne]; [rewrite R1 in Hy by done; by destruct Hy|]. rewrite elem_of_app, list_elem_of_filter.
      destruct (decide (y ∈ ws)); [by left|]. rewrite O1 in Hy by done. apply (queue_next _ _ _ _ _ Q) in Hy. apply elem_of_app in Hy as [|]; [done|by right].
  - rewrite (S1 Hout) in *. destruct (remove_from_spec t next wake ks (queue_wake _ _ _ _ _ Q) Hk) as (next2 & wake2 & -> & C2 & O2 & R2 & S2). cbn [mbind option_bind].
    exists next2, wait1, wake2. split; [done|]. constructor; [|done|done|].
    + eapply chain_ext; [|exact C1]. intros y Hy. apply list_elem_of_filter in Hy as [_ Hy]. apply O2. by apply Hd.
    + intros y Hy. rewrite elem_of_app, !list_elem_of_filter. destruct (decide (y = t)) as [->|Hne].
      * destruct (decide (t ∈ ks)); [rewrite R2 in Hy by done; by destruct Hy|]. rewrite S2 in Hy by done. apply (queue_next _ _ _ _ _ Q) in Hy. apply elem_of_app in Hy as [|]; done.
      * destruct (decide (y ∈ ks)); [by right|]. rewrite O2 in Hy by done. apply (queue_next _ _ _ _ _ Q) in Hy. apply elem_of_app in Hy as [|]; [by left|done].
Qed.

Lemma queues_signal still next wait wake ws ks : queues next wait wake ws ks ->
  exists next' wake' thread gone ks', signal_waiter (S (size next)) still next wake = Some (next', wake', thread) /\ ks = gone ++ ks' /\
    queues next' wait wake' ws ks' /\
    match thread with
    | Some t => exists quit, gone = quit ++ [t] /\ is_Some (still !! t) /\ Forall (fun t => still !! t = None) quit
    | None => ks' = [] /\ Forall (fun t => still !! t = None) gone
    end.
Proof.
  intros Q. pose proof (queue_NoDup _ _ _ _ _ Q) as Hn. apply NoDup_app in Hn as (Hw & Hd & Hk).
  destruct (signal_waiter_spec (S (size next)) still next wake ks (queue_wake _ _ _ _ _ Q) Hk) as (next' & wake' & thread & gone & ks' & E & -> & C & He & Ht).
  { eapply chain_length; [apply Q|done]. }
  exists next', wake', thread, gone, ks'. split_and!; [done|done| |done]. constructor; [|done| |].
  - eapply chain_ext; [|apply Q]. intros y Hy. rewrite He, decide_False; [done|]. intros ?. apply (Hd y); [done|]. apply elem_of_app. by left.
  - apply NoDup_app. split_and!; [done| |by apply NoDup_app in Hk as (_ & _ & ?)]. intros x Hx Hin. apply (Hd x Hx), elem_of_app. by right.
  - intros y Hy. rewrite He in Hy. destruct (decide (y ∈ gone)); [by destruct Hy|]. apply (queue_next _ _ _ _ _ Q) in Hy. rewrite !elem_of_app in *. tauto.
Qed.

Lemma queues_notify_one next wait wake ws ks : queues next wait wake ws ks ->
  let '(next', wait', wake') := notify_one next wait wake in queues next' wait' wake' (tail ws) (take 1 ws ++ ks).
Proof.
  intros Q. pose proof (queue_wait _ _ _ _ _ Q) as Cw. unfold notify_one. destruct ws as [|t ws]; cbn [chain] in Cw; [subst wait; exact Q|]. destruct Cw as [-> Cw].
  pose proof (queue_NoDup _ _ _ _ _ Q) as Hn. cbn [app] in Hn. inversion Hn as [|? ? Hx Hn']; subst. rewrite not_elem_of_app in Hx. destruct Hx as [Hx1 Hx2]. cbn [tail take app]. rewrite take_0. constructor.
  - eapply chain_ext; [|exact Cw]. intros y Hy. rewrite set_next_lookup, decide_False; [done|]. by intros ->.
  - split; [done|]. rewrite set_next_lookup, decide_True by done. eapply chain_ext; [|apply Q]. intros y Hy. rewrite set_next_lookup, decide_False; [done|]. by intros ->.
  - cbn [app]. by rewrite <- Permutation_middle.
  - intros y Hy. cbn [app]. rewrite <- Permutation_middle. rewrite set_next_lookup in Hy. destruct (decide (y = t)) as [->|]; [left|]. by apply (queue_next _ _ _ _ _ Q).
Qed.

Lemma queues_notify_all next wait wake ws ks : queues next wait wake ws ks ->
  exists next' wait' wake', notify_all next wait wake = Some (next', wait', wake') /\ queues next' wait' wake' [] (ks ++ ws).
Proof.
  intros Q. pose proof (queue_wait _ _ _ _ _ Q) as Cw. unfold notify_all. destruct ws as [|t ws]; cbn [chain] in Cw.
  { subst wait. eexists _, _, _. split; [done|]. by rewrite app_nil_r. }
  destruct Cw as [-> Cw]. pose proof (queue_NoDup _ _ _ _ _ Q) as Hn. rewrite Permutation_app_comm in Hn.
  pose proof (queue_wake _ _ _ _ _ Q) as Ck. destruct ks as [|k ks]; cbn [chain] in Ck.
  { subst wake. eexists _, _, _. split; [done|]. constructor; [done|apply Q|done|]. intros y Hy. apply (queue_next _ _ _ _ _ Q) in Hy. by rewrite app_nil_r in Hy. }
  destruct Ck as [-> Ck]. pose proof Hn as Hn'. apply NoDup_app in Hn' as (Hk & _ & _).
  destruct (last_waiter_spec (size next) next k (k :: ks) ltac:(by split) (chain_length next (Some k) (k :: ks) ltac:(by split) Hk)) as (l & y & E & ->). cbn [mbind option_bind].
  eexists _, _, _. split; [done|]. rewrite E in *. constructor; [done| |done|].
  - apply chain_join; [rewrite <- E; by split|done|by split].
  - intros z Hz. cbn [app]. rewrite set_next_lookup in Hz. rewrite Permutation_app_comm. destruct (decide (z = y)) as [->|]; [|by apply (queue_next _ _ _ _ _ Q)].
    apply elem_of_app. right. apply elem_of_app. right. left.
Qed.

(** C31: The wait set and the wake set of a monitor are two lists of threads through wait_next. If a thread has a next thread only in one of them, then
    AppendToWaitSet adds a thread at the end of the wait set; RemoveFromWaitSet removes it from either set; Notify moves the first waiter to the front of the
    wake set; NotifyAll moves all waiters to the end of the wake set in their order; SignalWaiterAndReleaseMonitorLock drops the threads of the wake set that stopped
    waiting up to the first one that still waits, which it signals; and the loops end. MonitorInfo lists the wait set. *)
Theorem Monitor_wait_sets next wait wake ws ks : queues next wait wake ws ks ->
  (forall t, t ∉ ws ++ ks -> exists next' wait', AppendToWaitSet t next wait = Some (next', wait') /\ queues next' wait' wake (ws ++ [t]) ks) /\
  (forall t, exists next' wait' wake', RemoveFromWaitSet t next wait wake = Some (next', wait', wake') /\
     queues next' wait' wake' (filter (fun x => x <> t) ws) (filter (fun x => x <> t) ks)) /\
  (let '(next', wait', wake') := notify_one next wait wake in queues next' wait' wake' (tail ws) (take 1 ws ++ ks)) /\
  (exists next' wait' wake', notify_all next wait wake = Some (next', wait', wake') /\ queues next' wait' wake' [] (ks ++ ws)) /\
  (forall still, exists next' wake' thread gone ks', signal_waiter (S (size next)) still next wake = Some (next', wake', thread) /\ ks = gone ++ ks' /\
     queues next' wait wake' ws ks' /\
     match thread with
     | Some t => exists quit, gone = quit ++ [t] /\ is_Some (still !! t) /\ Forall (fun t => still !! t = None) quit
     | None => ks' = [] /\ Forall (fun t => still !! t = None) gone
     end) /\
  waiters_from (S (size next)) next wait = Some ws.
Proof.
  intros Q. split_and!.
  - intros t. by apply queues_append.
  - intros t. by apply queues_remove.
  - by apply queues_notify_one.
  - by apply queues_notify_all.
  - intros still. by apply queues_signal.
  - apply waiters_from_spec; [apply Q|]. eapply chain_length; [apply Q|]. pose proof (queue_NoDup _ _ _ _ _ Q) as Hn. by apply NoDup_app in Hn as (Hn & _).
Qed.

Lemma sample_queues : queues (<[1 := 2]> {[2 := 3]}) (Some 1) (Some 4) [1; 2; 3] [4].
Proof.
  constructor; [by vm_compute|by vm_compute| |].
  - apply (bool_decide_unpack _). by vm_compute.
  - intros t [x Hx]. apply lookup_insert_Some in Hx as [[<- _]|[_ Hx]]; [left|]. apply lookup_singleton_Some in Hx as [<- _]. right. left.
Qed.

Lemma Monitor_wait_sets_witness : waiters_from 3 (<[1 := 2]> {[2 := 3]}) (Some 1) = Some [1; 2; 3].
Proof. destruct (Monitor_wait_sets _ _ _ _ _ sample_queues) as (_ & _ & _ & _ & _ & H). exact H. Defined.
