(* ===== verification/MonitorProtocol.v ===== *)
(** Correctness of the object locks of Monitor.v.

    The proof is by rely and guarantee: [inv] holds of the memory after every action, [rely t] is what the
    actions of the other threads keep true for the thread [t], and [safe t p Q] says that the program [p] run
    by [t] keeps the invariant and what the others rely on, is [Fatal] only for lack of a resource, and ends with [Q]. *)
From S2P Require Import Prelude BitUtils LockWord Monitor MonitorQueues.

Create HintDb stable.

Section protocol.
Context (gUseReadBarrier gUseUserfaultfd : bool).
Abbreviation gc_state_used := (gUseReadBarrier || gUseUserfaultfd).

(** ** The invariant *)

Definition view (w : world) : contents :=
  let v := lock_word w in
  match GetState gc_state_used v with
  | kUnlocked | kForwardingAddress => Unlocked
  | kThinLocked => Thin (ThinLockOwner v) (ThinLockCount v)
  | kFatLocked => Fat (FatLockMonitor v)
  | kHashCode => Hash (LockWord.GetHashCode v)
  end.

Definition gc_ok (g : Z) : Prop := 0 <= g < 4 /\ (gc_state_used = false -> g = 0).

Definition word_ok (v : Z) (c : contents) : Prop := exists g, v = encode c g /\ valid_contents c /\ gc_ok g.

Lemma word_state v c : word_ok v c -> GetState gc_state_used v = state_of c.
Proof. intros (g & -> & Hc & Hg & Hu). by apply GetState_encode. Qed.

Lemma word_view w c : word_ok (lock_word w) c -> view w = c.
Proof.
  intros Hw. unfold view. rewrite (word_state _ _ Hw). destruct Hw as (g & -> & Hc & Hg & Hu). pose proof (read_encode c g Hc Hg) as Hr.
  destruct c; cbn [state_of]; [done|by destruct Hr as [-> ->]|by rewrite Hr|by rewrite Hr].
Qed.

(** The recursion count of the lock, if [t] has it. *)
Definition mine (t : Z) (w : world) : option Z :=
  match view w with
  | Thin o n => if o =? t then Some n else None
  | Fat id => m ← monitors w !! id; if bool_decide (monitor_lock_ m = Some t) then Some (lock_count_ m) else None
  | _ => None
  end.

Definition hash_of (w : world) : option Z :=
  match view w with
  | Hash h => Some h
  | Fat id => m ← monitors w !! id; if hash_code_ m =? 0 then None else Some (hash_code_ m)
  | _ => None
  end.

Record monitor_ok (id : Z) (m : Monitor) (next : gmap Z Z) (waiting : list (Z * Z)) : Prop := {
  ok_owner : forall t, owner_ m = Some t -> monitor_lock_ m = Some t;
  ok_free : owner_ m = None -> lock_count_ m = 0;
  ok_count : 0 <= lock_count_ m < 2 ^ 32;
  ok_hash : 0 <= hash_code_ m <= kMaxHash;
  ok_waiters : num_waiters_ m = Z.of_nat (length waiting);
  ok_tokens : Forall (fun x => x.2 = id) waiting;
  ok_queues : exists ws ks, queues next (wait_set_ m) (wake_set_ m) ws ks /\ forall t, t ∈ ws ++ ks -> (t, id) ∈ waiting \/ monitor_lock_ m = Some t }.

Record inv (w : world) : Prop := {
  inv_word : word_ok (lock_word w) (view w);
  inv_hash : forall h, view w = Hash h -> h <> 0;
  inv_fat : forall id, view w = Fat id -> exists m, monitors w = {[id := m]} /\ monitor_ok id m (wait_next w) (waiting w);
  inv_thin : (forall id, view w <> Fat id) -> monitors w = ∅ /\ waiting w = [] /\ wait_next w = ∅;
  inv_suspended : forall t o, suspended_by w !! t = Some o -> o ∉ runnable w;
  inv_list : forall x, x ∈ list_ w -> view w = Fat x }.

Definition queued (t : Z) (w : world) : Prop :=
  exists id m ws ks, monitors w !! id = Some m /\ queues (wait_next w) (wait_set_ m) (wake_set_ m) ws ks /\ t ∈ ws ++ ks.

(** The owner of a monitor has stored itself in owner_. *)
Definition settled (t : Z) (w : world) : Prop := forall id m, monitors w !! id = Some m -> monitor_lock_ m = Some t -> owner_ m = Some t.

Lemma inv_monitor w id m : inv w -> monitors w !! id = Some m -> view w = Fat id /\ monitors w = {[id := m]} /\ monitor_ok id m (wait_next w) (waiting w).
Proof.
  intros H Hm. destruct (view w) as [|o n|id'|h] eqn:E.
  1, 2, 4: destruct (inv_thin _ H) as (E0 & _); [congruence|rewrite E0 in Hm; done].
  destruct (inv_fat _ H id' E) as (m' & E1 & Hok). rewrite E1 in Hm. apply lookup_singleton_Some in Hm as [-> ->]. done.
Qed.

Lemma view_frame w w' : lock_word w' = lock_word w -> view w' = view w.
Proof. unfold view. by intros ->. Qed.

(** ** What a thread relies on *)

Record rely (t : Z) (w w' : world) : Prop := {
  r_mine : mine t w' = mine t w;
  r_owner : forall id m, monitors w !! id = Some m -> monitor_lock_ m = Some t ->
    exists m', monitors w' !! id = Some m' /\ monitor_lock_ m' = Some t /\ owner_ m' = owner_ m;
  r_settled : settled t w -> settled t w';
  r_runnable : t ∈ runnable w' <-> t ∈ runnable w;
  r_suspended : suspended_by w' !! t = suspended_by w !! t;
  r_fat : t ∈ runnable w -> forall id, view w = Fat id -> view w' = Fat id;
  r_thin : t ∈ runnable w -> forall n, view w = Thin t n -> view w' = Thin t n /\ (gUseReadBarrier = false -> lock_word w' = lock_word w);
  r_hashed : t ∈ runnable w -> forall h, view w = Hash h -> view w' = Hash h \/ exists id, view w' = Fat id;
  r_victim : t ∈ runnable w -> forall o n, suspended_by w !! t = Some o -> view w = Thin o n -> view w' = Thin o n \/ exists id, view w' = Fat id;
  r_hash : forall h, hash_of w = Some h -> hash_of w' = Some h;
  r_waiting : filter (fun x => x.1 = t) (waiting w') = filter (fun x => x.1 = t) (waiting w);
  r_queued : ~ queued t w -> ~ queued t w' }.

Lemma rely_refl t w : rely t w w.
Proof. constructor; try done; eauto. Qed.

Lemma rely_trans t w1 w2 w3 : rely t w1 w2 -> rely t w2 w3 -> rely t w1 w3.
Proof.
  intros A B. pose proof (r_runnable _ _ _ A) as Hrun. constructor.
  - by rewrite (r_mine _ _ _ B), (r_mine _ _ _ A).
  - intros id m Hm Hl. destruct (r_owner _ _ _ A id m Hm Hl) as (m2 & Hm2 & Hl2 & E2). destruct (r_owner _ _ _ B id m2 Hm2 Hl2) as (m3 & Hm3 & Hl3 & E3).
    exists m3. split_and!; [done|done|congruence].
  - intros Hs. by apply (r_settled _ _ _ B), (r_settled _ _ _ A).
  - by rewrite (r_runnable _ _ _ B).
  - by rewrite (r_suspended _ _ _ B), (r_suspended _ _ _ A).
  - intros Hr id E. apply (r_fat _ _ _ B); [by apply Hrun|]. by apply (r_fat _ _ _ A).
  - intros Hr n E. destruct (r_thin _ _ _ A Hr n E) as [E2 W2]. destruct (r_thin _ _ _ B (proj2 Hrun Hr) n E2) as [E3 W3]. split; [done|]. intros Hb. rewrite W3, W2; done.
  - intros Hr h E. destruct (r_hashed _ _ _ A Hr h E) as [E2|(id & E2)]; [by apply (r_hashed _ _ _ B (proj2 Hrun Hr))|].
    right. exists id. by apply (r_fat _ _ _ B (proj2 Hrun Hr)).
  - intros Hr o n Hs E. destruct (r_victim _ _ _ A Hr o n Hs E) as [E2|(id & E2)].
    + apply (r_victim _ _ _ B (proj2 Hrun Hr)); [|done]. by rewrite (r_suspended _ _ _ A).
    + right. exists id. by apply (r_fat _ _ _ B (proj2 Hrun Hr)).
  - intros h E. by apply (r_hash _ _ _ B), (r_hash _ _ _ A).
  - by rewrite (r_waiting _ _ _ B), (r_waiting _ _ _ A).
  - intros Hq. by apply (r_queued _ _ _ B), (r_queued _ _ _ A).
Qed.

Definition guarantee (t : Z) (w w' : world) : Prop := forall t', t' <> t -> rely t' w w'.

(** ** Programs that keep the invariant *)

(** The CHECKs that can fail: a thread locks a monitor that it has locked 2 ^ 32 times, or there is no unused monitor. *)
Definition excused (t : Z) (w : world) (choice : Z) (why : failure) : Prop :=
  match why with
  | LockCountOverflow => exists id m, monitors w !! id = Some m /\ owner_ m = Some t /\ lock_count_ m = 2 ^ 32 - 1
  | OutOfMonitors => ~ (0 <= choice <= kMaxMonitorId)
  | CheckFailed => False
  end.

Fixpoint safe {R} (t : Z) (p : prog R) (Q : R -> world -> Prop) (w : world) : Prop :=
  match p with
  | Ret r => forall w', rely t w w' -> inv w' -> Q r w'
  | Act a k => forall w' choice, rely t w w' -> inv w' ->
      match a w' choice with
      | Done x w'' => inv w'' /\ guarantee t w' w'' /\ safe t (k x) Q w''
      | Blocked => True
      | Fatal why => excused t w' choice why
      end
  end.

Lemma safe_rely {R} t (p : prog R) Q w w' : safe t p Q w -> rely t w w' -> safe t p Q w'.
Proof.
  destruct p as [r|X a k]; cbn [safe]; intros Hs Hr.
  - intros w2 H2 Hi. apply Hs; [|done]. by eapply rely_trans.
  - intros w2 c H2 Hi. apply Hs; [|done]. by eapply rely_trans.
Qed.

Lemma safe_mono {R} t (p : prog R) (Q Q' : R -> world -> Prop) w : (forall r w, Q r w -> Q' r w) -> safe t p Q w -> safe t p Q' w.
Proof.
  intros HQ. revert w. induction p as [r|X a k IH]; intros w; cbn [safe]; intros Hs; [eauto|]. intros w' c Hr Hi. specialize (Hs w' c Hr Hi).
  destruct (a w' c); try done. destruct Hs as (H1 & H2 & H3). split_and!; [done|done|]. by apply IH.
Qed.

Lemma safe_bind {A B} t (p : prog A) (f : A -> prog B) Q w :
  safe t p (fun r w => safe t (f r) Q w) w -> safe t (prog_bind p f) Q w.
Proof.
  revert w. induction p as [r|X a k IH]; intros w; cbn [safe prog_bind]; intros Hs.
  - destruct (f r) as [r'|X a k] eqn:E; cbn [safe].
    + intros w' Hr Hi. specialize (Hs w' Hr Hi). cbn [safe] in Hs. apply Hs; [apply rely_refl|done].
    + intros w' c Hr Hi. specialize (Hs w' Hr Hi). cbn [safe] in Hs. apply Hs; [apply rely_refl|done].
  - intros w' c Hr Hi. specialize (Hs w' c Hr Hi). destruct (a w' c); try done. destruct Hs as (H1 & H2 & H3). split_and!; [done|done|]. by apply IH.
Qed.

Definition triple {R} (t : Z) (P : world -> Prop) (p : prog R) (Q : R -> world -> Prop) : Prop := forall w, P w -> safe t p Q w.
Definition stable (t : Z) (P : world -> Prop) : Prop := forall w w', P w -> inv w' -> rely t w w' -> P w'.

Lemma triple_act {X : Set} t P (a : world -> Z -> outcome X) Q :
  stable t P -> (forall x, stable t (Q x)) ->
  (forall w choice, inv w -> P w ->
     match a w choice with Done x w' => inv w' /\ guarantee t w w' /\ Q x w' | Blocked => True | Fatal why => excused t w choice why end) ->
  triple t P (act a) Q.
Proof.
  intros HP HQ Ha w Hw. cbn [act safe]. intros w' c Hr Hi. specialize (Ha w' c Hi (HP w w' Hw Hi Hr)). destruct (a w' c); try done.
  destruct Ha as (H1 & H2 & H3). split_and!; [done|done|]. intros w3 Hr3 Hi3. by apply (HQ x w0).
Qed.

Lemma triple_bind {A B} t P (p : prog A) (f : A -> prog B) Q Q' :
  triple t P p Q -> (forall r, triple t (Q r) (f r) Q') -> triple t P (p ≫= f) Q'.
Proof. intros Hp Hf w Hw. apply safe_bind. eapply safe_mono; [|by apply Hp]. intros r w' Hr. by apply Hf. Qed.

Lemma triple_ret {R} t (P : world -> Prop) (r : R) Q : stable t P -> (forall w, inv w -> P w -> Q r w) -> triple t P (Ret r) Q.
Proof. intros HP HQ w Hw w' Hr Hi. apply HQ; [done|]. by apply (HP w). Qed.

Lemma triple_mono {R} t (P P' : world -> Prop) (p : prog R) (Q Q' : R -> world -> Prop) :
  triple t P' p Q' -> (forall w, P w -> P' w) -> (forall r w, Q' r w -> Q r w) -> triple t P p Q.
Proof. intros Ht HP HQ w Hw. eapply safe_mono; [exact HQ|]. by apply Ht, HP. Qed.

Lemma triple_pure {R} t (P : world -> Prop) (F : Prop) (p : prog R) Q : (F -> triple t P p Q) -> triple t (fun w => F /\ P w) p Q.
Proof. intros Ht w [HF Hw]. by apply Ht. Qed.

(** What a thread knows of itself. *)
Record local (t : Z) (run : bool) (sus : option Z) (tokens : list (Z * Z)) (hold : option Z) (own quiet : bool) (w : world) : Prop := {
  l_run : t ∈ runnable w <-> run = true;
  l_sus : suspended_by w !! t = sus;
  l_tokens : filter (fun x => x.1 = t) (waiting w) = tokens;
  l_mine : mine t w = hold;
  l_own : own = true -> settled t w;
  l_quiet : quiet = true -> ~ queued t w }.

Lemma local_stable t run sus tokens hold own quiet : stable t (local t run sus tokens hold own quiet).
Proof.
  intros w w' L _ Hr. constructor.
  - rewrite (r_runnable _ _ _ Hr). apply L.
  - rewrite (r_suspended _ _ _ Hr). apply L.
  - rewrite (r_waiting _ _ _ Hr). apply L.
  - rewrite (r_mine _ _ _ Hr). apply L.
  - intros E. apply (r_settled _ _ _ Hr). by apply (l_own _ _ _ _ _ _ _ _ L).
  - intros E. apply (r_queued _ _ _ Hr). by apply (l_quiet _ _ _ _ _ _ _ _ L).
Qed.

Lemma stable_and t (P Q : world -> Prop) : stable t P -> stable t Q -> stable t (fun w => P w /\ Q w).
Proof. intros HP HQ w w' [Hp Hq] Hi Hr. split; [by apply (HP w)|by apply (HQ w)]. Qed.

Lemma stable_const t (F : Prop) : stable t (fun _ => F).
Proof. by intros w w' HF _ _. Qed.

(** A thread that runs sees a fat lock stay as it is. *)
Lemma stable_fat t sus tokens hold own quiet id : stable t (fun w => local t true sus tokens hold own quiet w /\ view w = Fat id).
Proof.
  intros w w' [L E] Hi Hr. split; [by eapply local_stable|]. apply (r_fat _ _ _ Hr); [|done]. by apply (l_run _ _ _ _ _ _ _ _ L).
Qed.

(** ** Actions *)

Lemma mine_frame t w w' : lock_word w' = lock_word w -> monitors w' = monitors w -> mine t w' = mine t w.
Proof. intros E1 E2. unfold mine. by rewrite (view_frame _ _ E1), E2. Qed.

Lemma hash_frame w w' : lock_word w' = lock_word w -> monitors w' = monitors w -> hash_of w' = hash_of w.
Proof. intros E1 E2. unfold hash_of. by rewrite (view_frame _ _ E1), E2. Qed.

(** Actions that change neither the lock nor the wait sets. *)
Record same_lock (w w' : world) : Prop := {
  same_word : lock_word w' = lock_word w;
  same_monitors : monitors w' = monitors w;
  same_waiting : waiting w' = waiting w;
  same_next : wait_next w' = wait_next w }.

Lemma frame_rely t w w' : same_lock w w' -> (t ∈ runnable w' <-> t ∈ runnable w) -> suspended_by w' !! t = suspended_by w !! t -> rely t w w'.
Proof.
  intros [E1 E2 E3 E4] Hr Hs. pose proof (view_frame _ _ E1) as Ev. constructor; try done.
  - by apply mine_frame.
  - intros id m Hm Hl. exists m. by rewrite E2.
  - unfold settled. by rewrite E2.
  - intros _ id. by rewrite Ev.
  - intros _ n. by rewrite Ev, E1.
  - intros _ h. rewrite Ev. by left.
  - intros _ o n _. rewrite Ev. by left.
  - intros h. by rewrite (hash_frame w w').
  - by rewrite E3.
  - unfold queued. by rewrite E2, E4.
Qed.

Lemma frame_inv w w' : inv w -> same_lock w w' -> (forall t o, suspended_by w' !! t = Some o -> o ∉ runnable w') ->
  (forall x, x ∈ list_ w' -> view w = Fat x) -> inv w'.
Proof.
  intros H [E1 E2 E3 E4] Hs Hl. pose proof (view_frame _ _ E1) as Ev. constructor; rewrite ?Ev, ?E1, ?E2, ?E3, ?E4; try apply H; done.
Qed.

Lemma frame_local t run run' sus sus' tokens hold own quiet w w' : local t run sus tokens hold own quiet w -> same_lock w w' ->
  (t ∈ runnable w' <-> run' = true) -> suspended_by w' !! t = sus' -> local t run' sus' tokens hold own quiet w'.
Proof.
  intros L [E1 E2 E3 E4] Hr Hs. constructor; [done|done|rewrite E3; apply L|rewrite (mine_frame t w w' E1 E2); apply L| |].
  - intros E. unfold settled. rewrite E2. by apply (l_own _ _ _ _ _ _ _ _ L).
  - intros E. unfold queued. rewrite E2, E4. by apply (l_quiet _ _ _ _ _ _ _ _ L).
Qed.

Lemma is_suspended_spec w t : is_suspended w t = true <-> exists x, suspended_by w !! x = Some t.
Proof.
  unfold is_suspended. rewrite existsb_exists. split.
  - intros ([x o] & Hin & E). apply Z.eqb_eq in E. cbn in E. subst o. exists x. by apply elem_of_map_to_list, list_elem_of_In.
  - intros (x & E). exists (x, t). split; [by apply list_elem_of_In, elem_of_map_to_list|]. apply Z.eqb_refl.
Qed.

(** A change of the lock word by the thread that may lock or owns the thin lock. *)
Lemma word_step t w v c :
  inv w -> t ∈ runnable w -> (view w = Unlocked \/ exists n, view w = Thin t n) -> word_ok v c ->
  (c = Unlocked \/ (exists n, c = Thin t n) \/ exists h, c = Hash h /\ h <> 0) ->
  let w' := with_lock_word v w in inv w' /\ guarantee t w w' /\ view w' = c.
Proof.
  intros H Hrun Hv Hok Hc w'. assert (view w' = c) as Ev by (by apply word_view). assert (forall id, view w <> Fat id) as Hnf by (intros id; destruct Hv as [->|[n ->]]; done).
  assert (forall id, c <> Fat id) as Hnf' by (intros id; destruct Hc as [->|[[n ->]|(h & -> & _)]]; done). destruct (inv_thin _ H Hnf) as (E0 & W0 & N0).
  split_and!; [|intros t' Ht|done].
  - constructor; rewrite ?Ev; try done.
    + intros h ->. by destruct Hc as [?|[[? ?]|(h' & [= ->] & ?)]].
    + intros id E. by destruct (Hnf' id).
    + apply H.
    + intros x Hx. by destruct (Hnf x), (inv_list _ H x Hx).
  - assert (mine t' w = None) as M1 by (unfold mine; destruct Hv as [->|[n ->]]; [done|]; by rewrite (proj2 (Z.eqb_neq t t')) by done).
    assert (mine t' w' = None) as M2 by (unfold mine; rewrite Ev; destruct Hc as [->|[[n ->]|(h & -> & _)]]; [done| |done]; by rewrite (proj2 (Z.eqb_neq t t')) by done).
    constructor; try done; rewrite ?M1, ?M2, ?Ev; try done.
    + intros id m Hm. by rewrite E0 in Hm.
    + intros _ id E. by destruct (Hnf id).
    + intros _ n E. destruct Hv as [Hv|[n' Hv]]; rewrite Hv in E; congruence.
    + intros _ h E. destruct Hv as [Hv|[n' Hv]]; rewrite Hv in E; congruence.
    + intros _ o n Hs E. exfalso. destruct Hv as [Hv|[n' Hv]]; rewrite Hv in E; [done|]. injection E as <- <-.
      by destruct (inv_suspended _ H t' t Hs).
    + intros h E. unfold hash_of in E. by destruct Hv as [Hv|[n' Hv]]; rewrite Hv in E.
Qed.

(** A change of the state of the collector. *)
Lemma gc_step w v : inv w -> gUseReadBarrier = true -> word_ok v (view w) -> let w' := with_lock_word v w in inv w' /\ forall t, rely t w w'.
Proof.
  intros H Hb Hok w'. assert (view w' = view w) as Ev by (by apply word_view). split.
  - constructor; rewrite ?Ev; try done; apply H.
  - intros t. assert (mine t w' = mine t w) as Em by (unfold mine; by rewrite Ev). assert (hash_of w' = hash_of w) as Eh by (unfold hash_of; by rewrite Ev).
    constructor; rewrite ?Em, ?Eh, ?Ev; try done; try (intros; by left); [eauto|]. intros _ n E. split; [done|]. congruence.
Qed.

(** A new monitor for a lock that is held by [o] or has a hash code. *)
Lemma publish_step t w v id m o :
  inv w -> t ∈ runnable w -> word_ok v (Fat id) -> 0 <= hash_code_ m <= kMaxHash ->
  wait_set_ m = None -> wake_set_ m = None -> num_waiters_ m = 0 -> owner_ m = o -> monitor_lock_ m = o ->
  match o with
  | Some o => view w = Thin o (lock_count_ m) /\ (o = t \/ suspended_by w !! t = Some o)
  | None => view w = Hash (hash_code_ m) /\ lock_count_ m = 0
  end ->
  let w' := with_monitors (<[id := m]> (monitors w)) (with_lock_word v w) in inv w' /\ guarantee t w w' /\ view w' = Fat id /\ mine t w' = mine t w /\ settled t w' /\ ~ queued t w'.
Proof.
  intros H Hrun Hok Hh Hq1 Hq2 Hnw Ho Hl Hv w'. assert (view w' = Fat id) as Ev by (by apply word_view).
  assert (forall id, view w <> Fat id) as Hnf by (intros i; destruct o; by rewrite (proj1 Hv)). destruct (inv_thin _ H Hnf) as (E0 & W0 & N0).
  assert (monitors w' = {[id := m]}) as Em by (unfold w'; cbn; by rewrite E0). assert (0 <= lock_count_ m < 2 ^ 32) as Hcnt.
  { destruct o as [o|]; [|destruct Hv as [_ ->]; done]. pose proof (inv_word _ H) as (g & _ & Hval & _). rewrite (proj1 Hv) in Hval. cbn in Hval. change kThinLockMaxCount with 4095 in Hval. lia. }
  assert (forall t', ~ queued t' w') as Hnq.
  { intros t' (i & m' & ws & ks & Hm & Q & Hin). rewrite Em in Hm. apply lookup_singleton_Some in Hm as [<- <-]. rewrite Hq1, Hq2 in Q.
    assert (ws = []) as -> by (eapply chain_unique; [apply Q|done]). assert (ks = []) as -> by (eapply chain_unique; [apply Q|done]). by apply elem_of_nil in Hin. }
  assert (forall t', settled t' w') as Hset.
  { intros t' i m' Hm. rewrite Em in Hm. apply lookup_singleton_Some in Hm as [<- <-]. congruence. }
  assert (forall t', mine t' w' = mine t' w) as Hmine.
  { intros t'. unfold mine. rewrite Ev, Em, lookup_singleton_eq. cbn [mbind option_bind]. rewrite Hl. destruct o as [o|].
    - rewrite (proj1 Hv). destruct (Z.eqb_spec o t') as [->|Hne]; [by rewrite bool_decide_eq_true_2|by rewrite bool_decide_eq_false_2 by congruence].
    - rewrite (proj1 Hv). by rewrite bool_decide_eq_false_2. }
  split_and!; try done.
  - constructor; rewrite ?Ev; try done.
    + intros i [= <-]. exists m. split; [done|]. change (wait_next w') with (wait_next w). change (waiting w') with (waiting w). rewrite W0, N0.
      constructor; try done; [congruence|intros E; destruct o; [congruence|apply Hv]|]. exists [], []. rewrite Hq1, Hq2. split; [constructor; try done; [constructor|]|].
      * intros t' [? Ht']. by rewrite lookup_empty in Ht'.
      * intros t' Ht'. by apply elem_of_nil in Ht'.
    + intros Hx. by destruct (Hx id).
    + apply H.
    + intros x Hx. by destruct (Hnf x), (inv_list _ H x Hx).
  - intros t' Ht. constructor; rewrite ?Ev; try done.
    + intros i m' Hm. by rewrite E0 in Hm.
    + intros _ i E. by destruct (Hnf i).
    + intros Hr' n E. exfalso. destruct o as [o|]; [|rewrite (proj1 Hv) in E; done]. rewrite (proj1 Hv) in E. injection E as -> _.
      destruct Hv as [_ [->|Hs]]; [done|]. by destruct (inv_suspended _ H _ _ Hs).
    + intros _ h E. right. eauto.
    + intros _ o' n Hs E. right. eauto.
    + intros h E. unfold hash_of in *. rewrite Ev, Em, lookup_singleton_eq. cbn [mbind option_bind]. destruct o; rewrite (proj1 Hv) in E; [done|]. injection E as <-.
      rewrite (proj2 (Z.eqb_neq _ 0)); [done|]. apply (inv_hash _ H). apply Hv.
Qed.

(** A change of the monitor by [t], which only its owner makes unless it takes the free lock, adds a waiter or the hash code. *)
Record monitor_change (t : Z) (w w' : world) (id : Z) (m m' : Monitor) : Prop := {
  change_from : monitors w !! id = Some m;
  change_word : lock_word w' = lock_word w;
  change_to : monitors w' = <[id := m']> (monitors w);
  change_runnable : runnable w' = runnable w;
  change_suspended : suspended_by w' = suspended_by w;
  change_list : list_ w' = list_ w;
  change_ok : monitor_ok id m' (wait_next w') (waiting w');
  change_others : forall t', t' <> t -> monitor_lock_ m = Some t' -> monitor_lock_ m' = Some t' /\ owner_ m' = owner_ m /\ lock_count_ m' = lock_count_ m;
  change_others' : forall t', t' <> t -> monitor_lock_ m' = Some t' -> monitor_lock_ m = Some t';
  change_hash : hash_code_ m <> 0 -> hash_code_ m' = hash_code_ m;
  change_waiting : forall t', t' <> t -> filter (fun x => x.1 = t') (waiting w') = filter (fun x => x.1 = t') (waiting w);
  change_queued : forall t', t' <> t -> queued t' w' -> queued t' w }.

Lemma mine_fat t w id m : view w = Fat id -> monitors w !! id = Some m -> mine t w = if bool_decide (monitor_lock_ m = Some t) then Some (lock_count_ m) else None.
Proof. intros Ev Hm. unfold mine. by rewrite Ev, Hm. Qed.

Lemma monitor_step t w w' id m m' : inv w -> monitor_change t w w' id m m' ->
  inv w' /\ guarantee t w w' /\ view w' = Fat id /\ monitors w' !! id = Some m' /\
  mine t w' = (if bool_decide (monitor_lock_ m' = Some t) then Some (lock_count_ m') else None).
Proof.
  intros H C. destruct (inv_monitor w id m H (change_from _ _ _ _ _ _ C)) as (Ev & Em & Hok). pose proof (view_frame _ _ (change_word _ _ _ _ _ _ C)) as Ev'. rewrite Ev in Ev'.
  assert (monitors w' = {[id := m']}) as Em' by (rewrite (change_to _ _ _ _ _ _ C), Em; apply insert_singleton_eq).
  assert (monitors w' !! id = Some m') as Hm' by (by rewrite Em', lookup_singleton_eq). pose proof (change_from _ _ _ _ _ _ C) as Hm. split_and!; [| |done|done|by apply (mine_fat t w' id m')].
  - constructor; rewrite ?Ev'; try done.
    + rewrite (change_word _ _ _ _ _ _ C), <- Ev. apply H.
    + intros i [= <-]. exists m'. split; [done|]. apply C.
    + intros Hn. by destruct (Hn id).
    + rewrite (change_runnable _ _ _ _ _ _ C), (change_suspended _ _ _ _ _ _ C). apply H.
    + rewrite (change_list _ _ _ _ _ _ C), <- Ev. apply H.
  - intros t' Ht. constructor; rewrite ?Ev', ?(change_runnable _ _ _ _ _ _ C), ?(change_suspended _ _ _ _ _ _ C); try done.
    + rewrite (mine_fat t' w' id m'), (mine_fat t' w id m) by done. destruct (bool_decide_reflect (monitor_lock_ m = Some t')) as [E|E].
      * destruct (change_others _ _ _ _ _ _ C t' Ht E) as (-> & _ & ->). by rewrite bool_decide_eq_true_2.
      * rewrite bool_decide_eq_false_2; [done|]. intros E'. by apply E, (change_others' _ _ _ _ _ _ C).
    + intros i m2 Hm2 Hl. rewrite Em in Hm2. apply lookup_singleton_Some in Hm2 as [<- <-]. exists m'. split; [done|].
      by destruct (change_others _ _ _ _ _ _ C t' Ht Hl) as (-> & -> & _).
    + intros Hs i m2 Hm2 Hl. rewrite Em' in Hm2. apply lookup_singleton_Some in Hm2 as [<- <-]. pose proof (change_others' _ _ _ _ _ _ C t' Ht Hl) as Hl'.
      destruct (change_others _ _ _ _ _ _ C t' Ht Hl') as (_ & -> & _). by apply (Hs id m).
    + intros _ i. by rewrite Ev.
    + intros _ n E. by rewrite Ev in E.
    + intros _ h E. right. eauto.
    + intros _ o n _ E. right. eauto.
    + intros h. unfold hash_of. rewrite Ev, Ev', Hm, Hm'. cbn [mbind option_bind]. destruct (Z.eqb_spec (hash_code_ m) 0) as [|Hne]; [done|]. intros [= <-].
      rewrite (change_hash _ _ _ _ _ _ C Hne). by rewrite (proj2 (Z.eqb_neq _ 0)).
    + by apply (change_waiting _ _ _ _ _ _ C).
    + intros Hq Hq'. by apply Hq, (change_queued _ _ _ _ _ _ C).
Qed.

Lemma queued_same t w w' id m m' : monitors w = {[id := m]} -> monitors w' = <[id := m']> (monitors w) -> wait_next w' = wait_next w ->
  wait_set_ m' = wait_set_ m -> wake_set_ m' = wake_set_ m -> queued t w' -> queued t w.
Proof.
  intros Em Em' En E1 E2 (i & m2 & ws & ks & Hm & Q & Hin). rewrite Em', Em, insert_singleton_eq in Hm. apply lookup_singleton_Some in Hm as [<- <-].
  rewrite En, E1, E2 in Q. exists id, m, ws, ks. by rewrite Em, lookup_singleton_eq.
Qed.

(** A change of the monitor that leaves the wait sets as they are. *)
Lemma plain_change t w id m m' : inv w -> monitors w !! id = Some m ->
  wait_set_ m' = wait_set_ m -> wake_set_ m' = wake_set_ m -> num_waiters_ m' = num_waiters_ m ->
  (forall t', owner_ m' = Some t' -> monitor_lock_ m' = Some t') -> (owner_ m' = None -> lock_count_ m' = 0) -> 0 <= lock_count_ m' < 2 ^ 32 -> 0 <= hash_code_ m' <= kMaxHash ->
  (forall t', t' <> t -> monitor_lock_ m = Some t' -> monitor_lock_ m' = Some t' /\ owner_ m' = owner_ m /\ lock_count_ m' = lock_count_ m) ->
  (forall t', t' <> t -> monitor_lock_ m' = Some t' -> monitor_lock_ m = Some t') ->
  (hash_code_ m <> 0 -> hash_code_ m' = hash_code_ m) -> (monitor_lock_ m = Some t -> monitor_lock_ m' = Some t) ->
  monitor_change t w (with_monitors (<[id := m']> (monitors w)) w) id m m'.
Proof.
  intros H Hm E1 E2 E3 O1 O2 Hc Hh C1 C2 C3 C4. destruct (inv_monitor w id m H Hm) as (Ev & Em & Hok). constructor; try done.
  - constructor; try done; cbn; [rewrite E3; apply Hok|apply Hok|rewrite E1, E2]. destruct (ok_queues _ _ _ _ Hok) as (ws & ks & Q & Hq). exists ws, ks. split; [done|].
    intros t' Hin. destruct (Hq t' Hin) as [|El]; [by left|right]. destruct (decide (t' = t)) as [->|Hne]; [by apply C4|by apply C1].
  - intros t' _. by apply (queued_same t' w _ id m m').
Qed.

(** The thread's own view of such a change. *)
Lemma change_local t run sus tokens hold own quiet w w' id m m' : monitor_change t w w' id m m' -> inv w -> local t run sus tokens hold own quiet w ->
  forall own' quiet' tokens', (own' = true -> monitor_lock_ m' = Some t -> owner_ m' = Some t) -> (quiet' = true -> ~ queued t w') -> filter (fun x => x.1 = t) (waiting w') = tokens' ->
  local t run sus tokens' (if bool_decide (monitor_lock_ m' = Some t) then Some (lock_count_ m') else None) own' quiet' w'.
Proof.
  intros C H L own' quiet' tokens' Ho Hq Hw. destruct (monitor_step t w w' id m m' H C) as (_ & _ & Ev & Hm' & Emine). destruct (inv_monitor w id m H (change_from _ _ _ _ _ _ C)) as (_ & Em & _).
  constructor; [rewrite (change_runnable _ _ _ _ _ _ C); apply L|rewrite (change_suspended _ _ _ _ _ _ C); apply L|done|done| |done].
  intros E i m2 Hm2. rewrite (change_to _ _ _ _ _ _ C), Em, insert_singleton_eq in Hm2. apply lookup_singleton_Some in Hm2 as [<- <-]. by apply Ho.
Qed.

(** ** Facts that stay true for a thread *)

(** A running thread sees a fat lock, its own thin lock, a hash code, and the thin lock of a thread it suspended. *)
Definition fat (t id : Z) (w : world) : Prop := t ∈ runnable w /\ view w = Fat id.
Definition own_thin (t n lw : Z) (w : world) : Prop := t ∈ runnable w /\ view w = Thin t n /\ (gUseReadBarrier = false -> lock_word w = lw).
Definition hashed (t h : Z) (w : world) : Prop := t ∈ runnable w /\ (view w = Hash h \/ exists id, view w = Fat id) /\ hash_of w = Some h.
Definition victim (t o : Z) (w : world) : Prop := t ∈ runnable w /\ suspended_by w !! t = Some o /\ ((exists n, view w = Thin o n) \/ exists id, view w = Fat id).
Definition holding (t id : Z) (w : world) : Prop := exists m, monitors w !! id = Some m /\ monitor_lock_ m = Some t /\ owner_ m = None.
Definition hash_is (h : Z) (w : world) : Prop := hash_of w = Some h.

Lemma stable_fat' t id : stable t (fat t id).
Proof. intros w w' [Hr E] _ R. split; [by apply (r_runnable _ _ _ R)|]. by apply (r_fat _ _ _ R). Qed.

Lemma stable_own_thin t n lw : stable t (own_thin t n lw).
Proof.
  intros w w' (Hr & E & Hw) _ R. destruct (r_thin _ _ _ R Hr n E) as [E' W']. split_and!; [by apply (r_runnable _ _ _ R)|done|].
  intros Hb. rewrite W' by done. by apply Hw.
Qed.

Lemma stable_hashed t h : stable t (hashed t h).
Proof.
  intros w w' (Hr & E & Hh) _ R. split_and!; [by apply (r_runnable _ _ _ R)| |by apply (r_hash _ _ _ R)].
  destruct E as [E|[id E]]; [by apply (r_hashed _ _ _ R)|]. right. exists id. by apply (r_fat _ _ _ R).
Qed.

Lemma stable_victim t o : stable t (victim t o).
Proof.
  intros w w' (Hr & Hs & E) _ R. split_and!; [by apply (r_runnable _ _ _ R)|by rewrite (r_suspended _ _ _ R)|].
  destruct E as [[n E]|[id E]].
  - destruct (r_victim _ _ _ R Hr o n Hs E) as [|]; eauto.
  - right. exists id. by apply (r_fat _ _ _ R).
Qed.

Lemma stable_holding t id : stable t (holding t id).
Proof. intros w w' (m & Hm & Hl & Ho) _ R. destruct (r_owner _ _ _ R id m Hm Hl) as (m' & Hm' & Hl' & Ho'). exists m'. split_and!; [done|done|congruence]. Qed.

Lemma stable_hash t h : stable t (hash_is h).
Proof. intros w w' E _ R. by apply (r_hash _ _ _ R). Qed.

Lemma stable_imp t (F : Prop) P : stable t P -> stable t (fun w => F -> P w).
Proof. intros HP w w' H Hi R HF. apply (HP w); auto. Qed.

Lemma stable_if t (b : bool) P Q : stable t P -> stable t Q -> stable t (fun w => if b then P w else Q w).
Proof. by destruct b. Qed.

Hint Resolve local_stable stable_and stable_const stable_fat' stable_own_thin stable_hashed stable_victim stable_holding stable_hash stable_imp stable_if : stable.

(** What a thread knows after it has read the lock word. *)
Definition seen (t lw : Z) (c : contents) (w : world) : Prop :=
  match c with
  | Unlocked => True
  | Thin o n => o = t -> own_thin t n lw w
  | Fat id => fat t id w
  | Hash h => hashed t h w
  end.

Lemma stable_seen t lw c : stable t (seen t lw c).
Proof.
  destruct c as [|o n|id|h]; [apply (stable_const t True)|apply (stable_imp t (o = t) (own_thin t n lw))|apply stable_fat'|apply stable_hashed]. apply stable_own_thin.
Qed.
Hint Resolve stable_seen : stable.

(** What the lock word says of the thread's own hold. *)
Definition consistent (t : Z) (hold : option Z) (c : contents) : Prop :=
  match c with
  | Unlocked | Hash _ => hold = None
  | Thin o n => hold = if o =? t then Some n else None
  | Fat _ => True
  end.

Lemma local_consistent t run sus tokens hold own quiet w : local t run sus tokens hold own quiet w -> consistent t hold (view w).
Proof. intros L. pose proof (l_mine _ _ _ _ _ _ _ _ L) as E. unfold mine in E. by destruct (view w); cbn. Qed.

Lemma GetLockWord_spec t (P : world -> Prop) (F : contents -> Prop) sus tokens hold own quiet :
  stable t P -> (forall w, P w -> local t true sus tokens hold own quiet w) -> (forall w, inv w -> P w -> F (view w)) ->
  triple t P GetLockWord (fun lw w => P w /\ exists c, (word_ok lw c /\ F c /\ consistent t hold c) /\ seen t lw c w).
Proof.
  intros HP HL HF. apply triple_act; [done| |].
  - intros lw w w' [Hp (c & Hc & Hs)] Hi R. split; [by apply (HP w)|]. exists c. split; [done|]. by apply (stable_seen t lw c w).
  - intros w choice Hi Hp. split; [done|]. split; [intros t' _; apply rely_refl|]. split; [done|]. exists (view w). specialize (HL w Hp).
    assert (t ∈ runnable w) as Hrun by (by apply (l_run _ _ _ _ _ _ _ _ HL)).
    split; [split_and!; [apply Hi|by apply HF|by eapply local_consistent]|]. unfold seen. destruct (view w) as [|o n|id|h] eqn:Ev; [done|by intros ->|by split|].
    split_and!; [done|by left|]. unfold hash_of. by rewrite Ev.
Qed.

(** Actions that do not concern the locks. *)
Lemma triple_aux {X : Set} t P (a : world -> Z -> outcome X) (F : X -> Prop) :
  stable t P ->
  (forall w choice, inv w -> P w ->
     match a w choice with
     | Done x w' => same_lock w w' /\ runnable w' = runnable w /\ suspended_by w' = suspended_by w /\ list_ w' = list_ w /\ F x
     | Blocked => True
     | Fatal why => excused t w choice why
     end) ->
  triple t P (act a) (fun x w => F x /\ P w).
Proof.
  intros HP Ha. apply triple_act; [done|auto with stable|]. intros w choice Hi Hp. specialize (Ha w choice Hi Hp). destruct (a w choice) as [x w'| |]; try done.
  destruct Ha as (Hs & Er & Es & El & HF).
  assert (inv w') as Hi' by (apply (frame_inv w); [done|done|rewrite Er, Es; apply Hi|rewrite El; apply Hi]).
  assert (forall t', rely t' w w') as R by (intros t'; apply frame_rely; [done|by rewrite Er|by rewrite Es]).
  split_and!; [done|intros t' _; apply R|done|]. by apply (HP w).
Qed.

Lemma generate_range seed : 0 < (generate seed).1 <= kMaxHash.
Proof.
  unfold generate. change kHashMask with (Z.ones 28). change kMaxHash with (2 ^ 28 - 1). rewrite !Z.land_ones by lia.
  pose proof (Z.mod_pos_bound seed (2 ^ 28) ltac:(lia)). destruct (Z.eqb_spec (seed mod 2 ^ 28) 0) as [E0|]; cbn [fst]; [|lia].
  assert (next_seed seed mod 2 ^ 28 = 12345) as ->; [|lia]. unfold next_seed, uN. rewrite Z.mod_mod_divide by (by exists (2 ^ 4)).
  rewrite (Z.div_mod seed (2 ^ 28)), E0 by lia. replace ((2 ^ 28 * (seed / 2 ^ 28) + 0) * 1103515245 + 12345) with (12345 + (seed / 2 ^ 28 * 1103515245) * 2 ^ 28) by lia.
  by rewrite Z_mod_plus_full.
Qed.

Lemma GenerateIdentityHashCode_spec t P : stable t P -> triple t P GenerateIdentityHashCode (fun h w => (0 < h <= kMaxHash) /\ P w).
Proof.
  intros HP. apply triple_aux; [done|]. intros w choice Hi Hp. pose proof (generate_range (hash_code_seed w)) as Hr. destruct (generate (hash_code_seed w)) as [h s]. cbn in *. destruct Hr as [Hr1 Hr2]. split; [by constructor|]. by split_and!.
Qed.

(** ** Inflation *)

Lemma CreateMonitor_spec t (P : world -> Prop) owner hash :
  stable t P -> (forall w, P w -> match owner with None => True | Some o => o = t \/ suspended_by w !! t = Some o end) ->
  triple t P (CreateMonitor t owner hash) (fun r w => ((0 <= r.1 <= kMaxMonitorId) /\ r.2 = Mon None owner 0 0 hash None None) /\ P w).
Proof.
  intros HP Ho. apply triple_aux; [done|]. intros w id Hi Hp. destruct (Z.leb_spec 0 id) as [E1|]; cbn [andb negb excused]; [|lia].
  destruct (Z.leb_spec id kMaxMonitorId) as [E2|]; cbn [negb excused]; [|lia]. destruct (bool_decide (id ∈ pool w)); [done|]. specialize (Ho w Hp).
  assert (owner_ok w t owner = true) as ->.
  { destruct owner as [o|]; [|done]. cbn [owner_ok]. apply orb_true_iff. destruct Ho as [->|Hs]; [left; apply Z.eqb_refl|right]. apply is_suspended_spec. eauto. }
  cbn [negb]. split; [by constructor|]. by split_and!.
Qed.

Lemma word_fat_ok lw c id : word_ok lw c -> 0 <= id <= kMaxMonitorId -> word_ok (FromMonitor id (GCState lw)) (Fat id).
Proof.
  intros (g & -> & Hc & Hg & Hu) Hid. exists g. rewrite GCState_encode by done. split; [by apply (make_words (Fat id) g)|]. done.
Qed.

(** Whose lock is inflated: the thread's own, the one of a suspended thread, or the one of no thread. *)
Definition inflatable (t : Z) (owner : option Z) (hash : Z) (w : world) : Prop :=
  match owner with
  | Some o => (o = t /\ exists n lw, own_thin t n lw w) \/ victim t o w
  | None => hashed t hash w
  end.

Lemma stable_ex {A} t (P : A -> world -> Prop) : (forall x, stable t (P x)) -> stable t (fun w => exists x, P x w).
Proof. intros HP w w' [x Hx] Hi R. exists x. by apply (HP x w). Qed.

Lemma stable_or t (P Q : world -> Prop) : stable t P -> stable t Q -> stable t (fun w => P w \/ Q w).
Proof. intros HP HQ w w' [H|H] Hi R; [left; by apply (HP w)|right; by apply (HQ w)]. Qed.

Lemma stable_inflatable t owner hash : stable t (inflatable t owner hash).
Proof.
  destruct owner as [o|]; [|apply stable_hashed]. apply (stable_or t (fun w => o = t /\ exists n lw, own_thin t n lw w)); [|apply stable_victim].
  apply stable_and; [apply stable_const|]. apply stable_ex. intros n. apply stable_ex. intros lw. apply stable_own_thin.
Qed.
Hint Resolve stable_inflatable stable_ex stable_or : stable.

(** The states of the lock word that an inflation can meet. *)
Lemma inflatable_view t owner hash w : inv w -> inflatable t owner hash w ->
  match owner with Some o => exists n, view w = Thin o n | None => view w = Hash hash end \/ exists id, view w = Fat id.
Proof.
  intros Hi H. destruct owner as [o|]; cbn [inflatable] in H.
  - destruct H as [(-> & n & lw & _ & E & _)|(_ & _ & [[n E]|[id E]])]; eauto.
  - by destruct H as (_ & E & _).
Qed.

Lemma Publish_spec t sus tokens hold lw c id m owner hash :
  word_ok lw c -> 0 <= id <= kMaxMonitorId -> 0 <= hash <= kMaxHash ->
  m = Mon owner owner (match c with Thin _ n => n | _ => 0 end) 0 hash None None ->
  match owner with Some o => exists n, c = Thin o n | None => c = Hash hash end ->
  triple t (fun w => local t true sus tokens hold true true w /\ inflatable t owner hash w) (Publish lw (FromMonitor id (GCState lw)) id m)
    (fun b w => local t true sus tokens hold true true w /\ if (b : bool) then fat t id w else True).
Proof.
  intros Hlw Hid Hh -> Hc. apply triple_act; [auto with stable|intros []; auto with stable|]. intros w choice Hi [L HI].
  destruct ((lock_word w =? lw) && (choice =? 0)) eqn:E; [|split_and!; [done|intros t' _; apply rely_refl|done|done]].
  apply andb_true_iff in E as [E _]. apply Z.eqb_eq in E. subst lw. pose proof (word_view w c Hlw) as Ev. pose proof (word_fat_ok _ c id Hlw Hid) as Hfat.
  assert (t ∈ runnable w) as Hrun by (by apply (l_run _ _ _ _ _ _ _ _ L)).
  destruct (publish_step t w _ id (Mon owner owner (match c with Thin _ n => n | _ => 0 end) 0 hash None None) owner Hi Hrun Hfat Hh) as (Hi' & G & Ev' & Em & Hs & Hq);
    try done.
  { destruct owner as [o|]; cbn in *; [|by subst c]. destruct Hc as [n ->]. split; [done|]. destruct HI as [[-> _]|(_ & Hs & _)]; [by left|by right]. }
  split_and!; try done. constructor; try done; try apply L. rewrite Em. apply L.
Qed.

Lemma triple_seen {R} t (P : world -> Prop) lw (F : contents -> Prop) (p : prog R) Q :
  (forall c, F c -> triple t (fun w => P w /\ seen t lw c w) p Q) -> triple t (fun w => P w /\ exists c, F c /\ seen t lw c w) p Q.
Proof. intros Ht w [Hp (c & Hf & Hs)]. by apply (Ht c Hf). Qed.

Lemma lock_word_fields lw c : word_ok lw c ->
  match c with
  | Unlocked => True
  | Thin o n => ThinLockOwner lw = o /\ ThinLockCount lw = n
  | Fat id => FatLockMonitor lw = id
  | Hash h => LockWord.GetHashCode lw = h
  end.
Proof. intros (g & -> & Hc & Hg & _). pose proof (read_encode c g Hc Hg). by destruct c. Qed.

Lemma triple_check {A B} t P (x : A) (f : A -> prog B) Q : triple t P (f x) Q -> triple t P (check (Some x) ≫= f) Q.
Proof. done. Qed.

Lemma Install_spec t sus tokens hold id owner hash :
  0 <= id <= kMaxMonitorId -> 0 <= hash <= kMaxHash ->
  triple t (fun w => local t true sus tokens hold true true w /\ inflatable t owner hash w)
    (Install gUseReadBarrier gUseUserfaultfd t id (Mon None owner 0 0 hash None None))
    (fun b w => local t true sus tokens hold true true w /\ if (b : bool) then fat t id w else True).
Proof.
  intros Hid Hh. unfold Install. eapply triple_bind.
  { apply (triple_aux t _ _ (fun _ => True)); [auto with stable|]. intros w choice Hi [L HI]. cbn [owner_]. assert (owner_ok w t owner = true) as ->; [|split; [by constructor|by split_and!]].
    destruct owner as [o|]; [|done]. cbn [owner_ok]. apply orb_true_iff. destruct HI as [[-> _]|(_ & Hs & _)]; [left; apply Z.eqb_refl|right]. apply is_suspended_spec. eauto. }
  intros []. apply triple_pure. intros _. eapply triple_bind.
  { apply (GetLockWord_spec t _ (fun c => match owner with Some o => exists n, c = Thin o n | None => c = Hash hash end \/ exists id, c = Fat id) sus tokens hold true true);
      [auto with stable|by intros w [L _]|]. intros w Hi [_ HI]. by eapply inflatable_view. }
  intros lw. apply triple_seen. intros c (Hlw & HF & _). rewrite (word_state _ _ Hlw). pose proof (lock_word_fields _ _ Hlw) as Hf. destruct HF as [HF|[id' ->]].
  - destruct owner as [o|].
    + destruct HF as [n ->]. destruct Hf as [Ho Hn]. cbn [state_of owner_]. apply triple_check. rewrite Ho, Hn, Z.eqb_refl. cbn [negb].
      eapply triple_mono; [eapply (Publish_spec t sus tokens hold lw (Thin o n) id _ (Some o) hash Hlw Hid Hh); [done|by exists n]|by intros w [? _]|done].
    + subst c. cbn [state_of hash_code_]. rewrite Hf, Z.eqb_refl. cbn [negb].
      eapply triple_mono; [eapply (Publish_spec t sus tokens hold lw (Hash hash) id _ None hash Hlw Hid Hh); done|by intros w [? _]|done].
  - cbn [state_of]. apply triple_ret; [auto with stable|]. by intros w _ [[L _] _].
Qed.

Lemma Inflate_spec t sus tokens hold owner hash : 0 <= hash <= kMaxHash ->
  triple t (fun w => local t true sus tokens hold true true w /\ inflatable t owner hash w) (Inflate gUseReadBarrier gUseUserfaultfd t owner hash)
    (fun _ w => local t true sus tokens hold true true w).
Proof.
  intros Hh. unfold Inflate. eapply triple_bind.
  { apply (CreateMonitor_spec t _ owner hash); [auto with stable|]. intros w [_ HI]. destruct owner as [o|]; [|done]. destruct HI as [[-> _]|(_ & Hs & _)]; auto. }
  intros [id m]. apply triple_pure. cbn [fst snd]. intros [Hid ->]. eapply triple_bind; [by apply Install_spec|]. intros [|]; cbn beta iota.
  - eapply (triple_bind t _ _ _ (fun _ w => local t true sus tokens hold true true w /\ fat t id w)).
    { apply triple_act; [auto with stable|auto with stable|]. intros w choice Hi [L HF]. destruct HF as [Hrun Ev].
      assert (same_lock w (with_list (id :: list_ w) w)) as Hs by (by constructor). split_and!.
      - apply (frame_inv w); [done|done|apply Hi|]. intros x Hx. apply elem_of_cons in Hx as [->|Hx]; [done|]. by apply Hi.
      - intros t' _. by apply frame_rely.
      - eapply frame_local; [done|done|apply L|apply L].
      - by split. }
    intros []. eapply triple_bind.
    { apply (GetLockWord_spec t _ (fun c => c = Fat id) sus tokens hold true true); [auto with stable|by intros w [L _]|by intros w _ [_ [_ E]]]. }
    intros lw. apply triple_seen. intros c (Hlw & -> & _). rewrite (word_state _ _ Hlw). cbn [state_of]. rewrite bool_decide_eq_true_2 by done. cbn [negb].
    apply triple_ret; [auto with stable|]. by intros w _ [[L _] _].
  - eapply triple_mono; [apply (triple_aux t (local t true sus tokens hold true true) _ (fun _ => True)); [auto with stable|]|by intros w [L _]|by intros r w [_ L]].
    intros w choice Hi L. split; [by constructor|]. by split_and!.
Qed.

Ltac runs := cbn [runnable with_runnable]; rewrite ?elem_of_difference, ?elem_of_union, ?elem_of_singleton; intuition congruence.

Lemma BeginSuspension_spec t sus tokens hold own quiet P : stable t P -> (forall w w', P w -> same_lock w w' -> P w') ->
  sus = None ->
  triple t (fun w => local t true sus tokens hold own quiet w /\ P w) (BeginSuspension t) (fun _ w => local t false sus tokens hold own quiet w /\ P w).
Proof.
  intros HP HF ->. apply triple_act; [auto with stable|auto with stable|]. intros w choice Hi [L Hp]. set (w' := with_runnable _ w). assert (same_lock w w') as Hs by (by constructor).
  split_and!.
  - apply (frame_inv w); [done|done| |apply Hi]. intros t' o Ho. pose proof (inv_suspended _ Hi t' o Ho). unfold w'. runs.
  - intros t' Ht. apply frame_rely; [done| |done]. unfold w'. runs.
  - eapply frame_local; [done|done| |apply L]. unfold w'. runs.
  - by apply (HF w).
Qed.

Lemma EndSuspension_spec t sus tokens hold own quiet P : stable t P -> (forall w w', P w -> same_lock w w' -> P w') ->
  triple t (fun w => local t false sus tokens hold own quiet w /\ P w) (EndSuspension t) (fun _ w => local t true sus tokens hold own quiet w /\ P w).
Proof.
  intros HP HF. apply triple_act; [auto with stable|auto with stable|]. intros w choice Hi [L Hp]. destruct (is_suspended w t) eqn:E; [done|]. set (w' := with_runnable _ w).
  assert (same_lock w w') as Hs by (by constructor). split_and!.
  - apply (frame_inv w); [done|done| |apply Hi]. intros t' o Ho. pose proof (inv_suspended _ Hi t' o Ho). unfold w'. assert (o <> t); [|runs]. intros ->.
    assert (is_suspended w t = true) by (apply is_suspended_spec; eauto). congruence.
  - intros t' Ht. apply frame_rely; [done| |done]. unfold w'. runs.
  - eapply frame_local; [done|done| |apply L]. unfold w'. runs.
  - by apply (HF w).
Qed.

Lemma SuspendThread_spec t o tokens hold own quiet :
  triple t (local t false None tokens hold own quiet) (SuspendThreadByThreadId t o)
    (fun r w => r = None /\ local t false None tokens hold own quiet w \/ r = Some o /\ local t false (Some o) tokens hold own quiet w).
Proof.
  apply triple_act; [auto with stable|intros r; auto with stable|]. intros w choice Hi L. destruct (negb (choice =? 0)); [split_and!; [done|intros t' _; apply rely_refl|by left]|].
  destruct (bool_decide_reflect (o ∈ runnable w)) as [|Hout]; [done|]. set (w' := with_suspended _ w). assert (same_lock w w') as Hs by (by constructor). split_and!.
  - apply (frame_inv w); [done|done| |apply Hi]. intros t' o' Ho. cbn in *. apply lookup_insert_Some in Ho as [[_ <-]|[_ Ho]]; [done|]. by apply (inv_suspended _ Hi t').
  - intros t' Ht. apply frame_rely; [done|done|]. cbn. by rewrite lookup_insert_ne.
  - right. split; [done|]. eapply frame_local; [done|done|apply L|]. cbn. by rewrite lookup_insert_eq.
Qed.

Lemma Resume_spec t sus tokens hold own quiet :
  triple t (local t true sus tokens hold own quiet) (Resume t) (fun _ w => local t true None tokens hold own quiet w).
Proof.
  apply triple_act; [auto with stable|auto with stable|]. intros w choice Hi L. set (w' := with_suspended _ w). assert (same_lock w w') as Hs by (by constructor). split_and!.
  - apply (frame_inv w); [done|done| |apply Hi]. intros t' o' Ho. cbn in *. apply lookup_delete_Some in Ho as [_ Ho]. by apply (inv_suspended _ Hi t').
  - intros t' Ht. apply frame_rely; [done|done|]. cbn. by rewrite lookup_delete_ne.
  - eapply frame_local; [done|done|apply L|]. cbn. apply lookup_delete_eq.
Qed.

(** Reading the lock word while another thread is suspended. *)
Lemma GetLockWord_victim t o tokens hold :
  triple t (local t true (Some o) tokens hold true true) GetLockWord
    (fun lw w => local t true (Some o) tokens hold true true w /\ ((exists n, word_ok lw (Thin o n)) /\ victim t o w \/ exists c, word_ok lw c /\ forall n, c <> Thin o n)).
Proof.
  apply triple_act; [auto with stable|intros lw; auto 8 with stable|]. intros w choice Hi L. split_and!; [done|intros t' _; apply rely_refl|done|]. pose proof (inv_word _ Hi) as Hw.
  destruct (view w) as [|o' n|id|h] eqn:Ev; [right; by exists Unlocked| |right; by exists (Fat id)|right; by exists (Hash h)].
  destruct (decide (o' = o)) as [->|Hne]; [|right; exists (Thin o' n); split; [done|congruence]]. left. split; [by exists n|].
  split_and!; [by apply (l_run _ _ _ _ _ _ _ _ L)|apply L|left; by exists n].
Qed.

Lemma InflateThinLocked_spec t tokens hold lw o n hash : word_ok lw (Thin o n) -> 0 <= hash <= kMaxHash ->
  triple t (fun w => local t true None tokens hold true true w /\ seen t lw (Thin o n) w) (InflateThinLocked gUseReadBarrier gUseUserfaultfd t lw hash)
    (fun _ w => local t true None tokens hold true true w).
Proof.
  intros Hlw Hh. unfold InflateThinLocked. destruct (lock_word_fields _ _ Hlw) as [-> _]. destruct (Z.eqb_spec o t) as [->|Hne].
  { eapply triple_mono; [by apply (Inflate_spec t None tokens hold (Some t) hash)| |done]. intros w [L Hs]. split; [done|]. left. split; [done|]. exists n, lw. by apply Hs. }
  eapply (triple_bind t _ _ _ (fun _ w => local t false None tokens hold true true w /\ True)).
  { eapply triple_mono; [by apply (BeginSuspension_spec t None tokens hold true true (fun _ => True)); auto with stable|by intros w [L _]|done]. }
  intros []. eapply triple_bind; [eapply triple_mono; [apply (SuspendThread_spec t o tokens hold true true)|by intros w [L _]|done]|]. intros owner.
  assert (forall sus, triple t (local t false sus tokens hold true true) (EndSuspension t) (fun _ w => local t true sus tokens hold true true w)) as He.
  { intros sus. eapply triple_mono; [by apply (EndSuspension_spec t sus tokens hold true true (fun _ => True)); auto with stable|done|by intros _ w [L _]]. }
  destruct owner as [owner|].
  - eapply (triple_bind t _ _ _ (fun _ w => owner = o /\ local t true (Some o) tokens hold true true w)).
    { intros w [[? _]|[[= ->] L]]; [done|]. eapply safe_mono; [|apply (He (Some o) w L)]. done. }
    intros []. apply triple_pure. intros ->. eapply triple_bind; [apply GetLockWord_victim|]. intros lw'.
    eapply (triple_bind t _ _ _ (fun _ w => local t true (Some o) tokens hold true true w)); [|intros []; apply Resume_spec].
    destruct (bool_decide (GetState gc_state_used lw' = kThinLocked) && (ThinLockOwner lw' =? o)) eqn:E; [|apply triple_ret; [auto 8 with stable|by intros w _ [L _]]].
    apply andb_true_iff in E as [E1 E2]. apply bool_decide_eq_true in E1. apply Z.eqb_eq in E2.
    eapply triple_mono; [by apply (Inflate_spec t (Some o) tokens hold (Some o) hash)| |done]. intros w [L [[_ Hv]|(c & Hc & Hno)]]; [split; [done|by right]|].
    exfalso. rewrite (word_state _ _ Hc) in E1. pose proof (lock_word_fields _ _ Hc) as Hf. destruct c as [|o' n'| |]; try done. destruct Hf as [Hf _]. by apply (Hno n'); congruence.
  - eapply (triple_bind t _ _ _ (fun _ w => local t true None tokens hold true true w)).
    { intros w [[_ L]|[? _]]; [|done]. by apply (He None w L). }
    intros []. apply triple_ret; [auto with stable|done].
Qed.

(** ** Locking and unlocking a monitor *)

Lemma triple_inv {R} t (P P' : world -> Prop) (p : prog R) Q : stable t P -> (forall w, inv w -> P w -> P' w) -> triple t P' p Q -> triple t P p Q.
Proof.
  intros HP HI Ht w Hw. destruct p as [r|X a k]; cbn [safe].
  - intros w' Hr Hi. specialize (Ht w' (HI w' Hi (HP w w' Hw Hi Hr))). apply Ht; [apply rely_refl|done].
  - intros w' c Hr Hi. specialize (Ht w' (HI w' Hi (HP w w' Hw Hi Hr))). apply Ht; [apply rely_refl|done].
Qed.

(** A thread that is counted in num_waiters_, and one for which the monitor exists. *)
Definition token (t id : Z) (w : world) : Prop := (t, id) ∈ waiting w.
Definition reach (t id : Z) (w : world) : Prop := fat t id w \/ token t id w.

Lemma token_filter t id w w' : filter (fun x => x.1 = t) (waiting w') = filter (fun x => x.1 = t) (waiting w) -> token t id w -> token t id w'.
Proof.
  intros E H. unfold token in *. assert ((t, id) ∈ filter (fun x : Z * Z => x.1 = t) (waiting w')) as Hin; [|by apply list_elem_of_filter in Hin as [_ Hin]].
  rewrite E. by apply list_elem_of_filter.
Qed.

Lemma stable_token t id : stable t (token t id).
Proof. intros w w' H _ R. apply (token_filter t id w); [|done]. apply R. Qed.
Hint Resolve stable_token : stable.

Lemma stable_reach t id : stable t (reach t id).
Proof. apply stable_or; auto with stable. Qed.
Hint Resolve stable_reach : stable.

Lemma local_token t run sus tokens hold own quiet id w : local t run sus tokens hold own quiet w -> (t, id) ∈ tokens -> token t id w.
Proof. intros L Hin. rewrite <- (l_tokens _ _ _ _ _ _ _ _ L) in Hin. by apply list_elem_of_filter in Hin as [_ Hin]. Qed.

Lemma reach_monitor t id w : inv w -> reach t id w -> exists m, monitors w !! id = Some m.
Proof.
  intros Hi [[_ Ev]|Ht]; [destruct (inv_fat _ Hi id Ev) as (m & -> & _); exists m; apply lookup_singleton_eq|]. unfold token in Ht.
  destruct (view w) as [|o n|id'|h] eqn:Ev; [destruct (inv_thin _ Hi ltac:(congruence)) as (_ & E & _); rewrite E in Ht; by apply elem_of_nil in Ht| | |].
  1, 3: destruct (inv_thin _ Hi ltac:(congruence)) as (_ & E & _); rewrite E in Ht; by apply elem_of_nil in Ht.
  destruct (inv_fat _ Hi id' Ev) as (m & -> & Hok). pose proof (ok_tokens _ _ _ _ Hok) as Hf. rewrite Forall_forall in Hf. specialize (Hf _ Ht). cbn in Hf. subst id'.
  exists m. apply lookup_singleton_eq.
Qed.

Lemma token_fat t run sus tokens hold own quiet id w : inv w -> local t run sus tokens hold own quiet w -> run = true -> token t id w -> fat t id w.
Proof.
  intros Hi L Hrun Ht. destruct (reach_monitor t id w Hi (or_intror Ht)) as (m & Hm). destruct (inv_monitor w id m Hi Hm) as (Ev & _). split; [|done].
  by apply (l_run _ _ _ _ _ _ _ _ L).
Qed.

(** A change of the count or of owner_ by the thread that has the lock. *)
Lemma owner_step t run sus tokens hold own quiet w id m m' :
  inv w -> local t run sus tokens hold own quiet w -> monitors w !! id = Some m -> monitor_lock_ m = Some t ->
  m' = Mon (Some t) (owner_ m') (lock_count_ m') (num_waiters_ m) (hash_code_ m) (wait_set_ m) (wake_set_ m) ->
  owner_ m' = Some t \/ owner_ m' = None /\ lock_count_ m' = 0 -> 0 <= lock_count_ m' < 2 ^ 32 ->
  let w' := with_monitors (<[id := m']> (monitors w)) w in
  inv w' /\ guarantee t w w' /\ local t run sus tokens (Some (lock_count_ m')) (bool_decide (owner_ m' = Some t)) quiet w' /\ monitors w' !! id = Some m'.
Proof.
  intros Hi L Hm Hl E Ho Hc w'. destruct (inv_monitor w id m Hi Hm) as (Ev & Em & Hok). assert (monitor_lock_ m' = Some t) as Hl' by (by rewrite E).
  assert (monitor_change t w w' id m m') as C.
  { apply plain_change; try done; rewrite ?Hl, ?Hl'; try (by rewrite E); try congruence.
    - intros t' Et. destruct Ho as [Ho|[Ho _]]; congruence.
    - destruct Ho as [Ho|[_ Ho]]; congruence.
    - rewrite E. apply Hok. }
  destruct (monitor_step t w w' id m m' Hi C) as (Hi' & G & _ & Hm' & _). split_and!; [done|done| |done].
  replace (Some (lock_count_ m')) with (if bool_decide (monitor_lock_ m' = Some t) then Some (lock_count_ m') else None) by (by rewrite Hl', bool_decide_eq_true_2).
  eapply change_local; [done|done|done| | |apply L].
  - intros Hb _. by apply bool_decide_eq_true in Hb.
  - intros Hq Hq'. apply (l_quiet _ _ _ _ _ _ _ _ L Hq). apply (queued_same t w w' id m m'); [done|done|done|by rewrite E|by rewrite E|done].
Qed.

(** A thread that takes the free lock. *)
Lemma take_step t run sus tokens hold own quiet w id m :
  inv w -> local t run sus tokens hold own quiet w -> monitors w !! id = Some m -> monitor_lock_ m = None ->
  let w' := with_monitors (<[id := with_monitor_lock (Some t) m]> (monitors w)) w in
  inv w' /\ guarantee t w w' /\ local t run sus tokens (Some 0) false quiet w' /\ holding t id w' /\ hold = None.
Proof.
  intros Hi L Hm Hl w'. destruct (inv_monitor w id m Hi Hm) as (Ev & Em & Hok). assert (owner_ m = None) as Ho by (destruct (owner_ m) eqn:E; [|done]; apply (ok_owner _ _ _ _ Hok) in E; congruence).
  assert (lock_count_ m = 0) as Hc by (by apply Hok).
  assert (monitor_change t w w' id m (with_monitor_lock (Some t) m)) as C.
  { apply plain_change; try done; cbn; rewrite ?Ho, ?Hl; try done; try congruence; apply Hok. }
  destruct (monitor_step t w w' id m _ Hi C) as (Hi' & G & _ & Hm' & _). split_and!; [done|done| | |].
  - replace (Some 0) with (if bool_decide (monitor_lock_ (with_monitor_lock (Some t) m) = Some t) then Some (lock_count_ (with_monitor_lock (Some t) m)) else None)
      by (rewrite bool_decide_eq_true_2 by done; cbn; by rewrite Hc).
    eapply change_local; [done|done|done|done| |apply L]. intros Hq Hq'. apply (l_quiet _ _ _ _ _ _ _ _ L Hq). by apply (queued_same t w w' id m (with_monitor_lock (Some t) m)).
  - eexists. by split_and!.
  - rewrite <- (l_mine _ _ _ _ _ _ _ _ L). rewrite (mine_fat t w id m) by done. by rewrite Hl.
Qed.

(** What a thread that has stored itself as the owner knows of the monitor. *)
Lemma local_monitor t run sus tokens hold quiet w id m : inv w -> local t run sus tokens hold true quiet w -> monitors w !! id = Some m ->
  if bool_decide (owner_ m = Some t) then monitor_lock_ m = Some t /\ hold = Some (lock_count_ m) else hold = None.
Proof.
  intros Hi L Hm. destruct (inv_monitor w id m Hi Hm) as (Ev & Em & Hok). pose proof (l_mine _ _ _ _ _ _ _ _ L) as E. rewrite (mine_fat t w id m) in E by done.
  destruct (bool_decide_reflect (owner_ m = Some t)) as [Ho|Ho].
  - apply (ok_owner _ _ _ _ Hok) in Ho. split; [done|]. by rewrite bool_decide_eq_true_2 in E.
  - rewrite bool_decide_eq_false_2 in E; [done|]. intros Hl. by apply Ho, (l_own _ _ _ _ _ _ _ _ L eq_refl id m).
Qed.

Lemma load_monitor_spec {X : Set} t P id (f : Monitor -> X) (F : X -> Prop) :
  stable t P -> (forall w, inv w -> P w -> exists m, monitors w !! id = Some m) -> (forall w m, inv w -> P w -> monitors w !! id = Some m -> F (f m)) ->
  triple t P (load_monitor id f) (fun x w => F x /\ P w).
Proof.
  intros HP HE HF. apply triple_aux; [done|]. intros w choice Hi Hp. destruct (HE w Hi Hp) as (m & Hm). rewrite Hm. split; [by constructor|]. split_and!; try done. by apply (HF w).
Qed.

Definition next_hold (hold : option Z) : option Z := Some (match hold with Some n => n + 1 | None => 0 end).

Lemma holding_reach t run sus tokens hold own quiet id w : inv w -> local t run sus tokens hold own quiet w -> run = true -> holding t id w -> fat t id w.
Proof.
  intros Hi L Hrun (m & Hm & _). destruct (inv_monitor w id m Hi Hm) as (Ev & _). split; [|done]. by apply (l_run _ _ _ _ _ _ _ _ L).
Qed.

(** The thread that has the lock stores itself in owner_. *)
Lemma set_owner_spec t tokens quiet id :
  triple t (fun w => local t true None tokens (Some 0) false quiet w /\ holding t id w) (on_monitor id (fun m => (tt, with_owner (Some t) m)))
    (fun _ w => local t true None tokens (Some 0) true quiet w /\ fat t id w).
Proof.
  apply triple_act; [auto with stable|auto with stable|]. intros w choice Hi [L H]. pose proof (holding_reach t true _ _ _ _ _ id w Hi L eq_refl H) as [Hrun Ev].
  destruct H as (m & Hm & Hl & Ho). rewrite Hm. destruct (inv_monitor w id m Hi Hm) as (_ & _ & Hok).
  destruct (owner_step t true None tokens (Some 0) false quiet w id m (with_owner (Some t) m) Hi L Hm Hl) as (Hi' & G & L' & _); [cbn; by rewrite <- Hl|by left|apply Hok|].
  split_and!; [done|done| |by split]. cbn [owner_ with_owner lock_count_] in L'. rewrite (ok_free _ _ _ _ Hok Ho), bool_decide_eq_true_2 in L' by done. done.
Qed.

Lemma load_owner_spec t sus tokens hold quiet id :
  triple t (fun w => local t true sus tokens hold true quiet w /\ fat t id w) (load_monitor id owner_)
    (fun o w => (if bool_decide (o = Some t) then is_Some hold else hold = None) /\ local t true sus tokens hold true quiet w /\ fat t id w).
Proof.
  apply load_monitor_spec; [auto with stable|intros w Hi [_ HF]; apply (reach_monitor t id w Hi); by left|].
  intros w m Hi [L _] Hm. pose proof (local_monitor _ _ _ _ _ _ _ _ _ Hi L Hm) as E. destruct (bool_decide (owner_ m = Some t)); [|done]. destruct E as [_ ->]. eauto.
Qed.

(** The owner finds its own count in the monitor. *)
Lemma owned_monitor t run sus tokens n quiet id w : inv w -> local t run sus tokens (Some n) true quiet w -> reach t id w ->
  exists m, monitors w !! id = Some m /\ monitor_lock_ m = Some t /\ owner_ m = Some t /\ lock_count_ m = n /\ 0 <= n < 2 ^ 32.
Proof.
  intros Hi L Hr. destruct (reach_monitor t id w Hi Hr) as (m & Hm). pose proof (local_monitor _ _ _ _ _ _ _ _ _ Hi L Hm) as E. exists m. split; [done|].
  destruct (bool_decide_reflect (owner_ m = Some t)); [|done]. destruct E as [Hl [= ->]]. split_and!; try done; destruct (inv_monitor w id m Hi Hm) as (_ & _ & Hok); apply Hok.
Qed.

(** The owner stores a new count. *)
Lemma set_count_spec {X : Set} t tokens n n' quiet id (a : world -> Z -> outcome X) b :
  0 <= n' < 2 ^ 32 ->
  (forall w choice m, monitors w !! id = Some m -> lock_count_ m = n -> a w choice = Done b (with_monitors (<[id := with_count n' m]> (monitors w)) w)) ->
  triple t (fun w => local t true None tokens (Some n) true quiet w /\ fat t id w) (act a)
    (fun r w => r = b /\ local t true None tokens (Some n') true quiet w /\ fat t id w).
Proof.
  intros Hn' Ha. apply triple_act; [auto with stable|auto with stable|]. intros w choice Hi [L HF]. destruct (owned_monitor _ _ _ _ _ _ _ _ Hi L (or_introl HF)) as (m & Hm & Hl & Ho & Hn & _).
  rewrite (Ha w choice m Hm Hn). destruct (owner_step t true None tokens (Some n) true quiet w id m (with_count n' m) Hi L Hm Hl) as (Hi' & G & L' & _); [cbn; by rewrite <- Hl|by left|done|].
  split_and!; [done|done|done| |by destruct HF; split]. cbn [owner_ with_count lock_count_] in L'. by rewrite Ho, bool_decide_eq_true_2 in L' by done.
Qed.

Lemma TryLock_spec t tokens hold quiet id :
  triple t (fun w => local t true None tokens hold true quiet w /\ fat t id w) (TryLock t id)
    (fun b w => (b = false -> hold = None) /\ local t true None tokens (if (b : bool) then next_hold hold else None) true quiet w /\ fat t id w).
Proof.
  unfold TryLock. eapply triple_bind; [apply load_owner_spec|]. intros o. apply triple_pure. intros Ho. destruct (bool_decide (o = Some t)).
  - destruct Ho as [n ->]. cbn [next_hold]. destruct (decide (n + 1 < 2 ^ 32)) as [Hlt|Hge].
    + apply (triple_inv t _ (fun w => 0 <= n /\ local t true None tokens (Some n) true quiet w /\ fat t id w)); [auto with stable| |].
      { intros w Hi [L HF]. by destruct (owned_monitor _ _ _ _ _ _ _ _ Hi L (or_introl HF)) as (m & _ & _ & _ & _ & Hn & _). }
      apply triple_pure. intros Hn. eapply triple_mono; [apply (set_count_spec t tokens n (n + 1) quiet id _ true); [lia|]|done|by intros r w (-> & L & HF)].
      intros w choice m Hm Hc. rewrite Hm, Hc. cbn beta iota zeta. unfold uN. rewrite Z.mod_small by lia. by rewrite (proj2 (Z.eqb_neq _ 0)) by lia.
    + apply triple_act; [auto with stable|intros []; auto with stable|]. intros w choice Hi [L HF]. destruct (owned_monitor _ _ _ _ _ _ _ _ Hi L (or_introl HF)) as (m & Hm & _ & Ho & Hc & Hn).
      assert (n = 2 ^ 32 - 1) as -> by lia. rewrite Hm, Hc. by exists id, m.
  - subst hold. eapply (triple_bind t _ _ _ (fun (b : bool) w => if b then local t true None tokens (Some 0) false quiet w /\ holding t id w else local t true None tokens None true quiet w /\ fat t id w)).
    { apply triple_act; [auto with stable|intros []; auto with stable|]. intros w choice Hi [L HF]. destruct (reach_monitor t id w Hi (or_introl HF)) as (m & Hm). rewrite Hm.
      destruct (monitor_lock_ m) as [o'|] eqn:El.
      - replace (with_monitors (<[id := m]> (monitors w)) w) with w by (rewrite insert_id by done; by destruct w). split_and!; [done|intros t' _; apply rely_refl|done|done].
      - destruct (take_step t _ _ _ _ _ _ w id m Hi L Hm El) as (Hi' & G & L' & H' & _). by split_and!. }
    intros [|]; cbn [negb]; [|apply triple_ret; [auto with stable|by intros w _ [L HF]]].
    eapply triple_bind; [apply set_owner_spec|]. intros []. eapply triple_bind.
    { apply (load_monitor_spec t _ id lock_count_ (fun n => n = 0)); [auto with stable|intros w Hi [_ HF]; apply (reach_monitor t id w Hi); by left|].
      intros w m Hi [L HF] Hm. destruct (owned_monitor _ _ _ _ _ _ _ _ Hi L (or_introl HF)) as (m' & Hm' & _ & _ & Hc & _). congruence. }
    intros n. apply triple_pure. intros ->. apply triple_ret; [auto with stable|by intros w _ [L HF]].
Qed.

(** The count of the waiters. *)
Lemma remove_one_spec t id l tokens : filter (fun x => x.1 = t) l = (t, id) :: tokens ->
  filter (fun x => x.1 = t) (remove_one (t, id) l) = tokens /\ (forall t', t' <> t -> filter (fun x => x.1 = t') (remove_one (t, id) l) = filter (fun x => x.1 = t') l) /\
  Z.of_nat (length (remove_one (t, id) l)) = Z.of_nat (length l) - 1 /\ (forall y, y ∈ remove_one (t, id) l -> y ∈ l) /\ (forall y, y ∈ l -> y <> (t, id) -> y ∈ remove_one (t, id) l).
Proof.
  induction l as [|x l IH]; [done|]. cbn [remove_one length]. destruct (decide (x = (t, id))) as [->|Hne].
  - rewrite filter_cons_True by done. intros [= E]. split_and!; [done| |lia|intros y Hy; by right|intros y Hy Hn; apply elem_of_cons in Hy as [|]; done].
    intros t' Ht. rewrite filter_cons_False; [done|]. cbn. congruence.
  - intros E. assert (x.1 <> t) as Hx by (intros Hx; rewrite filter_cons_True in E by done; congruence). rewrite filter_cons_False in E by done.
    destruct (IH E) as (E1 & E2 & E3 & E4 & E5). cbn [length]. split_and!; [by rewrite filter_cons_False| |lia| |].
    + intros t' Ht. destruct (decide (x.1 = t')); [rewrite !filter_cons_True by done; by rewrite E2|by rewrite !filter_cons_False, E2].
    + intros y Hy. apply elem_of_cons in Hy as [->|Hy]; [left|right; by apply E4].
    + intros y Hy Hn. apply elem_of_cons in Hy as [->|Hy]; [left|right; by apply E5].
Qed.

Lemma waiter_step t run sus tokens hold own quiet w id m l tokens' v :
  inv w -> local t run sus tokens hold own quiet w -> monitors w !! id = Some m ->
  v = Z.of_nat (length l) -> Forall (fun x => x.2 = id) l -> (forall t', t' <> t -> filter (fun x => x.1 = t') l = filter (fun x => x.1 = t') (waiting w)) -> filter (fun x => x.1 = t) l = tokens' ->
  (forall x, (x, id) ∈ waiting w -> (x, id) ∈ l \/ monitor_lock_ m = Some x) ->
  let w' := with_waiting l (with_monitors (<[id := with_num_waiters v m]> (monitors w)) w) in inv w' /\ guarantee t w w' /\ local t run sus tokens' hold own quiet w'.
Proof.
  intros Hi L Hm Hv Hf Ho Ht Hq w'. destruct (inv_monitor w id m Hi Hm) as (Ev & Em & Hok). assert (monitor_change t w w' id m (with_num_waiters v m)) as C.
  { constructor; try done.
    - destruct Hok as [O1 O2 O3 O4 O5 O6 (ws & ks & Q & HQ)]. constructor; try done. exists ws, ks. split; [done|]. intros t' Hin. destruct (HQ t' Hin) as [Hw|]; [by apply Hq|by right].
    - intros t' _. by apply (queued_same t' w w' id m (with_num_waiters v m)). }
  destruct (monitor_step t w w' id m _ Hi C) as (Hi' & G & _). split_and!; [done|done|].
  assert (hold = if bool_decide (monitor_lock_ (with_num_waiters v m) = Some t) then Some (lock_count_ (with_num_waiters v m)) else None) as -> by (rewrite <- (l_mine _ _ _ _ _ _ _ _ L); by apply (mine_fat t w id m)).
  eapply change_local; [done|done|done| | |done].
  - intros Hown Hl. by apply (l_own _ _ _ _ _ _ _ _ L Hown id m).
  - intros Hqt Hq'. apply (l_quiet _ _ _ _ _ _ _ _ L Hqt). by apply (queued_same t w w' id m (with_num_waiters v m)).
Qed.

Lemma AddWaiter_spec t run sus tokens hold own quiet id P :
  stable t P -> (forall w, inv w -> P w -> exists m, monitors w !! id = Some m) ->
  (forall w m v l, P w -> monitors w !! id = Some m -> P (with_waiting l (with_monitors (<[id := with_num_waiters v m]> (monitors w)) w))) ->
  triple t (fun w => local t run sus tokens hold own quiet w /\ P w) (AddWaiter t id) (fun _ w => local t run sus ((t, id) :: tokens) hold own quiet w /\ P w).
Proof.
  intros HP HE HW. apply triple_act; [auto with stable|auto with stable|]. intros w choice Hi [L Hp]. destruct (HE w Hi Hp) as (m & Hm). rewrite Hm. destruct (inv_monitor w id m Hi Hm) as (_ & _ & Hok).
  destruct (waiter_step t run sus tokens hold own quiet w id m ((t, id) :: waiting w) ((t, id) :: tokens) (num_waiters_ m + 1) Hi L Hm) as (Hi' & G & L').
  - rewrite (ok_waiters _ _ _ _ Hok). cbn [length]. lia.
  - constructor; [done|apply Hok].
  - intros t' Ht. rewrite filter_cons_False; [done|]. cbn. congruence.
  - rewrite filter_cons_True by done. f_equal. apply L.
  - intros x Hx. left. by right.
  - split_and!; [done|done|done|]. by apply HW.
Qed.

Lemma RemoveWaiter_spec t sus tokens n own quiet id :
  triple t (fun w => local t true sus ((t, id) :: tokens) (Some n) own quiet w /\ fat t id w) (RemoveWaiter t id) (fun _ w => local t true sus tokens (Some n) own quiet w /\ fat t id w).
Proof.
  apply triple_act; [auto with stable|auto with stable|]. intros w choice Hi [L [Hrun Ef]]. destruct (reach_monitor t id w Hi) as (m & Hm); [right; eapply local_token; [done|left]|].
  rewrite Hm. destruct (inv_monitor w id m Hi Hm) as (Ev & _ & Hok). pose proof (l_tokens _ _ _ _ _ _ _ _ L) as Et. destruct (remove_one_spec _ _ _ _ Et) as (E1 & E2 & E3 & E4 & E5).
  assert (monitor_lock_ m = Some t) as Hl.
  { pose proof (l_mine _ _ _ _ _ _ _ _ L) as Em. rewrite (mine_fat t w id m) in Em by done. by destruct (bool_decide_reflect (monitor_lock_ m = Some t)). }
  destruct (waiter_step t true sus ((t, id) :: tokens) (Some n) own quiet w id m (remove_one (t, id) (waiting w)) tokens (num_waiters_ m - 1) Hi L Hm) as (Hi' & G & L'); [| |done|done| |by split_and!].
  - rewrite (ok_waiters _ _ _ _ Hok). lia.
  - apply Forall_forall. intros y Hy. pose proof (ok_tokens _ _ _ _ Hok) as Hf. rewrite Forall_forall in Hf. by apply Hf, E4.
  - intros x Hx. destruct (decide (x = t)) as [->|Hne]; [by right|]. left. apply E5; [done|congruence].
Qed.

Lemma Lock_spec t tokens hold quiet id :
  triple t (fun w => local t true None tokens hold true quiet w /\ fat t id w) (Lock t id) (fun _ w => local t true None tokens (next_hold hold) true quiet w).
Proof.
  unfold Lock. eapply triple_bind; [apply TryLock_spec|]. intros [|]; cbn beta iota; [apply triple_ret; [auto with stable|by intros w _ (_ & L & _)]|].
  apply triple_pure. intros Hh. rewrite (Hh eq_refl). eapply triple_bind.
  { apply (AddWaiter_spec t true None tokens None true quiet id (fat t id)); [auto with stable|intros w Hi HF; apply (reach_monitor t id w Hi); by left|by intros w m v l [Hr Ev] _]. }
  intros []. eapply (triple_bind t _ _ _ (fun _ w => local t false None ((t, id) :: tokens) None true quiet w /\ True)).
  { eapply triple_mono; [by apply (BeginSuspension_spec t None ((t, id) :: tokens) None true quiet (fun _ => True)); auto with stable|by intros w [L _]|done]. }
  intros []. eapply (triple_bind t _ _ _ (fun _ w => local t false None ((t, id) :: tokens) (Some 0) false quiet w /\ holding t id w)).
  { apply triple_act; [auto with stable|auto with stable|]. intros w choice Hi [L _]. destruct (reach_monitor t id w Hi) as (m & Hm); [right; eapply local_token; [done|left]|].
    rewrite Hm. destruct (monitor_lock_ m) eqn:El; [done|]. destruct (take_step t _ _ _ _ _ _ w id m Hi L Hm El) as (Hi' & G & L' & H' & _). by split_and!. }
  intros []. eapply triple_bind.
  { apply (EndSuspension_spec t None ((t, id) :: tokens) (Some 0) false quiet (holding t id)); [auto with stable|]. intros w w' (m & Hm & H) Hs. exists m. by rewrite (same_monitors _ _ Hs). }
  intros []. eapply triple_bind; [apply set_owner_spec|]. intros [].
  eapply triple_mono; [apply (RemoveWaiter_spec t None tokens 0 true quiet id)|done|by intros _ w [L _]].
Qed.

(** ** Wait sets *)

Lemma queues_unique next wait wake ws ks ws' ks' : queues next wait wake ws ks -> queues next wait wake ws' ks' -> ws = ws' /\ ks = ks'.
Proof. intros Q Q'. split; eapply chain_unique; [apply Q|apply Q'|apply Q|apply Q']. Qed.

(** The thread that has the lock changes the wait sets, and keeps the lock or releases it. *)
Lemma sets_step (keep : bool) t run sus tokens n own quiet quiet' w id m s next' wait' wake' ws ks ws' ks' :
  inv w -> local t run sus tokens (Some n) own quiet w -> monitors w !! id = Some m -> monitor_lock_ m = Some t ->
  queues (wait_next w) (wait_set_ m) (wake_set_ m) ws ks -> queues next' wait' wake' ws' ks' ->
  (forall x, x ∈ ws' ++ ks' -> x ∈ ws ++ ks \/ x = t) -> (quiet' = true -> t ∉ ws' ++ ks') ->
  (keep = false -> owner_ m = None /\ (t ∈ ws' ++ ks' -> (t, id) ∈ waiting w)) ->
  let m' := with_monitor_lock (if keep then Some t else None) (with_sets wait' wake' m) in
  let w' := with_signalled s (with_next next' (with_monitors (<[id := m']> (monitors w)) w)) in
  inv w' /\ guarantee t w w' /\ local t run sus tokens (if keep then Some n else None) (if keep then own else true) quiet' w'.
Proof.
  intros Hi L Hm Hl Q Q' Hin Hquiet Hkeep m' w'. destruct (inv_monitor w id m Hi Hm) as (Ev & Em & Hok).
  assert (forall x, queued x w' -> x ∈ ws' ++ ks') as Hqd.
  { intros x (i & m2 & ws2 & ks2 & Hm2 & Q2 & Hx). unfold w' in Hm2. cbn [monitors with_signalled with_next with_monitors] in Hm2. rewrite Em, insert_singleton_eq in Hm2.
    apply lookup_singleton_Some in Hm2 as [<- <-]. by destruct (queues_unique _ _ _ _ _ _ _ Q' Q2) as [-> ->]. }
  assert (monitor_change t w w' id m m') as C.
  { constructor; try done; cbn [monitor_lock_ owner_ lock_count_ m' with_monitor_lock with_sets].
    - destruct Hok as [O1 O2 O3 O4 O5 O6 (ws2 & ks2 & Q2 & HQ)]. constructor; try done.
      + intros x Hx. cbn in Hx |- *. destruct keep; [rewrite <- Hl; by apply O1|]. rewrite (proj1 (Hkeep eq_refl)) in Hx. done.
      + exists ws', ks'. split; [done|]. destruct (queues_unique _ _ _ _ _ _ _ Q Q2) as [<- <-]. intros x Hx. cbn.
        assert (x <> t -> (x, id) ∈ waiting w) as Hother.
        { intros Hne. destruct (Hin x Hx) as [Hx'|]; [|done]. destruct (HQ x Hx') as [|E]; [done|congruence]. }
        destruct (decide (x = t)) as [->|Hne]; [|left; by apply Hother]. destruct keep; [by right|left]. by apply Hkeep.
    - intros t' Ht E. congruence.
    - intros t' Ht E. destruct keep; congruence.
    - intros t' Ht Hq. apply Hqd, Hin in Hq as [Hq|]; [|done]. by exists id, m, ws, ks. }
  destruct (monitor_step t w w' id m m' Hi C) as (Hi' & G & _). split_and!; [done|done|].
  assert (lock_count_ m = n) as Hn. { pose proof (l_mine _ _ _ _ _ _ _ _ L) as E. rewrite (mine_fat t w id m), bool_decide_eq_true_2 in E by done. congruence. }
  assert ((if keep then Some n else None) = if bool_decide (monitor_lock_ m' = Some t) then Some (lock_count_ m') else None) as ->.
  { destruct keep; [by rewrite bool_decide_eq_true_2, <- Hn|by rewrite bool_decide_eq_false_2]. }
  eapply change_local; [done|done|done| | |apply L].
  - destruct keep; [|done]. intros Hown _. by apply (l_own _ _ _ _ _ _ _ _ L Hown id m).
  - intros Hq Hq'. by apply (Hquiet Hq), Hqd.
Qed.

(** A thread that has the lock, with owner_ stored or not. *)
Lemma locked_monitor t run sus tokens n own quiet id w : inv w -> local t run sus tokens (Some n) own quiet w -> (reach t id w \/ holding t id w) ->
  exists m ws ks, monitors w !! id = Some m /\ monitor_lock_ m = Some t /\ queues (wait_next w) (wait_set_ m) (wake_set_ m) ws ks /\ (quiet = true -> t ∉ ws ++ ks).
Proof.
  intros Hi L Hr. assert (exists m, monitors w !! id = Some m) as (m & Hm) by (destruct Hr as [Hr|(m & Hm & _)]; [by apply (reach_monitor t)|eauto]).
  destruct (inv_monitor w id m Hi Hm) as (Ev & Em & Hok). destruct (ok_queues _ _ _ _ Hok) as (ws & ks & Q & _). exists m, ws, ks. split_and!; [done| |done|].
  - pose proof (l_mine _ _ _ _ _ _ _ _ L) as E. rewrite (mine_fat t w id m) in E by done. by destruct (bool_decide_reflect (monitor_lock_ m = Some t)).
  - intros Hq Hin. apply (l_quiet _ _ _ _ _ _ _ _ L Hq). by exists id, m, ws, ks.
Qed.

(** An operation on the wait sets that always succeeds. *)
Lemma on_wait_sets_spec t run sus tokens n own quiet quiet' id f P :
  stable t P -> (forall w, P w -> reach t id w \/ holding t id w) ->
  (forall w m a b next, P w -> monitors w !! id = Some m -> P (with_next next (with_monitors (<[id := with_sets a b m]> (monitors w)) w))) ->
  (forall next wait wake ws ks, queues next wait wake ws ks -> (quiet = true -> t ∉ ws ++ ks) ->
     exists next' wait' wake' ws' ks', f next wait wake = Some (next', wait', wake') /\ queues next' wait' wake' ws' ks' /\
       (forall x, x ∈ ws' ++ ks' -> x ∈ ws ++ ks \/ x = t) /\ (quiet' = true -> t ∉ ws' ++ ks')) ->
  triple t (fun w => local t run sus tokens (Some n) own quiet w /\ P w) (on_wait_sets id f) (fun _ w => local t run sus tokens (Some n) own quiet' w /\ P w).
Proof.
  intros HP HE HW Hf. apply triple_act; [auto with stable|auto with stable|]. intros w choice Hi [L Hp].
  destruct (locked_monitor t run sus tokens n own quiet id w Hi L (HE w Hp)) as (m & ws & ks & Hm & Hl & Q & Hq). rewrite Hm.
  destruct (Hf _ _ _ _ _ Q Hq) as (next' & wait' & wake' & ws' & ks' & -> & Q' & Hin & Hq').
  destruct (sets_step true t run sus tokens n own quiet quiet' w id m (signalled w) next' wait' wake' ws ks ws' ks' Hi L Hm Hl Q Q' Hin Hq' ltac:(done)) as (Hi' & G & L').
  assert (with_monitor_lock (Some t) (with_sets wait' wake' m) = with_sets wait' wake' m) as Es by (unfold with_monitor_lock; cbn; by rewrite <- Hl).
  cbn [negb] in *. rewrite Es in *. split_and!; [done|done|done|]. by apply HW.
Qed.

Lemma Signal_spec t run sus tokens quiet id P : stable t P -> (forall w w', P w -> waiting w' = waiting w -> runnable w' = runnable w -> P w') -> (quiet = false -> (t, id) ∈ tokens) ->
  triple t (fun w => local t run sus tokens (Some 0) false quiet w /\ holding t id w /\ P w) (SignalWaiterAndReleaseMonitorLock t id)
    (fun _ w => local t run sus tokens None true quiet w /\ P w).
Proof.
  intros HP HW Htok. apply triple_act; [auto with stable|auto with stable|]. intros w choice Hi (L & H & Hp).
  destruct (locked_monitor t run sus tokens 0 false quiet id w Hi L (or_intror H)) as (m & ws & ks & Hm & Hl & Q & Hq). rewrite Hm.
  destruct (queues_signal (wait_monitor w) _ _ _ _ _ Q) as (next' & wake' & thread & gone & ks' & -> & -> & Q' & _).
  assert (owner_ m = None) as Ho by (destruct H as (m2 & Hm2 & _ & Ho); congruence).
  edestruct (sets_step false t run sus tokens 0 false quiet quiet w id m) as (Hi' & G & L'); [done|done|done|done|exact Q|exact Q'| | | |split_and!; [exact Hi'|exact G|exact L'|]].
  - intros x. rewrite !elem_of_app. tauto.
  - intros Hqt Hin. apply (Hq Hqt). rewrite !elem_of_app in *. tauto.
  - intros _. split; [done|]. intros Hin. destruct quiet; [exfalso; apply (Hq eq_refl); rewrite !elem_of_app in *; tauto|]. eapply local_token; [exact L|by apply Htok].
  - by apply (HW w).
Qed.

Lemma clear_owner_spec t tokens quiet id :
  triple t (fun w => local t true None tokens (Some 0) true quiet w /\ fat t id w) (on_monitor id (fun m => (tt, with_owner None m)))
    (fun _ w => local t true None tokens (Some 0) false quiet w /\ holding t id w).
Proof.
  apply triple_act; [auto with stable|auto with stable|]. intros w choice Hi [L HF]. destruct (owned_monitor _ _ _ _ _ _ _ _ Hi L (or_introl HF)) as (m & Hm & Hl & Ho & Hc & _). rewrite Hm.
  destruct (owner_step t true None tokens (Some 0) true quiet w id m (with_owner None m) Hi L Hm Hl) as (Hi' & G & L' & Hm'); [cbn; by rewrite <- Hl|by right|cbn; lia|].
  cbn [owner_ with_owner lock_count_] in L'. rewrite Hc, bool_decide_eq_false_2 in L' by done. split_and!; [done|done|done|]. exists (with_owner None m). by split_and!.
Qed.

(** The hold of a thread after a MonitorExit. *)
Definition prev_hold (n : Z) : option Z := if n =? 0 then None else Some (n - 1).

Lemma count_spec t tokens n quiet id :
  triple t (fun w => local t true None tokens (Some n) true quiet w /\ fat t id w) (load_monitor id lock_count_)
    (fun x w => (x = n /\ 0 <= n < 2 ^ 32) /\ local t true None tokens (Some n) true quiet w /\ fat t id w).
Proof.
  apply (load_monitor_spec t _ id lock_count_ (fun x => x = n /\ 0 <= n < 2 ^ 32)); [auto with stable|intros w Hi [_ HF]; apply (reach_monitor t id w Hi); by left|].
  intros w m Hi [L HF] Hm. destruct (owned_monitor _ _ _ _ _ _ _ _ Hi L (or_introl HF)) as (m' & Hm' & _ & _ & Hc & Hn). split; [congruence|done].
Qed.

Lemma Unlock_spec t tokens hold id :
  triple t (fun w => local t true None tokens hold true true w /\ fat t id w) (Unlock t id)
    (fun b w => match hold with Some n => b = true /\ local t true None tokens (prev_hold n) true true w | None => b = false /\ local t true None tokens None true true w end).
Proof.
  unfold Unlock. eapply triple_bind; [apply load_owner_spec|]. intros o. apply triple_pure. intros Ho. destruct (bool_decide (o = Some t)).
  - destruct Ho as [n ->]. eapply triple_bind; [apply count_spec|]. intros x. apply triple_pure. intros [-> Hn]. unfold prev_hold. destruct (Z.eqb_spec n 0) as [->|Hn0].
    + eapply triple_bind; [apply clear_owner_spec|]. intros []. eapply (triple_bind t _ _ _ (fun _ w => local t true None tokens None true true w /\ True)).
      * eapply triple_mono; [by apply (Signal_spec t true None tokens true id (fun _ => True)); auto with stable|by intros w [L H]|done].
      * intros []. apply triple_ret; [auto with stable|by intros w _ [L _]].
    + eapply triple_bind; [apply (set_count_spec t tokens n (n - 1) true id _ tt); [lia|]|].
      * intros w choice m Hm Hc. rewrite Hm, Hc. unfold uN. by rewrite Z.mod_small by lia.
      * intros []. apply triple_pure. intros _. apply triple_ret; [auto with stable|by intros w _ [L _]].
  - subst hold. apply triple_ret; [auto with stable|by intros w _ [L _]].
Qed.

Lemma sets_frame_fat t id w m a b next : fat t id w -> monitors w !! id = Some m -> fat t id (with_next next (with_monitors (<[id := with_sets a b m]> (monitors w)) w)).
Proof. by intros [Hr Ev] _. Qed.

Lemma Notify_spec t tokens hold id :
  triple t (fun w => local t true None tokens hold true true w /\ fat t id w) (Notify t id)
    (fun r w => r = (match hold with Some _ => RVoid | None => RIllegalMonitorState end) /\ local t true None tokens hold true true w).
Proof.
  unfold Notify. eapply triple_bind; [apply load_owner_spec|]. intros o. apply triple_pure. intros Ho. destruct (bool_decide (o = Some t)); cbn [negb].
  - destruct Ho as [n ->]. eapply triple_bind; [apply (on_wait_sets_spec t true None tokens n true true true id _ (fat t id)); [auto with stable|by left; left|by intros; apply sets_frame_fat|]|].
    + intros next wait wake ws ks Q Hq. pose proof (queues_notify_one _ _ _ _ _ Q) as Q'. destruct (notify_one next wait wake) as [[next' wait'] wake']. exists next', wait', wake', (tail ws), (take 1 ws ++ ks).
      assert (forall x, x ∈ tail ws ++ take 1 ws ++ ks -> x ∈ ws ++ ks) as Hsub by (intros x; destruct ws; cbn; rewrite ?take_0, ?elem_of_app, ?elem_of_cons, ?elem_of_app, ?elem_of_nil; tauto).
      split_and!; [done|done|intros x Hx; left; by apply Hsub|]. intros Hqt Hin. by apply (Hq Hqt), Hsub.
    + intros []. apply triple_ret; [auto with stable|by intros w _ [L _]].
  - subst hold. apply triple_ret; [auto with stable|by intros w _ [L _]].
Qed.

Lemma NotifyAll_spec t tokens hold id :
  triple t (fun w => local t true None tokens hold true true w /\ fat t id w) (NotifyAll t id)
    (fun r w => r = (match hold with Some _ => RVoid | None => RIllegalMonitorState end) /\ local t true None tokens hold true true w).
Proof.
  unfold NotifyAll. eapply triple_bind; [apply load_owner_spec|]. intros o. apply triple_pure. intros Ho. destruct (bool_decide (o = Some t)); cbn [negb].
  - destruct Ho as [n ->]. eapply triple_bind; [apply (on_wait_sets_spec t true None tokens n true true true id _ (fat t id)); [auto with stable|by left; left|by intros; apply sets_frame_fat|]|].
    + intros next wait wake ws ks Q Hq. destruct (queues_notify_all _ _ _ _ _ Q) as (next' & wait' & wake' & E & Q'). exists next', wait', wake', [], (ks ++ ws).
      assert (forall x, x ∈ [] ++ ks ++ ws -> x ∈ ws ++ ks) as Hsub by (intros x; cbn [app]; rewrite !elem_of_app; tauto).
      split_and!; [done|done|intros x Hx; left; by apply Hsub|]. intros Hqt Hin. by apply (Hq Hqt), Hsub.
    + intros []. apply triple_ret; [auto with stable|by intros w _ [L _]].
  - subst hold. apply triple_ret; [auto with stable|by intros w _ [L _]].
Qed.

Lemma aux_spec {X : Set} t P (a : world -> Z -> outcome X) :
  stable t P ->
  (forall w choice, match a w choice with
     | Done x w' => same_lock w w' /\ runnable w' = runnable w /\ suspended_by w' = suspended_by w /\ list_ w' = list_ w
     | Blocked => True
     | Fatal why => excused t w choice why
     end) ->
  triple t P (act a) (fun _ w => P w).
Proof.
  intros HP Ha. eapply triple_mono; [apply (triple_aux t P a (fun _ => True) HP)|done|by intros x w [_ H]]. intros w choice _ _. specialize (Ha w choice).
  destruct (a w choice); try done. destruct Ha as (H1 & H2 & H3 & H4). by split_and!.
Qed.

Ltac aux := apply aux_spec; [auto with stable|intros w choice; cbn beta; repeat case_match; simplify_eq; try done; split_and!; by constructor].

(** The first part of a wait: the thread gives up the lock and waits. *)
Lemma wait_release_spec {R} t id (f : unit -> prog R) Q :
  triple t (fun w => local t false None [(t, id)] (Some 0) false false w /\ holding t id w) (f tt) Q ->
  triple t (fun w => local t true None [] (Some 0) true true w /\ fat t id w)
    (_ ← on_monitor id (fun m => (tt, with_owner None m)); _ ← AddWaiter t id; _ ← BeginSuspension t;
     x ← on_wait_sets id (fun next wait_set wake_set => '(next, wait_set) ← AppendToWaitSet t next wait_set; Some (next, wait_set, wake_set)); f x) Q.
Proof.
  intros Hf. eapply triple_bind; [apply clear_owner_spec|]. intros [].
  assert (forall w w' m m', holding t id w -> monitors w !! id = Some m -> monitors w' = <[id := m']> (monitors w) -> monitor_lock_ m' = monitor_lock_ m -> owner_ m' = owner_ m -> holding t id w') as HH.
  { intros w w' m m' (m2 & Hm2 & Hl & Ho) Hm E El Eo. exists m'. rewrite E, lookup_insert_eq. rewrite Hm in Hm2. injection Hm2 as <-. by rewrite El, Eo. }
  eapply triple_bind; [apply (AddWaiter_spec t true None [] (Some 0) false true id (holding t id)); [auto with stable|by intros w _ (m & Hm & _); exists m|]|].
  { intros w m v l H Hm. by apply (HH w _ m (with_num_waiters v m)). }
  intros []. eapply triple_bind; [apply (BeginSuspension_spec t None [(t, id)] (Some 0) false true (holding t id)); [auto with stable| |done]|].
  { intros w w' (m & Hm & H) Hs. exists m. by rewrite (same_monitors _ _ Hs). }
  intros []. eapply (triple_bind t _ _ _ (fun _ w => local t false None [(t, id)] (Some 0) false false w /\ holding t id w)); [|intros []; exact Hf]. apply (on_wait_sets_spec t false None [(t, id)] 0 false true false id _ (holding t id)); [auto with stable|by right| |].
  { intros w m a b next H Hm. by apply (HH w _ m (with_sets a b m)). }
  intros next wait wake ws ks HQ Hq. destruct (queues_append _ _ _ _ _ t HQ (Hq eq_refl)) as (next' & wait' & -> & Q'). exists next', wait', wake, (ws ++ [t]), ks. split_and!; [done|done| |done].
  intros x. rewrite !elem_of_app, list_elem_of_singleton. tauto.
Qed.

(** The last part: the thread has the lock again and leaves the wait sets. *)
Lemma wait_return_spec t n id (r : result) : 0 <= n < 2 ^ 32 ->
  triple t (local t true None [(t, id)] None true false)
    (_ ← Lock t id; _ ← on_monitor id (fun m => (tt, with_count n m)); _ ← RemoveWaiter t id; _ ← on_wait_sets id (RemoveFromWaitSet t); Ret r)
    (fun x w => x = r /\ local t true None [] (Some n) true true w).
Proof.
  intros Hn. assert (forall hold own quiet w, inv w -> local t true None [(t, id)] hold own quiet w -> local t true None [(t, id)] hold own quiet w /\ fat t id w) as HF.
  { intros hold own quiet w Hi L. split; [done|]. eapply token_fat; [done|done|done|]. eapply local_token; [done|left]. }
  eapply triple_bind; [eapply triple_inv; [auto with stable|apply HF|apply Lock_spec]|]. intros [].
  eapply triple_bind; [eapply triple_inv; [auto with stable|apply HF|apply (set_count_spec t [(t, id)] 0 n false id _ tt); [done|by intros w choice m ->]]|].
  intros []. apply triple_pure. intros _. eapply triple_bind; [apply (RemoveWaiter_spec t None [] n true false id)|]. intros []. eapply triple_bind.
  - apply (on_wait_sets_spec t true None [] n true false true id _ (fat t id)); [auto with stable|by left; left|by intros; apply sets_frame_fat|].
    intros next wait wake ws ks Q _. destruct (queues_remove _ _ _ _ _ t Q) as (next' & wait' & wake' & E & Q'). eexists next', wait', wake', _, _. split_and!; [done|exact Q'| |].
    + intros x. rewrite !elem_of_app, !list_elem_of_filter. tauto.
    + intros _. rewrite !elem_of_app, !list_elem_of_filter. tauto.
  - intros []. apply triple_ret; [auto with stable|by intros w _ [L _]].
Qed.

(** The result of a wait; a negative time or more nanoseconds than a millisecond has are an illegal argument. *)
Definition wait_result (ms ns : Z) (should_throw : bool) (hold : option Z) (v : result) : Prop :=
  match hold with
  | None => v = RIllegalMonitorState
  | Some _ => if (ms <? 0) || (ns <? 0) || (999999 <? ns) then v = RIllegalArgument else v = RVoid \/ v = RInterrupted /\ should_throw = true
  end.

Lemma MonitorWait_spec t hold id ms ns should_throw why :
  triple t (fun w => local t true None [] hold true true w /\ fat t id w) (MonitorWait t id ms ns should_throw why)
    (fun r w => wait_result ms ns should_throw hold r /\ local t true None [] hold true true w).
Proof.
  unfold MonitorWait, wait_result. eapply triple_bind; [apply load_owner_spec|]. intros o. apply triple_pure. intros Ho. destruct (bool_decide (o = Some t)); cbn [negb].
  2: { subst hold. apply triple_ret; [auto with stable|by intros w _ [L _]]. }
  destruct Ho as [n ->]. destruct ((ms <? 0) || (ns <? 0) || (999999 <? ns)); [apply triple_ret; [auto with stable|by intros w _ [L _]]|].
  apply (triple_inv t _ (fun w => (0 <= n < 2 ^ 32) /\ local t true None [] (Some n) true true w /\ fat t id w)); [auto with stable| |].
  { intros w Hi [L HF]. by destruct (owned_monitor _ _ _ _ _ _ _ _ Hi L (or_introl HF)) as (m & _ & _ & _ & _ & Hn). }
  apply triple_pure. intros Hn. eapply triple_bind; [apply (set_count_spec t [] n 0 true id _ n); [lia|by intros w choice m -> ->]|]. intros x. apply triple_pure. intros ->.
  apply wait_release_spec. eapply triple_bind; [aux|]. intros [].
  eapply (triple_bind t _ _ _ (fun _ w => local t false None [(t, id)] None true false w /\ True)).
  { eapply triple_mono; [by apply (Signal_spec t false None [(t, id)] false id (fun _ => True)); auto with stable; left|by intros w [L H]|done]. }
  intros []. eapply triple_bind; [aux|]. intros was_interrupted.
  eapply (triple_bind t _ _ _ (fun _ w => local t false None [(t, id)] None true false w /\ True)).
  { destruct was_interrupted; [by apply triple_ret; [auto with stable|]|]. eapply triple_bind; [aux|]. intros []. aux. }
  clear was_interrupted. intros was_interrupted.
  eapply triple_bind; [by apply (EndSuspension_spec t None [(t, id)] None true false (fun _ => True)); auto with stable|]. intros []. eapply triple_bind; [aux|]. intros []. cbn zeta.
  eapply (triple_bind t _ _ _ (fun _ w => local t true None [(t, id)] None true false w /\ True)).
  { destruct (was_interrupted && should_throw); [aux|by apply triple_ret; [auto with stable|]]. }
  intros []. eapply triple_mono; [by apply (wait_return_spec t n id)|by intros w [L _]|]. intros r w [-> L]. split; [|done]. destruct was_interrupted, should_throw; cbn [andb]; auto.
Qed.

(** The hash code of the monitor, or zero. *)
Lemma MonitorGetHashCode_spec t hold id :
  triple t (fun w => local t true None [] hold true true w /\ fat t id w) (MonitorGetHashCode id) (fun h w => (h = 0 \/ hash_is h w) /\ local t true None [] hold true true w).
Proof.
  unfold MonitorGetHashCode. eapply (triple_bind t _ _ _ (fun hc w => (local t true None [] hold true true w /\ fat t id w) /\ (hc = 0 \/ hash_is hc w))).
  { apply triple_act; [auto with stable|auto 6 with stable|]. intros w choice Hi [L HF]. destruct (reach_monitor t id w Hi (or_introl HF)) as (m & Hm). rewrite Hm.
    split_and!; [done|intros t' _; apply rely_refl|done|done|]. destruct (Z.eqb_spec (hash_code_ m) 0) as [|Hne]; [by left|right]. unfold hash_is, hash_of. rewrite (proj2 HF), Hm. cbn [mbind option_bind]. by rewrite (proj2 (Z.eqb_neq _ 0)). }
  intros hc. eapply triple_bind; [apply (load_monitor_spec t _ id _ (fun _ => True)); [auto 6 with stable|intros w Hi [[_ HF] _]; apply (reach_monitor t id w Hi); by left|done]|].
  intros has. apply triple_pure. intros _. destruct has; [apply triple_ret; [auto 6 with stable|by intros w _ [[L _] Hh]]|].
  eapply (triple_bind t _ _ _ (fun h w => (0 < h <= kMaxHash) /\ local t true None [] hold true true w /\ fat t id w)).
  { eapply triple_mono; [apply (GenerateIdentityHashCode_spec t (fun w => local t true None [] hold true true w /\ fat t id w)); auto with stable|by intros w [? _]|done]. }
  intros h. apply triple_pure. intros Hh. eapply (triple_bind t _ _ _ (fun _ w => (local t true None [] hold true true w /\ fat t id w) /\ exists h, hash_is h w)).
  - apply triple_act; [auto with stable|auto 6 with stable|]. intros w choice Hi [L HF]. destruct (reach_monitor t id w Hi (or_introl HF)) as (m & Hm). rewrite Hm.
    destruct (inv_monitor w id m Hi Hm) as (Ev & Em & Hok). set (m' := if hash_code_ m =? 0 then with_hash h m else m). set (w' := with_monitors _ w).
    assert (monitor_lock_ m' = monitor_lock_ m /\ owner_ m' = owner_ m /\ lock_count_ m' = lock_count_ m /\ wait_set_ m' = wait_set_ m /\ wake_set_ m' = wake_set_ m /\ num_waiters_ m' = num_waiters_ m) as (M1 & M2 & M3 & M4 & M5 & M6)
      by (unfold m'; by destruct (hash_code_ m =? 0)).
    assert (0 < hash_code_ m' <= kMaxHash /\ (hash_code_ m <> 0 -> hash_code_ m' = hash_code_ m)) as [M7 M8].
    { pose proof (ok_hash _ _ _ _ Hok). unfold m'. destruct (Z.eqb_spec (hash_code_ m) 0); cbn; lia. }
    assert (monitor_change t w w' id m m') as C.
    { apply plain_change; try done; rewrite ?M1, ?M2, ?M3; try done; try apply Hok. lia. }
    destruct (monitor_step t w w' id m m' Hi C) as (Hi' & G & Ev' & Hm' & _). split_and!; [done|done| |done|].
    + assert (hold = if bool_decide (monitor_lock_ m' = Some t) then Some (lock_count_ m') else None) as -> by (rewrite <- (l_mine _ _ _ _ _ _ _ _ L), M1, M3; by apply (mine_fat t w id m)).
      eapply change_local; [done|done|done| | |apply L].
      * intros _. rewrite M1, M2. by apply (l_own _ _ _ _ _ _ _ _ L eq_refl id m).
      * intros Hqt Hq'. apply (l_quiet _ _ _ _ _ _ _ _ L Hqt). by apply (queued_same t w w' id m m').
    + exists (hash_code_ m'). unfold hash_is, hash_of. rewrite Ev', Hm'. cbn [mbind option_bind]. by rewrite (proj2 (Z.eqb_neq _ 0)) by lia.
  - intros []. apply triple_act; [auto 6 with stable|auto with stable|]. intros w choice Hi [[L HF] [h' Hh']]. destruct (reach_monitor t id w Hi (or_introl HF)) as (m & Hm). rewrite Hm.
    split_and!; [done|intros t' _; apply rely_refl|right|done]. unfold hash_is, hash_of in *. rewrite (proj2 HF), Hm in *. cbn [mbind option_bind] in *. by destruct (Z.eqb_spec (hash_code_ m) 0).
Qed.

(** ** The lock word *)

Definition ready (t : Z) (hold : option Z) (w : world) : Prop := local t true None [] hold true true w.

Lemma stable_ready t hold : stable t (ready t hold).
Proof. apply local_stable. Qed.
Hint Resolve stable_ready : stable.

Definition hold_of (t : Z) (c : contents) : option Z := match c with Thin o n => if o =? t then Some n else None | _ => None end.

Lemma make_word lw c c' : word_ok lw c -> valid_contents c' ->
  exists new, word_ok new c' /\
    match c' with
    | Unlocked => FromDefault (GCState lw) = new
    | Thin o n => FromThinLockId o n (GCState lw) = Some new
    | Fat id => FromMonitor id (GCState lw) = new
    | Hash h => FromHashCode h (GCState lw) = Some new
    end.
Proof.
  intros (g & -> & Hc & Hg & Hu) Hc'. rewrite GCState_encode by done. exists (encode c' g). split; [by exists g|]. apply make_words; [done|apply Hg].
Qed.

(** The lock word of an object that is unlocked, or locked by the thread, is replaced. *)
Lemma store_word t hold w lw c new c' : inv w -> ready t hold w -> lock_word w = lw -> word_ok lw c -> (c = Unlocked \/ exists n, c = Thin t n) -> word_ok new c' ->
  (c' = Unlocked \/ (exists n, c' = Thin t n) \/ exists h, c' = Hash h /\ h <> 0) ->
  let w' := with_lock_word new w in inv w' /\ guarantee t w w' /\ ready t (hold_of t c') w' /\ forall h, c' = Hash h -> hash_is h w'.
Proof.
  intros Hi L <- Hlw Hc Hnew Hc' w'. pose proof (word_view w c Hlw) as Ev. destruct (word_step t w new c' Hi) as (Hi' & G & Ev'); [by apply (l_run _ _ _ _ _ _ _ _ L)|by rewrite Ev|done|done|].
  fold w' in Hi', G, Ev'. split_and!; [done|done| |].
  - constructor; try apply L. unfold mine, hold_of. rewrite Ev'. destruct c'; try done. by destruct Hc' as [?|[[? ?]|(? & ? & _)]].
  - intros h ->. unfold hash_is, hash_of. by rewrite Ev'.
Qed.

Lemma CasLockWord_spec t hold weak lw c new c' : word_ok lw c -> (c = Unlocked \/ exists n, c = Thin t n) -> word_ok new c' ->
  (c' = Unlocked \/ (exists n, c' = Thin t n) \/ exists h, c' = Hash h /\ h <> 0) ->
  triple t (ready t hold) (CasLockWord weak lw new) (fun b w => if (b : bool) then ready t (hold_of t c') w /\ forall h, c' = Hash h -> hash_is h w else ready t hold w).
Proof.
  intros Hlw Hc Hnew Hc'. assert (stable t (fun w => forall h, c' = Hash h -> hash_is h w)) as Hst by (intros w w' H Hi R h E; apply (r_hash _ _ _ R); by apply H).
  apply triple_act; [auto with stable|intros []; auto with stable|]. intros w choice Hi L. destruct ((lock_word w =? lw) && negb (weak && negb (choice =? 0))) eqn:E.
  - apply andb_true_iff in E as [E _]. apply Z.eqb_eq in E. by destruct (store_word t hold w lw c new c' Hi L E Hlw Hc Hnew Hc') as (Hi' & G & L' & Hh).
  - split_and!; [done|intros t' _; apply rely_refl|done].
Qed.

Lemma SetLockWord_spec t hold lw n new c' : gUseReadBarrier = false -> word_ok lw (Thin t n) -> word_ok new c' -> (c' = Unlocked \/ exists n, c' = Thin t n) ->
  triple t (fun w => ready t hold w /\ own_thin t n lw w) (SetLockWord new) (fun _ w => ready t (hold_of t c') w).
Proof.
  intros Hb Hlw Hnew Hc'. apply triple_act; [auto with stable|auto with stable|]. intros w choice Hi [L (_ & _ & E)].
  destruct (store_word t hold w lw (Thin t n) new c' Hi L (E Hb) Hlw) as (Hi' & G & L' & _); [by right; exists n|done|by destruct Hc'; auto|]. by split_and!.
Qed.

(** ** The functions on the object *)

(** The hold of a thread after a call, and the results that it can have. *)
Definition hold_after (r : request) (v : result) (hold : option Z) : option Z :=
  match r, v with
  | EnterRequest _, RTrue => next_hold hold
  | ExitRequest, RTrue => hold ≫= prev_hold
  | _, _ => hold
  end.

Definition allowed (t : Z) (r : request) (hold : option Z) (v : result) : Prop :=
  match r with
  | EnterRequest trylock => v = RTrue \/ (v = RFalse /\ trylock = true /\ hold = None)
  | ExitRequest => v = match hold with Some _ => RTrue | None => RFalse end
  | WaitRequest ms ns should_throw _ => wait_result ms ns should_throw hold v
  | NotifyRequest _ => v = match hold with Some _ => RVoid | None => RIllegalMonitorState end
  | HashRequest => exists h, v = RHash h
  | OwnerRequest => exists o, v = RThreadId o /\ (o = t <-> is_Some hold)
  | ReadBarrierRequest _ _ | MarkBitRequest _ _ => v = RTrue \/ v = RFalse
  end.

Definition post (t : Z) (r : request) (hold : option Z) (c : control) (w : world) : Prop :=
  match c with
  | Again _ => ready t hold w
  | Return v => ((forall h, v = RHash h -> h = 0 \/ hash_is h w) /\ allowed t r hold v) /\ ready t (hold_after r v hold) w
  end.

Lemma read_word t hold {R} (f : Z -> prog R) Q :
  (forall lw c, word_ok lw c -> consistent t hold c -> triple t (fun w => ready t hold w /\ seen t lw c w) (f lw) Q) -> triple t (ready t hold) (GetLockWord ≫= f) Q.
Proof.
  intros Hf. eapply triple_bind; [apply (GetLockWord_spec t (ready t hold) (fun _ => True) None [] hold true true); [auto with stable|done|done]|].
  intros lw. apply triple_seen. intros c (Hlw & _ & Hc). by apply Hf.
Qed.

(** A call that ends without a further action. *)
Lemma triple_return t r hold (P : world -> Prop) v : stable t P -> (forall w, inv w -> P w -> ready t (hold_after r v hold) w /\ (forall h, v = RHash h -> h = 0 \/ hash_is h w)) -> allowed t r hold v ->
  triple t P (Ret (Return v)) (post t r hold).
Proof. intros HP HQ Ha. apply triple_ret; [done|]. intros w Hi Hp. by destruct (HQ w Hi Hp). Qed.

Lemma triple_again t r hold (P : world -> Prop) k : stable t P -> (forall w, P w -> ready t hold w) -> triple t P (Ret (Again k)) (post t r hold).
Proof. intros HP HQ. apply triple_ret; [done|]. intros w _. apply HQ. Qed.

(** A compare-and-swap that ends a call if it succeeds. *)
Lemma cas_return t r hold (P : world -> Prop) weak lw c new c' v k :
  (forall w, P w -> ready t hold w) -> word_ok lw c -> (c = Unlocked \/ exists n, c = Thin t n) -> word_ok new c' ->
  (c' = Unlocked \/ (exists n, c' = Thin t n) \/ exists h, c' = Hash h /\ h <> 0) ->
  hold_after r v hold = hold_of t c' -> (forall h, v = RHash h -> c' = Hash h) -> allowed t r hold v ->
  triple t P (success ← CasLockWord weak lw new; Ret (if (success : bool) then Return v else Again k)) (post t r hold).
Proof.
  intros HP Hlw Hc Hnew Hc' Hh Hv Ha. eapply triple_bind; [eapply triple_mono; [by apply (CasLockWord_spec t hold weak lw c new c')|done|done]|].
  assert (stable t (fun w => forall h, c' = Hash h -> hash_is h w)) as Hst by (intros w w' H Hi R h E; apply (r_hash _ _ _ R); by apply H).
  intros [|]; [|apply triple_again; auto with stable]. apply triple_return; [auto with stable| |done]. intros w _ [L H]. rewrite Hh. split; [done|]. intros h E. right. by apply H, Hv.
Qed.

Lemma store_return t r hold lw n new c' v :
  gUseReadBarrier = false -> word_ok lw (Thin t n) -> word_ok new c' -> (c' = Unlocked \/ exists n, c' = Thin t n) -> hold_after r v hold = hold_of t c' -> (forall h, v <> RHash h) -> allowed t r hold v ->
  triple t (fun w => ready t hold w /\ seen t lw (Thin t n) w) (_ ← SetLockWord new; Ret (Return v)) (post t r hold).
Proof.
  intros Hb Hlw Hnew Hc' Hh Hv Ha. eapply triple_bind; [eapply triple_mono; [by apply (SetLockWord_spec t hold lw n new c')|intros w [L Hs]; split; [done|by apply Hs]|done]|].
  intros []. apply triple_return; [auto with stable| |done]. intros w _ L. rewrite Hh. split; [done|]. intros h E. by destruct (Hv h).
Qed.

(** The thin lock of the thread, stored or replaced. *)
Lemma thin_return t r hold lw n new c' v k :
  word_ok lw (Thin t n) -> word_ok new c' -> (c' = Unlocked \/ exists n, c' = Thin t n) -> hold_after r v hold = hold_of t c' -> (forall h, v <> RHash h) -> allowed t r hold v ->
  triple t (fun w => ready t hold w /\ seen t lw (Thin t n) w)
    (if negb gUseReadBarrier then _ ← SetLockWord new; Ret (Return v) else success ← CasLockWord true lw new; Ret (if (success : bool) then Return v else Again k)) (post t r hold).
Proof.
  intros Hlw Hnew Hc' Hh Hv Ha. destruct gUseReadBarrier eqn:Hb; cbn [negb]; [|by apply (store_return t r hold lw n new c')].
  apply (cas_return t r hold _ true lw (Thin t n) new c'); try done; [by intros w [L _]|right; eauto|by destruct Hc'; auto|]. intros h E. by destruct (Hv h).
Qed.

Lemma MonitorEnter_spec max_spins t trylock k hold : 0 < t <= kThinLockMaxOwner ->
  triple t (ready t hold) (MonitorEnter gUseReadBarrier gUseUserfaultfd max_spins t trylock k) (post t (EnterRequest trylock) hold).
Proof.
  intros Ht. unfold MonitorEnter. apply read_word. intros lw c Hlw Hcons. rewrite (word_state _ _ Hlw). pose proof (lock_word_fields _ _ Hlw) as Hf.
  pose proof Hlw as (_ & _ & Hval & _). destruct c as [|o n|id|h]; cbn [state_of consistent valid_contents] in *.
  - subst hold. destruct (make_word lw Unlocked (Thin t 0) Hlw) as (new & Hnew & ->); [by cbn|]. apply triple_check.
    apply (cas_return t _ None _ true lw Unlocked new (Thin t 0)); try done; [by intros w [L _]|by left|right; left; eauto|cbn; by rewrite Z.eqb_refl|by left].
  - destruct Hf as [-> ->]. destruct (Z.eqb_spec o t) as [->|Hne].
    + subst hold. destruct (Z.leb_spec (n + 1) kThinLockMaxCount).
      * destruct (make_word lw (Thin t n) (Thin t (n + 1)) Hlw) as (new & Hnew & ->); [cbn; lia|]. apply triple_check.
        apply (thin_return t _ (Some n) lw n new (Thin t (n + 1))); try done; [right; eauto|cbn; by rewrite Z.eqb_refl|by left].
      * eapply triple_bind; [by apply (InflateThinLocked_spec t [] (Some n) lw t n 0 Hlw)|]. intros []. apply triple_again; auto with stable.
    + subst hold. destruct trylock; [apply triple_return; [auto with stable|by intros w _ [L _]|by right]|]. destruct (k + 1 <=? kExtraSpinIters + max_spins).
      * apply triple_again; [auto with stable|by intros w [L _]].
      * eapply triple_bind; [by apply (InflateThinLocked_spec t [] None lw o n 0 Hlw)|]. intros []. apply triple_again; auto with stable.
  - rewrite Hf. destruct trylock.
    + eapply triple_bind; [apply (TryLock_spec t [] hold true id)|]. intros [|].
      * apply triple_return; [auto with stable| |by left]. by intros w _ (_ & L & _).
      * apply triple_pure. intros E. rewrite (E eq_refl). apply triple_return; [auto with stable| |by right]. by intros w _ [L _].
    + eapply triple_bind; [apply (Lock_spec t [] hold true id)|]. intros []. apply triple_return; [auto with stable| |by left]. by intros w _ L.
  - rewrite Hf. eapply triple_bind; [by apply (Inflate_spec t None [] hold None h)|]. intros []. apply triple_again; auto with stable.
Qed.

Lemma MonitorExit_spec t hold : 0 < t <= kThinLockMaxOwner -> triple t (ready t hold) (MonitorExit gUseReadBarrier gUseUserfaultfd t) (post t ExitRequest hold).
Proof.
  intros Ht. unfold MonitorExit. apply read_word. intros lw c Hlw Hcons. rewrite (word_state _ _ Hlw). pose proof (lock_word_fields _ _ Hlw) as Hf.
  pose proof Hlw as (_ & _ & Hval & _). destruct c as [|o n|id|h]; cbn [state_of consistent valid_contents] in *.
  1, 4: subst hold; apply triple_return; [auto with stable|by intros w _ [L _]|done].
  - destruct Hf as [-> ->]. destruct (Z.eqb_spec o t) as [->|Hne]; subst hold; cbn [negb]; [|apply triple_return; [auto with stable|by intros w _ [L _]|done]].
    destruct (Z.eqb_spec n 0) as [->|Hn]; cbn [negb].
    + destruct (make_word lw (Thin t 0) Unlocked Hlw) as (new & Hnew & <-); [done|]. apply (thin_return t _ (Some 0) lw 0 _ Unlocked); try done. by left.
    + destruct (make_word lw (Thin t n) (Thin t (n - 1)) Hlw) as (new & Hnew & ->); [cbn; lia|]. apply triple_check.
      apply (thin_return t _ (Some n) lw n new (Thin t (n - 1))); try done; [right; eauto|]. cbn. unfold prev_hold. by rewrite (proj2 (Z.eqb_neq n 0)), Z.eqb_refl.
  - rewrite Hf. eapply triple_bind; [apply (Unlock_spec t [] hold id)|]. intros b. destruct hold as [n|]; apply triple_pure; intros ->; (apply triple_return; [apply local_stable|by intros w _ L|done]).
Qed.

Lemma Wait_spec t ms ns should_throw why hold : 0 < t <= kThinLockMaxOwner ->
  triple t (ready t hold) (Wait gUseReadBarrier gUseUserfaultfd t ms ns should_throw why) (post t (WaitRequest ms ns should_throw why) hold).
Proof.
  intros Ht. unfold Wait. apply read_word. intros lw c Hlw Hcons. rewrite (word_state _ _ Hlw). pose proof (lock_word_fields _ _ Hlw) as Hf.
  destruct c as [|o n|id|h]; cbn [state_of consistent] in *.
  1, 4: subst hold; apply triple_return; [auto with stable|by intros w _ [L _]|done].
  - destruct Hf as [-> _]. destruct (Z.eqb_spec o t) as [->|Hne]; subst hold; cbn [negb]; [|apply triple_return; [auto with stable|by intros w _ [L _]|done]].
    eapply triple_bind; [eapply triple_mono; [by apply (Inflate_spec t None [] (Some n) (Some t) 0)| |done]|].
    + intros w [L Hs]. split; [done|]. left. split; [done|]. exists n, lw. by apply Hs.
    + intros []. apply triple_again; [apply local_stable|done].
  - rewrite Hf. eapply triple_bind; [apply (MonitorWait_spec t hold id)|]. intros v. apply triple_pure. intros Hv. apply triple_return; [apply local_stable| |done].
    intros w _ L. split; [done|]. intros h ->. unfold wait_result in Hv. destruct hold; [|done]. destruct (_ || _); [done|]. by destruct Hv as [|[? _]].
Qed.

Lemma DoNotify_spec t all hold : triple t (ready t hold) (DoNotify gUseReadBarrier gUseUserfaultfd t all) (post t (NotifyRequest all) hold).
Proof.
  unfold DoNotify. apply read_word. intros lw c Hlw Hcons. rewrite (word_state _ _ Hlw). pose proof (lock_word_fields _ _ Hlw) as Hf.
  destruct c as [|o n|id|h]; cbn [state_of consistent] in *.
  1, 4: subst hold; apply triple_return; [auto with stable|by intros w _ [L _]|done].
  - destruct Hf as [-> _]. destruct (Z.eqb_spec o t) as [->|Hne]; subst hold; cbn [negb]; (apply triple_return; [auto with stable|by intros w _ [L _]|done]).
  - rewrite Hf. eapply (triple_bind t _ _ _ (fun r w => r = (match hold with Some _ => RVoid | None => RIllegalMonitorState end) /\ local t true None [] hold true true w)).
    + destruct all; [apply NotifyAll_spec|apply Notify_spec].
    + intros v. apply triple_pure. intros ->. apply triple_return; [apply local_stable|by intros w _ L; destruct hold|done].
Qed.

Lemma GetLockOwnerThreadId_spec t hold : 0 < t <= kThinLockMaxOwner -> triple t (ready t hold) (GetLockOwnerThreadId gUseReadBarrier gUseUserfaultfd) (post t OwnerRequest hold).
Proof.
  intros Ht. unfold GetLockOwnerThreadId. apply read_word. intros lw c Hlw Hcons. rewrite (word_state _ _ Hlw). pose proof (lock_word_fields _ _ Hlw) as Hf.
  assert (None = hold -> 0 = t <-> is_Some hold) as H0 by (intros <-; split; [lia|by intros []]).
  destruct c as [|o n|id|h]; cbn [state_of consistent] in *.
  1, 4: apply triple_return; [auto with stable|by intros w _ [L _]|]; exists 0; split; [done|]; by apply H0.
  - destruct Hf as [Eo _]. rewrite Eo. apply triple_return; [auto with stable|by intros w _ [L _]|]. exists o. split; [done|]. subst hold. destruct (Z.eqb_spec o t) as [->|Hne]; [by split|]. split; [done|by intros []].
  - rewrite Hf. eapply triple_bind; [apply (load_owner_spec t None [] hold true id)|]. intros o. apply triple_pure. intros Ho.
    apply triple_return; [auto with stable|by intros w _ [L _]|]. exists (default 0 o). split; [done|]. destruct (bool_decide_reflect (o = Some t)) as [E|Hne]; [rewrite E; by split|].
    subst hold. split; [|by intros []]. intros E. destruct o; cbn in E; [congruence|lia].
Qed.

Lemma IdentityHashCode_spec t hold : 0 < t <= kThinLockMaxOwner -> triple t (ready t hold) (IdentityHashCode gUseReadBarrier gUseUserfaultfd t) (post t HashRequest hold).
Proof.
  intros Ht. unfold IdentityHashCode. apply read_word. intros lw c Hlw Hcons. rewrite (word_state _ _ Hlw). pose proof (lock_word_fields _ _ Hlw) as Hf.
  destruct c as [|o n|id|h]; cbn [state_of consistent] in *.
  - subst hold. eapply triple_bind; [apply (GenerateIdentityHashCode_spec t (fun w => ready t None w /\ seen t lw Unlocked w)); auto with stable|]. intros h. apply triple_pure. intros Hh.
    destruct (make_word lw Unlocked (Hash h) Hlw) as (new & Hnew & ->); [cbn; lia|]. apply triple_check. pose proof (lock_word_fields _ _ Hnew) as ->.
    apply (cas_return t _ None _ false lw Unlocked new (Hash h)); try done; [by intros w [L _]|by left|right; right; exists h; split; [done|lia]|congruence|by exists h].
  - eapply triple_bind; [apply (GenerateIdentityHashCode_spec t (fun w => ready t hold w /\ seen t lw (Thin o n) w)); auto with stable|]. intros h. apply triple_pure. intros Hh.
    eapply triple_bind; [apply (InflateThinLocked_spec t [] hold lw o n h Hlw); lia|]. intros []. apply triple_again; [apply local_stable|done].
  - rewrite Hf. eapply triple_bind; [apply (MonitorGetHashCode_spec t hold id)|]. intros h. apply triple_return; [apply stable_and; [apply stable_or; [apply stable_const|apply stable_hash]|apply local_stable]| |by exists h].
    intros w _ [Hh L]. split; [done|]. by intros h' [= <-].
  - rewrite Hf. apply triple_return; [auto with stable| |by exists h]. intros w _ [L (_ & _ & Hh)]. split; [done|]. intros h' [= <-]. by right.
Qed.

(** A compare-and-swap that changes only the state of the collector. *)
Lemma gc_return t r hold lw c new k : gUseReadBarrier = true -> word_ok lw c -> word_ok new c -> (forall v, hold_after r v hold = hold) -> allowed t r hold RTrue ->
  triple t (fun w => ready t hold w /\ seen t lw c w) (success ← CasLockWord true lw new; Ret (if (success : bool) then Return RTrue else Again k)) (post t r hold).
Proof.
  intros Hb Hlw Hnew Hh Ha. eapply (triple_bind t _ _ _ (fun _ w => ready t hold w)).
  - apply triple_act; [auto with stable|auto with stable|]. intros w choice Hi [L _]. destruct ((lock_word w =? lw) && negb (true && negb (choice =? 0))) eqn:E; [|split_and!; [done|intros t' _; apply rely_refl|done]].
    apply andb_true_iff in E as [E _]. apply Z.eqb_eq in E. subst lw. pose proof (word_view w c Hlw) as Ev. destruct (gc_step w new Hi Hb) as (Hi' & R); [by rewrite Ev|].
    split_and!; [done|by intros t' _|]. by apply (stable_ready t hold w).
  - intros [|]; [|apply triple_again; auto with stable]. apply triple_return; [auto with stable| |done]. intros w _ L. by rewrite Hh.
Qed.

Lemma AtomicSetReadBarrierState_spec t expected b hold : gUseReadBarrier = true /\ 0 <= expected < 2 /\ 0 <= b < 2 ->
  triple t (ready t hold) (AtomicSetReadBarrierState expected b) (post t (ReadBarrierRequest expected b) hold).
Proof.
  intros (Hb & He & Hb2). unfold AtomicSetReadBarrierState. apply read_word. intros lw c Hlw _. pose proof Hlw as (g & E & Hc & Hg & _). destruct (gc_bits_encode c g Hc Hg) as [E1 _].
  destruct (Z.eqb_spec (ReadBarrierState lw) expected) as [Eb|]; cbn [negb]; [|apply triple_return; [auto with stable|by intros w _ [L _]|by right]].
  rewrite E, E1 in Eb. destruct (set_gc_encode c g expected Hc Hg He) as [Es _]. destruct (set_gc_encode c g b Hc Hg Hb2) as [En _]. rewrite <- E in Es, En. rewrite Es, En.
  replace (g / 2 * 2 + expected) with g by (Z.div_mod_to_equations; lia). rewrite <- E. apply (gc_return t _ hold lw c); [done|done| |done|by left].
  exists (g / 2 * 2 + b). split_and!; [done|done|split; [Z.div_mod_to_equations; lia|by rewrite Hb]].
Qed.

Lemma AtomicSetMarkBit_spec t expected b hold : gUseReadBarrier = true /\ 0 <= expected < 2 /\ 0 <= b < 2 ->
  triple t (ready t hold) (AtomicSetMarkBit expected b) (post t (MarkBitRequest expected b) hold).
Proof.
  intros (Hb & He & Hb2). unfold AtomicSetMarkBit. apply read_word. intros lw c Hlw _. pose proof Hlw as (g & E & Hc & Hg & _).
  destruct (negb (MarkBitState lw =? expected)); [apply triple_return; [auto with stable|by intros w _ [L _]|by right]|].
  destruct (set_gc_encode c g b Hc Hg Hb2) as [_ En]. rewrite <- E in En. rewrite En. apply (gc_return t _ hold lw c); [done|done| |done|by left].
  exists (g mod 2 + b * 2). split_and!; [done|done|split; [Z.div_mod_to_equations; lia|by rewrite Hb]].
Qed.

Lemma body_spec max_spins t r k hold : 0 < t <= kThinLockMaxOwner -> valid_request gUseReadBarrier r ->
  triple t (ready t hold) (body gUseReadBarrier gUseUserfaultfd max_spins r t k) (post t r hold).
Proof.
  intros Ht Hr. destruct r; cbn [body valid_request] in *; eauto using MonitorEnter_spec, MonitorExit_spec, Wait_spec, DoNotify_spec, GetLockOwnerThreadId_spec, IdentityHashCode_spec, AtomicSetReadBarrierState_spec, AtomicSetMarkBit_spec.
Qed.

(** ** Deflation *)

(** A monitor that no thread has locked or waits for is replaced by the hash code or nothing. *)
Lemma deflate_step w id m v c : inv (with_list [] w) -> runnable w = ∅ -> monitors w !! id = Some m -> num_waiters_ m = 0 -> monitor_lock_ m = None ->
  word_ok v c -> c = (if hash_code_ m =? 0 then Unlocked else Hash (hash_code_ m)) ->
  forall p, let w' := with_monitors (delete id (monitors w)) (with_pool p (with_lock_word v w)) in inv (with_list [] w') /\ (forall t, rely t w w') /\ view w' = c.
Proof.
  intros Hi Hrun Hm Hnw Hl Hv Hc p w'. destruct (inv_monitor (with_list [] w) id m Hi Hm) as (Ev & Em & Hok). change (view w = Fat id) in Ev. cbn [monitors with_list wait_next waiting] in Em, Hok.
  assert (view w' = c) as Ev' by (by apply word_view). assert (monitors w' = ∅) as Em' by (unfold w'; cbn; rewrite Em; apply delete_singleton_eq).
  assert (waiting w = []) as Hw by (pose proof (ok_waiters _ _ _ _ Hok); destruct (waiting w); [done|cbn in *; lia]).
  assert (wait_next w = ∅) as Hn.
  { destruct (ok_queues _ _ _ _ Hok) as (ws & ks & Q & HQ). apply map_eq. intros x. rewrite lookup_empty. eapply queues_none; [done|]. intros Hx. destruct (HQ x Hx) as [Hx'|]; [|congruence].
    rewrite Hw in Hx'. by apply elem_of_nil in Hx'. }
  assert (forall i, c <> Fat i) as Hnf by (intros i; rewrite Hc; by destruct (hash_code_ m =? 0)).
  split_and!; [| |done].
  - constructor; change (view (with_list [] w')) with (view w'); rewrite ?Ev'; try done.
    + intros h Eh. rewrite Hc in Eh. destruct (Z.eqb_spec (hash_code_ m) 0); congruence.
    + intros i E. by destruct (Hnf i).
    + intros t o E. cbn. rewrite Hrun. apply not_elem_of_empty.
    + intros x Hx. by apply elem_of_nil in Hx.
  - intros t. constructor; try done; rewrite ?Hrun; try (by intros ?%not_elem_of_empty).
    + assert (mine t w = None) as -> by (rewrite (mine_fat t w id m), Hl by done; done). unfold mine. rewrite Ev', Hc. by destruct (hash_code_ m =? 0).
    + intros i m2 Hm2 E. rewrite Em in Hm2. apply lookup_singleton_Some in Hm2 as [<- <-]. congruence.
    + intros _ i m2 Hm2. by rewrite Em' in Hm2.
    + intros h. unfold hash_of. rewrite Ev, Hm, Ev', Hc. cbn [mbind option_bind]. by destruct (hash_code_ m =? 0).
    + intros _ (i & m2 & ws & ks & Hm2 & _). by rewrite Em' in Hm2.
Qed.

Lemma Deflate_spec w id : inv (with_list [] w) -> runnable w = ∅ -> (view w = Fat id \/ forall i, view w <> Fat i) ->
  exists deflated w1, Deflate gUseReadBarrier gUseUserfaultfd w = Some (deflated, w1) /\
    let w2 := if (deflated : bool) then with_monitors (delete id (monitors w1)) (with_pool (pool w1 ∖ {[id]}) w1) else w1 in
    inv (with_list [] w2) /\ (forall t, rely t w w2) /\ runnable w2 = ∅ /\ if deflated then forall i, view w2 <> Fat i else w2 = w /\ view w = Fat id.
Proof.
  intros Hi Hrun Hv. pose proof (inv_word _ Hi) as Hlw. cbn [lock_word with_list] in Hlw. change (view (with_list [] w)) with (view w) in Hlw. unfold Deflate. rewrite (word_state _ _ Hlw). destruct Hv as [Ev|Hnf].
  - rewrite Ev in *. cbn [state_of]. rewrite bool_decide_eq_true_2 by done. rewrite (lock_word_fields _ _ Hlw). destruct (inv_fat _ Hi id Ev) as (m & Em & Hok). cbn [monitors with_list wait_next waiting] in Em, Hok.
    assert (monitors w !! id = Some m) as Hm by (by rewrite Em, lookup_singleton_eq). rewrite Hm. cbn [mbind option_bind].
    destruct (Z.ltb_spec 0 (num_waiters_ m)); [exists false, w; split_and!; try done; intros t; apply rely_refl|]. assert (num_waiters_ m = 0) as Hnw by (rewrite (ok_waiters _ _ _ _ Hok) in *; lia).
    destruct (monitor_lock_ m) eqn:El; [exists false, w; split_and!; try done; intros t; apply rely_refl|].
    destruct (Z.eqb_spec (hash_code_ m) 0) as [E0|E0]; cbn [negb].
    + destruct (make_word (lock_word w) (Fat id) Unlocked Hlw) as (v & Hv & <-); [done|]. eexists true, _. split; [done|].
      edestruct (deflate_step w id m (FromDefault (GCState (lock_word w))) Unlocked) as (Hi' & R & Ev'); [done|done|done|done|done|exact Hv|by rewrite E0|]. split_and!; [exact Hi'|exact R|done|]. intros i E. pose proof (eq_trans (eq_sym Ev') E) as F. done.
    + destruct (make_word (lock_word w) (Fat id) (Hash (hash_code_ m)) Hlw) as (v & Hv & ->); [apply Hok|]. cbn [mbind option_bind]. eexists true, _. split; [done|].
      edestruct (deflate_step w id m v (Hash (hash_code_ m))) as (Hi' & R & Ev'); [done|done|done|done|done|exact Hv|by rewrite (proj2 (Z.eqb_neq _ 0))|]. split_and!; [exact Hi'|exact R|done|]. intros i E. pose proof (eq_trans (eq_sym Ev') E) as F. done.
  - rewrite bool_decide_eq_false_2 by (destruct (view w) as [| |i|] eqn:E; [done|done|by destruct (Hnf i)|done]). exists true, w. split; [done|]. destruct (inv_thin _ Hi Hnf) as (Em & _). cbn [monitors with_list] in Em.
    cbn zeta. rewrite Em, delete_empty. assert (same_lock w (with_monitors ∅ (with_pool (pool w ∖ {[id]}) w))) as Hs by (by constructor).
    split_and!; [|intros t; by apply frame_rely|done|done]. apply (frame_inv (with_list [] w)); [done|by destruct Hs; constructor|apply Hi|]. intros x Hx. by apply elem_of_nil in Hx.
Qed.

(** If the monitor is not deflated, the list stays as it is. *)
Lemma sweep_kept ms w : Deflate gUseReadBarrier gUseUserfaultfd w = Some (false, w) -> sweep_monitors gUseReadBarrier gUseUserfaultfd ms w = Some (ms, w).
Proof. intros E. induction ms as [|m ms IH]; [done|]. cbn [sweep_monitors]. rewrite E. cbn [mbind option_bind]. by rewrite IH. Qed.

Lemma sweep_spec ms w : inv (with_list [] w) -> runnable w = ∅ -> (forall x, x ∈ ms -> view w = Fat x \/ forall i, view w <> Fat i) ->
  exists ms' w', sweep_monitors gUseReadBarrier gUseUserfaultfd ms w = Some (ms', w') /\ inv (with_list [] w') /\ (forall t, rely t w w') /\ runnable w' = ∅ /\ forall x, x ∈ ms' -> view w' = Fat x.
Proof.
  revert w. induction ms as [|m ms IH]; intros w Hi Hrun Hms.
  - exists [], w. split_and!; try done; [intros t; apply rely_refl|]. intros x Hx. by apply elem_of_nil in Hx.
  - destruct (Deflate_spec w m Hi Hrun) as (deflated & w1 & E & Hi2 & R2 & Hrun2 & Hd); [apply Hms; left|]. cbn [sweep_monitors]. rewrite E. cbn [mbind option_bind].
    destruct deflated; cbn beta iota in *.
    + destruct (IH _ Hi2 Hrun2) as (ms' & w' & -> & Hi' & R' & Hrun' & Hl'); [by intros x _; right|]. cbn [mbind option_bind]. exists ms', w'. split_and!; try done. intros t. by eapply rely_trans.
    + destruct Hd as [-> Ev]. rewrite (sweep_kept ms w E). cbn [mbind option_bind]. exists (m :: ms), w. split_and!; try done. intros x Hx. destruct (Hms x Hx) as [|Hn]; [done|]. by destruct (Hn m).
Qed.

Lemma DeflateMonitors_spec w : inv w -> runnable w = ∅ ->
  exists w', DeflateMonitors gUseReadBarrier gUseUserfaultfd w = Some w' /\ inv w' /\ forall t, rely t w w'.
Proof.
  intros Hi Hrun. destruct (sweep_spec (list_ w) w) as (ms & w' & E & Hi' & R & _ & Hl); [|done|intros x Hx; left; by apply Hi|].
  { apply (frame_inv w); [done|by constructor|apply Hi|]. intros x Hx. by apply elem_of_nil in Hx. }
  unfold DeflateMonitors. rewrite E. cbn [mbind option_bind]. eexists. split; [done|]. split.
  - apply (frame_inv (with_list [] w')); [done|by constructor|apply Hi'|]. intros x Hx. by apply Hl.
  - intros t. apply (rely_trans t w w'); [done|]. by apply frame_rely.
Qed.

(** ** Any number of threads *)

Context (max_spins : Z).
Abbreviation step' := (step gUseReadBarrier gUseUserfaultfd max_spins).

(** A thread that has entered [n] times has the recursion count [n - 1]. *)
Definition hold_n (n : Z) : option Z := if n =? 0 then None else Some (n - 1).

Record pool_ok (c : config) : Prop := {
  pool_inv : inv (memory c);
  pool_held : forall t, 0 <= held_by c t;
  pool_idle : forall t, calls c !! t = None -> local t false None [] (hold_n (held_by c t)) true true (memory c);
  pool_calls : forall t r p, calls c !! t = Some (r, p) ->
    (0 < t <= kThinLockMaxOwner /\ valid_request gUseReadBarrier r) /\ safe t p (post t r (hold_n (held_by c t))) (memory c);
  pool_hashes : forall h, h ∈ hashes c -> h = 0 \/ hash_is h (memory c) }.

(** An action by [t0] that the other threads do not notice. *)
Lemma pool_step t0 c c' : pool_ok c -> inv (memory c') -> guarantee t0 (memory c) (memory c') ->
  (forall t, t <> t0 -> calls c' !! t = calls c !! t /\ held_by c' t = held_by c t) ->
  0 <= held_by c' t0 ->
  match calls c' !! t0 with
  | None => local t0 false None [] (hold_n (held_by c' t0)) true true (memory c')
  | Some (r, p) => (0 < t0 <= kThinLockMaxOwner /\ valid_request gUseReadBarrier r) /\ safe t0 p (post t0 r (hold_n (held_by c' t0))) (memory c')
  end ->
  (forall h, h ∈ hashes c' -> h ∈ hashes c \/ h = 0 \/ hash_is h (memory c')) -> pool_ok c'.
Proof.
  intros H Hi G Hsame Hn Ht0 Hh. constructor; [done| | | |].
  - intros t. destruct (decide (t = t0)) as [->|Hne]; [done|]. rewrite (proj2 (Hsame t Hne)). apply H.
  - intros t Ht. destruct (decide (t = t0)) as [->|Hne]; [by rewrite Ht in Ht0|]. destruct (Hsame t Hne) as [Ec Eh]. rewrite Eh. rewrite Ec in Ht.
    eapply local_stable; [by apply (pool_idle c H)|done|by apply G].
  - intros t r p Ht. destruct (decide (t = t0)) as [->|Hne]; [by rewrite Ht in Ht0|]. destruct (Hsame t Hne) as [Ec Eh]. rewrite Eh. rewrite Ec in Ht.
    destruct (pool_calls c H t r p Ht) as [Hv Hs]. split; [done|]. eapply safe_rely; [done|by apply G].
  - intros h Hin. destruct (Hh h Hin) as [Hin'|]; [|done]. destruct (pool_hashes c H h Hin'); [by left|right]. by apply (r_hash _ _ _ (G (t0 + 1) ltac:(lia))).
Qed.

(** A step that no thread notices. *)
Lemma pool_all w w' cs h hs : pool_ok (Config w cs h hs) -> inv w' -> (forall t, rely t w w') -> pool_ok (Config w' cs h hs).
Proof.
  intros H Hi R. constructor; cbn [memory]; [done|apply H| | |].
  - intros t Ht. eapply local_stable; [by apply (pool_idle _ H t Ht)|done|apply R].
  - intros t r p Ht. destruct (pool_calls _ H t r p Ht) as [Hv Hs]. split; [done|]. eapply safe_rely; [done|apply R].
  - intros x Hx. destruct (pool_hashes _ H x Hx); [by left|right]. by apply (r_hash _ _ _ (R 0)).
Qed.

Lemma held_after_hold t r v n : 0 <= n -> allowed t r (hold_n n) v -> 0 <= held_after r v n /\ hold_n (held_after r v n) = hold_after r v (hold_n n).
Proof.
  intros Hn Ha. destruct r, v; cbn [held_after hold_after allowed] in *; try done; unfold hold_n, prev_hold in *.
  - rewrite (proj2 (Z.eqb_neq (n + 1) 0)) by lia. split; [lia|]. unfold next_hold. destruct (Z.eqb_spec n 0); f_equal; lia.
  - destruct (Z.eqb_spec n 0); [done|]. split; [lia|]. cbn [mbind option_bind]. unfold prev_hold. destruct (Z.eqb_spec (n - 1) 0); done.
Qed.

Lemma held_by_insert w cs h hs t x t' : held_by (Config w cs (<[t := x]> h) hs) t' = if decide (t' = t) then x else held_by (Config w cs h hs) t'.
Proof. unfold held_by. cbn. destruct (decide (t' = t)) as [->|Hne]; [by rewrite lookup_insert_eq|by rewrite lookup_insert_ne]. Qed.

Lemma step_pool c c' : pool_ok c -> step' c c' -> pool_ok c'.
Proof.
  intros H Hs. destruct Hs as [w cs h hs t r Ht Hr Hc Hsus|w cs h hs t r X a k choice x w' Hc Ha|w cs h hs t r n Hc|w cs h hs t r v Hc|w cs h hs w' Hrun Hd|w cs h hs t].
  - pose proof (pool_idle _ H t Hc) as L. cbn [memory] in L. set (w' := with_runnable _ w). assert (same_lock w w') as Hl by (by constructor).
    apply (pool_step t (Config w cs h hs)); cbn [memory calls held hashes]; try done.
    + apply (frame_inv w); [apply H|done| |apply H]. intros t' o Ho. pose proof (inv_suspended _ (pool_inv _ H) t' o Ho). cbn [memory] in *. assert (o <> t) by (intros ->; assert (is_suspended w t = true) by (apply is_suspended_spec; eauto); congruence).
      unfold w'. runs.
    + intros t' Hne. apply frame_rely; [done| |done]. unfold w'. runs.
    + intros t' Hne. by rewrite lookup_insert_ne.
    + apply (pool_held _ H t).
    + rewrite lookup_insert_eq. split; [done|]. apply body_spec; [done|done|]. eapply frame_local; [exact L|done| |apply L]. unfold w'. runs.
    + by left.
  - destruct (pool_calls _ H t r _ Hc) as [Hv Hs]. cbn [safe memory] in Hs. specialize (Hs w choice (rely_refl t w) (pool_inv _ H)). rewrite Ha in Hs. destruct Hs as (Hi & G & Hs).
    apply (pool_step t (Config w cs h hs)); cbn [memory calls held hashes]; try done.
    + intros t' Hne. by rewrite lookup_insert_ne.
    + apply (pool_held _ H t).
    + by rewrite lookup_insert_eq.
    + by left.
  - destruct (pool_calls _ H t r _ Hc) as [Hv Hs]. specialize (Hs w (rely_refl t w) (pool_inv _ H)). cbn [post] in Hs.
    apply (pool_step t (Config w cs h hs)); cbn [memory calls held hashes]; try done.
    + apply H.
    + intros t' _. apply rely_refl.
    + intros t' Hne. by rewrite lookup_insert_ne.
    + apply (pool_held _ H t).
    + rewrite lookup_insert_eq. split; [done|]. apply body_spec; [apply Hv|apply Hv|exact Hs].
    + by left.
  - destruct (pool_calls _ H t r _ Hc) as [Hv Hs]. specialize (Hs w (rely_refl t w) (pool_inv _ H)). cbn [post memory] in Hs. destruct Hs as [[Hh Ha] L].
    destruct (held_after_hold _ _ _ _ (pool_held _ H t) Ha) as [Hn Eh]. set (w' := with_runnable _ w). assert (same_lock w w') as Hl by (by constructor).
    apply (pool_step t (Config w cs h hs)); cbn [memory calls hashes]; try done.
    + apply (frame_inv w); [apply H|done| |apply H]. intros t' o Ho. pose proof (inv_suspended _ (pool_inv _ H) t' o Ho). unfold w'. runs.
    + intros t' Hne. apply frame_rely; [done| |done]. unfold w'. runs.
    + intros t' Hne. rewrite lookup_delete_ne, held_by_insert, decide_False by done. done.
    + by rewrite held_by_insert, decide_True.
    + rewrite lookup_delete_eq, held_by_insert, decide_True by done. change (default 0 (h !! t)) with (held_by (Config w cs h hs) t). rewrite Eh.
      eapply frame_local; [exact L|done| |apply L]. unfold w'. runs.
    + intros x Hx. destruct v; cbn [log_hash] in Hx; try (by left). apply elem_of_cons in Hx as [->|Hx]; [right|by left]. apply (Hh _ eq_refl).
  - destruct (DeflateMonitors_spec w (pool_inv _ H) Hrun) as (w2 & E & Hi & R). assert (w2 = w') as -> by congruence. by apply (pool_all w).
  - set (w' := with_interrupted _ w). assert (same_lock w w') as Hl by (by constructor).
    apply (pool_all w); [done|apply (frame_inv w); [apply H|done|apply (pool_inv _ H)|apply (pool_inv _ H)]|intros t'; by apply frame_rely].
Qed.

Lemma initial_pool gc_state seed : gc_ok gc_state -> pool_ok (initial gc_state seed).
Proof.
  intros Hg. assert (view (memory (initial gc_state seed)) = Unlocked) as Ev by (apply word_view; by exists gc_state). constructor.
  - constructor; rewrite ?Ev; try done; [by exists gc_state|]. intros x Hx. by apply elem_of_nil in Hx.
  - intros t. unfold held_by. cbn. by rewrite lookup_empty.
  - intros t _. constructor; try done.
    + unfold mine. by rewrite Ev.
    + intros _ (id & m & ws & ks & Hm & _). cbn in Hm; by rewrite lookup_empty in Hm.
  - intros t r p Ht. cbn in Ht; by rewrite lookup_empty in Ht.
  - intros h Hh. by apply elem_of_nil in Hh.
Qed.

Lemma reachable_pool gc_state seed c : gc_ok gc_state -> reachable gUseReadBarrier gUseUserfaultfd max_spins gc_state seed c -> pool_ok c.
Proof. intros Hg. induction 1 as [|c c' _ IH Hs]; [by apply initial_pool|by eapply step_pool]. Qed.

(** ** The information about the lock *)

Lemma MonitorInfo_spec w : inv w ->
  exists owner count waiters, MonitorInfo gUseReadBarrier gUseUserfaultfd w = Some (owner, count, waiters) /\
    forall t run sus tokens hold quiet, local t run sus tokens hold true quiet w -> match hold with Some n => owner = Some t /\ count = n + 1 | None => owner <> Some t end.
Proof.
  intros Hi. pose proof (inv_word _ Hi) as Hlw. pose proof (lock_word_fields _ _ Hlw) as Hf. unfold MonitorInfo. rewrite (word_state _ _ Hlw). destruct (view w) as [|o n|id|h] eqn:Ev; cbn [state_of].
  1, 4: eexists _, _, _; split; [done|]; intros t run sus tokens hold quiet L; pose proof (l_mine _ _ _ _ _ _ _ _ L) as Em; unfold mine in Em; rewrite Ev in Em; by subst hold.
  - destruct Hf as [Eo En]. rewrite Eo, En. eexists _, _, _. split; [done|]. intros t run sus tokens hold quiet L. pose proof (l_mine _ _ _ _ _ _ _ _ L) as Em. unfold mine in Em. rewrite Ev in Em. subst hold.
    destruct (Z.eqb_spec o t) as [->|]; [split; [done|lia]|congruence].
  - rewrite Hf. destruct (inv_fat _ Hi id Ev) as (m & Em & Hok). assert (monitors w !! id = Some m) as Hm by (by rewrite Em, lookup_singleton_eq). rewrite Hm. cbn [mbind option_bind].
    destruct (ok_queues _ _ _ _ Hok) as (ws & ks & Q & _). pose proof (queue_NoDup _ _ _ _ _ Q) as Hn. apply NoDup_app in Hn as (Hn & _).
    rewrite (waiters_from_spec _ _ _ ws (queue_wait _ _ _ _ _ Q)) by (eapply chain_length; [apply Q|done]). cbn [mbind option_bind]. eexists _, _, _. split; [done|].
    intros t run sus tokens hold quiet L. pose proof (local_monitor _ _ _ _ _ _ _ _ _ Hi L Hm) as E. destruct (bool_decide_reflect (owner_ m = Some t)) as [Ho|Ho]; [|by subst hold].
    destruct E as [_ ->]. rewrite Ho. split; [done|lia].
Qed.

Lemma owner_info w id m t n : inv w -> monitors w !! id = Some m -> owner_ m = Some t -> lock_count_ m = n - 1 ->
  exists waiters, MonitorInfo gUseReadBarrier gUseUserfaultfd w = Some (Some t, n, waiters).
Proof.
  intros Hi Hm Ho Hn. destruct (inv_monitor w id m Hi Hm) as (Ev & _ & Hok). pose proof (inv_word _ Hi) as Hlw. pose proof (lock_word_fields _ _ Hlw) as Hf.
  destruct (MonitorInfo_spec w Hi) as (o & k & ws & E & _). exists ws. rewrite E. unfold MonitorInfo in E. rewrite (word_state _ _ Hlw) in E. rewrite Ev in *. cbn [state_of] in E.
  rewrite Hf, Hm in E. cbn [mbind option_bind] in E. destruct (waiters_from _ _ _) as [l|]; [|done]. cbn [mbind option_bind] in E. rewrite Ho, Hn in E. injection E as <- <- <-. do 3 f_equal. lia.
Qed.

Lemma hash_range w h : inv w -> hash_is h w -> 0 < h <= kMaxHash.
Proof.
  intros Hi E. unfold hash_is, hash_of in E. pose proof (inv_word _ Hi) as (g & _ & Hval & _). destruct (view w) as [|o n|id|h'] eqn:Ev; try done.
  - destruct (inv_fat _ Hi id Ev) as (m & Em & Hok). rewrite Em, lookup_singleton_eq in E. cbn [mbind option_bind] in E. pose proof (ok_hash _ _ _ _ Hok). destruct (Z.eqb_spec (hash_code_ m) 0); [done|].
    injection E as <-. lia.
  - injection E as <-. pose proof (inv_hash _ Hi h' Ev). cbn [valid_contents] in Hval. lia.
Qed.

(** ** Theorems *)



Lemma wait_result_holds ms ns should_throw n v : 0 <= n -> wait_result ms ns should_throw (hold_n n) v ->
  (v = RIllegalMonitorState /\ ~ 0 < n) \/ (0 < n /\ v = RIllegalArgument /\ ~ (0 <= ms /\ 0 <= ns <= 999999)) \/
  (0 < n /\ (0 <= ms /\ 0 <= ns <= 999999) /\ (v = RVoid \/ v = RInterrupted /\ should_throw = true)).
Proof.
  intros Hn Hv. unfold hold_n in Hv. destruct (Z.eqb_spec n 0) as [->|]; cbn [wait_result] in Hv; [by left|right].
  destruct (Z.ltb_spec ms 0), (Z.ltb_spec ns 0), (Z.ltb_spec 999999 ns); cbn [orb] in Hv; (left; split_and!; [lia|done|lia]) || (right; split_and!; [lia|lia|lia|lia|done]).
Qed.

(** C17: What each call returns is decided by whether the thread holds the lock, and for Wait also by its arguments: MonitorExit and Notify succeed exactly when
    it does; Wait throws IllegalMonitorStateException exactly when it does not, IllegalArgumentException exactly when it does and the times are out of range, and
    otherwise returns or, if it is asked to, throws InterruptedException; MonitorEnter fails only as a trylock of a lock that it does not hold; and
    GetLockOwnerThreadId returns the thread's own id exactly when it does. *)
Theorem Monitor_results gc_state seed c t r v : gc_ok gc_state -> reachable gUseReadBarrier gUseUserfaultfd max_spins gc_state seed c ->
  calls c !! t = Some (r, Ret (Return v)) ->
  let holds := 0 < held_by c t in
  match r with
  | EnterRequest trylock => v = RTrue \/ v = RFalse /\ trylock = true /\ ~ holds
  | ExitRequest => (v = RTrue /\ holds) \/ (v = RFalse /\ ~ holds)
  | WaitRequest ms ns should_throw _ =>
      let in_range := 0 <= ms /\ 0 <= ns <= 999999 in
      (v = RIllegalMonitorState /\ ~ holds) \/ (holds /\ v = RIllegalArgument /\ ~ in_range) \/
      (holds /\ in_range /\ (v = RVoid \/ v = RInterrupted /\ should_throw = true))
  | NotifyRequest _ => (v = RVoid /\ holds) \/ (v = RIllegalMonitorState /\ ~ holds)
  | HashRequest => exists h, v = RHash h
  | OwnerRequest => exists o, v = RThreadId o /\ (o = t <-> holds)
  | ReadBarrierRequest _ _ | MarkBitRequest _ _ => v = RTrue \/ v = RFalse
  end.
Proof.
  intros Hg Hc Ht holds. apply reachable_pool in Hc; [|done]. destruct (pool_calls c Hc t r _ Ht) as [_ Hs]. specialize (Hs (memory c) (rely_refl t _) (pool_inv c Hc)).
  destruct Hs as [[_ Ha] _]. pose proof (pool_held c Hc t) as Hn. unfold holds. clear Ht.
  destruct r as [| |ms ns b why| | | | |]; [| |by apply wait_result_holds| | | | |]; unfold hold_n in Ha.
  all: destruct (Z.eqb_spec (held_by c t) 0) as [E|E]; cbn [allowed] in Ha; try done; rewrite ?E; try (right; split; [done|lia]); try (left; split; [done|lia]).
  - destruct Ha as [|(-> & -> & _)]; [by left|right; split_and!; [done|done|lia]].
  - destruct Ha as [|(_ & _ & ?)]; [by left|done].
  - destruct Ha as (o & -> & Ho). exists o. split; [done|]. rewrite Ho. split; [by intros []|lia].
  - destruct Ha as (o & -> & Ho). exists o. split; [done|]. rewrite Ho. split; [lia|eauto].
Qed.

(** C30: An object has one identity hash code: all calls of IdentityHashCode that do not return zero return the same value, which fits the lock word,
    whichever thread generates it, and also when the lock is inflated, waited for and deflated in between. *)
Theorem Monitor_hash_codes gc_state seed c : gc_ok gc_state -> reachable gUseReadBarrier gUseUserfaultfd max_spins gc_state seed c ->
  forall h h', (h ∈ hashes c) -> (h' ∈ hashes c) -> h <> 0 -> h' <> 0 -> h = h' /\ 0 < h <= kMaxHash.
Proof.
  intros Hg Hc h h' Hh Hh' H0 H0'. apply reachable_pool in Hc; [|done]. destruct (pool_hashes c Hc h Hh) as [|E]; [done|]. destruct (pool_hashes c Hc h' Hh') as [|E']; [done|].
  split; [unfold hash_is in *; congruence|]. by apply (hash_range (memory c)); [apply Hc|].
Qed.
End protocol.

(** Thread 1 enters twice, thread 2 inflates the lock and blocks, thread 1 asks for the hash code and exits twice, thread 2 gets the lock and waits,
    thread 1 enters, notifies and exits, and thread 2 returns from its wait and asks for the hash code. *)
Definition go (t : Z) (n : nat) : list event := repeat (Step t 0) n.
Definition scenario : list event :=
  Call 1 (EnterRequest false) :: go 1 3 ++ Call 1 (EnterRequest false) :: go 1 3 ++ Call 2 (EnterRequest false) :: go 2 18 ++ Call 1 HashRequest :: go 1 7 ++
  Call 1 ExitRequest :: go 1 5 ++ Call 1 ExitRequest :: go 1 6 ++ go 2 5 ++ Call 2 (WaitRequest 0 0 true kWaiting) :: go 2 10 ++ Call 1 (EnterRequest true) :: go 1 6 ++
  Call 1 (NotifyRequest false) :: go 1 4 ++ Call 1 ExitRequest :: go 1 6 ++ go 2 12 ++ Call 2 HashRequest :: go 2 4.
Definition after (n : nat) : config := default (initial 0 42) (exec_all false false (-100) (take n scenario) (initial 0 42)).

Lemma after_reachable n : reachable false false (-100) 0 42 (after n).
Proof.
  unfold after. destruct (exec_all false false (-100) (take n scenario) (initial 0 42)) as [c|] eqn:E; cbn [default]; [|constructor]. eapply exec_all_reachable; [|exact E]. constructor.
Qed.



Lemma Monitor_results_witness : calls (after 40) !! 1 = Some (ExitRequest, Ret (Return RTrue)) /\ 0 < held_by (after 40) 1.
Proof.
  split; [by vm_compute|]. destruct (Monitor_results false false (-100) 0 42 (after 40) 1 ExitRequest RTrue) as [[_ H]|[H _]]; [by split|apply after_reachable|by vm_compute|exact H|done].
Defined.

Lemma Monitor_hash_codes_witness : reachable false false (-100) 0 42 (after 200) /\ length (hashes (after 200)) = 2%nat /\
  forall h h', (h ∈ hashes (after 200)) -> (h' ∈ hashes (after 200)) -> h = h' /\ 0 < h <= kMaxHash.
Proof.
  split; [apply after_reachable|]. split; [by vm_compute|]. assert (forall h, h ∈ hashes (after 200) -> h <> 0) as H0.
  { assert (Forall (fun h => h <> 0) (hashes (after 200))) as H by (vm_compute; by repeat constructor). by apply Forall_forall. }
  intros h h' Hh Hh'. apply (Monitor_hash_codes false false (-100) 0 42 (after 200)); [by split|apply after_reachable|done|done|by apply H0|by apply H0].
Defined.

(** Thread 1 has an inflated lock without a hash code and reads hash_code_; thread 2 generates the hash code; thread 1 goes on. *)
Definition race : list event :=
  Call 1 (EnterRequest false) :: go 1 3 ++ Call 1 (WaitRequest (-1) 0 true kTimedWaiting) :: go 1 11 ++ Call 1 HashRequest :: go 1 2 ++ Call 2 HashRequest :: go 2 7 ++ go 1 2.

(** C37: IdentityHashCode can return zero for an object whose identity hash code is not zero. Monitor::GetHashCode reads hash_code_ and then asks HasHashCode, which
    reads it again: if another thread stores the hash code between the two reads, the first one is returned, so that two calls for
    one object return two hash codes. *)
Theorem Monitor_hash_code_race : exists c, exec_all false false 50 race (initial 0 42) = Some c /\ reachable false false 50 0 42 c /\ hashes c = [0; 42].
Proof.
  destruct (exec_all false false 50 race (initial 0 42)) as [c|] eqn:E; [|by vm_compute in E]. exists c. split; [done|]. split; [eapply exec_all_reachable; [constructor|exact E]|].
  assert (option_map hashes (exec_all false false 50 race (initial 0 42)) = Some [0; 42]) as Eh by (by vm_compute). rewrite E in Eh. by injection Eh.
Qed.
