(* ===== verification/MonitorProgress.v ===== *)
(** Progress of the object locks of Monitor.v: a thread that calls MonitorEnter for an object that no other thread has locked, or MonitorExit, gets to the end of the call by its own steps.

    The steps of [alone t] are those of the call of [t], without other threads, deflation or interrupts, and without spurious failures.  [inevitably R P c] says that
    every sequence of such steps from [c] gets to a state with [P], and does not stop before.  [must p Q w] is the same for a program: all its runs from [w] end, with [Q];
    [runs p w r w'] says that [p] has only one run from [w], to the result [r] in [w'].  What holds of the
    result is known from the triples of MonitorProtocol.v, so that only the run itself is shown here. *)
From S2P Require Import Prelude BitUtils LockWord Monitor MonitorQueues MonitorProtocol.

(** What the code leaves open is chosen without a spurious failure: it is zero, or a possible value where zero is none, as for the id of a new monitor. *)
Definition fair {X : Set} (a : world -> Z -> outcome X) (w : world) (choice : Z) : Prop := choice = 0 \/ a w 0 = Blocked.

Inductive runs {R} : prog R -> world -> R -> world -> Prop :=
  | runs_ret r w : runs (Ret r) w r w
  | runs_act (X : Set) (a : world -> Z -> outcome X) k x w w1 r w' : a w 0 = Done x w1 -> runs (k x) w1 r w' -> runs (Act a k) w r w'.

Lemma runs_bind {A B} (p : prog A) (f : A -> prog B) w x w1 r w' : runs p w x w1 -> runs (f x) w1 r w' -> runs (p ≫= f) w r w'.
Proof. intros H Hf. induction H as [|X a k y w w2 x w1 Ha _ IH]; [done|]. cbn. econstructor; [done|]. by apply IH. Qed.

Lemma runs_now {X : Set} (a : world -> Z -> outcome X) x w w' : a w 0 = Done x w' -> runs (act a) w x w'.
Proof. intros E. by eapply runs_act; [|constructor]. Qed.

Fixpoint must {R} (p : prog R) (Q : R -> world -> Prop) (w : world) : Prop :=
  match p with
  | Ret r => Q r w
  | Act a k => (exists choice x w', fair a w choice /\ a w choice = Done x w') /\
      forall choice x w', fair a w choice -> a w choice = Done x w' -> must (k x) Q w'
  end.

Lemma must_bind {A B} (p : prog A) (f : A -> prog B) Q w : must p (fun x w => must (f x) Q w) w -> must (p ≫= f) Q w.
Proof.
  change (p ≫= f) with (prog_bind p f). revert w. induction p as [r|X a k IH]; intros w; cbn [must prog_bind]; [done|]. intros [He Hk]. split; [done|]. intros choice x w' Hf Ha. apply IH. by eapply Hk.
Qed.

Lemma must_mono {R} (p : prog R) (Q Q' : R -> world -> Prop) w : (forall r w, Q r w -> Q' r w) -> must p Q w -> must p Q' w.
Proof. intros H. revert w. induction p as [r|X a k IH]; intros w; cbn [must]; [apply H|]. intros [He Hk]. split; [done|]. intros choice x w' Hf Ha. eapply IH, Hk; done. Qed.

Lemma runs_must {R} (p : prog R) (Q : R -> world -> Prop) w r w' : runs p w r w' -> Q r w' -> must p Q w.
Proof.
  intros H HQ. induction H as [|X a k x w w1 r w' Ha _ IH]; [done|]. cbn [must]. split; [exists 0, x, w1; split; [by left|done]|].
  intros choice y w2 [->|Hf] E; [|congruence]. rewrite Ha in E. injection E as <- <-. by apply IH.
Qed.

Lemma must_then {A B} (p : prog A) (f : A -> prog B) Q w x w1 : runs p w x w1 -> must (f x) Q w1 -> must (p ≫= f) Q w.
Proof. intros H HQ. apply must_bind. by eapply runs_must. Qed.

(** A step of the call of [t], and what such steps get to. *)
Definition alone (gUseReadBarrier gUseUserfaultfd : bool) (max_spins t : Z) (c c' : config) : Prop :=
  exists choice, match calls c !! t with Some (_, Act a _) => fair a (memory c) choice | _ => True end /\
    exec gUseReadBarrier gUseUserfaultfd max_spins c (Step t choice) = Some c'.

Inductive inevitably (R : config -> config -> Prop) (P : config -> Prop) : config -> Prop :=
  | inevitably_now c : P c -> inevitably R P c
  | inevitably_next c : (exists c', R c c') -> (forall c', R c c' -> inevitably R P c') -> inevitably R P c.

Section progress.
Context (gUseReadBarrier gUseUserfaultfd : bool) (max_spins : Z).
Abbreviation view := (view gUseReadBarrier gUseUserfaultfd).
Abbreviation inv := (inv gUseReadBarrier gUseUserfaultfd).
Abbreviation word_ok := (word_ok gUseReadBarrier gUseUserfaultfd).
Abbreviation gc_state_used := (gUseReadBarrier || gUseUserfaultfd).
Abbreviation ready := (ready gUseReadBarrier gUseUserfaultfd).
Abbreviation mine := (mine gUseReadBarrier gUseUserfaultfd).
Abbreviation body := (body gUseReadBarrier gUseUserfaultfd max_spins).
Abbreviation step := (step gUseReadBarrier gUseUserfaultfd max_spins).
Abbreviation exec := (exec gUseReadBarrier gUseUserfaultfd max_spins).
Abbreviation alone := (alone gUseReadBarrier gUseUserfaultfd max_spins).

(** The triples hold of what runs. *)
Lemma safe_must {R} t (p : prog R) Q Q' w : safe gUseReadBarrier gUseUserfaultfd t p Q w -> inv w -> must p Q' w -> must p (fun r w' => Q r w' /\ inv w' /\ Q' r w') w.
Proof.
  revert w. induction p as [r|X a k IH]; intros w Hs Hi; cbn [safe must] in *.
  - intros HQ. split_and!; [|done|done]. apply Hs; [apply rely_refl|done].
  - intros [He Hk]. split; [done|]. intros choice x w' Hf Ha. specialize (Hs w choice (rely_refl _ _ t w) Hi). rewrite Ha in Hs. destruct Hs as (Hi1 & _ & Hs). apply IH; [done|done|]. by eapply Hk.
Qed.

Lemma must_inevitably t r p w cs h hs Q P : must p Q w -> (forall v w', Q v w' -> inevitably (alone t) P (Config w' (<[t := (r, Ret v)]> cs) h hs)) ->
  inevitably (alone t) P (Config w (<[t := (r, p)]> cs) h hs).
Proof.
  intros H HQ. revert w H. induction p as [v|X a k IH]; intros w; cbn [must]; [by apply HQ|]. intros [(choice & x & w' & Hf & Ha) Hk]. apply inevitably_next.
  - eexists. exists choice. cbn [calls memory Monitor.exec]. rewrite lookup_insert_eq. by rewrite Ha.
  - clear choice x w' Hf Ha. intros c' (choice & Hf & E). cbn [calls memory Monitor.exec] in *. rewrite lookup_insert_eq in Hf, E. destruct (a w choice) as [x w'| |] eqn:Ha; [|done|done].
    injection E as <-. rewrite insert_insert_eq. eapply IH, Hk; done.
Qed.

(** The loop goes on. *)
Lemma again_inevitably t r n w cs h hs P : inevitably (alone t) P (Config w (<[t := (r, body r t n)]> cs) h hs) -> inevitably (alone t) P (Config w (<[t := (r, Ret (Again n))]> cs) h hs).
Proof.
  intros H. apply inevitably_next.
  - eexists. exists 0. cbn [calls memory Monitor.exec]. by rewrite lookup_insert_eq.
  - intros c' (choice & _ & E). cbn [calls memory Monitor.exec] in *. rewrite lookup_insert_eq in E. injection E as <-. by rewrite insert_insert_eq.
Qed.

(** The call returns. *)
Lemma return_inevitably t r v w h hs (P : config -> Prop) :
  P (Config (with_runnable (runnable w ∖ {[t]}) w) ∅ (<[t := held_after r v (default 0 (h !! t))]> h) (log_hash v hs)) -> inevitably (alone t) P (Config w (<[t := (r, Ret (Return v))]> ∅) h hs).
Proof.
  assert (forall x : request * prog control, delete t (<[t := x]> (∅ : gmap Z (request * prog control))) = ∅) as Hd by (intros x; by rewrite delete_insert_id).
  intros H. apply inevitably_next.
  - eexists. exists 0. cbn [calls memory Monitor.exec]. by rewrite lookup_insert_eq.
  - intros c' (choice & _ & E). cbn [calls memory Monitor.exec] in *. rewrite lookup_insert_eq, Hd in E. injection E as <-. by apply inevitably_now.
Qed.

(** The lock is free or held by [t]. *)
Definition available (t : Z) (w : world) : Prop :=
  match view w with
  | Thin o _ => o = t
  | Fat id => forall m, monitors w !! id = Some m -> monitor_lock_ m = None \/ monitor_lock_ m = Some t
  | _ => True
  end.

Lemma GetLockWord_runs w : runs GetLockWord w (lock_word w) w.
Proof. by apply (runs_now _). Qed.

Lemma Cas_runs weak w new : runs (CasLockWord weak (lock_word w) new) w true (with_lock_word new w).
Proof. apply (runs_now _). rewrite Z.eqb_refl. cbn. by rewrite andb_false_r. Qed.

Lemma load_runs {X : Set} id (f : Monitor -> X) w m : monitors w !! id = Some m -> runs (load_monitor id f) w (f m) w.
Proof. intros Hm. apply (runs_now _). by rewrite Hm. Qed.

Lemma on_runs {X : Set} id (f : Monitor -> X * Monitor) w m : monitors w !! id = Some m -> runs (on_monitor id f) w (f m).1 (with_monitors (<[id := (f m).2]> (monitors w)) w).
Proof. intros Hm. apply (runs_now _). rewrite Hm. by destruct (f m). Qed.

Lemma Publish_runs w new id m : runs (Publish (lock_word w) new id m) w true (with_monitors (<[id := m]> (monitors w)) (with_lock_word new w)).
Proof. apply (runs_now _). by rewrite Z.eqb_refl. Qed.

(** The monitor that is published for a lock. *)
Definition published (owner : option Z) (hash : Z) (c : contents) : Monitor := Mon owner owner (match c with Thin _ n => n | _ => 0 end) 0 hash None None.

Lemma Install_runs t owner hash id w : inv w -> (forall w, owner_ok w t owner = true) ->
  match owner with Some o => o = t /\ exists n, view w = Thin t n | None => view w = Hash hash end ->
  runs (Install gUseReadBarrier gUseUserfaultfd t id (Mon None owner 0 0 hash None None)) w true
    (with_monitors (<[id := published owner hash (view w)]> (monitors w)) (with_lock_word (FromMonitor id (GCState (lock_word w))) w)).
Proof.
  intros Hi Hok Ho. unfold Install. eapply runs_bind; [apply (runs_now _); cbn [owner_]; by rewrite Hok|]. eapply runs_bind; [apply GetLockWord_runs|].
  pose proof (inv_word _ _ _ Hi) as Hlw. rewrite (word_state _ _ _ _ Hlw). pose proof (lock_word_fields _ _ _ _ Hlw) as Hf. destruct owner as [o|].
  - destruct Ho as [-> [n Ev]]. rewrite Ev in *. cbn [state_of]. destruct Hf as [-> ->]. cbn. rewrite Z.eqb_refl. cbn [negb]. apply Publish_runs.
  - rewrite Ho in *. cbn [state_of hash_code_]. rewrite Hf, Z.eqb_refl. cbn [negb]. apply Publish_runs.
Qed.

Definition unused (w : world) : Prop := exists id, 0 <= id <= kMaxMonitorId /\ id ∉ pool w.

Lemma CreateMonitor_must t owner hash w (Q : Z * Monitor -> world -> Prop) : owner_ok w t owner = true -> unused w ->
  (forall id, 0 <= id <= kMaxMonitorId -> id ∉ pool w -> Q (id, Mon None owner 0 0 hash None None) (with_pool ({[id]} ∪ pool w) w)) -> must (CreateMonitor t owner hash) Q w.
Proof.
  intros Hok (id & Hid & Hp) HQ. assert (forall id, 0 <= id <= kMaxMonitorId -> negb ((0 <=? id) && (id <=? kMaxMonitorId)) = false) as Hr.
  { intros i Hi. by rewrite (proj2 (Z.leb_le 0 i)), (proj2 (Z.leb_le i kMaxMonitorId)) by lia. }
  cbn [CreateMonitor act must]. unfold fair. rewrite (Hr 0), Hok by done. cbn [negb]. split.
  - destruct (bool_decide_reflect (0 ∈ pool w)) as [H0|H0].
    + exists id. eexists _, _. split; [by right|]. by rewrite (Hr id Hid), bool_decide_eq_false_2.
    + exists 0. eexists _, _. split; [by left|]. by rewrite (Hr 0), bool_decide_eq_false_2.
  - intros i x w' _. destruct (Z.leb_spec 0 i), (Z.leb_spec i kMaxMonitorId); cbn [andb negb]; try done. destruct (bool_decide_reflect (i ∈ pool w)) as [|Hi]; [done|]. intros [= <- <-]. by apply HQ.
Qed.

(** A lock that is held by [t] or has a hash code is inflated. *)
Lemma Inflate_must t owner hash w (Q : unit -> world -> Prop) : inv w -> unused w ->
  match owner with Some o => o = t /\ exists n, view w = Thin t n | None => view w = Hash hash end ->
  (forall id w', view w' = Fat id -> monitors w' !! id = Some (published owner hash (view w)) -> Q tt w') -> must (Inflate gUseReadBarrier gUseUserfaultfd t owner hash) Q w.
Proof.
  intros Hi Hun Ho HQ. pose proof (inv_word _ _ _ Hi) as Hlw.
  assert (forall w, owner_ok w t owner = true) as Hok by (intros x; destruct owner as [o|]; [destruct Ho as [-> _]; cbn; by rewrite Z.eqb_refl|done]).
  unfold Inflate. apply must_bind, CreateMonitor_must; [apply Hok|done|]. intros id Hid Hp. cbn beta iota. set (w1 := with_pool ({[id]} ∪ pool w) w).
  destruct (make_word _ _ _ _ (Fat id) Hlw) as (new & Hnew & Enew); [done|].
  assert (inv w1) as Hi1 by (apply (frame_inv _ _ w); [done|by constructor|apply Hi|apply Hi]).
  eapply must_then; [by apply (Install_runs t owner hash id w1)|]. cbn beta iota. eapply must_then; [by apply runs_now|]. eapply must_then; [apply GetLockWord_runs|].
  cbn [lock_word with_list with_monitors with_lock_word]. change (lock_word w1) with (lock_word w). rewrite Enew, (word_state _ _ _ _ Hnew). cbn [state_of]. rewrite bool_decide_eq_true_2 by done.
  apply (HQ id); [apply word_view; exact Hnew|]. cbn. apply lookup_insert_eq.
Qed.

(** ** MonitorEnter *)

Lemma TryLock_runs t id w m : monitors w !! id = Some m -> monitor_lock_ m = None \/ monitor_lock_ m = Some t -> inv w ->
  settled t w -> (monitor_lock_ m = Some t -> lock_count_ m + 1 < 2 ^ 32) -> exists w', runs (TryLock t id) w true w'.
Proof.
  intros Hm Hl Hi Hset Hc. destruct (inv_monitor _ _ w id m Hi Hm) as (_ & _ & Hok). unfold TryLock. destruct Hl as [Hl|Hl].
  - assert (owner_ m <> Some t) as Ho by (intros Ho; apply (ok_owner _ _ _ _ Hok) in Ho; congruence). assert (owner_ m = None) as Ho' by (destruct (owner_ m) eqn:E; [|done]; apply (ok_owner _ _ _ _ Hok) in E; congruence).
    eexists. eapply runs_bind; [by apply load_runs|]. rewrite bool_decide_eq_false_2 by done. eapply runs_bind; [by apply on_runs|]. cbn beta; rewrite Hl; cbn [fst snd negb].
    eapply runs_bind; [apply on_runs; cbn; apply lookup_insert_eq|]. eapply runs_bind; [apply load_runs; cbn; apply lookup_insert_eq|]. cbn.
    rewrite (ok_free _ _ _ _ Hok Ho'). constructor.
  - pose proof (Hset id m Hm Hl) as Ho. pose proof (ok_count _ _ _ _ Hok) as Hn. specialize (Hc Hl). eexists. eapply runs_bind; [by apply load_runs|]. rewrite bool_decide_eq_true_2 by done.
    apply (runs_now _). rewrite Hm. cbn beta iota zeta. unfold uN. rewrite Z.mod_small by lia. by rewrite (proj2 (Z.eqb_neq _ 0)) by lia.
Qed.

Lemma Lock_runs t id w w' : runs (TryLock t id) w true w' -> runs (Lock t id) w tt w'.
Proof. intros H. unfold Lock. eapply runs_bind; [done|]. constructor. Qed.

(** One iteration of MonitorEnter, which returns or leaves an inflated lock. *)
Lemma MonitorEnter_must t k w hold : 0 < t <= kThinLockMaxOwner -> inv w -> ready t hold w -> available t w -> (forall n, hold = Some n -> n + 1 < 2 ^ 32) ->
  ((forall i, view w <> Fat i) -> unused w) ->
  must (MonitorEnter gUseReadBarrier gUseUserfaultfd max_spins t false k)
    (fun c w' => c = Return RTrue \/ (forall i, view w <> Fat i) /\ c = Again k /\ (exists id, view w' = Fat id) /\ available t w') w.
Proof.
  intros Ht Hi L Ha Hn Hfresh. pose proof (inv_word _ _ _ Hi) as Hlw. pose proof (lock_word_fields _ _ _ _ Hlw) as Hf. pose proof Hlw as (_ & _ & Hval & _).
  pose proof (local_consistent _ _ _ _ _ _ _ _ _ _ L) as Hcons. unfold available in Ha at 1.
  unfold MonitorEnter. eapply must_then; [apply GetLockWord_runs|]. rewrite (word_state _ _ _ _ Hlw).
  destruct (view w) as [|o n|i|h] eqn:Ev; cbn [valid_contents consistent state_of] in *.
  - destruct (make_word _ _ _ _ (Thin t 0) Hlw) as (new & Hnew & ->); [by cbn|]. cbn [check]. eapply must_then; [constructor|]. eapply must_then; [apply Cas_runs|]. by left.
  - subst o. rewrite Z.eqb_refl in Hcons. destruct Hf as [Eo En]. rewrite Eo, En, Z.eqb_refl. destruct (Z.leb_spec (n + 1) kThinLockMaxCount) as [Hle|Hgt].
    + destruct (make_word _ _ _ _ (Thin t (n + 1)) Hlw) as (new & Hnew & ->); [cbn; lia|]. cbn [check]. eapply must_then; [constructor|].
      destruct gUseReadBarrier; cbn [negb]; [eapply must_then; [apply Cas_runs|by left]|eapply must_then; [by apply runs_now|by left]].
    + apply must_bind. unfold InflateThinLocked. rewrite Eo, Z.eqb_refl. apply Inflate_must; [done|by apply Hfresh|split; [done|by exists n]|]. intros id w' Ev' Hm'. right. split_and!; [done|done|by exists id|].
      unfold available. rewrite Ev', Hm'. intros m [= <-]. by right.
  - destruct (inv_fat _ _ _ Hi i Ev) as (m & Em & Hok). assert (monitors w !! i = Some m) as Hm by (by rewrite Em, lookup_singleton_eq).
    destruct (TryLock_runs t i w m Hm (Ha m Hm) Hi) as (w' & Hr); [apply L; done| |].
    { intros Hl. apply Hn. rewrite <- (l_mine _ _ _ _ _ _ _ _ _ _ L). rewrite (mine_fat _ _ t w i m), bool_decide_eq_true_2 by done. done. }
    rewrite Hf. eapply must_then; [by apply Lock_runs|]. by left.
  - rewrite Hf. apply must_bind, Inflate_must; [done|by apply Hfresh|done|]. intros id w' Ev' Hm'. right. split_and!; [done|done|by exists id|].
    unfold available. rewrite Ev', Hm'. intros m [= <-]. by left.
Qed.

(** ** MonitorExit *)

Lemma Unlock_runs t id w m : inv w -> settled t w -> monitors w !! id = Some m -> monitor_lock_ m = Some t -> exists w', runs (Unlock t id) w true w'.
Proof.
  intros Hi Hset Hm Hl. destruct (inv_monitor _ _ w id m Hi Hm) as (_ & _ & Hok). pose proof (Hset id m Hm Hl) as Ho. unfold Unlock. destruct (Z.eqb_spec (lock_count_ m) 0) as [E|E].
  - destruct (ok_queues _ _ _ _ Hok) as (ws & ks & Q & _). destruct (queues_signal (wait_monitor w) _ _ _ _ _ Q) as (next & wake & thread & gone & ks' & Es & _).
    eexists. eapply runs_bind; [by apply load_runs|]. rewrite bool_decide_eq_true_2 by done. eapply runs_bind; [by apply load_runs|]. rewrite E, Z.eqb_refl. eapply runs_bind; [by apply on_runs|].
    eapply runs_bind; [|constructor]. apply (runs_now _). cbn [monitors with_monitors fst snd]. rewrite lookup_insert_eq. cbn [wake_set_ with_owner wait_next wait_monitor with_monitors]. by rewrite Es.
  - eexists. eapply runs_bind; [by apply load_runs|]. rewrite bool_decide_eq_true_2 by done. eapply runs_bind; [by apply load_runs|]. rewrite (proj2 (Z.eqb_neq _ _)) by done.
    eapply runs_bind; [by apply on_runs|]. constructor.
Qed.

Lemma MonitorExit_runs t w n : 0 < t <= kThinLockMaxOwner -> inv w -> ready t (Some n) w -> exists w', runs (MonitorExit gUseReadBarrier gUseUserfaultfd t) w (Return RTrue) w'.
Proof.
  intros Ht Hi L. pose proof (inv_word _ _ _ Hi) as Hlw. pose proof (lock_word_fields _ _ _ _ Hlw) as Hf. pose proof Hlw as (_ & _ & Hval & _).
  pose proof (l_mine _ _ _ _ _ _ _ _ _ _ L) as Emine. unfold MonitorProtocol.mine in Emine. unfold MonitorExit.
  destruct (view w) as [|o n'|i|h] eqn:Ev; cbn [valid_contents] in *; try done.
  - destruct (Z.eqb_spec o t) as [->|]; [|done]. injection Emine as ->. destruct Hf as [Eo En].
    assert (exists new, (if negb (n =? 0) then check (FromThinLockId t (n - 1) (GCState (lock_word w))) else Ret (FromDefault (GCState (lock_word w)))) = Ret new) as [new Enew].
    { destruct (Z.eqb_spec n 0) as [->|]; cbn [negb]; [eauto|]. destruct (make_word _ _ _ _ (Thin t (n - 1)) Hlw) as (new & Hnew & ->); [cbn; lia|]. by exists new. }
    exists (with_lock_word new w). eapply runs_bind; [apply GetLockWord_runs|]. rewrite (word_state _ _ _ _ Hlw), Eo, En, Z.eqb_refl. cbn [state_of negb]. rewrite Enew. eapply runs_bind; [constructor|].
    destruct gUseReadBarrier; cbn [negb]; [eapply runs_bind; [apply Cas_runs|constructor]|eapply runs_bind; [by apply (runs_now _)|constructor]].
  - destruct (inv_fat _ _ _ Hi i Ev) as (m & Em & Hok). assert (monitors w !! i = Some m) as Hm by (by rewrite Em, lookup_singleton_eq). rewrite Hm in Emine. cbn [mbind option_bind] in Emine.
    destruct (bool_decide_reflect (monitor_lock_ m = Some t)) as [Hl|]; [|done]. destruct (Unlock_runs t i w m Hi) as (w' & Hr); [by apply L|done|done|].
    exists w'. eapply runs_bind; [apply GetLockWord_runs|]. rewrite (word_state _ _ _ _ Hlw), Hf. cbn [state_of]. eapply runs_bind; [done|]. constructor.
Qed.

(** ** Calls that complete *)

(** A call of a thread that is alone begins. *)
Lemma call_begins c t r : pool_ok gUseReadBarrier gUseUserfaultfd c -> calls c = ∅ -> 0 < t <= kThinLockMaxOwner -> valid_requestb gUseReadBarrier r = true ->
  let w := with_runnable ({[t]} ∪ runnable (memory c)) (memory c) in
  exec c (Call t r) = Some (Config w (<[t := (r, body r t 0)]> ∅) (held c) (hashes c)) /\ inv w /\ ready t (hold_n (held_by c t)) w.
Proof.
  intros H Ec Ht Hr w. assert (is_suspended (memory c) t = false) as Hsus.
  { destruct (is_suspended (memory c) t) eqn:E; [|done]. apply is_suspended_spec in E as [x Hx]. pose proof (pool_idle _ _ c H x ltac:(by rewrite Ec)) as L. rewrite (l_sus _ _ _ _ _ _ _ _ _ _ L) in Hx. done. }
  assert (exec c (Call t r) = Some (Config w (<[t := (r, body r t 0)]> ∅) (held c) (hashes c))) as Hs.
  { unfold w. destruct c as [w0 cs h hs]. cbn in *. subst cs. rewrite lookup_empty, Hr, Hsus, (proj2 (Z.ltb_lt 0 t)), (proj2 (Z.leb_le t _)) by lia. done. }
  pose proof (step_pool _ _ _ _ _ H (exec_step _ _ _ _ _ _ Hs)) as H'. split_and!; [done|apply H'|].
  eapply frame_local; [by apply (pool_idle _ _ c H t ltac:(by rewrite Ec))|by constructor| |apply (pool_idle _ _ c H t ltac:(by rewrite Ec))].
  unfold w. cbn. rewrite elem_of_union, elem_of_singleton. tauto.
Qed.

(** A lock that no other thread holds. *)
Lemma alone_available c t : pool_ok gUseReadBarrier gUseUserfaultfd c -> calls c = ∅ -> (forall t', t' <> t -> held_by c t' = 0) -> available t (memory c).
Proof.
  intros H Ec Hh. assert (forall t', t' <> t -> mine t' (memory c) = None) as Hm.
  { intros t' Hne. rewrite (l_mine _ _ _ _ _ _ _ _ _ _ (pool_idle _ _ c H t' ltac:(by rewrite Ec))). by rewrite (Hh t' Hne). }
  unfold available. destruct (view (memory c)) as [|o n|id|h] eqn:Ev; try done.
  - destruct (decide (o = t)) as [|Hne]; [done|]. specialize (Hm o Hne). unfold MonitorProtocol.mine in Hm. by rewrite Ev, Z.eqb_refl in Hm.
  - intros m Hl. destruct (monitor_lock_ m) as [o|] eqn:El; [|by left]. right. f_equal. destruct (decide (o = t)) as [|Hne]; [done|]. specialize (Hm o Hne).
    by rewrite (mine_fat _ _ o _ id m), bool_decide_eq_true_2 in Hm.
Qed.

(** C19: Uncontended calls complete. In every reachable state in which no call is in progress, a thread can call MonitorEnter for an object that no other thread has locked, and
    a thread that has locked it can call MonitorExit. Whatever steps the thread then takes, without other threads and without spurious failures, the call does not block and comes to its end,
    and the lock is then held once more or once less.
    This includes the inflation of the lock on the overflow of its thin count or because of its hash code, for which a monitor must be unused. *)
Theorem Monitor_uncontended gc_state seed c t : gc_ok gUseReadBarrier gUseUserfaultfd gc_state -> reachable gUseReadBarrier gUseUserfaultfd max_spins gc_state seed c ->
  calls c = ∅ -> 0 < t <= kThinLockMaxOwner ->
  ((forall t', t' <> t -> held_by c t' = 0) -> held_by c t < 2 ^ 32 -> (exists id, 0 <= id <= kMaxMonitorId /\ id ∉ pool (memory c)) ->
   exists c1, exec c (Call t (EnterRequest false)) = Some c1 /\
     inevitably (alone t) (fun c' => calls c' = ∅ /\ held c' = <[t := held_by c t + 1]> (held c)) c1) /\
  (0 < held_by c t ->
   exists c1, exec c (Call t ExitRequest) = Some c1 /\
     inevitably (alone t) (fun c' => calls c' = ∅ /\ held c' = <[t := held_by c t - 1]> (held c)) c1).
Proof.
  intros Hg Hc Ec Ht. apply reachable_pool in Hc; [|done]. split.
  - intros Hh Hn Hun. destruct (call_begins c t (EnterRequest false) Hc Ec Ht) as (Hs & Hi & L); [done|]. eexists. split; [exact Hs|]. clear Hs. set (w := with_runnable _ _) in *.
    assert (forall n, hold_n (held_by c t) = Some n -> n + 1 < 2 ^ 32) as Hb by (unfold hold_n; intros n; destruct (held_by c t =? 0); [done|intros [= <-]; lia]).
    eapply must_inevitably; [eapply safe_must; [by apply MonitorEnter_spec|done|by apply (MonitorEnter_must t 0 w _ Ht Hi L (alone_available c t Hc Ec Hh) Hb)]|].
    intros v w1 (L1 & Hi1 & [->|(Hnf & -> & (id & Ev) & Ha)]); [by apply return_inevitably|]. cbn [post] in L1. apply again_inevitably.
    eapply must_inevitably; [apply (MonitorEnter_must t 0 w1 _ Ht Hi1 L1 Ha Hb); intros Hno; by destruct (Hno id)|]. intros v w2 [->|(Hno & _)]; [by apply return_inevitably|by destruct (Hno id)].
  - intros Hn. destruct (call_begins c t ExitRequest Hc Ec Ht) as (Hs & Hi & L); [done|]. eexists. split; [exact Hs|]. unfold hold_n in L. rewrite (proj2 (Z.eqb_neq _ 0)) in L by lia.
    destruct (MonitorExit_runs t _ _ Ht Hi L) as (w1 & R).
    eapply must_inevitably; [by eapply runs_must; [exact R|exact (eq_refl : (fun v _ => v = Return RTrue) (Return RTrue) w1)]|]. intros v w2 ->. by apply return_inevitably.
Qed.
End progress.

Lemma Monitor_uncontended_witness : calls (after 200) = ∅ /\ held_by (after 200) 2 = 1 /\
  exists c1, exec false false (-100) (after 200) (Call 2 ExitRequest) = Some c1 /\ inevitably (alone false false (-100) 2) (fun c' => calls c' = ∅ /\ held c' = <[2 := 0]> (held (after 200))) c1.
Proof.
  split; [by vm_compute|]. split; [by vm_compute|].
  destruct (Monitor_uncontended false false (-100) 0 42 (after 200) 2) as [_ H]; [by split|apply after_reachable|by vm_compute|done|]. apply H. by vm_compute.
Defined.
