(* ===== verification/BitmapTable.v ===== *)
(** Tables of bitmaps: BitmapTableBuilder of libartbase/base/bit_table.h.

    A row of the builder is the list of the bytes of its bitmap, in an allocation of its own; the
    encoded table is read back as a [BitTableBase] of one column. *)
From S2P Require Import Prelude BitUtils Memory BitMemory BitTable.

(** The memory of an object of its own, with its first byte at address 0. *)
Definition bytes_memory (bytes : list Z) : memory :=
  fun a => if 0 <=? a then default 0 (bytes !! Z.to_nat a) else 0.

(** [CopyBits] with a source in another object. *)
Definition CopyBitsFrom (src_mem m : memory) (r src : BitMemoryRegion) : memory :=
  let '(_, m, _) :=
    VisitChunks (A := unit) (fun offset num_bits value m s =>
      (true, StoreChunk m r offset (LoadBits 64 src_mem src offset num_bits) num_bits, s))
      r m tt in m.

(** A failing DCHECK ends a debug build. *)
Definition DCHECK (b : bool) : option unit := if b then Some tt else None.

Record BitmapTableBuilder := BitmapBuilder {
  bitmap_rows_ : list (list Z);
  bitmap_dedup_ : list (Z * Z);
  max_num_bits_ : Z }.

Definition bitmap_size (b : BitmapTableBuilder) : Z := Z.of_nat (length (bitmap_rows_ b)).

(** [MemoryRegion::ContentEquals] on the rows that the multimap lists. *)
Fixpoint find_bitmap (rows : list (list Z)) (region : list Z) (range : list Z) : option Z :=
  match range with
  | [] => None
  | index :: range =>
      if bool_decide (rows !! Z.to_nat index = Some region) then Some index
      else find_bitmap rows region range
  end.

(** [bitmap] is the bytes from the pointer on; it must have the bytes that are read. *)
Definition BitmapDedup (equal_range : list (Z * Z) -> Z -> list Z) (b : BitmapTableBuilder)
    (bitmap : list Z) (num_bits : Z) : option (Z * BitmapTableBuilder) :=
  let n := Z.to_nat (BitsToBytesRoundUp num_bits) in
  if (length bitmap <? n)%nat then None
  else
    let region := take n bitmap in
    let bits := Region 0 0 (Z.of_nat n * kBitsPerByte) in
    _ ← DCHECK ((num_bits =? 0) || LoadBit (bytes_memory region) bits (num_bits - 1));
    _ ← DCHECK (LoadBits 64 (bytes_memory region) bits num_bits (Z.of_nat n * kBitsPerByte - num_bits) =? 0);
    let hash := FNVHash region in
    match find_bitmap (bitmap_rows_ b) region (equal_range (bitmap_dedup_ b) hash) with
    | Some index => Some (index, b)
    | None =>
        let index := u32 (bitmap_size b) in
        Some (index,
          BitmapBuilder (bitmap_rows_ b ++ [region]) (bitmap_dedup_ b ++ [(hash, index)])
            (Z.max (max_num_bits_ b) num_bits))
    end.

Definition write_bitmap (max_num_bits : Z) (out : BitMemoryWriter) (row : list Z) : BitMemoryWriter :=
  let bits_to_copy := Z.min max_num_bits (Z.of_nat (length row) * kBitsPerByte) in
  let src := MakeRegion 0 0 bits_to_copy in
  let '(dst, out) := Allocate out max_num_bits in
  with_mem out (CopyBitsFrom (bytes_memory row) (w_mem out) (Subregion dst 0 bits_to_copy) src).

Definition BitmapEncode (b : BitmapTableBuilder) (out : BitMemoryWriter) : BitMemoryWriter :=
  let out := WriteInterleavedVarints out [u32 (bitmap_size b); u32 (max_num_bits_ b)] in
  foldl (write_bitmap (max_num_bits_ b)) out (bitmap_rows_ b).

(** What a debug build checks when the bitmaps are written. *)
Definition BitmapVerifyEncoded (b : BitmapTableBuilder) (initial_bit_offset : Z)
    (out : BitMemoryWriter) : bool :=
  let reader := MakeReader (Subregion1 (GetWrittenRegion out) initial_bit_offset) in
  let table := (Decode 1 (w_mem out) reader).1 in
  (bitmap_size b =? NumRows table) && (max_num_bits_ b =? NumColumnBits table 0) &&
  forallb (fun r =>
    let row := default [] (bitmap_rows_ b !! r) in
    let expected := Region 0 0 (Z.of_nat (length row) * kBitsPerByte) in
    let seen := GetBitMemoryRegion 1 table (Z.of_nat r) 0 in
    forallb (fun i =>
      eqb ((Z.of_nat i <? size_in_bits expected) && LoadBit (bytes_memory row) expected (Z.of_nat i))
        ((Z.of_nat i <? size_in_bits seen) && LoadBit (w_mem out) seen (Z.of_nat i)))
      (seq 0 (Z.to_nat (Z.max (size_in_bits expected) (size_in_bits seen)))))
    (seq 0 (length (bitmap_rows_ b))).

(** ** Writers whose unwritten bits are zero *)

Definition clean (wr : BitMemoryWriter) : Prop :=
  forall j, w_pos wr <= j < 8 * (w_data wr + w_size wr) -> mbit (w_mem wr) j = false.

(** [wr'] is [wr] after appending the items. *)
Record grown (wr wr' : BitMemoryWriter) (items : list (Z * Z)) : Prop := {
  gr_app : appended wr wr' (items_bits items);
  gr_clean : clean wr';
  gr_match : items_match (w_mem wr') (w_pos wr) items }.

Definition widths_ok (items : list (Z * Z)) : Prop := Forall (fun it => 0 <= it.2) items.

Lemma widths_nonneg items : widths_ok items -> 0 <= items_bits items.
Proof. induction 1; simpl; unfold items_bits in *; simpl in *; lia. Qed.

Lemma item_ok_widths items : Forall item_ok items -> widths_ok items.
Proof. intros H. eapply Forall_impl; [done|]. by intros it [? _]; lia. Qed.

Lemma bits_match_frame m m' a n v :
  (forall j, a <= j < a + n -> mbit m' j = mbit m j) -> bits_match m a n v -> bits_match m' a n v.
Proof. intros Hf H i Hi. rewrite Hf by lia. by apply H. Qed.

Lemma items_frame m m' a items :
  widths_ok items -> (forall j, a <= j < a + items_bits items -> mbit m' j = mbit m j) ->
  items_match m a items -> items_match m' a items.
Proof.
  intros Hok. revert a. induction Hok as [|it items Hn Hok IH]; intros a Hf; simpl; [done|].
  pose proof (widths_nonneg _ Hok) as H0. simpl in Hf. fold (items_bits items) in Hf. intros [H1 H2]. split.
  - eapply bits_match_frame; [|done]. intros j Hj. apply Hf. lia.
  - apply IH; [|done]. intros j Hj. apply Hf. lia.
Qed.

Lemma appended_pos wr wr' n : appended wr wr' n -> w_pos wr' = w_pos wr + n.
Proof. intros [_ D _ O _]. unfold w_pos. lia. Qed.

Lemma grown_nil wr : wf_writer wr -> clean wr -> grown wr wr [].
Proof. intros Hw Hc. split; [by apply appended_refl|done|done]. Qed.

Lemma grown_app wr wr1 wr2 l l' :
  widths_ok l -> widths_ok l' -> grown wr wr1 l -> grown wr1 wr2 l' -> grown wr wr2 (l ++ l').
Proof.
  intros Hl Hl' [A1 _ M1] [A2 C2 M2]. pose proof (widths_nonneg _ Hl). pose proof (widths_nonneg _ Hl').
  pose proof (appended_pos _ _ _ A1) as E1.
  split; [rewrite items_bits_app; by eapply appended_trans|done|].
  apply items_match_app. split; [|by rewrite <- E1].
  eapply items_frame; [done| |done]. intros j Hj. apply A2. left. lia.
Qed.

Lemma size_bound wr : wf_writer wr ->
  w_bit_offset wr <= 8 * w_size wr < w_bit_offset wr + 8.
Proof. intros [_ _ _ ->]. Z.div_mod_to_equations. lia. Qed.

Lemma Allocate_clean wr n r wr' :
  wf_writer wr -> clean wr -> 0 <= n -> w_pos wr + n < 2 ^ 62 -> Allocate wr n = (r, wr') ->
  forall j, w_pos wr <= j < 8 * (w_data wr' + w_size wr') -> mbit (w_mem wr') j = false.
Proof.
  intros Hw Hc Hn Hov E j Hj. pose proof (size_bound _ Hw). destruct Hw as [Hok Hd Hs Hsz].
  injection E as <- <-. unfold w_pos in *. simpl in Hj.
  simpl. unfold mbit. pose proof (Z.div_mod j 8 ltac:(lia)). pose proof (Z.mod_pos_bound j 8 ltac:(lia)).
  destruct (Z.leb_spec (w_data wr + w_size wr) (j / 8)); cbn [andb].
  - case_ltb; [apply Z.testbit_0_l|]. lia.
  - apply Hc. unfold w_pos. lia.
Qed.

(** Storing into the region that was allocated leaves a clean writer. *)
Lemma store_grown wr wr' r n m' v :
  wf_writer wr -> clean wr -> 0 <= n -> w_pos wr + n < 2 ^ 62 -> Allocate wr n = (r, wr') ->
  bytes_ok m' ->
  (forall j, mbit m' j = if (w_pos wr <=? j) && (j <? w_pos wr + n) then Z.testbit v (j - w_pos wr)
     else mbit (w_mem wr') j) ->
  grown wr (with_mem wr' m') [(v, n)].
Proof.
  intros Hw Hc Hn Hov E Hok Hb.
  destruct (Allocate_spec wr n r wr' Hw Hn Hov E) as (Ha & Hr & A & B & Hroom).
  destruct (appended_store wr wr' r n m' (Z.testbit v)) as [H1 H2]; try (done || lia).
  assert (items_bits [(v, n)] = n) as En by (simpl; lia).
  split; [by rewrite En| |split; done].
  intros j Hj. rewrite (appended_pos _ _ _ H1) in Hj. simpl in Hj |- *. rewrite Hb.
  repeat case_ltb; cbn [andb]; try lia; eapply Allocate_clean; (done || lia).
Qed.

Lemma WriteBits_grown wr v n :
  wf_writer wr -> clean wr -> item_ok (v, n) -> w_pos wr + n < 2 ^ 62 ->
  grown wr (WriteBits wr v n) [(v, n)].
Proof.
  intros Hw Hc [Hn Hv] Hov. simpl in *. unfold WriteBits. destruct (Allocate wr n) as [r wr'] eqn:E.
  destruct (Allocate_spec wr n r wr' Hw ltac:(lia) Hov E) as (Ha & Hr & A & B & Hroom).
  destruct (StoreBits_spec (w_mem wr') r 0 v n) as [Hok Hb]; [done|apply Ha|lia..|done|].
  rewrite A, Z.add_0_r in Hb. eapply store_grown; (done || lia).
Qed.

Lemma write_items_grown wr items :
  wf_writer wr -> clean wr -> Forall item_ok items -> w_pos wr + items_bits items < 2 ^ 62 ->
  grown wr (write_items wr items) items.
Proof.
  intros Hw Hc Hok. revert wr Hw Hc. induction Hok as [|it items Hit Hok IH]; intros wr Hw Hc Hov.
  { by apply grown_nil. }
  pose proof (items_bits_nonneg _ Hok). simpl in Hov. fold (items_bits items) in Hov.
  pose proof (WriteBits_grown wr it.1 it.2 Hw Hc) as Hg. destruct it as [v n]. simpl in *.
  specialize (Hg Hit ltac:(lia)). pose proof (gr_app _ _ _ Hg) as Ha.
  apply (grown_app wr (WriteBits wr v n) _ [(v, n)] items).
  - apply item_ok_widths. by constructor.
  - by apply item_ok_widths.
  - done.
  - apply IH; [apply Ha|apply Hg|]. rewrite (appended_pos _ _ _ Ha). simpl. lia.
Qed.

(** ** The bitmaps in memory *)

Lemma bytes_memory_ok bytes : Forall (is_u 8) bytes -> bytes_ok (bytes_memory bytes).
Proof.
  intros H a. unfold bytes_memory. case_ltb; [|unfold is_u; lia].
  destruct (bytes !! Z.to_nat a) eqn:E; simpl; [|unfold is_u; lia].
  by eapply Forall_lookup_1 in H.
Qed.

Lemma bytes_memory_beyond bytes i : 8 * Z.of_nat (length bytes) <= i -> mbit (bytes_memory bytes) i = false.
Proof.
  intros Hi. unfold mbit, bytes_memory. assert (Z.of_nat (length bytes) <= i / 8) by (apply Z.div_le_lower_bound; lia).
  case_ltb; [|apply Z.testbit_0_l]. rewrite lookup_ge_None_2 by lia. apply Z.testbit_0_l.
Qed.

Lemma CopyBitsFrom_spec src_mem m r src :
  wf_region r -> wf_region src -> bytes_ok src_mem -> bytes_ok m -> bit_size_ src = bit_size_ r ->
  bytes_ok (CopyBitsFrom src_mem m r src) /\
  forall j, mbit (CopyBitsFrom src_mem m r src) j =
    if (abs_start r <=? j) && (j <? abs_start r + bit_size_ r)
    then rbit src_mem src (j - abs_start r) else mbit m j.
Proof.
  intros Hr Hsrc Hms Hm Hsz. unfold CopyBitsFrom. set (vis := fun _ _ _ _ _ => _).
  set (P := fun off m' (_ : unit) => bytes_ok m' /\ forall j, mbit m' j =
    if (abs_start r <=? j) && (j <? abs_start r + off)
    then rbit src_mem src (j - abs_start r) else mbit m j).
  assert (visited r P (fun _ _ => False) (VisitChunks vis r m tt)) as H.
  2:{ destruct (VisitChunks vis r m tt) as [[[] m'] []]; [|done]. exact H. }
  apply VisitChunks_rule; [done|by intros ? ? ? []| |].
  - intros off n v m' s [Hok Hb] Hoff Hn Hon Hal Hvn Hc. simpl. set (x := LoadBits 64 src_mem src off n).
    assert (is_u n x) as Hux by (apply (LoadBits_is_u 64); (done || lia || (unfold width_ok; lia))).
    destruct (StoreChunk_spec m' r off x n) as [Hok' Hb']; try (done || lia).
    split; [done|]. intros j. rewrite Hb'. cbv zeta. rewrite Hb.
    destruct (Z.leb_spec (abs_start r + off) j), (Z.ltb_spec j (abs_start r + off + n)); cbn [andb];
      repeat case_ltb; cbn [andb]; try (done || lia).
    subst x. rewrite LoadBits_testbit by (done || lia || (unfold width_ok; lia)).
    replace (off + (j - (abs_start r + off))) with (j - abs_start r) by lia.
    by destruct (Z.ltb_spec (j - (abs_start r + off)) n); [|lia].
  - split; [done|]. intros j. repeat case_ltb; cbn [andb]; (done || lia).
Qed.

(** A bitmap as one value of [max] bits. *)
Definition bitmap_item (max : Z) (row : list Z) : Z * Z :=
  (of_bits (Z.to_nat max) (mbit (bytes_memory row)), max).

Lemma bitmap_item_testbit max row i :
  0 <= i < max -> Z.testbit (bitmap_item max row).1 i = mbit (bytes_memory row) i.
Proof. intros Hi. simpl. rewrite of_bits_testbit by lia. by destruct (Z.ltb_spec i (Z.of_nat (Z.to_nat max))); [|lia]. Qed.

Lemma write_bitmap_grown max wr row :
  wf_writer wr -> clean wr -> 0 <= max -> w_pos wr + max < 2 ^ 62 -> Forall (is_u 8) row ->
  grown wr (write_bitmap max wr row) [bitmap_item max row].
Proof.
  intros Hw Hc Hmax Hov Hrow. unfold write_bitmap, kBitsPerByte.
  set (n := Z.min max (Z.of_nat (length row) * 8)). destruct (Allocate wr max) as [dst wr'] eqn:E.
  destruct (Allocate_spec wr max dst wr' Hw Hmax Hov E) as (Ha & Hr & A & B & Hroom).
  pose proof (ww_data _ Hw). pose proof (ww_start _ Hw).
  assert (max < 2 ^ 62) by (unfold w_pos in Hov; lia).
  destruct (MakeRegion_spec 0 0 n) as (Hsrc & As & Bs); [lia..|].
  destruct (Subregion_spec dst 0 n Hr) as [Hsub Asub]; [lia..|].
  destruct (CopyBitsFrom_spec (bytes_memory row) (w_mem wr') (Subregion dst 0 n) (MakeRegion 0 0 n))
    as [Hok Hb]; try done; [by apply bytes_memory_ok|apply Ha|].
  apply (store_grown wr wr' dst); try done.
  intros j. rewrite Hb, Asub, A. change (bit_size_ (Subregion dst 0 n)) with n. rewrite Z.add_0_r.
  unfold rbit. rewrite As.
  destruct (Z.leb_spec (w_pos wr) j), (Z.ltb_spec j (w_pos wr + max)); cbn [andb]; try done.
  - change (of_bits _ _) with (bitmap_item max row).1.
    rewrite bitmap_item_testbit by lia. case_ltb; [f_equal; lia|].
    rewrite bytes_memory_beyond by lia. apply (Allocate_clean wr max dst); (done || lia).
  - case_ltb; [lia|done].
Qed.

Definition bitmap_items (b : BitmapTableBuilder) : list (Z * Z) :=
  varint_items [u32 (bitmap_size b); u32 (max_num_bits_ b)] ++
  map (bitmap_item (max_num_bits_ b)) (bitmap_rows_ b).

Lemma bitmap_rows_widths max rows : 0 <= max -> widths_ok (map (bitmap_item max) rows).
Proof. intros H. apply Forall_map, Forall_forall. done. Qed.

Lemma bitmap_rows_bits max rows :
  items_bits (map (bitmap_item max) rows) = Z.of_nat (length rows) * max.
Proof. induction rows as [|row rows IH]; [done|]. unfold items_bits in *. cbn [map foldr length]. rewrite IH. simpl. lia. Qed.

Lemma bitmap_header_ok b : Forall (is_u 32) [u32 (bitmap_size b); u32 (max_num_bits_ b)].
Proof. repeat constructor; apply uN_is_u; lia. Qed.

Lemma bitmap_items_widths b : 0 <= max_num_bits_ b -> widths_ok (bitmap_items b).
Proof.
  intros H. apply Forall_app. split; [|by apply bitmap_rows_widths].
  apply item_ok_widths, varint_items_ok, bitmap_header_ok.
Qed.

Lemma write_bitmaps_grown max wr rows :
  wf_writer wr -> clean wr -> 0 <= max -> w_pos wr + Z.of_nat (length rows) * max < 2 ^ 62 ->
  Forall (Forall (is_u 8)) rows ->
  grown wr (foldl (write_bitmap max) wr rows) (map (bitmap_item max) rows).
Proof.
  intros Hw Hc Hmax Hov Hrows. revert wr Hw Hc Hov.
  induction Hrows as [|row rows Hrow Hrows IH]; intros wr Hw Hc Hov; [by apply grown_nil|].
  cbn [length] in Hov.
  pose proof (write_bitmap_grown max wr row Hw Hc Hmax ltac:(nia) Hrow) as Hg.
  pose proof (gr_app _ _ _ Hg) as Ha. cbn [foldl map].
  apply (grown_app wr (write_bitmap max wr row) _ [bitmap_item max row]); try done.
  - by apply (bitmap_rows_widths max [row]).
  - by apply bitmap_rows_widths.
  - apply IH; [apply Ha|apply Hg|]. rewrite (appended_pos _ _ _ Ha). simpl. lia.
Qed.

Lemma BitmapEncode_grown b wr :
  wf_writer wr -> clean wr -> 0 <= max_num_bits_ b -> Forall (Forall (is_u 8)) (bitmap_rows_ b) ->
  w_pos wr + items_bits (bitmap_items b) < 2 ^ 62 ->
  grown wr (BitmapEncode b wr) (bitmap_items b).
Proof.
  intros Hw Hc Hmax Hrows Hov. unfold BitmapEncode, bitmap_items in *. rewrite items_bits_app in Hov.
  rewrite WriteInterleavedVarints_items by apply bitmap_header_ok.
  pose proof (varint_items_ok _ (bitmap_header_ok b)) as Hh. set (h := varint_items _) in *.
  rewrite bitmap_rows_bits in Hov. pose proof (items_bits_nonneg _ Hh).
  pose proof (write_items_grown wr h Hw Hc Hh ltac:(nia)) as Hg. pose proof (gr_app _ _ _ Hg) as Ha.
  eapply grown_app; [by apply item_ok_widths|by apply bitmap_rows_widths|done|].
  apply write_bitmaps_grown; [apply Ha|apply Hg|done| |done]. rewrite (appended_pos _ _ _ Ha). lia.
Qed.

(** ** Reading the bitmaps *)

(** What the reader of a table of bitmaps sees. *)
Record shows_bitmaps (m : memory) (t : BitTableBase) (b : BitmapTableBuilder) : Prop := {
  sb_rows : num_rows_ t = bitmap_size b;
  sb_column : NumColumnBits t 0 = max_num_bits_ b;
  sb_row : forall r row, bitmap_rows_ b !! r = Some row ->
    let reg := GetBitMemoryRegion 1 t (Z.of_nat r) 0 in
    wf_region reg /\ bit_size_ reg = max_num_bits_ b /\
    forall i, 0 <= i < max_num_bits_ b -> rbit m reg i = mbit (bytes_memory row) i }.

Definition bitmaps_small (b : BitmapTableBuilder) : Prop :=
  0 <= max_num_bits_ b < 2 ^ 16 /\ bitmap_size b < 2 ^ 32 /\ bitmap_size b * max_num_bits_ b < 2 ^ 32.

Lemma bitmap_table_shows m b reg :
  bitmaps_small b -> wf_region reg -> bit_size_ reg = bitmap_size b * max_num_bits_ b ->
  items_match m (abs_start reg) (map (bitmap_item (max_num_bits_ b)) (bitmap_rows_ b)) ->
  shows_bitmaps m (Table reg (bitmap_size b) [0; max_num_bits_ b]) b.
Proof.
  intros (Hmax & Hsz & Hbits) Hwf Hz Hi. split; [done| |].
  { unfold NumColumnBits. simpl. rewrite Z.sub_0_r. apply uN_small. unfold is_u. lia. }
  intros r row Hr reg'.
  pose proof (lookup_lt_Some _ _ _ Hr). unfold bitmap_size in *.
  assert (reg' = Subregion reg (Z.of_nat r * max_num_bits_ b) (max_num_bits_ b)) as ->.
  { subst reg'. unfold GetBitMemoryRegion, NumRowBits, NumColumnBits. simpl.
    rewrite (uN_small 32 (Z.of_nat r * _)) by (unfold is_u; nia).
    rewrite Z.add_0_r, Z.sub_0_r, !uN_small by (unfold is_u; nia). done. }
  destruct (Subregion_spec reg (Z.of_nat r * max_num_bits_ b) (max_num_bits_ b) Hwf) as [H1 H2]; [nia..|].
  split_and!; [done|done|]. intros i Hx. unfold rbit. rewrite H2.
  eapply items_match_lookup in Hi; [|by rewrite list_lookup_fmap, Hr].
  rewrite <- (bitmap_item_testbit (max_num_bits_ b)) by done. rewrite <- Hi by done. do 2 f_equal.
  rewrite <- fmap_take. rewrite (bitmap_rows_bits (max_num_bits_ b)), length_take. nia.
Qed.

Lemma BitmapDecode_spec m b rd k :
  bytes_ok m -> bitmaps_small b -> 0 <= k ->
  wf_reader rd (items_bits (bitmap_items b) + k) -> items_match m (r_pos rd) (bitmap_items b) ->
  exists t rd', Decode 1 m rd = (t, rd') /\ shows_bitmaps m t b /\ wf_reader rd' k /\
    r_pos rd' = r_pos rd + items_bits (bitmap_items b).
Proof.
  intros Hm Hs Hk Hrd Hi. pose proof Hs as (Hmax & Hsz & Hbits).
  unfold bitmap_items in Hi, Hrd |- *. apply items_match_app in Hi as [Hi1 Hi2].
  rewrite items_bits_app, bitmap_rows_bits in *. fold (bitmap_size b) in *.
  assert (0 <= bitmap_size b) by (unfold bitmap_size; lia).
  destruct (ReadInterleavedVarints_spec m [u32 (bitmap_size b); u32 (max_num_bits_ b)] rd
    (bitmap_size b * max_num_bits_ b + k)) as (rd1 & E1 & Hrd1 & Hp1);
    try done; [apply bitmap_header_ok|nia|by rewrite Z.add_assoc|].
  set (h := items_bits _) in Hp1 |- *.
  unfold Decode. change (1 + 1)%nat with (length [u32 (bitmap_size b); u32 (max_num_bits_ b)]).
  rewrite E1. cbn [lookup list_lookup drop column_offsets default from_option id].
  rewrite !(uN_small 32 (bitmap_size b)), !(uN_small 32 (max_num_bits_ b)) by (unfold is_u; lia).
  rewrite Z.add_0_l, (uN_small 16) by (unfold is_u; lia).
  rewrite (uN_small 32) by (unfold is_u; nia).
  pose proof (ReadRegion_spec rd1 (bitmap_size b * max_num_bits_ b) k Hrd1 ltac:(nia) Hk) as Hreg.
  destruct (ReadRegion rd1 _) as [reg rd2]. destruct Hreg as (Hwf & Ha & Hz & Hrd2 & Hp2).
  eexists _, rd2. split_and!; [done| |done|lia].
  apply bitmap_table_shows; try done. by rewrite Ha, Hp1.
Qed.

(** ** De-duplication *)

Section dedup_lemmas.
Context (equal_range : list (Z * Z) -> Z -> list Z).
Hypothesis equal_range_spec : forall d h, equal_range d h ≡ₚ (filter (fun p => p.1 = h) d).*2.

(** The bitmap of the first [num_bits] bits of [row], of which the last one is set. *)
Definition tight (row : list Z) (num_bits : Z) : Prop :=
  0 <= num_bits /\ Z.of_nat (length row) = (num_bits + 7) / 8 /\ Forall (is_u 8) row /\
  (num_bits <> 0 -> mbit (bytes_memory row) (num_bits - 1) = true) /\
  forall i, num_bits <= i -> mbit (bytes_memory row) i = false.

Lemma tight_unique row n n' : tight row n -> tight row n' -> n = n'.
Proof.
  intros (H0 & _ & _ & Hl & Hb) (H0' & _ & _ & Hl' & Hb').
  destruct (Z.lt_total n n') as [H|[H|H]]; [|done|].
  - specialize (Hb (n' - 1) ltac:(lia)). rewrite Hl' in Hb by lia. done.
  - specialize (Hb' (n - 1) ltac:(lia)). rewrite Hl in Hb' by lia. done.
Qed.

(** The checks of [Dedup]. *)
Lemma tight_checks row n :
  tight row n -> n < 2 ^ 62 ->
  let bits := Region 0 0 (Z.of_nat (length row) * kBitsPerByte) in
  (n =? 0) || LoadBit (bytes_memory row) bits (n - 1) = true /\
  LoadBits 64 (bytes_memory row) bits n (Z.of_nat (length row) * kBitsPerByte - n) = 0.
Proof.
  intros (H0 & Hl & Hu & Hlast & Hout) Hn bits. unfold kBitsPerByte in *.
  assert (n <= Z.of_nat (length row) * 8 < n + 8) as Hr by (Z.div_mod_to_equations; lia).
  assert (wf_region bits) as Hwf by (split; simpl; lia). split.
  - destruct (Z.eqb_spec n 0) as [|Hne]; [done|]. simpl. rewrite LoadBit_rbit by (done || (simpl; lia)).
    unfold rbit, abs_start. simpl. apply Hlast. done.
  - apply Z.bits_inj'. intros i Hi. rewrite Z.bits_0, LoadBits_testbit; simpl; try (done || lia);
      [|by right; right; right|by apply bytes_memory_ok].
    destruct (Z.ltb_spec i (Z.of_nat (length row) * 8 - n)); [|done]. simpl. unfold rbit, abs_start. simpl. apply Hout. lia.
Qed.

(** The rows are bitmaps of at most [max_num_bits_] bits. *)
Record bitmaps_ok (b : BitmapTableBuilder) : Prop := {
  bo_rows : Forall (fun row => exists n, tight row n /\ n <= max_num_bits_ b) (bitmap_rows_ b);
  bo_dedup : Forall (fun p => 0 <= p.2) (bitmap_dedup_ b);
  bo_max : 0 <= max_num_bits_ b }.

Lemma bitmaps_ok_bytes b : bitmaps_ok b -> Forall (Forall (is_u 8)) (bitmap_rows_ b).
Proof. intros [H _ _]. eapply Forall_impl; [done|]. by intros row (n & (_ & _ & Hu & _) & _). Qed.

Lemma find_bitmap_sound rows region range index :
  find_bitmap rows region range = Some index ->
  rows !! Z.to_nat index = Some region /\ (index ∈ range).
Proof.
  induction range as [|i range IH]; simpl; [done|]. case_bool_decide; intros H'.
  - injection H' as <-. split; [done|by left].
  - destruct (IH H'). split; [done|by right].
Qed.

Lemma BitmapDedup_spec b bitmap num_bits :
  bitmaps_ok b -> bitmap_size b < 2 ^ 32 -> 0 <= num_bits < 2 ^ 62 ->
  (num_bits + 7) / 8 <= Z.of_nat (length bitmap) ->
  tight (take (Z.to_nat ((num_bits + 7) / 8)) bitmap) num_bits ->
  exists index b', BitmapDedup equal_range b bitmap num_bits = Some (index, b') /\
    0 <= index < 2 ^ 32 /\ bitmaps_ok b' /\ bitmap_rows_ b `prefix_of` bitmap_rows_ b' /\
    bitmap_size b' <= bitmap_size b + 1 /\
    max_num_bits_ b <= max_num_bits_ b' <= Z.max (max_num_bits_ b) num_bits /\
    num_bits <= max_num_bits_ b' /\
    bitmap_rows_ b' !! Z.to_nat index = Some (take (Z.to_nat ((num_bits + 7) / 8)) bitmap).
Proof using equal_range_spec.
  intros Hok Hsz Hn Hlen Ht. pose proof Hok as [Hr Hd Hm]. unfold BitmapDedup. rewrite BitsToBytesRoundUp_val by lia.
  assert (0 <= (num_bits + 7) / 8) by (apply Z.div_pos; lia).
  destruct (Nat.ltb_spec (length bitmap) (Z.to_nat ((num_bits + 7) / 8))) as [?|_]; [lia|].
  set (region := take _ bitmap) in *. destruct (tight_checks region num_bits Ht ltac:(lia)) as [Hc1 Hc2].
  assert (length region = Z.to_nat ((num_bits + 7) / 8)) as Hrl by (unfold region; rewrite length_take; lia).
  rewrite Hrl in Hc1, Hc2. rewrite Hc1, Hc2, Z.eqb_refl. cbn [DCHECK mbind option_bind].
  destruct (find_bitmap _ _ _) as [index|] eqn:E.
  - apply find_bitmap_sound in E as [Hi Hin]. exists index, b.
    rewrite equal_range_spec in Hin. apply list_elem_of_fmap in Hin as (p & -> & Hin).
    apply list_elem_of_filter in Hin as [_ Hin]. eapply Forall_forall in Hd; [|done].
    pose proof (lookup_lt_Some _ _ _ Hi). unfold bitmap_size in *.
    eapply Forall_lookup_1 in Hr as (n & Ht' & Hle); [|done]. pose proof (tight_unique _ _ _ Ht Ht').
    split_and!; try (done || lia).
  - eexists _, _. split; [done|]. unfold bitmap_size in *. rewrite uN_small by (unfold is_u; lia). simpl.
    split_and!; try lia; [|by eexists|rewrite length_app; simpl; lia|].
    + split; simpl; [|apply Forall_app; split; [done|by apply Forall_singleton; simpl; lia]|lia].
      apply Forall_app. split; [|apply Forall_singleton; exists num_bits; split; [done|lia]].
      eapply Forall_impl; [done|]. intros row (n & H1 & H2). exists n. split; [done|lia].
    + rewrite Nat2Z.id, lookup_app_r, Nat.sub_diag by done. done.
Qed.
End dedup_lemmas.

(** ** The checks of the written tables *)

Lemma written_reader out out' n :
  wf_writer out -> appended out out' n -> 0 <= n -> w_pos out' < 2 ^ 61 ->
  let rd := MakeReader (Subregion1 (GetWrittenRegion out') (NumberOfWrittenBits out)) in
  wf_reader rd n /\ r_pos rd = w_pos out.
Proof.
  intros [_ Hd Hs _] [_ Ed Es Eo _] Hn Hp rd. unfold w_pos in *.
  assert (NumberOfWrittenBits out = w_bit_offset out - w_bit_start out) as E
    by (unfold NumberOfWrittenBits; apply uN_small; unfold is_u; lia).
  destruct (MakeRegion_spec (w_data out') (w_bit_start out') (w_bit_offset out' - w_bit_start out')) as (Hwf & Ha & Hz); [lia..|].
  assert (GetWrittenRegion out' = MakeRegion (w_data out') (w_bit_start out') (w_bit_offset out' - w_bit_start out')) as Eg
    by (unfold GetWrittenRegion; f_equal; apply uN_small; unfold is_u; lia).
  unfold rd. clear rd. rewrite Eg, E. set (r := MakeRegion _ _ _) in *. clearbody r. destruct Hwf as [H1 H2 H3].
  unfold MakeReader, Subregion, Subregion1, r_pos, abs_start in *. simpl.
  rewrite (uN_small 64 (bit_start_ r + _)), Z.add_0_r, (uN_small 64) by (unfold is_u; lia).
  split; [|lia]. split; simpl; lia.
Qed.

Lemma forallb_seq f n : (forall i, (i < n)%nat -> f i = true) -> forallb f (seq 0 n) = true.
Proof. intros H. apply forallb_forall. intros i Hi. apply in_seq in Hi. apply H. lia. Qed.

Lemma VerifyEncoded_true k b out :
  Forall (fun row => length row = k /\ Forall (is_u 32) row) (rows_ b) -> (k <= 15)%nat -> size b < 2 ^ 32 ->
  size b * sum (Measure k b) < 2 ^ 32 -> wf_writer out ->
  appended out (Encode k b out) (items_bits (table_items k b)) ->
  items_match (w_mem (Encode k b out)) (w_pos out) (table_items k b) -> w_pos (Encode k b out) < 2 ^ 61 ->
  VerifyEncoded k b (NumberOfWrittenBits out) (Encode k b out) = true.
Proof.
  intros Hrows Hk Hsz Hbits Hw Ha Hi Hp. pose proof (items_bits_nonneg _ (table_items_ok k b)) as H0.
  destruct (written_reader out _ _ Hw Ha H0 Hp) as [Hrd Er]. unfold VerifyEncoded.
  destruct (Decode_spec k b Hrows (w_mem (Encode k b out)) (MakeReader (Subregion1 (GetWrittenRegion (Encode k b out))
    (NumberOfWrittenBits out))) 0) as (t & rd' & E & Hn & _ & _ & Hc & Hg); try done;
    [apply Ha|by rewrite Z.add_0_r|by rewrite Er|].
  rewrite E. cbn [fst]. apply andb_true_iff. split; [apply andb_true_iff; split|].
  - apply Z.eqb_eq. symmetry. exact Hn.
  - apply forallb_seq. intros c Hlt. rewrite (Hc c Hlt). apply Z.eqb_refl.
  - apply forallb_seq. intros r Hr. apply forallb_seq. intros c Hlt.
    destruct (lookup_lt_is_Some_2 _ _ Hr) as [row Hrow]. rewrite Hrow. simpl.
    eapply Forall_lookup_1 in Hrows as [Hlen _]; [|done].
    destruct (lookup_lt_is_Some_2 row c) as [v Hv]; [lia|]. rewrite Hv. simpl. apply Z.eqb_eq. symmetry. by eapply Hg.
Qed.

(** A bit of a row, in a region of exactly its bytes. *)
Lemma row_bit row i :
  0 <= i -> Z.of_nat (length row) < 2 ^ 60 ->
  (i <? Z.of_nat (length row) * kBitsPerByte) &&
    LoadBit (bytes_memory row) (Region 0 0 (Z.of_nat (length row) * kBitsPerByte)) i = mbit (bytes_memory row) i.
Proof.
  intros Hi Hl. unfold kBitsPerByte in *. destruct (Z.ltb_spec i (Z.of_nat (length row) * 8)) as [Hlt|Hge]; simpl.
  - rewrite LoadBit_rbit; [done|split; simpl; lia|simpl; lia].
  - unfold mbit, bytes_memory. destruct (Z.leb_spec 0 (i / 8)); [|by rewrite Z.bits_0].
    rewrite lookup_ge_None_2; [by rewrite Z.bits_0|]. apply Nat2Z.inj_le. rewrite Z2Nat.id by done.
    apply Z.div_le_lower_bound; lia.
Qed.

Lemma BitmapVerifyEncoded_true b out :
  bitmaps_ok b -> bitmaps_small b -> wf_writer out ->
  appended out (BitmapEncode b out) (items_bits (bitmap_items b)) ->
  items_match (w_mem (BitmapEncode b out)) (w_pos out) (bitmap_items b) -> w_pos (BitmapEncode b out) < 2 ^ 61 ->
  BitmapVerifyEncoded b (NumberOfWrittenBits out) (BitmapEncode b out) = true.
Proof.
  intros [Hrows _ _] Hs Hw Ha Hi Hp. pose proof Hs as (Hmax & _).
  pose proof (widths_nonneg _ (bitmap_items_widths b ltac:(lia))) as H0.
  destruct (written_reader out _ _ Hw Ha H0 Hp) as [Hrd Er]. unfold BitmapVerifyEncoded.
  destruct (BitmapDecode_spec (w_mem (BitmapEncode b out)) b (MakeReader (Subregion1 (GetWrittenRegion (BitmapEncode b out))
    (NumberOfWrittenBits out))) 0) as (t & rd' & E & [Hn Hc Hg] & _); try done;
    [apply Ha|by rewrite Z.add_0_r|by rewrite Er|].
  rewrite E. cbn [fst]. apply andb_true_iff. split; [apply andb_true_iff; split|].
  - apply Z.eqb_eq. symmetry. exact Hn.
  - apply Z.eqb_eq. symmetry. exact Hc.
  - apply forallb_seq. intros r Hr. destruct (lookup_lt_is_Some_2 _ _ Hr) as [row Hrow]. rewrite Hrow.
    cbn [default from_option id]. destruct (Hg r row Hrow) as (Hwf & Hz & Hb). unfold size_in_bits. rewrite Hz. cbn [bit_size_].
    eapply Forall_lookup_1 in Hrows as (n & (_ & Hlen & _ & _ & Hout) & Hle); [|done].
    apply forallb_seq. intros i Hi'. apply eqb_true_iff.
    rewrite row_bit by (unfold bitmap_size in *; Z.div_mod_to_equations; lia). destruct (Z.ltb_spec (Z.of_nat i) (max_num_bits_ b)) as [Hlt|Hge].
    + rewrite LoadBit_rbit by (done || lia). by rewrite Hb by lia.
    + apply Hout. lia.
Qed.
