(* ===== verification/StackMap.v ===== *)
(** Reading the tables a compiled method carries: runtime/stack_map.h and stack_map.cc,
    runtime/dex_register_location.h, and the instruction alignments of
    libartbase/arch/instruction_set.h.

    This is the debug build: an operation returns [None] where a DCHECK or CHECK of the code fails,
    and where the code reads outside of an array.  An accessor of a row ([StackMap], [InlineInfo],
    ...) is the number of the row. *)
From S2P Require Import Prelude BitUtils Memory BitMemory BitTable BitmapTable.

(** ** Instruction sets *)

Inductive InstructionSet := kNone | kArm | kArm64 | kThumb2 | kRiscv64 | kX86 | kX86_64.

Definition GetInstructionSetInstructionAlignment (isa : InstructionSet) : option Z :=
  match isa with
  | kArm | kThumb2 => Some 2
  | kArm64 => Some 4
  | kRiscv64 => Some 2
  | kX86 => Some 1
  | kX86_64 => Some 1
  | kNone => None
  end.

Definition kStackAlignment : Z := 16.

(** ** Locations of dex registers *)

(** The values of [DexRegisterLocation::Kind], an [int32_t]. *)
Module Kind.
Definition kInvalid : Z := -2.
Definition kNone : Z := -1.
Definition kInStack : Z := 0.
Definition kConstant : Z := 1.
Definition kInRegister : Z := 2.
Definition kInRegisterHigh : Z := 3.
Definition kInFpuRegister : Z := 4.
Definition kInFpuRegisterHigh : Z := 5.
End Kind.

Record DexRegisterLocation := DexReg { kind_ : Z; value_ : Z }.

#[export] Instance DexRegisterLocation_eq_dec : EqDecision DexRegisterLocation.
Proof. solve_decision. Defined.

Definition LocationNone : DexRegisterLocation := DexReg Kind.kNone 0.
Definition LocationInvalid : DexRegisterLocation := DexReg Kind.kInvalid 0.

Definition IsLive (loc : DexRegisterLocation) : bool := negb (kind_ loc =? Kind.kNone).

(** A [DexRegisterMap] is the list of its locations. *)
Abbreviation DexRegisterMap := (list DexRegisterLocation).

Definition MakeDexRegisterMap (count : Z) (value : DexRegisterLocation) : DexRegisterMap :=
  replicate (Z.to_nat count) value.

Definition GetNumberOfLiveDexRegisters (map : DexRegisterMap) : Z :=
  Z.of_nat (length (filter (fun loc => IsLive loc = true) map)).

Definition HasAnyLiveDexRegisters (map : DexRegisterMap) : bool := existsb IsLive map.

Definition kFrameSlotSize : Z := 4.

Definition PackValue (kind value : Z) : option Z :=
  if kind =? Kind.kInStack then
    if IsAligned kFrameSlotSize value then Some (u32 (value / kFrameSlotSize)) else None
  else Some value.

Definition UnpackValue (kind packed_value : Z) : Z :=
  if kind =? Kind.kInStack then u32 (packed_value * kFrameSlotSize) else packed_value.

(** ** Native PCs *)

Definition PackNativePc (native_pc : Z) (isa : InstructionSet) : option Z :=
  alignment ← GetInstructionSetInstructionAlignment isa;
  if IsAligned alignment native_pc then Some (native_pc / alignment) else None.

Definition UnpackNativePc (packed_native_pc : Z) (isa : InstructionSet) : option Z :=
  alignment ← GetInstructionSetInstructionAlignment isa;
  let native_pc := u32 (packed_native_pc * alignment) in
  if native_pc / alignment =? packed_native_pc then Some native_pc else None.

(** ** CodeInfo *)

(** The tables in the order of the code, with their columns. *)
Module StackMap.
(** [StackMap::Kind]. *)
Definition Default : Z := kNoValue.
Definition Catch : Z := 0.
Definition OSR : Z := 1.
Definition Debug : Z := 2.
Definition kKind : nat := 0.
Definition kPackedNativePc : nat := 1.
Definition kDexPc : nat := 2.
Definition kRegisterMaskIndex : nat := 3.
Definition kStackMaskIndex : nat := 4.
Definition kInlineInfoIndex : nat := 5.
Definition kDexRegisterMaskIndex : nat := 6.
Definition kDexRegisterMapIndex : nat := 7.
End StackMap.

Module InlineInfo.
Definition kIsLast : nat := 0.
Definition kDexPc : nat := 1.
Definition kMethodInfoIndex : nat := 2.
Definition kArtMethodHi : nat := 3.
Definition kArtMethodLo : nat := 4.
Definition kNumberOfDexRegisters : nat := 5.
Definition kLast : Z := kNoValue.
Definition kMore : Z := 0.
End InlineInfo.

Module MethodInfo.
Definition kMethodIndex : nat := 0.
Definition kDexFileIndexKind : nat := 1.
Definition kDexFileIndex : nat := 2.
Definition kKindNonBCP : Z := kNoValue.
Definition kKindBCP : Z := 0.
Definition kSameDexFile : Z := kNoValue.
End MethodInfo.

Definition kNumHeaders : nat := 7.
Definition kNumBitTables : nat := 8.
(** The numbers of columns of the tables. *)
Definition table_columns : list nat := [8; 2; 1; 6; 3; 1; 1; 2]%nat.

Definition kHasInlineInfo : Z := 1.
Definition kIsBaseline : Z := 2.
Definition kIsDebuggable : Z := 4.

Definition kMaxDexRegisterMapSearchDistance : Z := 32.

Record CodeInfo := MakeCodeInfo {
  flags_ : Z;
  code_size_ : Z;
  packed_frame_size_ : Z;
  core_spill_mask_ : Z;
  fp_spill_mask_ : Z;
  number_of_dex_registers_ : Z;
  bit_table_flags_ : Z;
  stack_maps_ : BitTableBase;
  register_masks_ : BitTableBase;
  stack_masks_ : BitTableBase;
  inline_infos_ : BitTableBase;
  method_infos_ : BitTableBase;
  dex_register_masks_ : BitTableBase;
  dex_register_maps_ : BitTableBase;
  dex_register_catalog_ : BitTableBase }.

Definition empty_table (kNumColumns : nat) : BitTableBase :=
  Table (Region 0 0 0) 0 (replicate (S kNumColumns) 0).

Definition HasBitTable (flags : Z) (i : nat) : bool := negb ((flags ≫ Z.of_nat i) .& 1 =? 0).
Definition IsBitTableDeduped (flags : Z) (i : nat) : bool :=
  negb ((flags ≫ Z.of_nat (kNumBitTables + i)) .& 1 =? 0).
Definition SetBitTableDeduped (flags : Z) (i : nat) : Z :=
  u32 (flags .| (1 ≪ Z.of_nat (kNumBitTables + i))).
Definition HasDedupedBitTables (flags : Z) : bool := negb (flags ≫ Z.of_nat kNumBitTables =? 0).

Definition decode_header (m : memory) (reader : BitMemoryReader) : list Z * BitMemoryReader :=
  ReadInterleavedVarints kNumHeaders m reader.

(** One table: absent, at an earlier place of the file, or next. *)
Definition decode_table (m : memory) (flags : Z) (i kNumColumns : nat) (reader : BitMemoryReader) :
    BitTableBase * BitMemoryReader :=
  if HasBitTable flags i then
    if IsBitTableDeduped flags i then
      let read_bits := NumberOfReadBits reader in
      let '(distance, reader) := ReadVarint m reader in
      let reader2 :=
        MakeReaderAt (region_data (finished_region_ reader)) (sN 64 (read_bits - distance)) in
      let '(table, _) := Decode kNumColumns m reader2 in (table, reader)
    else Decode kNumColumns m reader
  else (empty_table kNumColumns, reader).

Fixpoint decode_tables (m : memory) (flags : Z) (i : nat) (columns : list nat)
    (reader : BitMemoryReader) : list BitTableBase * BitMemoryReader :=
  match columns with
  | [] => ([], reader)
  | kNumColumns :: columns =>
      let '(table, reader) := decode_table m flags i kNumColumns reader in
      let '(tables, reader) := decode_tables m flags (S i) columns reader in
      (table :: tables, reader)
  end.

Definition code_info_of (header : list Z) (tables : list BitTableBase) : CodeInfo :=
  let h i := default 0 (header !! i) in
  let t i := default (empty_table 0) (tables !! i) in
  MakeCodeInfo (h 0%nat) (h 1%nat) (h 2%nat) (h 3%nat) (h 4%nat) (h 5%nat) (h 6%nat)
    (t 0%nat) (t 1%nat) (t 2%nat) (t 3%nat) (t 4%nat) (t 5%nat) (t 6%nat) (t 7%nat).

(** The constructor, with the number of bits it has read. *)
Definition DecodeCodeInfo (m : memory) (data : Z) : CodeInfo * Z :=
  let reader := MakeReaderAt data 0 in
  let '(header, reader) := decode_header m reader in
  let flags := default 0 (header !! 6%nat) in
  let '(tables, reader) := decode_tables m flags 0 table_columns reader in
  (code_info_of header tables, NumberOfReadBits reader).

Definition DecodeHeaderOnly (m : memory) (data : Z) : CodeInfo :=
  let '(header, _) := decode_header m (MakeReaderAt data 0) in
  code_info_of header (map empty_table table_columns).

Definition DecodeCodeSize (m : memory) (data : Z) : Z := code_size_ (DecodeHeaderOnly m data).

(** The fields of the [QuickMethodFrameInfo]. *)
Definition DecodeFrameInfo (m : memory) (data : Z) : Z * Z * Z :=
  let code_info := DecodeHeaderOnly m data in
  (u32 (packed_frame_size_ code_info * kStackAlignment), core_spill_mask_ code_info,
   fp_spill_mask_ code_info).

Definition empty_code_info : CodeInfo := code_info_of (replicate 7 0) (map empty_table table_columns).

Definition DecodeGcMasksOnly (m : memory) (data : Z) : CodeInfo :=
  let c := (DecodeCodeInfo m data).1 in
  let e := empty_code_info in
  MakeCodeInfo 0 0 0 0 0 0 0 (stack_maps_ c) (register_masks_ c) (stack_masks_ c)
    (inline_infos_ e) (method_infos_ e) (dex_register_masks_ e) (dex_register_maps_ e)
    (dex_register_catalog_ e).

Definition DecodeInlineInfoOnly (m : memory) (data : Z) : CodeInfo :=
  let c := (DecodeCodeInfo m data).1 in
  let e := empty_code_info in
  MakeCodeInfo 0 0 0 0 0 (number_of_dex_registers_ c) 0 (stack_maps_ c) (register_masks_ e)
    (stack_masks_ e) (inline_infos_ c) (method_infos_ c) (dex_register_masks_ e)
    (dex_register_maps_ e) (dex_register_catalog_ e).

(** The flags, read from the first byte. *)
Definition HasInlineInfoFlag (m : memory) (data : Z) : bool := negb (m data .& kHasInlineInfo =? 0).
Definition IsBaseline (m : memory) (data : Z) : bool := negb (m data .& kIsBaseline =? 0).
Definition IsDebuggable (m : memory) (data : Z) : bool := negb (m data .& kIsDebuggable =? 0).

(** [BitTableBase::Get] and [GetBitMemoryRegion] with their DCHECKs. *)
Definition in_table (kNumColumns : nat) (t : BitTableBase) (row : Z) (column : nat) : bool :=
  IsValid (table_data_ t) && (0 <=? row) && (row <? num_rows_ t) && (column <? kNumColumns)%nat.

Definition TableGet (kNumColumns : nat) (m : memory) (t : BitTableBase) (row : Z) (column : nat) :
    option Z :=
  if in_table kNumColumns t row column then Some (Get kNumColumns m t row column) else None.

Definition TableRegion (kNumColumns : nat) (t : BitTableBase) (row : Z) (column : nat) :
    option BitMemoryRegion :=
  if in_table kNumColumns t row column then Some (GetBitMemoryRegion kNumColumns t row column)
  else None.

Section code_info.
Context (m : memory) (ci : CodeInfo).

(** A column of a stack map, of an inline info and of a method info. *)
Definition StackMapGet (stack_map : Z) (column : nat) : option Z :=
  TableGet 8 m (stack_maps_ ci) stack_map column.
Definition InlineInfoGet (inline_info : Z) (column : nat) : option Z :=
  TableGet 6 m (inline_infos_ ci) inline_info column.
Definition MethodInfoGet (method_info : Z) (column : nat) : option Z :=
  TableGet 3 m (method_infos_ ci) method_info column.

Definition GetNativePcOffset (stack_map : Z) (isa : InstructionSet) : option Z :=
  packed ← StackMapGet stack_map StackMap.kPackedNativePc; UnpackNativePc packed isa.

Definition HasInlineInfo (stack_map : Z) : option bool :=
  index ← StackMapGet stack_map StackMap.kInlineInfoIndex; Some (negb (index =? kNoValue)).

Definition HasDexRegisterMap (stack_map : Z) : option bool :=
  index ← StackMapGet stack_map StackMap.kDexRegisterMapIndex; Some (negb (index =? kNoValue)).

Definition EncodesArtMethod (inline_info : Z) : option bool :=
  lo ← InlineInfoGet inline_info InlineInfo.kArtMethodLo; Some (negb (lo =? kNoValue)).

Definition GetArtMethod (inline_info : Z) : option Z :=
  lo ← InlineInfoGet inline_info InlineInfo.kArtMethodLo;
  hi ← InlineInfoGet inline_info InlineInfo.kArtMethodHi;
  Some (u64 (hi ≪ 32) .| lo).

Definition GetNumberOfStackMaps : Z := NumRows (stack_maps_ ci).

(** The row that stands for "not found", and its test. *)
Definition GetInvalidRow : Z := 2 ^ 32 - 1.
Definition IsValidRow (stack_map : Z) : bool := stack_map <? NumRows (stack_maps_ ci).

Definition GetStackMaskOf (stack_map : Z) : option BitMemoryRegion :=
  index ← StackMapGet stack_map StackMap.kStackMaskIndex;
  if index =? kNoValue then Some (Region 0 0 0) else TableRegion 1 (stack_masks_ ci) index 0.

(** [RegisterMask::GetMask]. *)
Definition GetMask (register_mask : Z) : option Z :=
  value ← TableGet 2 m (register_masks_ ci) register_mask 0;
  shift ← TableGet 2 m (register_masks_ ci) register_mask 1;
  if shift <? 32 then Some (u32 (value ≪ shift)) else None.

Definition GetRegisterMaskOf (stack_map : Z) : option Z :=
  index ← StackMapGet stack_map StackMap.kRegisterMaskIndex;
  if index =? kNoValue then Some 0 else GetMask index.

(** [DexRegisterInfo::GetLocation]. *)
Definition GetLocation (row : Z) : option DexRegisterLocation :=
  kind ← TableGet 2 m (dex_register_catalog_ ci) row 0;
  packed_value ← TableGet 2 m (dex_register_catalog_ ci) row 1;
  let kind := s32 kind in
  Some (DexReg kind (s32 (UnpackValue kind packed_value))).

Definition GetDexRegisterCatalogEntry (index : Z) : option DexRegisterLocation :=
  if index =? kNoValue then Some LocationNone else GetLocation index.

Definition GetMethodInfoOf (inline_info : Z) : option Z :=
  InlineInfoGet inline_info InlineInfo.kMethodInfoIndex.

Definition GetMethodIndexOf (inline_info : Z) : option Z :=
  method_info ← GetMethodInfoOf inline_info; MethodInfoGet method_info MethodInfo.kMethodIndex.

(** *** Dex register maps *)

(** The state of the scan: the locations found so far, and how many are missing. *)
Abbreviation scan := (Z * DexRegisterMap)%type.

(** The set bits of one chunk of a mask. *)
Fixpoint decode_bits (fuel : nat) (reg bits map_index : Z) (s : scan) : option (Z * scan) :=
  if bits =? 0 then Some (map_index, s)
  else
    match fuel with
    | O => None
    | S fuel =>
        let '(remaining, regs) := s in
        let bit := CTZ bits in
        let i := Z.to_nat (reg + bit) in
        loc ← regs !! i;
        s ← (if kind_ loc =? Kind.kInvalid then
               index ← TableGet 1 m (dex_register_maps_ ci) map_index 0;
               entry ← GetDexRegisterCatalogEntry index;
               Some (u32 (remaining - 1), <[i := entry]> regs)
             else Some (remaining, regs));
        decode_bits fuel reg (bits .^ (1 ≪ bit)) (u32 (map_index + 1)) s
    end.

Definition kNumBits : Z := 32.

(** The chunks of a mask, of 32 bits each. *)
Fixpoint decode_chunks (fuel : nat) (mask : BitMemoryRegion) (end_ reg map_index : Z) (s : scan) :
    option (Z * scan) :=
  if reg <? end_ then
    match fuel with
    | O => None
    | S fuel =>
        let bits := u32 (LoadBits 64 m mask reg (Z.min (end_ - reg) kNumBits)) in
        '(map_index, s) ← decode_bits 32 reg bits map_index s;
        decode_chunks fuel mask end_ (u32 (reg + kNumBits)) map_index s
    end
  else Some (map_index, s).

(** The registers that stack map [s] changes. *)
Definition decode_stack_map (stack_map first_dex_register : Z) (s : scan) : option scan :=
  mask_index ← StackMapGet stack_map StackMap.kDexRegisterMaskIndex;
  if mask_index =? kNoValue then Some s
  else
    mask ← TableRegion 1 (dex_register_masks_ ci) mask_index 0;
    if size_in_bits mask <=? first_dex_register then Some s
    else
      map_index ← StackMapGet stack_map StackMap.kDexRegisterMapIndex;
      if map_index =? kNoValue then None
      else
        let map_index := u32 (map_index + PopCountRange m mask 0 first_dex_register) in
        let mask := Subregion mask first_dex_register (size_in_bits mask - first_dex_register) in
        let end_ := Z.min (u32 (Z.of_nat (length s.2))) (u32 (size_in_bits mask)) in
        '(_, s) ← decode_chunks (Z.to_nat (end_ / kNumBits + 1)) mask end_ 0 map_index s;
        Some s.

(** The backward scan over the stack maps below [n]. *)
Fixpoint decode_scan (n : nat) (stack_map_index first_dex_register : Z) (s : scan) : option scan :=
  match n with
  | O => Some s
  | S n =>
      if s.1 =? 0 then Some s
      else if stack_map_index - Z.of_nat n <=? kMaxDexRegisterMapSearchDistance then
        s ← decode_stack_map (Z.of_nat n) first_dex_register s;
        decode_scan n stack_map_index first_dex_register s
      else None
  end.

Definition DecodeDexRegisterMap (stack_map_index first_dex_register : Z) (map : DexRegisterMap) :
    option DexRegisterMap :=
  '(remaining_registers, regs) ←
    decode_scan (Z.to_nat (s32 stack_map_index + 1)) stack_map_index first_dex_register
      (u32 (Z.of_nat (length map)), map);
  if negb (remaining_registers =? 0) then
    Some (List.map (fun loc => if kind_ loc =? Kind.kInvalid then LocationNone else loc) regs)
  else Some regs.

Definition GetDexRegisterMapOfRange (stack_map first last : Z) : option DexRegisterMap :=
  has ← HasDexRegisterMap stack_map;
  if has : bool then
    if first <=? last then
      DecodeDexRegisterMap stack_map first (MakeDexRegisterMap (u32 (last - first)) LocationInvalid)
    else None
  else Some [].

Definition GetDexRegisterMapOf (stack_map : Z) : option DexRegisterMap :=
  GetDexRegisterMapOfRange stack_map 0 (number_of_dex_registers_ ci).

Definition GetInlineDexRegisterMapOf (stack_map inline_info : Z) : option DexRegisterMap :=
  has ← HasDexRegisterMap stack_map;
  if has : bool then
    index ← StackMapGet stack_map StackMap.kInlineInfoIndex;
    if index =? kNoValue then None
    else
      let depth := u32 (inline_info - index) in
      first ← (if depth =? 0 then Some (number_of_dex_registers_ ci)
               else InlineInfoGet (u32 (inline_info - 1)) InlineInfo.kNumberOfDexRegisters);
      last ← InlineInfoGet inline_info InlineInfo.kNumberOfDexRegisters;
      GetDexRegisterMapOfRange stack_map first last
  else Some [].

(** *** Looking up stack maps *)

(** The end of the rows of a stack map: the row behind the first one that is the last. *)
Fixpoint inline_end (fuel : nat) (end_ : Z) : option Z :=
  match fuel with
  | O => None
  | S fuel =>
      is_last ← InlineInfoGet end_ InlineInfo.kIsLast;
      if is_last =? InlineInfo.kMore then inline_end fuel (u32 (end_ + 1)) else Some (u32 (end_ + 1))
  end.

(** The rows [begin, end) of the inline infos. *)
Definition GetInlineInfosOf (stack_map : Z) : option (Z * Z) :=
  index ← StackMapGet stack_map StackMap.kInlineInfoIndex;
  if negb (index =? kNoValue) then
    end_ ← inline_end (Z.to_nat (NumRows (inline_infos_ ci))) index; Some (index, end_)
  else Some (0, 0).

(** The first row from [row] on that satisfies a test. *)
Fixpoint first_stack_map (test : Z -> option bool) (n : nat) (row : Z) : option Z :=
  match n with
  | O => Some GetInvalidRow
  | S n => b ← test row; if b : bool then Some row else first_stack_map test n (row + 1)
  end.

Definition GetStackMapForDexPc (dex_pc : Z) : option Z :=
  first_stack_map (fun stack_map =>
    pc ← StackMapGet stack_map StackMap.kDexPc;
    if pc =? dex_pc then
      kind ← StackMapGet stack_map StackMap.kKind; Some (negb (kind =? StackMap.Debug))
    else Some false) (Z.to_nat GetNumberOfStackMaps) 0.

Definition GetOsrStackMapForDexPc (dex_pc : Z) : option Z :=
  first_stack_map (fun stack_map =>
    pc ← StackMapGet stack_map StackMap.kDexPc;
    if pc =? dex_pc then kind ← StackMapGet stack_map StackMap.kKind; Some (kind =? StackMap.OSR)
    else Some false) (Z.to_nat GetNumberOfStackMaps) 0.

(** None of the stack maps below [n] is a catch stack map. *)
Fixpoint no_catch_below (n : nat) : option unit :=
  match n with
  | O => Some tt
  | S n =>
      kind ← StackMapGet (Z.of_nat n) StackMap.kKind;
      if kind =? StackMap.Catch then None else no_catch_below n
  end.

(** The dex PCs of the rows from [row] on are the given ones. *)
Fixpoint matching_dex_pcs (row : Z) (dex_pcs : list Z) : option bool :=
  match dex_pcs with
  | [] => Some true
  | dex_pc :: dex_pcs =>
      pc ← InlineInfoGet row InlineInfo.kDexPc;
      if pc =? dex_pc then matching_dex_pcs (row + 1) dex_pcs else Some false
  end.

(** The backward search over the stack maps below [i]. *)
Fixpoint catch_search (i : nat) (front : Z) (inline_dex_pcs : list Z) : option Z :=
  match i with
  | O => Some GetInvalidRow
  | S i =>
      let stack_map := Z.of_nat i in
      kind ← StackMapGet stack_map StackMap.kKind;
      if negb (kind =? StackMap.Catch) then _ ← no_catch_below i; Some GetInvalidRow
      else
        pc ← StackMapGet stack_map StackMap.kDexPc;
        if negb (pc =? front) then catch_search i front inline_dex_pcs
        else
          '(begin, end_) ← GetInlineInfosOf stack_map;
          if end_ - begin =? Z.of_nat (length inline_dex_pcs) then
            matching ← matching_dex_pcs begin inline_dex_pcs;
            if matching : bool then Some stack_map else catch_search i front inline_dex_pcs
          else catch_search i front inline_dex_pcs
  end.

(** [dex_pcs.front()] of no dex PCs is undefined. *)
Definition GetCatchStackMapForDexPc (dex_pcs : list Z) : option Z :=
  match dex_pcs with
  | [] => if GetNumberOfStackMaps =? 0 then Some GetInvalidRow else None
  | front :: inline_dex_pcs => catch_search (Z.to_nat GetNumberOfStackMaps) front inline_dex_pcs
  end.

(** [std::partition_point]: halving the range, as the standard library does. *)
Fixpoint partition_point (fuel : nat) (pred : Z -> option bool) (first len : Z) : option Z :=
  if len =? 0 then Some first
  else
    match fuel with
    | O => None
    | S fuel =>
        let half := len / 2 in
        b ← pred (first + half);
        if b : bool then partition_point fuel pred (first + half + 1) (len - half - 1)
        else partition_point fuel pred first half
    end.

(** The stack maps from [it] on with the given native PC. *)
Fixpoint scan_native_pc (fuel : nat) (pc : Z) (isa : InstructionSet) (it : Z) : option Z :=
  if it =? GetNumberOfStackMaps then Some GetInvalidRow
  else
    match fuel with
    | O => None
    | S fuel =>
        offset ← GetNativePcOffset it isa;
        if offset =? pc then
          kind ← StackMapGet it StackMap.kKind;
          if (kind =? StackMap.Default) || (kind =? StackMap.OSR) then Some it
          else scan_native_pc fuel pc isa (it + 1)
        else Some GetInvalidRow
    end.

Definition GetStackMapForNativePcOffset (pc : Z) (isa : InstructionSet) : option Z :=
  packed_pc ← PackNativePc (u32 pc) isa;
  let n := Z.to_nat GetNumberOfStackMaps in
  it ← partition_point n (fun stack_map =>
         packed ← StackMapGet stack_map StackMap.kPackedNativePc;
         if packed <? packed_pc then
           kind ← StackMapGet stack_map StackMap.kKind; Some (negb (kind =? StackMap.Catch))
         else Some false) 0 GetNumberOfStackMaps;
  scan_native_pc n pc isa it.
End code_info.
