(* ===== verification/StackMapStream.v ===== *)
(** Collecting and encoding the stack maps of a method: compiler/optimizing/stack_map_stream.h
    and stack_map_stream.cc.

    This is the debug build ([kVerifyStackMaps]): an operation returns [None] where a DCHECK or
    CHECK fails; the lambdas of [dchecks_] are the values they capture ([dcheck]) and a function
    that runs them ([run_dcheck]).  The stack masks are bit vectors that the compiler may change
    until [EndMethod] reads them: the stream keeps their addresses, and the operations that follow
    them take the bit vector at each address ([masks]). *)
From S2P Require Import Prelude BitUtils Memory BitMemory BitVector BitTable BitmapTable StackMap.

(** What the stream asks about methods and dex files.  A dex file and a method are their
    addresses. *)
Record Environment := {
  Runtime_IsAotCompiler : option bool;  (* no value without a runtime *)
  GetDexFile : Z -> Z;
  GetDexMethodIndex : Z -> Z;
  IsBootStrapClassLoaded : Z -> bool;
  GetBootClassPath : list Z;
  GetDexFilesForOatFile : list Z }.

Definition EncodeArtMethodInInlineInfo (env : Environment) : bool :=
  match Runtime_IsAotCompiler env with
  | None => true
  | Some is_aot_compiler => negb is_aot_compiler
  end.

Definition IsSameDexFile (lhs rhs : Z) : bool := lhs =? rhs.

(** ** State *)

Record Tables := MakeTables {
  t_stack_maps : BitTableBuilder;
  t_register_masks : BitTableBuilder;
  t_stack_masks : BitmapTableBuilder;
  t_inline_infos : BitTableBuilder;
  t_method_infos : BitTableBuilder;
  t_dex_register_masks : BitmapTableBuilder;
  t_dex_register_maps : BitTableBuilder;
  t_dex_register_catalog : BitTableBuilder }.

(** The lambdas, as the values they capture. *)
Inductive dcheck :=
  | CheckMethod (frame_size_in_bytes core_spill_mask fp_spill_mask num_dex_registers : Z)
  | CheckCodeSize (code_size : Z)
  | CheckBegin (stack_map_index dex_pc native_pc_offset register_mask : Z) (stack_mask : option Z)
      (kind : Z) (dex_pc_list : list Z)
  | CheckEnd (stack_map_index num_dex_registers inlining_depth : Z)
  | CheckInline (stack_map_index depth method dex_pc : Z) (outer_dex_file : Z)
  | CheckRegisters (stack_map_index : Z) (expected_dex_registers : list DexRegisterLocation).

Record StackMapStream := Stream {
  instruction_set_ : InstructionSet;
  st_code_size_ : Z;
  st_packed_frame_size_ : Z;
  st_core_spill_mask_ : Z;
  st_fp_spill_mask_ : Z;
  num_dex_registers_ : Z;
  baseline_ : option bool;    (* no value before [BeginMethod] *)
  debuggable_ : option bool;
  tables_ : Tables;
  lazy_stack_masks_ : list (option Z);
  in_method_ : bool;
  in_stack_map_ : bool;
  in_inline_info_ : bool;
  current_stack_map_ : Entry;
  current_inline_infos_ : list Entry;
  current_dex_registers_ : list DexRegisterLocation;
  previous_dex_registers_ : list DexRegisterLocation;
  dex_register_timestamp_ : list Z;
  expected_num_dex_registers_ : Z;
  temp_dex_register_mask_ : BitVector;
  temp_dex_register_map_ : list Entry;
  dchecks_ : list dcheck }.

Definition empty_builder : BitTableBuilder := Builder [] [].
Definition empty_bitmaps : BitmapTableBuilder := BitmapBuilder [] [] 0.

Definition empty_tables : Tables :=
  MakeTables empty_builder empty_builder empty_bitmaps empty_builder empty_builder empty_bitmaps
    empty_builder empty_builder.

Definition MakeStream (isa : InstructionSet) : StackMapStream :=
  Stream isa 0 0 0 0 0 None None empty_tables [] false false false (make_entry 8) [] [] [] [] 0
    (MakeBitVector 32 true) [] [].

(** Assignments to fields. *)
Definition with_tables (t : Tables) (s : StackMapStream) : StackMapStream :=
  Stream (instruction_set_ s) (st_code_size_ s) (st_packed_frame_size_ s) (st_core_spill_mask_ s)
    (st_fp_spill_mask_ s) (num_dex_registers_ s) (baseline_ s) (debuggable_ s) t
    (lazy_stack_masks_ s) (in_method_ s) (in_stack_map_ s) (in_inline_info_ s)
    (current_stack_map_ s) (current_inline_infos_ s) (current_dex_registers_ s)
    (previous_dex_registers_ s) (dex_register_timestamp_ s) (expected_num_dex_registers_ s)
    (temp_dex_register_mask_ s) (temp_dex_register_map_ s) (dchecks_ s).

Definition add_dcheck (d : dcheck) (s : StackMapStream) : StackMapStream :=
  Stream (instruction_set_ s) (st_code_size_ s) (st_packed_frame_size_ s) (st_core_spill_mask_ s)
    (st_fp_spill_mask_ s) (num_dex_registers_ s) (baseline_ s) (debuggable_ s) (tables_ s)
    (lazy_stack_masks_ s) (in_method_ s) (in_stack_map_ s) (in_inline_info_ s)
    (current_stack_map_ s) (current_inline_infos_ s) (current_dex_registers_ s)
    (previous_dex_registers_ s) (dex_register_timestamp_ s) (expected_num_dex_registers_ s)
    (temp_dex_register_mask_ s) (temp_dex_register_map_ s) (dchecks_ s ++ [d]).

(** A method, its end and its parts. *)
Definition with_method (in_method : bool) (code_size : Z) (s : StackMapStream) : StackMapStream :=
  Stream (instruction_set_ s) code_size (st_packed_frame_size_ s) (st_core_spill_mask_ s)
    (st_fp_spill_mask_ s) (num_dex_registers_ s) (baseline_ s) (debuggable_ s) (tables_ s)
    (lazy_stack_masks_ s) in_method (in_stack_map_ s) (in_inline_info_ s)
    (current_stack_map_ s) (current_inline_infos_ s) (current_dex_registers_ s)
    (previous_dex_registers_ s) (dex_register_timestamp_ s) (expected_num_dex_registers_ s)
    (temp_dex_register_mask_ s) (temp_dex_register_map_ s) (dchecks_ s).

Definition with_current (in_stack_map in_inline_info : bool) (stack_map : Entry)
    (inline_infos : list Entry) (dex_registers : list DexRegisterLocation) (expected : Z)
    (lazy_stack_masks : list (option Z)) (s : StackMapStream) : StackMapStream :=
  Stream (instruction_set_ s) (st_code_size_ s) (st_packed_frame_size_ s) (st_core_spill_mask_ s)
    (st_fp_spill_mask_ s) (num_dex_registers_ s) (baseline_ s) (debuggable_ s) (tables_ s)
    lazy_stack_masks (in_method_ s) in_stack_map in_inline_info
    stack_map inline_infos dex_registers
    (previous_dex_registers_ s) (dex_register_timestamp_ s) expected
    (temp_dex_register_mask_ s) (temp_dex_register_map_ s) (dchecks_ s).

Definition with_stack_maps (b : BitTableBuilder) (t : Tables) : Tables :=
  MakeTables b (t_register_masks t) (t_stack_masks t) (t_inline_infos t) (t_method_infos t)
    (t_dex_register_masks t) (t_dex_register_maps t) (t_dex_register_catalog t).
Definition with_register_masks (b : BitTableBuilder) (t : Tables) : Tables :=
  MakeTables (t_stack_maps t) b (t_stack_masks t) (t_inline_infos t) (t_method_infos t)
    (t_dex_register_masks t) (t_dex_register_maps t) (t_dex_register_catalog t).
Definition with_stack_masks (b : BitmapTableBuilder) (t : Tables) : Tables :=
  MakeTables (t_stack_maps t) (t_register_masks t) b (t_inline_infos t) (t_method_infos t)
    (t_dex_register_masks t) (t_dex_register_maps t) (t_dex_register_catalog t).
Definition with_inline_infos (b : BitTableBuilder) (t : Tables) : Tables :=
  MakeTables (t_stack_maps t) (t_register_masks t) (t_stack_masks t) b (t_method_infos t)
    (t_dex_register_masks t) (t_dex_register_maps t) (t_dex_register_catalog t).
Definition with_method_infos (b : BitTableBuilder) (t : Tables) : Tables :=
  MakeTables (t_stack_maps t) (t_register_masks t) (t_stack_masks t) (t_inline_infos t) b
    (t_dex_register_masks t) (t_dex_register_maps t) (t_dex_register_catalog t).
Definition with_dex_registers (masks : BitmapTableBuilder) (maps catalog : BitTableBuilder)
    (t : Tables) : Tables :=
  MakeTables (t_stack_maps t) (t_register_masks t) (t_stack_masks t) (t_inline_infos t)
    (t_method_infos t) masks maps catalog.

(** ** Operations *)

(** A bit vector's [GetRawStorage], as bytes. *)
Definition raw_storage (v : BitVector) : list Z := concat (map word_bytes (storage_ v)).

Definition set_column (column : nat) (value : Z) (entry : Entry) : Entry := <[column := value]> entry.
Definition column (entry : Entry) (c : nat) : Z := default 0 (entry !! c).

Section stream.
Context (equal_range : list (Z * Z) -> Z -> list Z) (env : Environment).

Definition GetStackMapNativePcOffset (s : StackMapStream) (i : nat) : option Z :=
  entry ← rows_ (t_stack_maps (tables_ s)) !! i;
  UnpackNativePc (column entry StackMap.kPackedNativePc) (instruction_set_ s).

Definition SetStackMapNativePcOffset (i : nat) (native_pc_offset : Z) (s : StackMapStream) :
    option StackMapStream :=
  let b := t_stack_maps (tables_ s) in
  entry ← rows_ b !! i;
  packed ← PackNativePc native_pc_offset (instruction_set_ s);
  let b := Builder (<[i := set_column StackMap.kPackedNativePc packed entry]> (rows_ b)) (dedup_ b) in
  Some (with_tables (with_stack_maps b (tables_ s)) s).

Definition BeginMethod (frame_size_in_bytes core_spill_mask fp_spill_mask num_dex_registers : Z)
    (baseline debuggable : bool) (s : StackMapStream) : option StackMapStream :=
  _ ← DCHECK (negb (in_method_ s));
  _ ← DCHECK (st_packed_frame_size_ s =? 0);
  _ ← DCHECK (IsAligned kStackAlignment frame_size_in_bytes);
  let s :=
    Stream (instruction_set_ s) (st_code_size_ s) (u32 (frame_size_in_bytes / kStackAlignment))
      (u32 core_spill_mask) (u32 fp_spill_mask) num_dex_registers (Some baseline)
      (Some debuggable) (tables_ s) (lazy_stack_masks_ s) true (in_stack_map_ s)
      (in_inline_info_ s) (current_stack_map_ s) (current_inline_infos_ s)
      (current_dex_registers_ s) (previous_dex_registers_ s) (dex_register_timestamp_ s)
      (expected_num_dex_registers_ s) (temp_dex_register_mask_ s) (temp_dex_register_map_ s)
      (dchecks_ s) in
  Some (add_dcheck
    (CheckMethod frame_size_in_bytes core_spill_mask fp_spill_mask num_dex_registers) s).

(** The stack masks are read from [i] on. *)
Fixpoint read_stack_masks (masks : Z -> BitVector) (lazy : list (option Z)) (i : nat) (t : Tables) :
    option Tables :=
  match lazy with
  | [] => Some t
  | stack_mask :: lazy =>
      t ← (match stack_mask with
           | Some p =>
               if negb (GetNumberOfBits (masks p) =? 0) then
                 '(index, b) ← BitmapDedup equal_range (t_stack_masks t) (raw_storage (masks p))
                                 (GetNumberOfBits (masks p));
                 let sm := t_stack_maps t in
                 entry ← rows_ sm !! i;
                 let sm := Builder (<[i := set_column StackMap.kStackMaskIndex index entry]> (rows_ sm))
                             (dedup_ sm) in
                 Some (with_stack_maps sm (with_stack_masks b t))
               else Some t
           | None => Some t
           end);
      read_stack_masks masks lazy (S i) t
  end.

Definition EndMethod (masks : Z -> BitVector) (code_size : Z) (s : StackMapStream) :
    option StackMapStream :=
  _ ← DCHECK (in_method_ s);
  let s := with_method false (u32 code_size) s in
  t ← read_stack_masks masks (lazy_stack_masks_ s) 0 (tables_ s);
  let s := with_tables t s in
  packed_code_size ← PackNativePc (u32 code_size) (instruction_set_ s);
  _ ← DCHECK (forallb (fun entry => column entry StackMap.kPackedNativePc <=? packed_code_size)
                (rows_ (t_stack_maps t)));
  Some (add_dcheck (CheckCodeSize code_size) s).

Definition check_order (back : option Entry) (current : Entry) : option unit :=
  match back with
  | None => Some tt
  | Some back =>
      if column back StackMap.kKind =? StackMap.Catch then
        DCHECK (column current StackMap.kKind =? StackMap.Catch)
      else if negb (column current StackMap.kKind =? StackMap.Catch) then
        DCHECK (column back StackMap.kPackedNativePc <=? column current StackMap.kPackedNativePc)
      else Some tt
  end.

Definition BeginStackMapEntry (dex_pc native_pc_offset register_mask : Z) (stack_mask : option Z)
    (kind : Z) (needs_vreg_info : bool) (dex_pc_list : list Z) (s : StackMapStream) :
    option StackMapStream :=
  _ ← DCHECK (in_method_ s);
  _ ← DCHECK (negb (in_stack_map_ s));
  _ ← DCHECK (bool_decide (dex_pc_list = []) || (kind =? StackMap.Catch));
  packed ← PackNativePc native_pc_offset (instruction_set_ s);
  let entry :=
    set_column StackMap.kDexPc dex_pc
      (set_column StackMap.kPackedNativePc packed
        (set_column StackMap.kKind kind (make_entry 8))) in
  _ ← check_order (last (rows_ (t_stack_maps (tables_ s)))) entry;
  let '(entry, t) :=
    if negb (register_mask =? 0) then
      let shift := LeastSignificantBit register_mask in
      let '(index, b) :=
        Dedup equal_range (t_register_masks (tables_ s)) [[register_mask ≫ shift; shift]] in
      (set_column StackMap.kRegisterMaskIndex index entry, with_register_masks b (tables_ s))
    else (entry, tables_ s) in
  let expected := if needs_vreg_info then num_dex_registers_ s else 0 in
  let s :=
    with_current true (in_inline_info_ s) entry [] [] expected
      (lazy_stack_masks_ s ++ [stack_mask]) (with_tables t s) in
  Some (add_dcheck
    (CheckBegin (size (t_stack_maps t)) dex_pc native_pc_offset register_mask stack_mask kind
       dex_pc_list) s).

Definition AddDexRegisterEntry (kind value : Z) (s : StackMapStream) : StackMapStream :=
  with_current (in_stack_map_ s) (in_inline_info_ s) (current_stack_map_ s)
    (current_inline_infos_ s) (current_dex_registers_ s ++ [DexReg kind value])
    (expected_num_dex_registers_ s) (lazy_stack_masks_ s) s.

(** [std::find_if] and [std::distance]. *)
Fixpoint find_dex_file (dex_files : list Z) (dex_file : Z) : Z :=
  match dex_files with
  | [] => 0
  | df :: dex_files =>
      if IsSameDexFile df dex_file then 0 else 1 + find_dex_file dex_files dex_file
  end.

(** The columns of the method info: whether the dex file is in the boot class path, and where. *)
Definition method_info_entry (method dex_pc outer_dex_file : Z) : Entry :=
  let '(is_in_bootclasspath, dexfile_index) :=
    if negb (dex_pc =? kNoValue) then
      let dex_file := GetDexFile env method in
      if negb (IsSameDexFile outer_dex_file dex_file) then
        if IsBootStrapClassLoaded env method then
          (MethodInfo.kKindBCP, u32 (find_dex_file (GetBootClassPath env) dex_file))
        else (MethodInfo.kKindNonBCP, u32 (find_dex_file (GetDexFilesForOatFile env) dex_file))
      else (MethodInfo.kKindNonBCP, MethodInfo.kSameDexFile)
    else (MethodInfo.kKindNonBCP, MethodInfo.kSameDexFile) in
  [GetDexMethodIndex env method; is_in_bootclasspath; dexfile_index].

Definition BeginInlineInfoEntry (method dex_pc num_dex_registers outer_dex_file : Z)
    (s : StackMapStream) : option StackMapStream :=
  _ ← DCHECK (in_stack_map_ s);
  _ ← DCHECK (negb (in_inline_info_ s));
  _ ← DCHECK (expected_num_dex_registers_ s =? Z.of_nat (length (current_dex_registers_ s)));
  let expected := u64 (expected_num_dex_registers_ s + num_dex_registers) in
  let entry :=
    set_column InlineInfo.kNumberOfDexRegisters (u32 expected)
      (set_column InlineInfo.kDexPc dex_pc
        (set_column InlineInfo.kIsLast InlineInfo.kMore (make_entry 6))) in
  let '(entry, t) :=
    if EncodeArtMethodInInlineInfo env then
      (set_column InlineInfo.kArtMethodLo (Low32Bits method)
        (set_column InlineInfo.kArtMethodHi (High32Bits method) entry), tables_ s)
    else
      let '(index, b) :=
        Dedup equal_range (t_method_infos (tables_ s)) [method_info_entry method dex_pc outer_dex_file] in
      (set_column InlineInfo.kMethodInfoIndex index entry, with_method_infos b (tables_ s)) in
  let s :=
    with_current (in_stack_map_ s) true (current_stack_map_ s) (current_inline_infos_ s ++ [entry])
      (current_dex_registers_ s) expected (lazy_stack_masks_ s) (with_tables t s) in
  Some (add_dcheck
    (CheckInline (size (t_stack_maps t)) (Z.of_nat (length (current_inline_infos_ s)) - 1) method
       dex_pc outer_dex_file) s).

Definition EndInlineInfoEntry (s : StackMapStream) : option StackMapStream :=
  _ ← DCHECK (in_inline_info_ s);
  _ ← DCHECK (expected_num_dex_registers_ s =? Z.of_nat (length (current_dex_registers_ s)));
  Some (with_current (in_stack_map_ s) false (current_stack_map_ s) (current_inline_infos_ s)
    (current_dex_registers_ s) (expected_num_dex_registers_ s) (lazy_stack_masks_ s) s).

(** The variables of the loop of [CreateDexRegisterMap]. *)
Record delta := Delta {
  d_mask : BitVector;
  d_map : list Entry;
  d_previous : list DexRegisterLocation;
  d_timestamp : list Z;
  d_catalog : BitTableBuilder }.

Definition delta_step (num_stack_maps : Z) (i : nat) (reg : DexRegisterLocation) (d : delta) :
    option delta :=
  previous ← d_previous d !! i;
  timestamp ← d_timestamp d !! i;
  let distance := u32 (num_stack_maps - timestamp) in
  if negb (bool_decide (previous = reg)) || (kMaxDexRegisterMapSearchDistance <? distance) then
    packed ← PackValue (kind_ reg) (u32 (value_ reg));
    let '(index, catalog) :=
      if IsLive reg then Dedup equal_range (d_catalog d) [[u32 (kind_ reg); packed]]
      else (kNoValue, d_catalog d) in
    mask ← SetBit (d_mask d) (Z.of_nat i);
    Some (Delta mask (d_map d ++ [[index]]) (<[i := reg]> (d_previous d))
      (<[i := u32 num_stack_maps]> (d_timestamp d)) catalog)
  else Some d.

Fixpoint delta_loop (num_stack_maps : Z) (i : nat) (regs : list DexRegisterLocation) (d : delta) :
    option delta :=
  match regs with
  | [] => Some d
  | reg :: regs => d ← delta_step num_stack_maps i reg d; delta_loop num_stack_maps (S i) regs d
  end.

(** [std::vector::resize], used to grow. *)
Definition grow {A} (n : nat) (x : A) (l : list A) : list A := l ++ replicate (n - length l) x.

Definition CreateDexRegisterMap (s : StackMapStream) : option StackMapStream :=
  let t := tables_ s in
  let n := length (current_dex_registers_ s) in
  let '(previous, timestamp) :=
    if (length (previous_dex_registers_ s) <? n)%nat then
      (grow n LocationNone (previous_dex_registers_ s), grow n 0 (dex_register_timestamp_ s))
    else (previous_dex_registers_ s, dex_register_timestamp_ s) in
  d ← delta_loop (size (t_stack_maps t)) 0 (current_dex_registers_ s)
        (Delta (ClearAllBits (temp_dex_register_mask_ s)) [] previous timestamp
          (t_dex_register_catalog t));
  '(entry, masks) ←
    (if negb (GetNumberOfBits (d_mask d) =? 0) then
       '(index, masks) ← BitmapDedup equal_range (t_dex_register_masks t) (raw_storage (d_mask d))
                           (GetNumberOfBits (d_mask d));
       Some (set_column StackMap.kDexRegisterMaskIndex index (current_stack_map_ s), masks)
     else Some (current_stack_map_ s, t_dex_register_masks t));
  let '(entry, maps) :=
    if negb (bool_decide (current_dex_registers_ s = [])) then
      let '(index, maps) := Dedup equal_range (t_dex_register_maps t) (d_map d) in
      (set_column StackMap.kDexRegisterMapIndex index entry, maps)
    else (entry, t_dex_register_maps t) in
  let s :=
    Stream (instruction_set_ s) (st_code_size_ s) (st_packed_frame_size_ s) (st_core_spill_mask_ s)
      (st_fp_spill_mask_ s) (num_dex_registers_ s) (baseline_ s) (debuggable_ s)
      (with_dex_registers masks maps (d_catalog d) t)
      (lazy_stack_masks_ s) (in_method_ s) (in_stack_map_ s) (in_inline_info_ s)
      entry (current_inline_infos_ s) (current_dex_registers_ s)
      (d_previous d) (d_timestamp d) (expected_num_dex_registers_ s)
      (d_mask d) (d_map d) (dchecks_ s) in
  Some (add_dcheck (CheckRegisters (size (t_stack_maps t)) (current_dex_registers_ s)) s).

(** The last of the inline infos gets its mark. *)
Definition mark_last (infos : list Entry) : list Entry :=
  alter (set_column InlineInfo.kIsLast InlineInfo.kLast) (pred (length infos)) infos.

Definition EndStackMapEntry (s : StackMapStream) : option StackMapStream :=
  _ ← DCHECK (in_stack_map_ s);
  let t := tables_ s in
  let infos := current_inline_infos_ s in
  let '(entry, infos, t) :=
    if negb (bool_decide (infos = [])) then
      let infos := mark_last infos in
      let '(index, b) := Dedup equal_range (t_inline_infos t) infos in
      (set_column StackMap.kInlineInfoIndex index (current_stack_map_ s), infos, with_inline_infos b t)
    else (current_stack_map_ s, infos, t) in
  let s :=
    with_current false (in_inline_info_ s) entry infos (current_dex_registers_ s)
      (expected_num_dex_registers_ s) (lazy_stack_masks_ s) (with_tables t s) in
  let num_dex_registers := Z.of_nat (length (current_dex_registers_ s)) in
  s ← (if negb (bool_decide (current_dex_registers_ s = [])) then
         _ ← DCHECK (expected_num_dex_registers_ s =? num_dex_registers); CreateDexRegisterMap s
       else Some s);
  let b := Add (t_stack_maps (tables_ s)) (current_stack_map_ s) in
  Some (add_dcheck (CheckEnd (size b - 1) num_dex_registers (Z.of_nat (length infos)))
    (with_tables (with_stack_maps b (tables_ s)) s)).

(** ** Encoding *)

(** The tables in their order: how many rows, how the table is written, and the check of what was
    written since the given bit. *)
Definition table_encoders (t : Tables) :
    list (Z * (BitMemoryWriter -> BitMemoryWriter) * (Z -> BitMemoryWriter -> bool)) :=
  let table k b := (size b, Encode k b, VerifyEncoded k b) in
  let bitmaps b := (bitmap_size b, BitmapEncode b, BitmapVerifyEncoded b) in
  [table 8%nat (t_stack_maps t); table 2%nat (t_register_masks t); bitmaps (t_stack_masks t);
   table 6%nat (t_inline_infos t); table 3%nat (t_method_infos t); bitmaps (t_dex_register_masks t);
   table 1%nat (t_dex_register_maps t); table 2%nat (t_dex_register_catalog t)].

Fixpoint stored_tables (i : nat) (sizes : list Z) : Z :=
  match sizes with
  | [] => 0
  | n :: sizes =>
      (if negb (n =? 0) then 1 ≪ Z.of_nat i else 0) .| stored_tables (S i) sizes
  end.

Definition encode_flags (t : Tables) (baseline debuggable : bool) : Z :=
  (if 0 <? size (t_inline_infos t) then kHasInlineInfo else 0)
  .| (if baseline then kIsBaseline else 0) .| (if debuggable then kIsDebuggable else 0).

(** The buffer: a vector that is empty at first, at the address [data] of memory [m]. *)
Definition write_header (m : memory) (data : Z) (flags : Z) (s : StackMapStream) : BitMemoryWriter :=
  let bit_table_flags := stored_tables 0 (map (fun e => e.1.1) (table_encoders (tables_ s))) in
  WriteInterleavedVarints (MakeWriter m data 0 0)
    [flags; st_code_size_ s; st_packed_frame_size_ s; st_core_spill_mask_ s; st_fp_spill_mask_ s;
     num_dex_registers_ s; bit_table_flags].

Definition write_code_info (m : memory) (data : Z) (flags : Z) (s : StackMapStream) :
    BitMemoryWriter :=
  foldl (fun out '(n, encode, _) => if negb (n =? 0) then encode out else out)
    (write_header m data flags s) (table_encoders (tables_ s)).

(** The tables are checked as they are written. *)
Fixpoint verify_tables
    (encoders : list (Z * (BitMemoryWriter -> BitMemoryWriter) * (Z -> BitMemoryWriter -> bool)))
    (out : BitMemoryWriter) : option unit :=
  match encoders with
  | [] => Some tt
  | (n, encode, verify) :: encoders =>
      if negb (n =? 0) then
        _ ← DCHECK (verify (NumberOfWrittenBits out) (encode out)); verify_tables encoders (encode out)
      else verify_tables encoders out
  end.

(** *** The checks at the end *)

Section dchecks.
Context (masks : Z -> BitVector) (isa : InstructionSet) (m : memory) (ci : CodeInfo).

(** The bits of a stack mask that was read, from [b] on. *)
Fixpoint check_stack_mask (n : nat) (b : Z) (seen : BitMemoryRegion) (stack_mask : option Z) :
    option unit :=
  match n with
  | O => Some tt
  | S n =>
      expected ← (match stack_mask with Some p => IsBitSet (masks p) b | None => Some false end);
      _ ← DCHECK (eqb (LoadBit m seen b) expected);
      check_stack_mask n (b + 1) seen stack_mask
  end.

Definition check_begin (stack_map_index dex_pc native_pc_offset register_mask : Z)
    (stack_mask : option Z) (kind : Z) (dex_pc_list : list Z) : option unit :=
  _ ← (if (kind =? StackMap.Default) || (kind =? StackMap.OSR) then
         row ← GetStackMapForNativePcOffset m ci native_pc_offset isa;
         DCHECK (row =? stack_map_index)
       else if kind =? StackMap.Catch then
         row ← GetCatchStackMapForDexPc m ci dex_pc_list; DCHECK (row =? stack_map_index)
       else Some tt);
  seen_pc ← GetNativePcOffset m ci stack_map_index isa;
  _ ← DCHECK (seen_pc =? native_pc_offset);
  seen_kind ← StackMapGet m ci stack_map_index StackMap.kKind;
  _ ← DCHECK (seen_kind =? kind);
  seen_dex_pc ← StackMapGet m ci stack_map_index StackMap.kDexPc;
  _ ← DCHECK (seen_dex_pc =? dex_pc);
  seen_register_mask ← GetRegisterMaskOf m ci stack_map_index;
  _ ← DCHECK (seen_register_mask =? register_mask);
  seen_stack_mask ← GetStackMaskOf m ci stack_map_index;
  _ ← DCHECK (match stack_mask with Some p => GetNumberOfBits (masks p) | None => 0 end
              <=? size_in_bits seen_stack_mask);
  check_stack_mask (Z.to_nat (size_in_bits seen_stack_mask)) 0 seen_stack_mask stack_mask.

Definition check_end (stack_map_index num_dex_registers inlining_depth : Z) : option unit :=
  has_map ← HasDexRegisterMap m ci stack_map_index;
  _ ← DCHECK (eqb has_map (negb (num_dex_registers =? 0)));
  has_inline ← HasInlineInfo m ci stack_map_index;
  _ ← DCHECK (eqb has_inline (negb (inlining_depth =? 0)));
  '(begin, end_) ← GetInlineInfosOf m ci stack_map_index;
  DCHECK (end_ - begin =? inlining_depth).

(** The dex file that a method info names. *)
Definition check_dex_file (dex_files : list Z) (index method : Z) : option unit :=
  dex_file ← dex_files !! Z.to_nat index; DCHECK (IsSameDexFile dex_file (GetDexFile env method)).

Definition check_inline (stack_map_index depth method dex_pc outer_dex_file : Z) : option unit :=
  '(begin, end_) ← GetInlineInfosOf m ci stack_map_index;
  _ ← DCHECK (begin + depth <? end_);
  let inline_info := begin + depth in
  seen_dex_pc ← InlineInfoGet m ci inline_info InlineInfo.kDexPc;
  _ ← DCHECK (seen_dex_pc =? dex_pc);
  encodes ← EncodesArtMethod m ci inline_info;
  _ ← DCHECK (eqb encodes (EncodeArtMethodInInlineInfo env));
  if EncodeArtMethodInInlineInfo env then
    seen ← GetArtMethod m ci inline_info; DCHECK (seen =? method)
  else
    method_info ← GetMethodInfoOf m ci inline_info;
    method_index ← MethodInfoGet m ci method_info MethodInfo.kMethodIndex;
    _ ← DCHECK (method_index =? GetDexMethodIndex env method);
    kind ← MethodInfoGet m ci method_info MethodInfo.kDexFileIndexKind;
    _ ← DCHECK ((kind =? MethodInfo.kKindNonBCP) || (kind =? MethodInfo.kKindBCP));
    if negb (seen_dex_pc =? kNoValue) && negb (IsSameDexFile outer_dex_file (GetDexFile env method))
    then
      index ← MethodInfoGet m ci method_info MethodInfo.kDexFileIndex;
      if IsBootStrapClassLoaded env method then
        _ ← DCHECK (kind =? MethodInfo.kKindBCP); check_dex_file (GetBootClassPath env) index method
      else
        _ ← DCHECK (kind =? MethodInfo.kKindNonBCP);
        check_dex_file (GetDexFilesForOatFile env) index method
    else Some tt.

(** The registers that were read are the next of the expected ones. *)
Definition check_prefix (expected seen : list DexRegisterLocation) : option (list DexRegisterLocation) :=
  if bool_decide (take (length seen) expected = seen) then Some (drop (length seen) expected) else None.

Fixpoint check_inline_registers (n : nat) (stack_map inline_info : Z)
    (expected : list DexRegisterLocation) : option (list DexRegisterLocation) :=
  match n with
  | O => Some expected
  | S n =>
      seen ← GetInlineDexRegisterMapOf m ci stack_map inline_info;
      expected ← check_prefix expected seen;
      check_inline_registers n stack_map (inline_info + 1) expected
  end.

Definition check_registers (stack_map_index : Z) (expected : list DexRegisterLocation) : option unit :=
  seen ← GetDexRegisterMapOf m ci stack_map_index;
  expected ← check_prefix expected seen;
  '(begin, end_) ← GetInlineInfosOf m ci stack_map_index;
  expected ← check_inline_registers (Z.to_nat (end_ - begin)) stack_map_index begin expected;
  DCHECK (bool_decide (expected = [])).

Definition run_dcheck (d : dcheck) : option unit :=
  match d with
  | CheckMethod frame_size_in_bytes core_spill_mask fp_spill_mask num_dex_registers =>
      _ ← DCHECK (packed_frame_size_ ci =? frame_size_in_bytes / kStackAlignment);
      _ ← DCHECK (core_spill_mask_ ci =? core_spill_mask);
      _ ← DCHECK (fp_spill_mask_ ci =? fp_spill_mask);
      DCHECK (number_of_dex_registers_ ci =? num_dex_registers)
  | CheckCodeSize code_size => DCHECK (code_size_ ci =? code_size)
  | CheckBegin stack_map_index dex_pc native_pc_offset register_mask stack_mask kind dex_pc_list =>
      check_begin stack_map_index dex_pc native_pc_offset register_mask stack_mask kind dex_pc_list
  | CheckEnd stack_map_index num_dex_registers inlining_depth =>
      check_end stack_map_index num_dex_registers inlining_depth
  | CheckInline stack_map_index depth method dex_pc outer_dex_file =>
      check_inline stack_map_index depth method dex_pc outer_dex_file
  | CheckRegisters stack_map_index expected_dex_registers =>
      check_registers stack_map_index expected_dex_registers
  end.

Fixpoint run_dchecks (l : list dcheck) : option unit :=
  match l with
  | [] => Some tt
  | d :: l => _ ← run_dcheck d; run_dchecks l
  end.
End dchecks.

(** The buffer that [Encode] returns is the vector of the writer. *)
Definition EncodeStream (masks : Z -> BitVector) (m : memory) (data : Z) (s : StackMapStream) :
    option BitMemoryWriter :=
  _ ← DCHECK (negb (in_stack_map_ s));
  _ ← DCHECK (negb (in_inline_info_ s));
  baseline ← baseline_ s;
  debuggable ← debuggable_ s;
  let flags := encode_flags (tables_ s) baseline debuggable in
  _ ← DCHECK (flags <=? kVarintMax);
  _ ← verify_tables (table_encoders (tables_ s)) (write_header m data flags s);
  let out := write_code_info m data flags s in
  let '(code_info, number_of_read_bits) := DecodeCodeInfo (w_mem out) data in
  _ ← DCHECK (number_of_read_bits =? NumberOfWrittenBits out);
  _ ← DCHECK (GetNumberOfStackMaps code_info =? size (t_stack_maps (tables_ s)));
  _ ← DCHECK (eqb (HasInlineInfoFlag (w_mem out) data) (0 <? size (t_inline_infos (tables_ s))));
  _ ← DCHECK (eqb (IsBaseline (w_mem out) data) baseline);
  _ ← run_dchecks masks (instruction_set_ s) (w_mem out) code_info (dchecks_ s);
  Some out.

(** ** Sequences of calls *)

Inductive call :=
  | CallBeginMethod (frame_size_in_bytes core_spill_mask fp_spill_mask num_dex_registers : Z)
      (baseline debuggable : bool)
  | CallEndMethod (code_size : Z)
  | CallBeginStackMapEntry (dex_pc native_pc_offset register_mask : Z) (stack_mask : option Z)
      (kind : Z) (needs_vreg_info : bool) (dex_pc_list : list Z)
  | CallEndStackMapEntry
  | CallAddDexRegisterEntry (kind value : Z)
  | CallBeginInlineInfoEntry (method dex_pc num_dex_registers outer_dex_file : Z)
  | CallEndInlineInfoEntry.

Definition do_call (masks : Z -> BitVector) (c : call) (s : StackMapStream) : option StackMapStream :=
  match c with
  | CallBeginMethod frame_size core fp num_dex_registers baseline debuggable =>
      BeginMethod frame_size core fp num_dex_registers baseline debuggable s
  | CallEndMethod code_size => EndMethod masks code_size s
  | CallBeginStackMapEntry dex_pc native_pc register_mask stack_mask kind needs dex_pc_list =>
      BeginStackMapEntry dex_pc native_pc register_mask stack_mask kind needs dex_pc_list s
  | CallEndStackMapEntry => EndStackMapEntry s
  | CallAddDexRegisterEntry kind value => Some (AddDexRegisterEntry kind value s)
  | CallBeginInlineInfoEntry method dex_pc num_dex_registers outer_dex_file =>
      BeginInlineInfoEntry method dex_pc num_dex_registers outer_dex_file s
  | CallEndInlineInfoEntry => EndInlineInfoEntry s
  end.

Fixpoint do_calls (masks : Z -> BitVector) (calls : list call) (s : StackMapStream) :
    option StackMapStream :=
  match calls with
  | [] => Some s
  | c :: calls => s ← do_call masks c s; do_calls masks calls s
  end.
End stream.
