(* ===== verification/StackMapTables.v ===== *)
(** The tables of a stream are read back from the buffer it writes: [write_code_info] of
    StackMapStream.v against [DecodeCodeInfo] of StackMap.v. *)
From S2P Require Import Prelude BitUtils Memory BitMemory BitVector BitTable BitmapTable StackMap.
From S2P Require Import StackMapStream.

(** ** Where a reader started *)

Definition same_base (rd rd' : BitMemoryReader) : Prop :=
  data_ (finished_region_ rd') = data_ (finished_region_ rd) /\
  bit_start_ (finished_region_ rd') = bit_start_ (finished_region_ rd).

Lemma same_base_trans rd1 rd2 rd3 : same_base rd1 rd2 -> same_base rd2 rd3 -> same_base rd1 rd3.
Proof. unfold same_base. intuition congruence. Qed.

Lemma ReadBits_base w m rd n : same_base rd (ReadBits w m rd n).2.
Proof. done. Qed.

Lemma read_large_base m rd values : same_base rd (read_large m rd values).2.
Proof.
  revert rd. induction values as [|x values IH]; intros rd; cbn [read_large]; [done|].
  destruct (kVarintMax <? x); [|specialize (IH rd); by destruct (read_large m rd values)].
  pose proof (ReadBits_base 64 m rd ((x - kVarintMax) * kBitsPerByte)) as Hb.
  destruct (ReadBits 64 m rd _) as [v rd1]. specialize (IH rd1).
  destruct (read_large m rd1 values). by apply (same_base_trans rd rd1).
Qed.

Lemma ReadInterleavedVarints_base n m rd : same_base rd (ReadInterleavedVarints n m rd).2.
Proof.
  unfold ReadInterleavedVarints. pose proof (ReadBits_base 64 m rd (Z.of_nat n * kVarintBits)) as Hb.
  destruct (ReadBits 64 m rd _) as [v rd1]. eapply same_base_trans; [done|]. apply read_large_base.
Qed.

Lemma Decode_base k m rd :
  same_base rd (Decode k m rd).2 /\ data_ (table_data_ (Decode k m rd).1) = data_ (finished_region_ rd).
Proof.
  unfold Decode. pose proof (ReadInterleavedVarints_base (1 + k) m rd) as Hb.
  destruct (ReadInterleavedVarints (1 + k) m rd) as [h rd1]. simpl. split; [done|]. apply Hb.
Qed.

Lemma NumberOfReadBits_pos rd rd' :
  same_base rd rd' -> NumberOfReadBits rd' - NumberOfReadBits rd = r_pos rd' - r_pos rd.
Proof. intros [H1 H2]. unfold NumberOfReadBits, size_in_bits, r_pos, abs_start. lia. Qed.

(** ** What is read *)

Definition wf_rows (k : nat) (rows : list Entry) : Prop :=
  Forall (fun row => length row = k /\ Forall (is_u 32) row) rows.

(** Every row is there, and its columns are read without a failing check. *)
Record shows_table (k : nat) (m : memory) (t : BitTableBase) (rows : list Entry) : Prop := {
  sh_rows : num_rows_ t = Z.of_nat (length rows);
  sh_get : forall r row c v, rows !! r = Some row -> row !! c = Some v ->
    TableGet k m t (Z.of_nat r) c = Some v }.

Record shows_bitmap_table (m : memory) (t : BitTableBase) (b : BitmapTableBuilder) : Prop := {
  shb_rows : num_rows_ t = bitmap_size b;
  shb_get : forall r row, bitmap_rows_ b !! r = Some row ->
    exists reg, TableRegion 1 t (Z.of_nat r) 0 = Some reg /\ wf_region reg /\
      bit_size_ reg = max_num_bits_ b /\
      forall i, 0 <= i < max_num_bits_ b -> rbit m reg i = mbit (bytes_memory row) i }.

Lemma empty_shows_table k m : shows_table k m (empty_table k) [].
Proof. split; [done|]. intros r row c v Hr. by rewrite lookup_nil in Hr. Qed.

Lemma TableGet_valid k m t row c :
  data_ (table_data_ t) <> 0 -> 0 <= row < num_rows_ t -> (c < k)%nat ->
  TableGet k m t row c = Some (Get k m t row c) /\
  TableRegion k t row c = Some (GetBitMemoryRegion k t row c).
Proof.
  intros Hd Hr Hc. unfold TableGet, TableRegion, in_table, IsValid.
  assert ((c <? k)%nat = true) as -> by (by apply Nat.ltb_lt).
  assert ((data_ (table_data_ t) =? 0) = false) as -> by lia.
  assert ((0 <=? row) = true) as -> by lia. assert ((row <? num_rows_ t) = true) as -> by lia. done.
Qed.

(** ** Tables of both kinds *)

Inductive any_table := ATable (k : nat) (b : BitTableBuilder) | ABitmap (b : BitmapTableBuilder).

Definition any_size (a : any_table) : Z :=
  match a with ATable _ b => size b | ABitmap b => bitmap_size b end.
Definition any_encode (a : any_table) : BitMemoryWriter -> BitMemoryWriter :=
  match a with ATable k b => Encode k b | ABitmap b => BitmapEncode b end.
Definition any_verify (a : any_table) : Z -> BitMemoryWriter -> bool :=
  match a with ATable k b => VerifyEncoded k b | ABitmap b => BitmapVerifyEncoded b end.
Definition any_columns (a : any_table) : nat := match a with ATable k _ => k | ABitmap _ => 1%nat end.
Definition any_items (a : any_table) : list (Z * Z) :=
  match a with ATable k b => table_items k b | ABitmap b => bitmap_items b end.
Definition any_shows (m : memory) (t : BitTableBase) (a : any_table) : Prop :=
  match a with ATable k b => shows_table k m t (rows_ b) | ABitmap b => shows_bitmap_table m t b end.

(** The sizes at which no offset overflows. *)
Definition any_ok (a : any_table) : Prop :=
  match a with
  | ATable k b => wf_rows k (rows_ b) /\ (k <= 8)%nat /\ size b < 2 ^ 24
  | ABitmap b => bitmaps_small b /\ bitmaps_ok b
  end.

Lemma table_bits_bound k b : (k <= 8)%nat -> size b < 2 ^ 24 -> 0 <= size b * sum (Measure k b) < 2 ^ 32.
Proof.
  intros Hk Hs. pose proof (sum_bound _ _ (Measure_bounds k b)) as H. rewrite Measure_length in H.
  assert (0 <= size b) by (unfold size; lia). nia.
Qed.

Lemma any_widths a : any_ok a -> widths_ok (any_items a).
Proof.
  destruct a as [k b|b]; simpl.
  - intros _. apply item_ok_widths, table_items_ok.
  - intros [[H _] _]. apply bitmap_items_widths. lia.
Qed.

Lemma any_items_bound a : any_ok a -> 0 <= items_bits (any_items a) < 2 ^ 33.
Proof.
  intros Hok. split; [by apply widths_nonneg, any_widths|]. destruct a as [k b|b]; cbn [any_ok any_items any_encode] in *.
  - destruct Hok as (Hr & Hk & Hs). unfold table_items.
    rewrite items_bits_app, (data_items_bits k b Hr). pose proof (table_bits_bound k b Hk Hs).
    pose proof (varint_items_bound _ (header_ok k b)) as H'. simpl length in H'.
    rewrite Measure_length in H'. lia.
  - destruct Hok as [(H1 & H2 & H3) _]. unfold bitmap_items. rewrite items_bits_app, bitmap_rows_bits.
    fold (bitmap_size b). pose proof (varint_items_bound _ (bitmap_header_ok b)) as H'.
    simpl length in H'. lia.
Qed.

Lemma any_encode_grown a wr :
  any_ok a -> wf_writer wr -> clean wr -> w_pos wr < 2 ^ 61 ->
  grown wr (any_encode a wr) (any_items a).
Proof.
  intros Hok Hw Hc Hp. pose proof (any_items_bound a Hok). destruct a as [k b|b]; cbn [any_ok any_items any_encode] in *.
  - rewrite Encode_items. apply write_items_grown; try done; [apply table_items_ok|lia].
  - destruct Hok as [[? _] ?%bitmaps_ok_bytes]. apply BitmapEncode_grown; (done || lia).
Qed.

Lemma any_verified a wr :
  any_ok a -> wf_writer wr -> clean wr -> w_pos wr + 2 ^ 33 < 2 ^ 61 ->
  any_verify a (NumberOfWrittenBits wr) (any_encode a wr) = true.
Proof.
  intros Hok Hw Hc Hp. destruct (any_encode_grown a wr Hok Hw Hc ltac:(lia)) as [Ha _ Hm].
  pose proof (any_items_bound a Hok). assert (w_pos (any_encode a wr) < 2 ^ 61) as Hp' by (rewrite (appended_pos _ _ _ Ha); lia).
  destruct a as [k b|b]; cbn [any_ok any_items any_encode any_verify] in *.
  - destruct Hok as (Hr & Hk & Hs). pose proof (table_bits_bound k b Hk Hs). apply VerifyEncoded_true; (done || lia).
  - destruct Hok as [Hs Hb]. by apply BitmapVerifyEncoded_true.
Qed.

Lemma any_decode m a rd k :
  any_ok a -> bytes_ok m -> 0 <= k -> data_ (finished_region_ rd) <> 0 ->
  wf_reader rd (items_bits (any_items a) + k) -> items_match m (r_pos rd) (any_items a) ->
  exists t rd', Decode (any_columns a) m rd = (t, rd') /\ any_shows m t a /\ wf_reader rd' k /\
    r_pos rd' = r_pos rd + items_bits (any_items a) /\ same_base rd rd'.
Proof.
  intros Hok Hm Hk Hd Hrd Hi. pose proof (Decode_base (any_columns a) m rd) as [Hb Ht].
  destruct a as [n b|b]; cbn [any_columns any_items any_shows any_ok] in *.
  - destruct Hok as (Hr & Hn & Hs). pose proof (table_bits_bound n b Hn Hs).
    destruct (Decode_spec n b Hr m rd k) as (t & rd' & E & Hrows & Hrd' & Hp & _ & Hg); try (done || lia).
    rewrite E in Hb, Ht. exists t, rd'. split_and!; try done. split; [done|].
    intros r row c v Hrow Hv. rewrite <- (Hg r row c v) by done.
    pose proof (lookup_lt_Some _ _ _ Hrow). pose proof (lookup_lt_Some _ _ _ Hv).
    eapply Forall_lookup_1 in Hr as [Hl _]; [|done].
    apply TableGet_valid; simpl in *; [by rewrite Ht|unfold size in Hrows; lia|lia].
  - destruct Hok as [Hs _]. destruct (BitmapDecode_spec m b rd k) as (t & rd' & E & [Hrows _ Hg] & Hrd' & Hp); try done.
    rewrite E in Hb, Ht. exists t, rd'. split_and!; try done. split; [done|].
    intros r row Hrow. eexists. split; [|by apply Hg].
    pose proof (lookup_lt_Some _ _ _ Hrow). unfold bitmap_size in Hrows.
    apply TableGet_valid; simpl in *; [exact m|by rewrite Ht|lia|lia].
Qed.

Lemma empty_shows m a : any_size a = 0 -> any_shows m (empty_table (any_columns a)) a.
Proof.
  intros E. destruct a as [n b|b]; simpl in *.
  - destruct (rows_ b) eqn:Eb; [apply empty_shows_table|]. unfold size in E. rewrite Eb in E. simpl in E. lia.
  - split; [by rewrite E|]. intros r row Hr. apply lookup_lt_Some in Hr. unfold bitmap_size in E. lia.
Qed.

(** ** All tables of a stream *)

Definition all_tables (t : Tables) : list any_table :=
  [ATable 8 (t_stack_maps t); ATable 2 (t_register_masks t); ABitmap (t_stack_masks t);
   ATable 6 (t_inline_infos t); ATable 3 (t_method_infos t); ABitmap (t_dex_register_masks t);
   ATable 1 (t_dex_register_maps t); ATable 2 (t_dex_register_catalog t)].

Lemma table_encoders_all t : table_encoders t = map (fun a => (any_size a, any_encode a, any_verify a)) (all_tables t).
Proof. done. Qed.

(** The tables that have no row are not stored. *)
Definition stored_items (a : any_table) : list (Z * Z) := if any_size a =? 0 then [] else any_items a.

Lemma stored_widths a : any_ok a -> widths_ok (stored_items a).
Proof. intros Hok. unfold stored_items. destruct (_ =? _); [constructor|by apply any_widths]. Qed.

Lemma stored_items_bound l :
  Forall any_ok l ->
  widths_ok (concat (map stored_items l)) /\
  0 <= items_bits (concat (map stored_items l)) <= Z.of_nat (length l) * 2 ^ 33.
Proof.
  induction 1 as [|a l Ha Hl [IH1 IH2]]; [by split; [constructor|]|]. cbn [map concat length]. split.
  - apply Forall_app. split; [by apply stored_widths|done].
  - rewrite items_bits_app. pose proof (any_items_bound a Ha).
    assert (0 <= items_bits (stored_items a) < 2 ^ 33); [|lia].
    unfold stored_items. destruct (_ =? _); [simpl; lia|done].
Qed.

Lemma stored_grown a wr :
  any_ok a -> wf_writer wr -> clean wr -> w_pos wr < 2 ^ 61 ->
  let wr' := if negb (any_size a =? 0) then any_encode a wr else wr in
  grown wr wr' (stored_items a) /\ w_pos wr' <= w_pos wr + 2 ^ 33.
Proof.
  intros Ha Hw Hc Hp wr'. pose proof (any_items_bound a Ha).
  assert (grown wr wr' (stored_items a)) as Hg.
  { subst wr'. unfold stored_items. destruct (any_size a =? 0); [by apply grown_nil|].
    apply any_encode_grown; (done || lia). }
  split; [done|]. rewrite (appended_pos _ _ _ (gr_app _ _ _ Hg)). unfold stored_items. destruct (_ =? _); simpl; lia.
Qed.

Lemma encode_all_grown l wr :
  Forall any_ok l -> wf_writer wr -> clean wr -> w_pos wr + Z.of_nat (length l) * 2 ^ 33 < 2 ^ 61 ->
  let encoders := map (fun a => (any_size a, any_encode a, any_verify a)) l in
  grown wr (foldl (fun out '(n, encode, _) => if negb (n =? 0) then encode out else out) wr encoders)
    (concat (map stored_items l)) /\
  verify_tables encoders wr = Some tt.
Proof.
  intros Hl. revert wr. induction Hl as [|a l Ha Hl IH]; intros wr Hw Hc Hp; [by split; [apply grown_nil|]|].
  cbn [map foldl concat length verify_tables] in *. destruct (stored_grown a wr Ha Hw Hc ltac:(lia)) as [Hg Hp1].
  set (wr1 := if negb (any_size a =? 0) then any_encode a wr else wr) in *.
  destruct (IH wr1) as [IH1 IH2]; [apply Hg|apply Hg|lia|]. split.
  - eapply grown_app; [by apply stored_widths|by apply stored_items_bound|done|done].
  - unfold wr1 in IH2. destruct (any_size a =? 0); [done|]. cbn [negb] in *. by rewrite any_verified by (done || lia).
Qed.

Lemma decode_all m flags i l rd k :
  Forall any_ok l -> bytes_ok m -> 0 <= k -> data_ (finished_region_ rd) <> 0 ->
  (forall j a, l !! j = Some a -> HasBitTable flags (i + j) = negb (any_size a =? 0)) ->
  (forall j, IsBitTableDeduped flags j = false) ->
  wf_reader rd (items_bits (concat (map stored_items l)) + k) ->
  items_match m (r_pos rd) (concat (map stored_items l)) ->
  exists ts rd', decode_tables m flags i (map any_columns l) rd = (ts, rd') /\
    Forall2 (any_shows m) ts l /\ wf_reader rd' k /\
    r_pos rd' = r_pos rd + items_bits (concat (map stored_items l)) /\ same_base rd rd'.
Proof.
  intros Hl Hm Hk. revert i rd. induction Hl as [|a l Ha Hl IH]; intros i rd Hd Hf Hnd Hrd Hi.
  { exists [], rd. simpl in *. split_and!; try done; lia. }
  cbn [map concat decode_tables] in *. rewrite items_bits_app in *.
  apply items_match_app in Hi as [Hi1 Hi2].
  pose proof (stored_items_bound l Hl) as [_ Hlb].
  assert (exists t rd1, decode_table m flags i (any_columns a) rd = (t, rd1) /\ any_shows m t a /\
    wf_reader rd1 (items_bits (concat (map stored_items l)) + k) /\
    r_pos rd1 = r_pos rd + items_bits (stored_items a) /\ same_base rd rd1) as (t & rd1 & E1 & Hs1 & Hrd1 & Hp1 & Hb1).
  { unfold decode_table. pose proof (Hf 0%nat a eq_refl) as H0. rewrite Nat.add_0_r in H0. rewrite H0, Hnd.
    unfold stored_items in Hi1, Hrd |- *. destruct (Z.eqb_spec (any_size a) 0) as [E|E]; cbn [negb].
    - eexists _, rd. split; [done|]. split; [by apply empty_shows|simpl in *; split_and!; try done; lia].
    - destruct Hlb. apply any_decode; try done; [by apply Z.add_nonneg_nonneg|by rewrite Z.add_assoc]. }
  rewrite E1. destruct (IH (S i) rd1) as (ts & rd2 & E2 & Hs2 & Hrd2 & Hp2 & Hb2); try done.
  - destruct Hb1 as [-> _]. done.
  - intros j a' Hj. rewrite <- (Hf (S j) a' Hj). f_equal. lia.
  - by rewrite Hp1.
  - rewrite E2. exists (t :: ts), rd2. split_and!; [done|by constructor|done|lia|by eapply same_base_trans].
Qed.

(** The flags that tell which tables are stored. *)
Lemma stored_tables_testbit i sizes j :
  Z.testbit (stored_tables i sizes) (Z.of_nat j) =
    if (i <=? j)%nat then match sizes !! (j - i)%nat with Some n => negb (n =? 0) | None => false end else false.
Proof.
  revert i. induction sizes as [|n sizes IH]; intros i; simpl.
  { rewrite Z.testbit_0_l. by destruct (_ <=? _)%nat. }
  rewrite Z.lor_spec, IH.
  assert (Z.testbit (if negb (n =? 0) then 1 ≪ Z.of_nat i else 0) (Z.of_nat j) = (i =? j)%nat && negb (n =? 0)) as ->.
  { destruct (n =? 0); simpl; [rewrite Z.testbit_0_l; by rewrite andb_false_r|].
    rewrite Z.shiftl_1_l, andb_true_r, Z.pow2_bits_eqb by lia. destruct (Nat.eqb_spec i j); lia. }
  destruct (Nat.eqb_spec i j) as [->|Hne]; cbn [andb orb].
  - rewrite Nat.leb_refl, Nat.sub_diag. cbn [lookup list_lookup].
    destruct (Nat.leb_spec (S j) j); [lia|]. by rewrite orb_false_r.
  - destruct (Nat.leb_spec i j), (Nat.leb_spec (S i) j); try (done || lia).
    replace (j - i)%nat with (S (j - S i)) by lia. done.
Qed.

Lemma stored_tables_is_u i sizes w :
  Z.of_nat (i + length sizes) <= w -> is_u w (stored_tables i sizes).
Proof.
  revert i. induction sizes as [|n sizes IH]; intros i Hw; simpl in *; [unfold is_u; pose proof (Z.pow_nonneg 2 w); lia|].
  apply lor_is_u; [lia| |apply IH; lia].
  destruct (n =? 0); simpl; [unfold is_u; pose proof (Z.pow_nonneg 2 w); lia|].
  rewrite Z.shiftl_1_l. unfold is_u. pose proof (Z.pow_pos_nonneg 2 (Z.of_nat i)).
  split; [lia|]. apply Z.pow_lt_mono_r; lia.
Qed.

(** ** The whole buffer *)

Definition tables_ok (t : Tables) : Prop := Forall any_ok (all_tables t).

(** A decoded [CodeInfo] shows the tables of a stream. *)
Record shows_tables (m : memory) (ci : CodeInfo) (t : Tables) : Prop := {
  sh_stack_maps : shows_table 8 m (stack_maps_ ci) (rows_ (t_stack_maps t));
  sh_register_masks : shows_table 2 m (register_masks_ ci) (rows_ (t_register_masks t));
  sh_stack_masks : shows_bitmap_table m (stack_masks_ ci) (t_stack_masks t);
  sh_inline_infos : shows_table 6 m (inline_infos_ ci) (rows_ (t_inline_infos t));
  sh_method_infos : shows_table 3 m (method_infos_ ci) (rows_ (t_method_infos t));
  sh_dex_register_masks : shows_bitmap_table m (dex_register_masks_ ci) (t_dex_register_masks t);
  sh_dex_register_maps : shows_table 1 m (dex_register_maps_ ci) (rows_ (t_dex_register_maps t));
  sh_dex_register_catalog :
    shows_table 2 m (dex_register_catalog_ ci) (rows_ (t_dex_register_catalog t)) }.

Definition header_of (flags : Z) (s : StackMapStream) : list Z :=
  [flags; st_code_size_ s; st_packed_frame_size_ s; st_core_spill_mask_ s; st_fp_spill_mask_ s;
   num_dex_registers_ s; stored_tables 0 (map any_size (all_tables (tables_ s)))].

Definition code_items (flags : Z) (s : StackMapStream) : list (Z * Z) :=
  varint_items (header_of flags s) ++ concat (map stored_items (all_tables (tables_ s))).

Definition headers_ok (s : StackMapStream) : Prop :=
  Forall (is_u 32) [st_code_size_ s; st_packed_frame_size_ s; st_core_spill_mask_ s;
    st_fp_spill_mask_ s; num_dex_registers_ s].

Lemma header_of_ok flags s : 0 <= flags <= kVarintMax -> headers_ok s -> Forall (is_u 32) (header_of flags s).
Proof.
  intros Hf Hs. unfold header_of. constructor; [unfold is_u, kVarintMax in *; lia|].
  apply (Forall_app _ [_; _; _; _; _]). split; [done|]. apply Forall_singleton.
  apply stored_tables_is_u. simpl. lia.
Qed.

Lemma code_items_bound flags s :
  0 <= flags <= kVarintMax -> headers_ok s -> tables_ok (tables_ s) ->
  0 <= items_bits (code_items flags s) < 2 ^ 40.
Proof.
  intros Hf Hs Ht. pose proof (header_of_ok flags s Hf Hs) as Hh. unfold code_items. rewrite items_bits_app.
  pose proof (varint_items_bound _ Hh) as Hb. pose proof (items_bits_nonneg _ (varint_items_ok _ Hh)).
  destruct (stored_items_bound _ Ht) as [_ Hsb]. change (Z.of_nat (length (all_tables (tables_ s)))) with 8 in Hsb.
  change (Z.of_nat (length (header_of flags s))) with 7 in Hb. lia.
Qed.

Lemma MakeWriter_wf m data : bytes_ok m -> 0 <= data -> wf_writer (MakeWriter m data 0 0) /\ clean (MakeWriter m data 0 0).
Proof. intros Hm Hd. split; [by split|]. intros j Hj. unfold w_pos in Hj. simpl in Hj. lia. Qed.

Lemma write_code_info_grown m data flags s :
  bytes_ok m -> 0 <= data < 2 ^ 57 -> 0 <= flags <= kVarintMax -> headers_ok s -> tables_ok (tables_ s) ->
  grown (MakeWriter m data 0 0) (write_code_info m data flags s) (code_items flags s) /\
  verify_tables (table_encoders (tables_ s)) (write_header m data flags s) = Some tt.
Proof.
  intros Hm Hd Hf Hs Ht. destruct (MakeWriter_wf m data Hm ltac:(lia)) as [Hw Hc].
  unfold write_code_info, write_header. rewrite table_encoders_all, map_map.
  change (map (fun a => (any_size a, any_encode a, any_verify a).1.1) (all_tables (tables_ s)))
    with (map any_size (all_tables (tables_ s))).
  pose proof (header_of_ok flags s Hf Hs) as Hh. fold (header_of flags s).
  rewrite WriteInterleavedVarints_items by done. pose proof (varint_items_ok _ Hh) as Hv.
  pose proof (varint_items_bound _ Hh) as Hb. simpl length in Hb.
  pose proof (items_bits_nonneg _ Hv). set (wr := MakeWriter m data 0 0) in *.
  assert (w_pos wr = 8 * data) as Hp by (unfold w_pos; simpl; lia).
  pose proof (write_items_grown wr _ Hw Hc Hv ltac:(lia)) as Hg.
  destruct (encode_all_grown (all_tables (tables_ s)) (write_items wr (varint_items (header_of flags s)))) as [H1 H2];
    [done|apply Hg|apply Hg| |].
  { rewrite (appended_pos _ _ _ (gr_app _ _ _ Hg)). change (Z.of_nat (length (all_tables (tables_ s)))) with 8. lia. }
  split; [|done]. eapply grown_app; [by apply item_ok_widths|by apply stored_items_bound|done|done].
Qed.

Lemma HasBitTable_stored t j a :
  all_tables t !! j = Some a ->
  HasBitTable (stored_tables 0 (map any_size (all_tables t))) j = negb (any_size a =? 0).
Proof.
  intros Hj. unfold HasBitTable. rewrite testbit_land1, stored_tables_testbit by lia.
  by rewrite Nat.sub_0_r, list_lookup_fmap, Hj.
Qed.

Lemma IsBitTableDeduped_stored t j :
  IsBitTableDeduped (stored_tables 0 (map any_size (all_tables t))) j = false.
Proof.
  unfold IsBitTableDeduped, kNumBitTables. rewrite testbit_land1, stored_tables_testbit by lia.
  rewrite Nat.sub_0_r, lookup_ge_None_2 by (simpl; lia). by destruct (_ <=? _)%nat.
Qed.

(** What [Encode] can check about the buffer, and what readers of it see. *)
Record encoded (m : memory) (data : Z) (flags : Z) (s : StackMapStream) (ci : CodeInfo) : Prop := {
  en_bytes : bytes_ok m;
  en_tables : shows_tables m ci (tables_ s);
  en_code_size : code_size_ ci = st_code_size_ s;
  en_frame : packed_frame_size_ ci = st_packed_frame_size_ s;
  en_core : core_spill_mask_ ci = st_core_spill_mask_ s;
  en_fp : fp_spill_mask_ ci = st_fp_spill_mask_ s;
  en_dex : number_of_dex_registers_ ci = num_dex_registers_ s;
  en_byte : forall i, 0 <= i < 4 -> Z.testbit (m data) i = Z.testbit flags i }.

Lemma decode_code_info m data flags s :
  bytes_ok m -> kPageSize <= data < 2 ^ 57 -> 0 <= flags <= kVarintMax -> headers_ok s ->
  tables_ok (tables_ s) -> items_match m (8 * data) (code_items flags s) ->
  exists ci, DecodeCodeInfo m data = (ci, items_bits (code_items flags s)) /\ encoded m data flags s ci.
Proof.
  intros Hm Hd Hf Hs Ht Hi. pose proof (header_of_ok flags s Hf Hs) as Hh.
  pose proof (varint_items_bound _ Hh) as Hb. pose proof (items_bits_nonneg _ (varint_items_ok _ Hh)).
  destruct (stored_items_bound _ Ht) as [_ Hsb]. change (Z.of_nat (length (all_tables (tables_ s)))) with 8 in Hsb.
  set (items := concat (map stored_items (all_tables (tables_ s)))) in *.
  assert (items_bits (code_items flags s) = items_bits (varint_items (header_of flags s)) + items_bits items) as Etot
    by apply items_bits_app.
  destruct (MakeReaderAt_spec data 0 (items_bits (code_items flags s))) as (Hrd & Hp & Hn);
    [unfold kPageSize in *; lia..|simpl length in Hb; lia|].
  assert (data_ (finished_region_ (MakeReaderAt data 0)) <> 0) as Hdata.
  { simpl. unfold kPageSize in *. rewrite Z.shiftr_0_l, Z.add_0_r. change 4096 with (2 ^ 12).
    rewrite RoundDown_val by (unfold is_u; lia). change (2 ^ 12) with 4096. Z.div_mod_to_equations. lia. }
  pose proof Hi as Hi0. apply items_match_app in Hi as [Hi1 Hi2]. rewrite Etot in Hrd.
  destruct (ReadInterleavedVarints_spec m (header_of flags s) (MakeReaderAt data 0) (items_bits items))
    as (rd1 & E1 & Hrd1 & Hp1); try (done || lia); [by rewrite Hp, Z.add_0_r|].
  pose proof (ReadInterleavedVarints_base kNumHeaders m (MakeReaderAt data 0)) as Hb1.
  change (length (header_of flags s)) with kNumHeaders in E1. rewrite E1 in Hb1. cbn [snd] in Hb1.
  destruct (decode_all m (stored_tables 0 (map any_size (all_tables (tables_ s)))) 0 (all_tables (tables_ s)) rd1 0)
    as (ts & rd2 & E2 & Hsh & _ & Hp2 & Hb2); try (done || lia).
  - destruct Hb1 as [-> _]. done.
  - intros j a. apply HasBitTable_stored.
  - intros j. apply IsBitTableDeduped_stored.
  - by rewrite Z.add_0_r.
  - rewrite Hp1, Hp, Z.add_0_r. done.
  - fold items in Hp2. exists (code_info_of (header_of flags s) ts). split.
    + unfold DecodeCodeInfo, decode_header. rewrite E1.
      change (default 0 (header_of flags s !! 6%nat)) with (stored_tables 0 (map any_size (all_tables (tables_ s)))).
      change table_columns with (map any_columns (all_tables (tables_ s))). rewrite E2. f_equal.
      pose proof (NumberOfReadBits_pos _ _ (same_base_trans _ _ _ Hb1 Hb2)). lia.
    + assert (items_match m (8 * data) [small_item flags]) as [Hsm _].
      { unfold code_items, varint_items, header_of in Hi0. cbn [map app] in Hi0. destruct Hi0 as [H0 _]. by split. }
      split; try done.
      * clear -Hsh. unfold all_tables in Hsh. repeat (apply Forall2_cons_inv_r in Hsh as (? & ? & ? & Hsh & ->)).
        apply Forall2_nil_inv_r in Hsh as ->. split; done.
      * intros i Hx. rewrite <- (mbit_byte m data i) by lia. rewrite (Hsm i) by (simpl; unfold kVarintBits; lia).
        unfold small_item. simpl. by destruct (Z.ltb_spec kVarintMax flags); [lia|].
Qed.
