(* ===== verification/StackMapReader.v ===== *)
(** What the readers of StackMap.v return on tables whose rows are known: the backward scan of
    [DecodeDexRegisterMap], the inline infos of a stack map, and the searches for stack maps. *)
From S2P Require Import Prelude BitUtils Memory BitMemory BitVector BitTable BitmapTable StackMap.
From S2P Require Import StackMapStream StackMapTables.

(** ** Locations that are still missing *)

Definition invalid (loc : DexRegisterLocation) : bool := kind_ loc =? Kind.kInvalid.

Fixpoint inv_count (regs : list DexRegisterLocation) : Z :=
  match regs with
  | [] => 0
  | r :: regs => (if invalid r then 1 else 0) + inv_count regs
  end.

Lemma inv_count_bound regs : 0 <= inv_count regs <= Z.of_nat (length regs).
Proof. induction regs as [|r regs IH]; simpl; [lia|]. destruct (invalid r); lia. Qed.

Lemma inv_count_insert regs q r loc :
  regs !! q = Some r -> invalid r = true -> invalid loc = false ->
  inv_count (<[q := loc]> regs) = inv_count regs - 1.
Proof.
  revert q. induction regs as [|r' regs IH]; intros q Hq Hr Hl; [done|]. destruct q as [|q]; simpl in *.
  - injection Hq as ->. rewrite Hr, Hl. lia.
  - rewrite IH by done. lia.
Qed.

Lemma inv_count_pos regs q r : regs !! q = Some r -> invalid r = true -> 0 < inv_count regs.
Proof.
  revert q. induction regs as [|r' regs IH]; intros q Hq Hr; [done|]. pose proof (inv_count_bound regs).
  destruct q as [|q]; simpl in *; [injection Hq as ->; rewrite Hr; lia|].
  specialize (IH _ Hq Hr). destruct (invalid r'); lia.
Qed.

Lemma inv_count_zero regs q r : inv_count regs = 0 -> regs !! q = Some r -> invalid r = false.
Proof.
  intros H0 Hq. destruct (invalid r) eqn:E; [|done]. pose proof (inv_count_pos _ _ _ Hq E). lia.
Qed.

Lemma inv_count_replicate n : inv_count (replicate n LocationInvalid) = Z.of_nat n.
Proof. induction n as [|n IH]; [done|]. change (1 + inv_count (replicate n LocationInvalid) = Z.of_nat (S n)). lia. Qed.

(** ** The registers one stack map changes *)

(** The location a stack map gives to a register, if it changes it. *)
Abbreviation change := (Z -> option DexRegisterLocation).

Definition changed (u : change) (r : Z) : bool := match u r with Some _ => true | None => false end.

(** The position of a register among the changed ones. *)
Definition rank (u : change) (r : Z) : Z := count_bits (Z.to_nat r) (changed u).

Lemma rank_none u p q :
  0 <= p <= q -> (forall r, p <= r < q -> u r = None) -> rank u q = rank u p.
Proof.
  intros Hpq Hu. unfold rank. replace (Z.to_nat q) with (Z.to_nat p + Z.to_nat (q - p))%nat by lia.
  rewrite count_bits_app.
  assert (count_bits (Z.to_nat (q - p)) (fun i => changed u (Z.of_nat (Z.to_nat p) + i)) = 0) as ->; [|lia].
  rewrite (count_bits_ext _ _ (fun _ => false)).
  - generalize (Z.to_nat (q - p)). intros n. induction n as [|n IH]; [done|]. simpl. lia.
  - intros i Hi. unfold changed. by rewrite Hu by lia.
Qed.

Lemma rank_some u q : 0 <= q -> changed u q = true -> rank u (q + 1) = rank u q + 1.
Proof.
  intros Hq Hc. unfold rank. replace (Z.to_nat (q + 1)) with (Z.to_nat q + 1)%nat by lia.
  rewrite count_bits_app. f_equal. cbn [count_bits].
  replace (Z.of_nat (Z.to_nat q) + 0) with q by lia. by rewrite Hc.
Qed.

Lemma rank_bound u r : 0 <= r -> 0 <= rank u r <= r.
Proof. intros Hr. unfold rank. pose proof (count_bits_bound (Z.to_nat r) (changed u)). lia. Qed.

(** The missing registers below [p], counted from [first], get the location of the stack map. *)
Definition merge (u : change) (first p : Z) (regs : list DexRegisterLocation) :
    list DexRegisterLocation :=
  imap (fun j r => if (Z.of_nat j <? p) && invalid r then default r (u (first + Z.of_nat j)) else r) regs.

Lemma merge_lookup u first p regs j :
  merge u first p regs !! j =
    (fun r => if (Z.of_nat j <? p) && invalid r then default r (u (first + Z.of_nat j)) else r) <$> regs !! j.
Proof. unfold merge. apply list_lookup_imap. Qed.

Lemma merge_length u first p regs : length (merge u first p regs) = length regs.
Proof. unfold merge. apply length_imap. Qed.

Lemma merge_0 u first regs : merge u first 0 regs = regs.
Proof.
  apply list_eq. intros j. rewrite merge_lookup. destruct (regs !! j); simpl; [|done].
  by destruct (Z.ltb_spec (Z.of_nat j) 0); [lia|].
Qed.

Lemma merge_none u first p q regs :
  p <= q -> (forall i, p <= i < q -> i < Z.of_nat (length regs) -> u (first + i) = None) ->
  merge u first q regs = merge u first p regs.
Proof.
  intros Hpq Hu. apply list_eq. intros j. rewrite !merge_lookup.
  destruct (regs !! j) as [r|] eqn:E; simpl; [|done]. f_equal. apply lookup_lt_Some in E.
  destruct (Z.ltb_spec (Z.of_nat j) q), (Z.ltb_spec (Z.of_nat j) p); simpl; try (done || lia).
  rewrite Hu by lia. by destruct (invalid r).
Qed.

Lemma merge_some u first q regs r loc :
  0 <= q -> regs !! Z.to_nat q = Some r -> u (first + q) = Some loc ->
  merge u first (q + 1) regs =
    if invalid r then <[Z.to_nat q := loc]> (merge u first q regs) else merge u first q regs.
Proof.
  intros Hq Hr Hu. apply list_eq. intros j.
  destruct (decide (j = Z.to_nat q)) as [->|Hj].
  - rewrite merge_lookup, Hr. simpl. rewrite Z2Nat.id, Hu by lia.
    destruct (Z.ltb_spec q (q + 1)); [|lia]. simpl.
    destruct (invalid r) eqn:E; simpl.
    + rewrite list_lookup_insert_eq; [done|]. rewrite merge_length. by apply lookup_lt_Some in Hr.
    + rewrite merge_lookup, Hr. simpl. by rewrite E, andb_false_r.
  - assert (merge u first (q + 1) regs !! j = merge u first q regs !! j) as ->.
    { rewrite !merge_lookup. destruct (regs !! j) as [r'|]; simpl; [|done]. f_equal.
      destruct (Z.ltb_spec (Z.of_nat j) (q + 1)), (Z.ltb_spec (Z.of_nat j) q); simpl; (done || lia). }
    destruct (invalid r); [|done]. by rewrite list_lookup_insert_ne.
Qed.

Lemma merge_at u first q regs r :
  0 <= q -> regs !! Z.to_nat q = Some r -> merge u first q regs !! Z.to_nat q = Some r.
Proof.
  intros Hq Hr. rewrite merge_lookup, Hr. simpl. rewrite Z2Nat.id by lia.
  by destruct (Z.ltb_spec q q); [lia|].
Qed.

(** ** The registers at a stack map *)

(** The most recent location of a register in the stack maps below [n]. *)
Fixpoint recent (us : nat -> change) (n : nat) (r : Z) : option DexRegisterLocation :=
  match n with
  | O => None
  | S n => match us n r with Some loc => Some loc | None => recent us n r end
  end.

(** The missing registers get their most recent location. *)
Definition fill (us : nat -> change) (n : nat) (first : Z) (regs : list DexRegisterLocation) :
    list DexRegisterLocation :=
  imap (fun j r => if invalid r then default r (recent us n (first + Z.of_nat j)) else r) regs.

Lemma fill_lookup us n first regs j :
  fill us n first regs !! j =
    (fun r => if invalid r then default r (recent us n (first + Z.of_nat j)) else r) <$> regs !! j.
Proof. apply list_lookup_imap. Qed.

Lemma fill_length us n first regs : length (fill us n first regs) = length regs.
Proof. apply length_imap. Qed.

Lemma fill_0 us first regs : fill us 0 first regs = regs.
Proof.
  apply list_eq. intros j. rewrite fill_lookup. destruct (regs !! j) as [r|]; simpl; [|done].
  by destruct (invalid r).
Qed.

Lemma fill_found us n first regs : inv_count regs = 0 -> fill us n first regs = regs.
Proof.
  intros H0. apply list_eq. intros j. rewrite fill_lookup. destruct (regs !! j) as [r|] eqn:E; simpl; [|done].
  by rewrite (inv_count_zero _ _ _ H0 E).
Qed.

Lemma fill_S us n first regs :
  (forall r loc, us n r = Some loc -> invalid loc = false) ->
  fill us (S n) first regs = fill us n first (merge (us n) first (Z.of_nat (length regs)) regs).
Proof.
  intros Hv. apply list_eq. intros j. rewrite !fill_lookup, merge_lookup.
  destruct (regs !! j) as [r|] eqn:E; simpl; [|done]. apply lookup_lt_Some in E. f_equal.
  destruct (Z.ltb_spec (Z.of_nat j) (Z.of_nat (length regs))); [|lia]. simpl.
  destruct (invalid r) eqn:Ei; [|by rewrite Ei].
  destruct (us n (first + Z.of_nat j)) as [loc|] eqn:Eu; simpl; [by rewrite (Hv _ _ Eu)|by rewrite Ei].
Qed.

(** A register is found within the search distance, or the search reaches the first stack map. *)
Definition covered (us : nat -> change) (i : nat) (r : Z) : Prop :=
  exists k, (k <= i)%nat /\ Z.of_nat i - Z.of_nat k <= kMaxDexRegisterMapSearchDistance /\
    (us k r <> None \/ k = 0%nat).

(** ** Reading one stack map *)

(** A row of the catalogue stands for a location. *)
Definition location_at (catalog : list Entry) (index : Z) (loc : DexRegisterLocation) : Prop :=
  (index = kNoValue /\ loc = LocationNone) \/
  exists i packed, index = Z.of_nat i /\ index <> kNoValue /\
    catalog !! i = Some [u32 (kind_ loc); packed] /\
    PackValue (kind_ loc) (u32 (value_ loc)) = Some packed /\
    - 2 ^ 31 <= kind_ loc < 2 ^ 31 /\ - 2 ^ 31 <= value_ loc < 2 ^ 31.

(** The row of a stack map stores the changes [u]. *)
Record row_delta (t : Tables) (row : Entry) (u : change) : Prop := {
  rd_range : forall r loc, u r = Some loc -> 0 <= r /\ invalid loc = false;
  rd_cases :
    ((forall r, u r = None) /\ row !! StackMap.kDexRegisterMaskIndex = Some kNoValue) \/
    exists k mask p,
      row !! StackMap.kDexRegisterMaskIndex = Some (Z.of_nat k) /\ Z.of_nat k <> kNoValue /\
      bitmap_rows_ (t_dex_register_masks t) !! k = Some mask /\
      (forall r, 0 <= r -> mbit (bytes_memory mask) r = changed u r) /\
      row !! StackMap.kDexRegisterMapIndex = Some (Z.of_nat p) /\ Z.of_nat p < 2 ^ 24 /\
      forall r loc, u r = Some loc -> exists index,
        rows_ (t_dex_register_maps t) !! Z.to_nat (Z.of_nat p + rank u r) = Some [index] /\
        location_at (rows_ (t_dex_register_catalog t)) index loc }.

Lemma sN32_uN32 x : - 2 ^ 31 <= x < 2 ^ 31 -> s32 (u32 x) = x.
Proof. intros Hx. rewrite sN_uN by lia. apply sN_small; [lia|]. unfold is_s. simpl. lia. Qed.

Lemma UnpackValue_PackValue kind value packed :
  is_u 32 value -> PackValue kind value = Some packed -> UnpackValue kind packed = value.
Proof.
  intros Hv. unfold PackValue, UnpackValue, kFrameSlotSize. destruct (kind =? Kind.kInStack); [|by intros [= ->]].
  destruct (IsAligned 4 value) eqn:E; [|done]. intros [= <-].
  change 4 with (2 ^ 2) in E. rewrite IsAligned_mod in E by lia. change (2 ^ 2) with 4 in E.
  unfold is_u in Hv. rewrite (uN_small 32 (value / 4)) by (unfold is_u; Z.div_mod_to_equations; lia).
  rewrite uN_small by (unfold is_u; Z.div_mod_to_equations; lia). Z.div_mod_to_equations. lia.
Qed.

Section reader.
Context (m : memory) (ci : CodeInfo) (t : Tables).
Hypothesis Hm : bytes_ok m.
Hypothesis Hsh : shows_tables m ci t.
Hypothesis Hmasks : bitmaps_ok (t_dex_register_masks t).
Hypothesis Hmax : max_num_bits_ (t_dex_register_masks t) < 2 ^ 16.

Lemma StackMapGet_row i row c v :
  rows_ (t_stack_maps t) !! i = Some row -> row !! c = Some v ->
  StackMapGet m ci (Z.of_nat i) c = Some v.
Proof using Hsh. intros. by eapply sh_get; [apply Hsh|..]. Qed.

Lemma catalog_entry index loc :
  location_at (rows_ (t_dex_register_catalog t)) index loc -> GetDexRegisterCatalogEntry m ci index = Some loc.
Proof using Hsh.
  intros [[-> ->]|(i & packed & -> & Hne & Hi & Hp & Hk & Hv)]; [done|].
  unfold GetDexRegisterCatalogEntry. destruct (Z.eqb_spec (Z.of_nat i) kNoValue); [done|].
  unfold GetLocation. destruct (sh_dex_register_catalog _ _ _ Hsh) as [_ Hg].
  rewrite (Hg i _ 0%nat (u32 (kind_ loc)) Hi eq_refl), (Hg i _ 1%nat packed Hi eq_refl). simpl.
  rewrite sN32_uN32 by done.
  rewrite (UnpackValue_PackValue (kind_ loc) (u32 (value_ loc))) by (done || (apply uN_is_u; lia)).
  rewrite sN32_uN32 by done. by destruct loc.
Qed.

Section one.
Context (u : change) (first p : Z).
Hypothesis Hrange : forall r loc, u r = Some loc -> 0 <= r /\ invalid loc = false.
Hypothesis Hp : 0 <= p < 2 ^ 24.
Hypothesis Hfirst : 0 <= first.
Hypothesis Hmap : forall r loc, u r = Some loc -> exists index,
  rows_ (t_dex_register_maps t) !! Z.to_nat (p + rank u r) = Some [index] /\ location_at (rows_ (t_dex_register_catalog t)) index loc.

(** One set bit. *)
Lemma decode_entry r loc :
  u r = Some loc -> exists index,
    TableGet 1 m (dex_register_maps_ ci) (p + rank u r) 0 = Some index /\
    GetDexRegisterCatalogEntry m ci index = Some loc.
Proof using Hsh Hmap Hrange Hp.
  intros Hu. destruct (Hmap r loc Hu) as (index & Hi & Hl). exists index. destruct (Hrange r loc Hu) as [Hr _].
  split; [|by apply catalog_entry]. destruct (sh_dex_register_maps _ _ _ Hsh) as [_ Hg].
  specialize (Hg _ _ 0%nat index Hi eq_refl). pose proof (rank_bound u r Hr).
  rewrite Z2Nat.id in Hg by lia. done.
Qed.

(** Registers that do not change. *)
Lemma skip_unchanged reg b c regs :
  0 <= reg -> 0 <= b <= c -> (forall i, b <= i < c -> u (first + reg + i) = None) ->
  rank u (first + reg + c) = rank u (first + reg + b) /\
  merge u first (reg + c) regs = merge u first (reg + b) regs.
Proof using Hfirst.
  intros Hreg Hbc Hu. split.
  - apply rank_none; [lia|]. intros r Hr. replace r with (first + reg + (r - first - reg)) by lia. apply Hu. lia.
  - apply merge_none; [lia|]. intros i Hi _. rewrite <- (Hu (i - reg)) by lia. f_equal. lia.
Qed.

(** The register of the lowest set bit, if it is missing. *)
Lemma decode_one r regs r0 loc :
  0 <= r -> regs !! Z.to_nat r = Some r0 -> Z.of_nat (length regs) < 2 ^ 31 -> u (first + r) = Some loc ->
  let merged := merge u first r regs in
  (if kind_ r0 =? Kind.kInvalid
   then index ← TableGet 1 m (dex_register_maps_ ci) (p + rank u (first + r)) 0;
        entry ← GetDexRegisterCatalogEntry m ci index;
        Some (u32 (inv_count merged - 1), <[Z.to_nat r := entry]> merged)
   else Some (inv_count merged, merged)) =
  Some (inv_count (merge u first (r + 1) regs), merge u first (r + 1) regs).
Proof using Hsh Hmap Hrange Hp.
  intros Hr Hr0 Hlen Hu merged. destruct (decode_entry _ _ Hu) as (index & Hidx & Hent).
  destruct (Hrange _ _ Hu) as [_ Hval]. rewrite (merge_some u first r regs r0 loc) by done. fold merged (invalid r0).
  destruct (invalid r0) eqn:Ei; [|done]. rewrite Hidx. simpl. rewrite Hent. simpl. do 2 f_equal.
  assert (merged !! Z.to_nat r = Some r0) as Hat by (apply merge_at; (done || lia)).
  rewrite (inv_count_insert _ _ r0) by done. pose proof (inv_count_pos _ _ _ Hat Ei).
  pose proof (inv_count_bound merged). assert (length merged = length regs) by apply merge_length.
  apply uN_small. unfold is_u. lia.
Qed.

(** The bits [b, w) of a chunk that are set: those of changed registers. *)
Definition chunk_bits (reg b w bits : Z) : Prop :=
  forall i, 0 <= i -> Z.testbit bits i = (b <=? i) && (i <? w) && changed u (first + reg + i).

Lemma chunk_clear reg b w bits c :
  chunk_bits reg b w bits -> 0 <= b -> c <= w -> (forall i, b <= i < c -> Z.testbit bits i = false) ->
  forall i, b <= i < c -> u (first + reg + i) = None.
Proof using.
  intros Hbits Hb Hc H0 i Hi. specialize (Hbits i ltac:(lia)). rewrite H0 in Hbits by done.
  unfold changed in Hbits. destruct (u (first + reg + i)); [|done].
  destruct (Z.leb_spec b i), (Z.ltb_spec i w); simpl in Hbits; (done || lia).
Qed.

Lemma chunk_next reg b w bits c :
  chunk_bits reg b w bits -> 0 <= b <= c -> c < w -> (forall i, b <= i < c -> u (first + reg + i) = None) ->
  changed u (first + reg + c) = true -> chunk_bits reg (c + 1) w (bits .^ (1 ≪ c)).
Proof using.
  intros Hbits Hbc Hcw Hgap Huc i Hi. rewrite Z.lxor_spec, Z.shiftl_1_l, Z.pow2_bits_eqb, Hbits by lia.
  destruct (Z.eqb_spec c i) as [<-|Hci].
  - rewrite Huc. repeat case_ltb; simpl; (done || lia).
  - rewrite xorb_false_r. destruct (Z.leb_spec (c + 1) i), (Z.leb_spec b i); simpl; try (done || lia).
    destruct (Z.ltb_spec i w); [|done]. unfold changed. by rewrite Hgap by lia.
Qed.

Lemma decode_bits_spec fuel reg b w bits regs :
  0 <= reg -> 0 <= b <= w -> w <= 32 -> 0 <= bits ->
  reg + w <= Z.of_nat (length regs) < 2 ^ 31 -> first + reg + w < 2 ^ 17 -> w - b <= Z.of_nat fuel ->
  chunk_bits reg b w bits ->
  decode_bits m ci fuel reg bits (p + rank u (first + reg + b))
      (inv_count (merge u first (reg + b) regs), merge u first (reg + b) regs) =
    Some (p + rank u (first + reg + w),
      (inv_count (merge u first (reg + w) regs), merge u first (reg + w) regs)).
Proof using Hsh Hmap Hrange Hp Hfirst.
  intros Hreg. revert b bits. induction fuel as [|fuel IH]; intros b bits Hb Hw H0 Hlen Hsmall Hf Hbits.
  { replace w with b in * by lia. cbn [decode_bits]. destruct (Z.eqb_spec bits 0) as [->|Hne]; [done|].
    destruct (CTZ_spec bits) as (Hc0 & Hc1 & _); [lia|]. rewrite Hbits in Hc1 by done.
    destruct (Z.leb_spec b (CTZ bits)), (Z.ltb_spec (CTZ bits) b); simpl in Hc1; (done || lia). }
  cbn [decode_bits]. destruct (Z.eqb_spec bits 0) as [->|Hne].
  { destruct (skip_unchanged reg b w regs) as [-> ->]; try done. eapply chunk_clear; [done|lia|lia|].
    intros. by rewrite Z.testbit_0_l. }
  destruct (CTZ_spec bits) as (Hc0 & Hc1 & Hc2); [lia|]. set (c := CTZ bits) in *.
  pose proof (Hbits c ltac:(lia)) as Hbc. rewrite Hc1 in Hbc. symmetry in Hbc.
  apply andb_true_iff in Hbc as [Hbc Huc]. apply andb_true_iff in Hbc as [Hbc1 Hbc2].
  apply Z.leb_le in Hbc1. apply Z.ltb_lt in Hbc2.
  pose proof (chunk_clear reg b w bits c Hbits ltac:(lia) ltac:(lia) (fun i Hi => Hc2 i ltac:(lia))) as Hgap.
  destruct (skip_unchanged reg b c regs) as [<- <-]; try (done || lia).
  destruct (lookup_lt_is_Some_2 regs (Z.to_nat (reg + c))) as [r0 Hr0]; [lia|].
  rewrite (merge_at u first (reg + c) regs r0) by (done || lia). simpl mbind.
  destruct (u (first + reg + c)) as [loc|] eqn:Eu; [|unfold changed in Huc; by rewrite Eu in Huc].
  pose proof (decode_one (reg + c) regs r0 loc ltac:(lia) Hr0 ltac:(lia) ltac:(by rewrite Z.add_assoc)) as Eo.
  rewrite Z.add_assoc, <- (Z.add_assoc reg c 1) in Eo. rewrite Eo. simpl mbind.
  pose proof (rank_bound u (first + reg + c) ltac:(lia)) as Hrb.
  pose proof (rank_some u (first + reg + c) ltac:(lia) Huc) as Ers.
  rewrite (uN_small 32) by (unfold is_u; lia).
  replace (p + rank u (first + reg + c) + 1) with (p + rank u (first + reg + (c + 1)))
    by (rewrite Z.add_assoc, Ers; lia).
  apply IH; try lia; [|apply (chunk_next reg b); (done || lia)].
  apply Z.lxor_nonneg. split; [intros _|lia]. apply Z.shiftl_nonneg. lia.
Qed.

(** The chunks of the mask from [reg] on. *)
Lemma decode_chunks_spec fuel mask end_ reg regs :
  wf_region mask -> (forall i, 0 <= i < bit_size_ mask -> rbit m mask i = changed u (first + i)) ->
  0 <= reg -> 0 <= end_ <= bit_size_ mask -> end_ <= Z.of_nat (length regs) < 2 ^ 31 ->
  first + end_ < 2 ^ 17 -> end_ - reg < 32 * Z.of_nat fuel ->
  decode_chunks m ci fuel mask end_ reg (p + rank u (first + Z.min reg end_))
      (inv_count (merge u first (Z.min reg end_) regs), merge u first (Z.min reg end_) regs) =
    Some (p + rank u (first + end_), (inv_count (merge u first end_ regs), merge u first end_ regs)).
Proof using Hm Hsh Hmap Hrange Hp Hfirst.
  intros Hwf Hbits Hreg Hend Hlen Hsmall. revert reg Hreg.
  induction fuel as [|fuel IH]; intros reg Hreg Hf; cbn [decode_chunks];
    (destruct (Z.ltb_spec reg end_); [|by rewrite Z.min_r by lia]); [lia|].
  rewrite (Z.min_l reg end_) by lia. unfold kNumBits. set (w := Z.min (end_ - reg) 32).
  assert (is_u w (LoadBits 64 m mask reg w)) as Hu
    by (apply (LoadBits_is_u 64); (done || lia || (unfold width_ok; lia))).
  assert (2 ^ w <= 2 ^ 32) by (apply Z.pow_le_mono_r; lia).
  rewrite (uN_small 32 (LoadBits 64 m mask reg w)) by (unfold is_u in *; lia).
  pose proof (decode_bits_spec 32 reg 0 w (LoadBits 64 m mask reg w) regs) as H'.
  rewrite !Z.add_0_r in H'. rewrite H'; try lia.
  - simpl mbind. rewrite (uN_small 32) by (unfold is_u; lia).
    replace (reg + w) with (Z.min (reg + 32) end_) by lia.
    replace (first + reg + w) with (first + Z.min (reg + 32) end_) by lia. apply IH; lia.
  - unfold is_u in Hu. lia.
  - intros i Hi. rewrite LoadBits_testbit by (done || lia || (unfold width_ok; lia)).
    assert ((0 <=? i) = true) as -> by lia. simpl. destruct (Z.ltb_spec i w); [|done]. simpl.
    rewrite Hbits by lia. f_equal. lia.
Qed.
End one.

(** The mask of a stack map with changes. *)
Lemma mask_region k mask u :
  bitmap_rows_ (t_dex_register_masks t) !! k = Some mask ->
  (forall r, 0 <= r -> mbit (bytes_memory mask) r = changed u r) ->
  exists reg, TableRegion 1 (dex_register_masks_ ci) (Z.of_nat k) 0 = Some reg /\ wf_region reg /\
    bit_size_ reg = max_num_bits_ (t_dex_register_masks t) /\
    (forall i, 0 <= i < bit_size_ reg -> rbit m reg i = changed u i) /\
    forall i, bit_size_ reg <= i -> changed u i = false.
Proof using Hsh Hmasks.
  intros Hk Hb. destruct (shb_get _ _ _ (sh_dex_register_masks _ _ _ Hsh) k mask Hk) as (reg & E & Hwf & Hsz & Hbit).
  exists reg. split_and!; try done.
  - intros i Hi. rewrite Hbit by lia. apply Hb. lia.
  - intros i Hi. destruct Hmasks as [Hr _ H0]. eapply Forall_lookup_1 in Hr as (n & (_ & _ & _ & _ & Hn) & Hle); [|done].
    rewrite <- Hb by lia. apply Hn. lia.
Qed.

Lemma decode_stack_map_spec i row u first regs :
  rows_ (t_stack_maps t) !! i = Some row -> row_delta t row u ->
  0 <= first -> Z.of_nat (length regs) < 2 ^ 31 ->
  let regs' := merge u first (Z.of_nat (length regs)) regs in
  decode_stack_map m ci (Z.of_nat i) first (inv_count regs, regs) = Some (inv_count regs', regs').
Proof using Hm Hsh Hmasks Hmax.
  intros Hrow [Hrange Hcases] Hfirst Hlen regs'. unfold decode_stack_map.
  destruct Hcases as [[Hnone Hidx]|(k & mask & p & Hidx & Hk & Hmask & Hbits & Hmi & Hp & Hmap)].
  { rewrite (StackMapGet_row i row _ _ Hrow Hidx). simpl.
    subst regs'. rewrite (merge_none u first 0) by (intros; (done || lia)). by rewrite merge_0. }
  rewrite (StackMapGet_row i row _ _ Hrow Hidx). simpl mbind.
  destruct (Z.eqb_spec (Z.of_nat k) kNoValue); [done|].
  destruct (mask_region k mask u Hmask Hbits) as (reg & Ereg & Hwf & Hsz & Hin & Hout).
  rewrite Ereg. simpl mbind. unfold size_in_bits.
  destruct (Z.leb_spec (bit_size_ reg) first) as [Hle|Hgt].
  { subst regs'. rewrite (merge_none u first 0), merge_0; [done|lia|].
    intros j Hj _. specialize (Hout (first + j) ltac:(lia)). unfold changed in Hout.
    by destruct (u (first + j)). }
  rewrite (StackMapGet_row i row _ _ Hrow Hmi). simpl mbind.
  destruct (Z.eqb_spec (Z.of_nat p) kNoValue) as [E|_]; [unfold kNoValue in E; lia|].
  destruct (Subregion_spec reg 0 first Hwf) as [Hwf0 Ha0]; [lia..|].
  destruct (Subregion_spec reg first (bit_size_ reg - first) Hwf) as [Hwf1 Ha1]; [lia..|].
  unfold PopCountRange. rewrite PopCount_spec by done. cbn [bit_size_ Subregion].
  assert (count_bits (Z.to_nat first) (rbit m (Subregion reg 0 first)) = rank u first) as ->.
  { apply count_bits_ext. intros j Hj. rewrite <- Hin by lia. unfold rbit. rewrite Ha0. f_equal. lia. }
  pose proof (rank_bound u first Hfirst).
  rewrite (uN_small 32 (Z.of_nat p + _)) by (unfold is_u; lia).
  rewrite !(uN_small 32) by (unfold is_u; lia). unfold kNumBits.
  set (e := Z.min _ _). set (mask1 := Subregion reg first _) in *.
  change (length (inv_count regs, regs).2) with (length regs) in e.
  pose proof (decode_chunks_spec u first (Z.of_nat p) Hrange ltac:(lia) Hfirst Hmap
    (Z.to_nat (e / 32 + 1)) mask1 e 0 regs Hwf1) as Hdc.
  rewrite (Z.min_l 0 e), Z.add_0_r, merge_0 in Hdc by lia. rewrite Hdc; try lia.
  - simpl. subst regs'. rewrite (merge_none u first e (Z.of_nat (length regs))); [done|lia|].
    intros j Hj Hjl. specialize (Hout (first + j) ltac:(lia)). unfold changed in Hout.
    by destruct (u (first + j)).
  - intros j Hj. change (bit_size_ mask1) with (bit_size_ reg - first) in Hj.
    rewrite <- Hin by lia. unfold rbit. rewrite Ha1. f_equal. lia.
  - change (bit_size_ mask1) with (bit_size_ reg - first). lia.
  - assert (0 <= e / 32) by (apply Z.div_pos; lia). rewrite Z2Nat.id by lia. Z.div_mod_to_equations. lia.
Qed.

(** *** The backward scan *)

Section scan.
Context (us : nat -> change) (first : Z).
Hypothesis Hus : forall i row, rows_ (t_stack_maps t) !! i = Some row -> row_delta t row (us i).
Hypothesis Hfirst : 0 <= first.

Lemma decode_scan_spec n i regs :
  (n <= S i)%nat -> (i < length (rows_ (t_stack_maps t)))%nat -> Z.of_nat (length regs) < 2 ^ 31 ->
  (forall j r, regs !! j = Some r -> covered us i (first + Z.of_nat j)) ->
  (forall j r k, regs !! j = Some r -> invalid r = true -> (n <= k <= i)%nat ->
     us k (first + Z.of_nat j) = None) ->
  decode_scan m ci n (Z.of_nat i) first (inv_count regs, regs) =
    Some (inv_count (fill us n first regs), fill us n first regs).
Proof using Hm Hsh Hmasks Hmax Hus Hfirst.
  revert regs. induction n as [|n IH]; intros regs Hn Hi Hlen Hcov Hinv; cbn [decode_scan fst].
  { by rewrite fill_0. }
  destruct (Z.eqb_spec (inv_count regs) 0) as [E|E]; [by rewrite fill_found|].
  destruct (lookup_lt_is_Some_2 (rows_ (t_stack_maps t)) n) as [row Hrow]; [lia|].
  assert (Z.of_nat i - Z.of_nat n <= kMaxDexRegisterMapSearchDistance) as Hd.
  { destruct (decide (Exists (fun r => invalid r = true) regs)) as [Hex|Hnex].
    - apply Exists_exists in Hex as (r & Hin & Hr). apply list_elem_of_lookup in Hin as [j Hj].
      destruct (Hcov _ _ Hj) as (k & Hk & Hkd & Hor). destruct (decide (S n <= k)%nat) as [Hnk|Hnk].
      + destruct Hor as [Hor|Hor]; [|lia]. exfalso. apply Hor. eapply Hinv; (done || lia).
      + lia.
    - exfalso. apply E. clear -Hnex. induction regs as [|r regs IH]; [done|]. simpl.
      destruct (invalid r) eqn:Er; [exfalso; apply Hnex; by left|].
      rewrite IH; [done|]. intros H. apply Hnex. by right. }
  apply Z.leb_le in Hd. rewrite Hd. pose proof (Hus n row Hrow) as Hdelta.
  rewrite (decode_stack_map_spec n row (us n) first regs) by done. simpl mbind.
  rewrite IH; [|lia|done|by rewrite merge_length| |].
  - by rewrite fill_S by (intros r loc Hu; by apply (rd_range _ _ _ Hdelta) in Hu as [_ ?]).
  - intros j r Hj. rewrite merge_lookup in Hj. destruct (regs !! j) as [r'|] eqn:Ej; [|done]. by eapply Hcov.
  - intros j r k Hj Hr Hk. rewrite merge_lookup in Hj. destruct (regs !! j) as [r'|] eqn:Ej; [|done].
    simpl in Hj. injection Hj as Hj. apply lookup_lt_Some in Ej as Hjl.
    destruct (Z.ltb_spec (Z.of_nat j) (Z.of_nat (length regs))); [|lia]. simpl in Hj.
    destruct (invalid r') eqn:Er'; [|congruence].
    destruct (decide (k = n)) as [->|]; [|eapply Hinv; (done || lia)].
    destruct (us n (first + Z.of_nat j)) as [loc|] eqn:Eu; [|done]. simpl in Hj. subst r.
    apply (rd_range _ _ _ Hdelta) in Eu as [_ ?]. congruence.
Qed.

(** The locations at stack map [i] of [count] registers. *)
Definition locations_at (i : nat) (count : nat) : list DexRegisterLocation :=
  map (fun j => default LocationNone (recent us (S i) (first + Z.of_nat j))) (seq 0 count).

Lemma recent_valid n r loc :
  (n <= length (rows_ (t_stack_maps t)))%nat -> recent us n r = Some loc -> invalid loc = false.
Proof using Hus.
  intros Hn. induction n as [|n IH]; [done|]. simpl. destruct (us n r) as [loc'|] eqn:Eu; [|apply IH; lia].
  intros [= ->]. destruct (lookup_lt_is_Some_2 (rows_ (t_stack_maps t)) n) as [row Hrow]; [lia|].
  by apply (rd_range _ _ _ (Hus n row Hrow)) in Eu as [_ ?].
Qed.

Lemma fill_locations i count :
  (i < length (rows_ (t_stack_maps t)))%nat ->
  map (fun loc => if kind_ loc =? Kind.kInvalid then LocationNone else loc)
    (fill us (S i) first (replicate count LocationInvalid)) = locations_at i count.
Proof using Hus.
  intros Hi. apply list_eq. intros j. unfold locations_at. rewrite !list_lookup_fmap, fill_lookup.
  destruct (decide (j < count)%nat) as [Hj|Hj].
  - rewrite lookup_replicate_2, lookup_seq_lt by done. cbn [fmap option_fmap option_map Nat.add]. f_equal.
    change (invalid LocationInvalid) with true. cbv iota.
    destruct (recent us (S i) (first + Z.of_nat j)) as [loc|] eqn:Er; [|done]. cbn [default from_option id].
    apply recent_valid in Er; [|lia]. unfold invalid in Er. by rewrite Er.
  - rewrite !lookup_ge_None_2; [done|rewrite length_seq; lia|rewrite length_replicate; lia].
Qed.

Lemma DecodeDexRegisterMap_spec i count :
  (i < length (rows_ (t_stack_maps t)))%nat -> Z.of_nat i < 2 ^ 31 -> Z.of_nat count < 2 ^ 31 ->
  (forall j, (j < count)%nat -> covered us i (first + Z.of_nat j)) ->
  DecodeDexRegisterMap m ci (Z.of_nat i) first (replicate count LocationInvalid) =
    Some (locations_at i count).
Proof using Hm Hsh Hmasks Hmax Hus Hfirst.
  intros Hi Hi31 Hc Hcov. unfold DecodeDexRegisterMap.
  assert (Z.to_nat (s32 (Z.of_nat i) + 1) = S i) as ->.
  { rewrite sN_small by (unfold is_s; simpl; lia). lia. }
  rewrite length_replicate, (uN_small 32) by (unfold is_u; lia).
  rewrite <- (inv_count_replicate count) at 1.
  rewrite decode_scan_spec; [|lia|done|by rewrite length_replicate| |].
  2:{ intros j r Hj. apply lookup_replicate in Hj as [_ Hj]. by apply Hcov. }
  2:{ intros j r k _ _ Hk. lia. }
  simpl mbind. set (regs := fill _ _ _ _).
  assert (map (fun loc => if kind_ loc =? Kind.kInvalid then LocationNone else loc) regs =
    locations_at i count) as Hmap by (by apply fill_locations).
  destruct (Z.eqb_spec (inv_count regs) 0) as [E|E]; cbn [negb]; [|by rewrite Hmap].
  rewrite <- Hmap. f_equal. symmetry. rewrite <- (map_id regs) at 2. apply map_ext_in. intros loc Hin.
  apply list_elem_of_In, list_elem_of_lookup in Hin as [j Hj].
  pose proof (inv_count_zero _ _ _ E Hj) as Hv. unfold invalid in Hv. by rewrite Hv.
Qed.
End scan.

(** *** Inline infos *)

(** The rows of the inline infos [infos], from row [p] on, with their marks. *)
Record inline_rows (p : nat) (infos : list Entry) : Prop := {
  ir_rows : forall j info, infos !! j = Some info -> rows_ (t_inline_infos t) !! (p + j)%nat = Some info;
  ir_last : forall j info, infos !! j = Some info ->
    info !! InlineInfo.kIsLast =
      Some (if (S j =? length infos)%nat then InlineInfo.kLast else InlineInfo.kMore) }.

(** The inline infos of the row of a stack map. *)
Definition row_inlines (row : Entry) (infos : list Entry) : Prop :=
  (infos = [] /\ row !! StackMap.kInlineInfoIndex = Some kNoValue) \/
  (infos <> [] /\ exists p, row !! StackMap.kInlineInfoIndex = Some (Z.of_nat p) /\
     Z.of_nat p + Z.of_nat (length infos) < 2 ^ 24 /\ inline_rows p infos).

Lemma InlineInfoGet_row i row c v :
  rows_ (t_inline_infos t) !! i = Some row -> row !! c = Some v ->
  InlineInfoGet m ci (Z.of_nat i) c = Some v.
Proof using Hsh. intros. by eapply sh_get; [apply Hsh|..]. Qed.

Lemma inline_end_spec p infos :
  inline_rows p infos -> Z.of_nat p + Z.of_nat (length infos) < 2 ^ 24 ->
  forall fuel j, (j < length infos)%nat -> (length infos - j <= fuel)%nat ->
    inline_end m ci fuel (Z.of_nat (p + j)) = Some (Z.of_nat (p + length infos)).
Proof using Hsh.
  intros [Hr Hl] Hb fuel. induction fuel as [|fuel IH]; intros j Hj Hf; [lia|].
  destruct (lookup_lt_is_Some_2 infos j Hj) as [info Hi]. cbn [inline_end].
  rewrite (InlineInfoGet_row (p + j) info _ _ (Hr _ _ Hi) (Hl _ _ Hi)).
  cbn [mbind option_bind].
  rewrite (uN_small 32) by (unfold is_u; lia).
  replace (Z.of_nat (p + j) + 1) with (Z.of_nat (p + S j)) by lia.
  destruct (Nat.eqb_spec (S j) (length infos)) as [E|E].
  - change (InlineInfo.kLast =? InlineInfo.kMore) with false. by rewrite E.
  - change (InlineInfo.kMore =? InlineInfo.kMore) with true. apply IH; lia.
Qed.

Lemma GetInlineInfosOf_spec i row infos :
  rows_ (t_stack_maps t) !! i = Some row -> row_inlines row infos ->
  exists p, GetInlineInfosOf m ci (Z.of_nat i) = Some (Z.of_nat p, Z.of_nat (p + length infos)) /\
    inline_rows p infos /\
    (infos <> [] -> row !! StackMap.kInlineInfoIndex = Some (Z.of_nat p) /\
       Z.of_nat p + Z.of_nat (length infos) < 2 ^ 24).
Proof using Hsh.
  intros Hrow [[-> Hidx]|(Hne & p & Hidx & Hb & Hir)]; unfold GetInlineInfosOf;
    rewrite (StackMapGet_row i row _ _ Hrow Hidx); simpl mbind.
  { exists 0%nat. split; [done|]. split; [|done]. split; intros j info Hj; by rewrite lookup_nil in Hj. }
  exists p. split; [|done]. destruct (Z.eqb_spec (Z.of_nat p) kNoValue) as [E|_]; [unfold kNoValue in E; lia|].
  cbn [negb]. destruct infos as [|info infos]; [done|].
  assert (NumRows (inline_infos_ ci) = Z.of_nat (length (rows_ (t_inline_infos t)))) as En
    by apply (sh_rows _ _ _ _ (sh_inline_infos _ _ _ Hsh)).
  pose proof (inline_end_spec p (info :: infos) Hir Hb (Z.to_nat (NumRows (inline_infos_ ci))) 0) as He.
  rewrite Nat.add_0_r in He. rewrite He; [done|simpl; lia|].
  destruct (lookup_lt_is_Some_2 (info :: infos) (length infos)) as [x Hx]; [simpl; lia|].
  apply (ir_rows _ _ Hir), lookup_lt_Some in Hx. simpl length in *. lia.
Qed.

(** *** Searching *)

(** The first row below [n] that satisfies [P], or the invalid row. *)
Definition first_row (P : nat -> Prop) (n : nat) (res : Z) : Prop :=
  (exists i, (i < n)%nat /\ P i /\ res = Z.of_nat i /\ forall j, (j < i)%nat -> ~ P j) \/
  (res = GetInvalidRow /\ forall j, (j < n)%nat -> ~ P j).

Definition last_row (P : nat -> Prop) (n : nat) (res : Z) : Prop :=
  (exists i, (i < n)%nat /\ P i /\ res = Z.of_nat i /\ forall j, (i < j < n)%nat -> ~ P j) \/
  (res = GetInvalidRow /\ forall j, (j < n)%nat -> ~ P j).

Lemma first_stack_map_spec (test : Z -> option bool) (P : nat -> Prop) i n k :
  (k + n = i)%nat ->
  (forall j, (j < i)%nat -> exists b : bool, test (Z.of_nat j) = Some b /\ (b = true <-> P j)) ->
  (forall j, (j < k)%nat -> ~ P j) ->
  exists res, first_stack_map test n (Z.of_nat k) = Some res /\ first_row P i res.
Proof.
  intros Hk Ht. revert k Hk. induction n as [|n IH]; intros k Hk Hf; cbn [first_stack_map].
  - eexists. split; [done|]. right. split; [done|]. intros j Hj. apply Hf. lia.
  - destruct (Ht k ltac:(lia)) as (b & E & Hb). rewrite E. simpl. destruct b.
    + eexists. split; [done|]. left. exists k. split_and!; try (done || lia). by apply Hb.
    + replace (Z.of_nat k + 1) with (Z.of_nat (S k)) by lia. apply IH; [lia|].
      intros j Hj. destruct (decide (j = k)) as [->|]; [|apply Hf; lia]. intros HP. by apply Hb in HP.
Qed.

(** The values of a column. *)
Definition sm_column (i c : nat) : Z :=
  match rows_ (t_stack_maps t) !! i with Some row => column row c | None => 0 end.

Hypothesis Hrows : wf_rows 8 (rows_ (t_stack_maps t)).

Lemma StackMapGet_column i c :
  (i < length (rows_ (t_stack_maps t)))%nat -> (c < 8)%nat ->
  StackMapGet m ci (Z.of_nat i) c = Some (sm_column i c).
Proof using Hsh Hrows.
  intros Hi Hc. destruct (lookup_lt_is_Some_2 _ _ Hi) as [row Hrow]. unfold sm_column, column. rewrite Hrow.
  eapply Forall_lookup_1 in Hrows as [Hl _]; [|done].
  destruct (lookup_lt_is_Some_2 row c) as [v Hv]; [lia|]. rewrite Hv. by eapply StackMapGet_row.
Qed.

Lemma number_of_stack_maps : GetNumberOfStackMaps ci = Z.of_nat (length (rows_ (t_stack_maps t))).
Proof using Hsh. apply (sh_rows _ _ _ _ (sh_stack_maps _ _ _ Hsh)). Qed.

(** Testing the dex PC and the kind of a row. *)
Lemma dex_pc_test dex_pc (f : Z -> bool) (P : Z -> Prop) j :
  (forall k, f k = true <-> P k) -> (j < length (rows_ (t_stack_maps t)))%nat ->
  exists b : bool,
    (pc ← StackMapGet m ci (Z.of_nat j) StackMap.kDexPc;
     if pc =? dex_pc then kind ← StackMapGet m ci (Z.of_nat j) StackMap.kKind; Some (f kind)
     else Some false) = Some b /\
    (b = true <-> sm_column j StackMap.kDexPc = dex_pc /\ P (sm_column j StackMap.kKind)).
Proof using Hsh Hrows.
  intros Hf Hj. rewrite !StackMapGet_column by (done || (unfold StackMap.kDexPc, StackMap.kKind; lia)).
  simpl mbind. destruct (Z.eqb_spec (sm_column j StackMap.kDexPc) dex_pc) as [E|E].
  - eexists. split; [done|]. rewrite Hf. tauto.
  - exists false. split; [done|]. split; [done|tauto].
Qed.

Lemma GetStackMapForDexPc_spec dex_pc :
  exists res, GetStackMapForDexPc m ci dex_pc = Some res /\
    first_row (fun i => sm_column i StackMap.kDexPc = dex_pc /\ sm_column i StackMap.kKind <> StackMap.Debug)
      (length (rows_ (t_stack_maps t))) res.
Proof using Hsh Hrows.
  unfold GetStackMapForDexPc. rewrite number_of_stack_maps, Nat2Z.id.
  apply (first_stack_map_spec _ _ _ _ 0); [done| |intros; lia]. intros j Hj.
  apply (dex_pc_test dex_pc (fun k => negb (k =? StackMap.Debug)) (fun k => k <> StackMap.Debug)); [|done].
  intros k. rewrite negb_true_iff. apply Z.eqb_neq.
Qed.

Lemma GetOsrStackMapForDexPc_spec dex_pc :
  exists res, GetOsrStackMapForDexPc m ci dex_pc = Some res /\
    first_row (fun i => sm_column i StackMap.kDexPc = dex_pc /\ sm_column i StackMap.kKind = StackMap.OSR)
      (length (rows_ (t_stack_maps t))) res.
Proof using Hsh Hrows.
  unfold GetOsrStackMapForDexPc. rewrite number_of_stack_maps, Nat2Z.id.
  apply (first_stack_map_spec _ _ _ _ 0); [done| |intros; lia]. intros j Hj.
  apply (dex_pc_test dex_pc (fun k => k =? StackMap.OSR) (fun k => k = StackMap.OSR)); [|done].
  intros k. apply Z.eqb_eq.
Qed.

(** *** Native PCs *)

Lemma partition_point_spec (pred : Z -> option bool) (f : nat -> bool) n fuel first len :
  (forall i, (i < n)%nat -> pred (Z.of_nat i) = Some (f i)) ->
  (forall i j, (i < j < n)%nat -> f j = true -> f i = true) ->
  (first + len <= n)%nat -> (len <= fuel)%nat ->
  (forall i, (i < first)%nat -> f i = true) -> (forall i, (first + len <= i < n)%nat -> f i = false) ->
  exists k, partition_point fuel pred (Z.of_nat first) (Z.of_nat len) = Some (Z.of_nat k) /\
    (k <= n)%nat /\ (forall i, (i < k)%nat -> f i = true) /\ forall i, (k <= i < n)%nat -> f i = false.
Proof.
  intros Hp Hmono. revert first len. induction fuel as [|fuel IH]; intros first len Hfl Hf Hlo Hhi;
    cbn [partition_point]; (destruct (Z.eqb_spec (Z.of_nat len) 0) as [E|E];
      [exists first; split_and!; try done; [lia|intros i Hi; apply Hhi; lia]|]); [lia|].
  set (half := (len / 2)%nat).
  assert (half < len)%nat by (apply Nat.div_lt; lia).
  replace (Z.of_nat len / 2) with (Z.of_nat half) by (subst half; by rewrite Nat2Z.inj_div).
  rewrite <- Nat2Z.inj_add, Hp by lia. simpl. destruct (f (first + half)%nat) eqn:Eh.
  - replace (Z.of_nat (first + half) + 1) with (Z.of_nat (first + half + 1)) by lia.
    replace (Z.of_nat len - Z.of_nat half - 1) with (Z.of_nat (len - half - 1)) by lia.
    apply IH; try lia.
    + intros i Hi. destruct (decide (i = first + half)%nat) as [->|]; [done|].
      apply (Hmono _ (first + half)%nat); [lia|done].
    + intros i Hi. apply Hhi. lia.
  - apply IH; try (done || lia). intros i Hi. destruct (f i) eqn:Ei; [|done].
    destruct (decide (i = first + half)%nat) as [->|]; [congruence|].
    rewrite (Hmono (first + half)%nat i) in Eh by (done || lia). done.
Qed.

(** The order of the stack maps: sorted by native PC, catch stack maps at the end. *)
Definition sorted_rows : Prop :=
  forall i j, (i < j < length (rows_ (t_stack_maps t)))%nat ->
    sm_column j StackMap.kKind <> StackMap.Catch ->
    sm_column i StackMap.kKind <> StackMap.Catch /\
    sm_column i StackMap.kPackedNativePc <= sm_column j StackMap.kPackedNativePc.

(** The packed PCs are those of 32-bit PCs. *)
Definition pcs_fit (alignment : Z) : Prop :=
  forall i, (i < length (rows_ (t_stack_maps t)))%nat ->
    0 <= sm_column i StackMap.kPackedNativePc /\
    sm_column i StackMap.kPackedNativePc * alignment < 2 ^ 32.

(** The rows that a lookup by native PC is for. *)
Definition is_at_pc (packed : Z) (i : nat) : Prop :=
  sm_column i StackMap.kPackedNativePc = packed /\
  (sm_column i StackMap.kKind = StackMap.Default \/ sm_column i StackMap.kKind = StackMap.OSR).

Lemma alignment_cases isa a : GetInstructionSetInstructionAlignment isa = Some a -> a = 1 \/ a = 2 \/ a = 4.
Proof. destruct isa; simpl; intros; simplify_eq; lia. Qed.

Lemma IsAligned_alignment isa a pc :
  GetInstructionSetInstructionAlignment isa = Some a -> IsAligned a pc = true -> pc = a * (pc / a).
Proof.
  intros Ha Hal. apply Z.div_exact; [apply alignment_cases in Ha; lia|].
  destruct (alignment_cases isa a Ha) as [->|[->| ->]].
  - apply Z.mod_1_r.
  - change 2 with (2 ^ 1) in Hal. rewrite IsAligned_mod in Hal by lia. change (2 ^ 1) with 2 in Hal. lia.
  - change 4 with (2 ^ 2) in Hal. rewrite IsAligned_mod in Hal by lia. change (2 ^ 2) with 4 in Hal. lia.
Qed.

Lemma UnpackNativePc_fits isa a packed :
  GetInstructionSetInstructionAlignment isa = Some a -> 0 <= packed -> packed * a < 2 ^ 32 ->
  UnpackNativePc packed isa = Some (packed * a).
Proof.
  intros Ha H0 H1. unfold UnpackNativePc. rewrite Ha. simpl. pose proof (alignment_cases isa a Ha).
  rewrite uN_small by (unfold is_u; nia). rewrite Z.div_mul by lia. by rewrite Z.eqb_refl.
Qed.

Section native.
Context (isa : InstructionSet) (alignment : Z).
Hypothesis Hisa : GetInstructionSetInstructionAlignment isa = Some alignment.
Hypothesis Hsorted : sorted_rows.
Hypothesis Hfit : pcs_fit alignment.

Lemma GetNativePcOffset_row i :
  (i < length (rows_ (t_stack_maps t)))%nat ->
  GetNativePcOffset m ci (Z.of_nat i) isa = Some (sm_column i StackMap.kPackedNativePc * alignment).
Proof using Hsh Hrows Hisa Hfit.
  intros Hi. unfold GetNativePcOffset. rewrite StackMapGet_column by (done || (unfold StackMap.kPackedNativePc; lia)).
  simpl. destruct (Hfit i Hi). by apply UnpackNativePc_fits.
Qed.

Lemma scan_native_pc_spec packed fuel it :
  let n := length (rows_ (t_stack_maps t)) in
  (it <= n)%nat -> (n - it <= fuel)%nat ->
  (forall j, (j < it)%nat -> ~ is_at_pc packed j) ->
  (forall j, (it <= j < n)%nat -> sm_column j StackMap.kKind <> StackMap.Catch ->
     packed <= sm_column j StackMap.kPackedNativePc) ->
  exists res, scan_native_pc m ci fuel (packed * alignment) isa (Z.of_nat it) = Some res /\
    first_row (is_at_pc packed) n res.
Proof using Hsh Hrows Hisa Hsorted Hfit.
  intros n. revert it. induction fuel as [|fuel IH]; intros it Hit Hf Hlo Hhi; cbn [scan_native_pc];
    rewrite number_of_stack_maps; fold n;
    (destruct (Z.eqb_spec (Z.of_nat it) (Z.of_nat n)) as [E|E];
      [eexists; split; [done|]; right; split; [done|]; intros j Hj; apply Hlo; lia|]); [lia|].
  rewrite GetNativePcOffset_row by (fold n; lia). simpl mbind.
  destruct (alignment_cases _ _ Hisa) as [Ha|Ha].
  all: destruct (Z.eqb_spec (sm_column it StackMap.kPackedNativePc * alignment) (packed * alignment)) as [Epc|Epc].
  1,3: assert (sm_column it StackMap.kPackedNativePc = packed) as Ep by nia;
    rewrite StackMapGet_column by (done || (fold n; lia) || (unfold StackMap.kKind; lia)); simpl mbind;
    destruct (_ || _) eqn:Ek;
    [eexists; split; [done|]; left; exists it; split_and!; try (done || lia);
     split; [done|]; apply orb_true_iff in Ek; rewrite !Z.eqb_eq in Ek; done
    |replace (Z.of_nat it + 1) with (Z.of_nat (S it)) by lia; apply IH; try lia;
     [intros j Hj; destruct (decide (j = it)) as [->|]; [|apply Hlo; lia];
      intros [_ HP]; apply orb_false_iff in Ek; rewrite !Z.eqb_neq in Ek; tauto
     |intros j Hj; apply Hhi; lia]].
  all: eexists; split; [done|]; right; split; [done|]; intros j Hj [HPpc HPk];
    (assert (sm_column j StackMap.kKind <> StackMap.Catch) as Hnc
       by (destruct HPk as [-> | ->]; unfold StackMap.Default, StackMap.OSR, StackMap.Catch, kNoValue; lia));
    (destruct (decide (j < it)%nat); [by apply (Hlo j)|]);
    (destruct (decide (j = it)) as [->|]; [rewrite HPpc in Epc; done|]);
    (destruct (Hsorted it j) as [Hk Hle]; [fold n; lia|done|]);
    (pose proof (Hhi it ltac:(lia) Hk)); assert (sm_column it StackMap.kPackedNativePc <> packed) by congruence; lia.
Qed.

Lemma GetStackMapForNativePcOffset_spec pc packed :
  PackNativePc pc isa = Some packed -> is_u 32 pc ->
  exists res, GetStackMapForNativePcOffset m ci pc isa = Some res /\
    first_row (is_at_pc packed) (length (rows_ (t_stack_maps t))) res.
Proof using Hsh Hrows Hisa Hsorted Hfit.
  intros Hpack Hpc. unfold GetStackMapForNativePcOffset. rewrite (uN_small 32) by done. rewrite Hpack. simpl mbind.
  rewrite number_of_stack_maps, Nat2Z.id. set (n := length (rows_ (t_stack_maps t))).
  destruct (partition_point_spec (fun stack_map =>
         q ← StackMapGet m ci stack_map StackMap.kPackedNativePc;
         if q <? packed then
           kind ← StackMapGet m ci stack_map StackMap.kKind; Some (negb (kind =? StackMap.Catch))
         else Some false)
    (fun i => (sm_column i StackMap.kPackedNativePc <? packed) && negb (sm_column i StackMap.kKind =? StackMap.Catch))
    n n 0 n) as (k & E & Hk & Hlo & Hhi); try (intros; lia).
  - intros i Hi. rewrite !StackMapGet_column by (done || (unfold StackMap.kPackedNativePc, StackMap.kKind; lia)).
    simpl mbind. by destruct (_ <? packed).
  - intros i j Hij Hj. apply andb_true_iff in Hj as [H1 H2]. apply negb_true_iff, Z.eqb_neq in H2.
    destruct (Hsorted i j Hij H2) as [H3 H4]. apply andb_true_iff. split; [lia|].
    by apply negb_true_iff, Z.eqb_neq.
  - change (Z.of_nat 0) with 0 in E. rewrite E. simpl mbind.
    assert (pc = packed * alignment) as ->.
    { unfold PackNativePc in Hpack. rewrite Hisa in Hpack. simpl in Hpack.
      destruct (IsAligned alignment pc) eqn:Eal; [|done]. injection Hpack as <-.
      rewrite (IsAligned_alignment isa alignment pc) at 1 by done. lia. }
    apply scan_native_pc_spec; fold n; try lia.
    + intros j Hj [HP _]. specialize (Hlo j Hj). apply andb_true_iff in Hlo as [H1 _]. lia.
    + intros j Hj Hnc. specialize (Hhi j Hj). apply andb_false_iff in Hhi as [H1|H1]; [lia|].
      apply negb_false_iff, Z.eqb_eq in H1. done.
Qed.
End native.

(** *** Catch stack maps *)

Section catch.
Context (infos : nat -> list Entry).
Hypothesis Hinfos : forall i row, rows_ (t_stack_maps t) !! i = Some row -> row_inlines row (infos i).
Hypothesis Hwf : forall i info, info ∈ infos i -> length info = 6%nat.
Hypothesis Hsorted : sorted_rows.

(** A catch stack map with the given dex PCs, its own and those of the inlined methods. *)
Definition is_catch (front : Z) (dex_pcs : list Z) (i : nat) : Prop :=
  sm_column i StackMap.kKind = StackMap.Catch /\ sm_column i StackMap.kDexPc = front /\
  map (fun info => column info InlineInfo.kDexPc) (infos i) = dex_pcs.

Lemma no_catch_below_spec n :
  (n <= length (rows_ (t_stack_maps t)))%nat ->
  (forall i, (i < n)%nat -> sm_column i StackMap.kKind <> StackMap.Catch) ->
  no_catch_below m ci n = Some tt.
Proof using Hsh Hrows.
  induction n as [|n IH]; intros Hn Hc; [done|]. cbn [no_catch_below].
  rewrite StackMapGet_column by (lia || (unfold StackMap.kKind; lia)). simpl mbind.
  destruct (Z.eqb_spec (sm_column n StackMap.kKind) StackMap.Catch) as [E|_]; [by apply Hc in E; [|lia]|].
  apply IH; [lia|]. intros i Hi. apply Hc. lia.
Qed.

Lemma matching_dex_pcs_spec p l dex_pcs :
  (forall j info, l !! j = Some info ->
     rows_ (t_inline_infos t) !! (p + j)%nat = Some info /\ length info = 6%nat) ->
  length l = length dex_pcs ->
  matching_dex_pcs m ci (Z.of_nat p) dex_pcs =
    Some (bool_decide (map (fun info => column info InlineInfo.kDexPc) l = dex_pcs)).
Proof using Hsh.
  revert p l. induction dex_pcs as [|pc dex_pcs IH]; intros p [|info l] Hl Hlen; simpl in Hlen; try lia; [done|].
  cbn [matching_dex_pcs map]. destruct (Hl 0%nat info eq_refl) as [Hr H6]. rewrite Nat.add_0_r in Hr.
  destruct (lookup_lt_is_Some_2 info InlineInfo.kDexPc) as [v Hv]; [rewrite H6; unfold InlineInfo.kDexPc; lia|].
  rewrite (InlineInfoGet_row p info _ _ Hr Hv). simpl mbind.
  assert (column info InlineInfo.kDexPc = v) as Ec by (unfold column; by rewrite Hv). rewrite Ec.
  destruct (Z.eqb_spec v pc) as [->|Hne].
  - replace (Z.of_nat p + 1) with (Z.of_nat (S p)) by lia. rewrite (IH (S p) l).
    + f_equal. apply bool_decide_ext. split; [by intros ->|congruence].
    + intros j info' Hj. replace (S p + j)%nat with (p + S j)%nat by lia. by apply Hl.
    + lia.
  - rewrite bool_decide_eq_false_2; [done|]. intros E. injection E as E _. done.
Qed.

Lemma catch_search_spec front dex_pcs n :
  (n <= length (rows_ (t_stack_maps t)))%nat ->
  exists res, catch_search m ci n front dex_pcs = Some res /\ last_row (is_catch front dex_pcs) n res.
Proof using Hsh Hrows Hinfos Hwf Hsorted.
  induction n as [|n IH]; intros Hn; cbn [catch_search].
  { eexists. split; [done|]. right. split; [done|]. intros; lia. }
  rewrite !StackMapGet_column by (lia || (unfold StackMap.kKind, StackMap.kDexPc; lia)). simpl mbind.
  destruct IH as (res & E & Hres); [lia|].
  assert (~ is_catch front dex_pcs n ->
    exists res, catch_search m ci n front dex_pcs = Some res /\ last_row (is_catch front dex_pcs) (S n) res) as Hskip.
  { intros HnP. exists res. split; [done|]. destruct Hres as [(i & Hi & HP & -> & Hl)|[-> Hl]]; [left|right].
    - exists i. split_and!; try (done || lia). intros j Hj. destruct (decide (j = n)) as [->|]; [done|]. apply Hl. lia.
    - split; [done|]. intros j Hj. destruct (decide (j = n)) as [->|]; [done|]. apply Hl. lia. }
  destruct (Z.eqb_spec (sm_column n StackMap.kKind) StackMap.Catch) as [Ek|Ek]; cbn [negb].
  - destruct (Z.eqb_spec (sm_column n StackMap.kDexPc) front) as [Ef|Ef]; cbn [negb];
      [|apply Hskip; unfold is_catch; tauto].
    destruct (lookup_lt_is_Some_2 (rows_ (t_stack_maps t)) n) as [row Hrow]; [lia|].
    destruct (GetInlineInfosOf_spec n row (infos n) Hrow (Hinfos n row Hrow)) as (p & Eg & Hir & _).
    rewrite Eg. simpl mbind.
    destruct (Z.eqb_spec (Z.of_nat (p + length (infos n)) - Z.of_nat p) (Z.of_nat (length dex_pcs))) as [El|El].
    + rewrite (matching_dex_pcs_spec p (infos n)); [| |lia].
      2:{ intros j info Hj. split; [by apply (ir_rows _ _ Hir)|]. apply (Hwf n). by eapply list_elem_of_lookup_2. }
      simpl mbind. case_bool_decide as Em; [|apply Hskip; unfold is_catch; tauto].
      eexists. split; [done|]. left. exists n. split_and!; try (done || lia).
    + apply Hskip. intros (_ & _ & Hm'). apply El. rewrite <- Hm', length_map. lia.
  - assert (forall i, (i < n)%nat -> sm_column i StackMap.kKind <> StackMap.Catch) as Hnc.
    { intros i Hi. apply (Hsorted i n); [lia|done]. }
    rewrite no_catch_below_spec by (done || lia). simpl mbind. eexists. split; [done|]. right. split; [done|].
    intros j Hj [HP _]. destruct (decide (j = n)) as [->|]; [done|]. apply (Hnc j); (done || lia).
Qed.
End catch.
End reader.
