(* ===== verification/StackMapDelta.v ===== *)
(** The delta compression of dex register maps: the loop of [CreateDexRegisterMap] of
    StackMapStream.v stores exactly the registers that changed or were not stored for too long. *)
From S2P Require Import Prelude BitUtils Memory BitMemory BitVector BitTable BitmapTable StackMap.
From S2P Require Import StackMapStream StackMapTables StackMapReader.

(** ** The bytes of a bit vector *)

Lemma word_bytes_testbit w k i :
  is_u 32 w -> (k < 4)%nat -> 0 <= i < 8 ->
  Z.testbit (default 0 (word_bytes w !! k)) i = Z.testbit w (8 * Z.of_nat k + i).
Proof.
  intros Hw Hk Hi. unfold word_bytes.
  destruct k as [|[|[|[|]]]]; [..|lia]; simpl default; unfold uN;
    rewrite Z.mod_pow2_bits_low by lia; rewrite ?Z.shiftr_spec by lia; f_equal; lia.
Qed.

Lemma raw_storage_lookup st j k :
  (k < 4)%nat -> concat (map word_bytes st) !! (4 * j + k)%nat = w ← st !! j; word_bytes w !! k.
Proof.
  intros Hk. revert j. induction st as [|w st IH]; intros j; cbn [map concat]; [by rewrite !lookup_nil|].
  destruct j as [|j].
  - rewrite Nat.mul_0_r, Nat.add_0_l, lookup_app_l by (simpl; lia). done.
  - rewrite lookup_app_r by (simpl; lia). simpl length.
    replace (4 * S j + k - 4)%nat with (4 * j + k)%nat by lia. by rewrite IH.
Qed.

Lemma raw_storage_length v : length (raw_storage v) = (4 * length (storage_ v))%nat.
Proof. unfold raw_storage. induction (storage_ v) as [|w st IH]; [done|]. simpl. rewrite IH. lia. Qed.

Lemma raw_storage_bytes v : Forall (is_u 8) (raw_storage v).
Proof.
  apply Forall_concat, Forall_map, Forall_forall. intros w _. repeat constructor; apply uN_is_u; lia.
Qed.

Lemma raw_storage_bit v i : wf v -> 0 <= i -> mbit (bytes_memory (raw_storage v)) i = bits v i.
Proof.
  intros [Hw _] Hi. unfold mbit, bytes_memory, bits, vbit.
  destruct (Z.leb_spec 0 (i / 8)); [|pose proof (Z.div_pos i 8); lia].
  assert (Z.to_nat (i / 8) = 4 * Z.to_nat (i / 32) + Z.to_nat (i mod 32 / 8))%nat as ->
    by (Z.div_mod_to_equations; lia).
  assert (Z.to_nat (i mod 32 / 8) < 4)%nat by (Z.div_mod_to_equations; lia).
  unfold raw_storage. rewrite raw_storage_lookup by done.
  destruct (storage_ v !! Z.to_nat (i / 32)) as [w|] eqn:E; simpl; [|by rewrite !Z.testbit_0_l].
  rewrite word_bytes_testbit.
  - f_equal. Z.div_mod_to_equations. lia.
  - by eapply Forall_lookup_1 in Hw.
  - done.
  - Z.div_mod_to_equations. lia.
Qed.

Lemma bytes_memory_take bytes n i :
  0 <= i < 8 * Z.of_nat n -> mbit (bytes_memory (take n bytes)) i = mbit (bytes_memory bytes) i.
Proof.
  intros Hi. unfold mbit, bytes_memory. case_ltb; [|done]. rewrite lookup_take_lt; [done|].
  Z.div_mod_to_equations. lia.
Qed.

(** A bit vector is a bitmap whose last bit is set. *)
Lemma raw_storage_tight v :
  wf v ->
  let n := GetNumberOfBits v in
  0 <= n <= 2 ^ 31 /\ (n + 7) / 8 <= Z.of_nat (length (raw_storage v)) /\
  tight (take (Z.to_nat ((n + 7) / 8)) (raw_storage v)) n /\
  (forall i, 0 <= i -> mbit (bytes_memory (take (Z.to_nat ((n + 7) / 8)) (raw_storage v))) i = bits v i) /\
  (n = 0 -> forall i, 0 <= i -> bits v i = false) /\ (forall i, n <= i -> bits v i = false).
Proof.
  intros Hwf n. pose proof (GetHighestBitSet_spec v Hwf) as Hh. unfold GetNumberOfBits in n.
  set (h := GetHighestBitSet v) in *. pose proof Hwf as [_ Hlen]. rewrite raw_storage_length.
  assert (0 <= n <= 32 * Z.of_nat (length (storage_ v))) as Hn by (destruct Hh as [[-> _]|(? & _)]; lia).
  assert (forall i, n <= i -> bits v i = false) as Hout.
  { intros i Hi. destruct Hh as [[E Hb]|(_ & _ & Hb)]; apply Hb; lia. }
  assert (forall i, 0 <= i -> mbit (bytes_memory (take (Z.to_nat ((n + 7) / 8)) (raw_storage v))) i = bits v i) as Hbit.
  { intros i Hi. destruct (decide (i < n)).
    - rewrite bytes_memory_take by (Z.div_mod_to_equations; lia). by apply raw_storage_bit.
    - rewrite Hout by lia. destruct (decide (i < 8 * ((n + 7) / 8))) as [Hlt|Hge].
      + rewrite bytes_memory_take by lia. rewrite raw_storage_bit by done. apply Hout. lia.
      + apply bytes_memory_beyond. rewrite length_take, raw_storage_length. lia. }
  split_and!; try lia; try done.
  - Z.div_mod_to_equations. lia.
  - split_and!; try lia.
    + rewrite length_take, raw_storage_length, Nat.min_l; Z.div_mod_to_equations; lia.
    + apply Forall_take, raw_storage_bytes.
    + intros Hne. rewrite Hbit by lia. destruct Hh as [[E _]|(_ & Hb & _)]; [lia|].
      by replace (n - 1) with h by lia.
    + intros i Hi. rewrite Hbit by lia. by apply Hout.
  - intros E i Hi. apply Hout. lia.
Qed.

(** ** De-duplicated tables *)

(** A table of at most [n] rows of [k] columns. *)
Record dedup_table (k : nat) (n : Z) (b : BitTableBuilder) : Prop := {
  dt_rows : wf_rows k (rows_ b);
  dt_dedup : Forall (fun p => 0 <= p.2 <= size b) (dedup_ b);
  dt_size : size b <= n }.

Section dedup.
Context (equal_range : list (Z * Z) -> Z -> list Z).
Hypothesis equal_range_spec : forall d h, equal_range d h ≡ₚ (filter (fun p => p.1 = h) d).*2.

Lemma dedup_table_spec k n b values :
  dedup_table k n b -> wf_rows k values -> n + Z.of_nat (length values) < 2 ^ 24 ->
  exists p b', Dedup equal_range b values = (Z.of_nat p, b') /\ Z.of_nat p <= n /\
    dedup_table k (n + Z.of_nat (length values)) b' /\ rows_ b `prefix_of` rows_ b' /\
    forall j v, values !! j = Some v -> rows_ b' !! (p + j)%nat = Some v.
Proof using equal_range_spec.
  intros [Hr Hd Hs] Hv Hn. assert (dedup_ok b) as Hok by (split; [unfold size in *; lia|done]).
  pose proof (equal_range_bounds equal_range equal_range_spec b (hash_entries values) Hok) as Hb.
  unfold Dedup. destruct (find_equal _ _ _) as [i|] eqn:E.
  - destruct (find_equal_sound _ _ _ _ Hb ltac:(unfold size in *; lia) E) as [[H1 H2] Hin].
    eapply Forall_forall in Hb; [|done]. simpl in Hb. exists (Z.to_nat i), b. rewrite Z2Nat.id by lia.
    split_and!; try done; [unfold size in *; lia|split; (done || lia)|].
    intros j v Hj. pose proof (lookup_lt_Some _ _ _ Hj). rewrite <- H2 in Hj.
    rewrite lookup_take_lt, lookup_drop in Hj by lia. done.
  - exists (length (rows_ b)). eexists. unfold size in *. rewrite uN_small by (unfold is_u; lia).
    split; [done|]. split; [lia|]. split; [|split; [by eexists|]].
    + split; unfold size; simpl.
      * by apply Forall_app.
      * rewrite length_app. apply Forall_app. split; [|apply Forall_singleton; simpl; lia].
        eapply Forall_impl; [done|]. simpl. lia.
      * rewrite length_app. lia.
    + intros j v Hj. simpl. rewrite lookup_app_r by lia. by replace (length (rows_ b) + j - length (rows_ b))%nat with j by lia.
Qed.

Lemma dedup_table_le k n n' b : dedup_table k n b -> n <= n' -> dedup_table k n' b.
Proof. intros [H1 H2 H3] Hn. split; (done || lia). Qed.

(** ** The loop *)

Definition location_ok (loc : DexRegisterLocation) : Prop :=
  invalid loc = false /\ (IsLive loc = false -> loc = LocationNone) /\
  - 2 ^ 31 <= kind_ loc < 2 ^ 31 /\ - 2 ^ 31 <= value_ loc < 2 ^ 31.

Lemma location_at_prefix rows rows' index loc :
  rows `prefix_of` rows' -> location_at rows index loc -> location_at rows' index loc.
Proof.
  intros Hp [H|(i & packed & ? & ? & Hi & ?)]; [by left|]. right. exists i, packed.
  split_and!; try tauto. by eapply prefix_lookup_Some.
Qed.

Lemma PackValue_is_u kind value packed : is_u 32 value -> PackValue kind value = Some packed -> is_u 32 packed.
Proof.
  unfold PackValue. intros Hv. destruct (_ =? _); [|by intros [= <-]].
  destruct (IsAligned _ _); [|done]. intros [= <-]. apply uN_is_u. lia.
Qed.

(** The entry of the catalogue for a location. *)
Lemma catalog_add n catalog loc packed :
  location_ok loc -> dedup_table 2 n catalog -> n + 1 < 2 ^ 24 ->
  PackValue (kind_ loc) (u32 (value_ loc)) = Some packed ->
  exists index catalog',
    (if IsLive loc then Dedup equal_range catalog [[u32 (kind_ loc); packed]] else (kNoValue, catalog)) =
      (index, catalog') /\
    is_u 32 index /\ dedup_table 2 (n + 1) catalog' /\ rows_ catalog `prefix_of` rows_ catalog' /\
    location_at (rows_ catalog') index loc.
Proof using equal_range_spec.
  intros (Hv & Hnone & Hk & Hx) Ht Hn Hp. destruct (IsLive loc).
  - destruct (dedup_table_spec 2 n catalog [[u32 (kind_ loc); packed]]) as (p & b' & E & Hp' & Hb' & Hpre & Hrow); try done.
    + apply Forall_singleton. split; [done|]. repeat constructor; try (apply uN_is_u; lia).
      1,2: eapply PackValue_is_u in Hp; [|apply uN_is_u; lia]; apply Hp.
    + exists (Z.of_nat p), b'. rewrite E. assert (0 <= size catalog) by (unfold size; lia).
      split_and!; try done; [unfold is_u; lia|]. right.
      exists p, packed. split_and!; try done; try lia; [unfold kNoValue; lia|].
      specialize (Hrow 0%nat _ eq_refl). by rewrite Nat.add_0_r in Hrow.
  - exists kNoValue, catalog. split_and!; try done; [by apply (dedup_table_le 2 n); [|lia]|].
    left. split; [done|]. by apply Hnone.
Qed.

Section loop.
(** The number of stack maps so far, the current registers, and the state before the loop. *)
Context (N : Z) (regs : list DexRegisterLocation).
Context (previous : list DexRegisterLocation) (timestamp : list Z) (catalog : BitTableBuilder) (n : Z).
Hypothesis HN : 0 <= N < 2 ^ 24.
Hypothesis Hregs : Forall location_ok regs.
Hypothesis Hprev : (length regs <= length previous)%nat.
Hypothesis Hts : length timestamp = length previous.
Hypothesis Hts_le : Forall (fun ts => 0 <= ts <= N) timestamp.
Hypothesis Hn : n + Z.of_nat (length regs) < 2 ^ 24.
Hypothesis Hsmall : Z.of_nat (length regs) < 2 ^ 24.

Definition must_store (r : nat) : bool :=
  match regs !! r, previous !! r, timestamp !! r with
  | Some reg, Some p, Some ts =>
      negb (bool_decide (p = reg)) || (kMaxDexRegisterMapSearchDistance <? N - ts)
  | _, _, _ => false
  end.

(** The changes that the stack map stores. *)
Definition stored : change := fun r =>
  if 0 <=? r then
    match regs !! Z.to_nat r with
    | Some reg => if must_store (Z.to_nat r) then Some reg else None
    | None => None
    end
  else None.

Lemma stored_nat r reg : regs !! r = Some reg -> stored (Z.of_nat r) = if must_store r then Some reg else None.
Proof.
  intros Hr. unfold stored. rewrite Nat2Z.id, Hr.
  by rewrite (proj2 (Z.leb_le 0 (Z.of_nat r)) (Nat2Z.is_nonneg r)).
Qed.

Lemma stored_Some r loc :
  stored r = Some loc -> 0 <= r /\ regs !! Z.to_nat r = Some loc /\ must_store (Z.to_nat r) = true.
Proof.
  unfold stored. destruct (Z.leb_spec 0 r); [|done]. destruct (regs !! Z.to_nat r) as [reg|]; [|done].
  destruct (must_store (Z.to_nat r)); [|done]. by intros [= ->].
Qed.

Record delta_inv (i : nat) (d : delta) : Prop := {
  di_wf : growable (d_mask d);
  di_bits : forall j, 0 <= j -> bits (d_mask d) j = (j <? Z.of_nat i) && changed stored j;
  di_map_len : Z.of_nat (length (d_map d)) = rank stored (Z.of_nat i);
  di_map_wf : wf_rows 1 (d_map d);
  di_map : forall r loc, stored r = Some loc -> r < Z.of_nat i -> exists index,
    d_map d !! Z.to_nat (rank stored r) = Some [index] /\ location_at (rows_ (d_catalog d)) index loc;
  di_previous : forall r, d_previous d !! r = if (r <? i)%nat then regs !! r else previous !! r;
  di_timestamp : forall r,
    d_timestamp d !! r = if (r <? i)%nat && must_store r then Some N else timestamp !! r;
  di_catalog : dedup_table 2 (n + Z.of_nat i) (d_catalog d);
  di_prefix : rows_ catalog `prefix_of` rows_ (d_catalog d) }.

Lemma must_store_at i reg p ts :
  regs !! i = Some reg -> previous !! i = Some p -> timestamp !! i = Some ts ->
  must_store i = negb (bool_decide (p = reg)) || (kMaxDexRegisterMapSearchDistance <? u32 (N - ts)).
Proof using HN Hts_le Hprev Hts.
  intros Hr Hp Ht. unfold must_store. rewrite Hr, Hp, Ht.
  eapply Forall_lookup_1 in Hts_le; [|done]. simpl in Hts_le. by rewrite uN_small by (unfold is_u; lia).
Qed.

(** A register that is not stored keeps what was stored before. *)
Lemma delta_keep i d reg p :
  regs !! i = Some reg -> previous !! i = Some p -> must_store i = false -> p = reg ->
  delta_inv i d -> delta_inv (S i) d.
Proof using All.
  intros Hr Hp Hm -> [H1 H2 H3 H4 H5 H6 H7 H8 H9].
  pose proof (stored_nat i reg Hr) as Hst. rewrite Hm in Hst.
  assert (forall j : Z, j <> Z.of_nat i -> (j <? Z.of_nat (S i)) = (j <? Z.of_nat i)) as Hlt.
  { intros j Hj. destruct (Z.ltb_spec j (Z.of_nat (S i))), (Z.ltb_spec j (Z.of_nat i)); lia. }
  assert (forall r : nat, r <> i -> (r <? S i)%nat = (r <? i)%nat) as Hltn.
  { intros r Hr'. destruct (Nat.ltb_spec r (S i)), (Nat.ltb_spec r i); lia. }
  split; try done.
  - intros j Hj. rewrite H2 by done. destruct (decide (j = Z.of_nat i)) as [->|Hne]; [|by rewrite Hlt].
    unfold changed. rewrite Hst. by rewrite !andb_false_r.
  - rewrite H3. symmetry. apply rank_none; [lia|]. intros r Hr'. by replace r with (Z.of_nat i) by lia.
  - intros r loc Hs Hlt'. apply H5; [done|]. destruct (decide (r = Z.of_nat i)) as [->|]; [congruence|lia].
  - intros r. rewrite H6. destruct (decide (r = i)) as [->|Hne]; [|by rewrite Hltn].
    destruct (Nat.ltb_spec i (S i)), (Nat.ltb_spec i i); try lia. congruence.
  - intros r. rewrite H7. destruct (decide (r = i)) as [->|Hne]; [by rewrite Hm, !andb_false_r|by rewrite Hltn].
  - apply (dedup_table_le 2 (n + Z.of_nat i)); [done|lia].
Qed.

Lemma delta_store i d reg mask index catalog' :
  regs !! i = Some reg -> must_store i = true -> (i < length (d_previous d))%nat ->
  (i < length (d_timestamp d))%nat -> delta_inv i d ->
  growable mask -> (forall j, 0 <= j -> bits mask j = (j =? Z.of_nat i) || bits (d_mask d) j) ->
  is_u 32 index -> dedup_table 2 (n + Z.of_nat i + 1) catalog' ->
  rows_ (d_catalog d) `prefix_of` rows_ catalog' -> location_at (rows_ catalog') index reg ->
  delta_inv (S i) (Delta mask (d_map d ++ [[index]]) (<[i := reg]> (d_previous d))
    (<[i := N]> (d_timestamp d)) catalog').
Proof using All.
  intros Hr Hm Hpl Htl [H1 H2 H3 H4 H5 H6 H7 H8 H9] Hwf Hbits Hidx Hcat Hpre Hloc.
  pose proof (stored_nat i reg Hr) as Hst. rewrite Hm in Hst.
  assert (changed stored (Z.of_nat i) = true) as Hch by (unfold changed; by rewrite Hst).
  assert (forall r : nat, r <> i -> (r <? S i)%nat = (r <? i)%nat) as Hltn.
  { intros r Hr'. destruct (Nat.ltb_spec r (S i)), (Nat.ltb_spec r i); lia. }
  pose proof (rank_some stored (Z.of_nat i) ltac:(lia) Hch) as Hrk.
  replace (Z.of_nat i + 1) with (Z.of_nat (S i)) in Hrk by lia.
  split; simpl; try done.
  - intros j Hj. rewrite Hbits, H2 by done. destruct (Z.eqb_spec j (Z.of_nat i)) as [->|Hne]; simpl.
    + rewrite Hch. destruct (Z.ltb_spec (Z.of_nat i) (Z.of_nat (S i))); (done || lia).
    + f_equal. destruct (Z.ltb_spec j (Z.of_nat (S i))), (Z.ltb_spec j (Z.of_nat i)); lia.
  - rewrite length_app, Hrk, <- H3. simpl. lia.
  - apply Forall_app. split; [done|]. apply Forall_singleton. split; [done|]. by apply Forall_singleton.
  - intros r loc Hs Hlt. pose proof (stored_Some r loc Hs) as (H0 & Hreg & _).
    destruct (decide (r = Z.of_nat i)) as [->|Hne].
    + rewrite Hst in Hs. injection Hs as <-. exists index. split; [|done].
      rewrite <- H3, Nat2Z.id, lookup_app_r, Nat.sub_diag by lia. done.
    + destruct (H5 r loc Hs ltac:(lia)) as (index' & Hmap & Hl). exists index'.
      split; [by apply lookup_app_l_Some|]. by eapply location_at_prefix.
  - intros r. destruct (decide (r = i)) as [->|Hne].
    + rewrite list_lookup_insert_eq by done. rewrite Hr. by destruct (Nat.ltb_spec i (S i)); [|lia].
    + by rewrite list_lookup_insert_ne, H6, Hltn by done.
  - intros r. destruct (decide (r = i)) as [->|Hne].
    + rewrite list_lookup_insert_eq, Hm by done. by destruct (Nat.ltb_spec i (S i)); [|lia].
    + by rewrite list_lookup_insert_ne, H7, Hltn by done.
  - by replace (n + Z.of_nat (S i)) with (n + Z.of_nat i + 1) by lia.
  - by etrans.
Qed.

Lemma delta_step_inv i reg d d' :
  regs !! i = Some reg -> delta_inv i d -> delta_step equal_range N i reg d = Some d' -> delta_inv (S i) d'.
Proof using All.
  intros Hr Hd. pose proof (lookup_lt_Some _ _ _ Hr) as Hi.
  destruct (lookup_lt_is_Some_2 previous i) as [p Hp]; [lia|].
  destruct (lookup_lt_is_Some_2 timestamp i) as [ts Ht]; [lia|]. unfold delta_step.
  assert (d_previous d !! i = Some p) as Ep by (rewrite (di_previous _ _ Hd); by destruct (Nat.ltb_spec i i); [lia|]).
  assert (d_timestamp d !! i = Some ts) as Et by (rewrite (di_timestamp _ _ Hd); by destruct (Nat.ltb_spec i i); [lia|]).
  rewrite Ep, Et. simpl mbind. rewrite <- (must_store_at i reg p ts) by done.
  destruct (must_store i) eqn:Em.
  - destruct (PackValue (kind_ reg) (u32 (value_ reg))) as [packed|] eqn:Epk; [|done]. simpl mbind.
    pose proof (Forall_lookup_1 _ _ _ _ Hregs Hr) as Hok.
    destruct (catalog_add (n + Z.of_nat i) (d_catalog d) reg packed) as (index & cat' & E & Hidx & Hcat & Hpre & Hloc);
      try done; [apply Hd|lia|]. rewrite E.
    destruct (SetBit_spec (d_mask d) (Z.of_nat i)) as (mask & Em' & Hwf & Hex & _ & _ & Hbits); [apply Hd|lia|left; apply Hd|]. rewrite (proj2 (di_wf _ _ Hd)) in Hex.
    rewrite Em'. simpl mbind. intros [= <-]. rewrite (uN_small 32) by (unfold is_u; lia).
    apply lookup_lt_Some in Ep, Et. apply delta_store; (done || lia).
  - intros [= <-]. apply (delta_keep i d reg p); try done.
    rewrite (must_store_at i reg p ts) in Em by done. apply orb_false_iff in Em as [Em _].
    by apply negb_false_iff, bool_decide_eq_true in Em.
Qed.

Lemma delta_loop_inv d d' :
  delta_inv 0 d -> delta_loop equal_range N 0 regs d = Some d' -> delta_inv (length regs) d'.
Proof using All.
  assert (forall l i d, (forall j reg, l !! j = Some reg -> regs !! (i + j)%nat = Some reg) ->
    delta_inv i d -> delta_loop equal_range N i l d = Some d' -> delta_inv (i + length l) d') as H.
  { intros l. induction l as [|reg l IH]; intros i d0 Hl Hd; simpl.
    - intros [= <-]. by rewrite Nat.add_0_r.
    - intros E. destruct (delta_step equal_range N i reg d0) as [d1|] eqn:E1; [|done]. simpl in E.
      replace (i + S (length l))%nat with (S i + length l)%nat by lia. eapply IH; [|eapply delta_step_inv|]; try done.
      + intros j reg' Hj. replace (S i + j)%nat with (i + S j)%nat by lia. by apply Hl.
      + specialize (Hl 0%nat reg eq_refl). by rewrite Nat.add_0_r in Hl. }
  intros Hd E. apply (H regs 0%nat d); done.
Qed.
End loop.
End dedup.
