(* ===== verification/StackMapInvariant.v ===== *)
(** What a sequence of calls describes, and the invariant that relates the state of a
    [StackMapStream] to it. *)
From S2P Require Import Prelude BitUtils Memory BitMemory BitVector BitTable BitmapTable StackMap.
From S2P Require Import StackMapStream StackMapTables StackMapReader StackMapDelta.

(** ** Descriptions *)

Record InlineDesc := Inline { in_method : Z; in_dex_pc : Z; in_num : Z; in_outer : Z }.

Record StackMapDesc := Desc {
  de_dex_pc : Z;
  de_native_pc : Z;
  de_register_mask : Z;
  de_stack_mask : option Z;
  de_kind : Z;
  de_needs : bool;
  de_dex_pc_list : list Z;
  de_registers : list DexRegisterLocation;
  de_inlines : list InlineDesc }.

Definition add_register (loc : DexRegisterLocation) (d : StackMapDesc) : StackMapDesc :=
  Desc (de_dex_pc d) (de_native_pc d) (de_register_mask d) (de_stack_mask d) (de_kind d)
    (de_needs d) (de_dex_pc_list d) (de_registers d ++ [loc]) (de_inlines d).

Definition add_inline (inl : InlineDesc) (d : StackMapDesc) : StackMapDesc :=
  Desc (de_dex_pc d) (de_native_pc d) (de_register_mask d) (de_stack_mask d) (de_kind d)
    (de_needs d) (de_dex_pc_list d) (de_registers d) (de_inlines d ++ [inl]).

(** The stack maps that are complete, and the one that is being described. *)
Abbreviation progress := (list StackMapDesc * option StackMapDesc)%type.

Definition describe_call (st : progress) (c : call) : progress :=
  let '(done, cur) := st in
  match c with
  | CallBeginStackMapEntry dex_pc native_pc register_mask stack_mask kind needs dex_pc_list =>
      (done, Some (Desc dex_pc native_pc register_mask stack_mask kind needs dex_pc_list [] []))
  | CallAddDexRegisterEntry kind value => (done, add_register (DexReg kind value) <$> cur)
  | CallBeginInlineInfoEntry method dex_pc num_dex_registers outer_dex_file =>
      (done, add_inline (Inline method dex_pc num_dex_registers outer_dex_file) <$> cur)
  | CallEndStackMapEntry => (done ++ option_list cur, None)
  | _ => st
  end.

Definition describe (calls : list call) : list StackMapDesc := (foldl describe_call ([], None) calls).1.

(** The registers of the outer method and of the first [k] inlined methods. *)
Definition count_at (nd : Z) (d : StackMapDesc) (k : nat) : Z :=
  (if de_needs d then nd else 0) + sum (map in_num (take k (de_inlines d))).

(** ** Arguments *)

(** The dex file of an inlined method is found where the stream looks for it. *)
Definition dex_file_known (env : Environment) (method dex_pc outer_dex_file : Z) : Prop :=
  dex_pc <> kNoValue -> GetDexFile env method <> outer_dex_file ->
  if IsBootStrapClassLoaded env method then GetDexFile env method ∈ GetBootClassPath env
  else GetDexFile env method ∈ GetDexFilesForOatFile env.

Definition call_ok (env : Environment) (c : call) : Prop :=
  match c with
  | CallBeginMethod _ _ _ _ _ _ | CallEndMethod _ => False
  | CallBeginStackMapEntry dex_pc native_pc register_mask _ kind _ _ =>
      is_u 32 dex_pc /\ is_u 32 native_pc /\ is_u 32 register_mask /\
      (kind = StackMap.Default \/ kind = StackMap.Catch \/ kind = StackMap.OSR \/ kind = StackMap.Debug)
  | CallAddDexRegisterEntry kind value => location_ok (DexReg kind value)
  | CallBeginInlineInfoEntry method dex_pc num_dex_registers outer_dex_file =>
      is_u 64 method /\ is_u 32 dex_pc /\ is_u 32 num_dex_registers /\
      is_u 32 (GetDexMethodIndex env method) /\
      (if EncodeArtMethodInInlineInfo env then Low32Bits method <> kNoValue
       else dex_file_known env method dex_pc outer_dex_file)
  | CallEndStackMapEntry | CallEndInlineInfoEntry => True
  end.

(** ** Rows *)

Section rows.
Context (isa : InstructionSet) (env : Environment) (nd : Z).

(** The column of the register mask. *)
Definition register_mask_at (rows : list Entry) (index mask : Z) : Prop :=
  (mask = 0 /\ index = kNoValue) \/
  (mask <> 0 /\ exists k, index = Z.of_nat k /\ Z.of_nat k < 2 ^ 24 /\
     rows !! k = Some [mask ≫ LeastSignificantBit mask; LeastSignificantBit mask]).

(** The row of an inlined method; [total] is the number of registers up to it. *)
Definition inline_info (methods : list Entry) (inl : InlineDesc) (total : Z) (info : Entry) : Prop :=
  exists last mi hi lo,
    info = [last; in_dex_pc inl; mi; hi; lo; u32 total] /\
    if EncodeArtMethodInInlineInfo env then
      mi = kNoValue /\ hi = High32Bits (in_method inl) /\ lo = Low32Bits (in_method inl)
    else
      hi = kNoValue /\ lo = kNoValue /\ exists k, mi = Z.of_nat k /\ Z.of_nat k < 2 ^ 24 /\
        methods !! k = Some (method_info_entry env (in_method inl) (in_dex_pc inl) (in_outer inl)).

Definition inline_infos_ok (methods : list Entry) (d : StackMapDesc) (infos : list Entry) : Prop :=
  length infos = length (de_inlines d) /\
  forall k inl info, de_inlines d !! k = Some inl -> infos !! k = Some info ->
    inline_info methods inl (count_at nd d (S k)) info.

(** The row of a complete stack map; [si] is the column of the stack mask. *)
Record row_ok (t : Tables) (d : StackMapDesc) (u : change) (si : Z) (row : Entry) : Prop := {
  ro_row : exists packed ri ii mi pi,
    row = [de_kind d; packed; de_dex_pc d; ri; si; ii; mi; pi] /\
    PackNativePc (de_native_pc d) isa = Some packed /\
    register_mask_at (rows_ (t_register_masks t)) ri (de_register_mask d) /\
    (pi = kNoValue <-> de_registers d = []);
  ro_inlines : exists infos, row_inlines t row infos /\ inline_infos_ok (rows_ (t_method_infos t)) d infos;
  ro_delta : row_delta t row u;
  ro_count : de_registers d <> [] ->
    count_at nd d (length (de_inlines d)) = Z.of_nat (length (de_registers d)) }.

(** The tables only grow. *)
Record tables_le (t t' : Tables) : Prop := {
  tl_rm : rows_ (t_register_masks t) `prefix_of` rows_ (t_register_masks t');
  tl_ii : rows_ (t_inline_infos t) `prefix_of` rows_ (t_inline_infos t');
  tl_mi : rows_ (t_method_infos t) `prefix_of` rows_ (t_method_infos t');
  tl_dm : bitmap_rows_ (t_dex_register_masks t) `prefix_of` bitmap_rows_ (t_dex_register_masks t');
  tl_mp : rows_ (t_dex_register_maps t) `prefix_of` rows_ (t_dex_register_maps t');
  tl_ct : rows_ (t_dex_register_catalog t) `prefix_of` rows_ (t_dex_register_catalog t') }.

Lemma tables_le_refl t : tables_le t t.
Proof. by split. Qed.

Lemma register_mask_le rows rows' index mask :
  rows `prefix_of` rows' -> register_mask_at rows index mask -> register_mask_at rows' index mask.
Proof.
  intros Hp [H|(Hm & k & ? & ? & Hk)]; [by left|]. right. split; [done|]. exists k.
  split_and!; try done. by eapply prefix_lookup_Some.
Qed.

Lemma inline_infos_le methods methods' d infos :
  methods `prefix_of` methods' -> inline_infos_ok methods d infos -> inline_infos_ok methods' d infos.
Proof.
  intros Hp [Hl H]. split; [done|]. intros k inl info Hk Hi.
  destruct (H k inl info Hk Hi) as (last & mi & hi & lo & E & Hc). exists last, mi, hi, lo. split; [done|].
  destruct (EncodeArtMethodInInlineInfo env); [done|]. destruct Hc as (? & ? & j & ? & ? & Hj).
  split_and!; try done. exists j. split_and!; try done. by eapply prefix_lookup_Some.
Qed.

Lemma row_inlines_le t t' row infos :
  tables_le t t' -> row_inlines t row infos -> row_inlines t' row infos.
Proof.
  intros Ht [H|(Hne & p & Hi & Hb & [Hr Hl])]; [by left|]. right. split; [done|]. exists p.
  split_and!; try done. split; [|done]. intros j info Hj. eapply prefix_lookup_Some; [by apply Hr|apply Ht].
Qed.

Lemma row_delta_le t t' row u : tables_le t t' -> row_delta t row u -> row_delta t' row u.
Proof.
  intros Ht [Hr [H|(k & mask & p & H1 & H2 & H3 & H4 & H5 & H6 & H7)]]; split; [done|by left|done|].
  right. exists k, mask, p. split_and!; try done.
  - eapply prefix_lookup_Some; [done|apply Ht].
  - intros r loc Hu. destruct (H7 r loc Hu) as (index & Hi & Hl). exists index.
    split; [eapply prefix_lookup_Some; [done|apply Ht]|]. eapply location_at_prefix; [apply Ht|done].
Qed.

Lemma row_ok_le t t' d u si row : tables_le t t' -> row_ok t d u si row -> row_ok t' d u si row.
Proof.
  intros Ht [(packed & ri & ii & mi & pi & H1 & H2 & H3 & H4) (infos & H5 & H6) H7 H8]. split; [| | |done].
  - exists packed, ri, ii, mi, pi. split_and!; try done. eapply register_mask_le; [apply Ht|done].
  - exists infos. split; [by eapply row_inlines_le|]. eapply inline_infos_le; [apply Ht|done].
  - by eapply row_delta_le.
Qed.
End rows.

(** ** The history of the registers *)

(** What was stored last for each register; [n] stack maps are complete. *)
Record history (us : nat -> change) (n : nat) (previous : list DexRegisterLocation) (timestamp : list Z) :
    Prop := {
  hi_len : length timestamp = length previous;
  hi_last : forall r p ts, previous !! r = Some p -> timestamp !! r = Some ts ->
    (exists k, ts = Z.of_nat k /\ (k < n)%nat /\ us k (Z.of_nat r) = Some p /\
       forall k', (k < k' < n)%nat -> us k' (Z.of_nat r) = None) \/
    (p = LocationNone /\ ts = 0 /\ forall k, (k < n)%nat -> us k (Z.of_nat r) = None);
  hi_beyond : forall r k, (length previous <= r)%nat -> (k < n)%nat -> us k (Z.of_nat r) = None }.

Lemma history_le us n previous timestamp :
  history us n previous timestamp -> Forall (fun ts => 0 <= ts <= Z.of_nat n) timestamp.
Proof.
  intros [Hl Hlast _]. apply Forall_lookup_2. intros r ts Hts.
  destruct (lookup_lt_is_Some_2 previous r) as [p Hp]; [apply lookup_lt_Some in Hts; lia|].
  destruct (Hlast r p ts Hp Hts) as [(k & -> & Hk & _)|(_ & -> & _)]; lia.
Qed.

(** Growing the arrays. *)
Lemma history_grow us n previous timestamp k :
  history us n previous timestamp -> (length previous <= k)%nat ->
  history us n (grow k LocationNone previous) (grow k 0 timestamp).
Proof.
  intros [Hl Hlast Hb] Hk. unfold grow. split.
  - rewrite !length_app, !length_replicate. lia.
  - intros r p ts Hp Hts. destruct (decide (r < length previous)%nat) as [Hr|Hr].
    + rewrite lookup_app_l in Hp by lia. rewrite lookup_app_l in Hts by lia. by apply Hlast.
    + rewrite lookup_app_r in Hp by lia. rewrite lookup_app_r in Hts by lia. apply lookup_replicate in Hp as [-> _].
      apply lookup_replicate in Hts as [-> _]. right. split_and!; try done. intros j Hj. apply Hb; lia.
  - intros r j Hr Hj. apply Hb; [|done]. rewrite length_app, length_replicate in Hr. lia.
Qed.

(** The new stack map. *)
Definition extend (us : nat -> change) (n : nat) (u : change) : nat -> change :=
  fun k => if (k =? n)%nat then u else us k.

Lemma extend_lt us n u k : (k < n)%nat -> extend us n u k = us k.
Proof. intros Hk. unfold extend. by destruct (Nat.eqb_spec k n); [lia|]. Qed.

Lemma extend_eq us n u : extend us n u n = u.
Proof. unfold extend. by rewrite Nat.eqb_refl. Qed.

Lemma recent_extend us n u k r : (k <= n)%nat -> recent (extend us n u) k r = recent us k r.
Proof.
  induction k as [|k IH]; intros Hk; [done|]. simpl. rewrite extend_lt, IH by lia. done.
Qed.

Lemma covered_extend us n u i r : (i < n)%nat -> covered us i r -> covered (extend us n u) i r.
Proof.
  intros Hi (k & Hk & Hd & Ho). exists k. split_and!; try done. by rewrite extend_lt by lia.
Qed.

(** The most recent location of a register whose last change is known. *)
Lemma recent_last us n k r p :
  (k < n)%nat -> us k r = Some p -> (forall k', (k < k' < n)%nat -> us k' r = None) ->
  recent us n r = Some p.
Proof.
  intros Hk Hu Hn. induction n as [|n IH]; [lia|]. simpl. destruct (decide (k = n)) as [->|Hne].
  - by rewrite Hu.
  - rewrite Hn by lia. apply IH; [lia|]. intros k' Hk'. apply Hn. lia.
Qed.

Lemma recent_none us n r : (forall k, (k < n)%nat -> us k r = None) -> recent us n r = None.
Proof. intros Hn. induction n as [|n IH]; [done|]. simpl. rewrite Hn by lia. apply IH. intros. apply Hn. lia. Qed.

Section stored_history.
Context (us : nat -> change) (n : nat).
Context (regs previous previous' : list DexRegisterLocation) (timestamp timestamp' : list Z).
Hypothesis Hhist : history us n previous timestamp.
Hypothesis Hlen : (length regs <= length previous)%nat.
Let u := stored (Z.of_nat n) regs previous timestamp.
Let must := must_store (Z.of_nat n) regs previous timestamp.
Hypothesis Hp' : forall r, previous' !! r = if (r <? length regs)%nat then regs !! r else previous !! r.
Hypothesis Ht' : forall r, timestamp' !! r =
  if (r <? length regs)%nat && must r then Some (Z.of_nat n) else timestamp !! r.

Lemma stored_in r loc : regs !! r = Some loc -> u (Z.of_nat r) = if must r then Some loc else None.
Proof. apply stored_nat. Qed.

Lemma stored_beyond r : (length regs <= r)%nat -> u (Z.of_nat r) = None.
Proof.
  intros Hr. unfold u, stored. rewrite Nat2Z.id, lookup_ge_None_2 by done. by destruct (_ <=? _).
Qed.

(** The state of a register before, and whether it is stored. *)
Lemma stored_before r loc :
  regs !! r = Some loc -> exists p ts, previous !! r = Some p /\ timestamp !! r = Some ts /\
    must r = negb (bool_decide (p = loc)) || (kMaxDexRegisterMapSearchDistance <? Z.of_nat n - ts).
Proof using Hhist Hlen.
  intros Hr. pose proof (lookup_lt_Some _ _ _ Hr). destruct Hhist as [Hl _ _].
  destruct (lookup_lt_is_Some_2 previous r) as [p Hp]; [lia|].
  destruct (lookup_lt_is_Some_2 timestamp r) as [ts Ht]; [lia|]. exists p, ts. split_and!; try done.
  unfold must, must_store. by rewrite Hr, Hp, Ht.
Qed.

(** A register that the stack map does not store keeps its history. *)
Lemma history_kept r p ts :
  u (Z.of_nat r) = None -> previous !! r = Some p -> timestamp !! r = Some ts ->
  (exists k, ts = Z.of_nat k /\ (k < S n)%nat /\ extend us n u k (Z.of_nat r) = Some p /\
     forall k', (k < k' < S n)%nat -> extend us n u k' (Z.of_nat r) = None) \/
  (p = LocationNone /\ ts = 0 /\ forall k, (k < S n)%nat -> extend us n u k (Z.of_nat r) = None).
Proof using Hhist Hlen.
  intros Hu Hp Ht.
  assert (forall k, (k < S n)%nat -> ((k < n)%nat -> us k (Z.of_nat r) = None) ->
    extend us n u k (Z.of_nat r) = None) as Hx.
  { intros k Hk H. destruct (decide (k = n)) as [->|]; [by rewrite extend_eq|].
    rewrite extend_lt by lia. apply H. lia. }
  destruct (hi_last _ _ _ _ Hhist r p ts Hp Ht) as [(k & -> & Hk & Hus & Hn)|(-> & -> & Hn)].
  - left. exists k. split_and!; [done|lia|by rewrite extend_lt|]. intros k' Hk'. apply Hx; [lia|].
    intros. apply Hn. lia.
  - right. split_and!; try done. intros k Hk. apply Hx; [done|]. by apply Hn.
Qed.

Lemma history_stored : history (extend us n u) (S n) previous' timestamp'.
Proof using Hhist Hlen Hp' Ht'.
  destruct Hhist as [Hl _ Hb]. split.
  - apply Nat.le_antisymm; apply Nat.le_ngt; intros Hlt.
    + destruct (lookup_lt_is_Some_2 timestamp' (length previous')) as [ts Hts]; [lia|].
      assert (previous' !! length previous' = None) as Hn by (by apply lookup_ge_None_2).
      rewrite Hp' in Hn. rewrite Ht' in Hts. destruct (Nat.ltb_spec (length previous') (length regs)).
      * by apply lookup_ge_None_1 in Hn; lia.
      * simpl in Hts. apply lookup_lt_Some in Hts. apply lookup_ge_None_1 in Hn. lia.
    + destruct (lookup_lt_is_Some_2 previous' (length timestamp')) as [p Hp]; [lia|].
      assert (timestamp' !! length timestamp' = None) as Hn by (by apply lookup_ge_None_2).
      rewrite Ht' in Hn. rewrite Hp' in Hp. destruct (Nat.ltb_spec (length timestamp') (length regs)).
      * destruct (must (length timestamp')); [done|]. apply lookup_ge_None_1 in Hn. lia.
      * apply lookup_lt_Some in Hp. apply lookup_ge_None_1 in Hn. lia.
  - intros r p ts Hp Ht. rewrite Hp' in Hp. rewrite Ht' in Ht.
    destruct (Nat.ltb_spec r (length regs)) as [Hr|Hr]; [|by apply history_kept; [apply stored_beyond|..]].
    destruct (stored_before r p Hp) as (p0 & ts0 & Hp0 & Ht0 & Hm). pose proof (stored_in r p Hp) as Hu.
    destruct (must r) eqn:Em; simpl in Ht.
    + injection Ht as <-. left. exists n. split_and!; [done|lia|by rewrite extend_eq|intros; lia].
    + symmetry in Hm. apply orb_false_iff in Hm as [Hm _]. apply negb_false_iff, bool_decide_eq_true in Hm as ->.
      by apply history_kept.
  - intros r k Hr Hk.
    assert (length regs <= r /\ length previous <= r)%nat as [Hr1 Hr2].
    { apply lookup_ge_None_2 in Hr. rewrite Hp' in Hr. destruct (Nat.ltb_spec r (length regs)).
      - apply lookup_ge_None_1 in Hr. lia.
      - apply lookup_ge_None_1 in Hr. lia. }
    destruct (decide (k = n)) as [->|]; [rewrite extend_eq; by apply stored_beyond|].
    rewrite extend_lt by lia. apply Hb; lia.
Qed.

(** The registers of the new stack map are found, and close enough. *)
Lemma stored_found r loc :
  regs !! r = Some loc ->
  default LocationNone (recent (extend us n u) (S n) (Z.of_nat r)) = loc /\
  covered (extend us n u) n (Z.of_nat r).
Proof using Hhist Hlen.
  intros Hr. pose proof (stored_in r loc Hr) as Hu. destruct (stored_before r loc Hr) as (p & ts & Hp & Ht & Hm).
  destruct (must r).
  { split; [simpl; rewrite extend_eq, Hu; done|]. exists n. split_and!; [lia|unfold kMaxDexRegisterMapSearchDistance; lia|].
    left. rewrite extend_eq, Hu. done. }
  symmetry in Hm. apply orb_false_iff in Hm as [Hm Hd]. apply negb_false_iff, bool_decide_eq_true in Hm as ->.
  apply Z.ltb_ge in Hd.
  destruct (history_kept r loc ts Hu Hp Ht) as [(k & -> & Hk & Hus & Hn)|(-> & -> & Hn)].
  - split; [by rewrite (recent_last _ _ k _ loc)|]. exists k. split_and!; [lia|done|]. left. by rewrite Hus.
  - split; [by rewrite recent_none|]. exists 0%nat. split_and!; [lia|done|by right].
Qed.
End stored_history.

(** ** The invariant *)

Section invariant.
Context (equal_range : list (Z * Z) -> Z -> list Z).
Hypothesis equal_range_spec : forall d h, equal_range d h ≡ₚ (filter (fun p => p.1 = h) d).*2.
Context (isa : InstructionSet) (env : Environment) (nd : Z).
Hypothesis Hnd : is_u 32 nd.
(** The arguments of [BeginMethod]. *)
Context (method_args : Z * Z * Z * Z).

Definition inline_desc_ok (inl : InlineDesc) : Prop :=
  call_ok env (CallBeginInlineInfoEntry (in_method inl) (in_dex_pc inl) (in_num inl) (in_outer inl)).

Record desc_ok (d : StackMapDesc) : Prop := {
  dk_begin : call_ok env (CallBeginStackMapEntry (de_dex_pc d) (de_native_pc d) (de_register_mask d)
    (de_stack_mask d) (de_kind d) (de_needs d) (de_dex_pc_list d));
  dk_registers : Forall location_ok (de_registers d);
  dk_inlines : Forall inline_desc_ok (de_inlines d) }.

(** A check is about a stack map that was described. *)
Definition justified (done : list StackMapDesc) (cur : option StackMapDesc) (check : dcheck) : Prop :=
  match check with
  | CheckMethod frame core fp num => (frame, core, fp, num) = method_args
  | CheckCodeSize _ => False
  | CheckBegin index dex_pc native_pc register_mask stack_mask kind dex_pc_list =>
      exists i d, index = Z.of_nat i /\ (done ++ option_list cur) !! i = Some d /\
        dex_pc = de_dex_pc d /\ native_pc = de_native_pc d /\ register_mask = de_register_mask d /\
        stack_mask = de_stack_mask d /\ kind = de_kind d /\ dex_pc_list = de_dex_pc_list d
  | CheckEnd index num_dex_registers inlining_depth =>
      exists i d, index = Z.of_nat i /\ done !! i = Some d /\
        num_dex_registers = Z.of_nat (length (de_registers d)) /\
        inlining_depth = Z.of_nat (length (de_inlines d))
  | CheckInline index depth method dex_pc outer_dex_file =>
      exists i d k inl, index = Z.of_nat i /\ (done ++ option_list cur) !! i = Some d /\
        depth = Z.of_nat k /\ de_inlines d !! k = Some inl /\
        method = in_method inl /\ dex_pc = in_dex_pc inl /\ outer_dex_file = in_outer inl
  | CheckRegisters index registers =>
      exists i d, index = Z.of_nat i /\ done !! i = Some d /\ registers = de_registers d /\
        registers <> []
  end.

(** The fields of the stack map that is being described. *)
Record cur_ok (s : StackMapStream) (d : StackMapDesc) : Prop := {
  co_entry : exists packed ri,
    current_stack_map_ s =
      [de_kind d; packed; de_dex_pc d; ri; kNoValue; kNoValue; kNoValue; kNoValue] /\
    PackNativePc (de_native_pc d) isa = Some packed /\
    register_mask_at (rows_ (t_register_masks (tables_ s))) ri (de_register_mask d) /\
    (de_kind d <> StackMap.Catch -> forall i, (i < length (rows_ (t_stack_maps (tables_ s))))%nat ->
       sm_column (tables_ s) i StackMap.kKind <> StackMap.Catch /\
       sm_column (tables_ s) i StackMap.kPackedNativePc <= packed);
  co_inlines : inline_infos_ok env nd (rows_ (t_method_infos (tables_ s))) d (current_inline_infos_ s);
  co_more : forall k info, current_inline_infos_ s !! k = Some info ->
    info !! InlineInfo.kIsLast = Some InlineInfo.kMore;
  co_registers : current_dex_registers_ s = de_registers d;
  co_expected : expected_num_dex_registers_ s = count_at nd d (length (de_inlines d)) }.

Definition cur_registers (cur : option StackMapDesc) : Z :=
  match cur with Some d => Z.of_nat (length (de_registers d)) | None => 0 end.
Definition cur_inlines (cur : option StackMapDesc) : Z :=
  match cur with Some d => Z.of_nat (length (de_inlines d)) | None => 0 end.
Definition is_cur (cur : option StackMapDesc) : bool := match cur with Some _ => true | None => false end.

(** [n] calls were made; [us] are the changes that the complete stack maps store. *)
Record inv (n : Z) (s : StackMapStream) (done : list StackMapDesc) (us : nat -> change)
    (cur : option StackMapDesc) : Prop := {
  iv_isa : instruction_set_ s = isa;
  iv_nd : num_dex_registers_ s = nd;
  iv_n : Z.of_nat (length done) + cur_registers cur + cur_inlines cur <= n;
  iv_len : length (rows_ (t_stack_maps (tables_ s))) = length done;
  iv_rows : forall i row d, rows_ (t_stack_maps (tables_ s)) !! i = Some row -> done !! i = Some d ->
    row_ok isa env nd (tables_ s) d (us i) kNoValue row;
  iv_wf : wf_rows 8 (rows_ (t_stack_maps (tables_ s)));
  iv_sorted : sorted_rows (tables_ s);
  iv_rm : dedup_table 2 n (t_register_masks (tables_ s));
  iv_ii : dedup_table 6 (n - cur_inlines cur) (t_inline_infos (tables_ s));
  iv_mi : dedup_table 3 n (t_method_infos (tables_ s));
  iv_mp : dedup_table 1 (n - cur_registers cur) (t_dex_register_maps (tables_ s));
  iv_ct : dedup_table 2 (n - cur_registers cur) (t_dex_register_catalog (tables_ s));
  iv_dm : bitmaps_ok (t_dex_register_masks (tables_ s));
  iv_dm_size : bitmap_size (t_dex_register_masks (tables_ s)) <= n;
  iv_dm_max : max_num_bits_ (t_dex_register_masks (tables_ s)) <= n;
  iv_sm : t_stack_masks (tables_ s) = empty_bitmaps;
  iv_lazy : lazy_stack_masks_ s = map de_stack_mask (done ++ option_list cur);
  iv_hist : history us (length done) (previous_dex_registers_ s) (dex_register_timestamp_ s);
  iv_found : forall i d r loc, done !! i = Some d -> de_registers d !! r = Some loc ->
    default LocationNone (recent us (S i) (Z.of_nat r)) = loc /\ covered us i (Z.of_nat r);
  iv_descs : Forall desc_ok (done ++ option_list cur);
  iv_in : in_stack_map_ s = is_cur cur;
  iv_cur : forall d, cur = Some d -> cur_ok s d;
  iv_temp : growable (temp_dex_register_mask_ s);
  iv_checks : Forall (justified done cur) (dchecks_ s) }.

(** *** Steps that change little *)

Lemma sm_column_ext t t' i c :
  rows_ (t_stack_maps t') = rows_ (t_stack_maps t) -> sm_column t' i c = sm_column t i c.
Proof. intros E. unfold sm_column. by rewrite E. Qed.

Lemma sorted_rows_ext t t' :
  rows_ (t_stack_maps t') = rows_ (t_stack_maps t) -> sorted_rows t -> sorted_rows t'.
Proof.
  intros E H i j. rewrite E, !(sm_column_ext t t') by done. apply H.
Qed.

(** The description of the current stack map may get more registers and inlined methods. *)
Lemma justified_update done d d' check :
  de_dex_pc d' = de_dex_pc d -> de_native_pc d' = de_native_pc d ->
  de_register_mask d' = de_register_mask d -> de_stack_mask d' = de_stack_mask d ->
  de_kind d' = de_kind d -> de_dex_pc_list d' = de_dex_pc_list d ->
  de_inlines d `prefix_of` de_inlines d' ->
  justified done (Some d) check -> justified done (Some d') check.
Proof.
  intros E1 E2 E3 E4 E5 E6 Hp.
  assert (forall i x, (done ++ [d]) !! i = Some x ->
    (done ++ [d']) !! i = Some x \/ (x = d /\ (done ++ [d']) !! i = Some d')) as Hl.
  { intros i x Hx. destruct (decide (i < length done)%nat).
    - rewrite lookup_app_l in Hx |- * by done. by left.
    - rewrite lookup_app_r in Hx |- * by lia. right. destruct (i - length done)%nat; [|done].
      injection Hx as <-. done. }
  destruct check; simpl; try done.
  - intros (i & x & ? & Hx & H). destruct (Hl i x Hx) as [Hy|[-> Hy]]; [by exists i, x|].
    exists i, d'. split_and!; try done; intuition congruence.
  - intros (i & x & k & inl & ? & Hx & ? & Hk & H). destruct (Hl i x Hx) as [Hy|[-> Hy]]; [by exists i, x, k, inl|].
    exists i, d', k, inl. split_and!; try tauto. by eapply prefix_lookup_Some.
Qed.

Lemma AddDexRegisterEntry_inv n s done us cur kind value :
  inv n s done us cur -> location_ok (DexReg kind value) ->
  inv (n + 1) (AddDexRegisterEntry kind value s) done us (add_register (DexReg kind value) <$> cur).
Proof.
  intros H Hok. destruct H. unfold AddDexRegisterEntry, with_current.
  assert (cur_registers (add_register (DexReg kind value) <$> cur) <= cur_registers cur + 1) as Hcr.
  { destruct cur as [d|]; simpl; [rewrite length_app; simpl|]; lia. }
  assert (cur_inlines (add_register (DexReg kind value) <$> cur) = cur_inlines cur) as Hci by (by destruct cur).
  split; simpl; try done; try lia.
  all: try (eapply dedup_table_le; [eassumption|lia]).
  - rewrite iv_lazy0, !map_app. by destruct cur.
  - apply Forall_app in iv_descs0 as [H1 H2]. apply Forall_app. split; [done|]. destruct cur as [d|]; [|done].
    apply Forall_singleton in H2 as [Hb Hr Hi]. apply Forall_singleton. split; simpl; [done| |done].
    apply Forall_app. split; [done|]. by apply Forall_singleton.
  - by destruct cur.
  - intros d' Hd'. destruct cur as [d|]; [|done]. simpl in Hd'. injection Hd' as <-.
    destruct (iv_cur0 d eq_refl) as [He Hin Hmore Hreg Hex]. split; simpl; try done. by rewrite Hreg.
  - destruct cur as [d|]; [|done]. eapply Forall_impl; [done|]. intros c.
    by apply justified_update.
Qed.

Lemma EndInlineInfoEntry_inv n s s' done us cur :
  inv n s done us cur -> EndInlineInfoEntry s = Some s' -> inv (n + 1) s' done us cur.
Proof.
  intros H. unfold EndInlineInfoEntry. destruct (DCHECK (in_inline_info_ s)); [|done]. simpl.
  destruct (DCHECK _); [|done]. simpl. intros [= <-]. destruct H. unfold with_current.
  split; simpl; try done; try lia; try (eapply dedup_table_le; [eassumption|lia]).
  intros d Hd. destruct (iv_cur0 d Hd) as [He Hin Hmore Hreg Hex]. by split.
Qed.

(** *** The begin of a stack map *)

Lemma DCHECK_true b x : DCHECK b = Some x -> b = true.
Proof. by destruct b. Qed.

(** The checks against the last row cover all rows. *)
Lemma check_order_rows t kind packed dex_pc x :
  wf_rows 8 (rows_ (t_stack_maps t)) -> sorted_rows t ->
  check_order (last (rows_ (t_stack_maps t)))
    [kind; packed; dex_pc; kNoValue; kNoValue; kNoValue; kNoValue; kNoValue] = Some x ->
  kind <> StackMap.Catch -> forall i, (i < length (rows_ (t_stack_maps t)))%nat ->
  sm_column t i StackMap.kKind <> StackMap.Catch /\ sm_column t i StackMap.kPackedNativePc <= packed.
Proof.
  intros Hwf Hs Hc Hk i Hi. destruct (last (rows_ (t_stack_maps t))) as [back|] eqn:El.
  2:{ apply last_None in El. rewrite El in Hi. simpl in Hi. lia. }
  rewrite last_lookup in El. set (j := pred (length (rows_ (t_stack_maps t)))) in *.
  assert (forall c, sm_column t j c = column back c) as Ej by (intros c; unfold sm_column; by rewrite El).
  unfold check_order in Hc. rewrite <- !Ej in Hc. cbn [column lookup list_lookup default] in Hc.
  change (column [kind; packed; dex_pc; kNoValue; kNoValue; kNoValue; kNoValue; kNoValue] StackMap.kKind) with kind in Hc.
  change (column [kind; packed; dex_pc; kNoValue; kNoValue; kNoValue; kNoValue; kNoValue] StackMap.kPackedNativePc)
    with packed in Hc.
  destruct (Z.eqb_spec (sm_column t j StackMap.kKind) StackMap.Catch) as [E|E].
  { apply DCHECK_true, Z.eqb_eq in Hc. done. }
  destruct (Z.eqb_spec kind StackMap.Catch); [done|]. simpl in Hc. apply DCHECK_true, Z.leb_le in Hc.
  destruct (decide (i = j)) as [->|Hne]; [done|].
  destruct (Hs i j ltac:(lia) E) as [H1 H2]. split; [done|lia].
Qed.

(** The row of a register mask. *)
Lemma register_mask_add n b mask :
  dedup_table 2 n b -> n + 1 < 2 ^ 24 -> is_u 32 mask -> mask <> 0 ->
  exists k b', Dedup equal_range b [[mask ≫ LeastSignificantBit mask; LeastSignificantBit mask]] =
      (Z.of_nat k, b') /\ dedup_table 2 (n + 1) b' /\ rows_ b `prefix_of` rows_ b' /\
    register_mask_at (rows_ b') (Z.of_nat k) mask.
Proof using equal_range_spec.
  intros Ht Hn Hm Hne. set (shift := LeastSignificantBit mask).
  assert (0 <= shift < 32) as Hs.
  { subst shift. unfold LeastSignificantBit. destruct (Z.eqb_spec mask 0); [done|].
    unfold is_u in Hm. destruct (CTZ_spec mask) as [H0 _]; [lia|]. pose proof (CTZ_lt 32 mask). unfold is_u in *. lia. }
  destruct (dedup_table_spec equal_range equal_range_spec 2 n b [[mask ≫ shift; shift]])
    as (k & b' & E & Hk & Hb & Hp & Hrow); try done.
  - apply Forall_singleton. split; [done|]. repeat constructor; try lia.
    + apply Z.shiftr_nonneg. unfold is_u in Hm. lia.
    + unfold is_u in Hm. rewrite Z.shiftr_div_pow2 by lia. apply Z.div_lt_upper_bound; [lia|].
      pose proof (Z.pow_pos_nonneg 2 shift). nia.
  - exists k, b'. split_and!; try done. right. split; [done|]. exists k.
    assert (0 <= size b) by (unfold size; lia). pose proof (dt_size _ _ _ Ht).
    split_and!; try lia. specialize (Hrow 0%nat _ eq_refl). by rewrite Nat.add_0_r in Hrow.
Qed.

Lemma tables_le_register_masks t b :
  rows_ (t_register_masks t) `prefix_of` rows_ b -> tables_le t (with_register_masks b t).
Proof. intros H. by split. Qed.

Lemma BeginStackMapEntry_inv n s s' done us cur dex_pc native_pc mask sm kind needs l :
  inv n s done us cur -> n + 1 < 2 ^ 24 ->
  call_ok env (CallBeginStackMapEntry dex_pc native_pc mask sm kind needs l) ->
  BeginStackMapEntry equal_range dex_pc native_pc mask sm kind needs l s = Some s' ->
  cur = None /\ inv (n + 1) s' done us (Some (Desc dex_pc native_pc mask sm kind needs l [] [])).
Proof using equal_range_spec.
  intros H Hn Hok. destruct H. unfold BeginStackMapEntry.
  destruct (DCHECK (in_method_ s)); [|done]. simpl mbind.
  destruct (DCHECK (negb (in_stack_map_ s))) eqn:Ein; [|done]. apply DCHECK_true in Ein. simpl mbind.
  assert (cur = None) as -> by (rewrite iv_in0 in Ein; by destruct cur).
  destruct (DCHECK (_ || _)); [|done]. simpl mbind. rewrite iv_isa0.
  destruct (PackNativePc native_pc isa) as [packed|] eqn:Ep; [|done]. cbn [mbind option_bind].
  cbv zeta. destruct (check_order _ _) as [x|] eqn:Eo; [|done]. cbn [mbind option_bind].
  pose proof Hok as (Hu1 & Hu2 & Hu3 & Hk).
  assert (exists ri b', (if negb (mask =? 0) then
      let '(index, b) := Dedup equal_range (t_register_masks (tables_ s))
        [[mask ≫ LeastSignificantBit mask; LeastSignificantBit mask]] in
      ([kind; packed; dex_pc; index; kNoValue; kNoValue; kNoValue; kNoValue], with_register_masks b (tables_ s))
      else ([kind; packed; dex_pc; kNoValue; kNoValue; kNoValue; kNoValue; kNoValue], tables_ s)) =
      ([kind; packed; dex_pc; ri; kNoValue; kNoValue; kNoValue; kNoValue], with_register_masks b' (tables_ s)) /\
    dedup_table 2 (n + 1) b' /\ rows_ (t_register_masks (tables_ s)) `prefix_of` rows_ b' /\
    register_mask_at (rows_ b') ri mask) as (ri & b' & E & Hb & Hp & Hr).
  { destruct (Z.eqb_spec mask 0) as [->|Hne]; cbn [negb].
    - exists kNoValue, (t_register_masks (tables_ s)). split_and!; [by destruct (tables_ s)| |done|by left].
      eapply dedup_table_le; [done|lia].
    - destruct (register_mask_add n (t_register_masks (tables_ s)) mask) as (k & b' & E & H1 & H2 & H3); try done.
      exists (Z.of_nat k), b'. rewrite E. done. }
  rewrite E. intros [= <-]. split; [done|]. pose proof (tables_le_register_masks (tables_ s) b' Hp) as Hle.
  simpl in iv_n0. rewrite app_nil_r in *. rewrite Z.sub_0_r in *.
  split; simpl; try done; try lia; try (eapply dedup_table_le; [eassumption|lia]).
  - intros i row d Hi Hd. eapply row_ok_le; [exact Hle|]. by apply iv_rows0.
  - by rewrite iv_lazy0, map_app.
  - apply Forall_app. split; [done|]. apply Forall_singleton. by split.
  - intros d [= <-]. split; simpl; try done.
    + exists packed, ri. split_and!; try done. intros Hkc i Hi. simpl in Hi.
      by apply (check_order_rows (tables_ s) kind packed dex_pc x).
    + unfold count_at. simpl. rewrite iv_nd0. destruct needs; lia.
  - apply Forall_app. split.
    + eapply Forall_impl; [done|]. intros c. destruct c; simpl; try done; rewrite app_nil_r.
      * intros (i & d & ? & Hd & ?). exists i, d. split_and!; try tauto. by apply lookup_app_l_Some.
      * intros (i & d & k & inl & ? & Hd & ?). exists i, d, k, inl. split_and!; try tauto. by apply lookup_app_l_Some.
    + apply Forall_singleton. simpl. exists (length done), (Desc dex_pc native_pc mask sm kind needs l [] []).
      unfold size. simpl. rewrite iv_len0, lookup_app_r, Nat.sub_diag by lia. done.
Qed.

(** *** Inlined methods *)

Lemma count_at_add inl d k :
  (k <= length (de_inlines d))%nat -> count_at nd (add_inline inl d) k = count_at nd d k.
Proof. intros Hk. unfold count_at. simpl. by rewrite take_app_le. Qed.

Lemma count_at_new inl d :
  count_at nd (add_inline inl d) (S (length (de_inlines d))) =
    count_at nd d (length (de_inlines d)) + in_num inl.
Proof.
  unfold count_at. simpl. rewrite !take_ge by (rewrite ?length_app; simpl; lia).
  rewrite map_app, sum_app. simpl. lia.
Qed.

Lemma count_at_bound d k :
  Forall inline_desc_ok (de_inlines d) ->
  0 <= count_at nd d k <= 2 ^ 32 * (1 + Z.of_nat (length (de_inlines d))).
Proof using Hnd.
  intros Hi. unfold count_at.
  assert (0 <= sum (map in_num (take k (de_inlines d))) <= Z.of_nat (length (take k (de_inlines d))) * 2 ^ 32) as Hs.
  { rewrite <- (length_map in_num). apply sum_bound, Forall_map.
    eapply Forall_impl; [by apply Forall_take|]. intros inl (_ & _ & Hu & _). unfold is_u in Hu. simpl in Hu. lia. }
  rewrite length_take in Hs. unfold is_u in Hnd. destruct (de_needs d); lia.
Qed.

Lemma method_info_entry_wf method dex_pc outer :
  is_u 32 (GetDexMethodIndex env method) ->
  length (method_info_entry env method dex_pc outer) = 3%nat /\
  Forall (is_u 32) (method_info_entry env method dex_pc outer).
Proof.
  intros Hm. assert (is_u 32 kNoValue) as Hn by (unfold is_u, kNoValue; lia).
  assert (is_u 32 MethodInfo.kKindBCP) as Hb by (unfold is_u, MethodInfo.kKindBCP; lia).
  unfold method_info_entry. destruct (negb (dex_pc =? kNoValue));
    [destruct (negb (IsSameDexFile _ _)); [destruct (IsBootStrapClassLoaded env method)|]|].
  all: split; [done|]; apply Forall_cons; split; [done|]; apply Forall_cons; split; [done|];
    apply Forall_singleton; (done || (apply uN_is_u; lia)).
Qed.

(** The new row of an inlined method. *)
Lemma inline_entry_add n s d method dex_pc num outer :
  dedup_table 3 n (t_method_infos (tables_ s)) -> n + 1 < 2 ^ 24 ->
  call_ok env (CallBeginInlineInfoEntry method dex_pc num outer) ->
  let total := count_at nd d (length (de_inlines d)) + num in
  exists mi hi lo b',
    (if EncodeArtMethodInInlineInfo env then
       ([InlineInfo.kMore; dex_pc; kNoValue; High32Bits method; Low32Bits method; u32 total], tables_ s)
     else
       let '(index, b) := Dedup equal_range (t_method_infos (tables_ s)) [method_info_entry env method dex_pc outer] in
       ([InlineInfo.kMore; dex_pc; index; kNoValue; kNoValue; u32 total], with_method_infos b (tables_ s))) =
      ([InlineInfo.kMore; dex_pc; mi; hi; lo; u32 total], with_method_infos b' (tables_ s)) /\
    dedup_table 3 (n + 1) b' /\ rows_ (t_method_infos (tables_ s)) `prefix_of` rows_ b' /\
    inline_info env (rows_ b') (Inline method dex_pc num outer) total
      [InlineInfo.kMore; dex_pc; mi; hi; lo; u32 total].
Proof using equal_range_spec.
  intros Ht Hn (H1 & H2 & H3 & H4 & H5) total. unfold inline_info. simpl in_method. simpl in_dex_pc. simpl in_outer.
  destruct (EncodeArtMethodInInlineInfo env).
  - exists kNoValue, (High32Bits method), (Low32Bits method), (t_method_infos (tables_ s)).
    split_and!; [by destruct (tables_ s)|eapply dedup_table_le; [done|lia]|done|].
    by exists InlineInfo.kMore, kNoValue, (High32Bits method), (Low32Bits method).
  - destruct (dedup_table_spec equal_range equal_range_spec 3 n (t_method_infos (tables_ s))
      [method_info_entry env method dex_pc outer]) as (k & b' & E & Hk & Hb & Hp & Hrow); try done.
    { apply Forall_singleton. by apply method_info_entry_wf. }
    exists (Z.of_nat k), kNoValue, kNoValue, b'. rewrite E. split_and!; try done.
    exists InlineInfo.kMore, (Z.of_nat k), kNoValue, kNoValue. split; [done|]. split_and!; try done. exists k.
    split_and!; try done; [lia|]. specialize (Hrow 0%nat _ eq_refl). by rewrite Nat.add_0_r in Hrow.
Qed.

Lemma tables_le_method_infos t b :
  rows_ (t_method_infos t) `prefix_of` rows_ b -> tables_le t (with_method_infos b t).
Proof. intros H. by split. Qed.

Lemma inline_infos_add methods methods' d infos inl info :
  methods `prefix_of` methods' -> inline_infos_ok env nd methods d infos ->
  inline_info env methods' inl (count_at nd d (length (de_inlines d)) + in_num inl) info ->
  inline_infos_ok env nd methods' (add_inline inl d) (infos ++ [info]).
Proof.
  intros Hp Hok Hinfo. destruct (inline_infos_le env nd _ _ _ _ Hp Hok) as [Hl Hi].
  split; [simpl; rewrite !length_app; simpl; lia|]. intros k inl' info' Hk Hk'. simpl in Hk.
  destruct (decide (k < length (de_inlines d))%nat) as [Hlt|Hge].
  - rewrite lookup_app_l in Hk by done. rewrite lookup_app_l in Hk' by lia. rewrite count_at_add by lia. by apply Hi.
  - rewrite lookup_app_r in Hk by lia. rewrite lookup_app_r in Hk' by lia. rewrite Hl in Hk'.
    destruct (k - length (de_inlines d))%nat eqn:Ek; [|done]. simpl in Hk, Hk'. simplify_eq.
    assert (k = length (de_inlines d)) as -> by lia. by rewrite count_at_new.
Qed.

Lemma BeginInlineInfoEntry_inv n s s' done us cur method dex_pc num outer :
  inv n s done us cur -> n + 1 < 2 ^ 24 ->
  call_ok env (CallBeginInlineInfoEntry method dex_pc num outer) ->
  BeginInlineInfoEntry equal_range env method dex_pc num outer s = Some s' ->
  inv (n + 1) s' done us (add_inline (Inline method dex_pc num outer) <$> cur).
Proof using equal_range_spec Hnd.
  intros H Hn Hok. destruct H. unfold BeginInlineInfoEntry.
  destruct (DCHECK (in_stack_map_ s)) eqn:Ein; [|done]. apply DCHECK_true in Ein. simpl mbind.
  destruct cur as [d|]; [|by rewrite iv_in0 in Ein]. clear Ein.
  destruct (DCHECK (negb (in_inline_info_ s))); [|done]. cbn [mbind option_bind].
  destruct (DCHECK (_ =? _)); [|done]. cbv zeta. cbn [mbind option_bind].
  destruct (iv_cur0 d eq_refl) as [He Hin Hmore Hreg Hex]. rewrite Hex.
  apply Forall_app in iv_descs0 as [Hd1 Hd2]. pose proof (Forall_singleton desc_ok d) as Hsg. apply Hsg in Hd2 as [Hdb Hdr Hdi].
  simpl in iv_n0, iv_ii0, iv_mp0, iv_ct0. pose proof (count_at_bound d (length (de_inlines d)) Hdi) as Hcb.
  pose proof Hok as (H1 & H2 & H3 & H4 & H5).
  rewrite (uN_small 64) by (unfold is_u in *; lia).
  destruct (inline_entry_add n s d method dex_pc num outer iv_mi0 Hn Hok) as (mi & hi & lo & b' & E & Hb & Hp & Hinfo).
  change (set_column InlineInfo.kNumberOfDexRegisters (u32 (count_at nd d (length (de_inlines d)) + num))
     (set_column InlineInfo.kDexPc dex_pc (set_column InlineInfo.kIsLast InlineInfo.kMore (make_entry 6))))
    with [InlineInfo.kMore; dex_pc; kNoValue; kNoValue; kNoValue; u32 (count_at nd d (length (de_inlines d)) + num)].
  cbn [set_column insert list_insert InlineInfo.kArtMethodLo InlineInfo.kArtMethodHi InlineInfo.kMethodInfoIndex].
  rewrite E. intros [= <-]. pose proof (tables_le_method_infos (tables_ s) b' Hp) as Hle.
  set (inl := Inline method dex_pc num outer) in *. pose proof (proj1 Hin) as Hil.
  split; simpl; try done; try (rewrite ?length_app; simpl; lia);
    try (eapply dedup_table_le; [eassumption|rewrite ?length_app; simpl; lia]).
  - intros i row x Hi Hx. eapply row_ok_le; [exact Hle|]. by apply iv_rows0.
  - rewrite iv_lazy0, !map_app. done.
  - apply Forall_app. split; [done|]. apply Forall_singleton. split; simpl; try done.
    apply Forall_app. split; [done|]. by apply Forall_singleton.
  - intros x [= <-]. split; simpl; try done.
    + by eapply inline_infos_add.
    + intros k info Hi. apply lookup_app_Some in Hi as [Hi|[_ Hi]]; [by apply (Hmore k)|].
      destruct (k - _)%nat; [|done]. simpl in Hi. by injection Hi as <-.
    + rewrite length_app. simpl. replace (length (de_inlines d) + 1)%nat with (S (length (de_inlines d))) by lia.
      by rewrite count_at_new.
  - apply Forall_app. split.
    + eapply Forall_impl; [done|]. intros c. apply justified_update; try done. simpl. by apply prefix_app_r.
    + apply Forall_singleton. simpl. exists (length done), (add_inline inl d), (length (de_inlines d)), inl.
      unfold size. simpl. rewrite iv_len0, length_app. simpl.
      rewrite lookup_app_r, Nat.sub_diag by lia. split_and!; try done; [lia|].
      rewrite lookup_app_r, Nat.sub_diag by lia. done.
Qed.

(** *** The end of a stack map *)

Lemma mark_last_lookup infos k :
  mark_last infos !! k =
    (fun info => if (S k =? length infos)%nat then set_column InlineInfo.kIsLast InlineInfo.kLast info else info)
      <$> infos !! k.
Proof.
  unfold mark_last. destruct infos as [|x infos]; [done|]. set (l := x :: infos).
  assert (0 < length l)%nat by (simpl; lia). destruct (Nat.eqb_spec (S k) (length l)) as [E|E].
  - rewrite <- E. simpl. apply list_lookup_alter_eq.
  - rewrite list_lookup_alter_ne by lia. by destruct (l !! k).
Qed.

Lemma mark_last_length infos : length (mark_last infos) = length infos.
Proof. apply length_alter. Qed.

Lemma mark_last_ok methods d infos :
  inline_infos_ok env nd methods d infos ->
  (forall k info, infos !! k = Some info -> info !! InlineInfo.kIsLast = Some InlineInfo.kMore) ->
  inline_infos_ok env nd methods d (mark_last infos) /\
  forall k info, mark_last infos !! k = Some info ->
    info !! InlineInfo.kIsLast =
      Some (if (S k =? length (mark_last infos))%nat then InlineInfo.kLast else InlineInfo.kMore).
Proof.
  intros [Hl Hi] Hmore. split.
  - split; [by rewrite mark_last_length|]. intros k inl info Hk Hinfo. rewrite mark_last_lookup in Hinfo.
    destruct (infos !! k) as [info0|] eqn:E; [|done].
    destruct (Hi k inl info0 Hk E) as (last & mi & hi & lo & -> & H).
    destruct (S k =? length infos)%nat; injection Hinfo as <-; [exists InlineInfo.kLast|exists last];
      exists mi, hi, lo; by split.
  - intros k info Hinfo. rewrite mark_last_length. rewrite mark_last_lookup in Hinfo.
    destruct (infos !! k) as [info0|] eqn:E; [|done]. specialize (Hmore k info0 E).
    destruct (S k =? length infos)%nat; injection Hinfo as <-; [by destruct info0|done].
Qed.

Lemma inline_infos_wf n methods d infos :
  inline_infos_ok env nd methods d infos -> Forall inline_desc_ok (de_inlines d) ->
  (forall k info, infos !! k = Some info -> exists last, info !! InlineInfo.kIsLast = Some last /\ is_u 32 last) ->
  n = 6%nat -> wf_rows n infos.
Proof.
  intros [Hl Hi] Hd Hlast ->. apply Forall_lookup_2. intros k info Hk.
  destruct (lookup_lt_is_Some_2 (de_inlines d) k) as [inl Hinl]; [apply lookup_lt_Some in Hk; lia|].
  destruct (Hlast k info Hk) as (last' & Hl' & Hu').
  destruct (Hi k inl info Hinl Hk) as (last & mi & hi & lo & -> & H). injection Hl' as ->.
  eapply Forall_lookup_1 in Hd as (H1 & H2 & _); [|done]. split; [done|].
  assert (is_u 32 kNoValue) as Hn by (unfold is_u, kNoValue; lia).
  assert (is_u 32 mi /\ is_u 32 hi /\ is_u 32 lo) as (Hmi & Hhi & Hlo).
  { destruct (EncodeArtMethodInInlineInfo env).
    - destruct H as (-> & -> & ->). split_and!; [done|apply uN_is_u; lia|apply uN_is_u; lia].
    - destruct H as (-> & -> & j & -> & Hj & _). split_and!; try done. unfold is_u. lia. }
  repeat (apply Forall_cons; split; [first [done|apply uN_is_u; lia]|]). done.
Qed.

(** The rows of the inlined methods of the current stack map. *)
Lemma add_inlines n s d :
  cur_ok s d -> desc_ok d -> dedup_table 6 (n - Z.of_nat (length (de_inlines d))) (t_inline_infos (tables_ s)) ->
  n < 2 ^ 24 ->
  let infos := current_inline_infos_ s in
  exists ii infos' b',
    (if negb (bool_decide (infos = [])) then
       let '(index, b) := Dedup equal_range (t_inline_infos (tables_ s)) (mark_last infos) in
       (set_column StackMap.kInlineInfoIndex index (current_stack_map_ s), mark_last infos,
        with_inline_infos b (tables_ s))
     else (current_stack_map_ s, infos, tables_ s)) =
      (set_column StackMap.kInlineInfoIndex ii (current_stack_map_ s), infos', with_inline_infos b' (tables_ s)) /\
    is_u 32 ii /\ length infos' = length (de_inlines d) /\
    dedup_table 6 n b' /\ rows_ (t_inline_infos (tables_ s)) `prefix_of` rows_ b' /\
    forall t row, t_inline_infos t = b' -> rows_ (t_method_infos (tables_ s)) = rows_ (t_method_infos t) ->
      row !! StackMap.kInlineInfoIndex = Some ii ->
      row_inlines t row infos' /\ inline_infos_ok env nd (rows_ (t_method_infos t)) d infos'.
Proof using equal_range_spec.
  intros [(packed & ri & He & _) Hin Hmore _ _] Hd Ht Hn infos. pose proof Hin as [Hl _].
  fold infos in Hin, Hmore, Hl. case_bool_decide as Ei; cbn [negb].
  - exists kNoValue, infos, (t_inline_infos (tables_ s)).
    split_and!; try done; [by rewrite He; destruct (tables_ s)|eapply dedup_table_le; [done|lia]|].
    intros t row Hb Hm Hrow. rewrite <- Hm. split; [by left|done].
  - destruct (mark_last_ok _ d infos Hin Hmore) as [Hin' Hmarks].
    destruct (dedup_table_spec equal_range equal_range_spec 6 (n - Z.of_nat (length (de_inlines d)))
      (t_inline_infos (tables_ s)) (mark_last infos)) as (p & b' & E & Hp & Hb & Hpre & Hrow); try done.
    + eapply inline_infos_wf; [done|apply Hd| |done]. intros k info Hk. eexists. split; [by apply (Hmarks k)|].
      destruct (S k =? length (mark_last infos))%nat; unfold is_u, InlineInfo.kLast, InlineInfo.kMore, kNoValue; lia.
    + rewrite mark_last_length, Hl. lia.
    + rewrite E. rewrite mark_last_length, Hl in Hb. assert (1 <= Z.of_nat (length (de_inlines d))).
      { destruct infos; [done|]. simpl in Hl. lia. }
      exists (Z.of_nat p), (mark_last infos), b'. split_and!; try done.
      * unfold is_u. lia.
      * by rewrite mark_last_length.
      * eapply dedup_table_le; [done|lia].
      * intros t row Hbt Hm Hr. rewrite <- Hm. split; [|done]. right. split.
        { intros Hnil. apply (f_equal length) in Hnil. rewrite mark_last_length in Hnil. simpl in Hnil. lia. }
        exists p. split_and!; [done|rewrite mark_last_length; lia|]. split; [|done]. rewrite Hbt. apply Hrow.
Qed.

(** The state after [CreateDexRegisterMap]: [u] is what the stack map stores. *)
Record created (s s' : StackMapStream) (us : nat -> change) (n : Z) (u : change) (mi pi : Z) : Prop := {
  cr_isa : instruction_set_ s' = instruction_set_ s;
  cr_nd : num_dex_registers_ s' = num_dex_registers_ s;
  cr_lazy : lazy_stack_masks_ s' = lazy_stack_masks_ s;
  cr_in : in_stack_map_ s' = in_stack_map_ s;
  cr_entry : current_stack_map_ s' =
    set_column StackMap.kDexRegisterMapIndex pi
      (set_column StackMap.kDexRegisterMaskIndex mi (current_stack_map_ s));
  cr_mi : is_u 32 mi;
  cr_pi : is_u 32 pi;
  cr_tables : exists masks maps catalog, tables_ s' = with_dex_registers masks maps catalog (tables_ s);
  cr_le : tables_le (tables_ s) (tables_ s');
  cr_delta : forall row t, row !! StackMap.kDexRegisterMaskIndex = Some mi ->
    row !! StackMap.kDexRegisterMapIndex = Some pi ->
    t_dex_register_masks t = t_dex_register_masks (tables_ s') ->
    t_dex_register_maps t = t_dex_register_maps (tables_ s') ->
    t_dex_register_catalog t = t_dex_register_catalog (tables_ s') -> row_delta t row u;
  cr_maps : dedup_table 1 n (t_dex_register_maps (tables_ s'));
  cr_catalog : dedup_table 2 n (t_dex_register_catalog (tables_ s'));
  cr_masks : bitmaps_ok (t_dex_register_masks (tables_ s'));
  cr_masks_size : bitmap_size (t_dex_register_masks (tables_ s')) <= bitmap_size (t_dex_register_masks (tables_ s)) + 1;
  cr_masks_max : max_num_bits_ (t_dex_register_masks (tables_ s')) <= n;
  cr_temp : growable (temp_dex_register_mask_ s');
  cr_hist : let k := length (rows_ (t_stack_maps (tables_ s))) in
    history (extend us k u) (S k) (previous_dex_registers_ s') (dex_register_timestamp_ s');
  cr_found : let k := length (rows_ (t_stack_maps (tables_ s))) in
    forall r loc, current_dex_registers_ s !! r = Some loc ->
      default LocationNone (recent (extend us k u) (S k) (Z.of_nat r)) = loc /\
      covered (extend us k u) k (Z.of_nat r) }.

(** The arrays of previous registers and of timestamps, grown. *)
Lemma grown_history us k s :
  let regs := current_dex_registers_ s in
  history us k (previous_dex_registers_ s) (dex_register_timestamp_ s) ->
  exists previous timestamp,
    (if (length (previous_dex_registers_ s) <? length regs)%nat then
       (grow (length regs) LocationNone (previous_dex_registers_ s), grow (length regs) 0 (dex_register_timestamp_ s))
     else (previous_dex_registers_ s, dex_register_timestamp_ s)) = (previous, timestamp) /\
    history us k previous timestamp /\ (length regs <= length previous)%nat.
Proof.
  intros regs H. destruct (Nat.ltb_spec (length (previous_dex_registers_ s)) (length regs)) as [Hlt|Hge].
  - eexists _, _. split; [done|]. split; [apply history_grow; [done|lia]|].
    unfold grow. rewrite length_app, length_replicate. lia.
  - by eexists _, _.
Qed.

Lemma delta_start N regs previous timestamp catalog n s :
  (length regs <= length previous)%nat -> growable (temp_dex_register_mask_ s) -> dedup_table 2 n catalog ->
  delta_inv N regs previous timestamp catalog n 0
    (Delta (ClearAllBits (temp_dex_register_mask_ s)) [] previous timestamp catalog).
Proof.
  intros Hl Hw Hc. destruct (ClearAllBits_spec _ (proj1 Hw)) as [Hw' Hb].
  split; cbn [d_mask d_map d_previous d_timestamp d_catalog]; try done.
  - split; [done|apply Hw].
  - intros j Hj. rewrite Hb by done. by destruct (Z.ltb_spec j (Z.of_nat 0)) as [H|H]; [lia|].
  - by apply Forall_nil_2.
  - intros r loc Hs Hr. apply stored_Some in Hs as [? _]. lia.
  - by rewrite Z.add_0_r.
Qed.

(** The mask of the changed registers. *)
Lemma mask_added masks v entry n :
  bitmaps_ok masks -> bitmap_size masks < 2 ^ 24 -> max_num_bits_ masks <= n -> wf v ->
  GetNumberOfBits v <= n ->
  exists mi masks',
    (if negb (GetNumberOfBits v =? 0) then
       '(index, b) ← BitmapDedup equal_range masks (raw_storage v) (GetNumberOfBits v);
       Some (set_column StackMap.kDexRegisterMaskIndex index entry, b)
     else Some (entry, masks)) =
      Some (if GetNumberOfBits v =? 0 then entry else set_column StackMap.kDexRegisterMaskIndex mi entry, masks') /\
    bitmaps_ok masks' /\ bitmap_size masks' <= bitmap_size masks + 1 /\ max_num_bits_ masks' <= n /\
    bitmap_rows_ masks `prefix_of` bitmap_rows_ masks' /\
    ((GetNumberOfBits v = 0 /\ mi = kNoValue /\ forall i, 0 <= i -> bits v i = false) \/
     exists k mask, GetNumberOfBits v <> 0 /\ mi = Z.of_nat k /\ Z.of_nat k < 2 ^ 25 /\ bitmap_rows_ masks' !! k = Some mask /\
       forall i, 0 <= i -> mbit (bytes_memory mask) i = bits v i).
Proof using equal_range_spec.
  intros Hok Hsz Hmax Hv Hn. destruct (raw_storage_tight v Hv) as (Hb & Hlen & Ht & Hbits & Hz & _).
  destruct (Z.eqb_spec (GetNumberOfBits v) 0) as [E|E]; cbn [negb].
  - exists kNoValue, masks. split_and!; try (done || lia). left. split_and!; try done. by apply Hz.
  - destruct (BitmapDedup_spec equal_range equal_range_spec masks (raw_storage v) (GetNumberOfBits v))
      as (index & b' & Ed & Hi & Hok' & Hpre & Hs' & Hm' & Hm'' & Hrow); try (done || lia).
    rewrite Ed. exists index, b'. split; [done|]. split_and!; try (done || lia). right.
    exists (Z.to_nat index). eexists. split_and!; [done|lia| |done|done].
    apply lookup_lt_Some in Hrow. unfold bitmap_size in *. lia.
Qed.

(** The row that stores the changed registers, with their mask at [mi] and their locations at [p]. *)
Lemma delta_row row t masks v N regs previous timestamp mi (p : nat) :
  let u := stored N regs previous timestamp in
  Forall location_ok regs -> Z.of_nat p < 2 ^ 24 ->
  (forall j, 0 <= j -> bits v j = (j <? Z.of_nat (length regs)) && changed u j) ->
  row !! StackMap.kDexRegisterMaskIndex = Some mi -> row !! StackMap.kDexRegisterMapIndex = Some (Z.of_nat p) ->
  t_dex_register_masks t = masks ->
  ((GetNumberOfBits v = 0 /\ mi = kNoValue /\ forall i, 0 <= i -> bits v i = false) \/
   exists k mask, GetNumberOfBits v <> 0 /\ mi = Z.of_nat k /\ Z.of_nat k < 2 ^ 25 /\ bitmap_rows_ masks !! k = Some mask /\
     forall i, 0 <= i -> mbit (bytes_memory mask) i = bits v i) ->
  (forall r loc, u r = Some loc -> r < Z.of_nat (length regs) -> exists index,
     rows_ (t_dex_register_maps t) !! Z.to_nat (Z.of_nat p + rank u r) = Some [index] /\
     location_at (rows_ (t_dex_register_catalog t)) index loc) ->
  row_delta t row u.
Proof.
  clear method_args. intros u Hok Hp Hbits Hmi Hpi Et Hm Hmap.
  assert (forall r loc, u r = Some loc -> 0 <= r < Z.of_nat (length regs) /\ invalid loc = false) as Hin.
  { intros r loc Hu. apply stored_Some in Hu as (Hr0 & Hr & _). pose proof (lookup_lt_Some _ _ _ Hr). split; [lia|].
    by eapply Forall_lookup_1 in Hok as [? _]. }
  assert (forall r, 0 <= r -> bits v r = changed u r) as Hch.
  { intros r Hr. rewrite Hbits by done. unfold changed. destruct (u r) eqn:Eu; [|by rewrite andb_false_r].
    apply Hin in Eu as [? _]. by rewrite (proj2 (Z.ltb_lt _ _)) by lia. }
  split; [intros r loc Hu; apply Hin in Hu; tauto|].
  destruct Hm as [(_ & -> & Hz)|(k & mask & _ & -> & Hk & Hmask & Hb)]; [left|right].
  - split; [|done]. intros r. destruct (u r) as [loc|] eqn:Eu; [|done]. destruct (Hin r loc Eu) as [Hr _].
    specialize (Hch r ltac:(lia)). rewrite Hz in Hch by lia. unfold changed in Hch. by rewrite Eu in Hch.
  - exists k, mask, p. rewrite Et. split_and!; try done; [unfold kNoValue; lia| |].
    + intros r Hr. by rewrite Hb, Hch.
    + intros r loc Hu. apply Hmap; [done|]. apply Hin in Hu. lia.
Qed.

Lemma CreateDexRegisterMap_created n s s' us a b c e f g :
  let k := length (rows_ (t_stack_maps (tables_ s))) in
  let regs := current_dex_registers_ s in
  current_stack_map_ s = [a; b; c; e; f; g; kNoValue; kNoValue] ->
  Z.of_nat k < 2 ^ 24 -> n < 2 ^ 24 -> Z.of_nat (length regs) <= n ->
  history us k (previous_dex_registers_ s) (dex_register_timestamp_ s) ->
  regs <> [] -> Forall location_ok regs -> growable (temp_dex_register_mask_ s) ->
  dedup_table 1 (n - Z.of_nat (length regs)) (t_dex_register_maps (tables_ s)) ->
  dedup_table 2 (n - Z.of_nat (length regs)) (t_dex_register_catalog (tables_ s)) ->
  bitmaps_ok (t_dex_register_masks (tables_ s)) ->
  bitmap_size (t_dex_register_masks (tables_ s)) < 2 ^ 24 ->
  max_num_bits_ (t_dex_register_masks (tables_ s)) <= n ->
  CreateDexRegisterMap equal_range s = Some s' ->
  exists u mi pi, created s s' us n u mi pi /\ pi <> kNoValue /\
    dchecks_ s' = dchecks_ s ++ [CheckRegisters (Z.of_nat k) regs].
Proof using equal_range_spec.
  intros k regs He Hk Hn Hlen Hh Hne Hok Ht Hmp Hct Hdm Hdms Hdmm. unfold CreateDexRegisterMap.
  destruct (grown_history us k s Hh) as (previous & timestamp & Eg & Hh' & Hl'). fold regs in Eg, Hl' |- *.
  rewrite Eg. clear Eg. unfold size. fold k.
  set (d0 := Delta _ _ _ _ _). set (cat := t_dex_register_catalog (tables_ s)) in *.
  destruct (delta_loop equal_range (Z.of_nat k) 0 regs d0) as [d|] eqn:Ed; [|done]. cbn [mbind option_bind].
  pose proof (hi_len _ _ _ _ Hh') as Htl. pose proof (history_le _ _ _ _ Hh') as Hts.
  pose proof (delta_loop_inv equal_range equal_range_spec (Z.of_nat k) regs previous timestamp cat
    (n - Z.of_nat (length regs)) ltac:(lia) Hok Hl' Htl Hts ltac:(lia) ltac:(lia) d0 d
    (delta_start _ _ _ _ _ _ s Hl' Ht Hct) Ed) as Hd. clear Ed d0.
  set (u := stored (Z.of_nat k) regs previous timestamp) in *.
  destruct Hd as [Hw Hbits Hml Hmw Hmap Hp' Ht' Hcat' Hpre]. fold u in Hbits, Hml, Hmap.
  destruct (raw_storage_tight (d_mask d) (proj1 Hw)) as (Hnb & _ & _ & _ & _ & Hout).
  assert (GetNumberOfBits (d_mask d) <= Z.of_nat (length regs)) as Hnbl.
  { destruct (GetHighestBitSet_spec (d_mask d) (proj1 Hw)) as [[E _]|(H1 & H2 & _)]; unfold GetNumberOfBits; [lia|].
    fold (bits (d_mask d) (GetHighestBitSet (d_mask d))) in H2. rewrite Hbits in H2 by lia.
    apply andb_true_iff in H2 as [H2 _]. lia. }
  destruct (mask_added (t_dex_register_masks (tables_ s)) (d_mask d) (current_stack_map_ s) n)
    as (mi & masks' & Em & Hm1 & Hm2 & Hm3 & Hm4 & Hm5); try (done || lia || apply Hw).
  rewrite Em. cbn [mbind option_bind]. clear Em.
  rewrite (bool_decide_eq_false_2 (regs = [])) by done. cbn [negb].
  pose proof (rank_bound u (Z.of_nat (length regs)) ltac:(lia)) as Hrb.
  destruct (dedup_table_spec equal_range equal_range_spec 1 (n - Z.of_nat (length regs))
    (t_dex_register_maps (tables_ s)) (d_map d)) as (p & maps' & Ep & Hp1 & Hp2 & Hp3 & Hp4); [done|done|lia|].
  rewrite Ep. intros [= <-]. assert (Z.of_nat p < 2 ^ 24) by lia.
  assert (1 <= Z.of_nat (length regs)) by (destruct regs; [done|]; simpl; lia).
  exists u, mi, (Z.of_nat p). split; [|split; [unfold kNoValue; lia|done]].
  split; simpl; try done.
  - rewrite He. destruct (Z.eqb_spec (GetNumberOfBits (d_mask d)) 0) as [E0|E0]; [|done].
    by destruct Hm5 as [(_ & -> & _)|(kk & mask & ? & _)].
  - destruct Hm5 as [(_ & -> & _)|(kk & mask & _ & -> & ? & _)]; unfold is_u, kNoValue; lia.
  - unfold is_u. lia.
  - by eexists _, _, _.
  - intros row t Hrow6 Hrow7 E1 E2 E3. eapply (delta_row row t masks' (d_mask d)); try (done || lia).
    intros r loc Hu Hr. destruct (Hmap r loc Hu Hr) as (index & Hi & Hloc). exists index. rewrite E2, E3. split; [|done].
    pose proof (stored_Some _ _ _ _ _ _ Hu) as (Hr0 & _). pose proof (rank_bound u r Hr0). specialize (Hp4 _ _ Hi).
    fold u. by replace (Z.to_nat (Z.of_nat p + rank u r)) with (p + Z.to_nat (rank u r))%nat by lia.
  - eapply dedup_table_le; [done|]. lia.
  - by replace n with (n - Z.of_nat (length regs) + Z.of_nat (length regs)) by lia.
  - by eapply history_stored.
  - intros r loc Hr. by eapply stored_found.
Qed.

(** Without registers, nothing is stored. *)
Lemma no_registers_created n s us a b c e f g :
  let k := length (rows_ (t_stack_maps (tables_ s))) in
  current_stack_map_ s = [a; b; c; e; f; g; kNoValue; kNoValue] -> current_dex_registers_ s = [] ->
  history us k (previous_dex_registers_ s) (dex_register_timestamp_ s) ->
  growable (temp_dex_register_mask_ s) ->
  dedup_table 1 n (t_dex_register_maps (tables_ s)) ->
  dedup_table 2 n (t_dex_register_catalog (tables_ s)) ->
  bitmaps_ok (t_dex_register_masks (tables_ s)) -> max_num_bits_ (t_dex_register_masks (tables_ s)) <= n ->
  created s s us n (fun _ => None) kNoValue kNoValue.
Proof.
  intros k He Hr [Hl Hlast Hb] Hw Hmp Hct Hdm Hdmm.
  assert (forall j r, (j < S k)%nat -> ((j < k)%nat -> us j r = None) -> extend us k (fun _ => None) j r = None) as Hx.
  { intros j r Hj H. destruct (decide (j = k)) as [->|]; [by rewrite extend_eq|]. rewrite extend_lt by lia. apply H. lia. }
  split; try done; try (unfold is_u, kNoValue; lia).
  - by rewrite He.
  - exists (t_dex_register_masks (tables_ s)), (t_dex_register_maps (tables_ s)), (t_dex_register_catalog (tables_ s)).
    by destruct (tables_ s).
  - intros row t H6 _ _ _ _. split; [done|]. by left.
  - fold k. split; [done| |].
    + intros r p ts Hp Ht. destruct (Hlast r p ts Hp Ht) as [(j & -> & Hj & Hu & Hn)|(-> & -> & Hn)].
      * left. exists j. split_and!; [done|lia|by rewrite extend_lt|]. intros j' Hj'. apply Hx; [lia|].
        intros. apply Hn. lia.
      * right. split_and!; try done. intros j Hj. apply Hx; [done|]. apply Hn.
    + intros r j Hr' Hj. apply Hx; [done|]. intros. apply Hb; lia.
  - cbv zeta. intros r loc Hloc. rewrite Hr in Hloc. by rewrite lookup_nil in Hloc.
Qed.

(** A new row behind the sorted ones. *)
Lemma sorted_rows_snoc t t' row :
  rows_ (t_stack_maps t') = rows_ (t_stack_maps t) ++ [row] -> sorted_rows t ->
  (column row StackMap.kKind <> StackMap.Catch -> forall i, (i < length (rows_ (t_stack_maps t)))%nat ->
     sm_column t i StackMap.kKind <> StackMap.Catch /\
     sm_column t i StackMap.kPackedNativePc <= column row StackMap.kPackedNativePc) ->
  sorted_rows t'.
Proof.
  intros E Hs Hrow.
  assert (forall i c, (i < length (rows_ (t_stack_maps t)))%nat -> sm_column t' i c = sm_column t i c) as Hold.
  { intros i c Hi. unfold sm_column. by rewrite E, lookup_app_l. }
  assert (forall c, sm_column t' (length (rows_ (t_stack_maps t))) c = column row c) as Hnew.
  { intros c. unfold sm_column. by rewrite E, lookup_app_r, Nat.sub_diag by lia. }
  clear Hnd. intros i j Hij Hj. rewrite E, length_app in Hij. simpl in Hij.
  destruct (decide (j = length (rows_ (t_stack_maps t)))) as [->|Hne].
  - rewrite Hnew in Hj |- *. rewrite !Hold by lia. apply Hrow; [done|lia].
  - rewrite Hold in Hj |- * by lia. rewrite !Hold by lia. apply Hs; [lia|done].
Qed.

Lemma PackNativePc_is_u native_pc packed : is_u 32 native_pc -> PackNativePc native_pc isa = Some packed -> is_u 32 packed.
Proof.
  clear Hnd.
  unfold PackNativePc. destruct (GetInstructionSetInstructionAlignment isa) as [al|] eqn:E; [|done]. simpl.
  destruct (IsAligned al native_pc); [|done]. intros Hu [= <-]. unfold is_u in *.
  apply alignment_cases in E as [->|[->| ->]]; Z.div_mod_to_equations; lia.
Qed.

Lemma kind_is_u kind :
  kind = StackMap.Default \/ kind = StackMap.Catch \/ kind = StackMap.OSR \/ kind = StackMap.Debug -> is_u 32 kind.
Proof.
  unfold is_u, StackMap.Default, StackMap.Catch, StackMap.OSR, StackMap.Debug, kNoValue.
  intros [->|[->|[->| ->]]]; lia.
Qed.

Lemma register_mask_at_is_u rows index mask : register_mask_at rows index mask -> is_u 32 index.
Proof. unfold is_u. intros [[_ ->]|(_ & k & -> & ? & _)]; unfold kNoValue; lia. Qed.

(** The row of the new stack map. *)
Lemma new_row_ok s s1 s2 d us n u mi pi ii infos packed ri :
  created s1 s2 us n u mi pi -> desc_ok d ->
  current_stack_map_ s1 = [de_kind d; packed; de_dex_pc d; ri; kNoValue; ii; kNoValue; kNoValue] ->
  PackNativePc (de_native_pc d) isa = Some packed ->
  register_mask_at (rows_ (t_register_masks (tables_ s))) ri (de_register_mask d) ->
  t_register_masks (tables_ s1) = t_register_masks (tables_ s) ->
  (pi = kNoValue <-> de_registers d = []) ->
  (de_registers d <> [] -> count_at nd d (length (de_inlines d)) = Z.of_nat (length (de_registers d))) ->
  is_u 32 ii ->
  (forall t row, t_inline_infos t = t_inline_infos (tables_ s1) ->
     rows_ (t_method_infos (tables_ s1)) = rows_ (t_method_infos t) ->
     row !! StackMap.kInlineInfoIndex = Some ii ->
     row_inlines t row infos /\ inline_infos_ok env nd (rows_ (t_method_infos t)) d infos) ->
  let row := [de_kind d; packed; de_dex_pc d; ri; kNoValue; ii; mi; pi] in
  current_stack_map_ s2 = row /\ (length row = 8%nat /\ Forall (is_u 32) row) /\
  row_ok isa env nd (with_stack_maps (Add (t_stack_maps (tables_ s2)) row) (tables_ s2)) d u kNoValue row.
Proof.
  intros Hc Hd He Hp Hr Erm Hpi Hcnt Hii Hinl row. destruct (dk_begin _ Hd) as (H1 & H2 & H3 & H4).
  split; [rewrite (cr_entry _ _ _ _ _ _ _ Hc), He; done|]. split.
  - split; [done|]. pose proof (kind_is_u _ H4). pose proof (PackNativePc_is_u _ _ H2 Hp).
    pose proof (register_mask_at_is_u _ _ _ Hr). pose proof (cr_mi _ _ _ _ _ _ _ Hc). pose proof (cr_pi _ _ _ _ _ _ _ Hc).
    assert (is_u 32 kNoValue) by (unfold is_u, kNoValue; lia).
    repeat (apply Forall_cons; split; [done|]). done.
  - destruct (cr_tables _ _ _ _ _ _ _ Hc) as (masks & maps & cat & Et). split.
    + exists packed, ri, ii, mi, pi. split_and!; try done; try tauto.
      simpl. rewrite Et. simpl. by rewrite Erm.
    + exists infos. apply Hinl; try done; simpl; by rewrite Et.
    + by apply (cr_delta _ _ _ _ _ _ _ Hc).
    + done.
Qed.

(** A check of a complete stack map stays justified; the current one becomes complete. *)
Lemma justified_done done d check : justified done (Some d) check -> justified (done ++ [d]) None check.
Proof.
  destruct check; simpl; try done; rewrite ?app_nil_r; try done.
  - intros (i & x & ? & Hx & ?). exists i, x. split_and!; try tauto. by apply lookup_app_l_Some.
  - intros (i & x & ? & Hx & ?). exists i, x. split_and!; try tauto. by apply lookup_app_l_Some.
Qed.

(** The row is appended, and the description is complete. *)
Lemma add_row_inv n s s1 s2 done us d u mi pi row checks infos :
  inv n s done us (Some d) -> created s1 s2 us n u mi pi ->
  instruction_set_ s1 = instruction_set_ s -> num_dex_registers_ s1 = num_dex_registers_ s ->
  lazy_stack_masks_ s1 = lazy_stack_masks_ s -> in_stack_map_ s1 = false ->
  current_dex_registers_ s1 = de_registers d ->
  (exists b, tables_ s1 = with_inline_infos b (tables_ s) /\ dedup_table 6 n b /\
     rows_ (t_inline_infos (tables_ s)) `prefix_of` rows_ b) ->
  (column row StackMap.kKind <> StackMap.Catch -> forall i, (i < length done)%nat ->
     sm_column (tables_ s) i StackMap.kKind <> StackMap.Catch /\
     sm_column (tables_ s) i StackMap.kPackedNativePc <= column row StackMap.kPackedNativePc) ->
  (length row = 8%nat /\ Forall (is_u 32) row) ->
  row_ok isa env nd (with_stack_maps (Add (t_stack_maps (tables_ s2)) row) (tables_ s2)) d u kNoValue row ->
  dchecks_ s2 = dchecks_ s ++ checks -> Forall (justified (done ++ [d]) None) checks ->
  infos = Z.of_nat (length (de_inlines d)) ->
  let b := Add (t_stack_maps (tables_ s2)) row in
  inv (n + 1) (add_dcheck (CheckEnd (size b - 1) (Z.of_nat (length (de_registers d))) infos)
    (with_tables (with_stack_maps b (tables_ s2)) s2)) (done ++ [d]) (extend us (length done) u) None.
Proof.
  intros H Hc E1 E2 E3 E4 E5 (bi & Et1 & Hbi & Hpi) Hord Hwf Hrow Hck Hcks -> b. destruct H. destruct Hc.
  destruct cr_tables0 as (masks & maps & cat & Et2). rewrite E5 in cr_found0.
  rewrite Et1 in Et2, cr_le0, cr_hist0, cr_found0, cr_masks_size0. simpl in cr_hist0, cr_found0, cr_masks_size0.
  rewrite iv_len0 in cr_hist0, cr_found0.
  assert (t_stack_maps (tables_ s2) = t_stack_maps (tables_ s)) as Esm by (by rewrite Et2).
  assert (rows_ b = rows_ (t_stack_maps (tables_ s)) ++ [row]) as Erows by (subst b; simpl; by rewrite Esm).
  assert (length (rows_ b) = S (length done)) as Elen by (rewrite Erows, length_app, iv_len0; simpl; lia).
  assert (tables_le (tables_ s) (with_stack_maps b (tables_ s2))) as Hle.
  { destruct cr_le0. split; try done. simpl. by rewrite Et2. }
  simpl in iv_n0. split; simpl; rewrite ?app_nil_r; try congruence; try lia.
  all: try (eapply dedup_table_le; [eassumption|lia]).
  - rewrite length_app. simpl. lia.
  - rewrite Esm, !length_app, iv_len0. done.
  - rewrite Esm. intros i row' d' Hi Hd'. apply lookup_app_Some in Hi as [Hi|[Hge Hi]].
    + assert (i < length done)%nat by (apply lookup_lt_Some in Hi; lia). rewrite lookup_app_l in Hd' by done.
      rewrite extend_lt by done. eapply row_ok_le; [exact Hle|]. by apply iv_rows0.
    + rewrite iv_len0 in Hge, Hi. rewrite lookup_app_r in Hd' by done.
      destruct (i - length done)%nat eqn:Ei; [|done]. simpl in Hi, Hd'. injection Hi as <-. injection Hd' as <-.
      assert (i = length done) as -> by lia. by rewrite extend_eq.
  - rewrite Esm. apply Forall_app. split; [done|]. by apply Forall_singleton.
  - eapply (sorted_rows_snoc (tables_ s)); [exact Erows|done|]. by rewrite iv_len0.
  - eapply dedup_table_le; [rewrite Et2; simpl; eassumption|lia].
  - eapply dedup_table_le; [rewrite Et2; simpl; eassumption|lia].
  - eapply dedup_table_le; [rewrite Et2; simpl; eassumption|lia].
  - by rewrite Et2.
  - by rewrite cr_lazy0, E3.
  - by rewrite length_app, Nat.add_1_r.
  - intros i d' r loc Hd' Hr. apply lookup_app_Some in Hd' as [Hd'|[Hge Hd']].
    + pose proof (lookup_lt_Some _ _ _ Hd'). destruct (iv_found0 i d' r loc Hd' Hr) as [Hf1 Hf2].
      pose proof (recent_extend us (length done) u (S i) (Z.of_nat r) ltac:(lia)) as Hre. simpl in Hre, Hf1.
      split; [by rewrite Hre|by apply covered_extend].
    + destruct (i - length done)%nat eqn:Ei; [|done]. simpl in Hd'. injection Hd' as <-.
      assert (i = length done) as -> by lia. by apply cr_found0.
  - done.
  - rewrite Hck, <- app_assoc. apply Forall_app. split; [|apply Forall_app; split; [done|]].
    + eapply Forall_impl; [done|]. intros c. apply justified_done.
    + apply Forall_singleton. simpl. exists (length done), d. unfold size. rewrite Elen.
      rewrite lookup_app_r, Nat.sub_diag by lia. split_and!; try done. lia.
Qed.

(** The registers of the current stack map, if it has some. *)
Lemma registers_created n s s2 us d a b c e f g :
  let k := length (rows_ (t_stack_maps (tables_ s))) in
  current_stack_map_ s = [a; b; c; e; f; g; kNoValue; kNoValue] ->
  current_dex_registers_ s = de_registers d -> Forall location_ok (de_registers d) ->
  expected_num_dex_registers_ s = count_at nd d (length (de_inlines d)) ->
  Z.of_nat k + Z.of_nat (length (de_registers d)) <= n -> n < 2 ^ 24 ->
  history us k (previous_dex_registers_ s) (dex_register_timestamp_ s) -> growable (temp_dex_register_mask_ s) ->
  dedup_table 1 (n - Z.of_nat (length (de_registers d))) (t_dex_register_maps (tables_ s)) ->
  dedup_table 2 (n - Z.of_nat (length (de_registers d))) (t_dex_register_catalog (tables_ s)) ->
  bitmaps_ok (t_dex_register_masks (tables_ s)) -> bitmap_size (t_dex_register_masks (tables_ s)) <= n ->
  max_num_bits_ (t_dex_register_masks (tables_ s)) <= n ->
  (if negb (bool_decide (current_dex_registers_ s = [])) then
     _ ← DCHECK (expected_num_dex_registers_ s =? Z.of_nat (length (current_dex_registers_ s)));
     CreateDexRegisterMap equal_range s
   else Some s) = Some s2 ->
  exists u mi pi, created s s2 us n u mi pi /\ (pi = kNoValue <-> de_registers d = []) /\
    (de_registers d <> [] -> count_at nd d (length (de_inlines d)) = Z.of_nat (length (de_registers d))) /\
    dchecks_ s2 = dchecks_ s ++
      (if bool_decide (de_registers d = []) then [] else [CheckRegisters (Z.of_nat k) (de_registers d)]).
Proof using equal_range_spec.
  intros k He Hr Hok Hex Hn Hn24 Hh Hw Hmp Hct Hdm Hdms Hdmm. rewrite Hr.
  case_bool_decide as Hnil; cbn [negb].
  - intros [= <-]. exists (fun _ => None), kNoValue, kNoValue. split; [|by rewrite app_nil_r].
    rewrite Hnil in *. simpl in Hmp, Hct. rewrite Z.sub_0_r in Hmp, Hct. by eapply no_registers_created.
  - destruct (DCHECK _) as [[]|] eqn:Ed; [|done]. apply DCHECK_true, Z.eqb_eq in Ed. cbn [mbind option_bind]. intros HC.
    destruct (CreateDexRegisterMap_created n s s2 us a b c e f g) as (u & mi & pi & Hc & Hne & Hck);
      try (done || lia); try (rewrite Hr; (done || lia)).
    exists u, mi, pi. split_and!; try done; [by rewrite <- Ed|]. by rewrite Hck, Hr.
Qed.

Lemma EndStackMapEntry_inv n s s' done us cur :
  inv n s done us cur -> n < 2 ^ 24 -> EndStackMapEntry equal_range s = Some s' ->
  exists d us', cur = Some d /\ inv (n + 1) s' (done ++ [d]) us' None.
Proof using equal_range_spec.
  intros H Hn. pose proof H as H0. destruct H0. unfold EndStackMapEntry.
  destruct (DCHECK (in_stack_map_ s)) as [[]|] eqn:Ein; [|done]. apply DCHECK_true in Ein. cbn [mbind option_bind].
  destruct cur as [d|]; [|by rewrite iv_in0 in Ein]. clear Ein.
  pose proof (iv_cur0 d eq_refl) as Hcur. simpl in iv_n0, iv_ii0, iv_mp0, iv_ct0.
  assert (desc_ok d) as Hd by (apply Forall_app in iv_descs0 as [_ Hd]; by apply (Forall_singleton desc_ok d) in Hd).
  destruct (add_inlines n s d Hcur Hd iv_ii0 Hn) as (ii & infos' & b' & E & Hii & Hil & Hb' & Hpre & Hinl).
  cbv zeta. rewrite E. clear E. destruct Hcur as [(packed & ri & He & Hpk & Hrm & Hord) _ _ Hreg Hex].
  rewrite He. cbn [set_column insert list_insert StackMap.kInlineInfoIndex].
  set (s1 := with_current _ _ _ _ _ _ _ _). intros HE.
  destruct (if negb (bool_decide (current_dex_registers_ s1 = [])) then _ else _) as [s2|] eqn:E2; [|done].
  cbn [mbind option_bind] in HE. injection HE as <-.
  destruct (registers_created n s1 s2 us d (de_kind d) packed (de_dex_pc d) ri kNoValue ii)
    as (u & mi & pi & Hc & Hpi & Hcnt & Hck); try done; try (subst s1; simpl; (done || lia || apply Hd)).
  { subst s1. simpl. by rewrite iv_len0. }
  destruct (new_row_ok s s1 s2 d us n u mi pi ii infos' packed ri) as (Hrow & Hwf & Hok); try done.
  exists d, (extend us (length done) u). split; [done|]. rewrite Hrow.
  change (length (current_dex_registers_ s1)) with (length (current_dex_registers_ s)). rewrite Hreg.
  eapply (add_row_inv n s s1 s2); try done.
  - by exists b'.
  - intros Hk i Hi. apply Hord; [done|]. by rewrite iv_len0.
  - case_bool_decide as Hnil; [done|]. apply Forall_singleton. cbn [justified]. exists (length done), d.
    change (tables_ s1) with (with_inline_infos b' (tables_ s)). simpl. rewrite iv_len0, lookup_app_r, Nat.sub_diag by lia. done.
  - by rewrite Hil.
Qed.

(** *** Sequences of calls *)

Lemma do_call_inv masks n s s' c st us :
  inv n s st.1 us st.2 -> n + 1 < 2 ^ 24 -> call_ok env c -> do_call equal_range env masks c s = Some s' ->
  exists us', inv (n + 1) s' (describe_call st c).1 us' (describe_call st c).2.
Proof using equal_range_spec Hnd.
  intros H Hn Hc. destruct st as [done cur]. cbn [fst snd] in H.
  destruct c as [| |dex_pc native_pc mask sm kind needs l| |kind value|method dex_pc num outer|]; try done; simpl.
  - intros E. destruct (BeginStackMapEntry_inv _ _ _ _ _ _ _ _ _ _ _ _ _ H Hn Hc E) as [-> E']. by exists us.
  - intros E. destruct (EndStackMapEntry_inv _ _ _ _ _ _ H ltac:(lia) E) as (d & us' & -> & E'). by exists us'.
  - intros [= <-]. exists us. by apply AddDexRegisterEntry_inv.
  - intros E. pose proof (BeginInlineInfoEntry_inv _ _ _ _ _ _ _ _ _ _ H Hn Hc E). by exists us.
  - intros E. pose proof (EndInlineInfoEntry_inv _ _ _ _ _ _ H E). by exists us.
Qed.

Lemma do_calls_inv masks calls n s s' st us :
  inv n s st.1 us st.2 -> n + Z.of_nat (length calls) < 2 ^ 24 -> Forall (call_ok env) calls ->
  do_calls equal_range env masks calls s = Some s' ->
  exists us', inv (n + Z.of_nat (length calls)) s' (foldl describe_call st calls).1 us'
    (foldl describe_call st calls).2.
Proof using equal_range_spec Hnd.
  intros H Hn Hc. revert n s st us H Hn. induction Hc as [|c calls Hc Hcs IH]; intros n s st us H Hn E.
  - exists us. simpl in *. injection E as <-. by rewrite Z.add_0_r.
  - cbn [do_calls] in E. destruct (do_call equal_range env masks c s) as [s1|] eqn:E1; [|done].
    cbn [mbind option_bind] in E. cbn [length] in Hn.
    destruct (do_call_inv masks n s s1 c st us) as [us1 H1]; try (done || lia).
    destruct (IH (n + 1) s1 (describe_call st c) us1 H1) as [us2 H2]; [lia|done|].
    exists us2. cbn [foldl length]. by replace (n + Z.of_nat (S (length calls))) with (n + 1 + Z.of_nat (length calls)) by lia.
Qed.
End invariant.
