(* ===== verification/StackMapVerify.v ===== *)
(** The encoded stack maps of a method pass all the checks that a debug build makes of them, and
    what readers of them find. *)
From S2P Require Import Prelude BitUtils Memory BitMemory BitVector BitTable BitmapTable StackMap.
From S2P Require Import StackMapStream StackMapTables StackMapReader StackMapDelta StackMapInvariant.

(** ** The begin of a method *)

Lemma empty_dedup k n : 0 <= n -> dedup_table k n empty_builder.
Proof. intros Hn. split; simpl; [by apply Forall_nil_2|by apply Forall_nil_2|done]. Qed.

Lemma empty_bitmaps_ok : bitmaps_ok empty_bitmaps.
Proof. split; simpl; [by apply Forall_nil_2|by apply Forall_nil_2|lia]. Qed.

Lemma BeginMethod_inv isa env frame core fp nd baseline debuggable s :
  BeginMethod frame core fp nd baseline debuggable (MakeStream isa) = Some s ->
  inv isa env nd (frame, core, fp, nd) 0 s [] (fun _ _ => None) None.
Proof.
  unfold BeginMethod. simpl. destruct (DCHECK (IsAligned _ _)); [|done]. simpl. intros [= <-].
  split; simpl; try done; try (by apply empty_dedup); try lia.
  - by apply Forall_nil_2.
  - split; [split; simpl; [|lia]|done]. apply Forall_singleton. unfold is_u. lia.
  - by apply Forall_singleton.
Qed.

(** The fields that the calls between the begin and the end of a method do not change. *)
Definition statics (s : StackMapStream) :=
  (instruction_set_ s, st_code_size_ s, st_packed_frame_size_ s, st_core_spill_mask_ s,
   st_fp_spill_mask_ s, num_dex_registers_ s, baseline_ s, debuggable_ s).

Lemma CreateDexRegisterMap_statics er s s' : CreateDexRegisterMap er s = Some s' -> statics s' = statics s.
Proof.
  unfold CreateDexRegisterMap. destruct (if (_ <? _)%nat then _ else _) as [previous timestamp].
  destruct (delta_loop _ _ _ _ _) as [d|]; [|done]. cbn [mbind option_bind].
  destruct (if negb _ then _ else _) as [[entry masks]|]; [|done]. cbn [mbind option_bind].
  destruct (if negb _ then _ else _) as [entry' maps]. by intros [= <-].
Qed.

Ltac dcheck_step :=
  match goal with
  | |- context [DCHECK ?b] => destruct (DCHECK b) as [[]|]; [cbn [mbind option_bind]|done]
  end.

Lemma do_call_statics er env masks c s s' :
  call_ok env c -> do_call er env masks c s = Some s' -> statics s' = statics s.
Proof.
  destruct c as [| |dex_pc native_pc mask sm kind needs l| |kind value|method dex_pc num outer|]; intros Hc; try done;
    cbn [do_call].
  - unfold BeginStackMapEntry. do 3 dcheck_step. destruct (PackNativePc _ _); [|done]. cbn [mbind option_bind].
    destruct (check_order _ _); [|done]. cbn [mbind option_bind].
    destruct (if negb _ then _ else _) as [entry t]. by intros [= <-].
  - unfold EndStackMapEntry. dcheck_step. cbv zeta. destruct (if negb _ then _ else _) as [[entry infos] t].
    set (s1 := with_current _ _ _ _ _ _ _ _). assert (statics s1 = statics s) as <- by done. clearbody s1.
    destruct (if negb (bool_decide (current_dex_registers_ s1 = [])) then _ else _) as [s2|] eqn:E; [|done].
    cbn [mbind option_bind]. intros [= <-]. transitivity (statics s2); [done|].
    case_bool_decide; simpl in E; [by injection E as <-|].
    destruct (DCHECK _); [|done]. cbn [mbind option_bind] in E. by eapply CreateDexRegisterMap_statics.
  - by intros [= <-].
  - unfold BeginInlineInfoEntry. do 3 dcheck_step. cbv zeta.
    destruct (if EncodeArtMethodInInlineInfo env then _ else _) as [entry t]. by intros [= <-].
  - unfold EndInlineInfoEntry. do 2 dcheck_step. by intros [= <-].
Qed.

Lemma do_calls_statics er env masks calls s s' :
  Forall (call_ok env) calls -> do_calls er env masks calls s = Some s' -> statics s' = statics s.
Proof.
  intros Hc. revert s. induction Hc as [|c calls Hc _ IH]; intros s; cbn [do_calls]; [by intros [= <-]|].
  destruct (do_call er env masks c s) as [s1|] eqn:E; [|done]. cbn [mbind option_bind]. intros E'.
  rewrite (IH _ E'). by eapply do_call_statics.
Qed.

(** ** The stack masks *)

Section masks.
Context (equal_range : list (Z * Z) -> Z -> list Z).
Hypothesis equal_range_spec : forall d h, equal_range d h ≡ₚ (filter (fun p => p.1 = h) d).*2.
Context (masks : Z -> BitVector).

(** The bits of a stack mask. *)
Definition mask_bit (stack_mask : option Z) (i : Z) : bool :=
  match stack_mask with Some p => bits (masks p) i | None => false end.

Definition mask_ok (stack_mask : option Z) : Prop :=
  match stack_mask with Some p => wf (masks p) /\ GetNumberOfBits (masks p) < 2 ^ 16 | None => True end.

(** The column of the stack mask. *)
Definition stack_mask_at (b : BitmapTableBuilder) (si : Z) (stack_mask : option Z) : Prop :=
  (si = kNoValue /\ forall i, 0 <= i -> mask_bit stack_mask i = false) \/
  exists k bytes, si = Z.of_nat k /\ Z.of_nat k < 2 ^ 25 /\ bitmap_rows_ b !! k = Some bytes /\
    forall i, 0 <= i -> mbit (bytes_memory bytes) i = mask_bit stack_mask i.

(** The first [i] stack masks are read into [t]; [t0] are the tables before. *)
Record read_inv (t0 : Tables) (lazy : list (option Z)) (i : nat) (t : Tables) : Prop := {
  ri_tables : exists sm b, t = with_stack_maps sm (with_stack_masks b t0);
  ri_len : length (rows_ (t_stack_maps t)) = length (rows_ (t_stack_maps t0));
  ri_rows : forall j row0, rows_ (t_stack_maps t0) !! j = Some row0 -> exists si,
    rows_ (t_stack_maps t) !! j = Some (set_column StackMap.kStackMaskIndex si row0) /\ is_u 32 si /\
    ((i <= j)%nat -> si = kNoValue) /\
    ((j < i)%nat -> forall mask, lazy !! j = Some mask -> stack_mask_at (t_stack_masks t) si mask);
  ri_masks : bitmaps_ok (t_stack_masks t);
  ri_size : bitmap_size (t_stack_masks t) <= Z.of_nat i;
  ri_max : max_num_bits_ (t_stack_masks t) < 2 ^ 16 }.

Lemma stack_mask_at_le b b' si mask :
  bitmap_rows_ b `prefix_of` bitmap_rows_ b' -> stack_mask_at b si mask -> stack_mask_at b' si mask.
Proof.
  intros Hp [H|(k & bytes & ? & ? & Hk & ?)]; [by left|]. right. exists k, bytes. split_and!; try done.
  by eapply prefix_lookup_Some.
Qed.

(** A stack mask that is not stored. *)
Lemma read_skip t0 lazy i t mask :
  read_inv t0 lazy i t -> lazy !! i = Some mask -> (forall b, 0 <= b -> mask_bit mask b = false) ->
  read_inv t0 lazy (S i) t.
Proof.
  intros [H1 H2 H3 H4 H5 H6] Hi Hz. split; try done; [|lia].
  intros j row0 Hj. destruct (H3 j row0 Hj) as (si & Hr & Hu & Hge & Hlt). exists si. split_and!; try done.
  - intros. apply Hge. lia.
  - intros Hji m Hm. destruct (decide (j = i)) as [->|]; [|apply Hlt; (done || lia)].
    left. split; [by apply Hge|]. rewrite Hi in Hm. by injection Hm as <-.
Qed.

Lemma set_column_twice c v w row : set_column c v (set_column c w row) = set_column c v row.
Proof. apply list_insert_insert_eq. Qed.

Lemma read_store t0 lazy i t p index b' row :
  read_inv t0 lazy i t -> lazy !! i = Some (Some p) ->
  rows_ (t_stack_maps t) !! i = Some row ->
  stack_mask_at b' index (Some p) -> is_u 32 index ->
  bitmaps_ok b' -> bitmap_rows_ (t_stack_masks t) `prefix_of` bitmap_rows_ b' ->
  bitmap_size b' <= bitmap_size (t_stack_masks t) + 1 -> max_num_bits_ b' < 2 ^ 16 ->
  let sm := t_stack_maps t in
  read_inv t0 lazy (S i)
    (with_stack_maps (Builder (<[i := set_column StackMap.kStackMaskIndex index row]> (rows_ sm)) (dedup_ sm))
      (with_stack_masks b' t)).
Proof.
  intros [(sm0 & b0 & ->) H2 H3 H4 H5 H6] Hi Hrow Hat Hu Hok Hpre Hsz Hmax sm. split; simpl in *; try done.
  - by eexists _, _.
  - by rewrite length_insert.
  - intros j row0 Hj. destruct (H3 j row0 Hj) as (si & Hr & Hsu & Hge & Hlt).
    destruct (decide (j = i)) as [->|Hne].
    + exists index. rewrite Hr in Hrow. injection Hrow as <-.
      rewrite list_lookup_insert_eq by (by eapply lookup_lt_Some). rewrite set_column_twice.
      split_and!; try done; [lia|]. intros _ m Hm. rewrite Hi in Hm. by injection Hm as <-.
    + exists si. rewrite list_lookup_insert_ne by done. split_and!; try done.
      * intros. apply Hge. lia.
      * intros Hji m Hm. eapply stack_mask_at_le; [exact Hpre|]. apply Hlt; (done || lia).
  - lia.
Qed.

Lemma read_stack_masks_inv t0 lazy t' :
  Forall mask_ok lazy -> Z.of_nat (length lazy) < 2 ^ 24 ->
  read_inv t0 lazy 0 t0 -> read_stack_masks equal_range masks lazy 0 t0 = Some t' ->
  read_inv t0 lazy (length lazy) t'.
Proof using equal_range_spec.
  intros Hok Hlen.
  assert (forall l i t, drop i lazy = l -> (i + length l = length lazy)%nat -> read_inv t0 lazy i t ->
    read_stack_masks equal_range masks l i t = Some t' -> read_inv t0 lazy (i + length l) t') as H.
  2:{ intros H0 E. by apply (H lazy 0%nat t0). }
  intros l. induction l as [|mask l IH]; intros i t Hd Hil Hi E.
  { simpl in *. injection E as <-. by rewrite Nat.add_0_r. }
  assert (lazy !! i = Some mask) as Hmask by (rewrite <- (Nat.add_0_r i), <- lookup_drop, Hd; done).
  assert (drop (S i) lazy = l) as Hd' by (rewrite <- Nat.add_1_r, <- drop_drop, Hd; done).
  simpl length in *. replace (i + S (length l))%nat with (S i + length l)%nat by lia.
  pose proof (Forall_lookup_1 _ _ _ _ Hok Hmask) as Hm. cbn [read_stack_masks] in E.
  destruct mask as [p|]; [destruct Hm as [Hw Hnb]|].
  2:{ cbn [mbind option_bind] in E. eapply IH; [done|lia| |done]. by eapply read_skip. }
  destruct (raw_storage_tight (masks p) Hw) as (Hb & Hl & Ht & Hbits & Hz & _).
  destruct (Z.eqb_spec (GetNumberOfBits (masks p)) 0) as [E0|E0]; cbn [negb] in E.
  { cbn [mbind option_bind] in E. eapply IH; [done|lia| |done]. eapply read_skip; [done..|]. by apply Hz. }
  pose proof (ri_size _ _ _ _ Hi). pose proof (ri_max _ _ _ _ Hi).
  destruct (BitmapDedup_spec equal_range equal_range_spec (t_stack_masks t) (raw_storage (masks p))
    (GetNumberOfBits (masks p))) as (index & b' & Ed & Hidx & Hok' & Hpre & Hs' & Hm' & Hm'' & Hrow);
    [apply Hi|lia|lia|done|done|].
  rewrite Ed in E. cbn [mbind option_bind] in E.
  destruct (rows_ (t_stack_maps t) !! i) as [row|] eqn:Er; [|done]. cbn [mbind option_bind] in E.
  eapply IH; [done|lia| |done]. eapply read_store; try done; [|lia].
  right. exists (Z.to_nat index). eexists. split_and!; [lia| |done|done].
  apply lookup_lt_Some in Hrow. unfold bitmap_size in *. lia.
Qed.
End masks.

(** ** The end of a method *)

Lemma describe_small calls st k :
  0 <= k -> (forall d, d ∈ st.1 ++ option_list st.2 -> Z.of_nat (length (de_registers d)) <= k) ->
  forall d, d ∈ (foldl describe_call st calls).1 ++ option_list (foldl describe_call st calls).2 ->
    Z.of_nat (length (de_registers d)) <= k + Z.of_nat (length calls).
Proof.
  revert st k. induction calls as [|c calls IH]; intros [done cur] k Hk Hst d Hd; cbn [foldl length] in *.
  { specialize (Hst d Hd). lia. }
  replace (k + Z.of_nat (S (length calls))) with (k + 1 + Z.of_nat (length calls)) by lia.
  eapply IH; [lia| |exact Hd]. clear d Hd. cbn [fst snd] in Hst. intros d Hd.
  assert (forall x, x ∈ done -> Z.of_nat (length (de_registers x)) <= k + 1) as Hdone.
  { intros x Hx. specialize (Hst x ltac:(apply elem_of_app; by left)). lia. }
  destruct c; simpl in Hd; try (specialize (Hst d Hd); lia).
  - apply elem_of_app in Hd as [Hd|Hd]; [by apply Hdone|]. apply list_elem_of_singleton in Hd as ->. simpl. lia.
  - rewrite app_nil_r in Hd. specialize (Hst d Hd). lia.
  - apply elem_of_app in Hd as [Hd|Hd]; [by apply Hdone|]. destruct cur as [x|]; simpl in Hd; [|by apply not_elem_of_nil in Hd].
    apply list_elem_of_singleton in Hd as ->. simpl. rewrite length_app. simpl.
    specialize (Hst x ltac:(apply elem_of_app; right; by apply list_elem_of_singleton)). lia.
  - apply elem_of_app in Hd as [Hd|Hd]; [by apply Hdone|]. destruct cur as [x|]; simpl in Hd; [|by apply not_elem_of_nil in Hd].
    apply list_elem_of_singleton in Hd as ->. simpl.
    specialize (Hst x ltac:(apply elem_of_app; right; by apply list_elem_of_singleton)). lia.
Qed.

Section finished.
Context (isa : InstructionSet) (env : Environment) (nd : Z) (masks : Z -> BitVector).

(** The tables of a method whose stack maps are [done]. *)
Record finished (t : Tables) (done : list StackMapDesc) (us : nat -> change) : Prop := {
  fi_isa : exists alignment, GetInstructionSetInstructionAlignment isa = Some alignment;
  fi_len : length (rows_ (t_stack_maps t)) = length done;
  fi_small : Z.of_nat (length done) < 2 ^ 16;
  fi_rows : forall i row d, rows_ (t_stack_maps t) !! i = Some row -> done !! i = Some d -> exists si,
    row_ok isa env nd t d (us i) si row /\ stack_mask_at masks (t_stack_masks t) si (de_stack_mask d);
  fi_wf : wf_rows 8 (rows_ (t_stack_maps t));
  fi_sorted : sorted_rows t;
  fi_tables : tables_ok t;
  fi_dm : bitmaps_ok (t_dex_register_masks t);
  fi_dm_max : max_num_bits_ (t_dex_register_masks t) < 2 ^ 16;
  fi_sm : bitmaps_ok (t_stack_masks t);
  fi_found : forall i d r loc, done !! i = Some d -> de_registers d !! r = Some loc ->
    default LocationNone (recent us (S i) (Z.of_nat r)) = loc /\ covered us i (Z.of_nat r);
  fi_descs : Forall (desc_ok env) done }.

(** Setting the column of the stack mask. *)
Lemma row_ok_mask t d u si row :
  row_ok isa env nd t d u kNoValue row ->
  row_ok isa env nd t d u si (set_column StackMap.kStackMaskIndex si row).
Proof.
  intros [(packed & ri & ii & mi & pi & -> & H) (infos & Hi & Hok) Hd Hc]. split; [| | |done].
  - by exists packed, ri, ii, mi, pi.
  - exists infos. split; [|done]. destruct Hi as [[-> Hi]|Hi]; [by left|by right].
  - destruct Hd as [Hr Hd]. split; [done|]. destruct Hd as [Hd|Hd]; [by left|by right].
Qed.

Lemma bitmaps_ok_small b n :
  bitmaps_ok b -> bitmap_size b <= n -> max_num_bits_ b < 2 ^ 16 -> n < 2 ^ 16 -> any_ok (ABitmap b).
Proof.
  intros Hok Hs Hmax Hn. split; [|done]. pose proof (bo_max _ Hok).
  assert (0 <= bitmap_size b) by (unfold bitmap_size; lia). split_and!; [lia|lia|lia|nia].
Qed.

Lemma dedup_table_any k n b : dedup_table k n b -> n < 2 ^ 24 -> (k <= 8)%nat -> any_ok (ATable k b).
Proof. intros [H _ Hs] Hn Hk. split_and!; (done || lia). Qed.

Context (equal_range : list (Z * Z) -> Z -> list Z).
Hypothesis equal_range_spec : forall d h, equal_range d h ≡ₚ (filter (fun p => p.1 = h) d).*2.
Context (args : Z * Z * Z * Z).

(** Before any stack mask is read. *)
Lemma read_start n s done us :
  inv isa env nd args n s done us None -> read_inv masks (tables_ s) (lazy_stack_masks_ s) 0 (tables_ s).
Proof.
  intros H. destruct H. split; try done; rewrite ?iv_sm; try done.
  - exists (t_stack_maps (tables_ s)), (t_stack_masks (tables_ s)). by destruct (tables_ s).
  - intros j row0 Hj. exists kNoValue. split_and!; try done; [|intros; lia].
    destruct (lookup_lt_is_Some_2 done j) as [d Hd]; [apply lookup_lt_Some in Hj; lia|].
    destruct (iv_rows j row0 d Hj Hd) as [(? & ? & ? & ? & ? & -> & _) _ _ _]. done.
Qed.

(** Reading the stack masks changes their column only. *)
Lemma read_wf t lazy t' :
  read_inv masks t lazy (length lazy) t' -> wf_rows 8 (rows_ (t_stack_maps t)) -> wf_rows 8 (rows_ (t_stack_maps t')).
Proof.
  intros [_ Hlen Hrows _ _ _] Hwf. apply Forall_lookup_2. intros i row Hi.
  destruct (lookup_lt_is_Some_2 (rows_ (t_stack_maps t)) i) as [row0 Hr0]; [apply lookup_lt_Some in Hi; lia|].
  destruct (Hrows i row0 Hr0) as (si & Hr & Hu & _). rewrite Hr in Hi. injection Hi as <-.
  eapply Forall_lookup_1 in Hwf as [Hl8 Hf8]; [|done]. unfold set_column. split; [by rewrite length_insert|].
  by apply Forall_insert.
Qed.

Lemma read_sorted t lazy t' :
  read_inv masks t lazy (length lazy) t' -> sorted_rows t -> sorted_rows t'.
Proof.
  intros [_ Hlen Hrows _ _ _] Hs.
  assert (forall i c, (i < length (rows_ (t_stack_maps t')))%nat -> c <> StackMap.kStackMaskIndex ->
    sm_column t' i c = sm_column t i c) as Hsm.
  { intros i c Hi Hc. destruct (lookup_lt_is_Some_2 (rows_ (t_stack_maps t)) i) as [row0 Hr0]; [lia|].
    destruct (Hrows i row0 Hr0) as (si & Hr & _). unfold sm_column. rewrite Hr, Hr0. unfold column, set_column.
    by rewrite list_lookup_insert_ne by done. }
  intros i j Hij. rewrite !Hsm by (done || lia). apply Hs. lia.
Qed.

Lemma read_tables_ok n s done us sm b :
  inv isa env nd args n s done us None -> n < 2 ^ 16 -> wf_rows 8 (rows_ sm) ->
  length (rows_ sm) = length done -> bitmaps_ok b -> bitmap_size b <= n -> max_num_bits_ b < 2 ^ 16 ->
  tables_ok (with_stack_maps sm (with_stack_masks b (tables_ s))).
Proof.
  intros H Hn Hwf Hl Hb Hbs Hbm. destruct H. simpl in iv_n, iv_ii, iv_mp, iv_ct.
  repeat (apply Forall_cons; split); [..|by apply Forall_nil_2].
  - split_and!; [done|lia|]. unfold size. simpl. lia.
  - eapply dedup_table_any; [eassumption|lia|lia].
  - apply (bitmaps_ok_small _ n); simpl; (done || lia).
  - eapply dedup_table_any; [eassumption|lia|lia].
  - eapply dedup_table_any; [eassumption|lia|lia].
  - apply (bitmaps_ok_small _ n); simpl; (done || lia).
  - eapply dedup_table_any; [eassumption|lia|lia].
  - eapply dedup_table_any; [eassumption|lia|lia].
Qed.

Lemma EndMethod_finished n s s' done us code_size :
  inv isa env nd args n s done us None -> 0 <= n < 2 ^ 16 ->
  Forall (fun d => mask_ok masks (de_stack_mask d)) done ->
  EndMethod equal_range masks code_size s = Some s' ->
  finished (tables_ s') done us /\
  dchecks_ s' = dchecks_ s ++ [CheckCodeSize code_size] /\ st_code_size_ s' = u32 code_size /\
  statics s' = statics (with_method false (u32 code_size) s) /\
  in_stack_map_ s' = in_stack_map_ s /\ in_inline_info_ s' = in_inline_info_ s.
Proof using equal_range_spec.
  intros H Hn Hmok. unfold EndMethod. dcheck_step. cbv zeta. set (s1 := with_method false (u32 code_size) s).
  destruct (read_stack_masks equal_range masks (lazy_stack_masks_ s1) 0 (tables_ s1)) as [t|] eqn:Er; [|done].
  cbn [mbind option_bind]. change (instruction_set_ (with_tables t s1)) with (instruction_set_ s). rewrite (iv_isa _ _ _ _ _ _ _ _ _ H).
  destruct (PackNativePc (u32 code_size) isa) as [packed|] eqn:Ep; [|done]. cbn [mbind option_bind].
  dcheck_step. intros [= <-]. split; [|done]. cbn [tables_ add_dcheck with_tables].
  change (lazy_stack_masks_ s1) with (lazy_stack_masks_ s) in Er. change (tables_ s1) with (tables_ s) in Er.
  pose proof (read_start n s done us H) as H0. pose proof (iv_lazy _ _ _ _ _ _ _ _ _ H) as Hlazy.
  simpl in Hlazy. rewrite app_nil_r in Hlazy. pose proof H as []. simpl in iv_n. rewrite app_nil_r in iv_descs.
  eapply (read_stack_masks_inv equal_range equal_range_spec masks (tables_ s)) in Er; [|rewrite Hlazy; by apply Forall_map
    |rewrite Hlazy, length_map; lia|done].
  pose proof (read_wf _ _ _ Er iv_wf) as Hwf. pose proof (read_sorted _ _ _ Er iv_sorted) as Hsort.
  rewrite Hlazy in Er. destruct Er as [(sm & b & ->) Hlen Hrows Hbok Hbs Hbm]. simpl in Hlen, Hbok, Hbs, Hbm, Hwf.
  rewrite length_map in Hbs. split; simpl; try done; try lia.
  - unfold PackNativePc in Ep. destruct (GetInstructionSetInstructionAlignment isa) as [a|]; [by exists a|done].
  - intros i row d Hi Hd.
    destruct (lookup_lt_is_Some_2 (rows_ (t_stack_maps (tables_ s))) i) as [row0 Hr0]; [apply lookup_lt_Some in Hi; lia|].
    destruct (Hrows i row0 Hr0) as (si & Hr & _ & _ & Hat). simpl in Hr. rewrite Hr in Hi. injection Hi as <-.
    exists si. split.
    + apply row_ok_mask. eapply row_ok_le; [|by eapply iv_rows]. by split.
    + apply Hat; [rewrite length_map; by eapply lookup_lt_Some|]. by rewrite list_lookup_fmap, Hd.
  - eapply read_tables_ok; try done; lia.
Qed.
End finished.

(** ** The checks *)

(** A function for finitely many choices; [a] is its value elsewhere. *)
Lemma finite_choice {A} (P : nat -> A -> Prop) n :
  (forall i, (i < n)%nat -> exists x, P i x) -> forall a, exists f, (forall i, (i < n)%nat -> P i (f i)) /\ forall i, (n <= i)%nat -> f i = a.
Proof.
  intros H a. induction n as [|n IH]; [by exists (fun _ => a); split; [lia|]|].
  destruct IH as (f & Hf & Ha); [intros i Hi; apply H; lia|]. destruct (H n ltac:(lia)) as [x Hx].
  exists (fun i => if decide (i = n) then x else f i). split; intros i Hi; case_decide; try lia; [by subst|apply Hf; lia|apply Ha; lia].
Qed.


(** The stack maps that can be looked up are described differently. *)
Definition has_native_pc (d : StackMapDesc) : Prop :=
  de_kind d = StackMap.Default \/ de_kind d = StackMap.OSR.

Record lookups_ok (done : list StackMapDesc) : Prop := {
  lo_native : forall i j d d', done !! i = Some d -> done !! j = Some d' ->
    has_native_pc d -> has_native_pc d' -> de_native_pc d = de_native_pc d' -> i = j;
  lo_catch_list : forall i d, done !! i = Some d -> de_kind d = StackMap.Catch ->
    de_dex_pc_list d = de_dex_pc d :: map in_dex_pc (de_inlines d);
  lo_catch : forall i j d d', done !! i = Some d -> done !! j = Some d' ->
    de_kind d = StackMap.Catch -> de_kind d' = StackMap.Catch ->
    de_dex_pc_list d = de_dex_pc_list d' -> i = j }.

(** The lists of dex files are indexed by 32 bits. *)
Definition dex_files_ok (env : Environment) : Prop :=
  Z.of_nat (length (GetBootClassPath env)) < 2 ^ 32 /\ Z.of_nat (length (GetDexFilesForOatFile env)) < 2 ^ 32.

(** Inlined registers only follow those of the outer method. *)
Definition registers_ok (nd : Z) (d : StackMapDesc) : Prop :=
  de_registers d = [] \/ de_needs d = true \/ nd = 0.

Section checks.
Context (isa : InstructionSet) (env : Environment) (nd : Z) (masks : Z -> BitVector).
Context (m : memory) (ci : CodeInfo) (t : Tables) (done : list StackMapDesc) (us : nat -> change).
Hypothesis Hm : bytes_ok m.
Hypothesis Hsh : shows_tables m ci t.
Hypothesis Hfin : finished isa env nd masks t done us.
Hypothesis Hnd : is_u 32 nd.
Hypothesis Hci_nd : number_of_dex_registers_ ci = nd.
Hypothesis Hlook : lookups_ok done.
Hypothesis Hmok : Forall (fun d => mask_ok masks (de_stack_mask d)) done.
Hypothesis Hfiles : dex_files_ok env.
Hypothesis Hregs : Forall (registers_ok nd) done.
Hypothesis Hsmall : Forall (fun d => Z.of_nat (length (de_registers d)) < 2 ^ 24) done.

(** The row of a stack map. *)
Lemma row_of i d :
  done !! i = Some d -> exists row si, rows_ (t_stack_maps t) !! i = Some row /\
    row_ok isa env nd t d (us i) si row /\ stack_mask_at masks (t_stack_masks t) si (de_stack_mask d).
Proof using Hfin.
  intros Hd. pose proof (lookup_lt_Some _ _ _ Hd).
  destruct (lookup_lt_is_Some_2 (rows_ (t_stack_maps t)) i) as [row Hr]; [rewrite (fi_len _ _ _ _ _ _ _ Hfin); lia|].
  destruct (fi_rows _ _ _ _ _ _ _ Hfin i row d Hr Hd) as (si & H1 & H2). by exists row, si.
Qed.

(** The columns of a stack map. *)
Lemma columns_of i d :
  done !! i = Some d ->
  sm_column t i StackMap.kKind = de_kind d /\ sm_column t i StackMap.kDexPc = de_dex_pc d /\
  PackNativePc (de_native_pc d) isa = Some (sm_column t i StackMap.kPackedNativePc).
Proof using Hfin.
  intros Hd. destruct (row_of i d Hd) as (row & si & Hr & [(packed & ri & ii & mi & pi & -> & Hp & _) _ _ _] & _).
  unfold sm_column. by rewrite Hr.
Qed.

Lemma desc_of i d : done !! i = Some d -> desc_ok env d.
Proof using Hfin. intros Hd. by eapply Forall_lookup_1 in Hd; [|apply Hfin]. Qed.

Lemma row_delta_of i row : rows_ (t_stack_maps t) !! i = Some row -> row_delta t row (us i).
Proof using Hfin.
  intros Hr. destruct (lookup_lt_is_Some_2 done i) as [d Hd].
  { rewrite <- (fi_len _ _ _ _ _ _ _ Hfin). by eapply lookup_lt_Some. }
  destruct (fi_rows _ _ _ _ _ _ _ Hfin i row d Hr Hd) as (si & [_ _ H _] & _). done.
Qed.

(** The inverse of packing a PC. *)
Lemma PackNativePc_mul pc packed alignment :
  GetInstructionSetInstructionAlignment isa = Some alignment -> is_u 32 pc ->
  PackNativePc pc isa = Some packed -> pc = packed * alignment /\ 0 <= packed.
Proof.
  intros Ha Hu. unfold PackNativePc. rewrite Ha. simpl. destruct (IsAligned alignment pc) eqn:E; [|done].
  intros [= <-]. pose proof (IsAligned_alignment isa alignment pc Ha E). apply alignment_cases in Ha.
  unfold is_u in Hu. split; [lia|]. apply Z.div_pos; lia.
Qed.

Lemma pcs_fit_all alignment :
  GetInstructionSetInstructionAlignment isa = Some alignment -> pcs_fit t alignment.
Proof using Hfin.
  intros Ha i Hi. rewrite (fi_len _ _ _ _ _ _ _ Hfin) in Hi. destruct (lookup_lt_is_Some_2 _ _ Hi) as [d Hd].
  destruct (columns_of i d Hd) as (_ & _ & Hp). destruct (dk_begin _ _ (desc_of i d Hd)) as (_ & Hu & _).
  destruct (PackNativePc_mul _ _ _ Ha Hu Hp). unfold is_u in Hu. lia.
Qed.

(** *** Looking up a stack map *)

Lemma native_lookup i d :
  done !! i = Some d -> has_native_pc d ->
  GetStackMapForNativePcOffset m ci (de_native_pc d) isa = Some (Z.of_nat i).
Proof using Hsh Hfin Hlook.
  intros Hd Hn. destruct (fi_isa _ _ _ _ _ _ _ Hfin) as [al Ha].
  destruct (columns_of i d Hd) as (Hk & _ & Hp). destruct (dk_begin _ _ (desc_of i d Hd)) as (_ & Hu & _).
  destruct (GetStackMapForNativePcOffset_spec m ci t Hsh (fi_wf _ _ _ _ _ _ _ Hfin) isa al Ha (fi_sorted _ _ _ _ _ _ _ Hfin)
    (pcs_fit_all al Ha) (de_native_pc d) _ Hp Hu) as (res & E & Hres).
  rewrite E. f_equal. rewrite (fi_len _ _ _ _ _ _ _ Hfin) in Hres. pose proof (lookup_lt_Some _ _ _ Hd) as Hi.
  destruct Hres as [(j & Hj & [HPp HPk] & -> & _)|[_ Hno]].
  - f_equal. destruct (lookup_lt_is_Some_2 _ _ Hj) as [d' Hd']. destruct (columns_of j d' Hd') as (Hk' & _ & Hp').
    destruct (dk_begin _ _ (desc_of j d' Hd')) as (_ & Hu' & _).
    destruct (PackNativePc_mul _ _ _ Ha Hu Hp) as [E1 _]. destruct (PackNativePc_mul _ _ _ Ha Hu' Hp') as [E2 _].
    symmetry. apply (lo_native _ Hlook i j d d'); try done; [|congruence]. unfold has_native_pc. by rewrite <- Hk'.
  - exfalso. apply (Hno i Hi). split; [done|]. by rewrite Hk.
Qed.

(** The inline infos of a stack map. *)
Lemma inlines_of i d :
  done !! i = Some d -> exists row infos, rows_ (t_stack_maps t) !! i = Some row /\ row_inlines t row infos /\
    inline_infos_ok env nd (rows_ (t_method_infos t)) d infos.
Proof using Hfin.
  intros Hd. destruct (row_of i d Hd) as (row & si & Hr & [_ (infos & H1 & H2) _ _] & _). by exists row, infos.
Qed.

Lemma inline_info_shape methods inl total info :
  inline_info env methods inl total info ->
  length info = 6%nat /\ column info InlineInfo.kDexPc = in_dex_pc inl.
Proof. by intros (last & mi & hi & lo & -> & _). Qed.

Lemma infos_dex_pcs methods d infos :
  inline_infos_ok env nd methods d infos ->
  map (fun info => column info InlineInfo.kDexPc) infos = map in_dex_pc (de_inlines d) /\
  forall info, info ∈ infos -> length info = 6%nat.
Proof.
  intros [Hl Hi]. split.
  - apply list_eq. intros k. rewrite !list_lookup_fmap.
    destruct (infos !! k) as [info|] eqn:E, (de_inlines d !! k) as [inl|] eqn:E'; simpl; try done.
    + f_equal. by apply (inline_info_shape _ _ _ _ (Hi k inl info E' E)).
    + apply lookup_lt_Some in E. apply lookup_ge_None_1 in E'. lia.
    + apply lookup_lt_Some in E'. apply lookup_ge_None_1 in E. lia.
  - intros info Hin. apply list_elem_of_lookup in Hin as [k Hk].
    destruct (lookup_lt_is_Some_2 (de_inlines d) k) as [inl Hinl]; [apply lookup_lt_Some in Hk; lia|].
    by apply (inline_info_shape _ _ _ _ (Hi k inl info Hinl Hk)).
Qed.

(** The inline infos of all the stack maps. *)
Lemma all_inlines :
  exists infos : nat -> list Entry,
    (forall j row, rows_ (t_stack_maps t) !! j = Some row -> row_inlines t row (infos j)) /\
    (forall j info, info ∈ infos j -> length info = 6%nat) /\
    forall j d, done !! j = Some d ->
      map (fun info => column info InlineInfo.kDexPc) (infos j) = map in_dex_pc (de_inlines d).
Proof using Hfin.
  destruct (finite_choice (fun j infos => forall row d, rows_ (t_stack_maps t) !! j = Some row -> done !! j = Some d ->
      row_inlines t row infos /\ inline_infos_ok env nd (rows_ (t_method_infos t)) d infos) (length done)) with
    (a := @nil Entry) as (infos & Hf & Hnil).
  { intros j Hj. destruct (lookup_lt_is_Some_2 _ _ Hj) as [d Hd].
    destruct (inlines_of j d Hd) as (row & l & Hr & Hl & Hok). exists l. intros row' d' Hr' Hd'.
    assert (row' = row) as -> by congruence. by assert (d' = d) as -> by congruence. }
  exists infos. split_and!.
  - intros j row Hr. pose proof (lookup_lt_Some _ _ _ Hr) as Hj. rewrite (fi_len _ _ _ _ _ _ _ Hfin) in Hj.
    destruct (lookup_lt_is_Some_2 _ _ Hj) as [d Hd]. by apply (Hf j Hj row d).
  - intros j info Hin. destruct (decide (j < length done)%nat) as [Hj|]; [|rewrite Hnil in Hin by lia; by apply elem_of_nil in Hin].
    destruct (lookup_lt_is_Some_2 _ _ Hj) as [d Hd]. destruct (inlines_of j d Hd) as (row & _ & Hr & _).
    destruct (Hf j Hj row d Hr Hd) as [_ Hok]. by apply (infos_dex_pcs _ _ _ Hok).
  - intros j d Hd. destruct (inlines_of j d Hd) as (row & _ & Hr & _).
    destruct (Hf j ltac:(by eapply lookup_lt_Some) row d Hr Hd) as [_ Hok]. by apply (infos_dex_pcs _ _ _ Hok).
Qed.

Lemma catch_lookup i d :
  done !! i = Some d -> de_kind d = StackMap.Catch ->
  GetCatchStackMapForDexPc m ci (de_dex_pc_list d) = Some (Z.of_nat i).
Proof using Hsh Hfin Hlook.
  intros Hd Hk. destruct all_inlines as (infos & H1 & H2 & Hpcs).
  destruct (catch_search_spec m ci t Hsh (fi_wf _ _ _ _ _ _ _ Hfin) infos H1 H2 (fi_sorted _ _ _ _ _ _ _ Hfin)
    (de_dex_pc d) (map in_dex_pc (de_inlines d)) (length done)) as (res & E & Hres).
  { rewrite (fi_len _ _ _ _ _ _ _ Hfin). lia. }
  rewrite (lo_catch_list _ Hlook i d Hd Hk). simpl.
  rewrite (number_of_stack_maps m ci t Hsh), Nat2Z.id, (fi_len _ _ _ _ _ _ _ Hfin), E. f_equal.
  destruct Hres as [(j & Hj & (Hc1 & Hc2 & Hc3) & -> & _)|[_ Hno]].
  - f_equal. destruct (lookup_lt_is_Some_2 _ _ Hj) as [d' Hd']. destruct (columns_of j d' Hd') as (Hk' & Hp' & _).
    rewrite Hk' in Hc1. symmetry. apply (lo_catch _ Hlook i j d d'); try done.
    rewrite (lo_catch_list _ Hlook i d), (lo_catch_list _ Hlook j d') by done.
    rewrite (Hpcs j d' Hd') in Hc3. congruence.
  - exfalso. apply (Hno i); [by eapply lookup_lt_Some|]. destruct (columns_of i d Hd) as (Hk' & Hp' & _).
    split_and!; [congruence|done|by apply Hpcs].
Qed.
(** *** The columns *)

Lemma shift_back mask : is_u 32 mask -> mask <> 0 ->
  LeastSignificantBit mask < 32 /\ u32 ((mask ≫ LeastSignificantBit mask) ≪ LeastSignificantBit mask) = mask.
Proof.
  intros Hu Hne. unfold LeastSignificantBit. destruct (Z.eqb_spec mask 0); [done|].
  assert (0 < mask) as Hp by (unfold is_u in Hu; lia). destruct (CTZ_spec mask Hp) as (H0 & _ & Hlow).
  split; [by apply CTZ_lt|]. rewrite <- (uN_small 32 mask) at 4 by done. f_equal.
  apply Z.bits_inj'. intros i Hi. rewrite Z.shiftl_spec by done.
  destruct (Z.ltb_spec i (CTZ mask)).
  - rewrite Z.testbit_neg_r, Hlow by lia. done.
  - rewrite Z.shiftr_spec by lia. f_equal. lia.
Qed.

Lemma register_mask_of i d :
  done !! i = Some d -> GetRegisterMaskOf m ci (Z.of_nat i) = Some (de_register_mask d).
Proof using Hsh Hfin.
  intros Hd. destruct (row_of i d Hd) as (row & si & Hr & [(packed & ri & ii & mi & pi & -> & _ & Hri & _) _ _ _] & _).
  destruct (dk_begin _ _ (desc_of i d Hd)) as (_ & _ & Hu & _).
  unfold GetRegisterMaskOf. rewrite (StackMapGet_row m ci t Hsh i _ _ ri Hr) by done. simpl mbind.
  destruct Hri as [[-> ->]|(Hne & k & -> & Hk & Hrow)]; [done|].
  destruct (Z.eqb_spec (Z.of_nat k) kNoValue); [unfold kNoValue in *; lia|]. unfold GetMask.
  destruct (sh_register_masks _ _ _ Hsh) as [_ Hg]. rewrite (Hg k _ 0%nat _ Hrow eq_refl), (Hg k _ 1%nat _ Hrow eq_refl).
  destruct (shift_back _ Hu Hne) as [Hl E]. cbn [mbind option_bind].
  destruct (Z.ltb_spec (LeastSignificantBit (de_register_mask d)) 32); [by rewrite E|lia].
Qed.

(** The number of bits of a stack mask. *)
Definition mask_bits (stack_mask : option Z) : Z :=
  match stack_mask with Some p => GetNumberOfBits (masks p) | None => 0 end.

Lemma mask_bits_le sm n :
  mask_ok masks sm -> 0 <= n -> (forall i, n <= i -> mask_bit masks sm i = false) -> mask_bits sm <= n.
Proof.
  destruct sm as [p|]; [|done]. intros [Hw _] Hn Hb. simpl in *. unfold GetNumberOfBits.
  destruct (GetHighestBitSet_spec (masks p) Hw) as [[-> _]|(H0 & H1 & _)]; [lia|].
  destruct (decide (GetHighestBitSet (masks p) < n)); [lia|]. unfold bits in Hb. rewrite Hb in H1 by lia. done.
Qed.

Lemma stack_mask_of i d :
  done !! i = Some d -> exists reg, GetStackMaskOf m ci (Z.of_nat i) = Some reg /\
    0 <= bit_size_ reg /\ mask_bits (de_stack_mask d) <= bit_size_ reg /\
    forall b, 0 <= b < bit_size_ reg -> LoadBit m reg b = mask_bit masks (de_stack_mask d) b.
Proof using Hsh Hfin Hmok.
  intros Hd. destruct (row_of i d Hd) as (row & si & Hr & [(packed & ri & ii & mi & pi & -> & _) _ _ _] & Hsi).
  pose proof Hd as Hok. eapply Forall_lookup_1 in Hok; [|exact Hmok].
  unfold GetStackMaskOf. rewrite (StackMapGet_row m ci t Hsh i _ _ si Hr) by done. simpl mbind.
  destruct Hsi as [[-> Hz]|(k & bytes & -> & Hk & Hrow & Hb)].
  - exists (Region 0 0 0). simpl. split_and!; try done; [|intros; lia]. by apply mask_bits_le.
  - destruct (Z.eqb_spec (Z.of_nat k) kNoValue); [unfold kNoValue in *; lia|].
    destruct (shb_get _ _ _ (sh_stack_masks _ _ _ Hsh) k bytes Hrow) as (reg & E & Hwf & Hsz & Hbit).
    destruct (fi_sm _ _ _ _ _ _ _ Hfin) as [Hrows _ Hmax]. exists reg. rewrite Hsz. split_and!; try done.
    + apply mask_bits_le; try done. intros b Hb'.
      eapply Forall_lookup_1 in Hrows as (n' & (_ & _ & _ & _ & Ht) & Hle); [|done].
      rewrite <- Hb by lia. apply Ht. lia.
    + intros b Hb'. rewrite LoadBit_rbit by (done || lia). rewrite Hbit by lia. apply Hb. lia.
Qed.

Lemma check_stack_mask_ok reg sm n b :
  mask_ok masks sm -> 0 <= b ->
  (forall i, b <= i < b + Z.of_nat n -> LoadBit m reg i = mask_bit masks sm i) ->
  check_stack_mask masks m n b reg sm = Some tt.
Proof.
  intros Hok. revert b. induction n as [|n IH]; intros b H0 Hb; cbn [check_stack_mask]; [done|].
  assert (match sm with Some p => IsBitSet (masks p) b | None => Some false end = Some (mask_bit masks sm b)) as ->.
  { destruct sm as [p|]; [|done]. destruct Hok. by rewrite IsBitSet_spec. }
  cbn [mbind option_bind]. rewrite Hb by lia. rewrite eqb_reflx. cbn [DCHECK mbind option_bind].
  apply IH; [lia|]. intros i Hi. apply Hb. lia.
Qed.

Lemma check_begin_ok i d :
  done !! i = Some d ->
  check_begin masks isa m ci (Z.of_nat i) (de_dex_pc d) (de_native_pc d) (de_register_mask d)
    (de_stack_mask d) (de_kind d) (de_dex_pc_list d) = Some tt.
Proof using Hsh Hfin Hlook Hmok.
  intros Hd. pose proof (lookup_lt_Some _ _ _ Hd) as Hi. rewrite <- (fi_len _ _ _ _ _ _ _ Hfin) in Hi.
  destruct (columns_of i d Hd) as (Hk & Hp & Hpc). destruct (fi_isa _ _ _ _ _ _ _ Hfin) as [al Ha].
  destruct (dk_begin _ _ (desc_of i d Hd)) as (_ & Hu & _). destruct (PackNativePc_mul _ _ _ Ha Hu Hpc) as [Epc _].
  unfold check_begin.
  assert ((if (de_kind d =? StackMap.Default) || (de_kind d =? StackMap.OSR) then
      row ← GetStackMapForNativePcOffset m ci (de_native_pc d) isa; DCHECK (row =? Z.of_nat i)
    else if de_kind d =? StackMap.Catch then
      row ← GetCatchStackMapForDexPc m ci (de_dex_pc_list d); DCHECK (row =? Z.of_nat i)
    else Some tt) = Some tt) as ->.
  { destruct ((de_kind d =? StackMap.Default) || (de_kind d =? StackMap.OSR)) eqn:E.
    - rewrite (native_lookup i d Hd). { simpl. by rewrite Z.eqb_refl. }
      apply orb_true_iff in E as [E|E]; apply Z.eqb_eq in E; [by left|by right].
    - destruct (Z.eqb_spec (de_kind d) StackMap.Catch); [|done]. rewrite (catch_lookup i d Hd) by done. simpl. by rewrite Z.eqb_refl. }
  cbn [mbind option_bind]. rewrite (GetNativePcOffset_row m ci t Hsh (fi_wf _ _ _ _ _ _ _ Hfin) isa al Ha (pcs_fit_all al Ha)) by done.
  rewrite !(StackMapGet_column m ci t Hsh (fi_wf _ _ _ _ _ _ _ Hfin)) by (done || (unfold StackMap.kKind, StackMap.kDexPc; lia)).
  rewrite Hk, Hp, <- Epc, (register_mask_of i d Hd). cbn [mbind option_bind]. rewrite !Z.eqb_refl. cbn [DCHECK mbind option_bind].
  destruct (stack_mask_of i d Hd) as (reg & -> & H0 & Hle & Hb). cbn [mbind option_bind]. fold (mask_bits (de_stack_mask d)).
  unfold size_in_bits. rewrite (proj2 (Z.leb_le _ _) Hle). cbn [DCHECK mbind option_bind].
  eapply Forall_lookup_1 in Hd; [|exact Hmok]. apply check_stack_mask_ok; [done|lia|]. intros b Hb'. apply Hb. lia.
Qed.

(** *** Inline infos *)

Lemma has_map_of i d :
  done !! i = Some d ->
  HasDexRegisterMap m ci (Z.of_nat i) = Some (negb (Z.of_nat (length (de_registers d)) =? 0)).
Proof using Hsh Hfin.
  intros Hd. destruct (row_of i d Hd) as (row & si & Hr & [(packed & ri & ii & mi & pi & -> & _ & _ & Hpi) _ _ _] & _).
  unfold HasDexRegisterMap. rewrite (StackMapGet_row m ci t Hsh i _ StackMap.kDexRegisterMapIndex pi Hr) by done.
  cbn [mbind option_bind]. do 2 f_equal. apply eq_iff_eq_true. rewrite !Z.eqb_eq, Hpi, <- length_zero_iff_nil. lia.
Qed.

Lemma check_end_ok i d :
  done !! i = Some d ->
  check_end m ci (Z.of_nat i) (Z.of_nat (length (de_registers d))) (Z.of_nat (length (de_inlines d))) = Some tt.
Proof using Hsh Hfin.
  intros Hd. destruct (row_of i d Hd) as (row & si & Hr & [(packed & ri & ii & mi & pi & -> & _ & _ & Hpi) (infos & Hin & Hl & _) _ _] & _).
  destruct (GetInlineInfosOf_spec m ci t Hsh i _ infos Hr Hin) as (p & Eg & _ & Hp).
  unfold check_end, HasInlineInfo. rewrite Eg, (has_map_of i d Hd).
  rewrite (StackMapGet_row m ci t Hsh i _ StackMap.kInlineInfoIndex ii Hr) by done. cbn [mbind option_bind].
  assert ((ii =? kNoValue) = (Z.of_nat (length (de_inlines d)) =? 0)) as ->.
  { rewrite <- Hl. destruct Hin as [[-> Hx]|(Hne & q & Hx & Hq & _)]; injection Hx as ->; [done|].
    apply eq_iff_eq_true. rewrite !Z.eqb_eq. rewrite <- length_zero_iff_nil in Hne. unfold kNoValue. lia. }
  rewrite !eqb_reflx. cbn [DCHECK mbind option_bind]. rewrite Hl.
  by rewrite (proj2 (Z.eqb_eq _ _)) by lia.
Qed.

Lemma find_dex_file_lookup dex_files dex_file :
  dex_file ∈ dex_files -> exists k, find_dex_file dex_files dex_file = Z.of_nat k /\ dex_files !! k = Some dex_file.
Proof.
  induction dex_files as [|df l IH]; [by intros ?%elem_of_nil|]. intros Hin. cbn [find_dex_file]. unfold IsSameDexFile.
  destruct (Z.eqb_spec df dex_file) as [->|Hne]; [by exists 0%nat|].
  apply elem_of_cons in Hin as [->|Hin]; [done|]. destruct (IH Hin) as (k & -> & Hk). exists (S k). split; [lia|done].
Qed.

Lemma check_dex_file_ok dex_files method :
  GetDexFile env method ∈ dex_files -> Z.of_nat (length dex_files) < 2 ^ 32 ->
  check_dex_file env dex_files (u32 (find_dex_file dex_files (GetDexFile env method))) method = Some tt.
Proof.
  intros Hin Hl. destruct (find_dex_file_lookup _ _ Hin) as (k & -> & Hk). pose proof (lookup_lt_Some _ _ _ Hk).
  unfold check_dex_file. rewrite uN_small, Nat2Z.id, Hk by (unfold is_u; lia). simpl. unfold IsSameDexFile. by rewrite Z.eqb_refl.
Qed.

Lemma join_halves x : is_u 64 x -> u64 (High32Bits x ≪ 32) .| Low32Bits x = x.
Proof.
  intros Hx. unfold High32Bits, Low32Bits. apply Z.bits_inj'. intros i Hi.
  rewrite Z.lor_spec, !uN_testbit by lia. rewrite Z.shiftl_spec by lia.
  destruct (Z.ltb_spec i 32); cbn [andb].
  - rewrite (Z.testbit_neg_r _ (i - 32)) by lia. by rewrite andb_false_r.
  - rewrite orb_false_r. destruct (Z.ltb_spec i 64); cbn [andb]; [|by rewrite (testbit_high 64) by done].
    rewrite uN_testbit by lia. rewrite (proj2 (Z.ltb_lt (i - 32) 32)) by lia. rewrite Z.shiftr_spec by lia. cbn [andb]. f_equal. lia.
Qed.

Lemma check_method_ok inl mi entry :
  inline_desc_ok env inl -> EncodeArtMethodInInlineInfo env = false ->
  entry = method_info_entry env (in_method inl) (in_dex_pc inl) (in_outer inl) ->
  (forall c v, entry !! c = Some v -> MethodInfoGet m ci mi c = Some v) ->
  (method_index ← MethodInfoGet m ci mi MethodInfo.kMethodIndex;
   _ ← DCHECK (method_index =? GetDexMethodIndex env (in_method inl));
   kind ← MethodInfoGet m ci mi MethodInfo.kDexFileIndexKind;
   _ ← DCHECK ((kind =? MethodInfo.kKindNonBCP) || (kind =? MethodInfo.kKindBCP));
   if negb (in_dex_pc inl =? kNoValue) && negb (IsSameDexFile (in_outer inl) (GetDexFile env (in_method inl)))
   then
     index ← MethodInfoGet m ci mi MethodInfo.kDexFileIndex;
     if IsBootStrapClassLoaded env (in_method inl) then
       _ ← DCHECK (kind =? MethodInfo.kKindBCP); check_dex_file env (GetBootClassPath env) index (in_method inl)
     else
       _ ← DCHECK (kind =? MethodInfo.kKindNonBCP);
       check_dex_file env (GetDexFilesForOatFile env) index (in_method inl)
   else Some tt) = Some tt.
Proof using Hfiles.
  intros (_ & _ & _ & _ & Hok) He -> Hg. rewrite He in Hok. unfold dex_file_known in Hok. unfold method_info_entry in Hg.
  destruct Hfiles as [Hf1 Hf2]. unfold IsSameDexFile in *. simpl in Hok.
  destruct (Z.eqb_spec (in_dex_pc inl) kNoValue) as [|Hp]; cbn [negb andb] in *;
    [|destruct (Z.eqb_spec (in_outer inl) (GetDexFile env (in_method inl))) as [|Hq]; cbn [negb andb] in *;
      [|specialize (Hok Hp (not_eq_sym Hq)); destruct (IsBootStrapClassLoaded env (in_method inl))]].
  all: rewrite (Hg MethodInfo.kMethodIndex _ eq_refl), (Hg MethodInfo.kDexFileIndexKind _ eq_refl).
  all: try rewrite (Hg MethodInfo.kDexFileIndex _ eq_refl).
  all: cbn [mbind option_bind]; rewrite !Z.eqb_refl; cbn [DCHECK mbind option_bind orb]; try done.
  all: by apply check_dex_file_ok.
Qed.

(** The rows of the inlined methods. *)
Lemma inline_rows_of i d :
  done !! i = Some d -> exists begin, GetInlineInfosOf m ci (Z.of_nat i) =
      Some (begin, begin + Z.of_nat (length (de_inlines d))) /\
    forall k inl, de_inlines d !! k = Some inl -> exists info,
      inline_info env (rows_ (t_method_infos t)) inl (count_at nd d (S k)) info /\
      forall c v, info !! c = Some v -> InlineInfoGet m ci (begin + Z.of_nat k) c = Some v.
Proof using Hsh Hfin.
  intros Hd. destruct (inlines_of i d Hd) as (row & infos & Hr & Hin & Hl & Hinfo).
  destruct (GetInlineInfosOf_spec m ci t Hsh i _ infos Hr Hin) as (p & Eg & [Hir _] & _).
  exists (Z.of_nat p). rewrite <- Hl, <- Nat2Z.inj_add. split; [done|]. intros k inl Hk.
  destruct (lookup_lt_is_Some_2 infos k) as [info Hi]; [apply lookup_lt_Some in Hk; lia|].
  exists info. split; [by apply Hinfo|]. intros c v Hv. rewrite <- Nat2Z.inj_add.
  eapply (InlineInfoGet_row m ci t Hsh); [by apply Hir|done].
Qed.

Lemma check_inline_ok i d k inl :
  done !! i = Some d -> de_inlines d !! k = Some inl ->
  check_inline env m ci (Z.of_nat i) (Z.of_nat k) (in_method inl) (in_dex_pc inl) (in_outer inl) = Some tt.
Proof using Hsh Hfin Hfiles.
  intros Hd Hk. destruct (inline_rows_of i d Hd) as (begin & Eg & Hinfo).
  destruct (Hinfo k inl Hk) as (info & (last & mi & hi & lo & -> & Hcase) & Hget). pose proof (lookup_lt_Some _ _ _ Hk) as Hlt.
  pose proof (dk_inlines _ _ (desc_of i d Hd)) as Hok. eapply Forall_lookup_1 in Hok; [|done].
  unfold check_inline, EncodesArtMethod, GetArtMethod, GetMethodInfoOf. rewrite Eg. cbn [mbind option_bind].
  rewrite (proj2 (Z.ltb_lt _ _)) by lia. cbn [DCHECK mbind option_bind].
  rewrite (Hget InlineInfo.kDexPc _ eq_refl), (Hget InlineInfo.kArtMethodLo _ eq_refl), (Hget InlineInfo.kArtMethodHi _ eq_refl),
    (Hget InlineInfo.kMethodInfoIndex _ eq_refl). cbn [mbind option_bind]. rewrite Z.eqb_refl. cbn [DCHECK mbind option_bind].
  destruct (EncodeArtMethodInInlineInfo env) eqn:He.
  - destruct Hcase as (_ & -> & ->). destruct Hok as (Hm64 & _ & _ & _ & Hlo). rewrite He in Hlo. simpl in Hlo.
    rewrite (proj2 (Z.eqb_neq _ _) Hlo). cbn [negb eqb DCHECK mbind option_bind]. by rewrite join_halves, Z.eqb_refl.
  - destruct Hcase as (-> & -> & j & -> & Hj & Hrow). rewrite Z.eqb_refl. cbn [negb eqb DCHECK mbind option_bind].
    eapply check_method_ok; try done. intros c v Hv. by eapply (sh_get _ _ _ _ (sh_method_infos _ _ _ Hsh)).
Qed.
(** *** Dex registers *)

Section registers.
Context (i : nat) (d : StackMapDesc).
Hypothesis Hd : done !! i = Some d.
Hypothesis Hne : de_registers d <> [].

Lemma has_map : HasDexRegisterMap m ci (Z.of_nat i) = Some true.
Proof using Hsh Hfin Hd Hne.
  rewrite (has_map_of i d Hd). rewrite <- length_zero_iff_nil in Hne. by rewrite (proj2 (Z.eqb_neq _ _)) by lia.
Qed.

Lemma registers_small : Z.of_nat (length (de_registers d)) < 2 ^ 24.
Proof using Hsmall Hd. by eapply Forall_lookup_1 in Hd; [|exact Hsmall]. Qed.

(** Any range of the registers is read back. *)
Lemma registers_range (first last : nat) :
  (first <= last <= length (de_registers d))%nat ->
  GetDexRegisterMapOfRange m ci (Z.of_nat i) (Z.of_nat first) (Z.of_nat last) =
    Some (take (last - first) (drop first (de_registers d))).
Proof using Hm Hsh Hfin Hsmall Hd Hne.
  intros Hr. pose proof registers_small as Hs. pose proof (lookup_lt_Some _ _ _ Hd) as Hi.
  pose proof (fi_small _ _ _ _ _ _ _ Hfin). unfold GetDexRegisterMapOfRange. rewrite has_map. cbn [mbind option_bind].
  rewrite (proj2 (Z.leb_le _ _)) by lia. unfold MakeDexRegisterMap. rewrite uN_small by (unfold is_u; lia).
  replace (Z.to_nat (Z.of_nat last - Z.of_nat first)) with (last - first)%nat by lia.
  rewrite (DecodeDexRegisterMap_spec m ci t Hm Hsh (fi_dm _ _ _ _ _ _ _ Hfin) (fi_dm_max _ _ _ _ _ _ _ Hfin) us (Z.of_nat first)
    row_delta_of); try lia.
  - f_equal. unfold locations_at. apply list_eq. intros j. rewrite list_lookup_fmap.
    destruct (decide (j < last - first)%nat).
    + rewrite lookup_seq_lt by done. rewrite lookup_take_lt, lookup_drop by done. simpl.
      destruct (lookup_lt_is_Some_2 (de_registers d) (first + j)) as [loc Hloc]; [lia|]. rewrite Hloc. f_equal.
      destruct (fi_found _ _ _ _ _ _ _ Hfin i d (first + j)%nat loc Hd Hloc) as [<- _]. by rewrite Nat2Z.inj_add.
    + rewrite lookup_seq_ge, lookup_take_ge by lia. done.
  - rewrite (fi_len _ _ _ _ _ _ _ Hfin). lia.
  - intros j Hj. destruct (lookup_lt_is_Some_2 (de_registers d) (first + j)) as [loc Hloc]; [lia|].
    destruct (fi_found _ _ _ _ _ _ _ Hfin i d (first + j)%nat loc Hd Hloc) as [_ Hc].
    by replace (Z.of_nat first + Z.of_nat j) with (Z.of_nat (first + j)) by lia.
Qed.

(** The registers of the outer method and of the first [k] inlined methods. *)
Lemma count_at_S k inl :
  de_inlines d !! k = Some inl -> count_at nd d (S k) = count_at nd d k + in_num inl /\ 0 <= in_num inl.
Proof using Hfin Hd.
  intros Hk. pose proof (dk_inlines _ _ (desc_of i d Hd)) as Hok. eapply Forall_lookup_1 in Hok as (_ & _ & Hu & _); [|done].
  simpl in Hu. unfold is_u in Hu. split; [|lia]. unfold count_at. rewrite <- !firstn_map.
  rewrite (sum_take_S _ k (in_num inl)); [lia|]. by rewrite list_lookup_fmap, Hk.
Qed.

Lemma count_at_le k : (k <= length (de_inlines d))%nat -> 0 <= count_at nd d k <= Z.of_nat (length (de_registers d)).
Proof using Hfin Hd Hnd Hne.
  intros Hk. split; [by apply (count_at_bound env nd Hnd), (dk_inlines _ _ (desc_of i d Hd))|].
  destruct (row_of i d Hd) as (row & si & _ & [_ _ _ Hc] & _). rewrite <- (Hc Hne). clear Hc.
  remember (length (de_inlines d) - k)%nat as n eqn:En. revert k Hk En. induction n as [|n IH]; intros k Hk En.
  - by replace k with (length (de_inlines d)) by lia.
  - destruct (lookup_lt_is_Some_2 (de_inlines d) k) as [inl Hinl]; [lia|].
    destruct (count_at_S k inl Hinl) as [E H0]. specialize (IH (S k) ltac:(lia) ltac:(lia)). lia.
Qed.

Lemma count_at_0 : count_at nd d 0 = nd.
Proof using Hregs Hd Hne.
  pose proof Hd as Hr. eapply Forall_lookup_1 in Hr; [|exact Hregs]. unfold count_at. simpl.
  destruct Hr as [?|[E|E]]; [done|rewrite E; apply Z.add_0_r|rewrite E; by destruct (de_needs d)].
Qed.

Lemma check_prefix_range (first last : nat) :
  (first <= last <= length (de_registers d))%nat ->
  check_prefix (drop first (de_registers d)) (take (last - first) (drop first (de_registers d))) =
    Some (drop last (de_registers d)).
Proof using.
  intros Hr. unfold check_prefix. rewrite length_take, length_drop.
  rewrite Nat.min_l by lia. rewrite bool_decide_eq_true_2 by done. rewrite drop_drop. do 2 f_equal. lia.
Qed.

(** The rows of the inlined methods. *)
Context (row : Entry) (infos : list Entry) (p : nat).
Hypothesis Hrow : rows_ (t_stack_maps t) !! i = Some row.
Hypothesis Hrows : inline_rows t p infos.
Hypothesis Hinfos : inline_infos_ok env nd (rows_ (t_method_infos t)) d infos.
Hypothesis Hp : infos <> [] -> row !! StackMap.kInlineInfoIndex = Some (Z.of_nat p) /\
  Z.of_nat p + Z.of_nat (length infos) < 2 ^ 24.

Lemma number_of_registers k :
  (k < length infos)%nat ->
  InlineInfoGet m ci (Z.of_nat (p + k)) InlineInfo.kNumberOfDexRegisters = Some (count_at nd d (S k)).
Proof using Hsh Hfin Hnd Hsmall Hd Hne Hrows Hinfos.
  intros Hk. destruct Hinfos as [Hl Hi]. destruct (lookup_lt_is_Some_2 _ _ Hk) as [info Hinfo].
  destruct (lookup_lt_is_Some_2 (de_inlines d) k) as [inl Hinl]; [lia|].
  destruct (Hi k inl info Hinl Hinfo) as (last & mi & hi & lo & -> & _). pose proof (count_at_le (S k) ltac:(lia)).
  pose proof registers_small. rewrite <- (uN_small 32 (count_at nd d (S k))) by (unfold is_u; lia).
  eapply (InlineInfoGet_row m ci t Hsh); [by apply Hrows|done].
Qed.

Lemma inline_registers k :
  (k < length infos)%nat ->
  GetInlineDexRegisterMapOf m ci (Z.of_nat i) (Z.of_nat (p + k)) =
    GetDexRegisterMapOfRange m ci (Z.of_nat i) (count_at nd d k) (count_at nd d (S k)).
Proof using Hsh Hfin Hnd Hsmall Hregs Hci_nd Hd Hne Hrow Hrows Hinfos Hp.
  intros Hk. destruct Hp as [Hidx Hb]; [by destruct infos; simpl in Hk; [lia|]|].
  unfold GetInlineDexRegisterMapOf. rewrite has_map, (StackMapGet_row m ci t Hsh i row _ _ Hrow Hidx). cbn [mbind option_bind].
  destruct (Z.eqb_spec (Z.of_nat p) kNoValue); [unfold kNoValue in *; lia|].
  rewrite (uN_small 32 (Z.of_nat (p + k) - Z.of_nat p)) by (unfold is_u; lia). rewrite (number_of_registers k Hk).
  assert ((if Z.of_nat (p + k) - Z.of_nat p =? 0 then Some (number_of_dex_registers_ ci)
    else InlineInfoGet m ci (u32 (Z.of_nat (p + k) - 1)) InlineInfo.kNumberOfDexRegisters) = Some (count_at nd d k)) as ->; [|done].
  destruct k as [|k].
  - rewrite (proj2 (Z.eqb_eq _ _)) by lia. by rewrite Hci_nd, count_at_0.
  - rewrite (proj2 (Z.eqb_neq _ _)) by lia. rewrite uN_small by (unfold is_u; lia).
    replace (Z.of_nat (p + S k) - 1) with (Z.of_nat (p + k)) by lia. apply number_of_registers. lia.
Qed.

Lemma check_inline_registers_ok n k :
  (k + n = length infos)%nat ->
  check_inline_registers m ci n (Z.of_nat i) (Z.of_nat (p + k)) (drop (Z.to_nat (count_at nd d k)) (de_registers d)) =
    Some (drop (Z.to_nat (count_at nd d (length infos))) (de_registers d)).
Proof using Hm Hsh Hfin Hnd Hsmall Hregs Hci_nd Hd Hne Hrow Hrows Hinfos Hp.
  revert k. induction n as [|n IH]; intros k Hk; cbn [check_inline_registers]; [by replace (length infos) with k by lia|].
  pose proof Hinfos as [Hl _]. pose proof (count_at_le k ltac:(lia)). pose proof (count_at_le (S k) ltac:(lia)).
  destruct (lookup_lt_is_Some_2 (de_inlines d) k) as [inl Hinl]; [lia|]. destruct (count_at_S k inl Hinl).
  rewrite inline_registers by lia. rewrite <- (Z2Nat.id (count_at nd d k)), <- (Z2Nat.id (count_at nd d (S k))) by lia.
  rewrite registers_range by lia. rewrite Nat2Z.id. cbn [mbind option_bind]. rewrite check_prefix_range by lia. cbn [mbind option_bind].
  replace (Z.of_nat (p + k) + 1) with (Z.of_nat (p + S k)) by lia. apply (IH (S k)). lia.
Qed.
End registers.

Lemma registers_of i d (first last : nat) :
  done !! i = Some d -> (first <= last <= length (de_registers d))%nat ->
  GetDexRegisterMapOfRange m ci (Z.of_nat i) (Z.of_nat first) (Z.of_nat last) =
    Some (take (last - first) (drop first (de_registers d))).
Proof using Hm Hsh Hfin Hsmall.
  intros Hd Hr. destruct (decide (de_registers d = [])) as [E|Hne]; [|by apply registers_range].
  unfold GetDexRegisterMapOfRange. rewrite (has_map_of i d Hd), E. simpl. by rewrite drop_nil, take_nil.
Qed.

Lemma check_registers_ok i d :
  done !! i = Some d -> de_registers d <> [] ->
  check_registers m ci (Z.of_nat i) (de_registers d) = Some tt.
Proof using Hm Hsh Hfin Hnd Hsmall Hregs Hci_nd.
  intros Hd Hne. destruct (row_of i d Hd) as (row & si & Hr & [_ (infos & Hin & Hok) _ Hc] & _).
  destruct (GetInlineInfosOf_spec m ci t Hsh i _ infos Hr Hin) as (p & Eg & Hir & Hp).
  pose proof (count_at_le i d Hd Hne 0 ltac:(lia)) as H0. rewrite (count_at_0 i d Hd Hne) in H0.
  unfold check_registers, GetDexRegisterMapOf. rewrite Hci_nd.
  rewrite <- (Z2Nat.id nd) by lia. change 0 with (Z.of_nat 0). rewrite (registers_range i d Hd Hne) by lia.
  cbn [mbind option_bind]. rewrite <- (drop_0 (de_registers d)) at 1. rewrite check_prefix_range by lia.
  cbn [mbind option_bind]. rewrite Eg. cbn [mbind option_bind].
  replace (Z.to_nat (Z.of_nat (p + length infos) - Z.of_nat p)) with (length infos) by lia.
  pose proof (check_inline_registers_ok i d Hd Hne row infos p Hr Hir Hok Hp (length infos) 0 ltac:(lia)) as E.
  rewrite (count_at_0 i d Hd Hne), Nat.add_0_r in E. rewrite E. cbn [mbind option_bind].
  destruct Hok as [-> _]. rewrite (Hc Hne), Nat2Z.id, drop_all. done.
Qed.
End checks.
