(* ===== verification/StackMapCorrect.v ===== *)
(** The stack maps of a method, from the calls that describe them to what is found in the encoded
    buffer: [StackMapStream] of stack_map_stream.cc against [CodeInfo] of stack_map.h. *)
From S2P Require Import Prelude BitUtils Memory BitMemory BitVector BitTable BitmapTable StackMap.
From S2P Require Import StackMapStream StackMapTables StackMapReader StackMapDelta StackMapInvariant StackMapVerify.

(** ** A method *)

(** The arguments of [BeginMethod] and [EndMethod], and the calls between them. *)
Record Method := MakeMethod {
  me_frame : Z;
  me_core : Z;
  me_fp : Z;
  me_num_dex_registers : Z;
  me_baseline : bool;
  me_debuggable : bool;
  me_body : list call;
  me_code_size : Z }.

Definition method_calls (me : Method) : list call :=
  CallBeginMethod (me_frame me) (me_core me) (me_fp me) (me_num_dex_registers me)
      (me_baseline me) (me_debuggable me)
    :: me_body me ++ [CallEndMethod (me_code_size me)].

(** The stack maps of the method. *)
Definition me_stack_maps (me : Method) : list StackMapDesc := describe (me_body me).

(** The ranges of the arguments; the last stack map is complete. *)
Record method_ok (env : Environment) (masks : Z -> BitVector) (me : Method) : Prop := {
  mo_frame : 0 <= me_frame me < 2 ^ 36;
  mo_core : is_u 32 (me_core me);
  mo_fp : is_u 32 (me_fp me);
  mo_num : is_u 32 (me_num_dex_registers me);
  mo_size : is_u 32 (me_code_size me);
  mo_length : Z.of_nat (length (me_body me)) < 2 ^ 16;
  mo_calls : Forall (call_ok env) (me_body me);
  mo_complete : (foldl describe_call ([], None) (me_body me)).2 = None;
  mo_masks : Forall (fun d => mask_ok masks (de_stack_mask d)) (me_stack_maps me) }.

(** What the header and the flags of the buffer say. *)
Definition reads_header (me : Method) (m : memory) (data : Z) (ci : CodeInfo) : Prop :=
  DecodeCodeSize m data = me_code_size me /\
  DecodeFrameInfo m data = (u32 (me_frame me), me_core me, me_fp me) /\
  number_of_dex_registers_ ci = me_num_dex_registers me /\
  IsBaseline m data = me_baseline me /\ IsDebuggable m data = me_debuggable me /\
  (Exists (fun d => de_inlines d <> []) (me_stack_maps me) -> HasInlineInfoFlag m data = true).

(** What a reader finds at row [row] of the inline infos. *)
Definition reads_inline (env : Environment) (m : memory) (ci : CodeInfo) (row : Z) (inl : InlineDesc) : Prop :=
  InlineInfoGet m ci row InlineInfo.kDexPc = Some (in_dex_pc inl) /\
  EncodesArtMethod m ci row = Some (EncodeArtMethodInInlineInfo env) /\
  if EncodeArtMethodInInlineInfo env then GetArtMethod m ci row = Some (in_method inl)
  else GetMethodIndexOf m ci row = Some (GetDexMethodIndex env (in_method inl)).

(** What a reader finds at row [i] of the stack maps. *)
Record reads (isa : InstructionSet) (env : Environment) (masks : Z -> BitVector) (m : memory) (ci : CodeInfo)
    (i : Z) (d : StackMapDesc) : Prop := {
  re_kind : StackMapGet m ci i StackMap.kKind = Some (de_kind d);
  re_dex_pc : StackMapGet m ci i StackMap.kDexPc = Some (de_dex_pc d);
  re_native_pc : GetNativePcOffset m ci i isa = Some (de_native_pc d);
  re_register_mask : GetRegisterMaskOf m ci i = Some (de_register_mask d);
  re_stack_mask : exists reg, GetStackMaskOf m ci i = Some reg /\
    mask_bits masks (de_stack_mask d) <= bit_size_ reg /\
    forall b, 0 <= b < bit_size_ reg -> LoadBit m reg b = mask_bit masks (de_stack_mask d) b;
  re_has_map : HasDexRegisterMap m ci i = Some (negb (Z.of_nat (length (de_registers d)) =? 0));
  re_registers : forall first last, (first <= last <= length (de_registers d))%nat ->
    GetDexRegisterMapOfRange m ci i (Z.of_nat first) (Z.of_nat last) =
      Some (take (last - first) (drop first (de_registers d)));
  re_inlines : exists begin, GetInlineInfosOf m ci i =
      Some (begin, begin + Z.of_nat (length (de_inlines d))) /\
    forall k inl, de_inlines d !! k = Some inl -> reads_inline env m ci (begin + Z.of_nat k) inl }.

(** The rows whose stack map satisfies a condition. *)
Definition desc_at (l : list StackMapDesc) (P : StackMapDesc -> Prop) (i : nat) : Prop :=
  exists d, l !! i = Some d /\ P d.

Lemma desc_at_lookup l P i d : l !! i = Some d -> desc_at l P i <-> P d.
Proof. intros Hd. split; [intros (d' & Hd' & HP); by simplify_eq|by exists d]. Qed.

(** What the lookups find. *)
Record looks_up (isa : InstructionSet) (m : memory) (ci : CodeInfo) (l : list StackMapDesc) : Prop := {
  lu_number : GetNumberOfStackMaps ci = Z.of_nat (length l);
  lu_dex_pc : forall dex_pc, exists res, GetStackMapForDexPc m ci dex_pc = Some res /\
    first_row (desc_at l (fun d => de_dex_pc d = dex_pc /\ de_kind d <> StackMap.Debug)) (length l) res;
  lu_osr : forall dex_pc, exists res, GetOsrStackMapForDexPc m ci dex_pc = Some res /\
    first_row (desc_at l (fun d => de_dex_pc d = dex_pc /\ de_kind d = StackMap.OSR)) (length l) res;
  lu_native_pc : forall pc packed, is_u 32 pc -> PackNativePc pc isa = Some packed ->
    exists res, GetStackMapForNativePcOffset m ci pc isa = Some res /\
      first_row (desc_at l (fun d => de_native_pc d = pc /\ has_native_pc d)) (length l) res;
  lu_catch : forall front dex_pcs, exists res, GetCatchStackMapForDexPc m ci (front :: dex_pcs) = Some res /\
    last_row (desc_at l (fun d => de_kind d = StackMap.Catch /\ de_dex_pc d = front /\
      map in_dex_pc (de_inlines d) = dex_pcs)) (length l) res }.

Lemma first_row_ext (P Q : nat -> Prop) n res :
  (forall i, (i < n)%nat -> P i <-> Q i) -> first_row P n res -> first_row Q n res.
Proof.
  intros H [(i & Hi & HP & -> & Hno)|[-> Hno]]; [left; exists i|right]; split_and!; try done.
  - by apply H.
  - intros j Hj HQ. apply (Hno j Hj), H; (done || lia).
  - intros j Hj HQ. apply (Hno j Hj), H; (done || lia).
Qed.

Lemma last_row_ext (P Q : nat -> Prop) n res :
  (forall i, (i < n)%nat -> P i <-> Q i) -> last_row P n res -> last_row Q n res.
Proof.
  intros H [(i & Hi & HP & -> & Hno)|[-> Hno]]; [left; exists i|right]; split_and!; try done.
  - by apply H.
  - intros j Hj HQ. apply (Hno j Hj), H; (done || lia).
  - intros j Hj HQ. apply (Hno j Hj), H; (done || lia).
Qed.

Section method.
Context (equal_range : list (Z * Z) -> Z -> list Z).
Hypothesis equal_range_spec : forall d h, equal_range d h ≡ₚ (filter (fun p => p.1 = h) d).*2.
Context (isa : InstructionSet) (env : Environment) (masks : Z -> BitVector) (me : Method).
Hypothesis Hok : method_ok env masks me.
Context (s : StackMapStream).
Hypothesis Hs : do_calls equal_range env masks (method_calls me) (MakeStream isa) = Some s.

Abbreviation nd := (me_num_dex_registers me).
Abbreviation args := (me_frame me, me_core me, me_fp me, me_num_dex_registers me).

Lemma do_calls_app calls calls' s0 s1 :
  do_calls equal_range env masks (calls ++ calls') s0 = Some s1 ->
  exists s', do_calls equal_range env masks calls s0 = Some s' /\ do_calls equal_range env masks calls' s' = Some s1.
Proof.
  revert s0. induction calls as [|c calls IH]; intros s0; [by exists s0|]. cbn [app do_calls].
  destruct (do_call equal_range env masks c s0) as [s'|]; [|done]. cbn [mbind option_bind]. apply IH.
Qed.

Lemma frame_aligned : me_frame me mod kStackAlignment = 0.
Proof using Hs.
  unfold method_calls in Hs. cbn [do_calls do_call] in Hs.
  destruct (BeginMethod _ _ _ _ _ _ _) as [s0|] eqn:E; [|done]. unfold BeginMethod in E. simpl in E.
  destruct (DCHECK _) as [u|] eqn:Ed; [|done]. apply DCHECK_true in Ed.
  change kStackAlignment with (2 ^ 4) in *. rewrite IsAligned_mod in Ed by lia. by apply Z.eqb_eq in Ed.
Qed.

(** The state at the end of the method. *)
Lemma method_finished :
  exists us, finished isa env nd masks (tables_ s) (me_stack_maps me) us /\
    (exists checks, dchecks_ s = checks ++ [CheckCodeSize (me_code_size me)] /\
       Forall (justified args (me_stack_maps me) None) checks) /\
    in_stack_map_ s = false /\
    statics s = (isa, me_code_size me, me_frame me / kStackAlignment, me_core me, me_fp me, nd,
      Some (me_baseline me), Some (me_debuggable me)).
Proof using equal_range_spec Hok Hs.
  destruct Hok. unfold method_calls in Hs. cbn [do_calls do_call] in Hs.
  destruct (BeginMethod _ _ _ _ _ _ _) as [s0|] eqn:E0; [|done]. cbn [mbind option_bind] in Hs.
  apply do_calls_app in Hs as (s1 & E1 & E2). cbn [do_calls do_call] in E2.
  destruct (EndMethod _ _ _ _) as [s2|] eqn:E3; [|done]. cbn [mbind option_bind] in E2. injection E2 as ->.
  pose proof (BeginMethod_inv isa env _ _ _ _ _ _ s0 E0) as H0.
  destruct (do_calls_inv equal_range equal_range_spec isa env nd mo_num0 args masks (me_body me) 0 s0 s1 ([], None) _ H0) as [us H1];
    [lia|done|done|]. rewrite mo_complete0, Z.add_0_l in H1.
  destruct (EndMethod_finished isa env nd masks equal_range equal_range_spec args _ s1 s _ us (me_code_size me) H1) as (Hf & Hd & Hc & Hst & Hin & _);
    [lia|done|done|].
  exists us. split_and!; [done| | |].
  - exists (dchecks_ s1). split; [done|apply H1].
  - rewrite Hin. apply H1.
  - rewrite Hst. apply do_calls_statics in E1; [|done]. unfold statics in E1 |- *. injection E1 as F1 F2 F3 F4 F5 F6 F7 F8.
    simpl. rewrite F1, F3, F4, F5, F6, F7, F8. clear -E0 mo_frame0 mo_core0 mo_fp0 mo_size0.
    unfold BeginMethod in E0. simpl in E0. destruct (DCHECK _); [|done]. injection E0 as <-. simpl.
    rewrite !uN_small; try done. unfold is_u, kStackAlignment in *. Z.div_mod_to_equations. lia.
Qed.

Lemma stack_maps_small : Forall (fun d => Z.of_nat (length (de_registers d)) < 2 ^ 24) (me_stack_maps me).
Proof using Hok.
  apply Forall_forall. intros d Hd. pose proof (mo_length _ _ _ Hok).
  pose proof (describe_small (me_body me) ([], None) 0 ltac:(lia) ltac:(intros ? []%not_elem_of_nil) d
    ltac:(apply elem_of_app; by left)). lia.
Qed.

(** ** Encoding *)

Context (m : memory) (data : Z).
Hypothesis Hm : bytes_ok m.
Hypothesis Hdata : kPageSize <= data < 2 ^ 57.

Definition me_flags : Z := encode_flags (tables_ s) (me_baseline me) (me_debuggable me).

Lemma me_flags_small : 0 <= me_flags <= kVarintMax.
Proof using.
  unfold me_flags, encode_flags. destruct (0 <? _), (me_baseline me), (me_debuggable me); vm_compute; done.
Qed.

Lemma method_headers : headers_ok s.
Proof using equal_range_spec Hok Hs.
  destruct method_finished as (us & _ & _ & _ & Hst). unfold statics in Hst. injection Hst as E1 E2 E3 E4 E5 E6 E7 E8.
  unfold headers_ok. rewrite E2, E3, E4, E5, E6. destruct Hok. repeat constructor; try apply mo_size0; try apply mo_core0;
    try apply mo_fp0; try apply mo_num0; unfold kStackAlignment; Z.div_mod_to_equations; lia.
Qed.

(** The buffer is decoded to what was written. *)
Lemma method_encoded :
  let out := write_code_info m data me_flags s in
  exists ci, DecodeCodeInfo (w_mem out) data = (ci, NumberOfWrittenBits out) /\
    encoded (w_mem out) data me_flags s ci /\
    verify_tables (table_encoders (tables_ s)) (write_header m data me_flags s) = Some tt.
Proof using equal_range_spec Hok Hs Hm Hdata.
  intros out. destruct method_finished as (us & Hf & _). pose proof (fi_tables _ _ _ _ _ _ _ Hf) as Ht.
  assert (0 <= data < 2 ^ 57) as Hd by (unfold kPageSize in Hdata; lia).
  pose proof (write_code_info_grown m data me_flags s Hm Hd me_flags_small method_headers Ht) as [Hg Hver]. fold out in Hg.
  destruct Hg as [Ha _ Hmatch].
  destruct (decode_code_info (w_mem out) data me_flags s) as (ci & E & He);
    [apply Ha|done|apply me_flags_small|apply method_headers|done| |].
  { unfold w_pos in Hmatch. simpl in Hmatch. by rewrite Z.add_0_r in Hmatch. }
  exists ci. split; [|done]. rewrite E. f_equal.
  pose proof (code_items_bound me_flags s me_flags_small method_headers Ht) as Hb.
  unfold NumberOfWrittenBits. rewrite (ap_offset _ _ _ Ha), (ap_start _ _ _ Ha). cbn [w_bit_offset w_bit_start MakeWriter].
  rewrite uN_small by (unfold is_u; lia). lia.
Qed.

(** *** The checks *)

Section code_info.
Context (m' : memory) (ci : CodeInfo).
Hypothesis Henc : encoded m' data me_flags s ci.
Hypothesis Hlook : lookups_ok (me_stack_maps me).
Hypothesis Hfiles : dex_files_ok env.
Hypothesis Hregs : Forall (registers_ok nd) (me_stack_maps me).

Lemma run_dchecks_Forall l :
  Forall (fun c => run_dcheck env masks isa m' ci c = Some tt) l -> run_dchecks env masks isa m' ci l = Some tt.
Proof. induction 1 as [|c l Hc _ IH]; [done|]. cbn [run_dchecks]. by rewrite Hc. Qed.

Lemma method_checks : run_dchecks env masks isa m' ci (dchecks_ s) = Some tt.
Proof using equal_range_spec Hok Hs Henc Hlook Hfiles Hregs.
  destruct method_finished as (us & Hf & (checks & Hc & Hj) & _ & Hst).
  unfold statics in Hst. injection Hst as E1 E2 E3 E4 E5 E6 E7 E8. destruct Henc.
  pose proof stack_maps_small as Hsmall. pose proof (mo_masks _ _ _ Hok) as Hmok. pose proof (mo_num _ _ _ Hok) as Hnd.
  rewrite E6 in en_dex.
  apply run_dchecks_Forall. rewrite Hc. apply Forall_app. split.
  2:{ apply Forall_singleton. cbn [run_dcheck]. by rewrite en_code_size, E2, Z.eqb_refl. }
  eapply Forall_impl; [exact Hj|]. intros [] Hjust; cbn [run_dcheck justified option_list] in *; rewrite ?app_nil_r in Hjust.
  - injection Hjust as -> -> -> ->. rewrite en_frame, E3, en_core, E4, en_fp, E5, en_dex. by rewrite !Z.eqb_refl.
  - done.
  - destruct Hjust as (i & d & -> & Hd & -> & -> & -> & -> & -> & ->). by eapply check_begin_ok.
  - destruct Hjust as (i & d & -> & Hd & -> & ->). by eapply check_end_ok.
  - destruct Hjust as (i & d & k & inl & -> & Hd & -> & Hk & -> & -> & ->). by eapply check_inline_ok.
  - destruct Hjust as (i & d & -> & Hd & -> & Hne). by eapply check_registers_ok.
Qed.
End code_info.

(** ** Reading *)

Section reading.
Context (m' : memory) (ci : CodeInfo).
Hypothesis Henc : encoded m' data me_flags s ci.

Lemma method_inline row inl total info :
  inline_desc_ok env inl -> inline_info env (rows_ (t_method_infos (tables_ s))) inl total info ->
  (forall c v, info !! c = Some v -> InlineInfoGet m' ci row c = Some v) -> reads_inline env m' ci row inl.
Proof using Henc.
  intros (Hm64 & _ & _ & _ & Hlo) (last & mi & hi & lo & -> & Hcase) Hget. destruct Henc as [_ Hsh _ _ _ _ _ _].
  unfold reads_inline, EncodesArtMethod, GetArtMethod, GetMethodIndexOf, GetMethodInfoOf.
  rewrite (Hget InlineInfo.kDexPc _ eq_refl), (Hget InlineInfo.kArtMethodLo _ eq_refl), (Hget InlineInfo.kArtMethodHi _ eq_refl),
    (Hget InlineInfo.kMethodInfoIndex _ eq_refl). cbn [mbind option_bind]. split; [done|].
  destruct (EncodeArtMethodInInlineInfo env).
  - destruct Hcase as (_ & -> & ->). simpl in Hlo. rewrite (proj2 (Z.eqb_neq _ _) Hlo). by rewrite join_halves.
  - destruct Hcase as (-> & -> & j & -> & Hj & Hrow). split; [done|].
    eapply (sh_get _ _ _ _ (sh_method_infos _ _ _ Hsh)); [done|]. unfold method_info_entry. by destruct (if negb _ then _ else _).
Qed.

Lemma method_reads i d : me_stack_maps me !! i = Some d -> reads isa env masks m' ci (Z.of_nat i) d.
Proof using equal_range_spec Hok Hs Henc.
  intros Hd. destruct method_finished as (us & Hf & _). destruct Henc as [Hm' Hsh _ _ _ _ _ _].
  pose proof (lookup_lt_Some _ _ _ Hd) as Hi. rewrite <- (fi_len _ _ _ _ _ _ _ Hf) in Hi.
  destruct (columns_of _ _ _ _ _ _ _ Hf i d Hd) as (Hk & Hp & Hpc). destruct (fi_isa _ _ _ _ _ _ _ Hf) as [al Ha].
  destruct (dk_begin _ _ (desc_of _ _ _ _ _ _ _ Hf i d Hd)) as (_ & Hu & _).
  destruct (PackNativePc_mul _ _ _ _ Ha Hu Hpc) as [Epc _].
  pose proof (mo_masks _ _ _ Hok) as Hmok.
  split.
  - rewrite (StackMapGet_column _ _ _ Hsh (fi_wf _ _ _ _ _ _ _ Hf)) by (done || (unfold StackMap.kKind; lia)). by rewrite Hk.
  - rewrite (StackMapGet_column _ _ _ Hsh (fi_wf _ _ _ _ _ _ _ Hf)) by (done || (unfold StackMap.kDexPc; lia)). by rewrite Hp.
  - rewrite (GetNativePcOffset_row _ _ _ Hsh (fi_wf _ _ _ _ _ _ _ Hf) isa al Ha) by (done || by eapply pcs_fit_all).
    by rewrite <- Epc.
  - by eapply register_mask_of.
  - destruct (stack_mask_of _ _ _ _ _ _ _ _ _ Hsh Hf Hmok i d Hd) as (reg & E & _ & Hle & Hb). by exists reg.
  - by eapply has_map_of.
  - intros first last Hfl. eapply registers_of; try done. apply stack_maps_small.
  - destruct (inline_rows_of _ _ _ _ _ _ _ _ _ Hsh Hf i d Hd) as (begin & Eg & Hinfo). exists begin. split; [done|].
    intros k inl Hk'. destruct (Hinfo k inl Hk') as (info & Hinl & Hget). eapply method_inline; try done.
    eapply Forall_lookup_1; [apply (dk_inlines _ _ (desc_of _ _ _ _ _ _ _ Hf i d Hd))|done].
Qed.

Lemma native_pc_rows pc packed i d :
  is_u 32 pc -> PackNativePc pc isa = Some packed -> me_stack_maps me !! i = Some d ->
  is_at_pc (tables_ s) packed i <-> de_native_pc d = pc /\ has_native_pc d.
Proof using equal_range_spec Hok Hs.
  intros Hu Hp Hd. destruct method_finished as (us & Hf & _). destruct (fi_isa _ _ _ _ _ _ _ Hf) as [al Ha].
  destruct (columns_of _ _ _ _ _ _ _ Hf i d Hd) as (Ek & _ & Ep). unfold is_at_pc, has_native_pc. rewrite Ek.
  destruct (dk_begin _ _ (desc_of _ _ _ _ _ _ _ Hf i d Hd)) as (_ & Hu' & _).
  destruct (PackNativePc_mul _ _ _ _ Ha Hu' Ep) as [E1 _]. destruct (PackNativePc_mul _ _ _ _ Ha Hu Hp) as [E2 _].
  assert (sm_column (tables_ s) i StackMap.kPackedNativePc = packed <-> de_native_pc d = pc) as ->; [|done].
  split; [congruence|]. intros Hpc. rewrite Hpc in Ep. congruence.
Qed.

Lemma method_lookups : looks_up isa m' ci (me_stack_maps me).
Proof using equal_range_spec Hok Hs Henc.
  destruct method_finished as (us & Hf & _). destruct Henc as [_ Hsh _ _ _ _ _ _].
  pose proof (fi_wf _ _ _ _ _ _ _ Hf) as Hwf. pose proof (fi_len _ _ _ _ _ _ _ Hf) as Hlen.
  pose proof (columns_of _ _ _ _ _ _ _ Hf) as Hcol. destruct (fi_isa _ _ _ _ _ _ _ Hf) as [al Ha].
  split.
  - by rewrite (number_of_stack_maps _ _ _ Hsh), Hlen.
  - intros dex_pc. destruct (GetStackMapForDexPc_spec _ _ _ Hsh Hwf dex_pc) as (res & E & Hres). exists res. split; [done|].
    rewrite Hlen in Hres. eapply first_row_ext; [|exact Hres]. intros i Hi. destruct (lookup_lt_is_Some_2 _ _ Hi) as [d Hd].
    rewrite (desc_at_lookup _ _ _ _ Hd). by destruct (Hcol i d Hd) as (-> & -> & _).
  - intros dex_pc. destruct (GetOsrStackMapForDexPc_spec _ _ _ Hsh Hwf dex_pc) as (res & E & Hres). exists res. split; [done|].
    rewrite Hlen in Hres. eapply first_row_ext; [|exact Hres]. intros i Hi. destruct (lookup_lt_is_Some_2 _ _ Hi) as [d Hd].
    rewrite (desc_at_lookup _ _ _ _ Hd). by destruct (Hcol i d Hd) as (-> & -> & _).
  - intros pc packed Hu Hp. destruct (GetStackMapForNativePcOffset_spec _ _ _ Hsh Hwf isa al Ha (fi_sorted _ _ _ _ _ _ _ Hf)
      (pcs_fit_all _ _ _ _ _ _ _ Hf al Ha) pc packed Hp Hu) as (res & E & Hres). exists res. split; [done|].
    rewrite Hlen in Hres. eapply first_row_ext; [|exact Hres]. intros i Hi. destruct (lookup_lt_is_Some_2 _ _ Hi) as [d Hd].
    rewrite (desc_at_lookup _ _ _ _ Hd). by apply native_pc_rows.
  - intros front dex_pcs. destruct (all_inlines _ _ _ _ _ _ _ Hf) as (infos & H1 & H2 & Hpcs).
    destruct (catch_search_spec _ _ _ Hsh Hwf infos H1 H2 (fi_sorted _ _ _ _ _ _ _ Hf) front dex_pcs
      (length (me_stack_maps me))) as (res & E & Hres); [by rewrite Hlen|]. exists res.
    split; [simpl; by rewrite (number_of_stack_maps _ _ _ Hsh), Nat2Z.id, Hlen|].
    eapply last_row_ext; [|exact Hres]. intros i Hi. destruct (lookup_lt_is_Some_2 _ _ Hi) as [d Hd].
    rewrite (desc_at_lookup _ _ _ _ Hd). unfold is_catch. rewrite (Hpcs i d Hd). by destruct (Hcol i d Hd) as (-> & -> & _).
Qed.

(** *** The header *)

Lemma flag_bit i x : 0 <= i -> negb (x .& 2 ^ i =? 0) = Z.testbit x i.
Proof.
  intros Hi. destruct (Z.testbit x i) eqn:E.
  - apply negb_true_iff, Z.eqb_neq. intros H. assert (Z.testbit (x .& 2 ^ i) i = true) as Hb; [|by rewrite H, Z.bits_0 in Hb].
    by rewrite Z.land_spec, E, Z.pow2_bits_true.
  - apply negb_false_iff, Z.eqb_eq, Z.bits_inj'. intros j Hj. rewrite Z.land_spec, Z.bits_0.
    destruct (decide (j = i)) as [->|]; [by rewrite E|]. by rewrite Z.pow2_bits_false, andb_false_r by done.
Qed.

Lemma method_flags :
  HasInlineInfoFlag m' data = (0 <? size (t_inline_infos (tables_ s))) /\
  IsBaseline m' data = me_baseline me /\ IsDebuggable m' data = me_debuggable me.
Proof using Henc.
  destruct Henc as [_ _ _ _ _ _ _ Hb]. unfold HasInlineInfoFlag, IsBaseline, IsDebuggable.
  rewrite (flag_bit 0), (flag_bit 1), (flag_bit 2), !Hb by lia. unfold me_flags, encode_flags.
  by destruct (0 <? _), (me_baseline me), (me_debuggable me).
Qed.

Lemma DecodeHeaderOnly_fields :
  let c := DecodeHeaderOnly m' data in let c' := (DecodeCodeInfo m' data).1 in
  code_size_ c = code_size_ c' /\ packed_frame_size_ c = packed_frame_size_ c' /\
  core_spill_mask_ c = core_spill_mask_ c' /\ fp_spill_mask_ c = fp_spill_mask_ c'.
Proof using.
  unfold DecodeHeaderOnly, DecodeCodeInfo. destruct (decode_header _ _) as [h rd].
  by destruct (decode_tables _ _ _ _ _) as [ts rd'].
Qed.

Lemma method_header : (DecodeCodeInfo m' data).1 = ci -> reads_header me m' data ci.
Proof using equal_range_spec Hok Hs Henc.
  intros Hci. destruct method_finished as (us & Hf & _ & _ & Hst). unfold statics in Hst.
  injection Hst as E1 E2 E3 E4 E5 E6 E7 E8. destruct method_flags as (H1 & H2 & H3).
  destruct Henc as [_ Hsh F1 F2 F3 F4 F5 _]. destruct DecodeHeaderOnly_fields as (G1 & G2 & G3 & G4). rewrite Hci in *.
  unfold reads_header, DecodeCodeSize, DecodeFrameInfo. rewrite G1, G2, G3, G4, F1, F2, F3, F4, F5, E2, E3, E4, E5, E6, H1.
  split_and!; try done.
  - do 2 f_equal. f_equal. pose proof frame_aligned as Ha. unfold kStackAlignment in *. Z.div_mod_to_equations. lia.
  - intros (d & Hin & Hd)%Exists_exists. apply list_elem_of_lookup in Hin as [i Hi].
    destruct (inlines_of _ _ _ _ _ _ _ Hf i d Hi) as (row & infos & Hr & Hin & Hl & _).
    destruct Hin as [[-> _]|(Hne & p & _ & _ & [Hir _])]; [by destruct (de_inlines d)|].
    destruct infos as [|info infos]; [done|]. specialize (Hir 0%nat info eq_refl). apply lookup_lt_Some in Hir.
    apply Z.ltb_lt. unfold size. lia.
Qed.
End reading.
End method.

(** ** An example *)

Module Example.
Definition equal_range (d : list (Z * Z)) (h : Z) : list Z := (filter (fun p => p.1 = h) d).*2.

Definition env : Environment :=
  {| Runtime_IsAotCompiler := Some true;
     GetDexFile := fun m => m / 100;
     GetDexMethodIndex := fun m => m mod 100;
     IsBootStrapClassLoaded := fun m => m <? 500;
     GetBootClassPath := [1; 2; 3; 4];
     GetDexFilesForOatFile := [5; 6; 7] |}.

Definition masks (p : Z) : BitVector := BV [u32 p; 0] true.

(** Three stack maps, the second with two inlined methods, the third for a catch handler. *)
Definition body : list call := [
  CallBeginStackMapEntry 3 16 0 None StackMap.Default true [];
  CallAddDexRegisterEntry Kind.kInStack (-8); CallAddDexRegisterEntry Kind.kNone 0;
  CallEndStackMapEntry;
  CallBeginStackMapEntry 5 20 12 (Some 5) StackMap.OSR true [];
  CallAddDexRegisterEntry Kind.kInStack (-8); CallAddDexRegisterEntry Kind.kConstant 77;
  CallBeginInlineInfoEntry 312 9 1 5; CallAddDexRegisterEntry Kind.kInRegister 4; CallEndInlineInfoEntry;
  CallBeginInlineInfoEntry 613 10 2 5; CallAddDexRegisterEntry Kind.kInRegister 5;
  CallAddDexRegisterEntry Kind.kInFpuRegister 5; CallEndInlineInfoEntry;
  CallEndStackMapEntry;
  CallBeginStackMapEntry 7 24 12 (Some 5) StackMap.Catch true [7];
  CallAddDexRegisterEntry Kind.kInStack (-8); CallAddDexRegisterEntry Kind.kConstant 77;
  CallEndStackMapEntry ].

Definition me : Method := MakeMethod 64 7 3 2 false true body 64.

Definition stream : StackMapStream :=
  default (MakeStream kX86_64) (do_calls equal_range env masks (method_calls me) (MakeStream kX86_64)).

Lemma equal_range_ok d h : equal_range d h ≡ₚ (filter (fun p => p.1 = h) d).*2.
Proof. done. Qed.

Lemma stream_ok : do_calls equal_range env masks (method_calls me) (MakeStream kX86_64) = Some stream.
Proof. vm_compute. reflexivity. Qed.

Lemma body_ok : Forall (call_ok env) body.
Proof.
  repeat (apply Forall_cons; split); try apply Forall_nil_2; simpl; try done.
  all: try (unfold is_u, location_ok; simpl; repeat split; try lia; tauto).
  all: split_and!; try (vm_compute; split; congruence).
  all: intros _ _; vm_compute; repeat constructor.
Qed.

Lemma me_ok : method_ok env masks me.
Proof.
  split; [unfold is_u; simpl; lia..|done|apply body_ok|done|].
  change (me_stack_maps me) with (describe body). unfold body, describe. simpl.
  apply Forall_cons; split; [done|]. apply Forall_cons; split; [|apply Forall_singleton].
  all: split; [split; [|done]|done]; repeat constructor; done.
Qed.

Lemma files_ok : dex_files_ok env.
Proof. by split. Qed.

Lemma maps_ok : Forall (registers_ok (me_num_dex_registers me)) (me_stack_maps me) /\ lookups_ok (me_stack_maps me).
Proof.
  unfold me_stack_maps, describe, registers_ok. simpl. split; [repeat constructor; by right; left|].
  split; unfold has_native_pc.
  - intros i j d d' Hi Hj. destruct i as [|[|[|i]]], j as [|[|[|j]]]; simplify_eq/=; try done; intros [?|?] [?|?]; done.
  - intros i d Hi. by destruct i as [|[|[|i]]]; simplify_eq/=.
  - intros i j d d' Hi Hj. by destruct i as [|[|[|i]]], j as [|[|[|j]]]; simplify_eq/=.
Qed.

Definition mem : memory := fun _ => 0.

Lemma mem_ok : bytes_ok mem.
Proof. intros a. unfold is_u, mem. lia. Qed.

Lemma data_ok : kPageSize <= kPageSize < 2 ^ 57.
Proof. unfold kPageSize. lia. Qed.
End Example.

(** ** Properties *)

(** C2: [StackMapStream::Encode] of a debug build passes every check it makes of the buffer it has
    written. The calls between [BeginMethod] and [EndMethod] describe the stack maps, with the
    ranges of [method_ok]; the stack maps that are looked up by native PC or by catch dex PCs
    differ in them; inlined registers follow those of the outer method. Then decoding the buffer
    reads as many bits as were written and finds the flags, the header, and for every stack map
    what was passed in: it is the result of the lookups, its masks, inlined methods and their dex
    files, and all dex registers, which are found although only changes are stored, within the
    maximal search distance. *)
Theorem Encode_checks_pass equal_range isa env masks me s m data :
  (forall d h, equal_range d h ≡ₚ (filter (fun p => p.1 = h) d).*2) ->
  method_ok env masks me ->
  do_calls equal_range env masks (method_calls me) (MakeStream isa) = Some s ->
  in_inline_info_ s = false ->
  lookups_ok (me_stack_maps me) -> dex_files_ok env ->
  Forall (registers_ok (me_num_dex_registers me)) (me_stack_maps me) ->
  bytes_ok m -> kPageSize <= data < 2 ^ 57 ->
  EncodeStream env masks m data s = Some (write_code_info m data (me_flags me s) s).
Proof.
  intros Her Hok Hs Hin Hlook Hfiles Hregs Hm Hdata.
  destruct (method_finished equal_range Her isa env masks me Hok s Hs) as (us & Hf & _ & Hsm & Hst).
  destruct (method_encoded equal_range Her isa env masks me Hok s Hs m data Hm Hdata) as (ci & Ed & He & Hver).
  destruct (method_flags me s data _ ci He) as (Hf1 & Hf2 & _).
  pose proof (method_checks equal_range Her isa env masks me Hok s Hs data _ ci He Hlook Hfiles Hregs) as Hc.
  unfold statics in Hst. injection Hst as E1 E2 E3 E4 E5 E6 E7 E8.
  unfold EncodeStream. rewrite Hsm, Hin, E1, E7, E8. cbn [negb DCHECK mbind option_bind]. fold (me_flags me s).
  rewrite (proj2 (Z.leb_le _ _) (proj2 (me_flags_small me s))), Hver. cbn [DCHECK mbind option_bind].
  rewrite Ed, Z.eqb_refl, Hf1, Hf2, Hc, !eqb_reflx. cbn [DCHECK mbind option_bind].
  by rewrite (number_of_stack_maps _ _ _ (en_tables _ _ _ _ _ He)), Z.eqb_refl.
Qed.

Lemma Encode_checks_pass_witness :
  EncodeStream Example.env Example.masks Example.mem kPageSize Example.stream =
    Some (write_code_info Example.mem kPageSize (me_flags Example.me Example.stream) Example.stream).
Proof.
  apply (Encode_checks_pass Example.equal_range kX86_64 Example.env Example.masks Example.me Example.stream
    Example.mem kPageSize Example.equal_range_ok Example.me_ok Example.stream_ok);
    [vm_compute; reflexivity|apply Example.maps_ok|exact Example.files_ok|apply Example.maps_ok
    |exact Example.mem_ok|exact Example.data_ok].
Defined.

(** C7: what [StackMapStream] writes, [CodeInfo] reads back. Decoding the buffer reads exactly the
    bits that were written. The size of the code, the frame info, the number of registers and the
    flags are those of the method; and at the row of every stack map the kind, the PCs, the masks,
    the inlined methods and any range of the dex registers are the ones that were passed in. *)
Theorem CodeInfo_roundtrip equal_range isa env masks me s m data :
  (forall d h, equal_range d h ≡ₚ (filter (fun p => p.1 = h) d).*2) ->
  method_ok env masks me ->
  do_calls equal_range env masks (method_calls me) (MakeStream isa) = Some s ->
  bytes_ok m -> kPageSize <= data < 2 ^ 57 ->
  let out := write_code_info m data (me_flags me s) s in
  exists ci, DecodeCodeInfo (w_mem out) data = (ci, NumberOfWrittenBits out) /\
    reads_header me (w_mem out) data ci /\
    forall i d, me_stack_maps me !! i = Some d -> reads isa env masks (w_mem out) ci (Z.of_nat i) d.
Proof.
  intros Her Hok Hs Hm Hdata out.
  destruct (method_encoded equal_range Her isa env masks me Hok s Hs m data Hm Hdata) as (ci & Ed & He & Hver).
  exists ci. split; [done|]. split.
  - apply (method_header equal_range Her isa env masks me Hok s Hs data _ ci He). by rewrite Ed.
  - by apply (method_reads equal_range Her isa env masks me Hok s Hs data _ ci He).
Qed.

Lemma CodeInfo_roundtrip_witness :
  let out := write_code_info Example.mem kPageSize (me_flags Example.me Example.stream) Example.stream in
  exists ci, DecodeCodeInfo (w_mem out) kPageSize = (ci, NumberOfWrittenBits out) /\
    reads_header Example.me (w_mem out) kPageSize ci /\
    forall i d, me_stack_maps Example.me !! i = Some d ->
      reads kX86_64 Example.env Example.masks (w_mem out) ci (Z.of_nat i) d.
Proof.
  apply (CodeInfo_roundtrip Example.equal_range kX86_64 Example.env Example.masks Example.me Example.stream
    Example.mem kPageSize Example.equal_range_ok Example.me_ok Example.stream_ok Example.mem_ok Example.data_ok).
Defined.

(** C14: the lookups of [CodeInfo] in the encoded stack maps of a method. By dex PC they give the
    first stack map that is not for debugging (or the first for on-stack replacement); by native
    PC, with a binary search over the sorted rows, the first default or on-stack-replacement stack
    map at this PC; for a handler the last catch stack map with these dex PCs of the method and
    the inlined ones; and the invalid row where there is none. *)
Theorem CodeInfo_lookups equal_range isa env masks me s m data :
  (forall d h, equal_range d h ≡ₚ (filter (fun p => p.1 = h) d).*2) ->
  method_ok env masks me ->
  do_calls equal_range env masks (method_calls me) (MakeStream isa) = Some s ->
  bytes_ok m -> kPageSize <= data < 2 ^ 57 ->
  let mem := w_mem (write_code_info m data (me_flags me s) s) in
  looks_up isa mem (DecodeCodeInfo mem data).1 (me_stack_maps me).
Proof.
  intros Her Hok Hs Hm Hdata mem.
  destruct (method_encoded equal_range Her isa env masks me Hok s Hs m data Hm Hdata) as (ci & Ed & He & Hver).
  fold mem in Ed, He. rewrite Ed. by apply (method_lookups equal_range Her isa env masks me Hok s Hs data _ ci).
Qed.

Lemma CodeInfo_lookups_witness :
  let mem := w_mem (write_code_info Example.mem kPageSize (me_flags Example.me Example.stream) Example.stream) in
  looks_up kX86_64 mem (DecodeCodeInfo mem kPageSize).1 (me_stack_maps Example.me).
Proof.
  apply (CodeInfo_lookups Example.equal_range kX86_64 Example.env Example.masks Example.me Example.stream
    Example.mem kPageSize Example.equal_range_ok Example.me_ok Example.stream_ok Example.mem_ok Example.data_ok).
Defined.
