(* ===== verification/CodeInfoLayout.v ===== *)
(** Where a code info and its tables are in memory: proofs about the readers of BitMemory.v,
    BitTable.v and StackMap.v that follow a code info wherever its bits are moved to. *)
From S2P Require Import Prelude BitUtils Memory BitMemory BitTable BitmapTable StackMap.

(** ** Equal bits at two places *)

Definition agree (m : memory) (p : Z) (m' : memory) (p' n : Z) : Prop :=
  forall i, 0 <= i < n -> mbit m (p + i) = mbit m' (p' + i).

Lemma agree_refl m p n : agree m p m p n.
Proof. by intros i. Qed.

Lemma agree_sym m p m' p' n : agree m p m' p' n -> agree m' p' m p n.
Proof. intros H i Hi. by rewrite H. Qed.

Lemma agree_trans m p m' p' m'' p'' n : agree m p m' p' n -> agree m' p' m'' p'' n -> agree m p m'' p'' n.
Proof. intros H1 H2 i Hi. by rewrite H1, H2. Qed.

Lemma agree_sub m p m' p' n off k :
  agree m p m' p' n -> 0 <= off -> off + k <= n -> agree m (p + off) m' (p' + off) k.
Proof. intros H Ho Hk i Hi. rewrite <- !Z.add_assoc. apply H. lia. Qed.

Lemma agree_le m p m' p' n k : agree m p m' p' n -> k <= n -> agree m p m' p' k.
Proof. intros H Hk i Hi. apply H. lia. Qed.

Lemma items_match_move m p m' p' items :
  widths_ok items -> agree m p m' p' (items_bits items) -> items_match m p items -> items_match m' p' items.
Proof.
  intros Hok. revert p p'. induction Hok as [|it items Hn Hok IH]; intros p p' Ha; simpl; [done|].
  pose proof (widths_nonneg _ Hok). unfold items_bits in *. simpl in Ha. intros [H1 H2]. split.
  - intros i Hi. rewrite <- Ha by lia. by apply H1.
  - apply (IH (p + it.2)); [|done]. apply (agree_sub _ _ _ _ _ _ _ Ha); lia.
Qed.

(** ** Readers *)

Definition advance (rd : BitMemoryReader) (c : Z) : BitMemoryReader :=
  let r := finished_region_ rd in Reader (Region (data_ r) (bit_start_ r) (bit_size_ r + c)).

(** The [n] bits that begin [h] bits behind the position of a reader. *)
Definition region_after (rd : BitMemoryReader) (h n : Z) : BitMemoryRegion :=
  let r := finished_region_ rd in Region (data_ r) (bit_start_ r + bit_size_ r + h) n.

Lemma r_pos_advance rd c : r_pos (advance rd c) = r_pos rd + c.
Proof. unfold r_pos, advance, abs_start. simpl. lia. Qed.

Lemma advance_advance rd c c' : advance (advance rd c) c' = advance rd (c + c').
Proof. unfold advance. simpl. do 2 f_equal. lia. Qed.

Lemma advance_0 rd : advance rd 0 = rd.
Proof. destruct rd as [[]]. unfold advance. simpl. do 2 f_equal. lia. Qed.

Lemma advance_inj rd c c' : advance rd c = advance rd c' -> c = c'.
Proof. unfold advance. intros [=]. lia. Qed.

Lemma region_after_advance rd c h n : region_after (advance rd c) h n = region_after rd (c + h) n.
Proof. unfold region_after, advance. simpl. f_equal. lia. Qed.

Lemma region_after_start rd h n : abs_start (region_after rd h n) = r_pos rd + h.
Proof. unfold region_after, r_pos, abs_start. simpl. lia. Qed.

Lemma wf_advance rd c k : wf_reader rd (c + k) -> 0 <= c -> wf_reader (advance rd c) k.
Proof. intros [] Hc. split; simpl; lia. Qed.

Lemma wf_reader_le rd n k : wf_reader rd n -> k <= n -> wf_reader rd k.
Proof. intros [] Hk. split; lia. Qed.

Lemma wf_region_after rd h n k :
  wf_reader rd k -> 0 <= h -> 0 <= n -> h + n <= k -> wf_region (region_after rd h n).
Proof. intros [] Hh Hn Hk. split; simpl; lia. Qed.

Lemma ReadRegion_advance rd n :
  wf_reader rd n -> 0 <= n -> ReadRegion rd n = (region_after rd 0 n, advance rd n).
Proof.
  intros [Hs Hz He] Hn. unfold ReadRegion, region_after, advance, size_in_bits, Resize, Subregion. simpl.
  rewrite !uN_small by (unfold is_u; lia). by rewrite Z.add_0_r.
Qed.

(** Wherever the [c] bits at position [p] of [m] are found, [f] reads them and gives [a]; it needs
    room for at most [max] bits. *)
Definition yields {A} (f : memory -> BitMemoryReader -> A * BitMemoryReader) (max : Z)
    (m : memory) (p c : Z) (a : A) : Prop :=
  0 <= c <= max /\ forall m' rd, bytes_ok m' -> wf_reader rd max -> agree m p m' (r_pos rd) c ->
  f m' rd = (a, advance rd c).

Lemma yields_agree {A} (f : memory -> BitMemoryReader -> A * BitMemoryReader) max m p m' p' c a :
  agree m p m' p' c -> yields f max m p c a -> yields f max m' p' c a.
Proof. intros Ha [Hc Hy]. split; [done|]. intros m2 rd Hm Hr H2. apply Hy; [done..|]. by eapply agree_trans. Qed.

Lemma ReadBits_yields w m p n :
  width_ok w -> 0 <= n <= w ->
  exists v, is_u n v /\ yields (fun m rd => ReadBits w m rd n) n m p n v.
Proof.
  intros Hw Hn. set (v := of_bits (Z.to_nat n) (fun i => mbit m (p + i))).
  assert (is_u n v) as Hv by (pose proof (of_bits_is_u (Z.to_nat n) (fun i => mbit m (p + i))) as H;
    by rewrite Z2Nat.id in H by lia).
  exists v. split; [done|]. split; [lia|]. intros m' rd Hm Hr Ha.
  destruct (ReadBits_spec w m' rd n 0 v) as (rd' & E & _); try (done || lia).
  - by rewrite Z.add_0_r.
  - intros i Hi. rewrite <- Ha by lia. unfold v. rewrite of_bits_testbit by lia.
    rewrite Z2Nat.id by lia. by destruct (Z.ltb_spec i n); [|lia].
  - rewrite E. f_equal. unfold ReadBits in E. rewrite ReadRegion_advance in E by (done || lia). by injection E.
Qed.

Lemma is_u4_cases x : is_u 4 x -> (kVarintMax <? x) = true -> 0 <= (x - kVarintMax) * kBitsPerByte <= 32.
Proof. unfold is_u, kVarintMax, kBitsPerByte. intros. lia. Qed.

Lemma read_large_yields m p values :
  Forall (is_u 4) values ->
  exists c vs, length vs = length values /\ Forall (is_u 32) vs /\
    yields (fun m rd => read_large m rd values) (32 * Z.of_nat (length values)) m p c vs.
Proof.
  intros Hv. revert p. induction Hv as [|x values Hx Hv IH]; intros p.
  { exists 0, []. split_and!; [done..|]. split; [simpl; lia|]. intros. by rewrite advance_0. }
  cbn [read_large length]. destruct (kVarintMax <? x) eqn:Hl.
  - pose proof (is_u4_cases x Hx Hl) as Hb. set (n := (x - kVarintMax) * kBitsPerByte) in *.
    destruct (ReadBits_yields 64 m p n) as (v & Hvu & _ & Hy); [unfold width_ok; lia..|].
    destruct (IH (p + n)) as (c & vs & Hlen & Hvs & Hc & Hys).
    exists (n + c), (u32 v :: vs). split_and!; [simpl; congruence|constructor; [apply uN_is_u; lia|done]|].
    split; [lia|]. intros m' rd Hm Hr Ha.
    rewrite Hy by (done || (eapply wf_reader_le; [done|lia]) || (eapply agree_le; [done|lia])).
    rewrite Hys; [by rewrite advance_advance|done| |].
    + apply wf_advance; [|lia]. eapply wf_reader_le; [done|lia].
    + rewrite r_pos_advance. by apply (agree_sub _ _ _ _ _ _ _ Ha); lia.
  - destruct (IH p) as (c & vs & Hlen & Hvs & Hc & Hys).
    exists c, (x :: vs). split_and!; [simpl; congruence|constructor; [unfold is_u in *; lia|done]|].
    split; [lia|]. intros m' rd Hm Hr Ha. rewrite Hys; [done|done| |done].
    eapply wf_reader_le; [done|lia].
Qed.

Lemma varint_headers_small data N :
  Forall (is_u 4) (map (fun i => u32 (BitFieldExtractU 64 data (i * kVarintBits) kVarintBits)) (seqZ 0 (Z.of_nat N))) .
Proof.
  apply Forall_map, Forall_forall. intros i Hi. apply elem_of_seqZ in Hi. unfold kVarintBits.
  assert (is_u 4 (BitFieldExtractU 64 data (i * 4) 4)) as Hu.
  { apply is_u_bits; [lia| |].
    - unfold BitFieldExtractU. apply Z.land_nonneg. right. by vm_compute.
    - intros j Hj. rewrite BitFieldExtractU_testbit by lia. by destruct (Z.ltb_spec j 4); [lia|]. }
  rewrite uN_small; unfold is_u in *; lia.
Qed.

Lemma ReadInterleavedVarints_yields N m p :
  (N <= 16)%nat ->
  exists c vs, length vs = N /\ Forall (is_u 32) vs /\ 4 * Z.of_nat N <= c /\
    yields (ReadInterleavedVarints N) (36 * Z.of_nat N) m p c vs.
Proof.
  intros HN. unfold ReadInterleavedVarints.
  destruct (ReadBits_yields 64 m p (Z.of_nat N * kVarintBits)) as (data & Hd & _ & Hy);
    [unfold width_ok; lia|unfold kVarintBits; lia|]. unfold kVarintBits in *.
  destruct (read_large_yields m (p + Z.of_nat N * 4) _ (varint_headers_small data N))
    as (c & vs & Hlen & Hvs & Hc & Hys). rewrite length_map, length_seqZ, Nat2Z.id in *.
  exists (Z.of_nat N * 4 + c), vs. split_and!; [done..|lia|]. split; [lia|]. intros m' rd Hm Hr Ha.
  rewrite Hy by (done || (eapply wf_reader_le; [done|lia]) || (eapply agree_le; [done|lia])).
  rewrite Hys; [by rewrite advance_advance|done| |].
  - apply wf_advance; [|lia]. eapply wf_reader_le; [done|lia].
  - rewrite r_pos_advance. by apply (agree_sub _ _ _ _ _ _ _ Ha); lia.
Qed.

Lemma ReadVarint_yields m p : exists c v, is_u 32 v /\ yields ReadVarint 36 m p c v.
Proof.
  destruct (ReadBits_yields 64 m p 4) as (x & Hx & _ & Hy); [unfold width_ok; lia|lia|].
  assert (u32 x = x) as Ex by (apply uN_small; unfold is_u in *; lia).
  destruct (kVarintMax <? x) eqn:Hl.
  - pose proof (is_u4_cases x Hx Hl) as Hb. set (n := (x - kVarintMax) * kBitsPerByte) in *.
    destruct (ReadBits_yields 64 m (p + 4) n) as (v & Hvu & _ & Hyv); [unfold width_ok; lia..|].
    exists (4 + n), (u32 v). split; [apply uN_is_u; lia|]. split; [lia|]. intros m' rd Hm Hr Ha.
    unfold ReadVarint, kVarintBits.
    rewrite Hy by (done || (eapply wf_reader_le; [done|lia]) || (eapply agree_le; [done|lia])).
    rewrite Ex. replace (x <=? kVarintMax) with false by lia. fold n.
    rewrite Hyv; [by rewrite advance_advance|done| |].
    + apply wf_advance; [|lia]. eapply wf_reader_le; [done|lia].
    + rewrite r_pos_advance. by apply (agree_sub _ _ _ _ _ _ _ Ha); lia.
  - exists 4, x. split; [unfold is_u in *; lia|]. split; [lia|]. intros m' rd Hm Hr Ha.
    unfold ReadVarint, kVarintBits.
    rewrite Hy by (done || (eapply wf_reader_le; [done|lia]) || (eapply agree_le; [done|lia])).
    rewrite Ex. by replace (x <=? kVarintMax) with true by lia.
Qed.

Lemma varint_items_least values :
  Forall (is_u 32) values -> 4 * Z.of_nat (length values) <= items_bits (varint_items values).
Proof.
  intros Hv. unfold varint_items. rewrite items_bits_app.
  assert (0 <= items_bits (concat (map large_items values))).
  { apply items_bits_nonneg, Forall_concat, Forall_map. eapply Forall_impl; [done|]. apply large_items_ok. }
  enough (items_bits (map small_item values) = 4 * Z.of_nat (length values)) by lia.
  clear. induction values as [|v values IH]; [done|]. unfold items_bits in *. cbn [map foldr length].
  rewrite IH. unfold small_item, kVarintBits. simpl. lia.
Qed.

(** What is read where varints were written. *)
Lemma written_varints m p values :
  Forall (is_u 32) values -> (length values <= 16)%nat -> items_match m p (varint_items values) ->
  yields (ReadInterleavedVarints (length values)) (36 * Z.of_nat (length values)) m p
    (items_bits (varint_items values)) values.
Proof.
  intros Hv HN Hi. pose proof (varint_items_bound values Hv). pose proof (items_bits_nonneg _ (varint_items_ok _ Hv)).
  split; [lia|]. intros m' rd Hm Hr Ha.
  destruct (ReadInterleavedVarints_spec m' values rd 0) as (rd' & E & _ & Hp); try (done || lia).
  { eapply wf_reader_le; [done|lia]. }
  { apply (items_match_move m p); [by apply item_ok_widths, varint_items_ok|done..]. }
  destruct (ReadInterleavedVarints_yields (length values) m' (r_pos rd) HN) as (c & vs & _ & _ & _ & _ & Hy).
  specialize (Hy m' rd Hm Hr (agree_refl _ _ _)). rewrite Hy in E |- *. injection E as -> <-.
  rewrite r_pos_advance in Hp. f_equal. f_equal. lia.
Qed.

Lemma written_varint m p v :
  is_u 32 v -> items_match m p (varint_items [v]) ->
  yields ReadVarint 36 m p (items_bits (varint_items [v])) v.
Proof.
  intros Hv Hi. assert (Forall (is_u 32) [v]) as Hvs by by constructor.
  pose proof (varint_items_bound [v] Hvs) as Hb. pose proof (items_bits_nonneg _ (varint_items_ok _ Hvs)).
  simpl length in Hb. split; [lia|]. intros m' rd Hm Hr Ha.
  destruct (ReadVarint_spec m' v rd 0) as (rd' & E & _ & Hp); try (done || lia).
  { eapply wf_reader_le; [done|lia]. }
  { apply (items_match_move m p); [by apply item_ok_widths, varint_items_ok|done..]. }
  destruct (ReadVarint_yields m' (r_pos rd)) as (c & v' & _ & _ & Hy).
  specialize (Hy m' rd Hm Hr (agree_refl _ _ _)). rewrite Hy in E |- *. injection E as -> <-.
  rewrite r_pos_advance in Hp. f_equal. f_equal. lia.
Qed.

(** ** Tables *)

(** The header of an encoded table, with the number of its bits. *)
Record Shape := MakeShape { sh_values : list Z; sh_header : Z }.

Definition sh_rows (sh : Shape) : Z := default 0 (sh_values sh !! 0%nat).
Definition sh_offsets (sh : Shape) : list Z := 0 :: column_offsets 0 (drop 1 (sh_values sh)).
Definition sh_bits (K : nat) (sh : Shape) : Z := u32 (sh_rows sh * default 0 (sh_offsets sh !! K)).
Definition sh_size (K : nat) (sh : Shape) : Z := sh_header sh + sh_bits K sh.

(** The room that decoding a table needs at most. *)
Definition table_room : Z := 2 ^ 33.

Definition shape_at (K : nat) (m : memory) (p : Z) (sh : Shape) : Prop :=
  (1 + K <= 16)%nat /\
  yields (ReadInterleavedVarints (1 + K)) (36 * Z.of_nat (1 + K)) m p (sh_header sh) (sh_values sh).

Lemma sh_bits_range K sh : 0 <= sh_bits K sh < 2 ^ 32.
Proof. apply uN_is_u. lia. Qed.

Lemma shape_size K m p sh : shape_at K m p sh -> 0 <= sh_header sh <= sh_size K sh /\ sh_size K sh < table_room.
Proof.
  intros [HK [Hc _]]. pose proof (sh_bits_range K sh). unfold sh_size, table_room. lia.
Qed.

Lemma shape_exists K m p : (1 + K <= 16)%nat -> exists sh, shape_at K m p sh.
Proof.
  intros HK. destruct (ReadInterleavedVarints_yields (1 + K) m p HK) as (c & vs & _ & _ & _ & Hy).
  by exists (MakeShape vs c).
Qed.

Lemma shape_agree K m p m' p' sh :
  agree m p m' p' (sh_size K sh) -> shape_at K m p sh -> shape_at K m' p' sh.
Proof.
  intros Ha Hs. pose proof (shape_size _ _ _ _ Hs). destruct Hs as [HK Hy]. split; [done|].
  eapply yields_agree; [|done]. eapply agree_le; [done|lia].
Qed.

Lemma Decode_shape K m rd sh :
  bytes_ok m -> wf_reader rd table_room -> shape_at K m (r_pos rd) sh ->
  Decode K m rd = (Table (region_after rd (sh_header sh) (sh_bits K sh)) (sh_rows sh) (sh_offsets sh),
                   advance rd (sh_size K sh)).
Proof.
  intros Hm Hr Hs. pose proof (shape_size _ _ _ _ Hs) as [Hh Hsz]. destruct Hs as [HK [Hc Hy]].
  pose proof (sh_bits_range K sh). unfold Decode.
  rewrite Hy by (done || (eapply wf_reader_le; [done|unfold table_room; lia]) || apply agree_refl).
  fold (sh_rows sh) (sh_offsets sh). fold (sh_bits K sh).
  rewrite ReadRegion_advance; [|apply wf_advance; [eapply wf_reader_le; [done|unfold sh_size in *; lia]|lia]|lia].
  by rewrite region_after_advance, advance_advance, Z.add_0_r.
Qed.

(** ** Code infos *)

(** The tables [i], ... of a code info with these flags, one after the other from position [p] to
    [e]: where each one is, here or at an earlier position not before [L]. *)
Inductive layout (m : memory) (L flags : Z) : nat -> list nat -> Z -> list (option (Z * Shape)) -> Z -> Prop :=
  | layout_nil i p : layout m L flags i [] p [] p
  | layout_absent i K columns p l e :
      HasBitTable flags i = false -> layout m L flags (S i) columns p l e ->
      layout m L flags i (K :: columns) p (None :: l) e
  | layout_present i K columns p sh l e :
      HasBitTable flags i = true -> IsBitTableDeduped flags i = false -> shape_at K m p sh ->
      layout m L flags (S i) columns (p + sh_size K sh) l e ->
      layout m L flags i (K :: columns) p (Some (p, sh) :: l) e
  | layout_deduped i K columns p d c sh l e :
      HasBitTable flags i = true -> IsBitTableDeduped flags i = true ->
      is_u 32 d -> yields ReadVarint 36 m p c d ->
      shape_at K m (p - d) sh -> L <= p - d -> p - d + sh_size K sh <= p ->
      layout m L flags (S i) columns (p + c) l e ->
      layout m L flags i (K :: columns) p (Some (p - d, sh) :: l) e.

Lemma layout_le m L flags i columns p l e :
  layout m L flags i columns p l e -> p <= e <= p + table_room * Z.of_nat (length columns).
Proof.
  assert (36 < table_room) by (unfold table_room; lia).
  induction 1 as [i p|i K columns p l e _ _ IH|i K columns p sh l e _ _ Hs _ IH
    |i K columns p d c sh l e _ _ Hd [Hc _] Hs _ _ _ IH]; cbn [length]; try lia.
  pose proof (shape_size _ _ _ _ Hs). lia.
Qed.

Lemma layout_frame m m' L flags i columns p l e :
  layout m L flags i columns p l e -> L <= p -> (forall j, L <= j < e -> mbit m' j = mbit m j) ->
  layout m' L flags i columns p l e.
Proof.
  intros Hl. induction Hl as [i p|i K columns p l e Hf Hl IH|i K columns p sh l e Hf Hd Hs Hl IH
    |i K columns p d c sh l e Hf Hdd Hd Hy Hs HL Hle Hl IH]; intros Hp Hfr.
  - constructor.
  - constructor; [done|by apply IH].
  - pose proof (shape_size _ _ _ _ Hs). pose proof (layout_le _ _ _ _ _ _ _ _ Hl).
    constructor; [done..| |apply IH; [lia|done]].
    eapply shape_agree; [|done]. intros j Hj. rewrite Hfr by lia. done.
  - pose proof (shape_size _ _ _ _ Hs). pose proof (layout_le _ _ _ _ _ _ _ _ Hl). destruct (proj1 Hy).
    apply layout_deduped with c; try done; [| |apply IH; [lia|done]].
    + eapply yields_agree; [|done]. intros j Hj. rewrite Hfr by lia. done.
    + eapply shape_agree; [|done]. intros j Hj. rewrite Hfr by lia. done.
Qed.

(** Code without back references has a layout in every memory. *)
Lemma layout_exists m L flags i columns p :
  (forall j, IsBitTableDeduped flags j = false) -> Forall (fun K => (1 + K <= 16)%nat) columns ->
  exists l e, layout m L flags i columns p l e.
Proof.
  intros Hd Hc. revert i p. induction Hc as [|K columns HK Hc IH]; intros i p.
  { exists [], p. constructor. }
  destruct (HasBitTable flags i) eqn:Hf.
  - destruct (shape_exists K m p HK) as [sh Hs]. destruct (IH (S i) (p + sh_size K sh)) as (l & e & Hl).
    exists (Some (p, sh) :: l), e. by constructor.
  - destruct (IH (S i) p) as (l & e & Hl). exists (None :: l), e. by constructor.
Qed.

(** ** Decoding *)

Definition table_is (K : nat) (t : BitTableBase) (o : option (Z * Shape)) : Prop :=
  match o with
  | None => t = empty_table K
  | Some (q, sh) =>
      num_rows_ t = sh_rows sh /\ column_offset_ t = sh_offsets sh /\ wf_region (table_data_ t) /\
      data_ (table_data_ t) <> 0 /\ abs_start (table_data_ t) = q + sh_header sh /\
      bit_size_ (table_data_ t) = sh_bits K sh /\ 0 <= sh_header sh
  end.

(** The table that a reader at its position decodes. *)
Definition table_read (m : memory) (K : nat) (t : BitTableBase) (o : option (Z * Shape)) : Prop :=
  match o with
  | None => t = empty_table K
  | Some (q, sh) => exists rd, wf_reader rd table_room /\ data_ (finished_region_ rd) <> 0 /\ r_pos rd = q /\
      shape_at K m q sh /\ t = (Decode K m rd).1
  end.

Lemma MakeReaderAt_at a off :
  0 <= a < 2 ^ 58 -> -2 ^ 60 < off < 2 ^ 60 -> 0 <= 8 * a + off ->
  let rd := MakeReaderAt a off in
  wf_reader rd (2 ^ 62) /\ r_pos rd = 8 * a + off /\ NumberOfReadBits rd = 0 /\
  (8 * kPageSize <= 8 * a + off -> data_ (finished_region_ rd) <> 0) /\
  region_data (finished_region_ rd) = a + off / 8.
Proof.
  intros Ha Ho Hp. unfold MakeReaderAt, MakeRegion, r_pos, NumberOfReadBits, abs_start, region_data,
    size_in_bits, kBitsPerByteLog2, kPageSize, kBitsPerByte. cbn [finished_region_].
  rewrite Z.shiftr_div_pow2 by lia. change (2 ^ 3) with 8. change 4096 with (2 ^ 12).
  pose proof (Z.div_mod off 8 ltac:(lia)). pose proof (Z.mod_pos_bound off 8 ltac:(lia)).
  rewrite RoundDown_val by (unfold is_u; lia). set (x := a + off / 8) in *.
  pose proof (Z.mod_pos_bound x (2 ^ 12) ltac:(lia)).
  rewrite uN_small by (unfold is_u; lia). cbn [data_ bit_start_ bit_size_].
  split_and!; [split; cbn [finished_region_ data_ bit_start_ bit_size_]; lia|lia|done| |].
  - intros Hk. enough (2 ^ 12 <= x) by (pose proof (Z.mod_le x (2 ^ 12) ltac:(lia) ltac:(lia)); Z.div_mod_to_equations; lia).
    lia.
  - replace (off + 8 * (a - (x - x mod 2 ^ 12))) with (off mod 8 + (x mod 2 ^ 12) * 8) by lia.
    rewrite Z.div_add, Z.div_small by lia. lia.
Qed.

(** The reader of a code info at the position that it has reached. *)
Record code_reader (rd : BitMemoryReader) (n : Z) : Prop := {
  cr_wf : wf_reader rd n;
  cr_valid : data_ (finished_region_ rd) <> 0;
  cr_data : 0 <= region_data (finished_region_ rd) < 2 ^ 58;
  cr_read : NumberOfReadBits rd < 2 ^ 59;
  cr_pos : r_pos rd = 8 * region_data (finished_region_ rd) + NumberOfReadBits rd }.

Lemma code_reader_advance rd c n :
  code_reader rd (c + n) -> 0 <= c -> NumberOfReadBits rd + c < 2 ^ 59 -> code_reader (advance rd c) n.
Proof.
  intros [Hw Hv Hd Hs Hp] Hc Hb. split; [by apply wf_advance|done|done|..].
  - done.
  - rewrite r_pos_advance, Hp. unfold NumberOfReadBits, size_in_bits. simpl. unfold region_data. simpl. lia.
Qed.

Lemma decoded_table K m rd sh :
  wf_reader rd table_room -> data_ (finished_region_ rd) <> 0 -> shape_at K m (r_pos rd) sh ->
  table_is K (Table (region_after rd (sh_header sh) (sh_bits K sh)) (sh_rows sh) (sh_offsets sh))
    (Some (r_pos rd, sh)).
Proof.
  intros Hw Hv Hs. pose proof (shape_size _ _ _ _ Hs). pose proof (sh_bits_range K sh).
  unfold table_is. cbn [table_data_ num_rows_ column_offset_].
  split_and!; try (done || lia); [|apply region_after_start].
  eapply wf_region_after; [apply Hw|unfold sh_size in *; lia..].
Qed.

Lemma table_read_is m K t o : bytes_ok m -> table_read m K t o -> table_is K t o.
Proof.
  intros Hm. destruct o as [[q sh]|]; [|done]. intros (rd & Hw & Hv & <- & Hs & ->).
  rewrite (Decode_shape K m rd sh) by done. by apply (decoded_table K m).
Qed.

Lemma decode_table_layout m L flags i K columns p l e rd :
  bytes_ok m -> 8 * kPageSize <= L -> p < 2 ^ 59 ->
  layout m L flags i (K :: columns) p l e -> r_pos rd = p -> code_reader rd table_room ->
  exists t o l' c, decode_table m flags i K rd = (t, advance rd c) /\ table_read m K t o /\ l = o :: l' /\
    layout m L flags (S i) columns (p + c) l' e /\ 0 <= c <= table_room.
Proof.
  intros Hm HL Hp Hl Hr Hc. assert (36 <= table_room) by (unfold table_room; lia). unfold decode_table.
  inversion Hl as [|? ? ? ? l' ? Hf Hl'|? ? ? ? sh l' ? Hf Hd Hs Hl'
    |? ? ? ? d c sh l' ? Hf Hdd Hd Hy Hs HLd Hle Hl']; subst; rewrite Hf.
  - exists (empty_table K), None, l', 0. rewrite advance_0, Z.add_0_r. split_and!; (done || lia).
  - rewrite Hd. pose proof (shape_size _ _ _ _ Hs). pose proof (sh_bits_range K sh).
    rewrite (surjective_pairing (Decode K m rd)), (Decode_shape K m rd sh) by (done || apply Hc). cbn [snd].
    eexists _, (Some (r_pos rd, sh)), l', _. split_and!; try (done || lia). exists rd. split_and!; try (done || apply Hc).
    by rewrite (Decode_shape K m rd sh) by (done || apply Hc).
  - rewrite Hdd. pose proof (shape_size _ _ _ _ Hs). pose proof (sh_bits_range K sh). destruct Hy as [Hcr Hy].
    rewrite Hy by (done || (eapply wf_reader_le; [apply Hc|lia]) || apply agree_refl).
    destruct Hc as [Hw Hv Hdt Hs' Hpos]. unfold is_u in Hd.
    assert (0 <= NumberOfReadBits rd) by apply Hw.
    rewrite sN_small by (unfold is_s; lia).
    change (region_data (finished_region_ (advance rd c))) with (region_data (finished_region_ rd)).
    destruct (MakeReaderAt_at (region_data (finished_region_ rd)) (NumberOfReadBits rd - d))
      as (Hw2 & Hp2 & _ & Hv2 & _); [lia|lia|unfold kPageSize in *; lia|].
    assert (r_pos (MakeReaderAt (region_data (finished_region_ rd)) (NumberOfReadBits rd - d)) = r_pos rd - d) as Ep by lia.
    rewrite (surjective_pairing (Decode K m (MakeReaderAt _ _))).
    eexists _, (Some (r_pos rd - d, sh)), l', c. split_and!; try (done || lia).
    exists (MakeReaderAt (region_data (finished_region_ rd)) (NumberOfReadBits rd - d)).
    split_and!; try done; [|apply Hv2; lia]. eapply wf_reader_le; [done|unfold table_room; lia].
Qed.

Lemma decode_tables_layout m L flags i columns p l e rd :
  bytes_ok m -> 8 * kPageSize <= L -> e < 2 ^ 58 ->
  layout m L flags i columns p l e -> r_pos rd = p ->
  code_reader rd (table_room * Z.of_nat (length columns)) ->
  exists ts, decode_tables m flags i columns rd = (ts, advance rd (e - p)) /\ Forall3 (table_read m) columns ts l.
Proof.
  intros Hm HL He. revert i p l rd. induction columns as [|K columns IH]; intros i p l rd Hl Hr Hc.
  { inversion Hl; subst. exists []. rewrite Z.sub_diag, advance_0. split; [done|constructor]. }
  pose proof (layout_le _ _ _ _ _ _ _ _ Hl) as Hle. cbn [length] in *.
  assert (0 < table_room) by (unfold table_room; lia).
  destruct (decode_table_layout m L flags i K columns p l e rd) as (t & o & l' & c & E & Ht & -> & Hl' & Hcr); try (done || lia).
  { destruct Hc as [Hw ? ? ? ?]. split; try done. eapply wf_reader_le; [done|nia]. }
  pose proof (layout_le _ _ _ _ _ _ _ _ Hl') as Hle'.
  destruct (IH (S i) (p + c) l' (advance rd c)) as (ts & E' & Hts); [done|by rewrite r_pos_advance, Hr| |].
  { destruct Hc as [Hw ? ? ? ?]. apply code_reader_advance; [split; try done|lia|lia].
    eapply wf_reader_le; [done|nia]. }
  cbn [decode_tables]. rewrite E, E'. exists (t :: ts). rewrite advance_advance.
  split; [do 2 f_equal; lia|by constructor].
Qed.

(** A code info at [data] with header [hd], up to position [e]. *)
Definition info_at (m : memory) (L data : Z) (hd : list Z) (l : list (option (Z * Shape))) (e : Z) : Prop :=
  exists c, yields (ReadInterleavedVarints kNumHeaders) 252 m (8 * data) c hd /\
    layout m L (default 0 (hd !! 6%nat)) 0 table_columns (8 * data + c) l e /\ 28 <= c.

Lemma info_frame m m' L data hd l e :
  info_at m L data hd l e -> L <= 8 * data -> (forall j, L <= j < e -> mbit m' j = mbit m j) ->
  info_at m' L data hd l e.
Proof.
  intros (c & Hy & Hl & H28) HL Hf. destruct (proj1 Hy) as [Hc _]. pose proof (layout_le _ _ _ _ _ _ _ _ Hl) as Hle.
  exists c. split_and!; [|apply (layout_frame m); [done|lia|done]|done].
  eapply yields_agree; [|done]. intros j Hj. rewrite Hf by lia. done.
Qed.

Lemma info_reader data : kPageSize <= data < 2 ^ 57 -> code_reader (MakeReaderAt data 0) (2 ^ 60) /\
  r_pos (MakeReaderAt data 0) = 8 * data /\ NumberOfReadBits (MakeReaderAt data 0) = 0 /\
  region_data (finished_region_ (MakeReaderAt data 0)) = data.
Proof.
  intros Hd. unfold kPageSize in *. destruct (MakeReaderAt_at data 0) as (Hw & Hp & Hn & Hv & Hr); [lia..|].
  rewrite Z.div_0_l, Z.add_0_r in Hr by lia. rewrite Z.add_0_r in *. split_and!; try done.
  split; [by eapply wf_reader_le; [done|lia]|apply Hv; unfold kPageSize; lia|rewrite Hr; lia|lia|].
  by rewrite Hr, Hn, Z.add_0_r.
Qed.

Lemma DecodeCodeInfo_at m L data hd l e :
  bytes_ok m -> 8 * kPageSize <= L -> kPageSize <= data < 2 ^ 57 -> e < 2 ^ 58 ->
  info_at m L data hd l e ->
  exists ts, DecodeCodeInfo m data = (code_info_of hd ts, e - 8 * data) /\ Forall3 (table_read m) table_columns ts l.
Proof.
  intros Hm HL Hd He (c & [Hc Hy] & Hl & _). destruct (info_reader data Hd) as (Hcr & Hp & Hn & _).
  unfold DecodeCodeInfo, decode_header.
  rewrite Hy; [|done|eapply wf_reader_le; [apply Hcr|lia]|rewrite Hp; apply agree_refl].
  destruct (decode_tables_layout m L _ 0 table_columns _ l e (advance (MakeReaderAt data 0) c) Hm HL He Hl)
    as (ts & -> & Hts); [by rewrite r_pos_advance, Hp| |].
  { apply code_reader_advance; [|lia|lia]. destruct Hcr as [Hw ? ? ? ?]. split; try done.
    eapply wf_reader_le; [done|unfold table_room; simpl; lia]. }
  exists ts. split; [|done]. f_equal. rewrite advance_advance. unfold NumberOfReadBits, size_in_bits in *. simpl. lia.
Qed.
