(* ===== verification/CodeInfoDeduper.v ===== *)
(** Sharing of bit tables between code infos: dex2oat/linker/code_info_table_deduper.h and .cc,
    with the hash of libartbase/base/data_hash.h.

    The source code infos and the output are in one memory.  The debug build is modelled: a
    failing DCHECK is [None].  The entries of the set are positions of tables in the output, so its
    hash function and equality depend on the memory; a pointer to an entry is the index of its
    slot. *)
From S2P Require Import Prelude BitUtils Memory BitMemory BitTable BitmapTable HashSet StackMap.

(** ** DataHash *)

Definition kMurmur3BlockBits : Z := 32.
Definition kMurmur3C1 : Z := 0xcc9e2d51.
Definition kMurmur3C2 : Z := 0x1b873593.
Definition kMurmur3R1 : Z := 15.
Definition kMurmur3R2 : Z := 13.
Definition kMurmur3M : Z := 5.
Definition kMurmur3N : Z := 0xe6546b64.

Definition Murmur3Start : Z := 0.

Definition Murmur3UpdatePartial (hash block : Z) : Z :=
  let k := u32 (block * kMurmur3C1) in
  let k := u32 (k ≪ kMurmur3R1) .| (k ≫ (32 - kMurmur3R1)) in
  let k := u32 (k * kMurmur3C2) in
  hash .^ k.

Definition Murmur3Update (hash block : Z) : Z :=
  let k := u32 (block * kMurmur3C1) in
  let k := u32 (k ≪ kMurmur3R1) .| (k ≫ (32 - kMurmur3R1)) in
  let k := u32 (k * kMurmur3C2) in
  let hash := hash .^ k in
  u32 ((u32 (hash ≪ kMurmur3R2) .| (hash ≫ (32 - kMurmur3R2))) * kMurmur3M + kMurmur3N).

Definition HashBytesFinish (hash : Z) : Z :=
  let hash := u64 (hash + u64 (hash ≪ 13)) in
  let hash := hash .^ (hash ≫ 7) in
  let hash := u64 (hash + u64 (hash ≪ 3)) in
  let hash := hash .^ (hash ≫ 17) in
  u64 (hash + u64 (hash ≪ 5)).

(** [DataHash()(region)]. *)
Definition DataHash (m : memory) (region : BitMemoryRegion) : Z :=
  let num_full_blocks := size_in_bits region / kMurmur3BlockBits in
  let num_end_bits := size_in_bits region mod kMurmur3BlockBits in
  let hash :=
    foldl (fun hash i =>
        Murmur3Update hash (u32 (LoadBits 64 m region (u32 (i * kMurmur3BlockBits)) kMurmur3BlockBits)))
      Murmur3Start (seqZ 0 num_full_blocks) in
  let hash :=
    if negb (num_end_bits =? 0) then
      Murmur3UpdatePartial hash
        (u32 (LoadBits 64 m region (u64 (num_full_blocks * kMurmur3BlockBits)) num_end_bits))
    else hash in
  HashBytesFinish hash.

(** ** The set of tables *)

(** The members are 32 bits wide. *)
Record DedupeSetEntry := DedupeEntry { bit_start : Z; bit_size : Z }.

Definition entry_region (data : Z) (item : DedupeSetEntry) : BitMemoryRegion :=
  MakeRegion data (u32 (bit_start item)) (u32 (bit_size item)).

Definition DedupeSetEntryHash (m : memory) (data : Z) (item : DedupeSetEntry) : Z :=
  u32 (DataHash m (entry_region data item)).

(** The set compares no empty entries, as two DCHECKs demand. *)
Definition DedupeSetEntryEquals (m : memory) (data : Z) (lhs rhs : DedupeSetEntry) : bool :=
  (u32 (bit_size lhs) =? u32 (bit_size rhs))
  && BitMemory.Equals m (entry_region data lhs) (entry_region data rhs).

(** The template arguments of [DedupeSet], for an output vector at [data]. *)
Definition DedupeSet (m : memory) (data : Z) : HashSetTraits DedupeSetEntry := {|
  MakeEmpty := DedupeEntry 0 0;
  IsEmpty item := u32 (bit_size item) =? 0;
  hashfn := DedupeSetEntryHash m data;
  pred := DedupeSetEntryEquals m data |}.

(** Computations with the load factors 0.5 and 0.75 and with their quotient 1.5, exact in doubles
    for the sizes of sets in memory. *)
Definition mul_max_load (n : Z) : Z := n * 3 / 4.
Definition div_max_load (n : Z) : Z := n * 4 / 3.
Definition div_min_load (n : Z) : Z := n * 2.
Definition mul_factor (n : Z) : Z := n * 3 / 2.

Record CodeInfoTableDeduper := Deduper {
  writer_ : BitMemoryWriter;
  dedupe_set_ : HashSet DedupeSetEntry }.

(** The output is an empty vector at [output]. *)
Definition MakeDeduper (m : memory) (output : Z) : CodeInfoTableDeduper :=
  Deduper (MakeWriter m output 0 0) (Hash [] 0 0).

Definition reserve_set (d : CodeInfoTableDeduper) (num_elements : Z) : option (HashSet DedupeSetEntry) :=
  @reserve _ (DedupeSet (w_mem (writer_ d)) (w_data (writer_ d))) mul_max_load div_max_load
    (dedupe_set_ d) num_elements.

Definition ReserveDedupeBuffer (num_code_infos : Z) (d : CodeInfoTableDeduper) :
    option CodeInfoTableDeduper :=
  _ ← DCHECK (empty (dedupe_set_ d));
  let max_size := u64 (num_code_infos * Z.of_nat kNumBitTables) in
  s ← reserve_set d (max_size / 2);
  Some (Deduper (writer_ d) s).

(** ** Dedupe *)

Definition kMinDedupSize : Z := 33.

(** Room for the tables of one code info, so that slots do not move. *)
Definition reserve_tables (d : CodeInfoTableDeduper) : option (HashSet DedupeSetEntry) :=
  let s := dedupe_set_ d in
  if u64 (elements_until_expand_ s - size s) <? Z.of_nat kNumBitTables then
    let required_capacity := size s + Z.of_nat kNumBitTables in
    let reservation := mul_factor required_capacity in
    _ ← DCHECK (required_capacity <=? reservation);
    s ← reserve_set d reservation;
    _ ← DCHECK (Z.of_nat kNumBitTables <=? u64 (elements_until_expand_ s - size s));
    Some s
  else Some s.

(** [dchecked_integral_cast<uint32_t>]. *)
Definition dchecked_u32 (x : Z) : option Z := _ ← DCHECK (x =? u32 x); Some x.

(** [bit_table_bit_starts], with the end of the last table. *)
Fixpoint bit_table_bit_starts (m : memory) (flags : Z) (i : nat) (columns : list nat)
    (reader : BitMemoryReader) : option (list Z * BitMemoryReader) :=
  start ← dchecked_u32 (NumberOfReadBits reader);
  match columns with
  | [] => Some ([start], reader)
  | kNumColumns :: columns =>
      _ ← DCHECK (negb (IsBitTableDeduped flags i));
      let reader := if HasBitTable flags i then (Decode kNumColumns m reader).2 else reader in
      '(starts, reader) ← bit_table_bit_starts m flags (S i) columns reader;
      Some (start :: starts, reader)
  end.

(** The copy of the source that the tables are compared in. *)
Definition copy_source (wr : BitMemoryWriter) (bytes length : Z) : option BitMemoryWriter :=
  _ ← DCHECK (w_bit_start wr mod kBitsPerByte =? 0);
  _ ← DCHECK (w_bit_offset wr mod kBitsPerByte =? 0);
  _ ← DCHECK (BitsToBytesRoundUp (w_bit_offset wr) =? w_size wr);
  Some (WriteBytesAligned wr bytes length).

(** One table: the set, the flags with the mark of a table that was found, and the entry. *)
Definition insert_table (m : memory) (data start_bit_offset : Z) (i : nat) (start end_ : Z)
    (s : HashSet DedupeSetEntry) (flags : Z) : option (HashSet DedupeSetEntry * Z * option Z) :=
  let table_bit_size := u32 (end_ - start) in
  if HasBitTable flags i && (kMinDedupSize <=? table_bit_size) then
    let table_bit_start := u32 (start_bit_offset + start) in
    '(s, slot, inserted) ←
      @insert _ (DedupeSet m data) mul_max_load div_min_load s (DedupeEntry table_bit_start table_bit_size);
    Some (s, if inserted : bool then flags else SetBitTableDeduped flags i, Some slot)
  else Some (s, flags, None).

(** The loop that inserts the large tables. *)
Fixpoint insert_tables (m : memory) (data start_bit_offset : Z) (i : nat) (starts : list Z)
    (s : HashSet DedupeSetEntry) (flags : Z) :
    option (HashSet DedupeSetEntry * Z * list (option Z)) :=
  match starts with
  | start :: ((end_ :: _) as starts) =>
      '(s, flags, entry) ← insert_table m data start_bit_offset i start end_ s flags;
      '(s, flags, entries) ← insert_tables m data start_bit_offset (S i) starts s flags;
      Some (s, flags, entry :: entries)
  | _ => Some (s, flags, [])
  end.

Definition set_slot (s : HashSet DedupeSetEntry) (slot : Z) (item : DedupeSetEntry) :
    HashSet DedupeSetEntry :=
  Hash (<[Z.to_nat slot := item]> (data_ s)) (num_elements_ s) (elements_until_expand_ s).

(** One table: a distance to an equal one, or the table, whose entry now has its position. *)
Definition write_table (read_region : BitMemoryRegion) (flags : Z) (i : nat) (start end_ : Z)
    (entry : option Z) (wr : BitMemoryWriter) (s : HashSet DedupeSetEntry) :
    option (BitMemoryWriter * HashSet DedupeSetEntry) :=
  if HasBitTable flags i then
    let current_bit_offset := NumberOfWrittenBits wr in
    let table_bit_size := u32 (end_ - start) in
    if IsBitTableDeduped flags i then
      _ ← DCHECK (kMinDedupSize <=? table_bit_size);
      slot ← entry;
      item ← ElementForIndex (data_ s) slot;
      Some (WriteVarint wr (u32 (current_bit_offset - bit_start item)), s)
    else
      let wr := WriteRegion wr (Subregion read_region start table_bit_size) in
      if kMinDedupSize <=? table_bit_size then
        slot ← entry;
        item ← ElementForIndex (data_ s) slot;
        Some (wr, set_slot s slot (DedupeEntry (u32 current_bit_offset) (bit_size item)))
      else Some (wr, s)
  else Some (wr, s).

Fixpoint write_tables (read_region : BitMemoryRegion) (flags : Z) (i : nat) (starts : list Z)
    (entries : list (option Z)) (wr : BitMemoryWriter) (s : HashSet DedupeSetEntry) :
    option (BitMemoryWriter * HashSet DedupeSetEntry) :=
  match starts, entries with
  | start :: ((end_ :: _) as starts), entry :: entries =>
      '(wr, s) ← write_table read_region flags i start end_ entry wr s;
      write_tables read_region flags (S i) starts entries wr s
  | _, _ => Some (wr, s)
  end.

(** The members that [ForEachHeaderField] and [ForEachBitTableField] visit, without the flags. *)
Definition header_fields (ci : CodeInfo) : list Z :=
  [flags_ ci; code_size_ ci; packed_frame_size_ ci; core_spill_mask_ ci; fp_spill_mask_ ci;
   number_of_dex_registers_ ci].

Definition bit_tables (ci : CodeInfo) : list BitTableBase :=
  [stack_maps_ ci; register_masks_ ci; stack_masks_ ci; inline_infos_ ci; method_infos_ ci;
   dex_register_masks_ ci; dex_register_maps_ ci; dex_register_catalog_ ci].

Fixpoint verify_tables (m : memory) (old_flags new_flags : Z) (i : nat) (columns : list nat)
    (old_tables new_tables : list BitTableBase) : option unit :=
  match columns, old_tables, new_tables with
  | kNumColumns :: columns, old :: old_tables, new :: new_tables =>
      _ ← DCHECK (eqb (HasBitTable old_flags i) (HasBitTable new_flags i));
      _ ← DCHECK (TableEquals kNumColumns m old new);
      verify_tables m old_flags new_flags (S i) columns old_tables new_tables
  | _, _, _ => Some tt
  end.

(** The block that runs in debug builds: the copy decodes to what the source decodes to. *)
Definition verify_dedupe (m : memory) (code_info_data copy : Z) : option unit :=
  let old_code_info := (DecodeCodeInfo m code_info_data).1 in
  let new_code_info := (DecodeCodeInfo m copy).1 in
  _ ← DCHECK (bool_decide (header_fields old_code_info = header_fields new_code_info));
  verify_tables m (bit_table_flags_ old_code_info) (bit_table_flags_ new_code_info) 0 table_columns
    (bit_tables old_code_info) (bit_tables new_code_info).

(** Writes the code info again when tables were found, from where the copy of the source is. *)
Definition rewrite_info (header : list Z) (read_region : BitMemoryRegion) (start_bit_offset flags : Z)
    (starts : list Z) (entries : list (option Z)) (wr : BitMemoryWriter) (s : HashSet DedupeSetEntry) :
    option (BitMemoryWriter * HashSet DedupeSetEntry) :=
  let wr := Truncate wr start_bit_offset in
  let header := <[6%nat := flags]> header in
  let wr := WriteInterleavedVarints wr header in
  '(wr, s) ← write_tables read_region flags 0 starts entries wr s;
  Some (ByteAlign wr, s).

(** The byte offset of the copy in the output. *)
Definition Dedupe (code_info_data : Z) (d : CodeInfoTableDeduper) : option (Z * CodeInfoTableDeduper) :=
  let wr := writer_ d in
  let start_bit_offset := NumberOfWrittenBits wr in
  _ ← DCHECK (start_bit_offset mod kBitsPerByte =? 0);
  s ← reserve_tables d;
  let elements_until_expand := elements_until_expand_ s in
  let '(header, reader) := ReadInterleavedVarints kNumHeaders (w_mem wr) (MakeReaderAt code_info_data 0) in
  let flags := default 0 (header !! 6%nat) in
  _ ← DCHECK (negb (HasDedupedBitTables flags));
  '(starts, reader) ← bit_table_bit_starts (w_mem wr) flags 0 table_columns reader;
  let read_region := GetReadRegion reader in
  wr ← copy_source wr code_info_data (BitsToBytesRoundUp (size_in_bits read_region));
  '(s, flags, entries) ← insert_tables (w_mem wr) (w_data wr) start_bit_offset 0 starts s flags;
  _ ← DCHECK (elements_until_expand =? elements_until_expand_ s);
  '(wr, s) ←
    (if HasDedupedBitTables flags then
       rewrite_info header read_region start_bit_offset flags starts entries wr s
     else Some (wr, s));
  let offset := start_bit_offset / kBitsPerByte in
  _ ← verify_dedupe (w_mem wr) code_info_data (w_data wr + offset);
  Some (offset, Deduper wr s).

(** A run of the deduper over code infos, with the offsets that it returns. *)
Fixpoint DedupeAll (code_infos : list Z) (d : CodeInfoTableDeduper) :
    option (list Z * CodeInfoTableDeduper) :=
  match code_infos with
  | [] => Some ([], d)
  | code_info :: code_infos =>
      '(offset, d) ← Dedupe code_info d;
      '(offsets, d) ← DedupeAll code_infos d;
      Some (offset :: offsets, d)
  end.
