(* ===== verification/CodeInfoDeduperSteps.v ===== *)
(** The parts of [Dedupe] of CodeInfoDeduper.v: the set of tables whose entries move with the memory,
    the loop that inserts the tables of a code info, and the loop that writes them again. *)
From S2P Require Import Prelude BitUtils Memory BitMemory BitTable BitmapTable HashSet StackMap.
From S2P Require Import CodeInfoLayout CodeInfoDeduper.

(** ** The entries of the set *)

Abbreviation epos x := (u32 (bit_start x)).
Abbreviation esz x := (u32 (bit_size x)).

Lemma epos_range x : 0 <= epos x < 2 ^ 32.
Proof. apply uN_is_u. lia. Qed.

Lemma esz_range x : 0 <= esz x < 2 ^ 32.
Proof. apply uN_is_u. lia. Qed.

Lemma LoadBits_same m r m' r' off len :
  bytes_ok m -> bytes_ok m' -> wf_region r -> wf_region r' -> 0 <= off -> 0 <= len <= 64 ->
  off + len <= bit_size_ r -> bit_size_ r' = bit_size_ r ->
  (forall i, 0 <= i < bit_size_ r -> rbit m r i = rbit m' r' i) ->
  LoadBits 64 m r off len = LoadBits 64 m' r' off len.
Proof.
  intros Hm Hm' Hr Hr' Ho Hl Hs Es Hb. apply Z.bits_inj'. intros i Hi.
  rewrite !LoadBits_testbit by (done || lia || (unfold width_ok; lia)).
  destruct (Z.ltb_spec i len); [|done]. cbn [andb]. apply Hb. lia.
Qed.

Lemma foldl_same {A B} (f g : A -> B -> A) a l :
  (forall a x, x ∈ l -> f a x = g a x) -> foldl f a l = foldl g a l.
Proof.
  revert a. induction l as [|x l IH]; intros a Hf; [done|]. simpl. rewrite Hf by left.
  apply IH. intros. apply Hf. by right.
Qed.

Lemma DataHash_same m r m' r' :
  bytes_ok m -> bytes_ok m' -> wf_region r -> wf_region r' -> bit_size_ r < 2 ^ 32 ->
  bit_size_ r' = bit_size_ r -> (forall i, 0 <= i < bit_size_ r -> rbit m r i = rbit m' r' i) ->
  DataHash m r = DataHash m' r'.
Proof.
  intros Hm Hm' Hr Hr' Hs Es Hb. pose proof (wf_size r Hr). unfold DataHash, size_in_bits, kMurmur3BlockBits.
  rewrite Es. set (n := bit_size_ r) in *.
  pose proof (Z.div_mod n 32 ltac:(lia)). pose proof (Z.mod_pos_bound n 32 ltac:(lia)).
  assert (forall off len, 0 <= off -> 0 <= len <= 64 -> off + len <= n ->
    LoadBits 64 m r off len = LoadBits 64 m' r' off len) as Hl
    by (intros; by apply LoadBits_same).
  rewrite (foldl_same _ (fun hash i => Murmur3Update hash (u32 (LoadBits 64 m' r' (u32 (i * 32)) 32)))).
  2:{ intros a i Hi. apply elem_of_seqZ in Hi. rewrite (uN_small 32 (i * 32)) by (unfold is_u; lia).
      by rewrite Hl by lia. }
  rewrite (uN_small 64 (n / 32 * 32)) by (unfold is_u; lia). by rewrite Hl by lia.
Qed.

(** What the entries of a vector at [data] name. *)
Section entries.
Context (data : Z) (Hdata : 0 <= data < 2 ^ 57).
#[local] Set Default Proof Using "Hdata".

Lemma entry_region_spec x :
  wf_region (entry_region data x) /\ abs_start (entry_region data x) = 8 * data + epos x /\
  bit_size_ (entry_region data x) = esz x.
Proof. pose proof (epos_range x). pose proof (esz_range x). apply MakeRegion_spec; lia. Qed.

Lemma entry_equals m x y :
  bytes_ok m -> DedupeSetEntryEquals m data x y = true <->
    esz x = esz y /\ agree m (8 * data + epos x) m (8 * data + epos y) (esz x).
Proof.
  intros Hm. destruct (entry_region_spec x) as (Wx & Ax & Sx). destruct (entry_region_spec y) as (Wy & Ay & Sy).
  unfold DedupeSetEntryEquals. rewrite andb_true_iff, Z.eqb_eq, Equals_spec by done.
  unfold rbit, agree. rewrite Ax, Ay, Sx, Sy. tauto.
Qed.

(** An entry [x'] in memory [m'] that names the same bits as [x] in [m]. *)
Definition moved (m m' : memory) (x x' : DedupeSetEntry) : Prop :=
  esz x' = esz x /\ agree m (8 * data + epos x) m' (8 * data + epos x') (esz x).

Lemma moved_hash m m' x x' :
  bytes_ok m -> bytes_ok m' -> moved m m' x x' -> DedupeSetEntryHash m data x = DedupeSetEntryHash m' data x'.
Proof.
  intros Hm Hm' [Es Ha]. unfold DedupeSetEntryHash.
  destruct (entry_region_spec x) as (Wx & Ax & Sx). destruct (entry_region_spec x') as (Wy & Ay & Sy).
  pose proof (esz_range x). apply (f_equal u32). apply DataHash_same; try done; [by rewrite Sx; lia|].
  intros i Hi. unfold rbit. rewrite Ax, Ay. apply Ha. lia.
Qed.

Lemma moved_equals m m' x x' y y' :
  bytes_ok m -> bytes_ok m' -> moved m m' x x' -> moved m m' y y' ->
  DedupeSetEntryEquals m' data x' y' = DedupeSetEntryEquals m data x y.
Proof.
  intros Hm Hm' [Ex Hx] [Ey Hy]. apply eq_true_iff_eq. rewrite !entry_equals by done. rewrite Ex, Ey.
  split; intros [Es Ha]; (split; [done|]); rewrite Es in *.
  - eapply agree_trans; [exact Hx|]. eapply agree_trans; [exact Ha|]. by apply agree_sym.
  - eapply agree_trans; [apply agree_sym, Hx|]. by eapply agree_trans.
Qed.

Lemma set_laws m : bytes_ok m -> @HashSetLaws DedupeSetEntry (DedupeSet m data).
Proof.
  intros Hm. constructor; cbn [DedupeSet MakeEmpty IsEmpty hashfn pred].
  - done.
  - intros x. apply uN_is_u. lia.
  - intros x. apply entry_equals; [done|]. split; [done|apply agree_refl].
  - intros x y. rewrite !entry_equals by done. intros [E Ha]. rewrite <- E. split; [done|by apply agree_sym].
  - intros x y z. rewrite !entry_equals by done. intros [E1 H1] [E2 H2]. split; [congruence|].
    eapply agree_trans; [done|]. by rewrite E1.
  - intros x y. rewrite entry_equals by done. intros [E Ha]. by apply moved_hash.
Qed.

(** The set stays well-formed when its entries follow their tables to other places. *)
Lemma set_moved m m' s s' :
  bytes_ok m -> bytes_ok m' -> @inv _ (DedupeSet m data) s ->
  Forall2 (moved m m') (HashSet.data_ s) (HashSet.data_ s') ->
  num_elements_ s' = num_elements_ s -> elements_until_expand_ s' = elements_until_expand_ s ->
  @inv _ (DedupeSet m' data) s'.
Proof.
  intros Hm Hm' Hi Hf En Eu. pose proof (set_laws m Hm). pose proof (set_laws m' Hm').
  apply (inv_relabel (DedupeSet m data) (DedupeSet m' data) s); try done.
  - eapply Forall2_impl; [done|]. intros x x' Hx. pose proof Hx as [E _].
    split; cbn [DedupeSet IsEmpty hashfn]; [by rewrite E|]. intros _. symmetry. by apply moved_hash.
  - intros i j x y x' y' Hx Hy Hx' Hy' _ _. cbn [DedupeSet pred].
    apply moved_equals; try done; by eapply Forall2_lookup_lr.
Qed.
End entries.

(** ** Flags *)

Lemma HasBitTable_bit flags i : HasBitTable flags i = Z.testbit flags (Z.of_nat i).
Proof. unfold HasBitTable. apply testbit_land1. lia. Qed.

Lemma IsBitTableDeduped_bit flags i : IsBitTableDeduped flags i = Z.testbit flags (8 + Z.of_nat i).
Proof.
  unfold IsBitTableDeduped, kNumBitTables. rewrite Nat2Z.inj_add. apply testbit_land1. lia.
Qed.

Lemma SetBitTableDeduped_spec flags i :
  is_u 16 flags -> (i < 8)%nat ->
  is_u 16 (SetBitTableDeduped flags i) /\
  (forall j, (j < 8)%nat -> HasBitTable (SetBitTableDeduped flags i) j = HasBitTable flags j) /\
  (forall j, IsBitTableDeduped (SetBitTableDeduped flags i) j = (i =? j)%nat || IsBitTableDeduped flags j).
Proof.
  intros Hf Hi. assert (SetBitTableDeduped flags i = Z.lor flags (2 ^ (8 + Z.of_nat i))) as ->.
  { unfold SetBitTableDeduped, kNumBitTables. rewrite Nat2Z.inj_add, Z.shiftl_1_l. apply uN_small.
    apply is_u_bits; [lia|apply Z.lor_nonneg; split; [apply Hf|apply Z.pow_nonneg; lia]|].
    intros j Hj. rewrite Z.lor_spec, Z.pow2_bits_false by lia. by rewrite (testbit_high 16 flags) by (done || lia). }
  split_and!.
  - apply is_u_bits; [lia|apply Z.lor_nonneg; split; [apply Hf|apply Z.pow_nonneg; lia]|].
    intros j Hj. rewrite Z.lor_spec, Z.pow2_bits_false by lia. by rewrite (testbit_high 16 flags) by (done || lia).
  - intros j Hj. rewrite !HasBitTable_bit, Z.lor_spec, Z.pow2_bits_false by lia. apply orb_false_r.
  - intros j. rewrite !IsBitTableDeduped_bit, Z.lor_spec, orb_comm. f_equal.
    rewrite Z.pow2_bits_eqb by lia. destruct (Nat.eqb_spec i j); lia.
Qed.

Lemma HasDedupedBitTables_false flags j :
  HasDedupedBitTables flags = false -> IsBitTableDeduped flags j = false.
Proof.
  unfold HasDedupedBitTables. intros Hf%negb_false_iff%Z.eqb_eq. rewrite IsBitTableDeduped_bit.
  rewrite Z.add_comm. rewrite <- Z.shiftr_spec by lia. change 8 with (Z.of_nat kNumBitTables). rewrite Hf.
  apply Z.testbit_0_l.
Qed.

(** ** Inserting the tables *)

(** The bit offsets of the tables of a code info of [n] bits. *)
Fixpoint ascending (n : Z) (starts : list Z) : Prop :=
  match starts with
  | [] => True
  | a :: starts => 0 <= a <= n /\ match starts with b :: _ => a <= b | [] => True end /\ ascending n starts
  end.

Section insertion.
Context (m : memory) (data S0 n : Z).
Context (Hm : bytes_ok m) (Hdata : 0 <= data < 2 ^ 57) (HS : 0 <= S0) (Hn : S0 + n < 2 ^ 32).
#[local] Set Default Proof Using "All".
#[local] Instance set_traits : HashSetTraits DedupeSetEntry := DedupeSet m data.

Definition table_entry (a b : Z) : DedupeSetEntry := DedupeEntry (u32 (S0 + a)) (u32 (b - a)).
Definition large (flags : Z) (i : nat) (a b : Z) : bool := HasBitTable flags i && (kMinDedupSize <=? b - a).

(** What [dedupe_entries] point to: an equal table that ends before this one, or this table. *)
Definition found_entry (d : list DedupeSetEntry) (flags : Z) (i : nat) (a b : Z) (entry : option Z) : Prop :=
  if large flags i a b then
    exists slot x, entry = Some slot /\ in_range d slot /\ ElementForIndex d slot = Some x /\
      IsEmpty x = false /\ pred x (table_entry a b) = true /\
      if IsBitTableDeduped flags i then epos x + esz x <= S0 + a else x = table_entry a b
  else entry = None /\ IsBitTableDeduped flags i = false.

Fixpoint found (d : list DedupeSetEntry) (flags : Z) (i : nat) (starts : list Z) (entries : list (option Z)) : Prop :=
  match starts, entries with
  | a :: ((b :: _) as starts), entry :: entries =>
      found_entry d flags i a b entry /\ found d flags (S i) starts entries
  | [_], [] => True
  | _, _ => False
  end.

(** The entries that are new. *)
Fixpoint fresh (slot : Z) (x : DedupeSetEntry) (flags : Z) (i : nat) (starts : list Z) (entries : list (option Z)) : Prop :=
  match starts, entries with
  | a :: ((b :: _) as starts), entry :: entries =>
      (entry = Some slot /\ large flags i a b = true /\ IsBitTableDeduped flags i = false /\ x = table_entry a b) \/
      fresh slot x flags (S i) starts entries
  | _, _ => False
  end.

Definition has (d : list DedupeSetEntry) (slot : Z) (x : DedupeSetEntry) : Prop :=
  in_range d slot /\ ElementForIndex d slot = Some x /\ IsEmpty x = false.

Definition below (d : list DedupeSetEntry) (limit : Z) : Prop :=
  forall slot x, has d slot x -> epos x + esz x <= limit.

Lemma found_entry_mono d d' flags i a b entry :
  (forall slot x, has d slot x -> has d' slot x) -> found_entry d flags i a b entry -> found_entry d' flags i a b entry.
Proof using Type.
  intros Hd. unfold found_entry. destruct (large flags i a b); [|done].
  intros (slot & x & -> & Hr & Hx & He & Hp & Ht). destruct (Hd slot x) as (Hr' & Hx' & _); [done|].
  exists slot, x. done.
Qed.

Lemma found_entry_flags d flags flags' i a b entry :
  HasBitTable flags' i = HasBitTable flags i -> IsBitTableDeduped flags' i = IsBitTableDeduped flags i ->
  found_entry d flags i a b entry -> found_entry d flags' i a b entry.
Proof using Type. unfold found_entry, large. by intros -> ->. Qed.

Lemma table_entry_range a b :
  0 <= a <= b -> b <= n -> epos (table_entry a b) = S0 + a /\ esz (table_entry a b) = b - a.
Proof using HS Hn. intros Ha Hb. unfold table_entry. cbn [bit_start bit_size]. rewrite !(uN_small 32); unfold is_u; try lia.
  all: rewrite ?(uN_small 32); unfold is_u; lia. Qed.

(** What one step keeps. *)
Record step_ok (i : nat) (a b : Z) (s s' : HashSet DedupeSetEntry) (flags flags' : Z) (entry : option Z) : Prop := {
  st_inv : inv s';
  st_num : num_elements_ s <= num_elements_ s' <= num_elements_ s + 1;
  st_until : elements_until_expand_ s' = elements_until_expand_ s;
  st_length : length (HashSet.data_ s') = length (HashSet.data_ s);
  st_below : below (HashSet.data_ s') (S0 + b);
  st_keeps slot x : has (HashSet.data_ s) slot x -> has (HashSet.data_ s') slot x;
  st_new slot x : has (HashSet.data_ s') slot x -> has (HashSet.data_ s) slot x \/
    (entry = Some slot /\ large flags' i a b = true /\ IsBitTableDeduped flags' i = false /\ x = table_entry a b);
  st_found : found_entry (HashSet.data_ s') flags' i a b entry;
  st_flags : is_u 16 flags';
  st_tables j : (j < 8)%nat -> HasBitTable flags' j = HasBitTable flags j;
  st_deduped j : j <> i -> IsBitTableDeduped flags' j = IsBitTableDeduped flags j }.

Lemma step_inserted i a b s flags slot y :
  let s' := Hash (<[Z.to_nat slot := table_entry a b]> (HashSet.data_ s)) (num_elements_ s + 1) (elements_until_expand_ s) in
  0 <= a <= b -> b <= n -> below (HashSet.data_ s) (S0 + a) -> is_u 16 flags ->
  IsBitTableDeduped flags i = false -> large flags i a b = true ->
  in_range (HashSet.data_ s) slot -> ElementForIndex (HashSet.data_ s) slot = Some y -> IsEmpty y = true ->
  inv s' -> step_ok i a b s s' flags flags (Some slot).
Proof.
  intros s' Ha Hb Hbelow Hf Hd Hl Hr Hy He Hi. destruct (table_entry_range a b Ha Hb) as [Ep Es].
  pose proof (set_laws data Hdata m Hm) as Hlaws.
  assert (IsEmpty (table_entry a b) = false) as Hne.
  { unfold large, kMinDedupSize in Hl. apply andb_true_iff in Hl as [_ Hl]. cbn [IsEmpty set_traits DedupeSet]. lia. }
  assert (forall p x, has (HashSet.data_ s') p x <-> (p = slot /\ x = table_entry a b) \/ (p <> slot /\ has (HashSet.data_ s) p x)) as Hhas.
  { intros p x. unfold has, s'. cbn [HashSet.data_]. unfold in_range at 1. rewrite NumBuckets_insert. split.
    - intros (Hp & Hx & Hxe). rewrite lookup_insert_slot in Hx by done.
      destruct (Z.eqb_spec p slot); [left|right].
      + split; [done|]. congruence.
      + done.
    - intros [[-> ->]|(Hp & Hpr & Hx & Hxe)].
      + rewrite lookup_insert_slot, Z.eqb_refl by done. done.
      + rewrite lookup_insert_slot by done. by destruct (Z.eqb_spec p slot). }
  constructor; try done.
  - simpl. lia.
  - simpl. by rewrite length_insert.
  - intros p x [[-> ->]|[_ Hx]]%Hhas; [lia|]. specialize (Hbelow p x Hx). lia.
  - intros p x Hx. apply Hhas. right. split; [|done]. intros ->. destruct Hx as (_ & Hx & Hxe). congruence.
  - intros p x [[-> ->]|[_ Hx]]%Hhas; [by right|by left].
  - unfold found_entry. rewrite Hl, Hd. destruct (proj2 (Hhas slot (table_entry a b))) as (H1 & H2 & H3); [by left|].
    exists slot, (table_entry a b). split_and!; try done. apply pred_refl.
Qed.

Lemma step_present i a b s flags slot y :
  0 <= a <= b -> b <= n -> below (HashSet.data_ s) (S0 + a) -> is_u 16 flags -> (i < 8)%nat ->
  large flags i a b = true ->
  has (HashSet.data_ s) slot y -> pred y (table_entry a b) = true -> inv s ->
  step_ok i a b s s flags (SetBitTableDeduped flags i) (Some slot).
Proof.
  intros Ha Hb Hbelow Hf Hi Hl Hy Hp Hinv. destruct (SetBitTableDeduped_spec flags i Hf Hi) as (Hf' & Ht & Hd).
  constructor; try done.
  - lia.
  - intros p x Hx. specialize (Hbelow p x Hx). lia.
  - by left.
  - unfold found_entry. replace (large (SetBitTableDeduped flags i) i a b) with (large flags i a b)
      by (unfold large; by rewrite Ht). rewrite Hl, Hd, Nat.eqb_refl. cbn [orb].
    specialize (Hbelow slot y Hy). destruct Hy as (? & ? & ?). by exists slot, y.
  - intros j Hj. rewrite Hd. by destruct (Nat.eqb_spec i j).
Qed.

Lemma insert_table_spec i a b s flags :
  inv s -> num_elements_ s < elements_until_expand_ s -> 0 <= a <= b -> b <= n ->
  below (HashSet.data_ s) (S0 + a) -> is_u 16 flags -> (i < 8)%nat -> IsBitTableDeduped flags i = false ->
  exists s' flags' entry, insert_table m data S0 i a b s flags = Some (s', flags', entry) /\
    step_ok i a b s s' flags flags' entry.
Proof.
  intros Hi Hlt Ha Hb Hbelow Hf Hi8 Hd. pose proof (set_laws data Hdata m Hm) as Hlaws.
  unfold insert_table. cbv zeta. fold (table_entry a b). rewrite (uN_small 32 (b - a)) by (unfold is_u; lia).
  fold (large flags i a b). destruct (large flags i a b) eqn:Hl.
  - assert (IsEmpty (table_entry a b) = false) as Hne.
    { destruct (table_entry_range a b Ha Hb) as [_ Es]. pose proof Hl as Hl'. unfold large, kMinDedupSize in Hl'.
      apply andb_true_iff in Hl' as [_ Hl']. cbn [IsEmpty set_traits DedupeSet]. lia. }
    destruct (insert_slot mul_max_load div_min_load s (table_entry a b) Hi Hne Hlt)
      as (slot & ins & y & E & Hr & Hy & Hres).
    change (@insert _ (DedupeSet m data)) with (@insert _ set_traits). rewrite E.
    cbn [mbind option_bind]. eexists _, _, _. split; [done|]. destruct ins.
    + destruct Hres as [He Hi']. by apply step_inserted with y.
    + destruct Hres as [He Hp]. by apply step_present with y.
  - eexists s, flags, None. split; [done|]. constructor; try done; [lia| |by left|].
    + intros p x Hx. specialize (Hbelow p x Hx). lia.
    + unfold found_entry. by rewrite Hl.
Qed.

Lemma found_mono d d' flags i starts entries :
  (forall slot x, has d slot x -> has d' slot x) -> found d flags i starts entries -> found d' flags i starts entries.
Proof using Type.
  intros Hd. revert i entries. induction starts as [|a [|b starts] IH]; intros i entries; [done|by destruct entries|].
  destruct entries as [|entry entries]; [done|]. intros [H1 H2].
  split; [by eapply found_entry_mono|by apply IH].
Qed.

(** The whole loop. *)
Record loop_ok (i : nat) (starts : list Z) (s s' : HashSet DedupeSetEntry) (flags flags' : Z)
    (entries : list (option Z)) : Prop := {
  lo_inv : inv s';
  lo_num : num_elements_ s <= num_elements_ s' <= num_elements_ s + (Z.of_nat (length starts) - 1);
  lo_until : elements_until_expand_ s' = elements_until_expand_ s;
  lo_length : length (HashSet.data_ s') = length (HashSet.data_ s);
  lo_below : below (HashSet.data_ s') (S0 + n);
  lo_keeps slot x : has (HashSet.data_ s) slot x -> has (HashSet.data_ s') slot x;
  lo_new slot x : has (HashSet.data_ s') slot x ->
    has (HashSet.data_ s) slot x \/ fresh slot x flags' i starts entries;
  lo_found : found (HashSet.data_ s') flags' i starts entries;
  lo_flags : is_u 16 flags';
  lo_tables j : (j < 8)%nat -> HasBitTable flags' j = HasBitTable flags j;
  lo_deduped j : (j < i)%nat -> IsBitTableDeduped flags' j = IsBitTableDeduped flags j }.

Lemma insert_tables_spec starts i s flags :
  inv s -> num_elements_ s + (Z.of_nat (length starts) - 1) <= elements_until_expand_ s ->
  ascending n starts -> starts <> [] -> below (HashSet.data_ s) (S0 + default 0 (head starts)) ->
  is_u 16 flags -> (i + length starts = 9)%nat ->
  (forall j, (i <= j)%nat -> IsBitTableDeduped flags j = false) ->
  exists s' flags' entries, insert_tables m data S0 i starts s flags = Some (s', flags', entries) /\
    loop_ok i starts s s' flags flags' entries.
Proof.
  revert i s flags. induction starts as [|a [|b starts] IH]; intros i s flags Hi Hnum Hasc Hne Hbelow Hf Hlen Hd; [done| |].
  { exists s, flags, []. split; [done|]. constructor; try done; [simpl; lia| |by left].
    intros p x Hx. specialize (Hbelow p x Hx). destruct Hasc as [? _]. simpl in Hbelow. lia. }
  destruct Hasc as (Ha & Hab & Hasc). cbn [length] in *.
  destruct (insert_table_spec i a b s flags) as (s1 & f1 & entry & E1 & H1); try done; try lia.
  { destruct Hasc as [? _]. lia. }
  { by apply Hd. }
  destruct (IH (S i) s1 f1) as (s2 & f2 & entries & E2 & H2); try (done || lia || apply H1).
  { rewrite (st_until _ _ _ _ _ _ _ _ H1). pose proof (st_num _ _ _ _ _ _ _ _ H1). lia. }
  { intros j Hj. rewrite (st_deduped _ _ _ _ _ _ _ _ H1) by lia. apply Hd. lia. }
  exists s2, f2, (entry :: entries).
  change (insert_tables m data S0 i (a :: b :: starts) s flags) with
    ('(s, flags, entry) ← insert_table m data S0 i a b s flags;
     '(s, flags, entries) ← insert_tables m data S0 (S i) (b :: starts) s flags;
     Some (s, flags, entry :: entries)).
  rewrite E1. cbn [mbind option_bind]. rewrite E2. cbn [mbind option_bind]. split; [done|].
  assert (HasBitTable f2 i = HasBitTable f1 i) as Et by (eapply lo_tables; [exact H2|lia]).
  assert (IsBitTableDeduped f2 i = IsBitTableDeduped f1 i) as Ed by (eapply lo_deduped; [exact H2|lia]).
  destruct H1 as [A1 A2 A3 A4 A5 A6 A7 A8 A9 A10 A11]. destruct H2 as [B1 B2 B3 B4 B5 B6 B7 B8 B9 B10 B11].
  cbn [length] in B2 |- *.
  constructor; try done; try (cbn [length]; lia); [by intros; apply B6, A6|..].
  - intros p x [Hx|Hx]%B7; [|right; by right]. destruct (A7 p x Hx) as [?|(-> & Hl & Hde & ->)]; [by left|].
    right. left. split_and!; try done; [|by rewrite Ed]. unfold large in *. by rewrite Et.
  - split; [|done]. apply (found_entry_flags _ f1); [done..|]. by eapply found_entry_mono.
  - intros j Hj. rewrite B10, A10; done.
  - intros j Hj. rewrite B11, A11; (done || lia).
Qed.
End insertion.

(** ** The offsets of the tables *)

Fixpoint positions (columns : list nat) (l : list (option (Z * Shape))) (a : Z) : list Z :=
  match columns, l with
  | K :: columns, o :: l =>
      a :: positions columns l (match o with Some (_, sh) => a + sh_size K sh | None => a end)
  | _, _ => [a]
  end.

Definition undeduped (flags : Z) : Prop := forall j, IsBitTableDeduped flags j = false.

Lemma positions_head columns l a : exists rest, positions columns l a = a :: rest.
Proof. destruct columns, l; by eexists. Qed.

Lemma positions_length m L flags i columns p l e a :
  layout m L flags i columns p l e -> length (positions columns l a) = S (length columns).
Proof. intros Hl. revert a. induction Hl; intros a; simpl; by f_equal. Qed.

Lemma positions_ascending m L flags i columns p l e a :
  undeduped flags -> layout m L flags i columns p l e -> 0 <= a -> ascending (a + (e - p)) (positions columns l a).
Proof.
  intros Hu Hl. revert a. induction Hl as [i p|i K columns p l e Hf Hl IH|i K columns p sh l e Hf Hd Hs Hl IH
    |i K columns p d c sh l e Hf Hdd Hd Hy Hs HL Hle Hl IH]; intros a Ha; cbn [positions].
  - simpl. lia.
  - pose proof (layout_le _ _ _ _ _ _ _ _ Hl). specialize (IH a Ha).
    destruct (positions_head columns l a) as [rest E]. rewrite E in *. split; [lia|]. split; [lia|done].
  - pose proof (layout_le _ _ _ _ _ _ _ _ Hl). pose proof (shape_size _ _ _ _ Hs).
    specialize (IH (a + sh_size K sh) ltac:(lia)).
    replace (a + sh_size K sh + (e - (p + sh_size K sh))) with (a + (e - p)) in IH by lia.
    destruct (positions_head columns l (a + sh_size K sh)) as [rest E]. rewrite E in *. split; [lia|]. split; [lia|done].
  - by rewrite Hu in Hdd.
Qed.

Lemma bit_table_bit_starts_spec m L flags i columns p l e rd :
  bytes_ok m -> undeduped flags -> layout m L flags i columns p l e -> r_pos rd = p ->
  wf_reader rd (table_room * Z.of_nat (length columns)) ->
  NumberOfReadBits rd + (e - p) < 2 ^ 32 ->
  bit_table_bit_starts m flags i columns rd = Some (positions columns l (NumberOfReadBits rd), advance rd (e - p)).
Proof.
  intros Hm Hu Hl. revert rd. induction Hl as [i p|i K columns p l e Hf Hl IH|i K columns p sh l e Hf Hd Hs Hl IH
    |i K columns p d c sh l e Hf Hdd Hd Hy Hs HL Hle Hl IH]; intros rd Hr Hw Hb; cbn [bit_table_bit_starts positions];
    assert (0 <= NumberOfReadBits rd) by apply Hw.
  - unfold dchecked_u32. rewrite (uN_small 32), Z.eqb_refl by (unfold is_u; lia). cbn [DCHECK mbind option_bind].
    by rewrite Z.sub_diag, advance_0.
  - pose proof (layout_le _ _ _ _ _ _ _ _ Hl).
    unfold dchecked_u32. rewrite (uN_small 32), Z.eqb_refl by (unfold is_u; lia). cbn [DCHECK mbind option_bind].
    rewrite (Hu i), Hf. cbn [negb DCHECK mbind option_bind length] in *. rewrite IH; try (done || lia).
    eapply wf_reader_le; [done|unfold table_room; lia].
  - pose proof (layout_le _ _ _ _ _ _ _ _ Hl). pose proof (shape_size _ _ _ _ Hs). cbn [length] in *.
    unfold dchecked_u32. rewrite (uN_small 32), Z.eqb_refl by (unfold is_u; lia). cbn [DCHECK mbind option_bind].
    rewrite (Hu i), Hf. cbn [negb DCHECK mbind option_bind]. subst p.
    rewrite (Decode_shape K m rd sh) by (done || (eapply wf_reader_le; [done|unfold table_room; lia])). cbn [snd].
    assert (NumberOfReadBits (advance rd (sh_size K sh)) = NumberOfReadBits rd + sh_size K sh) as En by done.
    rewrite IH; [|by rewrite r_pos_advance| |lia].
    + cbn [mbind option_bind]. rewrite En, advance_advance. do 2 f_equal. f_equal. lia.
    + apply wf_advance; [|lia]. eapply wf_reader_le; [done|lia].
  - by rewrite Hu in Hdd.
Qed.

(** The same table at two places. *)
Definition copied (m m' : memory) (K : nat) (o o' : option (Z * Shape)) : Prop :=
  match o, o' with
  | None, None => True
  | Some (q, sh), Some (q', sh') => sh' = sh /\ agree m q m' q' (sh_size K sh)
  | _, _ => False
  end.

(** A code info that refers to no other one can be moved. *)
Lemma layout_move m m' L L' flags i columns p p' l e :
  undeduped flags -> layout m L flags i columns p l e -> agree m p m' p' (e - p) ->
  exists lo, layout m' L' flags i columns p' lo (p' + (e - p)) /\ Forall3 (copied m m') columns l lo.
Proof.
  intros Hu Hl. revert p'. induction Hl as [i p|i K columns p l e Hf Hl IH|i K columns p sh l e Hf Hd Hs Hl IH
    |i K columns p d c sh l e Hf Hdd]; intros p' Ha.
  - exists []. rewrite Z.sub_diag, Z.add_0_r. split; constructor.
  - destruct (IH p' Ha) as (lo & Hlo & Hc). exists (None :: lo). by split; constructor.
  - pose proof (layout_le _ _ _ _ _ _ _ _ Hl). pose proof (shape_size _ _ _ _ Hs).
    destruct (IH (p' + sh_size K sh)) as (lo & Hlo & Hc); [apply (agree_sub _ _ _ _ _ _ _ Ha); lia|].
    replace (p' + sh_size K sh + (e - (p + sh_size K sh))) with (p' + (e - p)) in Hlo by lia.
    assert (agree m p m' p' (sh_size K sh)) as Hsh by (eapply agree_le; [done|lia]).
    exists (Some (p', sh) :: lo). split; constructor; try done. by eapply shape_agree.
  - by rewrite Hu in Hdd.
Qed.

Lemma copied_source m0 m m' L flags i columns p l e lo :
  undeduped flags -> layout m L flags i columns p l e -> agree m0 p m p (e - p) ->
  Forall3 (copied m m') columns l lo -> Forall3 (copied m0 m') columns l lo.
Proof.
  intros Hu Hl. revert lo. induction Hl as [i p|i K columns p l e Hf Hl IH|i K columns p sh l e Hf Hd Hs Hl IH
    |i K columns p d c sh l e Hf Hdd]; intros lo Ha Hc.
  - inversion Hc. constructor.
  - inversion Hc; subst. constructor; [done|by apply IH].
  - pose proof (layout_le _ _ _ _ _ _ _ _ Hl). pose proof (shape_size _ _ _ _ Hs).
    inversion Hc as [|? ? o' ? ? lo' Hco Hc']; subst. constructor.
    + destruct o' as [[q' sh']|]; [|done]. destruct Hco as [-> Hag]. split; [done|].
      eapply agree_trans; [|exact Hag]. eapply agree_le; [exact Ha|lia].
    + apply IH; [|done]. apply (agree_sub _ _ _ _ _ _ _ Ha); lia.
  - by rewrite Hu in Hdd.
Qed.

(** ** Writing the tables *)

Section writing.
(** After the copy of the source to offset [S0] the memory is [m1] and the slots are [d1]. *)
Context (m1 : memory) (data S0 n p0 : Z) (region : BitMemoryRegion) (d1 : list DedupeSetEntry).
Context (Hm1 : bytes_ok m1) (Hdata : 0 <= data < 2 ^ 57) (HS : 0 <= S0) (Hn : S0 + n + 512 < 2 ^ 32).
Context (Hout : p0 + n <= 8 * data \/ 8 * data + 2 ^ 32 <= p0).
Context (Hcopy : agree m1 p0 m1 (8 * data + S0) n).
Context (Hreg : wf_region region) (Hreg0 : abs_start region = p0) (Hregn : bit_size_ region = n).
#[local] Set Default Proof Using "Type".
#[local] Existing Instance set_traits.
Abbreviation base := (8 * data).

(** The writer behind the old output, which has not touched the source. *)
Record write_ok (wr : BitMemoryWriter) : Prop := {
  wo_wf : wf_writer wr;
  wo_data : w_data wr = data;
  wo_start : w_bit_start wr = 0;
  wo_offset : S0 <= w_bit_offset wr;
  wo_source : agree m1 p0 (w_mem wr) p0 n }.

(** An entry of the set: not written yet, or at its new place. *)
Definition tracked (m : memory) (off lim : Z) (x x' : DedupeSetEntry) : Prop :=
  esz x' = esz x /\
  (esz x <> 0 -> if lim <=? epos x then x' = x
   else epos x' + esz x <= off /\ agree m1 (base + epos x) m (base + epos x') (esz x)).

Definition tracks (m : memory) (off lim : Z) (d : list DedupeSetEntry) : Prop := Forall2 (tracked m off lim) d1 d.

Lemma write_ok_appended wr wr' c :
  write_ok wr -> appended wr wr' c -> 0 <= c -> w_bit_offset wr + c + 8 < 2 ^ 32 -> write_ok wr'.
Proof using Hout HS.
  intros [Hw Hd Hs Ho Hsrc] [Hw' Hd' Hs' Ho' Hf] Hc Hb. split; [done|congruence|congruence|lia|].
  intros j Hj. rewrite Hsrc by done. symmetry. apply Hf. unfold w_pos. rewrite (ww_size _ Hw'), Ho', Hd', Hd.
  destruct Hout; [left; lia|right]. pose proof (Z.div_mod (w_bit_offset wr + c + 7) 8 ltac:(lia)).
  pose proof (Z.mod_pos_bound (w_bit_offset wr + c + 7) 8 ltac:(lia)). lia.
Qed.

Lemma tracks_appended wr wr' c lim d :
  write_ok wr -> appended wr wr' c -> 0 <= c ->
  tracks (w_mem wr) (w_bit_offset wr) lim d -> tracks (w_mem wr') (w_bit_offset wr') lim d.
Proof.
  intros Hwo Ha Hc Ht. eapply Forall2_impl; [exact Ht|]. intros x x' [Es Hx]. split; [done|]. intros Hz.
  specialize (Hx Hz). destruct (lim <=? epos x); [done|]. destruct Hx as [Hle Hx].
  rewrite (ap_offset _ _ _ Ha). split; [lia|]. intros j Hj. rewrite Hx by done. symmetry. apply Ha. left.
  unfold w_pos. rewrite (wo_data _ Hwo). lia.
Qed.

(** No entry that is not written yet begins between [a] and [b]. *)
Lemma tracks_skip m off a b d :
  (forall p x, has m1 data d1 p x -> ~ (a <= epos x < b)) -> a <= b -> tracks m off a d -> tracks m off b d.
Proof.
  intros Hno Hab Ht. apply Forall2_same_length_lookup in Ht as [Hl Ht]. apply Forall2_same_length_lookup.
  split; [done|]. intros p x x' Hx Hx'. destruct (Ht p x x' Hx Hx') as [Es Hv]. split; [done|]. intros Hz.
  specialize (Hv Hz). destruct (Z.leb_spec a (epos x)), (Z.leb_spec b (epos x)); try (done || lia).
  destruct (Hno (Z.of_nat p) x); [|lia]. unfold has, ElementForIndex, in_range, NumBuckets.
  rewrite Nat2Z.id. pose proof (lookup_lt_Some _ _ _ Hx). split_and!; [lia|lia|done|].
  cbn [IsEmpty set_traits DedupeSet]. lia.
Qed.

Lemma tracks_lookup m off lim d slot x :
  tracks m off lim d -> has m1 data d1 slot x ->
  exists x', ElementForIndex d slot = Some x' /\ tracked m off lim x x' /\ esz x <> 0.
Proof.
  intros Ht (Hr & Hx & He). unfold ElementForIndex in *.
  destruct (Forall2_lookup_l _ _ _ _ _ Ht Hx) as (x' & Hx' & Hv). exists x'. split_and!; try done.
  cbn [IsEmpty set_traits DedupeSet] in He. lia.
Qed.

Lemma written_bits wr : write_ok wr -> w_bit_offset wr < 2 ^ 32 -> NumberOfWrittenBits wr = w_bit_offset wr.
Proof using HS. intros [] Hb. unfold NumberOfWrittenBits. rewrite wo_start0. rewrite uN_small; unfold is_u; lia. Qed.

Lemma u32_distance c x : 0 <= epos x <= c -> c < 2 ^ 32 -> u32 (c - bit_start x) = c - epos x.
Proof.
  intros Hx Hc. rewrite <- (uN_small 32 (c - epos x)) by (unfold is_u; lia). unfold uN.
  by rewrite Zminus_mod_idemp_r.
Qed.

(** Slots that no write from table [a] on changes. *)
Definition keeps (a : Z) (d d' : list DedupeSetEntry) : Prop :=
  forall p x, has m1 data d1 p x -> epos x < S0 + a -> ElementForIndex d' p = ElementForIndex d p.

(** An entry for the [size] bits at position [q]. *)
Definition registered (d : list DedupeSetEntry) (lim q size : Z) : Prop :=
  exists slot x x', has m1 data d1 slot x /\ epos x < lim /\ ElementForIndex d slot = Some x' /\
    esz x' = size /\ base + epos x' = q.

(** What the write of one table leaves: nothing, the table, or the distance to an equal one. *)
Definition written (flags : Z) (i : nat) (a b : Z) (wr wr' : BitMemoryWriter) (d' : list DedupeSetEntry) (c : Z) : Prop :=
  if HasBitTable flags i then
    if IsBitTableDeduped flags i then
      exists d, is_u 32 d /\ c = items_bits (varint_items [d]) /\
        items_match (w_mem wr') (w_pos wr) (varint_items [d]) /\ base <= w_pos wr - d /\
        w_pos wr - d + (b - a) <= w_pos wr /\
        agree m1 (base + S0 + a) (w_mem wr') (w_pos wr - d) (b - a) /\
        registered d' (S0 + b) (w_pos wr - d) (b - a)
    else c = b - a /\ agree m1 (base + S0 + a) (w_mem wr') (w_pos wr) (b - a) /\
      (kMinDedupSize <= b - a -> registered d' (S0 + b) (w_pos wr) (b - a))
  else c = 0.

Lemma WriteVarint_spec wr v :
  wf_writer wr -> is_u 32 v -> w_pos wr + 36 < 2 ^ 62 ->
  appended wr (WriteVarint wr v) (items_bits (varint_items [v])) /\
  items_match (w_mem (WriteVarint wr v)) (w_pos wr) (varint_items [v]) /\
  0 <= items_bits (varint_items [v]) <= 36.
Proof.
  intros Hw Hv Hb. assert (Forall (is_u 32) [v]) as Hvs by by constructor.
  pose proof (varint_items_bound [v] Hvs) as Hle. pose proof (items_bits_nonneg _ (varint_items_ok _ Hvs)).
  simpl length in Hle. unfold WriteVarint. rewrite WriteInterleavedVarints_items by done.
  destruct (write_items_spec wr (varint_items [v]) Hw (varint_items_ok _ Hvs)); [lia|]. split_and!; (done || lia).
Qed.

(** The entries that begin at this table or behind it. *)
Definition only_new (flags : Z) (i : nat) (a b : Z) (entry : option Z) : Prop :=
  forall p x, has m1 data d1 p x -> S0 + a <= epos x < S0 + b ->
  entry = Some p /\ large flags i a b = true /\ IsBitTableDeduped flags i = false /\ x = table_entry S0 a b.

(** A write and the set after it. *)
Definition table_written (flags : Z) (i : nat) (a b : Z) (entry : option Z) (wr : BitMemoryWriter)
    (s : HashSet DedupeSetEntry) : Prop :=
  exists wr' s' c, write_table region flags i a b entry wr s = Some (wr', s') /\ appended wr wr' c /\
    0 <= c <= b - a + 3 /\ written flags i a b wr wr' (HashSet.data_ s') c /\
    keeps a (HashSet.data_ s) (HashSet.data_ s') /\
    tracks (w_mem wr') (w_bit_offset wr') (S0 + b) (HashSet.data_ s') /\
    num_elements_ s' = num_elements_ s /\ elements_until_expand_ s' = elements_until_expand_ s.

Lemma write_deduped flags i a b entry wr s :
  write_ok wr -> 0 <= a <= b -> b <= n -> w_bit_offset wr + 36 < 2 ^ 32 ->
  tracks (w_mem wr) (w_bit_offset wr) (S0 + a) (HashSet.data_ s) ->
  found_entry m1 data S0 d1 flags i a b entry -> only_new flags i a b entry ->
  HasBitTable flags i = true -> IsBitTableDeduped flags i = true -> table_written flags i a b entry wr s.
Proof using Hm1 Hdata HS Hn.
  intros Hwo Ha Hb Hoff Ht Hfe Hon Hf Hd. unfold found_entry in Hfe. destruct (large flags i a b) eqn:Hl.
  2:{ destruct Hfe as [_ Hc]. congruence. }
  destruct Hfe as (slot & x & -> & Hr & Hx & He & Hp & Hle). rewrite Hd in Hle.
  destruct (tracks_lookup _ _ _ _ slot x Ht) as (x' & Hx' & [Es Htr] & Hz); [done|]. specialize (Htr Hz).
  pose proof (esz_range x). replace (S0 + a <=? epos x) with false in Htr by lia. destruct Htr as [Hle' Hag].
  apply (entry_equals data Hdata m1 _ _ Hm1) in Hp as [Esz Hag2].
  destruct (table_entry_range S0 n HS ltac:(lia) a b Ha Hb) as [Ep Esz'].
  rewrite Esz, Esz' in *. rewrite Ep in Hag2. pose proof (epos_range x').
  set (d := w_bit_offset wr - epos x') in *. unfold large, kMinDedupSize in Hl. apply andb_true_iff in Hl as [_ Hl].
  pose proof (ww_data _ (wo_wf _ Hwo)). pose proof (wo_data _ Hwo) as Ed. pose proof (wo_offset _ Hwo).
  destruct (WriteVarint_spec wr d) as (Hap & Him & Hc); [apply Hwo|unfold is_u; lia|unfold w_pos; lia|].
  assert (w_pos wr - d = base + epos x') as Eq by (unfold w_pos; lia).
  exists (WriteVarint wr d), s, (items_bits (varint_items [d])). unfold table_written, write_table, kMinDedupSize.
  rewrite Hf, Hd, (uN_small 32 (b - a)) by (unfold is_u; lia). replace (33 <=? b - a) with true by lia.
  cbn [DCHECK mbind option_bind]. rewrite Hx'. cbn [mbind option_bind].
  rewrite written_bits, u32_distance by (done || lia). split_and!; try (done || lia).
  - unfold written. rewrite Hf, Hd. exists d. split_and!; try done; [unfold is_u; lia|lia|unfold w_pos; lia|..].
    + rewrite Eq, <- Z.add_assoc. eapply agree_trans; [apply agree_sym, Hag2|]. eapply agree_trans; [exact Hag|].
      intros j Hj. symmetry. apply Hap. left. unfold w_pos. lia.
    + exists slot, x, x'. split_and!; try (done || lia).
  - eapply tracks_appended; [done|done|lia|]. apply (tracks_skip _ _ (S0 + a)); [|lia|exact Ht].
    intros p y Hy Hc'. destruct (Hon p y Hy Hc') as (_ & _ & Hcd & _). congruence.
Qed.

Lemma write_absent flags i a b entry wr s :
  write_ok wr -> 0 <= a <= b -> tracks (w_mem wr) (w_bit_offset wr) (S0 + a) (HashSet.data_ s) ->
  only_new flags i a b entry -> HasBitTable flags i = false -> table_written flags i a b entry wr s.
Proof.
  intros Hwo Ha Ht Hon Hf. exists wr, s, 0. unfold write_table, written. rewrite Hf.
  split_and!; try (done || lia); [by apply appended_refl, Hwo|]. apply (tracks_skip _ _ (S0 + a)); [|lia|exact Ht].
  intros p y Hy Hc'. destruct (Hon p y Hy Hc') as (_ & Hl & _). unfold large in Hl. by rewrite Hf in Hl.
Qed.

(** The entry of a table that was written gets its place. *)
Lemma tracks_set m off a b d slot x' cur :
  0 <= a <= b -> b <= n -> tracks m off (S0 + a) d -> has m1 data d1 slot (table_entry S0 a b) ->
  (forall p x, has m1 data d1 p x -> S0 + a <= epos x < S0 + b -> p = slot) ->
  ElementForIndex d slot = Some x' -> 0 <= cur < 2 ^ 32 -> cur + (b - a) <= off -> a < b ->
  agree m1 (base + S0 + a) m (base + cur) (b - a) ->
  tracks m off (S0 + b) (<[Z.to_nat slot := DedupeEntry (u32 cur) (bit_size x')]> d).
Proof using HS Hn.
  intros Ha Hb Ht Hs Hu Hx' Hcur Hoff Hlt Hag. pose proof Ht as Ht'.
  apply Forall2_same_length_lookup in Ht' as [Hl Ht']. apply Forall2_same_length_lookup.
  split; [by rewrite length_insert|]. intros p x y Hx Hy.
  destruct (table_entry_range S0 n HS ltac:(lia) a b Ha Hb) as [Ep Esz].
  destruct Hs as (Hr & Hs & He). unfold in_range, NumBuckets, ElementForIndex in *.
  destruct (decide (p = Z.to_nat slot)) as [->|Hne].
  - rewrite list_lookup_insert_eq in Hy by (by eapply lookup_lt_Some). injection Hy as <-.
    rewrite Hs in Hx. injection Hx as <-. destruct (Ht' _ _ _ Hs Hx') as [Es _]. split; [done|]. intros _.
    cbn [bit_start bit_size]. rewrite !(uN_small 32 cur) by (unfold is_u; lia). rewrite Ep, Esz.
    replace (S0 + b <=? S0 + a) with false by lia. split; [lia|]. by rewrite Z.add_assoc.
  - rewrite list_lookup_insert_ne in Hy by done. destruct (Ht' p x y Hx Hy) as [Es Hv]. split; [done|]. intros Hz.
    specialize (Hv Hz). destruct (Z.leb_spec (S0 + a) (epos x)), (Z.leb_spec (S0 + b) (epos x)); try (done || lia).
    destruct Hne. pose proof (lookup_lt_Some _ _ _ Hx). rewrite <- (Nat2Z.id p). f_equal. apply (Hu _ x); [|lia].
    unfold has, in_range, NumBuckets, ElementForIndex. rewrite Nat2Z.id. split_and!; [lia|lia|done|].
    cbn [IsEmpty set_traits DedupeSet]. lia.
Qed.

Lemma write_region_spec wr a b :
  write_ok wr -> 0 <= a <= b -> b <= n -> w_bit_offset wr + (b - a) + 8 < 2 ^ 32 ->
  let wr' := WriteRegion wr (Subregion region a (b - a)) in
  appended wr wr' (b - a) /\ agree m1 (base + S0 + a) (w_mem wr') (w_pos wr) (b - a).
Proof using All.
  intros Hwo Ha Hb Hoff. destruct (Subregion_spec region a (b - a)) as [Hw As]; [done|lia..|].
  pose proof (wo_data _ Hwo) as Ed. pose proof (wo_offset _ Hwo).
  destruct (WriteRegion_spec wr (Subregion region a (b - a))) as [Hap Hbits]; cbn [bit_size_ Subregion];
    [apply Hwo|done|unfold w_pos; lia|rewrite As, Hreg0; unfold w_pos; lia|].
  split; [done|]. intros j Hj. cbn [bit_size_ Subregion] in Hbits. rewrite Hbits by done. unfold rbit.
  rewrite As, Hreg0, <- !Z.add_assoc, <- (wo_source _ Hwo), Hcopy by lia. f_equal. lia.
Qed.

Lemma write_present flags i a b entry wr s :
  write_ok wr -> 0 <= a <= b -> b <= n -> w_bit_offset wr + (b - a) + 8 < 2 ^ 32 ->
  tracks (w_mem wr) (w_bit_offset wr) (S0 + a) (HashSet.data_ s) ->
  found_entry m1 data S0 d1 flags i a b entry -> only_new flags i a b entry ->
  HasBitTable flags i = true -> IsBitTableDeduped flags i = false -> table_written flags i a b entry wr s.
Proof using All.
  intros Hwo Ha Hb Hoff Ht Hfe Hon Hf Hd. destruct (write_region_spec wr a b Hwo Ha Hb Hoff) as [Hap Hag].
  set (wr' := WriteRegion wr (Subregion region a (b - a))) in *.
  pose proof (tracks_appended wr wr' (b - a) _ _ Hwo Hap ltac:(lia) Ht) as Ht'. pose proof (wo_offset _ Hwo).
  unfold table_written, write_table. rewrite Hf, Hd, (uN_small 32 (b - a)) by (unfold is_u; lia). fold wr'.
  unfold found_entry in Hfe. unfold large in Hfe at 1. rewrite Hf in Hfe. cbn [andb] in Hfe.
  destruct (kMinDedupSize <=? b - a) eqn:Hl.
  - destruct Hfe as (slot & x & -> & Hr & Hx & He & Hp & Hle). rewrite Hd in Hle. subst x.
    destruct (tracks_lookup _ _ _ _ slot (table_entry S0 a b) Ht) as (x' & Hx' & Htr & _); [done|]. unfold kMinDedupSize in Hl.
    eexists wr', _, (b - a). cbn [mbind option_bind]. rewrite Hx'. cbn [mbind option_bind]. split; [done|].
    destruct (table_entry_range S0 n HS ltac:(lia) a b Ha Hb) as [Ep Esz].
    split_and!; try (done || lia); rewrite written_bits by (done || lia); cbn [HashSet.data_ set_slot].
    + unfold written. rewrite Hf, Hd. split_and!; try done. intros _. eexists slot, _, _. split; [done|].
      split; [rewrite Ep; lia|]. unfold ElementForIndex in *.
      rewrite list_lookup_insert_eq by (by eapply lookup_lt_Some). split; [done|]. cbn [bit_start bit_size].
      destruct Htr as [Es _]. rewrite Es, Esz, !(uN_small 32 (w_bit_offset wr)) by (unfold is_u; lia).
      split; [done|]. unfold w_pos. by rewrite (wo_data _ Hwo).
    + intros p y Hy Hlt. unfold ElementForIndex. apply list_lookup_insert_ne. intros Heq.
      destruct Hy as (Hpr & Hy & _). unfold ElementForIndex in *. rewrite <- Heq, Hx in Hy. injection Hy as <-. lia.
    + apply tracks_set with a; try (done || lia).
      * intros p y Hy Hc. destruct (Hon p y Hy Hc) as (Hs & _). congruence.
      * rewrite (ap_offset _ _ _ Hap). lia.
      * unfold w_pos in Hag. by rewrite (wo_data _ Hwo) in Hag.
  - exists wr', s, (b - a). split_and!; try (done || lia).
    { unfold written. rewrite Hf, Hd. split_and!; try done. lia. }
    apply (tracks_skip _ _ (S0 + a)); [|lia|exact Ht'].
    intros p y Hy Hc. destruct (Hon p y Hy Hc) as (_ & Hlg & _). unfold large in Hlg. rewrite Hl, andb_false_r in Hlg. done.
Qed.

Lemma write_table_spec flags i a b entry wr s :
  write_ok wr -> 0 <= a <= b -> b <= n -> w_bit_offset wr + (b - a) + 40 < 2 ^ 32 ->
  tracks (w_mem wr) (w_bit_offset wr) (S0 + a) (HashSet.data_ s) ->
  found_entry m1 data S0 d1 flags i a b entry -> only_new flags i a b entry -> table_written flags i a b entry wr s.
Proof using All.
  intros. destruct (HasBitTable flags i) eqn:Hf; [|by apply write_absent].
  destruct (IsBitTableDeduped flags i) eqn:Hd; [apply write_deduped|apply write_present]; try (done || lia).
Qed.

(** ** The tables and where they are now *)

Lemma fresh_behind slot x flags i starts entries a :
  ascending n starts -> head starts = Some a -> fresh S0 slot x flags i starts entries -> S0 + a <= epos x.
Proof using HS Hn.
  revert i entries a. induction starts as [|a' [|b starts] IH]; intros i entries a Hasc [= <-] Hf; [done|].
  destruct entries as [|entry entries]; [done|]. destruct Hasc as (Ha & Hab & Hasc). destruct Hf as [(_ & _ & _ & ->)|Hf].
  - destruct (table_entry_range S0 n HS ltac:(lia) a' b) as [-> _]; [lia|apply Hasc|lia].
  - specialize (IH (S i) entries b Hasc eq_refl Hf). lia.
Qed.

Lemma layout_written m flags i K columns a sh wr wr1 d' c l e :
  write_ok wr -> written flags i a (a + sh_size K sh) wr wr1 d' c -> shape_at K m1 (p0 + a) sh -> 0 <= a ->
  a + sh_size K sh <= n -> HasBitTable flags i = true ->
  (forall j, base <= j < w_pos wr + c -> mbit m j = mbit (w_mem wr1) j) ->
  layout m base flags (S i) columns (w_pos wr + c) l e ->
  exists q, layout m base flags i (K :: columns) (w_pos wr) (Some (q, sh) :: l) e /\
    agree m1 (p0 + a) m q (sh_size K sh) /\
    (kMinDedupSize <= sh_size K sh -> registered d' (S0 + (a + sh_size K sh)) q (sh_size K sh)).
Proof using HS Hcopy.
  intros Hwo Hw Hs Ha Hle Hf Hfr Hl. pose proof (shape_size _ _ _ _ Hs) as [Hh Hsz].
  pose proof (wo_data _ Hwo) as Ed. pose proof (wo_offset _ Hwo) as Ho.
  unfold written in Hw. rewrite Hf in Hw. replace (a + sh_size K sh - a) with (sh_size K sh) in Hw by lia.
  assert (forall q, base <= q -> q + sh_size K sh <= w_pos wr + c ->
    agree m1 (base + S0 + a) (w_mem wr1) q (sh_size K sh) ->
    shape_at K m q sh /\ agree m1 (p0 + a) m q (sh_size K sh)) as Hq.
  { intros q Hq1 Hq2 Hag. assert (agree m1 (p0 + a) m q (sh_size K sh)) as H2.
    { eapply agree_trans; [apply (agree_sub m1 p0 m1 (base + S0) n a (sh_size K sh) Hcopy); lia|].
      eapply agree_trans; [exact Hag|]. intros j Hj. symmetry. apply Hfr. lia. }
    split; [by apply (shape_agree K m1 (p0 + a))|done]. }
  destruct (IsBitTableDeduped flags i) eqn:Hd.
  - destruct Hw as (d & Hd32 & -> & Him & Hb & Hend & Hag & Hreg').
    pose proof (items_bits_nonneg _ (varint_items_ok [d] ltac:(by constructor))) as Hnn.
    destruct (Hq (w_pos wr - d)) as [Hs' Hc]; [done|lia|done|]. exists (w_pos wr - d). split; [|done].
    apply layout_deduped with (items_bits (varint_items [d])); try done.
    eapply yields_agree; [|apply (written_varint (w_mem wr1)); done]. intros j Hj. symmetry. apply Hfr. unfold w_pos. lia.
  - destruct Hw as (-> & Hag & Hreg'). destruct (Hq (w_pos wr)) as [Hs' Hc]; [unfold w_pos; lia|lia|done|].
    exists (w_pos wr). split; [|done]. by apply layout_present.
Qed.

Definition accounted (flags : Z) (i : nat) (a : Z) (starts : list Z) (entries : list (option Z)) : Prop :=
  forall p x, has m1 data d1 p x -> epos x + esz x <= S0 + a \/ fresh S0 p x flags i starts entries.

(** The walk from one table to the next. *)
Lemma accounted_next flags i a b starts entry entries :
  ascending n (a :: b :: starts) -> accounted flags i a (a :: b :: starts) (entry :: entries) ->
  accounted flags (S i) b (b :: starts) entries /\ only_new flags i a b entry.
Proof using HS Hn.
  intros (Ha & Hab & Hasc) Hacc.
  assert (epos (table_entry S0 a b) = S0 + a /\ esz (table_entry S0 a b) = b - a) as [Ep Es].
  { apply (table_entry_range S0 n); [done|lia|lia|apply Hasc]. }
  split.
  - intros p x Hx. destruct (Hacc p x Hx) as [Hle|[(_ & _ & _ & ->)|Hf]]; [left; lia|left; lia|by right].
  - intros p x Hx Hr. destruct (Hacc p x Hx) as [Hle|[?|Hf]]; [|done|].
    + destruct Hx as (_ & _ & He). cbn [IsEmpty set_traits DedupeSet] in He. pose proof (esz_range x). lia.
    + pose proof (fresh_behind p x flags (S i) (b :: starts) entries b Hasc eq_refl Hf). lia.
Qed.

(** The large tables have entries. *)
Definition registered_table (d : list DedupeSetEntry) (K : nat) (o : option (Z * Shape)) : Prop :=
  match o with
  | Some (q, sh) => kMinDedupSize <= sh_size K sh -> registered d (S0 + n) q (sh_size K sh)
  | None => True
  end.

(** The first table of the source. *)
Lemma source_step L0 flags0 i K columns l a :
  undeduped flags0 -> layout m1 L0 flags0 i (K :: columns) (p0 + a) l (p0 + n) ->
  exists o l' b, l = o :: l' /\ positions (K :: columns) l a = a :: positions columns l' b /\ a <= b <= n /\
    layout m1 L0 flags0 (S i) columns (p0 + b) l' (p0 + n) /\
    match o with
    | None => HasBitTable flags0 i = false
    | Some (q, sh) => HasBitTable flags0 i = true /\ q = p0 + a /\ shape_at K m1 (p0 + a) sh /\ b = a + sh_size K sh
    end.
Proof.
  clear Hreg0 Hregn. intros Hu Hl. pose proof (layout_le _ _ _ _ _ _ _ _ Hl).
  inversion Hl as [|? ? ? ? l' ? Hf Hl'|? ? ? ? sh l' ? Hf Hd Hs Hl'|? ? ? ? d c sh l' ? Hf Hdd]; subst.
  - exists None, l', a. split_and!; (done || lia).
  - pose proof (layout_le _ _ _ _ _ _ _ _ Hl'). pose proof (shape_size _ _ _ _ Hs).
    exists (Some (p0 + a, sh)), l', (a + sh_size K sh). rewrite Z.add_assoc. split_and!; (done || lia).
  - by rewrite Hu in Hdd.
Qed.

Lemma write_tables_spec L0 flags0 flags i columns l a entries wr s :
  undeduped flags0 -> (forall j, (j < 8)%nat -> HasBitTable flags j = HasBitTable flags0 j) ->
  (i + length columns = 8)%nat -> 0 <= a -> layout m1 L0 flags0 i columns (p0 + a) l (p0 + n) ->
  write_ok wr -> w_bit_offset wr + (n - a) + 3 * Z.of_nat (length columns) + 40 < 2 ^ 32 ->
  tracks (w_mem wr) (w_bit_offset wr) (S0 + a) (HashSet.data_ s) ->
  found m1 data S0 d1 flags i (positions columns l a) entries ->
  accounted flags i a (positions columns l a) entries ->
  exists wr' s' c lo, write_tables region flags i (positions columns l a) entries wr s = Some (wr', s') /\
    appended wr wr' c /\ 0 <= c <= n - a + 3 * Z.of_nat (length columns) /\
    tracks (w_mem wr') (w_bit_offset wr') (S0 + n) (HashSet.data_ s') /\
    num_elements_ s' = num_elements_ s /\ elements_until_expand_ s' = elements_until_expand_ s /\
    layout (w_mem wr') base flags i columns (w_pos wr) lo (w_pos wr') /\
    Forall3 (copied m1 (w_mem wr')) columns l lo /\
    keeps a (HashSet.data_ s) (HashSet.data_ s') /\ Forall2 (registered_table (HashSet.data_ s')) columns lo.
Proof using All.
  intros Hu Hhas. revert i l a entries wr s.
  induction columns as [|K columns IH]; intros i l a entries wr s Hi Ha Hl Hwo Hoff Ht Hfd Hacc.
  { inversion Hl as [? ? Ei Ea El Ee| | |]. replace n with a in * by lia. subst l.
    exists wr, s, 0, []. split_and!; try (done || lia); [by apply appended_refl, Hwo|by constructor..]. }
  destruct (source_step L0 flags0 i K columns l a Hu Hl) as (o & l' & b & -> & Epos & Hab & Hl' & Ho).
  pose proof (positions_ascending _ _ _ _ _ _ _ _ a Hu Hl Ha) as Hasc. rewrite Epos in Hfd, Hacc, Hasc |- *.
  replace (a + (p0 + n - (p0 + a))) with n in Hasc by lia.
  destruct (positions_head columns l' b) as [rest Er]. rewrite Er in Hfd, Hacc, Hasc |- *.
  destruct entries as [|entry entries]; [done|]. destruct Hfd as [Hfe Hfd].
  destruct (accounted_next _ _ _ _ _ _ _ Hasc Hacc) as [Hacc' Hon]. rewrite <- Er in Hfd, Hacc'.
  cbn [length] in Hi, Hoff.
  destruct (write_table_spec flags i a b entry wr s) as (wr1 & s1 & c1 & E1 & Hap1 & Hc1 & Hw1 & Hk1 & Ht1 & En1 & Eu1);
    try (done || lia).
  assert (write_ok wr1) as Hwo1 by (eapply write_ok_appended; [done|done|lia..]).
  pose proof (ap_offset _ _ _ Hap1) as Eo1.
  assert (w_pos wr1 = w_pos wr + c1) as Ep1 by (unfold w_pos; rewrite (wo_data _ Hwo1), (wo_data _ Hwo); lia).
  destruct (IH (S i) l' b entries wr1 s1) as (wr' & s' & c & lo & E2 & Hap2 & Hc & Ht2 & En2 & Eu2 & Hlo & Hcp & Hk2 & Hreg2); try (done || lia).
  assert (forall j, base <= j < w_pos wr + c1 -> mbit (w_mem wr') j = mbit (w_mem wr1) j) as Hfr
    by (intros j Hj; apply Hap2; left; lia).
  assert (exists o', layout (w_mem wr') base flags i (K :: columns) (w_pos wr) (o' :: lo) (w_pos wr') /\
    copied m1 (w_mem wr') K o o' /\ registered_table (HashSet.data_ s') K o') as (o' & Hlo' & Hcp' & Hreg').
  { rewrite Ep1 in Hlo. destruct o as [[q sh]|].
    - destruct Ho as (Hf & -> & Hs & ->). rewrite <- Hhas in Hf by lia.
      destruct (layout_written (w_mem wr') flags i K columns a sh wr wr1 (HashSet.data_ s1) c1 lo (w_pos wr'))
        as (q & Hlq & Hag & Hrg); try (done || lia).
      exists (Some (q, sh)). split_and!; try done. intros Hlarge. destruct (Hrg Hlarge) as (slot & x & x' & Hx & Hlt & Hx' & ?).
      exists slot, x, x'. split_and!; try (done || lia). by rewrite (Hk2 slot x Hx Hlt).
    - rewrite <- Hhas in Ho by lia. exists None. split_and!; [|done|done]. constructor; [done|].
      unfold written in Hw1. rewrite Ho in Hw1. by rewrite Hw1, Z.add_0_r in Hlo. }
  rewrite Er in E2.
  cbn [write_tables length]. rewrite E1. cbn [mbind option_bind].
  exists wr', s', (c1 + c), (o' :: lo). split_and!; try (done || lia || congruence); [|by constructor| |by constructor].
  - eapply appended_trans; (done || lia).
  - intros p x Hx Hlt. rewrite (Hk2 p x Hx) by lia. exact (Hk1 p x Hx Hlt).
Qed.
End writing.
