(* ===== verification/CodeInfoDeduperCorrect.v ===== *)
(** Correctness of CodeInfoDeduper.v: the debug checks pass, and every copied code info decodes to
    what its source decodes to, also after more code infos were added. *)
From S2P Require Import Prelude BitUtils Memory BitMemory BitTable BitmapTable HashSet StackMap.
From S2P Require Import CodeInfoLayout CodeInfoDeduper CodeInfoDeduperSteps.

(** ** Load factors *)

Lemma mul_max_load_lt n : kMinBuckets <= n -> 0 <= mul_max_load n < n.
Proof. unfold kMinBuckets, mul_max_load. intros. Z.div_mod_to_equations. lia. Qed.

Lemma mul_max_load_mono a b : a <= b -> mul_max_load a <= mul_max_load b.
Proof. intros. apply Z.div_le_mono; lia. Qed.

Lemma reserve_fuel n : 0 <= n -> n + 1 < mul_max_load (div_max_load n + Z.of_nat (Z.to_nat n + 4)).
Proof. unfold mul_max_load, div_max_load. intros. Z.div_mod_to_equations. lia. Qed.

(** ** The deduper between two calls *)

Abbreviation traits_of wr := (DedupeSet (w_mem wr) (w_data wr)).

Record deduper_ok (d : CodeInfoTableDeduper) : Prop := {
  do_wf : wf_writer (writer_ d);
  do_start : w_bit_start (writer_ d) = 0;
  do_aligned : w_bit_offset (writer_ d) mod 8 = 0;
  do_data : kPageSize <= w_data (writer_ d) < 2 ^ 54;
  do_inv : @inv _ (traits_of (writer_ d)) (dedupe_set_ d);
  do_until : elements_until_expand_ (dedupe_set_ d) = mul_max_load (NumBuckets (HashSet.data_ (dedupe_set_ d)));
  do_num : num_elements_ (dedupe_set_ d) <= w_bit_offset (writer_ d);
  do_buckets : NumBuckets (HashSet.data_ (dedupe_set_ d)) <= 2 ^ 40;
  do_below : below (w_mem (writer_ d)) (w_data (writer_ d)) (HashSet.data_ (dedupe_set_ d))
    (w_bit_offset (writer_ d)) }.

Lemma below_elements m data s s' limit :
  @elements _ (DedupeSet m data) (HashSet.data_ s') ≡ₚ @elements _ (DedupeSet m data) (HashSet.data_ s) ->
  below m data (HashSet.data_ s) limit -> below m data (HashSet.data_ s') limit.
Proof.
  intros He Hb slot x (Hr & Hx & Hne).
  assert (x ∈ @elements _ (DedupeSet m data) (HashSet.data_ s)) as Hin.
  { rewrite <- He. apply (@list_elem_of_filter DedupeSetEntry). split; [done|]. by eapply list_elem_of_lookup_2. }
  apply list_elem_of_filter in Hin as [_ [p Hp]%list_elem_of_lookup]. apply (Hb (Z.of_nat p) x).
  pose proof (lookup_lt_Some _ _ _ Hp). unfold has, in_range, NumBuckets, ElementForIndex. rewrite Nat2Z.id.
  split_and!; (done || lia).
Qed.

(** An entry for the [size] bits at position [q] of an output at [data]. *)
Definition entered (data : Z) (d : list DedupeSetEntry) (q size : Z) : Prop :=
  exists p x, d !! p = Some x /\ esz x = size /\ 8 * data + epos x = q.

(** A table that is large enough to be shared has an entry. *)
Definition large_entered (data : Z) (d : list DedupeSetEntry) (K : nat) (o : option (Z * Shape)) : Prop :=
  match o with
  | Some (q, sh) => kMinDedupSize <= sh_size K sh -> entered data d q (sh_size K sh)
  | None => True
  end.

Definition keeps_entered (data : Z) (d d' : list DedupeSetEntry) : Prop :=
  forall q size, 0 < size -> entered data d q size -> entered data d' q size.

Lemma large_entered_keeps data d d' columns lo :
  keeps_entered data d d' -> Forall2 (large_entered data d) columns lo -> Forall2 (large_entered data d') columns lo.
Proof.
  intros Hk Hl. eapply Forall2_impl; [exact Hl|]. intros K [[q sh]|] Ho; [|done]. intros Hs. apply Hk; [|by apply Ho].
  unfold kMinDedupSize in Hs. lia.
Qed.

Lemma entered_elements m data s s' :
  @elements _ (DedupeSet m data) (HashSet.data_ s') ≡ₚ @elements _ (DedupeSet m data) (HashSet.data_ s) ->
  keeps_entered data (HashSet.data_ s) (HashSet.data_ s').
Proof.
  intros He q size Hsz (p & x & Hx & Es & Eq).
  assert (x ∈ @elements _ (DedupeSet m data) (HashSet.data_ s')) as Hin.
  { rewrite He. apply (@list_elem_of_filter DedupeSetEntry). split; [|by eapply list_elem_of_lookup_2].
    cbn [IsEmpty DedupeSet]. lia. }
  apply list_elem_of_filter in Hin as [_ [p' Hp]%list_elem_of_lookup]. by exists p', x.
Qed.

(** Equal tables have one entry. *)
Lemma entered_unique m data s q q' size :
  0 <= data < 2 ^ 57 -> bytes_ok m -> @inv _ (DedupeSet m data) s -> 0 < size ->
  entered data (HashSet.data_ s) q size -> entered data (HashSet.data_ s) q' size -> agree m q m q' size -> q = q'.
Proof.
  intros Hd Hm Hi Hs (p & x & Hx & Es & <-) (p' & x' & Hx' & Es' & <-) Hag. pose proof (set_laws data Hd m Hm).
  destruct (decide (p = p')) as [<-|Hne]; [congruence|]. exfalso.
  pose proof (proj1 (distinct_slots (HashSet.data_ s)) (inv_distinct _ Hi) p p' x x' Hne Hx Hx') as Hp.
  cbn [IsEmpty pred DedupeSet] in Hp. rewrite (proj2 (entry_equals data Hd m x x' Hm)) in Hp by (split; [congruence|by rewrite Es]).
  enough (true = false) by done. apply Hp; lia.
Qed.

Lemma reserve_set_spec d n :
  deduper_ok d -> num_elements_ (dedupe_set_ d) <= n -> n < 2 ^ 36 ->
  exists s, reserve_set d n = Some s /\ deduper_ok (Deduper (writer_ d) s) /\
    num_elements_ s = num_elements_ (dedupe_set_ d) /\ n + 1 < elements_until_expand_ s /\
    keeps_entered (w_data (writer_ d)) (HashSet.data_ (dedupe_set_ d)) (HashSet.data_ s).
Proof.
  intros [Hw Hst Hal Hdt Hi Hu Hc Hb Hbl] Hn Hn36. unfold kPageSize in Hdt.
  pose proof (set_laws (w_data (writer_ d)) ltac:(lia) (w_mem (writer_ d)) (ww_ok _ Hw)) as Hlaws.
  pose proof (inv_count _ Hi).
  destruct (@reserve_spec _ (traits_of (writer_ d)) Hlaws mul_max_load mul_max_load_lt div_max_load (dedupe_set_ d) n)
    as (s & Hs & Hi' & He & Hnum & Hu' & Hroom & Hnb); try done.
  { apply mul_max_load_mono. }
  { apply reserve_fuel. lia. }
  exists s. split_and!; try done; [|by eapply entered_elements]. constructor; cbn [writer_ dedupe_set_]; try done.
  - by rewrite Hnum.
  - unfold div_max_load, kMinBuckets in *. Z.div_mod_to_equations. lia.
  - by eapply below_elements.
Qed.

Lemma reserve_tables_spec d :
  deduper_ok d -> w_bit_offset (writer_ d) < 2 ^ 32 ->
  exists s, reserve_tables d = Some s /\ deduper_ok (Deduper (writer_ d) s) /\
    num_elements_ s = num_elements_ (dedupe_set_ d) /\
    num_elements_ s + 8 <= elements_until_expand_ s /\
    keeps_entered (w_data (writer_ d)) (HashSet.data_ (dedupe_set_ d)) (HashSet.data_ s).
Proof.
  intros Hd Hoff. pose proof (do_num _ Hd). pose proof (inv_count _ (do_inv _ Hd)). pose proof (inv_load _ (do_inv _ Hd)).
  assert (forall s, num_elements_ s = num_elements_ (dedupe_set_ d) -> deduper_ok (Deduper (writer_ d) s) ->
    u64 (elements_until_expand_ s - size s) = elements_until_expand_ s - num_elements_ s) as Hu64.
  { intros s Es [_ _ _ _ Hi Hu _ Hb _]. cbn [writer_ dedupe_set_] in *. pose proof (inv_load _ Hi). unfold size.
    apply uN_small. unfold is_u, mul_max_load, NumBuckets in *. Z.div_mod_to_equations. lia. }
  unfold reserve_tables. rewrite Hu64 by (done || by destruct d). unfold kNumBitTables.
  case_ltb; [|exists (dedupe_set_ d); destruct d; split_and!; (done || lia || by intros q size)].
  change (size (dedupe_set_ d)) with (num_elements_ (dedupe_set_ d)).
  set (req := num_elements_ (dedupe_set_ d) + Z.of_nat 8). assert (req <= mul_factor req < 2 ^ 36) as Hreq.
  { unfold mul_factor, req. Z.div_mod_to_equations. lia. }
  assert (req = num_elements_ (dedupe_set_ d) + 8) as Er by done.
  replace (req <=? mul_factor req) with true by lia. cbn [DCHECK mbind option_bind].
  destruct (reserve_set_spec d (mul_factor req) Hd) as (s & -> & Hd' & En & Hroom & Hk); [lia..|]. cbn [mbind option_bind].
  rewrite Hu64 by done. rewrite (proj2 (Z.leb_le (Z.of_nat 8) (elements_until_expand_ s - num_elements_ s))) by lia. cbn [DCHECK mbind option_bind].
  exists s. split_and!; (done || lia).
Qed.

Lemma MakeDeduper_ok m output : bytes_ok m -> kPageSize <= output < 2 ^ 54 -> deduper_ok (MakeDeduper m output).
Proof.
  intros Hm Ho. unfold kPageSize in *. unfold MakeDeduper, MakeWriter.
  pose proof (set_laws output ltac:(lia) m Hm) as Hlaws.
  constructor; cbn [writer_ dedupe_set_ w_mem w_data w_bit_start w_bit_offset]; try (done || lia).
  - split; cbn; (done || lia).
  - apply (@inv_clear _ (DedupeSet m output) Hlaws (Hash [] 0 0)).
  - intros slot x (Hr & _). unfold in_range, NumBuckets in Hr. simpl in Hr. lia.
Qed.

Lemma ReserveDedupeBuffer_spec num m output :
  bytes_ok m -> kPageSize <= output < 2 ^ 54 -> 0 <= num < 2 ^ 32 ->
  exists d, ReserveDedupeBuffer num (MakeDeduper m output) = Some d /\ deduper_ok d /\
    writer_ d = MakeWriter m output 0 0.
Proof.
  intros Hm Ho Hnum. pose proof (MakeDeduper_ok m output Hm Ho) as Hd. unfold ReserveDedupeBuffer.
  change (DCHECK (empty (dedupe_set_ (MakeDeduper m output)))) with (Some tt). cbn [mbind option_bind].
  rewrite (uN_small 64 (num * Z.of_nat kNumBitTables)) by (unfold is_u, kNumBitTables; lia).
  destruct (reserve_set_spec (MakeDeduper m output) (num * Z.of_nat kNumBitTables / 2) Hd) as (s & E & Hd' & _);
    [apply Z.div_pos; lia|unfold kNumBitTables; Z.div_mod_to_equations; lia|].
  rewrite E. cbn [mbind option_bind]. by eexists.
Qed.

(** ** The source and its copy *)

(** A code info outside of the memory that the output can grow into, and its size. *)
Definition source_ok (m : memory) (output src : Z) : Prop :=
  let '(ci, n) := DecodeCodeInfo m src in
  kPageSize <= src < 2 ^ 54 /\ HasDedupedBitTables (bit_table_flags_ ci) = false /\ 0 <= n /\
  (8 * src + n <= 8 * output \/ 8 * output + 2 ^ 32 <= 8 * src).

Definition source_bits (m : memory) (src : Z) : Z := (DecodeCodeInfo m src).2.

(** What decoding shows of a source. *)
Record source_at (m : memory) (src n : Z) (hd : list Z) (l : list (option (Z * Shape))) : Prop := {
  so_header : length hd = 7%nat;
  so_values : Forall (is_u 32) hd;
  so_flags : is_u 8 (default 0 (hd !! 6%nat));
  so_undeduped : undeduped (default 0 (hd !! 6%nat));
  so_info : info_at m (8 * src) src hd l (8 * src + n);
  so_size : 28 <= n }.

Lemma table_columns_small : Forall (fun K => (1 + K <= 16)%nat) table_columns.
Proof. repeat constructor; lia. Qed.

Lemma undeduped_small flags :
  is_u 32 flags -> HasDedupedBitTables flags = false -> is_u 8 flags.
Proof.
  unfold HasDedupedBitTables, kNumBitTables. intros [H1 H2] Hd%negb_false_iff%Z.eqb_eq.
  rewrite Z.shiftr_div_pow2 in Hd by lia. change (2 ^ Z.of_nat 8) with 256 in Hd.
  unfold is_u. apply Z.div_small_iff in Hd; lia.
Qed.

Lemma source_info m output src :
  bytes_ok m -> source_ok m output src -> 0 <= source_bits m src < 2 ^ 33 ->
  exists hd l, source_at m src (source_bits m src) hd l.
Proof.
  intros Hm. unfold source_ok, source_bits, kPageSize.
  destruct (ReadInterleavedVarints_yields 7 m (8 * src) ltac:(lia)) as (c & hd & Hlen & Hv & Hc & Hy).
  destruct (DecodeCodeInfo m src) as [ci n] eqn:E. cbn [snd]. intros (Hs & Hd & _ & _) Hn.
  assert (bit_table_flags_ ci = default 0 (hd !! 6%nat)) as Ef.
  { destruct (info_reader src) as (Hcr & Hp & _); [unfold kPageSize; lia|].
    unfold DecodeCodeInfo, decode_header, kNumHeaders in E.
    rewrite (proj2 Hy m) in E; [|done|eapply wf_reader_le; [apply Hcr|lia]|rewrite Hp; apply agree_refl].
    destruct (decode_tables _ _ _ _ _) as [ts rd]. by injection E as <- _. }
  rewrite Ef in Hd. assert (undeduped (default 0 (hd !! 6%nat))) as Hu by (intros j; by apply HasDedupedBitTables_false).
  destruct (layout_exists m (8 * src) (default 0 (hd !! 6%nat)) 0 table_columns (8 * src + c) Hu table_columns_small)
    as (l & e & Hl).
  pose proof (layout_le _ _ _ _ _ _ _ _ Hl) as Hle. destruct (proj1 Hy). unfold table_room in Hle. simpl length in Hle.
  assert (info_at m (8 * src) src hd l e) as Hi by (exists c; split_and!; done || lia).
  destruct (DecodeCodeInfo_at m (8 * src) src hd l e) as (ts & E' & _); try done; try (unfold kPageSize; lia).
  rewrite E' in E. injection E as _ En. exists hd, l.
  constructor; try (done || lia); [|by replace (8 * src + n) with e by lia]. apply undeduped_small; [|done].
  destruct (hd !! 6%nat) eqn:E6; [by eapply Forall_lookup_1|simpl; unfold is_u; lia].
Qed.

Lemma copy_source_spec wr src len :
  wf_writer wr -> w_bit_start wr = 0 -> w_bit_offset wr mod 8 = 0 -> 0 <= len ->
  w_bit_offset wr + 8 * len < 2 ^ 62 ->
  exists wr1, copy_source wr src len = Some wr1 /\ wf_writer wr1 /\ w_data wr1 = w_data wr /\ w_bit_start wr1 = 0 /\
    w_bit_offset wr1 = w_bit_offset wr + 8 * len /\
    (forall j, j < w_pos wr \/ w_pos wr + 8 * len <= j -> mbit (w_mem wr1) j = mbit (w_mem wr) j) /\
    agree (w_mem wr) (8 * src) (w_mem wr1) (w_pos wr) (8 * len).
Proof.
  intros [Hok Hd Hs Hsz] Hs0 Hal Hlen Hb. unfold copy_source, kBitsPerByte.
  rewrite Hs0, Hal, BitsToBytesRoundUp_val, Hsz, !Z.eqb_refl by lia. cbn [Z.modulo Z.eqb DCHECK mbind option_bind].
  change (0 mod 8 =? 0) with true. cbn [DCHECK mbind option_bind].
  eexists. split; [done|]. unfold WriteBytesAligned, kBitsPerByte.
  rewrite (uN_small 64) by (unfold is_u; lia). unfold w_pos.
  assert (w_size wr = w_bit_offset wr / 8) as Esz by (rewrite Hsz; Z.div_mod_to_equations; lia).
  assert (8 * w_size wr = w_bit_offset wr) as E8 by (rewrite Esz; Z.div_mod_to_equations; lia).
  split_and!; cbn [w_mem w_data w_size w_bit_start w_bit_offset]; try (done || lia).
  - split; cbn [w_mem w_data w_size w_bit_start w_bit_offset]; try (done || lia).
    + intros a. by destruct (_ && _).
    + Z.div_mod_to_equations. lia.
  - intros j Hj. unfold mbit. pose proof (Z.div_mod j 8 ltac:(lia)). pose proof (Z.mod_pos_bound j 8 ltac:(lia)).
    replace ((w_data wr + w_size wr <=? j / 8) && (j / 8 <? w_data wr + w_size wr + len)) with false; [done|].
    destruct (Z.leb_spec (w_data wr + w_size wr) (j / 8)), (Z.ltb_spec (j / 8) (w_data wr + w_size wr + len)); (done || lia).
  - intros j Hj. unfold mbit.
    replace (8 * w_data wr + w_bit_offset wr + j) with (j + (w_data wr + w_size wr) * 8) by lia.
    replace (8 * src + j) with (j + src * 8) by lia. rewrite !Z.div_add, !Z.mod_add by lia.
    pose proof (Z.div_mod j 8 ltac:(lia)). pose proof (Z.mod_pos_bound j 8 ltac:(lia)).
    replace ((w_data wr + w_size wr <=? j / 8 + (w_data wr + w_size wr)) &&
      (j / 8 + (w_data wr + w_size wr) <? w_data wr + w_size wr + len)) with true.
    + do 2 f_equal. lia.
    + destruct (Z.leb_spec (w_data wr + w_size wr) (j / 8 + (w_data wr + w_size wr))),
        (Z.ltb_spec (j / 8 + (w_data wr + w_size wr)) (w_data wr + w_size wr + len)); (done || lia).
Qed.

Lemma read_source m src n hd l :
  bytes_ok m -> kPageSize <= src < 2 ^ 54 -> source_at m src n hd l -> n < 2 ^ 32 ->
  exists c rd1 rd2, ReadInterleavedVarints kNumHeaders m (MakeReaderAt src 0) = (hd, rd1) /\
    bit_table_bit_starts m (default 0 (hd !! 6%nat)) 0 table_columns rd1 = Some (positions table_columns l c, rd2) /\
    wf_region (GetReadRegion rd2) /\ abs_start (GetReadRegion rd2) = 8 * src /\ bit_size_ (GetReadRegion rd2) = n /\
    yields (ReadInterleavedVarints kNumHeaders) 252 m (8 * src) c hd /\
    layout m (8 * src) (default 0 (hd !! 6%nat)) 0 table_columns (8 * src + c) l (8 * src + n) /\ 28 <= c <= n.
Proof.
  intros Hm Hs Hso Hn. destruct (so_info _ _ _ _ _ Hso) as (c & Hy & Hl & H28). destruct (proj1 Hy) as [Hc0 Hc1].
  pose proof (layout_le _ _ _ _ _ _ _ _ Hl) as [Hle _].
  destruct (info_reader src) as (Hcr & Hp & Hnr & _); [unfold kPageSize in *; lia|].
  pose proof (cr_wf _ _ Hcr) as Hw. generalize dependent (MakeReaderAt src 0). intros rd Hcr Hp Hnr Hw.
  assert (NumberOfReadBits (advance rd c) = c) as Enr
    by (unfold NumberOfReadBits, size_in_bits in *; simpl; lia).
  exists c, (advance rd c), (advance (advance rd c) (8 * src + n - (8 * src + c))). split_and!.
  - apply (proj2 Hy); [done|eapply wf_reader_le; [done|lia]|rewrite Hp; apply agree_refl].
  - rewrite (bit_table_bit_starts_spec m (8 * src) _ 0 table_columns (8 * src + c) l (8 * src + n) (advance rd c) Hm
      (so_undeduped _ _ _ _ _ Hso) Hl); [by rewrite Enr|by rewrite r_pos_advance, Hp| |rewrite Enr; lia].
    apply wf_advance; [|lia]. eapply wf_reader_le; [done|unfold table_room; simpl; lia].
  - rewrite advance_advance. destruct Hw as [W1 W2 W3]. unfold NumberOfReadBits, size_in_bits in Hnr.
    unfold GetReadRegion, advance. split; cbn [finished_region_ bit_start_ bit_size_]; lia.
  - unfold r_pos, NumberOfReadBits, size_in_bits, abs_start in *. unfold GetReadRegion, advance.
    cbn [finished_region_ bit_start_ bit_size_ BitMemory.data_] in *. lia.
  - unfold NumberOfReadBits, size_in_bits, GetReadRegion, advance in *.
    cbn [finished_region_ bit_start_ bit_size_ BitMemory.data_] in *. lia.
  - done.
  - done.
  - lia.
  - lia.
Qed.

Lemma Truncate_spec wr off :
  wf_writer wr -> w_bit_start wr = 0 -> 0 <= off <= w_bit_offset wr -> w_bit_offset wr < 2 ^ 62 ->
  wf_writer (Truncate wr off) /\ w_data (Truncate wr off) = w_data wr /\ w_bit_start (Truncate wr off) = 0 /\
  w_bit_offset (Truncate wr off) = off /\ (forall j, mbit (w_mem (Truncate wr off)) j = mbit (w_mem wr) j).
Proof.
  intros [Hok Hd Hs Hsz] Hs0 Ho Hb. unfold Truncate, resize, with_bit_offset. rewrite BitsToBytesRoundUp_val by lia.
  assert ((off + 7) / 8 <= w_size wr) by (rewrite Hsz; apply Z.div_le_mono; lia).
  assert (forall a, (if (w_data wr + w_size wr <=? a) && (a <? w_data wr + (off + 7) / 8) then 0 else w_mem wr a) = w_mem wr a) as Em.
  { intros a. destruct (Z.leb_spec (w_data wr + w_size wr) a), (Z.ltb_spec a (w_data wr + (off + 7) / 8)); (done || lia). }
  split_and!; cbn [w_mem w_data w_size w_bit_start w_bit_offset]; try (done || lia).
  - split; cbn [w_mem w_data w_size w_bit_start w_bit_offset]; try (done || lia). intros a. by rewrite Em.
  - intros j. unfold mbit. by rewrite Em.
Qed.

Lemma ByteAlign_spec wr :
  wf_writer wr -> w_bit_offset wr < 2 ^ 62 ->
  wf_writer (ByteAlign wr) /\ w_mem (ByteAlign wr) = w_mem wr /\ w_data (ByteAlign wr) = w_data wr /\
  w_bit_start (ByteAlign wr) = w_bit_start wr /\ w_bit_offset (ByteAlign wr) mod 8 = 0 /\
  w_bit_offset wr <= w_bit_offset (ByteAlign wr) <= w_bit_offset wr + 7.
Proof.
  intros [Hok Hd Hs Hsz] Hb. unfold ByteAlign, with_bit_offset, kBitsPerByte.
  assert (RoundUp 64 (w_bit_offset wr) 8 = (w_bit_offset wr + 7) / 8 * 8) as ->.
  { change 8 with (2 ^ 3) at 1. rewrite RoundUp_val by lia. by replace (w_bit_offset wr + 2 ^ 3 - 1) with (w_bit_offset wr + 7) by lia. }
  split_and!; cbn [w_mem w_data w_size w_bit_start w_bit_offset]; try done; try (Z.div_mod_to_equations; lia).
  split; cbn [w_mem w_data w_size w_bit_start w_bit_offset]; try done; Z.div_mod_to_equations; lia.
Qed.

(** ** Writing a code info again *)

(** The flags in the first byte of a code info, which are read without decoding it. *)
Definition same_flags (m : memory) (src : Z) (m' : memory) (copy : Z) (hd : list Z) : Prop :=
  forall v, hd !! 0%nat = Some v -> v <= kVarintMax -> bits_match m (8 * src) 4 v -> bits_match m' (8 * copy) 4 v.

(** The state after a code info was written behind offset [S0] of the output. *)
Record copy_ok (m1 : memory) (data S0 src n : Z) (hd hd' : list Z) (l : list (option (Z * Shape)))
    (s1 : HashSet DedupeSetEntry) (wr : BitMemoryWriter) (s : HashSet DedupeSetEntry) : Prop := {
  co_wf : wf_writer wr;
  co_data : w_data wr = data;
  co_start : w_bit_start wr = 0;
  co_aligned : w_bit_offset wr mod 8 = 0;
  co_offset : S0 + 8 <= w_bit_offset wr <= S0 + n + 512;
  co_frame j : j < 8 * data + S0 \/ 8 * data + 2 ^ 32 <= j -> mbit (w_mem wr) j = mbit m1 j;
  co_inv : @inv _ (DedupeSet (w_mem wr) data) s;
  co_num : num_elements_ s = num_elements_ s1;
  co_until : elements_until_expand_ s = elements_until_expand_ s1;
  co_length : length (HashSet.data_ s) = length (HashSet.data_ s1);
  co_below : below (w_mem wr) data (HashSet.data_ s) (w_bit_offset wr);
  co_info : exists lo e, info_at (w_mem wr) (8 * data) (data + S0 / 8) hd' lo e /\ e <= w_pos wr /\
    Forall3 (copied m1 (w_mem wr)) table_columns l lo /\
    Forall2 (large_entered data (HashSet.data_ s)) table_columns lo;
  co_keeps p x : HashSet.data_ s1 !! p = Some x -> 0 < esz x -> epos x + esz x <= S0 -> HashSet.data_ s !! p = Some x;
  co_flags : same_flags m1 src (w_mem wr) (data + S0 / 8) hd }.

Lemma has_lookup m data d p x : d !! p = Some x -> 0 < esz x -> has m data d (Z.of_nat p) x.
Proof.
  intros Hx Hz. pose proof (lookup_lt_Some _ _ _ Hx). unfold has, in_range, NumBuckets, ElementForIndex.
  rewrite Nat2Z.id. split_and!; [lia|lia|done|]. cbn [IsEmpty set_traits DedupeSet]. lia.
Qed.

(** All entries have been written. *)
Lemma tracks_end m1 data d1 m off n d s' :
  bytes_ok m1 -> bytes_ok m -> 0 <= data < 2 ^ 57 -> @inv _ (DedupeSet m1 data) d ->
  d1 = HashSet.data_ d -> below m1 data d1 n -> tracks m1 data d1 m off n (HashSet.data_ s') ->
  num_elements_ s' = num_elements_ d -> elements_until_expand_ s' = elements_until_expand_ d ->
  @inv _ (DedupeSet m data) s' /\ below m data (HashSet.data_ s') off.
Proof.
  intros Hm1 Hm Hd Hi -> Hb Ht En Eu.
  assert (forall p x x', HashSet.data_ d !! p = Some x -> HashSet.data_ s' !! p = Some x' ->
    moved data m1 m x x' /\ (esz x <> 0 -> epos x' + esz x' <= off)) as Hall.
  { intros p x x' Hx Hx'. destruct (Forall2_lookup_lr _ _ _ _ _ _ Ht Hx Hx') as [Es Hv].
    destruct (decide (esz x = 0)) as [E0|Hz].
    - split; [|done]. split; [done|]. intros j Hj. lia.
    - specialize (Hv Hz). pose proof (esz_range x). assert (epos x + esz x <= n) as Hle.
      { apply (Hb (Z.of_nat p) x). apply has_lookup; (done || lia). }
      replace (n <=? epos x) with false in Hv by lia. destruct Hv as [Hv1 Hv2].
      split; [by split|]. intros _. lia. }
  pose proof (Forall2_length _ _ _ Ht) as Hlen. split.
  - apply (set_moved data Hd m1 m d s' Hm1 Hm Hi); [|done..]. apply Forall2_same_length_lookup. split; [done|].
    intros p x x' Hx Hx'. by eapply Hall.
  - intros slot x' (Hr & Hx' & Hne). unfold ElementForIndex in Hx'.
    destruct (Forall2_lookup_r _ _ _ _ _ Ht Hx') as (x & Hx & [Es _]).
    apply (Hall _ x x' Hx Hx'). cbn [IsEmpty set_traits DedupeSet] in Hne. lia.
Qed.

Section rewriting.
Context (m1 : memory) (data S0 n c src : Z) (region : BitMemoryRegion) (hd : list Z) (l : list (option (Z * Shape))).
Context (wr1 : BitMemoryWriter) (s0 s1 : HashSet DedupeSetEntry) (flags : Z) (entries : list (option Z)).
Context (Hdata : kPageSize <= data < 2 ^ 54) (HS : 0 <= S0) (HSal : S0 mod 8 = 0) (Hn : S0 + n + 512 < 2 ^ 32).
Context (Hwr1 : wf_writer wr1) (Hwm : w_mem wr1 = m1) (Hwd : w_data wr1 = data) (Hws : w_bit_start wr1 = 0).
Context (Hwo : S0 <= w_bit_offset wr1 < 2 ^ 32).
Context (Hout : 8 * src + n <= 8 * data \/ 8 * data + 2 ^ 32 <= 8 * src).
Context (Hcopy : agree m1 (8 * src) m1 (8 * data + S0) n).
Context (Hreg : wf_region region) (Hreg0 : abs_start region = 8 * src) (Hregn : bit_size_ region = n).
Context (Hc : 28 <= c <= n) (Hso : source_at m1 src n hd l).
Context (Hl : layout m1 (8 * src) (default 0 (hd !! 6%nat)) 0 table_columns (8 * src + c) l (8 * src + n)).
Context (Hbelow : below m1 data (HashSet.data_ s0) S0).
Context (Hloop : loop_ok m1 data S0 n 0 (positions table_columns l c) s0 s1 (default 0 (hd !! 6%nat)) flags entries).
#[local] Set Default Proof Using "All".

Lemma header_written :
  let wr := WriteInterleavedVarints (Truncate wr1 S0) (<[6%nat := flags]> hd) in
  let h := items_bits (varint_items (<[6%nat := flags]> hd)) in
  appended (Truncate wr1 S0) wr h /\ 28 <= h <= 252 /\
  yields (ReadInterleavedVarints kNumHeaders) 252 (w_mem wr) (8 * data + S0) h (<[6%nat := flags]> hd) /\
  forall v, hd !! 0%nat = Some v -> v <= kVarintMax -> bits_match (w_mem wr) (8 * data + S0) 4 v.
Proof.
  destruct (Truncate_spec wr1 S0) as (Tw & Td & Ts & To & Tm); [done|done|lia|lia|]. cbv zeta.
  assert (Forall (is_u 32) (<[6%nat := flags]> hd)) as Hv.
  { apply Forall_insert; [apply Hso|]. pose proof (lo_flags _ _ _ _ _ _ _ _ _ _ _ Hloop). unfold is_u in *. lia. }
  assert (length (<[6%nat := flags]> hd) = 7%nat) as Hlen by (rewrite length_insert; apply Hso).
  pose proof (varint_items_bound _ Hv) as Hb1. pose proof (varint_items_least _ Hv) as Hb2. rewrite Hlen in Hb1, Hb2.
  rewrite WriteInterleavedVarints_items by done. unfold kPageSize in Hdata.
  assert (w_pos (Truncate wr1 S0) = 8 * data + S0) as Ep by (unfold w_pos; lia).
  destruct (write_items_spec (Truncate wr1 S0) (varint_items (<[6%nat := flags]> hd)) Tw (varint_items_ok _ Hv))
    as [Hap Him]; [lia|]. rewrite Ep in Him. split_and!; [done|lia|lia| |].
  - pose proof (written_varints _ _ _ Hv ltac:(lia) Him) as Hy. by rewrite Hlen in Hy.
  - intros v Hv0 Hle. rewrite <- (list_lookup_insert_ne hd 6 0 flags) in Hv0 by lia. clear -Him Hv0 Hle.
    destruct (<[6%nat := flags]> hd) as [|v' hd']; [done|]. injection Hv0 as ->. destruct Him as [Hb _].
    unfold small_item in Hb. by replace (kVarintMax <? v) with false in Hb by lia.
Qed.

Lemma header_start :
  let wr := WriteInterleavedVarints (Truncate wr1 S0) (<[6%nat := flags]> hd) in
  write_ok m1 data S0 n (8 * src) wr /\ w_bit_offset wr <= S0 + 252 /\
  tracks m1 data (HashSet.data_ s1) (w_mem wr) (w_bit_offset wr) (S0 + c) (HashSet.data_ s1).
Proof.
  destruct (Truncate_spec wr1 S0) as (Tw & Td & Ts & To & Tm); [done|done|lia|lia|].
  destruct header_written as (Hap & Hh & _ & _). cbv zeta.
  set (wrT := Truncate wr1 S0) in *. set (wrH := WriteInterleavedVarints wrT (<[6%nat := flags]> hd)) in *.
  set (h := items_bits (varint_items (<[6%nat := flags]> hd))) in *. pose proof (ap_offset _ _ _ Hap) as Eo.
  assert (write_ok m1 data S0 n (8 * src) wrT) as HwT.
  { split; [done|congruence|done|lia|]. intros j Hj. by rewrite Tm, Hwm. }
  split_and!; [by eapply write_ok_appended; [done..|lia|lia]|lia|].
  apply Forall2_same_length_lookup. split; [done|]. intros p x x' Hx Hx'. rewrite Hx in Hx'. injection Hx' as <-.
  split; [done|]. intros Hz. pose proof (esz_range x).
  assert (has m1 data (HashSet.data_ s1) (Z.of_nat p) x) as Hhas by (apply has_lookup; (done || lia)).
  destruct (lo_new _ _ _ _ _ _ _ _ _ _ _ Hloop _ _ Hhas) as [Hold|Hfr].
  - specialize (Hbelow _ _ Hold). replace (S0 + c <=? epos x) with false by lia. split; [lia|].
    intros j Hj. rewrite (ap_frame _ _ _ Hap), Tm, Hwm; [done|]. left. unfold w_pos. lia.
  - destruct (positions_head table_columns l c) as [rest Er].
    pose proof (positions_ascending _ _ _ _ _ _ _ _ c (so_undeduped _ _ _ _ _ Hso) Hl ltac:(lia)) as Hasc.
    replace (c + (8 * src + n - (8 * src + c))) with n in Hasc by lia.
    pose proof (fresh_behind S0 n HS Hn _ _ _ _ _ _ c Hasc ltac:(by rewrite Er) Hfr).
    by replace (S0 + c <=? epos x) with true by lia.
Qed.

Lemma tables_accounted :
  accounted m1 data S0 (HashSet.data_ s1) flags 0 c (positions table_columns l c) entries.
Proof.
  intros p x Hx. destruct (lo_new _ _ _ _ _ _ _ _ _ _ _ Hloop _ _ Hx) as [Hold|Hfr]; [left|by right].
  specialize (Hbelow _ _ Hold). lia.
Qed.

Lemma rewrite_info_spec :
  exists wr s, rewrite_info hd region S0 flags (positions table_columns l c) entries wr1 s1 = Some (wr, s) /\
    copy_ok m1 data S0 src n hd (<[6%nat := flags]> hd) l s1 wr s.
Proof.
  destruct (Truncate_spec wr1 S0) as (Tw & Td & Ts & To & Tm); [done|done|lia|lia|].
  destruct header_written as (Hap & Hh & Hy & Hfl). destruct header_start as (HwH & HoH & HtH). unfold rewrite_info.
  set (wrT := Truncate wr1 S0) in *. set (wrH := WriteInterleavedVarints wrT (<[6%nat := flags]> hd)) in *.
  set (h := items_bits (varint_items (<[6%nat := flags]> hd))) in *. pose proof (ap_offset _ _ _ Hap) as Eo.
  assert (bytes_ok m1) as Hm1 by (rewrite <- Hwm; apply Hwr1). pose proof Hdata as Hdata'. unfold kPageSize in Hdata'.
  destruct (write_tables_spec m1 data S0 n (8 * src) region (HashSet.data_ s1) Hm1 ltac:(lia) HS Hn Hout Hcopy
    Hreg Hreg0 Hregn (8 * src) (default 0 (hd !! 6%nat)) flags 0 table_columns l c entries wrH s1)
    as (wr & s & k & lo & E & Hap2 & Hk & Ht & En & Eu & Hlo & Hcp & Hkp & Hrg); try done; try lia.
  { apply Hso. }
  { apply Hloop. }
  { simpl length. lia. }
  { apply Hloop. }
  { apply tables_accounted. }
  rewrite E. cbn [mbind option_bind]. simpl length in Hk.
  assert (write_ok m1 data S0 n (8 * src) wr) as Hwr by (eapply (write_ok_appended _ _ _ _ _ HS Hout wrH); [done|done|lia|lia]).
  pose proof (ap_offset _ _ _ Hap2) as Eo2.
  destruct (ByteAlign_spec wr (wo_wf _ _ _ _ _ _ Hwr)) as (Bw & Bm & Bd & Bs & Ba & Bo); [lia|].
  destruct (tracks_end m1 data (HashSet.data_ s1) (w_mem wr) (w_bit_offset wr) (S0 + n) s1 s) as [Hi Hb];
    try (done || lia || apply Hwr || apply Hloop).
  exists (ByteAlign wr), s. split; [done|]. pose proof (wo_data _ _ _ _ _ _ Hwr) as Ed.
  constructor; try rewrite Bm; try (done || lia || congruence).
  - by rewrite Bs, (wo_start _ _ _ _ _ _ Hwr).
  - intros j Hj. pose proof (appended_trans wrT wrH wr h k ltac:(lia) ltac:(lia) Hap Hap2) as Hap3.
    rewrite (ap_frame _ _ _ Hap3), Tm, Hwm; [done|]. unfold w_pos. rewrite (ww_size _ (ap_wf _ _ _ Hap3)).
    Z.div_mod_to_equations. lia.
  - rewrite <- (Forall2_length _ _ _ Ht). done.
  - intros p x Hx. specialize (Hb p x Hx). lia.
  - assert (8 * (data + S0 / 8) = 8 * data + S0) as Ea by (Z.div_mod_to_equations; lia).
    assert (w_pos wrH = 8 * data + S0 + h) as Ep by (unfold w_pos; rewrite (wo_data _ _ _ _ _ _ HwH); lia).
    exists lo, (w_pos wr). split_and!; [|unfold w_pos; lia|done|].
    2:{ eapply Forall2_impl; [exact Hrg|]. intros K [[q sh]|] Ho; [|done]. intros Hsh.
        destruct (Ho Hsh) as (p & x & x' & _ & _ & Hx' & ?). by exists (Z.to_nat p), x'. }
    exists h. rewrite Ea. split_and!; [| |lia].
    + eapply yields_agree; [|exact Hy]. intros j Hj. symmetry. apply Hap2. left. lia.
    + rewrite list_lookup_insert_eq by (rewrite (so_header _ _ _ _ _ Hso); lia). by rewrite <- Ep.
  - intros p x Hx Hz Hle. rewrite <- Hx. rewrite <- (Nat2Z.id p). apply (Hkp (Z.of_nat p) x); [by apply has_lookup|lia].
  - intros v Hv Hle _ j Hj. replace (8 * (data + S0 / 8)) with (8 * data + S0) by (Z.div_mod_to_equations; lia).
    rewrite <- (Hfl v Hv Hle j Hj). apply Hap2. left. unfold w_pos. rewrite (wo_data _ _ _ _ _ _ HwH). lia.
Qed.
End rewriting.

(** ** The check of the copy *)

Definition same_header (hd hd' : list Z) : Prop :=
  length hd' = 7%nat /\ (forall i, i <> 6%nat -> hd' !! i = hd !! i) /\
  (forall j, (j < 8)%nat -> HasBitTable (default 0 (hd' !! 6%nat)) j = HasBitTable (default 0 (hd !! 6%nat)) j).

Lemma same_header_fields hd hd' ts ts' :
  same_header hd hd' -> header_fields (code_info_of hd' ts') = header_fields (code_info_of hd ts).
Proof. intros (_ & Hi & _). unfold header_fields, code_info_of. simpl. by rewrite !Hi by lia. Qed.

Lemma bit_tables_code_info m hd ts l : Forall3 (table_read m) table_columns ts l -> bit_tables (code_info_of hd ts) = ts.
Proof.
  intros Hf. assert (length ts = 8%nat) as Hlen by (rewrite <- (Forall3_length_lm _ _ _ _ Hf); done).
  do 9 (destruct ts as [|? ts]; try done).
Qed.

(** Tables at places with equal bits have equal contents. *)
Lemma table_copied K m m' t t' o o' :
  table_is K t o -> table_is K t' o' -> copied m m' K o o' ->
  num_rows_ t' = num_rows_ t /\ column_offset_ t' = column_offset_ t /\
  IsValid (table_data_ t') = IsValid (table_data_ t) /\
  wf_region (table_data_ t) /\ wf_region (table_data_ t') /\
  bit_size_ (table_data_ t') = bit_size_ (table_data_ t) /\
  forall i, 0 <= i < bit_size_ (table_data_ t) -> rbit m (table_data_ t) i = rbit m' (table_data_ t') i.
Proof.
  destruct o as [[q sh]|], o' as [[q' sh']|]; try done.
  - intros (R & O & W & V & A & B & Hh) (R' & O' & W' & V' & A' & B' & _) [-> Hag].
    split_and!; try congruence; try done.
    + unfold IsValid. by rewrite (proj2 (Z.eqb_neq _ _) V), (proj2 (Z.eqb_neq _ _) V').
    + intros i Hi. unfold rbit. rewrite A, A', <- !Z.add_assoc. apply Hag. rewrite B in Hi.
      unfold sh_size. lia.
  - simpl. intros -> -> _. split_and!; try done. intros i Hi. simpl in Hi. lia.
Qed.

Lemma verify_tables_ok m flags flags' i columns ts ts' l lo :
  bytes_ok m -> Forall3 (table_read m) columns ts l -> Forall3 (table_read m) columns ts' lo ->
  Forall3 (copied m m) columns l lo -> (i + length columns <= 8)%nat ->
  (forall j, (j < 8)%nat -> HasBitTable flags' j = HasBitTable flags j) ->
  verify_tables m flags flags' i columns ts ts' = Some tt.
Proof.
  intros Hm Ht. revert i ts' lo. induction Ht as [|K t o columns ts l Ht Hts IH]; intros i ts' lo Ht' Hc Hi Hf; [done|].
  inversion Ht' as [|? t' o' ? ts2 lo2 Hto' Hts']; subst. inversion Hc as [|? ? ? ? ? ? Hco Hcs]; subst.
  cbn [verify_tables length] in *.
  destruct (table_copied K m m t t' o o') as (R & O & _ & W & W' & B & Hbits); [by eapply table_read_is..|done|].
  rewrite Hf by lia. rewrite eqb_reflx. cbn [DCHECK mbind option_bind].
  assert (TableEquals K m t t' = true) as ->.
  { unfold TableEquals. rewrite R, O, Z.eqb_refl, bool_decide_eq_true_2 by done. cbn [andb]. by apply Equals_spec. }
  cbn [DCHECK mbind option_bind]. apply (IH (S i) ts2 lo2); try done. lia.
Qed.

Lemma verify_dedupe_ok m L L' src copy hd hd' l lo e e' :
  bytes_ok m -> 8 * kPageSize <= L -> 8 * kPageSize <= L' -> kPageSize <= src < 2 ^ 57 ->
  kPageSize <= copy < 2 ^ 57 -> e < 2 ^ 58 -> e' < 2 ^ 58 ->
  info_at m L src hd l e -> info_at m L' copy hd' lo e' -> same_header hd hd' ->
  Forall3 (copied m m) table_columns l lo -> verify_dedupe m src copy = Some tt.
Proof.
  intros Hm HL HL' Hs Hc He He' Hi Hi' Hh Hcp.
  destruct (DecodeCodeInfo_at m L src hd l e Hm HL Hs He Hi) as (ts & E & Hts).
  destruct (DecodeCodeInfo_at m L' copy hd' lo e' Hm HL' Hc He' Hi') as (ts' & E' & Hts').
  unfold verify_dedupe. rewrite E, E'. cbn [fst]. rewrite bool_decide_eq_true_2 by (symmetry; by apply same_header_fields).
  cbn [DCHECK mbind option_bind].
  rewrite (bit_tables_code_info m hd ts l Hts), (bit_tables_code_info m hd' ts' lo Hts').
  eapply verify_tables_ok; try done. apply Hh.
Qed.

(** ** One call *)

(** The code info at [copy] in [m] has the contents of the one at [src] in [m0], and all of it is in
    the output between [data] and bit [limit]. The entries [d] know its tables. *)
Definition is_copy (m0 : memory) (src : Z) (m : memory) (data : Z) (d : list DedupeSetEntry) (copy limit : Z) : Prop :=
  exists hd l hd' lo e, source_at m0 src (source_bits m0 src) hd l /\ info_at m (8 * data) copy hd' lo e /\
    e <= limit /\ same_header hd hd' /\ Forall3 (copied m0 m) table_columns l lo /\ same_flags m0 src m copy hd /\
    Forall2 (large_entered data d) table_columns lo.

Lemma source_at_frame m m' src n hd l :
  source_at m src n hd l -> (forall j, 8 * src <= j < 8 * src + n -> mbit m' j = mbit m j) -> source_at m' src n hd l.
Proof. intros [] Hf. constructor; try done. by eapply info_frame. Qed.

(** The set is not affected by what is written behind its entries. *)
Lemma inv_frame m m' data s limit :
  0 <= data < 2 ^ 57 -> bytes_ok m -> bytes_ok m' -> @inv _ (DedupeSet m data) s ->
  below m data (HashSet.data_ s) limit -> (forall j, j < 8 * data + limit -> mbit m' j = mbit m j) ->
  @inv _ (DedupeSet m' data) s.
Proof.
  intros Hd Hm Hm' Hi Hb Hf. apply (set_moved data Hd m m' s s); try done.
  apply Forall2_same_length_lookup. split; [done|]. intros p x x' Hx Hx'. rewrite Hx in Hx'. injection Hx' as <-.
  split; [done|]. intros j Hj. rewrite Hf; [done|].
  enough (epos x + esz x <= limit) by lia. apply (Hb (Z.of_nat p)). apply has_lookup; (done || lia).
Qed.

Lemma positions_copied m m' columns l lo a :
  Forall3 (copied m m') columns l lo -> positions columns lo a = positions columns l a.
Proof.
  intros Hc. revert a. induction Hc as [|K o o' columns l lo Ho Hc IH]; intros a; [done|]. cbn [positions]. f_equal.
  destruct o as [[q sh]|], o' as [[q' sh']|]; try done. destruct Ho as [-> _]. apply IH.
Qed.

(** Tables that stay where they were inserted. *)
Lemma found_entered m1 data S0 n d flags flags0 m L i columns lo a e entries :
  0 <= S0 -> S0 + n < 2 ^ 32 -> 0 <= a -> e <= 8 * data + S0 + n -> undeduped flags0 -> undeduped flags ->
  (forall j, (j < 8)%nat -> HasBitTable flags j = HasBitTable flags0 j) -> (i + length columns <= 8)%nat ->
  layout m L flags0 i columns (8 * data + S0 + a) lo e -> found m1 data S0 d flags i (positions columns lo a) entries ->
  Forall2 (large_entered data d) columns lo.
Proof.
  intros HS Hn Ha He Hu0 Hu Hh Hi Hl. remember (8 * data + S0 + a) as p eqn:Ep. revert a entries Ha Ep Hi He.
  induction Hl as [i p|i K columns p lo e Hf Hl IH|i K columns p sh lo e Hf Hd Hs Hl IH
    |i K columns p d0 c sh lo e Hf Hdd]; intros a entries Ha -> Hi He Hfd; cbn [length] in Hi.
  - constructor.
  - constructor; [done|]. cbn [positions] in Hfd. destruct (positions_head columns lo a) as [rest Er]. rewrite Er in Hfd.
    destruct entries as [|entry entries]; [done|]. destruct Hfd as [_ Hfd]. rewrite <- Er in Hfd.
    apply (IH a entries); (done || lia).
  - pose proof (shape_size _ _ _ _ Hs). pose proof (layout_le _ _ _ _ _ _ _ _ Hl). cbn [positions] in Hfd.
    destruct (positions_head columns lo (a + sh_size K sh)) as [rest Er]. rewrite Er in Hfd.
    destruct entries as [|entry entries]; [done|]. destruct Hfd as [Hfe Hfd]. rewrite <- Er in Hfd.
    constructor; [|apply (IH (a + sh_size K sh) entries); (done || lia)]. intros Hlarge.
    unfold found_entry, large in Hfe. rewrite Hh, Hf, Hu in Hfe by lia.
    replace (kMinDedupSize <=? a + sh_size K sh - a) with true in Hfe by lia.
    destruct Hfe as (slot & x & _ & _ & Hx & _ & _ & ->). exists (Z.to_nat slot), (table_entry S0 a (a + sh_size K sh)).
    destruct (table_entry_range S0 n HS Hn a (a + sh_size K sh)) as [E1 E2]; [lia|lia|]. split_and!; [done|lia|lia].
  - by rewrite Hu0 in Hdd.
Qed.

(** Without equal tables the copy of the source stays. *)
Lemma plain_copy_ok m1 data S0 n c src hd l wr1 s1 flags entries :
  w_mem wr1 = m1 -> kPageSize <= data < 2 ^ 54 -> 0 <= S0 -> S0 mod 8 = 0 -> wf_writer wr1 -> w_data wr1 = data ->
  w_bit_start wr1 = 0 -> w_bit_offset wr1 = S0 + 8 * ((n + 7) / 8) ->
  agree m1 (8 * src) m1 (8 * data + S0) n -> source_at m1 src n hd l -> 28 <= c <= n ->
  yields (ReadInterleavedVarints kNumHeaders) 252 m1 (8 * src) c hd ->
  layout m1 (8 * src) (default 0 (hd !! 6%nat)) 0 table_columns (8 * src + c) l (8 * src + n) ->
  @inv _ (DedupeSet m1 data) s1 -> below m1 data (HashSet.data_ s1) (S0 + n) -> S0 + n < 2 ^ 32 ->
  HasDedupedBitTables flags = false ->
  (forall j, (j < 8)%nat -> HasBitTable flags j = HasBitTable (default 0 (hd !! 6%nat)) j) ->
  found m1 data S0 (HashSet.data_ s1) flags 0 (positions table_columns l c) entries ->
  copy_ok m1 data S0 src n hd hd l s1 wr1 s1.
Proof.
  intros Hwm Hd HS HSal Hw Hwd Hws Hwo Hag Hso Hc Hy Hl Hi Hb Hn Hfl Hhas Hfd. pose proof (so_size _ _ _ _ _ Hso).
  constructor; try rewrite Hwm; try (done || (Z.div_mod_to_equations; lia)).
  - intros p x Hx. specialize (Hb p x Hx). Z.div_mod_to_equations. lia.
  - destruct (layout_move m1 m1 (8 * src) (8 * data) _ 0 table_columns (8 * src + c) (8 * data + S0 + c) l (8 * src + n)
      (so_undeduped _ _ _ _ _ Hso) Hl) as (lo & Hlo & Hcp); [apply (agree_sub _ _ _ _ _ _ _ Hag); lia|].
    assert (8 * (data + S0 / 8) = 8 * data + S0) as Ea by (Z.div_mod_to_equations; lia).
    replace (8 * data + S0 + c + (8 * src + n - (8 * src + c))) with (8 * data + S0 + n) in Hlo by lia.
    rewrite <- (positions_copied _ _ _ _ _ c Hcp) in Hfd.
    exists lo, (8 * data + S0 + n). split_and!; [|unfold w_pos; Z.div_mod_to_equations; lia|done|].
    2:{ apply (found_entered m1 data S0 n _ flags (default 0 (hd !! 6%nat)) m1 (8 * data) 0 _ _ c (8 * data + S0 + n) entries);
        try (done || lia || apply Hso). intros j. by apply HasDedupedBitTables_false. }
    exists c. rewrite Ea. split_and!; [eapply yields_agree; [|done]; eapply agree_le; [done|lia]|done|lia].
  - intros v _ _ Hbits j Hj. replace (8 * (data + S0 / 8)) with (8 * data + S0) by (Z.div_mod_to_equations; lia).
    rewrite <- Hag by lia. by apply Hbits.
Qed.

Record dedupe_ok (d : CodeInfoTableDeduper) (src n : Z) (d' : CodeInfoTableDeduper) : Prop := {
  dd_ok : deduper_ok d';
  dd_data : w_data (writer_ d') = w_data (writer_ d);
  dd_offset : w_bit_offset (writer_ d') <= w_bit_offset (writer_ d) + n + 512;
  dd_frame j : j < w_pos (writer_ d) \/ 8 * w_data (writer_ d) + 2 ^ 32 <= j ->
    mbit (w_mem (writer_ d')) j = mbit (w_mem (writer_ d)) j;
  dd_entered : keeps_entered (w_data (writer_ d)) (HashSet.data_ (dedupe_set_ d)) (HashSet.data_ (dedupe_set_ d'));
  dd_copy : is_copy (w_mem (writer_ d)) src (w_mem (writer_ d')) (w_data (writer_ d)) (HashSet.data_ (dedupe_set_ d'))
    (w_data (writer_ d) + w_bit_offset (writer_ d) / 8) (w_pos (writer_ d')) }.

(** The state in which the tables are inserted: the copy of the source is in the output. *)
Record source_copied (d : CodeInfoTableDeduper) (src n c : Z) (hd : list Z) (l : list (option (Z * Shape)))
    (s0 : HashSet DedupeSetEntry) (wr1 : BitMemoryWriter) : Prop := {
  sc_wf : wf_writer wr1;
  sc_data : w_data wr1 = w_data (writer_ d);
  sc_start : w_bit_start wr1 = 0;
  sc_offset : w_bit_offset wr1 = w_bit_offset (writer_ d) + 8 * ((n + 7) / 8);
  sc_frame j : j < w_pos (writer_ d) \/ 8 * w_data (writer_ d) + 2 ^ 32 <= j ->
    mbit (w_mem wr1) j = mbit (w_mem (writer_ d)) j;
  sc_source j : 8 * src <= j < 8 * src + n -> mbit (w_mem wr1) j = mbit (w_mem (writer_ d)) j;
  sc_copy : agree (w_mem wr1) (8 * src) (w_mem wr1) (8 * w_data (writer_ d) + w_bit_offset (writer_ d)) n;
  sc_at : source_at (w_mem wr1) src n hd l;
  sc_yields : yields (ReadInterleavedVarints kNumHeaders) 252 (w_mem wr1) (8 * src) c hd;
  sc_layout : layout (w_mem wr1) (8 * src) (default 0 (hd !! 6%nat)) 0 table_columns (8 * src + c) l (8 * src + n);
  sc_inv : @inv _ (DedupeSet (w_mem wr1) (w_data (writer_ d))) s0 }.

Lemma copy_source_ok d s0 src n c hd l :
  deduper_ok (Deduper (writer_ d) s0) -> w_bit_offset (writer_ d) + n + 512 < 2 ^ 32 ->
  8 * src + n <= 8 * w_data (writer_ d) \/ 8 * w_data (writer_ d) + 2 ^ 32 <= 8 * src ->
  source_at (w_mem (writer_ d)) src n hd l -> 28 <= c <= n ->
  yields (ReadInterleavedVarints kNumHeaders) 252 (w_mem (writer_ d)) (8 * src) c hd ->
  layout (w_mem (writer_ d)) (8 * src) (default 0 (hd !! 6%nat)) 0 table_columns (8 * src + c) l (8 * src + n) ->
  exists wr1, copy_source (writer_ d) src (BitsToBytesRoundUp n) = Some wr1 /\ source_copied d src n c hd l s0 wr1.
Proof.
  intros [Hw Hst Hal Hdt Hi _ _ _ Hbl] Hn Hout Hso Hc Hy Hl. cbn [writer_ dedupe_set_] in *. unfold kPageSize in Hdt.
  pose proof (so_size _ _ _ _ _ Hso). pose proof (ww_start _ Hw). rewrite BitsToBytesRoundUp_val by lia.
  assert (n <= 8 * ((n + 7) / 8) <= n + 7) as Hlen by (Z.div_mod_to_equations; lia).
  destruct (copy_source_spec (writer_ d) src ((n + 7) / 8)) as (wr1 & E & W1 & D1 & B1 & O1 & F1 & A1); try (done || lia).
  exists wr1. split; [done|]. unfold w_pos in *.
  assert (forall j, 8 * src <= j < 8 * src + n -> mbit (w_mem wr1) j = mbit (w_mem (writer_ d)) j) as Hsrc
    by (intros j Hj; apply F1; lia).
  assert (agree (w_mem wr1) (8 * src) (w_mem wr1) (8 * w_data (writer_ d) + w_bit_offset (writer_ d)) n) as Hag.
  { intros j Hj. rewrite Hsrc by lia. apply A1. lia. }
  constructor; try done.
  - intros j Hj. apply F1. unfold w_pos in Hj. lia.
  - by eapply source_at_frame.
  - eapply yields_agree; [|done]. intros j Hj. symmetry. apply Hsrc. lia.
  - eapply layout_frame; [done|lia|]. intros j Hj. apply Hsrc. lia.
  - eapply (inv_frame (w_mem (writer_ d))); try done; [lia|apply Hw|apply W1|]. intros j Hj. apply F1. lia.
Qed.

(** Both ways to end: the copy stays, or the code info is written again. *)
Lemma dedupe_branch d src n c hd l s0 s1 wr1 flags entries region :
  deduper_ok (Deduper (writer_ d) s0) -> w_bit_offset (writer_ d) + n + 512 < 2 ^ 32 ->
  8 * src + n <= 8 * w_data (writer_ d) \/ 8 * w_data (writer_ d) + 2 ^ 32 <= 8 * src ->
  source_copied d src n c hd l s0 wr1 -> 28 <= c <= n ->
  wf_region region -> abs_start region = 8 * src -> bit_size_ region = n ->
  loop_ok (w_mem wr1) (w_data (writer_ d)) (w_bit_offset (writer_ d)) n 0 (positions table_columns l c) s0 s1
    (default 0 (hd !! 6%nat)) flags entries ->
  exists hd' wr s, (if HasDedupedBitTables flags
      then rewrite_info hd region (w_bit_offset (writer_ d)) flags (positions table_columns l c) entries wr1 s1
      else Some (wr1, s1)) = Some (wr, s) /\ same_header hd hd' /\
    copy_ok (w_mem wr1) (w_data (writer_ d)) (w_bit_offset (writer_ d)) src n hd hd' l s1 wr s.
Proof.
  intros Hd Hn Hout Hsc Hc Hr Hr0 Hrn Hloop. destruct Hd as [Hw Hst Hal Hdt Hi _ _ _ Hbl]. cbn [writer_ dedupe_set_] in *.
  pose proof (ww_start _ Hw). pose proof Hsc as [W1 D1 B1 O1 F1 Fs Hcp Hso Hy Hl Hi1].
  pose proof (so_header _ _ _ _ _ Hso) as Hlen. pose proof (so_size _ _ _ _ _ Hso).
  destruct (HasDedupedBitTables flags) eqn:Hfl.
  - destruct (rewrite_info_spec (w_mem wr1) (w_data (writer_ d)) (w_bit_offset (writer_ d)) n c src region hd l wr1 s0 s1
      flags entries) as (wr & s & E & Hco); try done; try lia; [Z.div_mod_to_equations; lia|].
    exists (<[6%nat := flags]> hd), wr, s. split_and!; try done. split_and!.
    + by rewrite length_insert.
    + intros i Hi'. by rewrite list_lookup_insert_ne.
    + rewrite list_lookup_insert_eq by lia. apply Hloop.
  - exists hd, wr1, s1. split_and!; try done. eapply plain_copy_ok; try done; [lia|apply Hloop|apply Hloop|lia|..]; apply Hloop.
Qed.

Lemma copy_ok_verified d s0 src n c hd hd' l s1 wr1 wr s :
  deduper_ok (Deduper (writer_ d) s0) -> w_bit_offset (writer_ d) + n + 512 < 2 ^ 32 -> kPageSize <= src < 2 ^ 54 ->
  8 * src + n <= 8 * w_data (writer_ d) \/ 8 * w_data (writer_ d) + 2 ^ 32 <= 8 * src ->
  source_copied d src n c hd l s0 wr1 -> 28 <= c <= n -> same_header hd hd' ->
  copy_ok (w_mem wr1) (w_data (writer_ d)) (w_bit_offset (writer_ d)) src n hd hd' l s1 wr s ->
  verify_dedupe (w_mem wr) src (w_data wr + w_bit_offset (writer_ d) / 8) = Some tt /\
  exists lo e, info_at (w_mem wr) (8 * w_data (writer_ d)) (w_data (writer_ d) + w_bit_offset (writer_ d) / 8) hd' lo e /\
    e <= w_pos wr /\ Forall3 (copied (w_mem (writer_ d)) (w_mem wr)) table_columns l lo /\
    same_flags (w_mem (writer_ d)) src (w_mem wr) (w_data (writer_ d) + w_bit_offset (writer_ d) / 8) hd /\
    Forall2 (large_entered (w_data (writer_ d)) (HashSet.data_ s)) table_columns lo.
Proof.
  intros [Hw _ _ Hdt _ _ _ _ _] Hn Hs Hout Hsc Hc Hh Hco. cbn [writer_] in *. unfold kPageSize in Hdt, Hs.
  pose proof (ww_start _ Hw). pose proof (co_offset _ _ _ _ _ _ _ _ _ _ _ Hco). pose proof (sc_at _ _ _ _ _ _ _ _ Hsc) as Hso.
  destruct (co_info _ _ _ _ _ _ _ _ _ _ _ Hco) as (lo & e & Hi & He & Hcp & Hen).
  assert (forall j, 8 * src <= j < 8 * src + n -> mbit (w_mem wr) j = mbit (w_mem wr1) j) as Hsrc
    by (intros j Hj; apply Hco; lia).
  pose proof (co_data _ _ _ _ _ _ _ _ _ _ _ Hco) as Ed. unfold w_pos in *.
  pose proof (Z.div_pos (w_bit_offset (writer_ d)) 8 ltac:(lia) ltac:(lia)).
  pose proof (Z.div_le_upper_bound (w_bit_offset (writer_ d)) 8 (2 ^ 32) ltac:(lia) ltac:(lia)).
  split.
  - rewrite Ed. eapply (verify_dedupe_ok (w_mem wr) (8 * src) (8 * w_data (writer_ d)) src _ hd hd' l lo (8 * src + n) e);
      try done; try (unfold kPageSize; lia); [apply Hco| |].
    + eapply info_frame; [apply Hso|lia|done].
    + eapply (copied_source (w_mem wr) (w_mem wr1)); [apply Hso|apply Hsc| |done]. intros j Hj. apply Hsrc. lia.
  - exists lo, e. split_and!; try done.
    + eapply (copied_source _ (w_mem wr1)); [apply Hso|apply Hsc| |done].
      intros j Hj. symmetry. eapply sc_source; [done|lia].
    + intros v Hv Hle Hbits. apply (co_flags _ _ _ _ _ _ _ _ _ _ _ Hco v Hv Hle). intros j Hj. rewrite <- Hbits by done.
      pose proof (so_size _ _ _ _ _ Hso). eapply sc_source; [done|lia].
Qed.

Lemma small_undeduped flags : is_u 8 flags -> HasDedupedBitTables flags = false.
Proof.
  unfold HasDedupedBitTables, kNumBitTables. intros [H1 H2]. rewrite Z.shiftr_div_pow2 by lia.
  by rewrite Z.div_small by (simpl; lia).
Qed.

(** The set and the writer after the call. *)
Lemma copy_ok_deduper d s0 src n c hd hd' l s1 wr1 wr s flags entries :
  deduper_ok (Deduper (writer_ d) s0) -> source_copied d src n c hd l s0 wr1 -> length (positions table_columns l c) = 9%nat ->
  loop_ok (w_mem wr1) (w_data (writer_ d)) (w_bit_offset (writer_ d)) n 0 (positions table_columns l c) s0 s1
    (default 0 (hd !! 6%nat)) flags entries ->
  copy_ok (w_mem wr1) (w_data (writer_ d)) (w_bit_offset (writer_ d)) src n hd hd' l s1 wr s ->
  deduper_ok (Deduper wr s) /\ w_bit_offset wr <= w_bit_offset (writer_ d) + n + 512 /\
  (forall j, j < w_pos (writer_ d) \/ 8 * w_data (writer_ d) + 2 ^ 32 <= j -> mbit (w_mem wr) j = mbit (w_mem (writer_ d)) j) /\
  keeps_entered (w_data (writer_ d)) (HashSet.data_ s0) (HashSet.data_ s).
Proof.
  intros [Hw _ _ Hdt _ Hu Hc Hb Hbl] Hsc Hlen [_ Hnum Hu1 Hl1 _ Hk1 _ _ _ _ _] [W D B A O F I N U L Bl _ Hk _].
  cbn [writer_ dedupe_set_] in *. rewrite Hlen in Hnum. split_and!; [|lia|..].
  - assert (NumBuckets (HashSet.data_ s) = NumBuckets (HashSet.data_ s0)) as Eb by (unfold NumBuckets; by rewrite L, Hl1).
    constructor; cbn [writer_ dedupe_set_]; try (done || lia); try by rewrite D. by rewrite Eb, U, Hu1, Hu.
  - intros j Hj. rewrite F by (unfold w_pos in Hj; lia). by eapply sc_frame.
  - intros q size Hsz (p & x & Hx & Es & Eq). assert (0 < esz x) as Hz by lia. exists p, x. split_and!; try done.
    apply Hk; [|done|].
    + destruct (Hk1 (Z.of_nat p) x) as (_ & Hx1 & _); [by apply has_lookup|].
      unfold ElementForIndex in Hx1. by rewrite Nat2Z.id in Hx1.
    + apply (Hbl (Z.of_nat p) x). by apply has_lookup.
Qed.

Lemma bind_eq {A B} (o : option A) (f : A -> option B) x r : o = Some x -> f x = r -> o ≫= f = r.
Proof. by intros ->. Qed.

#[local] Opaque DecodeCodeInfo verify_dedupe insert_tables bit_table_bit_starts rewrite_info copy_source reserve_tables
  ReadInterleavedVarints MakeReaderAt BitsToBytesRoundUp HasDedupedBitTables positions Z.modulo Z.div uN.

(** Up to the insertion of the tables. *)
Lemma Dedupe_prepared d src n :
  n = source_bits (w_mem (writer_ d)) src -> deduper_ok d ->
  source_ok (w_mem (writer_ d)) (w_data (writer_ d)) src -> 0 <= n ->
  w_bit_offset (writer_ d) + n + 512 < 2 ^ 32 ->
  exists c hd l rd1 rd2 s0 wr1 s1 flags entries,
    source_at (w_mem (writer_ d)) src n hd l /\ 28 <= c <= n /\
    reserve_tables d = Some s0 /\ deduper_ok (Deduper (writer_ d) s0) /\
    keeps_entered (w_data (writer_ d)) (HashSet.data_ (dedupe_set_ d)) (HashSet.data_ s0) /\
    ReadInterleavedVarints kNumHeaders (w_mem (writer_ d)) (MakeReaderAt src 0) = (hd, rd1) /\
    bit_table_bit_starts (w_mem (writer_ d)) (default 0 (hd !! 6%nat)) 0 table_columns rd1 =
      Some (positions table_columns l c, rd2) /\
    (wf_region (GetReadRegion rd2) /\ abs_start (GetReadRegion rd2) = 8 * src /\ bit_size_ (GetReadRegion rd2) = n) /\
    copy_source (writer_ d) src (BitsToBytesRoundUp n) = Some wr1 /\ source_copied d src n c hd l s0 wr1 /\
    insert_tables (w_mem wr1) (w_data (writer_ d)) (w_bit_offset (writer_ d)) 0 (positions table_columns l c) s0
      (default 0 (hd !! 6%nat)) = Some (s1, flags, entries) /\
    length (positions table_columns l c) = 9%nat /\
    loop_ok (w_mem wr1) (w_data (writer_ d)) (w_bit_offset (writer_ d)) n 0 (positions table_columns l c) s0 s1
      (default 0 (hd !! 6%nat)) flags entries.
Proof.
  intros En Hd Hs Hb Hn. pose proof (do_wf _ Hd) as Hw. pose proof (ww_start _ Hw). pose proof (ww_ok _ Hw) as Hm.
  destruct (source_info _ _ _ Hm Hs) as (hd & l & Hso); [lia|]. rewrite <- En in Hso.
  assert (kPageSize <= src < 2 ^ 54 /\ (8 * src + n <= 8 * w_data (writer_ d) \/
    8 * w_data (writer_ d) + 2 ^ 32 <= 8 * src)) as [Hsr Hout].
  { rewrite En. unfold source_ok, source_bits in *. destruct (DecodeCodeInfo _ _). cbn [snd]. tauto. }
  destruct (reserve_tables_spec d Hd) as (s0 & Er & Hd0 & En0 & Hroom & Hk0); [lia|].
  destruct (read_source _ src n hd l Hm Hsr Hso) as (c & rd1 & rd2 & E1 & E2 & Wr & Ar & Sr & Hy & Hl & Hc); [lia|].
  destruct (copy_source_ok d s0 src n c hd l) as (wr1 & E3 & Hsc); try done.
  pose proof (so_undeduped _ _ _ _ _ Hso) as Hu. pose proof (do_data _ Hd) as Hdt. unfold kPageSize in Hdt.
  destruct (positions_head table_columns l c) as [rest Ep].
  assert (length (positions table_columns l c) = 9%nat) as Hlen by apply (positions_length _ _ _ _ _ _ _ _ c Hl).
  pose proof (positions_ascending _ _ _ _ _ _ _ _ c Hu Hl ltac:(lia)) as Hasc.
  replace (c + (8 * src + n - (8 * src + c))) with n in Hasc by lia.
  destruct (insert_tables_spec (w_mem wr1) (w_data (writer_ d)) (w_bit_offset (writer_ d)) n
    (ww_ok _ (sc_wf _ _ _ _ _ _ _ _ Hsc)) ltac:(lia) ltac:(lia) ltac:(lia) (positions table_columns l c) 0 s0
    (default 0 (hd !! 6%nat))) as (s1 & flags & entries & E4 & Hloop); try done.
  { apply Hsc. }
  { rewrite Hlen. lia. }
  { by rewrite Ep. }
  { rewrite Ep. intros p x Hx. pose proof (do_below _ Hd0 p x Hx) as Hle.
    cbn [writer_ head default from_option] in Hle |- *. unfold id. lia. }
  { pose proof (so_flags _ _ _ _ _ Hso). unfold is_u in *. lia. }
  by exists c, hd, l, rd1, rd2, s0, wr1, s1, flags, entries.
Qed.

Lemma Dedupe_spec d src :
  deduper_ok d -> source_ok (w_mem (writer_ d)) (w_data (writer_ d)) src ->
  0 <= source_bits (w_mem (writer_ d)) src ->
  w_bit_offset (writer_ d) + source_bits (w_mem (writer_ d)) src + 512 < 2 ^ 32 ->
  exists d', Dedupe src d = Some (w_bit_offset (writer_ d) / 8, d') /\
    dedupe_ok d src (source_bits (w_mem (writer_ d)) src) d'.
Proof.
  intros Hd Hs Hb Hn. remember (source_bits (w_mem (writer_ d)) src) as n eqn:En.
  destruct (Dedupe_prepared d src n En Hd Hs Hb Hn) as (c & hd & l & rd1 & rd2 & s0 & wr1 & s1 & flags & entries &
    Hso & Hc & E0 & Hd0 & Hk0 & E1 & E2 & (Wr & Ar & Sr) & E3 & Hsc & E4 & Hlen & Hloop).
  assert (kPageSize <= src < 2 ^ 54 /\ (8 * src + n <= 8 * w_data (writer_ d) \/
    8 * w_data (writer_ d) + 2 ^ 32 <= 8 * src)) as [Hsr Hout].
  { rewrite En. unfold source_ok, source_bits in *. destruct (DecodeCodeInfo _ _). cbn [snd]. tauto. }
  destruct (dedupe_branch d src n c hd l s0 s1 wr1 flags entries (GetReadRegion rd2)) as (hd' & wr & s & E5 & Hh & Hco); try done.
  destruct (copy_ok_verified d s0 src n c hd hd' l s1 wr1 wr s) as [E6 (lo & e & Hi & He & Hcp & Hfl & Hen)]; try done.
  destruct (copy_ok_deduper d s0 src n c hd hd' l s1 wr1 wr s flags entries) as (Hok & Ho & Hf & Hk); try done.
  pose proof (ww_start _ (do_wf _ Hd)). exists (Deduper wr s). split.
  - assert (NumberOfWrittenBits (writer_ d) = w_bit_offset (writer_ d)) as Ew.
    { unfold NumberOfWrittenBits. rewrite (do_start _ Hd), Z.sub_0_r. apply uN_small. unfold is_u. lia. }
    unfold Dedupe. cbv zeta. rewrite Ew, E1.
    apply (bind_eq _ _ tt); [by unfold kBitsPerByte; rewrite (do_aligned _ Hd)|]. apply (bind_eq _ _ s0 _ E0). cbv beta iota.
    apply (bind_eq _ _ tt); [by rewrite small_undeduped by apply Hso|]. apply (bind_eq _ _ _ _ E2). cbv beta iota.
    apply (bind_eq _ _ wr1); [unfold size_in_bits; by rewrite Sr|].
    apply (bind_eq _ _ (s1, flags, entries)); [by rewrite (sc_data _ _ _ _ _ _ _ _ Hsc)|]. cbv beta iota.
    apply (bind_eq _ _ tt); [by rewrite (lo_until _ _ _ _ _ _ _ _ _ _ _ Hloop), Z.eqb_refl|].
    apply (bind_eq _ _ _ _ E5). cbv beta iota. by apply (bind_eq _ _ tt _ E6).
  - constructor; cbn [writer_]; try done; [apply Hco| |].
    + intros q size Hz Hq. apply Hk; [done|]. by apply Hk0.
    + exists hd, l, hd', lo, e. by rewrite <- En.
Qed.

(** ** Any number of calls *)

(** The bits outside of the memory that an output at [data] can grow into. *)
Definition outside (data j : Z) : Prop := j < 8 * data \/ 8 * data + 2 ^ 32 <= j.

Lemma source_ok_frame m m' output src :
  bytes_ok m -> bytes_ok m' -> source_ok m output src -> 0 <= source_bits m src < 2 ^ 33 ->
  (forall j, outside output j -> mbit m' j = mbit m j) ->
  source_ok m' output src /\ source_bits m' src = source_bits m src /\
  forall j, 8 * src <= j < 8 * src + source_bits m src -> mbit m' j = mbit m j.
Proof.
  intros Hm Hm' Hs Hb Hf. destruct (source_info m output src Hm Hs Hb) as (hd & l & Hso).
  assert (kPageSize <= src < 2 ^ 54 /\ HasDedupedBitTables (bit_table_flags_ (DecodeCodeInfo m src).1) = false /\
    (8 * src + source_bits m src <= 8 * output \/ 8 * output + 2 ^ 32 <= 8 * src)) as (Hsr & Hd & Hout).
  { unfold source_ok, source_bits in *. destruct (DecodeCodeInfo m src). cbn [fst snd]. tauto. }
  assert (forall j, 8 * src <= j < 8 * src + source_bits m src -> mbit m' j = mbit m j) as Hsrc
    by (intros j Hj; apply Hf; unfold outside; lia).
  pose proof (source_at_frame _ m' _ _ _ _ Hso Hsrc) as Hso'. unfold kPageSize in Hsr.
  destruct (DecodeCodeInfo_at m (8 * src) src hd l (8 * src + source_bits m src)) as (ts & E & _);
    try done; try (unfold kPageSize; lia); [apply Hso|].
  destruct (DecodeCodeInfo_at m' (8 * src) src hd l (8 * src + source_bits m src)) as (ts' & E' & _);
    try done; try (unfold kPageSize; lia); [apply Hso'|].
  assert (source_bits m' src = source_bits m src) as En by (unfold source_bits at 1; rewrite E'; cbn [snd]; lia).
  split_and!; try done. unfold source_ok. rewrite E'. rewrite E in Hd. cbn [fst] in Hd.
  unfold kPageSize. split_and!; try (done || lia).
Qed.

(** Code infos in the output stay where they are. *)
Lemma copied_frame m0 m m' L flags i columns p l lo e :
  layout m L flags i columns p lo e -> L <= p -> (forall j, L <= j < e -> mbit m' j = mbit m j) ->
  Forall3 (copied m0 m) columns l lo -> Forall3 (copied m0 m') columns l lo.
Proof.
  intros Hl. revert l. induction Hl as [i p|i K columns p lo e Hf Hl IH|i K columns p sh lo e Hf Hd Hs Hl IH
    |i K columns p d c sh lo e Hf Hdd Hd Hy Hs HL Hle Hl IH]; intros l Hp Hfr Hc;
    inversion Hc as [|? o ? ? l' ? Hco Hcs]; subst; constructor; try done; try (apply IH; try done).
  - pose proof (layout_le _ _ _ _ _ _ _ _ Hl). destruct o as [[q sh']|]; [|done]. destruct Hco as [-> Hag].
    split; [done|]. eapply agree_trans; [exact Hag|]. intros j Hj. rewrite Hfr; [done|lia].
  - pose proof (shape_size _ _ _ _ Hs). lia.
  - pose proof (layout_le _ _ _ _ _ _ _ _ Hl). destruct (proj1 Hy). destruct o as [[q sh']|]; [|done]. destruct Hco as [-> Hag].
    split; [done|]. eapply agree_trans; [exact Hag|]. intros j Hj. rewrite Hfr; [done|lia].
  - destruct (proj1 Hy). lia.
Qed.

Lemma is_copy_frame m0 src m m' data d d' copy limit limit' :
  is_copy m0 src m data d copy limit -> data <= copy -> limit <= limit' -> keeps_entered data d d' ->
  (forall j, 8 * data <= j < limit -> mbit m' j = mbit m j) -> is_copy m0 src m' data d' copy limit'.
Proof.
  intros (hd & l & hd' & lo & e & Hso & Hi & He & Hh & Hcp & Hfl & Hen) Hc Hlim Hk Hf. exists hd, l, hd', lo, e.
  assert (info_at m' (8 * data) copy hd' lo e) as Hi' by (eapply info_frame; [done|lia|intros j Hj; apply Hf; lia]).
  destruct Hi as (c & Hy & Hl & Hc4). destruct (proj1 Hy). pose proof (layout_le _ _ _ _ _ _ _ _ Hl).
  split_and!; try (done || lia).
  - eapply copied_frame; [exact Hl|lia|intros j Hj; apply Hf; lia|done].
  - intros v Hv Hle Hb j Hj. rewrite <- (Hfl v Hv Hle Hb j Hj). apply Hf. lia.
  - by eapply large_entered_keeps.
Qed.

Lemma is_copy_source m0 m1 src m data d copy limit :
  is_copy m1 src m data d copy limit -> source_bits m0 src = source_bits m1 src ->
  (forall j, 8 * src <= j < 8 * src + source_bits m1 src -> mbit m0 j = mbit m1 j) ->
  is_copy m0 src m data d copy limit.
Proof.
  intros (hd & l & hd' & lo & e & Hso & Hi & He & Hh & Hcp & Hfl & Hen) En Hf. exists hd, l, hd', lo, e. rewrite En.
  split_and!; try done; [by eapply source_at_frame| |].
  - destruct (so_info _ _ _ _ _ Hso) as (c & Hy & Hl & _). destruct (proj1 Hy).
    eapply copied_source; [apply Hso|exact Hl| |done]. intros j Hj. apply Hf. lia.
  - intros v Hv Hle Hb. apply (Hfl v Hv Hle). intros j Hj. rewrite <- Hb by done. symmetry. apply Hf.
    pose proof (so_size _ _ _ _ _ Hso). lia.
Qed.

Lemma source_bits_nonneg m output src : source_ok m output src -> 0 <= source_bits m src.
Proof. unfold source_ok, source_bits. destruct (DecodeCodeInfo m src). tauto. Qed.

Definition total_bits (m : memory) (sources : list Z) : Z :=
  foldr (fun src total => source_bits m src + 512 + total) 0 sources.

Lemma DedupeAll_spec m0 sources d :
  bytes_ok m0 -> deduper_ok d -> (forall j, outside (w_data (writer_ d)) j -> mbit (w_mem (writer_ d)) j = mbit m0 j) ->
  Forall (source_ok m0 (w_data (writer_ d))) sources ->
  w_bit_offset (writer_ d) + total_bits m0 sources < 2 ^ 32 ->
  exists offsets d', DedupeAll sources d = Some (offsets, d') /\ deduper_ok d' /\
    w_data (writer_ d') = w_data (writer_ d) /\ w_pos (writer_ d) <= w_pos (writer_ d') /\
    w_bit_offset (writer_ d') <= w_bit_offset (writer_ d) + total_bits m0 sources /\
    (forall j, j < w_pos (writer_ d) -> mbit (w_mem (writer_ d')) j = mbit (w_mem (writer_ d)) j) /\
    keeps_entered (w_data (writer_ d)) (HashSet.data_ (dedupe_set_ d)) (HashSet.data_ (dedupe_set_ d')) /\
    Forall2 (fun src o => 0 <= o /\ is_copy m0 src (w_mem (writer_ d')) (w_data (writer_ d))
        (HashSet.data_ (dedupe_set_ d')) (w_data (writer_ d) + o) (w_pos (writer_ d')))
      sources offsets.
Proof.
  intros Hm0. revert d. induction sources as [|src sources IH]; intros d Hd Hf Hs Hn.
  { exists [], d. unfold total_bits. simpl. split_and!; try (done || lia || by intros q size). }
  inversion Hs as [|? ? Hs1 Hs2]; subst. cbn [total_bits foldr] in Hn. pose proof (source_bits_nonneg _ _ _ Hs1) as Hb1.
  assert (0 <= total_bits m0 sources) as Hpos.
  { clear -Hs2. unfold total_bits. induction Hs2 as [|x sources Hx%source_bits_nonneg _ IH]; cbn [foldr]; lia. }
  fold (total_bits m0 sources) in Hn. pose proof (ww_start _ (do_wf _ Hd)).
  destruct (source_ok_frame m0 (w_mem (writer_ d)) (w_data (writer_ d)) src) as (Hs1' & En & Hsrc);
    try (done || lia || apply Hd).
  destruct (Dedupe_spec d src Hd Hs1') as (d1 & E1 & [Hok Hdt Ho Hfr Hk Hcp]); [lia|lia|]. rewrite En in Ho.
  destruct (IH d1 Hok) as (offsets & d' & E2 & Hok' & Hdt' & Hp' & Ho' & Hfr' & Hk' & Hcps).
  { intros j Hj. rewrite Hdt in Hj. rewrite Hfr by (unfold outside, w_pos in *; lia). by apply Hf. }
  { by rewrite Hdt. }
  { lia. }
  rewrite Hdt in *.
  assert (w_bit_offset (writer_ d) <= w_bit_offset (writer_ d1)) as Hle.
  { destruct Hcp as (hd & l & hd' & lo & e & _ & (c & Hy & Hl & _) & He & _). pose proof (layout_le _ _ _ _ _ _ _ _ Hl).
    destruct (proj1 Hy). unfold w_pos in He. pose proof (do_aligned _ Hd). Z.div_mod_to_equations. lia. }
  exists (w_bit_offset (writer_ d) / 8 :: offsets), d'. cbn [DedupeAll]. rewrite E1. cbn [mbind option_bind].
  rewrite E2. cbn [mbind option_bind]. unfold w_pos in *. rewrite Hdt, Hdt' in *.
  cbn [total_bits foldr]. fold (total_bits m0 sources). split_and!; try (done || lia).
  - intros j Hj. rewrite Hfr', Hfr by lia. done.
  - intros q size Hz Hq. apply Hk'; [done|]. by apply Hk.
  - constructor; [|done]. split; [apply Z.div_pos; lia|].
    apply (is_copy_source _ (w_mem (writer_ d))); [|done|intros j Hj; symmetry; apply Hsrc; lia].
    eapply is_copy_frame; [exact Hcp| |lia|exact Hk'|intros j Hj; apply Hfr'; lia]. pose proof (Z.div_pos (w_bit_offset (writer_ d)) 8). lia.
Qed.
