(* ===== verification/CodeInfoSharing.v ===== *)
(** What the sharing of bit tables keeps: the theorems about CodeInfoDeduper.v, and their composition
    with those about the stack maps that StackMapStream.v writes. *)
From S2P Require Import Prelude BitUtils Memory BitMemory BitVector BitTable BitmapTable StackMap StackMapStream.
From S2P Require Import StackMapTables StackMapReader StackMapDelta StackMapInvariant StackMapVerify StackMapCorrect.
From S2P Require Import CodeInfoLayout CodeInfoDeduper CodeInfoDeduperSteps CodeInfoDeduperCorrect.

#[local] Opaque DecodeCodeInfo.

(** ** Tables with equal contents *)

(** The same rows, columns and bits, possibly in another memory. *)
Record same_table (m m' : memory) (t t' : BitTableBase) : Prop := {
  sa_rows : num_rows_ t' = num_rows_ t;
  sa_columns : column_offset_ t' = column_offset_ t;
  sa_valid : IsValid (table_data_ t') = IsValid (table_data_ t);
  sa_size : bit_size_ (table_data_ t') = bit_size_ (table_data_ t);
  sa_bits : forall i, 0 <= i < bit_size_ (table_data_ t) ->
    LoadBit m' (table_data_ t') i = LoadBit m (table_data_ t) i }.

Record same_code_info (m m' : memory) (ci ci' : CodeInfo) : Prop := {
  sc_header : header_fields ci' = header_fields ci;
  sc_stored : forall j, (j < 8)%nat -> HasBitTable (bit_table_flags_ ci') j = HasBitTable (bit_table_flags_ ci) j;
  sc_tables : Forall2 (same_table m m') (bit_tables ci) (bit_tables ci') }.

Lemma tables_same m m' columns ts ts' l lo :
  bytes_ok m -> bytes_ok m' -> Forall3 (table_read m) columns ts l -> Forall3 (table_read m') columns ts' lo ->
  Forall3 (copied m m') columns l lo -> Forall2 (same_table m m') ts ts'.
Proof.
  intros Hm Hm' Ht. revert ts' lo. induction Ht as [|K t o columns ts l Ht Hts IH]; intros ts' lo Ht' Hc.
  { inversion Ht'. constructor. }
  inversion Ht' as [|? t' o' ? ts2 lo2 Hto' Hts']; subst. inversion Hc as [|? ? ? ? ? ? Hco Hcs]; subst.
  constructor; [|by eapply IH].
  destruct (table_copied K m m' t t' o o') as (R & O & V & W & W' & B & Hbits); [by apply (table_read_is m)|by apply (table_read_is m')|done|].
  split; try done. intros i Hi. rewrite !LoadBit_rbit by (done || lia). symmetry. by apply Hbits.
Qed.

(** A copy decodes to what the source decodes to. *)
Lemma is_copy_same m src m' data es copy limit :
  bytes_ok m -> bytes_ok m' -> kPageSize <= src < 2 ^ 54 -> source_bits m src < 2 ^ 33 -> kPageSize <= data ->
  kPageSize <= copy < 2 ^ 57 -> limit < 2 ^ 58 -> is_copy m src m' data es copy limit ->
  same_code_info m m' (DecodeCodeInfo m src).1 (DecodeCodeInfo m' copy).1.
Proof.
  intros Hm Hm' Hs Hb Hd Hc Hlim (hd & l & hd' & lo & e & Hso & Hi & He & Hh & Hcp & _). unfold kPageSize in *.
  destruct (DecodeCodeInfo_at m (8 * src) src hd l (8 * src + source_bits m src)) as (ts & E & Hts);
    try done; try (unfold kPageSize; lia); [apply Hso|].
  destruct (DecodeCodeInfo_at m' (8 * data) copy hd' lo e) as (ts' & E' & Hts'); try done; try (unfold kPageSize; lia).
  rewrite E, E'. cbn [fst]. split; [by apply same_header_fields|apply Hh|].
  rewrite (bit_tables_code_info m hd ts l Hts), (bit_tables_code_info m' hd' ts' lo Hts'). by eapply tables_same.
Qed.

(** ** Encoded stack maps *)

(** The place of a table of the stream. *)
Definition stored_at (m : memory) (a : any_table) (o : option (Z * Shape)) : Prop :=
  match o with
  | None => any_size a = 0
  | Some (q, sh) => items_match m q (any_items a) /\ sh_size (any_columns a) sh = items_bits (any_items a)
  end.

Lemma reader_at p :
  8 * kPageSize <= p < 2 ^ 60 ->
  exists rd, wf_reader rd (2 ^ 62) /\ r_pos rd = p /\ data_ (finished_region_ rd) <> 0.
Proof.
  intros Hp. unfold kPageSize in Hp. pose proof (Z.div_mod p 8 ltac:(lia)). pose proof (Z.mod_pos_bound p 8 ltac:(lia)).
  destruct (MakeReaderAt_at (p / 8) (p mod 8)) as (Hw & Hr & _ & Hv & _); [lia..|].
  exists (MakeReaderAt (p / 8) (p mod 8)). split_and!; [done|lia|apply Hv; unfold kPageSize; lia].
Qed.

Lemma stored_shape m a p sh :
  any_ok a -> bytes_ok m -> 8 * kPageSize <= p < 2 ^ 60 -> items_match m p (any_items a) ->
  shape_at (any_columns a) m p sh -> sh_size (any_columns a) sh = items_bits (any_items a).
Proof.
  intros Ha Hm Hp Hi Hs. destruct (reader_at p Hp) as (rd & Hw & <- & Hv). pose proof (any_items_bound a Ha).
  destruct (any_decode m a rd 0) as (t & rd' & E & _ & _ & Hr & _); try done; [eapply wf_reader_le; [done|lia]|].
  rewrite (Decode_shape _ m rd sh) in E by (done || (eapply wf_reader_le; [done|unfold table_room; lia])).
  injection E as _ <-. rewrite r_pos_advance in Hr. lia.
Qed.

Lemma layout_stored m L flags i l p lo e :
  bytes_ok m -> Forall any_ok l -> undeduped flags -> 8 * kPageSize <= p -> p + table_room * Z.of_nat (length l) < 2 ^ 60 ->
  (forall j a, l !! j = Some a -> HasBitTable flags (i + j) = negb (any_size a =? 0)) ->
  items_match m p (concat (map stored_items l)) -> layout m L flags i (map any_columns l) p lo e ->
  Forall2 (stored_at m) l lo.
Proof.
  intros Hm Hl Hu. revert i p lo. induction Hl as [|a l Ha Hl IH]; intros i p lo Hp Hpb Hf Hi Hlo.
  { inversion Hlo. constructor. }
  cbn [map concat length] in *. apply items_match_app in Hi as [Hi1 Hi2].
  assert (0 < table_room) by (unfold table_room; lia).
  pose proof (Hf 0%nat a eq_refl) as H0. rewrite Nat.add_0_r in H0.
  assert (forall j a', l !! j = Some a' -> HasBitTable flags (S i + j) = negb (any_size a' =? 0)) as Hf'.
  { intros j a' Hj. rewrite <- (Hf (S j) a' Hj). f_equal. lia. }
  unfold stored_items in Hi1, Hi2. inversion Hlo as [|? ? ? ? lo' ? Hf0 Hlo'|? ? ? ? sh lo' ? Hf0 Hd Hs Hlo'
    |? ? ? ? d c sh lo' ? Hf0 Hdd]; subst; rewrite H0 in Hf0.
  - apply negb_false_iff in Hf0. rewrite Hf0 in *. simpl in Hi2. rewrite Z.add_0_r in Hi2.
    constructor; [by apply Z.eqb_eq|]. apply (IH (S i) p); try (done || lia).
  - apply negb_true_iff in Hf0. rewrite Hf0 in *.
    assert (sh_size (any_columns a) sh = items_bits (any_items a)) as Es by (apply (stored_shape m a p); try (done || lia)).
    pose proof (shape_size _ _ _ _ Hs).
    constructor; [by split|]. rewrite Es in Hlo'. apply (IH (S i) (p + items_bits (any_items a))); try (done || lia).
  - by rewrite Hu in Hdd.
Qed.

Lemma copy_shows m m' a o o' t :
  any_ok a -> bytes_ok m' -> stored_at m a o -> copied m m' (any_columns a) o o' ->
  table_read m' (any_columns a) t o' -> any_shows m' t a.
Proof.
  intros Ha Hm' Hst Hc Ht. destruct o as [[q sh]|], o' as [[q' sh']|]; try done.
  - destruct Hst as [Hi Es], Hc as [-> Hag]. destruct Ht as (rd & Hw & Hv & <- & Hs & ->). rewrite Es in Hag.
    pose proof (shape_size _ _ _ _ Hs). pose proof (any_items_bound a Ha).
    destruct (any_decode m' a rd 0) as (t & rd' & E & Hsh & _); try done.
    + eapply wf_reader_le; [done|lia].
    + eapply items_match_move; [by apply any_widths|done|done].
    + by rewrite E.
  - simpl in Ht, Hst. subst t. by apply empty_shows.
Qed.

Lemma copies_show m m' l lo lo' ts :
  bytes_ok m' -> Forall any_ok l -> Forall2 (stored_at m) l lo ->
  Forall3 (copied m m') (map any_columns l) lo lo' -> Forall3 (table_read m') (map any_columns l) ts lo' ->
  Forall2 (any_shows m') ts l.
Proof.
  intros Hm' Hok Hst. revert lo' ts. induction Hst as [|a o l lo Hao Hst IH]; intros lo' ts Hc Ht; cbn [map] in *.
  { inversion Hc; subst. inversion Ht. constructor. }
  inversion Hc as [|? ? o' ? ? lo2 Hco Hcs]; subst. inversion Ht as [|? t ? ? ts2 ? Hto Hts]; subst.
  inversion Hok; subst. constructor; [by eapply copy_shows|by eapply IH].
Qed.

(** The source of a copy has the header and the tables of a stream. *)
Lemma source_of_stream m src n hd l flags s :
  bytes_ok m -> kPageSize <= src < 2 ^ 54 -> 0 <= flags <= kVarintMax -> headers_ok s -> tables_ok (tables_ s) ->
  items_match m (8 * src) (code_items flags s) -> source_at m src n hd l ->
  hd = header_of flags s /\ Forall2 (stored_at m) (all_tables (tables_ s)) l.
Proof.
  intros Hm Hs Hf Hh Ht Hi Hso. pose proof (header_of_ok flags s Hf Hh) as Hok. unfold kPageSize in Hs.
  unfold code_items in Hi. apply items_match_app in Hi as [Hi1 Hi2].
  destruct (so_info _ _ _ _ _ Hso) as (c & Hy & Hl & _). destruct (proj1 Hy) as [Hc0 Hc1].
  pose proof (written_varints m (8 * src) _ Hok ltac:(simpl; lia) Hi1) as Hy'.
  destruct (info_reader src) as (Hcr & Hp & _); [unfold kPageSize; lia|].
  assert (wf_reader (MakeReaderAt src 0) 252) as Hw by (eapply wf_reader_le; [apply Hcr|lia]).
  pose proof (proj2 Hy m _ Hm Hw ltac:(rewrite Hp; apply agree_refl)) as E1.
  pose proof (proj2 Hy' m _ Hm Hw ltac:(rewrite Hp; apply agree_refl)) as E2.
  change (length (header_of flags s)) with kNumHeaders in E2. rewrite E1 in E2.
  apply pair_equal_spec in E2 as [-> ->%advance_inj]. split; [done|].
  eapply (layout_stored m (8 * src) _ 0 _ (8 * src + items_bits (varint_items (header_of flags s)))); try done.
  - apply Hso.
  - unfold kPageSize. lia.
  - unfold table_room. change (Z.of_nat (length (all_tables (tables_ s)))) with 8. lia.
  - intros j a. apply HasBitTable_stored.
Qed.

(** So a copy shows what the stream holds. *)
Lemma copy_encoded m src m' data es copy limit flags s :
  bytes_ok m -> bytes_ok m' -> kPageSize <= src < 2 ^ 54 -> source_bits m src < 2 ^ 33 -> kPageSize <= data ->
  kPageSize <= copy < 2 ^ 57 -> limit < 2 ^ 58 ->
  0 <= flags <= kVarintMax -> headers_ok s -> tables_ok (tables_ s) ->
  items_match m (8 * src) (code_items flags s) -> is_copy m src m' data es copy limit ->
  encoded m' copy flags s (DecodeCodeInfo m' copy).1.
Proof.
  intros Hm Hm' Hs Hb Hd Hc Hlim Hf Hh Ht Hi (hd & l & hd' & lo & e & Hso & Hinfo & He & Hhd & Hcp & Hfl & _).
  destruct (source_of_stream m src (source_bits m src) hd l flags s) as [-> Hst]; try done. unfold kPageSize in Hd, Hc.
  destruct (DecodeCodeInfo_at m' (8 * data) copy hd' lo e) as (ts & E & Hts); try done; try (unfold kPageSize; lia).
  rewrite E. cbn [fst]. destruct Hhd as (_ & Hhd & _).
  assert (Forall2 (any_shows m') ts (all_tables (tables_ s))) as Hsh by by eapply copies_show.
  split; try done; try (unfold code_info_of; cbn [code_size_ packed_frame_size_ core_spill_mask_ fp_spill_mask_
    number_of_dex_registers_]; by rewrite Hhd).
  - clear -Hsh. unfold all_tables in Hsh. repeat (apply Forall2_cons_inv_r in Hsh as (? & ? & ? & Hsh & ->)).
    apply Forall2_nil_inv_r in Hsh as ->. split; done.
  - intros i Hx. rewrite <- (mbit_byte m' copy i) by lia. apply (Hfl flags); try (done || lia).
    intros j Hj. unfold code_items, varint_items, header_of in Hi. cbn [map app] in Hi. destruct Hi as [Hi0 _].
    unfold small_item in Hi0. destruct (Z.ltb_spec kVarintMax flags); [lia|]. by apply Hi0.
Qed.

(** ** Methods in memory *)

(** A method whose stack maps are encoded at an address, and its stream. *)
Record Placed := MakePlaced {
  pl_isa : InstructionSet; pl_method : Method; pl_stream : StackMapStream; pl_address : Z }.

Definition pl_flags (x : Placed) : Z := me_flags (pl_method x) (pl_stream x).

(** What [StackMapStream::Encode] writes at the address; the size does not depend on the memory. *)
Definition pl_output (m : memory) (x : Placed) : BitMemoryWriter :=
  write_code_info m (pl_address x) (pl_flags x) (pl_stream x).

Section methods.
Context (equal_range : list (Z * Z) -> Z -> list Z) (env : Environment) (masks : Z -> BitVector).

(** The memory holds what was written, outside of where an output at [output] can grow. *)
Record placed_ok (m : memory) (output : Z) (x : Placed) : Prop := {
  po_method : method_ok env masks (pl_method x);
  po_stream : do_calls equal_range env masks (method_calls (pl_method x)) (MakeStream (pl_isa x)) = Some (pl_stream x);
  po_address : kPageSize <= pl_address x < 2 ^ 54;
  po_bits : agree (w_mem (pl_output m x)) (8 * pl_address x) m (8 * pl_address x) (NumberOfWrittenBits (pl_output m x));
  po_outside : 8 * pl_address x + NumberOfWrittenBits (pl_output m x) <= 8 * output \/
    8 * output + 2 ^ 32 <= 8 * pl_address x }.

Hypothesis equal_range_spec : forall d h, equal_range d h ≡ₚ (filter (fun p => p.1 = h) d).*2.

Lemma placed_items m output x :
  bytes_ok m -> placed_ok m output x ->
  (headers_ok (pl_stream x) /\ tables_ok (tables_ (pl_stream x)) /\ 0 <= pl_flags x <= kVarintMax) /\
  items_match m (8 * pl_address x) (code_items (pl_flags x) (pl_stream x)) /\
  NumberOfWrittenBits (pl_output m x) = items_bits (code_items (pl_flags x) (pl_stream x)).
Proof using equal_range_spec.
  intros Hm [Hok Hs Ha Hb Ho]. unfold kPageSize in Ha.
  destruct (method_finished equal_range equal_range_spec (pl_isa x) env masks (pl_method x) Hok _ Hs) as (us & Hf & _).
  pose proof (fi_tables _ _ _ _ _ _ _ Hf) as Ht.
  pose proof (method_headers equal_range equal_range_spec (pl_isa x) env masks (pl_method x) Hok _ Hs) as Hh.
  pose proof (me_flags_small (pl_method x) (pl_stream x)) as Hfl. fold (pl_flags x) in Hfl.
  destruct (write_code_info_grown m (pl_address x) (pl_flags x) (pl_stream x) Hm ltac:(lia) Hfl Hh Ht) as [Hg _].
  fold (pl_output m x) in Hg. destruct Hg as [Hap _ Hmatch].
  pose proof (code_items_bound (pl_flags x) (pl_stream x) Hfl Hh Ht) as Hbd.
  assert (NumberOfWrittenBits (pl_output m x) = items_bits (code_items (pl_flags x) (pl_stream x))) as En.
  { unfold NumberOfWrittenBits. rewrite (ap_offset _ _ _ Hap), (ap_start _ _ _ Hap). cbn [w_bit_offset w_bit_start MakeWriter].
    rewrite uN_small by (unfold is_u; lia). lia. }
  split_and!; try done; try apply Hfl. unfold w_pos in Hmatch. simpl in Hmatch. rewrite Z.add_0_r in Hmatch.
  rewrite En in Hb. eapply items_match_move; [|exact Hb|exact Hmatch].
  unfold code_items. apply Forall_app. split; [by apply item_ok_widths, varint_items_ok, header_of_ok|].
  by apply stored_items_bound.
Qed.

Lemma decode_flags m src :
  bit_table_flags_ (DecodeCodeInfo m src).1 =
    default 0 ((ReadInterleavedVarints kNumHeaders m (MakeReaderAt src 0)).1 !! 6%nat).
Proof using.
  Transparent DecodeCodeInfo. unfold DecodeCodeInfo, decode_header.
  destruct (ReadInterleavedVarints _ _ _) as [hd rd]. by destruct (decode_tables _ _ _ _ _).
Qed.
#[local] Opaque DecodeCodeInfo.

Lemma placed_source m output x :
  bytes_ok m -> placed_ok m output x ->
  source_ok m output (pl_address x) /\ source_bits m (pl_address x) = NumberOfWrittenBits (pl_output m x).
Proof using equal_range_spec.
  intros Hm Hx. destruct (placed_items m output x Hm Hx) as ((Hh & Ht & Hfl) & Hi & En).
  destruct Hx as [_ _ Ha _ Ho]. pose proof Ha as Ha'. unfold kPageSize in Ha'.
  destruct (decode_code_info m (pl_address x) (pl_flags x) (pl_stream x)) as (ci & E & _); try done; [unfold kPageSize; lia|].
  pose proof (code_items_bound (pl_flags x) (pl_stream x) Hfl Hh Ht) as Hb.
  pose proof (decode_flags m (pl_address x)) as Ef. unfold source_ok, source_bits. rewrite E in *. cbn [fst snd] in *.
  split; [|done]. split_and!; try (done || lia).
  pose proof (header_of_ok (pl_flags x) (pl_stream x) Hfl Hh) as Hok.
  unfold code_items in Hi. apply items_match_app in Hi as [Hi1 _].
  pose proof (proj2 (written_varints m (8 * pl_address x) _ Hok ltac:(simpl; lia) Hi1)) as Hy.
  destruct (info_reader (pl_address x)) as (Hcr & Hp & _); [unfold kPageSize; lia|].
  change (length (header_of (pl_flags x) (pl_stream x))) with kNumHeaders in Hy.
  rewrite (Hy m) in Ef; [|done|eapply wf_reader_le; [apply Hcr|unfold kNumHeaders; lia]|rewrite Hp; apply agree_refl].
  rewrite Ef. apply small_undeduped, stored_tables_is_u. simpl. lia.
Qed.

(** Everything that can be read of a method. *)
Definition reads_method (m : memory) (address : Z) (x : Placed) : Prop :=
  let ci := (DecodeCodeInfo m address).1 in
  reads_header (pl_method x) m address ci /\
  (forall i d, me_stack_maps (pl_method x) !! i = Some d -> reads (pl_isa x) env masks m ci (Z.of_nat i) d) /\
  looks_up (pl_isa x) m ci (me_stack_maps (pl_method x)).

Lemma copy_reads m output x m' es copy limit :
  bytes_ok m -> bytes_ok m' -> placed_ok m output x -> source_bits m (pl_address x) < 2 ^ 33 -> kPageSize <= output ->
  kPageSize <= copy < 2 ^ 57 -> limit < 2 ^ 58 -> is_copy m (pl_address x) m' output es copy limit ->
  reads_method m' copy x.
Proof using equal_range_spec.
  intros Hm Hm' Hx Hb Ho Hc Hlim Hcp. destruct (placed_items m output x Hm Hx) as ((Hh & Ht & Hfl) & Hi & _).
  destruct Hx as [Hok Hs Ha _ _].
  pose proof (copy_encoded m (pl_address x) m' output es copy limit _ _ Hm Hm' Ha Hb Ho Hc Hlim Hfl Hh Ht Hi Hcp) as He.
  unfold reads_method. cbv zeta. split_and!.
  - by eapply (method_header equal_range equal_range_spec (pl_isa x) env masks (pl_method x) Hok _ Hs copy).
  - by apply (method_reads equal_range equal_range_spec (pl_isa x) env masks (pl_method x) Hok _ Hs copy _ _ He).
  - by apply (method_lookups equal_range equal_range_spec (pl_isa x) env masks (pl_method x) Hok _ Hs copy _ _ He).
Qed.
End methods.

(** ** Tables that are stored once *)

Lemma equal_items_agree m p m' p' items :
  widths_ok items -> items_match m p items -> items_match m' p' items -> agree m p m' p' (items_bits items).
Proof.
  intros Hok. revert p p'. induction Hok as [|it items Hn Hok IH]; intros p p'; simpl; [intros _ _ i Hi; lia|].
  intros [H1 H2] [H1' H2'] i Hi. destruct (Z.ltb_spec i it.2); [by rewrite H1, H1' by lia|].
  pose proof (IH _ _ H2 H2' (i - it.2) ltac:(lia)) as E.
  by replace (p + it.2 + (i - it.2)) with (p + i) in E by lia; replace (p' + it.2 + (i - it.2)) with (p' + i) in E by lia.
Qed.

Lemma shape_unique K m p sh sh' :
  bytes_ok m -> 8 * kPageSize <= p < 2 ^ 60 -> shape_at K m p sh -> shape_at K m p sh' -> sh = sh'.
Proof.
  intros Hm Hp [HK [_ Hy]] [_ [_ Hy']]. destruct (reader_at p Hp) as (rd & Hw & <- & _).
  assert (wf_reader rd (36 * Z.of_nat (1 + K))) as Hw' by (eapply wf_reader_le; [done|lia]).
  specialize (Hy m rd Hm Hw' (agree_refl _ _ _)). specialize (Hy' m rd Hm Hw' (agree_refl _ _ _)). rewrite Hy in Hy'.
  apply pair_equal_spec in Hy' as [Ev Eh%advance_inj]. destruct sh, sh'. simpl in *. by subst.
Qed.

(** A large table of a stream, its place in the output and its entry. *)
Lemma stored_entry m m' data es a o o' t :
  any_ok a -> stored_at m a o -> copied m m' (any_columns a) o o' -> table_read m' (any_columns a) t o' ->
  large_entered data es (any_columns a) o' -> kMinDedupSize <= items_bits (stored_items a) ->
  exists q sh, o' = Some (q, sh) /\ items_match m' q (any_items a) /\ sh_size (any_columns a) sh = items_bits (any_items a) /\
    stored_items a = any_items a /\ shape_at (any_columns a) m' q sh /\ entered data es q (items_bits (any_items a)).
Proof.
  intros Ha Hst Hc Ht Hen Hlarge. unfold stored_items in *. destruct (Z.eqb_spec (any_size a) 0) as [E0|E0].
  { unfold items_bits, kMinDedupSize in Hlarge. simpl in Hlarge. lia. }
  destruct o as [[q sh]|]; [|done]. destruct o' as [[q' sh']|]; [|done]. destruct Hst as [Hi Es], Hc as [-> Hag].
  rewrite Es in Hag. destruct Ht as (rd & _ & _ & _ & Hs & _). exists q', sh. unfold large_entered in Hen.
  rewrite Es in Hen. split_and!; try done; [|by apply Hen]. eapply items_match_move; [by apply any_widths|done|done].
Qed.

(** Where the tables of the stack maps are. *)
Definition stored_once (m : memory) (copy copy' : Z) (x y : Placed) : Prop :=
  forall i j a b t u, all_tables (tables_ (pl_stream x)) !! i = Some a -> all_tables (tables_ (pl_stream y)) !! j = Some b ->
  any_columns a = any_columns b -> stored_items a = stored_items b -> kMinDedupSize <= items_bits (stored_items a) ->
  bit_tables (DecodeCodeInfo m copy).1 !! i = Some t -> bit_tables (DecodeCodeInfo m copy').1 !! j = Some u ->
  abs_start (table_data_ t) = abs_start (table_data_ u) /\ bit_size_ (table_data_ t) = bit_size_ (table_data_ u).

Section copies.
Context (equal_range : list (Z * Z) -> Z -> list Z) (env : Environment) (masks : Z -> BitVector).
Hypothesis equal_range_spec : forall d h, equal_range d h ≡ₚ (filter (fun p => p.1 = h) d).*2.
Context (m m' : memory) (output : Z) (es : HashSet.HashSet DedupeSetEntry).
Context (Hm : bytes_ok m) (Hm' : bytes_ok m') (Ho : kPageSize <= output < 2 ^ 54).
Context (Hes : @HashSet.inv _ (DedupeSet m' output) es).

(** A method and its copy. *)
Definition copy_of (x : Placed) (copy : Z) : Prop :=
  placed_ok equal_range env masks m output x /\ source_bits m (pl_address x) < 2 ^ 33 /\ kPageSize <= copy < 2 ^ 57 /\
  exists limit, limit < 2 ^ 58 /\ is_copy m (pl_address x) m' output (HashSet.data_ es) copy limit.

Lemma copy_table x copy i a t :
  copy_of x copy -> all_tables (tables_ (pl_stream x)) !! i = Some a ->
  bit_tables (DecodeCodeInfo m' copy).1 !! i = Some t -> kMinDedupSize <= items_bits (stored_items a) ->
  exists q sh, table_is (any_columns a) t (Some (q, sh)) /\ any_ok a /\
    items_match m' q (any_items a) /\ stored_items a = any_items a /\
    shape_at (any_columns a) m' q sh /\ entered output (HashSet.data_ es) q (items_bits (any_items a)).
Proof using equal_range_spec Hm Hm' Ho.
  intros (Hx & Hb & Hc & limit & Hlim & hd & l & hd' & lo & e & Hso & Hinfo & He & Hhd & Hcp & _ & Hen) Ha Ht Hlarge.
  destruct (placed_items equal_range env masks equal_range_spec m output x Hm Hx) as ((Hh & Htb & Hfl) & Hi & _).
  destruct (source_of_stream m (pl_address x) (source_bits m (pl_address x)) hd l (pl_flags x) (pl_stream x))
    as [-> Hst]; try done; [apply Hx|]. unfold kPageSize in *.
  destruct (DecodeCodeInfo_at m' (8 * output) copy hd' lo e) as (ts & E & Hts); try done; try (unfold kPageSize; lia).
  rewrite E in Ht. cbn [fst] in Ht. rewrite (bit_tables_code_info m' hd' ts lo Hts) in Ht.
  assert (any_ok a) as Hok by by eapply Forall_lookup_1.
  assert (table_columns !! i = Some (any_columns a)) as HK.
  { change table_columns with (map any_columns (all_tables (tables_ (pl_stream x)))).
    by rewrite list_lookup_fmap, Ha. }
  destruct (Forall2_lookup_l _ _ _ _ _ Hst Ha) as (o & Hlo & Hsta).
  destruct (Forall3_lookup_l _ _ _ _ _ _ Hcp HK) as (o2 & o' & Ho2 & Ho' & Hco). rewrite Hlo in Ho2. injection Ho2 as <-.
  pose proof (Forall3_lookup_lmr _ _ _ _ _ _ _ _ Hts HK Ht Ho') as Hread.
  pose proof (Forall2_lookup_lr _ _ _ _ _ _ Hen HK Ho') as Hena.
  destruct (stored_entry m m' output (HashSet.data_ es) a o o' t) as (q & sh & -> & Hq & _ & Es & Hs & He'); try done.
  exists q, sh. split_and!; try done. by apply (table_read_is m').
Qed.

Lemma copies_share x y copy copy' : copy_of x copy -> copy_of y copy' -> stored_once m' copy copy' x y.
Proof using equal_range_spec Hm Hm' Ho Hes.
  intros Hx Hy i j a b t u Ha Hb HK Eit Hlarge Ht Hu.
  destruct (copy_table x copy i a t Hx Ha Ht Hlarge) as (q & sh & Hti & Hok & Hq & Es & Hs & Hen).
  rewrite Eit in Hlarge.
  destruct (copy_table y copy' j b u Hy Hb Hu Hlarge) as (q' & sh' & Hui & _ & Hq' & Es' & Hs' & Hen').
  rewrite Es, Es' in Eit. rewrite Es', <- Eit in Hlarge. rewrite <- Eit in Hq', Hen'. rewrite <- HK in Hui, Hs'. unfold kPageSize, kMinDedupSize in *.
  assert (q = q') as <-.
  { apply (entered_unique m' output es q q' (items_bits (any_items a))); try (done || lia).
    apply equal_items_agree; [by apply any_widths|done|done]. }
  assert (8 * kPageSize <= q < 2 ^ 60) as Hqr.
  { destruct Hen as (p & z & _ & _ & <-). pose proof (epos_range z). unfold kPageSize. lia. }
  rewrite (shape_unique _ _ _ _ _ Hm' Hqr Hs Hs') in Hti. destruct Hti as (_ & _ & _ & _ & A & B & _).
  destruct Hui as (_ & _ & _ & _ & A' & B' & _). split; congruence.
Qed.
End copies.

(** ** Runs *)

Lemma total_bits_bound m output sources src :
  Forall (source_ok m output) sources -> src ∈ sources -> source_bits m src <= total_bits m sources.
Proof.
  unfold total_bits. induction 1 as [|x sources Hx Hs IH]; intros Hin; [by apply not_elem_of_nil in Hin|].
  pose proof (source_bits_nonneg _ _ _ Hx). cbn [foldr].
  assert (0 <= foldr (fun s t => source_bits m s + 512 + t) 0 sources).
  { clear -Hs. induction Hs as [|y sources Hy%source_bits_nonneg _ IH]; cbn [foldr]; lia. }
  apply elem_of_cons in Hin as [->|Hin]; [lia|]. specialize (IH Hin). lia.
Qed.

(** A run on a new deduper, and the copies it leaves. *)
Lemma run_copies m output num sources :
  bytes_ok m -> kPageSize <= output < 2 ^ 54 -> 0 <= num < 2 ^ 32 ->
  Forall (source_ok m output) sources -> total_bits m sources < 2 ^ 32 ->
  exists d0 offsets d, ReserveDedupeBuffer num (MakeDeduper m output) = Some d0 /\
    DedupeAll sources d0 = Some (offsets, d) /\ bytes_ok (w_mem (writer_ d)) /\
    @HashSet.inv _ (DedupeSet (w_mem (writer_ d)) output) (dedupe_set_ d) /\
    Forall2 (fun src o => kPageSize <= output + o < 2 ^ 57 /\ source_bits m src < 2 ^ 33 /\
      exists limit, limit < 2 ^ 58 /\ is_copy m src (w_mem (writer_ d)) output (HashSet.data_ (dedupe_set_ d)) (output + o) limit) sources offsets.
Proof.
  intros Hm Ho Hn Hs Ht. destruct (ReserveDedupeBuffer_spec num m output Hm Ho Hn) as (d0 & E0 & Hd0 & Hw).
  destruct (DedupeAll_spec m sources d0 Hm Hd0) as (offsets & d & E & Hd & Hdt & _ & Hoff & _ & _ & Hcp);
    rewrite ?Hw; cbn [MakeWriter w_data w_mem w_bit_offset]; try (done || lia).
  rewrite Hw in Hdt, Hcp, Hoff. cbn [MakeWriter w_data w_bit_offset] in *. unfold kPageSize in *.
  exists d0, offsets, d. split_and!; try done; [apply Hd|rewrite <- Hdt; apply Hd|]. apply Forall2_same_length_lookup.
  split; [by eapply Forall2_length|]. intros i src o Hsrc Hoi.
  destruct (Forall2_lookup_lr _ _ _ _ _ _ Hcp Hsrc Hoi) as [Hnn Hc].
  assert (w_pos (writer_ d) < 2 ^ 58) as Hlim by (unfold w_pos; lia).
  split_and!; [lia| | |by eexists].
  - destruct Hc as (hd & l & hd' & lo & e & _ & (c & Hy & Hl & _) & He & _). pose proof (layout_le _ _ _ _ _ _ _ _ Hl).
    destruct (proj1 Hy). lia.
  - assert (src ∈ sources) as Hin by (by eapply list_elem_of_lookup_2).
    pose proof (total_bits_bound m output sources src Hs Hin). lia.
Qed.

(** ** An example *)

Module SharedExample.
Definition first : Z := 8192.
Definition second : Z := 16384.
Definition output : Z := 2 ^ 40.

Definition flags : Z := Eval vm_compute in me_flags StackMapCorrect.Example.me StackMapCorrect.Example.stream.

(** The bytes of the method of StackMapCorrect.v. *)
Definition bytes : list Z := Eval vm_compute in
  let out := write_code_info StackMapCorrect.Example.mem kPageSize flags StackMapCorrect.Example.stream in
  map (w_mem out) (seqZ kPageSize (w_size out)).

(** It is in memory twice. *)
Definition mem : memory := fun a =>
  if (first <=? a) && (a <? first + 1000) then default 0 (bytes !! Z.to_nat (a - first))
  else default 0 (if second <=? a then bytes !! Z.to_nat (a - second) else None).

Definition placed (address : Z) : Placed :=
  MakePlaced kX86_64 StackMapCorrect.Example.me StackMapCorrect.Example.stream address.

Lemma bytes_small : Forall (is_u 8) bytes.
Proof. unfold bytes, is_u. repeat constructor; lia. Qed.

Lemma shared_mem_ok : bytes_ok mem.
Proof.
  assert (forall i, is_u 8 (default 0 (bytes !! i))) as Hb.
  { intros i. destruct (bytes !! i) eqn:E; [|unfold is_u; simpl; lia]. by eapply Forall_lookup_1 in E; [|apply bytes_small]. }
  intros a. unfold mem. destruct (_ && _); [done|]. destruct (second <=? a); [done|]. unfold is_u. simpl. lia.
Qed.

Definition agreeb (m : memory) (p : Z) (m' : memory) (p' n : Z) : bool :=
  forallb (fun i => eqb (mbit m (p + i)) (mbit m' (p' + i))) (seqZ 0 n).

Lemma agree_check m p m' p' n : agreeb m p m' p' n = true -> agree m p m' p' n.
Proof.
  intros H i Hi. unfold agreeb in H. rewrite forallb_forall in H. apply eqb_prop, H, list_elem_of_In, elem_of_seqZ. lia.
Qed.

Lemma placed_first : placed_ok StackMapCorrect.Example.equal_range StackMapCorrect.Example.env
  StackMapCorrect.Example.masks mem output (placed first).
Proof.
  split; [apply StackMapCorrect.Example.me_ok|apply StackMapCorrect.Example.stream_ok|unfold kPageSize, first; simpl; lia| |].
  - apply agree_check. vm_compute. reflexivity.
  - left. vm_compute. discriminate.
Qed.

Lemma placed_second : placed_ok StackMapCorrect.Example.equal_range StackMapCorrect.Example.env
  StackMapCorrect.Example.masks mem output (placed second).
Proof.
  split; [apply StackMapCorrect.Example.me_ok|apply StackMapCorrect.Example.stream_ok|unfold kPageSize, second; simpl; lia| |].
  - apply agree_check. vm_compute. reflexivity.
  - left. vm_compute. discriminate.
Qed.

Lemma first_size : NumberOfWrittenBits (pl_output mem (placed first)) = 469.
Proof. vm_compute. reflexivity. Qed.

Lemma second_size : NumberOfWrittenBits (pl_output mem (placed second)) = 469.
Proof. vm_compute. reflexivity. Qed.

Lemma run_size : total_bits mem [first; second] < 2 ^ 32.
Proof.
  pose proof StackMapCorrect.Example.equal_range_ok as Her.
  destruct (placed_source _ _ _ Her mem output (placed first) shared_mem_ok placed_first) as [_ E1].
  destruct (placed_source _ _ _ Her mem output (placed second) shared_mem_ok placed_second) as [_ E2].
  rewrite first_size in E1. rewrite second_size in E2. cbn [pl_address placed] in E1, E2. unfold total_bits. cbn [foldr]. rewrite E1, E2. lia.
Qed.

Lemma sources_ok : Forall (source_ok mem output) [first; second].
Proof.
  pose proof StackMapCorrect.Example.equal_range_ok as Her.
  constructor; [apply (placed_source _ _ _ Her mem output (placed first) shared_mem_ok placed_first)|].
  constructor; [apply (placed_source _ _ _ Her mem output (placed second) shared_mem_ok placed_second)|done].
Qed.

Lemma output_ok : kPageSize <= output < 2 ^ 54.
Proof. unfold kPageSize, output. lia. Qed.
End SharedExample.

(** ** Properties *)

(** C10: [CodeInfoTableDeduper] keeps every code info. Any number of code infos that share no
    tables yet are added to an empty output; together they stay below [2 ^ 32] bits. Then no
    check of the debug build fails, and at the end the code info at each returned offset decodes
    to what its source decodes to: the header but for the marks of shared tables, the tables that
    are present, and their rows, columns and bits. This holds although the entries of the hash set
    are positions in the output, which is truncated and written again when a table is found, and
    although tables are found in code infos that were added long before. *)
Theorem Dedupe_preserves (m : memory) (output num_code_infos : Z) (code_infos : list Z) :
  bytes_ok m -> kPageSize <= output < 2 ^ 54 -> 0 <= num_code_infos < 2 ^ 32 ->
  Forall (source_ok m output) code_infos -> total_bits m code_infos < 2 ^ 32 ->
  exists d0 offsets d, ReserveDedupeBuffer num_code_infos (MakeDeduper m output) = Some d0 /\
    DedupeAll code_infos d0 = Some (offsets, d) /\
    Forall2 (fun code_info offset =>
        same_code_info m (w_mem (writer_ d)) (DecodeCodeInfo m code_info).1
          (DecodeCodeInfo (w_mem (writer_ d)) (output + offset)).1) code_infos offsets.
Proof.
  intros Hm Ho Hn Hs Ht. destruct (run_copies m output num_code_infos code_infos Hm Ho Hn Hs Ht)
    as (d0 & offsets & d & E0 & E & Hm' & _ & Hc).
  exists d0, offsets, d. split_and!; try done. apply Forall2_same_length_lookup.
  split; [by eapply Forall2_length|]. intros i src o Hsrc Hoi.
  destruct (Forall2_lookup_lr _ _ _ _ _ _ Hc Hsrc Hoi) as (Hr & Hb & limit & Hl & Hcp).
  apply (is_copy_same m src _ output (HashSet.data_ (dedupe_set_ d)) (output + o) limit); try (done || lia).
  eapply Forall_lookup_1 in Hsrc; [|exact Hs]. unfold source_ok in Hsrc. destruct (DecodeCodeInfo m src). tauto.
Qed.

Lemma Dedupe_preserves_witness :
  exists d0 offsets d, ReserveDedupeBuffer 2 (MakeDeduper SharedExample.mem SharedExample.output) = Some d0 /\
    DedupeAll [SharedExample.first; SharedExample.second] d0 = Some (offsets, d) /\
    Forall2 (fun code_info offset =>
        same_code_info SharedExample.mem (w_mem (writer_ d)) (DecodeCodeInfo SharedExample.mem code_info).1
          (DecodeCodeInfo (w_mem (writer_ d)) (SharedExample.output + offset)).1)
      [SharedExample.first; SharedExample.second] offsets.
Proof.
  apply (Dedupe_preserves SharedExample.mem SharedExample.output 2 [SharedExample.first; SharedExample.second]
    SharedExample.shared_mem_ok SharedExample.output_ok ltac:(lia) SharedExample.sources_ok SharedExample.run_size).
Defined.

(** C5: the way of the stack maps from the compiler to the oat file. The methods of [code_infos]
    were described to streams, and memory holds what [StackMapStream::Encode] wrote for each. When
    [CodeInfoTableDeduper] has copied them all, [CodeInfo] reads from each copy the code size, the
    frame, the flags and the stack maps of the method as they were described, with their inlined
    methods, masks and dex registers, and its lookups by dex PC, native PC and for catch handlers
    find the same rows. *)
Theorem Dedupe_stack_maps equal_range env masks (m : memory) (output num_code_infos : Z) (code_infos : list Placed) :
  (forall d h, equal_range d h ≡ₚ (filter (fun p => p.1 = h) d).*2) ->
  bytes_ok m -> kPageSize <= output < 2 ^ 54 -> 0 <= num_code_infos < 2 ^ 32 ->
  Forall (placed_ok equal_range env masks m output) code_infos ->
  total_bits m (map pl_address code_infos) < 2 ^ 32 ->
  exists d0 offsets d, ReserveDedupeBuffer num_code_infos (MakeDeduper m output) = Some d0 /\
    DedupeAll (map pl_address code_infos) d0 = Some (offsets, d) /\
    Forall2 (fun x offset => reads_method env masks (w_mem (writer_ d)) (output + offset) x) code_infos offsets.
Proof.
  intros Her Hm Ho Hn Hp Ht.
  assert (Forall (source_ok m output) (map pl_address code_infos)) as Hs.
  { apply Forall_map. eapply Forall_impl; [exact Hp|]. intros x Hx. by eapply placed_source. }
  destruct (run_copies m output num_code_infos _ Hm Ho Hn Hs Ht) as (d0 & offsets & d & E0 & E & Hm' & _ & Hc).
  exists d0, offsets, d. split_and!; try done. apply Forall2_fmap_l in Hc. apply Forall2_same_length_lookup.
  split; [by eapply Forall2_length|]. intros i x o Hx Hoi.
  destruct (Forall2_lookup_lr _ _ _ _ _ _ Hc Hx Hoi) as (Hr & Hb & limit & Hl & Hcp).
  eapply (copy_reads equal_range env masks Her m output); try done; [|lia]. by eapply Forall_lookup_1.
Qed.

Lemma Dedupe_stack_maps_witness :
  let code_infos := [SharedExample.placed SharedExample.first; SharedExample.placed SharedExample.second] in
  exists d0 offsets d, ReserveDedupeBuffer 2 (MakeDeduper SharedExample.mem SharedExample.output) = Some d0 /\
    DedupeAll (map pl_address code_infos) d0 = Some (offsets, d) /\
    Forall2 (fun x offset => reads_method StackMapCorrect.Example.env StackMapCorrect.Example.masks (w_mem (writer_ d))
      (SharedExample.output + offset) x) code_infos offsets.
Proof.
  apply (Dedupe_stack_maps StackMapCorrect.Example.equal_range StackMapCorrect.Example.env StackMapCorrect.Example.masks
    SharedExample.mem SharedExample.output 2
    [SharedExample.placed SharedExample.first; SharedExample.placed SharedExample.second]
    StackMapCorrect.Example.equal_range_ok SharedExample.shared_mem_ok SharedExample.output_ok ltac:(lia)).
  - constructor; [exact SharedExample.placed_first|]. constructor; [exact SharedExample.placed_second|done].
  - exact SharedExample.run_size.
Defined.

(** C12: equal tables are stored once. When [CodeInfoTableDeduper] has copied the code infos of any
    number of methods, two tables that have the same number of columns, were encoded to the same
    fields by their streams and have at least [kMinDedupSize] bits are read from the same bits of
    the output. They can be of one method or of two, however many code infos were added between
    them, and the output may have been truncated and the set rehashed meanwhile. *)
Theorem Dedupe_shares equal_range env masks (m : memory) (output num_code_infos : Z) (code_infos : list Placed) :
  (forall d h, equal_range d h ≡ₚ (filter (fun p => p.1 = h) d).*2) ->
  bytes_ok m -> kPageSize <= output < 2 ^ 54 -> 0 <= num_code_infos < 2 ^ 32 ->
  Forall (placed_ok equal_range env masks m output) code_infos ->
  total_bits m (map pl_address code_infos) < 2 ^ 32 ->
  exists d0 offsets d, ReserveDedupeBuffer num_code_infos (MakeDeduper m output) = Some d0 /\
    DedupeAll (map pl_address code_infos) d0 = Some (offsets, d) /\ length offsets = length code_infos /\
    forall i j x y o o', code_infos !! i = Some x -> code_infos !! j = Some y ->
      offsets !! i = Some o -> offsets !! j = Some o' ->
      stored_once (w_mem (writer_ d)) (output + o) (output + o') x y.
Proof.
  intros Her Hm Ho Hn Hp Ht.
  destruct (run_copies m output num_code_infos (map pl_address code_infos) Hm Ho Hn) as (d0 & offsets & d & E0 & E & Hm' & Hi & Hc); [|done|].
  { apply Forall_map. eapply Forall_impl; [exact Hp|]. intros x Hx. by eapply placed_source. }
  exists d0, offsets, d. apply Forall2_fmap_l in Hc. split_and!; try done; [symmetry; by eapply Forall2_length|].
  intros i j x y o o' Hx Hy Hoi Hoj.
  apply (copies_share equal_range env masks Her m (w_mem (writer_ d)) output (dedupe_set_ d)); try done.
  - destruct (Forall2_lookup_lr _ _ _ _ _ _ Hc Hx Hoi) as (Hr & Hb & Hcp). split_and!; try (done || lia). by eapply Forall_lookup_1.
  - destruct (Forall2_lookup_lr _ _ _ _ _ _ Hc Hy Hoj) as (Hr & Hb & Hcp). split_and!; try (done || lia). by eapply Forall_lookup_1.
Qed.

(** The first table of the example has more than [kMinDedupSize] bits. *)
Lemma Dedupe_shares_witness :
  let code_infos := [SharedExample.placed SharedExample.first; SharedExample.placed SharedExample.second] in
  (exists a, all_tables (tables_ StackMapCorrect.Example.stream) !! 0%nat = Some a /\
    kMinDedupSize <= items_bits (stored_items a)) /\
  exists d0 offsets d, ReserveDedupeBuffer 2 (MakeDeduper SharedExample.mem SharedExample.output) = Some d0 /\
    DedupeAll (map pl_address code_infos) d0 = Some (offsets, d) /\ length offsets = length code_infos /\
    forall i j x y o o', code_infos !! i = Some x -> code_infos !! j = Some y ->
      offsets !! i = Some o -> offsets !! j = Some o' ->
      stored_once (w_mem (writer_ d)) (SharedExample.output + o) (SharedExample.output + o') x y.
Proof.
  split; [eexists; split; [reflexivity|vm_compute; discriminate]|].
  apply (Dedupe_shares StackMapCorrect.Example.equal_range StackMapCorrect.Example.env StackMapCorrect.Example.masks
    SharedExample.mem SharedExample.output 2
    [SharedExample.placed SharedExample.first; SharedExample.placed SharedExample.second]
    StackMapCorrect.Example.equal_range_ok SharedExample.shared_mem_ok SharedExample.output_ok ltac:(lia)).
  - constructor; [exact SharedExample.placed_first|]. constructor; [exact SharedExample.placed_second|done].
  - exact SharedExample.run_size.
Defined.
